(* ===== verification/_CoqProject ===== *)
-Q . S2P
Prelude.v
OrdMap.v
Weights.v
Cache.v
Voting.v
Finality.v
Node.v
Fetch.v
Syncer.v
SubnetId.v
Cross.v
Pool.v
Merkle.v
MerkleStandard.v
Validators.v
Ledger.v
Chain.v
Signing.v
Checkpoint.v
Broadcast.v
Interp.v
BytesInterp.v
Query.v
App.v
Stack.v
ProviderCache.v
Accumulator.v
PQ.v
ValidatorSet.v
Abi.v
Staking.v
GatewayFinality.v
SubnetActor.v
Solvency.v
SubnetRuns.v
SolIds.v
Messages.v
MessageFunds.v
MessageDelivery.v
EvmTypes.v
Submission.v
IdsAgree.v
Quorum.v
MessageBatches.v
Mirror.v
Bridge.v
BottomUp.v
Car.v
Chunks.v
Snapshots.v
StateSync.v
Gap.v
Relayer.v
KVStore.v
MemoryStore.v
RocksStore.v
AppStore.v
Gossip.v
