(* ===== verification/Prelude.v ===== *)
(** * A verification development for the IPC node

    IPC connects blockchains ("subnets") in a tree.  A subnet is run by a node,
    Fendermint, under CometBFT consensus; it follows its parent chain, executes what the
    parent sends down, and sends checkpoints up, which a relayer takes to the parent.  On
    every chain there are Solidity contracts: a gateway, and an actor for every subnet.  This
    library models the node from the requests of CometBFT to the calls of the ledger's
    virtual machine and its database, together with the tasks that follow the parent, take
    snapshots and relay checkpoints, and the contracts; and it proves them correct, alone and
    put together.

    ** The program and its model

    A node has a task that polls the parent (the syncer), a task that votes on what it
    has seen, background resolvers, and the interpreter that CometBFT drives.  They
    share a finality provider, a vote tally and two pools, all software transactional
    memory.  The files model them bottom up; paths are relative to src/, and [topdown]
    stands for fendermint/vm/topdown/src.

    The node:

    - [Prelude]: build profiles, outcomes of Rust code, transactions ([stm]),
      asynchronous code ([io]), u64 arithmetic, specifications of both ([keeps],
      [io_spec]), the tactics [inv_done], [stm_unfold] and [solve_keeps], the hint
      databases [ipc] and [keeps].
    - [OrdMap]: the [im::OrdMap] of heights; [Weights]: sums of voting power.
    - [Cache] (topdown/cache.rs): the deque of consecutive heights.
    - [Voting] (topdown/voting.rs): the vote tally, [VoteTally] with one definition per
      method, and the publishing loop [publish_vote_tx], [publish_round].
    - [Finality] (topdown/lib.rs, error.rs, finality/mod.rs, finality/null.rs):
      configuration and the provider [FinalityWithNull], whose cache has null rounds.
    - [Node] (topdown/toggle.rs, proxy.rs, delegations of finality/fetch.rs): the shared
      state [Node] of the tasks, the parent and the ledger as a class, and what it means
      to wait while other tasks run ([Scheduler]).
    - [Fetch] (topdown/finality/fetch.rs, null rounds of lib.rs): reading the parent
      through the cache, with retries.
    - [Syncer] (topdown/sync/): polling rounds, resets, the start of the syncer.
    - [SubnetId], [Cross] (ipc/api/src/subnet_id.rs, address.rs, cross.rs): subnet
      identifiers, qualified addresses and the routing of cross-net messages.
    - [Pool] (fendermint/vm/resolver, fendermint/vm/ipfs_resolver): the resolution
      pools and the background resolvers.
    - [Merkle], [MerkleStandard] (ext/merkle-tree-rs): trees of hashes in one vector,
      their proofs and multi-proofs, and the standard tree over encoded values.
    - [Validators] (validator tree of ipc/api, power tables of fendermint/vm/genesis,
      power changes of fvm/checkpoint.rs, masked addresses of actor_interface).
    - [Ledger] (fendermint/vm/message/src/ipc.rs, fvm/state/exec.rs, fvm/topdown.rs and
      the top-down half of fvm/state/ipc.rs, where fvm stands for
      fendermint/vm/interpreter/src/fvm): messages, the execution state, the machine.
    - [Chain] (fendermint/vm/interpreter/src/chain.rs): proposing, accepting and
      executing blocks.
    - [Signing] (fendermint/vm/message/src/signed.rs, conv/, core/src/chainid.rs): what is
      signed, signatures, and the conversion to and from Ethereum messages.
    - [Checkpoint], [Broadcast] (fvm/checkpoint.rs, fvm/broadcast.rs and the bottom-up
      half of fvm/state/ipc.rs): creating checkpoints, signing and broadcasting.
    - [Interp] (fvm/exec.rs, fvm/check.rs, fvm/upgrades.rs and signed.rs of the
      interpreter): execution and checks of verified messages, upgrades.
    - [BytesInterp] (bytes.rs of the interpreter, message/src/query.rs): raw transactions.
    - [Query] (fvm/query.rs, fvm/state/query.rs): queries and the estimation of gas.
    - [App] (fendermint/app/src/app.rs, parts of tmconv.rs and abci/src/util.rs): the ABCI
      application with its history of states; [Stack] proves that the interpreters above
      satisfy what the application is proved from.
    - [ProviderCache] (ipld/resolver/src/provider_cache.rs): which peers provide which
      subnets; [Gossip] (behaviour/membership.rs, signed_record.rs and vote_record.rs there,
      and the dispatch of votes in fendermint/app/src/cmd/run.rs): how memberships and votes
      spread, and how votes get into the tally.
    - [Accumulator] (fendermint/actors/accumulator/src/shared.rs): the Merkle mountain
      range of the accumulator actor; independent of the files above.

    The contracts (contracts/src):
    - [PQ], [ValidatorSet], [Abi], [Staking] (lib/priority, lib/LibStaking.sol): the heaps of
      validators, the set of validators, the log of changes and the queue of releases.
    - [SubnetActor] (subnet/, lib/LibSubnetActor.sol): joining, staking, leaving, claiming;
      [Solvency] and [SubnetRuns] are theorems and runs of it.
    - [GatewayFinality] (gateway/router/TopDownFinalityFacet.sol): parent finality and
      membership in the gateway of a child; [Mirror]: that it follows the parent.
    - [SolIds], [Messages] (lib/SubnetIDHelper.sol, lib/CrossMsgHelper.sol,
      lib/LibGateway.sol, the facets of gateway/): cross-network messages and funds;
      [MessageFunds], [MessageDelivery], [MessageBatches], [Gap] are theorems about them.
    - [Quorum] (lib/LibQuorum.sol, gateway/router/CheckpointingFacet.sol) and [Submission]
      (subnet/SubnetActorCheckpointingFacet.sol): signatures of checkpoints in the child, and
      their submission to the parent.

    Node and contracts together:
    - [EvmTypes] (ipc/api/src/evm.rs and staking.rs, contracts/binding/src/convert.rs,
      ipc/types/src/ethaddr.rs): conversions of messages, changes and addresses between the
      node and the contracts; [IdsAgree]: identifiers in Rust and in Solidity.
    - [Bridge]: the node on top of the contracts, which discharge the laws that it is proved
      from; [BottomUp]: a checkpoint from the node over the child's contracts to a submission
      to the parent's.
    - [Relayer] (ipc/provider/src/checkpoint.rs, the relayer of manager/evm/manager.rs): the
      daemon that submits checkpoints, with its concurrent tasks, over the contracts.

    Data of the node:
    - [Car] (fvm/state/snapshot.rs, fvm/store), [Chunks], [Snapshots]
      (fendermint/vm/snapshot/src), [StateSync] (the snapshot requests of app.rs): snapshots
      of the state, from one node to another.
    - [KVStore], [MemoryStore] (fendermint/storage/src), [RocksStore]
      (fendermint/rocksdb/src/kvstore.rs): the interface of stores, with a class of laws,
      and the two back ends; [AppStore]: the application on any of them.

    ** How code becomes definitions

    Records and enums keep their shape; a [TVar] is a field of the state of the
    transaction.  A method returning [Stm] or [StmResult] is an [stm]: only [Done]
    commits, [Fail] is [abort], [Retry] is [retry].  An async function is an [io], which
    keeps its effects when it fails; at each await point the function [others] of the
    [Scheduler] is applied, an arbitrary sequence of steps of other tasks.  Heights and
    weights are [N]; arithmetic that can overflow goes through [u64_add] and friends,
    which panic or wrap as the [Profile] says, so each theorem covers debug and release
    builds.  A panic, [unwrap] of [None], [todo!] and a failed [debug_assert!] are
    [Panic].  Logging, metrics and tracing are left out.

    A call of a contract is an [stm] whose [Fail] is a revert; a mapping is a [gmap] with
    default values, and arithmetic is checked as in Solidity 0.8, with the casts and the
    unchecked places of the sources written out.  Events are state only where something
    reads them.  Polled code ([Chunks]) and code with tasks or threads of its own ([Relayer],
    [MemoryStore]) is a step function with an arbitrary schedule.

    Third-party code is a parameter: hashes, keys and messages ([ParentData],
    [ChainIds]), the parent and the ledger ([ParentQueryProxy]), the FVM and the contracts
    ([Machine], [Launch], [CheckpointGateway], with the laws [GatewayLaws] and
    [CheckpointLaws] after contracts/src, [ObjectStoreLaws], [TreeLaws], [ContextLaws]),
    cryptography and encodings ([Keccak], [Abi], [Keys], [EthText], [Crypto],
    [CryptoLaws], [Codec], [CodecLaws]), CometBFT's RPC ([Comet]), the block stores
    ([IpldStore], [AccumulatorData]), genesis ([Backend]), the surroundings of the contracts
    ([ActorEnv], [MessageEnv], [SubmitEnv], [QuorumEnv]: recipients of funds, tokens, keccak
    and the recovery of signers), the CAR format, checksums and files ([CarEnv],
    [CarReaderEnv], [SnapEnv], [SyncEnv]), RocksDB ([Rocks], [RocksLaws]), gossipsub and
    signed envelopes ([Gossipsub], [Envelopes], [EnvelopeLaws]), addresses of the FVM and the ABI
    coder of the node ([FvmAddresses], [FvmAddressLaws]).  For signatures, Merkle trees and
    snapshots collisions of hashes are not assumed away: a theorem says which of the strings that were
    hashed would have to collide.  They are assumed away for the hashes by which the contracts
    compare subnet identifiers ([IdHashLaws]) and for the blocks of the accumulator
    ([AccumulatorLaws]).  The chain interpreter is modelled over an interface of
    the interpreter it wraps ([Inner]), which [Interp.fvm_inner] implements.  The modules
    whose names start with [Sample] give concrete instances, on which the witnesses
    evaluate the definitions.

    ** What is proved

    - Refinement: the cache is a contiguous finite map ([cache_simulates_map]).
    - Voting: [find_quorum] returns the highest block with a quorum; quorums intersect
      in more than a third; no validator votes twice at a height, the own publishing loop
      never equivocates; the tally's chain is contiguous.
    - Finality: what is proposed and accepted, on every branch; the cache stays
      contiguous and attached to the committed height.
    - Reading and syncing: range queries return what the blocks hold however much is
      cached; retries are bounded; the provider and the tally stay in lockstep
      whatever the parent answers and the other tasks do; a round ends, and with an honest parent catches up.
    - Execution: a proposer's block is accepted by every validator with the same view,
      down to the bytes and size limits of the application, and delivering parent
      finalities executes every parent height exactly once.
    - Application: a block is committed as a whole or not at all, with the history of
      states pruned to the configured length.
    - Signatures: what is signed determines the message and the chain, signing and
      verifying agree, nothing is executed without a valid signature; Ethereum messages
      survive the conversion.
    - Mempool, upgrades, queries: admitted messages are payable and in sequence, an
      upgrade runs at its height, queries do not disturb each other, the gas search ends.
    - Checkpoints: a checkpoint commits the outgoing validators, its updates lead to the
      adopted ones, in the consensus engine and in the vote tally; signatures of
      validators come with a proof that the committed root accepts.
    - Merkle trees: validity, proofs and multi-proofs against the tree they come from,
      and soundness of the validators' proofs.
    - Pools: no resolution is lost, exactly the resolved items are collected.
    - Provider cache: records take effect exactly, pruning spares pinned and large
      subnets, and stale peers disappear.
    - Gossip: only votes that their validators signed are counted, and votes that arrive make
      a quorum; topics follow the provided subnets.
    - Accumulator: it implements a list, and its root commits to the list.
    - Identifiers: print/parse round trips, lowest common subnets, message routing; the
      contracts compute the same for the subnets of a root network.  Messages and changes of
      validators survive the conversion to the types of the node and back.
    - Validators in the contracts: the heaps and the set stay in order and active validators
      are the strongest ones; the child's validators are the parent's.
    - Funds: the subnet actor can always pay what it owes, the initial balances short of what
      it has returned without clearing them, and so can the gateway with native coins; what is
      sent down arrives once and in order.
    - Checkpoints in the contracts: no period is skipped, quorums intersect, when the parent
      accepts what the child has collected, batches are bounded and hold every message once;
      and a checkpoint that enough nodes sign gets from the node to the parent's contracts.
    - Relayer: its rounds end and bring one more checkpoint each, under any interleaving.
    - State sync: nothing but a verified state is adopted, and a snapshot of an honest node
      is adopted completely; splitting into chunks ends and keeps every byte.
    - Storage: transactions are serializable; the application on a store does what its model
      does on maps.
    - Defects: [reset_stalls], [first_topdown_exec_panics], [next_proposal_underflow],
      [quorum_threshold_spec], [down_up_spec], [process_multi_proof_total],
      [eth_signature_gaps], [chain_id_bounds] and [query_before_genesis] of the node,
      [one_signer_suffices], [token_takes_native], [withdrawal_skips_topdown],
      [genesis_withdrawal_blocks], [gap_blocks_forever], [rounded_quorum_rejected],
      [unreadable_funds], the balances returned in [always_solvent] and the directions in
      [ids_agree] of the contracts, [failures_unreported] of the relayer, [failed_write_poisons] of the
      stores and [votes_reach_quorum] of the gossip, which counts votes of other subnets,
      state what goes wrong and when.

    ** Bounds and fuel

    Loops over a range of heights recurse on the length of the range.  The polling loop
    of [sync] has the number of missing heights as fuel, which [sync_ends] shows to be
    enough.  The loops that wait for the ledger or the parent are unbounded in the code;
    they take the number of [tries] as an argument, and the theorems about them assume
    that the ledger answers.  The retry macro recurses on its retry limit.  The loop that
    prunes the history has the heights to prune as fuel, the search for a gas limit the
    number of steps after which the limit exceeds a block's ([gas_search_spec]), the
    loops over Merkle trees the size of the tree, those over heaps their depth or size.
    Polled code has the polls of its schedule as fuel, and [split_spec] shows that a schedule
    with enough progress is enough; the relayer has a measure that every step decreases.

    ** What is not modelled

    The RPC clients, the fees and receipts of transactions; the rest of the libp2p stack
    (discovery, the exchange of content); the FVM and its actors beyond the laws above and
    the accumulator; the diamonds, getters, registry and events of the contracts, and
    contracts that call back while they are paid; genesis; texts of responses; configuration
    of the database; the Ethereum API, the wallets and the command line.  They are calls of
    third-party code, data definitions or wiring. *)

From Stdlib Require Export Lia.
From stdpp Require Export base tactics numbers strings sorting gmap list.

#[global] Open Scope N_scope.

(** ** Build profile

    Cargo profiles decide whether integer overflow panics and whether
    [debug_assert!] is compiled in.  Every definition that does machine
    arithmetic takes the profile as an implicit argument, so one theorem covers
    the development and the release build. *)

Class Profile := {
  overflow_checks : bool;
  debug_assertions : bool
}.

Definition dev_profile : Profile :=
  {| overflow_checks := true; debug_assertions := true |}.
Definition release_profile : Profile :=
  {| overflow_checks := false; debug_assertions := false |}.

(** ** Outcomes

    The possible ends of a Rust computation: a value, an error ([Err] or the
    [abort] of an STM transaction), an STM [retry] (the transaction blocks until
    one of the variables it has read changes), a panic, or a loop that has used
    up the fuel of the model. *)

Inductive outcome (E A : Type) : Type :=
| Done (a : A)
| Fail (e : E)
| Retry
| Panic
| OutOfFuel.
Arguments Done {E A} a.
Arguments Fail {E A} e.
Arguments Retry {E A}.
Arguments Panic {E A}.
Arguments OutOfFuel {E A}.

#[export] Instance outcome_ret E : MRet (outcome E) := λ A a, Done a.
#[export] Instance outcome_bind E : MBind (outcome E) := λ A B f m,
  match m with
  | Done a => f a
  | Fail e => Fail e
  | Retry => Retry
  | Panic => Panic
  | OutOfFuel => OutOfFuel
  end.
#[export] Instance outcome_fmap E : FMap (outcome E) := λ A B f m,
  match m with
  | Done a => Done (f a)
  | Fail e => Fail e
  | Retry => Retry
  | Panic => Panic
  | OutOfFuel => OutOfFuel
  end.

Definition map_err {E F A} (f : E → F) (m : outcome E A) : outcome F A :=
  match m with
  | Done a => Done a
  | Fail e => Fail (f e)
  | Retry => Retry
  | Panic => Panic
  | OutOfFuel => OutOfFuel
  end.

(** [Option::unwrap] and [unreachable!]. *)
Definition unwrap {E A} (o : option A) : outcome E A :=
  match o with Some a => Done a | None => Panic end.

(** Whether a computation has a value, and that value. *)
Definition is_done {E A} (m : outcome E A) : bool :=
  match m with Done _ => true | _ => false end.
Definition done_or {E A} (d : A) (m : outcome E A) : A :=
  match m with Done a => a | _ => d end.

Lemma done_or_eq {E A} (d : A) (m : outcome E A) : is_done m = true → m = Done (done_or d m).
Proof. by destruct m. Qed.

(** ** Transactions

    An STM action over the transactional state [S]: the variables it writes are
    the components of the state it returns.  Only a [Done] commits. *)

Definition stm (S E A : Type) : Type := S → outcome E (A * S).

#[export] Instance stm_ret S E : MRet (stm S E) := λ A a s, Done (a, s).
#[export] Instance stm_bind S E : MBind (stm S E) := λ A B f m s,
  match m s with
  | Done (a, s') => f a s'
  | Fail e => Fail e
  | Retry => Retry
  | Panic => Panic
  | OutOfFuel => OutOfFuel
  end.

Section stm_ops.
Context {S E : Type}.

(** [TVar::read]: the component [f] of the state. *)
Definition reads {A} (f : S → A) : stm S E A := λ s, Done (f s, s).
(** [TVar::write], [TVar::update]: replace components of the state. *)
Definition modify (f : S → S) : stm S E unit := λ s, Done (tt, f s).
Definition abort {A} (e : E) : stm S E A := λ _, Fail e.
Definition retry {A} : stm S E A := λ _, Retry.
Definition lift {A} (m : outcome E A) : stm S E A := λ s, a ← m; Done (a, s).

(** [atomically_or_err] on an otherwise idle system: a transaction that commits
    installs the new state, one that aborts leaves the old one. *)
Definition atomically_or_err {A} (tx : stm S E A) (s : S) : outcome E A * S :=
  match tx s with
  | Done (a, s') => (Done a, s')
  | Fail e => (Fail e, s)
  | Retry => (Retry, s)
  | Panic => (Panic, s)
  | OutOfFuel => (OutOfFuel, s)
  end.
End stm_ops.

Definition stm_map_err {S E F A} (f : E → F) (tx : stm S E A) : stm S F A :=
  λ s, map_err f (tx s).

(** A transaction on one part of a larger state. *)
Definition zoom {S T E A} (get : T → S) (put : S → T → T)
    (tx : stm S E A) : stm T E A :=
  λ t, (λ '(a, s), (a, put s t)) <$> tx (get t).

(** ** Asynchronous code

    Code with effects outside transactions: unlike a transaction it keeps what it
    did before it failed. *)

Definition io (S E A : Type) : Type := S → outcome E A * S.

#[export] Instance io_ret S E : MRet (io S E) := λ A a s, (Done a, s).
#[export] Instance io_bind S E : MBind (io S E) := λ A B f m s,
  match m s with
  | (Done a, s') => f a s'
  | (Fail e, s') => (Fail e, s')
  | (Retry, s') => (Retry, s')
  | (Panic, s') => (Panic, s')
  | (OutOfFuel, s') => (OutOfFuel, s')
  end.

Section io_ops.
Context {S E : Type}.

Definition io_reads {A} (f : S → A) : io S E A := λ s, (Done (f s), s).
Definition io_of {A} (m : outcome E A) : io S E A := λ s, (m, s).
(** Continue with what came of a computation, as [match] on a [Result] does. *)
Definition attempt {F A} (m : io S E A) : io S F (E + A) := λ s,
  match m s with
  | (Done a, s') => (Done (inr a), s')
  | (Fail e, s') => (Done (inl e), s')
  | (Retry, s') => (Retry, s')
  | (Panic, s') => (Panic, s')
  | (OutOfFuel, s') => (OutOfFuel, s')
  end.
End io_ops.

Definition io_map_err {S E F A} (f : E → F) (m : io S E A) : io S F A := λ s,
  let '(r, s') := m s in (map_err f r, s').

(** ** Unsigned 64-bit arithmetic *)

Abbreviation u64_size := 18446744073709551616.
Definition u64_max : N := 18446744073709551615.
Definition in_u64 (n : N) : Prop := n < u64_size.

Section arith.
Context `{Profile} {E : Type}.

(** The result of an operation whose exact value is the integer [z]. *)
Definition u64_wrap (z : Z) : outcome E N :=
  if bool_decide (0 ≤ z < Z.of_N u64_size)%Z then Done (Z.to_N z)
  else if overflow_checks then Panic
  else Done (Z.to_N (z `mod` Z.of_N u64_size)).

Definition u64_add (a b : N) : outcome E N := u64_wrap (Z.of_N a + Z.of_N b).
Definition u64_sub (a b : N) : outcome E N := u64_wrap (Z.of_N a - Z.of_N b).
Definition u64_mul (a b : N) : outcome E N := u64_wrap (Z.of_N a * Z.of_N b).
(** Division by zero panics under every profile. *)
Definition u64_div (a b : N) : outcome E N :=
  if bool_decide (b = 0) then Panic else Done (a / b).

Lemma u64_wrap_in_range z :
  (0 ≤ z < Z.of_N u64_size)%Z → u64_wrap z = Done (Z.to_N z).
Proof. intros ?. unfold u64_wrap. by rewrite bool_decide_eq_true_2. Qed.

Lemma u64_add_ok a b : a + b < u64_size → u64_add a b = Done (a + b).
Proof.
  intros ?. unfold u64_add. rewrite u64_wrap_in_range by lia. f_equal; lia.
Qed.
Lemma u64_sub_ok a b : b ≤ a → a < u64_size → u64_sub a b = Done (a - b).
Proof.
  intros ??. unfold u64_sub. rewrite u64_wrap_in_range by lia. f_equal; lia.
Qed.
Lemma u64_mul_ok a b : a * b < u64_size → u64_mul a b = Done (a * b).
Proof.
  intros ?. unfold u64_mul. rewrite u64_wrap_in_range by lia. f_equal; lia.
Qed.
Lemma u64_div_ok a b : b ≠ 0 → u64_div a b = Done (a / b).
Proof. intros ?. unfold u64_div. by rewrite bool_decide_eq_false_2. Qed.

(** Whatever the profile, an operation that returns, returns a 64-bit value. *)
Lemma u64_wrap_bound z n : u64_wrap z = Done n → n < u64_size.
Proof.
  unfold u64_wrap. case_bool_decide; [intros [= <-]; lia|].
  destruct overflow_checks; intros [= <-].
  pose proof (Z.mod_pos_bound z (Z.of_N u64_size)). lia.
Qed.
End arith.

(** ** Inversion and automation *)

#[export] Instance Done_inj {E A} : Inj (=) (=) (Done (E:=E) (A:=A)).
Proof. by intros x y [= ->]. Qed.

Lemma outcome_bind_Done {E A B} (m : outcome E A) (f : A → outcome E B) b :
  m ≫= f = Done b ↔ ∃ a, m = Done a ∧ f a = Done b.
Proof. destruct m; naive_solver. Qed.

Lemma stm_bind_Done {S E A B} (m : stm S E A) (f : A → stm S E B) s r :
  (m ≫= f) s = Done r ↔ ∃ a s', m s = Done (a, s') ∧ f a s' = Done r.
Proof.
  unfold mbind, stm_bind. destruct (m s) as [[]| | | |]; naive_solver.
Qed.

Lemma lift_Done {S E A} (m : outcome E A) (s : S) r :
  lift m s = Done r ↔ ∃ a, m = Done a ∧ r = (a, s).
Proof. unfold lift. destruct m; naive_solver. Qed.

(** An aborted, blocked or panicking transaction has no effect. *)
Lemma atomically_no_commit {S E A} (tx : stm S E A) s :
  (∀ r, tx s ≠ Done r) → (atomically_or_err tx s).2 = s.
Proof. unfold atomically_or_err. destruct (tx s) as [[]| | | |]; naive_solver. Qed.

(** Take a monadic equation [m = Done _] apart. *)
Ltac inv_done :=
  repeat match goal with
  | H : _ ≫= _ = Done _ |- _ =>
      apply outcome_bind_Done in H; destruct H as (? & ? & ?)
  | H : (_ ≫= _) _ = Done _ |- _ =>
      apply stm_bind_Done in H; destruct H as (? & ? & ? & ?)
  | H : lift _ _ = Done _ |- _ =>
      apply lift_Done in H; destruct H as (? & ? & ?)
  | H : reads _ _ = Done _ |- _ => unfold reads in H
  | H : modify _ _ = Done _ |- _ => unfold modify in H
  | H : abort _ _ = Done _ |- _ => discriminate H
  | H : retry _ = Done _ |- _ => discriminate H
  | H : mret _ _ = Done _ |- _ => unfold mret, stm_ret in H
  | H : mret _ = Done _ |- _ => unfold mret, outcome_ret in H
  | H : Done _ = Done _ |- _ => injection H as H
  | H : (_, _) = (_, _) |- _ => injection H as H
  end; simplify_eq/=.

(** Unfold the monadic plumbing of a goal and evaluate it. *)
Ltac stm_unfold :=
  unfold zoom, stm_map_err, reads, modify, abort, retry, lift;
  unfold mbind, stm_bind, outcome_bind, mret, stm_ret, outcome_ret;
  cbv beta iota.

Create HintDb ipc.
#[export] Hint Resolve u64_add_ok u64_sub_ok u64_mul_ok u64_div_ok : ipc.
#[export] Hint Extern 5 (_ < _) => lia : ipc.
#[export] Hint Extern 5 (_ ≤ _) => lia : ipc.

(** ** Specifications

    [keeps R tx]: what a transaction commits is related to what it found.
    [io_spec P m Q R]: from a state satisfying [P], the code ends with a result and state
    satisfying [Q], or in some other way with a state satisfying [R]. *)

Definition keeps {S E A} (R : S → S → Prop) (tx : stm S E A) : Prop :=
  ∀ s x s', tx s = Done (x, s') → R s s'.

Section keeps.
Context {S E : Type} (R : S → S → Prop) `{!Reflexive R, !Transitive R}.

Lemma keeps_ret {A} (a : A) : keeps (E:=E) R (mret a).
Proof. intros s x s' [= <- <-]. done. Qed.
Lemma keeps_reads {A} (f : S → A) : keeps (E:=E) R (reads f).
Proof. intros s x s' [= <- <-]. done. Qed.
Lemma keeps_lift {A} (m : outcome E A) : keeps R (lift m).
Proof. intros s x s' (a & _ & [= -> ->])%lift_Done. done. Qed.
Lemma keeps_abort {A} (e : E) : keeps R (abort (A:=A) e).
Proof. done. Qed.
Lemma keeps_bind {A B} (m : stm S E A) (f : A → stm S E B) :
  keeps R m → (∀ a, keeps R (f a)) → keeps R (m ≫= f).
Proof.
  intros Hm Hf s x s' (a & s1 & H1%Hm & H2%Hf)%stm_bind_Done. by transitivity s1.
Qed.
Lemma keeps_modify (f : S → S) : (∀ s, R s (f s)) → keeps (E:=E) R (modify f).
Proof. intros Hf s x s' [= <- <-]. done. Qed.
End keeps.

Create HintDb keeps.
#[export] Hint Resolve keeps_ret keeps_reads keeps_lift keeps_abort : keeps.

(** Go through a transaction down to the operations that the database knows. *)
Ltac keeps_step :=
  match goal with
  | |- keeps _ (_ ≫= _) => apply keeps_bind; [apply _| |intros ?]
  | |- keeps _ (mret _) => apply keeps_ret; apply _
  | |- keeps _ (if ?b then _ else _) => destruct b
  | |- keeps _ (match ?x with _ => _ end) => destruct x eqn:?
  | |- keeps _ _ => solve [eauto with keeps typeclass_instances]
  end.
Ltac solve_keeps := repeat keeps_step.

Definition io_spec {S E A} (P : S → Prop) (m : io S E A) (Q : A → S → Prop) (R : S → Prop) : Prop :=
  ∀ s, P s → match m s with (Done a, s') => Q a s' | (_, s') => R s' end.

Lemma io_run_bind {S E A B} (m : io S E A) (f : A → io S E B) s a s' :
  m s = (Done a, s') → (m ≫= f) s = f a s'.
Proof. intros Hm. unfold mbind, io_bind. by rewrite Hm. Qed.

Lemma io_bind_Done {S E A B} (m : io S E A) (f : A → io S E B) s b s' :
  (m ≫= f) s = (Done b, s') ↔ ∃ a s1, m s = (Done a, s1) ∧ f a s1 = (Done b, s').
Proof. unfold mbind, io_bind. destruct (m s) as [[| | | |] ?]; naive_solver. Qed.
Lemma io_of_Done {S E A} (m : outcome E A) (s : S) a s' : io_of m s = (Done a, s') ↔ m = Done a ∧ s' = s.
Proof. unfold io_of. naive_solver. Qed.
Lemma io_map_err_Done {S E F A} (f : E → F) (m : io S E A) s a s' :
  io_map_err f m s = (Done a, s') ↔ m s = (Done a, s').
Proof. unfold io_map_err. destruct (m s) as [[| | | |] ?]; naive_solver. Qed.
Lemma io_reads_Done {S E A} (f : S → A) (s : S) a s' : io_reads (E:=E) f s = (Done a, s') ↔ a = f s ∧ s' = s.
Proof. unfold io_reads. naive_solver. Qed.
Lemma io_ret_Done {S E A} (a : A) (s : S) b s' : mret (M:=io S E) a s = (Done b, s') ↔ b = a ∧ s' = s.
Proof. unfold mret, io_ret. naive_solver. Qed.

(** Take a run of asynchronous code that ends with a value apart. *)
Ltac inv_io :=
  repeat match goal with
  | H : (_ ≫= _) _ = (Done _, _) |- _ => apply io_bind_Done in H; destruct H as (? & ? & ? & ?)
  | H : io_of _ _ = (Done _, _) |- _ => apply io_of_Done in H; destruct H as [? ->]
  | H : io_map_err _ _ _ = (Done _, _) |- _ => apply io_map_err_Done in H
  | H : io_reads _ _ = (Done _, _) |- _ => apply io_reads_Done in H; destruct H as [-> ->]
  | H : mret _ _ = (Done _, _) |- _ => apply io_ret_Done in H; destruct H as [? ->]
  | H : Fail _ = Done _ |- _ => discriminate H
  end.

Section io_spec.
Context {S E : Type}.
Implicit Types (P R : S → Prop).

Lemma io_spec_ret {A} P R (a : A) : io_spec (E:=E) P (mret a) (λ x s, x = a ∧ P s) R.
Proof. done. Qed.
Lemma io_spec_reads {A} P R (f : S → A) : io_spec (E:=E) P (io_reads f) (λ x s, x = f s ∧ P s) R.
Proof. done. Qed.
Lemma io_spec_of {A} P (m : outcome E A) : io_spec P (io_of m) (λ x s, m = Done x ∧ P s) P.
Proof. intros s Hs. unfold io_of. by destruct m. Qed.
Lemma io_spec_bind {A B} P (m : io S E A) (f : A → io S E B) Q1 Q R :
  io_spec P m Q1 R → (∀ a, io_spec (Q1 a) (f a) Q R) → io_spec P (m ≫= f) Q R.
Proof.
  intros Hm Hf s Hs. specialize (Hm s Hs). unfold mbind, io_bind.
  destruct (m s) as [[a| | | |] s'] eqn:Heq; [by apply Hf|done..].
Qed.
Lemma io_spec_conseq {A} P P' (m : io S E A) Q Q' R R' :
  io_spec P' m Q' R' → (∀ s, P s → P' s) → (∀ a s, Q' a s → Q a s) → (∀ s, R' s → R s) →
  io_spec P m Q R.
Proof.
  intros Hm HP HQ HR s Hs. specialize (Hm s (HP s Hs)). destruct (m s) as [[| | | |] s']; auto.
Qed.
Lemma io_spec_fact {A} P (m : io S E A) Q R : (∀ s, P s → io_spec (eq s) m Q R) → io_spec P m Q R.
Proof. intros Hm s Hs. by apply (Hm s Hs). Qed.
End io_spec.

(** ** Lists *)

Section lists.
Context {A : Type}.
Implicit Types (l : list A) (x : A).

Lemma head_lookup l : head l = l !! 0%nat.
Proof. by destruct l. Qed.

Lemma head_last_None l : head l = None ↔ last l = None.
Proof. rewrite head_None, last_None. done. Qed.

Lemma last_is_Some_head l x : last l = Some x → is_Some (head l).
Proof. destruct l; [done|]. naive_solver. Qed.

Lemma head_is_Some_last l x : head l = Some x → is_Some (last l).
Proof. rewrite last_is_Some. by destruct l. Qed.
End lists.

(** The numbers [a], [a+1], ..., [a+n-1]. *)
Fixpoint range_up (a : N) (n : nat) : list N :=
  match n with O => [] | S n => a :: range_up (N.succ a) n end.

(** The Rust range [a..=b], in order. *)
Definition range_incl (a b : N) : list N :=
  range_up a (N.to_nat (N.succ b - a)).

Lemma elem_of_range_up a n x :
  x ∈ range_up a n ↔ a ≤ x < a + N.of_nat n.
Proof.
  revert a. induction n as [|n IH]; intros a; simpl.
  - rewrite elem_of_nil. lia.
  - rewrite elem_of_cons, IH. lia.
Qed.

Lemma elem_of_range_incl a b x : x ∈ range_incl a b ↔ a ≤ x ≤ b.
Proof. unfold range_incl. rewrite elem_of_range_up. lia. Qed.

Lemma range_up_snoc a n : range_up a (S n) = range_up a n ++ [a + N.of_nat n].
Proof.
  revert a. induction n as [|n IH]; intros a.
  - simpl. f_equal. lia.
  - change (a :: range_up (N.succ a) (S n) = (a :: range_up (N.succ a) n) ++ [a + N.of_nat (S n)]).
    rewrite IH. simpl. do 3 f_equal. lia.
Qed.

Lemma range_up_app a n m : range_up a (n + m) = range_up a n ++ range_up (a + N.of_nat n) m.
Proof.
  revert a. induction n as [|n IH]; intros a; simpl; [f_equal; lia|].
  rewrite IH. do 3 f_equal. lia.
Qed.

(** ** Maps *)

(** The order in which a [HashMap] is visited is not specified. *)
Class HashOrder (K : Type) `{Countable K} := {
  hash_iter {A} : gmap K A → list (K * A);
  hash_iter_perm {A} (m : gmap K A) : hash_iter m ≡ₚ map_to_list m
}.
