(* ===== verification/OrdMap.v ===== *)
(** * Ordered maps

    The program keeps per-height data in [im::OrdMap<BlockHeight, _>].  The model
    is a [gmap N _] together with the operations that depend on the order of the
    keys: [get_min], [get_max], [split] and iteration in key order. *)

From S2P Require Import Prelude.

Section ordmap.
Context {A : Type}.
Implicit Types (m : gmap N A) (k : N) (x : A).

Definition key_le (p q : N * A) : Prop := p.1 ≤ q.1.

#[export] Instance key_le_dec : RelDecision key_le.
Proof. intros p q. unfold key_le. apply _. Defined.
#[export] Instance key_le_total : Total key_le.
Proof. intros p q. unfold key_le. lia. Qed.
#[export] Instance key_le_trans : Transitive key_le.
Proof. intros p q r. unfold key_le. lia. Qed.

(** [OrdMap::iter]: the entries in ascending order of the keys. *)
Definition om_iter m : list (N * A) := merge_sort key_le (map_to_list m).

Definition get_min m : option (N * A) := head (om_iter m).
Definition get_max m : option (N * A) := last (om_iter m).

(** [OrdMap::split]: the keys below and the keys above the pivot; an entry at the
    pivot is discarded. *)
Definition om_split k m : gmap N A * gmap N A :=
  (filter (λ p, p.1 < k) m, filter (λ p, k < p.1) m).

Lemma elem_of_om_iter m k x : (k, x) ∈ om_iter m ↔ m !! k = Some x.
Proof.
  unfold om_iter. rewrite merge_sort_Permutation. apply elem_of_map_to_list.
Qed.

Lemma om_iter_sorted m : StronglySorted key_le (om_iter m).
Proof. apply StronglySorted_merge_sort; apply _. Qed.

Lemma om_iter_NoDup m : NoDup (om_iter m).*1.
Proof.
  unfold om_iter. rewrite merge_sort_Permutation. apply NoDup_fst_map_to_list.
Qed.

(** A key occurs once, so the order is strict. *)
Lemma om_iter_strict m : StronglySorted (λ p q : N * A, p.1 < q.1) (om_iter m).
Proof.
  pose proof (om_iter_sorted m) as Hs. pose proof (om_iter_NoDup m) as Hnd.
  induction Hs as [|[k x] l Hs IH Hall]; constructor; simpl in *.
  - apply IH. by apply NoDup_cons in Hnd as [_ ?].
  - apply NoDup_cons in Hnd as [Hni _]. rewrite Forall_forall in Hall |- *.
    intros [k' x'] Hin. specialize (Hall _ Hin). unfold key_le in Hall. simpl in *.
    assert (k ≠ k'); [|lia]. intros <-. apply Hni.
    apply list_elem_of_fmap. by exists (k, x').
Qed.

Lemma om_iter_nil m : om_iter m = [] ↔ m = ∅.
Proof.
  rewrite <-map_to_list_empty_iff. unfold om_iter. split; intros Hm.
  - apply Permutation_nil_r. by rewrite <-Hm, merge_sort_Permutation.
  - by rewrite Hm.
Qed.

Lemma StronglySorted_head_min (l : list (N * A)) p q :
  StronglySorted key_le l → head l = Some p → q ∈ l → p.1 ≤ q.1.
Proof.
  destruct 1 as [|a l Hs Hall]; [done|]. intros [= <-] [->|Hin]%elem_of_cons; [done|].
  by apply (proj1 (Forall_forall _ _) Hall).
Qed.

Lemma StronglySorted_last_max (l : list (N * A)) p q :
  StronglySorted key_le l → last l = Some p → q ∈ l → q.1 ≤ p.1.
Proof.
  induction 1 as [|a l Hs IH Hall]; [done|]. rewrite last_cons.
  destruct (last l) as [p'|] eqn:Hl.
  - intros [= ->] [->|Hin]%elem_of_cons; [|by apply IH].
    apply (proj1 (Forall_forall _ _) Hall). by apply last_Some_elem_of.
  - apply last_None in Hl as ->. intros [= ->] ->%list_elem_of_singleton. done.
Qed.

Lemma get_min_Some m k x :
  get_min m = Some (k, x) ↔
  m !! k = Some x ∧ ∀ k', is_Some (m !! k') → k ≤ k'.
Proof.
  unfold get_min. split.
  - intros Hh. split.
    + apply elem_of_om_iter. by apply head_Some_elem_of.
    + intros k' [x' Hk']. apply elem_of_om_iter in Hk'.
      by apply (StronglySorted_head_min _ _ _ (om_iter_sorted m) Hh Hk').
  - intros [Hk Hmin]. apply elem_of_om_iter in Hk as Hin.
    destruct (head (om_iter m)) as [[k' x']|] eqn:Hh.
    + pose proof (StronglySorted_head_min _ _ _ (om_iter_sorted m) Hh Hin).
      apply head_Some_elem_of, elem_of_om_iter in Hh.
      assert (k = k') as <- by (assert (k ≤ k') by (apply Hmin; eauto); simpl in *; lia).
      congruence.
    + apply head_None in Hh. rewrite Hh in Hin. by apply elem_of_nil in Hin.
Qed.

Lemma get_max_Some m k x :
  get_max m = Some (k, x) ↔
  m !! k = Some x ∧ ∀ k', is_Some (m !! k') → k' ≤ k.
Proof.
  unfold get_max. split.
  - intros Hh. split.
    + apply elem_of_om_iter. by apply last_Some_elem_of.
    + intros k' [x' Hk']. apply elem_of_om_iter in Hk'.
      by apply (StronglySorted_last_max _ _ _ (om_iter_sorted m) Hh Hk').
  - intros [Hk Hmax]. apply elem_of_om_iter in Hk as Hin.
    destruct (last (om_iter m)) as [[k' x']|] eqn:Hh.
    + pose proof (StronglySorted_last_max _ _ _ (om_iter_sorted m) Hh Hin).
      apply last_Some_elem_of, elem_of_om_iter in Hh.
      assert (k = k') as <- by (assert (k' ≤ k) by (apply Hmax; eauto); simpl in *; lia).
      congruence.
    + apply last_None in Hh. rewrite Hh in Hin. by apply elem_of_nil in Hin.
Qed.

Lemma get_min_None m : get_min m = None ↔ m = ∅.
Proof. unfold get_min. rewrite head_None. apply om_iter_nil. Qed.

Lemma get_max_None m : get_max m = None ↔ m = ∅.
Proof. unfold get_max. rewrite last_None. apply om_iter_nil. Qed.

Lemma get_min_is_Some m k : is_Some (m !! k) → ∃ k' x, get_min m = Some (k', x).
Proof.
  intros [x Hk]. destruct (get_min m) as [[]|] eqn:Hm; [eauto|].
  apply get_min_None in Hm as ->. done.
Qed.

Lemma get_max_is_Some m k : is_Some (m !! k) → ∃ k' x, get_max m = Some (k', x).
Proof.
  intros [x Hk]. destruct (get_max m) as [[]|] eqn:Hm; [eauto|].
  apply get_max_None in Hm as ->. done.
Qed.

Lemma lookup_split_above k m k' :
  (om_split k m).2 !! k' = if bool_decide (k < k') then m !! k' else None.
Proof.
  simpl. apply option_eq. intros x. rewrite map_lookup_filter_Some.
  case_bool_decide; naive_solver.
Qed.

Lemma get_max_insert_above m k x :
  (∀ k', is_Some (m !! k') → k' ≤ k) → get_max (<[k:=x]> m) = Some (k, x).
Proof.
  intros Hle. apply get_max_Some. split; [by rewrite lookup_insert_eq|].
  intros k'. rewrite lookup_insert. case_decide; [lia|apply Hle].
Qed.

Lemma get_min_insert_below m k x :
  (∀ k', is_Some (m !! k') → k ≤ k') → get_min (<[k:=x]> m) = Some (k, x).
Proof.
  intros Hle. apply get_min_Some. split; [by rewrite lookup_insert_eq|].
  intros k'. rewrite lookup_insert. case_decide; [lia|apply Hle].
Qed.

(** *** Iteration from the largest key down *)

Lemma om_rev_split m l1 k x l2 p :
  reverse (om_iter m) = l1 ++ (k, x) :: l2 → p ∈ reverse (om_iter m) →
  p ∈ l1 ++ [(k, x)] ↔ k ≤ p.1.
Proof.
  intros Hl Hp. pose proof (om_iter_strict m) as Hs.
  assert (om_iter m = reverse l2 ++ (k, x) :: reverse l1) as Hi.
  { rewrite <-(reverse_involutive (om_iter m)), Hl, reverse_app, reverse_cons.
    by rewrite <-app_assoc. }
  rewrite Hi in Hs. rewrite elem_of_app, list_elem_of_singleton. split.
  - intros [Hin| ->]; [|done].
    apply StronglySorted_app_1_r, StronglySorted_cons in Hs as [Hall _].
    rewrite Forall_forall in Hall. assert (k < p.1); [|lia].
    apply (Hall p). by apply elem_of_reverse.
  - intros Hle. rewrite Hl in Hp. apply elem_of_app in Hp as [?|Hp]; [by left|].
    apply elem_of_cons in Hp as [->|Hp]; [by right|].
    apply elem_of_reverse in Hp. pose proof (StronglySorted_app_1_elem_of _ _ _ _ _ Hs Hp
      (list_elem_of_here (k, x) (reverse l1))) as Hlt. simpl in Hlt. lia.
Qed.

Lemma om_rev_order m l1 k x l2 l1' k' x' l2' :
  reverse (om_iter m) = l1 ++ (k, x) :: l2 →
  reverse (om_iter m) = l1' ++ (k', x') :: l2' →
  (length l1 ≤ length l1')%nat → k' ≤ k.
Proof.
  intros Hl Hl' Hlen. apply N.nlt_ge. intros Hlt.
  assert ((k', x') ∈ reverse (om_iter m)) as Hin by (rewrite Hl'; set_solver).
  pose proof (proj2 (om_rev_split m _ _ _ _ _ Hl Hin)) as Hin1. simpl in Hin1.
  apply elem_of_app in Hin1 as [Hin1|Hin1%list_elem_of_singleton]; [|simplify_eq; lia|lia].
  apply list_elem_of_lookup in Hin1 as [i Hi].
  pose proof (lookup_lt_Some _ _ _ Hi) as Hi_lt.
  assert (NoDup (reverse (om_iter m))) as Hnd.
  { rewrite reverse_Permutation. eapply NoDup_fmap_1, om_iter_NoDup. }
  assert (i = length l1'); [|lia].
  eapply NoDup_lookup; [exact Hnd| |].
  - rewrite Hl, lookup_app_l by done. exact Hi.
  - by rewrite Hl', list_lookup_middle.
Qed.
End ordmap.
