(* ===== verification/Weights.v ===== *)
(** * Weights of sets of validators

    Sums of the weights a power table assigns to a finite set of keys, and the
    arithmetic of two-thirds quorums.  Shared by the block and the object votes of
    the vote tally. *)

From S2P Require Import Prelude.

Definition sumN (l : list N) : N := foldr N.add 0 l.

(** [Iterator::sum] over [u64]: the additions are checked or wrap, by profile. *)
Definition u64_sum `{Profile} {E} (l : list N) : outcome E N :=
  foldl (λ acc x, a ← acc; u64_add a x) (Done 0) l.

Lemma sumN_app l1 l2 : sumN (l1 ++ l2) = sumN l1 + sumN l2.
Proof. induction l1 as [|x l1 IH]; simpl; lia. Qed.

#[export] Instance sumN_perm : Proper ((≡ₚ) ==> (=)) sumN.
Proof. intros l1 l2. induction 1; simpl; lia. Qed.

Lemma u64_sum_acc `{Profile} {E} l a :
  a + sumN l < u64_size →
  foldl (λ acc x, a ← acc; u64_add a x) (Done (E:=E) a) l = Done (a + sumN l).
Proof.
  revert a. induction l as [|x l IH]; intros a Hl; simpl in *; [f_equal; lia|].
  rewrite u64_add_ok by lia. rewrite IH by lia. f_equal. lia.
Qed.

Lemma u64_sum_ok `{Profile} {E} l :
  sumN l < u64_size → u64_sum (E:=E) l = Done (sumN l).
Proof. intros Hl. unfold u64_sum. by rewrite u64_sum_acc by lia. Qed.

Section weights.
Context `{Countable K}.
Implicit Types (pt : gmap K N) (s : gset K) (k : K).

(** The weight of a key; a key outside the table weighs nothing. *)
Definition weight_of pt k : N := default 0 (pt !! k).
Definition set_weight pt s : N := sumN (weight_of pt <$> elements s).
Definition total_weight pt : N := sumN (snd <$> map_to_list pt).

Lemma set_weight_empty pt : set_weight pt ∅ = 0.
Proof. unfold set_weight. by rewrite elements_empty. Qed.

Lemma set_weight_singleton pt k : set_weight pt {[k]} = weight_of pt k.
Proof. unfold set_weight. rewrite elements_singleton. simpl. lia. Qed.

Lemma set_weight_union pt s1 s2 :
  s1 ## s2 → set_weight pt (s1 ∪ s2) = set_weight pt s1 + set_weight pt s2.
Proof.
  intros Hd. unfold set_weight.
  rewrite elements_disj_union by done. by rewrite fmap_app, sumN_app.
Qed.

Lemma set_weight_add pt s k :
  k ∉ s → set_weight pt (s ∪ {[k]}) = set_weight pt s + weight_of pt k.
Proof.
  intros Hk. rewrite set_weight_union by set_solver. by rewrite set_weight_singleton.
Qed.

Lemma set_weight_split pt s1 s2 :
  set_weight pt s1 = set_weight pt (s1 ∩ s2) + set_weight pt (s1 ∖ s2).
Proof.
  rewrite <-set_weight_union by set_solver. f_equal. apply set_eq. intros k.
  destruct (decide (k ∈ s2)); set_solver.
Qed.

Lemma set_weight_mono pt s1 s2 : s1 ⊆ s2 → set_weight pt s1 ≤ set_weight pt s2.
Proof.
  intros Hs. rewrite (set_weight_split pt s2 s1).
  replace (s2 ∩ s1) with s1 by set_solver. lia.
Qed.

Lemma set_weight_fresh pt s : (∀ k, k ∈ s → pt !! k = None) → set_weight pt s = 0.
Proof.
  induction s as [|k s Hk IH] using set_ind_L; [by rewrite set_weight_empty|].
  intros Hs. rewrite set_weight_union by set_solver.
  rewrite set_weight_singleton, IH by set_solver. unfold weight_of.
  rewrite Hs by set_solver. done.
Qed.

Lemma set_weight_insert pt s k w :
  k ∉ s → set_weight (<[k:=w]> pt) s = set_weight pt s.
Proof.
  intros Hk. unfold set_weight. f_equal. apply list_fmap_ext. intros i x Hx.
  unfold weight_of. rewrite lookup_insert_ne; [done|]. intros <-. apply Hk.
  apply elem_of_elements. by eapply list_elem_of_lookup_2.
Qed.

Lemma set_weight_dom pt : set_weight pt (dom pt) = total_weight pt.
Proof.
  induction pt as [|k w pt Hk IH] using map_ind.
  - by rewrite dom_empty_L, set_weight_empty.
  - rewrite dom_insert_L, set_weight_union by (apply not_elem_of_dom in Hk; set_solver).
    rewrite (set_weight_insert pt (dom pt)) by (by apply not_elem_of_dom). rewrite IH.
    rewrite set_weight_singleton. unfold total_weight, weight_of.
    rewrite lookup_insert_eq. simpl. by rewrite map_to_list_insert.
Qed.

(** No set of validators outweighs the table. *)
Lemma set_weight_total pt s : set_weight pt s ≤ total_weight pt.
Proof.
  rewrite (set_weight_split pt s (dom pt)), <-set_weight_dom.
  assert (set_weight pt (s ∖ dom pt) = 0) as ->.
  { apply set_weight_fresh. intros k [_ Hk]%elem_of_difference.
    by apply not_elem_of_dom in Hk. }
  rewrite N.add_0_r. apply set_weight_mono. set_solver.
Qed.

(** Inclusion-exclusion, as a lower bound of an intersection. *)
Lemma set_weight_inter pt s1 s2 :
  set_weight pt s1 + set_weight pt s2 ≤ total_weight pt + set_weight pt (s1 ∩ s2).
Proof.
  rewrite (set_weight_split pt s1 s2).
  assert (set_weight pt (s1 ∖ s2) + set_weight pt s2 ≤ total_weight pt); [|lia].
  rewrite <-set_weight_union by set_solver. apply set_weight_total.
Qed.
End weights.

(** A sum over the values of a map, where absent keys count for nothing. *)
Section map_sum.
Context `{Countable K} {A : Type} (f : A → N) (d : A).
Hypothesis (Hd : f d = 0).
Implicit Types (m : gmap K A).

Definition map_sum m : N := sumN (f ∘ snd <$> map_to_list m).

Lemma map_sum_insert m k x : m !! k = None → map_sum (<[k := x]> m) = f x + map_sum m.
Proof. intros Hm. unfold map_sum. by rewrite map_to_list_insert. Qed.
Lemma map_sum_delete m k : f (default d (m !! k)) + map_sum (delete k m) = map_sum m.
Proof.
  destruct (m !! k) as [x|] eqn:Hm; cbn.
  - rewrite <-(insert_delete_id m k x Hm) at 2. by rewrite map_sum_insert by apply lookup_delete_eq.
  - rewrite Hd. by rewrite delete_id.
Qed.
Lemma map_sum_update m k x : f (default d (m !! k)) + map_sum (<[k := x]> m) = f x + map_sum m.
Proof.
  rewrite <-insert_delete_eq, map_sum_insert by apply lookup_delete_eq. rewrite <-(map_sum_delete m k). lia.
Qed.
End map_sum.

(** The integer form of "more than two thirds". *)
Lemma two_thirds_spec (total w : N) : total * 2 / 3 + 1 ≤ w ↔ 2 * total < 3 * w.
Proof.
  pose proof (N.Div0.div_mod (total * 2) 3) as Hd.
  pose proof (N.mod_lt (total * 2) 3 ltac:(discriminate)) as Hm.
  revert Hd Hm. generalize (total * 2 / 3) as q, ((total * 2) `mod` 3) as r. lia.
Qed.
