(* ===== verification/Cache.v ===== *)
(** * The sequential key cache

    Models [SequentialKeyCache] of [fendermint/vm/topdown/src/cache.rs] at the
    key type the program uses, [BlockHeight = u64].  The [VecDeque] is a list
    whose head is the front of the queue; a [ValueIter] is the list of the values
    it yields.  The theorems show that a cache whose keys are sequential behaves
    as the finite map [abs] from keys to values. *)

From S2P Require Import Prelude OrdMap.

Record SequentialKeyCache (V : Type) := MkCache {
  increment : N;
  data : list (N * V)
}.
Arguments MkCache {V} _ _.
Arguments increment {V} _.
Arguments data {V} _.

Inductive SequentialAppendError := AboveBound | AlreadyInserted | BelowBound.

#[export] Instance SequentialAppendError_eq_dec : EqDecision SequentialAppendError.
Proof. solve_decision. Defined.

Section ops.
Context `{Profile} {E V : Type}.
Implicit Types c : SequentialKeyCache V.

Definition new (incr : N) : SequentialKeyCache V := MkCache incr [].
Definition sequential : SequentialKeyCache V := MkCache 1 [].
Definition size c : N := N.of_nat (length (data c)).
Definition is_empty c : bool := bool_decide (data c = []).
Definition upper_bound c : option N := fst <$> last (data c).
Definition lower_bound c : option N := fst <$> head (data c).

Definition within_bound c (k : N) : outcome E bool :=
  match lower_bound c, upper_bound c with
  | Some lower, Some upper => Done ((lower <=? k) && (k <=? upper))
  | None, None => Done false
  | _, _ => Panic
  end.

Definition get_value c (key : N) : outcome E (option V) :=
  b ← within_bound c key;
  if negb b then Done None
  else
    lower ← unwrap (lower_bound c);
    d ← u64_sub key lower;
    index ← u64_div d (increment c);
    Done (snd <$> data c !! N.to_nat index).

(** [VecDeque::range(start..end)] panics on a range that is out of bounds. *)
Definition data_range (l : list (N * V)) (start stop : N) : outcome E (list V) :=
  if bool_decide (stop < start ∨ N.of_nat (length l) < stop) then Panic
  else Done (snd <$> take (N.to_nat (stop - start)) (drop (N.to_nat start) l)).

Definition values_from c (start : N) : outcome E (list V) :=
  if is_empty c then Done (snd <$> data c)
  else
    lower ← unwrap (lower_bound c);
    d ← u64_sub (N.max start lower) lower;
    index ← u64_div d (increment c);
    data_range (data c) index (N.of_nat (length (data c))).

Definition values_within c (start stop : N) : outcome E (list V) :=
  if is_empty c then Done (snd <$> data c)
  else
    lower ← unwrap (lower_bound c);
    upper ← unwrap (upper_bound c);
    de ← u64_sub (N.min stop upper) lower;
    end_idx ← u64_div de (increment c);
    ds ← u64_sub (N.max start lower) lower;
    start_idx ← u64_div ds (increment c);
    data_range (data c) start_idx (N.succ end_idx).

Definition values c : list V := snd <$> data c.

Fixpoint pop_front_below (key : N) (l : list (N * V)) : list (N * V) :=
  match l with
  | (k, v) :: l' => if k <? key then pop_front_below key l' else l
  | [] => []
  end.

Definition remove_key_below (key : N) c : SequentialKeyCache V :=
  MkCache (increment c) (pop_front_below key (data c)).

(** The loop of [remove_key_above] sees the queue from its back. *)
Fixpoint pop_back_above (key : N) (l : list (N * V)) : list (N * V) :=
  match l with
  | (k, v) :: l' => if key <? k then pop_back_above key l' else l
  | [] => []
  end.

Definition remove_key_above (key : N) c : SequentialKeyCache V :=
  MkCache (increment c) (reverse (pop_back_above key (reverse (data c)))).

Definition push_back (key : N) (val : V) c : SequentialKeyCache V :=
  MkCache (increment c) (data c ++ [(key, val)]).

Definition append (key : N) (val : V) c
    : outcome SequentialAppendError (SequentialKeyCache V) :=
  match upper_bound c with
  | None => Done (push_back key val c)
  | Some upper =>
      expected_next_key ← u64_add upper (increment c);
      if bool_decide (expected_next_key = key) then Done (push_back key val c)
      else if bool_decide (expected_next_key < key) then Fail AboveBound
      else
        lower ← unwrap (lower_bound c);
        if bool_decide (key < lower) then Fail BelowBound
        else Fail AlreadyInserted
  end.
End ops.

(** ** The well-formedness invariant and the abstract view *)

Section spec.
Context {V : Type}.
Implicit Types (c : SequentialKeyCache V) (l : list (N * V)).

(** The keys of [l] are [k], [k + incr], [k + 2 * incr], ... *)
Fixpoint spaced (incr k : N) l : Prop :=
  match l with
  | [] => True
  | (k', _) :: l' => k' = k ∧ spaced incr (k + incr) l'
  end.

Record wf c : Prop := {
  wf_increment : 0 < increment c;
  wf_spaced : ∀ k, lower_bound c = Some k → spaced (increment c) k (data c);
  wf_u64 : ∀ k v, (k, v) ∈ data c → k < u64_size
}.

(** What the cache promises: a finite map from heights to values. *)
Definition abs c : gmap N V := list_to_map (data c).
End spec.

Section theory.
Context {V : Type}.
Implicit Types (c : SequentialKeyCache V) (l : list (N * V)).

Lemma spaced_lookup incr k l i k' v :
  spaced incr k l → l !! i = Some (k', v) → k' = k + N.of_nat i * incr.
Proof.
  revert k i. induction l as [|[k0 v0] l IH]; intros k i; [done|].
  intros [-> Hl]. destruct i as [|i]; simpl.
  - intros [= <- <-]. lia.
  - intros Hi. rewrite (IH _ _ Hl Hi). lia.
Qed.

Lemma spaced_app incr k l1 l2 :
  spaced incr k (l1 ++ l2) ↔
  spaced incr k l1 ∧ spaced incr (k + N.of_nat (length l1) * incr) l2.
Proof.
  revert k. induction l1 as [|[k0 v0] l IH]; intros k;
    cbn [app length spaced].
  - replace (k + N.of_nat 0 * incr) with k by lia. tauto.
  - rewrite IH. replace (k + incr + N.of_nat (length l) * incr)
      with (k + N.of_nat (S (length l)) * incr) by lia. tauto.
Qed.

Lemma spaced_ge incr k l k' v : spaced incr k l → (k', v) ∈ l → k ≤ k'.
Proof.
  intros Hs [i Hi]%list_elem_of_lookup. rewrite (spaced_lookup _ _ _ _ _ _ Hs Hi). lia.
Qed.

Lemma spaced_NoDup incr k l : 0 < incr → spaced incr k l → NoDup l.*1.
Proof.
  intros Hi. revert k. induction l as [|[k0 v0] l IH]; intros k; simpl.
  - constructor.
  - intros [-> Hl]. constructor; [|eauto].
    rewrite list_elem_of_fmap. intros ([k' v'] & -> & Hin).
    apply (spaced_ge _ _ _ _ _ Hl) in Hin. simpl in *. lia.
Qed.

Lemma lower_bound_None c : lower_bound c = None ↔ data c = [].
Proof. unfold lower_bound. rewrite fmap_None, head_None. done. Qed.

Lemma upper_bound_None c : upper_bound c = None ↔ data c = [].
Proof. unfold upper_bound. rewrite fmap_None, last_None. done. Qed.

Lemma bounds_nonempty c :
  data c ≠ [] → ∃ lo up, lower_bound c = Some lo ∧ upper_bound c = Some up.
Proof.
  intros Hne. destruct (lower_bound c) as [lo|] eqn:Hlo.
  - destruct (upper_bound c) as [up|] eqn:Hup; [eauto|].
    by apply upper_bound_None in Hup.
  - by apply lower_bound_None in Hlo.
Qed.

Lemma lower_bound_lookup c lo :
  lower_bound c = Some lo ↔ ∃ v, data c !! 0%nat = Some (lo, v).
Proof.
  unfold lower_bound. rewrite fmap_Some, head_lookup.
  split; [intros ([]&?&->)|intros (v&?); exists (lo, v)]; naive_solver.
Qed.

Lemma upper_bound_lookup c up :
  upper_bound c = Some up ↔ ∃ v, data c !! pred (length (data c)) = Some (up, v).
Proof.
  unfold upper_bound. rewrite fmap_Some, last_lookup.
  split; [intros ([]&?&->)|intros (v&?); exists (up, v)]; naive_solver.
Qed.

(** In a well-formed cache the [i]-th key is determined by the lower bound. *)
Lemma wf_lookup c lo i k v :
  wf c → lower_bound c = Some lo → data c !! i = Some (k, v) →
  k = lo + N.of_nat i * increment c.
Proof. intros [_ Hs _] Hlo. eapply spaced_lookup; eauto. Qed.

Lemma wf_upper c lo up :
  wf c → lower_bound c = Some lo → upper_bound c = Some up →
  up = lo + N.of_nat (pred (length (data c))) * increment c.
Proof.
  intros Hwf Hlo [v Hv]%upper_bound_lookup. eapply wf_lookup; eauto.
Qed.

Lemma wf_NoDup c : wf c → NoDup (data c).*1.
Proof.
  intros [Hi Hs _]. destruct (lower_bound c) as [lo|] eqn:Hlo.
  - eapply spaced_NoDup; eauto.
  - apply lower_bound_None in Hlo as ->. constructor.
Qed.

Lemma abs_lookup c k v : wf c → abs c !! k = Some v ↔ (k, v) ∈ data c.
Proof. intros Hwf. unfold abs. symmetry. apply elem_of_list_to_map, wf_NoDup, Hwf. Qed.

Lemma abs_bounds c lo up k :
  wf c → lower_bound c = Some lo → upper_bound c = Some up →
  is_Some (abs c !! k) → lo ≤ k ≤ up.
Proof.
  intros Hwf Hlo Hup [v Hv%abs_lookup]; [|done].
  apply list_elem_of_lookup in Hv as [i Hi].
  pose proof (lookup_lt_Some _ _ _ Hi).
  rewrite (wf_lookup _ _ _ _ _ Hwf Hlo Hi), (wf_upper _ _ _ Hwf Hlo Hup).
  split; [lia|]. apply N.add_le_mono_l, N.mul_le_mono_r. lia.
Qed.

Lemma upper_bound_u64 c up : wf c → upper_bound c = Some up → up < u64_size.
Proof.
  intros Hwf [v Hv]%upper_bound_lookup.
  eapply wf_u64; [done|]. by eapply list_elem_of_lookup_2.
Qed.

Lemma lower_le_upper c lo up :
  wf c → lower_bound c = Some lo → upper_bound c = Some up → lo ≤ up.
Proof. intros Hwf Hlo Hup. rewrite (wf_upper _ _ _ Hwf Hlo Hup). apply N.le_add_r. Qed.

Lemma lower_bound_le c lo k v :
  wf c → lower_bound c = Some lo → (k, v) ∈ data c → lo ≤ k.
Proof. intros Hwf Hlo. apply spaced_ge with (increment c). by apply wf_spaced. Qed.

(** With increment 1 every key between the bounds is present. *)
Lemma wf_contains c lo up k :
  wf c → increment c = 1 → lower_bound c = Some lo → upper_bound c = Some up →
  lo ≤ k ≤ up → ∃ v, (k, v) ∈ data c.
Proof.
  intros Hwf Hi Hlo Hup Hk. pose proof (wf_upper _ _ _ Hwf Hlo Hup) as Hu. rewrite Hi in Hu.
  assert (data c ≠ []) as Hne.
  { intros Hnil%lower_bound_None. congruence. }
  assert (N.to_nat (k - lo) < length (data c))%nat as Hlt.
  { destruct (data c); [done|]. simpl in *. lia. }
  destruct (lookup_lt_is_Some_2 _ _ Hlt) as [[k' v] Hl]. exists v.
  apply list_elem_of_lookup_2 with (i := N.to_nat (k - lo)). rewrite Hl.
  rewrite (wf_lookup _ _ _ _ _ Hwf Hlo Hl), Hi. do 2 f_equal. lia.
Qed.

(** *** Preservation *)

Lemma sequential_wf : wf (@sequential V).
Proof. split; [done|done|]. intros ??. by rewrite elem_of_nil. Qed.

Lemma lower_bound_push c k v :
  lower_bound (push_back k v c) =
  match lower_bound c with Some lo => Some lo | None => Some k end.
Proof. unfold lower_bound. simpl. by destruct (data c). Qed.

Lemma upper_bound_push c k v : upper_bound (push_back k v c) = Some k.
Proof. unfold upper_bound. simpl. by rewrite last_snoc. Qed.

Lemma push_wf c k v :
  wf c → k < u64_size →
  (∀ up, upper_bound c = Some up → k = up + increment c) →
  wf (push_back k v c).
Proof.
  intros Hwf Hk Hup. split.
  - apply Hwf.
  - intros lo. rewrite lower_bound_push. intros Hlo. simpl.
    destruct (decide (data c = [])) as [Hnil|Hne].
    { rewrite (proj2 (lower_bound_None c) Hnil) in Hlo. rewrite Hnil.
      simplify_eq/=. done. }
    destruct (bounds_nonempty _ Hne) as (lo' & up & Hlo' & Hup').
    rewrite Hlo' in Hlo. simplify_eq/=. apply spaced_app. split; [by apply Hwf|].
    simpl. split; [|done]. rewrite (Hup _ Hup'), (wf_upper _ _ _ Hwf Hlo' Hup').
    destruct (data c); [done|]. simpl. lia.
  - intros k' v'. simpl. rewrite elem_of_app, list_elem_of_singleton.
    intros [Hin|[= -> ->]]; [by eapply wf_u64|done].
Qed.

Lemma abs_push c k v :
  abs c !! k = None → abs (push_back k v c) = <[k:=v]> (abs c).
Proof.
  intros Hk. unfold abs in *. simpl. rewrite list_to_map_app. simpl.
  rewrite <-insert_union_r by done. by rewrite map_union_empty.
Qed.

Lemma pop_front_below_suffix key l :
  ∃ l0, l = l0 ++ pop_front_below key l ∧ Forall (λ p, p.1 < key) l0.
Proof.
  induction l as [|[k v] l (l0 & Hl & Hall)]; [by exists []|]. simpl.
  destruct (N.ltb_spec k key); [|by exists []].
  exists ((k, v) :: l0). split; [by rewrite Hl at 1|]. by constructor.
Qed.

Lemma pop_front_below_all incr k0 key l :
  spaced incr k0 l → Forall (λ p, key ≤ p.1) (pop_front_below key l).
Proof.
  revert k0. induction l as [|[k v] l IH]; intros k0; [constructor|].
  intros [-> Hs]. simpl. destruct (N.ltb_spec k0 key); [by eapply IH|].
  constructor; [done|]. apply Forall_forall. intros [k' v'] Hin. simpl.
  pose proof (spaced_ge _ _ _ _ _ Hs Hin). lia.
Qed.

Lemma pop_back_above_suffix key l :
  ∃ l0, l = l0 ++ pop_back_above key l ∧ Forall (λ p, key < p.1) l0.
Proof.
  induction l as [|[k v] l (l0 & Hl & Hall)]; [by exists []|]. simpl.
  destruct (N.ltb_spec key k); [|by exists []].
  exists ((k, v) :: l0). split; [by rewrite Hl at 1|]. by constructor.
Qed.

Lemma spaced_le_last incr k l k' v kl vl :
  spaced incr k (l ++ [(kl, vl)]) → (k', v) ∈ l → k' ≤ kl.
Proof.
  intros Hs [i Hi]%list_elem_of_lookup.
  apply spaced_app in Hs as [Hs [-> _]].
  pose proof (lookup_lt_Some _ _ _ Hi).
  rewrite (spaced_lookup _ _ _ _ _ _ Hs Hi).
  apply N.add_le_mono_l, N.mul_le_mono_r. lia.
Qed.

Lemma pop_back_above_all incr k0 key l :
  spaced incr k0 (reverse l) → Forall (λ p, p.1 ≤ key) (pop_back_above key l).
Proof.
  induction l as [|[k v] l IH]; [constructor|].
  rewrite reverse_cons. intros Hs. simpl. destruct (N.ltb_spec key k).
  - apply IH. by apply spaced_app in Hs as [? _].
  - constructor; [done|]. apply Forall_forall. intros [k' v'] Hin. simpl.
    etrans; [|done]. eapply spaced_le_last; [done|]. by apply elem_of_reverse.
Qed.

(** A contiguous piece of a well-formed cache is well formed. *)
Lemma wf_infix c l1 l2 l3 :
  wf c → data c = l1 ++ l2 ++ l3 → wf (MkCache (increment c) l2).
Proof.
  intros [Hi Hs Hu] Hd. split; [done| |].
  - intros k Hk. simpl.
    assert (data c ≠ []) as Hne by (rewrite Hd; destruct l1, l2; naive_solver).
    destruct (bounds_nonempty _ Hne) as (lo & _ & Hlo & _).
    specialize (Hs _ Hlo). rewrite Hd in Hs.
    apply spaced_app in Hs as [_ [Hs _]%spaced_app].
    destruct l2 as [|[k2 v2] l2]; [done|].
    unfold lower_bound in Hk. simpl in Hk. simplify_eq.
    by destruct Hs as [<- Hs].
  - intros k v Hin. eapply (Hu k v). rewrite Hd. set_solver.
Qed.

Lemma remove_key_below_data key c :
  ∃ l0, data c = l0 ++ data (remove_key_below key c) ∧ Forall (λ p, p.1 < key) l0.
Proof. apply pop_front_below_suffix. Qed.

Lemma remove_key_above_data key c :
  ∃ l0, data c = data (remove_key_above key c) ++ l0 ∧ Forall (λ p, key < p.1) l0.
Proof.
  destruct (pop_back_above_suffix key (reverse (data c))) as (l0 & Hl & Hall).
  exists (reverse l0). split; [|by apply Forall_reverse]. simpl.
  rewrite <-reverse_app, <-Hl. by rewrite reverse_involutive.
Qed.

Lemma remove_key_below_wf key c : wf c → wf (remove_key_below key c).
Proof.
  intros Hwf. destruct (remove_key_below_data key c) as (l0 & Hl & _).
  apply (wf_infix c l0 _ []); [done|]. by rewrite app_nil_r.
Qed.

Lemma remove_key_above_wf key c : wf c → wf (remove_key_above key c).
Proof.
  intros Hwf. destruct (remove_key_above_data key c) as (l0 & Hl & _).
  by apply (wf_infix c [] _ l0).
Qed.

Lemma remove_key_below_elem key c k v :
  wf c → (k, v) ∈ data (remove_key_below key c) ↔ (k, v) ∈ data c ∧ key ≤ k.
Proof.
  intros Hwf. destruct (remove_key_below_data key c) as (l0 & Hl & Hall).
  rewrite Hl at 1. rewrite elem_of_app. split.
  - intros Hin. split; [by right|]. simpl in Hin.
    destruct (lower_bound c) as [lo|] eqn:Hlo.
    + pose proof (pop_front_below_all _ _ key _ (wf_spaced _ Hwf _ Hlo)) as Hge.
      by apply (proj1 (Forall_forall _ _) Hge _ Hin).
    + apply lower_bound_None in Hlo. rewrite Hlo in Hin. by apply elem_of_nil in Hin.
  - intros [[Hin|Hin] Hle]; [|done].
    pose proof (proj1 (Forall_forall _ _) Hall _ Hin). simpl in *. lia.
Qed.

Lemma lower_bound_remove_below key c lo :
  wf c → increment c = 1 → lower_bound (remove_key_below key c) = Some lo →
  ∃ lo0, lower_bound c = Some lo0 ∧ lo = N.max lo0 key.
Proof.
  intros Hwf Hi Hlo.
  destruct (proj1 (lower_bound_lookup _ _) Hlo) as [v Hv%list_elem_of_lookup_2].
  apply remove_key_below_elem in Hv as [Hin Hge]; [|done].
  assert (data c ≠ []) as Hne by (intros Hnil; rewrite Hnil in Hin; set_solver).
  destruct (bounds_nonempty _ Hne) as (lo0 & up & Hlo0 & Hup).
  assert (lo0 ≤ lo ≤ up) as Hb
    by (eapply abs_bounds; [done..|]; exists v; by apply abs_lookup).
  exists lo0. split; [done|].
  destruct (wf_contains c lo0 up (N.max lo0 key)) as [w Hw]; [done..|lia|].
  assert ((N.max lo0 key, w) ∈ data (remove_key_below key c)) as Hin'.
  { apply remove_key_below_elem; [done|]. split; [done|lia]. }
  pose proof (lower_bound_le _ _ _ _ (remove_key_below_wf key c Hwf) Hlo Hin'). lia.
Qed.

Lemma remove_key_above_elem key c k v :
  wf c → (k, v) ∈ data (remove_key_above key c) ↔ (k, v) ∈ data c ∧ k ≤ key.
Proof.
  intros Hwf. destruct (remove_key_above_data key c) as (l0 & Hl & Hall).
  rewrite Hl at 1. rewrite elem_of_app. split.
  - intros Hin. split; [by left|]. simpl in Hin. rewrite elem_of_reverse in Hin.
    destruct (lower_bound c) as [lo|] eqn:Hlo.
    + assert (spaced (increment c) lo (reverse (reverse (data c)))) as Hs
        by (rewrite reverse_involutive; by apply Hwf).
      pose proof (pop_back_above_all _ _ key _ Hs) as Hge.
      by apply (proj1 (Forall_forall _ _) Hge _ Hin).
    + apply lower_bound_None in Hlo. rewrite Hlo in Hin. by apply elem_of_nil in Hin.
  - intros [[Hin|Hin] Hle]; [done|].
    pose proof (proj1 (Forall_forall _ _) Hall _ Hin). simpl in *. lia.
Qed.
End theory.

(** ** Functional behaviour *)

Section behaviour.
Context `{Profile} {V : Type}.
Implicit Types c : SequentialKeyCache V.

(** On a well-formed cache [append] never panics while the next
    key fits in 64 bits.  It succeeds exactly on an empty cache or on the key
    after the upper bound, and then it is the insertion of a fresh key in the
    finite map; otherwise the error tells on which side of the bounds the key
    lies, and a key between the bounds is reported as already inserted. *)
Lemma append_spec c key val :
  wf c → key < u64_size →
  (∀ up, upper_bound c = Some up → up + increment c < u64_size) →
  match append key val c with
  | Done c' =>
      (data c = [] ∨ ∃ up, upper_bound c = Some up ∧ key = up + increment c) ∧
      wf c' ∧ increment c' = increment c ∧ upper_bound c' = Some key ∧
      abs c !! key = None ∧ abs c' = <[key:=val]> (abs c)
  | Fail e => ∃ lo up, lower_bound c = Some lo ∧ upper_bound c = Some up ∧
      match e with
      | AboveBound => up + increment c < key
      | BelowBound => key < lo
      | AlreadyInserted => lo ≤ key < up + increment c
      end
  | _ => False
  end.
Proof.
  intros Hwf Hkey Hfit. unfold append.
  destruct (upper_bound c) as [up|] eqn:Hup.
  - destruct (lower_bound c) as [lo|] eqn:Hlo; cycle 1.
    { apply lower_bound_None, upper_bound_None in Hlo. congruence. }
    rewrite u64_add_ok by auto. simpl.
    case_bool_decide as Heq; [|case_bool_decide; [|simpl; case_bool_decide]];
      [|exists lo, up; repeat split; (done || lia)..].
    subst key. split; [eauto|]. split_and!; [|done|by apply upper_bound_push|..].
    + apply push_wf; [done|done|]. naive_solver.
    + apply eq_None_not_Some. intros Hs.
      pose proof (abs_bounds _ _ _ _ Hwf Hlo Hup Hs). pose proof (wf_increment _ Hwf). lia.
    + apply abs_push, eq_None_not_Some. intros Hs.
      pose proof (abs_bounds _ _ _ _ Hwf Hlo Hup Hs). pose proof (wf_increment _ Hwf). lia.
  - apply upper_bound_None in Hup as Hnil.
    assert (abs c = ∅) as Habs by (unfold abs; by rewrite Hnil).
    split_and!; [by left| |done|by apply upper_bound_push|by rewrite Habs|].
    + apply push_wf; [done|done|]. congruence.
    + apply abs_push. by rewrite Habs.
Qed.

Lemma append_push c key val c' : append key val c = Done c' → c' = push_back key val c.
Proof.
  unfold append. destruct (upper_bound c) as [up|]; [|naive_solver].
  intros Ha. inv_done. repeat case_bool_decide; inv_done; try done.
  case_bool_decide; done.
Qed.

(** On a well-formed cache [get_value] never panics, and at a
    key aligned with the increment, in particular at every key when the increment
    is 1, it is the lookup in the finite map. *)
Lemma get_value_aligned {E} c key :
  wf c →
  (∀ lo, lower_bound c = Some lo → lo ≤ key → (increment c | key - lo)) →
  get_value (E:=E) c key = Done (abs c !! key).
Proof.
  intros Hwf Hal. unfold get_value, within_bound.
  destruct (decide (data c = [])) as [Hnil|Hne].
  { rewrite (proj2 (lower_bound_None c) Hnil), (proj2 (upper_bound_None c) Hnil).
    unfold abs. by rewrite Hnil. }
  destruct (bounds_nonempty _ Hne) as (lo & up & Hlo & Hup). rewrite Hlo, Hup. simpl.
  pose proof (upper_bound_u64 _ _ Hwf Hup). pose proof (wf_increment _ Hwf).
  destruct (N.leb_spec lo key), (N.leb_spec key up); simpl.
  2-4: f_equal; symmetry; apply eq_None_not_Some; intros Hs;
    pose proof (abs_bounds _ _ _ _ Hwf Hlo Hup Hs); lia.
  rewrite u64_sub_ok by lia. simpl. rewrite u64_div_ok by lia. simpl. f_equal.
  destruct (Hal lo) as [q Hq]; [done..|].
  rewrite Hq, N.div_mul by lia.
  rewrite (wf_upper _ _ _ Hwf Hlo Hup) in *.
  assert (N.to_nat q < length (data c))%nat as Hlt.
  { destruct (data c); [done|]. simpl in *. nia. }
  destruct (lookup_lt_is_Some_2 _ _ Hlt) as [[k v] Hi]. rewrite Hi. simpl.
  symmetry. apply abs_lookup; [done|]. apply list_elem_of_lookup. exists (N.to_nat q).
  rewrite Hi. do 2 f_equal. rewrite (wf_lookup _ _ _ _ _ Hwf Hlo Hi). lia.
Qed.

(** The two pruning loops preserve well-formedness and keep
    exactly the entries at or above, respectively at or below, the given key. *)
Lemma remove_key_spec c key :
  wf c →
  wf (remove_key_below key c) ∧
  abs (remove_key_below key c) = filter (λ p, key ≤ p.1) (abs c) ∧
  wf (remove_key_above key c) ∧
  abs (remove_key_above key c) = filter (λ p, p.1 ≤ key) (abs c).
Proof.
  intros Hwf. pose proof (remove_key_below_wf key c Hwf) as Hb.
  pose proof (remove_key_above_wf key c Hwf) as Ha.
  split_and!; [done| |done|]; apply map_eq; intros k; apply option_eq; intros v;
    rewrite map_lookup_filter_Some, !abs_lookup by done.
  - by apply remove_key_below_elem.
  - by apply remove_key_above_elem.
Qed.
End behaviour.

(** With increment 1, the only one the finality provider uses, every key is
    aligned. *)
Lemma get_value_sequential `{Profile} {E V} (c : SequentialKeyCache V) key :
  wf c → increment c = 1 → get_value (E:=E) c key = Done (abs c !! key).
Proof.
  intros Hwf H1. apply get_value_aligned; [done|]. intros lo _ _. rewrite H1.
  apply N.divide_1_l.
Qed.

(** ** The abstract machine and the simulation

    The specification of the cache: a finite map that grows at its upper end only.
    [cache_step] runs one operation on the implementation and [spec_step] on the
    map; both answer with a [cache_res]. *)

Section simulation.
Context `{Profile} {V : Type}.
Implicit Types (c : SequentialKeyCache V) (m : gmap N V).

Inductive cache_op :=
| OAppend (k : N) (v : V)
| OGet (k : N)
| ORemoveBelow (k : N)
| ORemoveAbove (k : N).

Inductive cache_res :=
| RUnit
| RErr (e : SequentialAppendError)
| RVal (v : option V).

Definition cache_step (o : cache_op) c : outcome Empty_set (cache_res * SequentialKeyCache V) :=
  match o with
  | OAppend k v =>
      match append k v c with
      | Done c' => Done (RUnit, c')
      | Fail e => Done (RErr e, c)
      | Retry => Retry | Panic => Panic | OutOfFuel => OutOfFuel
      end
  | OGet k => (λ r, (RVal r, c)) <$> get_value c k
  | ORemoveBelow k => Done (RUnit, remove_key_below k c)
  | ORemoveAbove k => Done (RUnit, remove_key_above k c)
  end.

Definition spec_append (k : N) (v : V) m : cache_res * gmap N V :=
  match get_min m, get_max m with
  | Some (lo, _), Some (up, _) =>
      if bool_decide (k = up + 1) then (RUnit, <[k:=v]> m)
      else if bool_decide (up + 1 < k) then (RErr AboveBound, m)
      else if bool_decide (k < lo) then (RErr BelowBound, m)
      else (RErr AlreadyInserted, m)
  | _, _ => (RUnit, <[k:=v]> m)
  end.

Definition spec_step (o : cache_op) m : cache_res * gmap N V :=
  match o with
  | OAppend k v => spec_append k v m
  | OGet k => (RVal (m !! k), m)
  | ORemoveBelow k => (RUnit, filter (λ p, k ≤ p.1) m)
  | ORemoveAbove k => (RUnit, filter (λ p, p.1 ≤ k) m)
  end.

Fixpoint cache_run (os : list cache_op) c
    : outcome Empty_set (list cache_res * SequentialKeyCache V) :=
  match os with
  | [] => Done ([], c)
  | o :: os =>
      '(r, c') ← cache_step o c;
      '(rs, c'') ← cache_run os c';
      Done (r :: rs, c'')
  end.

Fixpoint spec_run (os : list cache_op) m : list cache_res * gmap N V :=
  match os with
  | [] => ([], m)
  | o :: os =>
      let '(r, m') := spec_step o m in
      let '(rs, m'') := spec_run os m' in
      (r :: rs, m'')
  end.

(** An appended key whose successor is a 64-bit number. *)
Definition op_fits (o : cache_op) : Prop :=
  match o with OAppend k _ => k + 1 < u64_size | _ => True end.

Record seq_cache c : Prop := {
  seq_wf : wf c;
  seq_incr : increment c = 1;
  seq_fits : ∀ k v, (k, v) ∈ data c → k + 1 < u64_size
}.

Lemma upper_bound_elem c up : upper_bound c = Some up → ∃ v, (up, v) ∈ data c.
Proof. intros [v Hv]%upper_bound_lookup. exists v. by eapply list_elem_of_lookup_2. Qed.

Lemma lower_bound_elem c lo : lower_bound c = Some lo → ∃ v, (lo, v) ∈ data c.
Proof. intros [v Hv]%lower_bound_lookup. exists v. by eapply list_elem_of_lookup_2. Qed.

(** A run of keys is a sequential cache. *)
Lemma seq_cache_intro lo (l : list (N * V)) :
  spaced 1 lo l → Forall (λ p, p.1 + 1 < u64_size) l → seq_cache (MkCache 1 l).
Proof.
  intros Hs Hf. rewrite Forall_forall in Hf. split; [split|..]; simpl.
  - lia.
  - destruct l as [|[k v] l]; [done|]. intros k0 [= <-]. by destruct Hs as [-> ?].
  - intros k v Hin. specialize (Hf _ Hin). simpl in Hf. lia.
  - done.
  - intros k v Hin. by apply (Hf (k, v)).
Qed.

(** The bounds of the implementation are the extremal keys of the map. *)
Lemma get_max_abs c : wf c → fst <$> get_max (abs c) = upper_bound c.
Proof.
  intros Hwf. destruct (decide (data c = [])) as [Hnil|Hne].
  - rewrite (proj2 (upper_bound_None c) Hnil). unfold abs. by rewrite Hnil.
  - destruct (bounds_nonempty _ Hne) as (lo & up & Hlo & Hup). rewrite Hup.
    destruct (upper_bound_elem _ _ Hup) as [v Hv].
    rewrite (proj2 (get_max_Some (abs c) up v)); [done|]. split; [by apply abs_lookup|].
    intros k Hk. by apply (abs_bounds _ _ _ _ Hwf Hlo Hup Hk).
Qed.

Lemma get_min_abs c : wf c → fst <$> get_min (abs c) = lower_bound c.
Proof.
  intros Hwf. destruct (decide (data c = [])) as [Hnil|Hne].
  - rewrite (proj2 (lower_bound_None c) Hnil). unfold abs. by rewrite Hnil.
  - destruct (bounds_nonempty _ Hne) as (lo & up & Hlo & Hup). rewrite Hlo.
    destruct (lower_bound_elem _ _ Hlo) as [v Hv].
    rewrite (proj2 (get_min_Some (abs c) lo v)); [done|]. split; [by apply abs_lookup|].
    intros k Hk. by apply (abs_bounds _ _ _ _ Hwf Hlo Hup Hk).
Qed.

Lemma spec_append_bounds c k v :
  wf c →
  spec_append k v (abs c) =
  match lower_bound c, upper_bound c with
  | Some lo, Some up =>
      if bool_decide (k = up + 1) then (RUnit, <[k:=v]> (abs c))
      else if bool_decide (up + 1 < k) then (RErr AboveBound, abs c)
      else if bool_decide (k < lo) then (RErr BelowBound, abs c)
      else (RErr AlreadyInserted, abs c)
  | _, _ => (RUnit, <[k:=v]> (abs c))
  end.
Proof.
  intros Hwf. unfold spec_append. rewrite <-get_min_abs, <-get_max_abs by done.
  by destruct (get_min (abs c)) as [[]|], (get_max (abs c)) as [[]|].
Qed.

Lemma append_simulates c k v :
  seq_cache c → k + 1 < u64_size →
  ∃ r c', cache_step (OAppend k v) c = Done (r, c') ∧ seq_cache c' ∧
    spec_append k v (abs c) = (r, abs c').
Proof.
  intros [Hwf H1 Hfit] Hk.
  assert (∀ up, upper_bound c = Some up → up + increment c < u64_size) as Hup.
  { intros up [v' Hin]%upper_bound_elem. rewrite H1. by eapply Hfit. }
  pose proof (append_spec c k v Hwf ltac:(lia) Hup) as Ha.
  rewrite spec_append_bounds by done. simpl. unfold push_back in *.
  destruct (append k v c) as [c'|e| | |] eqn:Happ; try done.
  - destruct Ha as (Hor & Hwf' & Hi & _ & _ & Habs).
    exists RUnit, c'. split_and!; [done| |].
    + split; [done|congruence|]. intros k' v' Hin. apply abs_lookup in Hin; [|done].
      rewrite Habs in Hin. apply lookup_insert_Some in Hin as [[<- _]|[_ Hin]]; [lia|].
      apply abs_lookup in Hin; eauto.
    + rewrite Habs. destruct Hor as [Hnil|(up & Hup' & ->)].
      * by rewrite (proj2 (lower_bound_None c) Hnil).
      * rewrite Hup', H1. destruct (lower_bound c); [|done].
        by rewrite bool_decide_eq_true_2.
  - destruct Ha as (lo & up & Hlo & Hup' & He). exists (RErr e), c. split_and!; [done|done|].
    rewrite Hlo, Hup'. rewrite H1 in He. pose proof (lower_le_upper _ _ _ Hwf Hlo Hup').
    destruct e; repeat case_bool_decide; (done || lia).
Qed.

Lemma step_simulates o c :
  seq_cache c → op_fits o →
  ∃ r c', cache_step o c = Done (r, c') ∧ seq_cache c' ∧
    spec_step o (abs c) = (r, abs c').
Proof.
  intros Hs Ho. destruct o as [k v|k|k|k]; [by apply append_simulates|..];
    destruct Hs as [Hwf H1 Hfit]; simpl.
  - rewrite get_value_sequential by done. by eexists _, _.
  - destruct (remove_key_spec c k Hwf) as (Hw & <- & _).
    eexists _, _. split_and!; [done| |done]. split; [done|done|].
    intros k' v' [Hin _]%remove_key_below_elem; eauto.
  - destruct (remove_key_spec c k Hwf) as (_ & _ & Hw & <-).
    eexists _, _. split_and!; [done| |done]. split; [done|done|].
    intros k' v' [Hin _]%remove_key_above_elem; eauto.
Qed.

(** The cache implements an append-only finite map.  Any
    sequence of [append], [get_value] and pruning operations on a sequential
    cache runs without a panic, every operation answers (values, successes and
    the three kinds of error) as the map does, and the final cache represents the
    final map. *)
Lemma cache_simulates_map os c :
  seq_cache c → Forall op_fits os →
  ∃ rs c', cache_run os c = Done (rs, c') ∧ seq_cache c' ∧
    spec_run os (abs c) = (rs, abs c').
Proof.
  intros Hs Hos. revert c Hs. induction Hos as [|o os Ho _ IH]; intros c Hs; simpl.
  - by exists [], c.
  - destruct (step_simulates o c Hs Ho) as (r & c1 & -> & Hs1 & ->). simpl.
    destruct (IH c1 Hs1) as (rs & c2 & -> & Hs2 & ->). simpl. by exists (r :: rs), c2.
Qed.

Lemma sequential_seq_cache : seq_cache (@sequential V).
Proof. split; [apply sequential_wf|done|]. intros ??. by rewrite elem_of_nil. Qed.
End simulation.
Arguments cache_op : clear implicits.
Arguments cache_res : clear implicits.

Lemma cache_simulates_map_witness :
  let os := [OAppend 9 true; OAppend 10 false; OAppend 12 true; OGet 10;
             ORemoveBelow 10; OGet 9] in
  ∃ rs c', cache_run (H:=dev_profile) os sequential = Done (rs, c') ∧ seq_cache c' ∧
    spec_run os (abs sequential) = (rs, abs c').
Proof.
  apply (cache_simulates_map (H:=dev_profile)); [apply sequential_seq_cache|].
  repeat constructor.
Defined.

(** The scenarios of the unit tests, run in the model. *)
Example cache_run_answers :
  fst <$> cache_run (H:=dev_profile)
    [OAppend 9 true; OAppend 10 false; OAppend 12 true; OAppend 9 true; OAppend 3 true;
     OGet 10; ORemoveBelow 10; OGet 9] sequential
  = Done [RUnit; RUnit; RErr AboveBound; RErr AlreadyInserted; RErr BelowBound;
          RVal (Some false); RUnit; RVal None].
Proof. vm_compute. reflexivity. Qed.
