(* ===== verification/Voting.v ===== *)
(** * The vote tally

    Models [VoteTally] of [fendermint/vm/topdown/src/voting.rs]: the votes
    validators gossip about the finality of parent blocks and about the resolution
    of objects, weighed with the current power table.  A [VoteTally] is a bundle of
    transactional variables; every method is an [stm] action on the record of their
    contents.  [im::HashMap]/[im::HashSet] are [gmap]/[gset] and [im::OrdMap] is the
    ordered map of [OrdMap]. *)

From S2P Require Import Prelude OrdMap Weights.

(** The error type, generic in the key and in the value voted on. *)
Inductive Error (K V : Type) :=
| Uninitialized
| UnexpectedBlock (expected got : N)
| UnpoweredValidator (k : K)
| Equivocation (k : K) (height : N) (new old : V).
Arguments Uninitialized {K V}.
Arguments UnexpectedBlock {K V} _ _.
Arguments UnpoweredValidator {K V} _.
Arguments Equivocation {K V} _ _ _ _.

Record VoteTally (K V Obj : Type) `{Countable K, Countable V, Countable Obj} := MkTally {
  power_table : gmap K N;
  chain : gmap N (option V);
  votes : gmap N (gmap V (gset K));
  pause_votes : bool;
  object_votes : gmap Obj (gset K);
  pause_object_votes : bool
}.
Arguments MkTally {K V Obj _ _ _ _ _ _} _ _ _ _ _ _.
Arguments power_table {K V Obj _ _ _ _ _ _} _.
Arguments chain {K V Obj _ _ _ _ _ _} _.
Arguments votes {K V Obj _ _ _ _ _ _} _.
Arguments pause_votes {K V Obj _ _ _ _ _ _} _.
Arguments object_votes {K V Obj _ _ _ _ _ _} _.
Arguments pause_object_votes {K V Obj _ _ _ _ _ _} _.

Section tally.
Context `{Profile} `{Countable K, Countable V, Countable Obj}.
Abbreviation tally := (VoteTally K V Obj).
Implicit Types (t : tally) (vk : K) (bh : V).

Definition set_power pt t : tally :=
  MkTally pt (chain t) (votes t) (pause_votes t) (object_votes t) (pause_object_votes t).
Definition set_chain c t : tally :=
  MkTally (power_table t) c (votes t) (pause_votes t) (object_votes t) (pause_object_votes t).
Definition set_votes vs t : tally :=
  MkTally (power_table t) (chain t) vs (pause_votes t) (object_votes t) (pause_object_votes t).
Definition set_pause b t : tally :=
  MkTally (power_table t) (chain t) (votes t) b (object_votes t) (pause_object_votes t).
Definition set_object_votes ov t : tally :=
  MkTally (power_table t) (chain t) (votes t) (pause_votes t) ov (pause_object_votes t).
Definition set_object_pause b t : tally :=
  MkTally (power_table t) (chain t) (votes t) (pause_votes t) (object_votes t) b.

(** [im::HashMap::from_iter]: a later entry for a key wins. *)
Definition from_iter {A} (l : list (K * A)) : gmap K A :=
  foldl (λ m '(k, x), <[k:=x]> m) ∅ l.

Definition empty_tally : tally := MkTally ∅ ∅ ∅ false ∅ false.

Definition new (pt : list (K * N)) (last_finalized_block : N * V) : tally :=
  let '(height, hash) := last_finalized_block in
  MkTally (from_iter pt) {[height := Some hash]} ∅ false ∅ false.

Definition has_power {E} vk : stm tally E bool :=
  pt ← reads power_table;
  if bool_decide (pt = ∅) then mret true
  else
    match pt !! vk with
    | None => mret false
    | Some weight => mret (bool_decide (0 < weight))
    end.

Definition quorum_threshold {E} : stm tally E N :=
  pt ← reads power_table;
  total ← lift (u64_sum (snd <$> map_to_list pt));
  twice ← lift (u64_mul total 2);
  third ← lift (u64_div twice 3);
  lift (u64_add third 1).

Definition last_finalized_height {E} : stm tally E N :=
  c ← reads chain;
  mret (default 0 (fst <$> get_min c)).

Definition latest_height {E} : stm tally E N :=
  c ← reads chain;
  mret (default 0 (fst <$> get_max c)).

Definition block_hash {E} (height : N) : stm tally E (option V) :=
  c ← reads chain;
  mret (mjoin (c !! height)).

Definition add_block (block_height : N) (hash : option V) : stm tally (Error K V) unit :=
  c ← reads chain;
  match get_max c with
  | None => abort Uninitialized
  | Some (parent_height, _) =>
      next ← lift (u64_add parent_height 1);
      if bool_decide (block_height ≠ next) then abort (UnexpectedBlock next block_height)
      else modify (set_chain (<[block_height := hash]> c))
  end.

(** The loop of [add_vote]: the first other hash this validator has voted for. *)
Fixpoint find_equivocation vk bh (l : list (V * gset K)) : option V :=
  match l with
  | [] => None
  | (bh', vs) :: l =>
      if bool_decide (bh' ≠ bh ∧ vk ∈ vs) then Some bh' else find_equivocation vk bh l
  end.

Definition add_vote vk (block_height : N) bh : stm tally (Error K V) bool :=
  paused ← reads pause_votes;
  if (paused : bool) then retry
  else
    min_height ← last_finalized_height;
    if bool_decide (block_height < min_height) then mret false
    else
      powered ← has_power vk;
      if negb powered then abort (UnpoweredValidator vk)
      else
        vs ← reads votes;
        let votes_at_height := default ∅ (vs !! block_height) in
        match find_equivocation vk bh (map_to_list votes_at_height) with
        | Some bh' => abort (Equivocation vk block_height bh bh')
        | None =>
            let votes_for_block := default ∅ (votes_at_height !! bh) in
            if bool_decide (vk ∈ votes_for_block) then mret false
            else
              modify (set_votes (<[block_height :=
                <[bh := votes_for_block ∪ {[vk]}]> votes_at_height]> vs)) ;;
              mret true
        end.

Definition pause_votes_until_find_quorum {E} : stm tally E unit :=
  modify (set_pause true).

(** The inner loop of the two quorum searches: add the weight of new voters. *)
Fixpoint tally_voters {E} (pt : gmap K N) (l : list K) (weight : N) (voters : gset K)
    : outcome E (N * gset K) :=
  match l with
  | [] => Done (weight, voters)
  | vk :: l =>
      if bool_decide (vk ∈ voters) then tally_voters pt l weight voters
      else
        weight' ← u64_add weight (weight_of pt vk);
        tally_voters pt l weight' (voters ∪ {[vk]})
  end.

(** The outer loop of [find_quorum], over the chain from its tip. *)
Fixpoint quorum_loop {E} (pt : gmap K N) (vs : gmap N (gmap V (gset K)))
    (threshold finalized_height : N) (l : list (N * option V)) (weight : N) (voters : gset K)
    : outcome E (option (N * V)) :=
  match l with
  | [] => Done None
  | (block_height, hash) :: l =>
      if bool_decide (block_height = finalized_height) then Done None
      else
        let continue := quorum_loop pt vs threshold finalized_height l in
        match hash with
        | None => continue weight voters
        | Some bh =>
            match vs !! block_height with
            | None => continue weight voters
            | Some votes_at_height =>
                match votes_at_height !! bh with
                | None => continue weight voters
                | Some votes_for_block =>
                    '(weight', voters') ← tally_voters pt (elements votes_for_block) weight voters;
                    if bool_decide (threshold ≤ weight') then Done (Some (block_height, bh))
                    else continue weight' voters'
                end
            end
        end
  end.

Definition find_quorum {E} : stm tally E (option (N * V)) :=
  modify (set_pause false) ;;
  threshold ← quorum_threshold;
  c ← reads chain;
  match get_min c with
  | None => mret None
  | Some (finalized_height, _) =>
      vs ← reads votes;
      pt ← reads power_table;
      lift (quorum_loop pt vs threshold finalized_height (reverse (om_iter c)) 0 ∅)
  end.

Definition set_finalized {E} (block_height : N) bh : stm tally E unit :=
  modify (λ t, set_chain (<[block_height := Some bh]> (om_split block_height (chain t)).2) t) ;;
  modify (λ t, set_votes (om_split block_height (votes t)).2 t).

Definition add_object_vote vk (object : Obj) : stm tally (Error K Obj) bool :=
  paused ← reads pause_object_votes;
  if (paused : bool) then retry
  else
    powered ← has_power vk;
    if negb powered then abort (UnpoweredValidator vk)
    else
      ov ← reads object_votes;
      let votes_for_object := default ∅ (ov !! object) in
      if bool_decide (vk ∈ votes_for_object) then mret false
      else
        modify (set_object_votes (<[object := votes_for_object ∪ {[vk]}]> ov)) ;;
        mret true.

Definition pause_object_votes_until_find_quorum {E} : stm tally E unit :=
  modify (set_object_pause true).

Definition find_object_quorum {E} (object : Obj) : stm tally E bool :=
  modify (set_object_pause false) ;;
  threshold ← quorum_threshold;
  ov ← reads object_votes;
  pt ← reads power_table;
  match ov !! object with
  | None => mret false
  | Some votes_for_object =>
      '(weight, voters) ← lift (tally_voters pt (elements votes_for_object) 0 ∅);
      if bool_decide (pt = ∅ ∧ voters ≠ ∅) then mret true
      else mret (bool_decide (threshold ≤ weight))
  end.

Definition set_power_table {E} (pt : list (K * N)) : stm tally E unit :=
  modify (set_power (from_iter pt)).

(** One iteration of the update loop: a zero weight removes the validator. *)
Definition power_update (pt : gmap K N) (u : K * N) : gmap K N :=
  if bool_decide (u.2 = 0) then delete u.1 pt else <[u.1 := u.2]> pt.

Definition update_power_table {E} (updates : list (K * N)) : stm tally E unit :=
  if bool_decide (updates = []) then mret tt
  else modify (λ t, set_power (foldl power_update (power_table t) updates) t).

(** The transaction of one round of [publish_vote_loop]: vote for the tip of the
    chain, or block until there is a new tip to vote for. *)
Definition publish_vote_tx vk (prev_height : N) : stm tally (Error K V) (N * V * bool) :=
  next_height ← latest_height;
  if bool_decide (next_height = prev_height) then retry
  else
    hash ← block_hash next_height;
    match hash with
    | None => retry
    | Some next_hash =>
        powered ← has_power vk;
        if (powered : bool) then
          add_vote vk next_height next_hash ;; mret (next_height, next_hash, powered)
        else mret (next_height, next_hash, powered)
    end.

(** What came of that transaction under the vote timeout. *)
Inductive tx_result :=
| TxOk (vs : N * V * bool)
| TxTimeout
| TxErr (e : Error K V).

(** The rest of the round: the vote to remember and the vote to gossip. *)
Definition publish_round (prev : option (N * V * bool)) (r : tx_result)
    : option (N * V * bool) * option (N * V) :=
  let prev_height := default 0 ((λ '(height, _, _), height) <$> prev) in
  let finish (vs : N * V * bool) :=
    let '(next_height, next_hash, has_power) := vs in
    (Some vs, if has_power && bool_decide (0 < prev_height)
              then Some (next_height, next_hash) else None) in
  match r with
  | TxOk vs => finish vs
  | TxTimeout => match prev with Some vs => finish vs | None => (prev, None) end
  | TxErr _ => (prev, None)
  end.
End tally.

(** ** Views of the state the specifications are written with *)

Section views.
Context `{Countable K, Countable V, Countable Obj}.
Implicit Types (t : VoteTally K V Obj) (vk : K) (bh : V).

Definition finalized t : N := default 0 (fst <$> get_min (chain t)).
Definition powered t vk : Prop :=
  power_table t = ∅ ∨ 0 < weight_of (power_table t) vk.
Definition threshold t : N := total_weight (power_table t) * 2 / 3 + 1.

(** The validators that voted for a hash at a height. *)
Definition block_votes t (h : N) bh : gset K :=
  default ∅ (votes t !! h ≫= (.!! bh)).

(** The validators that voted for a block of the tally's chain at [h] or above:
    those that vouch for [h], because the chain is linear. *)
Definition supporters t (h : N) : gset K :=
  ⋃ ((λ p : N * option V, from_option (block_votes t p.1) ∅ p.2) <$>
      filter (λ p, h ≤ p.1) (om_iter (chain t))).

(** A block of the chain that can be proposed: above the finalized height, voted
    for, and vouched for by a quorum. *)
Definition has_quorum t (h : N) bh : Prop :=
  chain t !! h = Some (Some bh) ∧ finalized t < h ∧
  is_Some (votes t !! h ≫= (.!! bh)) ∧
  threshold t ≤ set_weight (power_table t) (supporters t h).

Lemma elem_of_supporters t h vk :
  vk ∈ supporters t h ↔
  ∃ h' bh, h ≤ h' ∧ chain t !! h' = Some (Some bh) ∧ vk ∈ block_votes t h' bh.
Proof.
  unfold supporters. rewrite elem_of_union_list. split.
  - intros (X & HX & Hvk). apply list_elem_of_fmap in HX as ([h' o] & -> & Hin).
    apply list_elem_of_filter in Hin as [Hle Hin%elem_of_om_iter]. simpl in *.
    destruct o as [bh|]; [by exists h', bh|set_solver].
  - intros (h' & bh & Hle & Hc & Hvk). exists (block_votes t h' bh). split; [|done].
    apply list_elem_of_fmap. exists (h', Some bh). split; [done|].
    apply list_elem_of_filter. split; [done|]. by apply elem_of_om_iter.
Qed.
End views.

Section evaluation.
Context `{Profile} `{Countable K, Countable V, Countable Obj} {E : Type}.
Implicit Types (t : VoteTally K V Obj) (vk : K) (bh : V).

Lemma has_power_eq t vk : has_power (E:=E) vk t = Done (bool_decide (powered t vk), t).
Proof.
  unfold has_power, powered, weight_of. stm_unfold.
  case_bool_decide; [by rewrite bool_decide_eq_true_2 by (by left)|].
  destruct (power_table t !! vk) as [w|]; simpl; do 2 f_equal;
    [apply bool_decide_ext; tauto|].
  symmetry. apply bool_decide_eq_false_2. intros [?|?]; [done|lia].
Qed.

Lemma last_finalized_height_eq t :
  last_finalized_height (E:=E) t = Done (finalized t, t).
Proof. done. Qed.

Lemma quorum_threshold_eq t :
  total_weight (power_table t) * 2 < u64_size →
  quorum_threshold (E:=E) t = Done (threshold t, t).
Proof.
  intros Ht. unfold quorum_threshold, threshold, total_weight in *. stm_unfold.
  rewrite u64_sum_ok by lia. cbv beta iota. rewrite u64_mul_ok by lia. cbv beta iota.
  rewrite u64_div_ok by lia. cbv beta iota. rewrite u64_add_ok; [done|].
  set (n := sumN _) in *. pose proof (N.Div0.mul_div_le (n * 2) 3). lia.
Qed.

Lemma tally_voters_eq (pt : gmap K N) l voters :
  total_weight pt < u64_size →
  tally_voters (E:=E) pt l (set_weight pt voters) voters =
  Done (set_weight pt (voters ∪ list_to_set l), voters ∪ list_to_set l).
Proof.
  intros Ht. revert voters. induction l as [|vk l IH]; intros voters; simpl.
  - by rewrite union_empty_r_L.
  - case_bool_decide as Hin.
    + rewrite IH.
      by replace (voters ∪ ({[vk]} ∪ list_to_set l))
        with (voters ∪ list_to_set l) by set_solver.
    + pose proof (set_weight_total pt (voters ∪ {[vk]})) as Hle.
      rewrite set_weight_add in Hle by done.
      rewrite u64_add_ok by lia. simpl. rewrite <-set_weight_add by done.
      rewrite IH. by rewrite (assoc_L (∪)).
Qed.
End evaluation.

(** ** The quorum search

    [contrib] is what one block of the chain adds to the set of voters, and
    [qual_at] says that the search, which has already seen [voters], stops at the
    block behind the prefix [l1] of the remaining chain. *)

Section quorum_search.
Context `{Profile} `{Countable K, Countable V, Countable Obj} {E : Type}.
Context (t : VoteTally K V Obj).
Abbreviation pt := (power_table t).
Implicit Types (p : N * option V) (l : list (N * option V)).

Definition contrib p : gset K := from_option (block_votes t p.1) ∅ p.2.
Definition contribs l : gset K := ⋃ (contrib <$> l).

Record qual_at (thr fin : N) (voters : gset K) l l1 (h : N) (bh : V) : Prop := {
  qual_split : ∃ l2, l = l1 ++ (h, Some bh) :: l2;
  qual_new : Forall (λ p, p.1 ≠ fin) (l1 ++ [(h, Some bh)]);
  qual_voted : is_Some (votes t !! h ≫= (.!! bh));
  qual_weight : thr ≤ set_weight pt (voters ∪ contribs (l1 ++ [(h, Some bh)]))
}.

Lemma contribs_cons p l : contribs (p :: l) = contrib p ∪ contribs l.
Proof. done. Qed.

Lemma qual_at_cons thr fin voters p q l l1 h bh :
  qual_at thr fin voters (p :: l) (q :: l1) h bh ↔
  p = q ∧ p.1 ≠ fin ∧ qual_at thr fin (voters ∪ contrib p) l l1 h bh.
Proof.
  split.
  - intros [[l2 Hl] Hf Hv Hw]. simpl in *. simplify_eq.
    inv Hf. rewrite contribs_cons in Hw. split_and!; [done|done|].
    split; [by eexists|done|done|]. by rewrite <-(assoc_L (∪)).
  - intros (-> & Hne & [[l2 ->] Hf Hv Hw]). split.
    + by eexists.
    + by constructor.
    + done.
    + simpl. rewrite contribs_cons. by rewrite (assoc_L (∪)).
Qed.

(** The search returns the first block from the tip that qualifies. *)
Definition first_qual thr fin voters l (r : option (N * V)) : Prop :=
  match r with
  | Some (h, bh) => ∃ l1, qual_at thr fin voters l l1 h bh ∧
      ∀ l1' h' bh', qual_at thr fin voters l l1' h' bh' → (length l1 ≤ length l1')%nat
  | None => ∀ l1 h bh, ¬ qual_at thr fin voters l l1 h bh
  end.

(** Going past a block that does not qualify. *)
Lemma first_qual_skip thr fin voters h0 o l r :
  h0 ≠ fin → (∀ h bh, ¬ qual_at thr fin voters ((h0, o) :: l) [] h bh) →
  first_qual thr fin (voters ∪ contrib (h0, o)) l r →
  first_qual thr fin voters ((h0, o) :: l) r.
Proof.
  intros Hne Hno Hr. destruct r as [[h bh]|]; simpl in *.
  - destruct Hr as (l1 & Hq & Hmin). exists ((h0, o) :: l1). split.
    + by apply qual_at_cons.
    + intros [|q l1'] h' bh' Hq'; [by apply Hno in Hq'|].
      apply qual_at_cons in Hq' as (_ & _ & Hq'). apply Hmin in Hq'. simpl. lia.
  - intros [|q l1] h bh Hq; [by apply Hno in Hq|].
    apply qual_at_cons in Hq as (_ & _ & Hq). by apply Hr in Hq.
Qed.

(** A block nobody voted for contributes nothing and does not qualify. *)
Lemma not_voted_skip thr fin voters h0 o l r :
  h0 ≠ fin → (∀ bh, o = Some bh → votes t !! h0 ≫= (.!! bh) = None) →
  first_qual thr fin voters l r → first_qual thr fin voters ((h0, o) :: l) r.
Proof.
  intros Hne Hno Hr. apply first_qual_skip; [done| |].
  - intros h bh [[l2 Hl] _ [x Hx] _]. simplify_eq/=. rewrite Hno in Hx; done.
  - assert (contrib (h0, o) = ∅) as ->; [|by rewrite union_empty_r_L].
    destruct o as [bh|]; [|done]. unfold contrib, block_votes. simpl.
    by rewrite Hno by done.
Qed.

Lemma quorum_loop_first thr fin l voters :
  total_weight pt < u64_size →
  ∃ r, quorum_loop (E:=E) pt (votes t) thr fin l (set_weight pt voters) voters = Done r ∧
    first_qual thr fin voters l r.
Proof.
  intros Ht. revert voters. induction l as [|[h0 o] l IH]; intros voters; simpl.
  { exists None. split; [done|]. intros l1 h bh [[l2 Hl] _ _ _]. by destruct l1. }
  case_bool_decide as Hfin.
  { exists None. split; [done|]. intros [|q l1] h bh [[l2 Hl] Hf _ _];
      simplify_eq/=; by inv Hf. }
  destruct o as [bh0|]; cycle 1.
  { destruct (IH voters) as (r & -> & Hr). exists r. split; [done|].
    by apply not_voted_skip. }
  destruct (votes t !! h0) as [at_h|] eqn:Hv; cycle 1.
  { destruct (IH voters) as (r & -> & Hr). exists r. split; [done|].
    apply not_voted_skip; [done| |done]. intros bh _. by rewrite Hv. }
  destruct (at_h !! bh0) as [vs|] eqn:Hvs; cycle 1.
  { destruct (IH voters) as (r & -> & Hr). exists r. split; [done|].
    apply not_voted_skip; [done| |done]. intros bh [= <-]. by rewrite Hv. }
  assert (contrib (h0, Some bh0) = vs) as Hc.
  { unfold contrib, block_votes. simpl. rewrite Hv. simpl. by rewrite Hvs. }
  rewrite tally_voters_eq by done. simpl.
  rewrite list_to_set_elements_L, <-Hc.
  case_bool_decide as Hthr.
  - exists (Some (h0, bh0)). split; [done|]. exists []. split; [|simpl; lia].
    split; [by eexists|by repeat constructor|by rewrite Hv; simpl; rewrite Hvs|].
    unfold contribs. simpl. by rewrite union_empty_r_L.
  - destruct (IH (voters ∪ contrib (h0, Some bh0))) as (r & -> & Hr).
    exists r. split; [done|]. apply first_qual_skip; [done| |done].
    intros h bh [[l2 Hl] _ _ Hw]. simplify_eq/=. unfold contribs in Hw. simpl in Hw.
    by rewrite union_empty_r_L in Hw.
Qed.

Lemma elem_of_contribs l vk : vk ∈ contribs l ↔ ∃ p, p ∈ l ∧ vk ∈ contrib p.
Proof.
  unfold contribs. rewrite elem_of_union_list. setoid_rewrite list_elem_of_fmap.
  naive_solver.
Qed.

(** The blocks from the tip down to height [h] contribute its supporters. *)
Lemma contribs_supporters l1 h bh l2 :
  reverse (om_iter (chain t)) = l1 ++ (h, Some bh) :: l2 →
  contribs (l1 ++ [(h, Some bh)]) = supporters t h.
Proof.
  intros Hl. apply set_eq. intros vk. rewrite elem_of_contribs, elem_of_supporters. split.
  - intros ([h' [bh'|]] & Hin & Hvk); [|set_solver]. exists h', bh'.
    assert ((h', Some bh') ∈ reverse (om_iter (chain t))) as Hin'.
    { rewrite Hl. set_solver. }
    split; [by apply (om_rev_split _ _ _ _ _ _ Hl Hin') in Hin|]. split; [|done].
    rewrite elem_of_reverse in Hin'. by apply elem_of_om_iter.
  - intros (h' & bh' & Hle & Hc & Hvk). exists (h', Some bh'). split; [|done].
    eapply om_rev_split; [done| |done]. rewrite elem_of_reverse. by apply elem_of_om_iter.
Qed.

Lemma qual_at_has_quorum l1 h bh :
  qual_at (threshold t) (finalized t) ∅ (reverse (om_iter (chain t))) l1 h bh →
  has_quorum t h bh.
Proof.
  intros [[l2 Hl] Hf Hv Hw]. rewrite union_empty_l_L in Hw.
  rewrite (contribs_supporters _ _ _ _ Hl) in Hw.
  assert ((h, Some bh) ∈ reverse (om_iter (chain t))) as Hin by (rewrite Hl; set_solver).
  rewrite elem_of_reverse in Hin. apply elem_of_om_iter in Hin.
  split_and!; [done| |done|done].
  apply Forall_app in Hf as [_ Hf%Forall_inv]. simpl in Hf.
  destruct (get_min_is_Some (chain t) h) as (fin & x & Hmin); [by eexists|].
  assert (finalized t = fin) as Hfin by (unfold finalized; by rewrite Hmin).
  apply get_min_Some in Hmin as [_ Hmin]. pose proof (Hmin h ltac:(by eexists)). lia.
Qed.

Lemma has_quorum_qual_at h bh :
  has_quorum t h bh →
  ∃ l1, qual_at (threshold t) (finalized t) ∅ (reverse (om_iter (chain t))) l1 h bh.
Proof.
  intros (Hc & Hf & Hv & Hw). apply elem_of_om_iter in Hc as Hin.
  apply elem_of_reverse in Hin.
  apply list_elem_of_split in Hin as (l1 & l2 & Hl).
  exists l1. split; [by eexists| |done|].
  - apply Forall_forall. intros p Hp Heq.
    assert (h ≤ p.1); [|lia]. eapply om_rev_split; [done| |done]. rewrite Hl. set_solver.
  - by rewrite union_empty_l_L, (contribs_supporters _ _ _ _ Hl).
Qed.
End quorum_search.

(** ** Functional behaviour *)

Section properties.
Context `{Profile} `{Countable K, Countable V, Countable Obj}.
Implicit Types (t : VoteTally K V Obj) (vk : K) (bh : V).

Lemma find_quorum_eq {E} t :
  total_weight (power_table t) * 2 < u64_size →
  ∃ r, find_quorum (E:=E) t = Done (r, set_pause false t) ∧
    match r with
    | Some (h, bh) => has_quorum t h bh ∧ ∀ h' bh', has_quorum t h' bh' → h' ≤ h
    | None => ∀ h bh, ¬ has_quorum t h bh
    end.
Proof.
  intros Ht. unfold find_quorum. stm_unfold.
  rewrite (quorum_threshold_eq (E:=E) (set_pause false t)) by done. simpl.
  destruct (get_min (chain t)) as [[fin x]|] eqn:Hmin; cycle 1.
  { exists None. split; [done|]. apply get_min_None in Hmin. intros h bh [Hc _].
    by rewrite Hmin in Hc. }
  assert (finalized t = fin) as <- by (unfold finalized; by rewrite Hmin).
  destruct (quorum_loop_first (E:=E) t (threshold t) (finalized t)
    (reverse (om_iter (chain t))) ∅) as (r & Hr & Hq); [lia|].
  rewrite set_weight_empty in Hr. exists r. split.
  { unfold threshold in *. simpl in *. by rewrite Hr. }
  destruct r as [[h bh]|]; simpl in Hq.
  - destruct Hq as (l1 & Hq & Hmax). split; [by eapply qual_at_has_quorum|].
    intros h' bh' [l1' Hq']%has_quorum_qual_at.
    destruct Hq as [[l2 Hl] _ _ _], (Hq') as [[l2' Hl'] _ _ _].
    eapply om_rev_order; eauto.
  - intros h bh [l1 Hq']%has_quorum_qual_at. by apply Hq in Hq'.
Qed.

(** C14: while twice the total weight fits in 64 bits, [find_quorum]
    terminates without a panic, re-enables voting and changes nothing else, and
    returns the highest block of the chain that is above the finalized height,
    not null, voted for, and vouched for by a quorum: the validators that voted
    for it or for a descendant weigh at least the threshold.  It returns [None]
    only when there is no such block. *)
Theorem find_quorum_spec {E} t :
  total_weight (power_table t) * 2 < u64_size →
  ∃ r, find_quorum (E:=E) t = Done (r, set_pause false t) ∧
    match r with
    | Some (h, bh) => has_quorum t h bh ∧ ∀ h' bh', has_quorum t h' bh' → h' ≤ h
    | None => ∀ h bh, ¬ has_quorum t h bh
    end.
Proof. apply find_quorum_eq. Qed.

(** The threshold is the least weight that exceeds two
    thirds of the total, and it is computed exactly as long as twice the total
    fits in 64 bits; beyond, the multiplication panics under overflow checks. *)
Lemma quorum_threshold_spec {E} t :
  let total := total_weight (power_table t) in
  total < u64_size →
  (total * 2 < u64_size →
    ∃ q, quorum_threshold (E:=E) t = Done (q, t) ∧ ∀ w, q ≤ w ↔ 2 * total < 3 * w) ∧
  (u64_size ≤ total * 2 → overflow_checks = true → quorum_threshold (E:=E) t = Panic).
Proof.
  intros total Ht. split.
  - intros Htw. exists (threshold t). split; [by apply quorum_threshold_eq|].
    intros w. apply two_thirds_spec.
  - intros Htw Hc. unfold quorum_threshold, total, total_weight in *. stm_unfold.
    rewrite u64_sum_ok by lia. cbv beta iota. unfold u64_mul, u64_wrap.
    rewrite bool_decide_eq_false_2 by lia. by rewrite Hc.
Qed.

(** Two sets of validators that both reach the threshold
    overlap in more than a third of the total weight, so with less than a third
    of faulty weight two quorums share an honest validator. *)
Lemma quorum_intersection t (s1 s2 : gset K) :
  threshold t ≤ set_weight (power_table t) s1 →
  threshold t ≤ set_weight (power_table t) s2 →
  total_weight (power_table t) < 3 * set_weight (power_table t) (s1 ∩ s2).
Proof.
  unfold threshold. rewrite !two_thirds_spec. intros Hs1 Hs2.
  pose proof (set_weight_inter (power_table t) s1 s2). lia.
Qed.

(** What a vote changes: one set of voters, and nothing else. *)
Definition voted vk (h : N) bh t t' : Prop :=
  (∀ h' bh', block_votes t' h' bh' =
    if bool_decide (h' = h ∧ bh' = bh) then block_votes t h bh ∪ {[vk]}
    else block_votes t h' bh') ∧
  t' = set_votes (votes t') t.

Lemma find_equivocation_Some vk bh (m : gmap V (gset K)) bh' :
  find_equivocation vk bh (map_to_list m) = Some bh' →
  bh' ≠ bh ∧ vk ∈ default ∅ (m !! bh').
Proof.
  assert (∀ p, p ∈ map_to_list m → m !! p.1 = Some p.2) as Hm.
  { intros [x y]. apply elem_of_map_to_list. }
  revert Hm. induction (map_to_list m) as [|[x y] l IH]; intros Hm; simpl; [done|].
  case_bool_decide as Hx.
  - intros [= <-]. split; [naive_solver|]. specialize (Hm (x, y) ltac:(set_solver)).
    simpl in Hm. rewrite Hm. naive_solver.
  - apply IH. set_solver.
Qed.

Lemma find_equivocation_None vk bh (m : gmap V (gset K)) :
  find_equivocation vk bh (map_to_list m) = None →
  ∀ bh', vk ∈ default ∅ (m !! bh') → bh' = bh.
Proof.
  intros Hn bh' Hin. destruct (m !! bh') as [vs|] eqn:Hb; [|set_solver].
  apply elem_of_map_to_list in Hb. revert Hn Hb.
  induction (map_to_list m) as [|[x y] l IH]; simpl; [set_solver|].
  case_bool_decide as Hx; [done|]. rewrite elem_of_cons.
  intros Hn [[= -> ->]|Hl]; [|by apply IH]. apply dec_stable. naive_solver.
Qed.

Lemma block_votes_at t h bh :
  default ∅ (default ∅ (votes t !! h) !! bh) = block_votes t h bh.
Proof. unfold block_votes. by destruct (votes t !! h). Qed.

Lemma voted_insert vk h bh t :
  voted vk h bh t (set_votes (<[h := <[bh := block_votes t h bh ∪ {[vk]}]>
    (default ∅ (votes t !! h))]> (votes t)) t).
Proof.
  split; [|done]. intros h' bh'. unfold block_votes at 1. simpl.
  destruct (decide (h' = h)) as [->|Hh].
  - rewrite lookup_insert_eq. simpl. destruct (decide (bh' = bh)) as [->|Hb].
    + rewrite lookup_insert_eq. by rewrite bool_decide_eq_true_2.
    + rewrite lookup_insert_ne, bool_decide_eq_false_2 by naive_solver.
      apply block_votes_at.
  - by rewrite lookup_insert_ne, bool_decide_eq_false_2 by naive_solver.
Qed.

(** What [add_vote] promises of each way it can end. *)
Definition add_vote_post vk (h : N) bh t (r : outcome (Error K V) (bool * VoteTally K V Obj))
    : Prop :=
  match r with
  | Retry => pause_votes t = true
  | Fail e => pause_votes t = false ∧ finalized t ≤ h ∧
      match e with
      | UnpoweredValidator k => k = vk ∧ ¬ powered t vk
      | Equivocation k h' new old => k = vk ∧ h' = h ∧ new = bh ∧
          powered t vk ∧ old ≠ bh ∧ vk ∈ block_votes t h old
      | _ => False
      end
  | Done (false, t') => pause_votes t = false ∧ t' = t ∧
      (h < finalized t ∨ powered t vk ∧ vk ∈ block_votes t h bh)
  | Done (true, t') => pause_votes t = false ∧ finalized t ≤ h ∧ powered t vk ∧
      (∀ bh', vk ∉ block_votes t h bh') ∧ voted vk h bh t t'
  | Panic | OutOfFuel => False
  end.

Lemma add_vote_cases vk h bh t : add_vote_post vk h bh t (add_vote vk h bh t).
Proof.
  unfold add_vote, add_vote_post. stm_unfold. destruct (pause_votes t) eqn:Hp; [done|].
  rewrite last_finalized_height_eq. cbv beta iota.
  case_bool_decide as Hh; [naive_solver|]. apply N.nlt_ge in Hh.
  rewrite has_power_eq. cbv beta iota. case_bool_decide as Hpow; simpl; [|done].
  destruct (find_equivocation _ _ _) as [bh'|] eqn:Hf.
  - apply find_equivocation_Some in Hf as [Hne Hin]. rewrite block_votes_at in Hin. done.
  - pose proof (find_equivocation_None _ _ _ Hf) as Hno.
    setoid_rewrite block_votes_at in Hno. rewrite block_votes_at.
    case_bool_decide as Hin; [by auto|]. split_and!; [done..| |apply voted_insert].
    intros bh' Hin'. by apply Hno in Hin' as Heq; subst.
Qed.

(** [add_vote] on every branch.  It blocks exactly while votes are
    paused; it ignores a vote below the last finalized height and a duplicate
    without changing anything; it rejects a validator without power and one that
    has already voted for another hash at that height, naming that hash; otherwise
    the validator had no vote at that height, and the vote is the only change.
    The cases exclude each other, so they characterise the result. *)
Lemma add_vote_spec vk h bh t : add_vote_post vk h bh t (add_vote vk h bh t).
Proof. apply add_vote_cases. Qed.

Lemma find_object_quorum_eq {E} t (o : Obj) :
  total_weight (power_table t) * 2 < u64_size →
  let voters := default ∅ (object_votes t !! o) in
  find_object_quorum (E:=E) o t =
    Done (bool_decide (threshold t ≤ set_weight (power_table t) voters ∨
                       power_table t = ∅ ∧ voters ≠ ∅), set_object_pause false t).
Proof.
  intros Ht voters. unfold find_object_quorum. stm_unfold.
  rewrite quorum_threshold_eq by done. cbv beta iota. simpl.
  change (threshold (set_object_pause false t)) with (threshold t).
  assert (0 < threshold t) as Hpos by (by apply N.add_pos_r).
  unfold voters. destruct (object_votes t !! o) as [vs|]; simpl; cycle 1.
  { rewrite bool_decide_eq_false_2; [done|]. rewrite set_weight_empty.
    intros [?|[_ ?]]; [lia|done]. }
  pose proof (tally_voters_eq (E:=E) (power_table t) (elements vs) ∅ ltac:(lia)) as Heq.
  rewrite set_weight_empty, union_empty_l_L, list_to_set_elements_L in Heq.
  rewrite Heq. simpl. case_bool_decide as Hemp; do 2 f_equal.
  - symmetry. apply bool_decide_eq_true_2. by right.
  - apply bool_decide_ext. naive_solver.
Qed.

(** While twice the total weight fits in 64 bits,
    [find_object_quorum] re-enables object votes, changes nothing else, and answers
    whether the validators that voted for the object weigh at least the threshold;
    with an empty power table a single vote is enough. *)
Lemma find_object_quorum_spec {E} t (o : Obj) :
  total_weight (power_table t) * 2 < u64_size →
  let voters := default ∅ (object_votes t !! o) in
  find_object_quorum (E:=E) o t =
    Done (bool_decide (threshold t ≤ set_weight (power_table t) voters ∨
                       power_table t = ∅ ∧ voters ≠ ∅), set_object_pause false t).
Proof. apply find_object_quorum_eq. Qed.

(** The weight the updates leave a validator with, if one of them is about it. *)
Definition last_update vk (updates : list (K * N)) : option N :=
  foldl (λ w u, if bool_decide (u.1 = vk) then Some u.2 else w) None updates.

Lemma last_update_snoc vk us u :
  last_update vk (us ++ [u]) = if bool_decide (u.1 = vk) then Some u.2 else last_update vk us.
Proof. unfold last_update. by rewrite foldl_snoc. Qed.

Lemma power_update_lookup (pt : gmap K N) u vk :
  power_update pt u !! vk =
  if bool_decide (u.1 = vk) then (if bool_decide (u.2 = 0) then None else Some u.2)
  else pt !! vk.
Proof.
  destruct u as [k w]. unfold power_update. simpl.
  repeat case_bool_decide; subst; by simplify_map_eq.
Qed.

(** After [update_power_table] a validator named by the
    updates has the weight of the last of them, where a zero weight removes it
    from the table; everybody else keeps the entry they had. *)
Lemma update_power_table_spec {E} us t :
  ∃ pt', update_power_table (E:=E) us t = Done (tt, set_power pt' t) ∧
    ∀ vk, pt' !! vk =
      match last_update vk us with
      | Some w => if bool_decide (w = 0) then None else Some w
      | None => power_table t !! vk
      end.
Proof.
  exists (foldl power_update (power_table t) us). split.
  - unfold update_power_table. case_bool_decide; [|done]. subst. by destruct t.
  - intros vk. induction us as [|u us IH] using rev_ind; [done|].
    rewrite last_update_snoc, foldl_snoc, power_update_lookup, IH.
    by case_bool_decide.
Qed.
End properties.

(** ** The tally as a state machine

    Every method, as an operation that either commits a new state or leaves the old
    one.  [reachable ok] are the states of runs in which every operation satisfies
    the side condition [ok]. *)

Section machine.
Context `{Profile} `{Countable K, Countable V, Countable Obj}.
Abbreviation tally := (VoteTally K V Obj).
Implicit Types (t : tally) (vk : K) (bh : V).

Inductive tally_op :=
| OpAddBlock (h : N) (hash : option V)
| OpAddVote (vk : K) (h : N) (bh : V)
| OpPause
| OpFindQuorum
| OpSetFinalized (h : N) (bh : V)
| OpAddObjectVote (vk : K) (o : Obj)
| OpPauseObject
| OpFindObjectQuorum (o : Obj)
| OpSetPower (pt : list (K * N))
| OpUpdatePower (us : list (K * N))
| OpPublish (vk : K) (prev_height : N).

Definition committed {S E A} (m : outcome E (A * S)) : option S :=
  match m with Done (_, s) => Some s | _ => None end.

Definition exec (op : tally_op) t : option tally :=
  match op with
  | OpAddBlock h hash => committed (add_block h hash t)
  | OpAddVote vk h bh => committed (add_vote vk h bh t)
  | OpPause => committed (pause_votes_until_find_quorum (E:=Empty_set) t)
  | OpFindQuorum => committed (find_quorum (E:=Empty_set) t)
  | OpSetFinalized h bh => committed (set_finalized (E:=Empty_set) h bh t)
  | OpAddObjectVote vk o => committed (add_object_vote vk o t)
  | OpPauseObject => committed (pause_object_votes_until_find_quorum (E:=Empty_set) t)
  | OpFindObjectQuorum o => committed (find_object_quorum (E:=Empty_set) o t)
  | OpSetPower pt => committed (set_power_table (E:=Empty_set) pt t)
  | OpUpdatePower us => committed (update_power_table (E:=Empty_set) us t)
  | OpPublish vk prev => committed (publish_vote_tx vk prev t)
  end.

Inductive reachable (ok : tally_op → tally → Prop) : tally → Prop :=
| reach_empty : reachable ok empty_tally
| reach_new pt h bh : in_u64 h → reachable ok (new pt (h, bh))
| reach_step t op t' : reachable ok t → ok op t → exec op t = Some t' → reachable ok t'.

(** The operations that touch the chain or the votes, as relations. *)
Lemma committed_Some {S E A} (m : outcome E (A * S)) s :
  committed m = Some s → ∃ a, m = Done (a, s).
Proof. destruct m as [[]| | | |]; naive_solver. Qed.

Lemma add_block_inv h o t r :
  add_block h o t = Done r →
  ∃ ph x, get_max (chain t) = Some (ph, x) ∧ u64_add (E:=Error K V) ph 1 = Done h ∧
    r = (tt, set_chain (<[h := o]> (chain t)) t).
Proof.
  unfold add_block. intros Hr. inv_done.
  destruct (get_max _) as [[ph x]|] eqn:Hm; [|done]. inv_done.
  case_bool_decide as Hb; [done|]. unfold modify in *. naive_solver.
Qed.

Lemma find_quorum_frame t r :
  find_quorum (E:=Empty_set) t = Done r → r.2 = set_pause false t.
Proof.
  unfold find_quorum, quorum_threshold. intros Hr. inv_done.
  destruct (get_min _) as [[]|]; inv_done; done.
Qed.

Lemma find_object_quorum_frame o t r :
  find_object_quorum (E:=Empty_set) o t = Done r → r.2 = set_object_pause false t.
Proof.
  unfold find_object_quorum, quorum_threshold. intros Hr. inv_done.
  case_match; inv_done; [|done].
  case_match. case_bool_decide; inv_done; done.
Qed.

Lemma add_object_vote_frame vk o t b t' :
  add_object_vote vk o t = Done (b, t') → chain t' = chain t ∧ votes t' = votes t.
Proof.
  unfold add_object_vote. intros Hr. inv_done.
  destruct (pause_object_votes _); inv_done. rewrite has_power_eq in *. inv_done.
  case_bool_decide; simpl in *; inv_done. case_bool_decide; inv_done; done.
Qed.

Lemma publish_vote_tx_inv vk prev t h bh p t' :
  publish_vote_tx vk prev t = Done ((h, bh, p), t') →
  chain t !! h = Some (Some bh) ∧ h = default 0 (fst <$> get_max (chain t)) ∧ h ≠ prev ∧
  p = bool_decide (powered t vk) ∧
  if p then ∃ b, add_vote vk h bh t = Done (b, t') else t' = t.
Proof.
  unfold publish_vote_tx, latest_height, block_hash. intros Hr. inv_done.
  case_bool_decide as Hp; [done|]. inv_done.
  destruct (mjoin _) as [bh'|] eqn:Hc; [|done]. inv_done. rewrite has_power_eq in *. inv_done.
  apply bind_Some in Hc as ([bh''|] & Hc & [= ->]).
  case_bool_decide; inv_done; eauto 10.
Qed.

Definition finalize (h : N) bh t : tally :=
  set_votes (om_split h (votes t)).2 (set_chain (<[h := Some bh]> (om_split h (chain t)).2) t).

(** What an operation can do to the chain and to the votes. *)
Inductive effect (op : tally_op) t t' : Prop :=
| EffFrame : chain t' = chain t → votes t' = votes t → effect op t t'
| EffBlock h o ph x : op = OpAddBlock h o → get_max (chain t) = Some (ph, x) →
    u64_add (E:=Error K V) ph 1 = Done h → t' = set_chain (<[h := o]> (chain t)) t →
    effect op t t'
| EffVote vk h bh :
    op = OpAddVote vk h bh ∨
      (∃ prev, op = OpPublish vk prev) ∧ chain t !! h = Some (Some bh) →
    finalized t ≤ h → (∀ bh', vk ∉ block_votes t h bh') → voted vk h bh t t' →
    effect op t t'
| EffFinal h bh : op = OpSetFinalized h bh → t' = finalize h bh t → effect op t t'.

Lemma add_vote_effect op vk h bh t b t' :
  op = OpAddVote vk h bh ∨
    (∃ prev, op = OpPublish vk prev) ∧ chain t !! h = Some (Some bh) →
  add_vote vk h bh t = Done (b, t') → effect op t t'.
Proof.
  intros Hop Hv. pose proof (add_vote_cases vk h bh t) as Hc. rewrite Hv in Hc.
  destruct b; simpl in Hc.
  - destruct Hc as (_ & ? & _ & ? & ?). by eapply EffVote.
  - destruct Hc as (_ & -> & _). by apply EffFrame.
Qed.

Lemma exec_effect op t t' : exec op t = Some t' → effect op t t'.
Proof.
  destruct op; cbn [exec]; intros [r Hr]%committed_Some.
  - apply add_block_inv in Hr as (ph & x & ? & ? & [= ? ?]). by eapply EffBlock.
  - eapply add_vote_effect; [by left|done].
  - injection Hr as <- <-. by apply EffFrame.
  - apply find_quorum_frame in Hr. simpl in Hr. subst. by apply EffFrame.
  - injection Hr as <- <-. by eapply EffFinal.
  - apply add_object_vote_frame in Hr as [??]. by apply EffFrame.
  - injection Hr as <- <-. by apply EffFrame.
  - apply find_object_quorum_frame in Hr. simpl in Hr. subst. by apply EffFrame.
  - injection Hr as <- <-. by apply EffFrame.
  - unfold update_power_table in Hr. case_bool_decide; inv_done; by apply EffFrame.
  - destruct r as [[h bh] p]. apply publish_vote_tx_inv in Hr as (? & ? & ? & ? & Hr).
    destruct p; [|by subst; apply EffFrame]. destruct Hr as [b Hr].
    eapply add_vote_effect; [by eauto|done].
Qed.

Lemma block_votes_finalize h bh t h' bh' :
  block_votes (finalize h bh t) h' bh' =
  if bool_decide (h < h') then block_votes t h' bh' else ∅.
Proof.
  unfold block_votes at 1, finalize. cbn [votes set_votes]. rewrite lookup_split_above.
  by case_bool_decide.
Qed.

Lemma chain_finalize h bh t h' :
  chain (finalize h bh t) !! h' =
  if bool_decide (h' = h) then Some (Some bh)
  else if bool_decide (h < h') then chain t !! h' else None.
Proof.
  unfold finalize. cbn [chain set_votes set_chain]. rewrite lookup_insert.
  case_decide; [by rewrite bool_decide_eq_true_2|].
  by rewrite bool_decide_eq_false_2, lookup_split_above by done.
Qed.

Lemma finalized_Some t h x : get_min (chain t) = Some (h, x) → finalized t = h.
Proof. unfold finalized. by intros ->. Qed.

Lemma finalized_finalize h bh t : finalized (finalize h bh t) = h.
Proof.
  eapply finalized_Some, get_min_Some. split.
  - rewrite chain_finalize, bool_decide_eq_true_2 by done. done.
  - intros k. rewrite chain_finalize. repeat case_bool_decide; [lia..|]. by intros [].
Qed.

Lemma finalized_le t h : is_Some (chain t !! h) → finalized t ≤ h.
Proof.
  intros Hh. destruct (get_min_is_Some _ _ Hh) as (k & x & Hk).
  rewrite (finalized_Some _ _ _ Hk). apply get_min_Some in Hk as [_ Hk]. auto.
Qed.

Lemma finalized_elem t : chain t ≠ ∅ → is_Some (chain t !! finalized t).
Proof.
  intros Hne. destruct (get_min (chain t)) as [[k x]|] eqn:Hk;
    [|by apply get_min_None in Hk].
  rewrite (finalized_Some _ _ _ Hk). apply get_min_Some in Hk as [Hk _]. by eexists.
Qed.

Lemma finalized_add_block t h o :
  chain t ≠ ∅ → finalized (set_chain (<[h := o]> (chain t)) t) ≤ finalized t.
Proof.
  intros Hne. apply finalized_le. cbn [chain set_chain]. rewrite lookup_insert.
  case_decide; [done|]. by apply finalized_elem.
Qed.
End machine.

Section invariants.
Context `{Profile} `{Countable K, Countable V, Countable Obj}.
Abbreviation tally := (VoteTally K V Obj).
Implicit Types (t : tally) (vk : K) (bh : V).

(** No validator has two votes at one height, and no vote is below the last
    finalized height. *)
Record votes_inv t : Prop := {
  no_equivocation h vk bh1 bh2 :
    vk ∈ block_votes t h bh1 → vk ∈ block_votes t h bh2 → bh1 = bh2;
  votes_recent h vk bh : vk ∈ block_votes t h bh → finalized t ≤ h
}.

Lemma votes_inv_effect op t t' : votes_inv t → effect op t t' → votes_inv t'.
Proof.
  intros [Heq Hrec] Heff. destruct Heff as [Hc Hv|h o ph x _ Hm _ ->|
    vk h bh _ Hle Hno [Hv Hs]|h bh _ ->].
  - assert (∀ h bh, block_votes t' h bh = block_votes t h bh) as Hb
      by (intros; unfold block_votes; by rewrite Hv).
    assert (finalized t' = finalized t) as Hf by (unfold finalized; by rewrite Hc).
    split; intros *; rewrite ?Hb, ?Hf; eauto.
  - split; [exact Heq|]. intros h' vk bh Hin. etrans; [|by eapply Hrec].
    apply finalized_add_block. intros Hemp. by rewrite Hemp in Hm.
  - assert (finalized t' = finalized t) as Hf by (rewrite Hs; done).
    split; intros *; rewrite ?Hv, ?Hf; repeat case_bool_decide; set_solver.
  - split; intros *; rewrite ?block_votes_finalize, ?finalized_finalize;
      case_bool_decide; eauto; [set_solver|lia|set_solver].
Qed.

(** C32: whatever the sequence of operations, including
    finalization, pausing, power table changes and the validator's own votes, the
    tally never holds two votes of one validator at one height, nor a vote below
    the height that was finalized last. *)
Theorem votes_inv_reachable t : reachable (λ _ _, True) t → votes_inv t.
Proof.
  induction 1 as [|pt h bh _|t op t' _ IH _ Hex].
  - split; intros *; set_solver.
  - split; intros *; set_solver.
  - eapply votes_inv_effect; [done|]. by apply exec_effect.
Qed.

(** Runs of the node: finality does not go back, and heights are 64-bit numbers
    that do not run out. *)
Definition in_order (op : tally_op (K:=K) (V:=V) (Obj:=Obj)) t : Prop :=
  match op with
  | OpAddBlock h _ => 0 < h
  | OpSetFinalized h _ => in_u64 h ∧ finalized t ≤ h
  | _ => True
  end.

Lemma u64_succ_pos {E} n m :
  in_u64 n → u64_add (E:=E) n 1 = Done m → 0 < m → m = n + 1 ∧ in_u64 m.
Proof.
  unfold u64_add, u64_wrap, in_u64. intros Hn. case_bool_decide; [intros [= <-]; lia|].
  destruct overflow_checks; [done|]. intros [= Hm] Hpos.
  assert (Z.of_N n + 1 = Z.of_N u64_size)%Z as Hz by lia. simpl in Hz, Hm.
  rewrite Hz, Z_mod_same_full in Hm. simpl in Hm. lia.
Qed.

(** The chain is an unbroken run of heights that starts at a block with a hash. *)
Record chain_inv t : Prop := {
  chain_u64 h : is_Some (chain t !! h) → in_u64 h;
  chain_contiguous h1 h2 h : is_Some (chain t !! h1) → is_Some (chain t !! h2) →
    h1 ≤ h ≤ h2 → is_Some (chain t !! h);
  chain_bottom : chain t = ∅ ∨ ∃ bh, chain t !! finalized t = Some (Some bh)
}.

Lemma chain_inv_same t t' : chain t' = chain t → chain_inv t → chain_inv t'.
Proof.
  intros Hc [Hu Hcon Hb].
  split; unfold finalized; rewrite Hc; [exact Hu|exact Hcon|exact Hb].
Qed.

Lemma chain_inv_singleton t h bh :
  in_u64 h → chain t = {[h := Some bh]} → chain_inv t.
Proof.
  intros Hu Hc. assert (finalized t = h) as Hf.
  { eapply finalized_Some, get_min_Some. rewrite Hc. split; [by simplify_map_eq|].
    intros k [x [-> _]%lookup_singleton_Some]. done. }
  split.
  - rewrite Hc. intros k [x [-> _]%lookup_singleton_Some]. done.
  - rewrite Hc. intros h1 h2 k [x [-> _]%lookup_singleton_Some]
      [y [-> _]%lookup_singleton_Some] Hk.
    replace k with h2 by lia. by simplify_map_eq.
  - right. exists bh. rewrite Hf, Hc. by simplify_map_eq.
Qed.

(** The height of a new block is fresh and one above the tip. *)
Lemma add_block_next t h ph x :
  chain_inv t → get_max (chain t) = Some (ph, x) →
  u64_add (E:=Error K V) ph 1 = Done h → 0 < h →
  h = ph + 1 ∧ in_u64 h ∧ is_Some (chain t !! ph) ∧
  ∀ k, is_Some (chain t !! k) → k ≤ ph.
Proof.
  intros Hinv [Hph Hmax]%get_max_Some Hadd Hpos.
  assert (in_u64 ph) as Hu by (eapply chain_u64; eauto).
  destruct (u64_succ_pos _ _ Hu Hadd Hpos) as [-> Hu']. split_and!; eauto.
Qed.

Lemma chain_inv_add_block t h o ph x :
  chain_inv t → get_max (chain t) = Some (ph, x) →
  u64_add (E:=Error K V) ph 1 = Done h → 0 < h →
  chain_inv (set_chain (<[h := o]> (chain t)) t).
Proof.
  intros Hinv Hm Hadd Hpos.
  destruct (add_block_next _ _ _ _ Hinv Hm Hadd Hpos) as (-> & Hu & Hph & Hmax).
  destruct Hinv as [Hu' Hcon Hb]. split; cbn [chain set_chain].
  - intros k. rewrite lookup_insert. case_decide; [by subst|apply Hu'].
  - intros h1 h2 k. rewrite !lookup_insert. intros H1' H2' Hk.
    assert (h2 ≤ ph + 1).
    { destruct (decide (ph + 1 = h2)); [lia|]. specialize (Hmax h2 H2'). lia. }
    destruct (decide (ph + 1 = k)); [done|]. rewrite decide_False in H1' by lia. apply (Hcon h1 ph); auto; lia.
  - destruct Hb as [Hb|[bh Hb]]; [rewrite Hb in Hph; by destruct Hph|].
    assert (finalized t ≤ ph) by (apply Hmax; by eexists).
    right. exists bh. replace (finalized _) with (finalized t).
    + rewrite lookup_insert_ne by lia. done.
    + symmetry. eapply finalized_Some, get_min_Some. split.
      * cbn [chain set_chain]. rewrite lookup_insert_ne by lia. done.
      * cbn [chain set_chain]. intros k. rewrite lookup_insert. case_decide; [lia|].
        apply finalized_le.
Qed.

Lemma chain_inv_finalize t h bh :
  chain_inv t → in_u64 h → finalized t ≤ h → chain_inv (finalize h bh t).
Proof.
  intros [Hu Hcon Hb] Hh Hle. split.
  - intros k. rewrite chain_finalize. repeat case_bool_decide; subst; eauto. by intros [].
  - intros h1 h2 k. rewrite !chain_finalize. intros H1' H2' Hk.
    assert (h ≤ h1) by (revert H1'; repeat case_bool_decide; try lia; by intros []).
    destruct (decide (k = h)) as [|Hkh]; [by rewrite bool_decide_eq_true_2|].
    rewrite (bool_decide_eq_false_2 (k = h)), (bool_decide_eq_true_2 (h < k)) by lia.
    revert H2'. rewrite bool_decide_eq_false_2, bool_decide_eq_true_2 by lia. intros H2'.
    destruct Hb as [Hb|[b Hb]]; [rewrite Hb in H2'; by destruct H2'|].
    apply (Hcon (finalized t) h2); [by eexists|done|lia].
  - right. exists bh. rewrite finalized_finalize, chain_finalize.
    by rewrite bool_decide_eq_true_2.
Qed.

Lemma chain_inv_effect op t t' :
  in_order op t → chain_inv t → effect op t t' → chain_inv t'.
Proof.
  intros Hok Hinv [Hc Hv|h o ph x -> Hm Hadd ->|vk h bh _ Hle Hno [Hv Hs]|h bh -> ->].
  - by eapply chain_inv_same.
  - by eapply chain_inv_add_block.
  - apply (chain_inv_same t); [by rewrite Hs|done].
  - destruct Hok. by apply chain_inv_finalize.
Qed.

Lemma chain_inv_reachable (ok : tally_op → tally → Prop) t :
  (∀ op t, ok op t → in_order op t) → reachable ok t → chain_inv t.
Proof.
  intros Hok. induction 1 as [|pt h bh Hh|t op t' _ IH Hop Hex].
  - split; [intros h [x Hx]|intros h1 h2 h [x Hx]|by left];
      cbn in Hx; by rewrite lookup_empty in Hx.
  - by eapply chain_inv_singleton.
  - eapply chain_inv_effect; [by apply Hok|done|by apply exec_effect].
Qed.

(** As long as finality does not go back, the tally's chain
    is an unbroken run of heights from the finalized block to the tip, and the
    finalized block has a hash, so it is never a null round. *)
Lemma tally_chain_contiguous t : reachable in_order t → chain_inv t.
Proof. apply chain_inv_reachable. done. Qed.

(** ** The validator's own votes *)

Context (vk : K).

(** Only this node votes with the key [vk], through [publish_vote_loop]. *)
Definition own_key (op : tally_op (K:=K) (V:=V) (Obj:=Obj)) t : Prop :=
  in_order op t ∧ match op with OpAddVote vk' _ _ => vk' ≠ vk | _ => True end.

Definition own_votes_on_chain t : Prop :=
  ∀ h bh, vk ∈ block_votes t h bh → chain t !! h = Some (Some bh).

Lemma own_votes_effect op t t' :
  own_key op t → chain_inv t → own_votes_on_chain t → effect op t t' →
  own_votes_on_chain t'.
Proof.
  intros [Hok Hown] Hinv Hon Heff h' bh'.
  destruct Heff as [Hc Hv|h o ph x -> Hm Hadd ->|vk' h bh Hop Hle Hno [Hv Hs]|h bh -> ->].
  - unfold block_votes. rewrite Hc, Hv. apply Hon.
  - intros Hin. cbn [chain set_chain].
    destruct (add_block_next _ _ _ _ Hinv Hm Hadd Hok) as (-> & _ & _ & Hmax).
    apply Hon in Hin as Hin'. specialize (Hmax h' ltac:(by eexists)).
    by rewrite lookup_insert_ne by lia.
  - rewrite Hv. assert (chain t' = chain t) as -> by (by rewrite Hs).
    case_bool_decide as Hb; [|apply Hon]. destruct Hb as [-> ->].
    rewrite elem_of_union, elem_of_singleton. intros [Hin|<-]; [by apply Hon|].
    by destruct Hop as [->|[_ ?]].
  - rewrite block_votes_finalize, chain_finalize. case_bool_decide; [|set_solver].
    rewrite bool_decide_eq_false_2 by lia. apply Hon.
Qed.

Lemma own_votes_reachable t : reachable own_key t → own_votes_on_chain t.
Proof.
  induction 1 as [|pt h bh _|t op t' Hr IH Hop Hex].
  - intros h bh. set_solver.
  - intros h' bh'. set_solver.
  - eapply own_votes_effect; eauto using exec_effect.
    eapply chain_inv_reachable; [|done]. by intros ?? [].
Qed.

(** A validator whose key is only used by its own
    [publish_vote_loop] is never accused of equivocation by its tally, nor does the
    vote fail in another way: a round either blocks (no new tip, a null tip, or
    votes are paused) or takes the tip of the chain, which is not the height voted
    on before, and a validator with power has then voted for exactly that block. *)
Lemma publish_vote_safe t prev_height :
  reachable own_key t →
  match publish_vote_tx vk prev_height t with
  | Done ((h, bh, has_power), t') =>
      chain t !! h = Some (Some bh) ∧ (∀ h', is_Some (chain t !! h') → h' ≤ h) ∧
      h ≠ prev_height ∧ has_power = bool_decide (powered t vk) ∧ chain t' = chain t ∧
      ∀ bh', vk ∈ block_votes t' h bh' ↔
        (if has_power then bh' = bh else vk ∈ block_votes t h bh')
  | Retry => True
  | Fail _ | Panic | OutOfFuel => False
  end.
Proof.
  intros Hr. pose proof (own_votes_reachable _ Hr) as Hon.
  unfold publish_vote_tx, latest_height, block_hash. stm_unfold.
  case_bool_decide as Hprev; [done|]. simpl.
  destruct (get_max (chain t)) as [[h x]|] eqn:Hm; simpl in *; cycle 1.
  { apply get_max_None in Hm. rewrite Hm. by rewrite lookup_empty. }
  apply get_max_Some in Hm as [Hx Hmax]. rewrite Hx. destruct x as [bh|]; [simpl|done].
  rewrite has_power_eq. cbv beta iota. case_bool_decide as Hp; [|done].
  pose proof (add_vote_cases vk h bh t) as Hc.
  destruct (add_vote vk h bh t) as [[[] t']|e| | |]; simpl in Hc.
  - destruct Hc as (_ & _ & _ & Hno & [Hv Hs]). split_and!; [done..| |].
    + by rewrite Hs.
    + intros bh'. rewrite Hv. case_bool_decide; set_solver.
  - destruct Hc as (_ & -> & [Hlt|[_ Hin]]).
    { assert (finalized t ≤ h); [|lia]. apply finalized_le. by eexists. }
    split_and!; [done..|]. intros bh'. split; [|by intros ->].
    intros Hin'%Hon. congruence.
  - destruct e as [| |k|k h' new old]; [by destruct Hc as (_ & _ & [])..| |].
    + by destruct Hc as (_ & _ & _ & Hn).
    + destruct Hc as (_ & _ & -> & -> & -> & _ & Hne & Hin). apply Hon in Hin. congruence.
  - done.
  - done.
  - done.
Qed.
End invariants.

(** ** Concrete runs

    Three validators of weight 10; the chain grows from the finalized block 5 by
    the block 6 and the null round 7; validators 1 and 2 vote for 6, the node's own
    key 3 through its publishing loop. *)

#[local] Existing Instance dev_profile.

Definition sample0 : VoteTally N N N := new [(1, 10); (2, 10); (3, 10)] (5, 50).
Definition sample_exec (op : tally_op) (t : VoteTally N N N) : VoteTally N N N :=
  default t (exec op t).
Definition sample1 := sample_exec (OpAddBlock 6 (Some 60)) sample0.
Definition sample2 := sample_exec (OpAddVote 1 6 60) sample1.
Definition sample3 := sample_exec (OpAddVote 2 6 60) sample2.
Definition sample4 := sample_exec (OpPublish 3 5) sample3.
Definition sample5 := sample_exec (OpAddBlock 7 None) sample4.
Definition sample6 := sample_exec (OpSetFinalized 6 60) sample5.

Lemma sample3_reachable (ok : tally_op → VoteTally N N N → Prop) :
  ok (OpAddBlock 6 (Some 60)) sample0 → ok (OpAddVote 1 6 60) sample1 →
  ok (OpAddVote 2 6 60) sample2 → reachable ok sample3.
Proof.
  intros. apply (reach_step _ sample2 (OpAddVote 2 6 60)); [|done|by vm_compute].
  apply (reach_step _ sample1 (OpAddVote 1 6 60)); [|done|by vm_compute].
  apply (reach_step _ sample0 (OpAddBlock 6 (Some 60))); [|done|by vm_compute].
  by apply reach_new.
Qed.

Lemma sample6_reachable (ok : tally_op → VoteTally N N N → Prop) :
  reachable ok sample3 → ok (OpPublish 3 5) sample3 → ok (OpAddBlock 7 None) sample4 →
  ok (OpSetFinalized 6 60) sample5 → reachable ok sample6.
Proof.
  intros. apply (reach_step _ sample5 (OpSetFinalized 6 60)); [|done|by vm_compute].
  apply (reach_step _ sample4 (OpAddBlock 7 None)); [|done|by vm_compute].
  by apply (reach_step _ sample3 (OpPublish 3 5)); [| |by vm_compute].
Qed.

Lemma find_quorum_spec_witness :
  (∃ r, find_quorum (E:=Empty_set) sample5 = Done (r, set_pause false sample5) ∧
    match r with
    | Some (h, bh) => has_quorum sample5 h bh ∧ ∀ h' bh', has_quorum sample5 h' bh' → h' ≤ h
    | None => ∀ h bh, ¬ has_quorum sample5 h bh
    end) ∧
  fst <$> find_quorum (E:=Empty_set) sample5 = Done (Some (6, 60)).
Proof. split; [apply (find_quorum_spec sample5); by vm_compute|by vm_compute]. Defined.

Lemma quorum_threshold_spec_witness :
  let total := total_weight (power_table sample0) in
  total < u64_size ∧
  (total * 2 < u64_size →
    ∃ q, quorum_threshold (E:=Empty_set) sample0 = Done (q, sample0) ∧
      ∀ w, q ≤ w ↔ 2 * total < 3 * w) ∧
  (u64_size ≤ total * 2 → overflow_checks = true →
    quorum_threshold (E:=Empty_set) sample0 = Panic).
Proof. split; [by vm_compute|]. apply (quorum_threshold_spec sample0). by vm_compute. Defined.

Lemma quorum_intersection_witness :
  total_weight (power_table sample0) <
    3 * set_weight (power_table sample0) ({[1; 2; 3]} ∩ {[1; 2; 3]}).
Proof. apply (quorum_intersection sample0); by vm_compute. Defined.

Lemma find_object_quorum_spec_witness :
  let t := sample_exec (OpAddObjectVote 2 7) (sample_exec (OpAddObjectVote 1 7)
             (sample_exec (OpAddObjectVote 3 7) sample0)) in
  find_object_quorum (E:=Empty_set) 7 t = Done (true, set_object_pause false t).
Proof.
  intros t. etrans; [apply (find_object_quorum_spec t 7); by vm_compute|]. by vm_compute.
Defined.

Lemma votes_inv_reachable_witness :
  block_votes sample3 6 60 = {[1; 2]} ∧ votes_inv sample3.
Proof.
  split; [by vm_compute|]. apply (votes_inv_reachable sample3). by apply sample3_reachable.
Defined.

Lemma tally_chain_contiguous_witness :
  om_iter (chain sample6) = [(6, Some 60); (7, None)] ∧ chain_inv sample6.
Proof.
  split; [by vm_compute|]. apply (tally_chain_contiguous sample6).
  apply sample6_reachable; [apply sample3_reachable|..]; by vm_compute.
Defined.

Lemma publish_vote_safe_witness :
  reachable (own_key 3) sample3 ∧
  match publish_vote_tx 3 5 sample3 with
  | Done ((h, bh, has_power), t') =>
      chain sample3 !! h = Some (Some bh) ∧
      (∀ h', is_Some (chain sample3 !! h') → h' ≤ h) ∧
      h ≠ 5 ∧ has_power = bool_decide (powered sample3 3) ∧ chain t' = chain sample3 ∧
      ∀ bh', 3 ∈ block_votes t' h bh' ↔
        (if has_power then bh' = bh else 3 ∈ block_votes sample3 h bh')
  | Retry => True
  | Fail _ | Panic | OutOfFuel => False
  end.
Proof.
  assert (reachable (own_key 3) sample3) as Hr by (by apply sample3_reachable).
  split; [done|]. exact (publish_vote_safe 3 sample3 5 Hr).
Defined.
