(* ===== verification/Finality.v ===== *)
(** * The parent finality provider

    Models [FinalityWithNull] of [fendermint/vm/topdown/src/finality/null.rs], the
    part of [finality/mod.rs] and [lib.rs] it uses, and the error type of
    [error.rs].  The provider keeps the parent blocks that were fetched but are not
    yet final, null rounds included, and decides which of them to propose to the
    other validators and which of their proposals to accept. *)

From S2P Require Import Prelude OrdMap Cache.

(** What the node uses of the data it passes through: block hashes, validator keys
    and objects can be compared and hashed, staking changes and cross-net messages
    are numbered. *)
Class ParentData := {
  BlockHash : Type;
  BlockHash_eq_dec :: EqDecision BlockHash;
  BlockHash_countable :: Countable BlockHash;
  ValidatorKey : Type;
  ValidatorKey_eq_dec :: EqDecision ValidatorKey;
  ValidatorKey_countable :: Countable ValidatorKey;
  Object : Type;
  Object_eq_dec :: EqDecision Object;
  Object_countable :: Countable Object;
  StakingChangeRequest : Type;
  configuration_number : StakingChangeRequest → N;
  IpcEnvelope : Type;
  nonce : IpcEnvelope → N
}.

Inductive Error :=
| NotSequential
| NonSequentialParentViewInsert (e : SequentialAppendError)
| ParentChainReorgDetected
| CannotQueryParent (msg : string) (height : N).

(** ** Configuration *)

Definition DEFAULT_MAX_PROPOSAL_RANGE : N := 100.
Definition DEFAULT_MAX_CACHE_BLOCK : N := 500.
Definition DEFAULT_PROPOSAL_DELAY : N := 2.

(** The two durations are in nanoseconds. *)
Record Config := MkConfig {
  chain_head_delay : N;
  polling_interval : N;
  exponential_back_off : N;
  exponential_retry_limit : N;
  cfg_max_proposal_range : option N;
  cfg_max_cache_blocks : option N;
  cfg_proposal_delay : option N
}.

Module Config.
Definition new (chain_head_delay polling_interval exponential_back_off
    exponential_retry_limit : N) : Config :=
  MkConfig chain_head_delay polling_interval exponential_back_off
    exponential_retry_limit None None None.
Definition with_max_proposal_range (n : N) (c : Config) : Config :=
  MkConfig (chain_head_delay c) (polling_interval c) (exponential_back_off c)
    (exponential_retry_limit c) (Some n) (cfg_max_cache_blocks c) (cfg_proposal_delay c).
Definition with_proposal_delay (n : N) (c : Config) : Config :=
  MkConfig (chain_head_delay c) (polling_interval c) (exponential_back_off c)
    (exponential_retry_limit c) (cfg_max_proposal_range c) (cfg_max_cache_blocks c) (Some n).
Definition with_max_cache_blocks (n : N) (c : Config) : Config :=
  MkConfig (chain_head_delay c) (polling_interval c) (exponential_back_off c)
    (exponential_retry_limit c) (cfg_max_proposal_range c) (Some n) (cfg_proposal_delay c).
Definition max_proposal_range (c : Config) : N :=
  default DEFAULT_MAX_PROPOSAL_RANGE (cfg_max_proposal_range c).
Definition proposal_delay (c : Config) : N :=
  default DEFAULT_PROPOSAL_DELAY (cfg_proposal_delay c).
Definition max_cache_blocks (c : Config) : N :=
  default DEFAULT_MAX_CACHE_BLOCK (cfg_max_cache_blocks c).
End Config.

(** ** State and operations *)

Record IPCParentFinality `{ParentData} := MkFinality { height : N; block_hash : BlockHash }.
Arguments MkFinality {_} _ _.

#[export] Instance IPCParentFinality_eq_dec `{ParentData} : EqDecision IPCParentFinality.
Proof. solve_decision. Defined.

Definition ParentViewPayload `{ParentData} : Type :=
  BlockHash * list StakingChangeRequest * list IpcEnvelope.

Record FinalityWithNull `{ParentData} := MkProvider {
  config : Config;
  genesis_epoch : N;
  cached_data : SequentialKeyCache (option ParentViewPayload);
  last_committed_finality : option IPCParentFinality
}.
Arguments MkProvider {_} _ _ _ _.

Section provider.
Context `{Profile, ParentData}.
Implicit Types (p : FinalityWithNull) (f : IPCParentFinality).
Abbreviation provider := FinalityWithNull.

(** [IPCParentFinality::new] casts a signed epoch: negative epochs wrap. *)
Definition finality_new (epoch : Z) (hash : BlockHash) : IPCParentFinality :=
  MkFinality (Z.to_N (epoch `mod` Z.of_N u64_size)) hash.

(** The loop of [ensure_sequential]. *)
Fixpoint ensure_next {A} (f : A → N) (n : N) (msgs : list A) : outcome Error unit :=
  match msgs with
  | [] => Done tt
  | msg :: msgs =>
      next ← u64_add n 1;
      if bool_decide (next ≠ f msg) then Fail NotSequential else ensure_next f next msgs
  end.

Definition ensure_sequential {A} (f : A → N) (msgs : list A) : outcome Error unit :=
  match msgs with
  | [] => Done tt
  | first :: msgs => ensure_next f (f first) msgs
  end.

Definition payload_hash (v : ParentViewPayload) : BlockHash := v.1.1.
Definition validator_changes (v : ParentViewPayload) : list StakingChangeRequest := v.1.2.
Definition topdown_cross_msgs (v : ParentViewPayload) : list IpcEnvelope := v.2.

Definition set_cache c p : provider :=
  MkProvider (config p) (genesis_epoch p) c (last_committed_finality p).
Definition set_committed o p : provider :=
  MkProvider (config p) (genesis_epoch p) (cached_data p) o.

Definition new (cfg : Config) (epoch : N) (committed : option IPCParentFinality) : provider :=
  MkProvider cfg epoch sequential committed.

Definition handle_null_block {E A} (h : N) (f : ParentViewPayload → A) (d : A)
    : stm provider E (option A) :=
  cache ← reads cached_data;
  v ← lift (get_value cache h);
  mret ((λ o : option ParentViewPayload, match o with Some i => f i | None => d end) <$> v).

Definition validator_changes_at {E} (h : N) : stm provider E (option (list StakingChangeRequest)) :=
  handle_null_block h validator_changes [].
Definition top_down_msgs_at {E} (h : N) : stm provider E (option (list IpcEnvelope)) :=
  handle_null_block h topdown_cross_msgs [].

Definition reset {E} f : stm provider E unit :=
  modify (set_cache sequential) ;;
  modify (set_committed (Some f)).

Definition parent_block_filled (h : N) (hash : BlockHash) (changes : list StakingChangeRequest)
    (msgs : list IpcEnvelope) : stm provider Error unit :=
  (if bool_decide (msgs ≠ []) then lift (ensure_sequential nonce msgs) else mret tt) ;;
  (if bool_decide (changes ≠ []) then lift (ensure_sequential configuration_number changes)
   else mret tt) ;;
  cache ← reads cached_data;
  cache' ← lift (map_err NonSequentialParentViewInsert
                  (Cache.append h (Some (hash, changes, msgs)) cache));
  modify (set_cache cache').

Definition parent_null_round (h : N) : stm provider Error unit :=
  cache ← reads cached_data;
  cache' ← lift (map_err NonSequentialParentViewInsert (Cache.append h None cache));
  modify (set_cache cache').

Definition new_parent_view (h : N) (maybe_payload : option ParentViewPayload)
    : stm provider Error unit :=
  match maybe_payload with
  | Some (hash, changes, msgs) => parent_block_filled h hash changes msgs
  | None => parent_null_round h
  end.

Definition cached_blocks {E} : stm provider E N :=
  cache ← reads cached_data;
  mret (size cache).

Definition get_at_height {E A} (h : N) (f : ParentViewPayload → A) : stm provider E (option A) :=
  cache ← reads cached_data;
  v ← lift (get_value cache h);
  mret (match v with Some (Some i) => Some (f i) | _ => None end).

Definition block_hash_at_height {E} (h : N) : stm provider E (option BlockHash) :=
  committed ← reads last_committed_finality;
  match committed with
  | Some f =>
      if bool_decide (height f = h) then mret (Some (block_hash f))
      else get_at_height h payload_hash
  | None => get_at_height h payload_hash
  end.

Definition latest_height_in_cache {E} : stm provider E (option N) :=
  cache ← reads cached_data;
  mret (upper_bound cache).

Definition latest_height {E} : stm provider E (option N) :=
  in_cache ← latest_height_in_cache;
  match in_cache with
  | Some h => mret (Some h)
  | None =>
      committed ← reads last_committed_finality;
      mret (height <$> committed)
  end.

(** The loop of [first_non_null_block] over the heights it visits. *)
Fixpoint find_non_null {E} (cache : SequentialKeyCache (option ParentViewPayload))
    (hs : list N) : outcome E (option N) :=
  match hs with
  | [] => Done None
  | h :: hs =>
      v ← get_value cache h;
      match v with
      | Some (Some _) => Done (Some h)
      | _ => find_non_null cache hs
      end
  end.

Definition first_non_null_block {E} (h : N) : stm provider E (option N) :=
  cache ← reads cached_data;
  match lower_bound cache with
  | None => mret None
  | Some lower => lift (find_non_null cache (reverse (range_incl lower h)))
  end.

Definition propose_next_height {E} : stm provider E (option N) :=
  latest ← latest_height_in_cache;
  match latest with
  | None => mret None
  | Some latest_height =>
      committed ← reads last_committed_finality;
      last_committed_height ← lift (height <$> unwrap committed);
      cfg ← reads config;
      max_proposal_height ← lift (u64_add last_committed_height (Config.max_proposal_range cfg));
      let candidate_height := N.min max_proposal_height latest_height in
      first ← first_non_null_block candidate_height;
      match first with
      | None => mret None
      | Some first_non_null_height =>
          delayed ← lift (u64_sub first_non_null_height (Config.proposal_delay cfg));
          maybe_proposal_height ← first_non_null_block delayed;
          match maybe_proposal_height with
          | Some proposal_height =>
              if bool_decide (last_committed_height = proposal_height) then mret None
              else mret (Some proposal_height)
          | None => mret None
          end
      end
  end.

Definition next_proposal {E} : stm provider E (option IPCParentFinality) :=
  next ← propose_next_height;
  match next with
  | None => mret None
  | Some h =>
      hash ← block_hash_at_height h;
      hash ← lift (unwrap hash);
      mret (Some (MkFinality h hash))
  end.

Definition check_height {E} (proposal : IPCParentFinality) : stm provider E bool :=
  committed ← reads last_committed_finality;
  match committed with
  | None => mret false
  | Some f =>
      if bool_decide (height proposal ≤ height f) then mret false
      else
        latest ← latest_height_in_cache;
        match latest with
        | Some latest_height => mret (bool_decide (height proposal ≤ latest_height))
        | None => mret false
        end
  end.

Definition check_block_hash {E} (proposal : IPCParentFinality) : stm provider E bool :=
  hash ← block_hash_at_height (height proposal);
  match hash with
  | Some hash => mret (bool_decide (hash = block_hash proposal))
  | None => mret false
  end.

Definition check_proposal {E} (proposal : IPCParentFinality) : stm provider E bool :=
  ok ← check_height proposal;
  if negb ok then mret false else check_block_hash proposal.

Definition set_new_finality {E} f (previous : option IPCParentFinality) : stm provider E unit :=
  committed ← reads last_committed_finality;
  (if debug_assertions && negb (bool_decide (previous = committed)) then lift Panic
   else mret tt) ;;
  modify (λ p, set_cache (remove_key_below (height f) (cached_data p)) p) ;;
  modify (set_committed (Some f)).
End provider.

(** ** Views and the invariant *)

Section views.
Context `{ParentData}.
Implicit Types (p : FinalityWithNull) (f : IPCParentFinality).

(** The parent blocks the provider holds; [Some None] is a null round. *)
Definition blocks p : gmap N (option ParentViewPayload) := abs (cached_data p).

Definition non_null p (h : N) : Prop := ∃ v, blocks p !! h = Some (Some v).

(** The highest non-null block up to a height. *)
Definition highest p (b h : N) : Prop :=
  non_null p h ∧ h ≤ b ∧ ∀ h', non_null p h' → h' ≤ b → h' ≤ h.

(** The cache is a run of heights that continues the last committed finality:
    its lowest block is the committed one or the next one. *)
Record provider_inv p : Prop := {
  inv_cache : seq_cache (cached_data p);
  inv_bottom lo : lower_bound (cached_data p) = Some lo →
    ∃ f, last_committed_finality p = Some f ∧ height f ≤ lo ≤ height f + 1
}.

(** Consecutive numbers, each in 64 bits. *)
Definition sequential_by {A} (g : A → N) (l : list A) : Prop :=
  ∀ i x y, l !! i = Some x → l !! S i = Some y → g y = g x + 1.

Definition payload_sequential (v : option ParentViewPayload) : Prop :=
  match v with
  | Some v => sequential_by nonce (topdown_cross_msgs v) ∧
              sequential_by configuration_number (validator_changes v)
  | None => True
  end.

(** The numbers of a payload have 64-bit successors. *)
Definition payload_fits (v : option ParentViewPayload) : Prop :=
  match v with
  | Some v => (∀ m, m ∈ topdown_cross_msgs v → nonce m + 1 < u64_size) ∧
              (∀ c, c ∈ validator_changes v → configuration_number c + 1 < u64_size)
  | None => True
  end.
End views.

Lemma upper_bound_is_Some {V} (c : SequentialKeyCache V) :
  data c ≠ [] → is_Some (upper_bound c).
Proof. intros (lo & up & _ & ->)%bounds_nonempty. by eexists. Qed.

(** ** Sequences *)

Section sequences.
Context `{Profile} {A : Type} (g : A → N).

Lemma sequential_by_cons x y l :
  sequential_by g (x :: y :: l) ↔ g y = g x + 1 ∧ sequential_by g (y :: l).
Proof.
  split.
  - intros Hs. split; [by apply (Hs 0%nat)|]. intros i. apply (Hs (S i)).
  - intros [Hxy Hs] [|i] x' y'; simpl; [naive_solver|]. apply Hs.
Qed.

Lemma ensure_next_spec x l :
  (∀ y, y ∈ x :: l → g y + 1 < u64_size) →
  match ensure_next g (g x) l with
  | Done tt => sequential_by g (x :: l)
  | Fail e => e = NotSequential ∧ ¬ sequential_by g (x :: l)
  | _ => False
  end.
Proof.
  revert x. induction l as [|y l IH]; intros x Hfit; simpl; [by intros [] ??|].
  rewrite u64_add_ok by (apply Hfit; set_solver). simpl.
  case_bool_decide as Hne.
  - split; [done|]. rewrite sequential_by_cons. intros [? _]. lia.
  - rewrite Hne.
    specialize (IH y ltac:(set_solver)). destruct (ensure_next g (g y) l) as [[]|e| | |]; try done.
    + by rewrite sequential_by_cons.
    + rewrite sequential_by_cons. naive_solver.
Qed.

(** [ensure_sequential] accepts exactly the lists numbered consecutively. *)
Lemma ensure_sequential_spec l :
  (∀ y, y ∈ l → g y + 1 < u64_size) →
  match ensure_sequential g l with
  | Done tt => sequential_by g l
  | Fail e => e = NotSequential ∧ ¬ sequential_by g l
  | _ => False
  end.
Proof. destruct l as [|x l]; [by intros _ ?|]. apply ensure_next_spec. Qed.
End sequences.

(** ** Searching for non-null blocks *)

Section search.
Context `{Profile, ParentData} {E : Type}.
Implicit Types (p : FinalityWithNull) (f : IPCParentFinality).

Lemma get_value_blocks p h :
  seq_cache (cached_data p) → get_value (E:=E) (cached_data p) h = Done (blocks p !! h).
Proof. intros [Hwf Hi _]. by apply get_value_sequential. Qed.

Lemma find_non_null_range p a n :
  seq_cache (cached_data p) →
  ∃ r, find_non_null (E:=E) (cached_data p) (reverse (range_up a n)) = Done r ∧
    match r with
    | Some h => non_null p h ∧ h < a + N.of_nat n ∧
        ∀ h', non_null p h' → h' < a + N.of_nat n → h' ≤ h
    | None => ∀ h', non_null p h' → ¬ (a ≤ h' < a + N.of_nat n)
    end.
Proof.
  intros Hseq. induction n as [|n IH].
  { exists None. split; [done|]. intros h' _. lia. }
  rewrite range_up_snoc, reverse_app. simpl.
  rewrite get_value_blocks by done. simpl.
  set (h := a + N.of_nat n) in *.
  destruct (blocks p !! h) as [[v|]|] eqn:Hv.
  { exists (Some h). split; [done|]. split_and!; [by eexists|lia|]. intros. lia. }
  all: destruct IH as (r & -> & Hr); exists r; split; [done|].
  all: assert (¬ non_null p h) by (intros [? ?]; congruence).
  all: assert (∀ h', non_null p h' → h' ≠ h) as Hne by congruence.
  all: destruct r as [h0|];
    [destruct Hr as (? & ? & Hmax); split_and!; [done|lia|]|];
    intros h' Hh'; specialize (Hne h' Hh').
  1, 3: intros; apply Hmax; [done|lia].
  all: specialize (Hr h' Hh'); lia.
Qed.

Lemma non_null_bounds p h :
  seq_cache (cached_data p) → non_null p h →
  ∃ lo up, lower_bound (cached_data p) = Some lo ∧ upper_bound (cached_data p) = Some up ∧
    lo ≤ h ≤ up.
Proof.
  intros [Hwf _ _] [v Hv]. destruct (decide (data (cached_data p) = [])) as [Hnil|Hne].
  { unfold blocks, abs in Hv. by rewrite Hnil in Hv. }
  destruct (bounds_nonempty _ Hne) as (lo & up & Hlo & Hup).
  exists lo, up. split_and!; [done..| |];
    apply (abs_bounds _ _ _ h Hwf Hlo Hup); by eexists.
Qed.

(** [first_non_null_block h] is the highest non-null block up to [h]. *)
Lemma first_non_null_block_spec p b :
  seq_cache (cached_data p) →
  ∃ r, first_non_null_block (E:=E) b p = Done (r, p) ∧
    match r with
    | Some h => highest p b h
    | None => ∀ h, ¬ highest p b h
    end.
Proof.
  intros Hseq. unfold first_non_null_block. stm_unfold.
  destruct (lower_bound (cached_data p)) as [lo|] eqn:Hlo; cycle 1.
  { exists None. split; [done|]. intros h [Hn _].
    destruct (non_null_bounds _ _ Hseq Hn) as (? & ? & ? & _). congruence. }
  destruct (find_non_null_range p lo (N.to_nat (N.succ b - lo)) Hseq) as (r & Hf & Hr).
  unfold range_incl. rewrite Hf. exists r. split; [done|].
  assert (∀ h, non_null p h → h ≤ b → lo ≤ h < lo + N.of_nat (N.to_nat (N.succ b - lo))) as Hb.
  { intros h Hn Hle. destruct (non_null_bounds _ _ Hseq Hn) as (lo' & ? & ? & _ & ?).
    assert (lo' = lo) as -> by congruence. lia. }
  destruct r as [h|].
  - destruct Hr as (Hn & Hlt & Hmax).
    destruct (non_null_bounds _ _ Hseq Hn) as (lo' & ? & ? & _ & ?).
    assert (lo' = lo) as -> by congruence.
    split_and!; [done|lia|]. intros h' Hn' Hle. apply Hmax; [done|]. by apply Hb.
  - intros h (Hn & Hle & _). apply (Hr h Hn). by apply Hb.
Qed.

Lemma highest_exists p b h :
  seq_cache (cached_data p) → non_null p h → h ≤ b → ∃ h', highest p b h'.
Proof.
  intros Hseq Hn Hle.
  destruct (find_non_null_range p 0 (N.to_nat (b + 1)) Hseq) as ([h'|] & _ & Hr).
  - destruct Hr as (Hn' & Hlt & Hmax). exists h'. split_and!; [done|lia|].
    intros k Hk Hkb. apply Hmax; [done|lia].
  - destruct (Hr h Hn). lia.
Qed.

Lemma highest_unique p b h h' : highest p b h → highest p b h' → h = h'.
Proof.
  intros (Hn & Hle & Hmax) (Hn' & Hle' & Hmax').
  specialize (Hmax _ Hn' Hle'). specialize (Hmax' _ Hn Hle). lia.
Qed.

Lemma first_non_null_block_Some p b h :
  seq_cache (cached_data p) → highest p b h →
  first_non_null_block (E:=E) b p = Done (Some h, p).
Proof.
  intros Hseq Hh. destruct (first_non_null_block_spec p b Hseq) as ([h'|] & -> & Hr).
  - by rewrite (highest_unique _ _ _ _ Hh Hr).
  - by apply Hr in Hh.
Qed.

(** No block is above the tip of the cache. *)
Lemma highest_min p b up h :
  seq_cache (cached_data p) → upper_bound (cached_data p) = Some up →
  highest p (N.min b up) h ↔ highest p b h.
Proof.
  intros Hseq Hup.
  assert (∀ h, non_null p h → h ≤ up) as Hle.
  { intros h' Hn. destruct (non_null_bounds _ _ Hseq Hn) as (? & up' & _ & ? & ?).
    assert (up' = up) as -> by congruence. lia. }
  split; intros (Hn & Hb & Hmax); pose proof (Hle _ Hn); (split_and!; [done|lia|]);
    intros h' Hn' Hb'; pose proof (Hle _ Hn'); (apply Hmax; [done|lia]).
Qed.
End search.

(** ** Proposals *)

Section proposals.
Context `{Profile, ParentData} {E : Type}.
Implicit Types (p : FinalityWithNull) (f prop : IPCParentFinality).

Abbreviation range p := (Config.max_proposal_range (config p)).
Abbreviation delay p := (Config.proposal_delay (config p)).

(** The height that is due: the highest non-null block in the proposal range,
    moved back by the delay to a non-null block. *)
Definition due p f (top h : N) : Prop :=
  highest p (height f + range p) top ∧ highest p (top - delay p) h.

Lemma block_hash_at_height_eq p h :
  seq_cache (cached_data p) →
  block_hash_at_height (E:=E) h p =
  Done (match last_committed_finality p with
        | Some f => if bool_decide (height f = h) then Some (block_hash f)
                    else payload_hash <$> mjoin (blocks p !! h)
        | None => payload_hash <$> mjoin (blocks p !! h)
        end, p).
Proof.
  intros Hseq. assert (get_at_height (E:=E) h payload_hash p =
    Done (payload_hash <$> mjoin (blocks p !! h), p)) as Hget.
  { unfold get_at_height. stm_unfold. rewrite get_value_blocks by done. simpl.
    by destruct (blocks p !! h) as [[]|]. }
  unfold block_hash_at_height. stm_unfold.
  destruct (last_committed_finality p) as [f|]; [|done]. by case_bool_decide.
Qed.

(** The part of the computation before the delay. *)
Lemma propose_next_height_top p f :
  provider_inv p → last_committed_finality p = Some f → height f + range p < u64_size →
  (propose_next_height (E:=E) p = Done (None, p) ∧
    ∀ top, ¬ highest p (height f + range p) top) ∨
  ∃ top, highest p (height f + range p) top ∧
    propose_next_height (E:=E) p =
      (delayed ← lift (u64_sub top (delay p));
       maybe ← first_non_null_block delayed;
       match maybe with
       | Some h => if bool_decide (height f = h) then mret None else mret (Some h)
       | None => mret None
       end) p.
Proof.
  intros [Hseq _] Hf Hfit. unfold propose_next_height, latest_height_in_cache. stm_unfold.
  destruct (upper_bound (cached_data p)) as [up|] eqn:Hup; cycle 1.
  { left. split; [done|]. intros top [Hn _].
    destruct (non_null_bounds _ _ Hseq Hn) as (? & ? & _ & ? & _). congruence. }
  rewrite Hf. simpl. rewrite u64_add_ok by done. cbv beta iota. simpl.
  destruct (first_non_null_block_spec (E:=E) p (N.min (height f + range p) up) Hseq)
    as ([top|] & Hfirst & Htop); rewrite Hfirst; cbv beta iota.
  - right. exists top. split; [by apply (highest_min _ _ up)|done].
  - left. split; [done|]. intros top. rewrite <-(highest_min _ _ up) by done. apply Htop.
Qed.

Lemma next_proposal_due p f :
  provider_inv p → last_committed_finality p = Some f → height f + range p < u64_size →
  (∀ h, non_null p h → delay p ≤ h) →
  ∃ r, next_proposal (E:=E) p = Done (r, p) ∧
    match r with
    | Some prop =>
        height f < height prop ≤ height f + range p ∧
        (∃ top, due p f top (height prop)) ∧
        ∃ v, blocks p !! height prop = Some (Some v) ∧ payload_hash v = block_hash prop
    | None => ∀ top h, due p f top h → h = height f
    end.
Proof.
  intros Hinv Hf Hfit Hdelay. pose proof (inv_cache _ Hinv) as Hseq.
  unfold next_proposal, mbind, stm_bind.
  destruct (propose_next_height_top p f Hinv Hf Hfit) as [[-> Hno]|(top & Htop & ->)].
  { exists None. split; [done|]. intros top h [Htop _]. by apply Hno in Htop. }
  assert (delay p ≤ top) by (by apply Hdelay, Htop).
  destruct (non_null_bounds p top Hseq) as (lo & up & Hlo & Hup & Hb); [by apply Htop|].
  pose proof (upper_bound_u64 _ _ (seq_wf _ Hseq) Hup).
  stm_unfold. rewrite u64_sub_ok by lia. cbv beta iota. simpl.
  destruct (first_non_null_block_spec (E:=E) p (top - delay p) Hseq)
    as ([h|] & -> & Hh); cbv beta iota; cycle 1.
  { exists None. split; [done|]. intros top' h [Htop' Hh'].
    rewrite (highest_unique _ _ _ _ Htop' Htop) in Hh'. by apply Hh in Hh'. }
  case_bool_decide as Heq.
  { exists None. split; [done|]. intros top' h' [Htop' Hh'].
    rewrite (highest_unique _ _ _ _ Htop' Htop) in Hh'.
    by rewrite (highest_unique _ _ _ _ Hh' Hh). }
  destruct (Hh) as ([v Hv] & Hle & _). rewrite block_hash_at_height_eq by done. rewrite Hf.
  cbv beta iota. rewrite bool_decide_eq_false_2, Hv by done. cbv beta iota. simpl.
  eexists. split; [done|]. simpl. split_and!; [| |by exists top|by exists v].
  - destruct (non_null_bounds p h Hseq) as (lo' & ? & Hlo' & _ & ?); [by eexists|].
    destruct (inv_bottom _ Hinv _ Hlo') as (f' & Hf' & ?).
    assert (f' = f) as -> by congruence. lia.
  - destruct Htop as (_ & ? & _). lia.
Qed.

(** On a provider whose cache continues the committed finality,
    and whose blocks are not lower than the delay, [next_proposal] terminates
    without a panic and without changing the provider.  It proposes the block that
    is due: let [top] be the highest non-null block in the proposal range, then the
    proposal is the highest non-null block at or below [top] minus the delay, with
    its hash, and it lies above the committed height and in the range.  It is
    silent only when no block is due or the block due is already committed. *)
Lemma next_proposal_spec p f :
  provider_inv p → last_committed_finality p = Some f → height f + range p < u64_size →
  (∀ h, non_null p h → delay p ≤ h) →
  ∃ r, next_proposal (E:=E) p = Done (r, p) ∧
    match r with
    | Some prop =>
        height f < height prop ≤ height f + range p ∧
        (∃ top, due p f top (height prop)) ∧
        ∃ v, blocks p !! height prop = Some (Some v) ∧ payload_hash v = block_hash prop
    | None => ∀ top h, due p f top h → h = height f
    end.
Proof. apply next_proposal_due. Qed.

(** When the highest non-null block in the range is lower
    than the delay, the subtraction of the delay underflows.  With overflow checks
    [next_proposal] panics; without, it forgets the delay and the range and
    proposes the highest non-null block of the whole cache. *)
Lemma next_proposal_underflow p f top :
  provider_inv p → last_committed_finality p = Some f → height f + range p < u64_size →
  delay p < u64_size → highest p (height f + range p) top → top < delay p →
  (overflow_checks = true → next_proposal (E:=E) p = Panic) ∧
  (overflow_checks = false → ∀ h v,
    highest p (u64_size - (delay p - top)) h → h ≠ height f → blocks p !! h = Some (Some v) →
    next_proposal (E:=E) p = Done (Some (MkFinality h (payload_hash v)), p)).
Proof.
  intros Hinv Hf Hfit Hd Htop Hlt. pose proof (inv_cache _ Hinv) as Hseq.
  unfold next_proposal, mbind, stm_bind.
  destruct (propose_next_height_top p f Hinv Hf Hfit) as [[_ Hno]|(top' & Htop' & ->)].
  { by apply Hno in Htop. }
  rewrite (highest_unique _ _ _ _ Htop' Htop). stm_unfold. unfold u64_sub, u64_wrap.
  rewrite bool_decide_eq_false_2 by lia. split; intros ->; [done|].
  intros h v Hh Hne Hv. simpl.
  assert (Z.to_N ((Z.of_N top - Z.of_N (delay p)) `mod` 18446744073709551616) =
    u64_size - (delay p - top)) as ->.
  { rewrite <-(Z_mod_plus_full _ 1), Z.mod_small by lia. lia. }
  rewrite (first_non_null_block_Some _ _ h) by done. cbv beta iota.
  rewrite bool_decide_eq_false_2 by done. rewrite block_hash_at_height_eq by done.
  rewrite Hf. cbv beta iota. by rewrite bool_decide_eq_false_2, Hv by done.
Qed.

Lemma check_proposal_eq p prop :
  seq_cache (cached_data p) →
  ∃ b, check_proposal (E:=E) prop p = Done (b, p) ∧
    (b = true ↔ (∃ f, last_committed_finality p = Some f ∧ height f < height prop) ∧
      ∃ v, blocks p !! height prop = Some (Some v) ∧ payload_hash v = block_hash prop).
Proof.
  intros Hseq. unfold check_proposal, check_height, check_block_hash, latest_height_in_cache.
  stm_unfold. destruct (last_committed_finality p) as [f|] eqn:Hf; simpl;
    [|exists false; split; [done|]; naive_solver].
  case_bool_decide as Hle; simpl.
  { exists false. split; [done|]. split; [done|]. intros [(f' & [= <-] & ?) _]. lia. }
  destruct (upper_bound (cached_data p)) as [up|] eqn:Hup; cycle 1; simpl.
  { exists false. split; [done|]. split; [done|]. intros [_ (v & Hv & _)].
    destruct (non_null_bounds p (height prop) Hseq) as (? & ? & _ & ? & _);
      [by eexists|congruence]. }
  case_bool_decide as Hup'; simpl; cycle 1.
  { exists false. split; [done|]. split; [done|]. intros [_ (v & Hv & _)].
    destruct (non_null_bounds p (height prop) Hseq) as (? & up' & _ & ? & ?); [by eexists|].
    assert (up' = up) as -> by congruence. lia. }
  rewrite block_hash_at_height_eq, Hf by done. rewrite bool_decide_eq_false_2 by lia.
  destruct (blocks p !! height prop) as [[v|]|]; simpl;
    (eexists; split; [done|]); [|naive_solver..].
  rewrite bool_decide_eq_true. split; [|naive_solver].
  intros. split; [|by eauto]. exists f. split; [done|lia].
Qed.

(** [check_proposal] does not change the provider and accepts
    exactly the proposals above the committed height whose hash is that of a
    non-null block the node has itself fetched at that height. *)
Lemma check_proposal_spec p prop :
  seq_cache (cached_data p) →
  ∃ b, check_proposal (E:=E) prop p = Done (b, p) ∧
    (b = true ↔ (∃ f, last_committed_finality p = Some f ∧ height f < height prop) ∧
      ∃ v, blocks p !! height prop = Some (Some v) ∧ payload_hash v = block_hash prop).
Proof. apply check_proposal_eq. Qed.

(** A proposal is accepted by every provider, the proposer's own
    included, that has not committed that height yet and has fetched the same
    block for it. *)
Lemma proposal_accepted p f prop p' f' :
  provider_inv p → last_committed_finality p = Some f → height f + range p < u64_size →
  (∀ h, non_null p h → delay p ≤ h) →
  next_proposal (E:=E) p = Done (Some prop, p) →
  seq_cache (cached_data p') → last_committed_finality p' = Some f' →
  height f' < height prop → blocks p' !! height prop = blocks p !! height prop →
  check_proposal (E:=E) prop p' = Done (true, p').
Proof.
  intros Hinv Hf Hfit Hdelay Hnext Hseq Hf' Hlt Hsame.
  destruct (next_proposal_due p f Hinv Hf Hfit Hdelay) as (r & Hr & Hprop).
  rewrite Hnext in Hr. injection Hr as <-. destruct Hprop as (_ & _ & v & Hv & Hhash).
  destruct (check_proposal_eq p' prop Hseq) as (b & -> & Hb).
  rewrite (proj2 Hb); [done|]. rewrite Hsame. split; [by exists f'|by exists v].
Qed.
End proposals.

(** ** Updates *)

Section updates.
Context `{Profile, ParentData}.
Implicit Types (p : FinalityWithNull) (f : IPCParentFinality).

Lemma append_sequential c h (v : option ParentViewPayload) :
  seq_cache c → h + 1 < u64_size →
  match Cache.append h v c with
  | Done c' => (upper_bound c = None ∨ upper_bound c = Some (h - 1) ∧ 0 < h) ∧
      seq_cache c' ∧ upper_bound c' = Some h ∧
      lower_bound c' = Some (default h (lower_bound c)) ∧ abs c' = <[h := v]> (abs c)
  | Fail e => ∃ lo up, lower_bound c = Some lo ∧ upper_bound c = Some up ∧
      match e with
      | AboveBound => up + 1 < h
      | BelowBound => h < lo
      | AlreadyInserted => lo ≤ h ≤ up
      end
  | _ => False
  end.
Proof.
  intros Hseq Hh. destruct (Hseq) as [Hwf Hi Hfit].
  assert (∀ up, upper_bound c = Some up → up + increment c < u64_size) as Hup.
  { intros up [v' Hin]%upper_bound_elem. rewrite Hi. by eapply Hfit. }
  pose proof (append_spec c h v Hwf ltac:(lia) Hup) as Ha. rewrite Hi in Ha.
  destruct (Cache.append h v c) as [c'|e| | |] eqn:Happ; try done.
  - destruct Ha as (Hor & Hwf' & Hi' & Hup' & Hnone & Habs).
    apply append_push in Happ as Hc'. split_and!; [| |done| |done].
    + destruct Hor as [->%upper_bound_None|(up & -> & ->)]; [by left|right].
      split; [f_equal; lia|lia].
    + split; [done|congruence|]. intros k w Hin. rewrite Hc' in Hin. simpl in Hin.
      apply elem_of_app in Hin as [Hin|Hin%list_elem_of_singleton]; [by eapply Hfit|].
      by injection Hin as -> ->.
    + rewrite Hc', lower_bound_push. by destruct (lower_bound c).
  - destruct Ha as (lo & up & ? & ? & He). exists lo, up. split_and!; [done..|].
    destruct e; lia.
Qed.

(** What [new_parent_view] promises of each way it can end. *)
Definition new_parent_view_post (h : N) (v : option ParentViewPayload) p
    (r : outcome Error (unit * FinalityWithNull)) : Prop :=
  match r with
  | Done (_, p') => payload_sequential v ∧
      (upper_bound (cached_data p) = None ∨ upper_bound (cached_data p) = Some (h - 1) ∧ 0 < h) ∧
      seq_cache (cached_data p') ∧ upper_bound (cached_data p') = Some h ∧
      lower_bound (cached_data p') = Some (default h (lower_bound (cached_data p))) ∧
      blocks p' = <[h := v]> (blocks p) ∧ p' = set_cache (cached_data p') p
  | Fail NotSequential => ¬ payload_sequential v
  | Fail (NonSequentialParentViewInsert e) => payload_sequential v ∧
      ∃ lo up, lower_bound (cached_data p) = Some lo ∧ upper_bound (cached_data p) = Some up ∧
      match e with
      | AboveBound => up + 1 < h
      | BelowBound => h < lo
      | AlreadyInserted => lo ≤ h ≤ up
      end
  | _ => False
  end.

Lemma append_view_post h v p :
  seq_cache (cached_data p) → h + 1 < u64_size → payload_sequential v →
  new_parent_view_post h v p
    ((cache' ← lift (map_err NonSequentialParentViewInsert (Cache.append h v (cached_data p)));
      modify (set_cache cache')) p).
Proof.
  intros Hseq Hh Hv. pose proof (append_sequential (cached_data p) h v Hseq Hh) as Ha.
  stm_unfold. destruct (Cache.append h v (cached_data p)) as [c'|e| | |]; simpl; try done.
  naive_solver.
Qed.

Lemma new_parent_view_ends h v p :
  seq_cache (cached_data p) → h + 1 < u64_size → payload_fits v →
  new_parent_view_post h v p (new_parent_view h v p).
Proof.
  intros Hseq Hh Hfit. destruct v as [[[hash changes] msgs]|]; [|by apply append_view_post].
  destruct Hfit as [Hm Hc]. cbn [topdown_cross_msgs validator_changes fst snd] in Hm, Hc.
  pose proof (ensure_sequential_spec nonce msgs Hm) as Hms.
  pose proof (ensure_sequential_spec configuration_number changes Hc) as Hcs.
  assert (∀ {A} (g : A → N) l s, (if bool_decide (l ≠ []) then lift (ensure_sequential g l)
    else mret tt : stm FinalityWithNull Error unit) s = lift (ensure_sequential g l) s) as Hif.
  { intros A g [|x l] s; [done|]. by rewrite bool_decide_eq_true_2. }
  unfold new_parent_view, parent_block_filled, mbind, stm_bind. rewrite !Hif. unfold lift at 1.
  destruct (ensure_sequential nonce msgs) as [[]|e| | |]; simpl; [|naive_solver|done..].
  rewrite Hif. unfold lift at 1.
  destruct (ensure_sequential configuration_number changes) as [[]|e| | |]; simpl;
    [|naive_solver|done..].
  by apply append_view_post.
Qed.

(** A fetched block, or a null round, enters the cache exactly
    when its messages and staking changes are numbered consecutively and its height
    follows the tip of the cache; the cache then has one more block and is still an
    unbroken run.  Otherwise the error names the reason, and nothing changes. *)
Lemma new_parent_view_spec h v p :
  seq_cache (cached_data p) → h + 1 < u64_size → payload_fits v →
  new_parent_view_post h v p (new_parent_view h v p).
Proof. apply new_parent_view_ends. Qed.

Lemma seq_cache_remove_below {V} h (c : SequentialKeyCache V) :
  seq_cache c → seq_cache (remove_key_below h c).
Proof.
  intros [Hwf Hi Hfit]. split; [by apply remove_key_below_wf|done|].
  intros k v [Hin _]%remove_key_below_elem; eauto.
Qed.

Lemma set_new_finality_eq {E} f prev p :
  debug_assertions = false ∨ prev = last_committed_finality p →
  set_new_finality (E:=E) f prev p =
    Done (tt, set_committed (Some f) (set_cache (remove_key_below (height f) (cached_data p)) p)).
Proof.
  intros Hd. unfold set_new_finality. stm_unfold.
  destruct Hd as [->| ->]; [done|]. by rewrite bool_decide_eq_true_2, andb_false_r.
Qed.

(** Committing a finality records it and forgets exactly the
    blocks below its height; the committed block itself stays, because its
    messages are executed later.  A caller with an outdated idea of the previous
    finality panics in a build with debug assertions. *)
Lemma set_new_finality_spec {E} f prev p :
  seq_cache (cached_data p) →
  (debug_assertions = false ∨ prev = last_committed_finality p →
    ∃ p', set_new_finality (E:=E) f prev p = Done (tt, p') ∧
      last_committed_finality p' = Some f ∧ config p' = config p ∧
      seq_cache (cached_data p') ∧ blocks p' = filter (λ b, height f ≤ b.1) (blocks p)) ∧
  (debug_assertions = true → prev ≠ last_committed_finality p →
    set_new_finality (E:=E) f prev p = Panic).
Proof.
  intros Hseq. split.
  - intros Hd. rewrite set_new_finality_eq by done. eexists. split; [done|].
    split_and!; [done|done|by apply seq_cache_remove_below|].
    by apply remove_key_spec, seq_wf.
  - intros Hd Hne. unfold set_new_finality. stm_unfold. rewrite Hd.
    by rewrite bool_decide_eq_false_2.
Qed.
End updates.

(** ** The invariant over runs *)

Section runs.
Context `{Profile, ParentData}.
Implicit Types (p : FinalityWithNull) (f : IPCParentFinality).

Inductive provider_op :=
| PView (h : N) (v : option ParentViewPayload)
| PFinality (f : IPCParentFinality) (prev : option IPCParentFinality)
| PReset (f : IPCParentFinality).

Definition provider_exec (op : provider_op) : stm FinalityWithNull Error unit :=
  match op with
  | PView h v => new_parent_view h v
  | PFinality f prev => set_new_finality f prev
  | PReset f => reset f
  end.

Definition tip p : option N :=
  match upper_bound (cached_data p) with
  | Some h => Some h
  | None => height <$> last_committed_finality p
  end.

(** How the node drives the provider: it fetches the block after the latest height
    it knows, and finality does not go back. *)
Definition provider_ok (op : provider_op) p : Prop :=
  match op with
  | PView h v => (∃ l, tip p = Some l ∧ h = l + 1) ∧ h + 1 < u64_size ∧ payload_fits v
  | PFinality f prev => (∀ f0, last_committed_finality p = Some f0 → height f0 ≤ height f)
  | PReset f => True
  end.

Inductive provider_reachable : FinalityWithNull → Prop :=
| provider_init cfg epoch committed : provider_reachable (new cfg epoch committed)
| provider_step p op p' : provider_reachable p → provider_ok op p →
    provider_exec op p = Done (tt, p') → provider_reachable p'.

Lemma latest_height_eq {E} p : latest_height (E:=E) p = Done (tip p, p).
Proof. unfold latest_height, latest_height_in_cache, tip. stm_unfold. by case_match. Qed.

Lemma provider_inv_empty p : data (cached_data p) = [] → increment (cached_data p) = 1 →
  provider_inv p.
Proof.
  intros Hd Hi. destruct p as [cfg ge [i d] com]. simpl in *. subst.
  split; [apply sequential_seq_cache|done].
Qed.

Lemma provider_inv_view h v p p' :
  provider_inv p → provider_ok (PView h v) p → new_parent_view h v p = Done (tt, p') →
  provider_inv p'.
Proof.
  intros Hinv ((l & Hl & ->) & Hfit & Hv) Hex.
  pose proof (new_parent_view_ends (l + 1) v p (inv_cache _ Hinv) Hfit Hv) as Hpost.
  rewrite Hex in Hpost. destruct Hpost as (_ & Hup & Hseq & _ & Hlo & _ & Hp').
  split; [done|]. intros lo. rewrite Hlo. intros [= <-].
  assert (last_committed_finality p' = last_committed_finality p) as -> by (by rewrite Hp').
  destruct (lower_bound (cached_data p)) as [lo|] eqn:Hlo0; [by apply (inv_bottom _ Hinv)|].
  apply lower_bound_None, upper_bound_None in Hlo0. unfold tip in Hl. rewrite Hlo0 in Hl.
  apply fmap_Some in Hl as (f & -> & ->). exists f. simpl. split; [done|lia].
Qed.

Lemma provider_inv_finality f p :
  provider_inv p → (∀ f0, last_committed_finality p = Some f0 → height f0 ≤ height f) →
  provider_inv (set_committed (Some f) (set_cache (remove_key_below (height f) (cached_data p)) p)).
Proof.
  intros [Hseq Hb] Hmono. split; [by apply seq_cache_remove_below|].
  intros lo Hlo. exists f. split; [done|].
  apply lower_bound_remove_below in Hlo as (lo0 & Hlo0 & ->); [|apply Hseq..].
  destruct (Hb _ Hlo0) as (f0 & Hf0%Hmono & ?). lia.
Qed.

Lemma provider_inv_exec op p p' :
  provider_inv p → provider_ok op p → provider_exec op p = Done (tt, p') → provider_inv p'.
Proof.
  intros Hinv Hok. destruct op as [h v|f prev|f]; simpl.
  - by eapply provider_inv_view.
  - intros Hex. assert (debug_assertions = false ∨ prev = last_committed_finality p) as Hd.
    { destruct (decide (prev = last_committed_finality p)); [by right|left].
      destruct debug_assertions eqn:Hda; [|done]. revert Hex. unfold set_new_finality.
      stm_unfold. rewrite Hda. by rewrite bool_decide_eq_false_2. }
    rewrite set_new_finality_eq in Hex by done. injection Hex as <-.
    by apply provider_inv_finality.
  - intros [= <-]. by apply provider_inv_empty.
Qed.

(** However blocks, null rounds, commits and resets follow each
    other, as long as the node fetches the block after the latest one it knows and
    finality does not go back, the cache is an unbroken run of heights that starts
    at the committed height or right above it. *)
Lemma provider_inv_reachable p : provider_reachable p → provider_inv p.
Proof.
  induction 1 as [cfg epoch com|p op p' _ IH Hok Hex].
  - by apply provider_inv_empty.
  - by eapply provider_inv_exec.
Qed.
End runs.

(** ** A concrete provider

    Finality 10 is committed, the blocks 11 to 14 are fetched, 12 is a null round;
    the default delay of 2 makes 11 the block due. *)

Definition sample_data : ParentData := {|
  BlockHash := N; ValidatorKey := N; Object := N; StakingChangeRequest := N; configuration_number := id;
  IpcEnvelope := N; nonce := id |}.

Module Sample.
#[local] Existing Instance dev_profile.
#[local] Existing Instance sample_data.

Definition fin (h hash : N) : IPCParentFinality := @MkFinality sample_data h hash.
Definition block (hash : N) : option ParentViewPayload := Some (hash, [], [7; 8]).
Definition exec (op : provider_op) (p : FinalityWithNull) : FinalityWithNull :=
  match provider_exec op p with Done (_, p') => p' | _ => p end.

Definition p0 : FinalityWithNull :=
  new (Config.new 5 1000 100 3) 0 (Some (fin 10 100)).
Definition p1 := exec (PView 11 (block 110)) p0.
Definition p2 := exec (PView 12 None) p1.
Definition p3 := exec (PView 13 (block 130)) p2.
Definition p4 := exec (PView 14 (block 140)) p3.
Definition p5 := exec (PFinality (fin 11 110) (Some (fin 10 100))) p4.

Lemma block_fits hash : payload_fits (block hash).
Proof.
  split; [|intros c; by rewrite elem_of_nil].
  change (∀ m : N, m ∈ [7; 8] → m + 1 < u64_size). intros m.
  rewrite !elem_of_cons, elem_of_nil. intros [-> |[-> |[]]]; done.
Qed.

Lemma step_reachable p op p' :
  provider_reachable p → provider_ok op p → provider_exec op p = Done (tt, p') →
  provider_reachable p' ∧ (provider_inv p → provider_inv p').
Proof.
  intros Hr Hok Hex. split; [by eapply provider_step|]. intros Hinv.
  by eapply provider_inv_exec.
Qed.

Lemma p4_reachable : provider_reachable p4 ∧ provider_inv p4.
Proof.
  assert (provider_reachable p0 ∧ provider_inv p0) as [Hr0 Hi0].
  { split; [constructor|by apply provider_inv_empty]. }
  destruct (step_reachable p0 (PView 11 (block 110)) p1) as [Hr1 Hi1%(λ g, g Hi0)];
    [done|split_and!; [by exists 10|done|apply block_fits]|by vm_compute|].
  destruct (step_reachable p1 (PView 12 None) p2) as [Hr2 Hi2%(λ g, g Hi1)];
    [done|split_and!; [by exists 11|done|done]|by vm_compute|].
  destruct (step_reachable p2 (PView 13 (block 130)) p3) as [Hr3 Hi3%(λ g, g Hi2)];
    [done|split_and!; [by exists 12|done|apply block_fits]|by vm_compute|].
  destruct (step_reachable p3 (PView 14 (block 140)) p4) as [Hr4 Hi4%(λ g, g Hi3)];
    [done|split_and!; [by exists 13|done|apply block_fits]|by vm_compute|].
  done.
Qed.

Lemma p4_non_null h : non_null p4 h → h ∈ [11; 13; 14].
Proof.
  intros [v Hv%abs_lookup]; [|apply p4_reachable].
  assert (data (cached_data p4) =
    [(11, block 110); (12, None); (13, block 130); (14, block 140)]) as Hd by done.
  rewrite Hd in Hv. set_solver.
Qed.

Lemma p4_blocks : blocks p4 !! 11 = Some (block 110) ∧ blocks p4 !! 14 = Some (block 140).
Proof. done. Qed.
End Sample.

Section witnesses.
#[local] Existing Instance dev_profile.
#[local] Existing Instance sample_data.
Import Sample.

Lemma next_proposal_spec_witness :
  (∃ r, next_proposal (E:=Empty_set) p4 = Done (r, p4) ∧
    match r with
    | Some prop =>
        10 < height prop ≤ 10 + 100 ∧
        (∃ top, due p4 (fin 10 100) top (height prop)) ∧
        ∃ v, blocks p4 !! height prop = Some (Some v) ∧ payload_hash v = block_hash prop
    | None => ∀ top h, due p4 (fin 10 100) top h → h = 10
    end) ∧
  next_proposal (E:=Empty_set) p4 = Done (Some (fin 11 110), p4).
Proof.
  split; [|by vm_compute]. apply (next_proposal_spec p4 (fin 10 100)).
  - apply p4_reachable.
  - done.
  - done.
  - intros h Hh%p4_non_null. change (2 ≤ h). revert Hh. rewrite !elem_of_cons, elem_of_nil.
    intros [-> |[-> |[-> |[]]]]; done.
Defined.

(** The same blocks under a delay of 50. *)
Definition p4_slow : FinalityWithNull :=
  MkProvider (Config.with_proposal_delay 50 (config p4)) 0 (cached_data p4)
    (last_committed_finality p4).

Lemma p4_slow_highest : highest p4_slow 110 14.
Proof.
  split_and!; [by eexists|done|]. intros h Hh%p4_non_null _.
  revert Hh. rewrite !elem_of_cons, elem_of_nil. intros [-> |[-> |[-> |[]]]]; done.
Qed.

Lemma next_proposal_underflow_witness :
  next_proposal (E:=Empty_set) p4_slow = Panic.
Proof.
  refine (proj1 (next_proposal_underflow p4_slow (fin 10 100) 14 _ _ _ _ _ _) _).
  - destruct p4_reachable as [_ [Hseq Hb]]. by split.
  - done.
  - done.
  - done.
  - apply p4_slow_highest.
  - done.
  - done.
Defined.

Lemma check_proposal_spec_witness :
  ∃ b, check_proposal (E:=Empty_set) (fin 13 130) p4 = Done (b, p4) ∧
    (b = true ↔ (∃ f, last_committed_finality p4 = Some f ∧ height f < 13) ∧
      ∃ v, blocks p4 !! 13 = Some (Some v) ∧ payload_hash v = 130).
Proof. apply (check_proposal_spec p4 (fin 13 130)). apply p4_reachable. Defined.

Lemma proposal_accepted_witness :
  check_proposal (E:=Empty_set) (fin 11 110) p1 = Done (true, p1).
Proof.
  apply (proposal_accepted p4 (fin 10 100) (fin 11 110) p1 (fin 10 100)).
  - apply p4_reachable.
  - done.
  - done.
  - intros h Hh%p4_non_null. change (2 ≤ h). revert Hh. rewrite !elem_of_cons, elem_of_nil.
    intros [-> |[-> |[-> |[]]]]; done.
  - by vm_compute.
  - apply (seq_cache_intro 11); [by repeat split|by repeat constructor].
  - done.
  - done.
  - done.
Defined.

Lemma new_parent_view_spec_witness :
  new_parent_view_post 15 (block 150) p4 (new_parent_view 15 (block 150) p4).
Proof.
  apply (new_parent_view_spec 15 (block 150) p4); [apply p4_reachable|done|apply block_fits].
Defined.

Lemma set_new_finality_spec_witness :
  ∃ p', set_new_finality (E:=Empty_set) (fin 11 110) (Some (fin 10 100)) p4 =
      Done (tt, p') ∧
    last_committed_finality p' = Some (fin 11 110) ∧ config p' = config p4 ∧
    seq_cache (cached_data p') ∧ blocks p' = filter (λ b, 11 ≤ b.1) (blocks p4).
Proof.
  apply (set_new_finality_spec (fin 11 110) (Some (fin 10 100)) p4);
    [apply p4_reachable|by right].
Defined.

Lemma provider_inv_reachable_witness : provider_inv p5.
Proof.
  apply (provider_inv_reachable p5).
  apply (provider_step p4 (PFinality (fin 11 110) (Some (fin 10 100)))).
  - exact (proj1 p4_reachable).
  - by intros f0 [= <-].
  - by vm_compute.
Defined.
End witnesses.
