(* ===== verification/Node.v ===== *)
(** * The node's shared state and its interface to the parent

    The tasks of a node share the finality provider and the vote tally, and they
    talk to the parent chain and to the ledger.  This file models
    [CachedFinalityProvider] ([fendermint/vm/topdown/src/finality/fetch.rs]) as far
    as it delegates to [FinalityWithNull], [Toggle] ([toggle.rs]), the interfaces
    [ParentQueryProxy] ([proxy.rs]) and [ParentFinalityStateQuery] ([sync/mod.rs]),
    and asynchronous code that runs while other tasks may run. *)

From S2P Require Import Prelude OrdMap Weights Cache Voting Finality.

(** ** The parent and the ledger, as the node sees them

    Everything outside the node is one [World]: the parent chain behind the
    [ParentQueryProxy], the ledger behind the [ParentFinalityStateQuery], the status
    of CometBFT, and time.  A query may fail with a message, and the world moves on. *)

Record GetBlockHashResult `{ParentData} := MkBlockHashResult {
  res_parent_block_hash : BlockHash;
  res_block_hash : BlockHash
}.
Arguments MkBlockHashResult {_} _ _.

Record TopDownQueryPayload `{ParentData} (A : Type) := MkQueryPayload {
  value : A;
  payload_block_hash : BlockHash
}.
Arguments MkQueryPayload {_ A} _ _.
Arguments value {_ A} _.
Arguments payload_block_hash {_ A} _.

Class ParentQueryProxy `{ParentData} := {
  World : Type;
  get_chain_head_height : World → (string + N) * World;
  get_genesis_epoch : World → (string + N) * World;
  get_block_hash : N → World → (string + GetBlockHashResult) * World;
  get_top_down_msgs : N → World → (string + TopDownQueryPayload (list IpcEnvelope)) * World;
  get_validator_changes :
    N → World → (string + TopDownQueryPayload (list StakingChangeRequest)) * World;
  get_latest_committed_finality : World → (string + option IPCParentFinality) * World;
  get_power_table : World → (string + option (list (ValidatorKey * N))) * World;
  catching_up : World → (string + bool) * World;
  sleep : N → World → World
}.

(** ** The cached provider *)

Record CachedFinalityProvider `{ParentData} := MkCached {
  inner : FinalityWithNull;
  cached_config : Config
}.
Arguments MkCached {_} _ _.

Section cached.
Context `{Profile, ParentData} {E : Type}.

Definition cached_new (cfg : Config) (epoch : N) (committed : option IPCParentFinality)
    : CachedFinalityProvider :=
  MkCached (Finality.new cfg epoch committed) cfg.

(** [self.inner.method(...)]. *)
Definition on_inner {F A} (tx : stm FinalityWithNull F A) : stm CachedFinalityProvider F A :=
  zoom inner (λ i c, MkCached i (cached_config c)) tx.

Definition cached_next_proposal : stm CachedFinalityProvider E (option IPCParentFinality) :=
  on_inner next_proposal.
Definition cached_check_proposal f : stm CachedFinalityProvider E bool :=
  on_inner (check_proposal f).
Definition cached_set_new_finality f prev : stm CachedFinalityProvider E unit :=
  on_inner (set_new_finality f prev).
Definition cached_block_hash h : stm CachedFinalityProvider E (option BlockHash) :=
  on_inner (block_hash_at_height h).
Definition cached_latest_height_in_cache : stm CachedFinalityProvider E (option N) :=
  on_inner latest_height_in_cache.
Definition cached_latest_height : stm CachedFinalityProvider E (option N) :=
  on_inner latest_height.
Definition cached_last_committed_finality
    : stm CachedFinalityProvider E (option IPCParentFinality) :=
  on_inner (reads last_committed_finality).
Definition cached_reset f : stm CachedFinalityProvider E unit := on_inner (reset f).
Definition cached_new_parent_view h v : stm CachedFinalityProvider Error unit :=
  on_inner (new_parent_view h v).
Definition cached_cached_blocks : stm CachedFinalityProvider E N := on_inner cached_blocks.
Definition cached_first_non_null_block h : stm CachedFinalityProvider E (option N) :=
  on_inner (first_non_null_block h).
End cached.

(** ** The switch *)

Definition Toggle (P : Type) : Type := option P.

Section toggle.
Context `{Profile, ParentData} {E : Type}.

Definition disabled {P} : Toggle P := None.
Definition enabled {P} (inner : P) : Toggle P := Some inner.
Definition is_enabled {P} (t : Toggle P) : bool := bool_decide (is_Some t).

Definition perform_or_else {P F A} (tx : stm P F A) (other : A) : stm (Toggle P) F A := λ t,
  match t with
  | Some p => '(a, p') ← tx p; Done (a, Some p')
  | None => Done (other, None)
  end.

Abbreviation provider := (Toggle CachedFinalityProvider).

Definition toggle_next_proposal : stm provider E (option IPCParentFinality) :=
  perform_or_else cached_next_proposal None.
Definition toggle_check_proposal f : stm provider E bool :=
  perform_or_else (cached_check_proposal f) false.
Definition toggle_set_new_finality f prev : stm provider E unit :=
  perform_or_else (cached_set_new_finality f prev) tt.
Definition toggle_block_hash h : stm provider E (option BlockHash) :=
  perform_or_else (cached_block_hash h) None.
Definition toggle_latest_height_in_cache : stm provider E (option N) :=
  perform_or_else cached_latest_height_in_cache None.
Definition toggle_latest_height : stm provider E (option N) :=
  perform_or_else cached_latest_height None.
Definition toggle_last_committed_finality : stm provider E (option IPCParentFinality) :=
  perform_or_else cached_last_committed_finality None.
Definition toggle_new_parent_view h v : stm provider Error unit :=
  perform_or_else (cached_new_parent_view h v) tt.
Definition toggle_reset f : stm provider E unit := perform_or_else (cached_reset f) tt.
Definition toggle_cached_blocks : stm provider E N :=
  perform_or_else cached_cached_blocks u64_max.
Definition toggle_first_non_null_block h : stm provider E (option N) :=
  perform_or_else (cached_first_non_null_block h) None.
End toggle.

(** ** The node *)

Record Node `{ParentQueryProxy} := MkNode {
  world : World;
  provider : Toggle CachedFinalityProvider;
  vote_tally : VoteTally ValidatorKey BlockHash Object
}.
Arguments MkNode {_ _} _ _ _.

(** What the other tasks of the node do while this one waits: they run transactions
    of their own on the shared variables. *)
Class Scheduler `{ParentQueryProxy} := { others : Node → Node }.

Section node.
Context `{Scheduler}.

Definition set_world w (n : Node) : Node := MkNode w (provider n) (vote_tally n).
Definition set_provider p (n : Node) : Node := MkNode (world n) p (vote_tally n).
Definition set_tally t (n : Node) : Node := MkNode (world n) (provider n) t.

(** Await an answer of the world. *)
Definition await {E A} (q : World → A * World) : io Node E A := λ n,
  let '(a, w) := q (world n) in (Done a, others (set_world w n)).

(** Await an answer and return early with its error, as [.await?] does. *)
Definition query {A} (q : World → (string + A) * World) : io Node string A :=
  r ← await q;
  io_of (match r with inl e => Fail e | inr a => Done a end).

Definition sleeping {E} (wait : N) : io Node E unit := await (λ w, (tt, sleep wait w)).

(** A transaction on the shared variables; other tasks may run before it. *)
Definition atomically {E A} (tx : stm Node E A) : io Node E A := λ n,
  atomically_or_err tx (others n).

Definition on_provider {F A} (tx : stm (Toggle CachedFinalityProvider) F A) : stm Node F A :=
  zoom provider set_provider tx.
Definition on_tally {F A} (tx : stm (VoteTally ValidatorKey BlockHash Object) F A)
    : stm Node F A :=
  zoom vote_tally set_tally tx.
End node.
