(* ===== verification/Fetch.v ===== *)
(** * Reading the parent view

    Models the parts of [CachedFinalityProvider]
    ([fendermint/vm/topdown/src/finality/fetch.rs]) that fall back to the parent when
    a height is not in the cache, the [retry!] macro, the null round handling of
    [lib.rs] and the [ParentViewProvider] side of [toggle.rs]. *)

From S2P Require Import Prelude OrdMap Weights Cache Voting Finality Node.

Definition NULL_ROUND_ERR_MSG : string := "requested epoch was a null round".

Definition is_null_round_str (s : string) : bool :=
  bool_decide (is_Some (String.index 0 NULL_ROUND_ERR_MSG s)).

(** [Duration] counts nanoseconds below 2^64 seconds; doubling it can panic. *)
Definition duration_max : N := u64_size * 1000000000 - 1.
Definition duration_double {E} (d : N) : outcome E N :=
  if bool_decide (d * 2 ≤ duration_max) then Done (d * 2) else Panic.

Section fetch.
Context `{Profile, Scheduler}.

Definition handle_null_round {A} (res : io Node string A) (d : A) : io Node string A :=
  r ← attempt res;
  match r with
  | inr a => mret a
  | inl e => if is_null_round_str e then mret d else io_of (Fail e)
  end.

(** The [retry!] macro. *)
Fixpoint retry_query {A} (retries : nat) (wait : N) (q : World → (string + A) * World)
    : io Node string A :=
  r ← await q;
  match r with
  | inr a => mret a
  | inl e =>
      if is_null_round_str e then io_of (Fail e)
      else
        match retries with
        | S retries =>
            sleeping wait ;;
            wait ← io_of (duration_double wait);
            retry_query retries wait q
        | O => io_of (Fail e)
        end
  end.

(** A method of the cached provider; it exists only inside an enabled switch. *)
Definition on_cached {E A} (tx : stm CachedFinalityProvider E A) : stm Node E A := λ n,
  match provider n with
  | Some c => '(a, c') ← tx c; Done (a, set_provider (Some c') n)
  | None => Panic
  end.

Definition value_of {A} (q : World → (string + TopDownQueryPayload A) * World)
    : World → (string + A) * World := λ w,
  let '(r, w) := q w in
  (match r with inl e => inl e | inr r => inr (value r) end, w).

Definition uninitialized (cfg : Config) : io Node string CachedFinalityProvider :=
  genesis ← query get_genesis_epoch;
  mret (cached_new cfg genesis None).

(** The fields of a provider that are not transactional variables. *)
Definition own {A} (f : CachedFinalityProvider → A) : io Node string A := λ n,
  (c ← unwrap (provider n); Done (f c), n).

(** What the two methods below share: look into the cache, ask the parent on a miss. *)
Definition or_parent {A} (cached : stm FinalityWithNull string (option (list A)))
    (q : World → (string + TopDownQueryPayload (list A)) * World) : io Node string (list A) :=
  r ← atomically (on_cached (on_inner cached));
  match r with
  | Some v => mret v
  | None =>
      cfg ← own cached_config;
      handle_null_round
        (retry_query (N.to_nat (exponential_retry_limit cfg)) (exponential_back_off cfg)
          (value_of q)) []
  end.

Definition cached_validator_changes (h : N) : io Node string (list StakingChangeRequest) :=
  or_parent (validator_changes_at h) (get_validator_changes h).

Definition cached_top_down_msgs (h : N) : io Node string (list IpcEnvelope) :=
  or_parent (top_down_msgs_at h) (get_top_down_msgs h).

(** The loop of the two range queries. *)
Fixpoint collect {A} (f : N → io Node string (list A)) (hs : list N) (v : list A)
    : io Node string (list A) :=
  match hs with
  | [] => mret v
  | h :: hs => r ← f h; collect f hs (v ++ r)
  end.

Definition cached_validator_changes_from (from to : N)
    : io Node string (list StakingChangeRequest) :=
  collect cached_validator_changes (range_incl from to) [].

Definition cached_top_down_msgs_from (from to : N) : io Node string (list IpcEnvelope) :=
  collect cached_top_down_msgs (range_incl from to) [].

(** ** Through the switch *)

Definition toggled_off : string := "provider is toggled off".

Definition toggle_genesis_epoch : io Node string N :=
  p ← io_reads provider;
  match p with
  | Some c => mret (genesis_epoch (inner c))
  | None => io_of (Fail toggled_off)
  end.

Definition validator_changes_from (from to : N) : io Node string (list StakingChangeRequest) :=
  p ← io_reads provider;
  match p with
  | Some _ => cached_validator_changes_from from to
  | None => io_of (Fail toggled_off)
  end.

Definition top_down_msgs_from (from to : N) : io Node string (list IpcEnvelope) :=
  p ← io_reads provider;
  match p with
  | Some _ => cached_top_down_msgs_from from to
  | None => io_of (Fail toggled_off)
  end.
End fetch.

(** ** Retries *)

Section retries.
Context `{Profile, Scheduler} {A : Type} (q : World → (string + A) * World).

(** A count of the queries made, kept by the world. *)
Variable count : World → nat.
Hypothesis count_query : ∀ w, count (q w).2 = S (count w).
Hypothesis count_sleep : ∀ d w, count (sleep d w) = count w.
Hypothesis count_others : ∀ n, count (world (others n)) = count (world n).

Lemma await_count (n : Node) :
  ∃ n', await (E:=string) q n = (Done (q (world n)).1, n') ∧
    count (world n') = S (count (world n)).
Proof.
  unfold await. pose proof (count_query (world n)) as Hq.
  destruct (q (world n)) as [r w]. eexists. split; [done|].
  rewrite count_others. done.
Qed.

Lemma retry_query_count retries wait (n : Node) :
  wait * 2 ^ N.of_nat retries ≤ duration_max →
  ∃ n', (retry_query retries wait q n).2 = n' ∧
    match (retry_query retries wait q n).1 with
    | Done _ => True
    | Fail e => is_null_round_str e = false → count (world n') = (count (world n) + S retries)%nat
    | _ => False
    end ∧
    (count (world n) < count (world n') ≤ count (world n) + S retries)%nat.
Proof.
  revert wait n. induction retries as [|retries IH]; intros wait n Hwait; simpl.
  all: unfold mbind, io_bind; destruct (await_count n) as (n1 & -> & Hc1).
  all: destruct (q (world n)).1 as [e|a]; [|exists n1; cbn [fst snd]; split_and!; [done|done|lia..]].
  all: destruct (is_null_round_str e) eqn:He;
    [exists n1; unfold io_of; cbn [fst snd]; rewrite He; split_and!; [done|done|lia..]|].
  - exists n1. unfold io_of. cbn [fst snd]. split_and!; [done|intros _; lia|lia..].
  - simpl. rewrite Nnat.Nat2N.inj_succ, N.pow_succ_r' in Hwait.
    set (n2 := others _). assert (count (world n2) = count (world n1)) as Hc2.
    { unfold n2. rewrite count_others. apply count_sleep. }
    unfold io_of, duration_double.
    assert (1 ≤ 2 ^ N.of_nat retries) by (apply N.lt_pred_le, N.neq_0_lt_0, N.pow_nonzero; done).
    rewrite bool_decide_eq_true_2 by nia. cbv beta iota.
    destruct (IH (wait * 2) n2) as (n3 & -> & Hr & Hb); [nia|].
    exists n3. split; [done|]. split; [|lia].
    destruct (retry_query retries (wait * 2) q n2).1; try done. intros. rewrite Hr by done. lia.
Qed.

(** As long as the doubled waiting time fits in a [Duration], the
    retry loop ends with the answer or the error of a query and makes between one
    and [retries + 1] queries; it gives up with an error that is not a null round
    only after all [retries + 1] of them. *)
Lemma retry_query_bounded retries wait (n : Node) :
  wait * 2 ^ N.of_nat retries ≤ duration_max →
  ∃ n', (retry_query retries wait q n).2 = n' ∧
    match (retry_query retries wait q n).1 with
    | Done _ => True
    | Fail e => is_null_round_str e = false → count (world n') = (count (world n) + S retries)%nat
    | _ => False
    end ∧
    (count (world n) < count (world n') ≤ count (world n) + S retries)%nat.
Proof. apply retry_query_count. Qed.
End retries.

(** ** Range queries *)

Section ranges.
Context `{Profile, Scheduler}.

(** The world answers a query with [v]; for a null round, where [v] is empty, it may
    also answer with the null round error. *)
Definition answers {A} (q : World → (string + TopDownQueryPayload (list A)) * World)
    (v : list A) : Prop :=
  ∀ w, (∃ hash, (q w).1 = inr (MkQueryPayload v hash)) ∨
       (v = [] ∧ ∃ e, (q w).1 = inl e ∧ is_null_round_str e = true).

(** Between two heights the node sees the parent as [changes] and [msgs]: the cache
    agrees with them where it has a block, and the parent answers so elsewhere. *)
Definition sees (changes : N → list StakingChangeRequest) (msgs : N → list IpcEnvelope)
    (from to : N) (n : Node) : Prop :=
  ∃ c, provider n = Some c ∧ seq_cache (cached_data (inner c)) ∧
    ∀ h, from ≤ h ≤ to →
      match blocks (inner c) !! h with
      | Some (Some v) => validator_changes v = changes h ∧ topdown_cross_msgs v = msgs h
      | Some None => changes h = [] ∧ msgs h = []
      | None => answers (get_validator_changes h) (changes h) ∧
                answers (get_top_down_msgs h) (msgs h)
      end.

Lemma retry_query_answers {A} (q : World → (string + TopDownQueryPayload (list A)) * World)
    v retries wait (n : Node) :
  answers q v →
  ∃ n', handle_null_round (retry_query retries wait (value_of q)) [] n = (Done v, n') ∧
    ∃ w, n' = others (set_world w n).
Proof.
  intros Hq. unfold handle_null_round, attempt, mbind, io_bind.
  destruct retries; simpl; unfold mbind, io_bind, await, value_of;
    specialize (Hq (world n)); destruct (q (world n)) as [r w]; simpl in Hq;
    (destruct Hq as [[hash ->]|[-> (e & -> & He)]];
      [|rewrite He; unfold io_of; cbv beta iota; rewrite He]; eauto).
Qed.

Section one_view.
Variables (changes : N → list StakingChangeRequest) (msgs : N → list IpcEnvelope) (from to : N).
Variable R : Node → Prop.
Hypothesis R_sees : ∀ n, R n → sees changes msgs from to n.
Hypothesis R_world : ∀ w n, R n → R (set_world w n).
Hypothesis R_others : ∀ n, R n → R (others n).

Lemma or_parent_sees {A} (f : ParentViewPayload → list A) q v (h : N) (n : Node) :
  (∀ n c, R n → provider n = Some c →
    match blocks (inner c) !! h with
    | Some (Some p) => f p = v
    | Some None => v = []
    | None => answers q v
    end) →
  R n → ∃ n', or_parent (handle_null_block h f []) q n = (Done v, n') ∧ R n'.
Proof.
  intros Hv HR. apply R_others in HR as HR1.
  unfold or_parent, mbind, io_bind, atomically, atomically_or_err, on_cached.
  destruct (R_sees _ HR1) as (c & Hc & Hseq & _). specialize (Hv (others n) c HR1 Hc).
  rewrite Hc. unfold on_inner, handle_null_block. stm_unfold.
  rewrite get_value_blocks by done. simpl.
  assert (set_provider (Some (MkCached (inner c) (cached_config c))) (others n) = others n) as ->.
  { destruct c. unfold set_provider. simpl. rewrite <-Hc. by destruct (others n). }
  destruct (blocks (inner c) !! h) as [[p|]|]; simpl.
  - exists (others n). by rewrite Hv.
  - exists (others n). by rewrite Hv.
  - unfold own. rewrite Hc. simpl.
    edestruct (retry_query_answers q v) as (n' & -> & w & ->); [done|].
    eexists. split; [done|]. apply R_others. by apply R_world.
Qed.

Lemma collect_sees {A} (f : N → io Node string (list A)) (v : N → list A) hs acc n :
  (∀ h n, h ∈ hs → R n → ∃ n', f h n = (Done (v h), n') ∧ R n') → R n →
  ∃ n', collect f hs acc n = (Done (acc ++ concat (v <$> hs)), n') ∧ R n'.
Proof.
  intros Hf. revert acc n. induction hs as [|h hs IH]; intros acc n HR; simpl.
  - rewrite app_nil_r. by exists n.
  - unfold mbind, io_bind. destruct (Hf h n) as (n1 & -> & HR1); [set_solver|done|].
    destruct (IH ltac:(set_solver) (acc ++ v h) n1 HR1) as (n2 & -> & HR2).
    exists n2. by rewrite app_assoc.
Qed.

Lemma range_views n :
  R n →
  (∃ n', validator_changes_from from to n =
    (Done (concat (changes <$> range_incl from to)), n') ∧ R n') ∧
  (∃ n', top_down_msgs_from from to n =
    (Done (concat (msgs <$> range_incl from to)), n') ∧ R n').
Proof.
  intros HR. destruct (R_sees _ HR) as (c & Hc & _).
  unfold validator_changes_from, cached_validator_changes_from, top_down_msgs_from,
    cached_top_down_msgs_from, mbind, io_bind, io_reads. rewrite Hc.
  split; apply (collect_sees _ _ _ []); try done.
  all: intros h n0 Hh%elem_of_range_incl HR0; apply or_parent_sees; [|done].
  all: intros n1 c1 HR1 Hc1; destruct (R_sees _ HR1) as (c' & Hc' & _ & Hb);
    simplify_eq; specialize (Hb h Hh); case_match; [case_match|]; tauto.
Qed.
End one_view.

(** Whatever part of a range of heights is cached, the staking
    changes and the cross-net messages of the range are those of its blocks, in
    the order of heights: a cached block answers for itself, a height that is not
    cached is asked for, and a null round contributes nothing.  Other tasks may
    run meanwhile, and move blocks in or out of the cache, as long as what the
    node sees does not change. *)
Lemma range_queries_spec changes msgs from to (n : Node) :
  (∀ n, sees changes msgs from to n → sees changes msgs from to (others n)) →
  sees changes msgs from to n →
  (∃ n', validator_changes_from from to n =
    (Done (concat (changes <$> range_incl from to)), n')) ∧
  (∃ n', top_down_msgs_from from to n = (Done (concat (msgs <$> range_incl from to)), n')).
Proof.
  intros Ho Hn.
  destruct (range_views changes msgs from to (sees changes msgs from to)
    ltac:(done) ltac:(done) Ho n Hn) as [(n1 & ? & _) (n2 & ? & _)]. eauto.
Qed.
End ranges.

(** ** A concrete parent

    Every sixth height is a null round.  The world counts the queries made. *)

Module SampleParent.
#[local] Existing Instance dev_profile.
#[local] Existing Instance sample_data.

Definition is_null (h : N) : bool := bool_decide (0 < h ∧ h `mod` 6 = 0).
Definition hash_of (h : N) : N := h * 10.
Definition prev_of (h : N) : N := if is_null (h - 1) then h - 2 else h - 1.
Definition msgs_of (h : N) : list N := if is_null h then [] else [h `mod` 1000].
Definition null_round : string := "requested epoch was a null round, epoch".

Definition answer {A} (r : string + A) (w : nat) : (string + A) * nat := (r, S w).
Definition unless_null {A} (h : N) (a : A) : string + A :=
  if is_null h then inl null_round else inr a.

Definition proxy : ParentQueryProxy := {|
  World := nat;
  get_chain_head_height := answer (inr 20);
  get_genesis_epoch := answer (inr 10);
  get_block_hash h :=
    answer (unless_null h (MkBlockHashResult (hash_of (prev_of h)) (hash_of h)));
  get_top_down_msgs h := answer (unless_null h (MkQueryPayload (msgs_of h) (hash_of h)));
  get_validator_changes h := answer (unless_null h (MkQueryPayload [] (hash_of h)));
  get_latest_committed_finality := answer (inr (Some (Sample.fin 10 100)));
  get_power_table := answer (inr (Some [(1, 10); (2, 10); (3, 10)]));
  catching_up := answer (inr false);
  sleep _ w := w
|}.
#[local] Existing Instance proxy.

(** Nothing else runs. *)
Definition idle : Scheduler := {| others n := n |}.
#[local] Existing Instance idle.

(** The finality 10 is committed and the blocks 11 and 12 are cached. *)
Definition block (h : N) : option ParentViewPayload :=
  if is_null h then None else Some (hash_of h, [], msgs_of h).
Definition node0 : Node :=
  MkNode 0%nat
    (Some (cached_new (Config.new 5 1000 100 3) 0 (Some (Sample.fin 10 100))))
    (Voting.new [(1, 10); (2, 10); (3, 10)] (10, 100)).
Definition view_of (h : N) : stm Node Error unit :=
  on_provider (toggle_new_parent_view h (block h)).
Definition node1 : Node := (atomically_or_err (view_of 11 ;; view_of 12) node0).2.

Lemma node1_sees : sees (λ _, []) msgs_of 11 14 node1.
Proof.
  eexists. split; [by vm_compute|]. split.
  { apply (seq_cache_intro 11); [by repeat split|by repeat constructor]. }
  intros h Hh. assert (h ∈ range_incl 11 14) as Hin by (by apply elem_of_range_incl).
  change (h ∈ [11; 12; 13; 14]) in Hin. rewrite !elem_of_cons, elem_of_nil in Hin.
  destruct Hin as [-> |[-> |[-> |[-> |[]]]]]; [by vm_compute..| |];
    (split; intros w; left; eexists; by vm_compute).
Qed.
End SampleParent.

Section witnesses.
#[local] Existing Instance dev_profile.
#[local] Existing Instance sample_data.
#[local] Existing Instance SampleParent.proxy.
#[local] Existing Instance SampleParent.idle.
Import SampleParent.

Lemma retry_query_bounded_witness :
  let q : nat → (string + N) * nat := answer (inl "connection refused"%string) in
  ∃ n', (retry_query 2 100 q node0).2 = n' ∧
    match (retry_query 2 100 q node0).1 with
    | Done _ => True
    | Fail e => is_null_round_str e = false → world n' = (world node0 + 3)%nat
    | _ => False
    end ∧ (world node0 < world n' ≤ world node0 + 3)%nat.
Proof. intros q. by apply (@retry_query_bounded sample_data proxy idle N q id). Defined.

Lemma range_queries_spec_witness :
  (∃ n', validator_changes_from 11 14 node1 = (Done [], n')) ∧
  (∃ n', top_down_msgs_from 11 14 node1 = (Done [11; 13; 14], n')).
Proof.
  apply (@range_queries_spec dev_profile sample_data proxy idle (λ _, []) msgs_of 11 14 node1); [done|apply node1_sees].
Defined.
End witnesses.
