(* ===== verification/Syncer.v ===== *)
(** * The parent syncer

    Models [LotusParentSyncer] ([fendermint/vm/topdown/src/sync/syncer.rs]), the
    [TendermintAwareSyncer] ([sync/tendermint.rs]) and the start of the syncer
    ([sync/mod.rs]): the task that polls the parent chain and moves the provider and
    the vote tally forward in lockstep. *)

From S2P Require Import Prelude OrdMap Weights Cache Voting Finality Node Fetch.

Section syncer.
Context `{Profile, Scheduler}.

(** The fields of [LotusParentSyncer] that are not shared with other tasks. *)
Record LotusParentSyncer := MkSyncer { sync_config : Config; sync_many : bool }.

Definition syncer_new (cfg : Config) : LotusParentSyncer := MkSyncer cfg true.

(** ** Starting points *)

(** [query_starting_finality] asks every five seconds until the ledger is ready;
    [tries] bounds how often. *)
Fixpoint query_starting_finality (tries : nat) : io Node string IPCParentFinality :=
  match tries with
  | O => io_of OutOfFuel
  | S tries =>
      r ← await get_latest_committed_finality;
      match r with
      | inr (Some finality) =>
          if bool_decide (height finality = 0) then
            genesis_epoch ← query get_genesis_epoch;
            r ← query (get_block_hash genesis_epoch);
            mret (MkFinality genesis_epoch (res_block_hash r))
          else mret finality
      | inr None | inl _ =>
          sleeping 5000000000 ;;
          query_starting_finality tries
      end
  end.

Fixpoint query_starting_comittee (tries : nat) : io Node string (list (ValidatorKey * N)) :=
  match tries with
  | O => io_of OutOfFuel
  | S tries =>
      r ← await get_power_table;
      match r with
      | inr (Some power_table) => mret power_table
      | inr None | inl _ =>
          sleeping 5000000000 ;;
          query_starting_comittee tries
      end
  end.

(** [launch_polling_syncer] up to the point where the polling task is spawned. *)
Definition launch_polling_syncer (tries : nat) : io Node string unit :=
  p ← io_reads provider;
  if negb (is_enabled p) then io_of (Fail "provider not enabled, enable to run syncer"%string)
  else
    finality ← query_starting_finality tries;
    power_table ← query_starting_comittee tries;
    atomically (
      on_provider (toggle_set_new_finality finality None) ;;
      on_tally (set_finalized (height finality) (block_hash finality)) ;;
      on_tally (set_power_table power_table)).

(** ** Polling *)

Definition exceed_cache_size_limit {E} (s : LotusParentSyncer) : io Node E bool :=
  cached ← atomically (on_provider toggle_cached_blocks);
  mret (bool_decide (Config.max_cache_blocks (sync_config s) < cached)).

Definition latest_cached_data {E} : io Node E (N * BlockHash) :=
  atomically (
    latest ← on_provider toggle_latest_height;
    latest_height ← lift (unwrap latest);
    first ← on_provider (toggle_first_non_null_block latest_height);
    prev_non_null_height ←
      match first with
      | Some h => mret h
      | None =>
          committed ← on_provider toggle_last_committed_finality;
          f ← lift (unwrap committed);
          mret (height f)
      end;
    hash ← on_provider (toggle_block_hash prev_non_null_height);
    hash ← lift (unwrap hash);
    mret (latest_height, hash)).

Definition map_voting_err (e : Voting.Error ValidatorKey BlockHash) : Error := NotSequential.

Definition fetch_data (h : N) (hash : BlockHash) : io Node Error ParentViewPayload :=
  changes_res ← await (get_validator_changes h);
  topdown_msgs_res ← await (get_top_down_msgs h);
  match changes_res, topdown_msgs_res with
  | inl e, _ => io_of (Fail (CannotQueryParent ("get_validator_changes: " +:+ e) h))
  | inr _, inl e => io_of (Fail (CannotQueryParent ("get_top_down_msgs: " +:+ e) h))
  | inr changes, inr msgs =>
      if bool_decide (payload_block_hash changes ≠ hash) then io_of (Fail ParentChainReorgDetected)
      else if bool_decide (payload_block_hash msgs ≠ hash) then
        io_of (Fail ParentChainReorgDetected)
      else mret (hash, value changes, value msgs)
  end.

(** The transaction of [poll_next]: the provider and the tally move together. *)
Definition record_view (h : N) (view : option ParentViewPayload) : stm Node Error unit :=
  on_provider (toggle_new_parent_view h view) ;;
  on_tally (stm_map_err map_voting_err (add_block h (payload_hash <$> view))).

Definition poll_next (h : N) (parent_hash : BlockHash) : io Node Error BlockHash :=
  r ← await (get_block_hash h);
  match r with
  | inl err =>
      if is_null_round_str err then
        atomically (record_view h None) ;;
        mret parent_hash
      else io_of (Fail (CannotQueryParent ("get_block_hash: " +:+ err) h))
  | inr res =>
      if bool_decide (res_parent_block_hash res ≠ parent_hash) then
        io_of (Fail ParentChainReorgDetected)
      else
        data ← fetch_data h (res_block_hash res);
        atomically (record_view h (Some data)) ;;
        mret (payload_hash data)
  end.

Definition finalized_chain_head (s : LotusParentSyncer) : io Node string (option N) :=
  head ← query get_chain_head_height;
  if bool_decide (head < chain_head_delay (sync_config s)) then mret None
  else
    h ← io_of (u64_sub head (chain_head_delay (sync_config s)));
    mret (Some h).

Definition syncer_reset (tries : nat) : io Node string unit :=
  finality ← query_starting_finality tries;
  atomically (on_provider (toggle_reset finality)).

(** The errors of [sync]: messages and the errors of the top down crate. *)
Definition SyncError : Type := string + Error.

Fixpoint sync_loop (s : LotusParentSyncer) (tries fuel : nat) (chain_head latest : N)
    (hash : BlockHash) : io Node SyncError unit :=
  match fuel with
  | O => io_of OutOfFuel
  | S fuel =>
      exceeded ← exceed_cache_size_limit s;
      if (exceeded : bool) then mret tt
      else
        next ← io_of (u64_add latest 1);
        r ← attempt (poll_next next hash);
        match r with
        | inl ParentChainReorgDetected => io_map_err inl (syncer_reset tries)
        | inl e => io_of (Fail (inr e))
        | inr hash =>
            latest ← io_of (u64_add latest 1);
            if bool_decide (latest = chain_head) then mret tt
            else if negb (sync_many s) then mret tt
            else sync_loop s tries fuel chain_head latest hash
        end
  end.

Definition sync (s : LotusParentSyncer) (tries : nat) : io Node SyncError unit :=
  head ← io_map_err inl (finalized_chain_head s);
  match head with
  | None => mret tt
  | Some chain_head =>
      '(latest, hash) ← latest_cached_data;
      if bool_decide (chain_head < latest) then io_map_err inl (syncer_reset tries)
      else if bool_decide (latest = chain_head) then mret tt
      else sync_loop s tries (N.to_nat (chain_head - latest)) chain_head latest hash
  end.

Definition tendermint_sync (s : LotusParentSyncer) (tries : nat) : io Node SyncError unit :=
  r ← await catching_up;
  match r with
  | inl _ => io_of (Fail (inl "failed to get Tendermint status"%string))
  | inr true => mret tt
  | inr false => sync s tries
  end.

(** ** Fetching a range of events *)

Fixpoint fetch_events (hs : list N) (events : list (N * ParentViewPayload))
    : io Node Error (list (N * ParentViewPayload)) :=
  match hs with
  | [] => mret events
  | h :: hs =>
      r ← await (get_block_hash h);
      match r with
      | inr res =>
          data ← fetch_data h (res_block_hash res);
          if bool_decide (validator_changes data = [] ∧ topdown_cross_msgs data = [])
          then fetch_events hs events
          else fetch_events hs (events ++ [(h, data)])
      | inl e =>
          if is_null_round_str e then fetch_events hs events
          else io_of (Fail (CannotQueryParent ("get_block_hash: " +:+ e) h))
      end
  end.

Definition fetch_topdown_events (start_height end_height : N)
    : io Node Error (list (N * ParentViewPayload)) :=
  fetch_events (range_incl start_height end_height) [].
End syncer.

(** ** Lockstep *)

Section lockstep.
Context `{Profile, Scheduler}.
Implicit Types (n : Node) (p : FinalityWithNull) (f : IPCParentFinality).

(** The chain of the tally that corresponds to a provider. *)
Definition chain_view p f (h : N) : option (option BlockHash) :=
  if bool_decide (h = height f) then Some (Some (block_hash f))
  else if bool_decide (h < height f) then None
  else match blocks p !! h with Some v => Some (payload_hash <$> v) | None => None end.

(** The provider is enabled, well formed, and it knows the committed finality. *)
Definition provides n p f : Prop :=
  (∃ cfg, provider n = Some (MkCached p cfg)) ∧ provider_inv p ∧
  last_committed_finality p = Some f ∧ height f + 1 < u64_size.

(** The tally's chain is the committed block followed by the provider's blocks. *)
Definition lockstep n : Prop :=
  ∃ p f, provides n p f ∧ ∀ h, chain (vote_tally n) !! h = chain_view p f h.

(** The height up to which both have seen the parent. *)
Definition tip_of p f : N := default (height f) (upper_bound (cached_data p)).

Lemma tip_tip_of p f : last_committed_finality p = Some f → tip p = Some (tip_of p f).
Proof. intros Hf. unfold tip, tip_of. rewrite Hf. by destruct (upper_bound _). Qed.

(** Run a method of the inner provider. *)
Definition with_inner {E A} (r : outcome E (A * FinalityWithNull)) (cfg : Config) n
    : outcome E (A * Node) :=
  match r with
  | Done (a, p') => Done (a, set_provider (Some (MkCached p' cfg)) n)
  | Fail e => Fail e
  | Retry => Retry
  | Panic => Panic
  | OutOfFuel => OutOfFuel
  end.

Lemma on_provider_inner {E A} (tx : stm FinalityWithNull E A) d n p cfg :
  provider n = Some (MkCached p cfg) →
  on_provider (perform_or_else (on_inner tx) d) n = with_inner (tx p) cfg n.
Proof.
  intros Hp. unfold on_provider, perform_or_else, on_inner, zoom. rewrite Hp. simpl.
  by destruct (tx p) as [[]| | | |].
Qed.

Lemma set_provider_same n p cfg :
  provider n = Some (MkCached p cfg) → set_provider (Some (MkCached p cfg)) n = n.
Proof. intros <-. by destruct n. Qed.

Lemma on_provider_pure {E A} (tx : stm FinalityWithNull E A) d n p cfg a :
  provider n = Some (MkCached p cfg) → tx p = Done (a, p) →
  on_provider (perform_or_else (on_inner tx) d) n = Done (a, n).
Proof.
  intros Hcfg Htx. rewrite (on_provider_inner tx d n p cfg Hcfg), Htx. simpl.
  by rewrite set_provider_same.
Qed.

Lemma upper_bound_is_tip p f h :
  provider_inv p → last_committed_finality p = Some f → is_Some (blocks p !! h) →
  height f ≤ h ≤ tip_of p f.
Proof.
  intros Hinv Hf [v Hv]. destruct (inv_cache _ Hinv) as [Hwf _ _].
  destruct (decide (data (cached_data p) = [])) as [Hnil|Hne].
  { unfold blocks, abs in Hv. by rewrite Hnil in Hv. }
  destruct (bounds_nonempty _ Hne) as (lo & up & Hlo & Hup).
  unfold tip_of. rewrite Hup. simpl.
  pose proof (abs_bounds _ _ _ h Hwf Hlo Hup ltac:(by eexists)).
  destruct (inv_bottom _ Hinv _ Hlo) as (f' & ? & ?). assert (f' = f) as -> by congruence. lia.
Qed.

(** The tip of the cache is a block of it. *)
Lemma tip_block p f :
  provider_inv p → last_committed_finality p = Some f → tip_of p f ≠ height f →
  height f < tip_of p f ∧ is_Some (blocks p !! tip_of p f).
Proof.
  intros Hinv Hf Hne. destruct (inv_cache _ Hinv) as [Hwf _ _].
  assert (is_Some (blocks p !! tip_of p f)) as Hs.
  { unfold tip_of in *. destruct (upper_bound (cached_data p)) as [up|] eqn:Hup; [|done].
    destruct (upper_bound_elem _ _ Hup) as [v Hv]. exists v. by apply abs_lookup. }
  pose proof (upper_bound_is_tip _ _ _ Hinv Hf Hs). split; [lia|done].
Qed.

Lemma chain_view_tip n p f :
  provides n p f → (∀ h, chain (vote_tally n) !! h = chain_view p f h) →
  ∃ x, get_max (chain (vote_tally n)) = Some (tip_of p f, x).
Proof.
  intros (_ & Hinv & Hf & _) Hc.
  assert (is_Some (chain (vote_tally n) !! tip_of p f)) as [x Hx].
  { rewrite Hc. unfold chain_view. case_bool_decide as Heq; [by eexists|].
    destruct (tip_block _ _ Hinv Hf Heq) as [Hlt [v Hv]].
    rewrite bool_decide_eq_false_2 by lia. rewrite Hv. by eexists. }
  exists x. apply get_max_Some. split; [done|]. intros k [y Hk]. rewrite Hc in Hk.
  unfold chain_view in Hk. case_bool_decide as Heq.
  - subst. destruct (decide (tip_of p f = height f)) as [->|Hne]; [done|].
    by apply tip_block in Hne as [? _]; [lia|..].
  - case_bool_decide; [done|]. destruct (blocks p !! k) as [v|] eqn:Hv; [|done].
    by apply (upper_bound_is_tip p f k Hinv Hf); eexists.
Qed.

Lemma tip_of_fits p f :
  provider_inv p → height f + 1 < u64_size → tip_of p f + 1 < u64_size.
Proof.
  intros Hinv Hf. unfold tip_of. destruct (upper_bound _) as [up|] eqn:Hup; [|done].
  destruct (upper_bound_elem _ _ Hup) as [v Hv]. simpl.
  by eapply (seq_fits _ (inv_cache _ Hinv)).
Qed.

Lemma tip_of_ge p f :
  provider_inv p → last_committed_finality p = Some f → height f ≤ tip_of p f.
Proof.
  intros Hinv Hf. destruct (decide (tip_of p f = height f)) as [->|Hne]; [done|].
  apply tip_block in Hne as [? _]; [lia|done..].
Qed.

Lemma chain_view_insert (c : gmap N (option BlockHash)) p p' f h v :
  height f < h → blocks p' = <[h := v]> (blocks p) → (∀ k, c !! k = chain_view p f k) →
  ∀ k, <[h := payload_hash <$> v]> c !! k = chain_view p' f k.
Proof.
  intros Hlt Hb Hc k. rewrite lookup_insert, Hc. unfold chain_view. rewrite Hb, lookup_insert.
  case_decide; [|done]. subst. by do 2 (rewrite bool_decide_eq_false_2 by lia).
Qed.

(** What the transaction of [poll_next] does to a node in lockstep: it commits
    exactly when the block follows the tip and its payload is in order, and then
    both variables have the block. *)
Lemma record_view_ends n p f h v :
  provides n p f → (∀ k, chain (vote_tally n) !! k = chain_view p f k) →
  h + 1 < u64_size → payload_fits v →
  match record_view h v n with
  | Done (_, n') => h = tip_of p f + 1 ∧ payload_sequential v ∧
      ∃ p', provides n' p' f ∧ blocks p' = <[h := v]> (blocks p) ∧ tip_of p' f = h ∧
        (∀ k, chain (vote_tally n') !! k = chain_view p' f k) ∧ config p' = config p ∧
        world n' = world n
  | Fail e => (h ≠ tip_of p f + 1 ∨ ¬ payload_sequential v) ∧
      (e = NotSequential ∨ ∃ e', e = NonSequentialParentViewInsert e')
  | _ => False
  end.
Proof.
  intros Hp Hc Hh Hv. destruct (Hp) as ([cfg Hcfg] & Hinv & Hf & Hfit).
  unfold record_view, toggle_new_parent_view, cached_new_parent_view, mbind, stm_bind.
  rewrite (on_provider_inner (new_parent_view h v) tt n p cfg Hcfg).
  pose proof (new_parent_view_ends h v p (inv_cache _ Hinv) Hh Hv) as Hpost.
  destruct (chain_view_tip n p f Hp Hc) as [x Hmax].
  pose proof (tip_of_fits p f Hinv Hfit) as Htip. pose proof (tip_of_ge p f Hinv Hf) as Hge.
  destruct (new_parent_view h v p) as [[[] p']|e| | |] eqn:Hview; simpl in Hpost; try done.
  - destruct Hpost as (Hs & Hup & Hseq & Hup' & Hlo' & Hb & Hp').
    simpl. unfold on_tally, zoom, stm_map_err, add_block. stm_unfold. simpl.
    rewrite Hmax, u64_add_ok by lia. cbv beta iota.
    case_bool_decide as Hne; simpl; [by auto|]. subst h. split; [done|]. split; [done|].
    exists p'. assert (last_committed_finality p' = Some f) as Hf' by (rewrite Hp'; done).
    assert (provider_inv p') as Hinv'.
    { eapply (provider_inv_view (tip_of p f + 1) v p); [done| |done].
      split; [|by auto]. exists (tip_of p f). split; [by apply tip_tip_of|done]. }
    split_and!.
    + split_and!; [by exists cfg|done|done|done].
    + done.
    + unfold tip_of at 1. by rewrite Hup'.
    + eapply chain_view_insert; [|done|done]. lia.
    + by rewrite Hp'.
    + done.
  - destruct e as [|e'| |]; simpl; try done; [by auto|].
    destruct Hpost as (Hs & lo & up & Hlo & Hup & He). split; [left|by eauto].
    unfold tip_of. rewrite Hup. simpl. destruct e'; try lia.
    assert (lo ≤ up) by (eapply lower_le_upper; [apply Hinv|done..]). lia.
Qed.
End lockstep.

(** ** Committing a finality

    The transaction with which the ledger records a finality, in [deliver] of
    [fendermint/vm/interpreter/src/chain.rs]. *)

Section commit.
Context `{Profile, Scheduler}.
Implicit Types (n : Node) (p : FinalityWithNull) (f : IPCParentFinality).

Definition commit_tx {E} f (prev : option IPCParentFinality) : stm Node E unit :=
  on_provider (toggle_set_new_finality f prev) ;;
  on_tally (set_finalized (height f) (block_hash f)).

Lemma commit_keeps_lockstep {E} n p f f' prev :
  provides n p f → (∀ k, chain (vote_tally n) !! k = chain_view p f k) →
  debug_assertions = false ∨ prev = Some f → height f ≤ height f' → height f' + 1 < u64_size →
  ∃ n' p', commit_tx (E:=E) f' prev n = Done (tt, n') ∧ provides n' p' f' ∧
    (∀ k, chain (vote_tally n') !! k = chain_view p' f' k) ∧
    blocks p' = filter (λ b, height f' ≤ b.1) (blocks p) ∧ genesis_epoch p' = genesis_epoch p.
Proof.
  intros ([cfg Hcfg] & Hinv & Hf & Hfit) Hc Hprev Hle Hfit'.
  unfold commit_tx, toggle_set_new_finality, cached_set_new_finality, mbind, stm_bind.
  rewrite (on_provider_inner _ _ n p cfg Hcfg), set_new_finality_eq by (rewrite Hf; done).
  set (p' := set_committed _ _). eexists _, p'.
  assert (blocks p' = filter (λ b, height f' ≤ b.1) (blocks p)) as Hb.
  { apply remove_key_spec, Hinv. }
  split; [done|]. split.
  { split_and!; [by exists cfg| |done|done]. apply provider_inv_finality; [done|].
    intros f0 Hf0. assert (f0 = f) as -> by congruence. done. }
  split; [|done]. intros k. change (chain (finalize (height f') (block_hash f')
    (vote_tally n)) !! k = chain_view p' f' k).
  rewrite chain_finalize, Hc. unfold chain_view. case_bool_decide; [done|].
  repeat case_bool_decide; try lia; try done. rewrite Hb.
  destruct (blocks p !! k) as [v|] eqn:Hv.
  - rewrite (map_lookup_filter_Some_2 _ _ k v); [done|done|simpl; lia].
  - by rewrite map_lookup_filter_None_2 by (by left).
Qed.

(** Committing a finality that does not go back, through the one
    transaction the ledger uses, keeps the provider and the tally in lockstep and
    drops from both the blocks below it. *)
Lemma commit_lockstep {E} n p f f' prev :
  provides n p f → (∀ k, chain (vote_tally n) !! k = chain_view p f k) →
  debug_assertions = false ∨ prev = Some f → height f ≤ height f' → height f' + 1 < u64_size →
  ∃ n' p', commit_tx (E:=E) f' prev n = Done (tt, n') ∧ provides n' p' f' ∧
    (∀ k, chain (vote_tally n') !! k = chain_view p' f' k) ∧
    blocks p' = filter (λ b, height f' ≤ b.1) (blocks p).
Proof.
  intros Hp Hc Hprev Hle Hfit.
  destruct (commit_keeps_lockstep (E:=E) n p f f' prev Hp Hc Hprev Hle Hfit)
    as (n' & p' & ? & ? & ? & ? & _). eauto 10.
Qed.
End commit.

(** ** What the other tasks do

    While the syncer waits, time passes, other tasks count votes, change the table of powers, look for quorums and publish
    votes of this node, and the ledger commits finalities.  None of them changes the blocks. *)

Section tasks.
Context `{Profile, Scheduler}.
Implicit Types (n : Node) (p : FinalityWithNull) (f : IPCParentFinality).

(** Operations on the tally that are not those of the syncer and of the ledger. *)
Definition voting_op (op : tally_op (K:=ValidatorKey) (V:=BlockHash) (Obj:=Object)) : Prop :=
  match op with OpAddBlock _ _ | OpSetFinalized _ _ => False | _ => True end.

Inductive task_step n : Node → Prop :=
| ts_world w : task_step n (set_world w n)
| ts_votes op t : voting_op op → exec op (vote_tally n) = Some t → task_step n (set_tally t n)
| ts_commit c f f' prev n' :
    provider n = Some c → last_committed_finality (inner c) = Some f →
    debug_assertions = false ∨ prev = Some f → height f ≤ height f' → height f' + 1 < u64_size →
    commit_tx (E:=string) f' prev n = Done (tt, n') → task_step n n'.

(** The scheduler runs such steps, any number of them, at each point where the syncer waits. *)
Class OtherTasks := { others_run n : rtc task_step n (others n) }.

Lemma task_lockstep n n' : task_step n n' → lockstep n → lockstep n'.
Proof.
  intros [w|op t Hop Hexec|c f f' prev n1 Hc Hf Hprev Hle Hfit Hrun] (p & f0 & Hp & Hch).
  - by exists p, f0.
  - exists p, f0. split; [done|]. cbn [vote_tally set_tally]. intros h. rewrite <-Hch. f_equal.
    apply exec_effect in Hexec as [Hcn _|? ? ? ? ->|? ? ? _ _ _ [_ ->]|? ? -> _]; [done|done|done|done].
  - pose proof Hp as ([cfg Hcfg] & _ & Hf0 & _). rewrite Hcfg in Hc. injection Hc as <-. cbn [inner] in Hf.
    assert (f0 = f) as -> by congruence.
    destruct (commit_keeps_lockstep (E:=string) n p f f' prev Hp Hch Hprev Hle Hfit) as (n2 & p2 & Hrun2 & Hp2 & Hch2 & _).
    rewrite Hrun in Hrun2. injection Hrun2 as <-. by exists p2, f'.
Qed.
Lemma tasks_lockstep n n' : rtc task_step n n' → lockstep n → lockstep n'.
Proof. induction 1 as [|n1 n2 n3 Hs _ IH]; [done|]. intros Hn. by eapply IH, task_lockstep. Qed.
End tasks.

(** ** Polling keeps the lockstep *)

Section polling.
Context `{Profile, Scheduler}.
Implicit Types (n : Node) (p : FinalityWithNull) (f : IPCParentFinality).

(** What the parent returns is numbered below 2^64 - 1. *)
Class ProxyFits := {
  head_fits w h : (get_chain_head_height w).1 = inr h → h + 1 < u64_size;
  msgs_fit h w r m : (get_top_down_msgs h w).1 = inr r → m ∈ value r → nonce m + 1 < u64_size;
  changes_fit h w r c :
    (get_validator_changes h w).1 = inr r → c ∈ value r → configuration_number c + 1 < u64_size
}.
(** The other tasks keep the lockstep, as the tasks of a node do. *)
Class OthersLockstep := { others_lockstep n : lockstep n → lockstep (others n) }.
#[export] Instance tasks_others_lockstep `{!OtherTasks} : OthersLockstep.
Proof. split. intros n. apply tasks_lockstep, others_run. Qed.

Section lemmas.
Context `{ProxyFits, OthersLockstep}.

Lemma lockstep_set_world w n : lockstep n → lockstep (set_world w n).
Proof. done. Qed.

Lemma await_lockstep {E A} (q : World → A * World) n :
  lockstep n → ∃ n', await (E:=E) q n = (Done (q (world n)).1, n') ∧ lockstep n'.
Proof.
  intros Hn. unfold await. destruct (q (world n)) as [a w]. eexists. split; [done|].
  by apply others_lockstep, lockstep_set_world.
Qed.

Lemma query_lockstep {A} (q : World → (string + A) * World) n :
  lockstep n → ∃ n', lockstep n' ∧
    query q n = (match (q (world n)).1 with inl e => Fail e | inr a => Done a end, n').
Proof.
  intros Hn. unfold query, mbind, io_bind.
  destruct (await_lockstep (E:=string) q n Hn) as (n' & -> & Hn'). by exists n'.
Qed.

Lemma fetch_data_lockstep h hash n :
  lockstep n → ∃ r n', fetch_data h hash n = (r, n') ∧ lockstep n' ∧
    match r with
    | Done v => payload_hash v = hash ∧ payload_fits (Some v)
    | Fail _ => True
    | _ => False
    end.
Proof.
  intros Hn. unfold fetch_data, mbind, io_bind.
  destruct (await_lockstep (E:=Error) (get_validator_changes h) n Hn) as (n1 & -> & Hn1).
  destruct (await_lockstep (E:=Error) (get_top_down_msgs h) n1 Hn1) as (n2 & -> & Hn2).
  destruct (get_validator_changes h (world n)).1 as [e|changes] eqn:Hc; [by eauto 10|].
  destruct (get_top_down_msgs h (world n1)).1 as [e|msgs] eqn:Hm; [by eauto 10|].
  repeat case_bool_decide; [by eauto 10..|].
  eexists _, n2. split; [done|]. split; [done|]. split; [done|]. split; simpl.
  - intros m. by eapply msgs_fit.
  - intros c. by eapply changes_fit.
Qed.

(** A transaction of [poll_next], after which no other task has run. *)
Lemma record_lockstep n h v :
  lockstep n → h + 1 < u64_size → payload_fits v →
  ∃ r n', atomically (record_view h v) n = (r, n') ∧ lockstep n' ∧
    match r with
    | Done _ => ∃ p f, provides n' p f ∧ tip_of p f = h ∧ blocks p !! h = Some v
    | Fail _ => True
    | _ => False
    end.
Proof.
  intros Hn Hh Hv. apply others_lockstep in Hn as Hn1.
  destruct (Hn1) as (p & f & Hp & Hc). unfold atomically, atomically_or_err.
  pose proof (record_view_ends (others n) p f h v Hp Hc Hh Hv) as Hr.
  destruct (record_view h v (others n)) as [[[] n']|e| | |]; try done; [|by eauto 10].
  destruct Hr as (-> & Hs & p' & Hp' & Hb & Htip & Hc' & _).
  eexists _, n'. split; [done|]. split; [by exists p', f|]. exists p', f.
  split_and!; [done|done|]. by rewrite Hb, lookup_insert_eq.
Qed.

Lemma poll_next_lockstep n h parent_hash :
  lockstep n → h + 1 < u64_size →
  ∃ r n', poll_next h parent_hash n = (r, n') ∧ lockstep n' ∧
    match r with
    | Done hash => ∃ p f v, provides n' p f ∧ tip_of p f = h ∧ blocks p !! h = Some v ∧
        hash = default parent_hash (payload_hash <$> v)
    | Fail _ => True
    | _ => False
    end.
Proof.
  intros Hn Hh. unfold poll_next, mbind, io_bind.
  destruct (await_lockstep (E:=Error) (get_block_hash h) n Hn) as (n1 & -> & Hn1).
  destruct (get_block_hash h (world n)).1 as [err|res].
  - case_match; [|by eauto 10].
    destruct (record_lockstep n1 h None Hn1 Hh I) as (r & n2 & -> & Hn2 & Hr).
    destruct r as [[]|e| | |]; try done; [|by eauto 10].
    destruct Hr as (p & f & ? & ? & ?). eexists _, n2. split; [done|]. split; [done|].
    by exists p, f, None.
  - case_bool_decide; [by eauto 10|].
    destruct (fetch_data_lockstep h (res_block_hash res) n1 Hn1) as (r & n2 & -> & Hn2 & Hr).
    destruct r as [data|e| | |]; try done; [|by eauto 10]. destruct Hr as [Hhash Hfit].
    destruct (record_lockstep n2 h (Some data) Hn2 Hh Hfit) as (r & n3 & -> & Hn3 & Hr).
    destruct r as [[]|e| | |]; try done; [|by eauto 10].
    destruct Hr as (p & f & ? & ? & ?). eexists _, n3. split; [done|]. split; [done|].
    by exists p, f, (Some data).
Qed.

End lemmas.

(** C21: polling a height keeps the provider and the tally in lockstep,
    whether it succeeds or fails, and whichever votes, changes of powers and commits of finalities the other
    tasks carry out meanwhile; with numbers from the parent below 2^64 - 1 it does
    not panic or block.  When it succeeds the polled block, or null round, is the
    new tip of both, and the hash returned is the one the next block must name as
    its parent: that of the block, or for a null round the one passed in. *)
Theorem poll_next_spec `{!ProxyFits, !OtherTasks} n h parent_hash :
  lockstep n → h + 1 < u64_size →
  ∃ r n', poll_next h parent_hash n = (r, n') ∧ lockstep n' ∧
    match r with
    | Done hash => ∃ p f v, provides n' p f ∧ tip_of p f = h ∧ blocks p !! h = Some v ∧
        hash = default parent_hash (payload_hash <$> v)
    | Fail _ => True
    | _ => False
    end.
Proof. apply poll_next_lockstep. Qed.
End polling.

(** ** The latest data *)

Section latest.
Context `{Profile, Scheduler}.
Implicit Types (n : Node) (p : FinalityWithNull) (f : IPCParentFinality).

(** [hash] is the hash of the last block with one, up to height [l]. *)
Definition last_hash (view : N → option (option BlockHash)) (l : N) (hash : BlockHash) : Prop :=
  ∃ h, h ≤ l ∧ view h = Some (Some hash) ∧ ∀ k, h < k ≤ l → view k = Some None.

Lemma chain_view_above p f k :
  height f < k → chain_view p f k =
  match blocks p !! k with Some v => Some (payload_hash <$> v) | None => None end.
Proof. intros ?. unfold chain_view. by do 2 (rewrite bool_decide_eq_false_2 by lia). Qed.

(** Every height from the committed one to the tip has a block. *)
Lemma blocks_contiguous p f k :
  provider_inv p → last_committed_finality p = Some f → height f < k ≤ tip_of p f →
  is_Some (blocks p !! k).
Proof.
  intros Hinv Hf Hk. destruct (inv_cache _ Hinv) as [Hwf Hi _]. unfold tip_of in Hk.
  destruct (upper_bound (cached_data p)) as [up|] eqn:Hup; simpl in Hk; [|lia].
  destruct (lower_bound (cached_data p)) as [lo|] eqn:Hlo; cycle 1.
  { apply lower_bound_None, upper_bound_None in Hlo. congruence. }
  destruct (inv_bottom _ Hinv _ Hlo) as (f' & ? & ?). assert (f' = f) as -> by congruence.
  destruct (wf_contains _ lo up k Hwf Hi Hlo Hup) as [v Hv]; [lia|].
  exists v. by apply abs_lookup.
Qed.

Lemma null_above p f k :
  provider_inv p → last_committed_finality p = Some f → height f < k ≤ tip_of p f →
  ¬ non_null p k → chain_view p f k = Some None.
Proof.
  intros Hinv Hf Hk Hn. destruct (blocks_contiguous p f k Hinv Hf Hk) as [[v|] Hv].
  - destruct Hn. by exists v.
  - rewrite chain_view_above by lia. by rewrite Hv.
Qed.

Lemma last_hash_highest p f h v :
  provider_inv p → last_committed_finality p = Some f → highest p (tip_of p f) h →
  blocks p !! h = Some (Some v) →
  last_hash (chain_view p f) (tip_of p f)
    (if bool_decide (height f = h) then block_hash f else payload_hash v).
Proof.
  intros Hinv Hf (Hn & Hle & Hmax) Hv. exists h. split; [done|].
  assert (height f ≤ h) by (apply (upper_bound_is_tip p f h Hinv Hf); by eexists). split.
  - unfold chain_view. case_bool_decide; [by rewrite bool_decide_eq_true_2|].
    do 2 (rewrite bool_decide_eq_false_2 by lia). by rewrite Hv.
  - intros k Hk. apply null_above; [done..|lia|]. intros Hn'.
    specialize (Hmax k Hn' ltac:(lia)). lia.
Qed.

Lemma latest_cached_data_eq {E} n p f :
  provides (others n) p f →
  ∃ hash, latest_cached_data (E:=E) n = (Done (tip_of p f, hash), others n) ∧
    last_hash (chain_view p f) (tip_of p f) hash.
Proof.
  intros ([cfg Hcfg] & Hinv & Hf & _). pose proof (inv_cache _ Hinv) as Hseq.
  unfold latest_cached_data, atomically, atomically_or_err, mbind, stm_bind.
  unfold toggle_latest_height, cached_latest_height.
  rewrite (on_provider_pure _ _ _ p cfg (Some (tip_of p f)) Hcfg)
    by (by rewrite latest_height_eq, (tip_tip_of p f)). simpl.
  unfold toggle_first_non_null_block, cached_first_non_null_block.
  destruct (first_non_null_block_spec (E:=E) p (tip_of p f) Hseq) as (r & Hfirst & Hr).
  rewrite (on_provider_pure _ _ _ p cfg _ Hcfg Hfirst).
  unfold toggle_block_hash, cached_block_hash. destruct r as [h|]; simpl.
  - destruct (Hr) as ([v Hv] & _ & _).
    rewrite (on_provider_pure _ _ _ p cfg _ Hcfg (block_hash_at_height_eq p h Hseq)).
    rewrite Hf, Hv. exists (if bool_decide (height f = h) then block_hash f else payload_hash v).
    split; [by case_bool_decide|by apply last_hash_highest].
  - unfold toggle_last_committed_finality, cached_last_committed_finality.
    rewrite (on_provider_pure _ _ _ p cfg (Some f) Hcfg) by (unfold reads; by rewrite Hf).
    simpl. rewrite (on_provider_pure _ _ _ p cfg _ Hcfg (block_hash_at_height_eq p _ Hseq)).
    rewrite Hf, bool_decide_eq_true_2 by done. exists (block_hash f). split; [done|].
    exists (height f). split; [by apply tip_of_ge|]. split.
    + unfold chain_view. by rewrite bool_decide_eq_true_2.
    + intros k Hk. apply null_above; [done..|]. intros [v Hv].
      destruct (highest_exists (E:=E) p (tip_of p f) k Hseq) as [h Hh]; [by eexists|lia|].
      by apply Hr in Hh.
Qed.
End latest.

(** ** A round of synchronisation *)

Section round.
Context `{Profile, Scheduler}.
Context `{!ProxyFits, !OthersLockstep}.
Implicit Types (n : Node) (p : FinalityWithNull) (f : IPCParentFinality).

(** The ledger is initialized: it knows its latest committed finality. *)
Class LedgerReady := {
  ledger_ready w : ∃ f, (get_latest_committed_finality w).1 = inr (Some f)
}.
Context `{LedgerReady}.

(** The provider has been reset to a finality, with an empty cache. *)
Definition was_reset n f : Prop :=
  ∃ p cfg, provider n = Some (MkCached p cfg) ∧ provider_inv p ∧
    data (cached_data p) = [] ∧ last_committed_finality p = Some f.

Definition ends_well {E A} (r : outcome E A) : Prop :=
  match r with Done _ | Fail _ => True | _ => False end.
#[local] Hint Extern 1 (ends_well _) => exact I : core.

Lemma query_starting_finality_lockstep tries n :
  lockstep n → ∃ r n', query_starting_finality (S tries) n = (r, n') ∧
    lockstep n' ∧ ends_well r.
Proof.
  intros Hn. cbn [query_starting_finality]. unfold mbind at 1, io_bind at 1.
  destruct (await_lockstep (E:=string) get_latest_committed_finality n Hn) as (n1 & -> & Hn1).
  destruct (ledger_ready (world n)) as [f ->]. case_bool_decide; [|by eauto 10].
  unfold mbind, io_bind.
  destruct (query_lockstep get_genesis_epoch n1 Hn1) as (n2 & Hn2 & ->).
  destruct (get_genesis_epoch (world n1)).1 as [e|g]; [by eauto 10|].
  destruct (query_lockstep (get_block_hash g) n2 Hn2) as (n3 & Hn3 & ->).
  destruct (get_block_hash g (world n2)).1; by eauto 10.
Qed.

Lemma syncer_reset_ends tries n :
  lockstep n → ∃ r n', syncer_reset (S tries) n = (r, n') ∧ ends_well r ∧
    (lockstep n' ∨ ∃ f, was_reset n' f).
Proof.
  intros Hn. unfold syncer_reset, mbind, io_bind.
  destruct (query_starting_finality_lockstep tries n Hn) as (r & n1 & -> & Hn1 & Hr).
  destruct r as [f|e| | |]; try done; [|by eauto 10].
  apply others_lockstep in Hn1 as (p & f0 & ([cfg Hcfg] & Hinv & _) & _).
  unfold atomically, atomically_or_err, toggle_reset, cached_reset.
  rewrite (on_provider_inner _ _ (others n1) p cfg Hcfg). simpl.
  eexists _, _. split; [done|]. split; [done|]. right. exists f.
  eexists _, cfg. split; [done|]. split_and!; [|done|done]. by apply provider_inv_empty.
Qed.

Lemma exceed_lockstep {E} s n :
  lockstep n → ∃ b n', exceed_cache_size_limit (E:=E) s n = (Done b, n') ∧ lockstep n'.
Proof.
  intros Hn%others_lockstep. destruct (Hn) as (p & f & ([cfg Hcfg] & _) & _).
  unfold exceed_cache_size_limit, mbind, io_bind, atomically, atomically_or_err,
    toggle_cached_blocks, cached_cached_blocks.
  rewrite (on_provider_pure _ _ (others n) p cfg (size (cached_data p)) Hcfg) by done. eauto.
Qed.

Lemma sync_loop_ends s tries fuel chain_head latest hash n :
  lockstep n → chain_head + 1 < u64_size → latest < chain_head →
  chain_head - latest = N.of_nat fuel →
  ∃ r n', sync_loop s (S tries) fuel chain_head latest hash n = (r, n') ∧ ends_well r ∧
    (lockstep n' ∨ ∃ f, was_reset n' f).
Proof.
  revert latest hash n. induction fuel as [|fuel IH]; intros latest hash n Hn Hhead Hlt Hfuel;
    [lia|]. cbn [sync_loop]. unfold mbind, io_bind.
  destruct (exceed_lockstep (E:=string + Error) s n Hn) as (b & n1 & -> & Hn1).
  destruct b; [by eauto 10|]. unfold io_of at 1. rewrite u64_add_ok by lia. unfold attempt.
  destruct (poll_next_lockstep n1 (latest + 1) hash Hn1 ltac:(lia)) as (r & n2 & -> & Hn2 & Hr).
  destruct r as [hash'|e| | |]; try done.
  - unfold io_of. rewrite u64_add_ok by lia. case_bool_decide; [by eauto 10|].
    destruct (negb (sync_many s)); [by eauto 10|]. apply IH; [done|done|lia|lia].
  - destruct e; [by eauto 10..| |by eauto 10].
    unfold io_map_err. destruct (syncer_reset_ends tries n2 Hn2) as (r & n3 & -> & Hw & Hn3).
    exists (map_err inl r), n3. split; [done|]. split; [|done]. by destruct r.
Qed.

(** A round of synchronisation always ends, and with a result or an error:
    no round panics, blocks or runs on, whatever the parent answers and whatever
    other tasks do, provided the ledger is initialized.  It leaves the provider and
    the tally in lockstep, unless it has detected a reorganisation of the parent
    chain and reset the provider.  The loop needs one iteration per missing height,
    which is the fuel it is given. *)
Lemma sync_ends s tries n :
  lockstep n → ∃ r n', sync s (S tries) n = (r, n') ∧ ends_well r ∧
    (lockstep n' ∨ ∃ f, was_reset n' f).
Proof.
  intros Hn. unfold sync, finalized_chain_head, io_map_err. unfold mbind, io_bind.
  destruct (query_lockstep get_chain_head_height n Hn) as (n1 & Hn1 & ->).
  destruct (get_chain_head_height (world n)).1 as [e|head] eqn:Hhead; [by eauto 10|].
  apply head_fits in Hhead. case_bool_decide; [by eauto 10|].
  unfold io_of. rewrite u64_sub_ok by lia. cbv beta iota. simpl.
  apply others_lockstep in Hn1 as Hn2. destruct (Hn2) as (p & f & Hp & _).
  destruct (latest_cached_data_eq (E:=string + Error) n1 p f Hp) as (hash & -> & _). cbv beta iota.
  case_bool_decide.
  { destruct (syncer_reset_ends tries _ Hn2) as (r & n3 & -> & Hw & Hn3).
    exists (map_err inl r), n3. split; [done|]. split; [|done]. by destruct r. }
  case_bool_decide; [by eauto 10|].
  apply sync_loop_ends; [done|lia|lia|lia].
Qed.
End round.

(** ** Catching up with an honest parent *)

Section catch_up.
Context `{Profile, Scheduler}.
Implicit Types (n : Node) (p : FinalityWithNull) (f : IPCParentFinality).

(** No other task runs. *)
Class Quiet := { quiet n : others n = n }.

(** The parent chain: a block, or a null round, at every height. *)
Context (parent : N → option ParentViewPayload).
Definition parent_view (h : N) : option (option BlockHash) := Some (payload_hash <$> parent h).

(** The proxy answers from that chain, and every block names the last block before
    it as its parent. *)
Class HonestParent := {
  honest_block h v w : parent h = Some v → 0 < h →
    ∃ ph, (get_block_hash h w).1 = inr (MkBlockHashResult ph (payload_hash v)) ∧
      last_hash parent_view (h - 1) ph;
  honest_null h w : parent h = None →
    ∃ e, (get_block_hash h w).1 = inl e ∧ is_null_round_str e = true;
  honest_changes h v w : parent h = Some v →
    (get_validator_changes h w).1 = inr (MkQueryPayload (validator_changes v) (payload_hash v));
  honest_msgs h v w : parent h = Some v →
    (get_top_down_msgs h w).1 = inr (MkQueryPayload (topdown_cross_msgs v) (payload_hash v));
  honest_order h : payload_sequential (parent h) ∧ payload_fits (parent h)
}.
Context `{!Quiet, !HonestParent}.

(** What the node has seen is the parent chain. *)
Definition follows p f : Prop :=
  ∀ k, height f ≤ k ≤ tip_of p f → chain_view p f k = parent_view k.

Record tracks n p f : Prop := {
  tracks_provides : provides n p f;
  tracks_chain k : chain (vote_tally n) !! k = chain_view p f k;
  tracks_follows : follows p f
}.

Lemma last_hash_unique view l h1 h2 :
  last_hash view l h1 → last_hash view l h2 → h1 = h2.
Proof.
  intros (k1 & Hk1 & Hv1 & Hn1) (k2 & Hk2 & Hv2 & Hn2).
  destruct (N.lt_trichotomy k1 k2) as [Hlt|[->|Hlt]]; [|congruence|].
  - rewrite Hn1 in Hv2 by lia. done.
  - rewrite Hn2 in Hv1 by lia. done.
Qed.

Lemma await_quiet {E A} (q : World → A * World) n :
  await (E:=E) q n = (Done (q (world n)).1, set_world (q (world n)).2 n).
Proof. unfold await. destruct (q (world n)). by rewrite quiet. Qed.

Lemma tracks_set_world w n p f : tracks n p f → tracks (set_world w n) p f.
Proof. intros [???]. by split. Qed.

Lemma record_tracks n p f :
  tracks n p f → tip_of p f + 2 < u64_size →
  ∃ n' p', atomically (record_view (tip_of p f + 1) (parent (tip_of p f + 1))) n = (Done tt, n') ∧
    tracks n' p' f ∧ tip_of p' f = tip_of p f + 1.
Proof.
  intros [Hp Hc Hfol] Hfit. destruct (honest_order (tip_of p f + 1)) as [Hs Hv].
  pose proof (record_view_ends n p f (tip_of p f + 1) (parent (tip_of p f + 1)) Hp Hc
    ltac:(lia) Hv) as Hr.
  unfold atomically, atomically_or_err. rewrite quiet.
  destruct (record_view _ _ n) as [[[] n']|e| | |]; try done; [|by destruct Hr as [[]]].
  destruct Hr as (_ & _ & p' & Hp' & Hb & Htip & Hc' & _). exists n', p'. split; [done|].
  split; [split; [done|done|]|done]. intros k Hk. rewrite Htip in Hk.
  destruct Hp as (_ & Hinv & Hf & _). pose proof (tip_of_ge p f Hinv Hf).
  destruct (decide (k = tip_of p f + 1)) as [->|Hne].
  - rewrite chain_view_above by lia. by rewrite Hb, lookup_insert_eq.
  - rewrite <-Hfol by lia. unfold chain_view. by rewrite Hb, lookup_insert_ne by lia.
Qed.

Lemma poll_next_tracks n p f hash :
  tracks n p f → tip_of p f + 2 < u64_size → last_hash parent_view (tip_of p f) hash →
  ∃ n' p' hash', poll_next (tip_of p f + 1) hash n = (Done hash', n') ∧ tracks n' p' f ∧
    tip_of p' f = tip_of p f + 1 ∧ last_hash parent_view (tip_of p f + 1) hash'.
Proof.
  intros Hn Hfit Hhash. set (h := tip_of p f + 1) in *. unfold poll_next, mbind, io_bind.
  rewrite await_quiet. destruct (parent h) as [v|] eqn:Hv.
  - destruct (honest_block h v (world n) Hv) as (ph & -> & Hph); [lia|]. simpl.
    replace (h - 1) with (tip_of p f) in Hph by lia.
    rewrite bool_decide_eq_false_2 by (intros Hne; apply Hne; by eapply last_hash_unique).
    unfold fetch_data, mbind, io_bind. rewrite !await_quiet.
    rewrite (honest_changes h v) by done. rewrite (honest_msgs h v) by done. simpl.
    rewrite !bool_decide_eq_false_2 by (intros Hne; by apply Hne).
    destruct v as [[vh vc] vm]. cbn [payload_hash validator_changes topdown_cross_msgs fst snd].
    unfold mret, io_ret. rewrite <-Hv.
    match goal with |- context [atomically _ ?n3] =>
      destruct (record_tracks n3 p f) as (n' & p' & Hrec & Hn' & Htip);
        [by repeat apply tracks_set_world|done|] end.
    fold h in Hrec. rewrite Hrec.
    eexists n', p', _. split; [done|]. split; [done|]. split; [done|].
    exists h. split; [done|]. split; [unfold parent_view; by rewrite Hv|]. intros. lia.
  - destruct (honest_null h (world n) Hv) as (e & -> & ->). rewrite <-Hv.
    match goal with |- context [atomically _ ?n1] =>
      destruct (record_tracks n1 p f) as (n' & p' & Hrec & Hn' & Htip);
        [by apply tracks_set_world|done|] end.
    fold h in Hrec. rewrite Hrec.
    eexists n', p', _. split; [done|]. split; [done|]. split; [done|].
    destruct Hhash as (k & Hk & Hvk & Hnull). exists k. split; [lia|]. split; [done|].
    intros k' Hk'. destruct (decide (k' = h)) as [->|]; [unfold parent_view; by rewrite Hv|].
    apply Hnull. lia.
Qed.

(** How far a round gets: to the head, unless the cache is full or the syncer fetches
    one block at a time. *)
Definition got_far (s : LotusParentSyncer) (chain_head start : N) p f : Prop :=
  tip_of p f = chain_head ∨
  Config.max_cache_blocks (sync_config s) < size (cached_data p) ∨
  sync_many s = false ∧ tip_of p f = start + 1.

Lemma sync_loop_tracks s tries fuel chain_head n p f hash :
  tracks n p f → chain_head + 1 < u64_size → tip_of p f < chain_head →
  chain_head - tip_of p f = N.of_nat fuel → last_hash parent_view (tip_of p f) hash →
  ∃ n' p', sync_loop s tries fuel chain_head (tip_of p f) hash n = (Done tt, n') ∧
    tracks n' p' f ∧ tip_of p f ≤ tip_of p' f ≤ chain_head ∧
    got_far s chain_head (tip_of p f) p' f.
Proof.
  revert n p hash. induction fuel as [|fuel IH]; intros n p hash Hn Hhead Hlt Hfuel Hhash; [lia|].
  cbn [sync_loop]. unfold mbind, io_bind. destruct (Hn) as [([cfg Hcfg] & Hinv & Hf & _) _ _].
  unfold exceed_cache_size_limit, mbind, io_bind, atomically, atomically_or_err,
    toggle_cached_blocks, cached_cached_blocks. rewrite quiet.
  rewrite (on_provider_pure _ _ n p cfg (size (cached_data p)) Hcfg) by done.
  unfold mret at 1, io_ret at 1. case_bool_decide as Hsize.
  { exists n, p. split; [done|]. split; [done|]. split; [lia|]. by right; left. }
  unfold io_of, attempt. rewrite u64_add_ok by lia. cbv beta iota.
  destruct (poll_next_tracks n p f hash) as (n' & p' & hash' & -> & Hn' & Htip & Hhash');
    [done|lia|done|].
  rewrite u64_add_ok by lia. cbv beta iota. rewrite <-Htip in *. case_bool_decide as Heq.
  { exists n', p'. split; [done|]. split; [done|]. split; [lia|]. by left. }
  destruct (sync_many s) eqn:Hmany; simpl.
  - destruct (IH n' p' hash') as (n'' & p'' & -> & Hn'' & Hb & Hfar); [done|done|lia|lia|done|].
    exists n'', p''. split; [done|]. split; [done|]. split; [lia|].
    destruct Hfar as [?|[?|[? _]]]; [by left|by right; left|congruence].
  - exists n', p'. split; [done|]. split; [done|]. split; [lia|]. right; right. by rewrite Htip.
Qed.

(** C33: with an honest parent and no other task running, a round of
    synchronisation succeeds.  Provider and tally stay in lockstep and equal to the
    parent chain, null rounds included, and the round ends at the parent's head
    minus the configured delay, or earlier only because the cache has grown beyond
    its limit, or because the syncer is set to fetch one block per round. *)
Theorem sync_catches_up s tries n p f head :
  tracks n p f → (get_chain_head_height (world n)).1 = inr head → head + 1 < u64_size →
  chain_head_delay (sync_config s) ≤ head →
  tip_of p f ≤ head - chain_head_delay (sync_config s) →
  ∃ n' p', sync s tries n = (Done tt, n') ∧ tracks n' p' f ∧
    tip_of p f ≤ tip_of p' f ∧
    got_far s (head - chain_head_delay (sync_config s)) (tip_of p f) p' f.
Proof.
  intros Hn Hhead Hfit Hdelay Htip. set (target := head - _) in *.
  unfold sync, finalized_chain_head, query, io_map_err, mbind, io_bind. rewrite await_quiet, Hhead.
  unfold io_of. rewrite bool_decide_eq_false_2 by lia. rewrite u64_sub_ok by lia. simpl.
  set (n1 := set_world _ n). assert (tracks n1 p f) as Hn1 by (by apply tracks_set_world).
  destruct (latest_cached_data_eq (E:=string + Error) n1 p f) as (hash & -> & Hhash);
    [rewrite quiet; apply Hn1|].
  rewrite quiet. fold target. rewrite bool_decide_eq_false_2 by lia. case_bool_decide as Heq.
  { exists n1, p. split; [done|]. split; [done|]. split; [done|]. by left. }
  assert (last_hash parent_view (tip_of p f) hash) as Hlast.
  { destruct (Hn1) as [(_ & Hinv & Hf & _) _ Hfol].
    destruct Hhash as (k & Hk & Hv & Hnull).
    assert (height f ≤ k) as Hge.
    { destruct (N.le_gt_cases (height f) k) as [|Hlt]; [done|]. unfold chain_view in Hv.
      by rewrite bool_decide_eq_false_2, bool_decide_eq_true_2 in Hv by lia. }
    exists k. split; [done|]. rewrite <-Hfol by lia. split; [done|].
    intros k' Hk'. rewrite <-Hfol by lia. by apply Hnull. }
  destruct (sync_loop_tracks s tries (N.to_nat (target - tip_of p f)) target n1 p f hash)
    as (n' & p' & -> & Hn' & Hb & Hfar); [done|lia|lia|lia|done|].
  exists n', p'. split; [done|]. split; [done|]. split; [lia|done].
Qed.
End catch_up.

(** ** A reset leaves the tally behind

    [reset] clears the provider but not the chain of the tally. *)

Section stall.
Context `{Profile, Scheduler}.
Context `{!Quiet}.
Implicit Types (n : Node) (p : FinalityWithNull) (f : IPCParentFinality).

Lemma record_view_mismatch n h v m x r :
  get_max (chain (vote_tally n)) = Some (m, x) → m + 1 < u64_size → h ≠ m + 1 →
  record_view h v n ≠ Done r.
Proof.
  intros Hmax Hfit Hne Hr. unfold record_view in Hr.
  apply stm_bind_Done in Hr as ([] & n1 & Hp & Ht).
  assert (vote_tally n1 = vote_tally n) as Hsame.
  { unfold on_provider, zoom in Hp.
    destruct (toggle_new_parent_view h v (provider n)) as [[[] ?]| | | |]; by simplify_eq/=. }
  unfold on_tally, zoom, stm_map_err, add_block in Ht. rewrite Hsame in Ht.
  revert Ht. stm_unfold. rewrite Hmax, u64_add_ok by done. cbv beta iota.
  by rewrite bool_decide_eq_true_2.
Qed.

Lemma poll_next_mismatch n h hash m x :
  get_max (chain (vote_tally n)) = Some (m, x) → m + 1 < u64_size → h ≠ m + 1 →
  ∃ r n', poll_next h hash n = (r, n') ∧ (∀ a, r ≠ Done a) ∧
    provider n' = provider n ∧ vote_tally n' = vote_tally n.
Proof.
  intros Hmax Hfit Hne.
  assert (∀ v w, ∃ r, atomically (record_view h v) (set_world w n) = (r, set_world w n) ∧
    ∀ a, r ≠ Done a) as Hrec.
  { intros v w. unfold atomically, atomically_or_err. rewrite quiet.
    pose proof (λ r, record_view_mismatch (set_world w n) h v m x r Hmax Hfit Hne) as Hno.
    destruct (record_view h v (set_world w n)) as [r| | | |]; eauto.
    by destruct (Hno r). }
  unfold poll_next, mbind, io_bind. rewrite await_quiet.
  destruct (get_block_hash h (world n)).1 as [e|res].
  - case_match; [|by eauto 10]. edestruct Hrec as (r & -> & Hr).
    destruct r as [a| | | |]; [by destruct (Hr a)|..]; by eauto 10.
  - case_bool_decide; [by eauto 10|]. unfold fetch_data, mbind, io_bind. rewrite !await_quiet.
    destruct (get_validator_changes h _).1; [by eauto 10|].
    destruct (get_top_down_msgs h _).1; [by eauto 10|].
    repeat case_bool_decide; [by eauto 10..|]. unfold mret at 1, io_ret at 1.
    change (set_world ?w2 (set_world ?w1 (set_world ?w0 n))) with (set_world w2 n).
    edestruct Hrec as (r & -> & Hr). destruct r as [a| | | |]; [by destruct (Hr a)|..]; by eauto 10.
Qed.

(** After a reorganisation of the parent chain the syncer resets the
    provider to the committed finality but leaves the tally's chain as it is.  When
    blocks above that finality had been seen, no poll of the next height can
    succeed any more, whatever the parent answers: the tally expects the successor
    of the stale tip, and its refusal undoes the whole transaction. *)
Lemma reset_stalls tries n p f f' :
  provides n p f → (∀ k, chain (vote_tally n) !! k = chain_view p f k) →
  (get_latest_committed_finality (world n)).1 = inr (Some f') →
  0 < height f' < tip_of p f →
  ∃ n1, syncer_reset (S tries) n = (Done tt, n1) ∧
    ∀ hash, ∃ r n2, poll_next (height f' + 1) hash n1 = (r, n2) ∧ (∀ a, r ≠ Done a) ∧
      provider n2 = provider n1 ∧ vote_tally n2 = vote_tally n1.
Proof.
  intros Hp Hc Hled Hlt. destruct (chain_view_tip n p f Hp Hc) as [x Hmax].
  destruct Hp as ([cfg Hcfg] & Hinv & Hf & Hfit). pose proof (tip_of_fits p f Hinv Hfit).
  unfold syncer_reset. cbn [query_starting_finality]. unfold mbind, io_bind.
  rewrite await_quiet, Hled. rewrite bool_decide_eq_false_2 by lia. unfold mret, io_ret.
  unfold atomically, atomically_or_err, toggle_reset, cached_reset. rewrite quiet.
  rewrite (on_provider_inner _ _ (set_world _ n) p cfg Hcfg). simpl.
  eexists. split; [done|]. intros hash. eapply poll_next_mismatch; [done|done|lia].
Qed.
End stall.

(** ** Launch *)

Section launch.
Context `{Profile, Scheduler}.
Context `{!Quiet}.
Implicit Types (n : Node) (p : FinalityWithNull) (f : IPCParentFinality).

Lemma query_starting_finality_quiet tries n f :
  (get_latest_committed_finality (world n)).1 = inr (Some f) → 0 < height f →
  query_starting_finality (S tries) n =
    (Done f, set_world (get_latest_committed_finality (world n)).2 n).
Proof.
  intros Hled Hpos. cbn [query_starting_finality]. unfold mbind, io_bind.
  rewrite await_quiet, Hled. by rewrite bool_decide_eq_false_2 by lia.
Qed.

Lemma query_starting_comittee_quiet tries n pt :
  (get_power_table (world n)).1 = inr (Some pt) →
  query_starting_comittee (S tries) n =
    (Done pt, set_world (get_power_table (world n)).2 n).
Proof.
  intros Hpt. cbn [query_starting_comittee]. unfold mbind, io_bind. by rewrite await_quiet, Hpt.
Qed.

(** Starting the syncer on a fresh, enabled provider brings provider and
    tally into lockstep at the committed finality of the ledger and installs the
    current power table; a disabled provider is an error. *)
Lemma launch_lockstep tries n f' pt :
  (get_latest_committed_finality (world n)).1 = inr (Some f') →
  0 < height f' → height f' + 1 < u64_size →
  (∀ w, (get_power_table w).1 = inr (Some pt)) →
  chain (vote_tally n) = ∅ →
  match provider n with
  | Some (MkCached p _) => data (cached_data p) = [] → increment (cached_data p) = 1 →
      last_committed_finality p = None →
      ∃ n' p', launch_polling_syncer (S tries) n = (Done tt, n') ∧ provides n' p' f' ∧
        (∀ k, chain (vote_tally n') !! k = chain_view p' f' k) ∧ blocks p' = ∅ ∧
        power_table (vote_tally n') = from_iter pt
  | None => ∃ e, launch_polling_syncer (S tries) n = (Fail e, n)
  end.
Proof.
  intros Hled Hpos Hfit Hpt Hch. unfold launch_polling_syncer, mbind, io_bind, io_reads.
  destruct (provider n) as [[p cfg]|] eqn:Hcfg; [|by eexists]. intros Hd Hi Hnone.
  cbv beta iota. change (negb (is_enabled (Some (MkCached p cfg)))) with false. cbv beta iota.
  rewrite (query_starting_finality_quiet tries n f') by done.
  rewrite (query_starting_comittee_quiet tries _ pt) by done.
  unfold atomically, atomically_or_err. rewrite quiet.
  unfold toggle_set_new_finality, cached_set_new_finality, stm_bind.
  rewrite (on_provider_inner _ _ (set_world _ (set_world _ n)) p cfg Hcfg).
  rewrite set_new_finality_eq by (by right).
  set (p' := set_committed _ _). simpl. eexists _, p'. split; [done|].
  assert (data (cached_data p') = []) as Hd' by (simpl; by rewrite Hd).
  assert (blocks p' = ∅) as Hb by (unfold blocks, abs; by rewrite Hd').
  split_and!; [|intros k|done|done].
  - split_and!; [by exists cfg|by apply provider_inv_empty|done|done].
  - change (chain (finalize (height f') (block_hash f') (vote_tally n)) !! k = chain_view p' f' k).
    rewrite chain_finalize, Hch. unfold chain_view. rewrite Hb, !lookup_empty.
    by repeat case_bool_decide.
Qed.
End launch.

(** ** Concrete runs *)

Module SampleSync.
#[local] Existing Instance dev_profile.
#[local] Existing Instance sample_data.
#[local] Existing Instance SampleParent.proxy.
#[local] Existing Instance SampleParent.idle.
Import SampleParent.

#[export] Instance idle_quiet : Quiet := {| quiet n := eq_refl |}.
#[export] Instance idle_tasks : OtherTasks := {| others_run n := rtc_refl _ n |}.

Lemma msgs_of_fit h m : m ∈ msgs_of h → m + 1 < u64_size.
Proof.
  unfold msgs_of. case_match; [by intros ?%elem_of_nil|].
  intros ->%list_elem_of_singleton. pose proof (N.mod_lt h 1000 ltac:(done)). lia.
Qed.

#[export] Instance proxy_fits : ProxyFits.
Proof.
  split.
  - by intros w h [= <-].
  - intros h w r m. simpl. unfold answer, unless_null. simpl. case_match; [done|].
    intros [= <-]. simpl. apply msgs_of_fit.
  - intros h w r c. simpl. unfold answer, unless_null. simpl. case_match; [done|].
    intros [= <-]. simpl. by intros ?%elem_of_nil.
Qed.

#[export] Instance proxy_ready : LedgerReady.
Proof. split. intros w. by exists (Sample.fin 10 100). Qed.

Lemma prev_of_spec h :
  0 < h → is_null h = false →
  prev_of h ≤ h - 1 ∧ is_null (prev_of h) = false ∧
  ∀ k, prev_of h < k ≤ h - 1 → is_null k = true.
Proof.
  unfold prev_of. intros Hh Hn. destruct (is_null (h - 1)) eqn:Hp; cycle 1.
  { split; [done|]. split; [done|]. lia. }
  split; [lia|]. unfold is_null in *. apply bool_decide_eq_true in Hp as [Hp Hm].
  pose proof (N.Div0.div_mod (h - 1) 6) as Hd. rewrite Hm in Hd.
  set (q := (h - 1) / 6) in *. split.
  - apply bool_decide_eq_false_2. intros [_ Hm']. pose proof (N.Div0.div_mod (h - 2) 6) as Hd'.
    rewrite Hm' in Hd'. set (q' := (h - 2) / 6) in *. lia.
  - intros k Hk. assert (k = h - 1) as -> by lia. by apply bool_decide_eq_true_2.
Qed.

#[export] Instance honest : HonestParent block.
Proof.
  split.
  - intros h v w Hv Hh. unfold block in Hv. destruct (is_null h) eqn:Hn; [done|].
    injection Hv as <-. exists (hash_of (prev_of h)). split.
    { simpl. unfold answer, unless_null. by rewrite Hn. }
    destruct (prev_of_spec h Hh Hn) as (Hle & Hpn & Hnull). exists (prev_of h).
    split; [done|]. split; [unfold parent_view, block; by rewrite Hpn|].
    intros k Hk. unfold parent_view, block. by rewrite (Hnull k Hk).
  - intros h w Hv. unfold block in Hv. destruct (is_null h) eqn:Hn; [|done].
    exists null_round. split; [|by vm_compute]. simpl. unfold answer, unless_null. by rewrite Hn.
  - intros h v w Hv. unfold block in Hv. destruct (is_null h) eqn:Hn; [done|].
    injection Hv as <-. simpl. unfold answer, unless_null. by rewrite Hn.
  - intros h v w Hv. unfold block in Hv. destruct (is_null h) eqn:Hn; [done|].
    injection Hv as <-. simpl. unfold answer, unless_null. by rewrite Hn.
  - intros h. unfold block. destruct (is_null h) eqn:Hn; [done|]. split; split.
    + unfold msgs_of. simpl. rewrite Hn. intros [|i] x y; [done|]. by destruct i.
    + by intros i x y ?.
    + intros m. apply msgs_of_fit.
    + by intros c ?%elem_of_nil.
Qed.

Definition syncer : LotusParentSyncer := syncer_new (Config.new 5 1000 100 3).
Definition f10 : IPCParentFinality := Sample.fin 10 100.
Definition inner0 : FinalityWithNull := Finality.new (Config.new 5 1000 100 3) 0 (Some f10).

Lemma node0_tracks : tracks block node0 inner0 f10.
Proof.
  assert (provider_inv inner0) by (by apply provider_inv_empty). split.
  - split_and!; [by eexists|done|done|done].
  - intros k. change (({[10 := Some 100]} : gmap N (option N)) !! k = chain_view inner0 f10 k).
    unfold chain_view. destruct (decide (k = 10)) as [->|Hne]; [done|].
    rewrite lookup_singleton_ne by done. rewrite bool_decide_eq_false_2 by done.
    change (blocks inner0) with (∅ : gmap N (option ParentViewPayload)).
    rewrite lookup_empty. by case_bool_decide.
  - intros k Hk. change (10 ≤ k ≤ 10) in Hk. assert (k = 10) as -> by lia. by vm_compute.
Qed.

Lemma node0_lockstep : lockstep node0.
Proof. exists inner0, f10. split; apply node0_tracks. Qed.

(** A block and a null round above the committed finality have been seen. *)
Definition inner2 : FinalityWithNull :=
  MkProvider (Config.new 5 1000 100 3) 0 (MkCache 1 [(11, block 11); (12, None)]) (Some f10).
Definition node2 : Node :=
  MkNode (0%nat : World) (Some (MkCached inner2 (Config.new 5 1000 100 3)))
    (set_chain {[10 := Some 100; 11 := Some 110; 12 := None]}
      (Voting.new [(1, 10); (2, 10); (3, 10)] (10, 100))).

Lemma node2_provides : provides node2 inner2 f10.
Proof.
  split_and!; [by eexists| |done|done]. split.
  - apply (seq_cache_intro 11); [by repeat split|by repeat constructor].
  - intros lo [= <-]. by exists f10.
Qed.

Lemma node2_chain k : chain (vote_tally node2) !! k = chain_view inner2 f10 k.
Proof.
  change (({[10 := Some 100; 11 := Some 110; 12 := None]} : gmap N (option N)) !! k =
    chain_view inner2 f10 k).
  destruct (decide (k = 10)) as [->|]; [by vm_compute|].
  destruct (decide (k = 11)) as [->|]; [by vm_compute|].
  destruct (decide (k = 12)) as [->|]; [by vm_compute|].
  rewrite !lookup_insert_ne, lookup_singleton_ne by done.
  unfold chain_view. rewrite bool_decide_eq_false_2 by done. case_bool_decide; [done|].
  change (blocks inner2) with
    (<[11 := block 11]> (<[12 := None]> ∅) : gmap N (option ParentViewPayload)).
  by rewrite !lookup_insert_ne, lookup_empty by done.
Qed.

(** A node that has not started yet. *)
Definition fresh : Node :=
  MkNode (0%nat : World) (Some (cached_new (Config.new 5 1000 100 3) 0 None)) empty_tally.
End SampleSync.

Section witnesses.
#[local] Existing Instance dev_profile.
#[local] Existing Instance sample_data.
#[local] Existing Instance SampleParent.proxy.
#[local] Existing Instance SampleParent.idle.
Import SampleParent SampleSync.

Lemma commit_lockstep_witness :
  ∃ n' p', commit_tx (E:=Empty_set) (Sample.fin 12 120) (Some f10) node0 = Done (tt, n') ∧
    provides n' p' (Sample.fin 12 120) ∧
    (∀ k, chain (vote_tally n') !! k = chain_view p' (Sample.fin 12 120) k) ∧
    blocks p' = filter (λ b, 12 ≤ b.1) (blocks inner0).
Proof.
  apply (commit_lockstep node0 inner0 f10 (Sample.fin 12 120) (Some f10));
    [apply node0_tracks|apply node0_tracks|by right|done|done].
Defined.

Lemma sync_ends_witness :
  ∃ r n', sync syncer 1 node0 = (r, n') ∧ ends_well r ∧ (lockstep n' ∨ ∃ f, was_reset n' f).
Proof. apply (sync_ends syncer 0 node0). apply node0_lockstep. Defined.

Lemma sync_catches_up_witness :
  ∃ n' p', sync syncer 1 node0 = (Done tt, n') ∧ tracks block n' p' f10 ∧
    10 ≤ tip_of p' f10 ∧ got_far syncer 15 10 p' f10.
Proof.
  apply (sync_catches_up block syncer 1 node0 inner0 f10 20);
    [apply node0_tracks|done|done|done|done].
Defined.

Lemma reset_stalls_witness :
  ∃ n1, syncer_reset 1 node2 = (Done tt, n1) ∧
    ∀ hash, ∃ r n2, poll_next 11 hash n1 = (r, n2) ∧ (∀ a, r ≠ Done a) ∧
      provider n2 = provider n1 ∧ vote_tally n2 = vote_tally n1.
Proof.
  apply (reset_stalls 0 node2 inner2 f10 f10);
    [apply node2_provides|apply node2_chain|done|done].
Defined.

Lemma launch_lockstep_witness :
  ∃ n' p', launch_polling_syncer 1 fresh = (Done tt, n') ∧ provides n' p' f10 ∧
    (∀ k, chain (vote_tally n') !! k = chain_view p' f10 k) ∧ blocks p' = ∅ ∧
    power_table (vote_tally n') = from_iter [(1, 10); (2, 10); (3, 10)].
Proof.
  by apply (launch_lockstep 0 fresh f10 [(1, 10); (2, 10); (3, 10)]).
Defined.
End witnesses.

(** A node whose other tasks count the vote of a validator, and then change the powers. *)
Module SampleBusy.
#[local] Existing Instance dev_profile.
#[local] Existing Instance sample_data.
#[local] Existing Instance SampleParent.proxy.
Import SampleParent SampleSync.

Definition run_op (op : tally_op (K:=ValidatorKey) (V:=BlockHash) (Obj:=Object)) (n : Node) : Node :=
  match exec op (vote_tally n) with Some t => set_tally t n | None => n end.
Definition busy : Scheduler := {| others n := run_op (OpUpdatePower [(4, 7)]) (run_op (OpAddVote 2 11 110) n) |}.
#[local] Existing Instance busy.

Lemma run_op_step op n : voting_op op → rtc task_step n (run_op op n).
Proof. intros Hop. unfold run_op. destruct (exec op _) as [t|] eqn:He; [|done]. apply rtc_once. by eapply ts_votes. Qed.
#[export] Instance busy_tasks : OtherTasks.
Proof. split. intros n. etrans; by apply run_op_step. Qed.

Lemma poll_next_spec_witness :
  let '(r, n') := poll_next 11 100 node0 in
  r = Done 110 ∧ lockstep n' ∧ block_votes (vote_tally n') 11 110 = {[2]} ∧ power_table (vote_tally n') !! 4 = Some 7.
Proof.
  destruct (poll_next_spec node0 11 100) as (r & n' & Hr & Hn' & _); [apply node0_lockstep|done|].
  rewrite Hr. assert ((poll_next 11 100 node0).1 = Done 110 ∧ block_votes (vote_tally (poll_next 11 100 node0).2) 11 110 = {[2]} ∧
    power_table (vote_tally (poll_next 11 100 node0).2) !! 4 = Some 7) as Hc by by vm_compute.
  rewrite Hr in Hc. cbn [fst snd] in Hc. destruct Hc as (Hdone & Hvotes & Hpower). by split_and!.
Defined.
End SampleBusy.
