(* ===== verification/SubnetId.v ===== *)
(** * Subnet identifiers

    Models [SubnetID] of [ipc/api/src/subnet_id.rs]: the root network and the route of
    subnet actors below it, its text form, and the relations between subnets that
    cross-net routing uses.  Strings are ASCII. *)

From Stdlib Require Import Ascii.
From S2P Require Import Prelude.
#[local] Open Scope string_scope.
#[local] Open Scope N_scope.

(** ** Addresses

    [fvm_shared::address::Address], of which the code uses equality, the protocol,
    the text form and the constructor of ID addresses. *)

Inductive Protocol := ProtoID | Secp256k1 | Actor | BLS | Delegated.

Class AddressType := {
  Address : Type;
  Address_eq_dec :: EqDecision Address;
  addr_protocol : Address → Protocol;
  addr_new_id : N → Address;
  addr_to_string : Address → string;
  addr_from_str : string → string + Address
}.

Fixpoint occurs (c : Ascii.ascii) (s : string) : bool :=
  match s with
  | EmptyString => false
  | String a s => bool_decide (a = c) || occurs c s
  end.

Definition slash : Ascii.ascii := "/"%char.
Definition colon : Ascii.ascii := ":"%char.

(** The text form of an address is parsed back to it, and it is made of letters and
    digits. *)
Class AddressText `{AddressType} := {
  addr_roundtrip a : addr_from_str (addr_to_string a) = inr a;
  addr_no_slash a : occurs slash (addr_to_string a) = false;
  addr_no_colon a : occurs colon (addr_to_string a) = false
}.

(** ** Text helpers of the standard library *)

(** [str::split] with a character. *)
Fixpoint split (c : Ascii.ascii) (s : string) : list string :=
  match s with
  | EmptyString => [EmptyString]
  | String a s =>
      if bool_decide (a = c) then EmptyString :: split c s
      else
        match split c s with
        | x :: xs => String a x :: xs
        | [] => [String a EmptyString]
        end
  end.

(** [&s[1..]]. *)
Definition skip_first (s : string) : string :=
  match s with String _ s => s | EmptyString => EmptyString end.

Definition digit_of (a : Ascii.ascii) : option N :=
  let n := Ascii.N_of_ascii a in
  if bool_decide (48 ≤ n ≤ 57) then Some (n - 48) else None.

Fixpoint parse_digits (s : string) (v : N) : option N :=
  match s with
  | EmptyString => Some v
  | String a s =>
      match digit_of a with
      | Some d =>
          if bool_decide (v * 10 + d < u64_size) then parse_digits s (v * 10 + d) else None
      | None => None
      end
  end.

(** [str::parse::<u64>]: digits after an optional plus sign, at least one, without
    overflow. *)
Definition parse_u64 (s : string) : option N :=
  let s := match s with String "+"%char s => s | _ => s end in
  match s with EmptyString => None | _ => parse_digits s 0 end.

Definition digit_char (d : N) : Ascii.ascii := Ascii.ascii_of_N (48 + d).

(** The decimal form of a number; twenty digits are enough for 64 bits. *)
Fixpoint write_digits (fuel : nat) (n : N) (acc : string) : string :=
  match fuel with
  | O => acc
  | S fuel =>
      let acc := String (digit_char (n `mod` 10)) acc in
      if bool_decide (n / 10 = 0) then acc else write_digits fuel (n / 10) acc
  end.

Definition u64_to_string (n : N) : string := write_digits 20 n "".

(** ** The identifier *)

Inductive IdError :=
| InvalidID (id msg : string)
| InvalidIPCAddr
| FVMAddressError (msg : string).

Record SubnetID `{AddressType} := MkSubnet { root : N; children : list Address }.
Arguments MkSubnet {_} _ _.

#[export] Instance SubnetID_eq_dec `{AddressType} : EqDecision SubnetID.
Proof. solve_decision. Defined.

Definition MAX_CHAIN_ID : N := 4503599627370476.

Section subnet.
Context `{AddressType}.
Implicit Types (s : SubnetID) (a : Address).

Definition UNDEF : SubnetID := MkSubnet 0 [].
Definition new (root_id : N) (children : list Address) : SubnetID := MkSubnet root_id children.
Definition new_from_parent s a : SubnetID := MkSubnet (root s) (children s ++ [a]).
Definition new_root (root_id : N) : SubnetID := MkSubnet root_id [].
Definition is_root s : bool := bool_decide (children s = []).

(** [resolve] is the runtime's [resolve_address]. *)
Definition f0_id (resolve : Address → option Address) s : SubnetID :=
  new (root s)
    match last (children s) with
    | Some a =>
        match resolve a with
        | Some f0 => <[pred (length (children s)) := f0]> (children s)
        | None => children s
        end
    | None => children s
    end.

Definition subnet_actor s : Address :=
  match last (children s) with Some a => a | None => addr_new_id 0 end.

Definition parent s : option SubnetID :=
  match children s with
  | [] => None
  | _ => Some (new (root s) (take (length (children s) - 1) (children s)))
  end.

(** The length of the common prefix: [zip], [take_while] and [count]. *)
Fixpoint common (l1 l2 : list Address) : nat :=
  match l1, l2 with
  | x :: l1, y :: l2 => if bool_decide (x = y) then S (common l1 l2) else 0%nat
  | _, _ => 0%nat
  end.

Definition common_parent s other : option (nat * SubnetID) :=
  if bool_decide (root s ≠ root other) then None
  else
    let i := common (children s) (children other) in
    Some (i, new (root s) (take i (children s))).

(** [&v[..n]] panics when [n] is out of range. *)
Definition slice_to {E A} (n : nat) (l : list A) : outcome E (list A) :=
  if bool_decide (n ≤ length l)%nat then Done (take n l) else Panic.

Definition down {E} s from : outcome E (option SubnetID) :=
  if bool_decide (length (children s) ≤ length (children from))%nat then Done None
  else
    match common_parent s from with
    | Some (i, _) =>
        route ← slice_to (S i) (children s);
        Done (Some (new (root s) route))
    | None => Done None
    end.

(** The subtraction is on [usize]: below zero it panics, or it wraps around and the
    slice is out of range. *)
Definition up {E} s from : outcome E (option SubnetID) :=
  if bool_decide (length (children s) < length (children from))%nat then Done None
  else
    match common_parent s from with
    | Some (i, _) =>
        match i with
        | O => Panic
        | S i =>
            route ← slice_to i (children s);
            Done (Some (new (root s) route))
        end
    | None => Done None
    end.

(** [Display]: the fold over the children, then the root in front. *)
Definition to_string s : string :=
  "/r" +:+ u64_to_string (root s) +:+
    foldl (λ output a, output +:+ "/" +:+ addr_to_string a) "" (children s).

(** [fnv] is the FNV hash of the bytes of a string. *)
Definition chain_id (fnv : string → N) s : N :=
  if is_root s then root s else fnv (to_string s) `mod` MAX_CHAIN_ID.

Fixpoint parse_children (id : string) (segments : list string) (children : list Address)
    : outcome IdError (list Address) :=
  match segments with
  | [] => Done children
  | seg :: segments =>
      match addr_from_str seg with
      | inl e => Fail (InvalidID id ("invalid child address " +:+ seg +:+ ": " +:+ e))
      | inr a => parse_children id segments (children ++ [a])
      end
  end.

Definition from_str (id : string) : outcome IdError SubnetID :=
  if negb (String.prefix "/r" id) then Fail (InvalidID id "expected to start with '/r'")
  else
    match drop 1 (split slash id) with
    | [] => Panic
    | first :: segments =>
        match parse_u64 (skip_first first) with
        | None => Fail (InvalidID id "invalid root ID")
        | Some root =>
            children ← parse_children id segments [];
            Done (MkSubnet root children)
        end
    end.
End subnet.

(** ** Text *)

Section text.

Lemma string_app_cons a (s t : string) : String a s +:+ t = String a (s +:+ t).
Proof. done. Qed.

Lemma string_app_assoc (s1 s2 s3 : string) : (s1 +:+ s2) +:+ s3 = s1 +:+ (s2 +:+ s3).
Proof. induction s1 as [|a s1 IH]; [done|]. by rewrite !string_app_cons, IH. Qed.

Lemma string_app_nil_r (s : string) : s +:+ "" = s.
Proof. induction s as [|a s IH]; [done|]. by rewrite string_app_cons, IH. Qed.

Lemma occurs_app c s1 s2 : occurs c (s1 +:+ s2) = occurs c s1 || occurs c s2.
Proof.
  induction s1 as [|a s1 IH]; [done|].
  rewrite string_app_cons. cbn. by rewrite IH, orb_assoc.
Qed.

Lemma split_no_sep c s : occurs c s = false → split c s = [s].
Proof.
  induction s as [|a s IH]; [done|]. cbn. intros [Ha Hs]%orb_false_iff.
  rewrite Ha, IH by done. done.
Qed.

Lemma split_app_sep c s t : occurs c s = false → split c (s +:+ String c t) = s :: split c t.
Proof.
  induction s as [|a s IH].
  - intros _. change (EmptyString +:+ String c t) with (String c t). cbn.
    by rewrite bool_decide_eq_true_2.
  - rewrite string_app_cons. cbn. intros [Ha Hs]%orb_false_iff. by rewrite Ha, IH.
Qed.

Lemma digit_cases d (P : N → Prop) :
  P 0 → P 1 → P 2 → P 3 → P 4 → P 5 → P 6 → P 7 → P 8 → P 9 → d < 10 → P d.
Proof.
  intros. assert (d = 0 ∨ d = 1 ∨ d = 2 ∨ d = 3 ∨ d = 4 ∨ d = 5 ∨ d = 6 ∨ d = 7 ∨ d = 8 ∨ d = 9)
    as Hd by lia. by repeat destruct Hd as [-> |Hd]; subst.
Qed.

Lemma digit_char_spec d :
  d < 10 → digit_of (digit_char d) = Some d ∧ digit_char d ≠ slash ∧
    digit_char d ≠ colon ∧ digit_char d ≠ "+"%char.
Proof.
  intros Hd. pattern d. apply digit_cases; [by vm_compute; split_and!..|done].
Qed.

(** The digits of a number, parsed from an accumulated value on. *)
Lemma write_digits_parse fuel n acc :
  n < 10 ^ N.of_nat (S fuel) →
  ∃ k, ∀ v, v * 10 ^ k + n < u64_size →
    parse_digits (write_digits (S fuel) n acc) v = parse_digits acc (v * 10 ^ k + n).
Proof.
  revert n acc. induction fuel as [|fuel IH]; intros n acc Hn.
  all: pose proof (N.Div0.div_mod n 10) as Hdm; pose proof (N.mod_lt n 10 ltac:(done)) as Hm.
  all: pose proof (proj1 (digit_char_spec _ Hm)) as Hdigit.
  2: remember (S fuel) as fuel' eqn:Hf.
  all: cbn [write_digits]; set (q := n / 10) in *; set (r := n `mod` 10) in *; clearbody q r.
  - exists 1. intros v Hv. rewrite N.pow_1_r in *. change (10 ^ N.of_nat 1) with 10 in Hn.
    rewrite bool_decide_eq_true_2 by lia. cbn [parse_digits]. rewrite Hdigit.
    assert (r = n) as -> by lia. by rewrite bool_decide_eq_true_2.
  - case_bool_decide as Hz.
    + exists 1. intros v Hv. rewrite N.pow_1_r in *. cbn [parse_digits]. rewrite Hdigit.
      assert (r = n) as -> by lia. by rewrite bool_decide_eq_true_2.
    + subst fuel'. rewrite Nnat.Nat2N.inj_succ, N.pow_succ_r' in Hn.
      destruct (IH q (String (digit_char r) acc)) as [k Hk]; [lia|].
      exists (N.succ k). intros v Hv. rewrite N.pow_succ_r' in *.
      pose proof (N.le_0_l (v * 10 ^ k)).
      rewrite Hk by lia. cbn [parse_digits]. rewrite Hdigit.
      assert ((v * 10 ^ k + q) * 10 + r = v * (10 * 10 ^ k) + n) as -> by lia.
      by rewrite bool_decide_eq_true_2.
Qed.

Lemma write_digits_cons fuel n acc :
  ∃ d s, d < 10 ∧ write_digits (S fuel) n acc = String (digit_char d) s.
Proof.
  revert n acc. induction fuel as [|fuel IH]; intros n acc.
  - exists (n `mod` 10), acc. split; [by apply N.mod_lt|]. cbn. by case_bool_decide.
  - remember (S fuel) as fuel'. cbn [write_digits]. case_bool_decide; [|apply IH].
    exists (n `mod` 10), acc. split; [by apply N.mod_lt|done].
Qed.

Lemma write_digits_no_sep c fuel n acc :
  c = slash ∨ c = colon → occurs c acc = false → occurs c (write_digits fuel n acc) = false.
Proof.
  intros Hc. revert n acc. induction fuel as [|fuel IH]; intros n acc Hacc; [done|].
  cbn [write_digits]. pose proof (N.mod_lt n 10 ltac:(done)) as Hm.
  destruct (digit_char_spec _ Hm) as (_ & Hs & Hcol & _).
  assert (occurs c (String (digit_char (n `mod` 10)) acc) = false) as Hacc'.
  { cbn. rewrite Hacc, orb_false_r. apply bool_decide_eq_false_2. by destruct Hc as [-> | ->]. }
  case_bool_decide; [done|by apply IH].
Qed.

(** Decimal numbers are parsed back. *)
Lemma parse_u64_to_string n : n < u64_size → parse_u64 (u64_to_string n) = Some n.
Proof.
  intros Hn. unfold parse_u64, u64_to_string.
  destruct (write_digits_cons 19 n "") as (d & s & Hd & Hs).
  destruct (write_digits_parse 19 n "") as [k Hk].
  { change (n < 100000000000000000000). lia. }
  specialize (Hk 0 ltac:(lia)). cbn [parse_digits] in Hk. rewrite Hs in *.
  destruct (digit_char_spec d Hd) as (_ & _ & _ & Hplus).
  assert (match String (digit_char d) s with String "+"%char s => s | _ => String (digit_char d) s end
    = String (digit_char d) s) as ->.
  { pattern d. by apply digit_cases. }
  by rewrite Hk.
Qed.
End text.

(** ** Round trip *)

Section roundtrip.
Context `{AddressType, !AddressText}.
Implicit Types (s : SubnetID).

(** The route, written from the front. *)
Fixpoint route_string (l : list Address) : string :=
  match l with [] => "" | a :: l => "/" +:+ addr_to_string a +:+ route_string l end.

Lemma fold_route (l : list Address) acc :
  foldl (λ output a, output +:+ "/" +:+ addr_to_string a) acc l = acc +:+ route_string l.
Proof.
  revert acc. induction l as [|a l IH]; intros acc; simpl.
  - by rewrite string_app_nil_r.
  - rewrite IH, !string_app_assoc. done.
Qed.

Lemma split_route seg l :
  occurs slash seg = false →
  split slash (seg +:+ route_string l) = seg :: (addr_to_string <$> l).
Proof.
  revert seg. induction l as [|a l IH]; intros seg Hseg; simpl.
  - rewrite string_app_nil_r. by apply split_no_sep.
  - change ("/" +:+ addr_to_string a +:+ route_string l)
      with (String slash (addr_to_string a +:+ route_string l)).
    rewrite split_app_sep by done. f_equal. apply IH, addr_no_slash.
Qed.

Lemma parse_children_roundtrip id (l acc : list Address) :
  parse_children id (addr_to_string <$> l) acc = Done (acc ++ l)%list.
Proof.
  revert acc. induction l as [|a l IH]; intros acc; simpl; [by rewrite app_nil_r|].
  rewrite addr_roundtrip, IH. by rewrite <-app_assoc.
Qed.

Lemma to_string_split s :
  split slash (to_string s) =
  "" :: String "r"%char (u64_to_string (root s)) :: (addr_to_string <$> children s).
Proof.
  unfold to_string. rewrite fold_route.
  change ("/r" +:+ u64_to_string (root s) +:+ "" +:+ route_string (children s)) with
    ("" +:+ String slash (String "r"%char (u64_to_string (root s)) +:+ route_string (children s))).
  rewrite split_app_sep by done. f_equal. apply split_route. cbn [occurs].
  apply orb_false_iff. split; [done|]. apply write_digits_no_sep; [by left|done].
Qed.

Lemma from_str_to_string s : root s < u64_size → from_str (to_string s) = Done s.
Proof.
  intros Hs. unfold from_str. 
  assert (∀ t, String.prefix "/r" ("/r" +:+ t) = true) as Hpre by (by intros []).
  unfold to_string at 1. rewrite Hpre.
  rewrite to_string_split. cbn [negb drop skip_first].
  rewrite parse_u64_to_string by done. rewrite parse_children_roundtrip. by destruct s.
Qed.

(** The text form of a subnet identifier is parsed back to it,
    whatever the length of its route. *)
Lemma subnet_id_roundtrip s : root s < u64_size → from_str (to_string s) = Done s.
Proof. apply from_str_to_string. Qed.
End roundtrip.

(** ** Relations between subnets *)

Section routing.
Context `{AddressType}.
Implicit Types (s : SubnetID) (l : list Address).

(** [anc] is [s] or above it. *)
Definition above anc s : Prop := root anc = root s ∧ children anc `prefix_of` children s.

Lemma common_spec l1 l2 :
  (common l1 l2 ≤ length l1)%nat ∧ (common l1 l2 ≤ length l2)%nat ∧
  take (common l1 l2) l1 = take (common l1 l2) l2 ∧
  ∀ l, l `prefix_of` l1 → l `prefix_of` l2 → (length l ≤ common l1 l2)%nat.
Proof.
  revert l2. induction l1 as [|x l1 IH]; intros [|y l2]; simpl;
    [split_and!; try lia; try done; intros l Hl1 Hl2..|].
  1-3: apply prefix_length in Hl1; apply prefix_length in Hl2; simpl in *; lia.
  case_bool_decide as Hxy.
  - subst. destruct (IH l2) as (H1' & H2' & Ht & Hmax). split_and!; [lia..|simpl; by rewrite Ht|].
    intros [|z l] Hl1 Hl2; simpl; [lia|].
    apply prefix_cons_inv_2 in Hl1, Hl2. specialize (Hmax l Hl1 Hl2). lia.
  - split_and!; [lia..|done|]. intros [|z l] Hl1 Hl2; simpl; [lia|].
    apply prefix_cons_inv_1 in Hl1, Hl2. congruence.
Qed.

Lemma common_prefix l1 l2 : common l1 l2 = length l1 ↔ l1 `prefix_of` l2.
Proof.
  destruct (common_spec l1 l2) as (H1' & H2' & Ht & Hmax). split.
  - intros Hc. rewrite Hc, take_ge in Ht by lia. rewrite Ht. apply prefix_take.
  - intros Hp. specialize (Hmax l1 ltac:(done) Hp). lia.
Qed.

Lemma common_parent_greatest s other :
  match common_parent s other with
  | Some (i, p) => i = length (children p) ∧ above p s ∧ above p other ∧
      ∀ q, above q s → above q other → above q p
  | None => root s ≠ root other
  end.
Proof.
  unfold common_parent. case_bool_decide as Hr; [done|].
  destruct (common_spec (children s) (children other)) as (H1' & H2' & Ht & Hmax).
  split_and!; simpl.
  - rewrite length_take. lia.
  - split; [done|]. apply prefix_take.
  - split; [done|]. rewrite Ht. apply prefix_take.
  - intros q [Hq1 Hp1] [Hq2 Hp2]. split; [done|]. simpl.
    specialize (Hmax _ Hp1 Hp2). revert Hmax. generalize (common (children s) (children other)).
    intros i Hi. destruct Hp1 as [l ->]. rewrite take_app_ge by done. by apply prefix_app_r.
Qed.

(** Two subnets have a common parent exactly when they have the
    same root, and it is the lowest subnet above both; the number returned is the
    length of its route. *)
Lemma common_parent_spec s other :
  match common_parent s other with
  | Some (i, p) => i = length (children p) ∧ above p s ∧ above p other ∧
      ∀ q, above q s → above q other → above q p
  | None => root s ≠ root other
  end.
Proof. apply common_parent_greatest. Qed.

Lemma parent_new_from_parent s a : parent (new_from_parent s a) = Some s.
Proof.
  destruct s as [r l]. unfold parent, new_from_parent. simpl.
  destruct (l ++ [a])%list eqn:Hl; [by destruct l|]. rewrite <-Hl.
  rewrite length_app. simpl. rewrite Nat.add_sub. unfold new. by rewrite take_app_length.
Qed.

Lemma parent_None s : parent s = None ↔ is_root s = true.
Proof. unfold parent, is_root. rewrite bool_decide_eq_true. by destruct (children s). Qed.

Lemma parent_Some s p :
  parent s = Some p → root p = root s ∧ ∃ a, children s = (children p ++ [a])%list.
Proof.
  destruct s as [r l]. unfold parent, new. simpl.
  destruct l as [|x l _] using rev_ind; [done|].
  destruct (l ++ [x])%list eqn:Hl; [by destruct l|]. rewrite <-Hl.
  intros [= <-]. simpl. rewrite length_app. simpl. rewrite Nat.add_sub, take_app_length. eauto.
Qed.

(** The parent of a child is the subnet it was created under, the
    actor governing it is the one it was created with, and only root networks
    have no parent. *)
Lemma parent_child_spec s a :
  parent (new_from_parent s a) = Some s ∧ subnet_actor (new_from_parent s a) = a ∧
  (parent s = None ↔ is_root s = true) ∧
  (∀ p, parent s = Some p → new_from_parent p (subnet_actor s) = s).
Proof.
  split_and!.
  - apply parent_new_from_parent.
  - unfold subnet_actor, new_from_parent. simpl. by rewrite last_snoc.
  - apply parent_None.
  - intros p (Hr & x & Hl)%parent_Some. unfold subnet_actor, new_from_parent.
    destruct s as [r l], p as [r' l']. simpl in *. subst. by rewrite last_snoc.
Qed.

Lemma common_prefix_r l1 l2 : l2 `prefix_of` l1 → common l1 l2 = length l2.
Proof.
  intros Hp. destruct (common_spec l1 l2) as (_ & Hle & _ & Hmax).
  specialize (Hmax l2 Hp ltac:(done)). lia.
Qed.

Lemma common_parent_above s from :
  above from s → common_parent s from = Some (length (children from), from).
Proof.
  intros [Hr Hp]. unfold common_parent. rewrite bool_decide_eq_false_2 by congruence.
  rewrite common_prefix_r by done. destruct from as [r l], Hp as [l' Hl]. simpl in *.
  unfold new. by rewrite Hl, take_app_length, Hr.
Qed.

Lemma down_above {E} s from :
  above from s → from ≠ s →
  ∃ d, down (E:=E) s from = Done (Some d) ∧ parent d = Some from ∧ above d s.
Proof.
  intros Hab Hne. unfold down. rewrite common_parent_above by done.
  destruct s as [r l], from as [r' l'], Hab as [Hr [[|x k] Hl]]; simpl in *; subst.
  { destruct Hne. by rewrite app_nil_r. }
  rewrite length_app. simpl. rewrite bool_decide_eq_false_2 by lia. unfold slice_to.
  rewrite length_app. simpl. rewrite bool_decide_eq_true_2 by lia. simpl.
  exists (new_from_parent (MkSubnet r l') x). split; [|split; [apply parent_new_from_parent|]].
  - do 2 f_equal. unfold new, new_from_parent. simpl. f_equal.
    rewrite take_app_ge by lia. by replace (S (length l') - length l')%nat with 1%nat by lia.
  - split; [done|]. exists k. simpl. by rewrite <-app_assoc.
Qed.

(** [down] from a subnet above [s] is the next subnet on the way to [s],
    one level below; [up] from such a subnet is its parent.  [down] never panics,
    but [up] panics exactly when the routes have nothing in common although the
    path is long enough, in particular when it is asked to go up from the root
    network. *)
Lemma down_up_spec {E} s from :
  (above from s → from ≠ s →
    ∃ d, down (E:=E) s from = Done (Some d) ∧ parent d = Some from ∧ above d s) ∧
  (above from s → is_root from = false → up (E:=E) s from = Done (parent from)) ∧
  (down (E:=E) s from ≠ Panic) ∧
  (up (E:=E) s from = Panic ↔
    (length (children from) ≤ length (children s))%nat ∧
    common_parent s from = Some (0%nat, new_root (root s))).
Proof.
  destruct (common_spec (children s) (children from)) as (Hc1 & Hc2 & _ & _).
  split_and!.
  - apply down_above.
  - intros Hab Hroot. unfold up. rewrite common_parent_above by done.
    destruct s as [r l], from as [r' l'], Hab as [Hr [k Hl]]; simpl in *; subst.
    rewrite length_app. rewrite bool_decide_eq_false_2 by lia.
    destruct l' as [|x l']; [done|]. cbn [length]. unfold slice_to. rewrite length_app. cbn [length].
    rewrite bool_decide_eq_true_2 by lia. unfold parent, new. cbn [children root length].
    replace (S (length l') - 1)%nat with (length l') by lia.
    rewrite take_app_le by (simpl; lia). done.
  - unfold down, common_parent. repeat case_bool_decide; try done. unfold slice_to.
    by rewrite bool_decide_eq_true_2 by lia.
  - unfold up, common_parent. case_bool_decide; [split; [done|lia]|].
    case_bool_decide; [split; [done|naive_solver]|].
    destruct (common (children s) (children from)) as [|i] eqn:Hi.
    + split; [|done]. intros _. split; [lia|done].
    + unfold slice_to. rewrite bool_decide_eq_true_2 by lia. split; [done|]. intros [_ [=]].
Qed.
End routing.

(** ** Concrete identifiers *)

(** Two addresses. *)
Definition sample_addresses : AddressType := {|
  Address := bool;
  addr_protocol _ := ProtoID;
  addr_new_id _ := false;
  addr_to_string a := if a then "f01" else "f02";
  addr_from_str s :=
    if bool_decide (s = "f01") then inr true
    else if bool_decide (s = "f02") then inr false else inl "unknown"
|}.

Section witnesses.
#[local] Existing Instance sample_addresses.

Lemma sample_text : AddressText.
Proof. by split; intros []. Qed.

Lemma subnet_id_roundtrip_witness :
  let s := MkSubnet 31415926 [true; false] in
  to_string s = "/r31415926/f01/f02" ∧ from_str (to_string s) = Done s.
Proof.
  intros s. split; [by vm_compute|].
  by apply (subnet_id_roundtrip (H:=sample_addresses) (H0:=sample_text) s).
Defined.
End witnesses.
