(* ===== verification/Cross.v ===== *)
(** * Cross-net addresses and messages

    Models [ipc/api/src/address.rs] and [ipc/api/src/cross.rs]: addresses qualified with
    a subnet, their text form, cross-net messages and the decision whether a message
    travels up or down the hierarchy. *)

From Stdlib Require Import Ascii.
From S2P Require Import Prelude SubnetId.
#[local] Open Scope string_scope.
#[local] Open Scope N_scope.

Record IPCAddress `{AddressType} := MkIPCAddress { subnet_id : SubnetID; raw_address : Address }.
Arguments MkIPCAddress {_} _ _.

#[export] Instance IPCAddress_eq_dec `{AddressType} : EqDecision IPCAddress.
Proof. solve_decision. Defined.

Inductive IpcMsgKind := Transfer | Call | Receipt.

Inductive IPCMsgType := BottomUp | TopDown.
#[export] Instance IPCMsgType_eq_dec : EqDecision IPCMsgType.
Proof. solve_decision. Defined.

(** A [TokenAmount] is a number of atto tokens, the message a list of bytes. *)
Record IpcEnvelope `{AddressType} := MkEnvelope {
  kind : IpcMsgKind;
  to : IPCAddress;
  amount : Z;
  from : IPCAddress;
  message : list Byte.byte;
  nonce : N
}.
Arguments MkEnvelope {_} _ _ _ _ _ _.

Section cross.
Context `{AddressType}.
Implicit Types (s : SubnetID) (a : Address) (m : IpcEnvelope).

(** ** Addresses *)

Definition IPC_SEPARATOR_ADDR : Ascii.ascii := ":"%char.

Definition address_new s a : IPCAddress := MkIPCAddress s a.

Definition address_to_string (x : IPCAddress) : string :=
  to_string (subnet_id x) +:+ String IPC_SEPARATOR_ADDR "" +:+ addr_to_string (raw_address x).

Definition address_from_str (addr : string) : outcome IdError IPCAddress :=
  match split IPC_SEPARATOR_ADDR addr with
  | [r0; r1] =>
      match addr_from_str r1 with
      | inl e => Fail (FVMAddressError e)
      | inr raw => s ← from_str r0; Done (MkIPCAddress s raw)
      end
  | _ => Fail InvalidIPCAddr
  end.

Definition is_valid_contract_address a : bool :=
  match addr_protocol a with Delegated | Actor => true | _ => false end.

Definition is_valid_account_address a : bool :=
  match addr_protocol a with Delegated | BLS | Secp256k1 | ProtoID => true | _ => false end.

(** ** Messages *)

Definition no_parent : string := "error getting parent for subnet addr".

Definition new_release_msg s (from to : Address) (value : Z) : outcome string IpcEnvelope :=
  match parent s with
  | None => Fail no_parent
  | Some p =>
      Done (MkEnvelope Transfer (address_new p to) value (address_new s from) [] 0)
  end.

Definition new_fund_msg s (from to : Address) (value : Z) : outcome string IpcEnvelope :=
  match parent s with
  | None => Fail no_parent
  | Some p =>
      Done (MkEnvelope Transfer (address_new s to) value (address_new p from) [] 0)
  end.

Definition kind_try_from (value : N) : outcome string IpcMsgKind :=
  match value with
  | 0 => Done Transfer
  | 1 => Done Call
  | 2 => Done Receipt
  | _ => Fail "invalid ipc msg kind"
  end.

Definition is_bottomup (from to : SubnetID) : bool :=
  match common_parent from to with
  | Some (index, _) => bool_decide (index < length (children from))%nat
  | None => false
  end.

Definition ipc_type m : IPCMsgType :=
  if is_bottomup (subnet_id (from m)) (subnet_id (to m)) then BottomUp else TopDown.

Definition apply_type (curr : SubnetID) m : IPCMsgType :=
  let sto := subnet_id (to m) in
  let sfrom := subnet_id (from m) in
  if bool_decide (common_parent curr sto = common_parent sfrom sto) &&
     bool_decide (ipc_type m = BottomUp)
  then BottomUp else TopDown.
End cross.

(** ** Text form *)

Section address_text.
Context `{AddressType, !AddressText}.

Lemma route_no_colon l : occurs colon (route_string l) = false.
Proof.
  induction l as [|a l IH]; [done|]. cbn [route_string]. rewrite !occurs_app, IH.
  by rewrite addr_no_colon.
Qed.

Lemma to_string_no_colon (s : SubnetID) : occurs colon (to_string s) = false.
Proof.
  unfold to_string, u64_to_string. rewrite fold_route, !occurs_app, route_no_colon.
  rewrite (write_digits_no_sep colon) by (done || by right). done.
Qed.

(** The text form of an address qualified with a subnet is parsed
    back to it: the separator occurs in neither part. *)
Lemma ipc_address_roundtrip (x : IPCAddress) :
  root (subnet_id x) < u64_size → address_from_str (address_to_string x) = Done x.
Proof.
  intros Hr. unfold address_from_str, address_to_string.
  change (String IPC_SEPARATOR_ADDR "" +:+ addr_to_string (raw_address x))
    with (String colon (addr_to_string (raw_address x))).
  rewrite (split_app_sep colon) by apply to_string_no_colon.
  rewrite split_no_sep by apply addr_no_colon.
  rewrite addr_roundtrip, from_str_to_string by done. by destruct x.
Qed.
End address_text.

(** ** Direction *)

Section direction.
Context `{AddressType}.
Implicit Types (s c : SubnetID).

Lemma above_refl s : above s s.
Proof. by split. Qed.

Lemma above_trans s1 s2 s3 : above s1 s2 → above s2 s3 → above s1 s3.
Proof. intros [Hr1 ?] [Hr2 ?]. split; [congruence|by etrans]. Qed.

Lemma above_antisym s1 s2 : above s1 s2 → above s2 s1 → s1 = s2.
Proof.
  destruct s1 as [r1 l1], s2 as [r2 l2]. intros [? Hp1] [? Hp2]; simpl in *. subst. f_equal.
  apply prefix_length_eq; [done|]. by apply prefix_length.
Qed.

(** The common parent of [common_parent] is the lowest subnet above both. *)
Definition meet c s1 s2 : Prop :=
  above c s1 ∧ above c s2 ∧ ∀ q, above q s1 → above q s2 → above q c.

Lemma common_parent_meet s1 s2 c :
  common_parent s1 s2 = Some (length (children c), c) ↔ meet c s1 s2.
Proof.
  assert (∀ c', common_parent s1 s2 = Some (length (children c'), c') → meet c' s1 s2) as Hm.
  { intros c' Hc. pose proof (common_parent_greatest s1 s2) as Hs. rewrite Hc in Hs.
    by destruct Hs as (_ & ? & ? & ?). }
  split; [apply Hm|]. intros (Ha1 & Ha2 & Hmax).
  pose proof (common_parent_greatest s1 s2) as Hs.
  destruct (common_parent s1 s2) as [[i c']|].
  - destruct Hs as (-> & Hc1 & Hc2 & Hmax').
    by rewrite (above_antisym c c') by auto.
  - destruct Hs. destruct Ha1, Ha2. congruence.
Qed.

Lemma is_bottomup_eq from to :
  is_bottomup from to = true ↔ root from = root to ∧ ¬ above from to.
Proof.
  unfold is_bottomup, common_parent, above. case_bool_decide as Hr; [naive_solver|].
  rewrite bool_decide_eq_true.
  destruct (common_spec (children from) (children to)) as (Hle & _).
  pose proof (common_prefix (children from) (children to)) as Hp. split.
  - intros Hlt. split; [done|]. intros [_ ?%Hp]. lia.
  - intros [_ Hn]. destruct (decide (common (children from) (children to) =
      length (children from))) as [Heq|]; [|lia]. destruct Hn. split; [done|]. by apply Hp.
Qed.

(** A message travels up exactly when it stays under one root and its
    destination is not in the subtree of its origin.  Funds sent into a subnet go
    down, funds released from it go up, and neither can be made for a root network. *)
Lemma ipc_type_spec (m : IpcEnvelope) s a b v :
  (ipc_type m = BottomUp ↔
    root (subnet_id (from m)) = root (subnet_id (to m)) ∧
    ¬ above (subnet_id (from m)) (subnet_id (to m))) ∧
  match new_fund_msg s a b v with
  | Done f => ipc_type f = TopDown ∧ amount f = v ∧ parent s = Some (subnet_id (from f)) ∧
      subnet_id (to f) = s
  | Fail _ => is_root s = true
  | _ => False
  end ∧
  match new_release_msg s a b v with
  | Done r => ipc_type r = BottomUp ∧ amount r = v ∧ parent s = Some (subnet_id (to r)) ∧
      subnet_id (from r) = s
  | Fail _ => is_root s = true
  | _ => False
  end.
Proof.
  split.
  { unfold ipc_type. rewrite <-is_bottomup_eq. by destruct (is_bottomup _ _). }
  unfold new_fund_msg, new_release_msg. destruct (parent s) as [p|] eqn:Hp; cycle 1.
  { split; by apply parent_None. }
  apply parent_Some in Hp as [Hp [x Hs]].
  assert (is_bottomup p s = false) as Hdown.
  { apply not_true_iff_false. rewrite is_bottomup_eq. intros [_ []]. split; [done|].
    exists [x]. done. }
  assert (is_bottomup s p = true) as Hup.
  { apply is_bottomup_eq. split; [done|]. intros [_ Hpre%prefix_length].
    rewrite Hs, length_app in Hpre. simpl in Hpre. lia. }
  unfold ipc_type. simpl. by rewrite Hdown, Hup.
Qed.

(** On the way of a message that travels up, from its origin to the
    lowest subnet [c] above origin and destination, every subnet applies it as
    bottom-up, [c] included; below [c], towards the destination, it is applied as
    top-down. *)
Lemma apply_type_spec (m : IpcEnvelope) c curr :
  meet c (subnet_id (from m)) (subnet_id (to m)) →
  (above c curr → above curr (subnet_id (from m)) → ipc_type m = BottomUp →
    apply_type curr m = BottomUp) ∧
  (above c curr → curr ≠ c → above curr (subnet_id (to m)) → apply_type curr m = TopDown).
Proof.
  intros Hc. apply common_parent_meet in Hc as Hcp. destruct Hc as (Hc1 & Hc2 & Hmax).
  unfold apply_type. rewrite Hcp. split.
  - intros Ha Hb ->. rewrite (proj2 (common_parent_meet curr _ c)).
    + by rewrite !bool_decide_eq_true_2.
    + split_and!; [done|done|]. intros q Hq1 Hq2. apply Hmax; [by apply (above_trans q curr)|done].
  - intros Ha Hne Hb. rewrite (proj2 (common_parent_meet curr _ curr)).
    + rewrite bool_decide_eq_false_2; [done|]. intros ?. by simplify_eq.
    + split_and!; [apply above_refl|done|]. by intros q.
Qed.
End direction.

(** ** Concrete addresses and messages *)

Section witnesses.
#[local] Existing Instance sample_addresses.

Lemma ipc_address_roundtrip_witness :
  let x := MkIPCAddress (MkSubnet 123 [true]) false in
  address_to_string x = "/r123/f01:f02" ∧ address_from_str (address_to_string x) = Done x.
Proof.
  intros x. split; [by vm_compute|].
  by apply (ipc_address_roundtrip (H:=sample_addresses) (H0:=sample_text) x).
Defined.

(** From "/r123/f01/f02" to "/r123/f02", seen from "/r123/f01" and "/r123/f02". *)
Lemma apply_type_spec_witness :
  let m := MkEnvelope Transfer (MkIPCAddress (MkSubnet 123 [false]) true) 5
             (MkIPCAddress (MkSubnet 123 [true; false]) true) [] 0 in
  apply_type (MkSubnet 123 [true]) m = BottomUp ∧ apply_type (MkSubnet 123 [false]) m = TopDown.
Proof.
  intros m.
  assert (meet (MkSubnet 123 []) (subnet_id (from m)) (subnet_id (to m))) as Hm
    by (by apply common_parent_meet; vm_compute).
  split; [apply (apply_type_spec m _ _ Hm)|apply (apply_type_spec m _ _ Hm)].
  - split; [done|]. by exists [true].
  - split; [done|]. by exists [false].
  - by vm_compute.
  - split; [done|]. by exists [false].
  - done.
  - apply above_refl.
Defined.
End witnesses.
