(* ===== verification/Pool.v ===== *)
(** * Resolution pools

    Models [ResolvePool] of [fendermint/vm/resolver/src/pool.rs] and of
    [fendermint/vm/ipfs_resolver/src/pool.rs], and the background resolvers that work on
    their queues ([resolver/src/ipld.rs], [ipfs_resolver/src/ipfs.rs]).

    A [ResolveStatus] is a bundle of transactional variables that the pool shares with
    the task it has queued, so the variables live in a store of cells: a status is the
    index of its cell.  The two pools differ in the flag a status carries: whether to
    ask the own subnet too, or nothing; the model is generic in it. *)

From S2P Require Import Prelude.

Section pool.
Context (Flag : Type) (merge : Flag → Flag → Flag).
Context (T K : Type) `{Countable T, Countable K} (key_of : T → K).

(** The variables of one [ResolveStatus]. *)
Record Cell := MkCell { is_resolved : bool; use_own_subnet : Flag; cell_items : gset T }.

Record ResolveTask := MkTask { task_key : K; task_cell : nat }.

Record ResolvePool := MkPool {
  cells : list Cell;
  items : gmap K nat;
  queue : list ResolveTask
}.

Definition set_cells c (p : ResolvePool) : ResolvePool := MkPool c (items p) (queue p).
Definition set_items i (p : ResolvePool) : ResolvePool := MkPool (cells p) i (queue p).
Definition set_queue q (p : ResolvePool) : ResolvePool := MkPool (cells p) (items p) q.

Definition pool_new : ResolvePool := MkPool [] ∅ [].

Definition status_new (item : T) (flag : Flag) : Cell := MkCell false flag {[item]}.

(** Read and update the variables of a status. *)
Definition cell_at {E} (i : nat) : stm ResolvePool E Cell :=
  cs ← reads cells;
  lift (unwrap (cs !! i)).
Definition update_cell {E} (i : nat) (f : Cell → Cell) : stm ResolvePool E unit :=
  modify (λ p, set_cells (alter f i (cells p)) p).

Definition status_is_resolved {E} (i : nat) : stm ResolvePool E bool :=
  c ← cell_at i;
  mret (is_resolved c).

Definition task_set_resolved {E} (t : ResolveTask) : stm ResolvePool E unit :=
  update_cell (task_cell t) (λ c, MkCell true (use_own_subnet c) (cell_items c)).

Definition task_use_own_subnet {E} (t : ResolveTask) : stm ResolvePool E Flag :=
  c ← cell_at (task_cell t);
  mret (use_own_subnet c).

(** [TChan::write] and [TChan::read]: first in, first out; reading blocks. *)
Definition queue_write {E} (t : ResolveTask) : stm ResolvePool E unit :=
  modify (λ p, set_queue (queue p ++ [t]) p).
Definition queue_read {E} : stm ResolvePool E ResolveTask :=
  q ← reads queue;
  match q with
  | [] => retry
  | t :: q => modify (set_queue q) ;; mret t
  end.

Definition add {E} (item : T) (flag : Flag) : stm ResolvePool E nat :=
  let key := key_of item in
  its ← reads items;
  match its !! key with
  | Some i =>
      update_cell i (λ c, MkCell (is_resolved c) (merge (use_own_subnet c) flag) (cell_items c)) ;;
      update_cell i (λ c, MkCell (is_resolved c) (use_own_subnet c) ({[item]} ∪ cell_items c)) ;;
      mret i
  | None =>
      cs ← reads cells;
      let i := length cs in
      modify (set_cells (cs ++ [status_new item flag])) ;;
      modify (set_items (<[key := i]> its)) ;;
      queue_write (MkTask key i) ;;
      mret i
  end.

Definition get_status {E} (item : T) : stm ResolvePool E (option nat) :=
  its ← reads items;
  mret (its !! key_of item).

(** The loop of [collect_resolved] over the statuses of the pool. *)
Fixpoint collect_loop {E} (l : list nat) (resolved : gset T) : stm ResolvePool E (gset T) :=
  match l with
  | [] => mret resolved
  | i :: l =>
      done ← status_is_resolved i;
      if (done : bool) then
        c ← cell_at i;
        collect_loop l (resolved ∪ cell_items c)
      else collect_loop l resolved
  end.

Definition collect_resolved {E} : stm ResolvePool E (gset T) :=
  its ← reads items;
  collect_loop (snd <$> map_to_list its) ∅.

Definition next {E} : stm ResolvePool E ResolveTask := queue_read.

(** Only the pool of objects can count and forget items. *)
Definition count {E} : stm ResolvePool E N :=
  its ← reads items;
  mret (N.of_nat (size its)).

Definition remove {E} (item : T) : stm ResolvePool E (option nat) :=
  its ← reads items;
  let key := key_of item in
  modify (set_items (delete key its)) ;;
  mret (its !! key).

(** ** The background resolvers *)

(** The transaction at the head of [IpldResolver::run]. *)
Definition take_task {E} : stm ResolvePool E (ResolveTask * Flag) :=
  t ← queue_read;
  flag ← task_use_own_subnet t;
  mret (t, flag).

(** What comes of a task. *)
Inductive resolution := Resolved | RetryLater | ServiceGone.

(** [start_resolve] of the IPLD resolver: the answers of the two subnets, where the
    outer error means that the service does not listen any more. *)
Definition ipld_resolution (theirs : string + (string + unit))
    (own : option (string + (string + unit))) : resolution :=
  match theirs, own with
  | inl _, _ => ServiceGone
  | inr (inr tt), _ => Resolved
  | _, Some (inr (inr tt)) => Resolved
  | inr (inl _), _ => RetryLater
  end.

(** [start_resolve] of the IPFS resolver. *)
Definition ipfs_resolution (res : string + (string + unit)) : resolution :=
  match res with
  | inl _ => ServiceGone
  | inr (inr tt) => Resolved
  | inr (inl _) => RetryLater
  end.

(** The transaction that ends a task, [schedule_retry] included. *)
Definition finish_task {E} (t : ResolveTask) (r : resolution) : stm ResolvePool E unit :=
  match r with
  | Resolved => task_set_resolved t
  | RetryLater => queue_write t
  | ServiceGone => mret tt
  end.
End pool.
Arguments MkCell {Flag T _ _} _ _ _.
Arguments is_resolved {Flag T _ _} _.
Arguments use_own_subnet {Flag T _ _} _.
Arguments cell_items {Flag T _ _} _.
Arguments MkTask {K} _ _.
Arguments task_key {K} _.
Arguments task_cell {K} _.
Arguments MkPool {Flag T K _ _ _ _} _ _ _.
Arguments cells {Flag T K _ _ _ _} _.
Arguments items {Flag T K _ _ _ _} _.
Arguments queue {Flag T K _ _ _ _} _.
Arguments pool_new {Flag T K _ _ _ _}.
Arguments status_new {Flag T _ _} _ _.
Arguments cell_at {Flag T K _ _ _ _ E} _ _.
Arguments update_cell {Flag T K _ _ _ _ E} _ _ _.
Arguments set_cells {Flag T K _ _ _ _} _ _.
Arguments set_items {Flag T K _ _ _ _} _ _.
Arguments set_queue {Flag T K _ _ _ _} _ _.
Arguments status_is_resolved {Flag T K _ _ _ _ E} _ _.
Arguments task_set_resolved {Flag T K _ _ _ _ E} _ _.
Arguments task_use_own_subnet {Flag T K _ _ _ _ E} _ _.
Arguments queue_write {Flag T K _ _ _ _ E} _ _.
Arguments queue_read {Flag T K _ _ _ _ E} _.
Arguments add {Flag} merge {T K _ _ _ _} key_of {E} _ _ _.
Arguments get_status {Flag T K _ _ _ _} key_of {E} _ _.
Arguments collect_loop {Flag T K _ _ _ _ E} _ _ _.
Arguments collect_resolved {Flag T K _ _ _ _ E} _.
Arguments next {Flag T K _ _ _ _ E} _.
Arguments count {Flag T K _ _ _ _ E} _.
Arguments remove {Flag T K _ _ _ _} key_of {E} _ _.
Arguments take_task {Flag T K _ _ _ _ E} _.
Arguments finish_task {Flag T K _ _ _ _ E} _ _ _.

(** The two pools. *)
Definition resolver_add `{Countable T, Countable K} (key_of : T → K) {E} (item : T) (own : bool)
    : stm (ResolvePool bool T K) E nat := add orb key_of item own.
Definition ipfs_add `{Countable T, Countable K} (key_of : T → K) {E} (item : T)
    : stm (ResolvePool unit T K) E nat := add (λ _ _, tt) key_of item tt.

(** ** Nothing is lost

    The pool together with the tasks the background resolver is working on. *)

Section system.
Context {Flag : Type} (merge : Flag → Flag → Flag).
Context `{Countable T, Countable K} (key_of : T → K).
Abbreviation pool := (ResolvePool Flag T K).
Abbreviation task := (ResolveTask K).
Implicit Types (p : pool) (t : task) (fl : list task).

Inductive pool_step : pool * list task → pool * list task → Prop :=
| StepAdd item flag p i p' fl :
    add merge key_of (E:=Empty_set) item flag p = Done (i, p') → pool_step (p, fl) (p', fl)
| StepRemove item p i p' fl :
    remove key_of (E:=Empty_set) item p = Done (i, p') → pool_step (p, fl) (p', fl)
| StepTake p t flag p' fl :
    take_task (E:=Empty_set) p = Done ((t, flag), p') → pool_step (p, fl) (p', t :: fl)
| StepFinish p t r p' l1 l2 :
    r ≠ ServiceGone → finish_task (E:=Empty_set) t r p = Done (tt, p') →
    pool_step (p, l1 ++ t :: l2) (p', l1 ++ l2).

Record pool_inv p fl : Prop := {
  pool_cells k i : items p !! k = Some i →
    ∃ c, cells p !! i = Some c ∧ cell_items c ≠ ∅ ∧ ∀ x, x ∈ cell_items c → key_of x = k;
  pool_injective k1 k2 i : items p !! k1 = Some i → items p !! k2 = Some i → k1 = k2;
  pool_tasks t : t ∈ queue p ++ fl → (task_cell t < length (cells p))%nat;
  pool_pending k i c : items p !! k = Some i → cells p !! i = Some c →
    is_resolved c = false → MkTask k i ∈ queue p ++ fl
}.

Lemma pool_inv_alter p fl i (f : Cell Flag T → Cell Flag T) :
  pool_inv p fl →
  (∀ k c, items p !! k = Some i → cells p !! i = Some c → cell_items c ≠ ∅ →
    (∀ x, x ∈ cell_items c → key_of x = k) →
    cell_items (f c) ≠ ∅ ∧ (∀ x, x ∈ cell_items (f c) → key_of x = k) ∧
    (is_resolved (f c) = false → is_resolved c = false)) →
  pool_inv (set_cells (alter f i (cells p)) p) fl.
Proof.
  intros [Hc Hi Ht Hp] Hf. split; simpl.
  - intros k j Hk. destruct (Hc k j Hk) as (c & Hcj & Hne & Hkey).
    destruct (decide (j = i)) as [->|Hij].
    + destruct (Hf k c Hk Hcj Hne Hkey) as (? & ? & _). exists (f c).
      rewrite list_lookup_alter_eq, Hcj. done.
    + exists c. by rewrite list_lookup_alter_ne by done.
  - done.
  - intros t Hin. rewrite length_alter. by apply Ht.
  - intros k j c Hk Hcj Hres. destruct (decide (j = i)) as [->|Hij].
    + rewrite list_lookup_alter_eq in Hcj. apply fmap_Some in Hcj as (c0 & Hcj & ->).
      destruct (Hc k i Hk) as (c1 & Hc1 & Hne & Hkey). assert (c1 = c0) as -> by congruence.
      destruct (Hf k c0 Hk Hcj Hne Hkey) as (_ & _ & Hr). eauto.
    + rewrite list_lookup_alter_ne in Hcj by done. eauto.
Qed.

Lemma pool_inv_new p fl item flag :
  pool_inv p fl → items p !! key_of item = None →
  pool_inv (MkPool (cells p ++ [status_new item flag])
    (<[key_of item := length (cells p)]> (items p))
    (queue p ++ [MkTask (key_of item) (length (cells p))])) fl.
Proof.
  intros [Hc Hi Ht Hp] Hnone.
  assert (∀ k i, items p !! k = Some i → (i < length (cells p))%nat) as Hlt.
  { intros k i (c & Hci & _)%Hc. by eapply lookup_lt_Some. }
  split; simpl.
  - intros k i. rewrite lookup_insert. case_decide as Hk.
    + intros [= <-]. eexists. rewrite lookup_app_r, Nat.sub_diag by lia. split; [done|].
      split; [simpl; set_solver|]. simpl. intros x Hx%elem_of_singleton. by subst.
    + intros Hki. destruct (Hc k i Hki) as (c & Hci & ?). exists c.
      rewrite lookup_app_l by eauto. done.
  - intros k1 k2 i. rewrite !lookup_insert. repeat case_decide; subst; [done|..].
    + intros [= <-] ?%Hlt. lia.
    + intros ?%Hlt [= <-]. lia.
    + apply Hi.
  - intros t. rewrite length_app, !elem_of_app, list_elem_of_singleton. simpl.
    intros [[Hin| ->]|Hin]; [|simpl; lia|];
      (assert (task_cell t < length (cells p))%nat by (apply Ht; set_solver); lia).
  - intros k i c. rewrite lookup_insert. case_decide as Hk.
    + intros [= <-] _ _. subst. set_solver.
    + intros Hki Hci Hres. rewrite lookup_app_l in Hci by eauto.
      specialize (Hp k i c Hki Hci Hres). set_solver.
Qed.

Lemma pool_inv_queue p fl q fl' :
  pool_inv p fl → (∀ t, t ∈ queue p ++ fl ↔ t ∈ q ++ fl') → pool_inv (set_queue q p) fl'.
Proof.
  intros [Hc Hi Ht Hp] Hq. split; simpl; [done|done| |].
  - intros t Hin. by apply Ht, Hq.
  - intros k i c ???. apply Hq. eauto.
Qed.

Lemma pool_inv_add p fl item flag i p' :
  pool_inv p fl → add merge key_of (E:=Empty_set) item flag p = Done (i, p') → pool_inv p' fl.
Proof.
  intros Hinv. unfold add. stm_unfold. destruct (items p !! key_of item) as [j|] eqn:Hk.
  - unfold update_cell. stm_unfold. intros [= <- <-].
    apply (pool_inv_alter (set_cells _ p)); [apply pool_inv_alter; [done|]|].
    + intros k c ????. done.
    + intros k c Hk' ? Hne Hkey. simpl in Hk'.
      assert (k = key_of item) as -> by (eapply pool_injective; eauto).
      split; [set_solver|]. split; [|done]. simpl. set_solver.
  - unfold queue_write. stm_unfold. intros [= <- <-]. simpl. by apply pool_inv_new.
Qed.

Lemma pool_inv_take p fl t flag p' :
  pool_inv p fl → take_task (E:=Empty_set) p = Done ((t, flag), p') → pool_inv p' (t :: fl).
Proof.
  intros Hinv. unfold take_task, queue_read, task_use_own_subnet, cell_at. stm_unfold.
  destruct (queue p) as [|t' q] eqn:Hq; [done|]. simpl.
  destruct (cells p !! task_cell t') as [c|]; [|done]. simpl. intros [= -> _ <-].
  apply (pool_inv_queue p fl); [done|]. rewrite Hq. set_solver.
Qed.

Lemma pool_inv_finish p t r p' l1 l2 :
  pool_inv p (l1 ++ t :: l2) → r ≠ ServiceGone →
  finish_task (E:=Empty_set) t r p = Done (tt, p') → pool_inv p' (l1 ++ l2).
Proof.
  intros Hinv Hr. destruct r; [| |done]; intros [= <-].
  - destruct (Hinv) as [Hc Hi Ht Hp].
    destruct (pool_inv_alter p (l1 ++ t :: l2) (task_cell t)
      (λ c, MkCell true (use_own_subnet c) (cell_items c)) Hinv) as [Hc' Hi' Ht' Hp']; [done|].
    split; [done|done| |].
    + intros t' Hin. apply Ht'. simpl in *. set_solver.
    + intros k i c Hk Hci Hres. specialize (Hp' k i c Hk Hci Hres). simpl in *.
      destruct (decide (i = task_cell t)) as [->|Hne]; [|set_solver by naive_solver].
      rewrite list_lookup_alter_eq in Hci. apply fmap_Some in Hci as (c0 & _ & ->). done.
  - apply (pool_inv_queue p (l1 ++ t :: l2)); [done|]. set_solver.
Qed.

Lemma pool_inv_step p fl p' fl' :
  pool_inv p fl → pool_step (p, fl) (p', fl') → pool_inv p' fl'.
Proof.
  intros Hinv Hstep. inv Hstep.
  - by eapply pool_inv_add.
  - unfold remove in *. inv_done. destruct Hinv as [Hc Hi Ht Hp].
    split; simpl; try setoid_rewrite lookup_delete_Some; naive_solver.
  - by eapply pool_inv_take.
  - by eapply pool_inv_finish.
Qed.

Lemma pool_inv_steps p fl : rtc pool_step (pool_new, []) (p, fl) → pool_inv p fl.
Proof.
  intros Hr. remember (pool_new, []) as s0 eqn:Hs. remember (p, fl) as s eqn:Hs'.
  assert (pool_inv s0.1 s0.2) as Hinv.
  { subst s0. split; simpl; [intros k i|intros k1 k2 i|intros t|intros k i c];
      rewrite ?lookup_empty, ?elem_of_nil; done. }
  assert (pool_inv s.1 s.2) as Hinv'.
  { clear Hs Hs'. induction Hr as [|[p1 f1] [p2 f2] s Hstep _ IH]; [done|].
    apply IH. by eapply pool_inv_step. }
  by subst s.
Qed.

(** C31: however items are added and removed and tasks are taken, done
    and retried, as long as the resolution service listens no item waits in vain:
    the task of every key that is not resolved is in the queue or being worked on,
    and taking a task never fails. *)
Theorem no_resolution_lost p fl :
  rtc pool_step (pool_new, []) (p, fl) →
  (∀ item i c, get_status key_of (E:=Empty_set) item p = Done (Some i, p) →
    cells p !! i = Some c → is_resolved c = false →
    MkTask (key_of item) i ∈ queue p ++ fl) ∧
  (queue p ≠ [] → ∃ t flag p', take_task (E:=Empty_set) p = Done ((t, flag), p')).
Proof.
  intros Hinv%pool_inv_steps. split.
  - intros item i c Hs. unfold get_status in Hs. revert Hs. stm_unfold. intros [= Hs].
    by eapply pool_pending.
  - intros Hq. unfold take_task, queue_read, task_use_own_subnet, cell_at. stm_unfold.
    destruct (queue p) as [|t q] eqn:Hqueue; [done|].
    assert (task_cell t < length (cells p))%nat as Hlt.
    { apply (pool_tasks _ _ Hinv). rewrite Hqueue. set_solver. }
    simpl. destruct (lookup_lt_is_Some_2 _ _ Hlt) as [c ->]. simpl. eauto.
Qed.

Lemma collect_loop_eq {E} p l acc :
  (∀ i, i ∈ l → is_Some (cells p !! i)) →
  ∃ r, collect_loop (E:=E) l acc p = Done (r, p) ∧
    ∀ x, x ∈ r ↔ x ∈ acc ∨
      ∃ i c, i ∈ l ∧ cells p !! i = Some c ∧ is_resolved c = true ∧ x ∈ cell_items c.
Proof.
  revert acc. induction l as [|i l IH]; intros acc Hl.
  { exists acc. split; [done|]. intros x. split; [by left|]. intros [?|(i & c & Hi & _)]; [done|].
    by apply elem_of_nil in Hi. }
  destruct (Hl i ltac:(set_solver)) as [c Hc].
  cbn [collect_loop]. unfold status_is_resolved, cell_at. stm_unfold. rewrite Hc. simpl.
  destruct (is_resolved c) eqn:Hr.
  - rewrite Hc. simpl. destruct (IH (acc ∪ cell_items c) ltac:(set_solver)) as (r & Hr' & Hx).
    exists r. split; [done|]. intros x. rewrite Hx, elem_of_union. split.
    + intros [[?|?]|(j & c' & ? & ?)]; [by left|right..]; [exists i, c|exists j, c']; set_solver.
    + intros [?|(j & c' & [->|?]%elem_of_cons & ? & ? & ?)]; [by auto| |right; eauto 10].
      simplify_eq. by auto.
  - destruct (IH acc ltac:(set_solver)) as (r & Hr' & Hx). exists r. split; [done|].
    intros x. rewrite Hx. split.
    + intros [?|(j & c' & ? & ?)]; [by left|right; exists j, c'; set_solver].
    + intros [?|(j & c' & [->|?]%elem_of_cons & ? & ? & ?)]; [by auto| |right; eauto 10].
      congruence.
Qed.

(** An item that was added under a key that is resolved by now. *)
Definition ready p (x : T) : Prop :=
  ∃ i c, items p !! key_of x = Some i ∧ cells p !! i = Some c ∧
    is_resolved c = true ∧ x ∈ cell_items c.

Lemma collect_resolved_eq {E} p fl :
  pool_inv p fl →
  ∃ r, collect_resolved (E:=E) p = Done (r, p) ∧ ∀ x, x ∈ r ↔ ready p x.
Proof.
  intros Hinv. unfold collect_resolved. stm_unfold.
  assert (∀ i, i ∈ snd <$> map_to_list (items p) ↔ ∃ k, items p !! k = Some i) as Hin.
  { intros i. rewrite list_elem_of_fmap. setoid_rewrite <-elem_of_map_to_list.
    split; [intros ([]&->&?); eauto|intros [k ?]; by exists (k, i)]. }
  destruct (collect_loop_eq (E:=E) p (snd <$> map_to_list (items p)) ∅) as (r & Hr & Hx).
  { intros i [k Hk]%Hin. destruct (pool_cells _ _ Hinv k i Hk) as (c & Hc & _). by eexists. }
  exists r. split; [done|]. intros x. rewrite Hx. split.
  - intros [?|(i & c & [k Hk]%Hin & Hc & Hres & Hxc)]; [set_solver|]. exists i, c.
    destruct (pool_cells _ _ Hinv k i Hk) as (c' & Hc' & _ & Hkey).
    assert (c' = c) as -> by congruence. by rewrite (Hkey x Hxc).
  - intros (i & c & Hk & Hc & Hres & Hxc). right. exists i, c. rewrite Hin. eauto 10.
Qed.

(** [collect_resolved] does not change the pool and returns exactly
    the items that were added under a resolved key: when a key is resolved, all
    items that share it become available at once. *)
Lemma collect_resolved_spec {E} p fl :
  rtc pool_step (pool_new, []) (p, fl) →
  ∃ r, collect_resolved (E:=E) p = Done (r, p) ∧ ∀ x, x ∈ r ↔ ready p x.
Proof. intros Hinv%pool_inv_steps. by eapply collect_resolved_eq. Qed.
End system.

(** ** A concrete run

    Items are numbers whose key is their tenth; two items share the key 1. *)

Section witnesses.
Abbreviation num_pool := (ResolvePool bool N N).
Definition tenth (n : N) : N := n / 10.

Definition pool_after {A} (m : outcome Empty_set (A * num_pool)) : num_pool :=
  match m with Done (_, p) => p | _ => pool_new end.
Definition pool1 : num_pool := pool_after (resolver_add tenth 11 false pool_new).
Definition pool2 : num_pool := pool_after (resolver_add tenth 12 true pool1).
Definition pool3 : num_pool := pool_after (take_task pool2).
Definition pool4 : num_pool := pool_after (finish_task (MkTask 1 0) Resolved pool3).

Lemma pool2_steps : rtc (pool_step orb tenth) (pool_new, []) (pool2, []).
Proof.
  eapply rtc_l; [apply (StepAdd _ _ 11 false _ 0%nat pool1); by vm_compute|].
  eapply rtc_l; [apply (StepAdd _ _ 12 true _ 0%nat pool2); by vm_compute|]. done.
Qed.

Lemma pool4_steps : rtc (pool_step orb tenth) (pool_new, []) (pool4, []).
Proof.
  etrans; [apply pool2_steps|].
  eapply rtc_l; [apply (StepTake _ _ _ (MkTask 1 0) true pool3); by vm_compute|].
  eapply rtc_l; [apply (StepFinish _ _ _ (MkTask 1 0) Resolved pool4 [] []); by vm_compute|].
  done.
Qed.

Lemma no_resolution_lost_witness :
  (∀ item i c, get_status tenth (E:=Empty_set) item pool2 = Done (Some i, pool2) →
    cells pool2 !! i = Some c → is_resolved c = false →
    MkTask (tenth item) i ∈ queue pool2 ++ []) ∧
  (queue pool2 ≠ [] → ∃ t flag p', take_task (E:=Empty_set) pool2 = Done ((t, flag), p')).
Proof. apply (no_resolution_lost orb tenth pool2 []), pool2_steps. Defined.

Lemma collect_resolved_spec_witness :
  (∃ r, collect_resolved (E:=Empty_set) pool4 = Done (r, pool4) ∧
    ∀ x, x ∈ r ↔ ∃ i c, items pool4 !! tenth x = Some i ∧ cells pool4 !! i = Some c ∧
      is_resolved c = true ∧ x ∈ cell_items c) ∧
  collect_resolved (E:=Empty_set) pool4 = Done ({[11; 12]}, pool4).
Proof.
  split; [apply (collect_resolved_spec orb tenth pool4 []), pool4_steps|by vm_compute].
Defined.
End witnesses.
