(* ===== verification/Merkle.v ===== *)
(** * Merkle trees

    Models [ext/merkle-tree-rs/src/core.rs]: a complete binary tree of hashes kept in a
    vector, its construction from leaves, proofs of membership for one leaf and for
    several, and their verification.  [keccak256] is a parameter.  Binding is stated
    without assuming it injective: an accepted proof is right, or the two inputs the
    theorem names collide.

    Indices are [nat]: a vector of 32-byte hashes has fewer than [2^58] entries, so
    [2 * i + 2] never leaves [usize].  The one place where the width matters is
    [sibling_index], which works on [i32]. *)

From Stdlib Require Import Strings.Byte ZifyNat.
From stdpp Require Import vector.
From S2P Require Import Prelude.

#[local] Open Scope nat_scope.
#[local] Ltac Zify.zify_post_hook ::= Z.to_euclidean_division_equations.

(** ** Bytes and hashes *)

#[export] Instance byte_eq_dec : EqDecision byte := Byte.byte_eq_dec.
#[export] Instance byte_countable : Countable byte :=
  inj_countable Byte.to_N Byte.of_N Byte.of_to_N.

(** The bytes of a list as an array; conversions to and from [vec]. *)
Definition vec_of_list {n} (l : list byte) : vec byte n :=
  fun_to_vec (λ i, default x00 (l !! (fin_to_nat i))).

Lemma vec_of_list_to {n} (v : vec byte n) : vec_of_list (vec_to_list v) = v.
Proof.
  apply vec_eq. intros i. unfold vec_of_list. rewrite lookup_fun_to_vec.
  assert (vec_to_list v !! (fin_to_nat i) = Some (v !!! i)) as ->; [|done].
  by apply vlookup_lookup.
Qed.

Lemma to_vec_of_list {n} (l : list byte) : length l = n → vec_to_list (vec_of_list (n:=n) l) = l.
Proof.
  intros <-. pose proof (vec_of_list_to (list_to_vec l)) as Heq.
  rewrite vec_to_list_to_vec in Heq. rewrite Heq. apply vec_to_list_to_vec.
Qed.

#[export] Instance vec_byte_countable n : Countable (vec byte n) :=
  inj_countable' vec_to_list vec_of_list vec_of_list_to.

(** [H256]. *)
Definition Hash : Type := vec byte 32.
#[export] Instance Hash_eq_dec : EqDecision Hash := vec_dec.
Definition hash_zero : Hash := vreplicate 32 x00.

Class Keccak := { keccak256 : list byte → Hash }.

(** The order of byte slices: lexicographic. *)
Fixpoint bytes_cmp (a b : list byte) : comparison :=
  match a, b with
  | [], [] => Eq
  | [], _ :: _ => Lt
  | _ :: _, [] => Gt
  | x :: a, y :: b =>
      match N.compare (Byte.to_N x) (Byte.to_N y) with
      | Eq => bytes_cmp a b
      | c => c
      end
  end.

(** [v[i]] and [v[i] = x]: out of bounds is a panic. *)
Definition index {A} (v : list A) (i : nat) : outcome string A := unwrap (v !! i).
Definition index_set {A} (v : list A) (i : nat) (x : A) : outcome string (list A) :=
  if bool_decide (i < length v) then Done (<[i := x]> v) else Panic.

(** ** 32-bit indices *)

Definition i32_max : Z := 2147483647.
Abbreviation i32_size := 4294967296%Z.

(** [usize::try_into::<i32>]. *)
Definition to_i32 (i : nat) : outcome string Z :=
  if bool_decide (Z.of_nat i ≤ i32_max)%Z then Done (Z.of_nat i)
  else Fail "out of range integral type conversion attempted"%string.

(** The result of an [i32] operation whose exact value is [z]. *)
Definition i32_wrap `{Profile} (z : Z) : outcome string Z :=
  if bool_decide (- i32_max - 1 ≤ z ≤ i32_max)%Z then Done z
  else if overflow_checks then Panic
  else Done ((z + i32_max + 1) `mod` i32_size - i32_max - 1)%Z.

(** [r as usize] extends the sign. *)
Definition as_usize (z : Z) : nat := Z.to_nat (z `mod` Z.of_N u64_size).

#[export] Instance ge_dec : RelDecision ge := λ x y, decide (y ≤ x).

Record MultiProof (T U : Type) := MkMultiProof {
  leaves : list T;
  proof : list U;
  proof_flags : list bool
}.
Arguments MkMultiProof {T U} _ _ _.
Arguments leaves {T U} _.
Arguments proof {T U} _.
Arguments proof_flags {T U} _.

Section merkle.
Context `{Profile, Keccak}.

(** ** Nodes *)

Definition hash_pair (a b : Hash) : Hash :=
  let s := match bytes_cmp b a with
           | Lt => [vec_to_list b; vec_to_list a]
           | _ => [vec_to_list a; vec_to_list b]
           end in
  keccak256 (concat s).

Definition left_child_index (i : nat) : nat := 2 * i + 1.
Definition right_child_index (i : nat) : nat := 2 * i + 2.

Definition parent_index (i : nat) : outcome string nat :=
  if bool_decide (0 < i) then Done ((i - 1) / 2)
  else Fail "Root has no parent"%string.

Definition sibling_index (i : Z) : outcome string nat :=
  if bool_decide (0 < i)%Z then
    r ← i32_wrap (i - (-1) ^ (i `mod` 2))%Z;
    Done (as_usize r)
  else Fail "Root has no sibling"%string.

Definition is_tree_node (tree : list Hash) (i : nat) : bool := bool_decide (i < length tree).
Definition is_internal_node (tree : list Hash) (i : nat) : bool :=
  is_tree_node tree (left_child_index i).
Definition is_leaf_node (tree : list Hash) (i : nat) : bool :=
  is_tree_node tree i && negb (is_internal_node tree i).

Definition check_tree_node (tree : list Hash) (i : nat) : outcome string unit :=
  if is_tree_node tree i then Done tt else Fail "Index is not in tree"%string.
Definition check_internal_node (tree : list Hash) (i : nat) : outcome string unit :=
  if is_internal_node tree i then Done tt else Fail "Index is not in tree"%string.
Definition check_leaf_node (tree : list Hash) (i : nat) : outcome string unit :=
  if negb (is_leaf_node tree i) then Fail "Index is not in tree"%string else Done tt.

(** ** Construction *)

(** [tree[tree_length - 1 - i] = v] for the leaves from position [i] on. *)
Fixpoint place_leaves (tree_length i : nat) (ls tree : list Hash) : outcome string (list Hash) :=
  match ls with
  | [] => Done tree
  | v :: ls =>
      tree ← index_set tree (tree_length - 1 - i) v;
      place_leaves tree_length (S i) ls tree
  end.

(** The loop over [(0..k).rev()]. *)
Fixpoint hash_levels (k : nat) (tree : list Hash) : outcome string (list Hash) :=
  match k with
  | O => Done tree
  | S i =>
      left_child ← index tree (left_child_index i);
      right_child ← index tree (right_child_index i);
      tree ← index_set tree i (hash_pair left_child right_child);
      hash_levels i tree
  end.

Definition make_merkle_tree (ls : list Hash) : outcome string (list Hash) :=
  match ls with
  | [] => Fail "Expected non-zero number of leaves"%string
  | _ =>
      let tree_length := 2 * length ls - 1 in
      tree ← place_leaves tree_length 0 ls (replicate tree_length hash_zero);
      hash_levels (tree_length - length ls) tree
  end.

(** The loop over [tree.iter().enumerate()], from node [i] on. *)
Fixpoint valid_from (tree : list Hash) (i : nat) (nodes : list Hash) : bool :=
  match nodes with
  | [] => true
  | node :: nodes =>
      let l := left_child_index i in
      let r := right_child_index i in
      if bool_decide (length tree ≤ r) then
        if bool_decide (l < length tree) then false else valid_from tree (S i) nodes
      else match tree !! l, tree !! r with
           | Some hl, Some hr =>
               if bool_decide (node = hash_pair hl hr) then valid_from tree (S i) nodes else false
           | _, _ => false
           end
  end.

Definition is_valid_merkle_tree (tree : list Hash) : bool :=
  valid_from tree 0 tree && negb (bool_decide (tree = [])).

(** ** One leaf *)

Fixpoint proof_loop (fuel : nat) (tree : list Hash) (i : nat) : outcome string (list Hash) :=
  if bool_decide (i = 0) then Done [] else
  match fuel with
  | O => OutOfFuel
  | S fuel =>
      z ← to_i32 i;
      sibling_i ← sibling_index z;
      h ← index tree sibling_i;
      i ← parent_index i;
      rest ← proof_loop fuel tree i;
      Done (h :: rest)
  end.

Definition get_proof (tree : list Hash) (i : nat) : outcome string (list Hash) :=
  check_leaf_node tree i ≫= λ _, proof_loop i tree i.

Definition process_proof (leaf : Hash) (prf : list Hash) : outcome string Hash :=
  Done (fold_left (λ a b, hash_pair a b) prf leaf).

(** ** Several leaves *)

Fixpoint check_leaves (tree : list Hash) (indices : list nat) : outcome string unit :=
  match indices with
  | [] => Done tt
  | i :: indices => check_leaf_node tree i ≫= λ _, check_leaves tree indices
  end.

(** Some entry equals the one before it. *)
Fixpoint repeats (l : list nat) : bool :=
  match l with
  | x :: (y :: _) as l => bool_decide (y = x) || repeats l
  | _ => false
  end.

Definition sort_desc (indices : list nat) : list nat := merge_sort ge indices.

Fixpoint multi_loop (fuel : nat) (tree : list Hash) (stack : list nat)
    : outcome string (list Hash * list bool) :=
  match stack with
  | [] | O :: _ => Done ([], [])
  | j :: stack =>
      match fuel with
      | O => OutOfFuel
      | S fuel =>
          z ← to_i32 j;
          s ← sibling_index z;
          p ← parent_index j;
          if bool_decide (head stack = Some s) then
            '(prf, flags) ← multi_loop fuel tree (tail stack ++ [p]);
            Done (prf, true :: flags)
          else
            h ← index tree s;
            '(prf, flags) ← multi_loop fuel tree (stack ++ [p]);
            Done (h :: prf, false :: flags)
      end
  end.

Fixpoint index_all (tree : list Hash) (indices : list nat) : outcome string (list Hash) :=
  match indices with
  | [] => Done []
  | i :: indices => h ← index tree i; hs ← index_all tree indices; Done (h :: hs)
  end.

Definition get_multi_proof (tree : list Hash) (indices : list nat)
    : outcome string (MultiProof Hash Hash) :=
  check_leaves tree indices ≫= λ _,
  let indices := sort_desc indices in
  if repeats indices then Fail "Cannot prove duplicated index"%string else
  '(prf, flags) ← multi_loop (sum_list indices) tree indices;
  prf ← (if bool_decide (indices = []) then h ← index tree 0; Done (prf ++ [h]) else Done prf);
  ls ← index_all tree indices;
  Done (MkMultiProof ls prf flags).

(** The stack and what is left of the proof after the flags; [remove(0)] of an empty
    vector panics. *)
Fixpoint process_loop (flags : list bool) (stack prf : list Hash)
    : outcome string (list Hash * list Hash) :=
  match flags with
  | [] => Done (stack, prf)
  | flag :: flags =>
      match stack with
      | [] => Panic
      | a :: stack =>
          if (flag : bool) then
            match stack with
            | [] => Panic
            | b :: stack => process_loop flags (stack ++ [hash_pair a b]) prf
            end
          else
            match prf with
            | [] => Panic
            | b :: prf => process_loop flags (stack ++ [hash_pair a b]) prf
            end
      end
  end.

Definition falses (flags : list bool) : nat := length (filter (λ b, b = false) flags).

Definition process_multi_proof (mp : MultiProof Hash Hash) : outcome string Hash :=
  if bool_decide (length (proof mp) < falses (proof_flags mp))
  then Fail "Invalid multiproof format"%string
  else if bool_decide (length (leaves mp) + length (proof mp) ≠ length (proof_flags mp) + 1)
  then Fail "Provide leaves and multi_proof are not compatible"%string
  else
    '(stack, prf) ← process_loop (proof_flags mp) (leaves mp) (proof mp);
    match last stack with
    | Some b => Done b
    | None => unwrap (head prf)
    end.
End merkle.

(** ** Hashing a pair *)

Lemma to_N_inj (x y : byte) : Byte.to_N x = Byte.to_N y → x = y.
Proof.
  intros Heq. pose proof (Byte.of_to_N x) as Hx. rewrite Heq, Byte.of_to_N in Hx. congruence.
Qed.

Lemma bytes_cmp_eq a b : bytes_cmp a b = Eq → a = b.
Proof.
  revert b. induction a as [|x a IH]; intros [|y b]; simpl; try done.
  destruct (N.compare_spec (Byte.to_N x) (Byte.to_N y)) as [Hxy|Hxy|Hxy]; try done.
  intros Hab. f_equal; auto using to_N_inj.
Qed.

Lemma bytes_cmp_antisym a b : bytes_cmp b a = CompOpp (bytes_cmp a b).
Proof.
  revert b. induction a as [|x a IH]; intros [|y b]; simpl; try done.
  rewrite N.compare_antisym. destruct (N.compare (Byte.to_N x) (Byte.to_N y)); simpl; auto.
Qed.

Section hashing.
Context `{Keccak}.

(** What is hashed for a pair: the smaller one first. *)
Definition pair_bytes (a b : Hash) : list byte :=
  match bytes_cmp b a with
  | Lt => vec_to_list b ++ vec_to_list a
  | _ => vec_to_list a ++ vec_to_list b
  end.

Lemma hash_pair_bytes a b : hash_pair a b = keccak256 (pair_bytes a b).
Proof. unfold hash_pair, pair_bytes. destruct bytes_cmp; simpl; by rewrite app_nil_r. Qed.

Lemma length_pair_bytes a b : length (pair_bytes a b) = 64.
Proof.
  unfold pair_bytes. destruct bytes_cmp; rewrite length_app, !length_vec_to_list; done.
Qed.

Lemma pair_bytes_comm a b : pair_bytes a b = pair_bytes b a.
Proof.
  unfold pair_bytes. rewrite (bytes_cmp_antisym a b).
  destruct (bytes_cmp a b) eqn:Hab; simpl; try done.
  apply bytes_cmp_eq in Hab. by rewrite Hab.
Qed.

Lemma hash_pair_comm a b : hash_pair a b = hash_pair b a.
Proof. by rewrite !hash_pair_bytes, pair_bytes_comm. Qed.

Lemma vec_app_inj (a b c d : Hash) :
  vec_to_list a ++ vec_to_list b = vec_to_list c ++ vec_to_list d → a = c ∧ b = d.
Proof.
  intros Heq. apply app_inj_1 in Heq as [Hac Hbd]; [|by rewrite !length_vec_to_list].
  split; by apply vec_to_list_inj2.
Qed.

(** The bytes hashed determine the pair up to order. *)
Lemma pair_bytes_inj a b c d :
  pair_bytes a b = pair_bytes c d → (a = c ∧ b = d) ∨ (a = d ∧ b = c).
Proof.
  unfold pair_bytes.
  destruct (bytes_cmp b a), (bytes_cmp d c); intros [-> ->]%vec_app_inj; auto.
Qed.

End hashing.

(** ** The shape of the tree *)

Section shape.
Context `{Keccak}.
Implicit Types (tree : list Hash) (i j k n : nat).

(** Node [i] is the hash of its two children. *)
Definition hashed_at tree i : Prop :=
  ∃ l r, tree !! left_child_index i = Some l ∧ tree !! right_child_index i = Some r ∧
         tree !! i = Some (hash_pair l r).

(** The specification of a Merkle tree: every node with a child has two, and their hash. *)
Definition merkle tree : Prop :=
  tree ≠ [] ∧ ∀ i, left_child_index i < length tree → hashed_at tree i.

Definition parent i : nat := (i - 1) / 2.
Definition sib i : nat := if Nat.even i then i - 1 else i + 1.

Lemma parent_lt i : 0 < i → parent i < i.
Proof. unfold parent. lia. Qed.

Lemma family i : 0 < i →
  (i = left_child_index (parent i) ∧ sib i = right_child_index (parent i)) ∨
  (i = right_child_index (parent i) ∧ sib i = left_child_index (parent i)).
Proof.
  intros Hi. unfold sib, parent, left_child_index, right_child_index.
  destruct (Nat.even i) eqn:He.
  - apply Nat.even_spec in He as [k ->]. right. lia.
  - assert (Nat.odd i = true) as [k ->]%Nat.odd_spec by (unfold Nat.odd; by rewrite He).
    left. lia.
Qed.

Lemma parent_index_ok i : 0 < i → parent_index i = Done (parent i).
Proof. intros. unfold parent_index. by rewrite bool_decide_eq_true_2. Qed.

Lemma to_i32_ok i : (Z.of_nat i ≤ i32_max)%Z → to_i32 i = Done (Z.of_nat i).
Proof. intros. unfold to_i32. by rewrite bool_decide_eq_true_2. Qed.

Lemma sign_of_parity i :
  (Z.of_nat i - (-1) ^ (Z.of_nat i `mod` 2))%Z = if Nat.even i then (Z.of_nat i - 1)%Z else (Z.of_nat i + 1)%Z.
Proof.
  destruct (Nat.even i) eqn:He.
  - apply Nat.even_spec in He as [k ->].
    replace (Z.of_nat (2 * k) `mod` 2)%Z with 0%Z by lia. done.
  - assert (Nat.odd i = true) as [k ->]%Nat.odd_spec by (unfold Nat.odd; by rewrite He).
    replace (Z.of_nat (2 * k + 1) `mod` 2)%Z with 1%Z by lia. lia.
Qed.

Lemma sibling_index_ok `{Profile} i :
  0 < i → (Z.of_nat i < i32_max)%Z → sibling_index (Z.of_nat i) = Done (sib i).
Proof.
  intros Hi Hm. unfold sibling_index. rewrite bool_decide_eq_true_2 by lia.
  rewrite sign_of_parity. unfold sib, i32_wrap, i32_max in *.
  destruct (Nat.even i); rewrite bool_decide_eq_true_2 by lia; unfold mbind, outcome_bind, as_usize;
    f_equal; rewrite Z.mod_small by lia; lia.
Qed.

(** A node and its sibling hash to the parent. *)
Lemma merkle_step tree i h :
  merkle tree → 0 < i → tree !! i = Some h →
  ∃ hs, tree !! sib i = Some hs ∧ tree !! parent i = Some (hash_pair h hs).
Proof.
  intros [_ Ht] Hi Hh. pose proof (lookup_lt_Some _ _ _ Hh) as Hlt.
  pose proof (family i Hi) as Hf.
  destruct (Ht (parent i)) as (l & r & Hl & Hr & Hp).
  { unfold left_child_index, right_child_index in *. lia. }
  destruct Hf as [[Ei Es]|[Ei Es]]; rewrite Es.
  - exists r. rewrite Ei, Hl in Hh. naive_solver.
  - exists l. rewrite Ei, Hr in Hh. simplify_eq. split; [done|]. by rewrite hash_pair_comm.
Qed.
End shape.

(** ** Construction *)

Section construction.
Context `{Keccak}.
Implicit Types (tree ls : list Hash) (i j k n : nat).

Lemma place_leaves_spec n i ls tree :
  length tree = n → i + length ls ≤ n →
  ∃ tree', place_leaves n i ls tree = Done tree' ∧ length tree' = n ∧
    ∀ j, j < n → tree' !! j =
      if bool_decide (n ≤ j + i + length ls ∧ j + i < n) then ls !! (n - 1 - i - j) else tree !! j.
Proof.
  revert i tree. induction ls as [|v ls IH]; intros i tree Hlen Hle; simpl in *.
  - exists tree. split_and!; [done..|]. intros j Hj. rewrite bool_decide_eq_false_2 by lia. done.
  - unfold index_set. rewrite bool_decide_eq_true_2 by lia.
    unfold mbind, outcome_bind.
    destruct (IH (S i) (<[n - 1 - i := v]> tree)) as (t' & -> & Hl & Hlook).
    { by rewrite length_insert. } { lia. }
    exists t'. split_and!; [done..|]. intros j Hj. rewrite Hlook by done.
    case_bool_decide as H1; case_bool_decide as H2; try lia.
    + replace (n - 1 - i - j) with (S (n - 1 - S i - j)) by lia. done.
    + assert (j = n - 1 - i) as -> by lia. rewrite list_lookup_insert_eq by lia.
      replace (n - 1 - i - (n - 1 - i)) with 0 by lia. done.
    + rewrite list_lookup_insert_ne by lia. done.
Qed.

Lemma hash_levels_spec n k tree :
  length tree = 2 * n - 1 → k ≤ n - 1 → (∀ i, k ≤ i < n - 1 → hashed_at tree i) →
  ∃ tree', hash_levels k tree = Done tree' ∧ length tree' = length tree ∧
    (∀ j, k ≤ j → tree' !! j = tree !! j) ∧ ∀ i, i < n - 1 → hashed_at tree' i.
Proof.
  revert tree. induction k as [|k IH]; intros tree Hlen Hk Hdone; simpl.
  { exists tree. split_and!; [done..|]. intros. apply Hdone. lia. }
  unfold index. unfold left_child_index, right_child_index.
  destruct (lookup_lt_is_Some_2 tree (2 * k + 1)) as [l Hl]; [lia|].
  destruct (lookup_lt_is_Some_2 tree (2 * k + 2)) as [r Hr]; [lia|].
  rewrite Hl, Hr. unfold index_set, unwrap, mbind, outcome_bind.
  rewrite bool_decide_eq_true_2 by lia.
  destruct (IH (<[k := hash_pair l r]> tree)) as (t' & Hrun & Hlen' & Hold & Hnew).
  - by rewrite length_insert.
  - lia.
  - intros i Hi. unfold hashed_at, left_child_index, right_child_index.
    rewrite !(list_lookup_insert_ne _ k) by lia.
    destruct (decide (i = k)) as [->|Hne].
    + exists l, r. rewrite list_lookup_insert_eq by lia. done.
    + rewrite list_lookup_insert_ne by lia. apply (Hdone i). lia.
  - exists t'. rewrite length_insert in Hlen'. split_and!; [done..| |done].
    intros j Hj. rewrite Hold by lia. by rewrite list_lookup_insert_ne by lia.
Qed.

Lemma make_merkle_tree_Done ls :
  ls ≠ [] →
  ∃ tree, make_merkle_tree ls = Done tree ∧ length tree = 2 * length ls - 1 ∧
    drop (length ls - 1) tree = reverse ls ∧ merkle tree.
Proof.
  intros Hne. set (n := length ls).
  assert (1 ≤ n) by (destruct ls; simpl in *; [done|lia]).
  destruct (place_leaves_spec (2 * n - 1) 0 ls (replicate (2 * n - 1) hash_zero))
    as (t0 & Hrun0 & Hlen0 & Hlook0).
  { by rewrite length_replicate. } { fold n. lia. }
  destruct (hash_levels_spec n (2 * n - 1 - n) t0) as (t & Hrun & Hlen & Hold & Hall); [done|lia| |].
  { intros i Hi. lia. }
  exists t. split_and!.
  - unfold make_merkle_tree. destruct ls as [|v ls]; [done|]. fold n.
    unfold mbind, outcome_bind. rewrite Hrun0. exact Hrun.
  - lia.
  - apply list_eq_same_length with (n := n).
    + rewrite length_reverse. done.
    + rewrite length_drop. lia.
    + intros j x y Hj. rewrite lookup_drop, Hold, Hlook0 by lia.
      rewrite bool_decide_eq_true_2 by (fold n; lia).
      rewrite reverse_lookup by (fold n; lia). fold n.
      replace (2 * n - 1 - 1 - 0 - (n - 1 + j)) with (n - S j) by lia. congruence.
  - split; [intros ->; simpl in *; lia|].
    intros i Hi. apply Hall. unfold left_child_index in Hi. lia.
Qed.

(** The leaves determine the tree. *)
Lemma merkle_unique n t1 t2 :
  merkle t1 → merkle t2 → length t1 = 2 * n - 1 → length t2 = 2 * n - 1 →
  drop (n - 1) t1 = drop (n - 1) t2 → t1 = t2.
Proof.
  intros [_ H1] [_ H2] L1 L2 Hd.
  assert (∀ d i, i + d = 2 * n - 2 → t1 !! i = t2 !! i) as Heq.
  { intros d. induction (lt_wf d) as [d _ IH]. intros i Hi.
    destruct (decide (n - 1 ≤ i)) as [Hge|Hlt].
    - replace i with ((n - 1) + (i - (n - 1))) by lia. by rewrite <-!lookup_drop, Hd.
    - destruct (H1 i) as (l1 & r1 & Hl1 & Hr1 & ->); [unfold left_child_index; lia|].
      destruct (H2 i) as (l2 & r2 & Hl2 & Hr2 & ->); [unfold left_child_index; lia|].
      unfold left_child_index, right_child_index in *.
      rewrite (IH (2 * n - 2 - (2 * i + 1))) in Hl1 by lia.
      rewrite (IH (2 * n - 2 - (2 * i + 2))) in Hr1 by lia. congruence. }
  apply list_eq. intros i. destruct (decide (i < 2 * n - 1)) as [Hi|Hi].
  - apply (Heq (2 * n - 2 - i)). lia.
  - rewrite !lookup_ge_None_2 by lia. done.
Qed.

Lemma valid_from_spec tree i nodes :
  drop i tree = nodes →
  valid_from tree i nodes = true ↔
    ∀ j, i ≤ j → left_child_index j < length tree → hashed_at tree j.
Proof.
  revert i. induction nodes as [|h nodes IH]; intros i Hd; simpl.
  - split; [|done]. intros _ j Hij Hlt. unfold left_child_index in Hlt.
    assert (length (drop i tree) = 0) as Hlen by by rewrite Hd. rewrite length_drop in Hlen. lia.
  - assert (tree !! i = Some h) as Hi.
    { rewrite <-(Nat.add_0_r i), <-lookup_drop, Hd. done. }
    assert (drop (S i) tree = nodes) as Hd'.
    { rewrite <-(Nat.add_1_r i), <-drop_drop, Hd. done. }
    assert ((∀ j, i ≤ j → left_child_index j < length tree → hashed_at tree j) ↔
      (left_child_index i < length tree → hashed_at tree i) ∧
      ∀ j, S i ≤ j → left_child_index j < length tree → hashed_at tree j) as ->.
    { split; [intros Hall; split; intros; apply Hall; lia|].
      intros [H0 Hall] j Hj. destruct (decide (j = i)) as [->|]; [done|apply Hall; lia]. }
    rewrite <-(IH _ Hd'). case_bool_decide as Hr.
    + case_bool_decide as Hl; [|naive_solver lia].
      split; [done|]. intros [(l & r & _ & Hlk%lookup_lt_Some & _) _]; [done|lia].
    + unfold hashed_at. unfold left_child_index, right_child_index in *.
      destruct (lookup_lt_is_Some_2 tree (2 * i + 1)) as [l Hl]; [lia|].
      destruct (lookup_lt_is_Some_2 tree (2 * i + 2)) as [r Hr']; [lia|].
      rewrite Hl, Hr', Hi. case_bool_decide as Hh; subst.
      * split; [|by intros [_ ?]]. intros Hv. split; [|done]. intros _. by exists l, r.
      * split; [done|]. intros [(l' & r' & ? & ? & ?) _]; [lia|]. simplify_eq.
Qed.

Lemma is_valid_merkle tree : is_valid_merkle_tree tree = true ↔ merkle tree.
Proof.
  unfold is_valid_merkle_tree, merkle.
  rewrite andb_true_iff, negb_true_iff, bool_decide_eq_false, (valid_from_spec tree 0 tree) by done.
  naive_solver lia.
Qed.

Lemma merkle_odd tree : merkle tree → ∃ n, 1 ≤ n ∧ length tree = 2 * n - 1.
Proof.
  intros [Hne Ht]. exists ((length tree + 1) / 2).
  assert (length tree ≠ 0) by (intros ?%length_zero_iff_nil; done).
  destruct (decide (length tree `mod` 2 = 1)) as [|Hev]; [lia|].
  destruct (Ht (length tree / 2 - 1)) as (l & r & _ & Hr%lookup_lt_Some & _);
    unfold left_child_index, right_child_index in *; lia.
Qed.

(** A vector passes the validity check exactly when it is the
    tree that the construction returns for some leaves. *)
Lemma valid_tree_iff_made tree :
  is_valid_merkle_tree tree = true ↔ ∃ ls, make_merkle_tree ls = Done tree.
Proof.
  rewrite is_valid_merkle. split.
  - intros Ht. destruct (merkle_odd tree Ht) as (n & Hn & Hlen).
    assert (length (reverse (drop (n - 1) tree)) = n) as Hls.
    { rewrite length_reverse, length_drop. lia. }
    destruct (make_merkle_tree_Done (reverse (drop (n - 1) tree))) as (t & Hm & Hlt & Hdt & Ht').
    { intros Heq. rewrite Heq in Hls. simpl in Hls. lia. }
    rewrite Hls in *. rewrite reverse_involutive in Hdt.
    exists (reverse (drop (n - 1) tree)). rewrite Hm. f_equal.
    by apply (merkle_unique n).
  - intros [ls Hm]. destruct (decide (ls = [])) as [->|Hne]; [done|].
    destruct (make_merkle_tree_Done ls Hne) as (t & Hm' & _ & _ & Ht).
    rewrite Hm in Hm'. by injection Hm' as ->.
Qed.
End construction.

(** ** Proofs for one leaf *)

Section single.
Context `{Profile, Keccak}.
Implicit Types (tree : list Hash) (i j : nat).

Lemma log2_parent i : 0 < i → Nat.log2 (i + 1) = S (Nat.log2 (parent i + 1)).
Proof.
  intros Hi. destruct (family i Hi) as [[Ei _]|[Ei _]]; unfold left_child_index, right_child_index in Ei.
  - rewrite Ei at 1. replace (2 * parent i + 1 + 1) with (2 * (parent i + 1)) by lia.
    apply Nat.log2_double. lia.
  - rewrite Ei at 1. replace (2 * parent i + 2 + 1) with (2 * (parent i + 1) + 1) by lia.
    apply Nat.log2_succ_double. lia.
Qed.

Lemma proof_loop_spec tree fuel i h root :
  merkle tree → tree !! 0 = Some root → i ≤ fuel → (Z.of_nat i < i32_max)%Z → tree !! i = Some h →
  ∃ p, proof_loop fuel tree i = Done p ∧ fold_left (λ a b, hash_pair a b) p h = root ∧
       length p = Nat.log2 (i + 1).
Proof.
  intros Ht Hroot. revert i h. induction fuel as [|fuel IH]; intros i h Hle Hm Hh; simpl.
  { assert (i = 0) as -> by lia. exists []. simplify_eq. done. }
  case_bool_decide as Hi.
  { subst i. exists []. simplify_eq. done. }
  destruct (merkle_step tree i h Ht) as (hs & Hs & Hp); [lia|done|].
  rewrite to_i32_ok by lia. unfold mbind, outcome_bind.
  rewrite sibling_index_ok by lia. unfold index. rewrite Hs. cbn [unwrap].
  rewrite parent_index_ok by lia. pose proof (parent_lt i).
  destruct (IH (parent i) (hash_pair h hs)) as (p & -> & Hf & Hl); [lia|lia|done|].
  exists (hs :: p). split_and!; [done..|]. rewrite (log2_parent i) by lia. simpl. lia.
Qed.

Lemma is_leaf_lookup tree i : is_leaf_node tree i = true → ∃ h, tree !! i = Some h.
Proof.
  unfold is_leaf_node, is_tree_node. rewrite andb_true_iff, bool_decide_eq_true.
  intros [Hlt _]. by apply lookup_lt_is_Some_2.
Qed.

Lemma merkle_root tree : merkle tree → ∃ root, tree !! 0 = Some root.
Proof. intros [Hne _]. destruct tree; [done|eauto]. Qed.

(** At the largest [i32] the sibling's index overflows. *)
Lemma sibling_overflow tree i :
  (Z.of_nat (length tree) < 2 ^ 58)%Z → Z.of_nat i = i32_max →
  (sibling_index (Z.of_nat i) ≫= λ s, index tree s) = Panic.
Proof.
  intros Hlen Hi. unfold sibling_index. rewrite Hi. cbv [i32_max].
  rewrite bool_decide_eq_true_2 by lia.
  change (2147483647 - (-1) ^ (2147483647 `mod` 2))%Z with 2147483648%Z.
  unfold i32_wrap. rewrite bool_decide_eq_false_2 by (unfold i32_max; lia).
  destruct overflow_checks; [done|]. unfold mbind, outcome_bind, index.
  replace (tree !! _) with (@None Hash); [done|]. symmetry. apply lookup_ge_None_2.
  unfold as_usize, i32_max. apply Nat2Z.inj_le. rewrite Z2Nat.id by (apply Z.mod_pos_bound; lia).
  match goal with |- (_ ≤ ?m)%Z => change m with 18446744071562067968%Z end. lia.
Qed.

(** On a valid tree, [get_proof] returns for every leaf whose index is
    below the largest [i32] a proof as long as the leaf is deep, from which
    [process_proof] recovers the root; an index that is no leaf is refused, at the
    largest [i32] the code panics under every profile, and beyond it the conversion
    fails. *)
Lemma get_proof_spec tree i
    (Hvalid : is_valid_merkle_tree tree = true)
    (Hlen : (Z.of_nat (length tree) < 2 ^ 58)%Z) :
  (is_leaf_node tree i = false → get_proof tree i = Fail "Index is not in tree"%string) ∧
  (is_leaf_node tree i = true →
    ((Z.of_nat i < i32_max)%Z →
      ∃ p h root, get_proof tree i = Done p ∧ length p = Nat.log2 (i + 1) ∧
        tree !! i = Some h ∧ tree !! 0 = Some root ∧ process_proof h p = Done root) ∧
    (Z.of_nat i = i32_max → get_proof tree i = Panic) ∧
    ((i32_max < Z.of_nat i)%Z →
      get_proof tree i = Fail "out of range integral type conversion attempted"%string)).
Proof.
  apply is_valid_merkle in Hvalid as Ht. destruct (merkle_root tree Ht) as [root Hroot].
  unfold get_proof, check_leaf_node. split; intros Hleaf; rewrite Hleaf; [done|]. cbn [negb].
  change (Done tt ≫= ?f) with (f tt). cbv beta.
  destruct (is_leaf_lookup tree i Hleaf) as [h Hh].
  split_and!.
  - intros Hi. destruct (proof_loop_spec tree i i h root) as (p & Hp & Hf & Hl); [done..|].
    exists p, h, root. unfold process_proof. by rewrite Hf.
  - intros Hi. destruct i as [|k]; [done|]. cbn [proof_loop].
    rewrite bool_decide_eq_false_2 by done. rewrite to_i32_ok by lia.
    change (Done ?z ≫= ?f) with (f z). cbv beta.
    pose proof (sibling_overflow tree (S k) Hlen Hi) as Hov.
    unfold mbind, outcome_bind in *. destruct sibling_index; try done.
    by destruct index.
  - intros Hi. destruct i as [|k]; [done|]. cbn [proof_loop].
    rewrite bool_decide_eq_false_2 by done. unfold to_i32. by rewrite bool_decide_eq_false_2 by lia.
Qed.
End single.

(** ** Proofs for several leaves *)

Section multi.
Context `{Profile, Keccak}.
Implicit Types (tree : list Hash) (i j : nat) (stack rest : list nat).

(** The stack of [get_multi_proof]: descending nodes, all after the first one's parent. *)
Definition stack_ok tree stack : Prop :=
  StronglySorted gt stack ∧ Forall (λ i, i < length tree) stack ∧
  ∀ j x, head stack = Some j → 0 < j → x ∈ stack → parent j < x.

Lemma parent_sib i : 0 < i → parent (sib i) = parent i.
Proof.
  intros Hi. destruct (family i Hi) as [[_ ->]|[_ ->]];
    unfold parent, left_child_index, right_child_index; lia.
Qed.

Lemma parent_lt_parent i j : 0 < i → i < j → i ≠ sib j → parent i < parent j.
Proof.
  intros Hi Hij Hne. destruct (family j) as [[Ej Es]|[Ej Es]]; [lia|..];
    unfold left_child_index, right_child_index in *;
    rewrite Es in Hne; unfold parent in *; lia.
Qed.

(** Replacing the first nodes by their parent keeps the stack in order. *)
Lemma stack_ok_push tree j rest rest' :
  stack_ok tree (j :: rest) → 0 < j → rest' `sublist_of` rest →
  (∀ i, head rest' = Some i → i ≠ sib j) → stack_ok tree (rest' ++ [parent j]).
Proof.
  intros (Hs & Hlt & Hp) Hj Hsub Hsib.
  apply StronglySorted_inv in Hs as [Hs Hjr]. rewrite Forall_cons in Hlt. destruct Hlt as [Hlj Hlr].
  pose proof (sublist_subseteq _ _ Hsub) as Hin.
  pose proof (parent_lt j Hj).
  assert (StronglySorted gt rest') as Hs'.
  { clear -Hs Hsub. induction Hsub as [|x l1 l2 Hsub IH|x l1 l2 Hsub IH];
      [done|..]; apply StronglySorted_inv in Hs as [Hs Hx]; [|auto].
    constructor; [auto|]. rewrite Forall_forall in *. intros y Hy. apply Hx.
    by apply (sublist_subseteq l1 l2). }
  split_and!.
  - apply StronglySorted_app_2; [|done|by repeat constructor].
    intros x1 x2 Hx1 ->%list_elem_of_singleton. apply (Hp j); [done..|]. right. auto.
  - apply Forall_app_2; [|by constructor; [lia|]].
    rewrite Forall_forall in *. auto.
  - intros i x Hi Hi0 Hx. destruct rest' as [|i' rest']; simpl in *; simplify_eq.
    { apply list_elem_of_singleton in Hx as ->. by apply parent_lt. }
    assert (parent i < parent j) as Hpp.
    { apply parent_lt_parent; [done| |by apply Hsib].
      rewrite Forall_forall in Hjr. apply (Hjr i), Hin. left. }
    apply elem_of_cons in Hx as [->|[Hx| ->%list_elem_of_singleton]%elem_of_app]; [by apply parent_lt| |done].
    assert (parent j < x); [|lia]. apply (Hp j); [done..|]. right. apply Hin. by right.
Qed.

Lemma stack_ok_zero tree stack : stack_ok tree (0 :: stack) → stack = [].
Proof.
  intros ([_ Hall]%StronglySorted_inv & _ & _). destruct stack as [|x l]; [done|].
  apply Forall_cons in Hall as [Hx _]. lia.
Qed.

Abbreviation nodes_at tree := (Forall2 (λ i h, tree !! i = Some h)).

Lemma multi_loop_spec tree root fuel stack hs :
  merkle tree → tree !! 0 = Some root → sum_list stack ≤ fuel → stack ≠ [] → stack_ok tree stack →
  Forall (λ i, Z.of_nat i < i32_max)%Z stack → nodes_at tree stack hs →
  ∃ prf flags, multi_loop fuel tree stack = Done (prf, flags) ∧
    falses flags = length prf ∧ length stack + length prf = length flags + 1 ∧
    ∀ extra, process_loop flags hs (prf ++ extra) = Done ([root], extra).
Proof.
  intros Ht Hroot. revert stack hs. induction fuel as [|fuel IH]; intros stack hs Hf Hne Hok Hm Hn.
  all: destruct stack as [|[|k] rest]; [done| |].
  1,3: apply stack_ok_zero in Hok as ->; apply Forall2_cons_inv_l in Hn as (h & ? & Hh & ->%Forall2_nil_inv_l & ->);
    simplify_eq; exists [], []; done.
  { simpl in Hf. lia. }
  set (j := S k) in *. assert (0 < j) as Hj by lia.
  apply Forall2_cons_inv_l in Hn as (h & hs' & Hh & Hn & ->).
  apply Forall_cons in Hm as [Hmj Hm]. simpl in Hf.
  destruct (merkle_step tree j h Ht Hj Hh) as (hsib & Hsib & Hpar).
  pose proof (parent_lt j Hj) as Hpj.
  cbn [multi_loop]. rewrite to_i32_ok by (unfold j in *; lia). unfold mbind, outcome_bind.
  rewrite sibling_index_ok by done. rewrite parent_index_ok by done.
  case_bool_decide as Hcase.
  - destruct rest as [|s rest]; simpl in Hcase; simplify_eq. simpl in Hf.
    apply Forall2_cons_inv_l in Hn as (h' & hs & Hh' & Hn & ->). simplify_eq.
    apply Forall_cons in Hm as [_ Hm]. cbn [tail].
    destruct (IH (rest ++ [parent j]) (hs ++ [hash_pair h h'])) as (prf & flags & -> & Hc & Hl & Hrun).
    + rewrite sum_list_with_app. simpl. unfold j in *. lia.
    + by destruct rest.
    + eapply stack_ok_push; [done..|by apply sublist_cons|].
      intros i Hi ->. destruct Hok as ([[_ Hgt]%StronglySorted_inv _]%StronglySorted_inv & _).
      destruct rest; simplify_eq/=. apply Forall_cons in Hgt as [Hgt _]. lia.
    + apply Forall_app_2; [done|]. constructor; [|done]. unfold j in *. lia.
    + apply Forall2_app; [done|]. by constructor.
    + exists prf, (true :: flags). rewrite length_app in Hl. split_and!; [done..|simpl in *; lia|done].
  - unfold index. rewrite Hsib. cbn [unwrap].
    destruct (IH (rest ++ [parent j]) (hs' ++ [hash_pair h hsib])) as (prf & flags & -> & Hc & Hl & Hrun).
    + rewrite sum_list_with_app. simpl. unfold j in *. lia.
    + by destruct rest.
    + eapply stack_ok_push; [done..|]. intros i Hi ->. done.
    + apply Forall_app_2; [done|]. constructor; [|done]. unfold j in *. lia.
    + apply Forall2_app; [done|]. by constructor.
    + exists (hsib :: prf), (false :: flags). rewrite length_app in Hl.
      split_and!; [done|unfold falses in *; simpl; lia|simpl in *; lia|done].
Qed.

Lemma check_leaves_Done tree indices :
  check_leaves tree indices = Done tt ↔ Forall (λ i, is_leaf_node tree i = true) indices.
Proof.
  induction indices as [|i indices IH]; simpl; [done|].
  rewrite Forall_cons, <-IH. unfold check_leaf_node. destruct is_leaf_node; naive_solver.
Qed.

Lemma check_leaves_Fail tree indices :
  ¬ Forall (λ i, is_leaf_node tree i = true) indices →
  check_leaves tree indices = Fail "Index is not in tree"%string.
Proof.
  induction indices as [|i indices IH]; [naive_solver|]. rewrite Forall_cons. simpl.
  unfold check_leaf_node. destruct is_leaf_node; naive_solver.
Qed.

#[local] Instance ge_total : Total ge.
Proof. intros x y. lia. Qed.
#[local] Instance ge_transitive : Transitive ge.
Proof. intros x y z. lia. Qed.

Lemma repeats_sorted l : StronglySorted ge l → repeats l = false ↔ StronglySorted gt l.
Proof.
  induction 1 as [|x l Hs IH Hx]; [split; [constructor|done]|].
  destruct l as [|y l]; [split; [by repeat constructor|done]|].
  cbn [repeats]. rewrite orb_false_iff, bool_decide_eq_false, IH. split.
  - intros [Hne Hl]. constructor; [done|]. apply Forall_cons in Hx as [Hxy _].
    pose proof Hl as [_ Hy]%StronglySorted_inv. constructor; [lia|].
    eapply Forall_impl; [exact Hy|]. intros z Hz. simpl in *. lia.
  - intros [Hl Hx']%StronglySorted_inv. apply Forall_cons in Hx' as [? _]. split; [lia|done].
Qed.

Lemma sorted_gt_NoDup l : StronglySorted gt l → NoDup l.
Proof.
  induction 1 as [|x l _ IH Hx]; constructor; [|done].
  rewrite Forall_forall in Hx. intros Hin%Hx. lia.
Qed.

Lemma sorted_ge_NoDup l : StronglySorted ge l → NoDup l → StronglySorted gt l.
Proof.
  induction 1 as [|x l Hs IH Hx]; intros Hnd; [constructor|].
  apply NoDup_cons in Hnd as [Hni Hnd]. constructor; [auto|].
  rewrite Forall_forall in *. intros y Hy. specialize (Hx y Hy).
  assert (x ≠ y) by (by intros ->). lia.
Qed.

Lemma sort_desc_perm l : sort_desc l ≡ₚ l.
Proof. apply merge_sort_Permutation. Qed.

Lemma sort_desc_sorted l : StronglySorted ge (sort_desc l).
Proof. apply StronglySorted_merge_sort; apply _. Qed.

Lemma sort_desc_repeats l : repeats (sort_desc l) = false ↔ NoDup l.
Proof.
  pose proof (sort_desc_sorted l) as Hs.
  pose proof (sort_desc_perm l) as Hp.
  rewrite repeats_sorted by done. split.
  - intros Hgt. rewrite <-Hp. by apply sorted_gt_NoDup.
  - intros Hnd. rewrite <-Hp in Hnd. by apply sorted_ge_NoDup.
Qed.

Lemma index_all_Done tree indices hs :
  index_all tree indices = Done hs ↔ nodes_at tree indices hs.
Proof.
  revert hs. induction indices as [|i indices IH]; intros hs; simpl.
  { split; [intros [= <-]; constructor|by intros ->%Forall2_nil_inv_l]. }
  rewrite outcome_bind_Done. split.
  - intros (h & Hh & (hs' & Hhs & Heq)%outcome_bind_Done). simplify_eq.
    unfold index, unwrap in Hh. destruct (tree !! i) eqn:Hi; simplify_eq.
    constructor; [done|]. by apply IH.
  - intros (h & hs' & Hh & Hn & ->)%Forall2_cons_inv_l. exists h. unfold index. rewrite Hh.
    split; [done|]. apply IH in Hn. by rewrite Hn.
Qed.

Lemma nodes_at_exist tree l : Forall (λ i, i < length tree) l → ∃ hs, nodes_at tree l hs.
Proof.
  induction 1 as [|i l Hi _ [hs IH]]; [exists []; constructor|].
  destruct (lookup_lt_is_Some_2 tree i Hi) as [h Hh]. exists (h :: hs). by constructor.
Qed.

(** The leaves to prove make a stack in order. *)
Lemma leaves_stack_ok tree l :
  StronglySorted gt l → Forall (λ i, is_leaf_node tree i = true) l → stack_ok tree l.
Proof.
  unfold is_leaf_node, is_tree_node, is_internal_node, left_child_index. intros Hs Hl.
  assert (∀ i, i ∈ l → i < length tree ∧ length tree ≤ 2 * i + 1) as Hb.
  { rewrite Forall_forall in Hl. intros i [? Hn]%Hl%andb_true_iff.
    rewrite negb_true_iff in Hn. apply bool_decide_eq_true in H1.
    apply bool_decide_eq_false in Hn. unfold is_tree_node in Hn. lia. }
  split_and!; [done|apply Forall_forall; naive_solver|].
  intros j x Hj Hj0 Hx. destruct l as [|j' l]; simplify_eq/=.
  destruct (Hb j) as [Hj1 _]; [left|]. destruct (Hb x Hx). unfold parent. lia.
Qed.

Lemma get_multi_proof_ok tree indices root :
  merkle tree → tree !! 0 = Some root → Forall (λ i, Z.of_nat i < i32_max)%Z indices →
  Forall (λ i, is_leaf_node tree i = true) indices → NoDup indices →
  ∃ mp, get_multi_proof tree indices = Done mp ∧
    nodes_at tree (sort_desc indices) (leaves mp) ∧ process_multi_proof mp = Done root.
Proof.
  intros Ht Hroot Hmax Hleaf Hnd. unfold get_multi_proof.
  apply check_leaves_Done in Hleaf as Hc. rewrite Hc. change (Done tt ≫= ?f) with (f tt). cbv beta zeta.
  pose proof (sort_desc_perm indices) as Hp.
  apply sort_desc_repeats in Hnd as Hr. rewrite Hr.
  apply repeats_sorted in Hr; [|apply sort_desc_sorted].
  apply leaves_stack_ok with (tree := tree) in Hr; [|by rewrite Hp].
  destruct (nodes_at_exist tree (sort_desc indices)) as [hs Hhs]; [apply Hr|].
  apply index_all_Done in Hhs as Hia. rewrite Hia.
  destruct (decide (sort_desc indices = [])) as [Hnil|Hne].
  - rewrite Hnil in *. apply Forall2_nil_inv_l in Hhs as ->. unfold index. rewrite Hroot.
    eexists. split; [reflexivity|]. done.
  - destruct (multi_loop_spec tree root (sum_list (sort_desc indices)) (sort_desc indices) hs)
      as (prf & flags & -> & Hf & Hl & Hrun); [done..|by rewrite Hp|done|].
    rewrite (bool_decide_eq_false_2 _ Hne). unfold mbind, outcome_bind.
    eexists. split; [reflexivity|]. split; [done|].
    apply Forall2_length in Hhs. specialize (Hrun []). rewrite app_nil_r in Hrun.
    unfold process_multi_proof. cbn [proof proof_flags leaves].
    rewrite !bool_decide_eq_false_2 by lia. unfold mbind, outcome_bind. by rewrite Hrun.
Qed.

(** On a valid tree, [get_multi_proof] refuses indices that are not
    leaves and repeated ones; for distinct leaves it returns their hashes, highest index
    first, with a proof from which [process_multi_proof] recovers the root. *)
Lemma multi_proof_spec tree indices
    (Hvalid : is_valid_merkle_tree tree = true)
    (Hmax : Forall (λ i, Z.of_nat i < i32_max)%Z indices) :
  (¬ Forall (λ i, is_leaf_node tree i = true) indices →
    get_multi_proof tree indices = Fail "Index is not in tree"%string) ∧
  (Forall (λ i, is_leaf_node tree i = true) indices →
    (¬ NoDup indices → get_multi_proof tree indices = Fail "Cannot prove duplicated index"%string) ∧
    (NoDup indices →
      ∃ mp root, get_multi_proof tree indices = Done mp ∧
        Forall2 (λ i h, tree !! i = Some h) (sort_desc indices) (leaves mp) ∧
        tree !! 0 = Some root ∧ process_multi_proof mp = Done root)).
Proof.
  apply is_valid_merkle in Hvalid as Ht. destruct (merkle_root tree Ht) as [root Hroot].
  split; intros Hleaf; [unfold get_multi_proof; by rewrite check_leaves_Fail|].
  split; intros Hnd.
  - unfold get_multi_proof. apply check_leaves_Done in Hleaf as ->.
    change (Done tt ≫= ?f) with (f tt). cbv beta zeta.
    destruct (repeats _) eqn:Hr; [done|]. by apply sort_desc_repeats in Hr.
  - destruct (get_multi_proof_ok tree indices root) as (mp & ? & ? & ?); [done..|].
    by exists mp, root.
Qed.
End multi.

(** ** Malformed proofs for several leaves *)

Section malformed.
Context `{Keccak}.
Implicit Types (flags : list bool) (stack prf : list Hash).

Definition trues flags : nat := length flags - falses flags.

Lemma falses_le flags : falses flags ≤ length flags.
Proof. apply length_filter. Qed.

Lemma falses_cons (b : bool) flags : falses (b :: flags) = if b then falses flags else S (falses flags).
Proof. by destruct b. Qed.

Lemma process_loop_total flags stack prf :
  length stack = trues flags + 1 → falses flags ≤ length prf →
  ∃ h rest, process_loop flags stack prf = Done ([h], rest).
Proof.
  unfold trues. revert stack prf. induction flags as [|b flags IH]; intros stack prf Hs Hp.
  - destruct stack as [|h [|]]; simpl in *; try lia. by exists h, prf.
  - rewrite falses_cons in *. pose proof (falses_le flags).
    destruct stack as [|x stack], b; simpl in *; try lia.
    + destruct stack as [|y stack]; simpl in *; [lia|]. apply IH; [rewrite length_app; simpl; lia|lia].
    + destruct prf as [|y prf]; simpl in *; [lia|]. apply IH; [rewrite length_app; simpl; lia|lia].
Qed.

Lemma process_loop_panics flags stack prf :
  length stack ≤ trues flags → flags ≠ [] → falses flags ≤ length prf →
  process_loop flags stack prf = Panic.
Proof.
  unfold trues. revert stack prf. induction flags as [|b flags IH]; intros stack prf Hs Hne Hp; [done|].
  rewrite falses_cons in *. pose proof (falses_le flags).
  destruct stack as [|x stack], b; simpl in *; try done.
  - destruct stack as [|y stack]; [done|]. simpl in *.
    apply IH; [rewrite length_app; simpl; lia| |lia]. intros ->. simpl in *. lia.
  - destruct prf as [|y prf]; [done|]. simpl in *.
    apply IH; [rewrite length_app; simpl; lia| |lia]. intros ->. simpl in *. lia.
Qed.

(** [process_multi_proof] refuses a proof with fewer hashes
    than [false] flags or with a wrong total, and computes a hash when the proof has as
    many hashes as [false] flags or there are no flags.  Every other input passes both
    checks and panics: the first check should have demanded equality. *)
Lemma process_multi_proof_total (mp : MultiProof Hash Hash) :
  let p := length (proof mp) in
  let f := falses (proof_flags mp) in
  let total := length (leaves mp) + p = length (proof_flags mp) + 1 in
  (p < f → process_multi_proof mp = Fail "Invalid multiproof format"%string) ∧
  (f ≤ p → ¬ total →
     process_multi_proof mp = Fail "Provide leaves and multi_proof are not compatible"%string) ∧
  (total → p = f ∨ f ≤ p ∧ proof_flags mp = [] → ∃ root, process_multi_proof mp = Done root) ∧
  (total → f < p → proof_flags mp ≠ [] → process_multi_proof mp = Panic).
Proof.
  intros p f total. unfold process_multi_proof. fold p f.
  pose proof (falses_le (proof_flags mp)) as Hle. fold f in Hle.
  split_and!.
  - intros Hlt. by rewrite bool_decide_eq_true_2.
  - intros Hge Ht. rewrite bool_decide_eq_false_2 by lia. by rewrite bool_decide_eq_true_2.
  - unfold total. intros Ht Hcase. rewrite !bool_decide_eq_false_2 by lia.
    destruct Hcase as [Heq|[_ Hnil]].
    + destruct (process_loop_total (proof_flags mp) (leaves mp) (proof mp)) as (h & rest & ->);
        [unfold trues; fold f; lia|fold f p; lia|]. by exists h.
    + unfold p in Ht. rewrite Hnil in *.
      destruct (leaves mp) as [|h [|]], (proof mp) as [|h' [|]]; simpl in *; try lia; eauto.
  - unfold total. intros Ht Hlt Hne. rewrite !bool_decide_eq_false_2 by lia.
    rewrite process_loop_panics; [done|unfold trues; fold f; lia|done|fold f p; lia].
Qed.
End malformed.

(** ** Binding *)

Section binding.
Context `{Keccak}.
Implicit Types (tree ls : list Hash) (h : Hash) (prf : list Hash) (xs ys : list (list byte)).

(** Two different strings, one of [xs] and one of [ys], with the same hash. *)
Definition collides xs ys : Prop :=
  ∃ x y, x ∈ xs ∧ y ∈ ys ∧ x ≠ y ∧ keccak256 x = keccak256 y.

(** What is hashed for the inner nodes of a tree, and in processing a proof. *)
Definition tree_inputs tree : list (list byte) :=
  omap (λ i, l ← tree !! left_child_index i; r ← tree !! right_child_index i; Some (pair_bytes l r))
    (seq 0 (length tree)).

Fixpoint proof_inputs h prf : list (list byte) :=
  match prf with
  | [] => []
  | b :: prf => pair_bytes h b :: proof_inputs (hash_pair h b) prf
  end.

Lemma proof_inputs_snoc h prf b :
  proof_inputs h (prf ++ [b]) = proof_inputs h prf ++ [pair_bytes (fold_left (λ a b, hash_pair a b) prf h) b].
Proof. revert h. induction prf as [|c prf IH]; intros h; simpl; [done|]. by rewrite IH. Qed.

Lemma same_hash xs ys x y :
  x ∈ xs → y ∈ ys → keccak256 x = keccak256 y → x = y ∨ collides xs ys.
Proof. intros. destruct (decide (x = y)); [by left|]. right. by exists x, y. Qed.

Lemma collides_mono xs xs' ys ys' : xs ⊆ xs' → ys ⊆ ys' → collides xs ys → collides xs' ys'.
Proof. intros Hx Hy (x & y & ? & ? & ? & ?). exists x, y. auto. Qed.

Lemma elem_of_tree_inputs tree i l r :
  tree !! left_child_index i = Some l → tree !! right_child_index i = Some r →
  pair_bytes l r ∈ tree_inputs tree.
Proof.
  intros Hl Hr. apply list_elem_of_omap. exists i. split.
  - apply elem_of_seq. apply lookup_lt_Some in Hr. unfold right_child_index in Hr. lia.
  - by rewrite Hl, Hr.
Qed.

(** A proof that leads to node [i] starts at a node, or goes on below a leaf, unless two
    of the strings hashed collide. *)
Lemma proof_path tree i h prf :
  merkle tree → tree !! i = Some (fold_left (λ a b, hash_pair a b) prf h) →
  (∃ j, tree !! j = Some h) ∨
  (∃ j a b, is_leaf_node tree j = true ∧ tree !! j = Some (hash_pair a b) ∧
            pair_bytes a b ∈ proof_inputs h prf) ∨
  collides (tree_inputs tree) (proof_inputs h prf).
Proof.
  intros Ht. revert i. induction prf as [|b prf IH] using rev_ind; intros i Hi.
  { left. by exists i. }
  rewrite proof_inputs_snoc. rewrite fold_left_app in Hi. simpl in Hi.
  set (a := fold_left (λ a b, hash_pair a b) prf h) in *.
  destruct (is_leaf_node tree i) eqn:Hleaf.
  { right. left. exists i, a, b. split_and!; [done..|]. apply elem_of_app. right. left. }
  destruct Ht as [Hne Ht]. destruct (Ht i) as (l & r & Hl & Hr & Hn).
  { unfold is_leaf_node, is_internal_node, is_tree_node in Hleaf.
    apply lookup_lt_Some in Hi. rewrite bool_decide_eq_true_2 in Hleaf by done. simpl in Hleaf.
    by rewrite negb_false_iff, bool_decide_eq_true in Hleaf. }
  rewrite Hn in Hi. injection Hi as Hi. rewrite !hash_pair_bytes in Hi.
  destruct (same_hash (tree_inputs tree) (proof_inputs h prf ++ [pair_bytes a b]) (pair_bytes l r) (pair_bytes a b))
    as [Heq|]; [by eapply elem_of_tree_inputs|apply elem_of_app; right; left|done| |by auto].
  assert (∃ k, tree !! k = Some a) as [k Hk].
  { apply pair_bytes_inj in Heq as [[-> ->]|[-> ->]]; eauto. }
  destruct (IH k Hk) as [Hj|[(j & c & d & Hj & Hc & Hin)|Hcol]]; [by left|..].
  - right. left. exists j, c, d. split_and!; [done..|]. apply elem_of_app. by left.
  - right. right. eapply collides_mono; [| |exact Hcol]; [done|].
    intros x Hx. apply elem_of_app. by left.
Qed.

Lemma leaf_of_made ls tree j h :
  make_merkle_tree ls = Done tree → tree !! j = Some h → is_leaf_node tree j = true → h ∈ ls.
Proof.
  intros Hm Hj Hleaf. destruct (decide (ls = [])) as [->|Hne]; [done|].
  destruct (make_merkle_tree_Done ls Hne) as (t & Hm' & Hlen & Hd & _).
  rewrite Hm in Hm'. injection Hm' as <-.
  unfold is_leaf_node, is_internal_node, is_tree_node, left_child_index in Hleaf.
  rewrite andb_true_iff, negb_true_iff, bool_decide_eq_true, bool_decide_eq_false in Hleaf.
  apply elem_of_reverse. rewrite <-Hd.
  apply list_elem_of_lookup. exists (j - (length ls - 1)). rewrite lookup_drop.
  by replace (length ls - 1 + (j - (length ls - 1))) with j by lia.
Qed.

Lemma inner_of_made tree j h :
  merkle tree → tree !! j = Some h → is_leaf_node tree j = false →
  ∃ x, x ∈ tree_inputs tree ∧ length x = 64 ∧ h = keccak256 x.
Proof.
  intros [_ Ht] Hj Hleaf. destruct (Ht j) as (l & r & Hl & Hr & Hn).
  { unfold is_leaf_node, is_internal_node, is_tree_node in Hleaf. apply lookup_lt_Some in Hj.
    rewrite bool_decide_eq_true_2 in Hleaf by done. simpl in Hleaf.
    by rewrite negb_false_iff, bool_decide_eq_true in Hleaf. }
  exists (pair_bytes l r). rewrite length_pair_bytes, <-hash_pair_bytes.
  split_and!; [by eapply elem_of_tree_inputs|done|congruence].
Qed.

Lemma made_merkle ls tree : make_merkle_tree ls = Done tree → merkle tree.
Proof.
  intros Hm. destruct (decide (ls = [])) as [->|Hne]; [done|].
  destruct (make_merkle_tree_Done ls Hne) as (t & Hm' & _ & _ & Ht). congruence.
Qed.

(** The leaves of a tree are the hashes of the 32-byte strings [xs].  If a proof leads
    from the hash of a 32-byte string [y] to the root, then [y] is one of them, unless a
    string hashed for the tree and one hashed by the verifier collide. *)
Lemma proof_binds_leaf xs tree y prf root :
  Forall (λ x, length x = 32) xs → length y = 32 →
  make_merkle_tree (keccak256 <$> xs) = Done tree → tree !! 0 = Some root →
  process_proof (keccak256 y) prf = Done root →
  y ∈ xs ∨ collides (xs ++ tree_inputs tree) (y :: proof_inputs (keccak256 y) prf).
Proof.
  intros Hxs Hy Hm Hroot [= <-]. pose proof (made_merkle _ _ Hm) as Ht.
  rewrite Forall_forall in Hxs.
  assert (xs ⊆ xs ++ tree_inputs tree ∧ tree_inputs tree ⊆ xs ++ tree_inputs tree) as [Hsx Hst].
  { split; intros x Hx; apply elem_of_app; auto. }
  destruct (proof_path tree 0 _ _ Ht Hroot) as [[j Hj]|[(j & a & b & Hleaf & Hj & Hin)|Hcol]].
  - destruct (is_leaf_node tree j) eqn:Hleaf.
    + pose proof (leaf_of_made _ _ _ _ Hm Hj Hleaf) as (x & Hx & Hxin)%list_elem_of_fmap.
      destruct (same_hash (xs ++ tree_inputs tree) (y :: proof_inputs (keccak256 y) prf) x y) as [->|]; auto.
      left.
    + destruct (inner_of_made tree j _ Ht Hj Hleaf) as (x & Hx & Hlen & Heq). right.
      exists x, y. split_and!; [auto|left|intros ->; lia|done].
  - right. pose proof (leaf_of_made _ _ _ _ Hm Hj Hleaf) as (x & Hx & Hxin)%list_elem_of_fmap.
    exists x, (pair_bytes a b). rewrite <-hash_pair_bytes. split_and!; [auto|by right| |done].
    intros ->. apply Hxs in Hxin. by rewrite length_pair_bytes in Hxin.
  - right. eapply collides_mono; [exact Hst| |exact Hcol]. intros x Hx. by right.
Qed.
End binding.

(** ** A concrete instance *)

Module SampleKeccak.
(** A toy digest: the length and the sum of the bytes weighted by their position, at both
    ends of the word. *)
Definition byte_of (n : N) : byte := default x00 (Byte.of_N (n `mod` 256)%N).
Definition weigh (bs : list byte) : N :=
  (fold_left (λ '(s, k) b, (s + k * Byte.to_N b, k + 1)) bs (0, 1)).1%N.
Definition digest (bs : list byte) : Hash :=
  byte_of (N.of_nat (length bs)) ::: byte_of (weigh bs) ::: byte_of (weigh bs / 256)%N :::
    (vreplicate 27 x00 +++ [# byte_of (weigh bs); byte_of (weigh bs / 256)%N]).

#[export] Instance sample_keccak : Keccak := {| keccak256 := digest |}.

Definition leaf (n : N) : Hash := digest (replicate 32 (byte_of n)).
Definition sample_leaves : list Hash := [leaf 1; leaf 2; leaf 3; leaf 4; leaf 5].
Definition sample_tree : list Hash :=
  match make_merkle_tree sample_leaves with Done t => t | _ => [] end.
End SampleKeccak.

Section witnesses.
Import SampleKeccak.
#[local] Existing Instance dev_profile.

(** The tree of five leaves has nine nodes; the fifth leaf sits at index 4. *)
Lemma get_proof_spec_witness :
  ∃ p h root, get_proof sample_tree 4 = Done p ∧ length p = 2 ∧
    sample_tree !! 4 = Some h ∧ sample_tree !! 0 = Some root ∧ process_proof h p = Done root.
Proof.
  destruct (get_proof_spec sample_tree 4) as [_ Hd].
  - vm_compute. reflexivity.
  - vm_compute. reflexivity.
  - destruct Hd as [Hd _]; [vm_compute; reflexivity|].
    destruct Hd as (p & h & root & ? & Hl & ? & ? & ?); [vm_compute; reflexivity|].
    exists p, h, root. auto.
Defined.

Lemma multi_proof_spec_witness :
  ∃ mp root, get_multi_proof sample_tree [5; 8; 7] = Done mp ∧
    Forall2 (λ i h, sample_tree !! i = Some h) (sort_desc [5; 8; 7]) (leaves mp) ∧
    sample_tree !! 0 = Some root ∧ process_multi_proof mp = Done root.
Proof.
  destruct (multi_proof_spec sample_tree [5; 8; 7]) as [_ Hd].
  - vm_compute. reflexivity.
  - repeat constructor.
  - destruct Hd as [_ Hd]; [repeat constructor|]. apply Hd.
    apply (bool_decide_unpack _). vm_compute. exact I.
Defined.
End witnesses.
