(* ===== verification/MerkleStandard.v ===== *)
(** * Merkle trees of values

    Models [ext/merkle-tree-rs/src/standard.rs] and [format.rs]: a Merkle tree over rows of
    strings that are ABI encoded and hashed twice, with lookup of a row by its hash, proofs,
    and the dump format.  The ABI codec and the hexadecimal codec are third-party crates and
    appear as the classes [Abi] and [Hex]. *)

From Stdlib Require Import Strings.Ascii Strings.Byte ZifyNat.
From stdpp Require Import vector.
From S2P Require Import Prelude Merkle.

#[local] Open Scope nat_scope.

Class Abi := {
  ParamType : Type;
  read_param : string → string + ParamType;
  Token : Type;
  tokenize : ParamType → string → string + Token;
  abi_encode : list Token → list byte
}.

Class Hex := {
  hex_encode : list byte → string;
  hex_decode : string → string + list byte
}.

(** [hex::decode] inverts [hex::encode], whose output is ASCII. *)
Class HexLaws `{Hex} := {
  hex_decode_encode : ∀ bs, hex_decode (hex_encode bs) = inr bs;
  hex_encode_ascii : ∀ bs c s, hex_encode bs = String c s → Ascii.nat_of_ascii c < 128
}.

(** The trait [FormatHash] and its two implementations. *)
Class FormatHash := {
  Out : Type;
  format : Hash → Out
}.

Definition Hex0x `{Hex} : FormatHash :=
  {| Out := string; format h := ("0x" +:+ hex_encode (vec_to_list h))%string |}.
Definition Raw : FormatHash := {| Out := Hash; format h := h |}.

Record HashedValues := MkHashedValues {
  hv_value : list string;
  value_index : nat;
  hv_hash : Hash
}.

Record Values := MkValues {
  value : list string;
  tree_index : nat
}.

Record StandardMerkleTreeData := MkData {
  data_format : string;
  data_tree : list string;
  data_values : list Values;
  data_leaf_encoding : list string
}.

Record StandardMerkleTree := MkTree {
  hash_lookup : gmap Hash nat;
  tree : list Hash;
  values : list Values;
  leaf_encoding : list string
}.

Inductive LeafType :=
| Number (i : nat)
| LeafBytes (v : list string).

(** The order of hashes. *)
Definition hash_le (a b : Hash) : Prop := bytes_cmp a b ≠ Gt.
Definition hashed_le (a b : HashedValues) : Prop := hash_le (hv_hash a) (hv_hash b).
#[export] Instance hashed_le_dec a b : Decision (hashed_le a b).
Proof. unfold hashed_le, hash_le. apply _. Defined.

(** [Hash::from_slice], which panics unless it is given 32 bytes. *)
Definition hash_from_slice (bs : list byte) : outcome string Hash :=
  if bool_decide (length bs = 32)
  then Done (vec_of_list bs)
  else Panic.

(** A string can be split after its second byte unless that cuts a character. *)
Definition char_boundary_2 (s : string) : bool :=
  match s with
  | String _ (String _ (String c _)) => negb ((128 <=? Ascii.nat_of_ascii c) && (Ascii.nat_of_ascii c <? 192))
  | String _ (String _ EmptyString) => true
  | _ => false
  end.

Section standard.
Context `{Profile, Keccak, Abi, FormatHash}.

(** ** Leaves *)

Fixpoint tokens_from (vals : list string) (i : nat) (params : list string) : outcome string (list Token) :=
  match params with
  | [] => Done []
  | p :: params =>
      match read_param p with
      | inl e => Fail e
      | inr param_type =>
          v ← unwrap (vals !! i);
          match tokenize param_type v with
          | inl e => Fail e
          | inr t => ts ← tokens_from vals (S i) params; Done (t :: ts)
          end
      end
  end.

Definition standard_leaf_hash (vals params : list string) : outcome string Hash :=
  tokens ← tokens_from vals 0 params;
  Done (keccak256 (vec_to_list (keccak256 (abi_encode tokens)))).

Definition check_bounds {A} (l : list A) (i : nat) : outcome string unit :=
  if bool_decide (length l ≤ i) then Fail "Index out of range"%string else Done tt.

(** ** Construction *)

Fixpoint lookup_from (i : nat) (vals : list Values) (enc : list string) (m : gmap Hash nat)
    : outcome string (gmap Hash nat) :=
  match vals with
  | [] => Done m
  | v :: vals =>
      h ← standard_leaf_hash (value v) enc;
      lookup_from (S i) vals enc (<[h := i]> m)
  end.

Definition new (nodes : list Hash) (vals : list Values) (enc : list string)
    : outcome string StandardMerkleTree :=
  m ← lookup_from 0 vals enc ∅;
  Done (MkTree m nodes vals enc).

Fixpoint hash_values (i : nat) (vals : list (list string)) (enc : list string)
    : outcome string (list HashedValues) :=
  match vals with
  | [] => Done []
  | v :: vals =>
      h ← standard_leaf_hash v enc;
      rest ← hash_values (S i) vals enc;
      Done (MkHashedValues v i h :: rest)
  end.

(** [indexed_values[v.value_index].tree_index = tree.len() - i - 1]. *)
Fixpoint assign_indices (len i : nat) (hashed : list HashedValues) (vals : list Values)
    : outcome string (list Values) :=
  match hashed with
  | [] => Done vals
  | hv :: hashed =>
      old ← index vals (value_index hv);
      vals ← index_set vals (value_index hv) (MkValues (value old) (len - i - 1));
      assign_indices len (S i) hashed vals
  end.

Definition tree_of (vals : list (list string)) (enc : list string) : outcome string StandardMerkleTree :=
  hashed_values ← hash_values 0 vals enc;
  let hashed_values := merge_sort hashed_le hashed_values in
  nodes ← make_merkle_tree (hv_hash <$> hashed_values);
  indexed_values ← assign_indices (length nodes) 0 hashed_values ((λ v, MkValues v 0) <$> vals);
  new nodes indexed_values enc.

(** ** Dump and load *)

Definition parse_node `{Hex} (leaf : string) : outcome string Hash :=
  if char_boundary_2 leaf then
    match hex_decode (String.substring 2 (String.length leaf - 2) leaf) with
    | inl _ => Panic
    | inr bs => hash_from_slice bs
    end
  else Panic.

Fixpoint parse_nodes `{Hex} (l : list string) : outcome string (list Hash) :=
  match l with
  | [] => Done []
  | leaf :: l => h ← parse_node leaf; hs ← parse_nodes l; Done (h :: hs)
  end.

Definition load `{Hex} (data : StandardMerkleTreeData) : outcome string StandardMerkleTree :=
  if bool_decide (data_format data ≠ "standard-v1"%string) then Fail "Unknown format"%string else
  nodes ← parse_nodes (data_tree data);
  new nodes (data_values data) (data_leaf_encoding data).

Definition dump `{Hex} (t : StandardMerkleTree) : StandardMerkleTreeData :=
  MkData "standard-v1" ((λ leaf : Hash, ("0x" +:+ hex_encode (vec_to_list leaf))%string) <$> tree t)
    (values t) (leaf_encoding t).

(** ** Queries *)

Definition root (t : StandardMerkleTree) : outcome string Out :=
  h ← index (tree t) 0; Done (format h).

Definition validate_value (t : StandardMerkleTree) (i : nat) : outcome string unit :=
  check_bounds (values t) i ≫= λ _,
  v ← unwrap (values t !! i);
  check_bounds (tree t) (tree_index v) ≫= λ _,
  leaf ← standard_leaf_hash (value v) (leaf_encoding t);
  node ← unwrap (tree t !! tree_index v);
  if bool_decide (leaf ≠ node) then Fail "Merkle tree does not contain the expected value"%string
  else Done tt.

Fixpoint validate_all (t : StandardMerkleTree) (js : list nat) : outcome string unit :=
  match js with
  | [] => Done tt
  | i :: js => validate_value t i ≫= λ _, validate_all t js
  end.

Definition validate (t : StandardMerkleTree) : outcome string unit :=
  validate_all t (seq 0 (length (values t))).

Definition leaf_hash (t : StandardMerkleTree) (leaf : list string) : outcome string Out :=
  h ← standard_leaf_hash leaf (leaf_encoding t); Done (format h).

Definition leaf_lookup (t : StandardMerkleTree) (leaf : list string) : outcome string nat :=
  h ← standard_leaf_hash leaf (leaf_encoding t);
  match hash_lookup t !! h with
  | Some i => Done i
  | None => Fail "Leaf is not in tree"%string
  end.

Definition value_index_of (t : StandardMerkleTree) (leaf : LeafType) : outcome string nat :=
  match leaf with
  | Number i => Done i
  | LeafBytes v => leaf_lookup t v
  end.

Definition tree_get_proof (t : StandardMerkleTree) (leaf : LeafType) : outcome string (list Out) :=
  i ← value_index_of t leaf;
  validate_value t i ≫= λ _,
  v ← unwrap (values t !! i);
  prf ← get_proof (tree t) (tree_index v);
  hash ← unwrap (tree t !! tree_index v);
  implied_root ← process_proof hash prf;
  first ← unwrap (head (tree t));
  if bool_decide (implied_root ≠ first) then Fail "Unable to prove value"%string
  else Done (format <$> prf).

Fixpoint value_indices_of (t : StandardMerkleTree) (ls : list LeafType) : outcome string (list nat) :=
  match ls with
  | [] => Done []
  | leaf :: ls => i ← value_index_of t leaf; rest ← value_indices_of t ls; Done (i :: rest)
  end.

Fixpoint tree_indices_of (t : StandardMerkleTree) (js : list nat) : outcome string (list nat) :=
  match js with
  | [] => Done []
  | i :: js =>
      v ← unwrap (values t !! i); rest ← tree_indices_of t js; Done (tree_index v :: rest)
  end.

Fixpoint rows_of (t : StandardMerkleTree) (hs : list Hash) : outcome string (list (list string)) :=
  match hs with
  | [] => Done []
  | h :: hs =>
      i ← unwrap (hash_lookup t !! h);
      v ← unwrap (values t !! i);
      rest ← rows_of t hs;
      Done (value v :: rest)
  end.

Definition tree_get_multi_proof (t : StandardMerkleTree) (ls : list LeafType)
    : outcome string (MultiProof (list string) Out) :=
  value_indices ← value_indices_of t ls;
  validate_all t value_indices ≫= λ _,
  indices ← tree_indices_of t value_indices;
  multi_proof ← get_multi_proof (tree t) indices;
  implied_root ← process_multi_proof multi_proof;
  first ← unwrap (head (tree t));
  if bool_decide (implied_root ≠ first) then Fail "Unable to prove value"%string else
  rows ← rows_of t (leaves multi_proof);
  Done (MkMultiProof rows (format <$> proof multi_proof) (proof_flags multi_proof)).

(** The iterator yields the rows in order and removes them. *)
Definition next (t : StandardMerkleTree) : option (list string) * StandardMerkleTree :=
  match values t with
  | v :: vals => (Some (value v), MkTree (hash_lookup t) (tree t) vals (leaf_encoding t))
  | [] => (None, t)
  end.
End standard.

(** ** Well-formed trees *)

Section wf.
Context `{Profile, Keccak, Abi, FormatHash}.
Implicit Types (t : StandardMerkleTree) (vals : list Values) (enc : list string).

(** The row is the leaf its index points to. *)
Definition row_ok (nodes : list Hash) enc (v : Values) : Prop :=
  ∃ h, standard_leaf_hash (value v) enc = Done h ∧ nodes !! tree_index v = Some h ∧
       is_leaf_node nodes (tree_index v) = true.

(** The table finds, for the hash of a row, a row with that hash. *)
Definition lookup_ok (m : gmap Hash nat) vals enc : Prop :=
  (∀ h i, m !! h = Some i → ∃ v, vals !! i = Some v ∧ standard_leaf_hash (value v) enc = Done h) ∧
  (∀ i v h, vals !! i = Some v → standard_leaf_hash (value v) enc = Done h → is_Some (m !! h)).

Definition well_formed t : Prop :=
  merkle (tree t) ∧ Forall (row_ok (tree t) (leaf_encoding t)) (values t) ∧
  lookup_ok (hash_lookup t) (values t) (leaf_encoding t).

Lemma lookup_from_spec pre vals enc m m' :
  lookup_ok m pre enc → lookup_from (length pre) vals enc m = Done m' →
  lookup_ok m' (pre ++ vals) enc.
Proof.
  revert pre m. induction vals as [|v vals IH]; intros pre m [Hs Hc]; simpl.
  { rewrite app_nil_r. by intros [= <-]. }
  intros (h & Hh & Hrun)%outcome_bind_Done.
  replace (pre ++ v :: vals) with ((pre ++ [v]) ++ vals) by by rewrite <-app_assoc.
  apply (IH (pre ++ [v]) (<[h := length pre]> m)); [|by rewrite length_app, Nat.add_1_r].
  split.
  - intros h' i. rewrite lookup_insert_Some. intros [[<- <-]|[_ (w & Hw & ?)%Hs]].
    + exists v. split; [|done]. by apply list_lookup_middle.
    + exists w. split; [|done]. by apply lookup_app_l_Some.
  - intros i w h' [Hw|[_ Hw]]%lookup_app_Some Hh'.
    + destruct (decide (h = h')) as [->|Hne]; [rewrite lookup_insert_eq; eauto|].
      rewrite lookup_insert_ne by done. eauto.
    + apply list_lookup_singleton_Some in Hw as [_ <-]. rewrite Hh in Hh'. injection Hh' as <-.
      rewrite lookup_insert_eq. eauto.
Qed.

Lemma new_spec nodes vals enc t :
  new nodes vals enc = Done t →
  tree t = nodes ∧ values t = vals ∧ leaf_encoding t = enc ∧ lookup_ok (hash_lookup t) vals enc.
Proof.
  unfold new. intros (m & Hm & [= <-])%outcome_bind_Done. split_and!; [done..|].
  apply (lookup_from_spec [] vals enc ∅ m); [|done]. split; intros *; by rewrite ?lookup_empty, ?lookup_nil.
Qed.

Lemma hash_values_spec k rows enc hvs :
  hash_values k rows enc = Done hvs →
  Forall2 (λ row hv, hv_value hv = row ∧ standard_leaf_hash row enc = Done (hv_hash hv)) rows hvs ∧
  value_index <$> hvs = seq k (length rows).
Proof.
  revert k hvs. induction rows as [|row rows IH]; intros k hvs; simpl.
  { intros [= <-]. by split; [constructor|]. }
  intros (h & Hh & (rest & Hrest & [= <-])%outcome_bind_Done)%outcome_bind_Done.
  destruct (IH _ _ Hrest) as [Hf Hs]. split; [by constructor|]. csimpl. by rewrite Hs.
Qed.

(** Each row gets the index assigned for its hash; the others keep theirs. *)
Lemma assign_indices_spec len k hvs vals :
  NoDup (value_index <$> hvs) → Forall (λ hv, value_index hv < length vals) hvs →
  ∃ vals', assign_indices len k hvs vals = Done vals' ∧ value <$> vals' = value <$> vals ∧
    (∀ j hv, hvs !! j = Some hv →
       ∃ v, vals !! value_index hv = Some v ∧
            vals' !! value_index hv = Some (MkValues (value v) (len - (k + j) - 1))) ∧
    (∀ i, i ∉ value_index <$> hvs → vals' !! i = vals !! i).
Proof.
  revert k vals. induction hvs as [|hv hvs IH]; intros k vals Hnd Hlt; simpl.
  { exists vals. split_and!; [done..|]. done. }
  apply NoDup_cons in Hnd as [Hni Hnd]. apply Forall_cons in Hlt as [Hlt Hlts].
  destruct (lookup_lt_is_Some_2 vals (value_index hv) Hlt) as [old Hold].
  unfold index, index_set. rewrite Hold. unfold unwrap, mbind, outcome_bind.
  rewrite bool_decide_eq_true_2 by done.
  set (vals1 := <[value_index hv := MkValues (value old) (len - k - 1)]> vals).
  destruct (IH (S k) vals1) as (vals' & Hrun & Hval & Hset & Hkeep); [done| |].
  { unfold vals1. by rewrite length_insert. }
  exists vals'. split_and!; [done| | |].
  - rewrite Hval. unfold vals1. rewrite list_fmap_insert. simpl. apply list_insert_id.
    by rewrite list_lookup_fmap, Hold.
  - intros [|j] hv' Hhv; simpl in Hhv.
    + injection Hhv as <-. exists old. split; [done|].
      rewrite Hkeep by done. unfold vals1. rewrite list_lookup_insert_eq by done. do 2 f_equal. lia.
    + destruct (Hset j hv' Hhv) as (v & Hv & Hv'). exists v.
      assert (value_index hv ≠ value_index hv').
      { intros Heq. apply Hni. rewrite Heq. apply list_elem_of_fmap. exists hv'.
        split; [done|]. by eapply list_elem_of_lookup_2. }
      unfold vals1 in Hv. rewrite list_lookup_insert_ne in Hv by done. split; [done|].
      rewrite Hv'. do 2 f_equal. lia.
  - intros i [Hne Hni']%not_elem_of_cons. rewrite Hkeep by done. unfold vals1.
    by rewrite list_lookup_insert_ne.
Qed.

(** The leaf at position [j] of the input is the node [len - j - 1]. *)
Lemma made_leaf ls nodes j h :
  make_merkle_tree ls = Done nodes → ls !! j = Some h →
  length nodes = 2 * length ls - 1 ∧ nodes !! (length nodes - j - 1) = Some h ∧
  is_leaf_node nodes (length nodes - j - 1) = true.
Proof.
  intros Hm Hj. pose proof (lookup_lt_Some _ _ _ Hj) as Hlt.
  destruct (make_merkle_tree_Done ls) as (t & Hm' & Hlen & Hd & _); [by intros ->|].
  rewrite Hm in Hm'. injection Hm' as <-. split_and!; [done|..].
  - assert (drop (length ls - 1) nodes !! (length ls - 1 - j) = Some h) as Hdj.
    { rewrite Hd, reverse_lookup by lia. by replace (length ls - S (length ls - 1 - j)) with j by lia. }
    rewrite lookup_drop in Hdj.
    by replace (length nodes - j - 1) with (length ls - 1 + (length ls - 1 - j)) by lia.
  - unfold is_leaf_node, is_internal_node, is_tree_node, left_child_index.
    rewrite bool_decide_eq_true_2, bool_decide_eq_false_2 by lia. done.
Qed.

Lemma merge_sort_hashed (hvs : list HashedValues) : merge_sort hashed_le hvs ≡ₚ hvs.
Proof. apply merge_sort_Permutation. Qed.

(** The hashes of the rows that have one. *)
Definition row_hashes (rows : list (list string)) enc : list Hash :=
  omap (λ row, match standard_leaf_hash row enc with Done h => Some h | _ => None end) rows.

Lemma sorted_rows rows enc hvs :
  hash_values 0 rows enc = Done hvs →
  let sorted := merge_sort hashed_le hvs in
  NoDup (value_index <$> sorted) ∧ length sorted = length rows ∧
  (∀ hv, hv ∈ sorted → ∃ row, rows !! value_index hv = Some row ∧
                            standard_leaf_hash row enc = Done (hv_hash hv)) ∧
  (∀ i, i < length rows → i ∈ value_index <$> sorted) ∧ hv_hash <$> sorted ≡ₚ row_hashes rows enc.
Proof.
  intros Hhv sorted. destruct (hash_values_spec 0 rows enc hvs Hhv) as [Hf2 Hidx].
  assert (sorted ≡ₚ hvs) as Hp by apply merge_sort_hashed. apply Forall2_length in Hf2 as Hlen.
  split_and!.
  - rewrite Hp, Hidx. apply NoDup_seq.
  - by rewrite Hp.
  - intros hv Hin. rewrite Hp in Hin. apply list_elem_of_lookup in Hin as [j Hj].
    destruct (Forall2_lookup_r _ _ _ _ _ Hf2 Hj) as (row & Hr & _ & Hh).
    assert ((value_index <$> hvs) !! j = Some (value_index hv)) as Hv by by rewrite list_lookup_fmap, Hj.
    rewrite Hidx in Hv. apply lookup_seq in Hv as [-> _]. by exists row.
  - intros i Hi. rewrite Hp, Hidx. apply elem_of_seq. lia.
  - rewrite Hp. clear -Hf2. unfold row_hashes.
    induction Hf2 as [|row hv rows hvs [_ Hh] _ IH]; [done|]. csimpl. rewrite Hh. by rewrite IH.
Qed.

(** A tree that [of] returns is well-formed and has the given rows. *)
Lemma tree_of_spec rows enc t :
  tree_of rows enc = Done t →
  well_formed t ∧ value <$> values t = rows ∧ leaf_encoding t = enc ∧ rows ≠ [] ∧
  length (tree t) = 2 * length rows - 1 ∧ NoDup (tree_index <$> values t) ∧
  ∃ hs, hs ≡ₚ row_hashes rows enc ∧ make_merkle_tree hs = Done (tree t).
Proof.
  unfold tree_of. intros (hvs & Hhv & Hrun)%outcome_bind_Done.
  apply outcome_bind_Done in Hrun as (nodes & Hm & (vals & Ha & Hn)%outcome_bind_Done).
  destruct (sorted_rows rows enc hvs Hhv) as (Hnd & Hlen & Hrow & Hall & Hp).
  set (sorted := merge_sort hashed_le hvs) in *.
  destruct (assign_indices_spec (length nodes) 0 sorted ((λ v, MkValues v 0) <$> rows))
    as (vals' & Ha' & Hval & Hset & _); [done| |].
  { apply Forall_forall. intros hv Hin. destruct (Hrow hv Hin) as (row & Hr & _).
    rewrite length_fmap. by eapply lookup_lt_Some. }
  rewrite Ha in Ha'. injection Ha' as <-.
  destruct (new_spec _ _ _ _ Hn) as (Ht & Hv & He & Hlk). unfold well_formed. rewrite Ht, Hv, He.
  assert (value <$> vals = rows) as Hvr.
  { rewrite Hval, <-list_fmap_compose. apply list_fmap_id. }
  assert (rows ≠ []) as Hne.
  { intros ->. by destruct sorted. }
  assert (length nodes = 2 * length rows - 1) as Hln.
  { destruct (make_merkle_tree_Done (hv_hash <$> sorted)) as (nodes' & Hm' & Hl' & _).
    { intros Heq%fmap_nil_inv. rewrite Heq in Hlen. by destruct rows. }
    rewrite Hm in Hm'. injection Hm' as <-. rewrite length_fmap in Hl'. lia. }
  assert (∀ i v, vals !! i = Some v → ∃ j hv, sorted !! j = Some hv ∧ value_index hv = i ∧
    rows !! i = Some (value v) ∧ tree_index v = length nodes - j - 1) as Hfind.
  { intros i v Hi. assert (i < length rows) as Hlt.
    { rewrite <-Hvr, length_fmap. by eapply lookup_lt_Some. }
    apply Hall, list_elem_of_fmap in Hlt as (hv & -> & [j Hj]%list_elem_of_lookup).
    destruct (Hset j hv Hj) as (v0 & Hv0 & Hv1). rewrite Hi in Hv1. injection Hv1 as ->.
    exists j, hv. split_and!; [done..| |done]. by rewrite <-Hvr, list_lookup_fmap, Hi. }
  split_and!; [by eapply made_merkle| |done..| |].
  - apply Forall_lookup. intros i v Hi. destruct (Hfind i v Hi) as (j & hv & Hj & <- & Hri & Htv).
    destruct (Hrow hv) as (row' & Hr' & Hh); [by eapply list_elem_of_lookup_2|].
    exists (hv_hash hv). rewrite Hri in Hr'. injection Hr' as ->. split; [done|]. rewrite Htv.
    apply (made_leaf (hv_hash <$> sorted)); [done|]. by rewrite list_lookup_fmap, Hj.
  - apply NoDup_alt. intros i i' x. rewrite !list_lookup_fmap.
    intros (v & (j & hv & Hj & <- & _ & Ht1)%Hfind & ->)%fmap_Some.
    intros (v' & (j' & hv' & Hj' & <- & _ & Ht2)%Hfind & Heq)%fmap_Some.
    apply lookup_lt_Some in Hj as Hlt1. apply lookup_lt_Some in Hj' as Hlt2.
    assert (j = j') as -> by lia. congruence.
  - exists (hv_hash <$> sorted). done.
Qed.

(** ** Proofs of rows *)

Lemma validate_value_ok t i v :
  well_formed t → values t !! i = Some v → validate_value t i = Done tt.
Proof.
  intros (_ & Hrows & _) Hv. apply Forall_lookup_1 with (i := i) (x := v) in Hrows; [|done].
  destruct Hrows as (h & Hh & Hn & _). unfold validate_value, check_bounds.
  pose proof (lookup_lt_Some _ _ _ Hv). pose proof (lookup_lt_Some _ _ _ Hn).
  rewrite bool_decide_eq_false_2 by lia. change (Done tt ≫= ?f) with (f tt). cbv beta.
  rewrite Hv. cbn [unwrap]. unfold mbind, outcome_bind. rewrite bool_decide_eq_false_2 by lia.
  rewrite Hh, Hn. cbn [unwrap]. by rewrite bool_decide_eq_false_2 by naive_solver.
Qed.

Lemma validate_all_ok t js :
  well_formed t → Forall (λ i, i < length (values t)) js → validate_all t js = Done tt.
Proof.
  intros Ht. induction 1 as [|i js Hi _ IH]; simpl; [done|].
  destruct (lookup_lt_is_Some_2 _ _ Hi) as [v Hv]. by rewrite (validate_value_ok t i v).
Qed.

Lemma get_proof_ok t i v :
  well_formed t → (Z.of_nat (length (tree t)) ≤ i32_max)%Z → values t !! i = Some v →
  ∃ h prf r, standard_leaf_hash (value v) (leaf_encoding t) = Done h ∧
    tree_get_proof t (Number i) = Done (format <$> prf) ∧
    process_proof h prf = Done r ∧ root t = Done (format r).
Proof.
  intros Ht Hlen Hv. pose proof Ht as (Hm & Hrows & _).
  apply Forall_lookup_1 with (i := i) (x := v) in Hrows as (h & Hh & Hn & Hleaf); [|done].
  apply is_valid_merkle in Hm as Hvalid.
  assert (Z.of_nat (tree_index v) < i32_max)%Z as Hlt.
  { apply lookup_lt_Some in Hn. lia. }
  destruct (merkle_root _ Hm) as [r Hr].
  destruct (proof_loop_spec (tree t) (tree_index v) (tree_index v) h r) as (prf & Hp & Hf & _); [done..|].
  exists h, prf, r. unfold process_proof, root, index. rewrite Hf, Hr. split_and!; [done| |done..].
  unfold tree_get_proof. cbn [value_index_of]. change (Done i ≫= ?f) with (f i). cbv beta.
  rewrite (validate_value_ok t i v Ht Hv). change (Done tt ≫= ?f) with (f tt). cbv beta.
  rewrite Hv. cbn [unwrap]. change (Done v ≫= ?f) with (f v). cbv beta.
  unfold get_proof, check_leaf_node. rewrite Hleaf. cbn [negb].
  unfold mbind, outcome_bind. rewrite Hp, Hn. cbn [unwrap]. unfold process_proof. rewrite Hf.
  rewrite head_lookup, Hr. cbn [unwrap]. by rewrite bool_decide_eq_false_2 by naive_solver.
Qed.

(** The proof for a row is that of a row with the same hash. *)
Lemma get_proof_bytes t i v :
  well_formed t → values t !! i = Some v →
  ∃ j w, values t !! j = Some w ∧ tree_get_proof t (LeafBytes (value v)) = tree_get_proof t (Number j) ∧
    standard_leaf_hash (value w) (leaf_encoding t) = standard_leaf_hash (value v) (leaf_encoding t).
Proof.
  intros (_ & Hrows & [Hs Hc]) Hv.
  apply Forall_lookup_1 with (i := i) (x := v) in Hrows as (h & Hh & _); [|done].
  destruct (Hc i v h Hv Hh) as [j Hj]. destruct (Hs h j Hj) as (w & Hw & Hhw).
  exists j, w. split_and!; [done| |congruence].
  unfold tree_get_proof, value_index_of, leaf_lookup. rewrite Hh.
  unfold mbind, outcome_bind. by rewrite Hj.
Qed.

(** For a tree that [of] built, [validate] succeeds and every
    row has a proof, asked for by position or by content, from which [process_proof]
    recovers the root from the hash of the row; a position beyond the rows is refused. *)
Lemma standard_tree_proves rows enc t
    (Hof : tree_of rows enc = Done t)
    (Hlen : (2 * Z.of_nat (length rows) ≤ i32_max)%Z) :
  validate t = Done tt ∧
  (∀ i, length rows ≤ i → tree_get_proof t (Number i) = Fail "Index out of range"%string) ∧
  ∀ i row leaf, rows !! i = Some row → leaf = Number i ∨ leaf = LeafBytes row →
    ∃ h prf r, standard_leaf_hash row enc = Done h ∧ tree_get_proof t leaf = Done (format <$> prf) ∧
      process_proof h prf = Done r ∧ root t = Done (format r).
Proof.
  destruct (tree_of_spec rows enc t Hof) as (Ht & Hvals & Henc & _ & Hl & _ & _).
  assert (length (values t) = length rows) as Hlv by by rewrite <-Hvals, length_fmap.
  split_and!.
  - apply validate_all_ok; [done|]. apply Forall_forall. intros i Hi%elem_of_seq. lia.
  - intros i Hi. unfold tree_get_proof, validate_value, check_bounds. cbn [value_index_of].
    change (Done i ≫= ?f) with (f i). cbv beta. by rewrite bool_decide_eq_true_2 by lia.
  - intros i row leaf Hi Hleaf. rewrite <-Hvals, list_lookup_fmap in Hi.
    apply fmap_Some in Hi as (v & Hv & ->). rewrite <-Henc.
    destruct Hleaf as [->| ->]; [apply (get_proof_ok t i v); [done|lia|done]|].
    destruct (get_proof_bytes t i v Ht Hv) as (j & w & Hw & -> & <-).
    apply (get_proof_ok t j w); [done|lia|done].
Qed.
End wf.

(** ** Dump and load *)

Section roundtrip.
Context `{Profile, Keccak, Abi, FormatHash, HexLaws}.

Lemma hash_from_slice_vec (h : Hash) : hash_from_slice (vec_to_list h) = Done h.
Proof.
  unfold hash_from_slice. rewrite bool_decide_eq_true_2 by apply length_vec_to_list.
  by rewrite vec_of_list_to.
Qed.

Lemma substring_full s : String.substring 0 (String.length s) s = s.
Proof. induction s as [|c s IH]; [done|]. simpl. by rewrite IH. Qed.

Lemma parse_node_printed (h : Hash) :
  parse_node ("0x" +:+ hex_encode (vec_to_list h))%string = Done h.
Proof.
  set (s := hex_encode (vec_to_list h)).
  change ("0x" +:+ s)%string with (String "0"%char (String "x"%char s)). unfold parse_node.
  assert (char_boundary_2 (String "0"%char (String "x"%char s)) = true) as ->.
  { destruct s as [|c s'] eqn:Hs; [done|]. apply hex_encode_ascii in Hs. cbn [char_boundary_2].
    apply negb_true_iff, andb_false_iff. left. apply Nat.leb_gt. lia. }
  replace (String.substring 2 (String.length (String "0"%char (String "x"%char s)) - 2) (String "0"%char (String "x"%char s)))
    with s.
  - unfold s. rewrite hex_decode_encode. apply hash_from_slice_vec.
  - cbn [String.length]. replace (S (S (String.length s)) - 2) with (String.length s) by lia.
    cbn [String.substring]. by rewrite substring_full.
Qed.

Lemma parse_nodes_printed (nodes : list Hash) :
  parse_nodes ((λ leaf : Hash, ("0x" +:+ hex_encode (vec_to_list leaf))%string) <$> nodes) = Done nodes.
Proof.
  induction nodes as [|h nodes IH]; [done|]. rewrite fmap_cons. cbn [parse_nodes].
  rewrite parse_node_printed. unfold mbind, outcome_bind. by rewrite IH.
Qed.

(** Loading the dump of a tree that [of] built, or that was loaded before,
    gives the tree back, its lookup table included. *)
Lemma dump_load t (Hmade : (∃ rows enc, tree_of rows enc = Done t) ∨ (∃ data, load data = Done t)) :
  load (dump t) = Done t.
Proof.
  assert (∃ nodes vals enc, new nodes vals enc = Done t) as (nodes & vals & enc & Hn).
  { destruct Hmade as [(rows & enc & Ht)|(data & Hd)].
    - unfold tree_of in Ht. inv_done. eauto.
    - unfold load in Hd. case_bool_decide; [done|]. inv_done. eauto. }
  destruct (new_spec _ _ _ _ Hn) as (Hnodes & Hvals & Henc & _).
  unfold load, dump. cbn [data_format data_tree data_values data_leaf_encoding].
  rewrite bool_decide_eq_false_2 by naive_solver. rewrite parse_nodes_printed.
  change (Done (tree t) ≫= ?f) with (f (tree t)). cbv beta. by rewrite Hnodes, Hvals, Henc.
Qed.
End roundtrip.

(** ** Proofs of several rows *)

Section multi.
Context `{Profile, Keccak, Abi, FormatHash}.
Implicit Types (t : StandardMerkleTree) (js : list nat).

Lemma value_indices_numbers t js : value_indices_of t (Number <$> js) = Done js.
Proof.
  induction js as [|j js IH]; [done|]. rewrite fmap_cons. cbn [value_indices_of value_index_of].
  unfold mbind, outcome_bind. by rewrite IH.
Qed.

Lemma tree_indices_ok t js vs :
  Forall2 (λ j v, values t !! j = Some v) js vs → tree_indices_of t js = Done (tree_index <$> vs).
Proof.
  induction 1 as [|j v js vs Hj _ IH]; [done|]. cbn [tree_indices_of]. rewrite Hj. cbn [unwrap].
  unfold mbind, outcome_bind. by rewrite IH.
Qed.

Lemma rows_of_ok t hs :
  well_formed t → (∀ h, h ∈ hs → ∃ v, v ∈ values t ∧ standard_leaf_hash (value v) (leaf_encoding t) = Done h) →
  ∃ rows, rows_of t hs = Done rows ∧
    Forall2 (λ row h, standard_leaf_hash row (leaf_encoding t) = Done h) rows hs.
Proof.
  intros (_ & _ & [Hs Hc]). induction hs as [|h hs IH]; intros Hall; [by exists []|].
  destruct (Hall h) as (v & [i Hi]%list_elem_of_lookup & Hh); [left|].
  destruct (Hc i v h Hi Hh) as [k Hk]. destruct (Hs h k Hk) as (w & Hw & Hhw).
  destruct IH as (rows & Hrun & Hf); [intros; apply Hall; by right|].
  exists (value w :: rows). split; [|by constructor]. cbn [rows_of]. rewrite Hk. cbn [unwrap].
  unfold mbind, outcome_bind. rewrite Hw. cbn [unwrap]. by rewrite Hrun.
Qed.

Lemma nodes_of_rows t vs :
  Forall (row_ok (tree t) (leaf_encoding t)) vs →
  Forall (λ i, is_leaf_node (tree t) i = true) (tree_index <$> vs).
Proof. induction 1 as [|v vs (h & _ & _ & Hl) _ IH]; csimpl; by constructor. Qed.

Lemma node_of_row t v i h :
  well_formed t → v ∈ values t → tree t !! i = Some h → i = tree_index v →
  standard_leaf_hash (value v) (leaf_encoding t) = Done h.
Proof.
  intros (_ & Hrows & _) Hv Hi ->. rewrite Forall_forall in Hrows.
  destruct (Hrows v Hv) as (h' & Hh & Hn & _). congruence.
Qed.

Lemma distinct_rows t js vs :
  NoDup (tree_index <$> values t) → NoDup js → Forall2 (λ j v, values t !! j = Some v) js vs →
  NoDup (tree_index <$> vs).
Proof.
  rewrite !NoDup_alt. intros Hinj Hnd Hvs a b x. rewrite !list_lookup_fmap.
  intros (v & Ha & ->)%fmap_Some (w & Hb & Heq)%fmap_Some.
  destruct (Forall2_lookup_r _ _ _ _ _ Hvs Ha) as (ja & Hja & Hv).
  destruct (Forall2_lookup_r _ _ _ _ _ Hvs Hb) as (jb & Hjb & Hw).
  assert (ja = jb) as ->; [|by eapply Hnd].
  apply (Hinj _ _ (tree_index v)); rewrite list_lookup_fmap; [by rewrite Hv|by rewrite Hw, Heq].
Qed.

Lemma rows_exist t js :
  Forall (λ j, j < length (values t)) js →
  ∃ vs, Forall2 (λ j v, values t !! j = Some v) js vs ∧ Forall (λ v, v ∈ values t) vs.
Proof.
  induction 1 as [|j js Hj _ (vs & IH & Hin)]; [exists []; split; constructor|].
  destruct (lookup_lt_is_Some_2 _ _ Hj) as [v Hv]. exists (v :: vs).
  split; constructor; [done..| |done]. by eapply list_elem_of_lookup_2.
Qed.

Lemma get_multi_proof_rows t js :
  well_formed t → (Z.of_nat (length (tree t)) ≤ i32_max)%Z → NoDup (tree_index <$> values t) →
  NoDup js → Forall (λ j, j < length (values t)) js →
  ∃ rows' hs prf flags r,
    tree_get_multi_proof t (Number <$> js) = Done (MkMultiProof rows' (format <$> prf) flags) ∧
    Forall2 (λ row h, standard_leaf_hash row (leaf_encoding t) = Done h) rows' hs ∧
    length rows' = length js ∧
    process_multi_proof (MkMultiProof hs prf flags) = Done r ∧ root t = Done (format r).
Proof.
  intros Ht Hlen Hinj Hnd Hjs. pose proof Ht as (Hm & Hrows & _).
  destruct (rows_exist t js Hjs) as (vs & Hvs & Hin).
  assert (Forall (row_ok (tree t) (leaf_encoding t)) vs) as Hok.
  { rewrite Forall_forall in *. auto. }
  destruct (merkle_root _ Hm) as [r Hr].
  destruct (get_multi_proof_ok (tree t) (tree_index <$> vs) r) as ([hs prf flags] & Hget & Hleaves & Hproc);
    [done..| |by apply nodes_of_rows|by eapply distinct_rows|].
  { rewrite Forall_fmap. eapply Forall_impl; [exact Hok|]. intros v (h & _ & Hn%lookup_lt_Some & _).
    simpl. lia. }
  cbn [leaves] in Hleaves.
  destruct (rows_of_ok t hs Ht) as (rows' & Hrow & Hf).
  { intros h [k Hk]%list_elem_of_lookup. destruct (Forall2_lookup_r _ _ _ _ _ Hleaves Hk) as (i & Hi & Hh).
    apply list_elem_of_lookup_2 in Hi.
    rewrite sort_desc_perm in Hi. apply list_elem_of_fmap in Hi as (v & Hv & Hvin).
    rewrite Forall_forall in Hin. exists v. split; [auto|]. by eapply node_of_row; [..|exact Hv]; auto. }
  exists rows', hs, prf, flags, r. unfold root, index. rewrite Hr. split_and!; [|done| |done..].
  - unfold tree_get_multi_proof. rewrite value_indices_numbers. unfold mbind, outcome_bind.
    rewrite validate_all_ok by done. rewrite (tree_indices_ok t js vs Hvs), Hget, Hproc.
    rewrite head_lookup, Hr. cbn [unwrap]. rewrite bool_decide_eq_false_2 by naive_solver.
    cbn [leaves]. by rewrite Hrow.
  - apply Forall2_length in Hf, Hleaves, Hvs. rewrite Hf, <-Hleaves, Hvs.
    rewrite sort_desc_perm, length_fmap. done.
Qed.

(** For a tree that [of] built and distinct positions,
    [get_multi_proof] returns as many rows, whose hashes, with the proof and the flags,
    lead [process_multi_proof] to the root. *)
Lemma standard_multi_proof rows enc t js
    (Hof : tree_of rows enc = Done t)
    (Hlen : (2 * Z.of_nat (length rows) ≤ i32_max)%Z)
    (Hnd : NoDup js) (Hjs : Forall (λ j, j < length rows) js) :
  ∃ rows' hs prf flags r,
    tree_get_multi_proof t (Number <$> js) = Done (MkMultiProof rows' (format <$> prf) flags) ∧
    Forall2 (λ row h, standard_leaf_hash row enc = Done h) rows' hs ∧ length rows' = length js ∧
    process_multi_proof (MkMultiProof hs prf flags) = Done r ∧ root t = Done (format r).
Proof.
  destruct (tree_of_spec rows enc t Hof) as (Ht & Hvals & <- & _ & Hl & Hinj & _).
  apply get_multi_proof_rows; [done|lia|done..|].
  by rewrite <-Hvals, length_fmap in Hjs.
Qed.
End multi.

(** ** Binding *)

Section binding.
Context `{Profile, Keccak, Abi, FormatHash}.
Implicit Types (rows : list (list string)) (enc : list string) (t : StandardMerkleTree).

(** The ABI encoding of a row and the inner of its two hashes. *)
Definition row_encoding enc (row : list string) : option (list byte) :=
  match tokens_from row 0 enc with Done ts => Some (abi_encode ts) | _ => None end.
Definition row_encodings rows enc : list (list byte) := omap (row_encoding enc) rows.
Definition inner_hash (e : list byte) : list byte := vec_to_list (keccak256 e).

Lemma standard_leaf_hash_Done row enc h :
  standard_leaf_hash row enc = Done h ↔
  ∃ e, row_encoding enc row = Some e ∧ h = keccak256 (inner_hash e).
Proof.
  unfold standard_leaf_hash, row_encoding. rewrite outcome_bind_Done.
  destruct (tokens_from row 0 enc) as [ts| | | |]; naive_solver.
Qed.

Lemma row_hashes_inner rows enc :
  row_hashes rows enc = keccak256 <$> (inner_hash <$> row_encodings rows enc).
Proof.
  unfold row_hashes, row_encodings, row_encoding, standard_leaf_hash.
  induction rows as [|row rows IH]; [done|]. csimpl.
  destruct (tokens_from row 0 enc); csimpl; by rewrite ?IH.
Qed.

Lemma length_inner_hash e : length (inner_hash e) = 32.
Proof. apply length_vec_to_list. Qed.

(** Everything that is hashed for the tree, and by the verifier of a proof. *)
Definition hashed_for_tree rows enc t : list (list byte) :=
  row_encodings rows enc ++ (inner_hash <$> row_encodings rows enc) ++ tree_inputs (tree t).
Definition hashed_by_verifier (e : list byte) (prf : list Hash) : list (list byte) :=
  e :: inner_hash e :: proof_inputs (keccak256 (inner_hash e)) prf.

Lemma tree_binds rows enc t row e h prf r :
  tree_of rows enc = Done t → tree t !! 0 = Some r →
  row_encoding enc row = Some e → standard_leaf_hash row enc = Done h → process_proof h prf = Done r →
  e ∈ row_encodings rows enc ∨ collides (hashed_for_tree rows enc t) (hashed_by_verifier e prf).
Proof.
  intros Hof Hr He Hh Hp. destruct (tree_of_spec rows enc t Hof) as (_ & _ & _ & _ & _ & _ & hs & Hperm & Hm).
  rewrite row_hashes_inner in Hperm.
  destruct (Permutation_map_inv _ _ Hperm) as (xs & -> & Hxs).
  apply standard_leaf_hash_Done in Hh as (e' & He' & ->). simplify_eq.
  destruct (proof_binds_leaf xs (tree t) (inner_hash e) prf r) as [Hin|Hcol]; [|apply length_inner_hash|done..| |].
  - rewrite <-Hxs, Forall_fmap. apply Forall_true. intros x. apply length_inner_hash.
  - rewrite <-Hxs in Hin. apply list_elem_of_fmap in Hin as (e' & Heq & Hin).
    destruct (same_hash (hashed_for_tree rows enc t) (hashed_by_verifier e prf) e' e) as [->|]; auto.
    + apply elem_of_app. by left.
    + left.
    + apply vec_to_list_inj2 in Heq. done.
  - right. eapply collides_mono; [| |exact Hcol].
    + intros x Hx. apply elem_of_app. right. by rewrite Hxs.
    + intros x Hx. by right.
Qed.
End binding.

(** ** A concrete instance *)

Module SampleAbi.
(** Every type is read as itself, a token is the text, and the encoding is the texts with
    their lengths. *)
#[export] Instance sample_abi : Abi := {|
  ParamType := string;
  read_param := inr;
  Token := string;
  tokenize _ v := inr v;
  abi_encode ts :=
    ts ≫= λ s, SampleKeccak.byte_of (N.of_nat (String.length s)) :: String.list_byte_of_string s
|}.

(** Hexadecimal digits. *)
Definition digit (n : N) : Ascii.ascii :=
  default "0"%char (String.get (N.to_nat n) "0123456789abcdef").
Definition undigit (c : Ascii.ascii) : N :=
  let n := Ascii.N_of_ascii c in if bool_decide (n < 58)%N then (n - 48)%N else (n - 87)%N.

Fixpoint encode (bs : list byte) : string :=
  match bs with
  | [] => ""
  | b :: bs => String (digit (Byte.to_N b / 16)) (String (digit (Byte.to_N b `mod` 16)) (encode bs))
  end.
Fixpoint decode (s : string) : string + list byte :=
  match s with
  | EmptyString => inr []
  | String a (String b s) =>
      match Byte.of_N (undigit a * 16 + undigit b), decode s with
      | Some c, inr bs => inr (c :: bs)
      | _, _ => inl "invalid digit"%string
      end
  | _ => inl "odd number of digits"%string
  end.

#[export] Instance sample_hex : Hex := {| hex_encode := encode; hex_decode := decode |}.

Lemma decode_encode bs : decode (encode bs) = inr bs.
Proof.
  induction bs as [|b bs IH]; [done|]. cbn [encode decode]. rewrite IH.
  by destruct b; vm_compute.
Qed.

Lemma encode_ascii bs c s : encode bs = String c s → Ascii.nat_of_ascii c < 128.
Proof.
  destruct bs as [|b bs]; [done|]. cbn [encode]. intros [= <- _].
  destruct b; vm_compute; lia.
Qed.

#[export] Instance sample_hex_laws : HexLaws :=
  {| hex_decode_encode := decode_encode; hex_encode_ascii := encode_ascii |}.

Definition sample_rows : list (list string) := [["alice"; "3"]; ["bob"; "5"]; ["carol"; "2"]]%string.
Definition sample_enc : list string := ["address"; "uint256"]%string.
End SampleAbi.

Section witnesses.
Import SampleKeccak SampleAbi.
#[local] Existing Instance dev_profile.
#[local] Existing Instance Raw.

Definition sample_std : StandardMerkleTree :=
  done_or (MkTree ∅ [] [] []) (tree_of sample_rows sample_enc).

Lemma sample_std_made : tree_of sample_rows sample_enc = Done sample_std.
Proof. apply done_or_eq. vm_compute. reflexivity. Qed.

Lemma standard_tree_proves_witness :
  ∃ h prf r, standard_leaf_hash ["bob"; "5"]%string sample_enc = Done h ∧
    tree_get_proof sample_std (LeafBytes ["bob"; "5"]%string) = Done (format <$> prf) ∧
    process_proof h prf = Done r ∧ root sample_std = Done (format r).
Proof.
  destruct (standard_tree_proves sample_rows sample_enc sample_std sample_std_made) as (_ & _ & Hall).
  - vm_compute. discriminate.
  - apply (Hall 1); [reflexivity|by right].
Defined.

Lemma standard_multi_proof_witness :
  ∃ rows' hs prf flags r,
    tree_get_multi_proof sample_std (Number <$> [2; 0]) = Done (MkMultiProof rows' (format <$> prf) flags) ∧
    Forall2 (λ row h, standard_leaf_hash row sample_enc = Done h) rows' hs ∧ length rows' = 2 ∧
    process_multi_proof (MkMultiProof hs prf flags) = Done r ∧ root sample_std = Done (format r).
Proof.
  apply (standard_multi_proof sample_rows sample_enc sample_std [2; 0] sample_std_made).
  - vm_compute. discriminate.
  - apply (bool_decide_unpack _). vm_compute. exact I.
  - repeat constructor.
Defined.

Lemma dump_load_witness : load (dump sample_std) = Done sample_std.
Proof. apply dump_load. left. exists sample_rows, sample_enc. exact sample_std_made. Defined.
End witnesses.
