(* ===== verification/Validators.v ===== *)
(** * Validators and their power

    Ethereum addresses ([fendermint/vm/actor_interface/src/eam.rs]), the conversion of
    collateral to voting power ([fendermint/vm/genesis/src/lib.rs]), power tables and
    their differences ([fendermint/vm/interpreter/src/fvm/checkpoint.rs] and
    [fvm/state/ipc.rs]), and the Merkle tree of validators
    ([fendermint/vm/actor_interface/src/ipc.rs]). *)

From Stdlib Require Import Strings.Byte.
From stdpp Require Import vector pretty.
From S2P Require Import Prelude Merkle MerkleStandard.

(** ** Ethereum addresses *)

Definition EthAddress : Type := vec byte 20.
#[export] Instance EthAddress_eq_dec : EqDecision EthAddress := vec_dec.

(** [u64::to_be_bytes] and [from_be_bytes]. *)
Fixpoint be_bytes (n : nat) (x : N) : vec byte n :=
  match n with
  | O => [#]
  | S k => default x00 (Byte.of_N ((x / 256 ^ N.of_nat k) `mod` 256)) ::: be_bytes k x
  end.
Definition from_be_bytes (bs : list byte) : N :=
  fold_left (λ acc b, acc * 256 + Byte.to_N b) bs 0.

Definition from_id (id : N) : EthAddress := xff ::: vreplicate 11 x00 +++ be_bytes 8 id.

Definition is_masked_id (a : EthAddress) : bool :=
  let l := vec_to_list a in
  bool_decide (head l = Some xff) && bool_decide (take 11 (drop 1 l) = replicate 11 x00).

(** What an [fvm_shared] address holds. *)
Inductive Payload :=
| ID (id : N)
| Secp256k1 (hash : list byte)
| Actor (hash : list byte)
| BLS (key : list byte)
| Delegated (namespace : N) (subaddress : list byte).
#[export] Instance Payload_eq_dec : EqDecision Payload.
Proof. solve_decision. Defined.

Definition EAM_ACTOR_ID : N := 10.

Definition address_of_eth (a : EthAddress) : Payload :=
  if is_masked_id a then ID (from_be_bytes (drop 12 (vec_to_list a)))
  else Delegated EAM_ACTOR_ID (vec_to_list a).

(** The key of a validator: a point with its uncompressed serialisation. *)
Class Keys := {
  PublicKey : Type;
  PublicKey_eq_dec :: EqDecision PublicKey;
  pk_serialize : PublicKey → vec byte 65;
  pk_parse_slice : list byte → option PublicKey
}.

Definition new_secp256k1 `{Keccak} (pubkey : list byte) : option EthAddress :=
  if bool_decide (length pubkey ≠ 65%nat) then None else
  let hash32 := vec_to_list (keccak256 (drop 1 pubkey)) in
  Some (vec_of_list (drop 12 hash32)).

Definition eth_of_key `{Keccak, Keys} (k : PublicKey) : EthAddress :=
  default (vreplicate 20 x00) (new_secp256k1 (vec_to_list (pk_serialize k))).

(** ** Collateral and power *)

Definition i8_max : Z := 127.

(** The result of an [i8] operation whose exact value is [z]. *)
Definition i8_wrap `{Profile} (z : Z) : outcome string Z :=
  if bool_decide (- i8_max - 1 ≤ z ≤ i8_max)%Z then Done z
  else if overflow_checks then Panic
  else Done ((z + 128) `mod` 256 - 128)%Z.

Definition DECIMALS : Z := 18.

Definition atto_per_power `{Profile} (scale : Z) : outcome string Z :=
  decimals ← (if bool_decide (0 ≤ scale)%Z then Done (Z.max 0 (DECIMALS - scale))
              else a ← i8_wrap (Z.abs scale); s ← i8_wrap (DECIMALS + a); Done (s `mod` 4294967296)%Z);
  Done (10 ^ decimals)%Z.

(** Integer division rounding up. *)
Definition div_ceil (a b : Z) : Z := (- ((- a) / b))%Z.

Definition into_power `{Profile} (collateral scale : Z) : outcome string N :=
  per ← atto_per_power scale;
  let power := Z.min (div_ceil collateral per) (Z.of_N u64_max) in
  if bool_decide (0 ≤ power)%Z then Done (Z.to_N power) else Panic.

Record Validator `{Keys} := MkValidator { public_key : PublicKey; power : N }.
Arguments MkValidator {_} _ _.
#[export] Instance Validator_eq_dec `{Keys} : EqDecision Validator.
Proof. solve_decision. Defined.

(** A validator as the gateway contract returns it: its collateral and, as metadata, its
    key. *)
Record MemberValidator := MkMember { weight : N; metadata : list byte }.
Record Membership := MkMembership { configuration_number : N; members : list MemberValidator }.

Section tables.
Context `{Profile, Keccak, Keys}.

Fixpoint power_table_from (ms : list MemberValidator) (scale : Z) : outcome string (list Validator) :=
  match ms with
  | [] => Done []
  | v :: ms =>
      match pk_parse_slice (metadata v) with
      | Some pk =>
          p ← into_power (Z.of_N (weight v)) scale;
          pt ← power_table_from ms scale;
          Done (MkValidator pk p :: pt)
      | None => power_table_from ms scale
      end
  end.

Definition membership_to_power_table (m : Membership) (scale : Z) : outcome string (list Validator) :=
  power_table_from (members m) scale.

(** ** Differences of power tables *)

Abbreviation KeyBytes := (vec byte 65).
Abbreviation PowerMap := (gmap (vec byte 65) Validator).
Context `{!HashOrder (vec byte 65)}.

Definition into_power_map (pt : list Validator) : PowerMap :=
  fold_left (λ m v, <[pk_serialize (public_key v) := v]> m) pt ∅.

Definition power_diff (current next : list Validator) : list Validator :=
  let current := into_power_map current in
  let next := into_power_map next in
  let deleted := omap (λ '(k, v),
    if bool_decide (is_Some (next !! k)) then None else Some (MkValidator (public_key v) 0))
    (hash_iter current) in
  let inserted := omap (λ '(k, v),
    match current !! k with
    | Some w => if bool_decide (w = v) then None else Some v
    | None => Some v
    end) (hash_iter next) in
  deleted ++ inserted.
End tables.

(** ** The tree of validators *)

(** How [ethers] prints an address and an integer. *)
Class EthText := {
  h160_debug : EthAddress → string;
  u256_to_string : N → string
}.

Section validator_tree.
Context `{Profile, Keccak, Abi, Keys, EthText}.
#[local] Existing Instance Raw.

Definition VALIDATOR_TREE_FIELDS : list string := ["address"; "uint256"]%string.

Definition validator_to_vec (v : Validator) : list string :=
  [h160_debug (eth_of_key (public_key v)); u256_to_string (power v)].

Definition ValidatorMerkleTree_new (vs : list Validator) : outcome string StandardMerkleTree :=
  tree_of (validator_to_vec <$> vs) VALIDATOR_TREE_FIELDS.

Definition root_hash (t : StandardMerkleTree) : outcome string Hash := root t.

Definition prove (t : StandardMerkleTree) (v : Validator) : outcome string (list Hash) :=
  tree_get_proof t (LeafBytes (validator_to_vec v)).

Definition validate_proof (v : Validator) (r : Hash) (prf : list Hash) : outcome string bool :=
  h ← standard_leaf_hash (validator_to_vec v) VALIDATOR_TREE_FIELDS;
  r' ← process_proof h prf;
  Done (bool_decide (r = r')).
End validator_tree.

(** ** Addresses that stand for actor IDs *)

Lemma byte_of_to (n : N) : n < 256 → Byte.to_N (default x00 (Byte.of_N n)) = n.
Proof.
  intros Hn. destruct (Byte.of_N n) as [b|] eqn:Hb.
  - by apply Byte.to_of_N in Hb.
  - apply Byte.of_N_None_iff in Hb. lia.
Qed.

Lemma from_be_app (l : list byte) acc :
  fold_left (λ a b, a * 256 + Byte.to_N b) l acc =
  acc * 256 ^ N.of_nat (length l) + from_be_bytes l.
Proof.
  revert acc. induction l as [|b l IH]; intros acc; [unfold from_be_bytes; simpl; lia|].
  unfold from_be_bytes. cbn [fold_left length]. rewrite (IH (acc * 256 + Byte.to_N b)), (IH (0 * 256 + Byte.to_N b)).
  rewrite (Nnat.Nat2N.inj_succ (length l)), N.pow_succ_r'. lia.
Qed.

Lemma from_be_cons b l :
  from_be_bytes (b :: l) = Byte.to_N b * 256 ^ N.of_nat (length l) + from_be_bytes l.
Proof. unfold from_be_bytes at 1. simpl. by rewrite from_be_app. Qed.

Lemma from_be_bytes_lt l : from_be_bytes l < 256 ^ N.of_nat (length l).
Proof.
  induction l as [|b l IH]; [done|]. rewrite from_be_cons. simpl length.
  rewrite (Nnat.Nat2N.inj_succ (length l)), N.pow_succ_r'.
  pose proof (Byte.to_N_bounded b). nia.
Qed.

Lemma be_bytes_value n x : from_be_bytes (vec_to_list (be_bytes n x)) = x `mod` 256 ^ N.of_nat n.
Proof.
  induction n as [|k IH]; [by rewrite N.mod_1_r|].
  cbn [be_bytes vec_to_list]. rewrite from_be_cons, IH, length_vec_to_list.
  rewrite byte_of_to by (apply N.mod_lt; lia).
  rewrite (Nnat.Nat2N.inj_succ k), N.pow_succ_r'.
  assert (256 ^ N.of_nat k ≠ 0) by (by apply N.pow_nonzero).
  rewrite (N.mul_comm 256), N.Div0.mod_mul_r. lia.
Qed.

Lemma be_bytes_of l x :
  from_be_bytes l = x `mod` 256 ^ N.of_nat (length l) → vec_to_list (be_bytes (length l) x) = l.
Proof.
  revert x. induction l as [|b l IH]; intros x Hx; [done|].
  rewrite from_be_cons in Hx. cbn [length] in *.
  rewrite (Nnat.Nat2N.inj_succ (length l)), N.pow_succ_r' in Hx.
  assert (256 ^ N.of_nat (length l) ≠ 0) as Hnz by (by apply N.pow_nonzero).
  rewrite (N.mul_comm 256), N.Div0.mod_mul_r in Hx.
  pose proof (from_be_bytes_lt l) as Hl. pose proof (N.mod_lt x (256 ^ N.of_nat (length l)) Hnz) as Hm.
  assert (Byte.to_N b = (x / 256 ^ N.of_nat (length l)) `mod` 256 ∧
          from_be_bytes l = x `mod` 256 ^ N.of_nat (length l)) as [Hb Hrest].
  { apply (N.div_mod_unique (256 ^ N.of_nat (length l))); [done..|]. lia. }
  cbn [be_bytes vec_to_list]. rewrite <-Hb, Byte.of_to_N. cbn [default]. f_equal. by apply IH.
Qed.

Lemma be_bytes_inverse l : vec_to_list (be_bytes (length l) (from_be_bytes l)) = l.
Proof. apply be_bytes_of. by rewrite N.mod_small by apply from_be_bytes_lt. Qed.

Lemma masked_bytes (l : list byte) :
  head l = Some xff → take 11 (drop 1 l) = replicate 11 x00 → l = xff :: replicate 11 x00 ++ drop 12 l.
Proof.
  destruct l as [|b l]; [done|]. intros [= ->]. cbn [drop]. intros Ht. f_equal.
  rewrite <-Ht. symmetry. apply take_drop.
Qed.

Lemma vec_to_list_from_id id :
  vec_to_list (from_id id) = xff :: replicate 11 x00 ++ vec_to_list (be_bytes 8 id).
Proof. reflexivity. Qed.

Lemma from_id_masked id : is_masked_id (from_id id) = true.
Proof. unfold is_masked_id. rewrite vec_to_list_from_id. done. Qed.

Lemma address_of_from_id id : id < u64_size → address_of_eth (from_id id) = ID id.
Proof.
  intros Hid. unfold address_of_eth. rewrite from_id_masked.
  f_equal. rewrite vec_to_list_from_id. change (drop 12 _) with (vec_to_list (be_bytes 8 id)).
  rewrite be_bytes_value. by apply N.mod_small.
Qed.

Lemma address_of_plain a :
  is_masked_id a = false → address_of_eth a = Delegated EAM_ACTOR_ID (vec_to_list a).
Proof. intros Ha. unfold address_of_eth. by rewrite Ha. Qed.

(** An Ethereum address made from an actor ID stands for that ID,
    every masked address is the one made from the ID it stands for, and no other address
    stands for an ID. *)
Lemma masked_id_roundtrip :
  (∀ id, id < u64_size → address_of_eth (from_id id) = ID id) ∧
  (∀ a, is_masked_id a = true → ∃ id, id < u64_size ∧ address_of_eth a = ID id ∧ from_id id = a) ∧
  (∀ a, is_masked_id a = false → address_of_eth a = Delegated EAM_ACTOR_ID (vec_to_list a)).
Proof.
  split_and!; [apply address_of_from_id| |apply address_of_plain].
  intros a Ha. exists (from_be_bytes (drop 12 (vec_to_list a))).
  unfold address_of_eth. rewrite Ha.
  unfold is_masked_id in Ha. rewrite andb_true_iff, !bool_decide_eq_true in Ha. destruct Ha as [Hh Ht].
  set (l := drop 12 (vec_to_list a)).
  assert (length l = 8%nat) as Hl by (unfold l; by rewrite length_drop, length_vec_to_list).
  pose proof (from_be_bytes_lt l) as Hlt. pose proof (be_bytes_inverse l) as Hinv.
  rewrite Hl in Hlt, Hinv. split_and!; [done..|].
  apply vec_to_list_inj2. rewrite vec_to_list_from_id, Hinv. symmetry. by apply masked_bytes.
Qed.

(** ** Collateral to power *)

Section power.
Context `{Profile}.
#[local] Open Scope Z_scope.

Lemma atto_per_power_ok scale :
  -109 ≤ scale ≤ 127 → atto_per_power scale = Done (10 ^ Z.max 0 (DECIMALS - scale)).
Proof.
  intros Hs. unfold atto_per_power, DECIMALS, i8_wrap, i8_max. case_bool_decide as H0; [done|].
  rewrite bool_decide_eq_true_2 by lia. unfold mbind, outcome_bind.
  rewrite bool_decide_eq_true_2 by lia. do 2 f_equal. rewrite Z.mod_small by lia. lia.
Qed.

Lemma atto_per_power_overflow scale :
  -128 ≤ scale < -109 → overflow_checks = true → atto_per_power scale = Panic.
Proof.
  intros Hs Ho. unfold atto_per_power, DECIMALS, i8_wrap, i8_max. rewrite Ho.
  rewrite bool_decide_eq_false_2 by lia. unfold mbind, outcome_bind.
  case_bool_decide; [|done]. by rewrite bool_decide_eq_false_2 by lia.
Qed.

Lemma div_ceil_spec a b : 0 < b → b * (div_ceil a b - 1) < a ≤ b * div_ceil a b.
Proof.
  intros Hb. unfold div_ceil. pose proof (Z.div_mod (- a) b). pose proof (Z.mod_pos_bound (- a) b Hb). nia.
Qed.

(** Collateral becomes power by dividing by [10^(18 - scale)] and
    rounding up, clipped to 64 bits: no collateral is the only way to have no power, and
    more collateral never means less power.  The shift is computed in [i8]: scales below
    -109 overflow. *)
Lemma into_power_spec collateral scale (Hc : 0 ≤ collateral) (Hs : -128 ≤ scale ≤ 127) :
  (scale < -109 → overflow_checks = true → into_power collateral scale = Panic) ∧
  (-109 ≤ scale →
   let per := 10 ^ Z.max 0 (18 - scale) in
   ∃ p, into_power collateral scale = Done p ∧ (p ≤ u64_max)%N ∧
     (p = 0%N ↔ collateral = 0) ∧
     (p = u64_max ∨ collateral ≤ per * Z.of_N p) ∧ (p = 0%N ∨ per * (Z.of_N p - 1) < collateral) ∧
     ∀ more, collateral ≤ more → ∃ q, into_power more scale = Done q ∧ (p ≤ q)%N).
Proof.
  split; [intros Hlt Ho; unfold into_power; by rewrite atto_per_power_overflow by (done || lia)|].
  intros Hge per.
  assert (0 < per) as Hper by (apply Z.pow_pos_nonneg; lia).
  assert (∀ c, 0 ≤ c → into_power c scale = Done (Z.to_N (Z.min (div_ceil c per) (Z.of_N u64_max))) ∧ 0 ≤ div_ceil c per)
    as Hrun.
  { intros c H0. assert (0 ≤ div_ceil c per) as Hd by (pose proof (div_ceil_spec c per Hper); nia).
    split; [|done]. unfold into_power. rewrite atto_per_power_ok by lia. fold DECIMALS in per.
    unfold mbind, outcome_bind. fold per. rewrite bool_decide_eq_true_2; [done|]. unfold u64_max. lia. }
  destruct (Hrun collateral Hc) as [-> Hd]. pose proof (div_ceil_spec collateral per Hper) as Hsp.
  set (d := div_ceil collateral per) in *.
  assert (d = 0 ↔ collateral = 0) as H0 by (split; [intros Hd0; rewrite Hd0 in Hsp; lia|intros ->; nia]).
  eexists. split; [reflexivity|]. unfold u64_max in *. split_and!; [lia|rewrite <-H0; lia| | |].
  - destruct (decide (d ≤ 18446744073709551615)); [right|left; lia].
    rewrite Z2N.id, Z.min_l by lia. lia.
  - destruct (decide (d = 0)) as [->|]; [by left|right].
    rewrite Z2N.id by lia. assert (d `min` Z.of_N 18446744073709551615 ≤ d) by lia. nia.
  - intros more Hmore. destruct (Hrun more) as [-> Hd']; [lia|]. eexists. split; [reflexivity|].
    pose proof (div_ceil_spec more per Hper).
    assert (d ≤ div_ceil more per) by nia. lia.
Qed.
End power.

Lemma into_power_spec_witness :
  ∃ p, into_power (H := dev_profile) 1500000000000000 3 = Done p ∧ p = 2.
Proof.
  destruct (into_power_spec (H := dev_profile) 1500000000000000 3) as [_ Hp]; [lia..|].
  destruct Hp as (p & Hrun & _ & _ & [Hmax|Hle] & [H0|Hlt] & _); [lia|..];
    exists p; split; try exact Hrun; vm_compute in Hrun; congruence.
Defined.

(** ** Differences of power tables *)

Section diff.
Context `{Keys, !HashOrder (vec byte 65)}.
Implicit Types (v w : Validator) (vs : list Validator) (m : gmap (vec byte 65) Validator).

Definition key_of v : vec byte 65 := pk_serialize (public_key v).

Definition keyed m : Prop := ∀ k v, m !! k = Some v → key_of v = k.

Lemma into_power_map_keyed vs : keyed (into_power_map vs).
Proof.
  unfold into_power_map. assert (keyed ∅) as Hk by (intros k v Hl; by rewrite lookup_empty in Hl).
  revert Hk. generalize (∅ : gmap (vec byte 65) Validator). induction vs as [|v vs IH]; intros m Hm; [done|].
  apply IH. intros k w [[<- <-]|[_ Hw]]%lookup_insert_Some; [done|by apply Hm].
Qed.

Lemma into_power_map_in vs k v : into_power_map vs !! k = Some v → v ∈ vs.
Proof.
  unfold into_power_map.
  assert (∀ m, fold_left (λ m v, <[pk_serialize (public_key v) := v]> m) vs m !! k = Some v →
    v ∈ vs ∨ m !! k = Some v) as Hgen.
  { induction vs as [|w vs IH]; intros m; simpl; [by right|]. intros [Hin|Hm]%IH.
    - left. by right.
    - apply lookup_insert_Some in Hm as [[_ <-]|[_ Hm]]; [left; left|by right]. }
  intros [?|Hl]%Hgen; [done|]. by rewrite lookup_empty in Hl.
Qed.

(** How CometBFT applies validator updates: power zero removes. *)
Definition apply_updates m (us : list Validator) : gmap (vec byte 65) Validator :=
  fold_left (λ m v, if bool_decide (power v = 0) then delete (key_of v) m else <[key_of v := v]> m) us m.

Lemma apply_updates_lookup m us k :
  NoDup (key_of <$> us) →
  (∀ u, u ∈ us → key_of u = k → apply_updates m us !! k = if bool_decide (power u = 0) then None else Some u) ∧
  (k ∉ key_of <$> us → apply_updates m us !! k = m !! k).
Proof.
  revert m. induction us as [|x us IH]; intros m; csimpl.
  { intros _. split; [by intros u Hu%elem_of_nil|done]. }
  intros [Hni Hnd]%NoDup_cons.
  set (m' := if bool_decide (power x = 0) then delete (key_of x) m else <[key_of x := x]> m).
  destruct (IH m' Hnd) as [IH1 IH2]. unfold apply_updates. cbn [fold_left]. fold (apply_updates m' us).
  split.
  - intros u [->|Hu]%elem_of_cons Hk; [|by apply IH1]. subst k. rewrite IH2 by done. unfold m'.
    case_bool_decide; [by rewrite lookup_delete_eq|by rewrite lookup_insert_eq].
  - intros [Hne Hni']%not_elem_of_cons. rewrite IH2 by done. unfold m'.
    case_bool_decide; [by rewrite lookup_delete_ne|by rewrite lookup_insert_ne].
Qed.

Lemma elem_of_hash_iter {A} (m : gmap (vec byte 65) A) k x : (k, x) ∈ hash_iter m ↔ m !! k = Some x.
Proof. rewrite hash_iter_perm. apply elem_of_map_to_list. Qed.

Lemma NoDup_hash_iter {A} (m : gmap (vec byte 65) A) : NoDup (hash_iter m).*1.
Proof. rewrite hash_iter_perm. apply NoDup_fst_map_to_list. Qed.

Lemma NoDup_omap_keys (f : vec byte 65 * Validator → option Validator) (l : list (vec byte 65 * Validator)) :
  (∀ k v u, (k, v) ∈ l → f (k, v) = Some u → key_of u = k) → NoDup l.*1 → NoDup (key_of <$> omap f l).
Proof.
  induction l as [|[k v] l IH]; intros Hf Hnd; [constructor|]. csimpl in *.
  apply NoDup_cons in Hnd as [Hni Hnd].
  assert (NoDup (key_of <$> omap f l)) as Hl by (apply IH; [|done]; intros; eapply Hf; [by right|done]).
  destruct (f (k, v)) as [u|] eqn:Hu; [|done]. csimpl. constructor; [|done].
  intros (u' & Heq & ([k' v'] & Hin & Hu')%list_elem_of_omap)%list_elem_of_fmap. apply Hni.
  apply list_elem_of_fmap. exists (k', v'). split; [|done].
  rewrite <-(Hf k v u), Heq; [|left|done]. simpl. eapply Hf; [by right|done].
Qed.

Lemma elem_of_power_diff current next u :
  u ∈ power_diff current next ↔
  (∃ k w, into_power_map current !! k = Some w ∧ into_power_map next !! k = None ∧
          u = MkValidator (public_key w) 0) ∨
  (∃ k, into_power_map next !! k = Some u ∧ into_power_map current !! k ≠ Some u).
Proof.
  unfold power_diff. rewrite elem_of_app, !list_elem_of_omap. f_equiv.
  - split.
    + intros ([k w] & Hw%elem_of_hash_iter & Hu). case_bool_decide as Hs; simplify_eq.
      exists k, w. by rewrite <-eq_None_not_Some in Hs.
    + intros (k & w & Hw & Hn & ->). exists (k, w). split; [by apply elem_of_hash_iter|].
      rewrite bool_decide_eq_false_2; [done|]. rewrite Hn. by intros [].
  - split.
    + intros ([k w] & Hw%elem_of_hash_iter & Hu). exists k.
      destruct (into_power_map current !! k) as [w'|] eqn:Hc; [case_bool_decide|]; naive_solver.
    + intros (k & Hn & Hc). exists (k, u). split; [by apply elem_of_hash_iter|].
      destruct (into_power_map current !! k) as [w'|]; [|done].
      by rewrite bool_decide_eq_false_2 by congruence.
Qed.

Lemma NoDup_power_diff current next : NoDup (key_of <$> power_diff current next).
Proof.
  unfold power_diff. rewrite fmap_app. apply NoDup_app. split_and!.
  - apply NoDup_omap_keys; [|apply NoDup_hash_iter].
    intros k v u Hv%elem_of_hash_iter Hu. case_bool_decide; simplify_eq.
    by apply into_power_map_keyed in Hv.
  - intros k0 (u & -> & ([k w] & Hw%elem_of_hash_iter & Hu)%list_elem_of_omap)%list_elem_of_fmap.
    case_bool_decide as Hs; simplify_eq.
    intros (u' & Heq & ([k' w'] & Hw'%elem_of_hash_iter & Hu')%list_elem_of_omap)%list_elem_of_fmap.
    assert (u' = w') as -> by (destruct (into_power_map current !! k'); [case_bool_decide|]; naive_solver).
    apply into_power_map_keyed in Hw as Hk. apply into_power_map_keyed in Hw' as Hk'.
    unfold key_of in *. cbn [public_key] in Heq. apply Hs. rewrite <-Hk, Heq, Hk'. eauto.
  - apply NoDup_omap_keys; [|apply NoDup_hash_iter].
    intros k v u Hv%elem_of_hash_iter Hu.
    assert (u = v) as -> by (destruct (into_power_map current !! k); [case_bool_decide|]; naive_solver).
    by apply into_power_map_keyed in Hv.
Qed.

Lemma power_diff_applied current next :
  Forall (λ v, power v ≠ 0) current →
  apply_updates (into_power_map current) (power_diff current next) =
    filter (λ kv, power kv.2 ≠ 0) (into_power_map next).
Proof.
  rewrite Forall_forall. intros Hpos.
  set (cm := into_power_map current). set (nm := into_power_map next).
  pose proof (NoDup_power_diff current next) as Hnd.
  assert (keyed cm ∧ keyed nm) as [Hkc Hkn] by (split; apply into_power_map_keyed).
  apply map_eq. intros k. destruct (apply_updates_lookup cm _ k Hnd) as [Hin Hout].
  destruct (nm !! k) as [v|] eqn:Hn.
  + destruct (decide (cm !! k = Some v)) as [Hc|Hc].
    * rewrite Hout, Hc. { symmetry. apply map_lookup_filter_Some. split; [done|]. apply Hpos.
        by apply into_power_map_in in Hc. }
      intros (u & Hku & [(k' & w & Hw & Hw' & ->)|(k' & Hu & Hu')]%elem_of_power_diff)%list_elem_of_fmap.
      -- apply Hkc in Hw. unfold key_of in *. cbn [public_key] in Hku. fold nm in Hw'. congruence.
      -- apply Hkn in Hu as Hk'. fold nm cm in Hu, Hu'. congruence.
    * rewrite (Hin v); [|apply elem_of_power_diff; right; by exists k|by apply Hkn].
      symmetry. case_bool_decide as Hp.
      -- apply map_lookup_filter_None. right. intros x Hx. assert (x = v) as -> by congruence. naive_solver.
      -- by apply map_lookup_filter_Some.
  + rewrite (proj2 (map_lookup_filter_None _ _ _) (or_introl Hn)).
    destruct (cm !! k) as [w|] eqn:Hc.
    * rewrite (Hin (MkValidator (public_key w) 0)); [done| |by apply Hkc in Hc].
      apply elem_of_power_diff. left. by exists k, w.
    * rewrite Hout; [done|].
      intros (u & Hku & [(k' & w & Hw & Hw' & ->)|(k' & Hu & Hu')]%elem_of_power_diff)%list_elem_of_fmap.
      -- apply Hkc in Hw as Hk'. unfold key_of in *. cbn [public_key] in Hku. fold cm in Hw. congruence.
      -- apply Hkn in Hu as Hk'. fold nm in Hu. congruence.
Qed.

(** C25: in whatever order the hash maps are visited, applying the
    differences to the current table the way CometBFT does gives the next table without
    its members of power zero; no key is updated twice and every update is a change. *)
Theorem power_diff_spec current next (Hpos : Forall (λ v, power v ≠ 0) current) :
  apply_updates (into_power_map current) (power_diff current next) =
    filter (λ kv, power kv.2 ≠ 0) (into_power_map next) ∧
  NoDup (key_of <$> power_diff current next) ∧
  Forall (λ u, into_power_map current !! key_of u ≠ Some u) (power_diff current next).
Proof.
  split_and!; [by apply power_diff_applied|apply NoDup_power_diff|].
  rewrite Forall_forall in Hpos.
  set (cm := into_power_map current). set (nm := into_power_map next).
  assert (keyed cm ∧ keyed nm) as [Hkc Hkn] by (split; apply into_power_map_keyed).
  apply Forall_forall. intros u [(k & w & Hw & Hn & ->)|(k & Hu & Hc)]%elem_of_power_diff.
  - apply Hkc in Hw as Hk. unfold key_of in *. cbn [public_key]. rewrite Hk. fold cm in Hw. rewrite Hw.
    intros [= Heq]. apply into_power_map_in in Hw. apply Hpos in Hw. by rewrite Heq in Hw.
  - apply Hkn in Hu as Hk. unfold key_of. unfold key_of in Hk. by rewrite Hk.
Qed.
End diff.

(** ** The tree of validators *)

(** The printed address and power can be read back from the ABI encoding. *)
Class ValidatorRowLaws `{Keccak, Abi, Keys, EthText} := row_determines v w e :
  row_encoding VALIDATOR_TREE_FIELDS (validator_to_vec v) = Some e →
  row_encoding VALIDATOR_TREE_FIELDS (validator_to_vec w) = Some e →
  eth_of_key (public_key v) = eth_of_key (public_key w) ∧ power v = power w.

Section membership.
Context `{Profile, Keccak, Abi, Keys, EthText}.
#[local] Existing Instance Raw.
Implicit Types (vs : list Validator) (v w : Validator) (t : StandardMerkleTree).

Lemma prove_validates vs t v :
  ValidatorMerkleTree_new vs = Done t → (2 * Z.of_nat (length vs) ≤ i32_max)%Z → v ∈ vs →
  ∃ prf r, prove t v = Done prf ∧ root_hash t = Done r ∧ validate_proof v r prf = Done true.
Proof.
  intros Hnew Hlen Hv.
  destruct (tree_of_spec _ _ _ Hnew) as (Ht & Hvals & Henc & _ & Hl & _ & _).
  rewrite length_fmap in Hl. apply list_elem_of_lookup in Hv as [i Hi].
  assert (∃ row, values t !! i = Some row ∧ value row = validator_to_vec v) as (row & Hrow & Hval).
  { assert ((value <$> values t) !! i = Some (validator_to_vec v)) as Hvi.
    { by rewrite Hvals, list_lookup_fmap, Hi. }
    rewrite list_lookup_fmap in Hvi. apply fmap_Some in Hvi as (row & ? & ?). by exists row. }
  destruct (get_proof_bytes t i row Ht Hrow) as (j & w & Hw & Heq & Hsame).
  destruct (get_proof_ok t j w) as (h & prf & r & Hh & Hprf & Hproc & Hr); [done|lia|done|].
  unfold prove, root_hash, validate_proof. rewrite <-Hval, Heq, Hprf, Hr.
  eexists _, r. split_and!; [reflexivity|done|].
  rewrite Hval, <-Henc, <-Hval, <-Hsame, Hh. unfold mbind, outcome_bind.
  cbn [format]. unfold process_proof in *. rewrite list_fmap_id.
  injection Hproc as ->. by rewrite bool_decide_eq_true_2.
Qed.

(** The proof that [prove] produces for a member of the power
    table is accepted by [validate] against the root of the table's tree. *)
Lemma validator_proof_complete vs t v
    (Hnew : ValidatorMerkleTree_new vs = Done t)
    (Hlen : (2 * Z.of_nat (length vs) ≤ i32_max)%Z) (Hv : v ∈ vs) :
  ∃ prf r, prove t v = Done prf ∧ root_hash t = Done r ∧ validate_proof v r prf = Done true.
Proof. by apply (prove_validates vs). Qed.

(** If [validate] accepts a proof for a validator against the root
    of a power table, then a member of the table has its address and its power, unless one
    of the strings hashed to build the tree and one hashed by the verifier collide. *)
Lemma validator_proof_sound `{!ValidatorRowLaws} vs t r v prf
    (Hnew : ValidatorMerkleTree_new vs = Done t) (Hroot : root_hash t = Done r)
    (Hok : validate_proof v r prf = Done true) :
  ∃ e, row_encoding VALIDATOR_TREE_FIELDS (validator_to_vec v) = Some e ∧
    ((∃ w, w ∈ vs ∧ eth_of_key (public_key w) = eth_of_key (public_key v) ∧ power w = power v) ∨
     collides (hashed_for_tree (validator_to_vec <$> vs) VALIDATOR_TREE_FIELDS t)
       (hashed_by_verifier e prf)).
Proof.
  unfold validate_proof in Hok.
  apply outcome_bind_Done in Hok as (h & Hh & (r' & Hr' & Heq)%outcome_bind_Done).
  injection Heq as <-%bool_decide_eq_true.
  apply standard_leaf_hash_Done in Hh as Hh'. destruct Hh' as (e & He & _). exists e. split; [done|].
  unfold root_hash, root, index in Hroot. destruct (tree t !! 0%nat) as [r'|] eqn:Hfirst; [|done].
  injection Hroot as ->.
  destruct (tree_binds _ _ _ _ _ _ _ _ Hnew Hfirst He Hh Hr') as [Hin|Hcol]; [left|by right].
  apply list_elem_of_omap in Hin as (row & (w & -> & Hw)%list_elem_of_fmap & Hrow).
  exists w. split; [done|]. destruct (row_determines _ _ _ Hrow He). auto.
Qed.
End membership.

(** ** A concrete instance *)

Module SampleValidators.
Import SampleKeccak SampleAbi.

(** Keys are numbered; their serialisation is the number. *)
#[export] Instance sample_keys : Keys := {|
  PublicKey := N;
  pk_serialize n := be_bytes 65 n;
  pk_parse_slice bs := if bool_decide (length bs = 65%nat) then Some (from_be_bytes bs) else None
|}.

#[export] Instance sample_text : EthText := {|
  h160_debug a := encode (vec_to_list a);
  u256_to_string n := pretty n
|}.

#[export] Instance sample_order : HashOrder (vec byte 65) := {|
  hash_iter A m := map_to_list m;
  hash_iter_perm A m := Permutation_refl (map_to_list m)
|}.

Lemma encode_inj bs bs' : encode bs = encode bs' → bs = bs'.
Proof.
  intros Heq. pose proof (decode_encode bs) as Hd. rewrite Heq, decode_encode in Hd. congruence.
Qed.

Lemma length_encode bs : length (String.list_byte_of_string (encode bs)) = (2 * length bs)%nat.
Proof.
  unfold String.list_byte_of_string. rewrite length_map.
  induction bs as [|b bs IH]; [done|]. cbn [encode String.list_ascii_of_string length]. lia.
Qed.

Lemma list_byte_inj s s' : String.list_byte_of_string s = String.list_byte_of_string s' → s = s'.
Proof.
  intros Heq. rewrite <-(String.string_of_list_byte_of_string s), Heq.
  apply String.string_of_list_byte_of_string.
Qed.

Definition text_bytes (s : string) : list byte :=
  byte_of (N.of_nat (String.length s)) :: String.list_byte_of_string s.

Lemma sample_encoding a b :
  row_encoding VALIDATOR_TREE_FIELDS [a; b] = Some (text_bytes a ++ text_bytes b).
Proof.
  unfold row_encoding. change (tokens_from [a; b] 0 VALIDATOR_TREE_FIELDS) with (Done (E:=string) [a; b]).
  f_equal. change (text_bytes a ++ text_bytes b ++ [] = text_bytes a ++ text_bytes b).
  by rewrite app_nil_r.
Qed.

#[export] Instance sample_row_laws : ValidatorRowLaws.
Proof.
  intros v w e Hv Hw. rewrite <-Hv in Hw. clear Hv. unfold validator_to_vec in Hw.
  rewrite !sample_encoding in Hw. apply (inj Some) in Hw. apply app_inj_1 in Hw as [Ha Hp].
  - apply (f_equal tail) in Ha, Hp. apply list_byte_inj in Ha, Hp.
    apply encode_inj, vec_to_list_inj2 in Ha. apply (inj pretty) in Hp. done.
  - unfold text_bytes. cbn [length h160_debug sample_text].
    by rewrite !length_encode, !length_vec_to_list.
Qed.

Definition bob : Validator := MkValidator 8 50.
Definition sample_table : list Validator := [MkValidator 7 100; bob; MkValidator 9 25].
Definition sample_next : list Validator := [bob; MkValidator 9 30; MkValidator 6 1].
Definition sample_vtree : StandardMerkleTree :=
  done_or (MkTree ∅ [] [] []) (ValidatorMerkleTree_new sample_table).
Definition sample_root : Hash := default hash_zero (head (tree sample_vtree)).
Definition sample_proof : list Hash :=
  done_or [] (prove (H := dev_profile) sample_vtree bob).
End SampleValidators.

Section witnesses.
Import SampleKeccak SampleAbi SampleValidators.
#[local] Existing Instance dev_profile.

Lemma power_diff_spec_witness :
  apply_updates (into_power_map sample_table) (power_diff sample_table sample_next) =
    filter (λ kv, power kv.2 ≠ 0) (into_power_map sample_next).
Proof.
  apply (power_diff_spec sample_table sample_next).
  repeat constructor; discriminate.
Defined.

Lemma validator_proof_complete_witness :
  ∃ prf r, prove sample_vtree bob = Done prf ∧ root_hash sample_vtree = Done r ∧
    validate_proof bob r prf = Done true.
Proof.
  apply (validator_proof_complete sample_table sample_vtree bob).
  - apply done_or_eq. vm_compute. reflexivity.
  - vm_compute. discriminate.
  - right. left.
Defined.

Lemma validator_proof_sound_witness :
  ∃ e, row_encoding VALIDATOR_TREE_FIELDS (validator_to_vec bob) = Some e ∧
    ((∃ w, w ∈ sample_table ∧ eth_of_key (public_key w) = eth_of_key (public_key bob) ∧ power w = power bob) ∨
     collides (hashed_for_tree (validator_to_vec <$> sample_table) VALIDATOR_TREE_FIELDS sample_vtree)
       (hashed_by_verifier e sample_proof)).
Proof.
  apply (validator_proof_sound sample_table sample_vtree sample_root bob sample_proof).
  - apply done_or_eq. vm_compute. reflexivity.
  - vm_compute. reflexivity.
  - vm_compute. reflexivity.
Defined.
End witnesses.
