(* ===== verification/Ledger.v ===== *)
(** * The ledger below the interpreters

    The messages of [fendermint/vm/message/src], the execution state of
    [fendermint/vm/interpreter/src/fvm/state/exec.rs], the top-down part of the gateway
    calls of [fvm/state/ipc.rs] and the top-down execution of [fvm/topdown.rs].

    The FVM, its state tree and the contracts it runs are behind the class [Machine]. *)

From Stdlib Require Import Strings.Byte.
From stdpp Require Import vector.
From S2P Require Import Prelude OrdMap Weights Cache Voting Finality Node Fetch Syncer Merkle.

(** ** Messages *)

Class ChainIds := {
  Cid : Type;
  Cid_eq_dec :: EqDecision Cid;
  Cid_countable :: Countable Cid;
  Bytes : Type;
  Bytes_eq_dec :: EqDecision Bytes;
  Bytes_countable :: Countable Bytes;
  ActorAddress : Type;
  ActorAddress_eq_dec :: EqDecision ActorAddress;
  ActorAddress_countable :: Countable ActorAddress;
  Subnet : Type;
  Subnet_eq_dec :: EqDecision Subnet;
  Subnet_countable :: Countable Subnet;
  MultiSig : Type;
  MultiSig_eq_dec :: EqDecision MultiSig;
  MultiSig_countable :: Countable MultiSig;
  Signature : Type
}.

(** [Object] of [fendermint/vm/message/src/signed.rs]. *)
Record ObjectMsg `{ChainIds} := MkObject { obj_key : Bytes; obj_value : Cid; obj_address : ActorAddress }.
Arguments MkObject {_} _ _ _.

#[export] Instance ObjectMsg_eq_dec `{ChainIds} : EqDecision ObjectMsg.
Proof. solve_decision. Defined.
#[export] Instance ObjectMsg_countable `{ChainIds} : Countable ObjectMsg :=
  inj_countable' (λ o, (obj_key o, obj_value o, obj_address o))
    (λ '(k, v, a), MkObject k v a) (λ o, match o with MkObject _ _ _ => eq_refl end).

(** The messages of [fendermint/vm/message/src/ipc.rs]. *)
Record BottomUpCheckpoint `{ChainIds} := MkCheckpoint {
  ckpt_subnet_id : Subnet;
  ckpt_height : Z;
  next_validator_set_id : N;
  bottom_up_messages : Cid
}.
Arguments MkCheckpoint {_} _ _ _ _.

Record CertifiedMessage `{ChainIds} := MkCertified {
  certified : BottomUpCheckpoint;
  certificate : MultiSig
}.
Arguments MkCertified {_} _ _.

#[export] Instance BottomUpCheckpoint_eq_dec `{ChainIds} : EqDecision BottomUpCheckpoint.
Proof. solve_decision. Defined.
#[export] Instance BottomUpCheckpoint_countable `{ChainIds} : Countable BottomUpCheckpoint :=
  inj_countable'
    (λ c, (ckpt_subnet_id c, ckpt_height c, next_validator_set_id c, bottom_up_messages c))
    (λ '(s, h, v, m), MkCheckpoint s h v m)
    (λ c, match c with MkCheckpoint _ _ _ _ => eq_refl end).
#[export] Instance CertifiedMessage_eq_dec `{ChainIds} : EqDecision CertifiedMessage.
Proof. solve_decision. Defined.
#[export] Instance CertifiedMessage_countable `{ChainIds} : Countable CertifiedMessage :=
  inj_countable' (λ c, (certified c, certificate c)) (λ '(m, s), MkCertified m s)
    (λ c, match c with MkCertified _ _ => eq_refl end).

Record RelayedMessage `{ChainIds} := MkRelayed {
  relayed : CertifiedMessage;
  relayer : ActorAddress;
  relay_sequence : N;
  relay_gas_limit : N;
  relay_gas_fee_cap : Z;
  relay_gas_premium : Z
}.
Arguments MkRelayed {_} _ _ _ _ _ _.

Record SignedRelayedMessage `{ChainIds} := MkSignedRelayed {
  relayed_message : RelayedMessage;
  relayed_signature : Signature
}.
Arguments MkSignedRelayed {_} _ _.

Record ParentFinality `{ParentData} := MkParentFinality { pf_height : Z; pf_block_hash : BlockHash }.
Arguments MkParentFinality {_} _ _.

Inductive IpcMessage `{ParentData, ChainIds} :=
| BottomUpResolve (m : SignedRelayedMessage)
| BottomUpExec (m : CertifiedMessage)
| TopDownExec (p : ParentFinality)
| ObjectResolved (o : ObjectMsg).

(** [fvm_shared::message::Message] as the interpreter builds it. *)
Record FvmMessage `{ChainIds} := MkFvmMessage {
  version : N;
  msg_from : ActorAddress;
  msg_to : ActorAddress;
  sequence : N;
  msg_value : Z;
  method_num : N;
  params : Bytes;
  gas_limit : N;
  gas_fee_cap : Z;
  gas_premium : Z
}.
Arguments MkFvmMessage {_} _ _ _ _ _ _ _ _ _ _.

(** ** The machine below

    [FvmState] is the executor of the FVM with its state tree and the contracts.  Its
    operations run to completion or fail, and a failure discards the state: the
    interpreters own it by value. *)

(** What a message did.  The fields of [fvm::executor::ApplyRet] about fees and gas
    refunds are not read by the node. *)
Record ApplyRet `{ChainIds} := MkRet {
  exit_code : N;
  return_data : Bytes;
  gas_used : N;
  failure_info : option string;
  event_emitters : list N
}.
Arguments MkRet {_} _ _ _ _ _.

Record ActorState `{ChainIds} := MkActor {
  actor_code : Cid;
  actor_head : Cid;
  actor_sequence : N;
  actor_balance : Z;
  delegated_address : option ActorAddress
}.
Arguments MkActor {_} _ _ _ _ _.

(** [FvmApplyRet]: the receipt of an execution, where it went, and the delegated
    addresses of those who emitted events. *)
Record FvmApplyRet `{ChainIds} := MkApplyRet {
  apply_ret : ApplyRet;
  ret_from : ActorAddress;
  ret_to : ActorAddress;
  ret_method_num : N;
  ret_gas_limit : N;
  emitters : gmap N ActorAddress
}.
Arguments MkApplyRet {_} _ _ _ _ _ _.

Inductive ApplyKind := Explicit | Implicit.

Class Machine `{ParentData, ChainIds} := {
  FvmState : Type;
  (* the return data of a call of [GetObject], decoded: the object's flag, if it exists *)
  decode_object : ApplyRet → string + option bool;
  (* constants, encodings and conversions *)
  cid_to_bytes : Cid → Object;
  ExitCode_OK : N;
  SYS_SENDER_INVALID : N;
  SYS_SENDER_STATE_INVALID : N;
  SYS_ASSERTION_FAILED : N;
  SYSTEM_ACTOR_ADDR : ActorAddress;
  GATEWAY_ACTOR_ADDR : ActorAddress;
  METHOD_INVOKE_CONTRACT : N;
  GetObject : N;
  ResolveObject : N;
  BLOCK_GAS_LIMIT : N;
  raw_bytes_default : Bytes;
  serialize_get_params : Bytes → string + Bytes;
  serialize_resolve_params : Bytes → Cid → string + Bytes;
  cid_of_relayed : RelayedMessage → string + Cid;
  block_hash_len : BlockHash → N;
  envelope_value : IpcEnvelope → Z;
  EvmChange : Type;
  change_to_evm : StakingChangeRequest → outcome string EvmChange;
  EvmEnvelope : Type;
  envelope_to_evm : IpcEnvelope → outcome string EvmEnvelope;
  (* [Message::check] and the length of the encoded message *)
  message_check : FvmMessage → option string;
  message_length : FvmMessage → string + N;
  (* the executor: its context, its state tree, executing and flushing *)
  context_epoch : FvmState → Z;
  context_timestamp : FvmState → N;
  context_chain_id : FvmState → N;
  tree_lookup_id : FvmState → ActorAddress → string + option N;
  tree_get_actor : FvmState → N → string + option ActorState;
  tree_set_actor : N → ActorState → FvmState → FvmState;
  executor_execute : FvmMessage → ApplyKind → N → stm FvmState string ApplyRet;
  executor_flush : stm FvmState string Cid;
  (* the gateway's contracts and its actor *)
  gateway_commit_parent_finality : IPCParentFinality → stm FvmState string (bool * IPCParentFinality);
  gateway_store_validator_changes : list EvmChange → stm FvmState string unit;
  gateway_apply_cross_messages : list EvmEnvelope → stm FvmState string FvmApplyRet;
  credit_gateway_actor : Z → stm FvmState string unit
}.

(** ** The execution state *)

Record FvmUpdatableParams := MkUpdatable {
  app_version : N;
  base_fee : Z;
  p_circ_supply : Z;
  power_scale : Z
}.

Record FvmExecState `{Machine} := MkExecState {
  fvm : FvmState;
  exec_block_hash : option Hash;
  validator_id : option (vec byte 20);
  updatable : FvmUpdatableParams;
  params_dirty : bool
}.
Arguments MkExecState {_ _ _} _ _ _ _ _.

(** [FvmStateParams]: what is kept of the state between blocks. *)
Record FvmStateParams `{ChainIds} := MkStateParams {
  sp_state_root : Cid;
  sp_timestamp : N;
  sp_network_version : N;
  sp_base_fee : Z;
  sp_circ_supply : Z;
  sp_chain_id : N;
  sp_power_scale : Z;
  sp_app_version : N
}.
Arguments MkStateParams {_} _ _ _ _ _ _ _ _.

(** Configuring the FVM and making a machine for a height and state, in
    [FvmExecState::new]. *)
Class Launch `{Machine} := {
  machine_new : Z → FvmStateParams → string + FvmState
}.

Section exec_state.
Context `{ParentData, ChainIds, !Machine}.
Implicit Types (st : FvmExecState) (s : FvmState).

Definition circ_supply st : Z := p_circ_supply (updatable st).
Definition block_height st : Z := context_epoch (fvm st).
Definition timestamp st : N := context_timestamp (fvm st).
Definition chain_id st : N := context_chain_id (fvm st).

Definition with_block_hash (h : Hash) st : FvmExecState :=
  MkExecState (fvm st) (Some h) (validator_id st) (updatable st) (params_dirty st).
Definition with_validator_id (v : vec byte 20) st : FvmExecState :=
  MkExecState (fvm st) (exec_block_hash st) (Some v) (updatable st) (params_dirty st).

Definition of_sum {E A} (r : E + A) : outcome E A :=
  match r with inl e => Fail e | inr a => Done a end.

Definition exec_new `{!Launch} (height : Z) (p : FvmStateParams) : outcome string FvmExecState :=
  s ← of_sum (machine_new height p);
  Done (MkExecState s None None
    (MkUpdatable (sp_app_version p) (sp_base_fee p) (sp_circ_supply p) (sp_power_scale p)) false).

(** Collect the delegated addresses of the actors that emitted events. *)
Fixpoint delegated_addresses s (ids : list N) (em : gmap N ActorAddress)
    : outcome string (gmap N ActorAddress) :=
  match ids with
  | [] => Done em
  | id :: ids =>
      actor ← of_sum (tree_get_actor s id);
      delegated_addresses s ids
        (match actor ≫= delegated_address with Some addr => <[id := addr]> em | None => em end)
  end.

Definition emitter_delegated_addresses s (ret : ApplyRet) : outcome string (gmap N ActorAddress) :=
  delegated_addresses s (elements (list_to_set (event_emitters ret) : gset N)) ∅.

(** The receipt made up for a message that fails its basic checks. *)
Definition check_error (e : string) : ApplyRet * gmap N ActorAddress :=
  (MkRet SYS_ASSERTION_FAILED raw_bytes_default 0 (Some e) [], ∅).

Definition execute_message (msg : FvmMessage) (kind : ApplyKind)
    : stm FvmState string (ApplyRet * gmap N ActorAddress) :=
  match message_check msg with
  | Some e => mret (check_error e)
  | None =>
      raw_length ← lift (of_sum (message_length msg));
      ret ← executor_execute msg kind raw_length;
      s ← reads id;
      addrs ← lift (emitter_delegated_addresses s ret);
      mret (ret, addrs)
  end.

Definition executor_implicit (msg : FvmMessage) := execute_message msg Implicit.
Definition executor_explicit (msg : FvmMessage) := execute_message msg Explicit.

Definition exit_code_is_success (ret : ApplyRet) : bool := bool_decide (exit_code ret = ExitCode_OK).

Definition on_fvm {A} (tx : stm FvmState string A) : stm FvmExecState string A :=
  zoom fvm (λ s st, MkExecState s (exec_block_hash st) (validator_id st) (updatable st)
    (params_dirty st)) tx.

Definition update_params (g : FvmUpdatableParams → FvmUpdatableParams) : stm FvmExecState string unit :=
  modify (λ st, MkExecState (fvm st) (exec_block_hash st) (validator_id st) (g (updatable st)) true).

Definition update_app_version (g : N → N) : stm FvmExecState string unit :=
  update_params (λ p, MkUpdatable (g (app_version p)) (base_fee p) (p_circ_supply p) (power_scale p)).
Definition update_base_fee (g : Z → Z) : stm FvmExecState string unit :=
  update_params (λ p, MkUpdatable (app_version p) (g (base_fee p)) (p_circ_supply p) (power_scale p)).
Definition update_circ_supply (g : Z → Z) : stm FvmExecState string unit :=
  update_params (λ p, MkUpdatable (app_version p) (base_fee p) (g (p_circ_supply p)) (power_scale p)).

(** [commit]: flush the state tree and hand out the parameters. *)
Definition commit_state st : outcome string (Cid * FvmUpdatableParams * bool) :=
  r ← executor_flush (fvm st);
  Done (r.1, updatable st, params_dirty st).
End exec_state.

(** ** The gateway *)

Section gateway.
Context `{Scheduler, !ChainIds, !Machine}.

(** [TryFrom<IPCParentFinality>]: the contract keeps 32 bytes of hash. *)
Definition finality_try_from f : outcome string IPCParentFinality :=
  if bool_decide (block_hash_len (block_hash f) ≠ 32)
  then Fail "invalid block hash length, expecting 32"%string
  else Done f.

Definition commit_parent_finality (f : IPCParentFinality)
    : stm FvmExecState string (option IPCParentFinality) :=
  evm_finality ← lift (finality_try_from f);
  r ← on_fvm (gateway_commit_parent_finality evm_finality);
  let '(has_committed, prev_finality) := r in
  mret (if negb has_committed then None else Some prev_finality).

(** A loop that converts the elements of a vector and stops at the first error, for conversions
    that can panic and for those that cannot. *)
Fixpoint try_all {A B} (conv : A → outcome string B) (l : list A) : outcome string (list B) :=
  match l with
  | [] => Done []
  | a :: l => b ← conv a; bs ← try_all conv l; Done (b :: bs)
  end.
Fixpoint convert_all {A B} (conv : A → string + B) (l : list A) : outcome string (list B) :=
  match l with
  | [] => Done []
  | a :: l => b ← of_sum (conv a); bs ← convert_all conv l; Done (b :: bs)
  end.

Definition store_validator_changes (changes : list StakingChangeRequest)
    : stm FvmExecState string unit :=
  match changes with
  | [] => mret tt
  | _ =>
      change_requests ← lift (try_all change_to_evm changes);
      on_fvm (gateway_store_validator_changes change_requests)
  end.

Definition mint_to_gateway (value : Z) : stm FvmExecState string unit :=
  on_fvm (credit_gateway_actor value).

Definition apply_cross_messages (msgs : list IpcEnvelope) : stm FvmExecState string FvmApplyRet :=
  messages ← lift (try_all envelope_to_evm msgs);
  on_fvm (gateway_apply_cross_messages messages).

Definition tokens_to_mint (msgs : list IpcEnvelope) : Z :=
  fold_left (λ total msg, (total + envelope_value msg)%Z) msgs 0%Z.

(** ** Top-down execution ([fvm/topdown.rs]) *)

Definition commit_finality (f : IPCParentFinality) (st : FvmExecState)
    : io Node string ((N * option IPCParentFinality) * FvmExecState) :=
  r ← io_of (commit_parent_finality f st);
  let '(prev, st) := r in
  match prev with
  | Some prev_finality => mret ((height prev_finality, Some prev_finality), st)
  | None => genesis_epoch ← toggle_genesis_epoch; mret ((genesis_epoch, None), st)
  end.

Definition execute_topdown_msgs (messages : list IpcEnvelope) : stm FvmExecState string FvmApplyRet :=
  let minted_tokens := tokens_to_mint messages in
  (if bool_decide (minted_tokens = 0%Z) then mret tt
   else
     mint_to_gateway minted_tokens ;;
     update_circ_supply (λ circ_supply, (circ_supply + minted_tokens)%Z)) ;;
  apply_cross_messages messages.
End gateway.

(** The context of a machine is that of its block, whatever it executes. *)
Definition same_context `{Machine} (s s' : FvmState) : Prop :=
  context_epoch s' = context_epoch s ∧ context_timestamp s' = context_timestamp s ∧
  context_chain_id s' = context_chain_id s.
#[export] Instance same_context_refl `{Machine} : Reflexive same_context.
Proof. done. Qed.
#[export] Instance same_context_trans `{Machine} : Transitive same_context.
Proof. intros ???(?&?&?)(?&?&?). unfold same_context. split_and!; congruence. Qed.

Class ContextLaws `{Machine} := {
  context_execute m k n : keeps same_context (executor_execute m k n);
  context_set_actor i a s : same_context s (tree_set_actor i a s);
  context_commit f : keeps same_context (gateway_commit_parent_finality f);
  context_store l : keeps same_context (gateway_store_validator_changes l);
  context_apply l : keeps same_context (gateway_apply_cross_messages l);
  context_credit v : keeps same_context (credit_gateway_actor v)
}.

Section contexts.
Context `{Scheduler, !ChainIds, !Machine, !ContextLaws}.
Implicit Types (st : FvmExecState).

Definition same_exec_context st st' : Prop := same_context (fvm st) (fvm st').
#[export] Instance same_exec_context_refl : Reflexive same_exec_context.
Proof. unfold same_exec_context. done. Qed.
#[export] Instance same_exec_context_trans : Transitive same_exec_context.
Proof. intros ???. unfold same_exec_context. apply transitivity. Qed.

Lemma keeps_on_fvm {A} (tx : stm FvmState string A) :
  keeps same_context tx → keeps same_exec_context (on_fvm tx).
Proof.
  intros Htx st x st'. unfold on_fvm, zoom. destruct (tx (fvm st)) as [[y s']| | | |] eqn:Heq; [|done..].
  intros [= <- <-]. unfold same_exec_context. simpl. by eapply Htx.
Qed.

Lemma keeps_update_params g : keeps same_exec_context (update_params g).
Proof. by apply keeps_modify. Qed.

Lemma keeps_execute m k : keeps same_context (execute_message m k).
Proof.
  unfold execute_message. solve_keeps. apply context_execute.
Qed.

Lemma keeps_store_changes l : keeps same_exec_context (store_validator_changes l).
Proof. unfold store_validator_changes. solve_keeps. apply keeps_on_fvm, context_store. Qed.

Lemma keeps_topdown_msgs l : keeps same_exec_context (execute_topdown_msgs l).
Proof.
  unfold execute_topdown_msgs, mint_to_gateway, apply_cross_messages, update_circ_supply. solve_keeps;
    first [apply keeps_update_params | apply keeps_on_fvm; first [apply context_credit|apply context_apply]].
Qed.

Lemma keeps_commit_finality f : keeps same_exec_context (commit_parent_finality f).
Proof.
  unfold commit_parent_finality. solve_keeps. apply keeps_on_fvm, context_commit.
Qed.
End contexts.

(** A message constructed for the FVM, with the signature of what it stands for. *)
Record SyntheticMessage `{ChainIds} := MkSynthetic {
  synthetic_message : FvmMessage;
  orig_cid : Cid;
  synthetic_signature : Signature
}.
Arguments MkSynthetic {_} _ _ _.
