(* ===== verification/Chain.v ===== *)
(** * The chain interpreter

    Models [ChainMessageInterpreter] of [fendermint/vm/interpreter/src/chain.rs]: what a
    validator proposes for a block, which proposals it accepts, and what delivering a
    message does to the ledger, the finality provider, the vote tally and the pools.

    The laws of the gateway's finality records are stated as [GatewayLaws], after
    [contracts/src/lib/LibGateway.sol] and [TopDownFinalityFacet.sol]; those of the object
    stores as [ObjectStoreLaws]. *)

From stdpp Require Import vector.
From S2P Require Import Prelude OrdMap Weights Cache Voting Finality Node Fetch Syncer Pool Merkle.
From S2P Require Import Ledger.

Abbreviation ApplyResult := FvmApplyRet.

(** The interpreter of verifiable messages, which the chain interpreter wraps; an
    inner error of the result is a message whose signature is invalid. *)
Class Inner `{Machine} := {
  SignedMessage : Type;
  signed_object : SignedMessage → option ObjectMsg;
  inner_begin : stm FvmExecState string ApplyResult;
  inner_deliver_signed : SignedMessage → stm FvmExecState string (string + ApplyResult);
  inner_deliver_synthetic : SyntheticMessage → stm FvmExecState string (string + ApplyResult);
  PowerUpdate : Type;
  update_key : PowerUpdate → ValidatorKey;
  update_power : PowerUpdate → N;
  inner_end : stm FvmExecState string (list PowerUpdate);
  CheckState : Type;
  CheckRes : Type;
  inner_check_signed : SignedMessage → bool → stm CheckState string CheckRes;
  inner_check_synthetic : SyntheticMessage → bool → stm CheckState string CheckRes
}.

Inductive ChainMessage `{Inner} :=
| Signed (m : SignedMessage)
| Ipc (m : IpcMessage).

Inductive ChainMessageApplyRet `{Inner} :=
| RetSigned (ret : string + ApplyResult)
| RetIpc (ret : ApplyResult).

(** ** The environment

    The pools are shared with the background resolvers, which may run before each
    transaction on them. *)

Definition checkpoint_key `{ChainIds} (c : CertifiedMessage) : Subnet * Cid :=
  (ckpt_subnet_id (certified c), bottom_up_messages (certified c)).

Definition object_key `{ChainIds} (o : ObjectMsg) : Cid := obj_value o.

Abbreviation CheckpointPool := (ResolvePool bool CertifiedMessage (Subnet * Cid)).
Abbreviation ObjectPool := (ResolvePool unit ObjectMsg Cid).

Class Resolvers `{ChainIds} := {
  resolve_checkpoints : CheckpointPool → CheckpointPool;
  resolve_objects : ObjectPool → ObjectPool
}.

Record ChainEnv `{ParentQueryProxy, ChainIds} := MkEnv {
  checkpoint_pool : CheckpointPool;
  object_pool : ObjectPool;
  node : Node
}.
Arguments MkEnv {_ _ _} _ _ _.

Section env.
Context `{Scheduler, Resolvers}.

Definition set_checkpoint_pool p (env : ChainEnv) : ChainEnv :=
  MkEnv p (object_pool env) (node env).
Definition set_object_pool p (env : ChainEnv) : ChainEnv :=
  MkEnv (checkpoint_pool env) p (node env).
Definition set_node n (env : ChainEnv) : ChainEnv :=
  MkEnv (checkpoint_pool env) (object_pool env) n.

(** Transactions on the parts of the environment. *)
Definition on_checkpoints {E A} (tx : stm CheckpointPool E A) : io ChainEnv E A := λ env,
  let '(r, p) := atomically_or_err tx (resolve_checkpoints (checkpoint_pool env)) in
  (r, set_checkpoint_pool p env).
Definition on_objects {E A} (tx : stm ObjectPool E A) : io ChainEnv E A := λ env,
  let '(r, p) := atomically_or_err tx (resolve_objects (object_pool env)) in
  (r, set_object_pool p env).
Definition on_node {E A} (m : io Node E A) : io ChainEnv E A := λ env,
  let '(r, n) := m (node env) in (r, set_node n env).
End env.

(** ** The interpreter *)

Section interpreter.
Context `{Profile, Scheduler, !ChainIds, !Machine, !Inner, !Resolvers}.

(** [u64 as ChainEpoch]. *)
Definition as_epoch (h : N) : Z :=
  if bool_decide (h < 2 ^ 63) then Z.of_N h else (Z.of_N h - Z.of_N u64_size)%Z.

Definition relayed_bottom_up_ckpt_to_fvm (m : SignedRelayedMessage)
    : outcome string SyntheticMessage :=
  let rm := relayed_message m in
  let msg := MkFvmMessage 0 (relayer rm) GATEWAY_ACTOR_ADDR (relay_sequence rm) 0%Z
    METHOD_INVOKE_CONTRACT raw_bytes_default (relay_gas_limit rm) (relay_gas_fee_cap rm)
    (relay_gas_premium rm) in
  orig_cid ← of_sum (cid_of_relayed rm);
  Done (MkSynthetic msg orig_cid (relayed_signature m)).

(** A message of the system actor that is executed implicitly. *)
Definition implicit_message (to : ActorAddress) (method : N) (params : Bytes) : FvmMessage :=
  MkFvmMessage 0 SYSTEM_ACTOR_ADDR to 0 0%Z method params BLOCK_GAS_LIMIT 0%Z 0%Z.

Definition is_object_finalized (o : ObjectMsg) : stm FvmExecState string bool :=
  params ← lift (of_sum (serialize_get_params (obj_key o)));
  r ← on_fvm (executor_implicit (implicit_message (obj_address o) GetObject params));
  object ← lift (of_sum (decode_object r.1));
  mret (match object with Some resolved => resolved | None => true end).

(** *** Proposing *)

(** The choice between the own proposal and the quorum's. *)
Definition choose_finality (parent quorum : option IPCParentFinality) : option IPCParentFinality :=
  match parent, quorum with
  | Some parent, Some quorum =>
      Some (if bool_decide (height parent ≤ height quorum) then parent else quorum)
  | Some _, None => None
  | None, _ => None
  end.

Definition find_finalities
    : stm Node string (option IPCParentFinality * option IPCParentFinality) :=
  parent ← on_provider toggle_next_proposal;
  quorum ← on_tally find_quorum;
  mret (parent, (λ '(h, bh), MkFinality h bh) <$> quorum).

(** The loop over the locally resolved objects, inside a transaction of the state tree
    that is reverted afterwards. *)
Fixpoint propose_objects (l : list ObjectMsg) (st : FvmExecState) (objects : list ChainMessage)
    : io ChainEnv string (list ChainMessage) :=
  match l with
  | [] => mret objects
  | item :: l =>
      r ← io_of (is_object_finalized item st);
      let '(finalized, st) := r in
      if (finalized : bool) then
        on_objects (remove object_key item) ;;
        propose_objects l st objects
      else
        is_globally_resolved ←
          on_node (atomically (on_tally (find_object_quorum (cid_to_bytes (obj_value item)))));
        propose_objects l st
          (if (is_globally_resolved : bool) then objects ++ [Ipc (ObjectResolved item)] else objects)
  end.

(** The objects that can be finalized. *)
Definition prepare_objects (st : FvmExecState) : io ChainEnv string (list ChainMessage) :=
  local_resolved_objects ← on_objects collect_resolved;
  match elements local_resolved_objects with
  | [] => mret []
  | l =>
      objects ← propose_objects l st [];
      pending_objects ← on_objects count;
      mret objects
  end.

Definition prepare (st : FvmExecState) (msgs : list ChainMessage)
    : io ChainEnv string (list ChainMessage) :=
  ckpts ← on_checkpoints collect_resolved;
  let ckpts := (λ c, Ipc (BottomUpExec c)) <$> elements ckpts in
  on_node (atomically (on_tally pause_votes_until_find_quorum)) ;;
  finalities ← on_node (atomically find_finalities);
  let '(parent, quorum) := finalities in
  let topdown :=
    match choose_finality parent quorum with
    | Some f => [Ipc (TopDownExec (MkParentFinality (as_epoch (height f)) (block_hash f)))]
    | None => []
    end in
  objects ← prepare_objects st;
  mret (msgs ++ topdown ++ ckpts ++ objects).

(** *** Accepting a proposal *)

(** [get_status] and [is_resolved] in one transaction. *)
Definition resolved_in {Flag T K} `{Countable T, Countable K} (key_of : T → K) {E} (item : T)
    : stm (ResolvePool Flag T K) E bool :=
  status ← get_status key_of item;
  match status with
  | None => mret false
  | Some i => status_is_resolved i
  end.

(** What [process] does with one message: whether to go on. *)
Definition process_one (st : FvmExecState) (msg : ChainMessage) : io ChainEnv string bool :=
  match msg with
  | Ipc (BottomUpExec c) => on_checkpoints (resolved_in checkpoint_key c)
  | Ipc (TopDownExec p) =>
      let prop := finality_new (pf_height p) (pf_block_hash p) in
      on_node (atomically (on_provider (toggle_check_proposal prop)))
  | Ipc (ObjectResolved item) =>
      r ← io_of (is_object_finalized item st);
      if (r.1 : bool) then mret false
      else
        is_globally_resolved ←
          on_node (atomically (on_tally (find_object_quorum (cid_to_bytes (obj_value item)))));
        if negb is_globally_resolved then mret false
        else
          is_locally_resolved ← on_objects (resolved_in object_key item);
          if (is_locally_resolved : bool) then on_objects (remove object_key item) ;; mret true
          else mret true
  | Ipc (BottomUpResolve _) | Signed _ => mret true
  end.

Fixpoint process (st : FvmExecState) (msgs : list ChainMessage) : io ChainEnv string bool :=
  match msgs with
  | [] => mret true
  | msg :: msgs =>
      ok ← process_one st msg;
      if (ok : bool) then process st msgs else mret false
  end.

(** *** Executing *)

Definition deliver_topdown (st : FvmExecState) (p : ParentFinality)
    : io ChainEnv string (ChainMessageApplyRet * FvmExecState) :=
  env ← io_reads (λ env, env);
  if negb (is_enabled (provider (node env)))
  then io_of (Fail "cannot execute IPC top-down message: parent provider disabled"%string)
  else
    let finality := finality_new (pf_height p) (pf_block_hash p) in
    r ← on_node (commit_finality finality st);
    let '((prev_height, prev_finality), st) := r in
    let execution_fr := prev_height in
    execution_to ← io_of (u64_sub (height finality) 1);
    validator_changes ← on_node (validator_changes_from execution_fr execution_to);
    r ← io_of (store_validator_changes validator_changes st);
    let '(_, st) := r in
    msgs ← on_node (top_down_msgs_from execution_fr execution_to);
    r ← io_of (execute_topdown_msgs msgs st);
    let '(ret, st) := r in
    on_node (atomically (commit_tx finality prev_finality)) ;;
    mret (RetIpc ret, st).

Definition deliver (st : FvmExecState) (msg : ChainMessage)
    : io ChainEnv string (ChainMessageApplyRet * FvmExecState) :=
  match msg with
  | Signed m =>
      r ← io_of (inner_deliver_signed m st);
      let '(ret, st) := r in
      (match ret, signed_object m with
       | inr _, Some obj => on_objects (ipfs_add object_key obj) ;; mret tt
       | _, _ => mret tt
       end) ;;
      mret (RetSigned ret, st)
  | Ipc (BottomUpResolve m) =>
      smsg ← io_of (relayed_bottom_up_ckpt_to_fvm m);
      r ← io_of (inner_deliver_synthetic smsg st);
      let '(ret, st) := r in
      let is_success := match ret with inr ret => exit_code_is_success (apply_ret ret) | inl _ => false end in
      (if is_success then
         on_checkpoints (resolver_add checkpoint_key (relayed (relayed_message m)) false) ;; mret tt
       else mret tt) ;;
      mret (RetSigned ret, st)
  | Ipc (BottomUpExec _) => io_of Panic
  | Ipc (TopDownExec p) => deliver_topdown st p
  | Ipc (ObjectResolved obj) =>
      params ← io_of (of_sum (serialize_resolve_params (obj_key obj) (obj_value obj)));
      let msg := implicit_message (obj_address obj) ResolveObject params in
      r ← io_of (on_fvm (executor_implicit msg) st);
      let '((apply_ret, emitters), st) := r in
      mret (RetIpc (MkApplyRet apply_ret SYSTEM_ACTOR_ADDR (obj_address obj) ResolveObject
        BLOCK_GAS_LIMIT emitters), st)
  end.

Definition begin_block (st : FvmExecState) : io ChainEnv string (ApplyResult * FvmExecState) :=
  io_of (inner_begin st).

Definition end_block (st : FvmExecState)
    : io ChainEnv string (list PowerUpdate * FvmExecState) :=
  r ← io_of (inner_end st);
  let '(out, st) := r in
  match out with
  | [] => mret (out, st)
  | _ =>
      let power_updates := (λ v, (update_key v, update_power v)) <$> out in
      on_node (atomically (on_tally (update_power_table power_updates))) ;;
      mret (out, st)
  end.

(** *** Admission to the mempool *)

Inductive ChainMessageCheckRes := IllegalMessage | Checked (res : CheckRes).

Definition check (msg : ChainMessage) (is_recheck : bool)
    : stm CheckState string ChainMessageCheckRes :=
  match msg with
  | Signed m => res ← inner_check_signed m is_recheck; mret (Checked res)
  | Ipc (BottomUpResolve m) =>
      smsg ← lift (relayed_bottom_up_ckpt_to_fvm m);
      res ← inner_check_synthetic smsg is_recheck;
      mret (Checked res)
  | Ipc (TopDownExec _) | Ipc (BottomUpExec _) | Ipc (ObjectResolved _) => mret IllegalMessage
  end.
End interpreter.

(** ** Executing what the parent has sent *)

Lemma try_all_Done {A B} (conv : A → outcome string B) (g : A → B) l :
  Forall (λ a, conv a = Done (g a)) l → try_all conv l = Done (g <$> l).
Proof. induction 1 as [|a l Ha _ IH]; [done|]. simpl. rewrite Ha. simpl. by rewrite IH. Qed.

Lemma fold_left_add {A} (g : A → Z) l z :
  fold_left (λ total a, (total + g a)%Z) l z = (z + foldr (λ a, Z.add (g a)) 0 l)%Z.
Proof.
  revert z. induction l as [|a l IH]; intros z; simpl; [lia|]. rewrite IH. lia.
Qed.

(** Everything between two heights, the upper one excluded. *)
Definition between {A} (v : N → list A) (a b : N) : list A :=
  concat (v <$> range_up a (N.to_nat (b - a))).

Lemma between_app {A} (v : N → list A) a b c :
  a ≤ b → b ≤ c → between v a c = between v a b ++ between v b c.
Proof.
  intros ??. unfold between. rewrite <-concat_app, <-fmap_app. do 2 f_equal.
  replace (N.to_nat (c - a)) with (N.to_nat (b - a) + N.to_nat (c - b))%nat by lia.
  rewrite range_up_app. do 2 f_equal. lia.
Qed.

Lemma between_incl {A} (v : N → list A) a b : 0 < b →
  concat (v <$> range_incl a (b - 1)) = between v a b.
Proof. intros ?. unfold between, range_incl. do 4 f_equal. lia. Qed.

(** What the gateway promises, from the states that it can get into ([gateway_sound]): it keeps
    the last committed finality, which has to grow, and it takes the changes and the messages
    that it is given, in order, if they continue those it has been given before in a way it
    takes ([takes_changes], [takes_messages]); the value of messages is minted before.
    [applied] and [stored] are the messages and the changes it has been given so far. *)
Class GatewayLaws `{Scheduler, !ChainIds, !Machine} := {
  committed : FvmState → option IPCParentFinality;
  applied : FvmState → list EvmEnvelope;
  stored : FvmState → list EvmChange;
  evm_envelope : IpcEnvelope → EvmEnvelope;
  evm_change : StakingChangeRequest → EvmChange;
  gateway_sound : FvmState → Prop;
  takes_changes : list EvmChange → Prop;
  takes_messages : list EvmEnvelope → Prop;
  commit_law f s : gateway_sound s → from_option height 0 (committed s) < height f →
    ∃ prev s', gateway_commit_parent_finality f s =
        Done ((bool_decide (is_Some (committed s)), prev), s') ∧
      (∀ g, committed s = Some g → prev = g) ∧ gateway_sound s' ∧
      committed s' = Some f ∧ applied s' = applied s ∧ stored s' = stored s;
  commit_stale f s : gateway_sound s → height f ≤ from_option height 0 (committed s) →
    ∃ e, gateway_commit_parent_finality f s = Fail e;
  store_law l s : gateway_sound s → takes_changes (stored s ++ l) →
    ∃ s', gateway_store_validator_changes l s = Done (tt, s') ∧ gateway_sound s' ∧
      committed s' = committed s ∧ applied s' = applied s ∧ stored s' = stored s ++ l;
  apply_law l s : gateway_sound s → takes_messages (applied s ++ (evm_envelope <$> l)) →
    ∃ s1 ret s', (if bool_decide (tokens_to_mint l = 0%Z) then s1 = s
        else credit_gateway_actor (tokens_to_mint l) s = Done (tt, s1)) ∧
      gateway_apply_cross_messages (evm_envelope <$> l) s1 = Done (ret, s') ∧ gateway_sound s' ∧
      committed s' = committed s ∧ applied s' = applied s ++ (evm_envelope <$> l) ∧ stored s' = stored s
}.

Section exec.
Context `{Profile, Scheduler, !ChainIds, !Machine, !Inner, !Resolvers, !GatewayLaws}.
Implicit Types (n : Node) (p : FinalityWithNull) (f : IPCParentFinality).
Implicit Types (st : FvmExecState) (env : ChainEnv).

(** The parent: its changes and messages at each height, since the epoch [g]. *)
Variables (changes : N → list StakingChangeRequest) (msgs : N → list IpcEnvelope) (g : N).
Hypothesis changes_convert : ∀ h, Forall (λ c, change_to_evm c = Done (evm_change c)) (changes h).
Hypothesis msgs_convert : ∀ h, Forall (λ m, envelope_to_evm m = Done (evm_envelope m)) (msgs h).
Hypothesis changes_taken : ∀ h, takes_changes (evm_change <$> between changes g h).
Hypothesis msgs_taken : ∀ h, takes_messages (evm_envelope <$> between msgs g h).

(** The height from which on nothing has been executed. *)
Definition executed_to (s : FvmState) : N := from_option height g (committed s).

(** The gateway has been given everything below that height, once and in order. *)
Definition executed (s : FvmState) : Prop :=
  gateway_sound s ∧ g ≤ executed_to s ∧
  stored s = evm_change <$> between changes g (executed_to s) ∧
  applied s = evm_envelope <$> between msgs g (executed_to s).

(** The provider and the tally are in lockstep at the committed finality [f], and the
    blocks of the provider are the parent's. *)
Definition attached f n : Prop :=
  ∃ p, provides n p f ∧ genesis_epoch p = g ∧
    (∀ h, chain (vote_tally n) !! h = chain_view p f h) ∧
    ∀ h v, blocks p !! h = Some v →
      changes h = from_option validator_changes [] v ∧ msgs h = from_option topdown_cross_msgs [] v.

(** The parent answers for the heights that are not cached, and what the other tasks
    do meanwhile does not detach the node. *)
Hypothesis parent_answers : ∀ h,
  answers (get_validator_changes h) (changes h) ∧ answers (get_top_down_msgs h) (msgs h).
Hypothesis others_attached : ∀ f n, attached f n → attached f (others n).

Lemma attached_sees f from to n : attached f n → sees changes msgs from to n.
Proof.
  intros (p & ([cfg Hcfg] & Hinv & _) & _ & _ & Hb). exists (MkCached p cfg).
  split_and!; [done|apply Hinv|]. intros h _. simpl. specialize (Hb h).
  destruct (blocks p !! h) as [[v|]|]; [..|apply parent_answers];
    destruct (Hb _ eq_refl) as [-> ->]; done.
Qed.

Lemma attached_world f w n : attached f n → attached f (set_world w n).
Proof. done. Qed.

Lemma attached_commit {E} f f' prev n :
  attached f n → debug_assertions = false ∨ prev = Some f → height f ≤ height f' →
  height f' + 1 < u64_size →
  ∃ n', commit_tx (E:=E) f' prev n = Done (tt, n') ∧ attached f' n'.
Proof.
  intros (p & Hp & Hg & Hc & Hb) Hprev Hle Hfit.
  destruct (commit_keeps_lockstep (E:=E) n p f f' prev Hp Hc Hprev Hle Hfit)
    as (n' & p' & Hr & Hp' & Hc' & Hb' & Hg'). exists n'. split; [done|].
  exists p'. split_and!; [done|congruence|done|]. intros h v.
  rewrite Hb', map_lookup_filter_Some. intros [Hv _]. by apply Hb.
Qed.

Lemma store_changes_law l st :
  Forall (λ c, change_to_evm c = Done (evm_change c)) l →
  gateway_sound (fvm st) → takes_changes (stored (fvm st) ++ (evm_change <$> l)) →
  ∃ st', store_validator_changes l st = Done (tt, st') ∧ gateway_sound (fvm st') ∧
    committed (fvm st') = committed (fvm st) ∧ applied (fvm st') = applied (fvm st) ∧
    stored (fvm st') = stored (fvm st) ++ (evm_change <$> l) ∧ circ_supply st' = circ_supply st.
Proof.
  intros Hl Hok Ht. destruct (store_law _ (fvm st) Hok Ht) as (s' & Hs & Hok' & Hc & Ha & Hst).
  unfold store_validator_changes. destruct l as [|c l].
  { exists st. rewrite app_nil_r. done. }
  rewrite (try_all_Done _ evm_change) by done. unfold on_fvm. stm_unfold. rewrite Hs.
  by eexists.
Qed.

Lemma execute_law l st :
  Forall (λ m, envelope_to_evm m = Done (evm_envelope m)) l →
  gateway_sound (fvm st) → takes_messages (applied (fvm st) ++ (evm_envelope <$> l)) →
  ∃ ret st', execute_topdown_msgs l st = Done (ret, st') ∧ gateway_sound (fvm st') ∧
    committed (fvm st') = committed (fvm st) ∧ stored (fvm st') = stored (fvm st) ∧
    applied (fvm st') = applied (fvm st) ++ (evm_envelope <$> l) ∧
    circ_supply st' = (circ_supply st + tokens_to_mint l)%Z.
Proof.
  intros Hl Hok Ht. unfold execute_topdown_msgs, apply_cross_messages, mint_to_gateway, update_circ_supply, update_params, circ_supply.
  rewrite (try_all_Done _ evm_envelope) by done. unfold on_fvm. stm_unfold.
  destruct (apply_law l (fvm st) Hok Ht) as (s1 & ret & s' & Hm & Ha & Hrest). case_bool_decide as Hz; simpl.
  - rewrite Hm in Ha. rewrite Ha. eexists _, _. split; [done|]. rewrite Hz. simpl. split_and!; [apply Hrest..|lia].
  - rewrite Hm. simpl. rewrite Ha. eexists _, _. split; [done|]. simpl. split_and!; [apply Hrest..|done].
Qed.

(** Committing a finality to the gateway and learning where to start. *)
Lemma commit_finality_law f f' n st :
  attached f n → block_hash_len (block_hash f') = 32 → gateway_sound (fvm st) →
  from_option height 0 (committed (fvm st)) < height f' →
  ∃ prev st', commit_parent_finality f' st = Done (prev, st') ∧ commit_finality f' st n =
      (Done ((executed_to (fvm st), committed (fvm st)), st'), n) ∧ gateway_sound (fvm st') ∧
    committed (fvm st') = Some f' ∧ applied (fvm st') = applied (fvm st) ∧
    stored (fvm st') = stored (fvm st) ∧ circ_supply st' = circ_supply st.
Proof.
  intros (p & ([cfg Hcfg] & _) & Hg & _) Hlen Hok Hlt.
  destruct (commit_law f' (fvm st) Hok Hlt) as (prev & s' & Hs & Hprev & Hok' & Hc & Ha & Ht).
  unfold commit_finality, commit_parent_finality, finality_try_from.
  rewrite bool_decide_eq_false_2 by (by intros ?).
  unfold on_fvm, io_of, mbind, io_bind. stm_unfold. rewrite Hs. simpl.
  unfold executed_to. destruct (committed (fvm st)) as [f0|]; simpl.
  - rewrite (Hprev f0) by done. by eexists _, _.
  - unfold toggle_genesis_epoch, mbind, io_bind, io_reads. rewrite Hcfg. simpl. rewrite Hg.
    by eexists _, _.
Qed.

Lemma between_Forall {A} (P : A → Prop) (v : N → list A) a b :
  (∀ h, Forall P (v h)) → Forall P (between v a b).
Proof.
  intros Hv. unfold between. apply Forall_concat. apply Forall_fmap, Forall_true. apply Hv.
Qed.

Lemma executed_commit s s' f' :
  executed s → gateway_sound s' → committed s' = Some f' → executed_to s ≤ height f' →
  stored s' = stored s ++ (evm_change <$> between changes (executed_to s) (height f')) →
  applied s' = applied s ++ (evm_envelope <$> between msgs (executed_to s) (height f')) →
  executed s'.
Proof.
  intros (_ & Hg & Hs & Ha) Hok Hc Hle Hs' Ha'.
  assert (executed_to s' = height f') as Heq by (unfold executed_to; by rewrite Hc).
  unfold executed. rewrite Heq, Hs', Ha', Hs, Ha, <-!fmap_app.
  rewrite <-!between_app by done. split_and!; [done|lia|done..].
Qed.

(** What the gateway is given next continues what it has been given. *)
Lemma executed_takes s h : executed s → executed_to s ≤ h →
  takes_changes (stored s ++ (evm_change <$> between changes (executed_to s) h)) ∧
  takes_messages (applied s ++ (evm_envelope <$> between msgs (executed_to s) h)).
Proof.
  intros (_ & Hg & -> & ->) Hle. rewrite <-!fmap_app, <-!between_app by done. done.
Qed.

(** A top-down execution up to its last transaction. *)
Lemma deliver_topdown_executes env st (p : ParentFinality) f f' :
  f' = finality_new (pf_height p) (pf_block_hash p) →
  attached f (node env) → executed (fvm st) → executed_to (fvm st) ≤ height f' →
  from_option height 0 (committed (fvm st)) < height f' → height f' < u64_size →
  block_hash_len (block_hash f') = 32 →
  ∃ ret prev st1 st2 st' n', deliver st (Ipc (TopDownExec p)) env =
      (on_node (atomically (commit_tx f' (committed (fvm st)))) ;;
       mret (RetIpc ret, st')) (set_node n' env) ∧
    commit_parent_finality f' st = Done (prev, st1) ∧
    store_validator_changes (between changes (executed_to (fvm st)) (height f')) st1 = Done (tt, st2) ∧
    execute_topdown_msgs (between msgs (executed_to (fvm st)) (height f')) st2 = Done (ret, st') ∧
    attached f n' ∧ executed (fvm st') ∧ committed (fvm st') = Some f' ∧
    circ_supply st' =
      (circ_supply st + tokens_to_mint (between msgs (executed_to (fvm st)) (height f')))%Z.
Proof.
  intros Hf' Hatt Hex Hto Hnew Hfit Hlen. pose proof Hex as [Hok _].
  destruct (executed_takes (fvm st) (height f') Hex Hto) as [Htc Htm].
  destruct (commit_finality_law f f' (node env) st Hatt Hlen Hok Hnew)
    as (prev & st1 & Hcp & Hcommit & Hok1 & Hc1 & Ha1 & Hs1 & Hz1).
  cbn [deliver]. unfold deliver_topdown. rewrite <-Hf'.
  unfold mbind at 1 2 3 4 5 6 7, io_bind, io_reads, on_node, io_of.
  destruct (Hatt) as (p0 & ([cfg Hcfg] & _) & _). rewrite Hcfg.
  unfold is_enabled. rewrite bool_decide_eq_true_2 by done. cbn [negb]. rewrite Hcommit.
  rewrite u64_sub_ok by lia. cbv iota beta zeta.
  assert (attached f (node (set_node (node env) env))) as Hatt1 by done.
  pose proof (λ a b, range_views changes msgs a b (attached f) (λ n, attached_sees f a b n)
    (attached_world f) (others_attached f)) as Hviews.
  destruct (proj1 (Hviews (executed_to (fvm st)) (height f' - 1) _ Hatt1)) as (n2 & -> & Hatt2).
  rewrite between_incl by lia.
  destruct (store_changes_law (between changes (executed_to (fvm st)) (height f')) st1)
    as (st2 & Hst & Hok2 & Hc2 & Ha2 & Hs2 & Hz2); [by apply between_Forall|done|congruence|].
  rewrite Hst. cbn [set_node node checkpoint_pool object_pool].
  destruct (proj2 (Hviews (executed_to (fvm st)) (height f' - 1) n2 Hatt2)) as (n3 & -> & Hatt3).
  rewrite between_incl by lia.
  destruct (execute_law (between msgs (executed_to (fvm st)) (height f')) st2)
    as (ret & st3 & Hrun & Hok3 & Hc3 & Hs3 & Ha3 & Hz3); [by apply between_Forall|done|congruence|].
  rewrite Hrun. exists ret, prev, st1, st2, st3, n3. split_and!; [done..| |congruence|congruence].
  apply (executed_commit (fvm st) (fvm st3) f'); [done|done|congruence|lia|congruence..].
Qed.

(** A delivery with the calls of the gateway that it makes. *)
Lemma topdown_delivered env st (p : ParentFinality) f f' :
  f' = finality_new (pf_height p) (pf_block_hash p) →
  attached f (node env) → executed (fvm st) → executed_to (fvm st) ≤ height f →
  committed (fvm st) = Some f ∨ committed (fvm st) = None ∧ debug_assertions = false →
  height f < height f' → height f' + 1 < u64_size → block_hash_len (block_hash f') = 32 →
  ∃ ret prev st1 st2 st' n', deliver st (Ipc (TopDownExec p)) env = (Done (RetIpc ret, st'), set_node n' env) ∧
    commit_parent_finality f' st = Done (prev, st1) ∧
    store_validator_changes (between changes (executed_to (fvm st)) (height f')) st1 = Done (tt, st2) ∧
    execute_topdown_msgs (between msgs (executed_to (fvm st)) (height f')) st2 = Done (ret, st') ∧
    attached f' n' ∧ executed (fvm st') ∧ committed (fvm st') = Some f' ∧
    circ_supply st' =
      (circ_supply st + tokens_to_mint (between msgs (executed_to (fvm st)) (height f')))%Z.
Proof.
  intros Hf' Hatt Hex Hto Hprev Hlt Hfit Hlen.
  destruct (deliver_topdown_executes env st p f f') as (ret & prev & st1 & st2 & st' & n & -> & Hc1 & Hc2 & Hc3 & Hn & Hrest);
    [done..|lia| |lia|done|].
  { destruct Hprev as [-> |[-> _]]; simpl; lia. }
  destruct (attached_commit (E:=string) f f' (committed (fvm st)) (others n)) as (n' & Hn' & Hatt');
    [by apply others_attached|naive_solver|lia|done|].
  exists ret, prev, st1, st2, st', n'. split; [|done].
  unfold mbind, io_bind, on_node, atomically, atomically_or_err.
  cbn [set_node node]. by rewrite Hn'.
Qed.

(** C1: when the ledger has executed exactly what the parent sent below
    the committed height, delivering a higher finality succeeds, executes the
    staking changes and messages of exactly the heights in between, in order, the
    one of the new finality excluded, mints what they carry, and leaves the ledger,
    the provider and the tally at the new finality.  So over any sequence of
    deliveries every height is executed once. *)
Theorem topdown_exactly_once env st (p : ParentFinality) f f' :
  f' = finality_new (pf_height p) (pf_block_hash p) →
  attached f (node env) → executed (fvm st) → executed_to (fvm st) ≤ height f →
  committed (fvm st) = Some f ∨ committed (fvm st) = None ∧ debug_assertions = false →
  height f < height f' → height f' + 1 < u64_size → block_hash_len (block_hash f') = 32 →
  ∃ ret st' n', deliver st (Ipc (TopDownExec p)) env = (Done (RetIpc ret, st'), set_node n' env) ∧
    attached f' n' ∧ executed (fvm st') ∧ committed (fvm st') = Some f' ∧
    circ_supply st' =
      (circ_supply st + tokens_to_mint (between msgs (executed_to (fvm st)) (height f')))%Z.
Proof.
  intros Hf' Hatt Hex Hto Hprev Hlt Hfit Hlen.
  destruct (topdown_delivered env st p f f') as (ret & _ & _ & _ & st' & n' & Hd & _ & _ & _ & Hrest); [done..|].
  by exists ret, st', n'.
Qed.

(** At start the syncer sets the provider's committed finality to
    the genesis epoch, of which the gateway does not know; so in a build with debug
    assertions the first finality that is delivered panics. *)
Lemma first_topdown_exec_panics env st (p : ParentFinality) f f' :
  f' = finality_new (pf_height p) (pf_block_hash p) →
  attached f (node env) → executed (fvm st) → committed (fvm st) = None →
  g ≤ height f → height f < height f' → height f' < u64_size →
  block_hash_len (block_hash f') = 32 → debug_assertions = true →
  (deliver st (Ipc (TopDownExec p)) env).1 = Panic.
Proof.
  intros Hf' Hatt Hex Hnone Hg Hlt Hfit Hlen Hdebug.
  assert (executed_to (fvm st) = g) as Hto by (unfold executed_to; by rewrite Hnone).
  destruct (deliver_topdown_executes env st p f f') as (ret & ? & ? & ? & st' & n & -> & _ & _ & _ & Hn & _);
    [done..|lia| |lia|done|].
  { rewrite Hnone. simpl. lia. }
  destruct (others_attached f n Hn) as (p0 & ([cfg Hcfg] & _ & Hf & _) & _).
  unfold mbind, io_bind, on_node, atomically, atomically_or_err, commit_tx.
  cbn [set_node node]. unfold mbind, stm_bind.
  unfold toggle_set_new_finality, cached_set_new_finality.
  rewrite (on_provider_inner _ _ (others n) p0 cfg Hcfg). unfold set_new_finality. stm_unfold.
  rewrite Hdebug, Hf, Hnone, bool_decide_eq_false_2 by done. done.
Qed.

(** A finality that is not above the gateway's is refused, and nothing has
    changed in the environment. *)
Lemma topdown_stale env st (p : ParentFinality) f' :
  f' = finality_new (pf_height p) (pf_block_hash p) → gateway_sound (fvm st) →
  height f' ≤ from_option height 0 (committed (fvm st)) →
  ∃ e, deliver st (Ipc (TopDownExec p)) env = (Fail e, env).
Proof.
  intros Hf' Hok Hle. cbn [deliver]. unfold deliver_topdown. rewrite <-Hf'.
  unfold mbind at 1 2, io_bind, io_reads, on_node, io_of.
  destruct (negb _); [by eexists|]. unfold commit_finality, commit_parent_finality.
  destruct (commit_stale f' (fvm st) Hok Hle) as [e He].
  unfold finality_try_from, mbind at 1, io_bind, io_of.
  assert (set_node (node env) env = env) as Henv by (by destruct env).
  case_bool_decide; unfold on_fvm; stm_unfold; [|rewrite He]; simpl; rewrite Henv; by eexists.
Qed.
End exec.

(** ** Proposals *)

(** What the object stores promise: [GetObject] finds the object and does not change
    what it will find.  [object_at] tells whether an object exists and is resolved. *)
Class ObjectStoreLaws `{Machine} := {
  object_at : FvmState → ObjectMsg → option bool;
  get_object_law o s : ∃ params r em s',
    serialize_get_params (obj_key o) = inr params ∧
    executor_implicit (implicit_message (obj_address o) GetObject params) s = Done ((r, em), s') ∧
    decode_object r = inr (object_at s o) ∧
    ∀ o', object_at s' o' = object_at s o'
}.

Class QuietPools `{Resolvers} := {
  quiet_checkpoints p : resolve_checkpoints p = p;
  quiet_objects p : resolve_objects p = p
}.

Section resolved.
Context {Flag : Type} `{Countable T, Countable K} (key_of : T → K).
Implicit Types (p : ResolvePool Flag T K) (x : T).

(** The key of an item is resolved. *)
Definition key_resolved p x : Prop :=
  ∃ i c, items p !! key_of x = Some i ∧ cells p !! i = Some c ∧ is_resolved c = true.

Lemma resolved_in_eq {E} p fl x :
  pool_inv key_of p fl →
  ∃ b, resolved_in key_of (E:=E) x p = Done (b, p) ∧ (b = true ↔ key_resolved p x).
Proof.
  intros Hinv. unfold resolved_in, get_status, status_is_resolved, cell_at, key_resolved. stm_unfold.
  destruct (items p !! key_of x) as [i|] eqn:Hi; [|exists false; naive_solver].
  destruct (pool_cells _ _ _ Hinv _ _ Hi) as (c & Hc & _). stm_unfold. rewrite Hc.
  exists (is_resolved c). split; [done|]. naive_solver.
Qed.

Lemma ready_key_resolved p x : ready key_of p x → key_resolved p x.
Proof. intros (i & c & ? & ? & ? & _). by exists i, c. Qed.

Lemma remove_inv {E} p fl x :
  pool_inv key_of p fl →
  ∃ r p', remove key_of (E:=E) x p = Done (r, p') ∧ pool_inv key_of p' fl.
Proof.
  intros [Hc Hi Ht Hp]. eexists _, (set_items (delete (key_of x) (items p)) p).
  split; [unfold remove; by stm_unfold|].
  split; simpl; try setoid_rewrite lookup_delete_Some; naive_solver.
Qed.
End resolved.

Section proposals.
Context `{Profile, Scheduler, !ChainIds, !Machine, !Inner, !Resolvers, !ObjectStoreLaws}.
Context `{!Quiet, !QuietPools}.
Implicit Types (p : FinalityWithNull) (f : IPCParentFinality).
Implicit Types (st : FvmExecState) (env : ChainEnv) (o : ObjectMsg).

Definition object_final (s : FvmState) o : bool := default true (object_at s o).

(** The votes on an object that make it globally resolved. *)
Definition object_quorum (t : VoteTally ValidatorKey BlockHash Object) (x : Object) : Prop :=
  let voters := default ∅ (object_votes t !! x) in
  threshold t ≤ set_weight (power_table t) voters ∨ power_table t = ∅ ∧ voters ≠ ∅.
#[local] Instance object_quorum_dec t x : Decision (object_quorum t x).
Proof. unfold object_quorum. apply _. Defined.

Record env_ok env p f : Prop := {
  env_provides : provides (node env) p f;
  env_lockstep h : chain (vote_tally (node env)) !! h = chain_view p f h;
  env_weight : total_weight (power_table (vote_tally (node env))) * 2 < u64_size;
  env_checkpoints : ∃ fl, pool_inv checkpoint_key (checkpoint_pool env) fl;
  env_objects : ∃ fl, pool_inv object_key (object_pool env) fl
}.

(** Another environment with the same view of the world: only the pool of objects and
    the pauses of the voting may be different. *)
Definition same_view env env' : Prop :=
  ∃ b b' op, (∃ fl, pool_inv object_key op fl) ∧
    env' = MkEnv (checkpoint_pool env) op
      (set_tally (set_pause b (set_object_pause b' (vote_tally (node env)))) (node env)).

Lemma same_view_ok env env' p f : env_ok env p f → same_view env env' → env_ok env' p f.
Proof. intros [] (b & b' & op & ? & ->). by split. Qed.

Lemma same_view_refl env p f : env_ok env p f → same_view env env.
Proof.
  intros []. eexists (pause_votes (vote_tally (node env))),
    (pause_object_votes (vote_tally (node env))), (object_pool env). split; [done|].
  by destruct env as [? ? [? ? []]].
Qed.

Lemma same_view_trans env1 env2 env3 :
  same_view env1 env2 → same_view env2 env3 → same_view env1 env3.
Proof. intros (?&?&?&?&->) (b&b'&op&?&->). by exists b, b', op. Qed.

(** The messages of a block that a validator accepts. *)
Definition acceptable st env p f (msg : ChainMessage) : Prop :=
  match msg with
  | Ipc (BottomUpExec c) => key_resolved checkpoint_key (checkpoint_pool env) c
  | Ipc (TopDownExec q) =>
      let prop := finality_new (pf_height q) (pf_block_hash q) in
      height f < height prop ∧
      ∃ v, blocks p !! height prop = Some (Some v) ∧ payload_hash v = block_hash prop
  | Ipc (ObjectResolved o) =>
      object_final (fvm st) o = false ∧
      object_quorum (vote_tally (node env)) (cid_to_bytes (obj_value o))
  | Ipc (BottomUpResolve _) | Signed _ => True
  end.

Lemma acceptable_same_view st env env' p f msg :
  same_view env env' → acceptable st env' p f msg ↔ acceptable st env p f msg.
Proof. intros (b & b' & op & _ & ->). by destruct msg as [|[]]. Qed.

Lemma all_acceptable_same_view st env env' p f msgs :
  same_view env env' →
  Forall (acceptable st env' p f) msgs ↔ Forall (acceptable st env p f) msgs.
Proof.
  intros Hv. rewrite !Forall_forall. by setoid_rewrite (acceptable_same_view _ _ _ _ _ _ Hv).
Qed.

Lemma is_object_finalized_eq o st :
  ∃ st', is_object_finalized o st = Done (object_final (fvm st) o, st') ∧
    ∀ o', object_final (fvm st') o' = object_final (fvm st) o'.
Proof.
  destruct (get_object_law o (fvm st)) as (params & r & em & s' & Hp & Hr & Hd & Hs').
  unfold is_object_finalized. rewrite Hp. unfold on_fvm. stm_unfold. simpl. rewrite Hr. simpl.
  rewrite Hd. eexists. split; [done|]. intros o'. unfold object_final. simpl. by rewrite Hs'.
Qed.

Lemma on_node_quiet {E A} (tx : stm Node E A) env a n :
  tx (node env) = Done (a, n) → on_node (atomically tx) env = (Done a, set_node n env).
Proof.
  intros Htx. unfold on_node, atomically, atomically_or_err. by rewrite quiet, Htx.
Qed.

Lemma on_checkpoints_quiet {E A} (tx : stm CheckpointPool E A) env a q :
  tx (checkpoint_pool env) = Done (a, q) →
  on_checkpoints tx env = (Done a, set_checkpoint_pool q env).
Proof.
  intros Htx. unfold on_checkpoints, atomically_or_err. by rewrite quiet_checkpoints, Htx.
Qed.

Lemma on_objects_quiet {E A} (tx : stm ObjectPool E A) env a q :
  tx (object_pool env) = Done (a, q) → on_objects tx env = (Done a, set_object_pool q env).
Proof.
  intros Htx. unfold on_objects, atomically_or_err. by rewrite quiet_objects, Htx.
Qed.

Lemma object_votes_law env p f x :
  env_ok env p f →
  ∃ env', on_node (E:=string) (atomically (on_tally (find_object_quorum x))) env =
      (Done (bool_decide (object_quorum (vote_tally (node env)) x)), env') ∧
    same_view env env' ∧ object_pool env' = object_pool env.
Proof.
  intros Hok. eexists. split; [|split].
  - apply on_node_quiet. unfold on_tally, zoom.
    rewrite find_object_quorum_eq by apply Hok. simpl. f_equal.
  - destruct Hok. exists (pause_votes (vote_tally (node env))), false, (object_pool env). done.
  - done.
Qed.

Lemma remove_object_law env p f o :
  env_ok env p f →
  ∃ r env', on_objects (E:=string) (remove object_key o) env = (Done r, env') ∧ same_view env env'.
Proof.
  intros Hok. destruct (env_objects _ _ _ Hok) as [fl Hinv].
  destruct (remove_inv object_key (E:=string) (object_pool env) fl o Hinv) as (r & q & Hr & Hq).
  eexists _, _. split; [by apply on_objects_quiet|].
  exists (pause_votes (vote_tally (node env))), (pause_object_votes (vote_tally (node env))), q.
  split; [eauto|]. by destruct env as [? ? [? ? []]].
Qed.

Lemma check_topdown_law env p f q :
  env_ok env p f →
  ∃ b, on_node (E:=string) (atomically (on_provider (toggle_check_proposal q))) env =
      (Done b, env) ∧
    (b = true ↔ height f < height q ∧
      ∃ v, blocks p !! height q = Some (Some v) ∧ payload_hash v = block_hash q).
Proof.
  intros Hok. destruct (env_provides _ _ _ Hok) as ([cfg Hcfg] & Hinv & Hf & _).
  destruct (check_proposal_eq (E:=string) p q) as (b & Hb & Hspec); [apply Hinv|].
  exists b. split.
  - rewrite (on_node_quiet _ env b (node env)); [by destruct env|].
    by apply (on_provider_pure _ _ _ p cfg).
  - rewrite Hspec, Hf. naive_solver.
Qed.

Lemma process_one_law st env p f msg :
  env_ok env p f →
  ∃ b env', process_one st msg env = (Done b, env') ∧ same_view env env' ∧
    (b = true ↔ acceptable st env p f msg).
Proof.
  intros Hok. pose proof (same_view_refl _ _ _ Hok) as Hrefl.
  destruct msg as [m|[m|c|q|o]]; cbn [process_one acceptable]; try by exists true, env.
  - destruct (env_checkpoints _ _ _ Hok) as [fl Hinv].
    destruct (resolved_in_eq checkpoint_key (E:=string) _ _ c Hinv) as (b & Hb & Hspec).
    exists b, env. split_and!; [|done|done]. rewrite (on_checkpoints_quiet _ _ _ _ Hb).
    by destruct env.
  - destruct (check_topdown_law env p f (finality_new (pf_height q) (pf_block_hash q)) Hok)
      as (b & Hb & Hspec). by exists b, env.
  - unfold mbind, io_bind, io_of. destruct (is_object_finalized_eq o st) as (st' & -> & _). cbn [fst].
    destruct (object_final (fvm st) o); [exists false, env; naive_solver|].
    destruct (object_votes_law env p f (cid_to_bytes (obj_value o)) Hok) as (env1 & -> & Hv1 & _).
    case_bool_decide; cbn [negb]; [|exists false, env1; naive_solver].
    pose proof (same_view_ok _ _ _ _ Hok Hv1) as Hok1.
    destruct (env_objects _ _ _ Hok1) as [fl Hinv].
    destruct (resolved_in_eq object_key (E:=string) _ _ o Hinv) as (b & Hb & _).
    rewrite (on_objects_quiet _ _ _ _ Hb).
    assert (set_object_pool (object_pool env1) env1 = env1) as -> by (by destruct env1).
    destruct b; [|exists true, env1; naive_solver].
    destruct (remove_object_law env1 p f o Hok1) as (r & env2 & -> & Hv2).
    exists true, env2. split_and!; [done|by eapply same_view_trans|naive_solver].
Qed.

Lemma process_law st env p f msgs :
  env_ok env p f →
  ∃ b env', process st msgs env = (Done b, env') ∧ same_view env env' ∧
    (b = true ↔ Forall (acceptable st env p f) msgs).
Proof.
  revert env. induction msgs as [|msg msgs IH]; intros env Hok; simpl.
  { exists true, env. split_and!; [done|by eapply same_view_refl|done]. }
  destruct (process_one_law st env p f msg Hok) as (b & env1 & Hb & Hv1 & Hspec).
  unfold mbind, io_bind. rewrite Hb. destruct b; cycle 1.
  { exists false, env1. rewrite Forall_cons. naive_solver. }
  destruct (IH env1) as (b & env2 & -> & Hv2 & Hspec2); [by eapply same_view_ok|].
  exists b, env2. split_and!; [done|by eapply same_view_trans|].
  rewrite Hspec2, Forall_cons, (all_acceptable_same_view _ _ _ _ _ _ Hv1). naive_solver.
Qed.

(** A validator accepts a proposed block exactly when every message of it is
    acceptable: checkpoints are resolved locally, the parent finality is above the
    committed one and a block the validator has seen itself, objects have a quorum
    of votes and are not final on chain yet.  Processing never fails, and changes
    nothing but the pool of objects and the pauses of the voting. *)
Lemma process_spec st env p f msgs :
  env_ok env p f →
  ∃ b env', process st msgs env = (Done b, env') ∧ same_view env env' ∧
    (b = true ↔ Forall (acceptable st env p f) msgs).
Proof. apply process_law. Qed.

(** *** What a proposer adds *)

Abbreviation range p := (Config.max_proposal_range (config p)).
Abbreviation delay p := (Config.proposal_delay (config p)).

Lemma finality_roundtrip f :
  height f < u64_size → finality_new (as_epoch (height f)) (block_hash f) = f.
Proof.
  intros Hlt. destruct f as [h bh]. unfold finality_new, as_epoch. cbn [height block_hash] in *.
  f_equal. case_bool_decide; [rewrite Z.mod_small by lia; lia|].
  rewrite <-(Z.mod_unique (Z.of_N h - Z.of_N u64_size) (Z.of_N u64_size) (-1) (Z.of_N h)) by lia.
  lia.
Qed.

Lemma lockstep_finalized env p f h bh :
  env_ok env p f → has_quorum (vote_tally (node env)) h bh →
  height f < h ∧ ∃ v, blocks p !! h = Some (Some v) ∧ payload_hash v = bh.
Proof.
  intros Hok (Hc & Hfin & _). rewrite (env_lockstep _ _ _ Hok) in Hc.
  assert (height f ≤ finalized (vote_tally (node env))) as Hle.
  { unfold finalized. destruct (get_min _) as [[k x]|] eqn:Hmin; cycle 1.
    - apply get_min_None in Hmin. pose proof (env_lockstep _ _ _ Hok (height f)) as Hx.
      unfold chain_view in Hx. rewrite Hmin, bool_decide_eq_true_2 in Hx by done. done.
    - apply get_min_Some in Hmin as [Hk _]. rewrite (env_lockstep _ _ _ Hok) in Hk.
      unfold chain_view in Hk. simpl. repeat case_bool_decide; try done; lia. }
  split; [lia|]. unfold chain_view in Hc. rewrite !bool_decide_eq_false_2 in Hc by lia.
  destruct (blocks p !! h) as [[v|]|]; naive_solver.
Qed.

(** The finality to propose: the due block, or the block of the highest quorum when
    that is lower; none without both of them. *)
Definition proposal env p f (prop : option IPCParentFinality) : Prop :=
  let t := vote_tally (node env) in
  match prop with
  | Some prop =>
      ∃ top h q qh, due p f top h ∧ has_quorum t q qh ∧
        (∀ q' qh', has_quorum t q' qh' → q' ≤ q) ∧
        height prop = N.min h q ∧ height f < height prop ≤ height f + range p ∧
        ∃ v, blocks p !! height prop = Some (Some v) ∧ payload_hash v = block_hash prop
  | None => (∀ top h, due p f top h → h = height f) ∨ ∀ q qh, ¬ has_quorum t q qh
  end.

Lemma find_finalities_law env p f :
  env_ok env p f → height f + range p < u64_size → (∀ h, non_null p h → delay p ≤ h) →
  ∃ parent quorum, on_node (atomically find_finalities) env =
      (Done (parent, quorum),
       set_node (set_tally (set_pause false (vote_tally (node env))) (node env)) env) ∧
    proposal env p f (choose_finality parent quorum).
Proof.
  intros Hok Hfit Hdelay. destruct (env_provides _ _ _ Hok) as ([cfg Hcfg] & Hinv & Hf & _).
  destruct (next_proposal_due (E:=string) p f Hinv Hf Hfit Hdelay) as (parent & Hparent & Hdue).
  destruct (find_quorum_eq (E:=string) (vote_tally (node env)) (env_weight _ _ _ Hok))
    as (quorum & Hquorum & Hq).
  exists parent, ((λ '(h, bh), MkFinality h bh) <$> quorum). split.
  { apply on_node_quiet. unfold find_finalities, mbind, stm_bind.
    unfold toggle_next_proposal, cached_next_proposal.
    rewrite (on_provider_pure _ _ _ p cfg _ Hcfg Hparent).
    unfold on_tally, zoom. rewrite Hquorum. done. }
  destruct parent as [prop|]; [|by left].
  destruct quorum as [[q qh]|]; simpl; [|by right].
  destruct Hdue as (Hrange & [top Htop] & Hv), Hq as [Hq Hmax].
  exists top, (height prop), q, qh. split_and!; try done; case_bool_decide; simpl; try lia; try done.
  - apply (lockstep_finalized env p f q qh) in Hq; [lia|done].
  - apply (lockstep_finalized env p f q qh) in Hq; [tauto|done].
Qed.

Lemma propose_objects_law l st0 st env p f acc :
  env_ok env p f → (∀ o, object_final (fvm st) o = object_final (fvm st0) o) →
  ∃ r env', propose_objects l st acc env = (Done (acc ++ r), env') ∧ same_view env env' ∧
    ∀ m, m ∈ r ↔ ∃ o, m = Ipc (ObjectResolved o) ∧ o ∈ l ∧
      acceptable st0 env p f (Ipc (ObjectResolved o)).
Proof.
  revert st env acc. induction l as [|o l IH]; intros st env acc Hok Hst.
  { exists [], env. rewrite app_nil_r. split_and!; [done|by eapply same_view_refl|].
    intros m. rewrite elem_of_nil. split; [done|]. intros (o & _ & Ho & _). by apply elem_of_nil in Ho. }
  cbn [propose_objects]. unfold mbind, io_bind, io_of.
  destruct (is_object_finalized_eq o st) as (st1 & -> & Hst1). cbv iota beta.
  assert (∀ o, object_final (fvm st1) o = object_final (fvm st0) o) as Hst1'.
  { intros o'. by rewrite Hst1. }
  destruct (object_final (fvm st) o) eqn:Hfin; rewrite Hst in Hfin.
  - destruct (remove_object_law env p f o Hok) as (r & env1 & -> & Hv1).
    destruct (IH st1 env1 acc (same_view_ok _ _ _ _ Hok Hv1) Hst1') as (r' & env2 & -> & Hv2 & Hr').
    exists r', env2. split_and!; [done|by eapply same_view_trans|].
    intros m. rewrite Hr'. setoid_rewrite elem_of_cons.
    setoid_rewrite (acceptable_same_view st0 env env1 p f _ Hv1). simpl. naive_solver congruence.
  - destruct (object_votes_law env p f (cid_to_bytes (obj_value o)) Hok) as (env1 & -> & Hv1 & _).
    case_bool_decide as Hq.
    + destruct (IH st1 env1 (acc ++ [Ipc (ObjectResolved o)]) (same_view_ok _ _ _ _ Hok Hv1) Hst1')
        as (r' & env2 & -> & Hv2 & Hr').
      exists (Ipc (ObjectResolved o) :: r'), env2. rewrite <-app_assoc.
      split_and!; [done|by eapply same_view_trans|].
      intros m. rewrite elem_of_cons, Hr'. setoid_rewrite elem_of_cons.
      setoid_rewrite (acceptable_same_view st0 env env1 p f _ Hv1). simpl. naive_solver.
    + destruct (IH st1 env1 acc (same_view_ok _ _ _ _ Hok Hv1) Hst1') as (r' & env2 & -> & Hv2 & Hr').
      exists r', env2. split_and!; [done|by eapply same_view_trans|].
      intros m. rewrite Hr'. setoid_rewrite elem_of_cons.
      setoid_rewrite (acceptable_same_view st0 env env1 p f _ Hv1). simpl. naive_solver.
Qed.

Definition topdown_message (prop : IPCParentFinality) : ChainMessage :=
  Ipc (TopDownExec (MkParentFinality (as_epoch (height prop)) (block_hash prop))).

(** What [check] admits to the mempool. *)
Definition user_message (msg : ChainMessage) : Prop :=
  match msg with
  | Signed _ | Ipc (BottomUpResolve _) => True
  | _ => False
  end.

Lemma topdown_acceptable st env p f prop :
  height f + range p < u64_size → proposal env p f (Some prop) →
  acceptable st env p f (topdown_message prop).
Proof.
  intros Hfit (top & h & q & qh & _ & _ & _ & _ & Hrange & Hv).
  cbn [acceptable topdown_message pf_height pf_block_hash].
  rewrite finality_roundtrip by lia. split; [lia|done].
Qed.

Lemma prepare_objects_law st env p f :
  env_ok env p f →
  ∃ objects env', prepare_objects st env = (Done objects, env') ∧ same_view env env' ∧
    ∀ m, m ∈ objects ↔ ∃ o, m = Ipc (ObjectResolved o) ∧ ready object_key (object_pool env) o ∧
      acceptable st env p f (Ipc (ObjectResolved o)).
Proof.
  intros Hok. destruct (env_objects _ _ _ Hok) as [fl Hinv].
  destruct (collect_resolved_eq object_key (E:=string) _ _ Hinv) as (os & Hos & Hready).
  unfold prepare_objects, mbind, io_bind. rewrite (on_objects_quiet _ _ _ _ Hos).
  assert (set_object_pool (object_pool env) env = env) as -> by (by destruct env).
  setoid_rewrite <-Hready. setoid_rewrite <-elem_of_elements.
  destruct (propose_objects_law (elements os) st st env p f [] Hok ltac:(done))
    as (objects & env1 & Hobjs & Hv1 & Hin).
  destruct (elements os) as [|o l].
  { exists [], env. split_and!; [done|by eapply same_view_refl|]. intros m.
    split; [by intros ?%elem_of_nil|]. intros (o & _ & Ho & _). by apply elem_of_nil in Ho. }
  rewrite Hobjs. cbn [app]. exists objects, env1.
  unfold on_objects, count. stm_unfold. cbn -[on_objects elements]. rewrite quiet_objects.
  split_and!; [|done|done]. by destruct env1.
Qed.

Lemma prepare_law st msgs env p f :
  env_ok env p f → height f + range p < u64_size → (∀ h, non_null p h → delay p ≤ h) →
  ∃ prop ckpts objects env',
    prepare st msgs env =
      (Done (msgs ++ from_option (λ f, [topdown_message f]) [] prop ++ ckpts ++ objects), env') ∧
    same_view env env' ∧ proposal env p f prop ∧
    (∀ m, m ∈ ckpts ↔ ∃ c, m = Ipc (BottomUpExec c) ∧ ready checkpoint_key (checkpoint_pool env) c) ∧
    (∀ m, m ∈ objects ↔ ∃ o, m = Ipc (ObjectResolved o) ∧ ready object_key (object_pool env) o ∧
      acceptable st env p f (Ipc (ObjectResolved o))).
Proof.
  intros Hok Hfit Hdelay. destruct (env_checkpoints _ _ _ Hok) as [fl Hinv].
  destruct (collect_resolved_eq checkpoint_key (E:=string) _ _ Hinv) as (cs & Hcs & Hready).
  set (env1 := set_node (set_tally (set_pause true (vote_tally (node env))) (node env)) env).
  assert (same_view env env1) as Hv1.
  { destruct Hok. exists true, (pause_object_votes (vote_tally (node env))), (object_pool env). done. }
  pose proof (same_view_ok _ _ _ _ Hok Hv1) as Hok1.
  destruct (find_finalities_law env1 p f Hok1 Hfit Hdelay) as (parent & quorum & Hfin & Hprop).
  set (env2 := set_node _ env1) in Hfin.
  assert (same_view env env2) as Hv2.
  { destruct Hok. exists false, (pause_object_votes (vote_tally (node env))), (object_pool env). done. }
  destruct (prepare_objects_law st env2 p f (same_view_ok _ _ _ _ Hok Hv2))
    as (objects & env3 & Hobjs & Hv3 & Hin).
  exists (choose_finality parent quorum), ((λ c, Ipc (BottomUpExec c)) <$> elements cs), objects, env3.
  split_and!; [|exact (same_view_trans _ _ _ Hv2 Hv3)|exact Hprop| |].
  - unfold prepare, mbind, io_bind. rewrite (on_checkpoints_quiet _ _ _ _ Hcs).
    assert (set_checkpoint_pool (checkpoint_pool env) env = env) as -> by (by destruct env).
    rewrite (on_node_quiet _ env tt (set_tally (set_pause true (vote_tally (node env))) (node env)))
      by done.
    fold env1. rewrite Hfin, Hobjs. by destruct (choose_finality parent quorum).
  - intros m. rewrite list_elem_of_fmap. setoid_rewrite elem_of_elements.
    by setoid_rewrite Hready.
  - intros m. rewrite Hin. by setoid_rewrite (acceptable_same_view st env env2 p f _ Hv2).
Qed.

(** A proposer adds to the transactions of the users at most one parent
    finality, the due block or the block of the highest quorum, whichever is
    lower, then exactly the bottom-up checkpoints that are resolved locally, then
    exactly the objects that are resolved locally, have a quorum and are not final
    on chain yet.  Preparing never fails. *)
Lemma prepare_spec st msgs env p f :
  env_ok env p f → height f + range p < u64_size → (∀ h, non_null p h → delay p ≤ h) →
  ∃ prop ckpts objects env',
    prepare st msgs env =
      (Done (msgs ++ from_option (λ f, [topdown_message f]) [] prop ++ ckpts ++ objects), env') ∧
    same_view env env' ∧ proposal env p f prop ∧
    (∀ m, m ∈ ckpts ↔ ∃ c, m = Ipc (BottomUpExec c) ∧ ready checkpoint_key (checkpoint_pool env) c) ∧
    (∀ m, m ∈ objects ↔ ∃ o, m = Ipc (ObjectResolved o) ∧ ready object_key (object_pool env) o ∧
      acceptable st env p f (Ipc (ObjectResolved o))).
Proof. apply prepare_law. Qed.

Lemma prepare_acceptable st msgs env p f :
  env_ok env p f → height f + range p < u64_size → (∀ h, non_null p h → delay p ≤ h) →
  Forall user_message msgs →
  ∃ block env', prepare st msgs env = (Done block, env') ∧ Forall (acceptable st env p f) block.
Proof.
  intros Hok Hfit Hdelay Husers.
  destruct (prepare_law st msgs env p f Hok Hfit Hdelay)
    as (prop & ckpts & objects & env' & Hprep & _ & Hprop & Hckpts & Hobjects).
  eexists _, env'. split; [done|]. rewrite !Forall_app, !Forall_forall. split_and!.
  - rewrite <-Forall_forall. apply (Forall_impl _ _ _ Husers). by intros [|[]].
  - destruct prop as [prop|]; simpl; [|by intros m ?%elem_of_nil].
    intros m ->%list_elem_of_singleton. by apply (topdown_acceptable st env p f).
  - intros m (c & -> & Hc)%Hckpts. by apply ready_key_resolved.
  - by intros m (o & -> & _ & Ho)%Hobjects.
Qed.

Lemma acceptable_accepted st env p f block :
  env_ok env p f → Forall (acceptable st env p f) block →
  ∀ env2, same_view env env2 → ∃ env2', process st block env2 = (Done true, env2').
Proof.
  intros Hok Hall env2 Hv2.
  destruct (process_law st env2 p f block (same_view_ok _ _ _ _ Hok Hv2)) as (b & env2' & Hb & _ & Hspec).
  exists env2'. rewrite Hb. rewrite (proj2 Hspec); [done|].
  by rewrite (all_acceptable_same_view _ _ _ _ _ _ Hv2).
Qed.

(** What a proposer prepares from user transactions, every validator with
    the same view accepts, the proposer itself first of all. *)
Lemma prepare_accepted st msgs env p f :
  env_ok env p f → height f + range p < u64_size → (∀ h, non_null p h → delay p ≤ h) →
  Forall user_message msgs →
  ∃ block env', prepare st msgs env = (Done block, env') ∧
    ∀ env2, same_view env env2 → ∃ env2', process st block env2 = (Done true, env2').
Proof.
  intros Hok Hfit Hdelay Husers.
  destruct (prepare_acceptable st msgs env p f Hok Hfit Hdelay Husers) as (block & env' & Hprep & Hall).
  exists block, env'. split; [done|]. by apply (acceptable_accepted st env p f).
Qed.
End proposals.

(** ** A concrete machine

    Numbers everywhere; the state is the gateway's books and the flags of the objects. *)

Module SampleMachine.
#[local] Existing Instance dev_profile.
#[local] Existing Instance sample_data.
#[local] Existing Instance SampleParent.proxy.
#[local] Existing Instance SampleParent.idle.

Definition ids : ChainIds := {|
  Cid := N; Bytes := N; ActorAddress := N; Subnet := N; MultiSig := N; Signature := N
|}.
#[local] Existing Instance ids.

Record books := MkBooks {
  b_committed : option IPCParentFinality;
  b_applied : list N;
  b_stored : list N;
  b_objects : gmap N bool;
  b_epoch : Z;
  b_time : N
}.

Definition gateway_commit (f : IPCParentFinality) : stm books string (bool * IPCParentFinality) := λ s,
  if bool_decide (height f ≤ from_option height 0 (b_committed s))
  then Fail "ParentFinalityAlreadyCommitted"%string
  else Done ((bool_decide (is_Some (b_committed s)), default (Sample.fin 0 0) (b_committed s)),
    MkBooks (Some f) (b_applied s) (b_stored s) (b_objects s) (b_epoch s) (b_time s)).

(** [GetObject] returns 0, 1 or 2 for a missing, pending and resolved object. *)
Definition object_code (o : option bool) : N :=
  match o with None => 0 | Some false => 1 | Some true => 2 end.
Definition executor (m : FvmMessage) : stm books string ApplyRet := λ s,
  if bool_decide (method_num m = 1)
  then Done (MkRet 0 (object_code (b_objects s !! params m)) 0 None [], s)
  else Done (MkRet 0 0 0 None [], MkBooks (b_committed s) (b_applied s) (b_stored s)
    (<[params m := true]> (b_objects s)) (b_epoch s) (b_time s)).

Definition machine : Machine := {|
  FvmState := books;
  decode_object r := inr (if bool_decide (return_data r = 0) then None
                          else Some (bool_decide (return_data r = 2)));
  ExitCode_OK := 0;
  SYS_SENDER_INVALID := 1;
  SYS_SENDER_STATE_INVALID := 2;
  SYS_ASSERTION_FAILED := 10;
  cid_to_bytes c := c;
  SYSTEM_ACTOR_ADDR := 0;
  GATEWAY_ACTOR_ADDR := 64;
  METHOD_INVOKE_CONTRACT := 3844450837;
  GetObject := 1;
  ResolveObject := 2;
  BLOCK_GAS_LIMIT := 10000000000;
  raw_bytes_default := 0;
  serialize_get_params k := inr k;
  serialize_resolve_params k _ := inr k;
  cid_of_relayed m := inr (relay_sequence m);
  block_hash_len _ := 32;
  envelope_value m := Z.of_N m;
  EvmChange := N;
  change_to_evm c := Done c;
  EvmEnvelope := N;
  envelope_to_evm m := Done m;
  message_check _ := None;
  message_length _ := inr 0;
  context_epoch := b_epoch;
  context_timestamp := b_time;
  context_chain_id _ := 0;
  tree_lookup_id _ _ := inr None;
  tree_get_actor _ _ := inr None;
  tree_set_actor _ _ s := s;
  executor_execute m _ _ := executor m;
  executor_flush s := Done (0, s);
  gateway_commit_parent_finality := gateway_commit;
  gateway_store_validator_changes l s :=
    Done (tt, MkBooks (b_committed s) (b_applied s) (b_stored s ++ l) (b_objects s) (b_epoch s) (b_time s));
  gateway_apply_cross_messages l s :=
    Done (MkApplyRet (MkRet 0 0 0 None []) 0 64 0 0 ∅,
      MkBooks (b_committed s) (b_applied s ++ l) (b_stored s) (b_objects s) (b_epoch s) (b_time s));
  credit_gateway_actor _ s := Done (tt, s)
|}.
#[local] Existing Instance machine.

Definition inner_interpreter : Inner := {|
  SignedMessage := N;
  signed_object _ := None;
  inner_begin st := Done (MkApplyRet (MkRet 0 0 0 None []) 0 0 0 0 ∅, st);
  PowerUpdate := ValidatorKey * N;
  update_key := fst;
  update_power := snd;
  inner_deliver_signed _ st := Done (inl "unsigned"%string, st);
  inner_deliver_synthetic _ st := Done (inl "unsigned"%string, st);
  inner_end st := Done ([], st);
  CheckState := unit;
  CheckRes := unit;
  inner_check_signed _ _ s := Done (tt, s);
  inner_check_synthetic _ _ s := Done (tt, s)
|}.
#[local] Existing Instance inner_interpreter.

Definition resolvers : Resolvers := {| resolve_checkpoints p := p; resolve_objects p := p |}.
#[local] Existing Instance resolvers.

Definition quiet_pools : QuietPools :=
  {| quiet_checkpoints p := eq_refl; quiet_objects p := eq_refl |}.

#[refine, local] Instance gateway_laws : GatewayLaws := {|
  committed := b_committed;
  applied := b_applied;
  stored := b_stored;
  evm_envelope m := m;
  evm_change c := c;
  gateway_sound _ := True;
  takes_changes _ := True;
  takes_messages _ := True
|}.
Proof.
  all: intros *; cbn.
  - intros _ Hlt. unfold gateway_commit. rewrite bool_decide_eq_false_2 by lia.
    eexists _, _. split; [done|]. split; [|done]. by intros g ->.
  - intros _ Hle. unfold gateway_commit. rewrite bool_decide_eq_true_2 by done. eauto.
  - by eexists.
  - rewrite list_fmap_id. exists s. eexists _, _. split; [by case_bool_decide|done].
Defined.

#[refine, local] Instance object_laws : ObjectStoreLaws := {|
  object_at s o := b_objects s !! obj_key o
|}.
Proof.
  intros o s. eexists _, _, _, _. split; [done|]. split; [done|]. split; [|done]. cbn.
  f_equal. match goal with |- context [object_code ?x] => destruct x as [[]|] end; reflexivity.
Defined.
Import SampleParent SampleSync.

Definition parent_msgs : N → list IpcEnvelope := msgs_of.
Definition no_changes : N → list StakingChangeRequest := λ _, [].

Definition pf (h : Z) (hash : N) : ParentFinality := @MkParentFinality sample_data h hash.

Definition no_params : FvmUpdatableParams := MkUpdatable 0 0 0 3.

(** The ledger has committed the height 10 and executed what came before it. *)
Definition st0 : FvmExecState :=
  MkExecState (MkBooks (Some f10) (between parent_msgs 0 10) [] {[5 := false]} 0 0) None None no_params false.
(** A ledger that has not heard of the parent. *)
Definition st_fresh : FvmExecState := MkExecState (MkBooks None [] [] ∅ 0 0) None None no_params false.
Definition env0 : ChainEnv := MkEnv pool_new pool_new node2.

Lemma answers_sample h :
  answers (get_validator_changes h) (no_changes h) ∧ answers (get_top_down_msgs h) (parent_msgs h).
Proof.
  assert (is_null_round_str null_round = true) as Hnull by (by vm_compute).
  split; intros w; simpl; unfold answer, unless_null, parent_msgs, no_changes, msgs_of;
    (destruct (is_null h); [right; eauto|left; eauto]).
Qed.

Lemma env0_attached : attached no_changes parent_msgs 0 f10 (node env0).
Proof.
  exists inner2. split_and!; [apply node2_provides|done|apply node2_chain|].
  intros h v. change (blocks inner2) with
    (<[11 := block 11]> (<[12 := None]> ∅) : gmap N (option ParentViewPayload)).
  rewrite !lookup_insert_Some, lookup_empty. intros [[<- <-]|[_ [[<- <-]|[_ ?]]]]; done.
Qed.

(** An environment with something to propose: everyone votes for the block 11, and a
    checkpoint and an object are resolved. *)
Definition cfg3 : Config := Config.with_proposal_delay 0 (Config.new 5 1000 100 3).
Definition inner3 : FinalityWithNull :=
  MkProvider cfg3 0 (MkCache 1 [(11, block 11); (12, None)]) (Some f10).
Definition node3 : Node :=
  MkNode (0%nat : World) (Some (MkCached inner3 cfg3))
    (MkTally {[1 := 10; 2 := 10; 3 := 10]} {[10 := Some 100; 11 := Some 110; 12 := None]}
      {[11 := {[110 := {[1; 2; 3]}]}]} false {[77 := {[1; 2; 3]}]} false).
Definition ckpt : CertifiedMessage := MkCertified (MkCheckpoint 3 40 1 33) 9.
Definition obj : ObjectMsg := MkObject 5 77 20.
Definition pool_end {P A} (d : P) (m : outcome Empty_set (A * P)) : P :=
  match m with Done (_, p) => p | _ => d end.
Definition ckpts1 : CheckpointPool :=
  pool_end pool_new (resolver_add checkpoint_key ckpt false pool_new).
Definition ckpts2 : CheckpointPool := pool_end pool_new (take_task ckpts1).
Definition ckpts3 : CheckpointPool :=
  pool_end pool_new (finish_task (MkTask (checkpoint_key ckpt) 0) Resolved ckpts2).
Definition objects1 : ObjectPool := pool_end pool_new (ipfs_add object_key obj pool_new).
Definition objects2 : ObjectPool := pool_end pool_new (take_task objects1).
Definition objects3 : ObjectPool :=
  pool_end pool_new (finish_task (MkTask 77 0) Resolved objects2).
Definition env3 : ChainEnv := MkEnv ckpts3 objects3 node3.

Lemma ckpts3_inv : pool_inv checkpoint_key ckpts3 [].
Proof.
  apply (pool_inv_steps orb).
  eapply rtc_l; [by apply (StepAdd orb checkpoint_key ckpt false _ 0%nat ckpts1)|].
  eapply rtc_l; [by apply (StepTake _ _ _ (MkTask (checkpoint_key ckpt) 0) false ckpts2)|].
  eapply rtc_l; [by apply (StepFinish _ _ _ (MkTask (checkpoint_key ckpt) 0) Resolved ckpts3 [] [])|].
  done.
Qed.

Lemma objects3_inv : pool_inv object_key objects3 [].
Proof.
  apply (pool_inv_steps (λ _ _, tt)).
  eapply rtc_l; [by apply (StepAdd (λ _ _, tt) object_key obj tt _ 0%nat objects1)|].
  eapply rtc_l; [by apply (StepTake _ _ _ (MkTask (object_key obj) 0) tt objects2)|].
  eapply rtc_l; [by apply (StepFinish _ _ _ (MkTask (object_key obj) 0) Resolved objects3 [] [])|].
  done.
Qed.

Lemma env3_ok : env_ok env3 inner3 f10.
Proof.
  split; [| |by vm_compute|by exists []; apply ckpts3_inv|by exists []; apply objects3_inv].
  - split_and!; [by eexists| |done|done]. split.
    + apply (seq_cache_intro 11); [by repeat split|by repeat constructor].
    + intros lo [= <-]. by exists f10.
  - exact node2_chain.
Qed.

Lemma inner3_non_null h : non_null inner3 h → Config.proposal_delay (config inner3) ≤ h.
Proof. intros _. apply N.le_0_l. Qed.
End SampleMachine.

Section witnesses.
#[local] Existing Instance dev_profile.
#[local] Existing Instance sample_data.
#[local] Existing Instance SampleParent.proxy.
#[local] Existing Instance SampleParent.idle.
#[local] Existing Instance SampleMachine.ids.
#[local] Existing Instance SampleMachine.machine.
#[local] Existing Instance SampleMachine.inner_interpreter.
#[local] Existing Instance SampleMachine.resolvers.
#[local] Existing Instance SampleMachine.quiet_pools.
#[local] Existing Instance SampleMachine.gateway_laws.
#[local] Existing Instance SampleMachine.object_laws.
Import SampleParent SampleSync SampleMachine.

Lemma topdown_exactly_once_witness :
  ∃ ret st' n',
    deliver st0 (Ipc (TopDownExec (pf 11 110))) env0 =
      (Done (RetIpc ret, st'), set_node n' env0) ∧
    attached no_changes parent_msgs 0 (Sample.fin 11 110) n' ∧
    executed no_changes parent_msgs 0 (fvm st') ∧ committed (fvm st') = Some (Sample.fin 11 110) ∧
    circ_supply st' = (circ_supply st0 + tokens_to_mint (between parent_msgs
      (executed_to 0 (fvm st0)) (height (Sample.fin 11 110))))%Z.
Proof.
  apply (topdown_exactly_once no_changes parent_msgs 0) with (env := env0) (f := f10);
    try done.
  - intros h. by apply Forall_true.
  - intros h. apply answers_sample.
  - apply env0_attached.
  - by left.
Defined.

Lemma first_topdown_exec_panics_witness :
  (deliver st_fresh (Ipc (TopDownExec (pf 11 110))) env0).1 = Panic.
Proof.
  apply (first_topdown_exec_panics no_changes parent_msgs 0) with (f := f10) (f' := Sample.fin 11 110);
    try done.
  - intros h. by apply Forall_true.
  - intros h. apply answers_sample.
  - apply env0_attached.
Defined.

Lemma topdown_stale_witness :
  ∃ e, deliver st0 (Ipc (TopDownExec (pf 10 100))) env0 = (Fail e, env0).
Proof. refine (topdown_stale env0 st0 (pf 10 100) f10 _ _ _); by vm_compute. Defined.

Definition user1 : ChainMessage := Signed (1 : SignedMessage).

(** The block that is proposed in the environment of the sample. *)
Definition sample_block : list ChainMessage :=
  [user1; topdown_message (Sample.fin 11 110); Ipc (BottomUpExec ckpt);
   Ipc (ObjectResolved obj)].

(** A block by the kinds and the numbers of its messages. *)
Definition describe (msg : ChainMessage) : string * N :=
  match msg with
  | Signed m => ("signed"%string, m)
  | Ipc (BottomUpResolve m) => ("resolve"%string, relay_sequence (relayed_message m))
  | Ipc (BottomUpExec c) => ("checkpoint"%string, bottom_up_messages (certified c))
  | Ipc (TopDownExec p) => ("topdown"%string, Z.to_N (pf_height p))
  | Ipc (ObjectResolved o) => ("object"%string, obj_key o)
  end.
Definition describe_block (r : outcome string (list ChainMessage)) : list (string * N) :=
  match r with Done msgs => describe <$> msgs | _ => [] end.

Lemma process_spec_witness :
  (∃ b env', process st0 sample_block env3 = (Done b, env') ∧ same_view env3 env' ∧
    (b = true ↔ Forall (acceptable st0 env3 inner3 f10) sample_block)) ∧
  (process st0 sample_block env3).1 = Done true.
Proof. split; [apply (process_spec st0 env3 inner3 f10), env3_ok|by vm_compute]. Defined.

Lemma prepare_spec_witness :
  (∃ prop ckpts objects env',
    prepare st0 [user1] env3 =
      (Done ([user1] ++ from_option (λ f, [topdown_message f]) [] prop ++
        ckpts ++ objects), env') ∧
    same_view env3 env' ∧ proposal env3 inner3 f10 prop ∧
    (∀ m, m ∈ ckpts ↔
      ∃ c, m = Ipc (BottomUpExec c) ∧ ready checkpoint_key (checkpoint_pool env3) c) ∧
    (∀ m, m ∈ objects ↔ ∃ o, m = Ipc (ObjectResolved o) ∧ ready object_key (object_pool env3) o ∧
      acceptable st0 env3 inner3 f10 (Ipc (ObjectResolved o)))) ∧
  describe_block (prepare st0 [user1] env3).1 = describe <$> sample_block.
Proof.
  split; [|by vm_compute].
  apply (prepare_spec st0 [user1] env3 inner3 f10);
    [apply env3_ok|done|apply inner3_non_null].
Defined.

Lemma prepare_accepted_witness :
  ∃ block env', prepare st0 [user1] env3 = (Done block, env') ∧
    ∀ env2, same_view env3 env2 → ∃ env2', process st0 block env2 = (Done true, env2').
Proof.
  apply (prepare_accepted st0 [user1] env3 inner3 f10);
    [apply env3_ok|done|apply inner3_non_null|by repeat constructor].
Defined.
End witnesses.
