(* ===== verification/Signing.v ===== *)
(** * Signed messages

    [fendermint/vm/message/src/signed.rs], the conversions between FVM messages and
    Ethereum transactions of [conv/from_eth.rs] and [conv/from_fvm.rs], and the chain
    identifiers of [fendermint/vm/core/src/chainid.rs].

    Addresses, encodings and the cryptographic primitives come from libraries and are
    behind the class [Crypto]; [CryptoLaws] states what they promise. *)

From Stdlib Require Import Strings.Byte Strings.Ascii.
From stdpp Require Import vector pretty.
From S2P Require Import Prelude OrdMap Weights Cache Voting Finality Node Fetch Syncer Merkle.
From S2P Require Import SubnetId MerkleStandard Validators Ledger.

(** ** Chain identifiers *)

Definition KNOWN_CHAIN_IDS : list (N * string) :=
  [(0, ""); (314, "filecoin"); (3141, "hyperspace"); (31415, "wallaby");
   (3141592, "butterflynet"); (314159, "calibnet"); (31415926, "devnet")]%string.

Definition known_chain_name (name : string) : option N :=
  fst <$> List.find (λ e, bool_decide (e.2 = name)) KNOWN_CHAIN_IDS.
Definition is_known_chain_id (id : N) : bool :=
  bool_decide (id ∈ KNOWN_CHAIN_IDS.*1).

Definition MAX_CHAIN_ID : N := 4503599627370476.

Inductive ChainIDError := IllegalName (name : string) (id : N).

(** The prefix "/r", then zero or a decimal number without leading zeros, which is parsed
    as [u64].  Digits of other scripts match the expression but do not parse. *)
Definition just_root_id (name : string) : option N :=
  match name with
  | String "/" (String "r" (String c _ as rest)) =>
      if bool_decide (c = "0"%char) then (if bool_decide (rest = "0"%string) then Some 0 else None)
      else digit_of c ≫= λ _, parse_u64 rest
  | _ => None
  end.

(** [from_str_hashed]; [fnv] is the hasher of the [fnv] crate. *)
Definition from_str_hashed (fnv : string → N) (name : string) : ChainIDError + N :=
  match known_chain_name name with
  | Some chain_id => inr chain_id
  | None =>
      match just_root_id name with
      | Some chain_id => inr chain_id
      | None =>
          let chain_id := fnv name `mod` MAX_CHAIN_ID in
          if is_known_chain_id chain_id then inl (IllegalName name chain_id) else inr chain_id
      end
  end.

(** A well-known name gets its well-known identifier; any other name
    that is not a root subnet is hashed to an identifier below the maximum that is not a
    well-known one, or refused.  The identifier of a root subnet is taken as it is: it can
    be larger than the maximum. *)
Lemma chain_id_bounds fnv :
  Forall (λ e, from_str_hashed fnv e.2 = inr e.1) KNOWN_CHAIN_IDS ∧
  (∀ name id, from_str_hashed fnv name = inr id → known_chain_name name = None →
     just_root_id name = None → id < MAX_CHAIN_ID ∧ id ∉ KNOWN_CHAIN_IDS.*1) ∧
  (∀ name id, just_root_id name = Some id → from_str_hashed fnv name = inr id) ∧
  (∃ name id, from_str_hashed fnv name = inr id ∧ MAX_CHAIN_ID < id).
Proof.
  split_and!.
  - by repeat constructor.
  - intros name id Hid Hk Hr. unfold from_str_hashed in Hid. rewrite Hk, Hr in Hid.
    unfold is_known_chain_id in Hid. case_bool_decide; [done|]. injection Hid as <-.
    split; [by apply N.mod_lt|done].
  - intros name id Hr. unfold from_str_hashed. rewrite Hr.
    destruct (known_chain_name name) eqn:Hk; [exfalso|done].
    apply fmap_Some in Hk as (e & [Hin Hname]%List.find_some & _). apply bool_decide_eq_true in Hname.
    subst name. simpl in Hin. by repeat (destruct Hin as [<-|Hin]).
  - exists "/r4503599627370477"%string, 4503599627370477. by vm_compute.
Qed.

(** ** Libraries *)

Inductive SignatureType := SigSecp256k1 | SigBLS.
#[export] Instance SignatureType_eq_dec : EqDecision SignatureType.
Proof. solve_decision. Defined.

Definition SECP_SIG_LEN : nat := 65.

(** [ethers_core::types::Signature]. *)
Record EthSignature := MkEthSignature { eth_v : N; eth_r : N; eth_s : N }.

Inductive NameOrAddress := Name (name : string) | EthAddr (addr : EthAddress).

(** The fields of [Eip1559TransactionRequest] that the conversions fill in; the access
    list stays empty. *)
Record Transaction := MkTransaction {
  tx_from : option EthAddress;
  tx_to : option NameOrAddress;
  tx_gas : option N;
  tx_value : option N;
  tx_data : option (list byte);
  tx_nonce : option N;
  tx_max_priority_fee_per_gas : option N;
  tx_max_fee_per_gas : option N;
  tx_chain_id : option N
}.

Class Crypto `{ChainIds, Keys} := {
  (* [fvm_shared] addresses *)
  payload : ActorAddress → Payload;
  of_payload : Payload → ActorAddress;
  show_address : ActorAddress → string;
  (* IPLD: byte strings, messages, objects and content identifiers *)
  bytes_de : Bytes → string + list byte;
  bytes_ser : list byte → string + Bytes;
  message_to_vec : FvmMessage → string + list byte;
  object_to_vec : ObjectMsg → string + list byte;
  blake2b : list byte → Hash;
  new_v1_dag_cbor : Hash → Cid;
  cid_bytes : Cid → list byte;
  (* signatures *)
  new_signature : SignatureType → list byte → Signature;
  sig_type : Signature → SignatureType;
  sig_bytes : Signature → list byte;
  signature_verify : Signature → list byte → ActorAddress → string + unit;
  SecretKey : Type;
  secret_public_key : SecretKey → PublicKey;
  sk_sign : SecretKey → Hash → vec byte 64 * byte;
  recover_secp_public_key : Hash → list byte → string + PublicKey;
  parse_recovery_id : byte → string + N;
  parse_standard : list byte → string + (N * N);
  (* Ethereum transactions *)
  tx_rlp : Transaction → list byte;
  tx_rlp_signed : Transaction → EthSignature → list byte;
  eth_recover : EthSignature → Hash → string + EthAddress;
  show_hash : Hash → string
}.

(** ** Conversions *)

Definition u256_max : N := 2 ^ 256 - 1.
Definition InvokeContract : N := 3844450837.
Definition CreateExternal : N := 4.
Definition null_address : EthAddress := vreplicate 20 x00.

Section conversions.
Context `{ChainIds, Keys, !Crypto}.

Definition EAM_ACTOR_ADDR : ActorAddress := of_payload (ID EAM_ACTOR_ID).

(** [U256::as_u64] panics when the number does not fit. *)
Definition as_u64 (n : N) : outcome string N :=
  if bool_decide (n ≤ u64_max) then Done n else Panic.

Definition to_fvm_address (addr : EthAddress) : ActorAddress := of_payload (address_of_eth addr).
Definition to_fvm_tokens (value : N) : Z := Z.of_N value.

Definition to_fvm_message (tx : Transaction) : outcome string FvmMessage :=
  target ← match tx_to tx with
           | None => Done (CreateExternal, EAM_ACTOR_ADDR)
           | Some (EthAddr to) => Done (InvokeContract, to_fvm_address to)
           | Some (Name _) =>
               Fail "Turning name to address would require ENS which is not supported."%string
           end;
  let '(method, to) := target in
  let from := to_fvm_address (default null_address (tx_from tx)) in
  let calldata := default [] (tx_data tx) in
  ps ← of_sum (bytes_ser calldata);
  nonce ← as_u64 (default 0 (tx_nonce tx));
  Done {| version := 0;
          msg_from := from;
          msg_to := to;
          sequence := nonce;
          msg_value := to_fvm_tokens (default 0 (tx_value tx));
          method_num := method;
          params := ps;
          gas_limit := default 0 (N.min u64_max <$> tx_gas tx);
          gas_fee_cap := to_fvm_tokens (default 0 (tx_max_fee_per_gas tx));
          gas_premium := to_fvm_tokens (default 0 (tx_max_priority_fee_per_gas tx)) |}.

(** The sign of the amount is dropped; [U256::from_big_endian] panics on more than 32
    bytes. *)
Definition to_eth_tokens (amount : Z) : outcome string N :=
  if bool_decide (Z.of_N u256_max < amount)%Z then Fail "TokenAmount > U256.MAX"%string
  else if bool_decide (Z.abs_N amount ≤ u256_max) then Done (Z.abs_N amount) else Panic.

(** [H160::from_slice] of a slice of 20 bytes. *)
Definition delegated_eth (namespace : N) (subaddress : list byte) : option EthAddress :=
  if bool_decide (namespace = EAM_ACTOR_ID ∧ length subaddress = 20%nat)
  then Some (vec_of_list subaddress) else None.

Definition to_eth_address (addr : ActorAddress) (allow_masked : bool)
    : outcome string (option EthAddress) :=
  let refused := Fail ("not an Ethereum address: " +:+ show_address addr)%string in
  match payload addr with
  | Delegated namespace subaddress =>
      match delegated_eth namespace subaddress with
      | Some a => Done (Some a)
      | None => refused
      end
  | ID id =>
      if bool_decide (id = EAM_ACTOR_ID) then Done None
      else if allow_masked then Done (Some (from_id id)) else refused
  | _ => refused
  end.

Definition parse_secp256k1 (sig : list byte) : outcome string (N * (N * N)) :=
  if bool_decide (length sig ≠ SECP_SIG_LEN)
  then Fail ("unexpected Secp256k1 length: " +:+ pretty (N.of_nat (length sig)))%string
  else
    v ← index sig 64;
    rec_id ← of_sum (parse_recovery_id v);
    sig ← of_sum (parse_standard (take 64 sig));
    Done (rec_id, sig).

Definition to_eth_signature (sig : Signature) (normalized : bool) : outcome string EthSignature :=
  r ← match sig_type sig with
      | SigSecp256k1 => parse_secp256k1 (sig_bytes sig)
      | SigBLS => Fail "unexpected signature type: BLS"%string
      end;
  let '(v, (r, s)) := r in
  let shift := if normalized then 0 else 27 in
  Done (MkEthSignature (v + shift) r s).

Definition to_eth_transaction_request (msg : FvmMessage) (chain_id : N) : outcome string Transaction :=
  data ← of_sum (bytes_de (params msg));
  from ← to_eth_address (msg_from msg) true;
  fee ← to_eth_tokens (gas_fee_cap msg);
  premium ← to_eth_tokens (gas_premium msg);
  to ← to_eth_address (msg_to msg) true;
  value ← (if bool_decide (msg_value msg = 0%Z) then Done None
           else v ← to_eth_tokens (msg_value msg); Done (Some v));
  Done {| tx_from := Some (default null_address from);
          tx_to := EthAddr <$> to;
          tx_gas := Some (gas_limit msg);
          tx_value := value;
          tx_data := Some data;
          tx_nonce := Some (sequence msg);
          tx_max_priority_fee_per_gas := Some premium;
          tx_max_fee_per_gas := Some fee;
          tx_chain_id := Some chain_id |}.
End conversions.

(** ** Signing and verifying *)

Inductive Signable :=
| SignEthereum (hash : Hash) (from : EthAddress)
| SignRegular (data : list byte)
| SignRegularFromEth (data : list byte) (from : EthAddress).

Inductive SignedMessageError :=
| Ipld (e : string)
| InvalidSignature (e : string)
| EthereumError (e : string).

Inductive DomainHash := DomainEth (hash : Hash).

Record SignedMessage `{ChainIds} := MkSigned {
  message : FvmMessage;
  object : option ObjectMsg;
  signature : Signature
}.
Arguments MkSigned {_} _ _ _.

Section signing.
Context `{ChainIds, Keccak, Keys, !Crypto}.
Implicit Types (msg : FvmMessage) (obj : option ObjectMsg) (sig : Signature).

Definition chain_id_bytes (chain_id : N) : list byte := be_bytes 8 chain_id.

(** [cid] of the crate's root, on serialized values. *)
Definition cid_of (bz : string + list byte) : outcome SignedMessageError Cid :=
  bz ← map_err Ipld (of_sum bz);
  Done (new_v1_dag_cbor (blake2b bz)).

Definition maybe_eth_address (addr : ActorAddress) : option EthAddress :=
  match payload addr with
  | Delegated namespace subaddress => delegated_eth namespace subaddress
  | _ => None
  end.

Definition is_eth_addr_compat_no_masked (addr : ActorAddress) : bool :=
  is_done (to_eth_address addr false).
Definition is_eth_addr_deleg (addr : ActorAddress) : bool := bool_decide (is_Some (maybe_eth_address addr)).

(** [TypedTransaction::sighash]. *)
Definition sighash (tx : Transaction) : Hash := keccak256 (tx_rlp tx).

(** The bytes signed over when the scheme is not Ethereum's. *)
Definition regular_data msg obj (chain_id : N) : outcome SignedMessageError (list byte) :=
  c ← cid_of (message_to_vec msg);
  let data := cid_bytes c ++ chain_id_bytes chain_id in
  match obj with
  | Some o => oc ← cid_of (object_to_vec o); Done (data ++ cid_bytes oc)
  | None => Done data
  end.

Definition signable msg obj (chain_id : N) : outcome SignedMessageError Signable :=
  match maybe_eth_address (msg_from msg) with
  | Some addr =>
      if is_eth_addr_compat_no_masked (msg_to msg) then
        tx ← map_err EthereumError (to_eth_transaction_request msg chain_id);
        Done (SignEthereum (sighash tx) addr)
      else data ← regular_data msg obj chain_id; Done (SignRegularFromEth data addr)
  | None => data ← regular_data msg obj chain_id; Done (SignRegular data)
  end.

Definition sign_secp256k1 (sk : SecretKey) (hash : Hash) : Signature :=
  let '(sig, recovery_id) := sk_sign sk hash in
  new_signature SigSecp256k1 (sig ++ [recovery_id]).
Definition sign_regular (sk : SecretKey) (data : list byte) : Signature := sign_secp256k1 sk (blake2b data).
Definition sign_eth (sk : SecretKey) (hash : Hash) : Signature := sign_secp256k1 sk hash.

Definition signed_new_secp256k1 msg obj (sk : SecretKey) (chain_id : N)
    : outcome SignedMessageError SignedMessage :=
  s ← signable msg obj chain_id;
  Done (MkSigned msg obj
    match s with
    | SignEthereum hash _ => sign_eth sk hash
    | SignRegular data | SignRegularFromEth data _ => sign_regular sk data
    end).

Definition verify_eth_method msg : outcome SignedMessageError unit :=
  if bool_decide (msg_to msg = EAM_ACTOR_ADDR) then
    if bool_decide (method_num msg ≠ CreateExternal)
    then Fail (EthereumError ("The EAM actor can only be called with CreateExternal; got "
                              +:+ pretty (method_num msg))%string)
    else Done tt
  else
    if bool_decide (method_num msg ≠ InvokeContract)
    then Fail (EthereumError ("An EVM actor can only be called with InvokeContract; got "
                              +:+ show_address (msg_to msg) +:+ " - " +:+ pretty (method_num msg))%string)
    else Done tt.

Definition recover_secp256k1 sig (data : list byte) : outcome string PublicKey :=
  let bytes := sig_bytes sig in
  if bool_decide (length bytes ≠ SECP_SIG_LEN)
  then Fail ("Invalid Secp256k1 signature length. Was " +:+ pretty (N.of_nat (length bytes))
             +:+ ", must be 65")%string
  else of_sum (recover_secp_public_key (blake2b data) bytes).

Definition verify_signature msg obj sig (chain_id : N) : outcome SignedMessageError unit :=
  s ← signable msg obj chain_id;
  match s with
  | SignEthereum hash from =>
      es ← map_err EthereumError (to_eth_signature sig true);
      rec ← map_err EthereumError (of_sum (eth_recover es hash));
      if bool_decide (rec = from) then verify_eth_method msg
      else Fail (InvalidSignature
        ("the Ethereum delegated address did not match the one recovered from the signature (sighash = "
         +:+ show_hash hash +:+ ")")%string)
  | SignRegular data => map_err InvalidSignature (of_sum (signature_verify sig data (msg_from msg)))
  | SignRegularFromEth data from =>
      rec ← map_err InvalidSignature (recover_secp256k1 sig data);
      if bool_decide (eth_of_key rec = from) then Done tt
      else Fail (InvalidSignature
        "the Ethereum delegated address did not match the one recovered from the signature (client chain ID may incorrect)"%string)
  end.

Definition verify (sm : SignedMessage) (chain_id : N) : outcome SignedMessageError unit :=
  verify_signature (message sm) (object sm) (signature sm) chain_id.

Definition domain_hash (sm : SignedMessage) (chain_id : N)
    : outcome SignedMessageError (option DomainHash) :=
  if is_eth_addr_deleg (msg_from (message sm)) && is_eth_addr_compat_no_masked (msg_to (message sm)) then
    tx ← map_err EthereumError (to_eth_transaction_request (message sm) chain_id);
    sig ← map_err EthereumError (to_eth_signature (signature sm) true);
    Done (Some (DomainEth (keccak256 (tx_rlp_signed tx sig))))
  else Done None.

Definition is_bls (sm : SignedMessage) : bool := bool_decide (sig_type (signature sm) = SigBLS).
Definition is_secp256k1 (sm : SignedMessage) : bool :=
  bool_decide (sig_type (signature sm) = SigSecp256k1).
End signing.

(** ** What the libraries promise *)

(** The encoding of a version 1 identifier: the version, the DAG-CBOR codec, the
    Blake2b-256 code and the length of the digest. *)
Definition dag_cbor_prefix : list byte := [x01; x71; xa0; xe4; x02; x20].

Definition no_name (tx : Transaction) : Prop := ∀ n, tx_to tx ≠ Some (Name n).

(** Two requests that encode to the same transaction; the sender is not part of it. *)
Definition same_rlp_fields (t u : Transaction) : Prop :=
  tx_to t = tx_to u ∧ default 0 (tx_gas t) = default 0 (tx_gas u) ∧
  default 0 (tx_value t) = default 0 (tx_value u) ∧
  default [] (tx_data t) = default [] (tx_data u) ∧
  default 0 (tx_nonce t) = default 0 (tx_nonce u) ∧
  default 0 (tx_max_priority_fee_per_gas t) = default 0 (tx_max_priority_fee_per_gas u) ∧
  default 0 (tx_max_fee_per_gas t) = default 0 (tx_max_fee_per_gas u) ∧
  default 1 (tx_chain_id t) = default 1 (tx_chain_id u).

Class CryptoLaws `{ChainIds, Keccak, Keys, !Crypto} := {
  payload_of p : payload (of_payload p) = p;
  of_payload_payload a : of_payload (payload a) = a;
  bytes_de_ser d b : bytes_ser d = inr b → bytes_de b = inr d;
  message_to_vec_inj m m' b : message_to_vec m = inr b → message_to_vec m' = inr b → m = m';
  object_to_vec_inj o o' b : object_to_vec o = inr b → object_to_vec o' = inr b → o = o';
  cid_v1_bytes h : cid_bytes (new_v1_dag_cbor h) = dag_cbor_prefix ++ vec_to_list h;
  tx_rlp_inj t u : no_name t → no_name u → tx_rlp t = tx_rlp u → same_rlp_fields t u;
  sig_type_new t b : sig_type (new_signature t b) = t;
  sig_bytes_new t b : sig_bytes (new_signature t b) = b;
  (* the key that signed is recovered from a signature *)
  recover_signed sk h :
    recover_secp_public_key h (vec_to_list (sk_sign sk h).1 ++ [(sk_sign sk h).2]) =
      inr (secret_public_key sk);
  eth_recover_signed sk h : ∃ v r s,
    parse_recovery_id (sk_sign sk h).2 = inr v ∧
    parse_standard (vec_to_list (sk_sign sk h).1) = inr (r, s) ∧
    eth_recover (MkEthSignature v r s) h = inr (eth_of_key (secret_public_key sk));
  (* [Signature::verify] of a Secp256k1 signature compares the address of the key
     recovered from it; it knows no keys behind other kinds of addresses *)
  secp_address : PublicKey → list byte;
  verify_recovered sig data k a :
    sig_type sig = SigSecp256k1 → length (sig_bytes sig) = SECP_SIG_LEN →
    recover_secp_public_key (blake2b data) (sig_bytes sig) = inr k →
    payload a = Secp256k1 (secp_address k) → signature_verify sig data a = inr tt;
  verify_key_address sig data a :
    signature_verify sig data a = inr tt →
    match payload a with Secp256k1 _ | BLS _ => True | _ => False end
}.

Section conversion_facts.
Context `{ChainIds, Keccak, Keys, !Crypto, !CryptoLaws}.
Implicit Types (m : FvmMessage) (a : ActorAddress) (e : EthAddress).

Lemma delegated_eth_Some ns sub e :
  delegated_eth ns sub = Some e ↔ ns = EAM_ACTOR_ID ∧ sub = vec_to_list e.
Proof.
  unfold delegated_eth. case_bool_decide as Hc; split.
  - intros [= <-]. destruct Hc as [-> Hl]. split; [done|]. symmetry. by apply to_vec_of_list.
  - intros [-> ->]. by rewrite vec_of_list_to.
  - done.
  - intros [-> ->]. destruct Hc. by rewrite length_vec_to_list.
Qed.

Lemma maybe_eth_Some a e :
  maybe_eth_address a = Some e ↔ payload a = Delegated EAM_ACTOR_ID (vec_to_list e).
Proof.
  unfold maybe_eth_address. destruct (payload a) as [| | | |ns sub]; try by split.
  rewrite delegated_eth_Some. split; [by intros [-> ->]|by intros [= -> ->]].
Qed.

Lemma payload_inj a a' : payload a = payload a' → a = a'.
Proof. intros Heq. by rewrite <-(of_payload_payload a), Heq, of_payload_payload. Qed.

Lemma to_eth_delegated a e b :
  payload a = Delegated EAM_ACTOR_ID (vec_to_list e) → to_eth_address a b = Done (Some e).
Proof.
  intros Hp. unfold to_eth_address. rewrite Hp.
  by rewrite (proj2 (delegated_eth_Some _ _ e)).
Qed.

(** The receivers of messages signed by the Ethereum scheme: the address manager, which is
    no address in a transaction, and delegated addresses. *)
Lemma compat_no_masked a :
  is_eth_addr_compat_no_masked a = true ↔
  payload a = ID EAM_ACTOR_ID ∨ ∃ e, payload a = Delegated EAM_ACTOR_ID (vec_to_list e).
Proof.
  unfold is_eth_addr_compat_no_masked, to_eth_address.
  destruct (payload a) as [id| | | |ns sub]; simpl;
    try by split; [done|intros [?|[??]]].
  - case_bool_decide as Hid; simpl; [subst; split; [by left|done]|].
    split; [done|]. intros [[= ?]|[??]]; done.
  - destruct (delegated_eth ns sub) as [e|] eqn:He; simpl; split; try done.
    + apply delegated_eth_Some in He as [-> ->]. intros _. right. by exists e.
    + intros [?|[e [= -> ->]]]; [done|].
      by rewrite (proj2 (delegated_eth_Some _ _ e)) in He.
Qed.

Lemma to_eth_compat_inj a a' r :
  is_eth_addr_compat_no_masked a = true → is_eth_addr_compat_no_masked a' = true →
  to_eth_address a true = Done r → to_eth_address a' true = Done r → a = a'.
Proof.
  rewrite !compat_no_masked. intros Ha Ha' Hr Hr'. apply payload_inj.
  unfold to_eth_address in Hr, Hr'.
  destruct Ha as [Ha|[e Ha]], Ha' as [Ha'|[e' Ha']]; rewrite Ha in *; rewrite Ha' in *;
    try rewrite !(proj2 (delegated_eth_Some _ _ e)) in Hr by done;
    try rewrite !(proj2 (delegated_eth_Some _ _ e')) in Hr' by done;
    simpl in *; congruence.
Qed.

Lemma to_eth_tokens_Done z n : to_eth_tokens z = Done n → n = Z.abs_N z.
Proof. unfold to_eth_tokens. repeat case_bool_decide; congruence. Qed.

Definition u256 (z : Z) : Prop := (0 ≤ z ≤ Z.of_N u256_max)%Z.

Lemma to_eth_tokens_ok z : u256 z → to_eth_tokens z = Done (Z.to_N z).
Proof.
  unfold u256, to_eth_tokens. generalize u256_max. intros mx [Hz Hm].
  rewrite bool_decide_eq_false_2 by lia. rewrite bool_decide_eq_true_2 by lia.
  f_equal. lia.
Qed.
End conversion_facts.

(** ** Converting messages back and forth *)

Section roundtrip.
Context `{ChainIds, Keccak, Keys, !Crypto, !CryptoLaws}.
Implicit Types (m : FvmMessage) (a : ActorAddress).

(** The addresses a transaction can name: delegated ones that do not look like a masked ID,
    and IDs. *)
Definition eth_address a : Prop :=
  (∃ e, is_masked_id e = false ∧ payload a = Delegated EAM_ACTOR_ID (vec_to_list e)) ∨
  (∃ id, id < u64_size ∧ payload a = ID id).

Lemma payload_eam : payload EAM_ACTOR_ADDR = ID EAM_ACTOR_ID.
Proof. apply payload_of. Qed.

Lemma to_eth_eam b : to_eth_address EAM_ACTOR_ADDR b = Done None.
Proof. unfold to_eth_address. by rewrite payload_eam. Qed.

Lemma eth_address_back a :
  eth_address a → a ≠ EAM_ACTOR_ADDR →
  ∃ e, to_eth_address a true = Done (Some e) ∧ to_fvm_address e = a.
Proof.
  intros [(e & He & Hp)|(id & Hid & Hp)] Hne; unfold to_fvm_address.
  - exists e. split; [by apply to_eth_delegated|]. rewrite address_of_plain by done.
    by rewrite <-Hp, of_payload_payload.
  - exists (from_id id). rewrite address_of_from_id by done.
    split; [|by rewrite <-Hp, of_payload_payload].
    unfold to_eth_address. rewrite Hp. rewrite bool_decide_eq_false_2; [done|].
    intros ->. destruct Hne. apply payload_inj. by rewrite payload_eam.
Qed.

(** A message as the Ethereum API makes it. *)
Record eth_message m : Prop := {
  em_version : version m = 0;
  em_from : eth_address (msg_from m);
  em_from_eam : msg_from m ≠ EAM_ACTOR_ADDR;
  em_to : eth_address (msg_to m);
  em_method : verify_eth_method m = Done tt;
  em_sequence : sequence m ≤ u64_max;
  em_gas : gas_limit m ≤ u64_max;
  em_value : u256 (msg_value m);
  em_fee : u256 (gas_fee_cap m);
  em_premium : u256 (gas_premium m);
  em_params : ∃ data, bytes_ser data = inr (params m)
}.

Lemma verify_eth_method_Done m :
  verify_eth_method m = Done tt ↔
  method_num m = (if bool_decide (msg_to m = EAM_ACTOR_ADDR) then CreateExternal else InvokeContract).
Proof. unfold verify_eth_method. repeat case_bool_decide; naive_solver. Qed.

Lemma tokens_back z : u256 z → to_fvm_tokens (Z.to_N z) = z.
Proof. unfold u256, to_fvm_tokens. lia. Qed.

(** A message of the kind the Ethereum API makes (a nameable
    sender and receiver, the method that goes with the receiver, amounts of 256 bits)
    becomes a transaction for the chain, and the transaction becomes the same message. *)
Lemma eth_message_roundtrip m c (Hm : eth_message m) :
  ∃ tx, to_eth_transaction_request m c = Done tx ∧ tx_chain_id tx = Some c ∧ to_fvm_message tx = Done m.
Proof.
  destruct Hm as [Hv Hf Hfe Ht Hmeth Hs Hg Hval Hfee Hpre [data Hd]].
  destruct (eth_address_back _ Hf Hfe) as (ef & Hef & Hbf).
  unfold to_eth_transaction_request.
  rewrite (bytes_de_ser _ _ Hd). change (of_sum (inr data)) with (Done (E:=string) data).
  rewrite Hef, !to_eth_tokens_ok by done. unfold mbind, outcome_bind.
  apply verify_eth_method_Done in Hmeth.
  assert (∃ r, to_eth_address (msg_to m) true = Done r ∧
    (match EthAddr <$> r with
     | None => Done (CreateExternal, EAM_ACTOR_ADDR)
     | Some (EthAddr to) => Done (InvokeContract, to_fvm_address to)
     | Some (Name _) => Fail "Turning name to address would require ENS which is not supported."%string
     end = Done (method_num m, msg_to m))) as (r & -> & Htarget).
  { rewrite Hmeth. case_bool_decide as He; [rewrite He; exists None; by rewrite to_eth_eam|].
    destruct (eth_address_back _ Ht He) as (e & -> & Hb). exists (Some e). simpl. by rewrite Hb. }
  assert (∃ ov, (if bool_decide (msg_value m = 0%Z) then Done None
                 else Done (Some (Z.to_N (msg_value m)))) = Done (E:=string) ov ∧
            to_fvm_tokens (default 0 ov) = msg_value m) as (ov & -> & Hov).
  { clear Hmeth. case_bool_decide as Hz; [exists None; by rewrite Hz|].
    exists (Some (Z.to_N (msg_value m))). split; [done|]. by apply tokens_back. }
  eexists. split; [done|]. split; [done|].
  unfold to_fvm_message. cbn [tx_to tx_from tx_data tx_nonce tx_gas tx_value
    tx_max_fee_per_gas tx_max_priority_fee_per_gas default].
  rewrite Htarget. unfold mbind, outcome_bind, of_sum.
  repeat match goal with |- context [id ?x] => change (id x) with x end.
  rewrite Hd. unfold as_u64.
  rewrite bool_decide_eq_true_2 by done. rewrite Hov, !tokens_back, Hbf by done.
  cbn [fmap option_fmap option_map default from_option]. change (id ?x) with x. rewrite N.min_r by done.
  destruct m; simpl in *. by subst.
Qed.
End roundtrip.

(** ** What a signature covers *)

(** Two different strings, one of [xs] and one of [ys], with the same digest. *)
Definition clash (digest : list byte → Hash) (xs ys : list (list byte)) : Prop :=
  ∃ x y, x ∈ xs ∧ y ∈ ys ∧ x ≠ y ∧ digest x = digest y.

Lemma same_digest digest xs ys x y :
  x ∈ xs → y ∈ ys → digest x = digest y → x = y ∨ clash digest xs ys.
Proof. intros. destruct (decide (x = y)); [by left|]. right. by exists x, y. Qed.

Lemma vec_app_list_inj {n} (v w : vec byte n) (l k : list byte) :
  vec_to_list v ++ l = vec_to_list w ++ k → v = w ∧ l = k.
Proof.
  intros Heq. apply app_inj_1 in Heq as [Hv Hl]; [|by rewrite !length_vec_to_list].
  split; [by apply vec_to_list_inj2|done].
Qed.

Lemma chain_id_bytes_inj c c' :
  c < u64_size → c' < u64_size → be_bytes 8 c = be_bytes 8 c' → c = c'.
Proof.
  intros Hc Hc' Heq. apply (f_equal (λ v, from_be_bytes (vec_to_list v))) in Heq.
  by rewrite !be_bytes_value, !N.mod_small in Heq.
Qed.

Section coverage.
Context `{ChainIds, Keccak, Keys, !Crypto, !CryptoLaws}.
Implicit Types (m : FvmMessage) (o : option ObjectMsg) (s : Signable).

(** The strings hashed by Blake2b for a message and its object. *)
Definition encodings m o : list (list byte) :=
  omap (λ e, match e with inl _ => None | inr b => Some b end)
    (message_to_vec m :: match o with Some ob => [object_to_vec ob] | None => [] end).

Lemma cid_of_Done bz c : cid_of bz = Done c → ∃ b, bz = inr b ∧ c = new_v1_dag_cbor (blake2b b).
Proof. unfold cid_of. destruct bz as [e|b]; [done|]. intros [= <-]. by exists b. Qed.

Lemma regular_data_Done m o c d :
  regular_data m o c = Done d →
  ∃ bm, message_to_vec m = inr bm ∧
    match o with
    | None => d = dag_cbor_prefix ++ vec_to_list (blake2b bm) ++ vec_to_list (be_bytes 8 c)
    | Some ob => ∃ bo, object_to_vec ob = inr bo ∧
        d = dag_cbor_prefix ++ vec_to_list (blake2b bm) ++ vec_to_list (be_bytes 8 c) ++
            dag_cbor_prefix ++ vec_to_list (blake2b bo)
    end.
Proof.
  unfold regular_data. intros (c' & (bm & Hm & ->)%cid_of_Done & Hd)%outcome_bind_Done.
  exists bm. split; [done|]. rewrite cid_v1_bytes in Hd. destruct o as [ob|].
  - apply outcome_bind_Done in Hd as (oc & (bo & Ho & ->)%cid_of_Done & Hd).
    exists bo. split; [done|]. apply (inj Done) in Hd as <-. rewrite cid_v1_bytes. by rewrite <-!app_assoc.
  - apply (inj Done) in Hd as <-. by rewrite <-app_assoc.
Qed.

Lemma regular_data_binds m1 o1 c1 m2 o2 c2 d :
  c1 < u64_size → c2 < u64_size →
  regular_data m1 o1 c1 = Done d → regular_data m2 o2 c2 = Done d →
  (m1 = m2 ∧ o1 = o2 ∧ c1 = c2) ∨ clash blake2b (encodings m1 o1) (encodings m2 o2).
Proof.
  intros Hc1 Hc2 (b1 & Hb1 & Hd1)%regular_data_Done (b2 & Hb2 & Hd2)%regular_data_Done.
  assert (b1 ∈ encodings m1 o1 ∧ b2 ∈ encodings m2 o2) as [Hin1 Hin2].
  { unfold encodings. rewrite Hb1, Hb2. split; by left. }
  assert (∀ l k : list byte,
    dag_cbor_prefix ++ vec_to_list (blake2b b1) ++ vec_to_list (be_bytes 8 c1) ++ l =
    dag_cbor_prefix ++ vec_to_list (blake2b b2) ++ vec_to_list (be_bytes 8 c2) ++ k →
    (m1 = m2 ∧ c1 = c2 ∧ l = k) ∨ clash blake2b (encodings m1 o1) (encodings m2 o2)) as Hparts.
  { intros l k Heq. apply app_inv_head, vec_app_list_inj in Heq as [Hb Heq].
    apply vec_app_list_inj in Heq as [Hc ->].
    destruct (same_digest _ _ _ _ _ Hin1 Hin2 Hb) as [->|]; [left|by right].
    split_and!; [by eapply message_to_vec_inj|by apply chain_id_bytes_inj|done]. }
  destruct o1 as [ob1|], o2 as [ob2|].
  - destruct Hd1 as (bo1 & Ho1 & ->), Hd2 as (bo2 & Ho2 & Heq).
    destruct (Hparts _ _ Heq) as [(-> & -> & Ho)|]; [|by right].
    apply app_inv_head, vec_to_list_inj2 in Ho.
    destruct (same_digest blake2b (encodings m2 (Some ob1)) (encodings m2 (Some ob2)) bo1 bo2)
      as [->|]; [..|done| |by right].
    + unfold encodings. rewrite Ho1, Hb1. right. by left.
    + unfold encodings. rewrite Ho2, Hb2. right. by left.
    + left. by rewrite (object_to_vec_inj _ _ _ Ho1 Ho2).
  - destruct Hd1 as (bo1 & Ho1 & ->). subst.
    destruct (Hparts (dag_cbor_prefix ++ vec_to_list (blake2b bo1)) []) as [(_ & _ & ?)|]; [|done|by right].
    by rewrite app_nil_r.
  - destruct Hd2 as (bo2 & Ho2 & ->). subst.
    destruct (Hparts [] (dag_cbor_prefix ++ vec_to_list (blake2b bo2))) as [(_ & _ & ?)|]; [|done|by right].
    by rewrite app_nil_r.
  - subst. destruct (Hparts [] []) as [(-> & -> & _)|]; [by rewrite !app_nil_r|by left|by right].
Qed.

Lemma to_eth_transaction_Done m c tx :
  to_eth_transaction_request m c = Done tx →
  ∃ data to, bytes_de (params m) = inr data ∧ to_eth_address (msg_to m) true = Done to ∧
    tx_to tx = EthAddr <$> to ∧ tx_gas tx = Some (gas_limit m) ∧
    default 0 (tx_value tx) = Z.abs_N (msg_value m) ∧ tx_data tx = Some data ∧
    tx_nonce tx = Some (sequence m) ∧
    tx_max_priority_fee_per_gas tx = Some (Z.abs_N (gas_premium m)) ∧
    tx_max_fee_per_gas tx = Some (Z.abs_N (gas_fee_cap m)) ∧ tx_chain_id tx = Some c.
Proof.
  unfold to_eth_transaction_request. intros (data & Hd & Hr)%outcome_bind_Done.
  apply outcome_bind_Done in Hr as (from & Hf & Hr). apply outcome_bind_Done in Hr as (fee & Hfee & Hr).
  apply outcome_bind_Done in Hr as (pre & Hpre & Hr). apply outcome_bind_Done in Hr as (to & Hto & Hr).
  apply outcome_bind_Done in Hr as (v & Hv & Hr). apply (inj Done) in Hr as <-.
  exists data, to. apply to_eth_tokens_Done in Hfee as ->, Hpre as ->.
  destruct (bytes_de (params m)) as [|d']; [done|]. injection Hd as ->.
  split_and!; try done. cbn [tx_value]. case_bool_decide as Hz.
  - rewrite Hz. by injection Hv as <-.
  - apply outcome_bind_Done in Hv as (n & ->%to_eth_tokens_Done & Hv). by injection Hv as <-.
Qed.

(** What two messages signed as the same transaction share. *)
Definition same_transaction m1 m2 : Prop :=
  msg_from m1 = msg_from m2 ∧ msg_to m1 = msg_to m2 ∧ sequence m1 = sequence m2 ∧
  Z.abs (msg_value m1) = Z.abs (msg_value m2) ∧ gas_limit m1 = gas_limit m2 ∧
  Z.abs (gas_fee_cap m1) = Z.abs (gas_fee_cap m2) ∧
  Z.abs (gas_premium m1) = Z.abs (gas_premium m2) ∧ bytes_de (params m1) = bytes_de (params m2).

(** The string hashed by Keccak for a message. *)
Definition rlp_encodings m c : list (list byte) :=
  match to_eth_transaction_request m c with Done tx => [tx_rlp tx] | _ => [] end.

Lemma transaction_binds m1 c1 t1 m2 c2 t2 :
  is_eth_addr_compat_no_masked (msg_to m1) = true → is_eth_addr_compat_no_masked (msg_to m2) = true →
  msg_from m1 = msg_from m2 →
  to_eth_transaction_request m1 c1 = Done t1 → to_eth_transaction_request m2 c2 = Done t2 →
  sighash t1 = sighash t2 →
  (c1 = c2 ∧ same_transaction m1 m2) ∨ clash keccak256 (rlp_encodings m1 c1) (rlp_encodings m2 c2).
Proof.
  intros Hto1 Hto2 Hfrom H1' H2' Hh. unfold rlp_encodings. rewrite H1', H2'.
  destruct (same_digest keccak256 [tx_rlp t1] [tx_rlp t2] (tx_rlp t1) (tx_rlp t2)) as [Heq|];
    [by left|by left|done| |by right].
  left. apply to_eth_transaction_Done in H1', H2'.
  destruct H1' as (d1 & to1 & Hd1 & Ht1 & E1 & E2 & E3 & E4 & E5 & E6 & E7 & E8).
  destruct H2' as (d2 & to2 & Hd2 & Ht2 & F1 & F2 & F3 & F4 & F5 & F6 & F7 & F8).
  apply tx_rlp_inj in Heq; [|intros n; rewrite ?E1, ?F1; by destruct to1, to2..].
  destruct Heq as (G1 & G2 & G3 & G4 & G5 & G6 & G7 & G8).
  rewrite E1, F1 in G1. rewrite E2, F2 in G2. rewrite E3, F3 in G3. rewrite E4, F4 in G4.
  rewrite E5, F5 in G5. rewrite E6, F6 in G6. rewrite E7, F7 in G7. rewrite E8, F8 in G8.
  cbn [default from_option] in *. unfold id in *. split; [done|].
  unfold same_transaction. rewrite Hd1, Hd2, G4. split_and!; try done; try lia.
  apply (to_eth_compat_inj _ _ to1); try done. rewrite Ht2.
  destruct to1, to2; simpl in G1; congruence.
Qed.

(** C24: if the same thing is signed for two messages, they agree on
    everything that is covered, or two of the strings actually hashed collide.  A regular
    signature covers the whole message, the object and the chain.  An Ethereum signature
    covers the chain and the fields of the transaction, that is neither the object, the
    version nor the method, the amounts only up to their sign and the parameters only up to
    decoding. *)
Theorem signable_binds m1 o1 c1 m2 o2 c2 s
    (Hc1 : c1 < u64_size) (Hc2 : c2 < u64_size)
    (Hs1 : signable m1 o1 c1 = Done s) (Hs2 : signable m2 o2 c2 = Done s) :
  match s with
  | SignEthereum _ _ =>
      (c1 = c2 ∧ same_transaction m1 m2) ∨ clash keccak256 (rlp_encodings m1 c1) (rlp_encodings m2 c2)
  | SignRegular _ | SignRegularFromEth _ _ =>
      (m1 = m2 ∧ o1 = o2 ∧ c1 = c2) ∨ clash blake2b (encodings m1 o1) (encodings m2 o2)
  end.
Proof.
  unfold signable in Hs1, Hs2.
  destruct (maybe_eth_address (msg_from m1)) as [f1|] eqn:Hf1,
           (maybe_eth_address (msg_from m2)) as [f2|] eqn:Hf2;
    try destruct (is_eth_addr_compat_no_masked (msg_to m1)) eqn:Ht1;
    try destruct (is_eth_addr_compat_no_masked (msg_to m2)) eqn:Ht2;
    apply outcome_bind_Done in Hs1 as (x & Hx & Hs1);
    apply outcome_bind_Done in Hs2 as (y & Hy & Hs2);
    apply (inj Done) in Hs1; apply (inj Done) in Hs2; subst s; try done;
    try (injection Hs2 as -> ->; by eapply regular_data_binds);
    try (injection Hs2 as ->; by eapply regular_data_binds).
  injection Hs2 as Hh ->. apply maybe_eth_Some in Hf1, Hf2.
  apply (transaction_binds m1 c1 x m2 c2 y); try done.
  - apply payload_inj. congruence.
  - by destruct (to_eth_transaction_request m1 c1); inversion Hx.
  - by destruct (to_eth_transaction_request m2 c2); inversion Hy.
Qed.

Lemma to_eth_tokens_opp z : u256 z → to_eth_tokens (- z) = to_eth_tokens z.
Proof.
  intros Hz. rewrite (to_eth_tokens_ok z) by done. unfold u256 in Hz. unfold to_eth_tokens.
  revert Hz. generalize u256_max. intros mx Hz.
  rewrite bool_decide_eq_false_2 by lia. rewrite bool_decide_eq_true_2 by lia. f_equal. lia.
Qed.

(** The message with other amounts and another version. *)
Definition tampered m (v : N) : FvmMessage :=
  MkFvmMessage v (msg_from m) (msg_to m) (sequence m) (- msg_value m) (method_num m) (params m)
    (gas_limit m) (- gas_fee_cap m) (- gas_premium m).

Lemma signable_tampered m o o' v c :
  is_Some (maybe_eth_address (msg_from m)) → is_eth_addr_compat_no_masked (msg_to m) = true →
  u256 (msg_value m) → u256 (gas_fee_cap m) → u256 (gas_premium m) →
  signable (tampered m v) o' c = signable m o c.
Proof.
  intros [a Ha] Ht Hv Hf Hp. unfold signable. cbn [tampered msg_from msg_to].
  rewrite Ha, Ht. unfold to_eth_transaction_request.
  cbn [tampered msg_from msg_to gas_fee_cap gas_premium msg_value params gas_limit sequence].
  rewrite !to_eth_tokens_opp by done.
  by rewrite (bool_decide_ext ((- msg_value m)%Z = 0%Z) (msg_value m = 0%Z)) by lia.
Qed.

(** Whatever an Ethereum signature is worth for a message, it is
    worth for the message with any other object, any other version and all amounts
    negated. *)
Lemma eth_signature_gaps m o o' v sig c
    (Hfrom : is_Some (maybe_eth_address (msg_from m)))
    (Hto : is_eth_addr_compat_no_masked (msg_to m) = true)
    (Hvalue : u256 (msg_value m)) (Hfee : u256 (gas_fee_cap m)) (Hpremium : u256 (gas_premium m)) :
  verify_signature (tampered m v) o' sig c = verify_signature m o sig c.
Proof.
  unfold verify_signature. rewrite (signable_tampered m o o' v c) by done.
  destruct Hfrom as [a Ha]. unfold signable. rewrite Ha, Hto.
  by destruct (to_eth_transaction_request m c).
Qed.

(** ** Signatures verify *)

Lemma sign_bytes sk h :
  sig_bytes (sign_secp256k1 sk h) = vec_to_list (sk_sign sk h).1 ++ [(sk_sign sk h).2].
Proof. unfold sign_secp256k1. destruct (sk_sign sk h). by rewrite sig_bytes_new. Qed.

Lemma sign_type sk h : sig_type (sign_secp256k1 sk h) = SigSecp256k1.
Proof. unfold sign_secp256k1. destruct (sk_sign sk h). by rewrite sig_type_new. Qed.

Lemma sign_length sk h : length (sig_bytes (sign_secp256k1 sk h)) = SECP_SIG_LEN.
Proof. by rewrite sign_bytes, length_app, length_vec_to_list. Qed.

Lemma recover_regular sk data :
  recover_secp256k1 (sign_regular sk data) data = Done (secret_public_key sk).
Proof.
  unfold recover_secp256k1, sign_regular. rewrite sign_length.
  rewrite bool_decide_eq_false_2 by (intros []; done). by rewrite sign_bytes, recover_signed.
Qed.

Lemma eth_signature_parts sk h v (r s : N) (normalized : bool) :
  parse_recovery_id (sk_sign sk h).2 = inr v → parse_standard (vec_to_list (sk_sign sk h).1) = inr (r, s) →
  to_eth_signature (sign_eth sk h) normalized = Done (MkEthSignature (v + (if normalized then 0 else 27)) r s).
Proof.
  intros Hv Hrs. unfold to_eth_signature, sign_eth. rewrite sign_type. unfold parse_secp256k1. rewrite sign_length.
  rewrite bool_decide_eq_false_2 by (intros []; done). rewrite sign_bytes.
  unfold index. rewrite lookup_app_r by (by rewrite length_vec_to_list).
  rewrite length_vec_to_list. rewrite take_app_length' by (by rewrite length_vec_to_list).
  unfold mbind, outcome_bind. simpl. by rewrite Hv, Hrs.
Qed.

Lemma eth_signature_of sk h normalized :
  ∃ es, to_eth_signature (sign_eth sk h) normalized =
      Done (MkEthSignature (eth_v es + (if normalized then 0 else 27)) (eth_r es) (eth_s es)) ∧
    eth_recover es h = inr (eth_of_key (secret_public_key sk)).
Proof.
  destruct (eth_recover_signed sk h) as (v & r & s & Hv & Hrs & Hrec).
  exists (MkEthSignature v r s). split; [|done]. by apply eth_signature_parts.
Qed.

Lemma eth_signature_signed sk h :
  ∃ es, to_eth_signature (sign_eth sk h) true = Done es ∧
    eth_recover es h = inr (eth_of_key (secret_public_key sk)).
Proof.
  destruct (eth_signature_of sk h true) as (es & Hes & Hrec). exists es. split; [|done].
  rewrite Hes, N.add_0_r. by destruct es.
Qed.

Lemma eth_signature_shifted sk h :
  ∃ es, to_eth_signature (sign_eth sk h) false = Done (MkEthSignature (eth_v es + 27) (eth_r es) (eth_s es)) ∧
    eth_recover es h = inr (eth_of_key (secret_public_key sk)).
Proof. apply (eth_signature_of sk h false). Qed.

(** A message signed with a key verifies on the same chain when its sender
    is the key's address, a Secp256k1 one or a delegated Ethereum one, and the method is
    one that is allowed where the Ethereum scheme is used. *)
Lemma sign_verify m o sk c sm
    (Hsign : signed_new_secp256k1 m o sk c = Done sm)
    (Hfrom : payload (msg_from m) = Secp256k1 (secp_address (secret_public_key sk)) ∨
             payload (msg_from m) = Delegated EAM_ACTOR_ID (vec_to_list (eth_of_key (secret_public_key sk))))
    (Hmethod : is_eth_addr_deleg (msg_from m) = true → is_eth_addr_compat_no_masked (msg_to m) = true →
               verify_eth_method m = Done tt) :
  verify sm c = Done tt.
Proof.
  unfold signed_new_secp256k1 in Hsign. apply outcome_bind_Done in Hsign as (s & Hs & Hsm).
  apply (inj Done) in Hsm as <-. unfold verify, verify_signature. cbn [message object signature].
  rewrite Hs. unfold mbind at 1, outcome_bind. unfold signable in Hs.
  destruct Hfrom as [Hp|Hp].
  - assert (maybe_eth_address (msg_from m) = None) as Hn by (unfold maybe_eth_address; by rewrite Hp).
    rewrite Hn in Hs. apply outcome_bind_Done in Hs as (d & _ & Hs). apply (inj Done) in Hs as <-.
    rewrite (verify_recovered _ _ (secret_public_key sk)); [done|apply sign_type|apply sign_length| |done].
    unfold sign_regular. by rewrite sign_bytes, recover_signed.
  - assert (maybe_eth_address (msg_from m) = Some (eth_of_key (secret_public_key sk))) as Hn
      by by apply maybe_eth_Some.
    unfold is_eth_addr_deleg in Hmethod. rewrite Hn in Hs, Hmethod.
    destruct (is_eth_addr_compat_no_masked (msg_to m)) eqn:Ht;
      apply outcome_bind_Done in Hs as (d & _ & Hs); apply (inj Done) in Hs as <-.
    + destruct (eth_signature_signed sk (sighash d)) as (es & Hes & Hrec).
      rewrite Hes. simpl. rewrite Hrec. simpl. rewrite bool_decide_eq_true_2 by done. by apply Hmethod.
    + rewrite recover_regular. simpl. by rewrite bool_decide_eq_true_2.
Qed.
End coverage.

(** ** A concrete instance

    A signature is the secret key itself, and the key is its own public key. *)

Module SampleCrypto.
Import SampleKeccak.

#[export] Instance Payload_countable : Countable Payload :=
  inj_countable'
    (λ p, match p with
          | ID id => inl id
          | Secp256k1 h => inr (inl h)
          | Actor h => inr (inr (inl h))
          | BLS k => inr (inr (inr (inl k)))
          | Delegated n s => inr (inr (inr (inr (n, s))))
          end)
    (λ p, match p with
          | inl id => ID id
          | inr (inl h) => Secp256k1 h
          | inr (inr (inl h)) => Actor h
          | inr (inr (inr (inl k))) => BLS k
          | inr (inr (inr (inr (n, s)))) => Delegated n s
          end)
    (λ p, match p with
          | ID _ | Secp256k1 _ | Actor _ | BLS _ | Delegated _ _ => eq_refl
          end).

#[export] Instance crypto_ids : ChainIds := {|
  Cid := Hash; Bytes := list byte; ActorAddress := Payload; Subnet := N; MultiSig := N;
  Signature := SignatureType * list byte
|}.

#[export] Instance crypto_keys : Keys := {|
  PublicKey := vec byte 64;
  pk_serialize k := x04 ::: k;
  pk_parse_slice bs := if bool_decide (length bs = 65%nat) then Some (vec_of_list (drop 1 bs)) else None
|}.

Fixpoint pos_bytes (p : positive) : list byte :=
  match p with
  | xH => [x01]
  | xO p => x00 :: pos_bytes p
  | xI p => x02 :: pos_bytes p
  end.

Lemma pos_bytes_inj p q : pos_bytes p = pos_bytes q → p = q.
Proof.
  revert q. induction p as [p IH|p IH|]; intros [q|q|]; simpl; intros [=]; f_equal; auto;
    try (by destruct p); by destruct q.
Qed.

Definition message_fields (m : FvmMessage) :=
  (version m, msg_from m, msg_to m, sequence m, msg_value m, method_num m, params m, gas_limit m,
   gas_fee_cap m, gas_premium m).

Definition target_code (t : option NameOrAddress) : option (string + EthAddress) :=
  (λ t, match t with Name n => inl n | EthAddr a => inr a end) <$> t.

Definition rlp_fields (t : Transaction) :=
  (target_code (tx_to t), default 0 (tx_gas t), default 0 (tx_value t), default [] (tx_data t),
   default 0 (tx_nonce t), default 0 (tx_max_priority_fee_per_gas t), default 0 (tx_max_fee_per_gas t),
   default 1 (tx_chain_id t)).

#[export] Instance crypto : Crypto := {|
  payload a := a;
  of_payload p := p;
  show_address _ := "address"%string;
  bytes_de b := inr b;
  bytes_ser d := inr d;
  message_to_vec m := inr (pos_bytes (countable.encode (message_fields m)));
  object_to_vec o := inr (pos_bytes (countable.encode o));
  blake2b := digest;
  new_v1_dag_cbor h := h;
  cid_bytes c := dag_cbor_prefix ++ vec_to_list c;
  new_signature t b := (t, b);
  sig_type s := s.1;
  sig_bytes s := s.2;
  signature_verify s _ a :=
    if bool_decide (s.1 = SigSecp256k1 ∧ a = Secp256k1 (take 64 s.2)) then inr tt
    else inl "invalid signature"%string;
  SecretKey := vec byte 64;
  secret_public_key k := k;
  sk_sign k _ := (k, x00);
  recover_secp_public_key _ b := inr (vec_of_list (take 64 b));
  parse_recovery_id b := inr (Byte.to_N b);
  parse_standard b := inr (from_be_bytes (take 32 b), from_be_bytes (drop 32 b));
  tx_rlp t := pos_bytes (countable.encode (rlp_fields t));
  tx_rlp_signed t s := pos_bytes (countable.encode (rlp_fields t)) ++ be_bytes 32 (eth_r s);
  eth_recover s _ :=
    inr (eth_of_key (vec_of_list (vec_to_list (be_bytes 32 (eth_r s)) ++ vec_to_list (be_bytes 32 (eth_s s)))));
  show_hash _ := "hash"%string
|}.

Lemma be_bytes_take (k : vec byte 64) :
  vec_to_list (be_bytes 32 (from_be_bytes (take 32 (vec_to_list k)))) = take 32 (vec_to_list k) ∧
  vec_to_list (be_bytes 32 (from_be_bytes (drop 32 (vec_to_list k)))) = drop 32 (vec_to_list k).
Proof.
  pose proof (be_bytes_inverse (take 32 (vec_to_list k))) as Ht.
  pose proof (be_bytes_inverse (drop 32 (vec_to_list k))) as Hd.
  rewrite length_take, length_vec_to_list in Ht. rewrite length_drop, length_vec_to_list in Hd. done.
Qed.

#[export, refine] Instance crypto_laws : CryptoLaws := {| secp_address k := vec_to_list k |}.
Proof.
  - done.
  - done.
  - by intros d b [= <-].
  - intros m m' b [= <-] [= Heq]. apply pos_bytes_inj, (inj countable.encode) in Heq.
    destruct m, m'. unfold message_fields in Heq. simpl in Heq. congruence.
  - intros o o' b [= <-] [= Heq]. by apply pos_bytes_inj, (inj countable.encode) in Heq.
  - done.
  - intros t u Ht Hu Heq. apply pos_bytes_inj, (inj countable.encode) in Heq.
    unfold rlp_fields in Heq. unfold same_rlp_fields. injection Heq as E1 -> -> -> -> -> -> ->.
    split_and!; try done. destruct (tx_to t) as [[]|], (tx_to u) as [[]|]; simpl in E1; congruence.
  - done.
  - done.
  - intros k h. simpl. rewrite take_app_length' by (by rewrite length_vec_to_list).
    by rewrite vec_of_list_to.
  - intros k h. do 3 eexists. split_and!; [done..|].
    cbn [eth_recover crypto eth_r eth_s sk_sign fst snd secret_public_key].
    destruct (be_bytes_take k) as [-> ->]. by rewrite take_drop, vec_of_list_to.
  - intros s data k a Ht Hl [= <-] Ha. cbn [payload sig_type sig_bytes crypto] in *. subst a.
    cbn [signature_verify crypto].
    rewrite to_vec_of_list by (rewrite length_take, Hl; done). by rewrite bool_decide_eq_true_2.
  - intros s data a. simpl. case_bool_decide as Hc; [|done]. destruct Hc as [_ ->]. done.
Defined.

Definition alice : vec byte 64 := vreplicate 64 x61.
Definition alice_key : SecretKey := alice.
Definition alice_eth : EthAddress := eth_of_key alice.
Definition alice_addr : Payload := Delegated EAM_ACTOR_ID (vec_to_list alice_eth).
Definition transfer : FvmMessage :=
  {| version := 0; msg_from := alice_addr; msg_to := ID EAM_ACTOR_ID; sequence := 3; msg_value := 5;
     method_num := CreateExternal; params := [x60; x80]; gas_limit := 1000; gas_fee_cap := 7;
     gas_premium := 1 |}.
Definition plain_transfer : FvmMessage :=
  {| version := 0; msg_from := Secp256k1 (vec_to_list alice); msg_to := ID 100; sequence := 0; msg_value := 5;
     method_num := 0; params := []; gas_limit := 1000; gas_fee_cap := 7; gas_premium := 1 |}.
Definition signed (m : FvmMessage) : SignedMessage :=
  done_or (MkSigned m None (SigBLS, [])) (signed_new_secp256k1 m None alice 31415926).
Definition signing (m : FvmMessage) : Signable :=
  done_or (SignRegular []) (signable m None 31415926).
Definition extra : ObjectMsg := MkObject [] hash_zero (ID 5).
End SampleCrypto.

Section witnesses.
Import SampleKeccak SampleCrypto.

Lemma alice_not_masked : is_masked_id alice_eth = false.
Proof. vm_compute. reflexivity. Defined.

Lemma eth_message_roundtrip_witness :
  ∃ tx, to_eth_transaction_request transfer 31415926 = Done tx ∧ tx_chain_id tx = Some 31415926 ∧
    to_fvm_message tx = Done transfer.
Proof.
  apply (eth_message_roundtrip transfer 31415926). split; try done.
  - left. exists alice_eth. split; [apply alice_not_masked|reflexivity].
  - right. by exists EAM_ACTOR_ID.
  - by exists [x60; x80].
Defined.

(** A message and one with another version and an object, which are signed alike, and a message with itself. *)
Lemma signable_binds_witness :
  ((31415926 = 31415926 ∧ same_transaction transfer (tampered transfer 9)) ∨
   clash keccak256 (rlp_encodings transfer 31415926) (rlp_encodings (tampered transfer 9) 31415926)) ∧
  ((plain_transfer = plain_transfer ∧ None = None (A:=ObjectMsg) ∧ 31415926 = 31415926) ∨
   clash blake2b (encodings plain_transfer None) (encodings plain_transfer None)).
Proof.
  split.
  - apply (signable_binds transfer None 31415926 (tampered transfer 9) (Some extra) 31415926 (signing transfer)); by vm_compute.
  - apply (signable_binds plain_transfer None 31415926 plain_transfer None 31415926
      (signing plain_transfer)); try done; apply done_or_eq; vm_compute; reflexivity.
Defined.

Lemma eth_signature_gaps_witness :
  verify_signature (tampered transfer 9) (Some extra)
    (signature (signed transfer)) 31415926 = Done tt.
Proof.
  rewrite (eth_signature_gaps transfer None (Some extra) 9
    (signature (signed transfer)) 31415926); done.
Defined.

Lemma sign_verify_witness : verify (signed transfer) 31415926 = Done tt.
Proof.
  apply (sign_verify transfer None alice_key 31415926).
  - apply done_or_eq. vm_compute. reflexivity.
  - by right.
  - done.
Defined.
End witnesses.
