(* ===== verification/Checkpoint.v ===== *)
(** * Bottom-up checkpoints

    [fendermint/vm/interpreter/src/fvm/checkpoint.rs], with the checkpointing half of the
    gateway caller of [fvm/state/ipc.rs]: creating a checkpoint at the end of a block,
    working out the changes of the validator set, and producing the signature of a
    validator together with the proof that it may sign.

    The calls of the gateway's contracts are behind the class [CheckpointGateway];
    [CheckpointLaws] states what the contracts promise about the books they keep. *)

From Stdlib Require Import Strings.Byte ZifyNat.
From stdpp Require Import vector.
From S2P Require Import Prelude OrdMap Weights Cache Voting Finality Node Fetch Syncer Merkle.
From S2P Require Import SubnetId MerkleStandard Validators Ledger Signing.

(** ** The contracts *)

(** [SubnetID] of the contracts. *)
Record EvmSubnetId := MkEvmSubnet { subnet_root : N; subnet_route : list EthAddress }.
#[export] Instance EvmSubnetId_eq_dec : EqDecision EvmSubnetId.
Proof. solve_decision. Defined.

(** [BottomUpCheckpoint] of the checkpointing and of the getter facet, which differ in the
    type of the messages. *)
Record Checkpoint (Envelope : Type) := MkCkpt {
  cp_subnet_id : EvmSubnetId;
  cp_block_height : N;
  cp_block_hash : Hash;
  cp_next_configuration_number : N;
  cp_msgs : list Envelope
}.
Arguments MkCkpt {_} _ _ _ _ _.
Arguments cp_subnet_id {_} _.
Arguments cp_block_height {_} _.
Arguments cp_block_hash {_} _.
Arguments cp_next_configuration_number {_} _.
Arguments cp_msgs {_} _.

Record BottomUpMsgBatch (Envelope : Type) := MkBatch {
  batch_block_height : N;
  batch_msgs : list Envelope
}.
Arguments MkBatch {_} _ _.
Arguments batch_block_height {_} _.
Arguments batch_msgs {_} _.

Class CheckpointGateway `{Machine} := {
  GATEWAY_ACTOR_ID : N;
  (* the built-in actors' manifest *)
  is_placeholder_actor : FvmState → Cid → bool;
  (* the message types of the two facets; the conversion goes through ABI tokens *)
  GetterEnvelope : Type;
  FacetEnvelope : Type;
  convert_envelope : GetterEnvelope → string + FacetEnvelope;
  facet_value : FacetEnvelope → N;
  (* calls of the getter facet *)
  get_network_name : stm FvmState string EvmSubnetId;
  get_bottom_up_check_period : stm FvmState string N;
  get_bottom_up_msg_batch : N → stm FvmState string (BottomUpMsgBatch GetterEnvelope);
  get_incomplete_checkpoints : stm FvmState string (list (Checkpoint GetterEnvelope));
  get_current_membership : stm FvmState string Membership;
  get_checkpoint_signature_bundle : N → stm FvmState string (list EthAddress);
  (* calls of the facets that change the ledger *)
  apply_finality_changes : stm FvmState string N;
  create_checkpoint_call : Checkpoint FacetEnvelope → Hash → N → stm FvmState string unit;
  (* encodings *)
  checkpoint_abi_hash : Checkpoint FacetEnvelope → Hash;
  Calldata : Type;
  add_checkpoint_signature : N → list Hash → N → EthSignature → option Calldata
}.

(** ** The gateway caller *)

Section gateway.
Context `{Profile, ParentData, ChainIds, !Machine, !CheckpointGateway}.
Context `{Keccak, Abi, Keys, EthText, !Crypto}.
Implicit Types (st : FvmExecState).

Definition enabled : stm FvmExecState string bool :=
  s ← reads fvm;
  actor ← lift (of_sum (tree_get_actor s GATEWAY_ACTOR_ID));
  mret (match actor with
        | None => false
        | Some a => negb (is_placeholder_actor s (actor_code a))
        end).

Definition subnet_id : stm FvmExecState string EvmSubnetId := on_fvm get_network_name.

Definition is_root : stm FvmExecState string bool :=
  id ← subnet_id; mret (bool_decide (subnet_route id = [])).

Definition bottom_up_check_period : stm FvmExecState string N :=
  period ← on_fvm get_bottom_up_check_period; lift (as_u64 period).

Definition bottom_up_msg_batch (height : N) : stm FvmExecState string (BottomUpMsgBatch GetterEnvelope) :=
  on_fvm (get_bottom_up_msg_batch height).

Definition u256_saturating_add (a b : N) : N := N.min (a + b) u256_max.

Definition total_power (power_table : list Validator) : N :=
  fold_left (λ p v, u256_saturating_add p (power v)) power_table 0.

Definition create_bottom_up_checkpoint (checkpoint : Checkpoint FacetEnvelope) (power_table : list Validator)
    : stm FvmExecState string unit :=
  tree ← lift (ValidatorMerkleTree_new power_table);
  root ← lift (root_hash tree);
  on_fvm (create_checkpoint_call checkpoint root (total_power power_table)).

Definition incomplete_checkpoints : stm FvmExecState string (list (Checkpoint GetterEnvelope)) :=
  on_fvm get_incomplete_checkpoints.

Definition apply_validator_changes : stm FvmExecState string N := on_fvm apply_finality_changes.

Definition current_membership : stm FvmExecState string Membership := on_fvm get_current_membership.

Definition current_power_table : stm FvmExecState string (N * list Validator) :=
  membership ← current_membership;
  scale ← reads (λ st, power_scale (updatable st));
  power_table ← lift (membership_to_power_table membership scale);
  mret (configuration_number membership, power_table).

Definition checkpoint_signatories (height : N) : stm FvmExecState string (list EthAddress) :=
  on_fvm (get_checkpoint_signature_bundle height).

Definition tokens_to_burn (msgs : list FacetEnvelope) : Z :=
  fold_left (λ total msg, (total + to_fvm_tokens (facet_value msg))%Z) msgs 0%Z.

Definition add_checkpoint_signature_calldata (checkpoint : Checkpoint FacetEnvelope)
    (power_table : list Validator) (validator : Validator) (secret_key : SecretKey)
    : outcome string Calldata :=
  if debug_assertions && negb (bool_decide (public_key validator = secret_public_key secret_key))
  then Panic
  else
    let hash := checkpoint_abi_hash checkpoint in
    sig ← to_eth_signature (sign_secp256k1 secret_key hash) false;
    tree ← ValidatorMerkleTree_new power_table;
    membership_proof ← prove tree validator;
    match add_checkpoint_signature (cp_block_height checkpoint) membership_proof (power validator) sig with
    | Some calldata => Done calldata
    | None => Fail "no calldata for adding signature"%string
    end.
End gateway.

(** ** Creating checkpoints *)

Section create.
Context `{Profile, ParentData, ChainIds, !Machine, !CheckpointGateway}.
Context `{Keccak, Abi, Keys, EthText, !Crypto, !HashOrder (vec byte 65)}.

(** The remainder of [u64] division. *)
Definition u64_rem {E} (a b : N) : outcome E N :=
  if bool_decide (b = 0) then Panic else Done (a `mod` b).

Definition should_create_checkpoint (height : N)
    : stm FvmExecState string (option (list FacetEnvelope * EvmSubnetId)) :=
  on ← enabled;
  if negb on then mret None
  else
    id ← subnet_id;
    if bool_decide (subnet_route id = []) then mret None
    else
      batch ← bottom_up_msg_batch height;
      batch_height ← lift (as_u64 (batch_block_height batch));
      due ← (if bool_decide (batch_height ≠ 0) then mret true
             else
               period ← bottom_up_check_period;
               r ← lift (u64_rem height period);
               mret (bool_decide (r = 0)));
      if negb due then mret None
      else
        msgs ← lift (convert_all convert_envelope (batch_msgs batch));
        mret (Some (msgs, id)).

Definition ipc_power_table : stm FvmExecState string (N * list Validator) := current_power_table.

(** [Height::try_from] of the block height, an [i64]. *)
Definition height_of (epoch : Z) : outcome string N :=
  if bool_decide (epoch < 0)%Z then Fail "block height is not u64"%string else Done (Z.to_N epoch).

Definition maybe_create_checkpoint
    : stm FvmExecState string (option (Checkpoint FacetEnvelope * list Validator)) :=
  epoch ← reads block_height;
  height ← lift (height_of epoch);
  hash ← reads exec_block_hash;
  match hash with
  | None => abort "block hash not set"%string
  | Some block_hash =>
      r ← should_create_checkpoint height;
      match r with
      | None => mret None
      | Some (msgs, subnet_id) =>
          curr ← ipc_power_table;
          let curr_power_table := curr.2 in
          next_configuration_number ← apply_validator_changes;
          let burnt_tokens := tokens_to_burn msgs in
          update_circ_supply (λ circ_supply, (circ_supply - burnt_tokens)%Z) ;;
          let checkpoint := {| cp_subnet_id := subnet_id;
                               cp_block_height := height;
                               cp_block_hash := block_hash;
                               cp_next_configuration_number := next_configuration_number;
                               cp_msgs := msgs |} in
          create_bottom_up_checkpoint checkpoint curr_power_table ;;
          power_updates ←
            (if bool_decide (next_configuration_number = 0) then mret []
             else
               next ← ipc_power_table;
               if debug_assertions && negb (bool_decide (next.1 = next_configuration_number))
               then lift Panic
               else mret (power_diff curr_power_table next.2));
          mret (Some (checkpoint, power_updates))
      end
  end.

(** Checkpoints without a quorum that the validator has not signed. *)
Fixpoint not_signed_by (validator_addr : EthAddress) (cps : list (Checkpoint GetterEnvelope))
    : stm FvmExecState string (list (Checkpoint GetterEnvelope)) :=
  match cps with
  | [] => mret []
  | cp :: cps =>
      height ← lift (as_u64 (cp_block_height cp));
      signatories ← checkpoint_signatories height;
      rest ← not_signed_by validator_addr cps;
      mret (if bool_decide (validator_addr ∈ signatories) then rest else cp :: rest)
  end.

Definition unsigned_checkpoints (validator_key : PublicKey)
    : stm FvmExecState string (list (Checkpoint GetterEnvelope)) :=
  cps ← incomplete_checkpoints;
  not_signed_by (eth_of_key validator_key) cps.
End create.

(** ** What the contracts promise *)

(** A call that leaves the state as it is: the getters are views. *)
Abbreviation is_view := (keeps eq).

Class CheckpointLaws `{Machine, !CheckpointGateway, Keys} := {
  view_network_name : is_view get_network_name;
  view_check_period : is_view get_bottom_up_check_period;
  view_msg_batch h : is_view (get_bottom_up_msg_batch h);
  view_incomplete : is_view get_incomplete_checkpoints;
  view_membership : is_view get_current_membership;
  view_signatures h : is_view (get_checkpoint_signature_bundle h);
  (* the books of the gateway: the membership and the checkpoints with the root of the
     validators' tree and their total power *)
  book_membership : FvmState → Membership;
  book_checkpoints : FvmState → gmap N (Checkpoint FacetEnvelope * Hash * N);
  membership_read s m s' : get_current_membership s = Done (m, s') → m = book_membership s;
  (* zero stands for no changes, another number for the adopted configuration *)
  changes_applied s n s' : apply_finality_changes s = Done (n, s') →
    book_checkpoints s' = book_checkpoints s ∧
    (n = 0 → book_membership s' = book_membership s) ∧
    (n ≠ 0 → configuration_number (book_membership s') = n);
  checkpoint_created ck root total s u s' : create_checkpoint_call ck root total s = Done (u, s') →
    book_checkpoints s' = <[cp_block_height ck := (ck, root, total)]> (book_checkpoints s) ∧
    book_membership s' = book_membership s
}.

Section transition.
Context `{Profile, ParentData, ChainIds, !Machine, !CheckpointGateway}.
Context `{Keccak, Abi, Keys, EthText, !Crypto, !HashOrder (vec byte 65), !CheckpointLaws}.
Implicit Types (st : FvmExecState) (s : FvmState).

(** The execution state with another machine state. *)
Definition with_fvm st s : FvmExecState :=
  MkExecState s (exec_block_hash st) (validator_id st) (updatable st) (params_dirty st).

Lemma on_fvm_Done {A} (tx : stm FvmState string A) st x st' :
  on_fvm tx st = Done (x, st') → ∃ s', tx (fvm st) = Done (x, s') ∧ st' = with_fvm st s'.
Proof.
  unfold on_fvm, zoom. destruct (tx (fvm st)) as [[y s']| | | |]; intros [=]; subst. by exists s'.
Qed.

Lemma on_fvm_view {A} (tx : stm FvmState string A) : is_view tx → is_view (on_fvm tx).
Proof. intros Hv st x st' (s' & <-%Hv & ->)%on_fvm_Done. by destruct st. Qed.

#[local] Hint Resolve on_fvm_view : keeps.
#[local] Hint Resolve view_network_name view_check_period view_msg_batch view_incomplete : keeps.
#[local] Hint Resolve view_membership view_signatures : keeps.

Lemma should_create_view h : is_view (should_create_checkpoint h).
Proof.
  unfold should_create_checkpoint, enabled, subnet_id, bottom_up_msg_batch, bottom_up_check_period.
  solve_keeps.
Qed.

Lemma power_table_view : is_view ipc_power_table.
Proof.
  unfold ipc_power_table, current_power_table, current_membership.
  solve_keeps.
Qed.

Lemma power_table_read st n table st' :
  ipc_power_table st = Done ((n, table), st') →
  st' = st ∧ n = configuration_number (book_membership (fvm st)) ∧
  membership_to_power_table (book_membership (fvm st)) (power_scale (updatable st)) = Done table.
Proof.
  intros Hr. pose proof (power_table_view _ _ _ Hr) as <-. split; [done|].
  unfold ipc_power_table, current_power_table, current_membership in Hr.
  apply stm_bind_Done in Hr as (m & st1 & Hm & Hr).
  apply on_fvm_Done in Hm as (s' & Hm & ->). pose proof (membership_read _ _ _ Hm) as ->.
  pose proof (view_membership _ _ _ Hm) as <-. inv_done. done.
Qed.

Lemma create_bottom_up_Done ck table st u st' :
  create_bottom_up_checkpoint ck table st = Done (u, st') →
  ∃ t r s', ValidatorMerkleTree_new table = Done t ∧ root_hash t = Done r ∧ st' = with_fvm st s' ∧
    book_checkpoints s' = <[cp_block_height ck := (ck, r, total_power table)]> (book_checkpoints (fvm st)) ∧
    book_membership s' = book_membership (fvm st).
Proof.
  unfold create_bottom_up_checkpoint. intros Hr.
  apply stm_bind_Done in Hr as (t & s1 & Ht & Hr). apply lift_Done in Ht as (t' & Ht & [= -> ->]).
  apply stm_bind_Done in Hr as (r & s2 & Hroot & Hr). apply lift_Done in Hroot as (r' & Hroot & [= -> ->]).
  apply on_fvm_Done in Hr as (s' & [Hb Hm]%checkpoint_created & ->). by exists t', r', s'.
Qed.

(** Updating a table by its difference to itself, which is empty, gives its members. *)
Lemma no_updates table :
  Forall (λ v, power v ≠ 0) table →
  apply_updates (into_power_map table) [] = filter (λ kv, power kv.2 ≠ 0) (into_power_map table).
Proof.
  rewrite Forall_forall. intros Hpos. symmetry. apply map_filter_id.
  intros k v Hv. apply Hpos. by apply into_power_map_in in Hv.
Qed.

(** The run of [maybe_create_checkpoint] that creates a checkpoint. *)
Lemma checkpoint_run st ck updates st' :
  maybe_create_checkpoint st = Done (Some (ck, updates), st') →
  let scale := power_scale (updatable st) in
  ∃ old new t r,
    membership_to_power_table (book_membership (fvm st)) scale = Done old ∧
    membership_to_power_table (book_membership (fvm st')) scale = Done new ∧
    ValidatorMerkleTree_new old = Done t ∧ root_hash t = Done r ∧
    Z.of_N (cp_block_height ck) = block_height st ∧ exec_block_hash st = Some (cp_block_hash ck) ∧
    book_checkpoints (fvm st') =
      <[cp_block_height ck := (ck, r, total_power old)]> (book_checkpoints (fvm st)) ∧
    circ_supply st' = (circ_supply st - tokens_to_burn (cp_msgs ck))%Z ∧
    (Forall (λ v, power v ≠ 0) old →
     apply_updates (into_power_map old) updates = filter (λ kv, power kv.2 ≠ 0) (into_power_map new)).
Proof.
  intros Hrun scale. unfold maybe_create_checkpoint in Hrun.
  apply stm_bind_Done in Hrun as (ep & s0 & [= <- <-] & Hrun).
  apply stm_bind_Done in Hrun as (h & s1 & Hh & Hrun). apply lift_Done in Hh as (h' & Hh & [= -> ->]).
  apply stm_bind_Done in Hrun as (hash & s2 & [= <- <-] & Hrun).
  destruct (exec_block_hash st) as [bh|] eqn:Hbh; [|done].
  apply stm_bind_Done in Hrun as (d & s3 & Hs & Hrun). pose proof (should_create_view _ _ _ _ Hs) as <-.
  destruct d as [[msgs sid]|]; [|done].
  apply stm_bind_Done in Hrun as ([n0 old] & s4 & Hold & Hrun). apply power_table_read in Hold as (-> & -> & Hold).
  apply stm_bind_Done in Hrun as (n & s5 & Hn & Hrun).
  apply on_fvm_Done in Hn as (sa & (Hb1 & Hz & Hnz)%changes_applied & ->).
  apply stm_bind_Done in Hrun as (u & s6 & [= <- <-] & Hrun).
  apply stm_bind_Done in Hrun as (u' & s7 & Hc & Hrun).
  apply create_bottom_up_Done in Hc as (t & r & sb & Ht & Hr & -> & Hb2 & Hm2).
  cbn [fvm with_fvm cp_block_height] in Hb2, Hm2.
  apply stm_bind_Done in Hrun as (ups & s8 & Hup & [= <- <- <-]). cbn [snd] in *.
  assert (Z.of_N h' = block_height st) as Hheight.
  { clear -Hh. unfold height_of in Hh. case_bool_decide; [done|]. apply (inj Done) in Hh. lia. }
  case_bool_decide as Hnum.
  - injection Hup as <- <-. exists old, old, t, r. cbn [fvm with_fvm circ_supply updatable].
    rewrite Hm2, Hz, Hb2, Hb1 by done. split_and!; try done. apply no_updates.
  - apply stm_bind_Done in Hup as ([n1 new] & s9 & Hnew & Hup).
    apply power_table_read in Hnew as (-> & -> & Hnew). cbn [fst snd] in Hup.
    case_match; [done|]. injection Hup as <- <-.
    exists old, new, t, r. cbn [fvm with_fvm circ_supply updatable power_scale] in *.
    rewrite Hb2, Hb1. split_and!; try done. apply power_diff_applied.
Qed.

(** C20: when a checkpoint is created at the end of a block, it has the
    block's height and hash and is stored with the root of the tree and the total power of
    the validators as they were before the changes of this period; the value of its
    messages leaves the circulating supply; and the power updates returned to consensus
    turn the old validator set into the one the gateway now has. *)
Theorem checkpoint_transition st ck updates st'
    (Hrun : maybe_create_checkpoint st = Done (Some (ck, updates), st')) :
  let scale := power_scale (updatable st) in
  ∃ old new t r,
    membership_to_power_table (book_membership (fvm st)) scale = Done old ∧
    membership_to_power_table (book_membership (fvm st')) scale = Done new ∧
    ValidatorMerkleTree_new old = Done t ∧ root_hash t = Done r ∧
    Z.of_N (cp_block_height ck) = block_height st ∧ exec_block_hash st = Some (cp_block_hash ck) ∧
    book_checkpoints (fvm st') =
      <[cp_block_height ck := (ck, r, total_power old)]> (book_checkpoints (fvm st)) ∧
    circ_supply st' = (circ_supply st - tokens_to_burn (cp_msgs ck))%Z ∧
    (Forall (λ v, power v ≠ 0) old →
     apply_updates (into_power_map old) updates = filter (λ kv, power kv.2 ≠ 0) (into_power_map new)).
Proof. by apply checkpoint_run. Qed.

(** What a validator of the old set sends for a checkpoint
    that was created passes the gateway's checks: its weight comes with a proof that
    validates against the root stored with the checkpoint, and its signature recovers to
    the validator's address. *)
Lemma checkpoint_signature_accepted `{!CryptoLaws} st ck updates st' old v sk calldata
    (Hrun : maybe_create_checkpoint st = Done (Some (ck, updates), st'))
    (Hold : membership_to_power_table (book_membership (fvm st)) (power_scale (updatable st)) = Done old)
    (Hlen : (2 * Z.of_nat (length old) ≤ i32_max)%Z)
    (Hv : v ∈ old) (Hkey : public_key v = secret_public_key sk)
    (Hdata : add_checkpoint_signature_calldata ck old v sk = Done calldata) :
  ∃ prf sig root total,
    add_checkpoint_signature (cp_block_height ck) prf (power v) sig = Some calldata ∧
    book_checkpoints (fvm st') !! cp_block_height ck = Some (ck, root, total) ∧
    validate_proof v root prf = Done true ∧
    eth_recover (MkEthSignature (eth_v sig - 27) (eth_r sig) (eth_s sig)) (checkpoint_abi_hash ck) =
      inr (eth_of_key (public_key v)).
Proof.
  destruct (checkpoint_run _ _ _ _ Hrun) as (old' & new & t & r & Hold' & _ & Ht & Hr & _ & _ & Hb & _).
  assert (old' = old) as -> by (apply (inj (Done (E:=string))); congruence).
  unfold add_checkpoint_signature_calldata in Hdata.
  rewrite (bool_decide_eq_true_2 _ Hkey), andb_false_r, Ht in Hdata.
  apply outcome_bind_Done in Hdata as (sig & Hsig & Hdata). unfold mbind at 1, outcome_bind in Hdata.
  apply outcome_bind_Done in Hdata as (prf & Hprf & Hdata).
  destruct (prove_validates old t v Ht Hlen Hv) as (prf' & r' & Hp & Hr' & Hok).
  assert (prf' = prf) as -> by (apply (inj (Done (E:=string))); congruence).
  assert (r' = r) as -> by (apply (inj (Done (E:=string))); congruence).
  exists prf, sig, r, (total_power old). split_and!; [|by rewrite Hb, lookup_insert_eq|done|].
  - destruct (add_checkpoint_signature _ _ _ _); [congruence|done].
  - rewrite Hkey. destruct (eth_signature_shifted sk (checkpoint_abi_hash ck)) as (es & Hes & Hrec).
    unfold sign_eth in Hes. rewrite Hsig in Hes. injection Hes as ->. by cbn; rewrite N.add_sub; destruct es.
Qed.
End transition.

(** ** A concrete instance

    A ledger with a membership, a pending one, the checkpoints and the actors. *)

Module SampleLedger.
Import SampleKeccak SampleAbi SampleCrypto.
#[export] Existing Instances SampleValidators.sample_text SampleValidators.sample_order.
#[export] Existing Instance dev_profile.
#[export] Existing Instance sample_data.

Record ledger := MkLedger {
  l_members : Membership;
  l_pending : option Membership;
  l_checkpoints : gmap N (Checkpoint N * Hash * N);
  l_actors : gmap N ActorState;
  l_epoch : Z
}.

Definition apply_pending : stm ledger string N := λ l,
  match l_pending l with
  | None => Done (0, l)
  | Some m =>
      if bool_decide (configuration_number m = 0) then Done (0, l)
      else Done (configuration_number m, MkLedger m None (l_checkpoints l) (l_actors l) (l_epoch l))
  end.

Definition store_checkpoint (ck : Checkpoint N) (root : Hash) (total : N) : stm ledger string unit := λ l,
  Done (tt, MkLedger (l_members l) (l_pending l) (<[cp_block_height ck := (ck, root, total)]> (l_checkpoints l))
    (l_actors l) (l_epoch l)).

Definition receipt : ApplyRet := MkRet 0 [] 0 None [].

#[export] Instance ledger_machine : Machine := {|
  FvmState := ledger;
  decode_object _ := inr None;
  ExitCode_OK := 0;
  SYS_SENDER_INVALID := 1;
  SYS_SENDER_STATE_INVALID := 2;
  SYS_ASSERTION_FAILED := 10;
  cid_to_bytes _ := 0;
  SYSTEM_ACTOR_ADDR := ID 0;
  GATEWAY_ACTOR_ADDR := ID 64;
  METHOD_INVOKE_CONTRACT := InvokeContract;
  GetObject := 1;
  ResolveObject := 2;
  BLOCK_GAS_LIMIT := 10000000000;
  raw_bytes_default := [];
  serialize_get_params k := inr k;
  serialize_resolve_params k _ := inr k;
  cid_of_relayed _ := inr hash_zero;
  block_hash_len _ := 32;
  envelope_value m := Z.of_N m;
  EvmChange := N;
  change_to_evm c := Done c;
  EvmEnvelope := N;
  envelope_to_evm m := Done m;
  message_check m := if bool_decide (gas_limit m = 0) then Some "no gas"%string else None;
  message_length _ := inr 0;
  context_epoch := l_epoch;
  context_timestamp _ := 0;
  context_chain_id _ := 31415926;
  tree_lookup_id l a := inr match a with ID n => Some n | Secp256k1 _ => Some 100 | _ => None end;
  tree_get_actor l n := inr (l_actors l !! n);
  tree_set_actor n a l := MkLedger (l_members l) (l_pending l) (l_checkpoints l) (<[n := a]> (l_actors l)) (l_epoch l);
  executor_execute _ _ _ := λ l, Done (receipt, l);
  executor_flush := λ l, Done (hash_zero, l);
  gateway_commit_parent_finality f := λ l, Done ((false, f), l);
  gateway_store_validator_changes _ := λ l, Done (tt, l);
  gateway_apply_cross_messages _ := λ l, Done (MkApplyRet receipt (ID 0) (ID 64) 0 0 ∅, l);
  credit_gateway_actor _ := λ l, Done (tt, l)
|}.

#[export] Instance ledger_gateway : CheckpointGateway := {|
  GATEWAY_ACTOR_ID := 64;
  is_placeholder_actor _ _ := false;
  GetterEnvelope := N;
  FacetEnvelope := N;
  convert_envelope n := inr n;
  facet_value n := n;
  get_network_name := λ l, Done (MkEvmSubnet 123 [null_address], l);
  get_bottom_up_check_period := λ l, Done (10, l);
  get_bottom_up_msg_batch h := λ l, Done (MkBatch 0 [3; 4], l);
  get_incomplete_checkpoints := λ l, Done ((map_to_list (l_checkpoints l)).*2.*1.*1, l);
  get_current_membership := λ l, Done (l_members l, l);
  get_checkpoint_signature_bundle _ := λ l, Done ([], l);
  apply_finality_changes := apply_pending;
  create_checkpoint_call := store_checkpoint;
  checkpoint_abi_hash ck := digest (vec_to_list (cp_block_hash ck));
  Calldata := N * list Hash * N * EthSignature;
  add_checkpoint_signature h p w s := Some (h, p, w, s)
|}.

#[export, refine] Instance ledger_laws : CheckpointLaws := {|
  book_membership := l_members;
  book_checkpoints := l_checkpoints
|}.
Proof.
  1,2,4,5: by intros s x s' [= _ ->].
  1,2: by intros h s x s' [= _ ->].
  - by intros s m s' [= <- _].
  - intros s n s'. simpl. unfold apply_pending.
    destruct (l_pending s) as [m|]; [case_bool_decide|]; intros [= <- <-]; by split_and!.
  - by intros ck root total s u s' [= _ <-].
Defined.

Definition bob : vec byte 64 := vreplicate 64 x62.
Definition member (k : vec byte 64) (w : N) : MemberValidator :=
  MkMember (w * 10 ^ 18) (x04 :: vec_to_list k).
Definition members_1 : Membership := MkMembership 1 [member alice 5; member bob 7].
Definition members_2 : Membership := MkMembership 2 [member bob 9].
Definition gateway_actor : ActorState := MkActor hash_zero hash_zero 0 0 None.
Definition user_actor : ActorState := MkActor hash_zero hash_zero 4 1000 None.
Definition genesis : ledger :=
  MkLedger members_1 (Some members_2) ∅ (<[64 := gateway_actor]> (<[100 := user_actor]> ∅)) 20.
Definition exec : FvmExecState :=
  MkExecState genesis (Some hash_zero) None (MkUpdatable 0 0 100 0) false.

Definition created : option (Checkpoint N * list Validator) * FvmExecState :=
  done_or (None, exec) (maybe_create_checkpoint exec).
Definition created_checkpoint : Checkpoint FacetEnvelope :=
  default (MkCkpt (MkEvmSubnet 0 []) 0 hash_zero 0 []) (fst <$> created.1).
Definition created_updates : list Validator := default [] (snd <$> created.1).
Definition old_table : list Validator := done_or [] (membership_to_power_table members_1 0).
Definition bob_validator : Validator := MkValidator bob 7.
Definition bob_key : SecretKey := bob.
Definition bob_calldata : Calldata :=
  done_or (0, [], 0, MkEthSignature 0 0 0)
    (add_checkpoint_signature_calldata created_checkpoint old_table bob_validator bob_key).
End SampleLedger.

Section witnesses.
Import SampleKeccak SampleAbi SampleCrypto SampleLedger.

Definition has_value {A S} (r : option A * S) : bool := match r.1 with Some _ => true | None => false end.

Lemma has_value_pair {A B S} (r : option (A * B) * S) da db :
  has_value r = true → r = (Some (default da (fst <$> r.1), default db (snd <$> r.1)), r.2).
Proof. by destruct r as [[[]|] ?]. Defined.

Lemma created_runs : maybe_create_checkpoint exec = Done (Some (created_checkpoint, created_updates), created.2).
Proof.
  transitivity (Done (E:=string) created).
  - apply done_or_eq. vm_compute. reflexivity.
  - apply (f_equal Done). apply has_value_pair. vm_compute. reflexivity.
Defined.

Lemma checkpoint_transition_witness :
  ∃ old new t r,
    membership_to_power_table (book_membership (fvm exec)) 0 = Done old ∧
    membership_to_power_table (book_membership (fvm created.2)) 0 = Done new ∧
    ValidatorMerkleTree_new old = Done t ∧ root_hash t = Done r ∧
    Z.of_N (cp_block_height created_checkpoint) = block_height exec ∧
    exec_block_hash exec = Some (cp_block_hash created_checkpoint) ∧
    book_checkpoints (fvm created.2) =
      <[cp_block_height created_checkpoint := (created_checkpoint, r, total_power old)]>
        (book_checkpoints (fvm exec)) ∧
    circ_supply created.2 = (circ_supply exec - tokens_to_burn (cp_msgs created_checkpoint))%Z ∧
    (Forall (λ v, power v ≠ 0) old →
     apply_updates (into_power_map old) created_updates =
       filter (λ kv, power kv.2 ≠ 0) (into_power_map new)).
Proof.
  apply (checkpoint_transition exec created_checkpoint created_updates created.2). apply created_runs.
Defined.

Lemma checkpoint_signature_accepted_witness :
  ∃ prf sig root total,
    add_checkpoint_signature (cp_block_height created_checkpoint) prf (power bob_validator) sig = Some bob_calldata ∧
    book_checkpoints (fvm created.2) !! cp_block_height created_checkpoint =
      Some (created_checkpoint, root, total) ∧
    validate_proof bob_validator root prf = Done true ∧
    eth_recover (MkEthSignature (eth_v sig - 27) (eth_r sig) (eth_s sig))
      (checkpoint_abi_hash created_checkpoint) = inr (eth_of_key (public_key bob_validator)).
Proof.
  apply (checkpoint_signature_accepted exec created_checkpoint created_updates created.2 old_table
    bob_validator bob_key bob_calldata).
  - apply created_runs.
  - apply done_or_eq. vm_compute. reflexivity.
  - vm_compute. discriminate.
  - apply (bool_decide_unpack _). vm_compute. exact I.
  - reflexivity.
  - apply done_or_eq. vm_compute. reflexivity.
Defined.
End witnesses.
