(* ===== verification/Broadcast.v ===== *)
(** * Broadcasting checkpoint signatures

    The asynchronous half of [fendermint/vm/interpreter/src/fvm/checkpoint.rs] and the
    transaction broadcaster of [fvm/broadcast.rs]: waiting for a block to be committed,
    looking up who may sign, and sending a transaction with a bounded number of retries.

    The CometBFT node is behind the class [Comet]: a world that changes with every
    request. *)

From Stdlib Require Import Strings.Byte.
From stdpp Require Import vector pretty.
From S2P Require Import Prelude OrdMap Weights Cache Voting Finality Node Fetch Syncer Merkle.
From S2P Require Import SubnetId MerkleStandard Validators Ledger Signing Checkpoint.

Record GasParams := MkGasParams { gp_gas_limit : N; gp_gas_fee_cap : Z; gp_gas_premium : Z }.

(** The response to a transaction: its code, and the hash it is known by. *)
Record TxResponse := MkTxResponse { tx_code : N; tx_response_data : string; tx_hash : Hash }.

Class Comet `{CheckpointGateway, Keys, !Crypto} := {
  World : Type;
  sleep : World → World;
  (* requests to the node: status, commits and validator sets *)
  status_catching_up : io World string bool;
  latest_commit : io World string N;
  bft_validators : N → io World string (list ((string + PublicKey) * N));
  (* queries of the ledger's pending and committed state *)
  pending_sequence : ActorAddress → io World string (option N);
  estimate_gas : ActorAddress → Calldata → Z → GasParams → io World string (N * N * string);
  (* a signed transaction, from the key and address with the sequence number *)
  tx_sync_invoke : SecretKey → ActorAddress → N → N → ActorAddress → Calldata → Z → GasParams →
                   io World string TxResponse;
  (* a gas limit multiplied by the overestimation rate, in floating point *)
  overestimate : N → N;
  SYS_INSUFFICIENT_FUNDS : N;
  USR_INSUFFICIENT_FUNDS : N;
  SYS_OUT_OF_GAS : N
}.

Section broadcast.
Context `{Profile, ParentData, ChainIds, !Machine, !CheckpointGateway}.
Context `{Keccak, Abi, Keys, EthText, !Crypto, !Comet}.

(** [builtin_actor_eth_addr] of [actor_interface/src/init.rs]. *)
Definition builtin_actor_eth_addr (id : N) : EthAddress :=
  vec_of_list (drop 12 (vec_to_list (keccak256 (vec_to_list (from_id id))))).

Record Broadcaster := MkBroadcaster {
  b_secret_key : SecretKey;
  b_addr : ActorAddress;
  b_gas_fee_cap : Z;
  b_gas_premium : Z;
  b_max_retries : nat
}.

Record ValidatorContext := MkValidatorContext {
  vc_secret_key : SecretKey;
  vc_public_key : PublicKey;
  vc_broadcaster : Broadcaster
}.

Definition validator_context_new (sk : SecretKey) (b : Broadcaster) : ValidatorContext :=
  MkValidatorContext sk (secret_public_key sk) b.

Definition can_retry (code : N) : bool :=
  if bool_decide (code = SYS_SENDER_INVALID) then false
  else if bool_decide (code = SYS_SENDER_STATE_INVALID) then true
  else false.

Definition broadcaster_sequence (b : Broadcaster) : io World string N :=
  r ← pending_sequence (b_addr b);
  match r with
  | Some sequence => mret sequence
  | None => io_of (Fail ("broadcaster actor " +:+ show_address (b_addr b) +:+ " cannot be found")%string)
  end.

(** One round of the loop: fetch the nonce, estimate the gas, send. *)
Definition invoke_once (b : Broadcaster) (contract : ActorAddress) (calldata : Calldata) (chain_id : N)
    : io World string ((N * string) + Hash) :=
  sequence ← broadcaster_sequence b;
  let gas_params := MkGasParams BLOCK_GAS_LIMIT (b_gas_fee_cap b) (b_gas_premium b) in
  estimate ← estimate_gas contract calldata 0 gas_params;
  let '(exit_code, limit, info) := estimate in
  if bool_decide (exit_code = ExitCode_OK) then
    let gas_params := MkGasParams (overestimate limit) (b_gas_fee_cap b) (b_gas_premium b) in
    res ← tx_sync_invoke (b_secret_key b) (b_addr b) sequence chain_id contract calldata 0 gas_params;
    mret (if bool_decide (tx_code res ≠ 0)
          then inl (tx_code res, ("broadcasted transaction failed during check: " +:+
                                  pretty (tx_code res) +:+ "; data = " +:+ tx_response_data res)%string)
          else inr (tx_hash res))
  else io_of (Fail ("failed to estimate gas: " +:+ pretty exit_code +:+ " - " +:+ info)%string).

(** The [retry!] loop, with the retries that are left. *)
Fixpoint retry_loop (retries : nat) (b : Broadcaster) (contract : ActorAddress) (calldata : Calldata)
    (chain_id : N) : io World string Hash :=
  r ← invoke_once b contract calldata chain_id;
  match r with
  | inr hash => mret hash
  | inl (code, msg) =>
      match retries with
      | O => io_of (Fail msg)
      | S retries =>
          if can_retry code then
            (λ w, (Done tt, sleep w)) ;; retry_loop retries b contract calldata chain_id
          else io_of (Fail msg)
      end
  end.

Definition fevm_invoke (b : Broadcaster) (contract : ActorAddress) (calldata : Calldata) (chain_id : N)
    : io World string Hash :=
  retry_loop (b_max_retries b) b contract calldata chain_id.

Definition broadcast_signature (b : Broadcaster) (checkpoint : Checkpoint FacetEnvelope)
    (power_table : list Validator) (validator : Validator) (secret_key : SecretKey) (chain_id : N)
    : io World string unit :=
  calldata ← io_of (add_checkpoint_signature_calldata checkpoint power_table validator secret_key);
  fevm_invoke b (to_fvm_address (builtin_actor_eth_addr GATEWAY_ACTOR_ID)) calldata chain_id ;;
  mret tt.

Fixpoint wait_for_commit (fuel : nat) (block_height : N) : io World string unit :=
  match fuel with
  | O => io_of OutOfFuel
  | S fuel =>
      h ← latest_commit;
      if bool_decide (block_height ≤ h) then mret tt
      else (λ w, (Done tt, sleep w)) ;; wait_for_commit fuel block_height
  end.

Fixpoint parse_validators (vs : list ((string + PublicKey) * N)) : outcome string (list Validator) :=
  match vs with
  | [] => Done []
  | (key, p) :: vs =>
      k ← of_sum key;
      rest ← parse_validators vs;
      Done (MkValidator k p :: rest)
  end.

Definition bft_power_table (height : N) : io World string (list Validator) :=
  vs ← bft_validators height;
  io_of (parse_validators vs).

(** [Height::try_from(u64)]. *)
Definition height_try_from (h : N) : outcome string N :=
  if bool_decide (h ≤ 9223372036854775807) then Done h else Fail "integer overflow"%string.

Definition facet_checkpoint (cp : Checkpoint GetterEnvelope) : outcome string (Checkpoint FacetEnvelope) :=
  msgs ← convert_all convert_envelope (cp_msgs cp);
  Done (MkCkpt (cp_subnet_id cp) (cp_block_height cp) (cp_block_hash cp)
    (cp_next_configuration_number cp) msgs).

Fixpoint sign_all (ctx : ValidatorContext) (chain_id : N) (cps : list (Checkpoint GetterEnvelope))
    : io World string unit :=
  match cps with
  | [] => mret tt
  | cp :: cps =>
      h ← io_of (as_u64 (cp_block_height cp));
      height ← io_of (height_try_from h);
      power_table ← bft_power_table height;
      (match List.find (λ v, bool_decide (public_key v = vc_public_key ctx)) power_table with
       | Some validator =>
           checkpoint ← io_of (facet_checkpoint cp);
           broadcast_signature (vc_broadcaster ctx) checkpoint power_table validator
             (vc_secret_key ctx) chain_id
       | None => mret tt
       end) ;;
      sign_all ctx chain_id cps
  end.

Definition highest (cps : list (Checkpoint GetterEnvelope)) : option N :=
  match cps with
  | [] => None
  | cp :: cps => Some (fold_left N.max (cp_block_height <$> cps) (cp_block_height cp))
  end.

Definition broadcast_incomplete_signatures (fuel : nat) (ctx : ValidatorContext) (chain_id : N)
    (cps : list (Checkpoint GetterEnvelope)) : io World string unit :=
  (match highest cps with
   | Some top =>
       h ← io_of (as_u64 top);
       next ← io_of (u64_add h 1);
       wait_for_commit fuel next
   | None => mret tt
   end) ;;
  sign_all ctx chain_id cps.

Definition syncing : io World string bool :=
  r ← attempt status_catching_up;
  mret (match r with inr catching_up => catching_up | inl _ => true end).
End broadcast.

(** ** Bounds *)

Section bounded.
Context `{Profile, ParentData, ChainIds, !Machine, !CheckpointGateway}.
Context `{Keccak, Abi, Keys, EthText, !Crypto, !Comet}.

(** How many transactions were sent; only sending one counts. *)
Record counts (sent : World → nat) : Prop := {
  count_tx sk a s c t d v g w : sent (tx_sync_invoke sk a s c t d v g w).2 = S (sent w);
  count_sleep w : sent (sleep w) = sent w;
  count_pending a w : sent (pending_sequence a w).2 = sent w;
  count_estimate a d v g w : sent (estimate_gas a d v g w).2 = sent w
}.

Lemma invoke_once_count sent b contract calldata chain_id w :
  counts sent →
  (sent (invoke_once b contract calldata chain_id w).2 ≤ S (sent w))%nat ∧
  (∀ r w', invoke_once b contract calldata chain_id w = (Done r, w') → sent w' = S (sent w)).
Proof.
  intros [Htx _ Hp He]. unfold invoke_once, broadcaster_sequence, mbind, io_bind.
  pose proof (Hp (b_addr b) w) as Hp'.
  destruct (pending_sequence (b_addr b) w) as [[[n|]| | | |] w1]; cbn in *; try (split; [lia|done]).
  pose proof (He contract calldata 0%Z (MkGasParams BLOCK_GAS_LIMIT (b_gas_fee_cap b) (b_gas_premium b)) w1) as He'.
  destruct (estimate_gas _ _ _ _ w1) as [[[[code limit] info]| | | |] w2]; cbn in *; try (split; [lia|done]).
  case_bool_decide; cbn; [|split; [lia|done]].
  match goal with |- context [tx_sync_invoke ?sk ?a ?s ?c ?t ?d ?v ?g ?w] =>
    pose proof (Htx sk a s c t d v g w) as Ht; destruct (tx_sync_invoke sk a s c t d v g w) as [[res| | | |] w3] end;
    cbn in *; (split; [lia|]); intros r w' [=]; subst; lia.
Qed.

Lemma retry_loop_count sent retries b contract calldata chain_id w :
  counts sent →
  (sent (retry_loop retries b contract calldata chain_id w).2 ≤ sent w + S retries)%nat ∧
  (∀ r w', retry_loop retries b contract calldata chain_id w = (Done r, w') → (sent w < sent w')%nat).
Proof.
  intros Hc. revert w. induction retries as [|retries IH]; intros w; cbn [retry_loop];
    destruct (invoke_once_count sent b contract calldata chain_id w Hc) as [Hle Hdone];
    unfold mbind, io_bind, mret, io_ret, io_of;
    destruct (invoke_once b contract calldata chain_id w) as [[[[code msg]|hash]| | | |] w1];
    cbn [snd] in *; try (split; [lia|by intros ??]);
    try (specialize (Hdone _ _ eq_refl); split; [cbn [snd]; lia|intros ?? [=]; subst; lia]).
  specialize (Hdone _ _ eq_refl).
  destruct (can_retry code); cbn [snd]; [|split; [lia|done]].
  destruct (IH (sleep w1)) as [IH1 IH2]. destruct Hc as [_ Hs _ _]. rewrite Hs in IH1, IH2.
  split; [lia|]. intros r w' Hr. apply IH2 in Hr. lia.
Qed.

(** A call of the broadcaster sends at most one transaction more
    than the retries it is allowed, and at least one when it returns a hash. *)
Lemma fevm_invoke_bounded sent b contract calldata chain_id w (Hcounts : counts sent) :
  (sent (fevm_invoke b contract calldata chain_id w).2 ≤ sent w + S (b_max_retries b))%nat ∧
  (∀ h w', fevm_invoke b contract calldata chain_id w = (Done h, w') → (sent w < sent w')%nat).
Proof. apply retry_loop_count, Hcounts. Qed.

(** The node reports a commit at [h] or above after some polls. *)
Inductive commits_by (h : N) : nat → World → Prop :=
| commits_now w c w' : latest_commit w = (Done c, w') → h ≤ c → commits_by h 0 w
| commits_later w c w' n :
    latest_commit w = (Done c, w') → c < h → commits_by h n (sleep w') → commits_by h (S n) w.

(** Waiting ends when the node gets there. *)
Lemma wait_for_commit_returns h n fuel w :
  commits_by h n w → (n < fuel)%nat → ∃ w', wait_for_commit fuel h w = (Done tt, w').
Proof.
  intros Hc. revert fuel. induction Hc as [w c w' Hl Hle|w c w' n Hl Hlt _ IH]; intros [|fuel] Hf;
    try lia; cbn [wait_for_commit]; unfold mbind, io_bind; rewrite Hl.
  - rewrite bool_decide_eq_true_2 by done. by eexists.
  - rewrite bool_decide_eq_false_2 by lia. apply IH. lia.
Qed.
End bounded.

(** ** A concrete instance

    A node that refuses the first transaction because of its nonce; the world counts the
    transactions. *)

Module SampleComet.
Import SampleKeccak SampleAbi SampleCrypto SampleLedger.

#[export] Instance comet : Comet := {|
  World := nat;
  sleep w := w;
  status_catching_up w := (Done false, w);
  latest_commit w := (Done 21, w);
  bft_validators _ w := (Done [(inr bob, 7)], w);
  pending_sequence _ w := (Done (Some (N.of_nat w)), w);
  estimate_gas _ _ _ _ w := (Done (0, 100, ""%string), w);
  tx_sync_invoke _ _ _ _ _ _ _ _ w :=
    (Done (MkTxResponse (if bool_decide (w = 0%nat) then SYS_SENDER_STATE_INVALID else 0) "" hash_zero), S w);
  overestimate n := n + n / 4;
  SYS_INSUFFICIENT_FUNDS := 6;
  USR_INSUFFICIENT_FUNDS := 19;
  SYS_OUT_OF_GAS := 7
|}.

Definition sent_so_far : World → nat := λ w : nat, w.

Lemma comet_counts : counts sent_so_far.
Proof. by split. Defined.

Definition relayer : Broadcaster := MkBroadcaster bob_key (ID 100) 1 1 3.
Definition gateway_target : ActorAddress := ID 64.
Definition start : World := 0%nat.
Definition bob_context : ValidatorContext := validator_context_new bob_key relayer.
End SampleComet.

Section witnesses.
Import SampleKeccak SampleAbi SampleCrypto SampleLedger SampleComet.

Lemma fevm_invoke_bounded_witness :
  (sent_so_far (fevm_invoke relayer gateway_target bob_calldata 31415926 start).2 ≤ sent_so_far start + 4)%nat ∧
  (∀ h w', fevm_invoke relayer gateway_target bob_calldata 31415926 start = (Done h, w') →
     (sent_so_far start < sent_so_far w')%nat).
Proof.
  apply (fevm_invoke_bounded sent_so_far relayer gateway_target bob_calldata 31415926 start).
  apply comet_counts.
Defined.

(** The retry succeeds, and waiting and signing go through. *)
Lemma invoke_retries_once :
  sent_so_far (fevm_invoke relayer gateway_target bob_calldata 31415926 start).2 = 2%nat ∧
  is_done (fevm_invoke relayer gateway_target bob_calldata 31415926 start).1 = true ∧
  is_done (broadcast_incomplete_signatures 5 bob_context 31415926
    (done_or [] (fst <$> unsigned_checkpoints (vc_public_key bob_context) created.2)) start).1 = true.
Proof. vm_compute. auto. Qed.
End witnesses.
