(* ===== verification/Interp.v ===== *)
(** * The signed message and FVM interpreters

    [SignedMessageInterpreter] of [fendermint/vm/interpreter/src/signed.rs] on top of
    [FvmMessageInterpreter] of [fvm/exec.rs], [fvm/check.rs] and [fvm/upgrades.rs]: what is
    verified before it is executed, what the mempool admits, which upgrade runs at the
    beginning of a block and which validator updates leave at its end.

    Together they are the interpreter that the chain interpreter wraps ([fvm_inner]). *)

From Stdlib Require Import Strings.Byte.
From stdpp Require Import vector pretty.
From S2P Require Import Prelude OrdMap Weights Cache Voting Finality Node Fetch Syncer Pool Merkle.
From S2P Require Import SubnetId MerkleStandard Validators Ledger Chain Signing Checkpoint Broadcast.

(** ** Upgrades *)

Section upgrades.
Context `{Machine}.

(** A migration, scheduled for a chain and a height. *)
Record Upgrade := MkUpgrade {
  up_chain_id : N;
  up_block_height : N;
  new_app_version : option N;
  migration : stm FvmExecState string unit
}.

(** The order of [UpgradeKey]. *)
Definition upgrade_key_cmp (a b : N * N) : comparison :=
  if bool_decide (a.1 = b.1) then N.compare a.2 b.2 else N.compare a.1 b.1.

(** Keys that compare as equal are equal, so that the ordered map is a map. *)
Lemma upgrade_key_cmp_eq a b : upgrade_key_cmp a b = Eq ↔ a = b.
Proof.
  destruct a as [c h], b as [c' h']. unfold upgrade_key_cmp. cbn [fst snd].
  case_bool_decide as Hc; rewrite N.compare_eq_iff; naive_solver.
Qed.

Abbreviation UpgradeScheduler := (gmap (N * N) Upgrade).

Definition upgrade_new (fnv : string → N) (chain_name : string) (height : N) (version : option N)
    (m : stm FvmExecState string unit) : ChainIDError + Upgrade :=
  match from_str_hashed fnv chain_name with
  | inl e => inl e
  | inr chain_id => inr (MkUpgrade chain_id height version m)
  end.

Definition upgrade_execute (u : Upgrade) : stm FvmExecState string (option N) :=
  migration u ;; mret (new_app_version u).

Definition upgrade_key (u : Upgrade) : N * N := (up_chain_id u, up_block_height u).

Definition scheduler_add (u : Upgrade) (sched : UpgradeScheduler) : outcome string UpgradeScheduler :=
  match sched !! upgrade_key u with
  | None => Done (<[upgrade_key u := u]> sched)
  | Some _ => Fail "Upgrade already exists"%string
  end.

Definition scheduler_get (sched : UpgradeScheduler) (chain_id height : N) : option Upgrade :=
  sched !! (chain_id, height).
End upgrades.
Abbreviation UpgradeScheduler := (gmap (N * N) Upgrade).

(** ** The FVM interpreter *)

(** Constants and encodings of the built-in actors. *)
Class Builtins `{ChainIds} := {
  CRON_ACTOR_ADDR : ActorAddress;
  CHAINMETADATA_ACTOR_ADDR : ActorAddress;
  EpochTick : N;
  PushBlockHash : N;
  serialize_push_block : Z → Hash → string + Bytes;
  show_tokens : Z → string
}.

(** [FvmCheckRet]. *)
Record FvmCheckRet `{ChainIds} := MkCheckRet {
  check_sender : ActorAddress;
  check_gas_limit : N;
  check_exit_code : N;
  check_return_data : option Bytes;
  check_info : option string
}.
Arguments MkCheckRet {_} _ _ _ _ _.

(** The settings of [FvmMessageInterpreter]. *)
Record FvmMessageInterpreter `{Machine, !CheckpointGateway, Keys, !Crypto} := MkInterpreter {
  validator_ctx : option ValidatorContext;
  exec_in_check : bool;
  push_chain_meta : bool;
  upgrade_scheduler : UpgradeScheduler
}.
Arguments MkInterpreter {_ _ _ _ _ _} _ _ _ _.

Section fvm_interpreter.
Context `{Profile, ParentData, ChainIds, !Machine, !CheckpointGateway, !Builtins}.
Context `{Keccak, Abi, Keys, EthText, !Crypto, !HashOrder (vec byte 65)}.
Variable (self : FvmMessageInterpreter).
Implicit Types (st : FvmExecState) (msg : FvmMessage).

(** A message of the system actor at the beginning of a block. *)
Definition block_message (to : ActorAddress) (height : N) (limit method : N) (ps : Bytes) : FvmMessage :=
  {| version := 0; msg_from := SYSTEM_ACTOR_ADDR; msg_to := to; sequence := height; msg_value := 0;
     method_num := method; params := ps; gas_limit := limit; gas_fee_cap := 0; gas_premium := 0 |}.

(** The upgrade that is due, if any. *)
Definition run_upgrade (height : N) : stm FvmExecState string unit :=
  chain ← reads chain_id;
  match scheduler_get (upgrade_scheduler self) chain height with
  | Some upgrade =>
      res ← upgrade_execute upgrade;
      match res with
      | Some new_app_version => update_app_version (λ _, new_app_version)
      | None => mret tt
      end
  | None => mret tt
  end.

(** Cron, and the block hash for the chain metadata actor. *)
Definition run_cron (height : N) : stm FvmExecState string FvmApplyRet :=
  limit ← lift (u64_mul BLOCK_GAS_LIMIT 10000);
  r ← on_fvm (executor_implicit (block_message CRON_ACTOR_ADDR height limit EpochTick raw_bytes_default));
  let '(ret, ems) := r in
  match failure_info ret with
  | Some err => abort ("failed to apply block cron message: " +:+ err)%string
  | None =>
      (if push_chain_meta self then
         hash ← reads exec_block_hash;
         match hash with
         | Some block_hash =>
             ps ← lift (of_sum (serialize_push_block (Z.of_N height) block_hash));
             r ← on_fvm (executor_implicit
                    (block_message CHAINMETADATA_ACTOR_ADDR height limit PushBlockHash ps));
             match failure_info r.1 with
             | Some err => abort ("failed to apply chainmetadata message: " +:+ err)%string
             | None => mret tt
             end
         | None => mret tt
         end
       else mret tt) ;;
      mret (MkApplyRet ret SYSTEM_ACTOR_ADDR CRON_ACTOR_ADDR EpochTick limit ems)
  end.

Definition fvm_begin : stm FvmExecState string FvmApplyRet :=
  epoch ← reads block_height;
  height ← lift (if bool_decide (0 ≤ epoch)%Z then Done (Z.to_N epoch) else Panic);
  run_upgrade height ;;
  run_cron height.

Definition fvm_deliver msg : stm FvmExecState string FvmApplyRet :=
  r ← on_fvm (if bool_decide (msg_from msg = SYSTEM_ACTOR_ADDR)
              then executor_implicit msg else executor_explicit msg);
  mret (MkApplyRet r.1 (msg_from msg) (msg_to msg) (method_num msg) (gas_limit msg) r.2).

(** The end of a block, with what the node answers to whether it is catching up; the
    second component are the checkpoints that the spawned task is to sign. *)
Definition fvm_end (syncing : bool)
    : stm FvmExecState string (list Validator * option (list (Checkpoint GetterEnvelope))) :=
  r ← maybe_create_checkpoint;
  match r with
  | None => mret ([], None)
  | Some (checkpoint, updates) =>
      task ← match validator_ctx self with
             | None => mret None
             | Some ctx =>
                 if syncing then mret None
                 else
                   incomplete ← unsigned_checkpoints (vc_public_key ctx);
                   if debug_assertions &&
                      negb (existsb (λ cp, bool_decide (cp_block_height cp = cp_block_height checkpoint ∧
                                                        cp_block_hash cp = cp_block_hash checkpoint))
                              incomplete)
                   then lift Panic
                   else mret (Some incomplete)
             end;
      mret (updates, task)
  end.

Definition checked msg (exit_code : N) (return_data : option Bytes) (info : option string) : FvmCheckRet :=
  MkCheckRet (msg_from msg) (gas_limit msg) exit_code return_data info.

Definition non_empty (s : string) : option string := if bool_decide (s = "")%string then None else Some s.

Definition fvm_check msg : stm FvmExecState string FvmCheckRet :=
  match message_check msg with
  | Some e => mret (checked msg SYS_ASSERTION_FAILED None (Some ("pre-check failure: " +:+ e)%string))
  | None =>
      s ← reads fvm;
      id ← lift (of_sum (tree_lookup_id s (msg_from msg)));
      found ← match id with
              | Some id => actor ← lift (of_sum (tree_get_actor s id)); mret ((λ a, (id, a)) <$> actor)
              | None => mret None
              end;
      match found with
      | None =>
          mret (checked msg SYS_SENDER_INVALID None
            (Some ("cannot find actor " +:+ show_address (msg_from msg))%string))
      | Some (id, actor) =>
          let balance_needed := (gas_fee_cap msg * Z.of_N (gas_limit msg))%Z in
          if bool_decide (actor_balance actor < balance_needed)%Z then
            mret (checked msg SYS_SENDER_STATE_INVALID None
              (Some ("actor balance " +:+ show_tokens (actor_balance actor) +:+ " less than needed "
                     +:+ show_tokens balance_needed)%string))
          else if bool_decide (actor_sequence actor ≠ sequence msg) then
            mret (checked msg SYS_SENDER_STATE_INVALID None
              (Some ("expected sequence " +:+ pretty (actor_sequence actor) +:+ ", got "
                     +:+ pretty (sequence msg))%string))
          else if exec_in_check self then
            r ← on_fvm (executor_explicit msg);
            mret (checked msg (exit_code r.1) (Some (return_data r.1)) (failure_info r.1 ≫= non_empty))
          else
            next ← lift (u64_add (actor_sequence actor) 1);
            on_fvm (modify (tree_set_actor id
              (MkActor (actor_code actor) (actor_head actor) next (actor_balance actor - balance_needed)
                 (delegated_address actor)))) ;;
            mret (checked msg ExitCode_OK None None)
      end
  end.
End fvm_interpreter.

(** ** The signed message interpreter *)

Inductive VerifiableMessage `{ChainIds} :=
| VSigned (m : SignedMessage)
| VSynthetic (m : SyntheticMessage)
| VNotVerify (m : FvmMessage).

Record SignedMessageApplyRet `{ChainIds} := MkSignedRet {
  ret_fvm : FvmApplyRet;
  ret_domain_hash : option DomainHash
}.
Arguments MkSignedRet {_} _ _.

Section signed_interpreter.
Context `{Profile, ParentData, ChainIds, !Machine, !CheckpointGateway, !Builtins}.
Context `{Keccak, Abi, Keys, EthText, !Crypto, !HashOrder (vec byte 65)}.
Variable (self : FvmMessageInterpreter).
Implicit Types (st : FvmExecState) (msg : VerifiableMessage).

Definition synthetic_verify (m : SyntheticMessage) (chain_id : N) : outcome SignedMessageError unit :=
  let data := cid_bytes (orig_cid m) ++ chain_id_bytes chain_id in
  map_err InvalidSignature
    (of_sum (signature_verify (synthetic_signature m) data (msg_from (synthetic_message m)))).

Definition verifiable_verify msg (chain_id : N) : outcome SignedMessageError unit :=
  match msg with
  | VSigned m => verify m chain_id
  | VSynthetic m => synthetic_verify m chain_id
  | VNotVerify _ => Done tt
  end.

Definition into_message msg : FvmMessage :=
  match msg with
  | VSigned m => message m
  | VSynthetic m => synthetic_message m
  | VNotVerify m => m
  end.

Definition verifiable_domain_hash msg (chain_id : N) : outcome SignedMessageError (option DomainHash) :=
  match msg with
  | VSigned m => domain_hash m chain_id
  | VSynthetic _ | VNotVerify _ => Done None
  end.

(** The text of an error of the domain hash. *)
Definition error_text (e : SignedMessageError) : string :=
  match e with Ipld s | InvalidSignature s | EthereumError s => s end.

(** What comes of verification: an error of the node, an invalid signature, or nothing. *)
Definition verdict (r : outcome SignedMessageError unit) : outcome string (option string) :=
  match r with
  | Done _ => Done None
  | Fail (Ipld e) => Fail e
  | Fail (EthereumError e) | Fail (InvalidSignature e) => Done (Some e)
  | Retry => Retry
  | Panic => Panic
  | OutOfFuel => OutOfFuel
  end.

Definition signed_deliver msg : stm FvmExecState string (string + SignedMessageApplyRet) :=
  chain ← reads chain_id;
  invalid ← lift (verdict (verifiable_verify msg chain));
  match invalid with
  | Some e => mret (inl e)
  | None =>
      hash ← lift (map_err error_text (verifiable_domain_hash msg chain));
      ret ← fvm_deliver (into_message msg);
      mret (inr (MkSignedRet ret hash))
  end.

Definition signed_begin : stm FvmExecState string FvmApplyRet := fvm_begin self.
Definition signed_end (syncing : bool) := fvm_end self syncing.

Definition signed_check msg (is_recheck : bool) : stm FvmExecState string (string + FvmCheckRet) :=
  chain ← reads chain_id;
  invalid ← lift (verdict (if is_recheck then Done tt else verifiable_verify msg chain));
  match invalid with
  | Some e => mret (inl e)
  | None => ret ← fvm_check self (into_message msg); mret (inr ret)
  end.
End signed_interpreter.

(** ** Nothing is executed without a valid signature *)

Section verification.
Context `{Profile, ParentData, ChainIds, !Machine, !CheckpointGateway, !Builtins}.
Context `{Keccak, Abi, Keys, EthText, !Crypto, !CryptoLaws}.
Implicit Types (st : FvmExecState) (msg : VerifiableMessage).

Lemma verdict_Done r x :
  verdict r = Done x ↔
  match x with
  | None => r = Done tt
  | Some e => r = Fail (EthereumError e) ∨ r = Fail (InvalidSignature e)
  end.
Proof.
  destruct r as [[]|[]| | |], x; simpl; split; intros Hr; try done; try (by destruct Hr);
    try (injection Hr as ->; auto); destruct Hr as [[= ->]|[= ->]]; done.
Qed.

(** The cases of [signed_deliver]. *)
Lemma signed_deliver_cases msg st r st' :
  signed_deliver msg st = Done (r, st') →
  match r with
  | inl e => st' = st ∧ (verifiable_verify msg (chain_id st) = Fail (EthereumError e) ∨
                         verifiable_verify msg (chain_id st) = Fail (InvalidSignature e))
  | inr ret => verifiable_verify msg (chain_id st) = Done tt ∧
               fvm_deliver (into_message msg) st = Done (ret_fvm ret, st')
  end.
Proof.
  unfold signed_deliver. intros Hr.
  apply stm_bind_Done in Hr as (c & s0 & [= <- <-] & Hr).
  apply stm_bind_Done in Hr as (v & s1 & Hv & Hr). apply lift_Done in Hv as (v' & Hv%verdict_Done & [= -> ->]).
  destruct v' as [e|].
  - by injection Hr as <- <-.
  - apply stm_bind_Done in Hr as (h & s2 & Hh & Hr). apply lift_Done in Hh as (h' & _ & [= -> ->]).
    apply stm_bind_Done in Hr as (ret & s3 & Hret & Hr). by injection Hr as <- <-.
Qed.

Lemma fvm_deliver_explicit m st ret st' :
  msg_from m ≠ SYSTEM_ACTOR_ADDR → fvm_deliver m st = Done (ret, st') →
  ∃ s', executor_explicit m (fvm st) = Done ((apply_ret ret, emitters ret), s') ∧ st' = with_fvm st s'.
Proof.
  intros Hne. unfold fvm_deliver. rewrite bool_decide_eq_false_2 by done. intros Hr.
  apply stm_bind_Done in Hr as ([a em] & s1 & Hr1 & Hr2). injection Hr2 as <- <-.
  apply on_fvm_Done in Hr1 as (s' & Hx & ->). by exists s'.
Qed.

Lemma key_address_verify sig data a :
  map_err InvalidSignature (of_sum (signature_verify sig data a)) = Done tt →
  match payload a with Secp256k1 _ | BLS _ => True | _ => False end.
Proof.
  destruct (signature_verify sig data a) as [|[]] eqn:Hv; [done|]. intros _. by eapply verify_key_address.
Qed.

(** The system actor is an ID address, for which no signature is ever valid. *)
Lemma verified_not_system msg c (Hsys : ∃ n, payload SYSTEM_ACTOR_ADDR = ID n) :
  (∀ m, msg ≠ VNotVerify m) → verifiable_verify msg c = Done tt →
  msg_from (into_message msg) ≠ SYSTEM_ACTOR_ADDR.
Proof.
  destruct Hsys as [n Hn]. intros Hnv Hv Heq.
  destruct msg as [m|m|m]; [| |by destruct (Hnv m)]; simpl in *.
  - unfold verify, verify_signature, signable, maybe_eth_address in Hv. rewrite Heq, Hn in Hv.
    apply outcome_bind_Done in Hv as (s & (d & Hd & Hs)%outcome_bind_Done & Hv).
    apply (inj Done) in Hs as <-. apply key_address_verify in Hv. by rewrite Hn in Hv.
  - unfold synthetic_verify in Hv. apply key_address_verify in Hv. by rewrite Heq, Hn in Hv.
Qed.

(** C17: delivering a signed or synthetic message either verifies it
    on the chain's own identifier and then executes it explicitly, so that the sender pays
    and its nonce is checked, or reports an invalid signature and leaves the state as it
    was.  No signature makes a message of the system actor executable. *)
Theorem deliver_needs_signature msg st r st'
    (Hsys : ∃ n, payload SYSTEM_ACTOR_ADDR = ID n)
    (Hkind : ∀ m, msg ≠ VNotVerify m)
    (Hrun : signed_deliver msg st = Done (r, st')) :
  match r with
  | inl e => st' = st ∧ (verifiable_verify msg (chain_id st) = Fail (EthereumError e) ∨
                         verifiable_verify msg (chain_id st) = Fail (InvalidSignature e))
  | inr ret =>
      verifiable_verify msg (chain_id st) = Done tt ∧
      msg_from (into_message msg) ≠ SYSTEM_ACTOR_ADDR ∧
      ∃ s', executor_explicit (into_message msg) (fvm st) =
              Done ((apply_ret (ret_fvm ret), emitters (ret_fvm ret)), s') ∧ st' = with_fvm st s'
  end.
Proof.
  apply signed_deliver_cases in Hrun. destruct r as [e|ret]; [done|]. destruct Hrun as [Hv Hd].
  pose proof (verified_not_system msg _ Hsys Hkind Hv) as Hne.
  split_and!; [done..|]. by apply fvm_deliver_explicit.
Qed.
End verification.

(** ** What the mempool admits *)

(** The state tree: setting an actor changes that actor only; and the exit codes of
    failed checks are not the one of success. *)
Class TreeLaws `{Machine} := {
  codes_differ : ExitCode_OK ∉ [SYS_ASSERTION_FAILED; SYS_SENDER_INVALID; SYS_SENDER_STATE_INVALID];
  lookup_set i a s addr : tree_lookup_id (tree_set_actor i a s) addr = tree_lookup_id s addr;
  get_set_eq i a s : tree_get_actor (tree_set_actor i a s) i = inr (Some a);
  get_set_ne i j a s : i ≠ j → tree_get_actor (tree_set_actor i a s) j = tree_get_actor s j
}.

Section mempool.
Context `{Profile, ParentData, ChainIds, !Machine, !CheckpointGateway, !Builtins}.
Context `{Keccak, Abi, Keys, EthText, !Crypto, !TreeLaws}.
Variable (self : FvmMessageInterpreter).
Hypothesis Hexec : exec_in_check self = false.
Implicit Types (st : FvmExecState) (m : FvmMessage).

(** The checks of a sequence of messages. *)
Fixpoint check_all (msgs : list FvmMessage) : stm FvmExecState string (list FvmCheckRet) :=
  match msgs with
  | [] => mret []
  | m :: msgs => r ← fvm_check self m; rs ← check_all msgs; mret (r :: rs)
  end.

Definition cost m : Z := (gas_fee_cap m * Z.of_N (gas_limit m))%Z.

(** The messages admitted for the sender with the given ID. *)
Definition admitted (s : FvmState) (id : N) (msgs : list FvmMessage) (rs : list FvmCheckRet)
    : list FvmMessage :=
  omap (λ '(m, r), if bool_decide (check_exit_code r = ExitCode_OK ∧
                                   tree_lookup_id s (msg_from m) = inr (Some id))
                   then Some m else None) (zip msgs rs).

Definition spent m (a : ActorState) : ActorState :=
  MkActor (actor_code a) (actor_head a) (actor_sequence a + 1) (actor_balance a - cost m) (delegated_address a).

(** A check that does not admit the message changes nothing; one that does takes the nonce
    and the cost from the sender. *)
Lemma fvm_check_cases m st r st' :
  fvm_check self m st = Done (r, st') →
  (check_exit_code r ≠ ExitCode_OK ∧ st' = st) ∨
  (check_exit_code r = ExitCode_OK ∧ ∃ id a next,
     tree_lookup_id (fvm st) (msg_from m) = inr (Some id) ∧ tree_get_actor (fvm st) id = inr (Some a) ∧
     sequence m = actor_sequence a ∧ (cost m ≤ actor_balance a)%Z ∧
     u64_add (E:=string) (actor_sequence a) 1 = Done next ∧
     st' = with_fvm st (tree_set_actor id
       (MkActor (actor_code a) (actor_head a) next (actor_balance a - cost m) (delegated_address a)) (fvm st))).
Proof.
  pose proof codes_differ as Hcodes. rewrite !not_elem_of_cons in Hcodes.
  destruct Hcodes as (C1 & C2 & C3 & _).
  unfold fvm_check. destruct (message_check m); [intros [= <- <-]; by left|]. intros Hr.
  apply stm_bind_Done in Hr as (s & st0 & [= <- <-] & Hr).
  apply stm_bind_Done in Hr as (oid & st1 & Hid & Hr). apply lift_Done in Hid as (oid' & Hid & [= -> ->]).
  destruct (tree_lookup_id (fvm st) (msg_from m)) as [|oid''] eqn:Hl; [done|]. injection Hid as ->.
  destruct oid' as [id|].
  2: { apply stm_bind_Done in Hr as (f & st2 & [= <- <-] & [= <- <-]). by left. }
  apply stm_bind_Done in Hr as (f & st2 & Hf & Hr).
  apply stm_bind_Done in Hf as (oa & st3 & Ha & [= <- <-]). apply lift_Done in Ha as (oa' & Ha & [= -> ->]).
  destruct (tree_get_actor (fvm st) id) as [|oa''] eqn:Hg; [done|]. injection Ha as ->.
  destruct oa' as [a|]; [|injection Hr as <- <-; by left].
  cbn [fmap option_fmap option_map] in Hr. fold (cost m) in Hr.
  destruct (decide (actor_balance a < cost m)%Z) as [Hlt|Hge].
  { rewrite bool_decide_eq_true_2 in Hr by done. injection Hr as <- <-. by left. }
  rewrite bool_decide_eq_false_2 in Hr by done.
  destruct (decide (actor_sequence a = sequence m)) as [Hseq|Hseq].
  2: { rewrite bool_decide_eq_true_2 in Hr by done. injection Hr as <- <-. by left. }
  rewrite bool_decide_eq_false_2 in Hr by naive_solver. rewrite Hexec in Hr.
  apply stm_bind_Done in Hr as (next & st4 & Hn & Hr). apply lift_Done in Hn as (next' & Hn & [= -> ->]).
  apply stm_bind_Done in Hr as (u & st5 & [= <- <-] & [= <- <-]).
  right. split; [done|]. exists id, a, next'. split_and!; try done; lia.
Qed.

Lemma admitted_cons s id m r msgs rs :
  admitted s id (m :: msgs) (r :: rs) =
  (if bool_decide (check_exit_code r = ExitCode_OK ∧ tree_lookup_id s (msg_from m) = inr (Some id))
   then [m] else []) ++ admitted s id msgs rs.
Proof. unfold admitted. csimpl. by case_bool_decide. Qed.

Lemma admitted_ext s s' id msgs rs :
  (∀ a, tree_lookup_id s' a = tree_lookup_id s a) → admitted s' id msgs rs = admitted s id msgs rs.
Proof.
  intros Hext. revert rs. induction msgs as [|m msgs IH]; intros [|r rs]; try done.
  by rewrite !admitted_cons, Hext, IH.
Qed.

Definition total_cost (ms : list FvmMessage) : Z := foldr (λ m z, (cost m + z)%Z) 0%Z ms.

(** What was admitted for an actor since it had nonce and balance as in [a]. *)
Definition admitted_for (a a' : ActorState) (acc : list FvmMessage) : Prop :=
  sequence <$> acc = range_up (actor_sequence a) (length acc) ∧
  (acc = [] ∨ (total_cost acc ≤ actor_balance a)%Z) ∧
  actor_sequence a' = actor_sequence a + N.of_nat (length acc) ∧
  actor_balance a' = (actor_balance a - total_cost acc)%Z.

Lemma admitted_for_nil a : admitted_for a a [].
Proof. unfold admitted_for. simpl. split_and!; [done|by left|lia|lia]. Qed.

Lemma admitted_for_cons a m acc a' :
  sequence m = actor_sequence a → (cost m ≤ actor_balance a)%Z →
  admitted_for (spent m a) a' acc → admitted_for a a' (m :: acc).
Proof.
  unfold admitted_for, spent. cbn [actor_sequence actor_balance length total_cost foldr].
  intros Hs Hc (H1' & H2' & H3' & H4'). fold (total_cost acc) in *. split_and!.
  - csimpl. by rewrite Hs, H1', N.add_1_r.
  - right. destruct H2' as [->|]; simpl; lia.
  - lia.
  - lia.
Qed.

(** Whatever messages are checked one after the other, those admitted for
    a sender have consecutive nonces from the one its actor had, together they cost no more
    than its balance, and the actor in the resulting state has moved on by exactly that. *)
Lemma mempool_sound msgs st rs st' id a
    (Hrun : check_all msgs st = Done (rs, st'))
    (Hactor : tree_get_actor (fvm st) id = inr (Some a))
    (Hseq : actor_sequence a + N.of_nat (length msgs) < u64_size) :
  ∃ a', tree_get_actor (fvm st') id = inr (Some a') ∧
    admitted_for a a' (admitted (fvm st) id msgs rs).
Proof.
  revert st rs a Hrun Hactor Hseq. induction msgs as [|m msgs IH]; intros st rs a Hrun Hactor Hseq.
  { injection Hrun as <- <-. exists a. split; [done|apply admitted_for_nil]. }
  cbn [check_all] in Hrun. apply stm_bind_Done in Hrun as (r & st1 & Hc & Hrun).
  apply stm_bind_Done in Hrun as (rs' & st2 & Hrest & [= <- <-]). rewrite admitted_cons.
  cbn [length] in Hseq. apply fvm_check_cases in Hc as [[Hr ->]|(Hr & id' & b & next & Hl & Hg & Hs & Hb & Hn & ->)].
  { rewrite bool_decide_eq_false_2 by (by intros [? _]). apply (IH st); [done..|lia]. }
  assert (∀ x, tree_lookup_id (fvm (with_fvm st (tree_set_actor id'
    (MkActor (actor_code b) (actor_head b) next (actor_balance b - cost m) (delegated_address b)) (fvm st)))) x =
    tree_lookup_id (fvm st) x) as Hsame by (intros x; apply lookup_set).
  destruct (decide (id' = id)) as [->|Hne].
  - rewrite bool_decide_eq_true_2 by done. rewrite Hactor in Hg. injection Hg as <-.
    rewrite u64_add_ok in Hn by lia. injection Hn as <-.
    destruct (IH _ _ (spent m a) Hrest) as (a' & Ha' & Hadm); [apply get_set_eq|simpl; lia|].
    exists a'. split; [done|]. apply admitted_for_cons; [done..|].
    by rewrite <-(admitted_ext _ _ id msgs rs' Hsame).
  - rewrite bool_decide_eq_false_2 by (intros [_ Heq]; congruence).
    destruct (IH _ _ a Hrest) as (a' & Ha' & Hadm); [simpl; by rewrite get_set_ne|lia|].
    exists a'. split; [done|]. by rewrite <-(admitted_ext _ _ id msgs rs' Hsame).
Qed.
End mempool.

(** ** Upgrades run at their height *)

Section scheduled.
Context `{Profile, ParentData, ChainIds, !Machine, !CheckpointGateway, !Builtins}.
Context `{Keccak, Abi, Keys, EthText, !Crypto}.
Implicit Types (st : FvmExecState) (us : list Upgrade).

(** How a node sets up its schedule. *)
Fixpoint add_all us (sched : UpgradeScheduler) : outcome string UpgradeScheduler :=
  match us with
  | [] => Done sched
  | u :: us => sched ← scheduler_add u sched; add_all us sched
  end.

Lemma add_all_Done us sched0 sched :
  add_all us sched0 = Done sched →
  NoDup (upgrade_key <$> us) ∧ (∀ u, u ∈ us → sched !! upgrade_key u = Some u) ∧
  (∀ u, u ∈ us → sched0 !! upgrade_key u = None) ∧
  (∀ k, k ∉ upgrade_key <$> us → sched !! k = sched0 !! k).
Proof.
  revert sched0. induction us as [|u us IH]; intros sched0 Hr; cbn [add_all] in Hr.
  { injection Hr as <-. split_and!; [constructor|set_solver..|done]. }
  apply outcome_bind_Done in Hr as (s1 & Ha & (Hnd & Hin & Hfree & Hout)%IH).
  unfold scheduler_add in Ha. destruct (sched0 !! upgrade_key u) eqn:Hu; [done|]. injection Ha as <-.
  assert (upgrade_key u ∉ upgrade_key <$> us) as Hni.
  { intros (u' & Heq & Hu')%list_elem_of_fmap. specialize (Hfree _ Hu').
    by rewrite <-Heq, lookup_insert_eq in Hfree. }
  split_and!.
  - csimpl. by constructor.
  - intros u' [->|Hu']%elem_of_cons; [|by apply Hin]. rewrite Hout by done. by rewrite lookup_insert_eq.
  - intros u' [->|Hu']%elem_of_cons; [done|]. specialize (Hfree _ Hu').
    apply lookup_insert_None in Hfree as [? _]. done.
  - intros k [Hk1 Hk2]%not_elem_of_cons. rewrite Hout by done. by rewrite lookup_insert_ne.
Qed.

(** When a list of upgrades could be scheduled, at most one of
    them is for each chain and height, and the beginning of a block runs the migration of
    the one for this chain and height, sets the application version it names, and only then
    runs cron; at any other height no migration runs. *)
Lemma upgrade_at_its_height (self : FvmMessageInterpreter) us st
    (Hsched : add_all us ∅ = Done (upgrade_scheduler self)) (Hheight : (0 ≤ block_height st)%Z) :
  let height := Z.to_N (block_height st) in
  NoDup (upgrade_key <$> us) ∧
  (∀ u, u ∈ us → upgrade_key u = (chain_id st, height) →
     fvm_begin self st =
       (migration u ;;
        match new_app_version u with Some v => update_app_version (λ _, v) | None => mret tt end ;;
        run_cron self height) st) ∧
  (Forall (λ u, upgrade_key u ≠ (chain_id st, height)) us → fvm_begin self st = run_cron self height st).
Proof.
  intros height. destruct (add_all_Done _ _ _ Hsched) as (Hnd & Hin & _ & Hout).
  assert (fvm_begin self st = (run_upgrade self height ;; run_cron self height) st) as Hb.
  { unfold fvm_begin, mbind, stm_bind, reads, lift, mbind, outcome_bind.
    by rewrite bool_decide_eq_true_2 by done. }
  split_and!; [done|..].
  - intros u Hu Hk. rewrite Hb. unfold run_upgrade, scheduler_get.
    unfold mbind at 1 2, stm_bind at 1 2, reads. rewrite <-Hk, (Hin u Hu).
    unfold upgrade_execute, mbind, stm_bind, mret, stm_ret.
    destruct (migration u st) as [[[] st1]| | | |]; [|done..]. by destruct (new_app_version u).
  - intros Hnone. rewrite Hb. unfold run_upgrade, scheduler_get.
    unfold mbind at 1 2, stm_bind at 1 2, reads. rewrite Hout; [done|].
    intros (u & Heq & Hu)%list_elem_of_fmap. rewrite Forall_forall in Hnone. by apply (Hnone u).
Qed.
End scheduled.

(** ** The end of a block *)

Section block_end.
Context `{Profile, ParentData, ChainIds, !Machine, !CheckpointGateway, !Builtins}.
Context `{Keccak, Abi, Keys, EthText, !Crypto, !HashOrder (vec byte 65), !CheckpointLaws}.
Implicit Types (st : FvmExecState).

Lemma not_signed_view a cps : is_view (not_signed_by a cps).
Proof.
  induction cps as [|cp cps IH]; cbn [not_signed_by]; solve_keeps.
  apply on_fvm_view, view_signatures.
Qed.

Lemma unsigned_view k : is_view (unsigned_checkpoints k).
Proof.
  unfold unsigned_checkpoints. solve_keeps; [apply on_fvm_view, view_incomplete|apply not_signed_view].
Qed.

Lemma fvm_end_cases self syncing st ups task st' :
  fvm_end self syncing st = Done ((ups, task), st') →
  (maybe_create_checkpoint st = Done (None, st') ∧ ups = [] ∧ task = None) ∨
  (∃ ck, maybe_create_checkpoint st = Done (Some (ck, ups), st')).
Proof.
  unfold fvm_end. intros Hr. apply stm_bind_Done in Hr as (r & st1 & Hm & Hr).
  destruct r as [[ck ups']|]; [|injection Hr as <- <- <-; by left].
  apply stm_bind_Done in Hr as (t & st2 & Ht & [= <- <- <-]). right. exists ck. rewrite Hm. do 3 f_equal.
  destruct (validator_ctx self) as [ctx|]; [|by injection Ht as _ <-].
  destruct syncing; [by injection Ht as _ <-|].
  apply stm_bind_Done in Ht as (inc & st3 & <-%unsigned_view & Ht).
  case_match; [done|]. by injection Ht as _ <-.
Qed.

(** Whether a node validates, and whether it is catching up, does not
    affect the ledger and the validator updates that come out of the end of a block; it
    only decides what is signed in the background. *)
Lemma end_same_for_all self syncing self' syncing' st ups task st'
    (Hrun : fvm_end self syncing st = Done ((ups, task), st'))
    (Hother : validator_ctx self' = None ∨ syncing' = true) :
  fvm_end self' syncing' st = Done ((ups, None), st').
Proof.
  apply fvm_end_cases in Hrun. unfold fvm_end, mbind at 1, stm_bind at 1.
  destruct Hrun as [(-> & -> & ->)|[ck ->]]; [done|].
  destruct Hother as [->| ->]; [done|]. by destruct (validator_ctx self').
Qed.

Lemma maybe_create_view st st' : maybe_create_checkpoint st = Done (None, st') → st' = st.
Proof.
  unfold maybe_create_checkpoint. intros Hrun.
  apply stm_bind_Done in Hrun as (ep & s0 & [= <- <-] & Hrun).
  apply stm_bind_Done in Hrun as (h & s1 & Hh & Hrun). apply lift_Done in Hh as (h' & _ & [= -> ->]).
  apply stm_bind_Done in Hrun as (hash & s2 & [= <- <-] & Hrun).
  destruct (exec_block_hash st) as [bh|]; [|done].
  apply stm_bind_Done in Hrun as (d & s3 & <-%should_create_view & Hrun).
  destruct d as [[msgs sid]|]; [|by injection Hrun as <-]. exfalso.
  do 4 (apply stm_bind_Done in Hrun as (? & ? & _ & Hrun)).
  by apply stm_bind_Done in Hrun as (? & ? & _ & Hrun).
Qed.
End block_end.

(** ** The interpreter below the chain interpreter *)

Section inner.
Context `{Profile, ParentData, ChainIds, !Machine, !CheckpointGateway, !Builtins}.
Context `{Keccak, Abi, Keys, EthText, !Crypto, !HashOrder (vec byte 65)}.

(** The validators' keys in the vote tally are their public keys. *)
Class TallyKeys := { validator_key : PublicKey → ValidatorKey }.
Context `{!TallyKeys}.

(** The result of a delivery without the hash by which Ethereum tools know it. *)
Definition fvm_result (r : string + SignedMessageApplyRet) : string + FvmApplyRet :=
  match r with inl e => inl e | inr ret => inr (ret_fvm ret) end.

(** Whether the node is catching up is its answer at the end of the block. *)
Definition fvm_inner (self : FvmMessageInterpreter) (syncing : bool) : Inner := {|
  Chain.SignedMessage := Signing.SignedMessage;
  signed_object := object;
  inner_begin := signed_begin self;
  inner_deliver_signed m := r ← signed_deliver (VSigned m); mret (fvm_result r);
  inner_deliver_synthetic m := r ← signed_deliver (VSynthetic m); mret (fvm_result r);
  PowerUpdate := Validator;
  update_key v := validator_key (public_key v);
  update_power := power;
  inner_end := r ← signed_end self syncing; mret r.1;
  CheckState := FvmExecState;
  CheckRes := string + FvmCheckRet;
  inner_check_signed m := signed_check self (VSigned m);
  inner_check_synthetic m := signed_check self (VSynthetic m)
|}.
End inner.

(** ** The vote tally follows the membership *)

Section tally.
Context `{Profile, ParentData, ChainIds, !Machine, !CheckpointGateway, !Builtins}.
Context `{Keccak, Abi, Keys, EthText, !Crypto, !HashOrder (vec byte 65), !CheckpointLaws}.
Context `{!TallyKeys}.
(** Two validators are the same to the tally exactly when their serialized keys are. *)
Hypothesis Hkeys : ∀ k k', validator_key k = validator_key k' ↔ pk_serialize k = pk_serialize k'.
Implicit Types (m : gmap (vec byte 65) Validator) (pt : gmap ValidatorKey N).

(** The weights in a power table are those of the validators in the map. *)
Definition tracks pt m : Prop := ∀ vk p,
  pt !! vk = Some p ↔ ∃ k v, m !! k = Some v ∧ validator_key (public_key v) = vk ∧ power v = p.

Lemma tracks_update pt m v :
  keyed m → tracks pt m →
  tracks (power_update pt (validator_key (public_key v), power v))
    (if bool_decide (power v = 0) then delete (key_of v) m else <[key_of v := v]> m).
Proof.
  intros Hk Ht vk p. unfold power_update. cbn [fst snd]. case_bool_decide as H0'.
  - rewrite lookup_delete_Some, (Ht vk p). split.
    + intros [Hne (k & w & Hw & Hvk & Hp)]. exists k, w. split_and!; try done.
      apply lookup_delete_Some. split; [|done]. intros <-. apply Hne.
      apply Hk in Hw. rewrite <-Hvk. apply Hkeys. unfold key_of in Hw. done.
    + intros (k & w & [Hne Hw]%lookup_delete_Some & Hvk & Hp). split; [|by exists k, w].
      intros <-. apply Hne. apply Hkeys in Hvk. apply Hk in Hw. unfold key_of in *. congruence.
  - rewrite lookup_insert_Some, (Ht vk p). split.
    + intros [[<- <-]|[Hne (k & w & Hw & Hvk & Hp)]].
      * exists (key_of v), v. split_and!; try done. by rewrite lookup_insert_eq.
      * exists k, w. split_and!; try done. rewrite lookup_insert_ne; [done|]. intros <-. apply Hne.
        apply Hk in Hw. rewrite <-Hvk. apply Hkeys. unfold key_of in Hw. done.
    + intros (k & w & [[<- <-]|[Hne Hw]]%lookup_insert_Some & Hvk & Hp); [by left|].
      right. split; [|by exists k, w]. intros <-. apply Hne. apply Hkeys in Hvk. apply Hk in Hw.
      unfold key_of in *. congruence.
Qed.

Lemma keyed_update m v :
  keyed m → keyed (if bool_decide (power v = 0) then delete (key_of v) m else <[key_of v := v]> m).
Proof.
  intros Hk k w. case_bool_decide.
  - intros [_ Hw]%lookup_delete_Some. by apply Hk.
  - intros [[<- <-]|[_ Hw]]%lookup_insert_Some; [done|by apply Hk].
Qed.

Lemma tracks_updates ups pt m :
  keyed m → tracks pt m →
  tracks (foldl power_update pt ((λ v, (validator_key (public_key v), power v)) <$> ups)) (apply_updates m ups).
Proof.
  revert pt m. induction ups as [|v ups IH]; intros pt m Hk Ht; [done|].
  csimpl. unfold apply_updates. cbn [fold_left].
  apply IH; [by apply keyed_update|by apply tracks_update].
Qed.

(** The table of the weights of some validators. *)
Definition weights_of m : gmap ValidatorKey N :=
  list_to_map ((λ kv, (validator_key (public_key kv.2), power kv.2)) <$> map_to_list m).

Lemma tracks_weights_of m : keyed m → tracks (weights_of m) m.
Proof.
  intros Hk vk p. unfold weights_of. rewrite <-elem_of_list_to_map.
  - rewrite list_elem_of_fmap. split.
    + intros ([k v] & [= -> ->] & Hin%elem_of_map_to_list). by exists k, v.
    + intros (k & v & Hin & <- & <-). exists (k, v). split; [done|]. by apply elem_of_map_to_list.
  - rewrite <-list_fmap_compose. apply NoDup_fmap_2_strong; [|apply NoDup_map_to_list].
    intros [k v] [k' v'] Hv%elem_of_map_to_list Hv'%elem_of_map_to_list Heq. simpl in Heq.
    apply Hkeys in Heq. assert (k = k') as -> by (rewrite <-(Hk _ _ Hv), <-(Hk _ _ Hv'); done).
    congruence.
Qed.

(** C23: if the weights of the vote tally are those of the gateway's
    validators before the end of a block, then after the updates that come out of it they
    are those of the gateway's validators afterwards, without those of power zero. *)
Theorem tally_follows_membership self syncing st ups task st' old new
    (t : VoteTally ValidatorKey BlockHash Object)
    (Hrun : fvm_end self syncing st = Done ((ups, task), st'))
    (Hold : membership_to_power_table (book_membership (fvm st)) (power_scale (updatable st)) = Done old)
    (Hnew : membership_to_power_table (book_membership (fvm st')) (power_scale (updatable st)) = Done new)
    (Hpos : Forall (λ v, power v ≠ 0) old)
    (Htracks : tracks (power_table t) (into_power_map old)) :
  ∃ t', update_power_table (E:=string) ((λ v, (validator_key (public_key v), power v)) <$> ups) t = Done (tt, t') ∧
    tracks (power_table t') (filter (λ kv, power kv.2 ≠ 0) (into_power_map new)).
Proof.
  assert (apply_updates (into_power_map old) ups = filter (λ kv, power kv.2 ≠ 0) (into_power_map new)) as <-.
  { apply fvm_end_cases in Hrun as [(Hm & -> & ->)|[ck Hm]].
    - apply maybe_create_view in Hm as ->.
      assert (new = old) as -> by (apply (inj (Done (E:=string))); congruence). by apply no_updates.
    - destruct (checkpoint_run _ _ _ _ Hm) as (old' & new' & tr & r & Ho & Hn & _ & _ & _ & _ & _ & _ & Hu).
      assert (old' = old) as -> by (apply (inj (Done (E:=string))); congruence).
      assert (new' = new) as -> by (apply (inj (Done (E:=string))); congruence). by apply Hu. }
  eexists. unfold update_power_table. split.
  - case_bool_decide as Hnil; [|reflexivity]. apply fmap_nil_inv in Hnil as ->. simpl. by destruct t.
  - apply tracks_updates; [apply into_power_map_keyed|done].
Qed.
End tally.

(** ** A concrete instance *)

Module SampleInterpreter.
Import SampleKeccak SampleAbi SampleCrypto SampleLedger SampleComet.

#[export] Instance builtins : Builtins := {|
  CRON_ACTOR_ADDR := ID 3;
  CHAINMETADATA_ACTOR_ADDR := ID 48;
  EpochTick := 2;
  PushBlockHash := 2;
  serialize_push_block _ h := inr (vec_to_list h);
  show_tokens z := "tokens"%string
|}.

#[export] Instance ledger_tree : TreeLaws.
Proof.
  split.
  - intros Hin. by repeat (apply elem_of_cons in Hin as [?|Hin]; [done|]); apply elem_of_nil in Hin.
  - done.
  - intros i a s. simpl. by rewrite lookup_insert_eq.
  - intros i j a s Hne. simpl. by rewrite lookup_insert_ne.
Qed.

#[export] Instance tally_keys : TallyKeys := {|
  validator_key k := from_be_bytes (vec_to_list (pk_serialize k))
|}.

Lemma tally_keys_serialized (k k' : PublicKey) :
  validator_key k = validator_key k' ↔ pk_serialize k = pk_serialize k'.
Proof.
  split; [|by intros Heq; cbn [validator_key tally_keys]; rewrite Heq].
  cbn [validator_key tally_keys]. intros Heq. apply vec_to_list_inj2.
  pose proof (be_bytes_inverse (vec_to_list (pk_serialize k))) as Hk.
  pose proof (be_bytes_inverse (vec_to_list (pk_serialize k'))) as Hk'.
  rewrite !length_vec_to_list in Hk, Hk'. congruence.
Qed.

Definition bump : Upgrade := MkUpgrade 31415926 20 (Some 3) (mret tt).
Definition later : Upgrade := MkUpgrade 31415926 30 None (mret tt).
Definition schedule : UpgradeScheduler := done_or ∅ (add_all [bump; later] ∅).
Definition interpreter : FvmMessageInterpreter := MkInterpreter (Some bob_context) false true schedule.
Definition observer : FvmMessageInterpreter := MkInterpreter None false true schedule.

Definition call (seq : N) (fee : Z) : FvmMessage :=
  {| version := 0; msg_from := Secp256k1 (vec_to_list alice); msg_to := ID 5; sequence := seq; msg_value := 0;
     method_num := 0; params := []; gas_limit := 10; gas_fee_cap := fee; gas_premium := 0 |}.
Definition calls : list FvmMessage := [call 4 30; call 6 1; call 5 40; call 6 99; call 6 2].
Definition checks : list FvmCheckRet * FvmExecState :=
  done_or ([], exec) (check_all interpreter calls exec).

Definition signed_call : VerifiableMessage := VSigned (signed (call 4 30)).
Definition delivered : (string + SignedMessageApplyRet) * FvmExecState :=
  done_or (inl ""%string, exec) (signed_deliver signed_call exec).
Definition ended : list Validator * option (list (Checkpoint GetterEnvelope)) * FvmExecState :=
  done_or ([], None, exec) (fvm_end interpreter false exec).
Definition next_table : list Validator := done_or [] (membership_to_power_table members_2 0).

Definition tally : VoteTally ValidatorKey BlockHash Object :=
  set_power (weights_of (into_power_map old_table)) empty_tally.
End SampleInterpreter.

Section witnesses.
Import SampleKeccak SampleAbi SampleCrypto SampleLedger SampleComet SampleInterpreter.

Lemma deliver_needs_signature_witness :
  match delivered.1 with
  | inl e => delivered.2 = exec ∧ (verifiable_verify signed_call (chain_id exec) = Fail (EthereumError e) ∨
                         verifiable_verify signed_call (chain_id exec) = Fail (InvalidSignature e))
  | inr ret =>
      verifiable_verify signed_call (chain_id exec) = Done tt ∧
      msg_from (into_message signed_call) ≠ SYSTEM_ACTOR_ADDR ∧
      ∃ s', executor_explicit (into_message signed_call) (fvm exec) =
              Done ((apply_ret (ret_fvm ret), emitters (ret_fvm ret)), s') ∧ delivered.2 = with_fvm exec s'
  end.
Proof.
  apply (deliver_needs_signature signed_call exec delivered.1 delivered.2).
  - by exists 0.
  - done.
  - transitivity (Done (E:=string) delivered); [apply done_or_eq; vm_compute; reflexivity|].
    by destruct delivered.
Defined.

Lemma mempool_sound_witness :
  ∃ a', tree_get_actor (fvm checks.2) 100 = inr (Some a') ∧
    admitted_for user_actor a' (admitted (fvm exec) 100 calls checks.1).
Proof.
  apply (mempool_sound interpreter eq_refl calls exec checks.1 checks.2 100 user_actor).
  - transitivity (Done (E:=string) checks); [apply done_or_eq; vm_compute; reflexivity|].
    by destruct checks.
  - reflexivity.
  - vm_compute. reflexivity.
Defined.

(** Three of the calls are admitted. *)
Lemma three_admitted : sequence <$> admitted (fvm exec) 100 calls checks.1 = [4; 5; 6].
Proof. vm_compute. reflexivity. Qed.

Lemma upgrade_at_its_height_witness :
  fvm_begin interpreter exec =
    (migration bump ;;
     match new_app_version bump with Some v => update_app_version (λ _, v) | None => mret tt end ;;
     run_cron interpreter (Z.to_N (block_height exec))) exec.
Proof.
  destruct (upgrade_at_its_height interpreter [bump; later] exec) as (_ & Hruns & _).
  - apply done_or_eq. vm_compute. reflexivity.
  - vm_compute. discriminate.
  - apply Hruns; [left|reflexivity].
Defined.

Lemma ended_runs : fvm_end interpreter false exec = Done ((ended.1.1, ended.1.2), ended.2).
Proof.
  transitivity (Done (E:=string) ended); [apply done_or_eq; vm_compute; reflexivity|].
  by destruct ended as [[]].
Defined.

Lemma end_same_for_all_witness : fvm_end observer false exec = Done ((ended.1.1, None), ended.2).
Proof.
  apply (end_same_for_all interpreter false observer false exec ended.1.1 ended.1.2 ended.2).
  - apply ended_runs.
  - by left.
Defined.

Lemma ended_membership : book_membership (fvm ended.2) = members_2.
Proof. vm_compute. reflexivity. Defined.

Lemma weights_track : tracks (power_table tally) (into_power_map old_table).
Proof. apply (tracks_weights_of tally_keys_serialized), into_power_map_keyed. Defined.

Lemma tally_follows_membership_witness :
  ∃ t', update_power_table (E:=string)
      ((λ v, (validator_key (public_key v), power v)) <$> ended.1.1) tally = Done (tt, t') ∧
    tracks (power_table t') (filter (λ kv, power kv.2 ≠ 0) (into_power_map next_table)).
Proof.
  apply (tally_follows_membership tally_keys_serialized interpreter false exec ended.1.1 ended.1.2 ended.2
    old_table next_table tally).
  - apply ended_runs.
  - apply done_or_eq. vm_compute. reflexivity.
  - change (membership_to_power_table (book_membership (fvm ended.2)) 0 = Done next_table).
    rewrite ended_membership. apply done_or_eq. vm_compute. reflexivity.
  - apply (bool_decide_unpack _). vm_compute. exact I.
  - apply weights_track.
Defined.
End witnesses.
