(* ===== verification/BytesInterp.v ===== *)
(** * The interpreter of raw bytes

    [BytesMessageInterpreter] of [fendermint/vm/interpreter/src/bytes.rs]: decodes what
    CometBFT hands over and passes it to the chain interpreter; and the query types of
    [fendermint/vm/message/src/query.rs].

    The IPLD codec is behind the class [Codec]. *)

From stdpp Require Import vector.
From S2P Require Import Prelude OrdMap Weights Cache Voting Finality Node Fetch Syncer Pool Merkle.
From S2P Require Import Ledger Chain.

(** ** Queries *)

Inductive FvmQueryHeight :=
| Committed
| Pending
| AtHeight (h : N).
#[export] Instance FvmQueryHeight_eq_dec : EqDecision FvmQueryHeight.
Proof. solve_decision. Defined.

Definition i64_max : N := 9223372036854775807.

Definition query_height_of (value : N) : FvmQueryHeight :=
  if bool_decide (value = 0) then Committed
  else if bool_decide (i64_max ≤ value) then Pending
  else AtHeight value.

Definition query_height_value (h : FvmQueryHeight) : N :=
  match h with
  | Committed => 0
  | Pending => i64_max
  | AtHeight n => n
  end.

(** The heights that stand for something else when they are sent as a number are zero and
    those from the maximum of [i64] on. *)
Lemma query_height_roundtrip h :
  query_height_of (query_height_value h) = h ↔
  match h with AtHeight n => 0 < n < i64_max | _ => True end.
Proof.
  destruct h as [| |n]; unfold query_height_of, query_height_value.
  - by rewrite bool_decide_eq_true_2.
  - rewrite bool_decide_eq_false_2 by done. by rewrite bool_decide_eq_true_2.
  - repeat case_bool_decide; split; try done; lia.
Qed.

Inductive FvmQuery `{ChainIds} :=
| QueryIpld (c : Cid)
| QueryActorState (a : ActorAddress)
| QueryCall (m : FvmMessage)
| QueryEstimateGas (m : FvmMessage)
| QueryStateParams
| QueryBuiltinActors.

(** ** The codec *)

Class Codec `{Inner} := {
  Raw : Type;
  raw_length : Raw → N;
  decode_message : Raw → string + ChainMessage;
  encode_message : ChainMessage → string + Raw;
  decode_cid : Raw → string + Cid;
  decode_query : Raw → string + FvmQuery;
  (* the queries of the interpreter below *)
  QueryState : Type;
  FvmQueryRet : Type;
  inner_query : FvmQuery → stm QueryState string FvmQueryRet;
  (* genesis files *)
  Genesis : Type;
  genesis_from_json : Raw → string + Genesis;
  genesis_from_cbor : Raw → string + Genesis
}.

Class CodecLaws `{Codec} := {
  encode_total m : ∃ r, encode_message m = inr r;
  decode_encode m r : encode_message m = inr r → decode_message r = inr m
}.

(** ** The interpreter *)

Inductive ProposalPrepareMode := PassThrough | AppendOnly | PrependOnly.

Record BytesMessageInterpreter := MkBytesInterpreter {
  prepare_mode : ProposalPrepareMode;
  reject_malformed_proposal : bool;
  max_msgs : nat
}.

Section interpreter.
Context `{Profile, Scheduler, !ChainIds, !Machine, !Inner, !Resolvers, !Codec}.
Variable (self : BytesMessageInterpreter).

(** Decode what can be decoded. *)
Fixpoint decode_known (msgs : list Raw) : list ChainMessage :=
  match msgs with
  | [] => []
  | msg :: msgs =>
      match decode_message msg with
      | inl _ => decode_known msgs
      | inr m => m :: decode_known msgs
      end
  end.

Definition bytes_prepare (st : FvmExecState) (msgs : list Raw) : io ChainEnv string (list Raw) :=
  let chain_msgs := match prepare_mode self with
                    | PassThrough => decode_known msgs
                    | AppendOnly | PrependOnly => []
                    end in
  chain_msgs ← prepare st chain_msgs;
  chain_msgs ← io_of (convert_all encode_message chain_msgs);
  let all_msgs := match prepare_mode self with
                  | PassThrough => chain_msgs
                  | AppendOnly => msgs ++ chain_msgs
                  | PrependOnly => chain_msgs ++ msgs
                  end in
  mret (if bool_decide (max_msgs self < length all_msgs)%nat then take (max_msgs self) all_msgs
        else all_msgs).

(** The decoded messages of a proposal, or none if it has to be rejected. *)
Fixpoint decode_proposal (msgs : list Raw) : option (list ChainMessage) :=
  match msgs with
  | [] => Some []
  | msg :: msgs =>
      match decode_message msg with
      | inl _ => if reject_malformed_proposal self then None else decode_proposal msgs
      | inr m => cons m <$> decode_proposal msgs
      end
  end.

Definition bytes_process (st : FvmExecState) (msgs : list Raw) : io ChainEnv string bool :=
  if bool_decide (max_msgs self < length msgs)%nat then mret false
  else
    match decode_proposal msgs with
    | None => mret false
    | Some chain_msgs => process st chain_msgs
    end.

Definition bytes_deliver (st : FvmExecState) (msg : Raw)
    : io ChainEnv string ((string + ChainMessageApplyRet) * FvmExecState) :=
  match decode_message msg with
  | inl e => mret (inl e, st)
  | inr m => r ← deliver st m; mret (inr r.1, r.2)
  end.

Definition bytes_begin := begin_block.
Definition bytes_end := end_block.

Definition bytes_check (msg : Raw) (is_recheck : bool)
    : stm CheckState string (string + ChainMessageCheckRes) :=
  match decode_message msg with
  | inl e => mret (inl e)
  | inr m => r ← check m is_recheck; mret (inr r)
  end.

Definition bytes_query (path : string) (bz : Raw) : stm QueryState string (string + FvmQueryRet) :=
  let qry := if bool_decide (path = "/store")%string
             then match decode_cid bz with inl e => inl e | inr c => inr (QueryIpld c) end
             else decode_query bz in
  match qry with
  | inl e => mret (inl e)
  | inr q => ret ← inner_query q; mret (inr ret)
  end.

(** The genesis file is JSON, or else CBOR. *)
Definition parse_genesis (bytes : Raw) : string + Genesis :=
  match genesis_from_json bytes with
  | inr g => inr g
  | inl e1 =>
      match genesis_from_cbor bytes with
      | inr g => inr g
      | inl e2 => inl ("failed to deserialize genesis as JSON or CBOR: " +:+ e1 +:+ "; " +:+ e2)%string
      end
  end.
End interpreter.

(** ** Proposals of bytes are accepted *)

Section proposals.
Context `{Profile, Scheduler, !ChainIds, !Machine, !Inner, !Resolvers, !ObjectStoreLaws}.
Context `{!Quiet, !QuietPools, !Codec, !CodecLaws}.
Implicit Types (self : BytesMessageInterpreter) (st : FvmExecState) (env : ChainEnv).

Lemma encode_all block :
  ∃ raws, convert_all encode_message block = Done raws ∧ Forall2 (λ r m, decode_message r = inr m) raws block.
Proof.
  induction block as [|m block (raws & Hraws & Hdec)]; [by exists []|].
  destruct (encode_total m) as [r Hr]. exists (r :: raws). cbn [convert_all].
  rewrite Hr, Hraws. split; [done|]. constructor; [by apply decode_encode|done].
Qed.

(** A transaction that a validator does not mind in a block. *)
Definition harmless self (P : ChainMessage → Prop) (r : Raw) : Prop :=
  match decode_message r with
  | inl _ => reject_malformed_proposal self = false
  | inr m => P m
  end.

Lemma decode_harmless self P raws :
  Forall (harmless self P) raws → ∃ msgs, decode_proposal self raws = Some msgs ∧ Forall P msgs.
Proof.
  induction 1 as [|r raws Hr _ (msgs & Hm & Hall)]; [by exists []|]. cbn [decode_proposal].
  unfold harmless in Hr. destruct (decode_message r) as [e|m].
  - rewrite Hr. by exists msgs.
  - rewrite Hm. exists (m :: msgs). split; [done|]. by constructor.
Qed.

Lemma harmless_decoded self P raws block :
  Forall2 (λ r m, decode_message r = inr m) raws block → Forall P block → Forall (harmless self P) raws.
Proof.
  induction 1 as [|r m raws block Hr _ IH]; intros Hall; [constructor|].
  apply Forall_cons in Hall as [Hm Hall]. constructor; [|by apply IH]. unfold harmless. by rewrite Hr.
Qed.

Lemma decode_known_users self raws :
  Forall (harmless self user_message) raws → Forall user_message (decode_known raws).
Proof.
  induction 1 as [|r raws Hr _ IH]; [constructor|]. cbn [decode_known]. unfold harmless in Hr.
  destruct (decode_message r); [done|by constructor].
Qed.

Lemma user_acceptable st env p f m : user_message m → acceptable st env p f m.
Proof. by destruct m as [|[]]. Qed.

Lemma bytes_prepare_harmless self st raws env p f :
  env_ok env p f →
  height f + Config.max_proposal_range (config p) < u64_size →
  (∀ h, non_null p h → Config.proposal_delay (config p) ≤ h) →
  Forall (harmless self user_message) raws →
  ∃ block env', bytes_prepare self st raws env = (Done block, env') ∧ (length block ≤ max_msgs self)%nat ∧
    Forall (harmless self (acceptable st env p f)) block.
Proof.
  intros Hok Hfit Hdelay Hraws.
  set (users := match prepare_mode self with PassThrough => decode_known raws | _ => [] end).
  assert (Forall user_message users) as Husers.
  { unfold users. destruct (prepare_mode self); [by eapply decode_known_users|constructor..]. }
  destruct (prepare_acceptable st users env p f Hok Hfit Hdelay Husers) as (block & env' & Hprep & Hall).
  destruct (encode_all block) as (enc & Henc & Hdec).
  assert (Forall (harmless self (acceptable st env p f)) enc) as Henc' by by eapply harmless_decoded.
  assert (Forall (harmless self (acceptable st env p f)) raws) as Hraws'.
  { eapply Forall_impl; [exact Hraws|]. intros r. unfold harmless. destruct (decode_message r); [done|].
    apply user_acceptable. }
  set (all := match prepare_mode self with
              | PassThrough => enc | AppendOnly => raws ++ enc | PrependOnly => enc ++ raws end).
  assert (Forall (harmless self (acceptable st env p f)) all) as Hall'.
  { unfold all. destruct (prepare_mode self); [done|by apply Forall_app..]. }
  exists (if bool_decide (max_msgs self < length all)%nat then take (max_msgs self) all else all), env'.
  split_and!.
  - unfold bytes_prepare, mbind, io_bind. fold users.
    rewrite Hprep. unfold io_of. by rewrite Henc.
  - case_bool_decide; [rewrite length_take; lia|lia].
  - case_bool_decide; [by apply Forall_take|done].
Qed.

Lemma harmless_accepted self st block env p f :
  env_ok env p f → (length block ≤ max_msgs self)%nat →
  Forall (harmless self (acceptable st env p f)) block →
  ∀ env2, same_view env env2 → ∃ env2', bytes_process self st block env2 = (Done true, env2').
Proof.
  intros Hok Hlen Hall env2 Hv. unfold bytes_process. rewrite bool_decide_eq_false_2 by lia.
  destruct (decode_harmless self _ _ Hall) as (msgs & -> & Hmsgs).
  by apply (acceptable_accepted st env p f).
Qed.
End proposals.
