(* ===== verification/Query.v ===== *)
(** * Queries of the ledger

    [FvmQueryState] of [fendermint/vm/interpreter/src/fvm/state/query.rs] and the query
    interpreter of [fvm/query.rs]: reading actors, calling contracts without effect and
    searching for the gas that a message needs.

    The IPLD store is behind the class [IpldStore].  The rates of the gas estimation are
    [f64], modelled by the executable floats of [SpecFloat]. *)

From Stdlib Require Import SpecFloat.
From S2P Require Import Prelude OrdMap Weights Cache Voting Finality Node Fetch Syncer Merkle Ledger BytesInterp.

(** ** Floats *)

Definition f64 : Type := spec_float.

(** [as f64], the product, and [as u64], which truncates and saturates. *)
Definition f64_of_u64 (n : N) : f64 := binary_normalize 53 1024 (Z.of_N n) 0 false.
Definition f64_mul : f64 → f64 → f64 := SFmul 53 1024.
Definition f64_to_u64 (x : f64) : N :=
  match x with
  | S754_finite false m e => N.min (Z.to_N (Z.shiftl (Zpos m) e)) u64_max
  | S754_infinity false => u64_max
  | _ => 0
  end.

(** [(n as f64 * rate) as u64]. *)
Definition scale (rate : f64) (n : N) : N := f64_to_u64 (f64_mul (f64_of_u64 n) rate).

(** ** The state *)

Class IpldStore `{Machine} := {
  store_get : Cid → string + option Bytes;
  decode_system_state : Bytes → string + Cid;
  decode_manifest : Bytes → string + list (string * Cid);
  SYSTEM_ACTOR_ETH_ADDR : ActorAddress;
  SYS_OUT_OF_GAS : N
}.

Record FvmQueryState `{Machine} := MkQueryState {
  q_block_height : Z;
  q_state_params : FvmStateParams;
  (* the lazily created state *)
  q_exec_state : option FvmExecState;
  (* what the shared slot of the checks holds *)
  q_check_state : option FvmExecState;
  q_pending : bool
}.
Arguments MkQueryState {_ _ _} _ _ _ _ _.

Record GasEstimate `{ChainIds} := MkEstimate {
  est_exit_code : N;
  est_info : string;
  est_return_data : Bytes;
  est_gas_limit : N
}.
Arguments MkEstimate {_} _ _ _ _.

Inductive QueryRet `{ChainIds} :=
| RetIpld (data : option Bytes)
| RetActorState (st : option (N * ActorState))
| RetCall (ret : FvmApplyRet)
| RetEstimateGas (est : GasEstimate)
| RetStateParams (base_fee circ_supply : Z) (chain_id network_version : N)
| RetBuiltinActors (registry : list (string * Cid)).

Section query.
Context `{ParentData, ChainIds, !Machine, !Launch, !IpldStore}.
Variables (gas_overestimation_rate gas_search_step : f64).
Implicit Types (q : FvmQueryState) (msg : FvmMessage) (st : FvmExecState).

(** Run on a state whose changes are reverted. *)
Definition with_revert {T} (st : FvmExecState) (f : stm FvmExecState string T) : outcome string T :=
  fst <$> f st.

Definition with_exec_state {T} (f : stm FvmExecState string T) : stm FvmQueryState string T := λ q,
  match (if q_pending q then q_check_state q else None), q_exec_state q with
  | Some st, _ => r ← with_revert st f; Done (r, q)
  | None, Some st => r ← with_revert st f; Done (r, q)
  | None, None =>
      st ← exec_new (q_block_height q) (q_state_params q);
      r ← with_revert st f;
      Done (r, MkQueryState (q_block_height q) (q_state_params q) (Some st) (q_check_state q) (q_pending q))
  end.

Definition get_actor_state (s : FvmState) (addr : ActorAddress) : outcome string (option (N * ActorState)) :=
  id ← of_sum (tree_lookup_id s addr);
  match id with
  | Some id => actor ← of_sum (tree_get_actor s id); Done (match actor with Some a => Some (id, a) | None => None end)
  | None => Done None
  end.

Definition actor_state (addr : ActorAddress) : stm FvmQueryState string (option (N * ActorState)) :=
  with_exec_state (λ st, r ← get_actor_state (fvm st) addr; Done (r, st)).

Definition is_system_addr (addr : ActorAddress) : bool :=
  bool_decide (addr = SYSTEM_ACTOR_ADDR) || bool_decide (addr = SYSTEM_ACTOR_ETH_ADDR).

Definition set_sequence (n : N) msg : FvmMessage :=
  MkFvmMessage (version msg) (msg_from msg) (msg_to msg) n (msg_value msg) (method_num msg) (params msg)
    (gas_limit msg) (gas_fee_cap msg) (gas_premium msg).
Definition set_gas (limit : N) (fee_cap premium : Z) msg : FvmMessage :=
  MkFvmMessage (version msg) (msg_from msg) (msg_to msg) (sequence msg) (msg_value msg) (method_num msg)
    (params msg) limit fee_cap premium.
Definition set_gas_limit (limit : N) msg : FvmMessage := set_gas limit (gas_fee_cap msg) (gas_premium msg) msg.

(** The message as it is executed: a zero sequence or gas limit stands for a default. *)
Definition with_defaults (s : FvmState) msg : outcome string FvmMessage :=
  msg ← (if bool_decide (sequence msg = 0) then
           id ← of_sum (tree_lookup_id s (msg_from msg));
           match id with
           | Some id =>
               actor ← of_sum (tree_get_actor s id);
               Done (match actor with Some a => set_sequence (actor_sequence a) msg | None => msg end)
           | None => Done msg
           end
         else Done msg);
  Done (if bool_decide (gas_limit msg = 0) then set_gas_limit BLOCK_GAS_LIMIT msg else msg).

Definition call msg : stm FvmQueryState string (ApplyRet * gmap N ActorAddress) :=
  with_exec_state (λ st,
    msg ← with_defaults (fvm st) msg;
    on_fvm (if is_system_addr (msg_from msg) then executor_implicit msg else executor_explicit msg) st).

(** [get_cbor]. *)
Definition get_cbor {T} (decode : Bytes → string + T) (c : Cid) : outcome string (option T) :=
  data ← of_sum (store_get c);
  match data with
  | Some bz => x ← of_sum (decode bz); Done (Some x)
  | None => Done None
  end.

Definition ok_or {T} (o : option T) (e : string) : outcome string T :=
  match o with Some x => Done x | None => Fail e end.

Definition builtin_actors : stm FvmQueryState string (list (string * Cid)) :=
  r ← actor_state SYSTEM_ACTOR_ADDR;
  lift (
    sys ← ok_or r "no system actor";
    state ← get_cbor decode_system_state (actor_head sys.2);
    state ← ok_or state "system actor state not found";
    registry ← get_cbor decode_manifest state;
    ok_or registry "builtin actors manifest not found").

(** ** Estimating gas *)

Definition estimate (ret : ApplyRet) (gas_limit : N) : GasEstimate :=
  MkEstimate (exit_code ret) (default ""%string (failure_info ret)) (return_data ret) gas_limit.

(** Execute with all the gas of a block and without fees; on success, the message to
    search with. *)
Definition estimate_gassed_msg msg : stm FvmQueryState string (GasEstimate + FvmMessage) :=
  let premium := gas_premium msg in
  let fee_cap := gas_fee_cap msg in
  let msg := set_gas BLOCK_GAS_LIMIT 0 0 msg in
  r ← call msg;
  let ret := r.1 in
  if negb (exit_code_is_success ret) then mret (inl (estimate ret 0))
  else
    let limit := scale gas_overestimation_rate (gas_used ret) in
    let premium := if bool_decide (premium = 0%Z) then 1000000000%Z else premium in
    let fee_cap := if bool_decide (fee_cap = 0%Z) then premium else fee_cap in
    mret (inr (set_gas limit fee_cap premium msg)).

Definition estimation_call_with_limit msg (limit : N) : stm FvmQueryState string (option GasEstimate) :=
  r ← call (set_sequence 0 (set_gas_limit limit msg));
  let est := estimate r.1 (gas_used r.1) in
  mret (if bool_decide (est_exit_code est = ExitCode_OK) || negb (bool_decide (est_exit_code est = SYS_OUT_OF_GAS))
        then Some est else None).

Fixpoint gas_search (fuel : nat) msg (curr_limit : N) : stm FvmQueryState string GasEstimate :=
  match fuel with
  | O => λ _, OutOfFuel
  | S fuel =>
      est ← estimation_call_with_limit msg curr_limit;
      match est with
      | Some est => mret est
      | None =>
          let curr_limit := scale gas_search_step curr_limit in
          if bool_decide (BLOCK_GAS_LIMIT < curr_limit)
          then mret (MkEstimate ExitCode_OK "" raw_bytes_default BLOCK_GAS_LIMIT)
          else gas_search fuel msg curr_limit
      end
  end.

Definition fvm_query (fuel : nat) (qry : FvmQuery) : stm FvmQueryState string QueryRet :=
  match qry with
  | QueryIpld c => data ← lift (of_sum (store_get c)); mret (RetIpld data)
  | QueryActorState addr => ret ← actor_state addr; mret (RetActorState ret)
  | QueryCall msg =>
      r ← call msg;
      mret (RetCall (MkApplyRet r.1 (msg_from msg) (msg_to msg) (method_num msg) (gas_limit msg) r.2))
  | QueryEstimateGas msg =>
      r ← estimate_gassed_msg msg;
      match r with
      | inl est => mret (RetEstimateGas est)
      | inr msg =>
          est ← gas_search fuel msg (gas_limit msg);
          mret (RetEstimateGas (MkEstimate (est_exit_code est) (est_info est) (est_return_data est)
            (scale gas_overestimation_rate (est_gas_limit est))))
      end
  | QueryStateParams =>
      p ← reads q_state_params;
      mret (RetStateParams (sp_base_fee p) (sp_circ_supply p) (sp_chain_id p) (sp_network_version p))
  | QueryBuiltinActors => ret ← builtin_actors; mret (RetBuiltinActors ret)
  end.
End query.

(** ** Queries do not disturb each other *)

Section isolation.
Context `{ParentData, ChainIds, !Machine, !Launch, !IpldStore}.
Variables (rate step : f64).
Implicit Types (q : FvmQueryState) (msg : FvmMessage) (st : FvmExecState).

(** The state that queries are run on: that of the mempool, the cached one or a new one. *)
Definition source q : outcome string FvmExecState :=
  match (if q_pending q then q_check_state q else None), q_exec_state q with
  | Some st, _ => Done st
  | None, Some st => Done st
  | None, None => exec_new (q_block_height q) (q_state_params q)
  end.

(** The state of a query after it has been run on. *)
Definition loaded q : FvmQueryState :=
  match (if q_pending q then q_check_state q else None), q_exec_state q with
  | None, None =>
      match exec_new (q_block_height q) (q_state_params q) with
      | Done st =>
          MkQueryState (q_block_height q) (q_state_params q) (Some st) (q_check_state q) (q_pending q)
      | _ => q
      end
  | _, _ => q
  end.

Lemma with_exec_source {T} (f : stm FvmExecState string T) q :
  with_exec_state f q = (st ← source q; r ← with_revert st f; Done (r, loaded q)).
Proof.
  unfold with_exec_state, source, loaded.
  destruct (if q_pending q then q_check_state q else None) as [st|], (q_exec_state q) as [st'|]; try done.
  by destruct (exec_new _ _).
Qed.

Lemma source_loaded q : source (loaded q) = source q.
Proof.
  unfold loaded, source. destruct (if q_pending q then _ else _) as [st|] eqn:Hp.
  { by destruct (q_exec_state q); rewrite Hp. }
  destruct (q_exec_state q) as [st|] eqn:Hx; [by rewrite Hp, Hx|].
  destruct (exec_new _ _) as [st| | | |] eqn:Hnew; cbn; rewrite Hp; rewrite ?Hx, ?Hnew; done.
Qed.

Lemma params_loaded q : q_state_params (loaded q) = q_state_params q.
Proof. unfold loaded. repeat case_match; done. Qed.

(** Two states that queries cannot tell apart. *)
Definition alike q q' : Prop := source q = source q' ∧ q_state_params q = q_state_params q'.

#[export] Instance alike_equiv : Equivalence alike.
Proof. split; [by split|by intros ?? []; split|intros ??? [] []; split; congruence]. Qed.

Lemma loaded_alike q : alike (loaded q) q.
Proof. split; [apply source_loaded|apply params_loaded]. Qed.

(** Code that behaves alike on states that are alike, and leaves them alike. *)
Definition uniform {T} (tx : stm FvmQueryState string T) : Prop := ∀ q q', alike q q' →
  match tx q, tx q' with
  | Done (x, p), Done (x', p') => x = x' ∧ alike p q ∧ alike p' q
  | Fail e, Fail e' => e = e'
  | Retry, Retry | Panic, Panic | OutOfFuel, OutOfFuel => True
  | _, _ => False
  end.

Lemma uniform_ret {T} (x : T) : uniform (mret x).
Proof. intros q q' Hq. by split_and!; [|reflexivity|symmetry]. Qed.

Lemma uniform_lift {T} (m : outcome string T) : uniform (lift m).
Proof. intros q q' Hq. unfold lift. by destruct m. Qed.

Lemma uniform_params : uniform (reads q_state_params).
Proof. intros q q' Hq. by split_and!; [apply Hq|reflexivity|symmetry]. Qed.

Lemma uniform_bind {A B} (m : stm FvmQueryState string A) (f : A → stm FvmQueryState string B) :
  uniform m → (∀ a, uniform (f a)) → uniform (m ≫= f).
Proof.
  intros Hm Hf q q' Hq. specialize (Hm q q' Hq). unfold mbind, stm_bind.
  destruct (m q) as [[x p]| | | |], (m q') as [[x' p']| | | |]; try done.
  destruct Hm as (<- & Hp & Hp'). assert (alike p p') as Hpp by (by transitivity q; [|symmetry]).
  specialize (Hf x p p' Hpp). destruct (f x p) as [[y r]| | | |], (f x p') as [[y' r']| | | |]; try done.
  destruct Hf as (<- & Hr & Hr'). split_and!; [done|by transitivity p..].
Qed.

Lemma uniform_exec {T} (f : stm FvmExecState string T) : uniform (with_exec_state f).
Proof.
  intros q q' Hq. rewrite !with_exec_source, <-(proj1 Hq).
  destruct (source q) as [st| | | |]; try done. cbn [mbind outcome_bind].
  destruct (with_revert st f) as [r| | | |]; try done. cbn [mbind outcome_bind].
  split_and!; [done|apply loaded_alike|]. transitivity q'; [apply loaded_alike|by symmetry].
Qed.

#[local] Create HintDb uniform.
#[local] Hint Resolve uniform_ret uniform_lift uniform_params uniform_exec : uniform.
Ltac solve_uniform := repeat first
  [ apply uniform_bind; [|intros ?] | case_match | solve [eauto with uniform] ].

Lemma uniform_call msg : uniform (call msg).
Proof. apply uniform_exec. Qed.
#[local] Hint Resolve uniform_call : uniform.

Lemma uniform_search fuel msg limit : uniform (gas_search step fuel msg limit).
Proof.
  revert limit. induction fuel as [|fuel IH]; intros limit; cbn [gas_search]; [by intros q q' _|].
  unfold estimation_call_with_limit. solve_uniform.
Qed.
#[local] Hint Resolve uniform_search : uniform.

Lemma uniform_query fuel qry : uniform (fvm_query rate step fuel qry).
Proof.
  destruct qry; cbn [fvm_query]; unfold actor_state, builtin_actors, estimate_gassed_msg, actor_state;
    solve_uniform.
Qed.

(** A query changes nothing that a query can see: whatever is asked on a
    state after it has answered, be it calls with effects or estimations that execute many
    times, the answer is the one that the state would have given before. *)
Lemma query_isolated fuel qry fuel' qry' q x q'
    (Hrun : fvm_query rate step fuel qry q = Done (x, q')) :
  fst <$> fvm_query rate step fuel' qry' q' = fst <$> fvm_query rate step fuel' qry' q.
Proof.
  pose proof (uniform_query fuel qry q q ltac:(reflexivity)) as Hq. rewrite Hrun in Hq.
  destruct Hq as (_ & Hq & _). pose proof (uniform_query fuel' qry' q' q Hq) as Hu.
  destruct (fvm_query _ _ _ qry' q') as [[y p]| | | |], (fvm_query _ _ _ qry' q) as [[y' p']| | | |]; try done.
  - by destruct Hu as [-> _].
  - by rewrite Hu.
Qed.
End isolation.

(** ** The search for a gas limit *)

Section search.
Context `{ParentData, ChainIds, !Machine, !Launch, !IpldStore}.
Variable (step : f64).
Implicit Types (q : FvmQueryState) (msg : FvmMessage) (st : FvmExecState).

(** The limits that are tried, one after the other. *)
Definition limit_at (limit : N) (i : nat) : N := Nat.iter i (scale step) limit.

Lemma limit_at_S limit i : limit_at limit (S i) = limit_at (scale step limit) i.
Proof. unfold limit_at. symmetry. apply Nat.iter_swap. Qed.

(** Executing the message with a limit. *)
Definition probe st msg (limit : N) : outcome string (ApplyRet * gmap N ActorAddress) :=
  with_revert st (λ st,
    msg ← with_defaults (fvm st) (set_sequence 0 (set_gas_limit limit msg));
    on_fvm (if is_system_addr (msg_from msg) then executor_implicit msg else executor_explicit msg) st).

Definition out_of_gas (ret : ApplyRet) : Prop := exit_code ret = SYS_OUT_OF_GAS.
#[export] Instance out_of_gas_dec ret : Decision (out_of_gas ret) := decide (exit_code ret = SYS_OUT_OF_GAS).

Lemma estimation_call_probe msg limit q st ret em :
  ExitCode_OK ≠ SYS_OUT_OF_GAS → source q = Done st → probe st msg limit = Done (ret, em) →
  estimation_call_with_limit msg limit q =
    Done (if bool_decide (out_of_gas ret) then None else Some (estimate ret (gas_used ret)), loaded q).
Proof.
  intros Hcodes Hs Hp. unfold estimation_call_with_limit, call, mbind at 1, stm_bind at 1.
  rewrite with_exec_source, Hs. cbn [mbind outcome_bind]. unfold probe in Hp. rewrite Hp.
  cbn [mbind outcome_bind fst estimate est_exit_code]. unfold mret, stm_ret.
  do 2 f_equal. destruct (decide (out_of_gas ret)) as [Ho|Ho].
  - rewrite !(bool_decide_eq_true_2 _ Ho), (bool_decide_eq_false_2 (_ = ExitCode_OK)) by congruence. done.
  - rewrite !(bool_decide_eq_false_2 _ Ho). by rewrite orb_true_r.
Qed.

(** If raising the limit step by step exceeds the gas limit of a block
    after some number of steps, the search ends within that many calls.  It has tried the
    limits in turn on one and the same state, every one but the last ran out of gas, and
    the estimate is the last one's gas and exit code, or the whole limit of a block with
    the exit code of success if that one ran out of gas as well and the next limit would
    have been too high. *)
Lemma gas_search_spec msg limit q st (out : N → ApplyRet) k
    (Hcodes : ExitCode_OK ≠ SYS_OUT_OF_GAS)
    (Hst : source q = Done st)
    (Hout : ∀ l, ∃ em, probe st msg l = Done (out l, em))
    (Hk : BLOCK_GAS_LIMIT < limit_at limit k) (Hpos : (0 < k)%nat) :
  ∃ est j q', gas_search step k msg limit q = Done (est, q') ∧ source q' = source q ∧ (j < k)%nat ∧
    (∀ i, (i < j)%nat → out_of_gas (out (limit_at limit i)) ∧ limit_at limit (S i) ≤ BLOCK_GAS_LIMIT) ∧
    let last := out (limit_at limit j) in
    if bool_decide (out_of_gas last)
    then BLOCK_GAS_LIMIT < limit_at limit (S j) ∧
         est = MkEstimate ExitCode_OK "" raw_bytes_default BLOCK_GAS_LIMIT
    else est = estimate last (gas_used last).
Proof.
  revert limit q Hst Hk. induction k as [|k IH]; intros limit q Hst Hk; [lia|].
  destruct (Hout limit) as [em Hem]. cbn [gas_search]. unfold mbind at 1, stm_bind at 1.
  rewrite (estimation_call_probe _ _ _ _ _ _ Hcodes Hst Hem). cbv beta iota.
  case_bool_decide as Ho.
  - case_bool_decide as Hlim.
    + eexists _, O, _. split_and!; [done|apply source_loaded|lia|lia|].
      unfold limit_at; cbn [Nat.iter]. by rewrite bool_decide_eq_true_2.
    + rewrite limit_at_S in Hk. assert (0 < k)%nat as Hk0 by (destruct k; [by apply Hlim in Hk|lia]).
      destruct (IH Hk0 (scale step limit) (loaded q)) as (est & j & q' & Hrun & Hs & Hj & Hall & Hlast);
        [by rewrite source_loaded|done|].
      exists est, (S j), q'. rewrite source_loaded in Hs. split_and!; [done|done|lia| |].
      * intros [|i] Hi; [split; [done|unfold limit_at; cbn; lia]|]. rewrite (limit_at_S limit i), (limit_at_S limit (S i)). apply Hall. lia.
      * by rewrite (limit_at_S limit j), (limit_at_S limit (S j)).
  - eexists _, O, _. split_and!; [done|apply source_loaded|lia|lia|].
    unfold limit_at; cbn [Nat.iter]. by rewrite bool_decide_eq_false_2.
Qed.

(** A limit that the step does not raise, with which the message runs out of gas, is tried
    for ever. *)
Lemma gas_search_stuck msg limit q st ret em fuel :
  ExitCode_OK ≠ SYS_OUT_OF_GAS → source q = Done st → probe st msg limit = Done (ret, em) → out_of_gas ret →
  scale step limit = limit → limit ≤ BLOCK_GAS_LIMIT → gas_search step fuel msg limit q = OutOfFuel.
Proof.
  intros Hcodes Hst Hp Ho Hfix Hle. revert q Hst. induction fuel as [|fuel IH]; intros q Hst; [done|].
  cbn [gas_search]. unfold mbind at 1, stm_bind at 1.
  rewrite (estimation_call_probe _ _ _ _ _ _ Hcodes Hst Hp), bool_decide_eq_true_2 by done. cbv beta iota.
  rewrite Hfix, bool_decide_eq_false_2 by lia. apply IH. by rewrite source_loaded.
Qed.
End search.

(** ** Examples *)

Module SampleQuery.
#[local] Existing Instance dev_profile.
#[local] Existing Instance sample_data.

#[export] Instance query_ids : ChainIds := {|
  Cid := N; Bytes := N; ActorAddress := N; Subnet := N; MultiSig := N; Signature := N
|}.

(** A ledger that is a counter: a message needs three million units of gas and increments it. *)
Definition count_up (m : FvmMessage) : stm N string ApplyRet := λ n,
  if bool_decide (gas_limit m < 3000000) then Done (MkRet 7 0 (gas_limit m) (Some "out of gas"%string) [], n)
  else Done (MkRet 0 n 3000000 None [], n + 1).

#[export] Instance query_machine : Machine := {|
  FvmState := N;
  decode_object _ := inr None;
  ExitCode_OK := 0;
  SYS_SENDER_INVALID := 1;
  SYS_SENDER_STATE_INVALID := 2;
  SYS_ASSERTION_FAILED := 10;
  cid_to_bytes c := c;
  SYSTEM_ACTOR_ADDR := 0;
  GATEWAY_ACTOR_ADDR := 64;
  METHOD_INVOKE_CONTRACT := 3844450837;
  GetObject := 1;
  ResolveObject := 2;
  BLOCK_GAS_LIMIT := 10000000000;
  raw_bytes_default := 0;
  serialize_get_params k := inr k;
  serialize_resolve_params k _ := inr k;
  cid_of_relayed m := inr (relay_sequence m);
  block_hash_len _ := 32;
  envelope_value m := Z.of_N m;
  EvmChange := N;
  change_to_evm c := Done c;
  EvmEnvelope := N;
  envelope_to_evm m := Done m;
  message_check _ := None;
  message_length _ := inr 0;
  context_epoch _ := 0%Z;
  context_timestamp _ := 0;
  context_chain_id _ := 0;
  tree_lookup_id _ a := inr (Some a);
  tree_get_actor n _ := inr (Some (MkActor 0 0 n 0 None));
  tree_set_actor _ _ n := n;
  executor_execute m _ _ := count_up m;
  executor_flush n := Done (n, n);
  gateway_commit_parent_finality f n := Done ((false, f), n);
  gateway_store_validator_changes _ n := Done (tt, n);
  gateway_apply_cross_messages _ n := Done (MkApplyRet (MkRet 0 0 0 None []) 0 64 0 0 ∅, n);
  credit_gateway_actor _ n := Done (tt, n)
|}.

#[export] Instance query_launch : Launch := {| machine_new _ p := inr (sp_state_root p) |}.
#[export] Instance query_store : IpldStore := {|
  store_get c := inr (Some c);
  decode_system_state b := inr b;
  decode_manifest b := inr [("system"%string, b)];
  SYSTEM_ACTOR_ETH_ADDR := 1;
  SYS_OUT_OF_GAS := 7
|}.

(** The rates of the default configuration, 1.25. *)
Definition five_quarters : f64 := S754_finite false 5629499534213120 (-52).
Definition latest : FvmQueryState := MkQueryState 5 (MkStateParams 41 0 21 0 0 1 3 0) None None false.
Definition latest_exec : FvmExecState := MkExecState (41 : FvmState) None None (MkUpdatable 0 0 0 3) false.
Definition transfer : FvmMessage := MkFvmMessage 0 100 101 0 0 0 0 0 0 0.
Definition outcome_at (limit : N) : ApplyRet :=
  let limit := if bool_decide (limit = 0) then 10000000000 else limit in
  if bool_decide (limit < 3000000) then MkRet 7 0 limit (Some "out of gas"%string) [] else MkRet 0 41 3000000 None [].
Definition called : QueryRet * FvmQueryState :=
  done_or (RetIpld None, latest) (fvm_query five_quarters five_quarters 60 (QueryEstimateGas transfer) latest).

Lemma probes l : ∃ em, probe latest_exec transfer l = Done (outcome_at l, em).
Proof.
  exists ∅. unfold outcome_at, probe, with_revert, with_defaults, is_system_addr, mbind, outcome_bind. cbn.
  destruct (decide (l = 0)) as [->|Hl]; [done|]. rewrite (bool_decide_eq_false_2 _ Hl).
  rewrite (bool_decide_eq_true_2 (0 = 0)) by done. cbn. rewrite (bool_decide_eq_false_2 _ Hl).
  unfold execute_message, count_up, on_fvm, zoom, mbind, stm_bind. cbn.
  rewrite !(bool_decide_eq_false_2 (100 = _)) by done. cbn. by case_bool_decide.
Qed.
End SampleQuery.

Section witnesses.
#[local] Existing Instance dev_profile.
#[local] Existing Instance sample_data.
Import SampleQuery.

(** A call after an estimation returns what it would have returned before. *)
Lemma query_isolated_witness :
  fst <$> fvm_query five_quarters five_quarters 60 (QueryCall transfer) called.2 =
  fst <$> fvm_query five_quarters five_quarters 60 (QueryCall transfer) latest.
Proof.
  apply (query_isolated five_quarters five_quarters 60 (QueryEstimateGas transfer) 60 (QueryCall transfer)
    latest called.1 called.2).
  transitivity (Done (E:=string) called); [apply done_or_eq; vm_compute; reflexivity|by destruct called].
Defined.

(** From a million on, the limit exceeds ten thousand million after 42 steps; the search
    finds the three million. *)
Lemma gas_search_spec_witness :
  (∃ est j q', gas_search five_quarters 42 transfer 1000000 latest = Done (est, q') ∧
    source q' = source latest ∧ (j < 42)%nat ∧
    (∀ i, (i < j)%nat → out_of_gas (outcome_at (limit_at five_quarters 1000000 i)) ∧
                        limit_at five_quarters 1000000 (S i) ≤ BLOCK_GAS_LIMIT) ∧
    let last := outcome_at (limit_at five_quarters 1000000 j) in
    if bool_decide (out_of_gas last)
    then BLOCK_GAS_LIMIT < limit_at five_quarters 1000000 (S j) ∧
         est = MkEstimate ExitCode_OK "" raw_bytes_default BLOCK_GAS_LIMIT
    else est = estimate last (gas_used last)) ∧
  limit_at five_quarters 1000000 5 = 3051757.
Proof.
  split; [|vm_compute; reflexivity].
  apply (gas_search_spec five_quarters transfer 1000000 latest latest_exec outcome_at 42);
    [done|done|apply probes|vm_compute; reflexivity|lia].
Defined.

(** With the default step, limits below four are never raised. *)
Lemma small_limits_stuck :
  scale five_quarters 1 = 1 ∧ scale five_quarters 2 = 2 ∧ scale five_quarters 3 = 3 ∧ scale five_quarters 4 = 5.
Proof. by vm_compute. Qed.
End witnesses.
