(* ===== verification/App.v ===== *)
(** * The ABCI application

    [App] of [fendermint/app/src/app.rs]: the requests of CometBFT, the state that is
    committed after each block, its history and how it is pruned, and the slots that hold
    the state of the block under execution and of the mempool checks.

    The databases are maps; creating a machine from a state, genesis and the hash of a
    state are behind the class [Backend].  Responses are modelled by their codes, heights
    and hashes, without events and texts. *)

From Stdlib Require Import Strings.Byte.
From stdpp Require Import vector.
From S2P Require Import Prelude OrdMap Weights Cache Voting Finality Node Fetch Syncer Pool Merkle.
From S2P Require Import Ledger Chain BytesInterp.

(** ** State *)

(** [FvmGenesisOutput]; its validators are keys with powers. *)
Record GenesisOutput `{ParentData} := MkGenesisOutput {
  go_chain_id : N;
  go_timestamp : N;
  go_network_version : N;
  go_base_fee : Z;
  go_power_scale : Z;
  go_circ_supply : Z;
  go_validators : list (ValidatorKey * N)
}.

Arguments MkGenesisOutput {_} _ _ _ _ _ _ _.

Class Backend `{Codec} := {
  check_new : FvmExecState → CheckState;
  query_new : Z → FvmStateParams → option CheckState → bool → string + QueryState;
  (* the code in the response to a check *)
  check_code : CheckRes → N;
  empty_state_root : Cid;
  genesis_init : Genesis → string + (Cid * GenesisOutput);
  to_app_hash : FvmStateParams → Hash;
  (* the key of an update as CometBFT has it *)
  to_pub_key : ValidatorKey → option N
}.

Inductive AppError := InvalidEncoding | InvalidSignature | IllegalMessageError | NotInitialized.
Definition app_error_code (e : AppError) : N :=
  match e with
  | InvalidEncoding => 51
  | InvalidSignature => 52
  | IllegalMessageError => 53
  | NotInitialized => 54
  end.

Record AppState `{ChainIds} := MkAppState {
  as_block_height : N;
  oldest_state_height : N;
  as_params : FvmStateParams
}.
Arguments MkAppState {_} _ _ _.

Record AppConfig := MkAppConfig { state_hist_size : N; halt_height : Z }.

Record App `{ParentQueryProxy, ChainIds, !Machine, !Inner} := MkApp {
  app_state : option AppState;
  state_hist : gmap N FvmStateParams;
  exec_state : option FvmExecState;
  check_state : option CheckState;
  chain_env : ChainEnv
}.
Arguments MkApp {_ _ _ _ _} _ _ _ _ _.

(** The header of a block, as far as it is read. *)
Record Header := MkHeader {
  hdr_height : N;
  hdr_time : Z;
  hdr_hash : option Hash;
  hdr_proposer : vec byte 20
}.

(** [take_until_max_size] of [fendermint/abci/src/util.rs], on the lengths. *)
Fixpoint take_until_max_size {A} (len : A → N) (txs : list A) (max_tx_bytes size : N) : list A :=
  match txs with
  | [] => []
  | tx :: txs =>
      if bool_decide (max_tx_bytes < N.min (size + len tx) u64_max) then []
      else tx :: take_until_max_size len txs max_tx_bytes (size + len tx)
  end.

Section app.
Context `{Profile, Scheduler, !ChainIds, !Machine, !Inner, !Resolvers, !Codec, !Launch, !Backend}.
Variables (config : AppConfig) (interpreter : BytesMessageInterpreter).
Implicit Types (app : App).

Definition set_db s hist app : App :=
  MkApp s hist (exec_state app) (check_state app) (chain_env app).
Definition set_exec st app : App :=
  MkApp (app_state app) (state_hist app) st (check_state app) (chain_env app).
Definition set_check st app : App :=
  MkApp (app_state app) (state_hist app) (exec_state app) st (chain_env app).
Definition set_env env app : App :=
  MkApp (app_state app) (state_hist app) (exec_state app) (check_state app) env.

(** Code of the interpreters, which works on the shared environment. *)
Definition on_env {A} (m : io ChainEnv string A) : io App string A := λ app,
  let '(r, env) := m (chain_env app) in (r, set_env env app).

Definition state_height (s : AppState) : outcome string N := u64_add (as_block_height s) 1.

Fixpoint prune (fuel : nat) (hist : gmap N FvmStateParams) (oldest prune_height : N)
    : outcome string (gmap N FvmStateParams * N) :=
  match fuel with
  | O => OutOfFuel
  | S fuel =>
      if bool_decide (oldest ≤ prune_height) then
        next ← u64_add oldest 1;
        prune fuel (delete oldest hist) next prune_height
      else Done (hist, oldest)
  end.

(** A database transaction: an error leaves everything as it was. *)
Definition set_committed_state (s : AppState) : io App string unit := λ app,
  let tx :=
    top ← state_height s;
    let hist := <[top := as_params s]> (state_hist app) in
    r ← (if bool_decide (0 < state_hist_size config ∧ state_hist_size config ≤ top) then
           let prune_height := top - state_hist_size config in
           prune (S (N.to_nat (prune_height + 1 - oldest_state_height s))) hist
             (oldest_state_height s) prune_height
         else Done (hist, oldest_state_height s));
    Done (r.1, MkAppState (as_block_height s) r.2 (as_params s)) in
  match tx with
  | Done (hist, s) => (Done tt, set_db (Some s) hist app)
  | Fail e => (Fail e, app)
  | Retry => (Retry, app)
  | Panic => (Panic, app)
  | OutOfFuel => (OutOfFuel, app)
  end.

Definition empty_params : FvmStateParams :=
  {| sp_state_root := empty_state_root; sp_timestamp := 0; sp_network_version := 0; sp_base_fee := 0;
     sp_circ_supply := 0; sp_chain_id := 0; sp_power_scale := 0; sp_app_version := 0 |}.

Definition init_committed_state : io App string unit :=
  s ← io_reads app_state;
  match s with
  | Some _ => mret tt
  | None => set_committed_state (MkAppState 0 0 empty_params)
  end.

Definition committed_state : io App string AppState :=
  s ← io_reads app_state;
  match s with
  | Some s => mret s
  | None => io_of (Fail "app state not found"%string)
  end.

(** Writing the slots. *)
Definition store_exec (st : option FvmExecState) : io App string unit := λ app,
  (Done tt, set_exec st app).
Definition store_check (st : option CheckState) : io App string unit := λ app,
  (Done tt, set_check st app).

Definition put_exec_state (st : FvmExecState) : io App string unit := λ app,
  match exec_state app with
  | Some _ => (Panic, app)
  | None => (Done tt, set_exec (Some st) app)
  end.

Definition take_exec_state : io App string FvmExecState := λ app,
  match exec_state app with
  | Some st => (Done st, set_exec None app)
  | None => (Panic, app)
  end.

(** The slot stays empty when the function fails. *)
Definition modify_exec_state {A} (f : FvmExecState → io ChainEnv string (A * FvmExecState)) : io App string A :=
  st ← take_exec_state;
  r ← on_env (f st);
  store_exec (Some r.2) ;;
  mret r.1.

Definition can_query_state (height : N) (p : FvmStateParams) : bool :=
  negb (bool_decide (height = 0 ∧ sp_timestamp p = 0 ∧ sp_network_version p = 0)).

Definition state_params_at_height (height : FvmQueryHeight) : io App string (FvmStateParams * N) :=
  found ← match height with
          | AtHeight h => hist ← io_reads state_hist; mret ((λ p, (p, h)) <$> hist !! h)
          | _ => mret None
          end;
  match found with
  | Some r => mret r
  | None => s ← committed_state; mret (as_params s, as_block_height s)
  end.

(** [new_read_only_exec_state]. *)
Definition new_read_only_exec_state : io App string (option FvmExecState) :=
  s ← io_reads app_state;
  match s with
  | None => mret None
  | Some s =>
      if negb (can_query_state (as_block_height s) (as_params s)) then mret None
      else st ← io_of (exec_new (as_epoch (as_block_height s)) (as_params s)); mret (Some st)
  end.

(** [u64] to [i64], as the conversion of a height does it. *)
Definition to_height (h : N) : outcome string N :=
  if bool_decide (h ≤ i64_max) then Done h else Fail "integer overflow"%string.

(** *** Requests *)

(** [to_validator_updates]: a power has to fit an [i64]. *)
Fixpoint to_validator_updates (vs : list (ValidatorKey * N)) : outcome string (list (N * N)) :=
  match vs with
  | [] => Done []
  | (key, p) :: vs =>
      pub_key ← match to_pub_key key with
                | Some k => Done k
                | None => Fail "failed to convert public key"%string
                end;
      power ← (if bool_decide (p ≤ i64_max) then Done p else Fail "integer overflow"%string);
      rest ← to_validator_updates vs;
      Done ((pub_key, power) :: rest)
  end.

Definition info : io App string (N * N * Hash) :=
  s ← committed_state;
  height ← io_of (to_height (as_block_height s));
  mret (sp_app_version (as_params s), height, to_app_hash (as_params s)).

Definition init_chain (genesis : Raw) (initial_height : N)
    : io App string (list (N * N) * Hash) :=
  g ← io_of (of_sum (parse_genesis genesis));
  r ← io_of (of_sum (genesis_init g));
  let '(state_root, out) := r in
  validators ← io_of (to_validator_updates (go_validators out));
  height ← io_of (u64_sub initial_height 1);
  let params := {| sp_state_root := state_root; sp_timestamp := go_timestamp out;
                   sp_network_version := go_network_version out; sp_base_fee := go_base_fee out;
                   sp_circ_supply := go_circ_supply out; sp_chain_id := go_chain_id out;
                   sp_power_scale := go_power_scale out; sp_app_version := 0 |} in
  set_committed_state (MkAppState height height params) ;;
  mret (validators, to_app_hash params).

Inductive QueryResponse := QueryInvalid (e : AppError) | QueryAnswer (ret : FvmQueryRet) (height : N).

Definition query (height : N) (path : string) (bz : Raw) : io App string QueryResponse :=
  let qh := query_height_of height in
  r ← state_params_at_height qh;
  let '(params, block_height) := r in
  if negb (can_query_state block_height params) then mret (QueryInvalid NotInitialized)
  else
    epoch ← io_of (to_height block_height);
    checks ← io_reads check_state;
    qs ← io_of (of_sum (query_new (Z.of_N epoch) params checks (bool_decide (qh = Pending))));
    r ← io_of (bytes_query path bz qs);
    match r.1 with
    | inl _ => mret (QueryInvalid InvalidEncoding)
    | inr ret => h ← io_of (to_height block_height); mret (QueryAnswer ret h)
    end.

(** The state of the checks is taken out of its slot and put back after a check. *)
Definition check_tx (tx : Raw) (is_recheck : bool) : io App string N :=
  guard ← io_reads check_state;
  store_check None ;;
  st ← match guard with
       | Some st => mret st
       | None =>
           s ← committed_state;
           epoch ← io_of (to_height (as_block_height s));
           st ← io_of (exec_new (Z.of_N epoch) (as_params s));
           mret (check_new st)
       end;
  r ← io_of (bytes_check tx is_recheck st);
  store_check (Some r.2) ;;
  mret (match r.1 with
        | inl _ => app_error_code InvalidEncoding
        | inr IllegalMessage => app_error_code IllegalMessageError
        | inr (Checked ret) => check_code ret
        end).

(** The machine on which proposals are prepared and processed. *)
Definition proposal_state : io App string FvmExecState :=
  s ← committed_state;
  io_of (exec_new (as_epoch (as_block_height s)) (as_params s)).

Definition prepare_proposal (txs : list Raw) (max_tx_bytes : Z) : io App string (list Raw) :=
  st ← proposal_state;
  txs ← on_env (bytes_prepare interpreter st txs);
  max_tx_bytes ← io_of (if bool_decide (0 ≤ max_tx_bytes)%Z then Done (Z.to_N max_tx_bytes) else Panic);
  mret (take_until_max_size raw_length txs max_tx_bytes 0).

Definition process_proposal (txs : list Raw) : io App string bool :=
  st ← proposal_state;
  on_env (bytes_process interpreter st txs).

Definition to_timestamp (time : Z) : outcome string N :=
  if bool_decide (0 ≤ time)%Z then Done (Z.to_N time) else Panic.

(** A node that has reached its halt height stops, everything else begins the block. *)
Inductive BeginResponse := Halted | Begun (ret : ApplyResult).

Definition abci_begin_block (hdr : Header) : io App string BeginResponse :=
  match hdr_hash hdr with
  | None => io_of (Fail "empty block hash"%string)
  | Some block_hash =>
      let height := Z.of_N (hdr_height hdr) in
      if negb (bool_decide (halt_height config = 0%Z)) && bool_decide (height = halt_height config)
      then mret Halted
      else
        s ← committed_state;
        time ← io_of (to_timestamp (hdr_time hdr));
        let p := as_params s in
        let params := MkStateParams (sp_state_root p) time (sp_network_version p)
          (sp_base_fee p) (sp_circ_supply p) (sp_chain_id p) (sp_power_scale p) (sp_app_version p) in
        st ← io_of (exec_new height params);
        put_exec_state (with_validator_id (hdr_proposer hdr) (with_block_hash block_hash st)) ;;
        ret ← modify_exec_state bytes_begin;
        mret (Begun ret)
  end.

Definition to_code (ret : ApplyRet) : N := if exit_code_is_success ret then 0 else exit_code ret.

Definition deliver_code (r : string + ChainMessageApplyRet) : N :=
  match r with
  | inl _ => app_error_code InvalidEncoding
  | inr (RetSigned (inl _)) => app_error_code InvalidSignature
  | inr (RetSigned (inr ret)) => to_code (apply_ret ret)
  | inr (RetIpc ret) => to_code (apply_ret ret)
  end.

Definition deliver_tx (tx : Raw) : io App string N :=
  r ← modify_exec_state (λ st, bytes_deliver st tx);
  mret (deliver_code r).

Definition abci_end_block : io App string (list (N * N)) :=
  ret ← modify_exec_state bytes_end;
  io_of (to_validator_updates ((λ u, (update_key u, update_power u)) <$> ret)).

Definition commit : io App string (Hash * N) :=
  st ← take_exec_state;
  s ← committed_state;
  height ← io_of (if bool_decide (0 ≤ block_height st)%Z then Done (Z.to_N (block_height st))
                  else Fail "out of range"%string);
  r ← io_of (commit_state st);
  let '(state_root, up, _) := r in
  let p := as_params s in
  let params := {| sp_state_root := state_root; sp_timestamp := timestamp st;
                   sp_network_version := sp_network_version p; sp_base_fee := base_fee up;
                   sp_circ_supply := p_circ_supply up; sp_chain_id := sp_chain_id p;
                   sp_power_scale := power_scale up; sp_app_version := app_version up |} in
  let retain_height := if bool_decide (state_hist_size config = 0) then 0
                       else height - state_hist_size config in
  set_committed_state (MkAppState height (oldest_state_height s) params) ;;
  store_check None ;;
  retain_height ← io_of (if bool_decide (retain_height ≤ i64_max) then Done retain_height else Panic);
  mret (to_app_hash params, retain_height).

(** What [apply_snapshot_chunk] does with the last chunk: adopt the state of the manifest. *)
Definition adopt_snapshot (height : N) (params : FvmStateParams) : io App string unit :=
  s ← committed_state;
  set_committed_state (MkAppState height (oldest_state_height s) params).

(** *** A block *)

Fixpoint deliver_all (txs : list Raw) : io App string (list N) :=
  match txs with
  | [] => mret []
  | tx :: txs => c ← deliver_tx tx; cs ← deliver_all txs; mret (c :: cs)
  end.

Definition run_block (hdr : Header) (txs : list Raw) : io App string (option (Hash * N)) :=
  b ← abci_begin_block hdr;
  match b with
  | Halted => mret None
  | Begun _ =>
      deliver_all txs ;;
      abci_end_block ;;
      r ← commit;
      mret (Some r)
  end.
End app.

(** ** The history of states *)

Section history.
Context `{Profile, Scheduler, !ChainIds, !Machine, !Inner, !Resolvers, !Codec, !Launch, !Backend}.
Variables (config : AppConfig).
Implicit Types (app : App) (hist : gmap N FvmStateParams) (s : AppState).

(** The states kept when the newest one is at a height: all, or the last few. *)
Definition window (top : N) hist : gmap N FvmStateParams :=
  filter (λ kv, state_hist_size config = 0 ∨ top < kv.1 + state_hist_size config) hist.

(** Nothing is kept from before the height that is recorded as the oldest. *)
Definition starts_at (oldest : N) hist : Prop := ∀ h, is_Some (hist !! h) → oldest ≤ h.

Lemma prune_spec fuel hist oldest ph :
  ph + 1 < u64_size → (N.to_nat (ph + 1 - oldest) < fuel)%nat →
  prune fuel hist oldest ph =
    Done (filter (λ kv, ¬ (oldest ≤ kv.1 ≤ ph)) hist, N.max oldest (ph + 1)).
Proof.
  intros Hph. revert hist oldest. induction fuel as [|fuel IH]; intros hist oldest Hfuel; [lia|].
  cbn [prune]. case_bool_decide as Hle.
  - rewrite u64_add_ok by lia. unfold mbind, outcome_bind. rewrite IH by lia. f_equal. f_equal; [|lia].
    apply map_eq. intros h. apply option_eq. intros p. rewrite !map_lookup_filter_Some, lookup_delete_Some.
    simpl. split.
    + intros ((Hne & Hp) & Hout). split; [done|lia].
    + intros (Hp & Hout). split_and!; [lia|done|lia].
  - f_equal. f_equal; [|lia]. symmetry. apply map_filter_id. intros h p _. simpl. lia.
Qed.

(** What [set_committed_state] does. *)
Lemma set_committed_spec s app :
  as_block_height s + 1 < u64_size → starts_at (oldest_state_height s) (state_hist app) →
  oldest_state_height s ≤ as_block_height s + 1 →
  let top := as_block_height s + 1 in
  let hist := window top (<[top := as_params s]> (state_hist app)) in
  ∃ oldest, oldest_state_height s ≤ oldest ≤ top ∧ starts_at oldest hist ∧
    set_committed_state config s app =
      (Done tt, set_db (Some (MkAppState (as_block_height s) oldest (as_params s))) hist app).
Proof.
  intros Hfit Hstart Hold top hist. unfold set_committed_state, state_height.
  rewrite u64_add_ok by done. fold top. cbn [mbind outcome_bind].
  set (all := <[top := as_params s]> (state_hist app)) in *.
  assert (starts_at (oldest_state_height s) all) as Hall.
  { intros h. unfold all. destruct (decide (h = top)) as [->|Hne]; [intros _; lia|].
    rewrite lookup_insert_ne by done. apply Hstart. }
  case_bool_decide as Hsize.
  - rewrite prune_spec by lia.
    set (ph := top - state_hist_size config). exists (N.max (oldest_state_height s) (ph + 1)).
    assert (filter (λ kv, ¬ (oldest_state_height s ≤ kv.1 ≤ ph)) all = hist) as ->.
    { apply map_filter_ext. intros h p Hp. simpl. specialize (Hall h ltac:(by eexists)). lia. }
    split_and!; [lia|lia| |done].
    intros h [p Hp]. apply map_lookup_filter_Some in Hp as [Hp Hin]. simpl in Hin.
    specialize (Hall h ltac:(by eexists)). lia.
  - exists (oldest_state_height s). unfold mbind, outcome_bind. simpl.
    assert (hist = all) as ->; [|by split_and!].
    apply map_filter_id. intros h p _. simpl. lia.
Qed.
End history.

(** ** A block is committed as a whole or not at all *)

(** A machine is made for the height and the time it is given, and the interpreter below
    does not change them. *)
Class BlockLaws `{Inner, !ContextLaws, !Launch} := {
  machine_context h p s : machine_new h p = inr s → context_epoch s = h ∧ context_timestamp s = sp_timestamp p;
  begin_context : keeps same_exec_context inner_begin;
  signed_context m : keeps same_exec_context (inner_deliver_signed m);
  synthetic_context m : keeps same_exec_context (inner_deliver_synthetic m);
  end_context : keeps same_exec_context inner_end
}.

Section blocks.
Context `{Profile, Scheduler, !ChainIds, !Machine, !Inner, !Resolvers, !Codec, !Launch, !Backend}.
Context `{!ContextLaws, !BlockLaws}.
Variables (config : AppConfig).
Implicit Types (app : App) (st : FvmExecState) (s : AppState).

(** Code that passes a state on, in a context it does not change. *)
Definition passes {A} (m : io ChainEnv string (A * FvmExecState)) st : Prop :=
  io_spec (λ _, True) m (λ r _, same_exec_context st r.2) (λ _, True).

Lemma passes_of {A} (tx : stm FvmExecState string A) st :
  keeps same_exec_context tx → passes (io_of (tx st)) st.
Proof. intros Htx env _. unfold io_of. destruct (tx st) as [[x st']| | | |] eqn:Heq; [by eapply Htx|done..]. Qed.

Lemma passes_ret {A} (x : A) st st' : same_exec_context st st' → passes (mret (x, st')) st.
Proof. by intros ? ? _. Qed.

Lemma passes_bind {A B} (m : io ChainEnv string (A * FvmExecState))
    (f : A * FvmExecState → io ChainEnv string (B * FvmExecState)) st :
  passes m st → (∀ r, passes (f r) r.2) → passes (m ≫= f) st.
Proof.
  intros Hm Hf. eapply io_spec_bind; [exact Hm|]. intros r env Hr.
  specialize (Hf r env I). destruct (f r env) as [[x| | | |] env']; [|done..].
  by transitivity r.2.
Qed.

(** Code in between that does not touch the state. *)
Lemma passes_skip {A B} (m : io ChainEnv string A) (f : A → io ChainEnv string (B * FvmExecState)) st :
  (∀ x, passes (f x) st) → passes (m ≫= f) st.
Proof.
  intros Hf. eapply (io_spec_bind _ _ _ (λ _ _, True)); [|intros x; apply Hf].
  intros env _. by destruct (m env) as [[]].
Qed.

Lemma passes_on_node {A} (m : io Node string (A * FvmExecState)) st :
  io_spec (λ _, True) m (λ r _, same_exec_context st r.2) (λ _, True) → passes (on_node m) st.
Proof.
  intros Hm env _. specialize (Hm (node env) I). unfold on_node. by destruct (m (node env)) as [[]].
Qed.

Lemma commit_finality_passes f st : passes (on_node (commit_finality f st)) st.
Proof.
  apply passes_on_node. intros n _. unfold commit_finality, mbind, io_bind, io_of.
  destruct (commit_parent_finality f st) as [[prev st']| | | |] eqn:Heq; [|done..].
  apply keeps_commit_finality in Heq. destruct prev as [prev|]; [done|].
  by destruct (toggle_genesis_epoch n) as [[]].
Qed.

Lemma deliver_topdown_passes p st : passes (deliver_topdown st p) st.
Proof.
  unfold deliver_topdown. apply passes_skip. intros env. destruct (is_enabled _); [|by intros env2 _].
  apply (passes_bind _ _ _ (commit_finality_passes _ _)). intros [[prev_height prev] st1].
  apply passes_skip; intros to. apply passes_skip; intros changes.
  apply passes_bind; [apply passes_of, keeps_store_changes|]. intros [[] st2].
  apply passes_skip; intros msgs.
  apply passes_bind; [apply passes_of, keeps_topdown_msgs|]. intros [ret st3].
  apply passes_skip. intros _. by apply passes_ret.
Qed.

Lemma deliver_passes m st : passes (deliver st m) st.
Proof.
  destruct m as [m|[m|c|p|o]]; cbn [deliver].
  - apply passes_bind; [apply passes_of, signed_context|]. intros [ret st1].
    apply passes_skip. intros _. by apply passes_ret.
  - apply passes_skip. intros smsg. apply passes_bind; [apply passes_of, synthetic_context|].
    intros [ret st1]. apply passes_skip. intros _. by apply passes_ret.
  - by intros env _.
  - apply deliver_topdown_passes.
  - apply passes_skip. intros ps.
    apply passes_bind; [apply passes_of, keeps_on_fvm, keeps_execute|].
    intros [[ret ems] st1]. by apply passes_ret.
Qed.

Lemma bytes_deliver_passes tx st : passes (bytes_deliver st tx) st.
Proof.
  unfold bytes_deliver. destruct (decode_message tx) as [e|m]; [by apply passes_ret|].
  apply passes_bind; [apply deliver_passes|]. intros [r st']. by apply passes_ret.
Qed.

Lemma end_passes st : passes (bytes_end st) st.
Proof.
  unfold bytes_end, end_block. apply passes_bind; [apply passes_of, end_context|].
  intros [[|u out] st']; [by apply passes_ret|]. apply passes_skip. intros _. by apply passes_ret.
Qed.

(** The database as it was, and the state of a block in its slot. *)
Definition db_is s hist app : Prop := app_state app = Some s ∧ state_hist app = hist.
Definition executing s hist (height : Z) (time : N) app : Prop :=
  db_is s hist app ∧ ∃ st, exec_state app = Some st ∧ block_height st = height ∧ timestamp st = time.

Lemma on_env_db s hist {A} (m : io ChainEnv string A) (Q : A → Prop) :
  io_spec (λ _, True) m (λ x _, Q x) (λ _, True) →
  io_spec (db_is s hist) (on_env m) (λ x app, Q x ∧ db_is s hist app) (db_is s hist).
Proof.
  intros Hm app Hdb. specialize (Hm (chain_env app) I). unfold on_env.
  destruct (m (chain_env app)) as [[]]; done.
Qed.

Lemma modify_spec s hist height time {A} (f : FvmExecState → io ChainEnv string (A * FvmExecState)) :
  (∀ st, passes (f st) st) →
  io_spec (executing s hist height time) (modify_exec_state f)
    (λ _, executing s hist height time) (db_is s hist).
Proof.
  intros Hf app (Hdb & st & Hst & Hh & Ht). unfold modify_exec_state.
  unfold take_exec_state, mbind, io_bind. rewrite Hst.
  pose proof (on_env_db s hist (f st) _ (Hf st) (set_exec None app) Hdb) as Hr.
  destruct (on_env (f st) (set_exec None app)) as [[[x st']| | | |] app']; [|exact Hr..].
  destruct Hr as [(Hc & Ht' & _) Hdb']. simpl in *. split; [exact Hdb'|].
  exists st'. unfold block_height, timestamp in *. split_and!; [done|congruence..].
Qed.

Lemma deliver_tx_spec s hist height time tx :
  io_spec (executing s hist height time) (deliver_tx tx)
    (λ _, executing s hist height time) (db_is s hist).
Proof.
  unfold deliver_tx. eapply io_spec_bind; [|intros r app Happ; exact Happ].
  apply modify_spec. intros st. apply bytes_deliver_passes.
Qed.

Lemma deliver_all_spec s hist height time txs :
  io_spec (executing s hist height time) (deliver_all txs)
    (λ _, executing s hist height time) (db_is s hist).
Proof.
  induction txs as [|tx txs IH]; cbn [deliver_all]; [intros app Happ; exact Happ|].
  eapply io_spec_bind; [apply deliver_tx_spec|]. intros c.
  eapply io_spec_bind; [exact IH|intros cs app Happ; exact Happ].
Qed.

Lemma end_block_spec s hist height time :
  io_spec (executing s hist height time) abci_end_block
    (λ _, executing s hist height time) (db_is s hist).
Proof.
  unfold abci_end_block. eapply io_spec_bind; [apply modify_spec, end_passes|].
  intros ret. eapply io_spec_conseq; [apply io_spec_of|done|by intros ?? [_ ?]|by intros ? [? _]].
Qed.

Lemma committed_state_is s hist app : db_is s hist app → committed_state app = (Done s, app).
Proof. intros [Hs _]. unfold committed_state, io_reads, mbind, io_bind. by rewrite Hs. Qed.

Lemma begin_block_spec s hist hdr :
  io_spec (λ app, db_is s hist app ∧ exec_state app = None) (abci_begin_block config hdr)
    (λ b app, match b with
              | Halted => db_is s hist app
              | Begun _ => executing s hist (Z.of_N (hdr_height hdr)) (Z.to_N (hdr_time hdr)) app
              end) (db_is s hist).
Proof.
  intros app [Hdb Hnone]. unfold abci_begin_block. destruct (hdr_hash hdr) as [bh|]; [|done].
  destruct (negb _ && _); [done|].
  rewrite (io_run_bind _ _ _ _ _ (committed_state_is s hist app Hdb)).
  unfold to_timestamp. case_bool_decide as Htime; [|exact Hdb].
  rewrite (io_run_bind (io_of (Done _)) _ _ _ app eq_refl). set (params := MkStateParams _ _ _ _ _ _ _ _).
  unfold exec_new, of_sum. destruct (machine_new _ params) as [e|m] eqn:Hm; [exact Hdb|].
  apply machine_context in Hm as [Hepoch Hts].
  cbn [mbind outcome_bind]. rewrite (io_run_bind (io_of (Done _)) _ _ _ app eq_refl).
  match goal with |- context [put_exec_state ?x] =>
    rewrite (io_run_bind (put_exec_state x) _ _ _ (set_exec (Some x) app))
      by (unfold put_exec_state; by rewrite Hnone) end.
  refine (io_spec_bind _ _ _ _ _ _ (modify_spec s hist (Z.of_N (hdr_height hdr)) (Z.to_N (hdr_time hdr))
    bytes_begin _) _ _ _).
  - intros st. apply passes_of, begin_context.
  - intros ret app' H'. exact H'.
  - split; [done|]. by eexists.
Qed.

(** What a committed block leaves behind. *)
Definition block_outcome s hist hdr (hash : Hash) (retain : N) app : Prop :=
  let top := hdr_height hdr + 1 in
  ∃ s', app_state app = Some s' ∧ as_block_height s' = hdr_height hdr ∧
    sp_timestamp (as_params s') = Z.to_N (hdr_time hdr) ∧
    sp_chain_id (as_params s') = sp_chain_id (as_params s) ∧
    sp_network_version (as_params s') = sp_network_version (as_params s) ∧
    hash = to_app_hash (as_params s') ∧
    state_hist app = window config top (<[top := as_params s']> hist) ∧
    starts_at (oldest_state_height s') (state_hist app) ∧ oldest_state_height s' ≤ top ∧
    (∀ h, is_Some (state_hist app !! h) → 0 < retain → retain < h) ∧
    exec_state app = None ∧ check_state app = None.

Lemma commit_spec s hist hdr :
  hdr_height hdr ≤ i64_max → starts_at (oldest_state_height s) hist →
  oldest_state_height s ≤ hdr_height hdr + 1 →
  io_spec (executing s hist (Z.of_N (hdr_height hdr)) (Z.to_N (hdr_time hdr))) (commit config)
    (λ r, block_outcome s hist hdr r.1 r.2) (db_is s hist).
Proof.
  unfold i64_max. intros Hmax Hstart Hold app (Hdb & st & Hst & Hh & Ht). unfold commit.
  rewrite (io_run_bind take_exec_state _ app st (set_exec None app))
    by (unfold take_exec_state; by rewrite Hst).
  rewrite (io_run_bind _ _ _ _ _ (committed_state_is s hist (set_exec None app) Hdb)).
  rewrite Hh, (bool_decide_eq_true_2 (0 ≤ Z.of_N (hdr_height hdr))%Z), N2Z.id by lia.
  rewrite (io_run_bind (io_of (Done _)) _ _ _ _ eq_refl).
  destruct (commit_state st) as [[[root up] dirty]| | | |] eqn:Hc; [|exact Hdb..].
  rewrite (io_run_bind (io_of (Done _)) _ _ _ _ eq_refl). rewrite Ht.
  set (params := MkStateParams _ _ _ _ _ _ _ _).
  set (s1 := MkAppState (hdr_height hdr) (oldest_state_height s) params).
  destruct Hdb as [Hs Hhist].
  destruct (set_committed_spec config s1 (set_exec None app)) as (oldest & Hbnd & Hst' & Hrun);
    [simpl; lia|by rewrite <-Hhist in Hstart|done|].
  rewrite (io_run_bind _ _ _ _ _ Hrun). cbn [as_block_height as_params s1] in *.
  rewrite (io_run_bind (store_check None) _ _ _ _ eq_refl).
  rewrite bool_decide_eq_true_2 by (unfold i64_max; case_bool_decide; lia).
  eexists. split; [reflexivity|]. cbn in Hst' |- *. rewrite Hhist in *.
  split_and!; try done; try lia. intros h [p Hp] Hpos.
  apply map_lookup_filter_Some in Hp as [_ Hwin]. simpl in Hwin. case_bool_decide; lia.
Qed.

(** C2: a block whose execution comes to a commit leaves the application with
    the state of that block at its height and time, filed in the history under the next
    height, with exactly the configured number of newest states kept, an application hash
    that is the hash of that state, no block above the height that CometBFT may forget
    without its state, and the slots of execution and mempool checks empty.  However else a
    block ends, in an error, a panic or the halt of the node, at any request, the committed
    state and the history are what they were. *)
Theorem block_atomic hdr txs app s
    (Hstate : app_state app = Some s) (Hslot : exec_state app = None)
    (Hstart : starts_at (oldest_state_height s) (state_hist app))
    (Hold : oldest_state_height s ≤ hdr_height hdr + 1) (Hmax : hdr_height hdr ≤ i64_max) :
  match run_block config hdr txs app with
  | (Done (Some (hash, retain)), app') => block_outcome s (state_hist app) hdr hash retain app'
  | (_, app') => app_state app' = app_state app ∧ state_hist app' = state_hist app
  end.
Proof.
  set (hist := state_hist app).
  assert (io_spec (λ app, db_is s hist app ∧ exec_state app = None) (run_block config hdr txs)
    (λ r app', match r with
               | Some (hash, retain) => block_outcome s hist hdr hash retain app'
               | None => db_is s hist app'
               end) (db_is s hist)) as Hspec.
  { eapply io_spec_bind; [apply begin_block_spec|]. intros [|ret]; [by intros app'|].
    eapply io_spec_bind; [apply deliver_all_spec|]. intros codes.
    eapply io_spec_bind; [apply end_block_spec|]. intros updates.
    eapply io_spec_bind; [by apply commit_spec|]. intros [hash retain] app' Hb. exact Hb. }
  specialize (Hspec app). rewrite Hstate.
  destruct (run_block config hdr txs app) as [[[[hash retain]|]| | | |] app'];
    apply Hspec; done.
Qed.
End blocks.

(** ** Proposals *)

Lemma take_until_prefix {A} (len : A → N) txs max size :
  ∃ k, take_until_max_size len txs max size = take k txs.
Proof.
  revert size. induction txs as [|tx txs IH]; intros size; [by exists O|]. cbn [take_until_max_size].
  case_bool_decide; [by exists O|]. destruct (IH (size + len tx)) as [k ->]. by exists (S k).
Qed.

Definition total_length {A} (len : A → N) (txs : list A) : N := foldr (λ tx, N.add (len tx)) 0 txs.

Lemma take_until_fits {A} (len : A → N) txs max size :
  max < u64_max → size ≤ max → size + total_length len (take_until_max_size len txs max size) ≤ max.
Proof.
  intros Hmax. revert size. induction txs as [|tx txs IH]; intros size Hsize; cbn; [lia|].
  case_bool_decide as Hlt; cbn; [lia|].
  assert (size + len tx ≤ max) as Hfit by lia. specialize (IH _ Hfit). unfold total_length in IH. lia.
Qed.

Section proposals.
Context `{Profile, Scheduler, !ChainIds, !Machine, !Inner, !Resolvers, !ObjectStoreLaws}.
Context `{!Quiet, !QuietPools, !Codec, !CodecLaws, !Launch, !Backend}.
Variables (interpreter : BytesMessageInterpreter).
Implicit Types (app : App) (st : FvmExecState) (s : AppState).

Lemma proposal_state_is app s st :
  app_state app = Some s → exec_new (as_epoch (as_block_height s)) (as_params s) = Done st →
  proposal_state app = (Done st, app).
Proof.
  intros Hs Hnew. unfold proposal_state.
  rewrite (io_run_bind _ _ _ _ _ (committed_state_is s (state_hist app) app (conj Hs eq_refl))).
  unfold io_of. by rewrite Hnew.
Qed.

(** C3: whatever transactions of users the mempool holds, the proposal
    that an application prepares for CometBFT fits the limit on its size, and every
    application with the same committed state and the same view of the parent, the votes
    and the resolved objects accepts it, in each mode of preparing and with each way of
    treating transactions that do not decode. *)
Theorem app_proposal_accepted txs max app s st p f
    (Hstate : app_state app = Some s)
    (Hnew : exec_new (as_epoch (as_block_height s)) (as_params s) = Done st)
    (Hok : env_ok (chain_env app) p f)
    (Hfit : height f + Config.max_proposal_range (Finality.config p) < u64_size)
    (Hdelay : ∀ h, non_null p h → Config.proposal_delay (Finality.config p) ≤ h)
    (Htxs : Forall (harmless interpreter user_message) txs)
    (Hmax : (0 ≤ max < Z.of_N u64_max)%Z) :
  ∃ block app', prepare_proposal interpreter txs max app = (Done block, app') ∧
    total_length raw_length block ≤ Z.to_N max ∧
    ∀ app2, app_state app2 = Some s → same_view (chain_env app) (chain_env app2) →
      ∃ app2', process_proposal interpreter block app2 = (Done true, app2').
Proof.
  destruct (bytes_prepare_harmless interpreter st txs (chain_env app) p f Hok Hfit Hdelay Htxs)
    as (all & env' & Hprep & Hlen & Hall).
  destruct (take_until_prefix raw_length all (Z.to_N max) 0) as [k Hk].
  exists (take k all), (set_env env' app). split_and!.
  - unfold prepare_proposal. rewrite (io_run_bind _ _ _ _ _ (proposal_state_is app s st Hstate Hnew)).
    rewrite (io_run_bind _ _ app all (set_env env' app)) by (unfold on_env; by rewrite Hprep).
    rewrite bool_decide_eq_true_2 by lia. by rewrite <-Hk.
  - rewrite <-Hk. apply (take_until_fits raw_length all (Z.to_N max) 0); lia.
  - intros app2 Hs2 Hview.
    destruct (harmless_accepted interpreter st (take k all) (chain_env app) p f Hok) with (env2 := chain_env app2)
      as [env2' Hproc]; [rewrite length_take; lia|by apply Forall_take|done|].
    exists (set_env env2' app2). unfold process_proposal.
    rewrite (io_run_bind _ _ _ _ _ (proposal_state_is app2 s st Hs2 Hnew)).
    unfold on_env. by rewrite Hproc.
Qed.
End proposals.

(** ** Queries *)

Section queries.
Context `{Profile, Scheduler, !ChainIds, !Machine, !Inner, !Resolvers, !Codec, !Launch, !Backend}.
Variables (config : AppConfig).
Implicit Types (app : App) (s : AppState).

(** The answer of a query that has got past the guard. *)
Definition query_run (path : string) (bz : Raw) (qs : QueryState) (height : N) : outcome string QueryResponse :=
  r ← bytes_query path bz qs;
  match r.1 with
  | inl _ => Done (QueryInvalid InvalidEncoding)
  | inr ret => h ← to_height height; Done (QueryAnswer ret h)
  end.

(** Before genesis, a query for the latest state is refused, but the
    empty state has been filed in the history under height 1, and a query for that height
    gets past the guard and is run on the empty state. *)
Lemma query_before_genesis path bz qs app
    (Hfresh : app_state app = None) (Hhist : state_hist app = ∅)
    (Hqs : query_new 1 empty_params (check_state app) false = inr qs) :
  let app1 := (init_committed_state config app).2 in
  query 0 path bz app1 = (Done (QueryInvalid NotInitialized), app1) ∧
  query 1 path bz app1 = (query_run path bz qs 1, app1).
Proof.
  assert (starts_at 0 (state_hist app)) as Hstart by (intros h _; lia).
  destruct (set_committed_spec config (MkAppState 0 0 empty_params) app) as (oldest & _ & _ & Hrun);
    [simpl; lia|done|simpl; lia|].
  intros app1.
  assert (app1 = set_db (Some (MkAppState 0 oldest empty_params))
    (window config 1 (<[1 := empty_params]> ∅)) app) as ->.
  { unfold app1, init_committed_state. rewrite (io_run_bind (io_reads _) _ _ _ _ eq_refl).
    rewrite Hfresh, Hrun. simpl. by rewrite Hhist. }
  set (app2 := set_db _ _ app). split; [reflexivity|].
  assert (state_hist app2 !! 1 = Some empty_params) as Hone.
  { apply map_lookup_filter_Some. rewrite lookup_insert_eq. split; [done|simpl; lia]. }
  assert (state_params_at_height (query_height_of 1) app2 = (Done (empty_params, 1), app2)) as Hat.
  { unfold state_params_at_height. change (query_height_of 1) with (AtHeight 1). cbv beta iota.
    unfold mbind, io_bind, io_reads, mret, io_ret. by rewrite Hone. }
  unfold query. rewrite (io_run_bind _ _ _ _ _ Hat). cbv beta iota.
  change (negb (can_query_state 1 empty_params)) with false. cbv beta iota.
  rewrite (io_run_bind (io_of (to_height 1)) _ _ 1 _ eq_refl).
  rewrite (io_run_bind (io_reads check_state) _ _ _ _ eq_refl).
  change (bool_decide (query_height_of 1 = Pending)) with false.
  change (check_state app2) with (check_state app). change (Z.of_N 1) with 1%Z. rewrite Hqs.
  rewrite (io_run_bind (io_of (of_sum (inr qs))) _ _ qs app2 eq_refl).
  unfold query_run, mbind, io_bind, outcome_bind, io_of.
  destruct (bytes_query path bz qs) as [[[e|ret] qs']| | | |]; reflexivity.
Qed.

(** The same state is reported with the height of its block when it is asked for as the
    latest one, and with the height after it when it is asked for by its number. *)
Lemma query_height_of_state app s :
  app_state app = Some s → state_hist app !! (as_block_height s + 1) = Some (as_params s) →
  state_params_at_height Committed app = (Done (as_params s, as_block_height s), app) ∧
  state_params_at_height (AtHeight (as_block_height s + 1)) app =
    (Done (as_params s, as_block_height s + 1), app).
Proof.
  intros Hs Hh. unfold state_params_at_height, committed_state, mbind, io_bind, io_reads, mret, io_ret.
  split; [by rewrite Hs|by rewrite Hh].
Qed.
End queries.

(** ** Examples *)

Module SampleApp.
#[local] Existing Instance dev_profile.
#[local] Existing Instance sample_data.
#[local] Existing Instance SampleParent.proxy.
#[local] Existing Instance SampleParent.idle.
#[local] Existing Instance SampleMachine.ids.
#[local] Existing Instance SampleMachine.machine.
#[local] Existing Instance SampleMachine.inner_interpreter.
#[local] Existing Instance SampleMachine.resolvers.
Import SampleParent SampleSync SampleMachine.

(** Bytes are messages, or numbers that do not decode. *)
Definition codec : Codec := {|
  Raw := ChainMessage + N;
  raw_length _ := 100;
  decode_message r := match r with inl m => inr m | inr _ => inl "malformed"%string end;
  encode_message m := inr (inl m);
  decode_cid _ := inl "malformed"%string;
  decode_query _ := inr QueryStateParams;
  QueryState := N;
  FvmQueryRet := N;
  inner_query _ := λ root, Done (root, root);
  Genesis := N;
  genesis_from_json r := match r with inl _ => inl "malformed"%string | inr n => inr n end;
  genesis_from_cbor _ := inl "malformed"%string
|}.
#[local] Existing Instance codec.

Definition codec_laws : CodecLaws.
Proof. split; [by eexists|]. by intros m r [= <-]. Defined.

(** Every machine starts out with the ledger of [SampleMachine.st0]. *)
Definition launch : Launch := {|
  machine_new h p :=
    inr (MkBooks (Some f10) (between parent_msgs 0 10) [] {[5 := false]} h (sp_timestamp p))
|}.
#[local] Existing Instance launch.

Definition backend : Backend := {|
  check_new _ := tt;
  query_new h p _ _ := inr (sp_state_root p);
  check_code _ := 0;
  empty_state_root := 7;
  genesis_init g := inr (g, MkGenesisOutput 1 1000 21 0 3 500 []);
  to_app_hash _ := hash_zero;
  to_pub_key k := Some k
|}.
#[local] Existing Instance backend.

#[local] Instance contexts : ContextLaws.
Proof.
  split; try by intros * s x s' [= _ <-].
  - intros m k n s x s'. cbn. unfold executor. case_bool_decide; by intros [= _ <-].
  - by intros.
  - intros f s x s'. cbn. unfold gateway_commit. case_bool_decide; [done|]. by intros [= _ <-].
Qed.

#[local] Instance laws : BlockLaws.
Proof. split; [by intros h p s [= <-]|by intros * s x s' [= _ <-]..]. Qed.

Definition params_at (time : N) : FvmStateParams := MkStateParams 33 time 21 0 500 1 3 0.
Definition three_states : AppConfig := MkAppConfig 3 0.
Definition at_20 : AppState := MkAppState 20 19 (params_at 40).
Definition app_20 : App :=
  MkApp (Some at_20) {[19 := params_at 38; 20 := params_at 39; 21 := params_at 40]} None (Some tt) env3.
Definition header_21 : Header := MkHeader 21 41 (Some hash_zero) (vreplicate 20 x00).
Definition txs : list Raw := [inl (Signed 4); inr 9].
Definition prepend : BytesMessageInterpreter := MkBytesInterpreter PrependOnly false 10.
Definition st_20 : FvmExecState := done_or st0 (exec_new 20 (params_at 40)).

Definition no_query : Raw := inr 1.
Definition empty_tree : QueryState := 7.
Definition fresh : App := MkApp None ∅ None None env3.

Lemma app_20_start : starts_at (oldest_state_height at_20) (state_hist app_20).
Proof.
  intros h [p Hp]. unfold app_20, state_hist in Hp. cbn [oldest_state_height at_20].
  rewrite !lookup_insert_Some, lookup_singleton_Some in Hp. lia.
Qed.
End SampleApp.

Section witnesses.
#[local] Existing Instance dev_profile.
#[local] Existing Instance sample_data.
#[local] Existing Instance SampleParent.proxy.
#[local] Existing Instance SampleParent.idle.
#[local] Existing Instance SampleMachine.ids.
#[local] Existing Instance SampleMachine.machine.
#[local] Existing Instance SampleMachine.inner_interpreter.
#[local] Existing Instance SampleMachine.resolvers.
#[local] Existing Instance SampleMachine.quiet_pools.
#[local] Existing Instance SampleMachine.object_laws.
#[local] Existing Instances SampleApp.codec SampleApp.launch SampleApp.backend.
#[local] Existing Instances SampleApp.codec_laws SampleApp.contexts SampleApp.laws.
Import SampleParent SampleSync SampleMachine SampleApp.

(** The block 21 is committed, and the state at 19 is dropped for the one at 22. *)
Lemma block_atomic_witness :
  match run_block three_states header_21 txs app_20 with
  | (Done (Some (hash, retain)), app') =>
      block_outcome three_states at_20 (state_hist app_20) header_21 hash retain app'
  | (_, app') => app_state app' = app_state app_20 ∧ state_hist app' = state_hist app_20
  end ∧
  is_done (run_block three_states header_21 txs app_20).1 = true ∧
  (map_to_list (state_hist (run_block three_states header_21 txs app_20).2)).*1 ≡ₚ [20; 21; 22].
Proof.
  split; [|split].
  - apply (block_atomic three_states header_21 txs app_20 at_20);
      [done|done|apply app_20_start|done|done].
  - vm_compute. reflexivity.
  - apply (bool_decide_unpack _). vm_compute. exact I.
Defined.

Lemma app_proposal_accepted_witness :
  ∃ block app', prepare_proposal prepend txs 1000 app_20 = (Done block, app') ∧
    total_length raw_length block ≤ Z.to_N 1000 ∧
    ∀ app2, app_state app2 = Some at_20 → same_view (chain_env app_20) (chain_env app2) →
      ∃ app2', process_proposal prepend block app2 = (Done true, app2').
Proof.
  apply (app_proposal_accepted prepend txs 1000 app_20 at_20 st_20 inner3 f10);
    [done|done|apply env3_ok|done|apply inner3_non_null|by repeat constructor|done].
Defined.

Lemma query_before_genesis_witness :
  let app1 := (init_committed_state three_states fresh).2 in
  query 0 "" no_query app1 = (Done (QueryInvalid NotInitialized), app1) ∧
  query 1 "" no_query app1 = (query_run "" no_query empty_tree 1, app1).
Proof. by apply (query_before_genesis three_states "" no_query empty_tree fresh). Defined.
End witnesses.
