(* ===== verification/Stack.v ===== *)
(** * The interpreters stacked up

    The application is proved correct over the interpreter that the chain interpreter
    wraps, with laws about it ([BlockLaws]).  Here those laws are proved of the interpreter
    that the node is built with, the signed interpreter over the FVM interpreter
    ([fvm_inner]), from laws of the machine and the contracts only. *)

From Stdlib Require Import Strings.Byte.
From stdpp Require Import vector.
From S2P Require Import Prelude OrdMap Weights Cache Voting Finality Node Fetch Syncer Pool Merkle.
From S2P Require Import SubnetId MerkleStandard Validators Ledger Chain Signing Checkpoint Broadcast Interp.
From S2P Require Import BytesInterp App.

(** The calls of the checkpointing facets do not move the machine to another block. *)
Class StackLaws `{Machine, !CheckpointGateway, !ContextLaws, !Launch} := {
  launch_context h p s : machine_new h p = inr s → context_epoch s = h ∧ context_timestamp s = sp_timestamp p;
  context_changes : keeps same_context apply_finality_changes;
  context_checkpoint ck root total : keeps same_context (create_checkpoint_call ck root total)
}.

Section stack.
Context `{Profile, ParentData, ChainIds, !Machine, !CheckpointGateway, !Builtins}.
Context `{Keccak, Abi, Keys, EthText, !Crypto, !HashOrder (vec byte 65), !CheckpointLaws, !TallyKeys}.
Context `{!ContextLaws, !Launch, !StackLaws}.
Variables (self : FvmMessageInterpreter) (syncing : bool).
(** Nor do the migrations. *)
Hypothesis Hmigrations : ∀ k u, upgrade_scheduler self !! k = Some u → keeps same_exec_context (migration u).

Lemma keeps_view {A} (tx : stm FvmExecState string A) : is_view tx → keeps same_exec_context tx.
Proof. by intros Hv st x st' ->%Hv. Qed.

Lemma keeps_implicit m : keeps same_exec_context (on_fvm (executor_implicit m)).
Proof. apply keeps_on_fvm, keeps_execute. Qed.

#[local] Hint Resolve keeps_update_params keeps_implicit : keeps.

Lemma keeps_begin : keeps same_exec_context (signed_begin self).
Proof.
  unfold signed_begin, fvm_begin. solve_keeps.
  - unfold run_upgrade, upgrade_execute. solve_keeps.
  - unfold run_cron. solve_keeps.
Qed.

Lemma keeps_deliver m : keeps same_exec_context (signed_deliver m).
Proof.
  unfold signed_deliver, fvm_deliver. solve_keeps.
  apply keeps_on_fvm. case_bool_decide; apply keeps_execute.
Qed.

Lemma keeps_maybe_create : keeps same_exec_context maybe_create_checkpoint.
Proof.
  unfold maybe_create_checkpoint, create_bottom_up_checkpoint. solve_keeps;
    first [ apply keeps_update_params | apply keeps_on_fvm; first [apply context_changes|apply context_checkpoint]
          | apply keeps_view; first [apply should_create_view|apply power_table_view] ].
Qed.

Lemma keeps_end : keeps same_exec_context (signed_end self syncing).
Proof.
  unfold signed_end, fvm_end. solve_keeps; [apply keeps_maybe_create|apply keeps_view, unsigned_view].
Qed.

(** The interpreter of the node satisfies what the application relies on. *)
Definition fvm_block_laws : BlockLaws (H2 := fvm_inner self syncing).
Proof.
  split.
  - apply launch_context.
  - apply keeps_begin.
  - intros m. cbn. solve_keeps. apply keeps_deliver.
  - intros m. cbn. solve_keeps. apply keeps_deliver.
  - cbn. solve_keeps. apply keeps_end.
Defined.
End stack.
