(* ===== verification/ProviderCache.v ===== *)
(** * The cache of subnet providers

    Models [SubnetProviderCache] of [ipld/resolver/src/provider_cache.rs]: which peers
    provide the data of which subnets, how records of peers change that, and how the
    cache defends itself against being flooded with subnets. *)

From S2P Require Import Prelude.

(** [Timestamp] (seconds since the epoch) is a number, and [Default] is zero. *)
Record ProviderRecord (Peer Subnet : Type) := MkRecord {
  peer_id : Peer;
  subnet_ids : list Subnet;
  timestamp : N
}.
Arguments MkRecord {Peer Subnet} _ _ _.
Arguments peer_id {Peer Subnet} _.
Arguments subnet_ids {Peer Subnet} _.
Arguments timestamp {Peer Subnet} _.

Record ProviderDelta (Subnet : Type) := MkDelta {
  is_new : bool;
  added : list Subnet;
  removed : list Subnet
}.
Arguments MkDelta {Subnet} _ _ _.
Arguments is_new {Subnet} _.
Arguments added {Subnet} _.
Arguments removed {Subnet} _.

Record SubnetProviderCache (Peer Subnet : Type) `{Countable Peer, Countable Subnet} := MkProviders {
  max_subnets : N;
  pinned_subnets : gset Subnet;
  routable_peers : gset Peer;
  subnet_providers : gmap Subnet (gset Peer);
  peer_timestamps : gmap Peer N
}.
Arguments MkProviders {Peer Subnet _ _ _ _} _ _ _ _ _.
Arguments max_subnets {Peer Subnet _ _ _ _} _.
Arguments pinned_subnets {Peer Subnet _ _ _ _} _.
Arguments routable_peers {Peer Subnet _ _ _ _} _.
Arguments subnet_providers {Peer Subnet _ _ _ _} _.
Arguments peer_timestamps {Peer Subnet _ _ _ _} _.

Section cache.
Context `{Countable Peer, Countable Subnet, !HashOrder Peer, !HashOrder Subnet}.
Abbreviation cache := (SubnetProviderCache Peer Subnet).
Abbreviation record := (ProviderRecord Peer Subnet).
Implicit Types (c : cache) (r : record) (s : Subnet) (p : Peer).

Definition set_pinned x c : cache :=
  MkProviders (max_subnets c) x (routable_peers c) (subnet_providers c) (peer_timestamps c).
Definition set_routables x c : cache :=
  MkProviders (max_subnets c) (pinned_subnets c) x (subnet_providers c) (peer_timestamps c).
Definition set_providers x c : cache :=
  MkProviders (max_subnets c) (pinned_subnets c) (routable_peers c) x (peer_timestamps c).
Definition set_timestamps x c : cache :=
  MkProviders (max_subnets c) (pinned_subnets c) (routable_peers c) (subnet_providers c) x.

Definition delta_is_empty (d : ProviderDelta Subnet) : bool :=
  match added d, removed d with [], [] => true | _, _ => false end.

Definition new (max_subnets : N) (static_subnets : list Subnet) : cache :=
  MkProviders max_subnets (list_to_set static_subnets) ∅ ∅ ∅.

Definition pin_subnet s c : cache := set_pinned (pinned_subnets c ∪ {[s]}) c.
Definition unpin_subnet s c : cache := set_pinned (pinned_subnets c ∖ {[s]}) c.
Definition set_routable p c : cache := set_routables (routable_peers c ∪ {[p]}) c.

Definition set_unroutable p c : cache :=
  let c := set_routables (routable_peers c ∖ {[p]}) c in
  let c := set_timestamps (delete p (peer_timestamps c)) c in
  set_providers ((λ providers, providers ∖ {[p]}) <$> subnet_providers c) c.

Definition num_routable c : N := N.of_nat (size (routable_peers c)).
Definition is_routable p c : bool := bool_decide (p ∈ routable_peers c).
Definition has_timestamp p c : bool := bool_decide (is_Some (peer_timestamps c !! p)).

(** The subnets with fewest providers come first. *)
Definition fewer : relation (Subnet * N) := λ x y, x.2 ≤ y.2.
#[export] Instance fewer_dec : RelDecision fewer.
Proof. intros x y. unfold fewer. apply _. Defined.

(** The loop of [prune_subnets]. *)
Fixpoint prune_loop (pinned : gset Subnet) (to_prune : N) (counts : list (Subnet * N))
    (providers : gmap Subnet (gset Peer)) (removed : gset Subnet)
    : gmap Subnet (gset Peer) * gset Subnet :=
  match counts with
  | [] => (providers, removed)
  | (s, _) :: counts =>
      if bool_decide (s ∈ pinned) then prune_loop pinned to_prune counts providers removed
      else
        let providers := delete s providers in
        let removed := removed ∪ {[s]} in
        if bool_decide (N.of_nat (size removed) = to_prune) then (providers, removed)
        else prune_loop pinned to_prune counts providers removed
  end.

Definition prune_subnets c : gset Subnet * cache :=
  let to_prune := N.of_nat (size (subnet_providers c)) - max_subnets c in
  if bool_decide (0 < to_prune) then
    let counts := (λ '(s, ps), (s, N.of_nat (size ps))) <$> hash_iter (subnet_providers c) in
    let '(providers, removed) :=
      prune_loop (pinned_subnets c) to_prune (merge_sort fewer counts) (subnet_providers c) ∅ in
    (removed, set_providers providers c)
  else (∅, c).

(** The loop of [add_provider] over the subnets of the record. *)
Fixpoint add_subnets p (l : list Subnet) (providers : gmap Subnet (gset Peer)) (added : list Subnet)
    : gmap Subnet (gset Peer) * list Subnet :=
  match l with
  | [] => (providers, added)
  | s :: l =>
      let peer_ids := default ∅ (providers !! s) in
      let added := if bool_decide (p ∈ peer_ids) then added else added ++ [s] in
      add_subnets p l (<[s := peer_ids ∪ {[p]}]> providers) added
  end.

Definition add_provider r c : option (ProviderDelta Subnet) * cache :=
  let p := peer_id r in
  if negb (is_routable p c) then (None, c)
  else
    let is_new := negb (has_timestamp p c) in
    let ts := default 0 (peer_timestamps c !! p) in
    let c := set_timestamps (<[p := ts]> (peer_timestamps c)) c in
    if bool_decide (ts < timestamp r) then
      let c := set_timestamps (<[p := timestamp r]> (peer_timestamps c)) c in
      let dropped := filter (λ x : Subnet * gset Peer, (x.1 ∉ subnet_ids r) ∧ (p ∈ x.2))
        (hash_iter (subnet_providers c)) in
      let providers := map_imap (λ s peer_ids,
        Some (if bool_decide (s ∈ subnet_ids r) then peer_ids else peer_ids ∖ {[p]}))
        (subnet_providers c) in
      let '(providers, added) := add_subnets p (subnet_ids r) providers [] in
      let '(gone, c) := prune_subnets (set_providers providers c) in
      (Some (MkDelta is_new (filter (λ s, s ∉ gone) added) (dropped.*1)), c)
    else (Some (MkDelta is_new [] []), c).

Definition prune_providers (cutoff : N) c : list Peer * cache :=
  let to_prune := (filter (λ x : Peer * N, x.2 < cutoff) (hash_iter (peer_timestamps c))).*1 in
  (to_prune, foldl (λ c p, set_unroutable p c) c to_prune).

Definition providers_of_subnet s c : list Peer :=
  from_option elements [] (subnet_providers c !! s).
End cache.

(** ** Pruning subnets *)

Section pruning.
Context `{Countable Peer, Countable Subnet, !HashOrder Peer, !HashOrder Subnet}.
Implicit Types (c : SubnetProviderCache Peer Subnet) (s : Subnet) (P : gmap Subnet (gset Peer)).

(** The subnets of a list that are not pinned. *)
Definition unpinned (pinned : gset Subnet) (l : list (Subnet * N)) : gset Subnet :=
  list_to_set l.*1 ∖ pinned.

Lemma elem_of_unpinned pinned l s :
  s ∈ unpinned pinned l ↔ (∃ k, (s, k) ∈ l) ∧ s ∉ pinned.
Proof.
  unfold unpinned. rewrite elem_of_difference, elem_of_list_to_set, list_elem_of_fmap.
  split; [intros [([? k] & -> & ?) ?]; eauto|intros [[k ?] ?]; split; [by exists (s, k)|done]].
Qed.

Lemma prune_loop_spec pinned n l P R :
  NoDup l.*1 → (∀ s, s ∈ l.*1 → s ∉ R) → N.of_nat (size R) < n →
  ∃ l1 l2, l = l1 ++ l2 ∧
    prune_loop pinned n l P R =
      (filter (λ x, x.1 ∉ unpinned pinned l1) P, R ∪ unpinned pinned l1) ∧
    (N.of_nat (size (R ∪ unpinned pinned l1)) = n ∨
     l2 = [] ∧ N.of_nat (size (R ∪ unpinned pinned l1)) < n).
Proof.
  revert P R. induction l as [|[s k] l IH]; intros P R Hnd HR Hn; simpl in *.
  { exists [], []. assert (unpinned pinned [] = ∅) as Hu by (unfold unpinned; set_solver).
    rewrite Hu, union_empty_r_L. split_and!; [done| |by right].
    f_equal. symmetry. apply map_filter_id. set_solver. }
  apply NoDup_cons in Hnd as [Hs Hnd]. case_bool_decide as Hpin.
  - destruct (IH P R Hnd ltac:(set_solver) Hn) as (l1 & l2 & -> & Hloop & Hend).
    exists ((s, k) :: l1), l2.
    assert (unpinned pinned ((s, k) :: l1) = unpinned pinned l1) as ->
      by (unfold unpinned; simpl; set_solver). done.
  - assert (s ∉ R) as HsR by set_solver.
    assert (size (R ∪ {[s]}) = S (size R)) as Hsize.
    { rewrite size_union, size_singleton by set_solver. lia. }
    case_bool_decide as Hend.
    + exists [(s, k)], l.
      assert (unpinned pinned [(s, k)] = {[s]}) as -> by (unfold unpinned; simpl; set_solver).
      split_and!; [done| |by left]. f_equal. apply map_eq. intros s'. apply option_eq. intros ps.
      rewrite lookup_delete_Some, map_lookup_filter_Some. set_solver.
    + destruct (IH (delete s P) (R ∪ {[s]}) Hnd ltac:(set_solver) ltac:(lia))
        as (l1 & l2 & -> & Hloop & Hend').
      exists ((s, k) :: l1), l2.
      assert (unpinned pinned ((s, k) :: l1) = {[s]} ∪ unpinned pinned l1) as ->
        by (unfold unpinned; simpl; set_solver).
      rewrite (assoc_L (∪)). split_and!; [done| |done]. rewrite Hloop. f_equal.
      apply map_eq. intros s'. apply option_eq. intros ps.
      rewrite !map_lookup_filter_Some, lookup_delete_Some. set_solver.
Qed.

(** The number of providers of each subnet, as [prune_subnets] sorts them. *)
Definition counts c : list (Subnet * N) :=
  (λ '(s, ps), (s, N.of_nat (size ps))) <$> hash_iter (subnet_providers c).

Lemma elem_of_counts c s k :
  (s, k) ∈ counts c ↔ ∃ ps, subnet_providers c !! s = Some ps ∧ k = N.of_nat (size ps).
Proof.
  unfold counts. rewrite list_elem_of_fmap. setoid_rewrite hash_iter_perm. split.
  - intros ([s' ps] & [= -> ->] & Hin%elem_of_map_to_list). eauto.
  - intros (ps & Hin & ->). exists (s, ps). by rewrite elem_of_map_to_list.
Qed.

Lemma counts_keys c : (counts c).*1 ≡ₚ (map_to_list (subnet_providers c)).*1.
Proof.
  unfold counts. rewrite <-list_fmap_compose. rewrite <-(hash_iter_perm (subnet_providers c)).
  apply reflexive_eq. apply list_fmap_ext. by intros ? [].
Qed.

#[local] Instance fewer_total : Total (fewer (Subnet:=Subnet)).
Proof. intros x y. unfold fewer. lia. Qed.
#[local] Instance fewer_trans : Transitive (fewer (Subnet:=Subnet)).
Proof. intros x y z. unfold fewer. lia. Qed.

(** What pruning leaves: it makes room, or has nothing left to remove; it never removes
    a pinned subnet, and no subnet that has more providers than one it keeps. *)
Record pruned (n : N) (pinned : gset Subnet) (gone : gset Subnet) (P P' : gmap Subnet (gset Peer))
    : Prop := {
  pruned_rest : P' = filter (λ x, x.1 ∉ gone) P;
  pruned_gone : gone ⊆ dom P ∖ pinned;
  pruned_room : N.of_nat (size P') ≤ n ∨ dom P' ⊆ pinned;
  pruned_few : gone ≠ ∅ → n ≤ N.of_nat (size P');
  pruned_smallest s s' ps ps' : s ∈ gone → P !! s = Some ps → P' !! s' = Some ps' →
    s' ∉ pinned → (size ps ≤ size ps')%nat
}.

Lemma size_filter_out (P : gmap Subnet (gset Peer)) (gone : gset Subnet) :
  gone ⊆ dom P → size (filter (λ x, x.1 ∉ gone) P) = (size P - size gone)%nat.
Proof.
  intros Hsub. rewrite <-!size_dom. rewrite <-size_difference by done. f_equal.
  apply set_eq. intros s. rewrite elem_of_difference, !elem_of_dom. split.
  - intros [ps [Hs ?]%map_lookup_filter_Some]. eauto.
  - intros [[ps Hs] ?]. exists ps. by apply map_lookup_filter_Some.
Qed.

Lemma prune_subnets_law c :
  ∃ gone P', prune_subnets c = (gone, set_providers P' c) ∧
    pruned (max_subnets c) (pinned_subnets c) gone (subnet_providers c) P'.
Proof.
  unfold prune_subnets. case_bool_decide as Hn; cycle 1.
  { exists ∅, (subnet_providers c). split; [by destruct c|]. split; [|set_solver|left; lia|done|set_solver].
    symmetry. apply map_filter_id. set_solver. }
  set (n := N.of_nat (size (subnet_providers c)) - max_subnets c) in *. fold (counts c).
  pose proof (merge_sort_Permutation fewer (counts c)) as Hperm.
  destruct (prune_loop_spec (pinned_subnets c) n (merge_sort fewer (counts c)) (subnet_providers c) ∅)
    as (l1 & l2 & Hl & -> & Hend).
  { rewrite Hperm, counts_keys. apply NoDup_fst_map_to_list. }
  { set_solver. }
  { by rewrite size_empty. }
  rewrite !union_empty_l_L in *. set (gone := unpinned (pinned_subnets c) l1) in *.
  assert (∀ s k, (s, k) ∈ l1 ++ l2 ↔ ∃ ps, subnet_providers c !! s = Some ps ∧ k = N.of_nat (size ps))
    as Hin by (intros s k; rewrite <-Hl, Hperm; apply elem_of_counts).
  assert (∀ s, s ∈ gone → is_Some (subnet_providers c !! s)) as Hgone.
  { intros s [[k Hs] _]%elem_of_unpinned. destruct (proj1 (Hin s k) ltac:(set_solver)) as (ps & ? & _).
    by exists ps. }
  exists gone, (filter (λ x, x.1 ∉ gone) (subnet_providers c)). split; [done|].
  pose proof (size_filter_out (subnet_providers c) gone) as Hsize.
  specialize (Hsize ltac:(intros s Hs; apply elem_of_dom; by apply Hgone)).
  split; [done| | |intros _; lia|].
  - intros s Hs. apply elem_of_difference. split; [apply elem_of_dom; by apply Hgone|].
    by apply elem_of_unpinned in Hs as [_ ?].
  - destruct Hend as [Hend|[-> _]]; [left; lia|right]. intros s [ps Hs]%elem_of_dom.
    apply map_lookup_filter_Some in Hs as [Hs Hnot]. simpl in Hnot.
    apply dec_stable. intros Hpin. destruct Hnot. apply elem_of_unpinned. split; [|done].
    exists (N.of_nat (size ps)). rewrite app_nil_r in Hin. apply Hin. eauto.
  - intros s s' ps ps' [[k Hs] _]%elem_of_unpinned Hps [Hps' Hnot]%map_lookup_filter_Some Hpin.
    destruct (proj1 (Hin s k) ltac:(set_solver)) as (? & ? & ->). simplify_eq. simpl in Hnot.
    assert ((s', N.of_nat (size ps')) ∈ l1 ++ l2) as [Hs'|Hs']%elem_of_app by (apply Hin; eauto).
    { destruct Hnot. apply elem_of_unpinned. eauto. }
    pose proof (StronglySorted_merge_sort fewer (counts c)) as Hsorted. rewrite Hl in Hsorted.
    pose proof (StronglySorted_app_1_elem_of fewer l1 l2 _ _ Hsorted Hs Hs') as Hle.
    unfold fewer in Hle. simpl in Hle. lia.
Qed.
End pruning.

(** ** Records of providers *)

Section records.
Context `{Countable Peer, Countable Subnet, !HashOrder Peer, !HashOrder Subnet}.
Implicit Types (c : SubnetProviderCache Peer Subnet) (r : ProviderRecord Peer Subnet).
Implicit Types (s : Subnet) (p : Peer) (P : gmap Subnet (gset Peer)).

Definition peers P s : gset Peer := default ∅ (P !! s).

Lemma add_subnets_spec p l P acc :
  ∃ P' news, add_subnets p l P acc = (P', acc ++ news) ∧
    (∀ s, P' !! s = if decide (s ∈ l) then Some (peers P s ∪ {[p]}) else P !! s) ∧
    ∀ s, s ∈ news ↔ s ∈ l ∧ p ∉ peers P s.
Proof.
  revert P acc. induction l as [|s0 l IH]; intros P acc.
  { exists P, []. rewrite app_nil_r. split_and!; [done| |]; intros s; [|set_solver].
    rewrite decide_False by (by intros ?%elem_of_nil). done. }
  simpl. fold (peers P s0). set (P1 := <[s0 := _]> P).
  assert (∀ s, s ≠ s0 → peers P1 s = peers P s) as Hne.
  { intros s Hs. unfold peers, P1. by rewrite lookup_insert_ne. }
  assert (peers P1 s0 = peers P s0 ∪ {[p]}) as Heq by (unfold peers, P1; by rewrite lookup_insert_eq).
  destruct (IH P1 (if bool_decide (p ∈ peers P s0) then acc else acc ++ [s0]))
    as (P' & news & -> & HP' & Hnews).
  exists P', (if bool_decide (p ∈ peers P s0) then news else s0 :: news). split_and!.
  - case_bool_decide; [done|]. by rewrite <-app_assoc.
  - intros s. rewrite HP'. destruct (decide (s = s0)) as [->|Hs].
    + rewrite (decide_True (P:=s0 ∈ s0 :: l)) by set_solver. rewrite Heq.
      case_decide; [f_equal; set_solver|]. unfold P1. by rewrite lookup_insert_eq.
    + rewrite Hne by done. unfold P1. rewrite lookup_insert_ne by done.
      destruct (decide (s ∈ l)); [rewrite decide_True by set_solver|rewrite decide_False by set_solver]; done.
  - intros s. destruct (decide (s = s0)) as [->|Hs].
    + case_bool_decide; rewrite ?elem_of_cons, Hnews, Heq; set_solver.
    + case_bool_decide; rewrite ?elem_of_cons, Hnews, Hne by done; set_solver.
Qed.

(** The subnets after a record of the peer [p], before pruning. *)
Definition updated p (l : list Subnet) P P' : Prop :=
  dom P' = dom P ∪ list_to_set l ∧
  ∀ s, peers P' s = if decide (s ∈ l) then peers P s ∪ {[p]} else peers P s ∖ {[p]}.

Lemma update_spec p l P :
  ∃ P' news, add_subnets p l (map_imap (λ s peer_ids,
      Some (if bool_decide (s ∈ l) then peer_ids else peer_ids ∖ {[p]})) P) [] = (P', news) ∧
    updated p l P P' ∧ ∀ s, s ∈ news ↔ s ∈ l ∧ p ∉ peers P s.
Proof.
  set (P0 := map_imap _ P). destruct (add_subnets_spec p l P0 []) as (P' & news & -> & HP' & Hnews).
  assert (∀ s, peers P0 s = if decide (s ∈ l) then peers P s else peers P s ∖ {[p]}) as HP0.
  { intros s. unfold peers, P0. rewrite map_lookup_imap.
    destruct (P !! s) as [ps|]; simpl; [|case_decide; set_solver].
    by rewrite decide_bool_decide. }
  exists P', news. split; [done|]. split.
  - split.
    + apply set_eq. intros s. rewrite elem_of_union, !elem_of_dom, elem_of_list_to_set, HP'.
      case_decide; [naive_solver|]. unfold P0. rewrite map_lookup_imap.
      destruct (P !! s); simpl; [naive_solver|]. split; [by intros [? ?]|naive_solver].
    + intros s. specialize (HP0 s). unfold peers at 1. rewrite HP'.
      case_decide; [simpl; by rewrite HP0|]. exact HP0.
  - intros s. rewrite Hnews, HP0. case_decide; set_solver.
Qed.

Lemma elem_of_dropped p (l : list Subnet) P s :
  s ∈ ((filter (λ x : Subnet * gset Peer, (x.1 ∉ l) ∧ (p ∈ x.2)) (hash_iter P)).*1) ↔
  (s ∉ l) ∧ p ∈ peers P s.
Proof.
  rewrite list_elem_of_fmap. setoid_rewrite list_elem_of_filter. setoid_rewrite hash_iter_perm.
  unfold peers. split.
  - intros ([? ps] & -> & [? ?] & Hin%elem_of_map_to_list). simpl in *. by rewrite Hin.
  - intros [? Hp]. destruct (P !! s) as [ps|] eqn:Hs; [|set_solver].
    exists (s, ps). by rewrite elem_of_map_to_list.
Qed.

(** A newer record of a routable peer makes it a provider of exactly the
    subnets it names, and nobody else's provision changes; the subnets that do not fit
    are pruned, the pinned ones never, the others smallest first.  The delta names
    exactly the subnets the peer was added to, pruned ones apart, and removed from. *)
Lemma add_provider_spec r c :
  let p := peer_id r in
  p ∈ routable_peers c → default 0 (peer_timestamps c !! p) < timestamp r →
  ∃ P P' gone news dropped,
    add_provider r c = (Some (MkDelta (negb (has_timestamp p c)) news dropped),
      MkProviders (max_subnets c) (pinned_subnets c) (routable_peers c) P'
        (<[p := timestamp r]> (peer_timestamps c))) ∧
    updated p (subnet_ids r) (subnet_providers c) P ∧
    pruned (max_subnets c) (pinned_subnets c) gone P P' ∧
    (∀ s, s ∈ news ↔ s ∈ subnet_ids r ∧ (p ∉ peers (subnet_providers c) s) ∧ s ∉ gone) ∧
    (∀ s, s ∈ dropped ↔ (s ∉ subnet_ids r) ∧ p ∈ peers (subnet_providers c) s).
Proof.
  intros p Hp Hts. unfold add_provider, is_routable. fold p.
  rewrite bool_decide_eq_true_2 by done. cbn [negb].
  rewrite bool_decide_eq_true_2 by done. cbn [set_timestamps subnet_providers].
  destruct (update_spec p (subnet_ids r) (subnet_providers c)) as (P & news & -> & Hup & Hnews).
  match goal with |- context [prune_subnets ?c1] =>
    destruct (prune_subnets_law c1) as (gone & P' & -> & Hpruned) end.
  exists P, P', gone. eexists _, _. split_and!; [|done|exact Hpruned| |].
  - unfold set_providers, set_timestamps. simpl. by rewrite insert_insert_eq.
  - intros s. rewrite list_elem_of_filter, Hnews. naive_solver.
  - intros s. apply elem_of_dropped.
Qed.

(** ** The invariant *)

Inductive cache_op :=
| Pin s
| Unpin s
| Routable p
| Unroutable p
| Add r
| PruneProviders (cutoff : N).

Definition cache_exec (op : cache_op) c : SubnetProviderCache Peer Subnet :=
  match op with
  | Pin s => pin_subnet s c
  | Unpin s => unpin_subnet s c
  | Routable p => set_routable p c
  | Unroutable p => set_unroutable p c
  | Add r => (add_provider r c).2
  | PruneProviders cutoff => (prune_providers cutoff c).2
  end.

Inductive cache_reachable (n : N) (static : list Subnet) : SubnetProviderCache Peer Subnet → Prop :=
| CacheNew : cache_reachable n static (new n static)
| CacheStep op c : cache_reachable n static c → cache_reachable n static (cache_exec op c).

(** Providers have sent a record, and those who have sent one are routable. *)
Record cache_inv c : Prop := {
  provider_has_timestamp s p : p ∈ peers (subnet_providers c) s → is_Some (peer_timestamps c !! p);
  timestamp_routable p : is_Some (peer_timestamps c !! p) → p ∈ routable_peers c
}.

Lemma peers_fmap p P s : peers ((λ ps, ps ∖ {[p]}) <$> P) s = peers P s ∖ {[p]}.
Proof. unfold peers. rewrite lookup_fmap. destruct (P !! s); simpl; set_solver. Qed.

Lemma cache_inv_unroutable p c : cache_inv c → cache_inv (set_unroutable p c).
Proof.
  intros [H1 H2]. split; simpl.
  - intros s p'. rewrite peers_fmap. intros [Hin Hne]%elem_of_difference.
    rewrite lookup_delete_ne by set_solver. eauto.
  - intros p' [ts [? Hts]%lookup_delete_Some]. apply elem_of_difference. split; [eauto|set_solver].
Qed.

Lemma peers_filter (gone : gset Subnet) P s p :
  p ∈ peers (filter (λ x, x.1 ∉ gone) P) s → p ∈ peers P s.
Proof.
  unfold peers. destruct (filter _ P !! s) as [ps|] eqn:Hs; simpl; [|set_solver].
  apply map_lookup_filter_Some in Hs as [-> _]. done.
Qed.

Lemma cache_inv_add r c : cache_inv c → cache_inv (add_provider r c).2.
Proof.
  intros [H1 H2]. unfold add_provider, is_routable.
  case_bool_decide as Hp; [|done]. cbn [negb]. case_bool_decide as Hts; simpl.
  - destruct (update_spec (peer_id r) (subnet_ids r) (subnet_providers c))
      as (P & news & -> & [_ Hup] & _).
    match goal with |- context [prune_subnets ?c1] =>
      destruct (prune_subnets_law c1) as (gone & P' & -> & [HP' _ _ _ _]) end.
    simpl in *. subst P'. split; simpl.
    + intros s p Hin%peers_filter. rewrite Hup in Hin.
      destruct (decide (p = peer_id r)) as [->|]; [rewrite lookup_insert_eq; eauto|].
      rewrite !lookup_insert_ne by done. apply (H1 s). case_decide; set_solver.
    + intros p. destruct (decide (p = peer_id r)) as [->|]; [done|].
      rewrite !lookup_insert_ne by done. apply H2.
  - split; simpl.
    + intros s p Hin%H1. destruct (decide (p = peer_id r)) as [->|];
        [rewrite lookup_insert_eq; eauto|by rewrite lookup_insert_ne].
    + intros p. destruct (decide (p = peer_id r)) as [->|]; [done|].
      rewrite lookup_insert_ne by done. apply H2.
Qed.

Lemma cache_inv_fold l c : cache_inv c → cache_inv (foldl (λ c p, set_unroutable p c) c l).
Proof. revert c. induction l; simpl; auto using cache_inv_unroutable. Qed.

Lemma cache_inv_reachable n static c : cache_reachable n static c → cache_inv c.
Proof.
  induction 1 as [|op c _ IH].
  { split; simpl; [intros s p; unfold peers; rewrite lookup_empty; set_solver|by intros p [? ?]]. }
  destruct op; simpl.
  - by destruct IH.
  - by destruct IH.
  - destruct IH as [H1 H2]. split; simpl; [done|set_solver].
  - by apply cache_inv_unroutable.
  - by apply cache_inv_add.
  - by apply cache_inv_fold.
Qed.

Lemma fold_unroutable_timestamps l c p ts :
  peer_timestamps (foldl (λ c p, set_unroutable p c) c l) !! p = Some ts ↔
  peer_timestamps c !! p = Some ts ∧ p ∉ l.
Proof.
  revert c. induction l as [|p0 l IH]; intros c; simpl; [set_solver|].
  rewrite IH. simpl. rewrite lookup_delete_Some. set_solver.
Qed.

(** In every reachable cache the providers listed for a subnet are
    routable peers, and after pruning with a cutoff they are peers whose last record
    is not older than the cutoff; the peers pruned are exactly the older ones. *)
Lemma providers_fresh n static c s p cutoff :
  cache_reachable n static c →
  (p ∈ providers_of_subnet s c → is_routable p c = true) ∧
  let '(gone, c') := prune_providers cutoff c in
  (p ∈ gone ↔ ∃ ts, peer_timestamps c !! p = Some ts ∧ ts < cutoff) ∧
  (p ∈ providers_of_subnet s c' → is_routable p c' = true ∧
    ∃ ts, peer_timestamps c' !! p = Some ts ∧ cutoff ≤ ts).
Proof.
  intros Hr. pose proof (cache_inv_reachable _ _ _ Hr) as Hinv.
  assert (∀ c1, cache_inv c1 → p ∈ providers_of_subnet s c1 →
    is_routable p c1 = true ∧ is_Some (peer_timestamps c1 !! p)) as Hlisted.
  { intros c1 [H1 H2] Hin. assert (p ∈ peers (subnet_providers c1) s) as Hp%H1.
    { unfold providers_of_subnet, peers in *. destruct (_ !! s); simpl in *; set_solver. }
    split; [apply bool_decide_eq_true; auto|done]. }
  split; [by intros [? _]%Hlisted|]. unfold prune_providers.
  set (gone := (filter _ _).*1).
  assert (p ∈ gone ↔ ∃ ts, peer_timestamps c !! p = Some ts ∧ ts < cutoff) as Hgone.
  { unfold gone. rewrite list_elem_of_fmap. setoid_rewrite list_elem_of_filter.
    setoid_rewrite hash_iter_perm. split.
    - intros ([? ts] & -> & ? & Hin%elem_of_map_to_list). eauto.
    - intros (ts & Hin & ?). exists (p, ts). by rewrite elem_of_map_to_list. }
  split; [done|]. intros [Hroute [ts Hts]]%Hlisted; [|by apply cache_inv_fold].
  split; [done|]. exists ts. split; [done|].
  apply fold_unroutable_timestamps in Hts as [Hts Hnot]. apply N.le_ngt. intros Hlt.
  apply Hnot, Hgone. eauto.
Qed.
End records.

(** ** A concrete cache

    Room for two subnets, one of them pinned; the third subnet that the second peer
    names is pruned, because it has the fewest providers. *)

Section witnesses.
#[local] Instance number_order : HashOrder N :=
  {| hash_iter A m := map_to_list m; hash_iter_perm A m := reflexivity _ |}.

Definition cache_run (l : list (cache_op (Peer:=N) (Subnet:=N))) : SubnetProviderCache N N :=
  foldl (λ c op, cache_exec op c) (new 2 [1]) l.

Definition ops1 : list (cache_op (Peer:=N) (Subnet:=N)) :=
  [Routable 10; Routable 11; Add (MkRecord 10 [1; 2] 100)].
Definition cache1 : SubnetProviderCache N N := cache_run ops1.

Lemma cache_run_reachable l : cache_reachable 2 [1] (cache_run l).
Proof.
  unfold cache_run. induction l as [|op l IH] using rev_ind; [apply CacheNew|].
  rewrite foldl_app. by apply CacheStep.
Qed.

Lemma add_provider_spec_witness :
  (∃ P P' gone news dropped,
    add_provider (MkRecord 11 [2; 3] 120) cache1 = (Some (MkDelta (negb (has_timestamp 11 cache1)) news dropped),
      MkProviders (max_subnets cache1) (pinned_subnets cache1) (routable_peers cache1) P'
        (<[11 := 120]> (peer_timestamps cache1))) ∧
    updated 11 [2; 3] (subnet_providers cache1) P ∧
    pruned (max_subnets cache1) (pinned_subnets cache1) gone P P' ∧
    (∀ s, s ∈ news ↔ s ∈ [2; 3] ∧ (11 ∉ peers (subnet_providers cache1) s) ∧ s ∉ gone) ∧
    (∀ s, s ∈ dropped ↔ (s ∉ [2; 3]) ∧ 11 ∈ peers (subnet_providers cache1) s)) ∧
  (add_provider (MkRecord 11 [2; 3] 120) cache1).1 = Some (MkDelta true [2] []).
Proof.
  split; [|by vm_compute].
  refine (add_provider_spec (MkRecord 11 [2; 3] 120) cache1 _ _); by vm_compute.
Defined.

Lemma providers_fresh_witness :
  (10 ∈ providers_of_subnet 1 cache1 → is_routable 10 cache1 = true) ∧
  let '(gone, c') := prune_providers 101 cache1 in
  (10 ∈ gone ↔ ∃ ts, peer_timestamps cache1 !! 10 = Some ts ∧ ts < 101) ∧
  (10 ∈ providers_of_subnet 1 c' → is_routable 10 c' = true ∧
    ∃ ts, peer_timestamps c' !! 10 = Some ts ∧ 101 ≤ ts).
Proof. refine (providers_fresh 2 [1] cache1 1 10 101 _). apply cache_run_reachable. Defined.
End witnesses.
