(* ===== verification/Accumulator.v ===== *)
(** * The accumulator actor

    Models [fendermint/actors/accumulator/src/shared.rs]: an append-only list of objects
    kept as a Merkle mountain range, whose root commits to all of them and which finds
    an object by walking down from a peak.

    The block store is a map from content identifiers to raw blocks.  The peaks are
    kept in an array mapped trie (AMT) of a library; the state holds the identifier of
    the flushed array, from which it is loaded again, so the model holds the array. *)

From S2P Require Import Prelude OrdMap.

(** Encodings and the hash. *)
Class AccumulatorData := {
  Cid : Type;
  Cid_eq_dec :: EqDecision Cid;
  Cid_countable :: Countable Cid;
  Cid_default : Cid;
  Raw : Type;
  Obj : Type;
  encode_obj : Obj → Raw;
  decode_obj : Raw → option Obj;
  encode_pair : Cid * Cid → Raw;
  decode_pair : Raw → option (Cid * Cid);
  digest : Raw → Cid;
  Address : Type;
  WriteAccess : Type
}.

(** Decoding undoes encoding, and the hash has no collisions. *)
Class AccumulatorLaws `{AccumulatorData} := {
  decode_encode_obj o : decode_obj (encode_obj o) = Some o;
  decode_encode_pair p : decode_pair (encode_pair p) = Some p;
  digest_inj :: Inj (=) (=) digest
}.

(** ** Bits of machine words *)

Fixpoint pos_ones (p : positive) : N :=
  match p with xH => 1 | xO p => pos_ones p | xI p => N.succ (pos_ones p) end.
Definition count_ones (n : N) : N := match n with 0 => 0 | Npos p => pos_ones p end.

Fixpoint pos_trailing_zeros (p : positive) : N :=
  match p with xO p => N.succ (pos_trailing_zeros p) | _ => 0 end.
(** [u64::trailing_zeros], [u64::leading_zeros] and [!] on [u64]. *)
Definition trailing_zeros (n : N) : N :=
  match n with 0 => 64 | Npos p => pos_trailing_zeros p end.
Definition leading_zeros (n : N) : N := 64 - N.size n.
Definition u64_not (n : N) : N := u64_max - n.

Abbreviation Store := (gmap Cid Raw).
Abbreviation Amt := (gmap N Cid).

Section accumulator.
Context `{Profile, AccumulatorData}.

Definition put_cbor (raw : Raw) : stm Store string Cid :=
  modify (<[digest raw := raw]>) ;;
  mret (digest raw).
Definition get_cbor {A} (decode : Raw → option A) (cid : Cid) : stm Store string (option A) :=
  raw ← reads (.!! cid);
  match raw with
  | None => mret None
  | Some raw =>
      match decode raw with
      | Some a => mret (Some a)
      | None => abort "failed to decode"%string
      end
  end.

Definition amt_count (a : Amt) : N := N.of_nat (size a).

Definition u32_sub {E} (a b : N) : outcome E N :=
  if bool_decide (b ≤ a) then Done (a - b)
  else if overflow_checks then Panic else Done (a + 2 ^ 32 - b).

Definition hash_pair (left right : option Cid) : outcome string Cid :=
  match left, right with
  | Some l, Some r => Done (digest (encode_pair (l, r)))
  | _, _ => Fail "hash_pair requires two CIDs"%string
  end.

Definition hash_and_put_pair (left right : option Cid) : stm Store string Cid :=
  match left, right with
  | Some l, Some r => put_cbor (encode_pair (l, r))
  | _, _ => abort "hash_pair requires two CIDs"%string
  end.

(** The loop of [push]. *)
Fixpoint merge_peaks (new_peaks : nat) (peaks : Amt) : stm Store string Amt :=
  match new_peaks with
  | O => mret peaks
  | S new_peaks =>
      i ← lift (u64_sub (amt_count peaks) 1);
      let right := peaks !! i in
      let peaks := delete i peaks in
      i ← lift (u64_sub (amt_count peaks) 1);
      let left := peaks !! i in
      let peaks := delete i peaks in
      cid ← hash_and_put_pair left right;
      merge_peaks new_peaks (<[amt_count peaks := cid]> peaks)
  end.

Definition push (leaf_count : N) (peaks : Amt) (obj : Obj) : stm Store string Amt :=
  leaf ← put_cbor (encode_obj obj);
  let peaks := <[amt_count peaks := leaf]> peaks in
  merge_peaks (N.to_nat (trailing_zeros (u64_not leaf_count))) peaks.

(** The loop of [bag_peaks]. *)
Fixpoint bag_loop (peaks : Amt) (idx : list N) (root : Cid) : outcome string Cid :=
  match idx with
  | [] => Done root
  | i :: idx =>
      j ← u64_sub (amt_count peaks) 1;
      j ← u64_sub j i;
      root ← hash_pair (peaks !! j) (Some root);
      bag_loop peaks idx root
  end.

Definition bag_peaks (peaks : Amt) : outcome string Cid :=
  let peaks_count := amt_count peaks in
  if bool_decide (peaks_count = 0) then Done Cid_default
  else if bool_decide (peaks_count = 1) then unwrap (peaks !! 0)
  else
    i ← u64_sub peaks_count 2;
    j ← u64_sub peaks_count 1;
    root ← hash_pair (peaks !! i) (peaks !! j);
    bag_loop peaks (range_up 2 (N.to_nat (peaks_count - 2))) root.

Definition path_for_eigen_root (leaf_index leaf_count : N) : outcome string (N * N) :=
  if bool_decide (leaf_count ≤ leaf_index)
  then Fail "`leaf_index` must less than `leaf_count`"%string
  else
    let diff := N.lxor leaf_index leaf_count in
    height ← u32_sub 64 (leading_zeros diff);
    eigentree_height ← u32_sub height 1;
    let merge_height := N.shiftl 1 eigentree_height in
    bitmask ← u64_sub merge_height 1;
    let eigentree_count := count_ones leaf_count in
    let offset := count_ones (N.land leaf_count bitmask) in
    eigen_index ← u32_sub eigentree_count offset;
    eigen_index ← u32_sub eigen_index 1;
    let local_offset := N.land leaf_index bitmask in
    local_path ← u64_add local_offset merge_height;
    Done (local_path, eigen_index).

Definition found {A} (msg : string) (r : option A) : stm Store string A :=
  match r with Some a => mret a | None => abort msg end.

(** [pair[bit]]. *)
Definition at_bit (pair : Cid * Cid) (bit : N) : Cid :=
  if bool_decide (bit = 0) then pair.1 else pair.2.

(** The loop of [get_at] from the most significant bit of the path down. *)
Fixpoint walk (path significant_bits : N) (idx : list N) (pair : Cid * Cid)
    : stm Store string (Cid * Cid) :=
  match idx with
  | [] => mret pair
  | i :: idx =>
      s ← lift (u32_sub significant_bits i);
      s ← lift (u32_sub s 1);
      let bit := N.land (N.shiftr path s) 1 in
      r ← get_cbor decode_pair (at_bit pair bit);
      pair ← found "failed to get eigentree intermediate node" r;
      walk path significant_bits idx pair
  end.

(** The rest of [get_at], below the peak [cid]. *)
Definition descend (path : N) (cid : Cid) : stm Store string Obj :=
  if bool_decide (path = 1) then
    r ← get_cbor decode_obj cid;
    found "failed to get leaf" r
  else
    r ← get_cbor decode_pair cid;
    pair ← found "failed to get eigentree root node" r;
    significant_bits ← lift (u32_sub 64 (leading_zeros path));
    last ← lift (u32_sub significant_bits 1);
    pair ← walk path significant_bits (range_up 1 (N.to_nat (last - 1))) pair;
    let bit := N.land path 1 in
    r ← get_cbor decode_obj (at_bit pair bit);
    found "failed to get leaf" r.

Definition get_at (leaf_index leaf_count : N) (peaks : Amt) : stm Store string Obj :=
  pe ← lift (path_for_eigen_root leaf_index leaf_count);
  let '(path, eigen_index) := pe in
  cid ← found "failed to get peak" (peaks !! eigen_index);
  descend path cid.

(** ** The state of the actor *)

Record State := MkState {
  owner : Address;
  write_access : WriteAccess;
  peaks : Amt;
  leaf_count : N
}.

Record PushReturn := MkPushReturn { root : Cid; index : N }.

Definition state_new (creator : Address) (access : WriteAccess) : State :=
  MkState creator access ∅ 0.

Definition peak_count (st : State) : N := count_ones (leaf_count st).

Definition state_push (obj : Obj) (st : State) : stm Store string (PushReturn * State) :=
  amt ← push (leaf_count st) (peaks st) obj;
  n ← lift (u64_add (leaf_count st) 1);
  root ← lift (bag_peaks amt);
  i ← lift (u64_sub n 1);
  mret (MkPushReturn root i, MkState (owner st) (write_access st) amt n).

Definition get_root (st : State) : outcome string Cid := bag_peaks (peaks st).

Definition get_peaks (st : State) : list Cid := snd <$> om_iter (peaks st).

Definition get_leaf_at (index : N) (st : State) : stm Store string (option Obj) := λ s,
  match get_at index (leaf_count st) (peaks st) s with
  | Done (leaf, s) => Done (Some leaf, s)
  | Fail _ => Done (None, s)
  | Retry => Retry
  | Panic => Panic
  | OutOfFuel => OutOfFuel
  end.
End accumulator.

(** ** Facts about bits *)

(** The number of ones at the low end. *)
Fixpoint pos_trailing_ones (p : positive) : nat :=
  match p with xH => 1 | xO _ => 0 | xI p => S (pos_trailing_ones p) end.
Definition trailing_ones (n : N) : nat :=
  match n with 0 => 0%nat | Npos p => pos_trailing_ones p end.

Lemma trailing_zeros_odd a : trailing_zeros (2 * a + 1) = 0.
Proof. by destruct a. Qed.

Lemma trailing_zeros_not_width (w : nat) n :
  n + 1 < 2 ^ N.of_nat w →
  trailing_zeros (2 ^ N.of_nat w - 1 - n) = N.of_nat (trailing_ones n).
Proof.
  revert n. induction w as [|w IH]; intros n Hn; [change (2 ^ N.of_nat 0) with 1 in Hn; lia|].
  rewrite Nnat.Nat2N.inj_succ, N.pow_succ_r' in *.
  destruct n as [|[p|p|]]; simpl trailing_ones.
  - replace (2 * 2 ^ N.of_nat w - 1 - 0) with (2 * (2 ^ N.of_nat w - 1) + 1) by lia.
    apply trailing_zeros_odd.
  - specialize (IH (Npos p) ltac:(lia)). simpl trailing_ones in IH.
    replace (2 * 2 ^ N.of_nat w - 1 - N.pos p~1) with (2 * (2 ^ N.of_nat w - 1 - N.pos p)) by lia.
    rewrite Nnat.Nat2N.inj_succ, <-IH. destruct (2 ^ N.of_nat w - 1 - N.pos p) eqn:Hq; [lia|done].
  - replace (2 * 2 ^ N.of_nat w - 1 - N.pos p~0) with (2 * (2 ^ N.of_nat w - 1 - N.pos p) + 1) by lia.
    apply trailing_zeros_odd.
  - specialize (IH 0 ltac:(lia)). simpl trailing_ones in IH.
    replace (2 * 2 ^ N.of_nat w - 1 - 1) with (2 * (2 ^ N.of_nat w - 1 - 0)) by lia.
    destruct (2 ^ N.of_nat w - 1 - 0) eqn:Hq; [lia|].
    change (N.succ (trailing_zeros (N.pos p)) = 1). by rewrite IH.
Qed.

Lemma trailing_zeros_not n :
  n + 1 < u64_size → N.to_nat (trailing_zeros (u64_not n)) = trailing_ones n.
Proof.
  intros Hn. unfold u64_not. pose proof (trailing_zeros_not_width 64 n Hn) as Heq.
  change (2 ^ N.of_nat 64 - 1) with u64_max in Heq. rewrite Heq. lia.
Qed.

Lemma leading_zeros_log2 n : 0 < n → n < u64_size → 64 - leading_zeros n = N.succ (N.log2 n).
Proof.
  intros Hpos Hlt. unfold leading_zeros.
  rewrite N.size_log2 by lia.
  assert (N.log2 n < 64) by (apply N.log2_lt_pow2; [done|exact Hlt]). lia.
Qed.

(** The bit [c] in front of the bits of [a]. *)
Definition bit_cons (c : bool) (a : N) : N := if c then N.succ_double a else N.double a.

Lemma bit_cons_spec c a : bit_cons c a = 2 * a + N.b2n c.
Proof. destruct c; simpl; [apply N.succ_double_spec|rewrite N.double_spec; lia]. Qed.

Lemma bit_cons_split n : n = bit_cons (N.odd n) (N.div2 n).
Proof. rewrite bit_cons_spec. apply N.div2_odd. Qed.

Lemma land_bit_cons c d a b : N.land (bit_cons c a) (bit_cons d b) = bit_cons (c && d) (N.land a b).
Proof. by destruct c, d, a, b. Qed.
Lemma lxor_bit_cons c d a b : N.lxor (bit_cons c a) (bit_cons d b) = bit_cons (xorb c d) (N.lxor a b).
Proof. by destruct c, d, a, b. Qed.
Lemma count_ones_bit_cons c a : count_ones (bit_cons c a) = N.b2n c + count_ones a.
Proof. destruct c, a; simpl; lia. Qed.
Lemma log2_bit_cons c a : 0 < a → N.log2 (bit_cons c a) = N.succ (N.log2 a).
Proof.
  intros. destruct c; simpl; [rewrite N.succ_double_spec; by apply N.log2_succ_double|].
  rewrite N.double_spec. by apply N.log2_double.
Qed.

Definition mask (h : N) : N := 2 ^ h - 1.
Lemma mask_succ h : mask (N.succ h) = bit_cons true (mask h).
Proof.
  unfold mask. rewrite bit_cons_spec, N.pow_succ_r'.
  pose proof (N.pow_nonzero 2 h). simpl N.b2n. lia.
Qed.

Lemma land_mask a h : N.land a (mask h) = a `mod` 2 ^ h.
Proof. unfold mask. by rewrite N.sub_1_r, <-N.ones_equiv, N.land_ones. Qed.

Lemma land_mask_succ a h :
  N.land a (mask (N.succ h)) = N.b2n (N.testbit a h) * 2 ^ h + N.land a (mask h).
Proof.
  rewrite !land_mask, N.pow_succ_r', N.mul_comm, N.Div0.mod_mul_r, N.testbit_spec'. lia.
Qed.

Lemma land_shiftr_1 a n : N.land (N.shiftr a n) 1 = N.b2n (N.testbit a n).
Proof. change 1 with (mask 1) at 1. by rewrite land_mask, N.shiftr_div_pow2, N.testbit_spec'. Qed.

Lemma lxor_pos a b : a ≠ b → 0 < N.lxor a b.
Proof. intros Hne. apply N.neq_0_lt_0. intros Heq%N.lxor_eq. done. Qed.

(** ** Trees *)

Section trees.
Context `{Profile, AccumulatorData, !AccumulatorLaws}.

Inductive tree :=
| Leaf (o : Obj)
| Branch (l r : tree).

Fixpoint root_of (t : tree) : Cid :=
  match t with
  | Leaf o => digest (encode_obj o)
  | Branch l r => digest (encode_pair (root_of l, root_of r))
  end.

Fixpoint leaves (t : tree) : list Obj :=
  match t with Leaf o => [o] | Branch l r => leaves l ++ leaves r end.

(** All paths of the tree have the length [k]. *)
Fixpoint perfect (k : nat) (t : tree) : Prop :=
  match k, t with
  | O, Leaf _ => True
  | S k, Branch l r => perfect k l ∧ perfect k r
  | _, _ => False
  end.

Fixpoint in_store (s : Store) (t : tree) : Prop :=
  match t with
  | Leaf o => s !! root_of t = Some (encode_obj o)
  | Branch l r =>
      s !! root_of t = Some (encode_pair (root_of l, root_of r)) ∧ in_store s l ∧ in_store s r
  end.

(** Blocks are filed under their hash. *)
Definition store_ok (s : Store) : Prop := ∀ c raw, s !! c = Some raw → c = digest raw.

Lemma perfect_length k t : perfect k t → length (leaves t) = (2 ^ k)%nat.
Proof.
  revert t. induction k as [|k IH]; intros [o|l r]; simpl; try done.
  intros [Hl Hr]. rewrite length_app, (IH l), (IH r) by done. lia.
Qed.

Lemma put_ok raw s :
  store_ok s → store_ok (<[digest raw := raw]> s) ∧
  ∀ t, in_store s t → in_store (<[digest raw := raw]> s) t.
Proof.
  intros Hok. split.
  { intros c raw'. rewrite lookup_insert_Some. intros [[<- <-]|[_ ?]]; [done|by apply Hok]. }
  assert (∀ c raw', s !! c = Some raw' → <[digest raw := raw]> s !! c = Some raw') as Hkeep.
  { intros c raw' Hc. apply lookup_insert_Some. destruct (decide (digest raw = c)) as [Heq|]; [|by auto].
    left. split; [done|]. apply (inj digest). rewrite Heq. by apply Hok. }
  induction t as [o|l IHl r IHr]; simpl; [apply Hkeep|]. intros (? & ? & ?). auto.
Qed.

(** Equal roots mean equal trees, at one height. *)
Lemma root_of_inj k t t' : perfect k t → perfect k t' → root_of t = root_of t' → t = t'.
Proof.
  revert t t'. induction k as [|k IH]; intros [o|l r] [o'|l' r']; simpl; try done.
  - intros _ _ Heq%(inj digest). f_equal. apply (f_equal decode_obj) in Heq.
    rewrite !decode_encode_obj in Heq. congruence.
  - intros [Hl Hr] [Hl' Hr'] Heq%(inj digest). apply (f_equal decode_pair) in Heq.
    rewrite !decode_encode_pair in Heq. simplify_eq. f_equal; by apply IH.
Qed.

(** ** Peaks

    The peaks from the last one on: for every one in the binary number of leaves, from
    the low end, a perfect tree of that height. *)

Fixpoint forest (k : nat) (p : positive) (ts : list tree) : Prop :=
  match p, ts with
  | xH, [t] => perfect k t
  | xO p, ts => forest (S k) p ts
  | xI p, t :: ts => perfect k t ∧ forest (S k) p ts
  | _, _ => False
  end.

Definition forest_of (n : N) (ts : list tree) : Prop :=
  match n with 0 => ts = [] | Npos p => forest 0 p ts end.

(** The objects of the peaks, in the order of their indices. *)
Fixpoint all_leaves (ts : list tree) : list Obj :=
  match ts with [] => [] | t :: ts => all_leaves ts ++ leaves t end.

(** The array of the peaks. *)
Fixpoint amt_of (l : list Cid) : Amt :=
  match l with [] => ∅ | c :: l => <[N.of_nat (length l) := c]> (amt_of l) end.

Lemma amt_of_lookup l i :
  amt_of l !! i = if decide (i < N.of_nat (length l)) then l !! (length l - 1 - N.to_nat i)%nat else None.
Proof.
  induction l as [|c l IH]; simpl.
  { rewrite decide_False by lia. apply lookup_empty. }
  destruct (decide (i = N.of_nat (length l))) as [->|Hne].
  - rewrite lookup_insert_eq, decide_True by lia.
    match goal with |- _ = _ !! ?j => by replace j with 0%nat by lia end.
  - rewrite lookup_insert_ne, IH by done. destruct (decide (i < N.of_nat (length l))).
    + rewrite decide_True by lia.
      match goal with |- _ = _ !! ?j => by replace j with (S (length l - 1 - N.to_nat i)) by lia end.
    + by rewrite decide_False by lia.
Qed.

Lemma amt_of_count l : amt_count (amt_of l) = N.of_nat (length l).
Proof.
  unfold amt_count. induction l as [|c l IH]; [done|]. simpl.
  rewrite map_size_insert_None; [lia|]. rewrite amt_of_lookup. by rewrite decide_False by lia.
Qed.

Lemma amt_of_last c l : amt_of (c :: l) !! N.of_nat (length l) = Some c.
Proof. simpl. apply lookup_insert_eq. Qed.

Lemma amt_of_delete c l : delete (N.of_nat (length l)) (amt_of (c :: l)) = amt_of l.
Proof. simpl. apply delete_insert_id. rewrite amt_of_lookup. by rewrite decide_False by lia. Qed.

Lemma forest_length k p ts : forest k p ts → N.of_nat (length ts) = pos_ones p.
Proof.
  revert k ts. induction p as [p IH|p IH|]; intros k ts; simpl.
  - destruct ts as [|t ts]; [done|]. intros [_ Hf]. apply IH in Hf. simpl. lia.
  - apply IH.
  - by destruct ts as [|t [|]].
Qed.

Lemma forest_leaves k p ts :
  forest k p ts → N.of_nat (length (all_leaves ts)) = N.pos p * 2 ^ N.of_nat k.
Proof.
  revert k ts. induction p as [p IH|p IH|]; intros k ts; simpl.
  - destruct ts as [|t ts]; [done|]. intros [Ht%perfect_length Hf%IH]. simpl.
    rewrite length_app, Ht, Nnat.Nat2N.inj_add, Hf, Nnat.Nat2N.inj_succ, N.pow_succ_r',
      Nnat.Nat2N.inj_pow. lia.
  - intros Hf%IH. rewrite Hf, Nnat.Nat2N.inj_succ, N.pow_succ_r'. lia.
  - destruct ts as [|t [|]]; try done. intros Ht%perfect_length. simpl.
    rewrite Ht, Nnat.Nat2N.inj_pow. lia.
Qed.

(** ** Pushing *)

(** One merge of the two last peaks. *)
Lemma merge_step n t t0 ts s :
  store_ok s → N.of_nat (length ts) + 2 < u64_size →
  merge_peaks (S n) (amt_of (root_of <$> t :: t0 :: ts)) s =
  merge_peaks n (amt_of (root_of <$> Branch t0 t :: ts))
    (<[digest (encode_pair (root_of t0, root_of t)) := encode_pair (root_of t0, root_of t)]> s).
Proof.
  intros Hok Hlen. cbn [merge_peaks]. stm_unfold.
  rewrite amt_of_count, u64_sub_ok by (rewrite length_fmap; simpl; lia). cbv beta iota.
  rewrite fmap_cons.
  replace (N.of_nat (length (root_of t :: (root_of <$> t0 :: ts))) - 1)
    with (N.of_nat (length (root_of <$> t0 :: ts))) by (simpl; lia).
  rewrite amt_of_last, amt_of_delete.
  rewrite amt_of_count, u64_sub_ok by (rewrite length_fmap; simpl; lia). cbv beta iota.
  rewrite fmap_cons.
  replace (N.of_nat (length (root_of t0 :: (root_of <$> ts))) - 1)
    with (N.of_nat (length (root_of <$> ts))) by (simpl; lia).
  rewrite amt_of_last, amt_of_delete, amt_of_count. simpl. done.
Qed.

Lemma merge_peaks_forest k p t ts s :
  store_ok s → forest k p ts → perfect k t → Forall (in_store s) (t :: ts) →
  pos_ones p + 2 < u64_size →
  ∃ ts' s', merge_peaks (pos_trailing_ones p) (amt_of (root_of <$> t :: ts)) s =
      Done (amt_of (root_of <$> ts'), s') ∧ store_ok s' ∧
    forest k (Pos.succ p) ts' ∧ all_leaves ts' = all_leaves (t :: ts) ∧ Forall (in_store s') ts'.
Proof.
  revert k t ts s. induction p as [p IH|p IH|]; intros k t ts s Hok Hf Ht Hin Hsize.
  - destruct ts as [|t0 ts]; [done|]. destruct Hf as [Ht0 Hf]. simpl in Hsize.
    pose proof (forest_length _ _ _ Hf) as Hlen.
    cbn [pos_trailing_ones]. rewrite merge_step by (done || lia).
    destruct (put_ok (encode_pair (root_of t0, root_of t)) s Hok) as [Hok' Hkeep].
    rewrite !Forall_cons in Hin. destruct Hin as (Hint & Hint0 & Hin).
    destruct (IH (S k) (Branch t0 t) ts _ Hok' Hf) as (ts' & s' & -> & ? & ? & Hall & ?).
    + done.
    + rewrite Forall_cons. split; [|by eapply Forall_impl]. simpl.
      split_and!; [by rewrite lookup_insert_eq|by apply Hkeep..].
    + lia.
    + exists ts', s'. split_and!; try done. rewrite Hall. simpl. by rewrite app_assoc.
  - exists (t :: ts), s. by split_and!.
  - destruct ts as [|t0 [|]]; try done. cbn [pos_trailing_ones]. rewrite merge_step by done.
    destruct (put_ok (encode_pair (root_of t0, root_of t)) s Hok) as [Hok' Hkeep].
    rewrite !Forall_cons in Hin. destruct Hin as (Hint & Hint0 & Hin).
    eexists [Branch t0 t], _.
    split_and!; [done|done|done|done|]. rewrite Forall_singleton. simpl.
    split_and!; [by rewrite lookup_insert_eq|by apply Hkeep..].
Qed.

(** ** The root *)

Definition pair_with (acc c : Cid) : Cid := digest (encode_pair (c, acc)).

Definition bag_of (l : list Cid) : Cid :=
  match l with [] => Cid_default | c :: l => fold_left pair_with l c end.

Lemma bag_loop_of l0 l1 r :
  N.of_nat (length (l0 ++ l1)) < u64_size →
  bag_loop (amt_of (l0 ++ l1)) (range_up (N.of_nat (length l0)) (length l1)) r =
  Done (fold_left pair_with l1 r).
Proof.
  revert l0 r. induction l1 as [|c l1 IH]; intros l0 r Hlen; [done|].
  cbn [length range_up bag_loop fold_left]. rewrite amt_of_count.
  rewrite length_app in *. simpl in Hlen. simpl length.
  rewrite u64_sub_ok by lia. simpl. rewrite u64_sub_ok by lia. simpl.
  rewrite amt_of_lookup, length_app, decide_True by (simpl; lia). simpl length.
  replace (length l0 + S (length l1) - 1 -
    N.to_nat (N.of_nat (length l0 + S (length l1)) - 1 - N.of_nat (length l0)))%nat
    with (length l0 + 0)%nat by lia.
  rewrite lookup_app_r, Nat.add_sub_swap, Nat.sub_diag by lia. simpl.
  specialize (IH (l0 ++ [c]) (pair_with r c)). rewrite <-app_assoc, !length_app in IH.
  replace (N.of_nat (length l0 + length [c])) with (N.succ (N.of_nat (length l0))) in IH by (simpl; lia).
  apply IH. simpl. lia.
Qed.

Lemma bag_peaks_of l : N.of_nat (length l) < u64_size → bag_peaks (amt_of l) = Done (bag_of l).
Proof.
  intros Hlen. unfold bag_peaks. rewrite amt_of_count.
  destruct l as [|c [|c1 l]]; [done|by rewrite bool_decide_eq_false_2, bool_decide_eq_true_2|].
  rewrite !bool_decide_eq_false_2 by (simpl; lia).
  rewrite !u64_sub_ok by (simpl in *; lia). unfold mbind, outcome_bind. cbv beta iota.
  replace (N.of_nat (length (c :: c1 :: l)) - 1) with (N.of_nat (length (c1 :: l))) by (simpl; lia).
  rewrite amt_of_last.
  replace (N.of_nat (length (c :: c1 :: l)) - 2) with (N.of_nat (length l)) by (simpl; lia).
  assert (amt_of (c :: c1 :: l) !! N.of_nat (length l) = Some c1) as ->.
  { rewrite amt_of_lookup, decide_True by (simpl; lia). simpl length.
    by replace (S (S (length l)) - 1 - N.to_nat (N.of_nat (length l)))%nat with 1%nat by lia. }
  cbn [hash_pair]. rewrite Nnat.Nat2N.id.
  apply (bag_loop_of [c; c1] l (pair_with c c1)). done.
Qed.

Lemma bag_of_inj l l' : length l = length l' → bag_of l = bag_of l' → l = l'.
Proof.
  destruct l as [|c l], l' as [|c' l']; try done. simpl. intros [= Hlen].
  revert l' c c' Hlen. induction l as [|z l IH]; intros [|z' l'] c c'; try done; simpl; [congruence|].
  intros [= Hlen] Heq. apply IH in Heq as [= Hp ->]; [|done].
  apply (inj digest) in Hp. apply (f_equal decode_pair) in Hp.
  rewrite !decode_encode_pair in Hp. congruence.
Qed.

(** ** The invariant *)

(** The state holds the objects [l]. *)
Definition accumulates (st : State) (s : Store) (l : list Obj) : Prop :=
  store_ok s ∧ leaf_count st = N.of_nat (length l) ∧
  ∃ ts, forest_of (leaf_count st) ts ∧ peaks st = amt_of (root_of <$> ts) ∧
    Forall (in_store s) ts ∧ all_leaves ts = l.

Lemma pos_ones_le p : pos_ones p ≤ N.pos p.
Proof. induction p as [p IH|p IH|]; simpl; lia. Qed.

Lemma forest_of_length n ts : forest_of n ts → N.of_nat (length ts) = count_ones n ∧ count_ones n ≤ n.
Proof.
  destruct n as [|p]; simpl; [by intros ->|]. intros Hf.
  split; [by eapply forest_length|apply pos_ones_le].
Qed.

Lemma push_forest n ts s o :
  store_ok s → forest_of n ts → Forall (in_store s) ts → n + 2 < u64_size →
  ∃ ts' s', push n (amt_of (root_of <$> ts)) o s = Done (amt_of (root_of <$> ts'), s') ∧
    store_ok s' ∧ forest_of (n + 1) ts' ∧ all_leaves ts' = all_leaves ts ++ [o] ∧
    Forall (in_store s') ts'.
Proof.
  intros Hok Hf Hin Hn. unfold push, put_cbor. stm_unfold. rewrite trailing_zeros_not by lia.
  rewrite amt_of_count. change (<[N.of_nat (length (root_of <$> ts)) := digest (encode_obj o)]>
    (amt_of (root_of <$> ts))) with (amt_of (root_of <$> Leaf o :: ts)).
  destruct (put_ok (encode_obj o) s Hok) as [Hok' Hkeep].
  assert (Forall (in_store (<[digest (encode_obj o) := encode_obj o]> s)) (Leaf o :: ts)) as Hin'.
  { rewrite Forall_cons. split; [|by eapply Forall_impl]. simpl. by rewrite lookup_insert_eq. }
  destruct n as [|p].
  - simpl in Hf. subst ts. eexists [Leaf o], _. by split_and!.
  - pose proof (pos_ones_le p).
    destruct (merge_peaks_forest 0 p (Leaf o) ts _ Hok' Hf I Hin') as (ts' & s' & Hm & ? & ? & Hall & ?);
      [lia|].
    exists ts', s'. split_and!; try done. by rewrite N.add_1_r.
Qed.

Lemma push_accumulates o st s l :
  accumulates st s l → N.of_nat (length l) + 2 < u64_size →
  ∃ r st' s', state_push o st s = Done ((MkPushReturn r (N.of_nat (length l)), st'), s') ∧
    accumulates st' s' (l ++ [o]) ∧ get_root st' = Done r.
Proof.
  intros (Hok & Hn & ts & Hf & Hp & Hin & Hl) Hlen. rewrite <-Hn in Hlen.
  destruct (push_forest (leaf_count st) ts s o Hok Hf Hin Hlen)
    as (ts' & s' & Hpush & Hok' & Hf' & Hall & Hin').
  unfold state_push. rewrite Hp. stm_unfold. rewrite Hpush.
  rewrite u64_add_ok by lia. cbv beta iota.
  assert (N.of_nat (length (root_of <$> ts')) < u64_size) as Hsmall.
  { rewrite length_fmap. apply forest_of_length in Hf'. lia. }
  rewrite bag_peaks_of by done. rewrite u64_sub_ok by lia. cbv beta iota.
  replace (leaf_count st + 1 - 1) with (N.of_nat (length l)) by lia.
  eexists _, _, _. split; [done|]. split.
  - split; [done|]. simpl. split; [rewrite length_app; simpl; lia|].
    exists ts'. split_and!; [done|done|done|congruence].
  - unfold get_root. simpl. by apply bag_peaks_of.
Qed.

(** ** Finding a leaf *)

(** The tree [t] is the peak above the leaf [i] when there are [n] leaves, where a leaf
    stands for [2 ^ k] objects: [t] has the height at which the paths to [i] and [n]
    part, it comes after as many peaks as there are ones above that, and the lower
    bits of [i] are the place in it. *)
Definition peak_above (k : nat) (n i : N) (ts : list tree) (t : tree) : Prop :=
  let h := N.log2 (N.lxor i n) in
  ts !! N.to_nat (count_ones (N.land n (mask h))) = Some t ∧
  perfect (k + N.to_nat h) t ∧
  ∀ x, x < 2 ^ N.of_nat k →
    leaves t !! N.to_nat (N.land i (mask h) * 2 ^ N.of_nat k + x) =
    all_leaves ts !! N.to_nat (i * 2 ^ N.of_nat k + x).

(** The peak is further up. *)
Lemma peak_above_up k n i b c ts t t0 :
  i < n → N.of_nat (length (all_leaves ts)) = n * 2 ^ N.of_nat (S k) →
  peak_above (S k) n i ts t →
  peak_above k (bit_cons b n) (bit_cons c i) (if b then t0 :: ts else ts) t.
Proof.
  intros Hi Hlen (Ht & Hp & Hx). unfold peak_above. rewrite lxor_bit_cons.
  rewrite log2_bit_cons by (apply lxor_pos; lia).
  rewrite mask_succ, !land_bit_cons, !andb_true_r, count_ones_bit_cons.
  set (h := N.log2 (N.lxor i n)) in *. split_and!.
  - destruct b; simpl; [|done]. by replace (N.to_nat (1 + _)) with
      (S (N.to_nat (count_ones (N.land n (mask h))))) by lia.
  - by replace (k + N.to_nat (N.succ h))%nat with (S k + N.to_nat h)%nat by lia.
  - rewrite Nnat.Nat2N.inj_succ, N.pow_succ_r' in Hlen.
    intros x Hlt. specialize (Hx (N.b2n c * 2 ^ N.of_nat k + x)).
    rewrite Nnat.Nat2N.inj_succ, N.pow_succ_r' in Hx.
    rewrite !bit_cons_spec. assert (N.b2n c ≤ 1) as Hc by (destruct c; simpl; lia).
    replace ((2 * N.land i (mask h) + N.b2n c) * 2 ^ N.of_nat k + x) with
      (N.land i (mask h) * (2 * 2 ^ N.of_nat k) + (N.b2n c * 2 ^ N.of_nat k + x)) by lia.
    replace ((2 * i + N.b2n c) * 2 ^ N.of_nat k + x) with
      (i * (2 * 2 ^ N.of_nat k) + (N.b2n c * 2 ^ N.of_nat k + x)) by lia.
    rewrite Hx by nia. destruct b; [|done]. simpl. symmetry. apply lookup_app_l. nia.
Qed.

(** The peak is the last one. *)
Lemma peak_above_here k n ts t :
  N.of_nat (length (all_leaves ts)) = n * 2 ^ N.of_nat (S k) → perfect k t →
  peak_above k (bit_cons true n) (bit_cons false n) (t :: ts) t.
Proof.
  intros Hlen Ht. unfold peak_above. rewrite lxor_bit_cons, N.lxor_nilpotent. simpl xorb.
  change (N.log2 (bit_cons true 0)) with 0. change (mask 0) with 0. rewrite !N.land_0_r.
  split_and!; [done|by rewrite Nat.add_0_r|]. intros x Hx. simpl.
  rewrite Nnat.Nat2N.inj_succ, N.pow_succ_r' in Hlen.
  rewrite lookup_app_r by (rewrite N.double_spec; nia). f_equal.
  rewrite N.double_spec. nia.
Qed.

Lemma locate k p ts i :
  forest k p ts → i < N.pos p → ∃ t, peak_above k (N.pos p) i ts t.
Proof.
  revert k ts i. induction p as [p IH|p IH|]; intros k ts i Hf Hi; rewrite (bit_cons_split i) in *;
    set (j := N.div2 i) in *; set (c := N.odd i) in *; rewrite bit_cons_spec in Hi.
  - destruct ts as [|t0 ts]; [done|]. destruct Hf as [Ht0 Hf].
    pose proof (forest_leaves _ _ _ Hf) as Hlen. destruct (decide (j < N.pos p)) as [Hj|Hj].
    + destruct (IH (S k) ts j Hf Hj) as [t Ht]. exists t.
      by apply (peak_above_up k (N.pos p) j true c ts t t0).
    + exists t0. assert (j = N.pos p ∧ c = false) as [-> ->] by (destruct c; simpl in *; lia).
      by apply (peak_above_here k (N.pos p) ts t0).
  - assert (j < N.pos p) as Hj by lia. pose proof (forest_leaves (S k) p ts Hf) as Hlen.
    destruct (IH (S k) ts j Hf Hj) as [t Ht]. exists t.
    by apply (peak_above_up k (N.pos p) j false c ts t t).
  - destruct ts as [|t0 [|]]; try done. exists t0.
    assert (j = 0 ∧ c = false) as [-> ->] by (destruct c; simpl in *; lia).
    by apply (peak_above_here k 0 []).
Qed.

(** [path_for_eigen_root] finds the place of that peak and the path below it. *)
Lemma path_for_eigen_root_eq p ts i :
  forest 0 p ts → i < N.pos p → N.pos p < u64_size →
  ∃ t h, perfect h t ∧ N.land i (mask (N.of_nat h)) < 2 ^ N.of_nat h ∧ (h < 64)%nat ∧
    t ∈ ts ∧ (∃ e, path_for_eigen_root i (N.pos p) =
        Done (N.land i (mask (N.of_nat h)) + 2 ^ N.of_nat h, e) ∧
      amt_of (root_of <$> ts) !! e = Some (root_of t)) ∧
    leaves t !! N.to_nat (N.land i (mask (N.of_nat h))) = all_leaves ts !! N.to_nat i.
Proof.
  intros Hf Hi Hp. destruct (locate 0 p ts i Hf Hi) as (t & Ht & Hperf & Hx).
  pose proof (forest_length _ _ _ Hf) as Hones. pose proof (pos_ones_le p) as Hle.
  pose proof (lookup_lt_Some _ _ _ Ht) as Hlt.
  set (h := N.log2 (N.lxor i (N.pos p))) in *.
  assert (0 < N.lxor i (N.pos p)) as Hpos by (apply lxor_pos; lia).
  assert (N.lxor i (N.pos p) < u64_size) as Hxor.
  { apply N.log2_lt_pow2 with (b := 64); [done|].
    eapply N.le_lt_trans; [apply N.log2_lxor|]. apply N.max_lub_lt.
    - destruct (decide (i = 0)) as [->|]; [done|]. apply N.log2_lt_pow2; [lia|].
      change (i < u64_size). lia.
    - apply N.log2_lt_pow2; [lia|done]. }
  assert (h < 64) as Hh by (apply N.log2_lt_pow2; [done|exact Hxor]).
  assert (2 ^ h ≤ 2 ^ 63) as Hpow by (apply N.pow_le_mono_r; lia).
  assert (2 ^ h ≠ 0) as Hnz by (by apply N.pow_nonzero).
  assert (N.land i (mask h) < 2 ^ h) as Hlow.
  { rewrite land_mask. by apply N.mod_lt. }
  exists t, (N.to_nat h). rewrite N2Nat.id. split_and!; [done|done|lia|by eapply list_elem_of_lookup_2| |].
  - exists (pos_ones p - count_ones (N.land (N.pos p) (mask h)) - 1). split.
    + unfold path_for_eigen_root. rewrite bool_decide_eq_false_2 by lia.
      unfold u32_sub. unfold leading_zeros.
      pose proof (leading_zeros_log2 _ Hpos Hxor) as Hlz. fold h in Hlz. unfold leading_zeros in Hlz.
      rewrite bool_decide_eq_true_2 by lia. unfold mbind, outcome_bind. cbv beta iota. rewrite Hlz.
      rewrite bool_decide_eq_true_2 by lia. cbv beta iota.
      replace (N.succ h - 1) with h by lia. rewrite N.shiftl_1_l.
      rewrite u64_sub_ok by lia. cbv beta iota. fold (mask h). cbn [count_ones].
      rewrite bool_decide_eq_true_2 by lia. cbv beta iota.
      rewrite bool_decide_eq_true_2 by lia. cbv beta iota.
      by rewrite u64_add_ok by lia.
    + rewrite amt_of_lookup, length_fmap, decide_True by lia. rewrite list_lookup_fmap.
      replace (length ts - 1 - _)%nat with (N.to_nat (count_ones (N.land (N.pos p) (mask h)))) by lia.
      by rewrite Ht.
  - specialize (Hx 0 ltac:(done)). by rewrite !N.mul_1_r, !N.add_0_r in Hx.
Qed.

Lemma get_leaf s t o :
  in_store s t → t = Leaf o → get_cbor decode_obj (root_of t) s = Done (Some o, s).
Proof.
  intros Hin ->. unfold get_cbor. stm_unfold. simpl in *. rewrite Hin. by rewrite decode_encode_obj.
Qed.

Lemma get_branch s l r :
  in_store s (Branch l r) →
  get_cbor decode_pair (root_of (Branch l r)) s = Done (Some (root_of l, root_of r), s).
Proof.
  intros [Hin _]. unfold get_cbor. stm_unfold. rewrite Hin. by rewrite decode_encode_pair.
Qed.

(** Where the bit [n] of the path leads. *)
Definition child (path : N) (n : N) (l r : tree) : tree := if N.testbit path n then r else l.

Lemma at_bit_child path n l r :
  at_bit (root_of l, root_of r) (N.land (N.shiftr path n) 1) = root_of (child path n l r).
Proof. rewrite land_shiftr_1. unfold child, at_bit. by destruct (N.testbit path n). Qed.

Lemma child_leaves path (n : nat) l r :
  perfect n l →
  leaves (Branch l r) !! N.to_nat (N.land path (mask (N.succ (N.of_nat n)))) =
  leaves (child path (N.of_nat n) l r) !! N.to_nat (N.land path (mask (N.of_nat n))).
Proof.
  intros Hl%perfect_length. rewrite land_mask_succ.
  assert (N.land path (mask (N.of_nat n)) < 2 ^ N.of_nat n) as Hlt.
  { rewrite land_mask. by apply N.mod_lt, N.pow_nonzero. }
  assert (N.of_nat (length (leaves l)) = 2 ^ N.of_nat n) as Hlen by (by rewrite Hl, Nnat.Nat2N.inj_pow).
  unfold child. destruct (N.testbit path (N.of_nat n)); simpl.
  - rewrite lookup_app_r by lia. f_equal. lia.
  - rewrite lookup_app_l by lia. done.
Qed.

Lemma walk_down m h path l r s :
  (m < h)%nat → N.of_nat h < 64 → perfect m l → perfect m r → in_store s (Branch l r) →
  ∃ l' r', walk path (N.of_nat (S h)) (range_up (N.of_nat (h - m)) m) (root_of l, root_of r) s =
      Done ((root_of l', root_of r'), s) ∧
    perfect 0 l' ∧ perfect 0 r' ∧ in_store s (Branch l' r') ∧
    leaves (Branch l r) !! N.to_nat (N.land path (mask (N.of_nat (S m)))) =
    leaves (child path 0 l' r') !! 0%nat.
Proof.
  revert l r. induction m as [|m IH]; intros l r Hm Hh Hl Hr Hin.
  { exists l, r. split_and!; try done.
    etrans; [exact (child_leaves path 0 l r Hl)|]. by rewrite N.land_0_r. }
  cbn [range_up walk]. unfold u32_sub. stm_unfold.
  rewrite bool_decide_eq_true_2 by lia. cbv beta iota.
  rewrite bool_decide_eq_true_2 by lia. cbv beta iota.
  replace (N.of_nat (S h) - N.of_nat (h - S m) - 1) with (N.of_nat (S m)) by lia.
  rewrite at_bit_child, (Nnat.Nat2N.inj_succ (S m)), child_leaves by done.
  set (u := child path (N.of_nat (S m)) l r).
  assert (perfect (S m) u ∧ in_store s u) as [Hu Hinu].
  { destruct Hin as (_ & ? & ?). unfold u, child. by destruct (N.testbit path _). }
  destruct u as [|ul ur]; [done|]. rewrite get_branch by done. cbn [found]. stm_unfold.
  replace (N.succ (N.of_nat (h - S m))) with (N.of_nat (h - m)) by lia.
  apply IH; [lia|done|apply Hu|apply Hu|done].
Qed.

(** From a peak down to a leaf. *)
Lemma get_below s t h off :
  perfect h t → in_store s t → off < 2 ^ N.of_nat h → (h < 64)%nat →
  ∃ o, leaves t !! N.to_nat off = Some o ∧
    descend (off + 2 ^ N.of_nat h) (root_of t) s = Done (o, s).
Proof.
  intros Ht Hin Hoff Hh. set (path := off + 2 ^ N.of_nat h). unfold descend. destruct h as [|h].
  - destruct t as [o|]; [|done]. change (2 ^ N.of_nat 0) with 1 in *.
    exists o. assert (off = 0) as -> by lia. split; [done|].
    unfold path. rewrite bool_decide_eq_true_2 by done. stm_unfold.
    by rewrite (get_leaf s (Leaf o) o).
  - destruct t as [|l r]; [done|]. destruct Ht as [Hl Hr].
    assert (2 ^ N.of_nat (S h) ≤ 2 ^ 63) as Hpow by (apply N.pow_le_mono_r; lia).
    assert (1 < 2 ^ N.of_nat (S h)) as Hgt by (apply N.pow_gt_1; lia).
    assert (N.log2 path = N.of_nat (S h)) as Hlog.
    { apply (N.log2_unique' _ _ off); unfold path; lia. }
    pose proof (leading_zeros_log2 path) as Hlz. rewrite Hlog in Hlz.
    unfold path in *. rewrite bool_decide_eq_false_2 by lia. fold path in Hlz |- *.
    stm_unfold. rewrite get_branch by done. cbn [found]. unfold u32_sub. stm_unfold.
    rewrite bool_decide_eq_true_2 by (unfold leading_zeros; lia). cbv beta iota.
    rewrite Hlz by (unfold path; lia). rewrite bool_decide_eq_true_2 by lia. cbv beta iota.
    destruct (walk_down h (S h) path l r s) as (l' & r' & Hwalk & Hl' & Hr' & Hin' & Hleaf);
      [lia|lia|done|done|done|].
    replace (N.of_nat (S h - h)) with 1 in Hwalk by lia.
    replace (N.to_nat (N.succ (N.of_nat (S h)) - 1 - 1)) with h by lia.
    rewrite <-Nnat.Nat2N.inj_succ, Hwalk.
    assert (N.land path (mask (N.of_nat (S h))) = off) as Hlow.
    { rewrite land_mask. unfold path. rewrite N.Div0.add_mod, N.Div0.mod_same, N.add_0_r, N.Div0.mod_mod.
      by apply N.mod_small. }
    rewrite Hlow in Hleaf.
    pose proof (at_bit_child path 0 l' r') as Hbit. rewrite N.shiftr_0_r in Hbit. rewrite Hbit.
    assert (∃ o, child path 0 l' r' = Leaf o ∧ in_store s (child path 0 l' r')) as (o & Ho & Hino).
    { destruct Hin' as (_ & ? & ?). unfold child.
      destruct l', r'; try done; destruct (N.testbit path 0); eauto. }
    exists o. split; [by rewrite Hleaf, Ho|]. by rewrite (get_leaf s _ o Hino Ho).
Qed.

Lemma stm_bind_lift {S E A B} (a : A) (f : A → stm S E B) (s : S) :
  (lift (Done a) ≫= f) s = f a s.
Proof. done. Qed.
Lemma stm_bind_ret {S E A B} (a : A) (f : A → stm S E B) (s : S) : (mret a ≫= f) s = f a s.
Proof. done. Qed.

Lemma get_accumulated i st s l :
  accumulates st s l → N.of_nat (length l) < u64_size →
  get_leaf_at i st s = Done (l !! N.to_nat i, s).
Proof.
  intros (Hok & Hn & ts & Hf & Hp & Hin & Hl) Hlen. unfold get_leaf_at, get_at. rewrite Hp.
  destruct (decide (i < N.of_nat (length l))) as [Hi|Hi]; cycle 1.
  { rewrite lookup_ge_None_2 by lia. unfold path_for_eigen_root. stm_unfold.
    by rewrite bool_decide_eq_true_2 by lia. }
  rewrite Hn in *. destruct (N.of_nat (length l)) as [|p]; [lia|].
  destruct (path_for_eigen_root_eq p ts i Hf Hi Hlen)
    as (t & h & Hperf & Hlow & Hh & Ht & (e & Hpath & Hpeak) & Hleaf).
  rewrite Forall_forall in Hin.
  destruct (get_below s t h _ Hperf (Hin t Ht) Hlow Hh) as (o & Ho & Hget).
  rewrite Hpath, stm_bind_lift. cbv beta iota. rewrite Hpeak. cbn [found].
  rewrite stm_bind_ret, Hget. by rewrite <-Hl, <-Hleaf, Ho.
Qed.

(** ** The accumulator as a list *)

(** Push several objects, one after the other. *)
Fixpoint push_all (l : list Obj) (st : State) : stm Store string State :=
  match l with
  | [] => mret st
  | o :: l => r ← state_push o st; push_all l r.2
  end.

Lemma accumulates_new a w s : store_ok s → accumulates (state_new a w) s [].
Proof. intros Hok. split; [done|]. split; [done|]. exists []. by split_and!. Qed.

Lemma push_all_accumulates l2 st s l1 :
  accumulates st s l1 → N.of_nat (length (l1 ++ l2)) + 1 < u64_size →
  ∃ st' s', push_all l2 st s = Done (st', s') ∧ accumulates st' s' (l1 ++ l2).
Proof.
  revert st s l1. induction l2 as [|o l2 IH]; intros st s l1 Hacc Hlen.
  { exists st, s. by rewrite app_nil_r. }
  rewrite length_app in Hlen. simpl in Hlen.
  destruct (push_accumulates o st s l1 Hacc) as (r & st1 & s1 & Hpush & Hacc1 & _); [lia|].
  cbn [push_all]. unfold mbind, stm_bind. rewrite Hpush.
  destruct (IH st1 s1 (l1 ++ [o]) Hacc1) as (st' & s' & ? & ?); rewrite <-?app_assoc in *;
    [rewrite length_app; simpl; lia|]. by exists st', s'.
Qed.

Lemma accumulates_peaks st s l :
  accumulates st s l → amt_count (peaks st) = peak_count st.
Proof.
  intros (_ & _ & ts & Hf%forest_of_length & -> & _). rewrite amt_of_count, length_fmap.
  by destruct Hf as [-> _].
Qed.

(** C29: the accumulator is a list: objects pushed one after the other are
    found again at their indices and nothing else is, there are as many peaks as
    ones in their number, and a further push returns the next index and the root
    that is then reported. *)
Theorem accumulator_is_list l a w s0 :
  store_ok s0 → N.of_nat (length l) + 2 < u64_size →
  ∃ st s, push_all l (state_new a w) s0 = Done (st, s) ∧
    leaf_count st = N.of_nat (length l) ∧ amt_count (peaks st) = peak_count st ∧
    (∀ i, get_leaf_at i st s = Done (l !! N.to_nat i, s)) ∧
    ∀ o, ∃ r st' s', state_push o st s = Done ((MkPushReturn r (N.of_nat (length l)), st'), s') ∧
      get_root st' = Done r.
Proof.
  intros Hok Hlen.
  destruct (push_all_accumulates l (state_new a w) s0 []) as (st & s & Hpush & Hacc);
    [by apply accumulates_new|simpl; lia|].
  exists st, s. split_and!; [done|apply Hacc|by eapply accumulates_peaks| |].
  - intros i. apply get_accumulated; [done|lia].
  - intros o. destruct (push_accumulates o st s l Hacc) as (r & st' & s' & ? & _ & ?); [lia|eauto].
Qed.

Lemma forest_inj k p ts ts' :
  forest k p ts → forest k p ts' → root_of <$> ts = root_of <$> ts' → ts = ts'.
Proof.
  revert k ts ts'. induction p as [p IH|p IH|]; intros k ts ts'; simpl.
  - destruct ts as [|t ts], ts' as [|t' ts']; try done. intros [Ht Hf] [Ht' Hf'] [= Heq Heq'].
    f_equal; [by eapply root_of_inj|by eapply IH].
  - apply IH.
  - destruct ts as [|t [|]], ts' as [|t' [|]]; try done. intros Ht Ht' [= Heq].
    f_equal. by eapply root_of_inj.
Qed.

Lemma root_binds st s l st' s' l' r :
  accumulates st s l → accumulates st' s' l' → length l = length l' →
  N.of_nat (length l) < u64_size → get_root st = Done r → get_root st' = Done r → l = l'.
Proof.
  intros (_ & Hn & ts & Hf & Hp & _ & Hl) (_ & Hn' & ts' & Hf' & Hp' & _ & Hl') Hlen Hsize.
  unfold get_root. rewrite Hp, Hp'. rewrite Hn, Hn', <-Hlen in *.
  pose proof (forest_of_length _ _ Hf) as [Hc Hle]. pose proof (forest_of_length _ _ Hf') as [Hc' _].
  rewrite !bag_peaks_of by (rewrite length_fmap; lia). intros [= <-] [= Heq].
  apply bag_of_inj in Heq; [|rewrite !length_fmap; lia].
  assert (ts = ts') as ->; [|congruence]. destruct (N.of_nat (length l)); simpl in *; [by subst|].
  by eapply forest_inj.
Qed.

(** The root is a commitment: when the hash has no collisions, two
    accumulators with the same number of objects and the same root hold the same
    objects. *)
Lemma accumulator_root_binds l l' a w a' w' st st' s s' r :
  length l = length l' → N.of_nat (length l) + 1 < u64_size →
  push_all l (state_new a w) ∅ = Done (st, s) → push_all l' (state_new a' w') ∅ = Done (st', s') →
  get_root st = Done r → get_root st' = Done r → l = l'.
Proof.
  intros Hlen Hsize Hpush Hpush'. assert (store_ok ∅) as Hok by (by intros c raw ?).
  destruct (push_all_accumulates l (state_new a w) ∅ []) as (st1 & s1 & Heq & Hacc);
    [by apply accumulates_new|simpl; lia|].
  destruct (push_all_accumulates l' (state_new a' w') ∅ []) as (st2 & s2 & Heq' & Hacc');
    [by apply accumulates_new|simpl; lia|].
  assert (st1 = st) as -> by congruence. assert (st2 = st') as -> by congruence.
  apply (root_binds _ _ _ _ _ _ r Hacc Hacc'); [done|simpl; lia].
Qed.
End trees.

(** ** A concrete accumulator

    Identifiers are the codes of the blocks, so the hash has no collisions. *)

Section witnesses.
#[local] Existing Instance dev_profile.

#[local] Instance coded_data : AccumulatorData := {|
  Cid := positive;
  Cid_default := 1%positive;
  Raw := N + positive * positive;
  Obj := N;
  encode_obj := inl;
  decode_obj raw := match raw with inl o => Some o | inr _ => None end;
  encode_pair := inr;
  decode_pair raw := match raw with inl _ => None | inr p => Some p end;
  digest := encode;
  Address := N;
  WriteAccess := unit
|}.
#[local] Instance coded_laws : AccumulatorLaws.
Proof. split; [done|done|]. apply encode_inj. Qed.

Definition start : State := state_new (7 : Address) (tt : WriteAccess).

Definition run_objects (l : list Obj) : outcome string (State * Store) := push_all l start ∅.

(** The objects found after pushing [l], from the indices [0] to [5]. *)
Definition found_objects (l : list Obj) : list (option N) :=
  match run_objects l with
  | Done (st, s) =>
      (λ i, match get_leaf_at i st s with Done (o, _) => o | _ => None end) <$> range_up 0 6
  | _ => []
  end.

Lemma accumulator_is_list_witness :
  (∃ st s, push_all [50; 51; 52; 53; 54] (state_new (7 : Address) (tt : WriteAccess)) ∅ =
      Done (st, s) ∧
    leaf_count st = N.of_nat (length [50; 51; 52; 53; 54]) ∧ amt_count (peaks st) = peak_count st ∧
    (∀ i, get_leaf_at i st s = Done ([50; 51; 52; 53; 54] !! N.to_nat i, s)) ∧
    ∀ o, ∃ r st' s', state_push o st s =
        Done ((MkPushReturn r (N.of_nat (length [50; 51; 52; 53; 54])), st'), s') ∧
      get_root st' = Done r) ∧
  found_objects [50; 51; 52] = [Some 50; Some 51; Some 52; None; None; None].
Proof.
  split; [|by vm_compute].
  refine (accumulator_is_list [50; 51; 52; 53; 54] (7 : Address) (tt : WriteAccess) ∅ _ _); [|done].
  by intros c raw ?.
Defined.

(** What a run ends with. *)
Definition state_after (l : list Obj) : State :=
  match run_objects l with Done (st, _) => st | _ => start end.
Definition store_after (l : list Obj) : Store :=
  match run_objects l with Done (_, s) => s | _ => ∅ end.
Definition root_after (l : list Obj) : Cid :=
  match get_root (state_after l) with Done r => r | _ => Cid_default end.

Lemma run_ends (l : list Obj) :
  N.of_nat (length l) + 1 < u64_size →
  run_objects l = Done (state_after l, store_after l) ∧
  get_root (state_after l) = Done (root_after l).
Proof.
  intros Hlen. destruct (push_all_accumulates l start ∅ [])
    as (st & s & Hrun & Hacc); [apply accumulates_new; by intros c raw ?|exact Hlen|].
  unfold root_after, store_after, state_after, run_objects. rewrite Hrun. split; [done|].
  destruct Hacc as (_ & Hn & ts & Hf & Hp & _). unfold get_root. rewrite Hp.
  rewrite bag_peaks_of; [done|]. rewrite length_fmap. apply forest_of_length in Hf. change ([] ++ l) with l in Hn. lia.
Qed.

Lemma accumulator_root_binds_witness :
  ∃ l : list Obj, run_objects [50; 51; 52] = Done (state_after l, store_after l) ∧
    get_root (state_after l) = Done (root_after [50; 51; 52]) ∧ [50; 51; 52] = l.
Proof.
  destruct (run_ends [50; 51; 52] ltac:(done)) as [Hrun Hroot].
  exists [50; 51; 52]. split; [done|]. split; [done|].
  exact (accumulator_root_binds [50; 51; 52] [50; 51; 52] _ _ _ _ _ _ _ _ _ eq_refl ltac:(done)
    Hrun Hrun Hroot Hroot).
Defined.
End witnesses.
