(* ===== verification/PQ.v ===== *)
(** * Priority queues of validators

    [contracts/src/lib/priority]: the indexed binary heaps that keep the active validators
    (a [MinPQ]) and the waiting ones (a [MaxPQ]) of a subnet, with the positions in one
    mapping and their inverse in another.

    A contract call is a transaction: a revert, by an error, an assertion or checked
    arithmetic, is a [Fail] and leaves no effect. *)

From S2P Require Import Prelude.

(** ** Solidity *)

(** [address], a 160-bit number; the zero address is what an unset mapping holds. *)
Abbreviation Address := N (only parsing).

Definition panic_arithmetic : string := "arithmetic".

(** Checked arithmetic on [w]-bit integers. *)
Definition checked {E} (err : E) (size : N) (z : Z) : outcome E N :=
  if bool_decide (0 ≤ z < Z.of_N size)%Z then Done (Z.to_N z) else Fail err.

Abbreviation u16_size := 65536.
Definition u16_add (a b : N) : outcome string N := checked panic_arithmetic u16_size (Z.of_N a + Z.of_N b).
Definition u16_sub (a b : N) : outcome string N := checked panic_arithmetic u16_size (Z.of_N a - Z.of_N b).
Definition u16_mul (a b : N) : outcome string N := checked panic_arithmetic u16_size (Z.of_N a * Z.of_N b).

Lemma checked_ok {E} (err : E) size n : n < size → checked err size (Z.of_N n) = Done n.
Proof. intros ?. unfold checked. rewrite bool_decide_eq_true_2 by lia. by rewrite N2Z.id. Qed.

Lemma u16_add_ok a b : a + b < u16_size → u16_add a b = Done (a + b).
Proof. intros ?. unfold u16_add. rewrite <-N2Z.inj_add. by apply checked_ok. Qed.
Lemma u16_sub_ok a b : b ≤ a → a < u16_size → u16_sub a b = Done (a - b).
Proof. intros ??. unfold u16_sub. rewrite <-N2Z.inj_sub by done. apply checked_ok. lia. Qed.
Lemma u16_mul_ok a b : a * b < u16_size → u16_mul a b = Done (a * b).
Proof. intros ?. unfold u16_mul. rewrite <-N2Z.inj_mul. by apply checked_ok. Qed.

Definition u256_size : N := 2 ^ 256.
Definition u256_add (a b : N) : outcome string N := checked panic_arithmetic u256_size (Z.of_N a + Z.of_N b).
Definition u256_sub (a b : N) : outcome string N := checked panic_arithmetic u256_size (Z.of_N a - Z.of_N b).

Lemma u256_add_ok a b : a + b < u256_size → u256_add a b = Done (a + b).
Proof. intros ?. unfold u256_add. rewrite <-N2Z.inj_add. by apply checked_ok. Qed.
Lemma u256_sub_ok a b : b ≤ a → a < u256_size → u256_sub a b = Done (a - b).
Proof. intros ??. unfold u256_sub. rewrite <-N2Z.inj_sub by done. apply checked_ok. lia. Qed.

Lemma checked_inv {E} (err : E) size z n : checked err size z = Done n → Z.of_N n = z ∧ n < size.
Proof. unfold checked. case_bool_decide; [|done]. intros [= <-]. lia. Qed.
Lemma u256_add_inv a b c : u256_add a b = Done c → c = a + b ∧ c < u256_size.
Proof. intros [Hc Hlt]%checked_inv. split; [lia|done]. Qed.
Lemma u256_sub_inv a b c : u256_sub a b = Done c → c = a - b ∧ b ≤ a.
Proof. intros [Hc Hlt]%checked_inv. lia. Qed.

(** Running a sequence whose first call returns. *)
Lemma bind_run {S E A B} (m : stm S E A) (f : A → stm S E B) s a s' :
  m s = Done (a, s') → (m ≫= f) s = f a s'.
Proof. intros Hm. unfold mbind, stm_bind. by rewrite Hm. Qed.

(** ** The queue *)

Record PQ := MkPQ {
  pq_size : N;
  addressToPos : gmap N N;
  posToAddress : gmap N N
}.

Definition pq_empty : PQ := MkPQ 0 ∅ ∅.

(** Reading the mappings. *)
Definition pos_of (pq : PQ) (a : Address) : N := default 0 (addressToPos pq !! a).
Definition addr_at (pq : PQ) (p : N) : Address := default 0 (posToAddress pq !! p).

(** What the two queues differ in: when a parent and a child are in the wrong order, and
    how the position of a child is computed, by a checked product or by a shift. *)
Class HeapOrder := {
  misplaced : N → N → bool;
  double : N → outcome string N
}.

Definition min_order : HeapOrder := {|
  misplaced parent child := bool_decide (child < parent);
  double pos := u16_mul pos 2
|}.
Definition max_order : HeapOrder := {|
  misplaced parent child := bool_decide (parent < child);
  double pos := Done ((pos * 2) `mod` u16_size)
|}.

Section queue.
Context `{HeapOrder}.
(** [getPower] of the validator set that the queue is used with. *)
Variable (power : Address → N).

Definition requireNotEmpty : stm PQ string unit :=
  size ← reads pq_size;
  if bool_decide (size = 0) then abort "PQEmpty"%string else mret tt.

Definition pq_contains (validator : Address) (pq : PQ) : bool :=
  negb (bool_decide (pos_of pq validator = 0)).

Definition getPosOrRevert (validator : Address) : stm PQ string N :=
  pos ← reads (λ pq, pos_of pq validator);
  if bool_decide (pos = 0) then abort "PQDoesNotContainAddress"%string else mret pos.

Definition del (pos : N) : stm PQ string unit :=
  modify (λ pq, MkPQ (pq_size pq) (delete (addr_at pq pos) (addressToPos pq)) (delete pos (posToAddress pq))).

Definition power_at (pos : N) (pq : PQ) : N := power (addr_at pq pos).

Definition exchange (pos1 pos2 : N) : stm PQ string unit :=
  size ← reads pq_size;
  if negb (bool_decide (pos1 ≤ size) && bool_decide (pos2 ≤ size)) then abort "assert"%string
  else modify (λ pq,
    let addr1 := addr_at pq pos1 in
    let addr2 := addr_at pq pos2 in
    MkPQ (pq_size pq) (<[addr2 := pos1]> (<[addr1 := pos2]> (addressToPos pq)))
      (<[pos1 := addr2]> (<[pos2 := addr1]> (posToAddress pq)))).

Fixpoint swim (fuel : nat) (pos value : N) : stm PQ string unit :=
  match fuel with
  | O => λ _, OutOfFuel
  | S fuel =>
      if negb (bool_decide (1 < pos)) then mret tt
      else
        let parentPos := N.shiftr pos 1 in
        parentPower ← reads (power_at parentPos);
        if negb (misplaced parentPower value) then mret tt
        else
          exchange parentPos pos ;;
          swim fuel parentPos value
  end.

(** [smallerPosition] and [largerPosition]. *)
Definition first_position (pos1 pos2 : N) (pq : PQ) : N * N :=
  let value1 := power_at pos1 pq in
  let value2 := power_at pos2 pq in
  if misplaced value1 value2 then (pos2, value2) else (pos1, value1).

Fixpoint sink_loop (fuel : nat) (pos childPos size value : N) : stm PQ string unit :=
  match fuel with
  | O => λ _, OutOfFuel
  | S fuel =>
      if negb (bool_decide (childPos ≤ size)) then mret tt
      else
        child ← (if bool_decide (childPos < size)
                 then next ← lift (u16_add childPos 1); reads (first_position childPos next)
                 else reads (λ pq, (childPos, power_at childPos pq)));
        let '(childPos, childPower) := child in
        if negb (misplaced value childPower) then mret tt
        else
          exchange childPos pos ;;
          next ← lift (double childPos);
          sink_loop fuel childPos next size value
  end.

(** Positions have 16 bits, so that a path in the heap has at most 16 of them. *)
Definition heap_fuel : nat := 17.

Definition sink (pos value : N) : stm PQ string unit :=
  childPos ← lift (double pos);
  size ← reads pq_size;
  sink_loop heap_fuel pos childPos size value.

Definition set_size (n : N) : stm PQ string unit :=
  modify (λ pq, MkPQ n (addressToPos pq) (posToAddress pq)).

Definition pq_insert (validator : Address) : stm PQ string unit :=
  size ← reads pq_size;
  size ← lift (u16_add size 1);
  modify (λ pq, MkPQ size (<[validator := size]> (addressToPos pq)) (<[size := validator]> (posToAddress pq))) ;;
  swim heap_fuel size (power validator).

Definition pq_pop : stm PQ string unit :=
  requireNotEmpty ;;
  size ← reads pq_size;
  exchange 1 size ;;
  n ← lift (u16_sub size 1);
  set_size n ;;
  del size ;;
  value ← reads (power_at 1);
  sink 1 value.

Definition deleteReheapify (validator : Address) : stm PQ string unit :=
  pos ← getPosOrRevert validator;
  size ← reads pq_size;
  exchange pos size ;;
  n ← lift (u16_sub size 1);
  set_size n ;;
  del size ;;
  if bool_decide (size = pos) then mret tt
  else
    val ← reads (power_at pos);
    swim heap_fuel pos val ;;
    val ← reads (power_at pos);
    sink pos val.

(** Moving an entry whose power has changed towards the root or away from it: for the
    queue of the least, a decrease and an increase, for that of the greatest the other way
    around. *)
Definition towards_root (validator : Address) : stm PQ string unit :=
  pos ← getPosOrRevert validator;
  swim heap_fuel pos (power validator).
Definition away_from_root (validator : Address) : stm PQ string unit :=
  pos ← getPosOrRevert validator;
  sink pos (power validator).

(** [min] and [max]. *)
Definition first : stm PQ string (Address * N) :=
  requireNotEmpty ;;
  addr ← reads (λ pq, addr_at pq 1);
  mret (addr, power addr).
End queue.

(** ** The heap invariant *)

(** The order is a strict weak one, and doubling is exact in the lower half of the positions. *)
Class HeapLaws `{HeapOrder} := {
  misplaced_asym a b : misplaced a b = true → misplaced b a = false;
  placed_trans a b c : misplaced a b = false → misplaced b c = false → misplaced a c = false;
  double_exact p : p < 32768 → double p = Done (p * 2)
}.

#[export] Instance min_laws : HeapLaws (H := min_order).
Proof.
  split; cbn.
  - intros a b ?%bool_decide_eq_true. apply bool_decide_eq_false. lia.
  - intros a b c ?%bool_decide_eq_false ?%bool_decide_eq_false. apply bool_decide_eq_false. lia.
  - intros p ?. apply u16_mul_ok. lia.
Qed.
#[export] Instance max_laws : HeapLaws (H := max_order).
Proof.
  split; cbn.
  - intros a b ?%bool_decide_eq_true. apply bool_decide_eq_false. lia.
  - intros a b c ?%bool_decide_eq_false ?%bool_decide_eq_false. apply bool_decide_eq_false. lia.
  - intros p ?. f_equal. apply N.mod_small. lia.
Qed.

(** The two mappings are inverse to each other, on the positions up to the size. *)
Record linked (pq : PQ) : Prop := {
  linked_inverse a p : addressToPos pq !! a = Some p ↔ 1 ≤ p ≤ pq_size pq ∧ posToAddress pq !! p = Some a;
  linked_filled p : is_Some (posToAddress pq !! p) ↔ 1 ≤ p ≤ pq_size pq
}.

Definition contents (pq : PQ) : gset N := dom (addressToPos pq).

Section linked.
Implicit Types (pq : PQ).

Lemma linked_empty : linked pq_empty.
Proof.
  split; [intros a p|intros p]; cbn; rewrite !lookup_empty.
  - split; [done|]. by intros [_ ?].
  - split; [by intros []|lia].
Qed.

Lemma addr_at_Some pq p : linked pq → 1 ≤ p ≤ pq_size pq → posToAddress pq !! p = Some (addr_at pq p).
Proof. intros Hl Hp. apply linked_filled in Hp as [a Ha]; [|done]. unfold addr_at. by rewrite Ha. Qed.

Lemma pos_of_addr_at pq p : linked pq → 1 ≤ p ≤ pq_size pq → addressToPos pq !! addr_at pq p = Some p.
Proof. intros Hl Hp. apply linked_inverse; [done|]. split; [done|]. by apply addr_at_Some. Qed.

Lemma addr_at_inj pq p q :
  linked pq → 1 ≤ p ≤ pq_size pq → 1 ≤ q ≤ pq_size pq → addr_at pq p = addr_at pq q → p = q.
Proof.
  intros Hl Hp Hq Heq. apply (pos_of_addr_at _ _ Hl) in Hp, Hq. rewrite Heq in Hp. congruence.
Qed.

Lemma contents_at pq a : linked pq → a ∈ contents pq ↔ ∃ p, 1 ≤ p ≤ pq_size pq ∧ addr_at pq p = a.
Proof.
  intros Hl. unfold contents. rewrite elem_of_dom. split.
  - intros [p Hp]. exists p. apply linked_inverse in Hp as [? Hp]; [|done]. split; [done|].
    unfold addr_at. by rewrite Hp.
  - intros (p & Hp & <-). exists p. by apply pos_of_addr_at.
Qed.

Lemma contains_spec pq a : linked pq → pq_contains a pq = true ↔ a ∈ contents pq.
Proof.
  intros Hl. unfold pq_contains, pos_of, contents. rewrite elem_of_dom, negb_true_iff, bool_decide_eq_false.
  destruct (addressToPos pq !! a) as [p|] eqn:Hp; cbn.
  - apply linked_inverse in Hp as [? _]; [|done]. split; [by eexists|lia].
  - split; [done|by intros []].
Qed.

Lemma getPos_spec pq a :
  linked pq → a ∈ contents pq →
  ∃ p, getPosOrRevert a pq = Done (p, pq) ∧ 1 ≤ p ≤ pq_size pq ∧ addr_at pq p = a.
Proof.
  intros Hl (p & Hp & Ha)%contents_at; [|done]. exists p. split; [|done].
  unfold getPosOrRevert. stm_unfold. unfold pos_of. rewrite <-Ha, pos_of_addr_at by done. cbn.
  rewrite bool_decide_eq_false_2 by lia. done.
Qed.

(** Exchanging two entries. *)
Definition swap_pos (p q x : N) : N := if bool_decide (x = p) then q else if bool_decide (x = q) then p else x.

Definition exchanged (p q : N) pq : PQ :=
  MkPQ (pq_size pq) (<[addr_at pq q := p]> (<[addr_at pq p := q]> (addressToPos pq)))
    (<[p := addr_at pq q]> (<[q := addr_at pq p]> (posToAddress pq))).

Lemma exchange_run p q pq :
  p ≤ pq_size pq → q ≤ pq_size pq → exchange p q pq = Done (tt, exchanged p q pq).
Proof. intros ??. unfold exchange. stm_unfold. by rewrite !bool_decide_eq_true_2. Qed.

Lemma exchanged_at p q pq x : addr_at (exchanged p q pq) x = addr_at pq (swap_pos p q x).
Proof.
  unfold addr_at at 1, swap_pos. cbn. case_bool_decide as Hp; [subst; by rewrite lookup_insert_eq|].
  rewrite lookup_insert_ne by done. case_bool_decide as Hq; [subst; by rewrite lookup_insert_eq|].
  by rewrite lookup_insert_ne.
Qed.

Lemma exchanged_linked p q pq :
  linked pq → 1 ≤ p ≤ pq_size pq → 1 ≤ q ≤ pq_size pq → linked (exchanged p q pq).
Proof.
  intros Hl Hp Hq.
  assert (∀ x, is_Some (posToAddress (exchanged p q pq) !! x) ↔ 1 ≤ x ≤ pq_size pq) as Hfill.
  { intros x. cbn. rewrite !lookup_insert_is_Some, linked_filled by done. split.
    - intros [<-|[_ [<-|[_ ?]]]]; done.
    - intros Hx. destruct (decide (p = x)); [by left|]. destruct (decide (q = x)); [by right; split; [|left]|].
      by right; split; [|right]. }
  split; [|done]. intros a x. change (pq_size (exchanged p q pq)) with (pq_size pq).
  assert (∀ y, 1 ≤ y ≤ pq_size pq → posToAddress (exchanged p q pq) !! y = Some (addr_at pq (swap_pos p q y))) as Hat.
  { intros y [b Hb]%Hfill. rewrite <-exchanged_at. unfold addr_at. by rewrite Hb. }
  change (addressToPos (exchanged p q pq)) with
    (<[addr_at pq q := p]> (<[addr_at pq p := q]> (addressToPos pq))).
  rewrite lookup_insert_Some, lookup_insert_Some. split.
  - intros [[<- <-]|[Hne1 [[<- <-]|[Hne2 Ha]]]].
    + split; [done|]. rewrite Hat by done. unfold swap_pos. by rewrite bool_decide_eq_true_2.
    + split; [done|]. rewrite Hat by done. unfold swap_pos.
      rewrite (bool_decide_eq_true_2 (q = q)) by done. case_bool_decide; [by subst|done].
    + apply linked_inverse in Ha as [Hx Ha]; [|done]. split; [done|]. rewrite Hat by done.
      rewrite addr_at_Some in Ha by done. injection Ha as <-. unfold swap_pos.
      rewrite !bool_decide_eq_false_2 by (intros ->; done). done.
  - intros [Hx Ha]. rewrite Hat in Ha by done. injection Ha as <-. unfold swap_pos.
    case_bool_decide as E1; [by left; subst|]. case_bool_decide as E2.
    + subst x. right. split; [|by left]. intros Heq. apply E1. symmetry. by eapply addr_at_inj.
    + right. split; [|right; split].
      * intros Heq. apply E2. symmetry. by eapply addr_at_inj.
      * intros Heq. apply E1. symmetry. by eapply addr_at_inj.
      * by apply pos_of_addr_at.
Qed.

Lemma exchanged_contents p q pq :
  linked pq → 1 ≤ p ≤ pq_size pq → 1 ≤ q ≤ pq_size pq → contents (exchanged p q pq) = contents pq.
Proof.
  intros Hl Hp Hq. apply set_eq. intros a.
  assert (addr_at pq p ∈ contents pq) by (apply contents_at; eauto).
  assert (addr_at pq q ∈ contents pq) by (apply contents_at; eauto).
  unfold contents in *. cbn. rewrite !dom_insert. set_solver.
Qed.
End linked.

Section heap.
Context `{HeapLaws} (power : Address → N).
Implicit Types (pq : PQ).

Definition key pq (p : N) : N := power (addr_at pq p).

(** A parent and a child in the right order. *)
Definition placed pq (par child : N) : Prop := misplaced (key pq par) (key pq child) = false.

Definition heap pq : Prop := ∀ c, 2 ≤ c ≤ pq_size pq → placed pq (c / 2) c.

(** A heap but for the order of the entry at a position and those next to it: its
    neighbours are still in order with each other. *)
Definition bridged pq (pos : N) : Prop := ∀ c, 2 ≤ c ≤ pq_size pq → c / 2 = pos → 2 ≤ pos →
  placed pq (pos / 2) c.
Definition heap_below pq (pos : N) : Prop :=
  (∀ c, 2 ≤ c ≤ pq_size pq → c ≠ pos → placed pq (c / 2) c) ∧ bridged pq pos.
Definition heap_above pq (pos : N) : Prop :=
  (∀ c, 2 ≤ c ≤ pq_size pq → c / 2 ≠ pos → placed pq (c / 2) c) ∧ bridged pq pos.
Definition heap_around pq (pos : N) : Prop :=
  (∀ c, 2 ≤ c ≤ pq_size pq → c ≠ pos → c / 2 ≠ pos → placed pq (c / 2) c) ∧ bridged pq pos.

(** What the operations on a queue leave as it is. *)
Definition same_queue pq pq' : Prop :=
  linked pq' ∧ pq_size pq' = pq_size pq ∧ contents pq' = contents pq.

Lemma same_queue_trans pq pq' pq'' : same_queue pq pq' → same_queue pq' pq'' → same_queue pq pq''.
Proof. intros (_ & Hs & Hc) (Hl & Hs' & Hc'). split_and!; congruence. Qed.

Lemma exchanged_same p q pq :
  linked pq → 1 ≤ p ≤ pq_size pq → 1 ≤ q ≤ pq_size pq → same_queue pq (exchanged p q pq).
Proof. intros. split_and!; [by apply exchanged_linked|done|by apply exchanged_contents]. Qed.

Lemma half_bounds c : 2 ≤ c → 1 ≤ c / 2 ∧ c / 2 < c.
Proof. intros. split; [apply N.div_le_lower_bound; lia|apply N.div_lt; lia]. Qed.

Lemma child_bounds c pos : c / 2 = pos → pos * 2 ≤ c ≤ pos * 2 + 1.
Proof. intros <-. pose proof (N.div_mod c 2 ltac:(done)). pose proof (N.mod_lt c 2 ltac:(done)).
  generalize dependent (c `mod` 2). generalize (c / 2). lia. Qed.

(** The keys after an exchange. *)
Lemma key_swap_l p q pq : key (exchanged p q pq) p = key pq q.
Proof. unfold key. rewrite exchanged_at. unfold swap_pos. by rewrite bool_decide_eq_true_2. Qed.
Lemma key_swap_r p q pq : key (exchanged p q pq) q = key pq p.
Proof.
  unfold key. rewrite exchanged_at. unfold swap_pos. rewrite (bool_decide_eq_true_2 (q = q)) by done.
  case_bool_decide; by subst.
Qed.
Lemma key_swap_ne p q pq x : x ≠ p → x ≠ q → key (exchanged p q pq) x = key pq x.
Proof. intros. unfold key. rewrite exchanged_at. unfold swap_pos. by rewrite !bool_decide_eq_false_2. Qed.

Lemma swim_step pq pos :
  linked pq → 2 ≤ pos ≤ pq_size pq → heap_below pq pos → ¬ placed pq (pos / 2) pos →
  heap_below (exchanged (pos / 2) pos pq) (pos / 2).
Proof.
  intros Hl Hpos [Hedges Hbridge] Hmis. destruct (half_bounds pos) as [Hh1 Hh2]; [lia|].
  assert (misplaced (key pq pos) (key pq (pos / 2)) = false) as Hok.
  { apply misplaced_asym. unfold placed in Hmis. by apply not_false_is_true. }
  set (par := pos / 2) in *. unfold placed in *. split.
  - intros c Hc Hne. change (pq_size (exchanged par pos pq)) with (pq_size pq) in Hc. unfold placed.
    destruct (decide (c = pos)) as [->|Hcp]; [fold par; by rewrite key_swap_r, key_swap_l|].
    rewrite (key_swap_ne _ _ _ c) by done.
    destruct (decide (c / 2 = pos)) as [Hch|Hch].
    { rewrite Hch, key_swap_r. apply Hbridge; [done|done|lia]. }
    destruct (decide (c / 2 = par)) as [Hsib|Hsib].
    { rewrite Hsib, key_swap_l. eapply placed_trans; [exact Hok|]. rewrite <-Hsib. by apply Hedges. }
    rewrite key_swap_ne by done. by apply Hedges.
  - intros c Hc Hch Hpar. change (pq_size (exchanged par pos pq)) with (pq_size pq) in Hc. unfold placed.
    destruct (half_bounds par) as [_ Hh3]; [done|].
    rewrite (key_swap_ne _ _ _ (par / 2)) by lia.
    assert (misplaced (key pq (par / 2)) (key pq par) = false) as Hgp by (apply Hedges; lia).
    destruct (decide (c = pos)) as [->|Hcp]; [by rewrite key_swap_r|].
    rewrite key_swap_ne by (pose proof (child_bounds _ _ Hch); lia).
    eapply placed_trans; [exact Hgp|]. rewrite <-Hch. by apply Hedges.
Qed.

Lemma swim_spec fuel pos pq :
  linked pq → 1 ≤ pos ≤ pq_size pq → pos < 2 ^ N.of_nat fuel → heap_below pq pos →
  ∃ pq', swim power fuel pos (key pq pos) pq = Done (tt, pq') ∧ same_queue pq pq' ∧ heap pq'.
Proof.
  revert pos pq. induction fuel as [|fuel IH]; intros pos pq Hl Hpos Hfuel Hh; [cbn in Hfuel; lia|].
  cbn [swim]. case_bool_decide as Hone; cbn [negb].
  2:{ eexists. split; [done|]. split; [by split_and!|]. intros c Hc. apply Hh; [done|lia]. }
  change (N.shiftr pos 1) with (N.div2 pos). rewrite N.div2_div.
  unfold mbind at 1, stm_bind at 1, reads, power_at. fold (key pq (pos / 2)).
  destruct (misplaced (key pq (pos / 2)) (key pq pos)) eqn:Hm; cbn [negb].
  2:{ eexists. split; [done|]. split; [by split_and!|]. intros c Hc.
      destruct (decide (c = pos)) as [->|]; [done|by apply Hh]. }
  destruct (half_bounds pos) as [Hh1 Hh2]; [lia|].
  unfold mbind at 1, stm_bind at 1. rewrite exchange_run by lia.
  pose proof (exchanged_same (pos / 2) pos pq Hl ltac:(lia) ltac:(lia)) as (Hl' & Hsz & Hct).
  destruct (IH (pos / 2) (exchanged (pos / 2) pos pq)) as (pq' & Hrun & Hsame & Hheap); try done.
  - rewrite Hsz. lia.
  - rewrite Nat2N.inj_succ, N.pow_succ_r' in Hfuel. apply N.Div0.div_lt_upper_bound. lia.
  - apply swim_step; [done|lia|done|]. unfold placed. congruence.
  - rewrite key_swap_l in Hrun. exists pq'. split; [done|]. split; [|done].
    by eapply same_queue_trans.
Qed.

(** The child that is chosen is in order with both children. *)
Lemma sink_step pq pos c :
  linked pq → 1 ≤ pos → 2 ≤ c ≤ pq_size pq → c / 2 = pos →
  (∀ d, 2 ≤ d ≤ pq_size pq → d / 2 = pos → d ≠ c → placed pq c d) →
  heap_above pq pos → ¬ placed pq pos c → heap_above (exchanged c pos pq) c.
Proof.
  intros Hl Hpos Hc Hcp Hsib [Hedges Hbridge] Hmis.
  destruct (half_bounds c) as [_ Hlt]; [lia|]. rewrite Hcp in Hlt.
  assert (misplaced (key pq c) (key pq pos) = false) as Hok.
  { apply misplaced_asym. unfold placed in Hmis. by apply not_false_is_true. }
  unfold placed in *. split.
  - intros d Hd Hne. change (pq_size (exchanged c pos pq)) with (pq_size pq) in Hd. unfold placed.
    destruct (decide (d = c)) as [->|Hdc]; [by rewrite Hcp, key_swap_r, key_swap_l|].
    destruct (decide (d / 2 = pos)) as [Hdp|Hdp].
    { rewrite Hdp, key_swap_r, key_swap_ne; [by apply Hsib|done|].
      pose proof (child_bounds _ _ Hdp). lia. }
    destruct (decide (d = pos)) as [->|Hd'].
    { destruct (half_bounds pos) as [_ Hlt']; [lia|]. rewrite key_swap_r, key_swap_ne by lia.
      by apply Hbridge; [|done|lia]. }
    rewrite !key_swap_ne by done. by apply Hedges.
  - intros d Hd Hdc _. change (pq_size (exchanged c pos pq)) with (pq_size pq) in Hd. unfold placed.
    pose proof (child_bounds _ _ Hdc). rewrite Hcp, key_swap_r, key_swap_ne by lia.
    rewrite <-Hdc at 1. apply Hedges; [done|lia].
Qed.

Lemma first_position_spec pq c d k v :
  first_position power c d pq = (k, v) →
  (k = c ∨ k = d) ∧ v = key pq k ∧ placed pq k c ∧ placed pq k d.
Proof.
  unfold first_position, power_at, placed. fold (key pq c) (key pq d).
  assert (∀ a, misplaced a a = false) as Hrefl.
  { intros a. destruct (misplaced a a) eqn:Ha; [|done]. pose proof (misplaced_asym a a Ha). congruence. }
  destruct (misplaced (key pq c) (key pq d)) eqn:Hm; intros [= <- <-].
  - split_and!; [by right|done|by apply misplaced_asym|apply Hrefl].
  - split_and!; [by left|done|apply Hrefl|done].
Qed.

Lemma sink_child pq pos :
  1 ≤ pos → pq_size pq < 32768 → pos * 2 ≤ pq_size pq →
  ∃ k, (if bool_decide (pos * 2 < pq_size pq)
        then next ← lift (u16_add (pos * 2) 1); reads (first_position power (pos * 2) next)
        else reads (λ pq, (pos * 2, power_at power (pos * 2) pq))) pq = Done ((k, key pq k), pq) ∧
    2 ≤ k ≤ pq_size pq ∧ k / 2 = pos ∧ ∀ d, 2 ≤ d ≤ pq_size pq → d / 2 = pos → d ≠ k → placed pq k d.
Proof.
  intros Hpos Hsize Hle.
  assert (pos * 2 / 2 = pos) as Heven by (by apply N.div_mul).
  assert ((pos * 2 + 1) / 2 = pos) as Hodd.
  { rewrite N.div_add_l by done. change (1 / 2) with 0. lia. }
  case_bool_decide as Hlt.
  - rewrite u16_add_ok by lia. stm_unfold.
    destruct (first_position power (pos * 2) (pos * 2 + 1) pq) as [k v] eqn:Hf.
    apply first_position_spec in Hf as (Hk & -> & Hl & Hr). exists k.
    split_and!; [done|destruct Hk; lia|destruct Hk; lia|by destruct Hk as [-> | ->]|].
    intros d Hd Hdp Hne. apply child_bounds in Hdp.
    destruct (decide (d = pos * 2)) as [-> |]; [done|]. by replace d with (pos * 2 + 1) by lia.
  - exists (pos * 2). split_and!; [done|lia|lia|done|].
    intros d Hd Hdp Hne. apply child_bounds in Hdp. lia.
Qed.

Lemma sink_loop_spec f pos pq :
  linked pq → 1 ≤ pos → pq_size pq < 32768 → pq_size pq < pos * 2 ^ N.of_nat f → heap_above pq pos →
  ∃ pq', sink_loop power (S f) pos (pos * 2) (pq_size pq) (key pq pos) pq = Done (tt, pq') ∧
    same_queue pq pq' ∧ heap pq'.
Proof.
  revert pos pq. induction f as [|f IH]; intros pos pq Hl Hpos Hsize Hf Hh.
  { cbn [sink_loop]. cbn in Hf. rewrite bool_decide_eq_false_2 by lia. cbn [negb].
    eexists. split; [done|]. split; [by split_and!|]. intros c Hc. apply Hh; [done|].
    intros Hcp%child_bounds. lia. }
  remember (S f) as n eqn:Hn. cbn [sink_loop]. case_bool_decide as Hle; cbn [negb].
  2:{ eexists. split; [done|]. split; [by split_and!|]. intros c Hc. apply Hh; [done|].
      intros Hcp%child_bounds. lia. }
  destruct (sink_child pq pos Hpos Hsize Hle) as (k & Hrun & Hk & Hkp & Hsib).
  unfold mbind at 1, stm_bind at 1. rewrite Hrun. cbv beta iota.
  destruct (misplaced (key pq pos) (key pq k)) eqn:Hm; cbn [negb].
  2:{ eexists. split; [done|]. split; [by split_and!|]. intros c Hc.
      destruct (decide (c / 2 = pos)) as [Hcp|]; [|by apply Hh]. rewrite Hcp.
      destruct (decide (c = k)) as [->|Hne]; [done|]. eapply placed_trans; [exact Hm|by apply Hsib]. }
  pose proof (child_bounds _ _ Hkp) as Hkb.
  unfold mbind at 1, stm_bind at 1. rewrite exchange_run by lia. cbv beta iota.
  pose proof (exchanged_same k pos pq Hl ltac:(lia) ltac:(lia)) as (Hl' & Hsz & Hct).
  unfold mbind at 1, stm_bind at 1, lift. rewrite double_exact by lia. cbn [mbind outcome_bind]. subst n.
  destruct (IH k (exchanged k pos pq)) as (pq' & Hr & Hsame & Hheap); [done|lia|by rewrite Hsz| | |].
  - rewrite Hsz. rewrite Nat2N.inj_succ, N.pow_succ_r' in Hf.
    eapply N.lt_le_trans; [exact Hf|]. rewrite N.mul_assoc. apply N.mul_le_mono_r. lia.
  - apply (sink_step pq pos k); try done. unfold placed. congruence.
  - rewrite Hsz, key_swap_l in Hr. exists pq'. split; [done|]. split; [|done]. by eapply same_queue_trans.
Qed.

Lemma sink_spec pos pq :
  linked pq → 1 ≤ pos < 32768 → pq_size pq < 32768 → heap_above pq pos →
  ∃ pq', sink power pos (key pq pos) pq = Done (tt, pq') ∧ same_queue pq pq' ∧ heap pq'.
Proof.
  intros Hl Hpos Hsize Hh. unfold sink, heap_fuel. unfold mbind at 1, stm_bind at 1, lift.
  rewrite double_exact by lia. cbn [mbind outcome_bind]. unfold reads, mbind, stm_bind.
  apply sink_loop_spec; try done; [lia|]. change (2 ^ N.of_nat 16) with 65536. lia.
Qed.

(** A heap is a heap around every position, and the entry there only has to be moved one way. *)
Lemma heap_bridged pq pos : heap pq → bridged pq pos.
Proof.
  intros Hh c Hc Hcp Hpos. unfold placed. destruct (half_bounds c) as [_ Hlt]; [lia|].
  eapply placed_trans; [apply (Hh pos); lia|]. rewrite <-Hcp at 1. by apply Hh.
Qed.
Lemma heap_is_above pq pos : heap pq → heap_above pq pos.
Proof. intros Hh. split; [by intros c Hc _; apply Hh|by apply heap_bridged]. Qed.

Lemma around_below pq pos :
  heap_around pq pos → 2 ≤ pos ≤ pq_size pq → ¬ placed pq (pos / 2) pos → heap_below pq pos.
Proof.
  intros [Hedges Hb] Hpos Hm. split; [|done]. intros c Hc Hne.
  destruct (decide (c / 2 = pos)) as [Hcp|]; [|by apply Hedges]. rewrite Hcp. unfold placed in *.
  eapply placed_trans; [|apply (Hb c Hc Hcp); lia]. apply misplaced_asym. by apply not_false_is_true.
Qed.
Lemma around_above pq pos :
  heap_around pq pos → (2 ≤ pos → placed pq (pos / 2) pos) → heap_above pq pos.
Proof.
  intros [Hedges Hb] Hp. split; [|done]. intros c Hc Hcp.
  destruct (decide (c = pos)) as [->|]; [apply Hp; lia|by apply Hedges].
Qed.

(** The root is a first entry. *)
Lemma root_first pq a : linked pq → heap pq → a ∈ contents pq → misplaced (key pq 1) (power a) = false.
Proof.
  intros Hl Hh (p & Hp & <-)%contents_at; [|done]. fold (key pq p).
  induction p as [p IH] using (well_founded_induction N.lt_wf_0).
  destruct (decide (p = 1)) as [->|Hne].
  - destruct (misplaced (key pq 1) (key pq 1)) eqn:Hm; [|done]. pose proof (misplaced_asym _ _ Hm). congruence.
  - destruct (half_bounds p) as [Hh1 Hh2]; [lia|].
    eapply placed_trans; [apply (IH (p / 2)); lia|apply Hh; lia].
Qed.
End heap.

(** ** The operations *)

Section operations.
Context `{HeapLaws} (power : Address → N).
Implicit Types (pq : PQ).

(** The number of entries is kept in the lower half of 16 bits, where doubling is exact. *)
Record pq_valid pq : Prop := {
  valid_linked : linked pq;
  valid_heap : heap power pq;
  valid_size : pq_size pq < 32768
}.

Lemma size_contents pq : linked pq → N.of_nat (size (contents pq)) = pq_size pq.
Proof.
  intros Hl. set (l := addr_at pq <$> (N.of_nat <$> seq 1 (N.to_nat (pq_size pq)))).
  assert (∀ p, p ∈ N.of_nat <$> seq 1 (N.to_nat (pq_size pq)) ↔ 1 ≤ p ≤ pq_size pq) as Hin.
  { intros p. rewrite list_elem_of_fmap. split.
    - intros (n & -> & Hn%elem_of_seq). lia.
    - intros Hp. exists (N.to_nat p). split; [lia|]. apply elem_of_seq. lia. }
  assert (contents pq = list_to_set l) as ->.
  { apply set_eq. intros a. unfold l. rewrite contents_at, elem_of_list_to_set, list_elem_of_fmap by done.
    setoid_rewrite Hin. naive_solver. }
  rewrite size_list_to_set.
  - unfold l. rewrite !length_fmap, length_seq. lia.
  - apply NoDup_fmap_2_strong; [|apply NoDup_fmap_2; [apply _|apply NoDup_seq]].
    intros p q ?%Hin ?%Hin. by apply addr_at_inj.
Qed.

(** Appending an entry at the end. *)
Definition pushed a pq : PQ :=
  MkPQ (pq_size pq + 1) (<[a := pq_size pq + 1]> (addressToPos pq)) (<[pq_size pq + 1 := a]> (posToAddress pq)).

Lemma pushed_at_ne a pq p : p ≠ pq_size pq + 1 → addr_at (pushed a pq) p = addr_at pq p.
Proof. intros. unfold addr_at. cbn. by rewrite lookup_insert_ne. Qed.

Lemma pushed_linked a pq : linked pq → a ∉ contents pq → linked (pushed a pq).
Proof.
  intros Hl Ha. unfold contents in Ha. rewrite not_elem_of_dom in Ha. split; cbn.
  - intros b p. rewrite !lookup_insert_Some, (linked_inverse _ Hl). split.
    + intros [[<- <-]|[Hne [Hp Hb]]]; [split; [lia|by left]|]. split; [lia|]. right. split; [lia|done].
    + intros [Hp [[<- <-]|[Hne Hb]]]; [by left|]. right.
      assert (1 ≤ p ≤ pq_size pq) as Hp' by (apply (linked_filled _ Hl); by eexists).
      split; [|done]. intros <-. rewrite (proj2 (linked_inverse _ Hl a p)) in Ha by done. done.
  - intros p. rewrite lookup_insert_is_Some, (linked_filled _ Hl). lia.
Qed.

Lemma pushed_contents a pq : contents (pushed a pq) = {[a]} ∪ contents pq.
Proof. unfold contents. cbn. by rewrite dom_insert_L. Qed.

Lemma insert_spec a pq :
  pq_valid pq → a ∉ contents pq → pq_size pq + 1 < 32768 →
  ∃ pq', pq_insert power a pq = Done (tt, pq') ∧ pq_valid pq' ∧ contents pq' = {[a]} ∪ contents pq.
Proof.
  intros [Hl Hh Hs] Ha Hsize. unfold pq_insert. stm_unfold. rewrite u16_add_ok by lia. cbv beta iota.
  fold (pushed a pq). pose proof (pushed_linked a pq Hl Ha) as Hl'.
  assert (addr_at (pushed a pq) (pq_size pq + 1) = a) as Hat.
  { unfold addr_at. cbn. by rewrite lookup_insert_eq. }
  assert (power a = key power (pushed a pq) (pq_size pq + 1)) as -> by (unfold key; by rewrite Hat).
  destruct (swim_spec power heap_fuel (pq_size pq + 1) (pushed a pq)) as (pq' & Hr & (Hl2 & Hs2 & Hc2) & Hh2);
    [done|cbn; lia|change (2 ^ N.of_nat heap_fuel) with 131072; lia| |].
  - split.
    + intros c Hc Hne. cbn in Hc. destruct (half_bounds c) as [??]; [lia|].
      unfold placed, key. rewrite !pushed_at_ne by lia. apply Hh. lia.
    + intros c Hc Hcp. apply child_bounds in Hcp. cbn in Hc. lia.
  - exists pq'. split; [done|]. rewrite Hc2, pushed_contents. split; [|done].
    split; [done|done|]. rewrite Hs2. cbn. lia.
Qed.

(** Taking away the last entry. *)
Definition dropped pq : PQ :=
  MkPQ (pq_size pq - 1) (delete (addr_at pq (pq_size pq)) (addressToPos pq))
    (delete (pq_size pq) (posToAddress pq)).

Lemma dropped_at pq p : p < pq_size pq → addr_at (dropped pq) p = addr_at pq p.
Proof. intros. unfold addr_at. cbn. by rewrite lookup_delete_ne by lia. Qed.

Lemma dropped_linked pq : linked pq → 1 ≤ pq_size pq → linked (dropped pq).
Proof.
  intros Hl Hs. split; cbn.
  - intros a p. rewrite !lookup_delete_Some, (linked_inverse _ Hl). split.
    + intros [Hne [Hp Ha]]. assert (p ≠ pq_size pq) as Hp'.
      { intros ->. apply Hne. unfold addr_at. by rewrite Ha. }
      split_and!; [lia|lia|done|done].
    + intros (Hp & Hne & Ha). split_and!; [|lia|lia|done]. intros <-.
      assert (p = pq_size pq); [|lia]. apply (addr_at_inj pq); [done|lia|lia|].
      unfold addr_at at 1. by rewrite Ha.
  - intros p. rewrite lookup_delete_is_Some, (linked_filled _ Hl). lia.
Qed.

Lemma dropped_contents pq : contents (dropped pq) = contents pq ∖ {[addr_at pq (pq_size pq)]}.
Proof. unfold contents. cbn. apply dom_delete_L. Qed.

(** Taking away the entry at a position: the last one takes its place. *)
Definition removed (pos : N) pq : PQ := dropped (exchanged pos (pq_size pq) pq).

Lemma remove_run pos pq (k : stm PQ string unit) :
  1 ≤ pos ≤ pq_size pq → pq_size pq < u16_size →
  (exchange pos (pq_size pq) ;; n ← lift (u16_sub (pq_size pq) 1); set_size n ;; del (pq_size pq) ;; k) pq =
    k (removed pos pq).
Proof.
  intros Hpos Hs. unfold mbind at 1, stm_bind at 1. rewrite exchange_run by lia.
  rewrite u16_sub_ok by lia. done.
Qed.

Lemma removed_at pos pq p :
  p < pq_size pq → addr_at (removed pos pq) p = addr_at pq (if bool_decide (p = pos) then pq_size pq else p).
Proof.
  intros Hp. unfold removed. rewrite dropped_at by done. rewrite exchanged_at. unfold swap_pos.
  case_bool_decide; [done|]. rewrite bool_decide_eq_false_2 by lia. done.
Qed.

Lemma removed_linked pos pq : linked pq → 1 ≤ pos ≤ pq_size pq → linked (removed pos pq).
Proof. intros Hl Hp. apply dropped_linked; [apply exchanged_linked; try done; lia|cbn; lia]. Qed.

Lemma removed_contents pos pq :
  linked pq → 1 ≤ pos ≤ pq_size pq → contents (removed pos pq) = contents pq ∖ {[addr_at pq pos]}.
Proof.
  intros Hl Hp. unfold removed. rewrite dropped_contents, exchanged_contents by (try done; lia).
  do 2 f_equal. change (pq_size (exchanged pos (pq_size pq) pq)) with (pq_size pq).
  rewrite exchanged_at. unfold swap_pos. case_bool_decide; [congruence|]. by rewrite bool_decide_eq_true_2.
Qed.

(** The powers before a change of one of them. *)
Variable (old : Address → N).
Definition changed_at (a : Address) pq : Prop := ∀ b, b ∈ contents pq → b ≠ a → old b = power b.

Lemma changed_key a pq pos p :
  linked pq → changed_at a pq → addr_at pq pos = a → 1 ≤ pos ≤ pq_size pq → 1 ≤ p ≤ pq_size pq → p ≠ pos →
  key old pq p = key power pq p.
Proof.
  intros Hl Hch <- Hpos Hp Hne. apply Hch; [apply contents_at; eauto|].
  intros Heq. apply Hne. by eapply addr_at_inj.
Qed.

Lemma removed_around a pos pq :
  linked pq → heap old pq → changed_at a pq → addr_at pq pos = a → 1 ≤ pos ≤ pq_size pq →
  heap_around power (removed pos pq) pos.
Proof.
  intros Hl Hh Hch Ha Hpos.
  assert (∀ p, 1 ≤ p < pq_size pq → p ≠ pos → key power (removed pos pq) p = key old pq p) as Hkey.
  { intros p Hp Hne. rewrite (changed_key a pq pos p) by (try done; lia).
    unfold key. rewrite removed_at, bool_decide_eq_false_2 by (try done; lia). done. }
  split.
  - intros c Hc Hne Hcp. cbn in Hc. destruct (half_bounds c) as [??]; [lia|].
    unfold placed. rewrite !Hkey by lia. apply Hh. lia.
  - intros c Hc Hcp Hp. cbn in Hc. pose proof (child_bounds _ _ Hcp). destruct (half_bounds pos) as [??]; [lia|].
    unfold placed. rewrite !Hkey by lia. apply (heap_bridged old pq pos Hh); [lia|done|done].
Qed.

Lemma swim_stays fuel pos pq :
  (2 ≤ pos → placed power pq (pos / 2) pos) → swim power (S fuel) pos (key power pq pos) pq = Done (tt, pq).
Proof.
  intros Hp. cbn [swim]. case_bool_decide as Hone; cbn [negb]; [|done].
  change (N.shiftr pos 1) with (N.div2 pos). rewrite N.div2_div.
  unfold mbind at 1, stm_bind at 1, reads, power_at. fold (key power pq (pos / 2)).
  rewrite Hp by lia. done.
Qed.

Lemma same_valid pq pq' : same_queue pq pq' → heap power pq' → pq_size pq < 32768 → pq_valid pq'.
Proof. intros (Hl & Hs & _) Hh ?. split; [done|done|by rewrite Hs]. Qed.

(** Swimming and then sinking puts an entry in order with its neighbours. *)
Lemma settle pos pq :
  linked pq → 1 ≤ pos ≤ pq_size pq → pq_size pq < 32768 → heap_around power pq pos →
  ∃ pq', (swim power heap_fuel pos (key power pq pos) ;; val ← reads (power_at power pos); sink power pos val) pq =
      Done (tt, pq') ∧ same_queue pq pq' ∧ heap power pq'.
Proof.
  intros Hl Hpos Hs Har.
  assert (∃ pq1, swim power heap_fuel pos (key power pq pos) pq = Done (tt, pq1) ∧
    same_queue pq pq1 ∧ heap_above power pq1 pos) as (pq1 & Hr1 & Hq1 & Hh1).
  { assert (Decision (placed power pq (pos / 2) pos)) by (unfold placed; apply _).
    destruct (decide (2 ≤ pos → placed power pq (pos / 2) pos)) as [Hp|Hp].
    - exists pq. split; [by apply swim_stays|]. split; [by split_and!|by apply around_above].
    - destruct (decide (2 ≤ pos)) as [H2|]; [|tauto].
      destruct (swim_spec power heap_fuel pos pq) as (pq1 & Hr & Hq & Hh); try done.
      + change (2 ^ N.of_nat heap_fuel) with 131072. lia.
      + apply around_below; [done|lia|tauto].
      + exists pq1. split_and!; [done|done|by apply heap_is_above]. }
  unfold mbind at 1, stm_bind at 1. rewrite Hr1. unfold reads, mbind, stm_bind.
  destruct Hq1 as (Hl1 & Hs1 & Hc1).
  destruct (sink_spec power pos pq1) as (pq' & Hr & Hq & Hh); try done; [lia|lia|].
  exists pq'. split; [exact Hr|]. split; [|done]. by eapply same_queue_trans.
Qed.

Lemma delete_spec a pq :
  linked pq → pq_size pq < 32768 → heap old pq → changed_at a pq → a ∈ contents pq →
  ∃ pq', deleteReheapify power a pq = Done (tt, pq') ∧ pq_valid pq' ∧ contents pq' = contents pq ∖ {[a]}.
Proof.
  intros Hl Hs Hh Hch Ha. destruct (getPos_spec pq a Hl Ha) as (pos & Hget & Hpos & Hat).
  unfold deleteReheapify. unfold mbind at 1, stm_bind at 1. rewrite Hget. unfold mbind at 1, stm_bind at 1, reads at 1.
  rewrite remove_run by lia.
  pose proof (removed_linked pos pq Hl Hpos) as Hl'. pose proof (removed_contents pos pq Hl Hpos) as Hc'.
  pose proof (removed_around a pos pq Hl Hh Hch Hat Hpos) as Har. rewrite Hat in Hc'.
  case_bool_decide as Hlast.
  - exists (removed pos pq). split; [done|]. split; [|done]. split; [done| |cbn; lia].
    intros c Hc. cbn in Hc. destruct (half_bounds c) as [??]; [lia|]. apply Har; [cbn; lia|lia|lia].
  - destruct (settle pos (removed pos pq)) as (pq' & Hr & Hq & Hhp); try done; [cbn; lia|cbn; lia|].
    exists pq'. split; [exact Hr|]. split; [|by rewrite <-Hc'; apply Hq].
    eapply same_valid; [done|done|cbn; lia].
Qed.

Lemma requireNotEmpty_run pq : 1 ≤ pq_size pq → requireNotEmpty pq = Done (tt, pq).
Proof. intros. unfold requireNotEmpty. stm_unfold. by rewrite bool_decide_eq_false_2 by lia. Qed.

(** An entry whose power has changed is moved to where it belongs. *)
Lemma towards_root_spec a pq :
  linked pq → pq_size pq < 32768 → heap old pq → changed_at a pq → a ∈ contents pq →
  misplaced (power a) (old a) = false →
  ∃ pq', towards_root power a pq = Done (tt, pq') ∧ pq_valid pq' ∧ contents pq' = contents pq.
Proof.
  intros Hl Hs Hh Hch Ha Hle. destruct (getPos_spec pq a Hl Ha) as (pos & Hget & Hpos & Hat).
  unfold towards_root. unfold mbind at 1, stm_bind at 1. rewrite Hget.
  assert (power a = key power pq pos) as -> by (unfold key; by rewrite Hat).
  pose proof (changed_key a pq pos) as Hkey.
  destruct (swim_spec power heap_fuel pos pq) as (pq' & Hr & Hq & Hh'); try done.
  - change (2 ^ N.of_nat heap_fuel) with 131072. lia.
  - split.
    + intros c Hc Hne. destruct (half_bounds c) as [??]; [lia|]. unfold placed.
      rewrite <-(Hkey c) by (try done; lia). destruct (decide (c / 2 = pos)) as [Hcp|Hcp].
      * rewrite Hcp. unfold key at 1. rewrite Hat. eapply placed_trans; [done|].
        rewrite <-Hat. fold (key old pq pos). rewrite <-Hcp. by apply Hh.
      * rewrite <-(Hkey (c / 2)) by (try done; lia). by apply Hh.
    + intros c Hc Hcp Hp. pose proof (child_bounds _ _ Hcp). destruct (half_bounds pos) as [??]; [lia|].
      unfold placed. rewrite <-!Hkey by (try done; lia). by apply (heap_bridged old pq pos Hh).
  - exists pq'. split; [done|]. split; [by eapply same_valid|apply Hq].
Qed.

Lemma away_from_root_spec a pq :
  linked pq → pq_size pq < 32768 → heap old pq → changed_at a pq → a ∈ contents pq →
  misplaced (old a) (power a) = false →
  ∃ pq', away_from_root power a pq = Done (tt, pq') ∧ pq_valid pq' ∧ contents pq' = contents pq.
Proof.
  intros Hl Hs Hh Hch Ha Hle. destruct (getPos_spec pq a Hl Ha) as (pos & Hget & Hpos & Hat).
  unfold away_from_root. unfold mbind at 1, stm_bind at 1. rewrite Hget.
  assert (power a = key power pq pos) as -> by (unfold key; by rewrite Hat).
  pose proof (changed_key a pq pos) as Hkey.
  destruct (sink_spec power pos pq) as (pq' & Hr & Hq & Hh'); try done; [lia| |].
  - split.
    + intros c Hc Hne. destruct (half_bounds c) as [??]; [lia|]. unfold placed.
      rewrite <-(Hkey (c / 2)) by (try done; lia). destruct (decide (c = pos)) as [->|Hcp].
      * unfold key at 2. rewrite Hat. eapply placed_trans; [|exact Hle]. rewrite <-Hat at 1.
        fold (key old pq pos). by apply Hh.
      * rewrite <-(Hkey c) by (try done; lia). by apply Hh.
    + intros c Hc Hcp Hp. pose proof (child_bounds _ _ Hcp). destruct (half_bounds pos) as [??]; [lia|].
      unfold placed. rewrite <-!Hkey by (try done; lia). by apply (heap_bridged old pq pos Hh).
  - exists pq'. split; [done|]. split; [by eapply same_valid|apply Hq].
Qed.
End operations.

Section reads.
Context `{HeapLaws} (power : Address → N).
Implicit Types (pq : PQ).

Lemma nonempty_size pq a : linked pq → a ∈ contents pq → 1 ≤ pq_size pq.
Proof. intros Hl (p & Hp & _)%contents_at; [lia|done]. Qed.

Lemma root_in pq : linked pq → 1 ≤ pq_size pq → addr_at pq 1 ∈ contents pq.
Proof. intros. apply contents_at; [done|]. exists 1. split; [lia|done]. Qed.

Lemma first_spec pq :
  pq_valid power pq → 1 ≤ pq_size pq →
  ∃ a, first power pq = Done ((a, power a), pq) ∧ addr_at pq 1 = a ∧ a ∈ contents pq ∧
    ∀ b, b ∈ contents pq → misplaced (power a) (power b) = false.
Proof.
  intros [Hl Hh _] Hs. exists (addr_at pq 1). split_and!; [|done|by apply root_in|].
  - unfold first. unfold mbind at 1, stm_bind at 1. by rewrite requireNotEmpty_run.
  - intros b Hb. by apply (root_first power pq b).
Qed.

Lemma pop_spec pq :
  pq_valid power pq → 1 ≤ pq_size pq →
  ∃ pq', pq_pop power pq = Done (tt, pq') ∧ pq_valid power pq' ∧ contents pq' = contents pq ∖ {[addr_at pq 1]}.
Proof.
  intros [Hl Hh Hs] Hne. unfold pq_pop. unfold mbind at 1, stm_bind at 1. rewrite requireNotEmpty_run by done.
  unfold mbind at 1, stm_bind at 1, reads at 1. rewrite remove_run by lia.
  assert (heap_around power (removed 1 pq) 1) as Har.
  { by eapply (removed_around power power). }
  destruct (sink_spec power 1 (removed 1 pq)) as (pq' & Hr & Hq & Hhp).
  - apply removed_linked; [done|lia].
  - lia.
  - cbn. lia.
  - apply around_above; [done|lia].
  - exists pq'. split; [exact Hr|]. split; [eapply same_valid; [done|done|cbn; lia]|].
    rewrite <-removed_contents by (try done; lia). apply Hq.
Qed.

Lemma heap_ext (power' : Address → N) pq :
  linked pq → (∀ b, b ∈ contents pq → power b = power' b) → heap power pq → heap power' pq.
Proof.
  intros Hl Heq Hh c Hc. destruct (half_bounds c) as [??]; [lia|].
  unfold placed, key. rewrite <-!Heq by (apply contents_at; [done|]; eexists; split; [|done]; lia).
  by apply Hh.
Qed.
Lemma valid_ext (power' : Address → N) pq :
  (∀ b, b ∈ contents pq → power b = power' b) → pq_valid power pq → pq_valid power' pq.
Proof. intros Heq [Hl Hh Hs]. split; [done|by eapply heap_ext|done]. Qed.

Lemma valid_empty : pq_valid power pq_empty.
Proof. split; [apply linked_empty|intros c; cbn; lia|done]. Qed.
End reads.

(** The number of entries follows the contents. *)
Lemma grown pq pq' a :
  linked pq → linked pq' → a ∉ contents pq → contents pq' = {[a]} ∪ contents pq → pq_size pq' = pq_size pq + 1.
Proof.
  intros Hl Hl' Ha Hc. rewrite <-!size_contents, Hc, size_union, size_singleton by (done || set_solver). lia.
Qed.
Lemma shrunk pq pq' a :
  linked pq → linked pq' → a ∈ contents pq → contents pq' = contents pq ∖ {[a]} → pq_size pq' + 1 = pq_size pq.
Proof.
  intros Hl Hl' Ha Hc. rewrite <-!size_contents, Hc by done.
  rewrite size_difference, size_singleton by set_solver.
  assert (size (contents pq) ≠ 0%nat); [|lia]. apply size_non_empty_iff. set_solver.
Qed.
Lemma same_size pq pq' : linked pq → linked pq' → contents pq' = contents pq → pq_size pq' = pq_size pq.
Proof. intros Hl Hl' Hc. by rewrite <-!size_contents, Hc. Qed.
Lemma empty_contents pq : linked pq → pq_size pq = 0 ↔ contents pq = ∅.
Proof.
  intros Hl. rewrite <-size_contents by done. rewrite <-(N2Nat.id 0), Nat2N.inj_iff. cbn.
  rewrite size_empty_iff. by rewrite leibniz_equiv_iff.
Qed.
