(* ===== verification/ValidatorSet.v ===== *)
(** * The validators of a subnet

    [LibValidatorSet] of [contracts/src/lib/LibStaking.sol]: the collateral or the assigned
    power of each validator, and the two priority queues that say which of them are active.
    Events that the contracts emit are not part of their state. *)

From Stdlib Require Import Strings.Byte.
From S2P Require Import Prelude Weights PQ.

Inductive PermissionMode := Collateral | Federated | Static.

#[export] Instance PermissionMode_eq_dec : EqDecision PermissionMode.
Proof. solve_decision. Defined.

Record ValidatorInfo := MkInfo {
  federatedPower : N;
  confirmedCollateral : N;
  totalCollateral : N;
  metadata : list byte
}.

Definition no_info : ValidatorInfo := MkInfo 0 0 0 [].

Record ValidatorSet := MkSet {
  permissionMode : PermissionMode;
  activeLimit : N;
  totalConfirmedCollateral : N;
  validators : gmap N ValidatorInfo;
  activeValidators : PQ;
  waitingValidators : PQ
}.

(** A storage as it is before anything is written to it. *)
Definition no_validators : ValidatorSet := MkSet Collateral 0 0 ∅ pq_empty pq_empty.

Definition info_of (self : ValidatorSet) (validator : Address) : ValidatorInfo :=
  default no_info (validators self !! validator).

Definition getPower (self : ValidatorSet) (validator : Address) : N :=
  if bool_decide (permissionMode self = Federated) then federatedPower (info_of self validator)
  else confirmedCollateral (info_of self validator).

(** ** Writing *)

Definition set_validators (m : gmap N ValidatorInfo) (self : ValidatorSet) : ValidatorSet :=
  MkSet (permissionMode self) (activeLimit self) (totalConfirmedCollateral self) m
    (activeValidators self) (waitingValidators self).
Definition set_active (q : PQ) (self : ValidatorSet) : ValidatorSet :=
  MkSet (permissionMode self) (activeLimit self) (totalConfirmedCollateral self) (validators self)
    q (waitingValidators self).
Definition set_waiting (q : PQ) (self : ValidatorSet) : ValidatorSet :=
  MkSet (permissionMode self) (activeLimit self) (totalConfirmedCollateral self) (validators self)
    (activeValidators self) q.
Definition set_total (total : N) (self : ValidatorSet) : ValidatorSet :=
  MkSet (permissionMode self) (activeLimit self) total (validators self)
    (activeValidators self) (waitingValidators self).

Definition set_info (validator : Address) (f : ValidatorInfo → ValidatorInfo) (self : ValidatorSet) : ValidatorSet :=
  set_validators (<[validator := f (info_of self validator)]> (validators self)) self.

Definition with_confirmed (n : N) (i : ValidatorInfo) : ValidatorInfo :=
  MkInfo (federatedPower i) n (totalCollateral i) (metadata i).
Definition with_collateral (n : N) (i : ValidatorInfo) : ValidatorInfo :=
  MkInfo (federatedPower i) (confirmedCollateral i) n (metadata i).
Definition with_federated (n : N) (i : ValidatorInfo) : ValidatorInfo :=
  MkInfo n (confirmedCollateral i) (totalCollateral i) (metadata i).
Definition with_metadata (b : list byte) (i : ValidatorInfo) : ValidatorInfo :=
  MkInfo (federatedPower i) (confirmedCollateral i) (totalCollateral i) b.

(** Calls of [LibMinPQ] on the active validators and of [LibMaxPQ] on the waiting ones. *)
Definition on_active {A} (op : ∀ o : HeapOrder, (Address → N) → stm PQ string A) : stm ValidatorSet string A :=
  λ self, zoom activeValidators set_active (op min_order (getPower self)) self.
Definition on_waiting {A} (op : ∀ o : HeapOrder, (Address → N) → stm PQ string A) : stm ValidatorSet string A :=
  λ self, zoom waitingValidators set_waiting (op max_order (getPower self)) self.

(** ** Reading *)

Definition isActiveValidator (self : ValidatorSet) (validator : Address) : bool :=
  pq_contains validator (activeValidators self).

Definition listActiveValidators (self : ValidatorSet) : list N :=
  addr_at (activeValidators self) <$> range_up 1 (N.to_nat (pq_size (activeValidators self))).

(** A sum in checked arithmetic. *)
Fixpoint u256_sum (acc : N) (l : list N) : outcome string N :=
  match l with
  | [] => Done acc
  | n :: l => acc ← u256_add acc n; u256_sum acc l
  end.

Definition getTotalActivePower (self : ValidatorSet) : outcome string N :=
  u256_sum 0 (getPower self <$> listActiveValidators self).

Definition getTotalCollateral (self : ValidatorSet) : outcome string N :=
  let waiting := addr_at (waitingValidators self) <$> range_up 1 (N.to_nat (pq_size (waitingValidators self))) in
  collateral ← u256_sum 0 ((λ a, confirmedCollateral (info_of self a)) <$> waiting);
  u256_add collateral (totalConfirmedCollateral self).

Fixpoint getTotalPowerOfValidators (self : ValidatorSet) (addresses : list N) : outcome string (list N) :=
  match addresses with
  | [] => Done []
  | a :: rest =>
      if negb (isActiveValidator self a) then Fail "NotValidator"%string
      else powers ← getTotalPowerOfValidators self rest; Done (getPower self a :: powers)
  end.

(** ** Operations *)

Definition setMetadata (validator : Address) (md : list byte) : stm ValidatorSet string unit :=
  modify (set_info validator (with_metadata md)).

Definition recordDeposit (validator : Address) (amount : N) : stm ValidatorSet string unit :=
  total ← reads (λ self, totalCollateral (info_of self validator));
  total ← lift (u256_add total amount);
  modify (set_info validator (with_collateral total)).

Definition recordWithdraw (validator : Address) (amount : N) : stm ValidatorSet string unit :=
  total ← reads (λ self, totalCollateral (info_of self validator));
  if bool_decide (total < amount) then abort "WithdrawExceedingCollateral"%string
  else
    total ← lift (u256_sub total amount);
    modify (set_info validator (with_collateral total)).

Definition increaseReshuffle (maybeActive : Address) (newPower : N) : stm ValidatorSet string unit :=
  active ← reads (λ self, pq_contains maybeActive (activeValidators self));
  if (active : bool) then on_active (λ o w, away_from_root w maybeActive)
  else
    limit ← reads activeLimit;
    activeSize ← reads (λ self, pq_size (activeValidators self));
    if bool_decide (activeSize < limit) then on_active (λ o w, pq_insert w maybeActive)
    else
      least ← on_active (λ o w, first w);
      let '(minAddress, minActivePower) := least in
      if bool_decide (minActivePower < newPower) then
        on_active (λ o w, pq_pop w) ;;
        waiting ← reads (λ self, pq_contains maybeActive (waitingValidators self));
        (if (waiting : bool) then on_waiting (λ o w, deleteReheapify w maybeActive) else mret tt) ;;
        on_active (λ o w, pq_insert w maybeActive) ;;
        on_waiting (λ o w, pq_insert w minAddress)
      else
        waiting ← reads (λ self, pq_contains maybeActive (waitingValidators self));
        if (waiting : bool) then on_waiting (λ o w, towards_root w maybeActive)
        else on_waiting (λ o w, pq_insert w maybeActive).

Definition reduceReshuffle (validator : Address) (newPower : N) : stm ValidatorSet string unit :=
  waiting ← reads (λ self, pq_contains validator (waitingValidators self));
  if (waiting : bool) then
    if bool_decide (newPower = 0) then on_waiting (λ o w, deleteReheapify w validator)
    else on_waiting (λ o w, away_from_root w validator)
  else
    active ← reads (λ self, pq_contains validator (activeValidators self));
    if negb active then abort "AddressShouldBeValidator"%string
    else if bool_decide (newPower = 0) then
      on_active (λ o w, deleteReheapify w validator) ;;
      size ← reads (λ self, pq_size (waitingValidators self));
      if bool_decide (size = 0) then mret tt
      else
        greatest ← on_waiting (λ o w, first w);
        let '(toBePromoted, _) := greatest in
        on_waiting (λ o w, pq_pop w) ;;
        on_active (λ o w, pq_insert w toBePromoted)
    else
      on_active (λ o w, towards_root w validator) ;;
      size ← reads (λ self, pq_size (waitingValidators self));
      if bool_decide (size = 0) then mret tt
      else
        least ← on_active (λ o w, first w);
        greatest ← on_waiting (λ o w, first w);
        let '(mayBeDemoted, minActivePower) := least in
        let '(mayBePromoted, maxWaitingPower) := greatest in
        if bool_decide (minActivePower < maxWaitingPower) then
          on_active (λ o w, pq_pop w) ;;
          on_waiting (λ o w, pq_pop w) ;;
          on_active (λ o w, pq_insert w mayBePromoted) ;;
          on_waiting (λ o w, pq_insert w mayBeDemoted)
        else mret tt.

Definition confirmFederatedPower (validator : Address) (power : N) : stm ValidatorSet string unit :=
  existingPower ← reads (λ self, federatedPower (info_of self validator));
  modify (set_info validator (with_federated power)) ;;
  if bool_decide (existingPower = power) then mret tt
  else if bool_decide (existingPower < power) then increaseReshuffle validator power
  else reduceReshuffle validator power.

Definition confirmDeposit (validator : Address) (amount : N) : stm ValidatorSet string unit :=
  confirmed ← reads (λ self, confirmedCollateral (info_of self validator));
  newCollateral ← lift (u256_add confirmed amount);
  modify (set_info validator (with_confirmed newCollateral)) ;;
  total ← reads totalConfirmedCollateral;
  total ← lift (u256_add total amount);
  modify (set_total total) ;;
  increaseReshuffle validator newCollateral.

Definition confirmWithdraw (validator : Address) (amount : N) : stm ValidatorSet string unit :=
  info ← reads (λ self, info_of self validator);
  newCollateral ← lift (u256_sub (confirmedCollateral info) amount);
  (if bool_decide (newCollateral = 0) && bool_decide (totalCollateral info = 0)
   then modify (λ self, set_validators (delete validator (validators self)) self)
   else modify (set_info validator (with_confirmed newCollateral))) ;;
  reduceReshuffle validator newCollateral ;;
  total ← reads totalConfirmedCollateral;
  total ← lift (u256_sub total amount);
  modify (set_total total).

(** ** The invariant *)

Abbreviation min_valid := (pq_valid (H := min_order)).
Abbreviation max_valid := (pq_valid (H := max_order)).

(** The active validators are those of the most power, as many as the limit allows. *)
Record ordered (power : Address → N) (limit : N) (active waiting : PQ) : Prop := {
  o_active : min_valid power active;
  o_waiting : max_valid power waiting;
  o_disjoint : contents active ## contents waiting;
  o_order a w : a ∈ contents active → w ∈ contents waiting → power w ≤ power a;
  o_limit : pq_size active ≤ limit;
  o_full : contents waiting ≠ ∅ → pq_size active = limit
}.

Lemma ordered_ext power power' limit active waiting :
  (∀ a, power a = power' a) → ordered power limit active waiting → ordered power' limit active waiting.
Proof.
  intros Heq Ho. split; [eapply valid_ext; [by intros; apply Heq|apply Ho]|
    eapply valid_ext; [by intros; apply Heq|apply Ho]|apply Ho|intros a w; rewrite <-!Heq; apply Ho|apply Ho|apply Ho].
Qed.

Definition members (self : ValidatorSet) : gset N :=
  contents (activeValidators self) ∪ contents (waitingValidators self).

(** The parts of a set that the reshuffling leaves as they are. *)
Definition same_validators (self self' : ValidatorSet) : Prop :=
  permissionMode self' = permissionMode self ∧ activeLimit self' = activeLimit self ∧
  totalConfirmedCollateral self' = totalConfirmedCollateral self ∧ validators self' = validators self.

Lemma same_power self self' : same_validators self self' → getPower self' = getPower self.
Proof. intros (Hm & _ & _ & Hv). unfold getPower, info_of. by rewrite Hm, Hv. Qed.

Definition set_queues (act wait : PQ) (self : ValidatorSet) : ValidatorSet := set_active act (set_waiting wait self).

Lemma set_queues_same act wait self : same_validators self (set_queues act wait self).
Proof. done. Qed.

Lemma on_active_run {A} (op : ∀ o : HeapOrder, (Address → N) → stm PQ string A) self (a : A) act wait act' :
  op min_order (getPower self) act = Done (a, act') →
  on_active op (set_queues act wait self) = Done (a, set_queues act' wait self).
Proof.
  intros Hop. unfold on_active, zoom. change (getPower (set_queues act wait self)) with (getPower self).
  change (activeValidators (set_queues act wait self)) with act. by rewrite Hop.
Qed.
Lemma on_waiting_run {A} (op : ∀ o : HeapOrder, (Address → N) → stm PQ string A) self (a : A) act wait wait' :
  op max_order (getPower self) wait = Done (a, wait') →
  on_waiting op (set_queues act wait self) = Done (a, set_queues act wait' self).
Proof.
  intros Hop. unfold on_waiting, zoom. change (getPower (set_queues act wait self)) with (getPower self).
  change (waitingValidators (set_queues act wait self)) with wait. by rewrite Hop.
Qed.

Lemma set_queues_id self : set_queues (activeValidators self) (waitingValidators self) self = self.
Proof. by destruct self. Qed.

Lemma set_queues_other act wait self act' wait' :
  set_queues act' wait' (set_queues act wait self) = set_queues act' wait' self.
Proof. done. Qed.

(** The orders of the two queues, on powers. *)
Lemma min_placed a b : misplaced (HeapOrder := min_order) a b = false ↔ a ≤ b.
Proof. cbn. rewrite bool_decide_eq_false. lia. Qed.
Lemma max_placed a b : misplaced (HeapOrder := max_order) a b = false ↔ b ≤ a.
Proof. cbn. rewrite bool_decide_eq_false. lia. Qed.

(** ** Reshuffling *)

(** Another validator takes the place of the least of the active ones. *)
Lemma replaced power limit act wait p m act1 wait1 act2 wait2 :
  min_valid power act → contents act ## contents wait → p ∉ contents act → m ∈ contents act →
  (∀ b, b ∈ contents act → power m ≤ power b) → power m ≤ power p →
  (∀ w, w ∈ contents wait → power w ≤ power p) →
  (∀ a w, a ∈ contents act → a ≠ m → w ∈ contents wait → w ≠ p → power w ≤ power a) →
  pq_size act = limit →
  min_valid power act1 → contents act1 = contents act ∖ {[m]} →
  contents wait1 = contents wait ∖ {[p]} →
  min_valid power act2 → contents act2 = {[p]} ∪ contents act1 →
  max_valid power wait2 → contents wait2 = {[m]} ∪ contents wait1 →
  ordered power limit act2 wait2 ∧ contents act2 ∪ contents wait2 = {[p]} ∪ (contents act ∪ contents wait).
Proof.
  intros Hva Hdisj Hnin Hm Hleast Hlt Hgreatest Hord Hfull Hva1 Hc1 Hcw1 Hva2 Hc2 Hvw2 Hcw2.
  pose proof (shrunk _ _ _ (valid_linked _ _ Hva) (valid_linked _ _ Hva1) Hm Hc1) as Hs1.
  assert (p ∉ contents act1) as Hp1 by set_solver.
  pose proof (grown _ _ _ (valid_linked _ _ Hva1) (valid_linked _ _ Hva2) Hp1 Hc2) as Hs2.
  assert (m ≠ p) as Hmp by (intros ->; done).
  split; [split; try done|].
  - rewrite Hc2, Hcw2, Hc1, Hcw1. set_solver.
  - intros a w Ha Hw. rewrite Hc2, Hc1 in Ha. rewrite Hcw2, Hcw1 in Hw.
    destruct (decide (a = p)) as [->|Hap].
    + destruct (decide (w = m)) as [->|]; [done|]. apply Hgreatest. set_solver.
    + destruct (decide (w = m)) as [->|]; [apply Hleast|apply Hord]; set_solver.
  - lia.
  - intros _. lia.
  - rewrite Hc2, Hcw2, Hc1, Hcw1. apply set_eq. intros x.
    destruct (decide (x = m)); destruct (decide (x = p)); set_solver.
Qed.

Section reshuffle.
Context (base : ValidatorSet) (old : Address → N) (v : Address).
Let power := getPower base.
Let limit := activeLimit base.
Hypothesis (Hother : ∀ b, b ≠ v → old b = power b).
Hypothesis (Hlimit : 1 ≤ limit < 32768).

Definition reshuffles (tx : stm ValidatorSet string unit) (act wait : PQ) (m : gset N) : Prop :=
  ∃ act' wait', tx (set_queues act wait base) = Done (tt, set_queues act' wait' base) ∧
    ordered power limit act' wait' ∧ contents act' ∪ contents wait' = m.

Lemma changed_here (pq : PQ) : changed_at power old v pq.
Proof. intros b _ Hb. by apply Hother. Qed.

Lemma unchanged `{HeapLaws} (pq : PQ) : v ∉ contents pq → pq_valid old pq → pq_valid power pq.
Proof. intros Hv. apply valid_ext. intros b Hb. apply Hother. by intros ->. Qed.

Lemma size_limit act wait : ordered old limit act wait → contents wait ≠ ∅ → 1 ≤ pq_size act.
Proof. intros Ho Hw. rewrite (o_full _ _ _ _ Ho Hw). lia. Qed.

Lemma in_active act a : min_valid old act → pq_contains a act = true ↔ a ∈ contents act.
Proof. intros Hv. apply contains_spec, Hv. Qed.
Lemma in_waiting wait a : max_valid old wait → pq_contains a wait = true ↔ a ∈ contents wait.
Proof. intros Hv. apply contains_spec, Hv. Qed.

(** The least of the active validators and the greatest of the waiting ones. *)
Lemma least_active act w : min_valid w act → 1 ≤ pq_size act →
  ∃ m, first w act = Done ((m, w m), act) ∧ addr_at act 1 = m ∧ m ∈ contents act ∧
    ∀ b, b ∈ contents act → w m ≤ w b.
Proof.
  intros Hv Hs. destruct (first_spec w act Hv Hs) as (m & Hr & Hat & Hin & Hm). exists m.
  split_and!; try done. intros b Hb. by apply min_placed, Hm.
Qed.
Lemma greatest_waiting wait w : max_valid w wait → 1 ≤ pq_size wait →
  ∃ m, first w wait = Done ((m, w m), wait) ∧ addr_at wait 1 = m ∧ m ∈ contents wait ∧
    ∀ b, b ∈ contents wait → w b ≤ w m.
Proof.
  intros Hv Hs. destruct (first_spec w wait Hv Hs) as (m & Hr & Hat & Hin & Hm). exists m.
  split_and!; try done. intros b Hb. by apply max_placed, Hm.
Qed.

(** *** An increase *)
Section increase.
Hypothesis (Hup : old v ≤ power v).

Lemma increase_active act wait :
  ordered old limit act wait → v ∈ contents act →
  reshuffles (on_active (λ o w, away_from_root w v)) act wait ({[v]} ∪ (contents act ∪ contents wait)).
Proof.
  intros Ho Hin. destruct (o_active _ _ _ _ Ho) as [Hl Hh Hs].
  destruct (away_from_root_spec (H := min_order) power old v act) as (act' & Hr & Hv' & Hc);
    try done; [apply changed_here|by apply min_placed|].
  assert (v ∉ contents wait) as Hnw by (pose proof (o_disjoint _ _ _ _ Ho); set_solver).
  exists act', wait. split; [by apply on_active_run|]. rewrite Hc. split; [|set_solver].
  pose proof (same_size _ _ Hl (valid_linked _ _ Hv') Hc) as Hsz.
  split; [done|by apply unchanged, Ho|rewrite Hc; apply Ho| |rewrite Hsz; apply Ho|rewrite Hsz; apply Ho].
  intros a w. rewrite Hc. intros Ha Hw. assert (w ≠ v) by congruence.
  pose proof (o_order _ _ _ _ Ho a w Ha Hw). rewrite <-Hother by done.
  destruct (decide (a = v)) as [->|]; [lia|]. by rewrite <-Hother.
Qed.

Lemma increase_room act wait :
  ordered old limit act wait → v ∉ contents act → pq_size act < limit →
  reshuffles (on_active (λ o w, pq_insert w v)) act wait ({[v]} ∪ (contents act ∪ contents wait)).
Proof.
  intros Ho Hnin Hroom.
  assert (contents wait = ∅) as Hempty.
  { destruct (decide (contents wait = ∅)) as [|Hne]; [done|]. pose proof (o_full _ _ _ _ Ho Hne). lia. }
  pose proof (unchanged act Hnin (o_active _ _ _ _ Ho)) as Hva.
  destruct (insert_spec power v act Hva) as (act' & Hr & Hv' & Hc); [done|lia|].
  pose proof (grown _ _ _ (valid_linked _ _ Hva) (valid_linked _ _ Hv') Hnin Hc) as Hsz.
  exists act', wait. split; [by apply on_active_run|]. rewrite Hc. split; [|set_solver].
  split; [done|apply unchanged; [set_solver|apply Ho]|set_solver|set_solver|lia|done].
Qed.

Lemma others_ordered act wait a w :
  ordered old limit act wait → a ∈ contents act → w ∈ contents wait → a ≠ v → w ≠ v → power w ≤ power a.
Proof. intros Ho Ha Hw Hav Hwv. rewrite <-!Hother by done. by apply Ho. Qed.

Lemma delete_waiting act wait :
  max_valid old wait →
  ∃ wait', (if pq_contains v wait then on_waiting (λ o w, deleteReheapify w v) else mret tt) (set_queues act wait base) =
      Done (tt, set_queues act wait' base) ∧
    max_valid power wait' ∧ contents wait' = contents wait ∖ {[v]} ∧ pq_size wait' ≤ pq_size wait.
Proof.
  intros Hvw. pose proof Hvw as [Hl Hh Hs]. destruct (pq_contains v wait) eqn:Hc.
  - apply (in_waiting wait v Hvw) in Hc.
    destruct (delete_spec (H := max_order) power old v wait) as (wait' & Hr & Hv' & Hc'); try done;
      [apply changed_here|].
    exists wait'. split; [by apply on_waiting_run|]. split_and!; [done|done|].
    pose proof (shrunk _ _ _ Hl (valid_linked _ _ Hv') Hc Hc'). lia.
  - assert (v ∉ contents wait) as Hnw by (rewrite <-(in_waiting wait v Hvw); congruence).
    exists wait. split; [done|]. split_and!; [by apply unchanged|set_solver|lia].
Qed.

Lemma increase_replace act wait m :
  ordered old limit act wait → v ∉ contents act → pq_size act = limit → pq_size wait + 1 < 32768 →
  min_valid power act → addr_at act 1 = m → m ∈ contents act → (∀ b, b ∈ contents act → power m ≤ power b) →
  power m < power v →
  reshuffles (on_active (λ o w, pq_pop w) ;;
    waiting ← reads (λ self, pq_contains v (waitingValidators self));
    (if (waiting : bool) then on_waiting (λ o w, deleteReheapify w v) else mret tt) ;;
    on_active (λ o w, pq_insert w v) ;;
    on_waiting (λ o w, pq_insert w m)) act wait ({[v]} ∪ (contents act ∪ contents wait)).
Proof.
  intros Ho Hnin Hfull Hsw Hva Hroot Hm Hleast Hlt. pose proof (o_disjoint _ _ _ _ Ho) as Hdisj.
  destruct (pop_spec power act Hva) as (act1 & Hpop & Hva1 & Hc1); [lia|]. rewrite Hroot in Hc1.
  destruct (delete_waiting act1 wait (o_waiting _ _ _ _ Ho)) as (wait1 & Hdel & Hvw1 & Hcw1 & Hs1).
  pose proof (shrunk _ _ _ (valid_linked _ _ Hva) (valid_linked _ _ Hva1) Hm Hc1).
  destruct (insert_spec power v act1 Hva1) as (act2 & Hins & Hva2 & Hc2); [set_solver|lia|].
  destruct (insert_spec power m wait1 Hvw1) as (wait2 & Hinsw & Hvw2 & Hcw2); [set_solver|lia|].
  exists act2, wait2. split.
  - erewrite bind_run by by apply on_active_run. erewrite bind_run by done.
    change (waitingValidators (set_queues act1 wait base)) with wait.
    erewrite bind_run by done. erewrite bind_run by by apply on_active_run. by apply on_waiting_run.
  - assert (∀ a w, a ∈ contents act → w ∈ contents wait → w ≠ v → power w ≤ power a) as Hord.
    { intros a w Ha Hw Hwv. apply (others_ordered act wait); try done. by intros ->. }
    apply (replaced power limit act wait v m act1 wait1); try done; [lia| |by intros a w Ha _; apply Hord].
    intros w Hw. destruct (decide (w = v)) as [->|]; [done|]. pose proof (Hord m w). naive_solver lia.
Qed.

Lemma increase_waiting act wait m :
  ordered old limit act wait → v ∉ contents act → m ∈ contents act →
  (∀ b, b ∈ contents act → power m ≤ power b) → power v ≤ power m → v ∈ contents wait →
  reshuffles (on_waiting (λ o w, towards_root w v)) act wait ({[v]} ∪ (contents act ∪ contents wait)).
Proof.
  intros Ho Hnin Hm Hleast Hle Hin. destruct (o_waiting _ _ _ _ Ho) as [Hl Hh Hs].
  destruct (towards_root_spec (H := max_order) power old v wait) as (wait' & Hr & Hv' & Hc);
    try done; [apply changed_here|by apply max_placed|].
  exists act, wait'. split; [by apply on_waiting_run|]. rewrite Hc. split; [|set_solver].
  split; [by apply unchanged, Ho|done|rewrite Hc; apply Ho| |apply Ho|rewrite Hc; apply Ho].
  intros a w Ha Hw. rewrite Hc in Hw. assert (a ≠ v) by congruence.
  destruct (decide (w = v)) as [->|]; [pose proof (Hleast a Ha); lia|]. by apply (others_ordered act wait).
Qed.

Lemma increase_new act wait m :
  ordered old limit act wait → v ∉ contents act → pq_size act = limit → pq_size wait + 1 < 32768 → m ∈ contents act →
  (∀ b, b ∈ contents act → power m ≤ power b) → power v ≤ power m → v ∉ contents wait →
  reshuffles (on_waiting (λ o w, pq_insert w v)) act wait ({[v]} ∪ (contents act ∪ contents wait)).
Proof.
  intros Ho Hnin Hfull Hsw Hm Hleast Hle Hnw. pose proof (o_disjoint _ _ _ _ Ho) as Hdisj.
  pose proof (unchanged wait Hnw (o_waiting _ _ _ _ Ho)) as Hvw.
  destruct (insert_spec power v wait Hvw Hnw Hsw) as (wait' & Hr & Hv' & Hc).
  exists act, wait'. split; [by apply on_waiting_run|]. rewrite Hc. split; [|set_solver].
  split; [by apply unchanged, Ho|done|set_solver| |apply Ho|done].
  intros a w Ha Hw. rewrite Hc in Hw. assert (a ≠ v) by congruence.
  destruct (decide (w = v)) as [->|]; [pose proof (Hleast a Ha); lia|]. apply (others_ordered act wait); set_solver.
Qed.

Lemma increase_spec act wait :
  ordered old limit act wait → pq_size wait + 1 < 32768 →
  reshuffles (increaseReshuffle v (power v)) act wait ({[v]} ∪ (contents act ∪ contents wait)).
Proof.
  intros Ho Hsw. unfold reshuffles, increaseReshuffle. erewrite bind_run by done.
  change (activeValidators (set_queues act wait base)) with act.
  destruct (pq_contains v act) eqn:Hca.
  { apply (in_active act v (o_active _ _ _ _ Ho)) in Hca. by apply increase_active. }
  assert (v ∉ contents act) as Hnin by (rewrite <-(in_active act v (o_active _ _ _ _ Ho)); congruence).
  erewrite bind_run by done. erewrite bind_run by done.
  change (activeLimit (set_queues act wait base)) with limit. change (activeValidators (set_queues act wait base)) with act.
  case_bool_decide as Hroom; [by apply increase_room|].
  pose proof (o_limit _ _ _ _ Ho). assert (pq_size act = limit) as Hfull by lia.
  pose proof (unchanged act Hnin (o_active _ _ _ _ Ho)) as Hva.
  destruct (least_active act power Hva) as (m & Hr & Hroot & Hm & Hleast); [lia|].
  erewrite bind_run by by apply on_active_run. cbv beta iota.
  fold power. case_bool_decide as Hlt; [by apply increase_replace|].
  erewrite bind_run by done. change (waitingValidators (set_queues act wait base)) with wait.
  destruct (pq_contains v wait) eqn:Hcw.
  - apply (in_waiting wait v (o_waiting _ _ _ _ Ho)) in Hcw. apply (increase_waiting act wait m); try done. lia.
  - apply (increase_new act wait m); try done; [lia|].
    rewrite <-(in_waiting wait v (o_waiting _ _ _ _ Ho)). congruence.
Qed.
End increase.

(** *** A reduction *)
Section reduce.
Hypothesis (Hdown : power v ≤ old v).

Lemma reduce_waiting act wait :
  ordered old limit act wait → v ∈ contents wait →
  reshuffles (on_waiting (λ o w, away_from_root w v)) act wait (contents act ∪ contents wait).
Proof.
  intros Ho Hin. destruct (o_waiting _ _ _ _ Ho) as [Hl Hh Hs]. pose proof (o_disjoint _ _ _ _ Ho) as Hdisj.
  destruct (away_from_root_spec (H := max_order) power old v wait) as (wait' & Hr & Hv' & Hc);
    try done; [apply changed_here|by apply max_placed|].
  exists act, wait'. split; [by apply on_waiting_run|]. rewrite Hc. split; [|done].
  split; [apply unchanged; [set_solver|apply Ho]|done|by rewrite Hc| |apply Ho|rewrite Hc; apply Ho].
  intros a w Ha Hw. rewrite Hc in Hw. assert (a ≠ v) by set_solver. pose proof (o_order _ _ _ _ Ho a w Ha Hw).
  rewrite <-(Hother a) by done. destruct (decide (w = v)) as [->|]; [lia|]. by rewrite <-Hother.
Qed.

Lemma reduce_waiting_left act wait :
  ordered old limit act wait → v ∈ contents wait →
  reshuffles (on_waiting (λ o w, deleteReheapify w v)) act wait ((contents act ∪ contents wait) ∖ {[v]}).
Proof.
  intros Ho Hin. destruct (o_waiting _ _ _ _ Ho) as [Hl Hh Hs]. pose proof (o_disjoint _ _ _ _ Ho) as Hdisj.
  destruct (delete_spec (H := max_order) power old v wait) as (wait' & Hr & Hv' & Hc); try done;
    [apply changed_here|].
  exists act, wait'. split; [by apply on_waiting_run|]. rewrite Hc. split; [|set_solver].
  split; [apply unchanged; [set_solver|apply Ho]|done|set_solver| |apply Ho|].
  - intros a w Ha Hw. rewrite Hc in Hw. apply (others_ordered act wait); set_solver.
  - intros _. apply Ho. set_solver.
Qed.

Definition promote : stm ValidatorSet string unit :=
  size ← reads (λ self, pq_size (waitingValidators self));
  if bool_decide (size = 0) then mret tt
  else
    greatest ← on_waiting (λ o w, first w);
    let '(toBePromoted, _) := greatest in
    on_waiting (λ o w, pq_pop w) ;;
    on_active (λ o w, pq_insert w toBePromoted).

Lemma promote_spec act wait act1 :
  ordered old limit act wait → v ∈ contents act →
  min_valid power act1 → contents act1 = contents act ∖ {[v]} →
  reshuffles promote act1 wait ((contents act ∪ contents wait) ∖ {[v]}).
Proof.
  intros Ho Hin Hva1 Hc1. pose proof (o_disjoint _ _ _ _ Ho) as Hdisj.
  assert (v ∉ contents wait) as Hnw by set_solver.
  pose proof (unchanged wait Hnw (o_waiting _ _ _ _ Ho)) as Hvw. pose proof (o_limit _ _ _ _ Ho) as Hlim.
  pose proof (shrunk _ _ _ (valid_linked _ _ (o_active _ _ _ _ Ho)) (valid_linked _ _ Hva1) Hin Hc1) as Hs1.
  assert (∀ a w, a ∈ contents act1 → w ∈ contents wait → power w ≤ power a) as Hord.
  { intros a w Ha Hw. apply (others_ordered act wait); set_solver. }
  unfold reshuffles, promote. erewrite bind_run by done.
  change (waitingValidators (set_queues act1 wait base)) with wait.
  case_bool_decide as Hz.
  { apply empty_contents in Hz; [|apply Hvw]. exists act1, wait. split; [done|]. split; [|set_solver].
    split; [done|done|set_solver|done|lia|done]. }
  destruct (greatest_waiting wait power Hvw) as (p & Hr & Hroot & Hp & Hgreat); [lia|].
  erewrite bind_run by by apply on_waiting_run. cbv beta iota.
  destruct (pop_spec power wait Hvw) as (wait1 & Hpop & Hvw1 & Hcw1); [lia|]. rewrite Hroot in Hcw1.
  assert (p ∉ contents act1) as Hp1 by set_solver.
  destruct (insert_spec power p act1 Hva1 Hp1) as (act2 & Hins & Hva2 & Hc2); [lia|].
  pose proof (grown _ _ _ (valid_linked _ _ Hva1) (valid_linked _ _ Hva2) Hp1 Hc2) as Hs2.
  erewrite bind_run by by apply on_waiting_run.
  exists act2, wait1. split; [by apply on_active_run|]. rewrite Hc2, Hcw1. split.
  - split; [done|done|set_solver| |lia|intros _; rewrite <-(o_full _ _ _ _ Ho) by set_solver; lia].
    intros a w Ha Hw. rewrite Hc2 in Ha. rewrite Hcw1 in Hw.
    destruct (decide (a = p)) as [->|]; [apply Hgreat; set_solver|apply Hord; set_solver].
  - apply set_eq. intros x. destruct (decide (x = p)); set_solver.
Qed.

Definition demote : stm ValidatorSet string unit :=
  size ← reads (λ self, pq_size (waitingValidators self));
  if bool_decide (size = 0) then mret tt
  else
    least ← on_active (λ o w, first w);
    greatest ← on_waiting (λ o w, first w);
    let '(mayBeDemoted, minActivePower) := least in
    let '(mayBePromoted, maxWaitingPower) := greatest in
    if bool_decide (minActivePower < maxWaitingPower) then
      on_active (λ o w, pq_pop w) ;;
      on_waiting (λ o w, pq_pop w) ;;
      on_active (λ o w, pq_insert w mayBePromoted) ;;
      on_waiting (λ o w, pq_insert w mayBeDemoted)
    else mret tt.

Lemma demote_spec act wait act1 :
  ordered old limit act wait → v ∈ contents act →
  min_valid power act1 → contents act1 = contents act →
  reshuffles demote act1 wait (contents act ∪ contents wait).
Proof.
  intros Ho Hin Hva1 Hc1. pose proof (o_disjoint _ _ _ _ Ho) as Hdisj.
  assert (v ∉ contents wait) as Hnw by set_solver.
  pose proof (unchanged wait Hnw (o_waiting _ _ _ _ Ho)) as Hvw. pose proof (o_limit _ _ _ _ Ho) as Hlim.
  pose proof (same_size _ _ (valid_linked _ _ (o_active _ _ _ _ Ho)) (valid_linked _ _ Hva1) Hc1) as Hs1.
  unfold reshuffles, demote. erewrite bind_run by done.
  change (waitingValidators (set_queues act1 wait base)) with wait.
  case_bool_decide as Hz.
  { apply empty_contents in Hz; [|apply Hvw]. exists act1, wait. split; [done|]. split; [|set_solver].
    split; [done|done|set_solver|set_solver|lia|done]. }
  destruct (greatest_waiting wait power Hvw) as (p & Hr & Hroot & Hp & Hgreat); [lia|].
  assert (pq_size act = limit) as Hfull by (apply Ho; set_solver).
  destruct (least_active act1 power Hva1) as (d & Hrd & Hrootd & Hd & Hleast); [lia|].
  erewrite bind_run by by apply on_active_run. erewrite bind_run by by apply on_waiting_run.
  cbv beta iota. fold power. rewrite Hc1 in Hd, Hleast.
  assert (∀ a w, a ∈ contents act → a ≠ v → w ∈ contents wait → power w ≤ power a) as Hord.
  { intros a w Ha Hav Hw. apply (others_ordered act wait); set_solver. }
  case_bool_decide as Hlt.
  - assert (d = v) as ->.
    { destruct (decide (d = v)) as [|Hne]; [done|]. pose proof (Hord d p Hd Hne Hp). lia. }
    destruct (pop_spec power act1 Hva1) as (act2 & Hpop & Hva2 & Hc2); [lia|]. rewrite Hrootd in Hc2.
    destruct (pop_spec power wait Hvw) as (wait1 & Hpopw & Hvw1 & Hcw1); [lia|]. rewrite Hroot in Hcw1.
    pose proof (shrunk _ _ _ (valid_linked _ _ Hva1) (valid_linked _ _ Hva2) ltac:(by rewrite Hc1) Hc2).
    pose proof (shrunk _ _ _ (valid_linked _ _ Hvw) (valid_linked _ _ Hvw1) Hp Hcw1).
    pose proof (valid_size _ _ Hvw). rewrite Hc1 in Hc2.
    destruct (insert_spec power p act2 Hva2) as (act3 & Hins & Hva3 & Hc3); [set_solver|lia|].
    destruct (insert_spec power v wait1 Hvw1) as (wait2 & Hinsw & Hvw2 & Hcw2); [set_solver|lia|].
    erewrite bind_run by by apply on_active_run. erewrite bind_run by by apply on_waiting_run.
    erewrite bind_run by by apply on_active_run. exists act3, wait2. split; [by apply on_waiting_run|].
    destruct (replaced power limit act1 wait p v act2 wait1 act3 wait2) as [Hor Hm]; try done;
      rewrite ?Hc1; try done; [set_solver|lia|intros a w Ha Hav Hw _; by apply Hord|lia|].
    split; [done|]. rewrite Hm. set_solver.
  - exists act1, wait. split; [done|]. rewrite Hc1. split; [|done].
    split; [done|done|by rewrite Hc1| |lia|intros _; lia].
    intros a w Ha Hw. rewrite Hc1 in Ha. pose proof (Hleast a Ha). pose proof (Hgreat w Hw). lia.
Qed.

Lemma reduce_spec act wait :
  ordered old limit act wait → v ∈ contents act ∪ contents wait →
  reshuffles (reduceReshuffle v (power v)) act wait
    (if bool_decide (power v = 0) then (contents act ∪ contents wait) ∖ {[v]} else contents act ∪ contents wait).
Proof.
  intros Ho Hin. unfold reshuffles, reduceReshuffle. fold promote demote. erewrite bind_run by done.
  change (waitingValidators (set_queues act wait base)) with wait.
  destruct (pq_contains v wait) eqn:Hcw.
  { apply (in_waiting wait v (o_waiting _ _ _ _ Ho)) in Hcw.
    case_bool_decide; [by apply reduce_waiting_left|by apply reduce_waiting]. }
  assert (v ∈ contents act) as Hact.
  { assert (v ∉ contents wait); [|set_solver]. rewrite <-(in_waiting wait v (o_waiting _ _ _ _ Ho)). congruence. }
  erewrite bind_run by done. change (activeValidators (set_queues act wait base)) with act.
  rewrite (proj2 (in_active act v (o_active _ _ _ _ Ho)) Hact). cbn [negb].
  destruct (o_active _ _ _ _ Ho) as [Hl Hh Hs]. case_bool_decide.
  - destruct (delete_spec (H := min_order) power old v act) as (act1 & Hr & Hv1 & Hc1); try done;
      [apply changed_here|].
    erewrite bind_run by by apply on_active_run. by apply promote_spec.
  - destruct (towards_root_spec (H := min_order) power old v act) as (act1 & Hr & Hv1 & Hc1); try done;
      [apply changed_here|by apply min_placed|].
    erewrite bind_run by by apply on_active_run. by apply demote_spec.
Qed.
End reduce.
End reshuffle.

(** ** The invariant of a validator set *)

Definition total_confirmed (m : gmap N ValidatorInfo) : N := map_sum confirmedCollateral m.

Record vs_inv (self : ValidatorSet) : Prop := {
  vi_ordered : ordered (getPower self) (activeLimit self) (activeValidators self) (waitingValidators self);
  vi_members a : a ∈ members self ↔ getPower self a ≠ 0;
  vi_total : totalConfirmedCollateral self = total_confirmed (validators self);
  vi_limit : 1 ≤ activeLimit self < 32768
}.

(** What the active validators are for: no other validator has more power than one of them,
    and there are as many as the limit allows. *)
Definition selects_top (self : ValidatorSet) : Prop :=
  let active := contents (activeValidators self) in
  (∀ a b, a ∈ active → b ∉ active → getPower self b ≤ getPower self a) ∧
  (∀ a, a ∈ active → getPower self a ≠ 0) ∧
  N.of_nat (size active) = N.min (activeLimit self) (N.of_nat (size (members self))).

Lemma inv_selects_top self : vs_inv self → selects_top self.
Proof.
  intros [Ho Hmem _ _]. split_and!.
  - intros a b Ha Hb. destruct (decide (b ∈ contents (waitingValidators self))) as [Hw|Hw].
    + by apply Ho.
    + assert (¬ getPower self b ≠ 0) by (rewrite <-Hmem; unfold members; set_solver). lia.
  - intros a Ha. apply Hmem. unfold members. set_solver.
  - pose proof (valid_linked _ _ (o_active _ _ _ _ Ho)). pose proof (valid_linked _ _ (o_waiting _ _ _ _ Ho)).
    unfold members. rewrite size_union by apply (o_disjoint _ _ _ _ Ho).
    rewrite Nat2N.inj_add, !size_contents by done. pose proof (o_limit _ _ _ _ Ho).
    destruct (decide (contents (waitingValidators self) = ∅)) as [He|Hne].
    + apply empty_contents in He; [|done]. lia.
    + rewrite (o_full _ _ _ _ Ho Hne). lia.
Qed.

(** The sum of the confirmed collateral. *)
Lemma total_confirmed_delete m a :
  confirmedCollateral (default no_info (m !! a)) + total_confirmed (delete a m) = total_confirmed m.
Proof. by apply map_sum_delete. Qed.
Lemma total_confirmed_update m a i :
  confirmedCollateral (default no_info (m !! a)) + total_confirmed (<[a := i]> m) =
    confirmedCollateral i + total_confirmed m.
Proof. by apply map_sum_update. Qed.

Lemma info_set_eq v f self : info_of (set_info v f self) v = f (info_of self v).
Proof. unfold info_of. cbn. by rewrite lookup_insert_eq. Qed.
Lemma info_set_ne v f self b : b ≠ v → info_of (set_info v f self) b = info_of self b.
Proof. intros. unfold info_of. cbn. by rewrite lookup_insert_ne. Qed.
Lemma info_delete_eq v self : info_of (set_validators (delete v (validators self)) self) v = no_info.
Proof. unfold info_of. cbn. by rewrite lookup_delete_eq. Qed.
Lemma info_delete_ne v self b : b ≠ v → info_of (set_validators (delete v (validators self)) self) b = info_of self b.
Proof. intros. unfold info_of. cbn. by rewrite lookup_delete_ne. Qed.

(** Reshuffling after the power of one validator has changed restores the invariant. *)
Section restore.
Context (self base : ValidatorSet) (v : Address).
Hypothesis (Hinv : vs_inv self).
Hypothesis (Hlimit : activeLimit base = activeLimit self).
Hypothesis (Hqueues : set_queues (activeValidators self) (waitingValidators self) base = base).
Hypothesis (Hother : ∀ b, b ≠ v → getPower self b = getPower base b).

Lemma restored act wait :
  ordered (getPower base) (activeLimit base) act wait →
  (∀ a, a ∈ contents act ∪ contents wait ↔ getPower base a ≠ 0) →
  vs_inv (set_total (total_confirmed (validators base)) (set_queues act wait base)).
Proof.
  intros Ho Hm. split; [exact Ho|exact Hm|done|].
  change (1 ≤ activeLimit base < 32768). rewrite Hlimit. apply Hinv.
Qed.

Lemma restore_increase :
  getPower self v ≤ getPower base v → getPower base v ≠ 0 → pq_size (waitingValidators self) + 1 < 32768 →
  ∃ act wait, increaseReshuffle v (getPower base v) base = Done (tt, set_queues act wait base) ∧
    vs_inv (set_total (total_confirmed (validators base)) (set_queues act wait base)).
Proof.
  intros Hup Hpos Hroom. pose proof (vi_limit _ Hinv). pose proof (vi_ordered _ Hinv) as Ho.
  rewrite <-Hlimit in Ho.
  destruct (increase_spec base (getPower self) v Hother ltac:(by rewrite Hlimit) Hup
    (activeValidators self) (waitingValidators self) Ho Hroom) as (act & wait & Hr & Ho' & Hm).
  rewrite Hqueues in Hr. exists act, wait. split; [done|]. apply restored; [done|]. intros a. rewrite Hm.
  fold (members self). rewrite elem_of_union, elem_of_singleton, (vi_members _ Hinv).
  destruct (decide (a = v)) as [->|Hne]; [naive_solver|]. rewrite Hother by done. naive_solver.
Qed.

Lemma restore_reduce :
  getPower base v ≤ getPower self v → getPower self v ≠ 0 →
  ∃ act wait, reduceReshuffle v (getPower base v) base = Done (tt, set_queues act wait base) ∧
    vs_inv (set_total (total_confirmed (validators base)) (set_queues act wait base)).
Proof.
  intros Hdown Hpos. pose proof (vi_limit _ Hinv). pose proof (vi_ordered _ Hinv) as Ho. rewrite <-Hlimit in Ho.
  destruct (reduce_spec base (getPower self) v Hother ltac:(by rewrite Hlimit) Hdown
    (activeValidators self) (waitingValidators self) Ho) as (act & wait & Hr & Ho' & Hm).
  { by apply (vi_members _ Hinv). }
  rewrite Hqueues in Hr. exists act, wait. split; [done|]. apply restored; [done|]. intros a. rewrite Hm.
  fold (members self). assert (a ≠ v → a ∈ members self ↔ getPower base a ≠ 0) as Hne.
  { intros Hne. rewrite (vi_members _ Hinv), Hother by done. done. }
  assert (v ∈ members self) by by apply (vi_members _ Hinv).
  case_bool_decide; destruct (decide (a = v)) as [->|]; set_solver.
Qed.
End restore.

Lemma power_set_ne v f self b : b ≠ v → getPower (set_info v f self) b = getPower self b.
Proof. intros. unfold getPower. by rewrite info_set_ne. Qed.

(** The changes of power that the staking contract confirms, each in the mode it belongs to. *)
Inductive PowerChange :=
| Deposited (validator : Address) (amount : N)
| Withdrawn (validator : Address) (amount : N)
| Assigned (validator : Address) (power : N).

Definition apply_change (c : PowerChange) : stm ValidatorSet string unit :=
  match c with
  | Deposited v amount => confirmDeposit v amount
  | Withdrawn v amount => confirmWithdraw v amount
  | Assigned v power => confirmFederatedPower v power
  end.

(** A withdrawal is of collateral that there is, and there is room in the queue of the
    waiting validators and in the total. *)
Definition admits (self : ValidatorSet) (c : PowerChange) : Prop :=
  match c with
  | Deposited v amount => permissionMode self ≠ Federated ∧ 0 < amount ∧
      totalConfirmedCollateral self + amount < u256_size ∧ pq_size (waitingValidators self) + 1 < 32768
  | Withdrawn v amount => permissionMode self ≠ Federated ∧ amount ≤ confirmedCollateral (info_of self v) ∧
      confirmedCollateral (info_of self v) ≠ 0 ∧ totalConfirmedCollateral self < u256_size
  | Assigned v power => permissionMode self = Federated ∧ pq_size (waitingValidators self) + 1 < 32768
  end.

Definition changed_power (self : ValidatorSet) (c : PowerChange) (a : Address) : N :=
  match c with
  | Deposited v amount => if bool_decide (a = v) then getPower self v + amount else getPower self a
  | Withdrawn v amount => if bool_decide (a = v) then getPower self v - amount else getPower self a
  | Assigned v power => if bool_decide (a = v) then power else getPower self a
  end.

Lemma collateral_power self : permissionMode self ≠ Federated → ∀ a, getPower self a = confirmedCollateral (info_of self a).
Proof. intros Hm a. unfold getPower. by rewrite bool_decide_eq_false_2. Qed.
Lemma federated_power self : permissionMode self = Federated → ∀ a, getPower self a = federatedPower (info_of self a).
Proof. intros Hm a. unfold getPower. by rewrite bool_decide_eq_true_2. Qed.

Definition applied (self : ValidatorSet) (c : PowerChange) : Prop :=
  ∃ self', apply_change c self = Done (tt, self') ∧ vs_inv self' ∧ ∀ a, getPower self' a = changed_power self c a.

Lemma confirmed_le_total self v : vs_inv self → confirmedCollateral (info_of self v) ≤ totalConfirmedCollateral self.
Proof. intros Hinv. rewrite (vi_total _ Hinv), <-(total_confirmed_delete _ v). fold (info_of self v). lia. Qed.

Lemma deposit_applied self v amount : vs_inv self → admits self (Deposited v amount) → applied self (Deposited v amount).
Proof.
  intros Hinv (Hmode & Hpos & Htotal & Hroom). pose proof (confirmed_le_total self v Hinv) as Hle.
  set (c := confirmedCollateral (info_of self v)) in *.
  set (base0 := set_info v (with_confirmed (c + amount)) self).
  set (base := set_total (totalConfirmedCollateral self + amount) base0).
  assert (getPower base v = c + amount) as Hpv.
  { rewrite collateral_power by done. change (info_of base v) with (info_of base0 v). unfold base0. by rewrite info_set_eq. }
  assert (getPower self v = c) as Hcv by by apply collateral_power.
  assert (∀ b, b ≠ v → getPower self b = getPower base b) as Hother.
  { intros b Hb. symmetry. change (getPower base b) with (getPower base0 b). by apply power_set_ne. }
  destruct (restore_increase self base v Hinv) as (act & wait & Hr & Hinv'); try done; [lia|lia|].
  exists (set_queues act wait base). split; [|split].
  - cbn [apply_change]. unfold confirmDeposit. erewrite bind_run by done. fold c.
    erewrite bind_run by (unfold lift; by rewrite u256_add_ok by lia).
    erewrite bind_run by done. fold base0. erewrite bind_run by done.
    change (totalConfirmedCollateral base0) with (totalConfirmedCollateral self).
    erewrite bind_run by (unfold lift; by rewrite u256_add_ok by lia).
    erewrite bind_run by done. fold base. by rewrite <-Hpv.
  - assert (total_confirmed (validators base) = totalConfirmedCollateral base) as Ht; [|rewrite Ht in Hinv'; exact Hinv'].
    cbn. rewrite (vi_total _ Hinv). pose proof (total_confirmed_update (validators self) v
      (with_confirmed (c + amount) (info_of self v))) as Hu. fold (info_of self v) in Hu. fold c in Hu. cbn in Hu. lia.
  - intros a. change (getPower (set_queues act wait base) a) with (getPower base a). cbn.
    case_bool_decide as Ha; [subst a; by rewrite Hpv, Hcv|by rewrite Hother].
Qed.

Definition withdrawn_base (self : ValidatorSet) (v : Address) (amount : N) : ValidatorSet :=
  let left := confirmedCollateral (info_of self v) - amount in
  if bool_decide (left = 0) && bool_decide (totalCollateral (info_of self v) = 0)
  then set_validators (delete v (validators self)) self else set_info v (with_confirmed left) self.

Lemma withdrawn_base_spec self v amount :
  permissionMode self ≠ Federated →
  let base := withdrawn_base self v amount in
  getPower base v = confirmedCollateral (info_of self v) - amount ∧
  (∀ b, b ≠ v → getPower self b = getPower base b) ∧
  activeLimit base = activeLimit self ∧ totalConfirmedCollateral base = totalConfirmedCollateral self ∧
  set_queues (activeValidators self) (waitingValidators self) base = base ∧
  confirmedCollateral (info_of self v) + total_confirmed (validators base) =
    (confirmedCollateral (info_of self v) - amount) + total_confirmed (validators self).
Proof.
  intros Hmode base. unfold base, withdrawn_base. set (c := confirmedCollateral (info_of self v)).
  destruct (bool_decide (c - amount = 0) && _) eqn:Hz.
  - apply andb_true_iff in Hz as [Hz%bool_decide_eq_true _].
    split_and!; try done.
    + rewrite collateral_power, info_delete_eq by done. done.
    + intros b Hb. rewrite !collateral_power by done. by rewrite info_delete_ne.
    + cbn. rewrite Hz. pose proof (total_confirmed_delete (validators self) v). done.
  - split_and!; try done.
    + rewrite collateral_power, info_set_eq by done. done.
    + intros b Hb. by rewrite power_set_ne.
    + exact (total_confirmed_update (validators self) v (with_confirmed (c - amount) (info_of self v))).
Qed.

Lemma withdraw_applied self v amount : vs_inv self → admits self (Withdrawn v amount) → applied self (Withdrawn v amount).
Proof.
  intros Hinv (Hmode & Hle & Hpos & Htotal). pose proof (confirmed_le_total self v Hinv) as Hct.
  destruct (withdrawn_base_spec self v amount Hmode) as (Hpv & Hother & Hlim & Htot & Hq & Hsum).
  assert (getPower self v = confirmedCollateral (info_of self v)) as Hcv by by apply collateral_power.
  destruct (restore_reduce self (withdrawn_base self v amount) v Hinv) as (act & wait & Hr & Hinv'); try done; [lia|lia|].
  set (base := withdrawn_base self v amount) in *. set (c := confirmedCollateral (info_of self v)) in *.
  assert (total_confirmed (validators base) = totalConfirmedCollateral self - amount) as Ht.
  { rewrite (vi_total _ Hinv) in Hct |- *. lia. }
  rewrite Ht in Hinv'. eexists. split; [|split; [exact Hinv'|]].
  - cbn [apply_change]. unfold confirmWithdraw. erewrite bind_run by done. fold c.
    erewrite bind_run by (unfold lift; by rewrite u256_sub_ok by lia).
    erewrite (bind_run _ _ _ tt base) by (unfold base, withdrawn_base; fold c; by destruct (_ && _)).
    rewrite <-Hpv.
    erewrite bind_run by exact Hr. erewrite bind_run by done.
    change (totalConfirmedCollateral (set_queues act wait base)) with (totalConfirmedCollateral base). rewrite Htot.
    erewrite bind_run by (unfold lift; by rewrite u256_sub_ok by lia). done.
  - intros a. change (getPower base a = changed_power self (Withdrawn v amount) a). cbn.
    case_bool_decide as Ha; [subst a; by rewrite Hpv, Hcv|by rewrite Hother].
Qed.

Lemma assign_applied self v power : vs_inv self → admits self (Assigned v power) → applied self (Assigned v power).
Proof.
  intros Hinv (Hmode & Hroom). set (base := set_info v (with_federated power) self).
  assert (getPower base v = power) as Hpv.
  { rewrite federated_power by done. unfold base. by rewrite info_set_eq. }
  assert (∀ b, b ≠ v → getPower self b = getPower base b) as Hother.
  { intros b Hb. symmetry. by apply power_set_ne. }
  assert (total_confirmed (validators base) = totalConfirmedCollateral self) as Ht.
  { rewrite (vi_total _ Hinv). pose proof (total_confirmed_update (validators self) v
      (with_federated power (info_of self v))) as Hu. fold (info_of self v) in Hu. cbn in Hu |- *. lia. }
  assert (∀ a, getPower base a = changed_power self (Assigned v power) a) as Hpow.
  { intros a. cbn. case_bool_decide as Ha; [by subst a|by rewrite Hother]. }
  unfold applied. cbn [apply_change]. unfold confirmFederatedPower. erewrite bind_run by done.
  erewrite bind_run by done. fold base. rewrite <-federated_power by done.
  case_bool_decide as Heq; [|case_bool_decide as Hlt].
  - assert (∀ a, getPower self a = getPower base a) as Hsame.
    { intros a. destruct (decide (a = v)) as [->|]; [lia|by apply Hother]. }
    exists base. split; [done|]. split; [|done]. split; [|intros a; rewrite <-Hsame; apply Hinv|by rewrite Ht|apply Hinv].
    eapply ordered_ext; [exact Hsame|apply Hinv].
  - destruct (restore_increase self base v Hinv) as (act & wait & Hr & Hinv'); try done; [lia|lia|].
    rewrite Hpv in Hr. rewrite Hr. eexists. split; [done|]. rewrite Ht in Hinv'. split; [exact Hinv'|exact Hpow].
  - destruct (restore_reduce self base v Hinv) as (act & wait & Hr & Hinv'); try done; [lia|lia|].
    rewrite Hpv in Hr. rewrite Hr. eexists. split; [done|]. rewrite Ht in Hinv'. split; [exact Hinv'|exact Hpow].
Qed.

Lemma init_inv mode limit : 1 ≤ limit < 32768 → vs_inv (MkSet mode limit 0 ∅ pq_empty pq_empty).
Proof.
  intros Hl. assert (∀ a, getPower (MkSet mode limit 0 ∅ pq_empty pq_empty) a = 0) as Hp.
  { intros a. unfold getPower, info_of. cbn. rewrite lookup_empty. by case_bool_decide. }
  split; [|intros a; rewrite Hp; set_solver|done|done].
  split; [apply valid_empty|apply valid_empty|set_solver|set_solver|cbn; lia|set_solver].
Qed.

Lemma change_applied self c : vs_inv self → admits self c → applied self c.
Proof.
  intros Hinv. destruct c as [v amount|v amount|v power];
    [by apply deposit_applied|by apply withdraw_applied|by apply assign_applied].
Qed.

(** C18: a change of power that the staking contract confirms is applied
    without a revert: exactly that validator has the new power, and the active validators are
    again those of the most power, as many as the limit allows, with both queues in order. *)
Theorem validator_changes_spec self c :
  vs_inv self → admits self c →
  ∃ self', apply_change c self = Done (tt, self') ∧ vs_inv self' ∧ selects_top self' ∧
    ∀ a, getPower self' a = changed_power self c a.
Proof.
  intros Hinv Hc. destruct (change_applied self c Hinv Hc) as (self' & Hr & Hinv' & Hp).
  exists self'. split_and!; [done|done|by apply inv_selects_top|done].
Qed.

(** Two validators in a set of one active validator: the second one, with more power, takes the
    place of the first. *)
Definition first_joined : ValidatorSet :=
  match confirmDeposit 7 10 (MkSet Collateral 1 0 ∅ pq_empty pq_empty) with
  | Done (_, self) => self
  | _ => no_validators
  end.

Lemma first_joined_inv : vs_inv first_joined.
Proof.
  destruct (change_applied (MkSet Collateral 1 0 ∅ pq_empty pq_empty) (Deposited 7 10)) as (self & Hr & Hinv & _).
  - by apply init_inv.
  - by vm_compute.
  - unfold first_joined. cbn [apply_change] in Hr. by rewrite Hr.
Qed.

Lemma validator_changes_spec_witness :
  listActiveValidators first_joined = [7] ∧
  ∃ self', confirmDeposit 8 20 first_joined = Done (tt, self') ∧ vs_inv self' ∧ selects_top self' ∧
    listActiveValidators self' = [8] ∧ getPower self' 7 = 10.
Proof.
  split; [by vm_compute|].
  destruct (validator_changes_spec first_joined (Deposited 8 20) first_joined_inv) as (self' & Hr & Hinv & Htop & Hp);
    [by vm_compute|].
  exists self'. split_and!; [done|done|done| |by rewrite (Hp 7); vm_compute].
  change (confirmDeposit 8 20 first_joined = Done (tt, self')) in Hr.
  vm_compute in Hr. injection Hr as <-. by vm_compute.
Defined.

(** An only validator. *)
Lemma only_active self v :
  vs_inv self → getPower self v ≠ 0 → (∀ a, a ≠ v → getPower self a = 0) → listActiveValidators self = [v].
Proof.
  intros Hinv Hv Hothers. pose proof (inv_selects_top self Hinv) as (_ & Hpos & Hsize).
  assert (members self = {[v]}) as Hm.
  { apply set_eq. intros a. rewrite (vi_members _ Hinv), elem_of_singleton.
    destruct (decide (a = v)) as [->|]; [done|]. rewrite Hothers by done. done. }
  rewrite Hm, size_singleton in Hsize. pose proof (vi_limit _ Hinv). pose proof (vi_ordered _ Hinv) as Ho.
  pose proof (valid_linked _ _ (o_active _ _ _ _ Ho)) as Hl.
  assert (pq_size (activeValidators self) = 1) as Hs by (rewrite <-size_contents by done; lia).
  unfold listActiveValidators. rewrite Hs. cbn. f_equal.
  assert (addr_at (activeValidators self) 1 ∈ members self) as Hin.
  { unfold members. apply elem_of_union_l. apply root_in; [done|lia]. }
  rewrite Hm in Hin. set_solver.
Qed.

(** Reshuffling changes nothing but the queues. *)
#[export] Instance same_validators_po : PreOrder same_validators.
Proof.
  split; [by intros s|]. intros s1 s2 s3 (?&?&?&?) (?&?&?&?). split_and!; congruence.
Qed.

Lemma keeps_on_active {A} (op : ∀ o : HeapOrder, (Address → N) → stm PQ string A) : keeps same_validators (on_active op).
Proof.
  intros s a s'. unfold on_active, zoom. destruct (op _ _ _) as [[b q]| | | |]; try done. by intros [= <- <-].
Qed.
Lemma keeps_on_waiting {A} (op : ∀ o : HeapOrder, (Address → N) → stm PQ string A) : keeps same_validators (on_waiting op).
Proof.
  intros s a s'. unfold on_waiting, zoom. destruct (op _ _ _) as [[b q]| | | |]; try done. by intros [= <- <-].
Qed.
#[export] Hint Resolve keeps_on_active keeps_on_waiting : keeps.

Lemma keeps_increase v n : keeps same_validators (increaseReshuffle v n).
Proof. unfold increaseReshuffle. solve_keeps. Qed.
Lemma keeps_reduce v n : keeps same_validators (reduceReshuffle v n).
Proof. unfold reduceReshuffle. solve_keeps. Qed.

(** What confirming a change writes about the validators. *)
Lemma deposit_info v amount self x self' :
  confirmDeposit v amount self = Done (x, self') →
  validators self' = <[v := with_confirmed (confirmedCollateral (info_of self v) + amount) (info_of self v)]> (validators self) ∧
  permissionMode self' = permissionMode self ∧ activeLimit self' = activeLimit self ∧
  totalConfirmedCollateral self' = totalConfirmedCollateral self + amount.
Proof.
  unfold confirmDeposit. intros Hr. inv_done.
  repeat match goal with H : u256_add _ _ = Done _ |- _ => apply u256_add_inv in H as [-> _] end.
  match goal with H : increaseReshuffle _ _ _ = _ |- _ => apply keeps_increase in H as (-> & -> & -> & ->) end.
  done.
Qed.

Lemma withdraw_info v amount self x self' :
  confirmWithdraw v amount self = Done (x, self') →
  validators self' = validators (withdrawn_base self v amount) ∧
  permissionMode self' = permissionMode self ∧ activeLimit self' = activeLimit self ∧
  amount ≤ confirmedCollateral (info_of self v) ∧
  totalConfirmedCollateral self' = totalConfirmedCollateral self - amount ∧ amount ≤ totalConfirmedCollateral self.
Proof.
  unfold confirmWithdraw. intros Hr. inv_done.
  repeat match goal with H : u256_sub _ _ = Done _ |- _ => apply u256_sub_inv in H as [-> ?] end.
  match goal with H : reduceReshuffle _ _ _ = _ |- _ => apply keeps_reduce in H as (Hm & Hl & Ht & Hv) end.
  unfold withdrawn_base. destruct (bool_decide (confirmedCollateral _ - _ = 0) && _); inv_done;
    rewrite Ht in *; split_and!; done.
Qed.

(** Writing what is neither collateral that counts nor power. *)
Lemma power_unchanged v f self :
  (∀ i, confirmedCollateral (f i) = confirmedCollateral i ∧ federatedPower (f i) = federatedPower i) →
  ∀ a, getPower (set_info v f self) a = getPower self a.
Proof.
  intros Hf a. destruct (decide (a = v)) as [->|]; [|by apply power_set_ne].
  unfold getPower. cbn [permissionMode set_info set_validators]. rewrite info_set_eq.
  destruct (Hf (info_of self v)) as [-> ->]. done.
Qed.
Lemma info_inv v f self :
  (∀ i, confirmedCollateral (f i) = confirmedCollateral i ∧ federatedPower (f i) = federatedPower i) →
  vs_inv self → vs_inv (set_info v f self).
Proof.
  intros Hf Hinv. pose proof (power_unchanged v f self Hf) as Hp.
  split; [|intros a; rewrite Hp; apply Hinv| |apply Hinv].
  - eapply ordered_ext; [intros a; symmetry; apply Hp|apply Hinv].
  - cbn. rewrite (vi_total _ Hinv). pose proof (total_confirmed_update (validators self) v (f (info_of self v))) as Hu.
    fold (info_of self v) in Hu. destruct (Hf (info_of self v)) as [He _]. lia.
Qed.

(** A change brings in at most one validator. *)
Lemma change_members self c self' :
  vs_inv self → vs_inv self' → (∀ a, getPower self' a = changed_power self c a) →
  (size (members self') ≤ size (members self) + 1)%nat.
Proof.
  intros Hinv Hinv' Hp.
  set (v := match c with Deposited v _ | Withdrawn v _ | Assigned v _ => v end).
  assert (members self' ⊆ {[v]} ∪ members self) as Hsub.
  { intros a. rewrite (vi_members _ Hinv'), Hp, elem_of_union, elem_of_singleton, (vi_members _ Hinv).
    destruct c; cbn; case_bool_decide; auto. }
  apply subseteq_size in Hsub. rewrite size_union_alt, size_singleton in Hsub.
  pose proof (subseteq_size (members self ∖ {[v]}) (members self) ltac:(set_solver)). lia.
Qed.

Lemma waiting_le_members self : vs_inv self → pq_size (waitingValidators self) ≤ N.of_nat (size (members self)).
Proof.
  intros Hinv. pose proof (vi_ordered _ Hinv) as Ho.
  pose proof (valid_linked _ _ (o_waiting _ _ _ _ Ho)). rewrite <-size_contents by done.
  pose proof (subseteq_size (contents (waitingValidators self)) (members self) ltac:(unfold members; set_solver)). lia.
Qed.
