(* ===== verification/Abi.v ===== *)
(** * The ABI of Solidity

    [abi.encode] and [abi.decode] for the types that the staking contracts use them with:
    an integer, and a pair of a byte string and an integer. *)

From Stdlib Require Import Strings.Byte.
From stdpp Require Import vector.
From S2P Require Import Prelude Validators PQ.

Definition word (n : N) : list byte := vec_to_list (be_bytes 32 n).
Definition word_at (p : list byte) (off : N) : N := from_be_bytes (take 32 (drop (N.to_nat off) p)).

Definition nlength (p : list byte) : N := N.of_nat (length p).

Definition encode_uint (n : N) : list byte := word n.

Definition decode_uint (p : list byte) : outcome string N :=
  if bool_decide (nlength p < 32) then Fail ""%string else Done (word_at p 0).

(** A byte string is referred to by its offset, and padded to whole words. *)
Definition padding (b : list byte) : list byte := replicate (N.to_nat ((32 - nlength b `mod` 32) `mod` 32)) x00.

Definition encode_bytes_uint (b : list byte) (n : N) : list byte :=
  word 64 ++ word n ++ word (nlength b) ++ b ++ padding b.

Definition decode_bytes_uint (p : list byte) : outcome string (list byte * N) :=
  if bool_decide (nlength p < 64) then Fail ""%string
  else
    let offset := word_at p 0 in
    if bool_decide (u64_max < offset) then Fail ""%string
    else
      let n := word_at p 32 in
      if negb (bool_decide (offset + 31 < nlength p)) then Fail ""%string
      else
        let len := word_at p offset in
        if bool_decide (u64_max < len) then Fail ""%string
        else if bool_decide (nlength p < offset + 32 + len) then Fail ""%string
        else Done (take (N.to_nat len) (drop (N.to_nat (offset + 32)) p), n).

(** ** Round trips *)

Lemma word_length n : length (word n) = 32%nat.
Proof. apply length_vec_to_list. Qed.

Lemma word_at_app l n r : n < u256_size → word_at (l ++ word n ++ r) (nlength l) = n.
Proof.
  intros Hn. unfold word_at, nlength. rewrite Nat2N.id, drop_app_length.
  rewrite take_app_length' by (by rewrite word_length). unfold word. rewrite be_bytes_value. by apply N.mod_small.
Qed.

Lemma decode_encode_uint n : n < u256_size → decode_uint (encode_uint n) = Done n.
Proof.
  intros Hn. unfold decode_uint, encode_uint.
  rewrite bool_decide_eq_false_2 by (unfold nlength; rewrite word_length; lia).
  f_equal. pose proof (word_at_app [] n [] Hn) as Hw. rewrite app_nil_l, app_nil_r in Hw. exact Hw.
Qed.

Lemma decode_encode_bytes_uint b n :
  n < u256_size → nlength b ≤ u64_max → decode_bytes_uint (encode_bytes_uint b n) = Done (b, n).
Proof.
  intros Hn Hb. unfold decode_bytes_uint.
  assert (nlength b < u256_size) as Hb' by (unfold u64_max, u256_size in *; lia).
  set (p := encode_bytes_uint b n).
  assert (word_at p 0 = 64) as ->.
  { change 0 with (nlength []). apply (word_at_app [] 64). done. }
  assert (word_at p 32 = n) as ->.
  { change 32 with (nlength (word 64)). apply (word_at_app (word 64) n). done. }
  assert (word_at p 64 = nlength b) as ->.
  { change 64 with (nlength (word 64 ++ word n)). unfold p, encode_bytes_uint. rewrite app_assoc. by apply word_at_app. }
  assert (nlength p = 96 + nlength b + nlength (padding b)) as Hlen.
  { unfold p, encode_bytes_uint, nlength. rewrite !length_app, !word_length. lia. }
  rewrite Hlen. rewrite (bool_decide_eq_false_2 (_ < 64)) by lia.
  rewrite (bool_decide_eq_false_2 (u64_max < 64)) by done.
  rewrite (bool_decide_eq_true_2 (64 + 31 < _)) by lia. cbn [negb].
  rewrite (bool_decide_eq_false_2 (u64_max < nlength b)) by lia.
  rewrite (bool_decide_eq_false_2 (_ < 64 + 32 + _)) by lia.
  do 2 f_equal. unfold p, encode_bytes_uint. rewrite !app_assoc, <-app_assoc.
  rewrite drop_app_length' by (rewrite !length_app, !word_length; done).
  apply take_app_length'. unfold nlength. lia.
Qed.

Lemma encode_uint_inj a b : a < u256_size → b < u256_size → encode_uint a = encode_uint b → a = b.
Proof.
  intros Ha Hb Heq. apply (f_equal decode_uint) in Heq. rewrite !decode_encode_uint in Heq by done. congruence.
Qed.
