(* ===== verification/Staking.v ===== *)
(** * Staking: the log of changes, the queue of releases, the tracker of the child

    [LibStakingChangeLog], and [LibAddressStakingReleases], [LibStakingReleaseQueue] and
    [LibValidatorTracking] of [contracts/src/lib/LibStaking.sol]. *)

From Stdlib Require Import Strings.Byte.
From S2P Require Import Prelude Weights PQ ValidatorSet Abi.

(** ** The log of changes *)

Inductive StakingOperation := Deposit | Withdraw | SetMetadata | SetFederatedPower.

#[export] Instance StakingOperation_eq_dec : EqDecision StakingOperation.
Proof. solve_decision. Defined.

Record StakingChange := MkChange {
  change_op : StakingOperation;
  change_payload : list byte;
  change_validator : Address
}.

Definition no_change : StakingChange := MkChange Deposit [] 0.

Record StakingChangeRequest := MkRequest {
  request_change : StakingChange;
  request_configurationNumber : N
}.

Record StakingChangeLog := MkLog {
  nextConfigurationNumber : N;
  startConfigurationNumber : N;
  log_changes : gmap N StakingChange
}.

Definition u64_checked_add (a b : N) : outcome string N := checked panic_arithmetic u64_size (Z.of_N a + Z.of_N b).

Definition recordChange (validator : Address) (op : StakingOperation) (payload : list byte) :
    stm StakingChangeLog string N :=
  configurationNumber ← reads nextConfigurationNumber;
  modify (λ l, MkLog (nextConfigurationNumber l) (startConfigurationNumber l)
    (<[configurationNumber := MkChange op payload validator]> (log_changes l))) ;;
  next ← lift (u64_checked_add configurationNumber 1);
  modify (λ l, MkLog next (startConfigurationNumber l) (log_changes l)) ;;
  mret configurationNumber.

Definition metadataRequest (validator : Address) (md : list byte) : stm StakingChangeLog string unit :=
  recordChange validator SetMetadata md ;; mret tt.
Definition federatedPowerRequest (validator : Address) (md : list byte) (power : N) : stm StakingChangeLog string unit :=
  recordChange validator SetFederatedPower (encode_bytes_uint md power) ;; mret tt.
Definition withdrawRequest (validator : Address) (amount : N) : stm StakingChangeLog string unit :=
  recordChange validator Withdraw (encode_uint amount) ;; mret tt.
Definition depositRequest (validator : Address) (amount : N) : stm StakingChangeLog string unit :=
  recordChange validator Deposit (encode_uint amount) ;; mret tt.

Definition getChange (n : N) (l : StakingChangeLog) : StakingChange := default no_change (log_changes l !! n).

Definition purgeChange (n : N) (l : StakingChangeLog) : StakingChangeLog :=
  MkLog (nextConfigurationNumber l) (startConfigurationNumber l) (delete n (log_changes l)).

Definition set_start (n : N) (l : StakingChangeLog) : StakingChangeLog :=
  MkLog (nextConfigurationNumber l) n (log_changes l).

(** ** Releases *)

Record StakingRelease := MkRelease { releaseAt : N; release_amount : N }.
Definition no_release : StakingRelease := MkRelease 0 0.

Record AddressStakingReleases := MkReleases {
  rel_length : N;
  startIdx : N;
  rel_entries : gmap N StakingRelease
}.
Definition no_releases : AddressStakingReleases := MkReleases 0 0 ∅.

Definition release_at (self : AddressStakingReleases) (i : N) : StakingRelease :=
  default no_release (rel_entries self !! i).

Definition push (release : StakingRelease) : stm AddressStakingReleases string unit :=
  len ← reads rel_length;
  start ← reads startIdx;
  nextIdx ← lift (u16_add start len);
  modify (λ self, MkReleases (rel_length self) (startIdx self) (<[nextIdx := release]> (rel_entries self))) ;;
  len' ← lift (u16_add len 1);
  modify (λ self, MkReleases len' (startIdx self) (rel_entries self)).

(** The loop of [compact]: from index [i] up to the length. *)
Fixpoint compact_loop (now : N) (n : nat) (i newLength amount : N) :
    stm AddressStakingReleases string (N * N * N) :=
  match n with
  | O => mret (i, newLength, amount)
  | S n =>
      release ← reads (λ self, release_at self i);
      if bool_decide (now < releaseAt release) then mret (i, newLength, amount)
      else
        amount ← lift (u256_add amount (release_amount release));
        modify (λ self, MkReleases (rel_length self) (startIdx self) (delete i (rel_entries self))) ;;
        compact_loop now n (i + 1) (newLength - 1) amount
  end.

Definition compact (now : N) : stm AddressStakingReleases string (N * N) :=
  len ← reads rel_length;
  if bool_decide (len = 0) then abort "NoCollateralToWithdraw"%string
  else
    start ← reads startIdx;
    r ← compact_loop now (N.to_nat (len - start)) start len 0;
    let '(i, newLength, amount) := r in
    modify (λ self, MkReleases newLength i (rel_entries self)) ;;
    mret (amount, newLength).

Record StakingReleaseQueue := MkQueue {
  lockingDuration : N;
  releases : gmap N AddressStakingReleases
}.

Definition releases_of (self : StakingReleaseQueue) (a : Address) : AddressStakingReleases :=
  default no_releases (releases self !! a).
Definition set_releases (a : Address) (r : AddressStakingReleases) (self : StakingReleaseQueue) : StakingReleaseQueue :=
  MkQueue (lockingDuration self) (<[a := r]> (releases self)).

Definition setLockDuration (blocks : N) : stm StakingReleaseQueue string unit :=
  modify (λ self, MkQueue blocks (releases self)).

Definition on_releases {A} (a : Address) (tx : stm AddressStakingReleases string A) : stm StakingReleaseQueue string A :=
  zoom (λ self, releases_of self a) (set_releases a) tx.

Definition addNewRelease (now : N) (validator : Address) (amount : N) : stm StakingReleaseQueue string unit :=
  duration ← reads lockingDuration;
  at_ ← lift (u256_add now duration);
  on_releases validator (push (MkRelease at_ amount)).

(** [claim] up to the transfer of the amount that it returns. *)
Definition claim (now : N) (validator : Address) : stm StakingReleaseQueue string N :=
  r ← on_releases validator (compact now);
  let '(amount, newLength) := r in
  (if bool_decide (newLength = 0)
   then modify (λ self, MkQueue (lockingDuration self) (delete validator (releases self))) else mret tt) ;;
  mret amount.

(** ** The tracker of the child *)

Record ParentValidatorsTracker := MkTracker {
  tr_validators : ValidatorSet;
  tr_changes : StakingChangeLog
}.

Definition on_set {A} (tx : stm ValidatorSet string A) : stm ParentValidatorsTracker string A :=
  zoom tr_validators (λ v t, MkTracker v (tr_changes t)) tx.
Definition on_log {A} (tx : stm StakingChangeLog string A) : stm ParentValidatorsTracker string A :=
  zoom tr_changes (λ l t, MkTracker (tr_validators t) l) tx.

Definition storeChange (r : StakingChangeRequest) : stm ParentValidatorsTracker string unit :=
  let c := request_change r in
  configurationNumber ← on_log (recordChange (change_validator c) (change_op c) (change_payload c));
  if bool_decide (configurationNumber = request_configurationNumber r) then mret tt
  else abort "InvalidConfigurationNumber"%string.

Fixpoint batchStoreChange (rs : list StakingChangeRequest) : stm ParentValidatorsTracker string unit :=
  match rs with
  | [] => mret tt
  | r :: rs => storeChange r ;; batchStoreChange rs
  end.

(** What a change does to the validators, in the child. *)
Definition track_change (c : StakingChange) : stm ValidatorSet string unit :=
  let v := change_validator c in
  match change_op c with
  | SetMetadata => setMetadata v (change_payload c)
  | SetFederatedPower =>
      r ← lift (decode_bytes_uint (change_payload c));
      let '(md, power) := r in
      setMetadata v md ;;
      confirmFederatedPower v power
  | Withdraw => amount ← lift (decode_uint (change_payload c)); confirmWithdraw v amount
  | Deposit => amount ← lift (decode_uint (change_payload c)); confirmDeposit v amount
  end.

(** The loop of [confirmChange] over [n] changes from number [i]. *)
Fixpoint confirm_loop (n : nat) (i : N) : stm ParentValidatorsTracker string unit :=
  match n with
  | O => mret tt
  | S n =>
      change ← reads (λ t, getChange i (tr_changes t));
      on_set (track_change change) ;;
      on_log (modify (purgeChange i)) ;;
      confirm_loop n (i + 1)
  end.

Definition tracker_confirmChange (configurationNumber : N) : stm ParentValidatorsTracker string unit :=
  next ← reads (λ t, nextConfigurationNumber (tr_changes t));
  start ← reads (λ t, startConfigurationNumber (tr_changes t));
  if bool_decide (next ≤ configurationNumber) then abort "CannotConfirmFutureChanges"%string
  else if bool_decide (configurationNumber < start) then mret tt
  else
    confirm_loop (N.to_nat (configurationNumber + 1 - start)) start ;;
    next ← lift (u64_checked_add configurationNumber 1);
    on_log (modify (set_start next)).

(** ** Claims

    The releases of an address are a list, in the order of the blocks at which they are due. *)

Section releases.
Implicit Types (self : AddressStakingReleases) (l : list StakingRelease).

Definition pending self : list StakingRelease := release_at self <$> range_up (startIdx self) (N.to_nat (rel_length self)).

(** The releases that a claim should pay. *)
Fixpoint due (now : N) l : list StakingRelease :=
  match l with
  | [] => []
  | r :: l => if bool_decide (now < releaseAt r) then [] else r :: due now l
  end.

Definition amount_of l : N := sumN (release_amount <$> l).

Lemma due_length now l : (length (due now l) ≤ length l)%nat.
Proof. induction l as [|r l IH]; cbn; [lia|]. case_bool_decide; cbn; lia. Qed.

Lemma push_pending r self :
  startIdx self + rel_length self + 1 < u16_size →
  ∃ self', push r self = Done (tt, self') ∧ pending self' = pending self ++ [r] ∧
    startIdx self' = startIdx self ∧ rel_length self' = rel_length self + 1.
Proof.
  intros Hroom. eexists. split.
  - unfold push. erewrite bind_run by done. erewrite bind_run by done.
    erewrite bind_run by (unfold lift; by rewrite u16_add_ok by lia). erewrite bind_run by done.
    erewrite bind_run by (unfold lift; by rewrite u16_add_ok by lia). done.
  - split; [|done]. unfold pending. cbn.
    replace (N.to_nat (rel_length self + 1)) with (S (N.to_nat (rel_length self))) by lia.
    rewrite range_up_snoc, fmap_app, N2Nat.id. f_equal.
    + apply list_fmap_ext. intros i x Hx. apply list_elem_of_lookup_2, elem_of_range_up in Hx.
      unfold release_at. cbn. by rewrite lookup_insert_ne by lia.
    + unfold release_at. cbn. by rewrite lookup_insert_eq.
Qed.

(** The entries below an index are deleted, and the others are as they were. *)
Definition deleted_from self (i k : N) self' : Prop :=
  rel_length self' = rel_length self ∧ startIdx self' = startIdx self ∧
  ∀ j, i + k ≤ j → release_at self' j = release_at self j.

Lemma compact_loop_spec now n i len amount self :
  let d := due now (release_at self <$> range_up i n) in
  amount + amount_of d < u256_size →
  ∃ self', compact_loop now n i len amount self =
      Done ((i + N.of_nat (length d), len - N.of_nat (length d), amount + amount_of d), self') ∧
    deleted_from self i (N.of_nat (length d)) self'.
Proof.
  revert i len amount self. induction n as [|n IH]; intros i len amount self d Hsum.
  { exists self. split; [|done]. unfold d, amount_of. cbn. by rewrite !N.add_0_r, N.sub_0_r. }
  unfold d in *. clear d. cbn [range_up fmap list_fmap due compact_loop] in *. rewrite <-N.add_1_r in *.
  erewrite bind_run by done. case_bool_decide as Hdue.
  { exists self. split; [|done]. unfold amount_of. cbn. by rewrite !N.add_0_r, N.sub_0_r. }
  unfold amount_of in *. cbn [fmap list_fmap sumN foldr length] in *.
  erewrite bind_run by (unfold lift; by rewrite u256_add_ok by lia). erewrite bind_run by done.
  set (self1 := MkReleases _ _ (delete i (rel_entries self))).
  assert (release_at self1 <$> range_up (i + 1) n = release_at self <$> range_up (i + 1) n) as Heq.
  { apply list_fmap_ext. intros j x Hx. apply list_elem_of_lookup_2, elem_of_range_up in Hx.
    unfold release_at. cbn. by rewrite lookup_delete_ne by lia. }
  destruct (IH (i + 1) (len - 1) (amount + release_amount (release_at self i)) self1) as (self' & Hr & Hl & Hs & Hrest).
  { rewrite Heq. unfold amount_of, sumN in *. lia. }
  rewrite Heq in Hr, Hrest. exists self'. split.
  - rewrite Hr. do 2 f_equal. unfold amount_of, sumN. f_equal; [f_equal|]; lia.
  - split; [done|]. split; [done|]. intros j Hj. rewrite Hrest by lia. unfold release_at. cbn.
    by rewrite lookup_delete_ne by lia.
Qed.

Lemma length_range_up i n : length (range_up i n) = n.
Proof. revert i. induction n as [|n IH]; intros i; cbn; [done|]. by rewrite IH. Qed.

Lemma due_prefix now l : due now l ++ drop (length (due now l)) l = l.
Proof. induction l as [|r l IH]; cbn; [done|]. case_bool_decide; cbn; [done|]. by rewrite IH. Qed.

Lemma drop_range_up i n k : (k ≤ n)%nat → drop k (range_up i n) = range_up (i + N.of_nat k) (n - k).
Proof.
  intros Hk. replace n with (k + (n - k))%nat at 1 by lia. rewrite range_up_app.
  apply drop_app_length'. symmetry. apply length_range_up.
Qed.

(** A claim that follows no partial one pays what is due and keeps the rest. *)
Lemma compact_pays now self :
  startIdx self = 0 → rel_length self ≠ 0 → amount_of (due now (pending self)) < u256_size →
  ∃ self', compact now self =
      Done ((amount_of (due now (pending self)), N.of_nat (length (pending self')) ), self') ∧
    pending self = due now (pending self) ++ pending self'.
Proof.
  intros Hstart Hlen Hsum. unfold compact. erewrite bind_run by done.
  rewrite bool_decide_eq_false_2 by done. erewrite bind_run by done. rewrite Hstart, N.sub_0_r.
  assert (pending self = release_at self <$> range_up 0 (N.to_nat (rel_length self))) as Hp
    by (unfold pending; by rewrite Hstart).
  destruct (compact_loop_spec now (N.to_nat (rel_length self)) 0 (rel_length self) 0 self) as (self1 & Hr & Hl & Hs & Hrest);
    [by rewrite <-Hp|].
  rewrite <-Hp in Hr, Hrest. erewrite bind_run by exact Hr. cbv beta iota. erewrite bind_run by done.
  set (k := length (due now (pending self))) in *.
  set (self' := MkReleases (rel_length self - N.of_nat k) (0 + N.of_nat k) (rel_entries self1)).
  assert (k ≤ N.to_nat (rel_length self))%nat as Hk.
  { unfold k. etransitivity; [apply due_length|]. by rewrite Hp, length_fmap, length_range_up. }
  assert (pending self' = drop k (pending self)) as Hp'.
  { rewrite Hp, <-fmap_drop, drop_range_up by done. unfold pending. cbn.
    replace (N.to_nat (rel_length self - N.of_nat k)) with (N.to_nat (rel_length self) - k)%nat by lia.
    apply list_fmap_ext. intros j x Hx. apply list_elem_of_lookup_2, elem_of_range_up in Hx. apply Hrest. lia. }
  exists self'. split.
  - unfold mret, stm_ret. rewrite Hp', length_drop, Hp, length_fmap, length_range_up, <-Hp.
    do 2 f_equal. f_equal. lia.
  - by rewrite Hp', due_prefix.
Qed.

(** Any claim pays a first part of the releases and keeps the others. *)
Lemma compact_part now self :
  rel_length self ≠ 0 → amount_of (pending self) < u256_size →
  ∃ k self', compact now self = Done ((amount_of (take k (pending self)), rel_length self'), self') ∧
    pending self' = drop k (pending self).
Proof.
  intros Hlen Hsum. unfold compact. erewrite bind_run by done.
  rewrite bool_decide_eq_false_2 by done. erewrite bind_run by done.
  set (n := N.to_nat (rel_length self - startIdx self)).
  assert (release_at self <$> range_up (startIdx self) n = take n (pending self)) as Hw.
  { unfold pending. rewrite <-fmap_take. f_equal.
    replace (N.to_nat (rel_length self)) with (n + (N.to_nat (rel_length self) - n))%nat by lia.
    rewrite range_up_app. symmetry. apply take_app_length'. by rewrite length_range_up. }
  set (k := length (due now (take n (pending self)))).
  assert (due now (take n (pending self)) = take k (pending self)) as Hd.
  { pose proof (due_prefix now (take n (pending self))) as Hp. fold k in Hp.
    assert (k ≤ n)%nat as Hk. { unfold k. etransitivity; [apply due_length|]. rewrite length_take. lia. }
    rewrite <-(take_drop n (pending self)) at 2. rewrite take_app_le by (unfold k; apply due_length).
    rewrite <-Hp at 2. symmetry. apply take_app_length'. done. }
  assert (amount_of (take k (pending self)) ≤ amount_of (pending self)) as Hle.
  { rewrite <-(take_drop k (pending self)) at 2. unfold amount_of. rewrite fmap_app, sumN_app. lia. }
  destruct (compact_loop_spec now n (startIdx self) (rel_length self) 0 self) as (self1 & Hr & Hl & Hs & Hrest).
  { rewrite Hw, Hd. lia. }
  rewrite Hw in Hr, Hrest. fold k in Hr, Hrest. rewrite Hd in Hr. fold n. erewrite bind_run by exact Hr. cbv beta iota.
  erewrite bind_run by done.
  set (self' := MkReleases (rel_length self - N.of_nat k) (startIdx self + N.of_nat k) (rel_entries self1)).
  assert (k ≤ N.to_nat (rel_length self))%nat as Hk.
  { unfold k. etransitivity; [apply due_length|]. rewrite length_take. unfold pending. rewrite length_fmap, length_range_up. lia. }
  exists k, self'. split; [done|]. unfold pending at 2. rewrite <-fmap_drop, drop_range_up by done. unfold pending. cbn.
  replace (N.to_nat (rel_length self - N.of_nat k)) with (N.to_nat (rel_length self) - k)%nat by lia.
  apply list_fmap_ext. intros j x Hx. apply list_elem_of_lookup_2, elem_of_range_up in Hx. apply Hrest. lia.
Qed.

(** The loop of a claim stops at the length of the queue, where it should stop at its end:
    once as many releases are gone as are left, no claim pays anything any more. *)
Lemma compact_stuck now self :
  rel_length self ≠ 0 → rel_length self ≤ startIdx self →
  compact now self = Done ((0, rel_length self), self).
Proof.
  intros Hlen Hstuck. unfold compact. erewrite bind_run by done. rewrite bool_decide_eq_false_2 by done.
  erewrite bind_run by done. replace (rel_length self - startIdx self) with 0 by lia. by destruct self.
Qed.
End releases.

Lemma on_releases_run {A} a (tx : stm AddressStakingReleases string A) q x r :
  tx (releases_of q a) = Done (x, r) → on_releases a tx q = Done (x, set_releases a r q).
Proof. intros Htx. unfold on_releases, zoom. by rewrite Htx. Qed.

Lemma releases_set_eq a r q : releases_of (set_releases a r q) a = r.
Proof. unfold releases_of. cbn. by rewrite lookup_insert_eq. Qed.
Lemma releases_set_ne a b r q : a ≠ b → releases_of (set_releases a r q) b = releases_of q b.
Proof. intros. unfold releases_of. cbn. by rewrite lookup_insert_ne. Qed.

(** A claim of an address that has had no partial claim before pays the releases
    that are due at the current block, keeps the others in order, and leaves the releases of
    every other address alone. *)
Lemma claim_pays now v q :
  startIdx (releases_of q v) = 0 → rel_length (releases_of q v) ≠ 0 →
  amount_of (due now (pending (releases_of q v))) < u256_size →
  ∃ q', claim now v q = Done (amount_of (due now (pending (releases_of q v))), q') ∧
    pending (releases_of q v) = due now (pending (releases_of q v)) ++ pending (releases_of q' v) ∧
    ∀ b, b ≠ v → releases_of q' b = releases_of q b.
Proof.
  intros Hstart Hlen Hsum. destruct (compact_pays now (releases_of q v) Hstart Hlen Hsum) as (r & Hr & Hrest).
  unfold claim. erewrite bind_run by by apply on_releases_run. cbv beta iota. case_bool_decide as Hz.
  - erewrite bind_run by done. eexists. split; [done|].
    assert (pending r = []) as Hnil by (apply nil_length_inv; lia).
    split; [|intros b Hb; unfold releases_of; cbn; by rewrite lookup_delete_ne, lookup_insert_ne].
    unfold releases_of at 3. cbn. rewrite lookup_delete_eq. by rewrite Hrest at 1; rewrite Hnil.
  - erewrite bind_run by done. eexists. split; [done|]. rewrite releases_set_eq.
    split; [done|]. intros b Hb. by apply releases_set_ne.
Qed.

(** Two releases of one address, the first of them due at the block 120. *)
Definition sample_queue : StakingReleaseQueue :=
  MkQueue 100 {[ 7 := MkReleases 2 0 (<[1 := MkRelease 130 6]> {[ 0 := MkRelease 120 5 ]}) ]}.

Lemma claim_pays_witness :
  ∃ q', claim 125 7 sample_queue = Done (5, q') ∧ pending (releases_of q' 7) = [MkRelease 130 6].
Proof.
  destruct (claim_pays 125 7 sample_queue) as (q' & Hr & Hrest & _); [by vm_compute..|].
  exists q'. split; [by vm_compute in Hr|]. vm_compute in Hr. injection Hr as <-. by vm_compute.
Defined.

(** Two releases, the first of which is claimed before the second is due. *)
Definition two_releases (b1 b2 a1 a2 : N) (v : Address) : stm StakingReleaseQueue string unit :=
  addNewRelease b1 v a1 ;; addNewRelease b2 v a2.

Lemma add_first now v a q :
  releases_of q v = no_releases → now + lockingDuration q < u256_size →
  addNewRelease now v a q =
    Done (tt, set_releases v (MkReleases 1 0 {[ 0 := MkRelease (now + lockingDuration q) a ]}) q).
Proof.
  intros Hq Hat. unfold addNewRelease. erewrite bind_run by done.
  erewrite bind_run by (unfold lift; by rewrite u256_add_ok by lia). apply on_releases_run. by rewrite Hq.
Qed.

Lemma compact_two now1 t1 t2 a1 a2 :
  t1 ≤ now1 < t2 → a1 < u256_size →
  let m := <[1 := MkRelease t2 a2]> {[ 0 := MkRelease t1 a1 ]} : gmap N StakingRelease in
  compact now1 (MkReleases 2 0 m) = Done ((a1, 1), MkReleases 1 1 (delete 0 m)).
Proof.
  intros Hnow Ha m. unfold compact. erewrite bind_run by done. rewrite bool_decide_eq_false_2 by done.
  erewrite bind_run by done.
  assert (compact_loop now1 2 0 2 0 (MkReleases 2 0 m) = Done ((1, 1, a1), MkReleases 2 0 (delete 0 m))) as Hloop.
  { cbn [compact_loop]. erewrite bind_run by done.
    change (release_at (MkReleases 2 0 m) 0) with (MkRelease t1 a1). cbn [releaseAt release_amount].
    rewrite bool_decide_eq_false_2 by lia.
    erewrite bind_run by (unfold lift; by rewrite u256_add_ok by lia).
    erewrite bind_run by done. erewrite bind_run by done.
    change (release_at _ (0 + 1)) with (MkRelease t2 a2). cbn [releaseAt].
    by rewrite bool_decide_eq_true_2 by lia. }
  by erewrite bind_run by exact Hloop.
Qed.

(** Of two releases of an address, the second cannot be claimed any more after
    the first has been claimed alone, while the second was still locked: every later claim pays
    nothing and changes nothing. *)
Lemma claims_stop d v a1 a2 b1 b2 now1 :
  b1 + d ≤ now1 < b2 + d → b2 + d < u256_size → a1 < u256_size →
  ∃ q3, (two_releases b1 b2 a1 a2 v ;; claim now1 v) (MkQueue d ∅) = Done (a1, q3) ∧
    pending (releases_of q3 v) = [MkRelease (b2 + d) a2] ∧
    ∀ now, claim now v q3 = Done (0, q3).
Proof.
  intros Hnow Hb Ha. set (q1 := set_releases v (MkReleases 1 0 {[ 0 := MkRelease (b1 + d) a1 ]}) (MkQueue d ∅)).
  set (m2 := <[1 := MkRelease (b2 + d) a2]> {[ 0 := MkRelease (b1 + d) a1 ]} : gmap N StakingRelease).
  set (q2 := set_releases v (MkReleases 2 0 m2) q1).
  set (r3 := MkReleases 1 1 (delete 0 m2)). set (q3 := set_releases v r3 q2).
  assert (two_releases b1 b2 a1 a2 v (MkQueue d ∅) = Done (tt, q2)) as H2.
  { unfold two_releases. erewrite bind_run by (apply add_first; [done|cbn; lia]). fold q1.
    unfold addNewRelease. erewrite bind_run by done.
    erewrite bind_run by (unfold lift; by rewrite u256_add_ok by (cbn; lia)).
    apply on_releases_run. unfold q1. by rewrite releases_set_eq. }
  assert (claim now1 v q2 = Done (a1, q3)) as Hclaim.
  { unfold claim. erewrite bind_run.
    2:{ apply on_releases_run. unfold q2 at 1. rewrite releases_set_eq. by apply compact_two. }
    done. }
  exists q3. split; [by erewrite bind_run|]. unfold q3. rewrite releases_set_eq. split; [done|].
  intros now. fold q3. unfold claim. erewrite bind_run.
  2:{ apply on_releases_run. unfold q3. rewrite releases_set_eq. by apply compact_stuck. }
  cbv beta iota. rewrite bool_decide_eq_false_2 by done. erewrite bind_run by done.
  unfold mret, stm_ret. do 2 f_equal. unfold q3, set_releases. cbn. f_equal. by rewrite insert_insert_eq.
Qed.

Lemma claims_stop_witness :
  ∃ q3, (two_releases 20 30 5 6 7 ;; claim 125 7) (MkQueue 100 ∅) = Done (5, q3) ∧
    claim 1000 7 q3 = Done (0, q3).
Proof.
  destruct (claims_stop 100 7 5 6 20 30 125) as (q3 & Hr & _ & Hnone); [done..|].
  exists q3. split; [exact Hr|apply Hnone].
Defined.

(** ** Confirming in the tracker *)

Lemma on_set_run {A} (tx : stm ValidatorSet string A) t a v :
  tx (tr_validators t) = Done (a, v) → on_set tx t = Done (a, MkTracker v (tr_changes t)).
Proof. intros Htx. unfold on_set, zoom. by rewrite Htx. Qed.
Lemma on_log_run {A} (tx : stm StakingChangeLog string A) t a l :
  tx (tr_changes t) = Done (a, l) → on_log tx t = Done (a, MkTracker (tr_validators t) l).
Proof. intros Htx. unfold on_log, zoom. by rewrite Htx. Qed.

(** The changes of a log from a number on, and what is left when they are purged. *)
Definition changes_from (l : StakingChangeLog) (i : N) (n : nat) : list StakingChange := (λ k, getChange k l) <$> range_up i n.

Fixpoint track_changes (cs : list StakingChange) : stm ValidatorSet string unit :=
  match cs with
  | [] => mret tt
  | c :: cs => track_change c ;; track_changes cs
  end.

Fixpoint purged (i : N) (n : nat) (l : StakingChangeLog) : StakingChangeLog :=
  match n with
  | O => l
  | S n => purged (i + 1) n (purgeChange i l)
  end.

Lemma changes_purged l i j n : i < j → changes_from (purgeChange i l) j n = changes_from l j n.
Proof.
  intros Hij. apply list_fmap_ext. intros k x Hx. apply list_elem_of_lookup_2, elem_of_range_up in Hx.
  unfold getChange. cbn. by rewrite lookup_delete_ne by lia.
Qed.

Lemma confirm_loop_run n i t v :
  track_changes (changes_from (tr_changes t) i n) (tr_validators t) = Done (tt, v) →
  confirm_loop n i t = Done (tt, MkTracker v (purged i n (tr_changes t))).
Proof.
  revert i t. induction n as [|n IH]; intros i t.
  { intros [= <-]. by destruct t. }
  unfold changes_from. cbn [range_up fmap list_fmap track_changes confirm_loop purged]. rewrite <-N.add_1_r.
  intros (? & v1 & Hc & Hrest)%stm_bind_Done. erewrite bind_run by done.
  erewrite bind_run by by apply on_set_run. erewrite bind_run by by apply on_log_run.
  rewrite (IH _ (MkTracker v1 (purgeChange i (tr_changes t)))); [done|]. cbn.
  rewrite changes_purged by lia. exact Hrest.
Qed.

Lemma purged_numbers i n l :
  nextConfigurationNumber (purged i n l) = nextConfigurationNumber l ∧
  startConfigurationNumber (purged i n l) = startConfigurationNumber l.
Proof. revert i l. induction n as [|n IH]; intros i l; [done|]. cbn. by destruct (IH (i + 1) (purgeChange i l)) as [-> ->]. Qed.

Lemma tracker_confirm_run n t v :
  let l := tr_changes t in
  startConfigurationNumber l ≤ n < nextConfigurationNumber l → n + 1 < u64_size →
  let k := N.to_nat (n + 1 - startConfigurationNumber l) in
  track_changes (changes_from l (startConfigurationNumber l) k) (tr_validators t) = Done (tt, v) →
  tracker_confirmChange n t = Done (tt, MkTracker v (set_start (n + 1) (purged (startConfigurationNumber l) k l))).
Proof.
  intros l Hn Hmax k Hv. unfold tracker_confirmChange. erewrite bind_run by done. erewrite bind_run by done. fold l.
  rewrite bool_decide_eq_false_2 by lia. rewrite bool_decide_eq_false_2 by lia. fold k.
  erewrite bind_run by by apply confirm_loop_run.
  erewrite bind_run. 2:{ unfold lift, u64_checked_add. rewrite <-N2Z.inj_add, checked_ok by lia. done. }
  by apply on_log_run.
Qed.

(** Storing the next change. *)
Lemma record_run v op p l :
  nextConfigurationNumber l + 1 < u64_size →
  recordChange v op p l = Done (nextConfigurationNumber l,
    MkLog (nextConfigurationNumber l + 1) (startConfigurationNumber l)
      (<[nextConfigurationNumber l := MkChange op p v]> (log_changes l))).
Proof.
  intros Hn. unfold recordChange. erewrite bind_run by done. erewrite bind_run by done.
  erewrite bind_run. 2:{ unfold lift, u64_checked_add. rewrite <-N2Z.inj_add, checked_ok by lia. done. }
  done.
Qed.

Lemma store_run c t :
  nextConfigurationNumber (tr_changes t) + 1 < u64_size →
  storeChange (MkRequest c (nextConfigurationNumber (tr_changes t))) t =
    Done (tt, MkTracker (tr_validators t) (MkLog (nextConfigurationNumber (tr_changes t) + 1)
      (startConfigurationNumber (tr_changes t))
      (<[nextConfigurationNumber (tr_changes t) := c]> (log_changes (tr_changes t))))).
Proof.
  intros Hn. unfold storeChange. cbn [request_change request_configurationNumber].
  erewrite bind_run by by apply on_log_run, record_run. rewrite bool_decide_eq_true_2 by done. by destruct c.
Qed.

Definition same_numbers (t t' : ParentValidatorsTracker) : Prop :=
  nextConfigurationNumber (tr_changes t') = nextConfigurationNumber (tr_changes t) ∧
  startConfigurationNumber (tr_changes t') = startConfigurationNumber (tr_changes t).

#[export] Instance same_numbers_po : PreOrder same_numbers.
Proof. split; [by intros t|]. intros t1 t2 t3 [??] [??]. split; congruence. Qed.

Lemma keeps_on_set {A} (tx : stm ValidatorSet string A) : keeps same_numbers (on_set tx).
Proof. intros t a t'. unfold on_set, zoom. destruct (tx _) as [[b v]| | | |]; try done. by intros [= <- <-]. Qed.
Lemma keeps_purge i : keeps same_numbers (on_log (modify (purgeChange i))).
Proof. by intros t a t' [= <- <-]. Qed.
#[export] Hint Resolve keeps_on_set keeps_purge : keeps.

Lemma keeps_confirm_loop n i : keeps same_numbers (confirm_loop n i).
Proof. revert i. induction n as [|n IH]; intros i; cbn [confirm_loop]; solve_keeps. Qed.

Lemma tracker_confirm_inv n t x t' :
  tracker_confirmChange n t = Done (x, t') → startConfigurationNumber (tr_changes t) ≤ n →
  startConfigurationNumber (tr_changes t') = n + 1 ∧
  nextConfigurationNumber (tr_changes t') = nextConfigurationNumber (tr_changes t).
Proof.
  unfold tracker_confirmChange. intros Hr Hn.
  apply stm_bind_Done in Hr as (next & ? & [= <- <-] & Hr). apply stm_bind_Done in Hr as (start & ? & [= <- <-] & Hr).
  case_bool_decide; [done|]. rewrite bool_decide_eq_false_2 in Hr by lia.
  apply stm_bind_Done in Hr as (? & t1 & [Hnext _]%keeps_confirm_loop & Hr).
  apply stm_bind_Done in Hr as (m & ? & (m' & [Hm _]%checked_inv & [= -> ->])%lift_Done & Hr).
  injection Hr as <- <-. cbn. split; [lia|done].
Qed.
