(* ===== verification/GatewayFinality.v ===== *)
(** * The gateway of a child: parent finality and membership

    [TopDownFinalityFacet], the functions of [LibGateway] that it calls, and the part of the
    constructor of [GatewayDiamond] that sets this state up. *)

From Stdlib Require Import Strings.Byte.
From S2P Require Import Prelude Weights PQ ValidatorSet Abi Staking.

Record ParentFinality := MkFinality { pf_height : N; pf_blockHash : list byte }.
Definition no_finality : ParentFinality := MkFinality 0 [].

Record Validator := MkValidator { v_weight : N; v_addr : Address; v_metadata : list byte }.
Record Membership := MkMembership { m_validators : list Validator; m_configurationNumber : N }.
Definition no_membership : Membership := MkMembership [] 0.

(** The storage of the gateway that the facet uses. *)
Record GatewayActorStorage := MkGateway {
  latestParentHeight : N;
  finalitiesMap : gmap N ParentFinality;
  validatorsTracker : ParentValidatorsTracker;
  currentMembership : Membership;
  lastMembership : Membership
}.

Definition set_membership (current previous : Membership) (s : GatewayActorStorage) : GatewayActorStorage :=
  MkGateway (latestParentHeight s) (finalitiesMap s) (validatorsTracker s) current previous.
Definition set_tracker (t : ParentValidatorsTracker) (s : GatewayActorStorage) : GatewayActorStorage :=
  MkGateway (latestParentHeight s) (finalitiesMap s) t (currentMembership s) (lastMembership s).

Definition on_tracker {A} (tx : stm ParentValidatorsTracker string A) : stm GatewayActorStorage string A :=
  zoom validatorsTracker set_tracker tx.

Class GatewayEnv := {
  (** [FilAddress.isSystemActor]. *)
  isSystemActor : Address → bool;
  (** [keccak256(abi.encode(validators))], a 256-bit word. *)
  validators_hash : list Validator → N
}.

Section gateway.
Context `{GatewayEnv}.

(** ** Parent finality *)

Definition getParentFinality (s : GatewayActorStorage) (blockNumber : N) : ParentFinality :=
  default no_finality (finalitiesMap s !! blockNumber).
Definition getLatestParentFinality (s : GatewayActorStorage) : ParentFinality :=
  getParentFinality s (latestParentHeight s).

Definition lib_commitParentFinality (finality : ParentFinality) : stm GatewayActorStorage string ParentFinality :=
  lastHeight ← reads latestParentHeight;
  if bool_decide (pf_height finality ≤ lastHeight) then abort "ParentFinalityAlreadyCommitted"%string
  else
    lastFinality ← reads (λ s, getParentFinality s lastHeight);
    modify (λ s, MkGateway (pf_height finality) (<[pf_height finality := finality]> (finalitiesMap s))
      (validatorsTracker s) (currentMembership s) (lastMembership s)) ;;
    mret lastFinality.

(** ** Membership *)

Definition membershipTotalWeight (m : Membership) : outcome string N := u256_sum 0 (v_weight <$> m_validators m).

Definition membershipEqual (mb1 mb2 : Membership) : outcome string bool :=
  if negb (bool_decide (m_configurationNumber mb1 = m_configurationNumber mb2)) then Done false
  else
    w1 ← membershipTotalWeight mb1;
    w2 ← membershipTotalWeight mb2;
    if negb (bool_decide (w1 = w2)) then Done false
    else if negb (bool_decide (length (m_validators mb1) = length (m_validators mb2))) then Done false
    else Done (bool_decide (validators_hash (m_validators mb1) = validators_hash (m_validators mb2))).

(** The array in storage is overwritten, extended by [push] and cut by [pop]. *)
Fixpoint overwrite (stored : list Validator) (i storeLength : nat) (input : list Validator) : list Validator :=
  match input with
  | [] => stored
  | v :: input =>
      overwrite (if bool_decide (i < storeLength)%nat then <[i := v]> stored else stored ++ [v])
        (S i) storeLength input
  end.
Fixpoint pops (n : nat) (stored : list Validator) : list Validator :=
  match n with
  | O => stored
  | S n => pops n (take (length stored - 1) stored)
  end.

Definition store_membership (m : Membership) : stm GatewayActorStorage string unit :=
  modify (λ s,
    let stored := m_validators (currentMembership s) in
    let input := m_validators m in
    set_membership
      (MkMembership (pops (length stored - length input) (overwrite stored 0 (length stored) input))
        (m_configurationNumber m))
      (currentMembership s) s).

Definition updateMembership (m : Membership) : stm GatewayActorStorage string unit :=
  current ← reads currentMembership;
  last ← reads lastMembership;
  if bool_decide (m_configurationNumber current = 0) then store_membership m
  else if bool_decide (m_configurationNumber m = m_configurationNumber last) then mret tt
  else if bool_decide (m_configurationNumber m < m_configurationNumber last) then abort "OldConfigurationNumber"%string
  else
    equal ← lift (membershipEqual m current);
    if (equal : bool) then mret tt else store_membership m.

(** ** The facet *)

Definition systemActorOnly {A} (sender : Address) (tx : stm GatewayActorStorage string A) :
    stm GatewayActorStorage string A :=
  if negb (isSystemActor sender) then abort "NotSystemActor"%string else tx.

Definition commitParentFinality (sender : Address) (finality : ParentFinality) :
    stm GatewayActorStorage string (bool * ParentFinality) :=
  systemActorOnly sender (
    previousFinality ← lib_commitParentFinality finality;
    mret (negb (bool_decide (pf_height previousFinality = 0)), previousFinality)).

Definition storeValidatorChanges (sender : Address) (requests : list StakingChangeRequest) :
    stm GatewayActorStorage string unit :=
  systemActorOnly sender (on_tracker (batchStoreChange requests)).

(** The power table of the active validators. *)
Fixpoint power_table (set : ValidatorSet) (addresses : list N) : outcome string (list Validator) :=
  match addresses with
  | [] => Done []
  | a :: rest =>
      let info := info_of set a in
      weight ← u256_add (confirmedCollateral info) (federatedPower info);
      vs ← power_table set rest;
      Done (MkValidator weight a (metadata info) :: vs)
  end.

Definition u64_checked_sub (a b : N) : outcome string N := checked panic_arithmetic u64_size (Z.of_N a - Z.of_N b).

Definition applyFinalityChanges (sender : Address) : stm GatewayActorStorage string N :=
  systemActorOnly sender (
    next ← reads (λ s, nextConfigurationNumber (tr_changes (validatorsTracker s)));
    configurationNumber ← lift (u64_checked_sub next 1);
    start ← reads (λ s, startConfigurationNumber (tr_changes (validatorsTracker s)));
    next' ← lift (u64_checked_add configurationNumber 1);
    if bool_decide (next' = start) then mret 0
    else
      on_tracker (tracker_confirmChange configurationNumber) ;;
      set ← reads (λ s, tr_validators (validatorsTracker s));
      vs ← lift (power_table set (listActiveValidators set));
      updateMembership (MkMembership vs configurationNumber) ;;
      mret configurationNumber).

(** ** The constructor *)

Definition INITIAL_CONFIGURATION_NUMBER : N := 1.

Definition gateway_storage : GatewayActorStorage :=
  MkGateway 0 ∅ (MkTracker no_validators (MkLog 0 0 ∅)) no_membership no_membership.

Definition gateway_constructor (bottomUpCheckPeriod majorityPercentage activeValidatorsLimit : N) (genesisValidators : list Validator) :
    outcome string GatewayActorStorage :=
  if bool_decide (bottomUpCheckPeriod = 0) then Fail "InvalidSubmissionPeriod"%string
  else if bool_decide (majorityPercentage < 51) || bool_decide (100 < majorityPercentage) then Fail "InvalidMajorityPercentage"%string
  else
    let set := MkSet (permissionMode no_validators) activeValidatorsLimit (totalConfirmedCollateral no_validators)
      (validators no_validators) (activeValidators no_validators) (waitingValidators no_validators) in
    let s := set_tracker (MkTracker set (MkLog INITIAL_CONFIGURATION_NUMBER INITIAL_CONFIGURATION_NUMBER ∅)) gateway_storage in
    '(_, s) ← updateMembership (MkMembership genesisValidators 0) s;
    Done s.
End gateway.

(** ** Correctness *)

Lemma pops_take n l : pops n l = take (length l - n) l.
Proof.
  revert l. induction n as [|n IH]; intros l; cbn; [by rewrite Nat.sub_0_r, firstn_all|].
  rewrite IH, length_take, take_take. f_equal. lia.
Qed.

(** The array in storage ends up as the given one. *)
Lemma overwrite_ge stored n input i :
  (n ≤ i)%nat → overwrite stored i n input = stored ++ input.
Proof.
  revert stored i. induction input as [|v input IH]; intros stored i Hi; cbn; [by rewrite app_nil_r|].
  rewrite bool_decide_eq_false_2 by lia. rewrite IH by lia. by rewrite <-app_assoc.
Qed.

Lemma overwrite_lt pre stored input :
  overwrite (pre ++ stored) (length pre) (length (pre ++ stored)) input =
    pre ++ input ++ drop (length input) stored.
Proof.
  revert pre stored. induction input as [|v input IH]; intros pre stored; cbn; [done|].
  case_bool_decide as Hlt.
  - destruct stored as [|x stored]; [rewrite app_nil_r in Hlt; lia|].
    rewrite insert_app_r_alt, Nat.sub_diag by lia. cbn.
    specialize (IH (pre ++ [v]) stored). rewrite length_app, <-!app_assoc in IH. cbn in IH.
    rewrite Nat.add_1_r in IH. rewrite <-IH. f_equal. rewrite !length_app. done.
  - assert (stored = []) as -> by (apply nil_length_inv; rewrite length_app in Hlt; lia).
    rewrite app_nil_r, overwrite_ge by lia. rewrite drop_nil, app_nil_r, <-app_assoc. done.
Qed.

Lemma store_validators stored input :
  pops (length stored - length input) (overwrite stored 0 (length stored) input) = input.
Proof.
  pose proof (overwrite_lt [] stored input) as Hov. cbn [app length] in Hov. rewrite Hov, pops_take.
  rewrite length_app, length_drop. replace (_ - _)%nat with (length input) by lia. apply take_app_length.
Qed.

Section spec.
Context `{GatewayEnv}.
Implicit Types (s : GatewayActorStorage).

Lemma store_membership_run m s :
  store_membership m s = Done (tt, set_membership m (currentMembership s) s).
Proof. unfold store_membership, modify. rewrite store_validators. by destruct m. Qed.

Lemma constructed period majority limit gs :
  period ≠ 0 → 51 ≤ majority ≤ 100 →
  gateway_constructor period majority limit gs = Done (MkGateway 0 ∅
    (MkTracker (MkSet Collateral limit 0 ∅ pq_empty pq_empty) (MkLog 1 1 ∅)) (MkMembership gs 0) no_membership).
Proof.
  intros Hp Hm. unfold gateway_constructor. rewrite !bool_decide_eq_false_2 by lia. cbn [orb].
  unfold updateMembership. stm_unfold. cbn -[store_membership].
  rewrite bool_decide_eq_true_2 by done. by rewrite store_membership_run.
Qed.

(** The memberships are from before the changes that are still to be confirmed. *)
Record gw_inv s : Prop := {
  gi_last : m_configurationNumber (lastMembership s) ≤ m_configurationNumber (currentMembership s);
  gi_current : m_configurationNumber (currentMembership s) < startConfigurationNumber (tr_changes (validatorsTracker s));
  gi_log : startConfigurationNumber (tr_changes (validatorsTracker s)) ≤
    nextConfigurationNumber (tr_changes (validatorsTracker s)) < u64_size
}.

Lemma update_membership_run m s :
  m_configurationNumber (lastMembership s) ≤ m_configurationNumber (currentMembership s) →
  m_configurationNumber (currentMembership s) < m_configurationNumber m →
  updateMembership m s = Done (tt, set_membership m (currentMembership s) s).
Proof.
  intros Hlast Hcur. unfold updateMembership. erewrite bind_run by done. erewrite bind_run by done.
  case_bool_decide; [apply store_membership_run|].
  rewrite bool_decide_eq_false_2 by lia. rewrite bool_decide_eq_false_2 by lia.
  unfold membershipEqual. rewrite bool_decide_eq_false_2 by lia. cbn [negb].
  erewrite bind_run by done. apply store_membership_run.
Qed.

Lemma on_tracker_run {A} (tx : stm ParentValidatorsTracker string A) s a t :
  tx (validatorsTracker s) = Done (a, t) → on_tracker tx s = Done (a, set_tracker t s).
Proof. intros Htx. unfold on_tracker, zoom. by rewrite Htx. Qed.

Lemma u64_checked_sub_ok a b : b ≤ a → a < u64_size → u64_checked_sub a b = Done (a - b).
Proof. intros ??. unfold u64_checked_sub. rewrite <-N2Z.inj_sub by done. apply checked_ok. lia. Qed.
Lemma u64_checked_add_ok a b : a + b < u64_size → u64_checked_add a b = Done (a + b).
Proof. intros ?. unfold u64_checked_add. rewrite <-N2Z.inj_add. by apply checked_ok. Qed.

(** Applying the changes once they have been confirmed in the tracker. *)
Lemma apply_changes_run sender s t vs :
  isSystemActor sender = true → gw_inv s →
  let n := nextConfigurationNumber (tr_changes (validatorsTracker s)) - 1 in
  startConfigurationNumber (tr_changes (validatorsTracker s)) ≤ n →
  tracker_confirmChange n (validatorsTracker s) = Done (tt, t) →
  power_table (tr_validators t) (listActiveValidators (tr_validators t)) = Done vs →
  applyFinalityChanges sender s =
    Done (n, set_membership (MkMembership vs n) (currentMembership s) (set_tracker t s)).
Proof.
  intros Hsys [Hlast Hcur Hlog] n Hn Hconf Hvs. unfold applyFinalityChanges, systemActorOnly. rewrite Hsys. cbn [negb].
  erewrite bind_run by done. erewrite bind_run by (unfold lift; by rewrite u64_checked_sub_ok by lia).
  fold n. erewrite bind_run by done. erewrite bind_run by (unfold lift; by rewrite u64_checked_add_ok by lia).
  rewrite bool_decide_eq_false_2 by lia. erewrite bind_run by by apply on_tracker_run.
  erewrite bind_run by done. change (validatorsTracker (set_tracker t s)) with t.
  erewrite bind_run by (unfold lift; by rewrite Hvs).
  erewrite bind_run by (apply update_membership_run; cbn; lia). done.
Qed.
End spec.

(** The first change from the parent, in a subnet that has just been created. *)
Definition first_deposit (v : Address) (amount : N) : list StakingChangeRequest :=
  [MkRequest (MkChange Deposit (encode_uint amount) v) 1].

Lemma deposit_alone limit v amount :
  1 ≤ limit < 32768 → 0 < amount < u256_size →
  ∃ set, track_change (MkChange Deposit (encode_uint amount) v) (MkSet Collateral limit 0 ∅ pq_empty pq_empty) =
      Done (tt, set) ∧ listActiveValidators set = [v] ∧ info_of set v = MkInfo 0 amount 0 [].
Proof.
  intros Hlim Ham. set (set0 := MkSet Collateral limit 0 ∅ pq_empty pq_empty).
  destruct (change_applied set0 (Deposited v amount)) as (set & Hr & Hinv & Hp).
  { by apply init_inv. }
  { split_and!; cbn; [done|lia|lia|done]. }
  exists set. split; [|split].
  - unfold track_change. cbn [change_op change_payload change_validator].
    erewrite bind_run by (unfold lift; by rewrite decode_encode_uint by lia). exact Hr.
  - apply only_active; [done| |].
    + rewrite Hp. cbn. rewrite bool_decide_eq_true_2 by done. lia.
    + intros a Ha. rewrite Hp. cbn. rewrite bool_decide_eq_false_2 by done. unfold getPower, info_of. cbn.
      by rewrite lookup_empty.
  - apply deposit_info in Hr as (Hv & _). unfold info_of. rewrite Hv, lookup_insert_eq. done.
Qed.

(** The constructor of the gateway sets the membership to the genesis
    validators but does not put them into the tracker of the validators, so that the first
    change of the parent replaces the whole genesis membership by the one validator it is about. *)
Lemma genesis_membership_lost `{GatewayEnv} sender period majority limit gs v amount :
  period ≠ 0 → 51 ≤ majority ≤ 100 → isSystemActor sender = true → 1 ≤ limit < 32768 → 0 < amount < u256_size →
  ∃ s0 s1 s2, gateway_constructor period majority limit gs = Done s0 ∧ m_validators (currentMembership s0) = gs ∧
    storeValidatorChanges sender (first_deposit v amount) s0 = Done (tt, s1) ∧
    applyFinalityChanges sender s1 = Done (1, s2) ∧
    currentMembership s2 = MkMembership [MkValidator amount v []] 1.
Proof.
  intros Hp Hm Hsys Hlim Ham. destruct (deposit_alone limit v amount Hlim Ham) as (set & Hr & Hact & Hinfo).
  rewrite constructed by done. eexists _, _, _. split; [done|]. split; [done|].
  split; [|split].
  - unfold storeValidatorChanges, systemActorOnly. rewrite Hsys. cbn [negb]. apply on_tracker_run.
    cbn [batchStoreChange first_deposit validatorsTracker]. erewrite bind_run by by apply store_run. done.
  - eapply apply_changes_run; [done|split; cbn; lia|cbn; lia| |].
    + apply tracker_confirm_run; [cbn; lia|cbn; lia|]. cbn [tr_validators].
      change (changes_from _ _ _) with [MkChange Deposit (encode_uint amount) v]. cbn [track_changes].
      erewrite bind_run by exact Hr. done.
    + cbn [tr_validators]. rewrite Hact. cbn [power_table]. rewrite Hinfo. cbn [confirmedCollateral federatedPower].
      rewrite u256_add_ok by lia. done.
  - cbn. by rewrite N.add_0_r.
Qed.

(** Applying the changes that the parent's finality has brought makes
    the power table of the active validators of the tracker the membership, under the number
    of the last change, and leaves no change to be confirmed. *)
Lemma finality_changes_applied `{GatewayEnv} sender s n s' :
  gw_inv s → applyFinalityChanges sender s = Done (n, s') → n ≠ 0 →
  gw_inv s' ∧ n + 1 = nextConfigurationNumber (tr_changes (validatorsTracker s)) ∧
  startConfigurationNumber (tr_changes (validatorsTracker s')) = n + 1 ∧
  m_configurationNumber (currentMembership s') = n ∧ lastMembership s' = currentMembership s ∧
  power_table (tr_validators (validatorsTracker s')) (listActiveValidators (tr_validators (validatorsTracker s'))) =
    Done (m_validators (currentMembership s')).
Proof.
  intros [Hlast Hcur Hlog] Hr Hn. unfold applyFinalityChanges, systemActorOnly in Hr.
  destruct (isSystemActor sender); [|done]. cbn [negb] in Hr.
  apply stm_bind_Done in Hr as (next & ? & [= <- <-] & Hr).
  apply stm_bind_Done in Hr as (cn & ? & (? & [Hc _]%checked_inv & [= -> ->])%lift_Done & Hr).
  apply stm_bind_Done in Hr as (start & ? & [= <- <-] & Hr).
  apply stm_bind_Done in Hr as (next' & ? & (? & [Hc' _]%checked_inv & [= -> ->])%lift_Done & Hr).
  case_bool_decide as Hsome; [by injection Hr as <- <-|].
  apply stm_bind_Done in Hr as (? & s1 & Hconf & Hr). unfold on_tracker, zoom in Hconf.
  destruct (tracker_confirmChange _ _) as [[[] t]| | | |] eqn:Ht; try done. injection Hconf as <- <-.
  apply tracker_confirm_inv in Ht as [Hstart Hnext]; [|lia].
  apply stm_bind_Done in Hr as (set & ? & [= <- <-] & Hr).
  apply stm_bind_Done in Hr as (vs & ? & (? & Hvs & [= -> ->])%lift_Done & Hr).
  erewrite bind_run in Hr by (apply update_membership_run; cbn; lia). injection Hr as <- <-.
  split; [split; cbn; lia|]. split_and!; cbn; try done. lia.
Qed.

(** ** Parent finalities *)

(** The committed finalities are found at their heights, none of them above the latest. *)
Definition fin_inv (s : GatewayActorStorage) : Prop :=
  (∀ h f, finalitiesMap s !! h = Some f → pf_height f = h ∧ 0 < h ≤ latestParentHeight s) ∧
  (latestParentHeight s ≠ 0 → is_Some (finalitiesMap s !! latestParentHeight s)).

Lemma fin_inv_latest s : fin_inv s → pf_height (getLatestParentFinality s) = latestParentHeight s.
Proof.
  intros [Hall Hlatest]. unfold getLatestParentFinality, getParentFinality.
  destruct (finalitiesMap s !! latestParentHeight s) as [f|] eqn:Hf; cbn; [by apply Hall in Hf as [??]|].
  destruct (decide (latestParentHeight s = 0)) as [Hz|Hz]; [done|]. destruct (Hlatest Hz). done.
Qed.

Lemma commit_finality_spec `{GatewayEnv} sender f s :
  isSystemActor sender = true → fin_inv s →
  if bool_decide (pf_height f ≤ latestParentHeight s)
  then commitParentFinality sender f s = Fail "ParentFinalityAlreadyCommitted"%string
  else ∃ s', commitParentFinality sender f s =
      Done ((negb (bool_decide (latestParentHeight s = 0)), getLatestParentFinality s), s') ∧
    fin_inv s' ∧ getLatestParentFinality s' = f ∧
    ∀ h, h ≠ pf_height f → getParentFinality s' h = getParentFinality s h.
Proof.
  intros Hsys Hinv. unfold commitParentFinality, systemActorOnly, lib_commitParentFinality. rewrite Hsys. cbn [negb].
  stm_unfold. case_bool_decide as Hle; [done|]. eexists. split; [|split; [|split]].
  - fold (getLatestParentFinality s). by rewrite (fin_inv_latest s Hinv).
  - split; cbn.
    + intros h g [[<- <-]|[Hne Hg]]%lookup_insert_Some; [split; [done|lia]|].
      apply Hinv in Hg as [Hg ?]. split; [done|lia].
    + intros _. rewrite lookup_insert_eq. by eexists.
  - unfold getLatestParentFinality, getParentFinality. cbn. by rewrite lookup_insert_eq.
  - intros h Hh. unfold getParentFinality. cbn. by rewrite lookup_insert_ne.
Qed.

(** ** Examples *)

Module SampleGateway.
#[export] Instance sample_gateway : GatewayEnv := {|
  isSystemActor a := bool_decide (a = 1);
  validators_hash vs := sumN (v_weight <$> vs)
|}.

Definition genesis : list Validator := [MkValidator 10 7 []; MkValidator 20 8 []].

Definition assign (v power n : N) : StakingChangeRequest :=
  MkRequest (MkChange SetFederatedPower (encode_bytes_uint [] power) v) n.
Definition assignments : list StakingChangeRequest := [assign 7 10 1; assign 8 5 2].

(** The active validators of the subnet actor after the changes, and the members of the child. *)
Definition parent_active (mode : PermissionMode) (limit : N) (rs : list StakingChangeRequest) : option (list N) :=
  match track_changes (request_change <$> rs) (MkSet mode limit 0 ∅ pq_empty pq_empty) with
  | Done (_, set) => Some (listActiveValidators set)
  | _ => None
  end.
Definition child_members (limit : N) (rs : list StakingChangeRequest) : option (list N) :=
  match gateway_constructor 10 67 limit [] with
  | Done s0 =>
      match (storeValidatorChanges 1 rs ;; applyFinalityChanges 1) s0 with
      | Done (_, s) => Some (v_addr <$> m_validators (currentMembership s))
      | _ => None
      end
  | _ => None
  end.
End SampleGateway.
Import SampleGateway.

Lemma genesis_membership_lost_witness :
  ∃ s0 s1 s2, gateway_constructor 10 67 3 genesis = Done s0 ∧ m_validators (currentMembership s0) = genesis ∧
    storeValidatorChanges 1 (first_deposit 9 5) s0 = Done (tt, s1) ∧
    applyFinalityChanges 1 s1 = Done (1, s2) ∧ currentMembership s2 = MkMembership [MkValidator 5 9 []] 1.
Proof. apply genesis_membership_lost; [done|done|done|lia|done]. Defined.

(** The tracker of the child is never told that a subnet is
    federated, and orders validators by collateral, of which there is none: with one place,
    the subnet actor of the parent keeps the validator with the greater assigned power, and
    the gateway of the child the one that was assigned last. *)
Lemma federated_members_diverge :
  parent_active Federated 1 assignments = Some [7] ∧ child_members 1 assignments = Some [8].
Proof. vm_compute. done. Qed.

Definition applied_gateway : GatewayActorStorage :=
  match gateway_constructor 10 67 3 genesis with
  | Done s0 => match storeValidatorChanges 1 (first_deposit 9 5) s0 with Done (_, s) => s | _ => s0 end
  | _ => gateway_storage
  end.
Definition applied_result : GatewayActorStorage :=
  match applyFinalityChanges 1 applied_gateway with Done (_, s) => s | _ => gateway_storage end.

Lemma finality_changes_applied_witness :
  gw_inv applied_result ∧ 1 + 1 = nextConfigurationNumber (tr_changes (validatorsTracker applied_gateway)) ∧
  startConfigurationNumber (tr_changes (validatorsTracker applied_result)) = 1 + 1 ∧
  m_configurationNumber (currentMembership applied_result) = 1 ∧
  lastMembership applied_result = currentMembership applied_gateway ∧
  power_table (tr_validators (validatorsTracker applied_result))
    (listActiveValidators (tr_validators (validatorsTracker applied_result))) =
    Done (m_validators (currentMembership applied_result)).
Proof.
  apply (finality_changes_applied 1 applied_gateway 1 applied_result); [|vm_compute; reflexivity|done].
  split; vm_compute; done.
Defined.

(** A configuration number is compared with that of the membership before the current one: one
    between the two is from the past and is not rejected. *)
Example membership_goes_back :
  updateMembership (MkMembership [] 4) (set_membership (MkMembership genesis 5) (MkMembership [] 3) gateway_storage) =
    Done (tt, set_membership (MkMembership [] 4) (MkMembership genesis 5) gateway_storage).
Proof. done. Qed.
