(* ===== verification/SubnetActor.v ===== *)
(** * The subnet actor

    [SubnetActorManagerFacet], [SubnetActorRewardFacet], [SubnetActorPauseFacet] with
    [LibSubnetActor] and [LibStaking] of [contracts/src], and the functions of
    [GatewayManagerFacet] that the subnet actor calls.  The state is that of the chain that
    the contracts run on: the storage of the actor, the entry of its subnet in the gateway, the
    balances of all accounts, and the number of the block.

    A recipient of funds either takes them or rejects them, and does not call back.
    [EnumerableSet]s are sets. *)

From Stdlib Require Import Strings.Byte.
From S2P Require Import Prelude Weights PQ ValidatorSet Abi Staking GatewayFinality.

(** ** State *)

Record ActorParams := MkParams {
  minActivationCollateral : N;
  bottomUpCheckPeriod : N;
  maxMsgsPerBottomUpBatch : N;
  majorityPercentage : N;
  minValidators : N
}.

Record Genesis := MkGenesis {
  genesisCircSupply : N;
  genesisValidators : list Validator;
  genesisBalance : gmap N N;
  genesisBalanceKeys : list N
}.

Record SubnetActorStorage := MkActor {
  params : ActorParams;
  bootstrapped : bool;
  killed : bool;
  paused : bool;
  genesis : Genesis;
  validatorSet : ValidatorSet;
  changeSet : StakingChangeLog;
  releaseQueue : StakingReleaseQueue;
  bootstrapNodes : gmap N string;
  bootstrapOwners : gset N
}.

(** The entry of the subnet in the gateway. *)
Record Subnet := MkSubnet {
  sub_stake : N;
  sub_genesisEpoch : N;
  sub_circSupply : N
}.

Record World := MkWorld {
  actor : SubnetActorStorage;
  registered : option Subnet;
  balances : gmap N N;
  block_number : N
}.

Class ActorEnv := {
  (** The addresses of the subnet actor, of the gateway and of the owner of the subnet. *)
  this_actor : Address;
  ipcGatewayAddr : Address;
  contractOwner : Address;
  (** Whether a recipient takes funds that are sent to it. *)
  accepts : Address → N → bool;
  keccak256 : list byte → N;
  (** The depth of the network of the gateway, and the limit on it. *)
  networkDepth : N;
  maxTreeDepth : N
}.

Definition set_actor (f : SubnetActorStorage → SubnetActorStorage) (w : World) : World :=
  MkWorld (f (actor w)) (registered w) (balances w) (block_number w).
Definition set_registered (r : option Subnet) (w : World) : World :=
  MkWorld (actor w) r (balances w) (block_number w).
Definition set_balances (b : gmap N N) (w : World) : World :=
  MkWorld (actor w) (registered w) b (block_number w).

Definition set_flags (b k p : bool) (s : SubnetActorStorage) : SubnetActorStorage :=
  MkActor (params s) b k p (genesis s) (validatorSet s) (changeSet s) (releaseQueue s) (bootstrapNodes s) (bootstrapOwners s).
Definition set_genesis (g : Genesis) (s : SubnetActorStorage) : SubnetActorStorage :=
  MkActor (params s) (bootstrapped s) (killed s) (paused s) g (validatorSet s) (changeSet s) (releaseQueue s)
    (bootstrapNodes s) (bootstrapOwners s).
Definition set_vset (v : ValidatorSet) (s : SubnetActorStorage) : SubnetActorStorage :=
  MkActor (params s) (bootstrapped s) (killed s) (paused s) (genesis s) v (changeSet s) (releaseQueue s)
    (bootstrapNodes s) (bootstrapOwners s).
Definition set_log (l : StakingChangeLog) (s : SubnetActorStorage) : SubnetActorStorage :=
  MkActor (params s) (bootstrapped s) (killed s) (paused s) (genesis s) (validatorSet s) l (releaseQueue s)
    (bootstrapNodes s) (bootstrapOwners s).
Definition set_queue (q : StakingReleaseQueue) (s : SubnetActorStorage) : SubnetActorStorage :=
  MkActor (params s) (bootstrapped s) (killed s) (paused s) (genesis s) (validatorSet s) (changeSet s) q
    (bootstrapNodes s) (bootstrapOwners s).
Definition set_nodes (n : gmap N string) (o : gset N) (s : SubnetActorStorage) : SubnetActorStorage :=
  MkActor (params s) (bootstrapped s) (killed s) (paused s) (genesis s) (validatorSet s) (changeSet s) (releaseQueue s) n o.

Definition on_vset {A} (tx : stm ValidatorSet string A) : stm World string A :=
  zoom (λ w, validatorSet (actor w)) (λ v, set_actor (set_vset v)) tx.
Definition on_changes {A} (tx : stm StakingChangeLog string A) : stm World string A :=
  zoom (λ w, changeSet (actor w)) (λ l, set_actor (set_log l)) tx.
Definition on_queue {A} (tx : stm StakingReleaseQueue string A) : stm World string A :=
  zoom (λ w, releaseQueue (actor w)) (λ q, set_actor (set_queue q)) tx.
Definition on_genesis (f : Genesis → Genesis) : stm World string unit :=
  modify (set_actor (λ s, set_genesis (f (genesis s)) s)).

(** ** Funds *)

Definition balance (w : World) (a : Address) : N := default 0 (balances w !! a).

Definition move (from to amount : N) (b : gmap N N) : gmap N N :=
  let b := <[from := default 0 (b !! from) - amount]> b in
  <[to := default 0 (b !! to) + amount]> b.

(** The value of a call is moved before the call runs. *)
Definition pay (from to amount : N) : stm World string unit :=
  have ← reads (λ w, balance w from);
  if bool_decide (have < amount) then abort "insufficient balance"%string
  else modify (λ w, set_balances (move from to amount (balances w)) w).

Section actor.
Context `{ActorEnv}.

(** [Address.sendValue]. *)
Definition sendValue (from to amount : N) : stm World string unit :=
  have ← reads (λ w, balance w from);
  if bool_decide (have < amount) then abort "AddressInsufficientBalance"%string
  else if negb (accepts to amount) then abort "FailedInnerCall"%string
  else pay from to amount.

(** ** The gateway *)

Definition gw_register (value circ : N) : stm World string unit :=
  pay this_actor ipcGatewayAddr value ;;
  if bool_decide (maxTreeDepth ≤ networkDepth + 1) then abort "MethodNotAllowed"%string
  else if bool_decide (value < circ) then abort "NotEnoughFunds"%string
  else
    sub ← reads registered;
    match sub with
    | Some _ => abort "AlreadyRegisteredSubnet"%string
    | None => modify (λ w, set_registered (Some (MkSubnet (value - circ) (block_number w) circ)) w)
    end.

Definition gw_addStake (value : N) : stm World string unit :=
  pay this_actor ipcGatewayAddr value ;;
  if bool_decide (value = 0) then abort "NotEnoughFunds"%string
  else
    sub ← reads registered;
    match sub with
    | None => abort "NotRegisteredSubnet"%string
    | Some sub =>
        stake ← lift (u256_add (sub_stake sub) value);
        modify (set_registered (Some (MkSubnet stake (sub_genesisEpoch sub) (sub_circSupply sub))))
    end.

Definition gw_releaseStake (amount : N) : stm World string unit :=
  if bool_decide (amount = 0) then abort "CannotReleaseZero"%string
  else
    sub ← reads registered;
    match sub with
    | None => abort "NotRegisteredSubnet"%string
    | Some sub =>
        if bool_decide (sub_stake sub < amount) then abort "NotEnoughFundsToRelease"%string
        else
          stake ← lift (u256_sub (sub_stake sub) amount);
          modify (set_registered (Some (MkSubnet stake (sub_genesisEpoch sub) (sub_circSupply sub)))) ;;
          pay ipcGatewayAddr this_actor amount
    end.

Definition gw_kill : stm World string unit :=
  sub ← reads registered;
  match sub with
  | None => abort "NotRegisteredSubnet"%string
  | Some sub =>
      if negb (bool_decide (sub_circSupply sub = 0)) then abort "NotEmptySubnetCircSupply"%string
      else
        modify (set_registered None) ;;
        pay ipcGatewayAddr this_actor (sub_stake sub)
  end.

(** ** [LibStaking] *)

Definition totalValidatorCollateral (w : World) (v : Address) : N := totalCollateral (info_of (validatorSet (actor w)) v).
Definition isValidator (w : World) (v : Address) : bool := negb (bool_decide (totalValidatorCollateral w v = 0)).

(** A genesis validator, unless the address is one already. *)
Definition add_genesis_validator (v : Address) : stm World string unit :=
  modify (set_actor (λ s,
    let g := genesis s in
    if bool_decide (v ∈ (v_addr <$> genesisValidators g)) then s
    else
      let info := info_of (validatorSet s) v in
      set_genesis (MkGenesis (genesisCircSupply g)
        (genesisValidators g ++ [MkValidator (confirmedCollateral info) v (metadata info)])
        (genesisBalance g) (genesisBalanceKeys g)) s)).

Definition depositWithConfirm (v : Address) (amount : N) : stm World string unit :=
  on_vset (recordDeposit v amount) ;;
  on_vset (confirmDeposit v amount) ;;
  boot ← reads (λ w, bootstrapped (actor w));
  if (boot : bool) then mret tt else add_genesis_validator v.

Definition withdrawWithConfirm (v : Address) (amount : N) : stm World string unit :=
  on_vset (recordWithdraw v amount) ;;
  on_vset (confirmWithdraw v amount) ;;
  sendValue this_actor v amount.

Definition deposit (v : Address) (amount : N) : stm World string unit :=
  on_changes (depositRequest v amount) ;;
  on_vset (recordDeposit v amount).

Definition withdraw (v : Address) (amount : N) : stm World string unit :=
  on_changes (withdrawRequest v amount) ;;
  on_vset (recordWithdraw v amount).

Definition claimCollateral (v : Address) : stm World string N :=
  now ← reads block_number;
  amount ← on_queue (claim now v);
  sendValue this_actor v amount ;;
  mret amount.

(** One change of the log. *)
Definition confirm_one (c : StakingChange) : stm World string unit :=
  let v := change_validator c in
  match change_op c with
  | SetMetadata => on_vset (setMetadata v (change_payload c))
  | SetFederatedPower =>
      r ← lift (decode_bytes_uint (change_payload c));
      let '(md, power) := r in
      on_vset (setMetadata v md) ;;
      on_vset (confirmFederatedPower v power)
  | Withdraw =>
      amount ← lift (decode_uint (change_payload c));
      on_vset (confirmWithdraw v amount) ;;
      now ← reads block_number;
      on_queue (addNewRelease now v amount) ;;
      gw_releaseStake amount
  | Deposit =>
      amount ← lift (decode_uint (change_payload c));
      on_vset (confirmDeposit v amount) ;;
      gw_addStake amount
  end.

Fixpoint confirm_changes (n : nat) (i : N) : stm World string unit :=
  match n with
  | O => mret tt
  | S n =>
      change ← reads (λ w, getChange i (changeSet (actor w)));
      confirm_one change ;;
      on_changes (modify (purgeChange i)) ;;
      confirm_changes n (i + 1)
  end.

Definition confirmChange (configurationNumber : N) : stm World string unit :=
  next ← reads (λ w, nextConfigurationNumber (changeSet (actor w)));
  start ← reads (λ w, startConfigurationNumber (changeSet (actor w)));
  if bool_decide (next ≤ configurationNumber) then abort "CannotConfirmFutureChanges"%string
  else if bool_decide (configurationNumber < start) then mret tt
  else
    confirm_changes (N.to_nat (configurationNumber + 1 - start)) start ;;
    next ← lift (u64_checked_add configurationNumber 1);
    on_changes (modify (set_start next)).

(** ** [LibSubnetActor] *)

Definition ERR_PERMISSIONED_AND_BOOTSTRAPPED : string := "Method not allowed if permissioned is enabled and subnet bootstrapped".

Definition enforce_mode (mode : PermissionMode) : stm World string unit :=
  m ← reads (λ w, permissionMode (validatorSet (actor w)));
  if bool_decide (m = mode) then mret tt else abort ERR_PERMISSIONED_AND_BOOTSTRAPPED.
Definition enforceCollateralValidation : stm World string unit := enforce_mode Collateral.
Definition enforceFederatedValidation : stm World string unit := enforce_mode Federated.

Definition set_bootstrapped : stm World string unit :=
  modify (set_actor (λ s, set_flags true (killed s) (paused s) s)).

Definition bootstrapSubnetIfNeeded : stm World string unit :=
  s ← reads actor;
  let total := totalConfirmedCollateral (validatorSet s) in
  if bool_decide (minActivationCollateral (params s) ≤ total) &&
     bool_decide (minValidators (params s) ≤ pq_size (activeValidators (validatorSet s)))
  then
    set_bootstrapped ;;
    let circ := genesisCircSupply (genesis s) in
    value ← lift (u256_add total circ);
    gw_register value circ
  else mret tt.

Definition publicKeyToAddress (publicKey : list byte) : outcome string N :=
  if bool_decide (length publicKey = 65%nat) then Done (keccak256 (drop 1 publicKey) `mod` 2 ^ 160)
  else Fail "assert"%string.

Fixpoint preBootstrap_loop (l : list (Address * list byte * N)) : stm World string unit :=
  match l with
  | [] => mret tt
  | (v, key, power) :: l =>
      converted ← lift (publicKeyToAddress key);
      if negb (bool_decide (converted = v)) then abort "NotOwnerOfPublicKey"%string
      else
        have ← reads (λ w, getPower (validatorSet (actor w)) v);
        if bool_decide (0 < have) then abort "DuplicatedGenesisValidator"%string
        else
          on_vset (setMetadata v key) ;;
          on_vset (confirmFederatedPower v power) ;;
          on_genesis (λ g, MkGenesis (genesisCircSupply g) (genesisValidators g ++ [MkValidator power v key])
            (genesisBalance g) (genesisBalanceKeys g)) ;;
          preBootstrap_loop l
  end.

Definition preBootstrapSetFederatedPower (l : list (Address * list byte * N)) : stm World string unit :=
  least ← reads (λ w, minValidators (params (actor w)));
  if bool_decide (N.of_nat (length l) ≤ least) then abort "NotEnoughGenesisValidators"%string
  else
    preBootstrap_loop l ;;
    set_bootstrapped ;;
    circ ← reads (λ w, genesisCircSupply (genesis (actor w)));
    gw_register circ circ.

Fixpoint postBootstrapSetFederatedPower (l : list (Address * list byte * N)) : stm World string unit :=
  match l with
  | [] => mret tt
  | (v, key, power) :: l =>
      converted ← lift (publicKeyToAddress key);
      if negb (bool_decide (converted = v)) then abort "NotOwnerOfPublicKey"%string
      else
        on_changes (federatedPowerRequest v key power) ;;
        postBootstrapSetFederatedPower l
  end.

(** The key is overwritten by the last one, which is then dropped. *)
Definition rmAddressFromBalanceKey (addr : Address) (keys : list N) : list N :=
  match list_find (λ k, k = addr) keys with
  | Some (i, _) => take (length keys - 1) (<[i := default 0 (last keys)]> keys)
  | None => keys
  end.

(** ** The facets *)

Definition notKilled : stm World string unit :=
  k ← reads (λ w, killed (actor w));
  if (k : bool) then abort "SubnetAlreadyKilled"%string else mret tt.
Definition whenNotPaused : stm World string unit :=
  p ← reads (λ w, paused (actor w));
  if (p : bool) then abort "EnforcedPause"%string else mret tt.
Definition enforceIsContractOwner (sender : Address) : stm World string unit :=
  if bool_decide (sender = contractOwner) then mret tt else abort "NotOwner"%string.

Definition genesis_balance (w : World) (a : Address) : N := default 0 (genesisBalance (genesis (actor w)) !! a).

Definition preFund (sender value : N) : stm World string unit :=
  pay sender this_actor value ;;
  if bool_decide (value = 0) then abort "NotEnoughFunds"%string
  else
    boot ← reads (λ w, bootstrapped (actor w));
    if (boot : bool) then abort "SubnetAlreadyBootstrapped"%string
    else
      have ← reads (λ w, genesis_balance w sender);
      circ ← reads (λ w, genesisCircSupply (genesis (actor w)));
      have' ← lift (u256_add have value);
      circ' ← lift (u256_add circ value);
      on_genesis (λ g, MkGenesis circ' (genesisValidators g) (<[sender := have']> (genesisBalance g))
        (if bool_decide (have = 0) then genesisBalanceKeys g ++ [sender] else genesisBalanceKeys g)).

Definition preRelease (sender amount : N) : stm World string unit :=
  if bool_decide (amount = 0) then abort "NotEnoughFunds"%string
  else
    boot ← reads (λ w, bootstrapped (actor w));
    if (boot : bool) then abort "SubnetAlreadyBootstrapped"%string
    else
      have ← reads (λ w, genesis_balance w sender);
      if bool_decide (have < amount) then abort "NotEnoughBalance"%string
      else
        circ ← reads (λ w, genesisCircSupply (genesis (actor w)));
        have' ← lift (u256_sub have amount);
        circ' ← lift (u256_sub circ amount);
        on_genesis (λ g, MkGenesis circ' (genesisValidators g) (<[sender := have']> (genesisBalance g))
          (if bool_decide (have' = 0) then rmAddressFromBalanceKey sender (genesisBalanceKeys g)
           else genesisBalanceKeys g)) ;;
        sendValue this_actor sender amount.

Definition setFederatedPower (sender : Address) (vs : list Address) (keys : list (list byte)) (powers : list N) :
    stm World string unit :=
  notKilled ;;
  enforceIsContractOwner sender ;;
  enforceFederatedValidation ;;
  if negb (bool_decide (length vs = length powers)) then abort "InvalidFederationPayload"%string
  else if negb (bool_decide (length vs = length keys)) then abort "InvalidFederationPayload"%string
  else
    let l := zip (zip vs keys) powers in
    boot ← reads (λ w, bootstrapped (actor w));
    if (boot : bool) then postBootstrapSetFederatedPower l else preBootstrapSetFederatedPower l.

Definition join (sender value : N) (publicKey : list byte) : stm World string unit :=
  pay sender this_actor value ;;
  whenNotPaused ;;
  notKilled ;;
  boot ← reads (λ w, bootstrapped (actor w));
  (if (boot : bool) then enforceCollateralValidation else mret tt) ;;
  if bool_decide (value = 0) then abort "CollateralIsZero"%string
  else
    joined ← reads (λ w, isValidator w sender);
    if (joined : bool) then abort "ERR_VALIDATOR_JOINED"%string
    else if negb (bool_decide (length publicKey = 65%nat)) then abort "InvalidPublicKeyLength"%string
    else
      converted ← lift (publicKeyToAddress publicKey);
      if negb (bool_decide (converted = sender)) then abort "NotOwnerOfPublicKey"%string
      else if negb boot then
        on_vset (setMetadata sender publicKey) ;;
        depositWithConfirm sender value ;;
        bootstrapSubnetIfNeeded
      else
        on_changes (metadataRequest sender publicKey) ;;
        deposit sender value.

Definition stake (sender value : N) : stm World string unit :=
  pay sender this_actor value ;;
  whenNotPaused ;;
  notKilled ;;
  enforceCollateralValidation ;;
  if bool_decide (value = 0) then abort "CollateralIsZero"%string
  else
    joined ← reads (λ w, isValidator w sender);
    if negb joined then abort "ERR_VALIDATOR_NOT_JOINED"%string
    else
      boot ← reads (λ w, bootstrapped (actor w));
      if negb boot then
        depositWithConfirm sender value ;;
        bootstrapSubnetIfNeeded
      else deposit sender value.

Definition unstake (sender amount : N) : stm World string unit :=
  whenNotPaused ;;
  notKilled ;;
  enforceCollateralValidation ;;
  if bool_decide (amount = 0) then abort "CannotReleaseZero"%string
  else
    collateral ← reads (λ w, totalValidatorCollateral w sender);
    if bool_decide (collateral = 0) then abort "NotValidator"%string
    else if bool_decide (collateral ≤ amount) then abort "NotEnoughCollateral"%string
    else
      boot ← reads (λ w, bootstrapped (actor w));
      if negb boot then withdrawWithConfirm sender amount else withdraw sender amount.

(** The initial balance of a validator that leaves is paid out, and no longer counted in the
    circulating supply; the line that is to clear it compares it instead. *)
Definition return_genesis_balance (sender : Address) : stm World string unit :=
  have ← reads (λ w, genesis_balance w sender);
  if bool_decide (have = 0) then mret tt
  else
    circ ← reads (λ w, genesisCircSupply (genesis (actor w)));
    circ' ← lift (u256_sub circ have);
    on_genesis (λ g, MkGenesis circ' (genesisValidators g) (genesisBalance g)
      (rmAddressFromBalanceKey sender (genesisBalanceKeys g))) ;;
    sendValue this_actor sender have.

Definition leave (sender : Address) : stm World string unit :=
  whenNotPaused ;;
  notKilled ;;
  boot ← reads (λ w, bootstrapped (actor w));
  (if (boot : bool) then enforceCollateralValidation else mret tt) ;;
  amount ← reads (λ w, totalValidatorCollateral w sender);
  if bool_decide (amount = 0) then abort "NotValidator"%string
  else
    modify (set_actor (λ s, set_nodes (delete sender (bootstrapNodes s)) (bootstrapOwners s ∖ {[sender]}) s)) ;;
    if negb boot then
      return_genesis_balance sender ;;
      withdrawWithConfirm sender amount
    else withdraw sender amount.

Definition kill : stm World string unit :=
  notKilled ;;
  s ← reads actor;
  n ← lift (u16_add (pq_size (waitingValidators (validatorSet s))) (pq_size (activeValidators (validatorSet s))));
  if negb (bool_decide (n = 0)) then abort "NotAllValidatorsHaveLeft"%string
  else if negb (bootstrapped s) then abort "SubnetNotBootstrapped"%string
  else
    modify (set_actor (λ s, set_flags (bootstrapped s) true (paused s) s)) ;;
    gw_kill.

Definition addBootstrapNode (sender : Address) (netAddress : string) : stm World string unit :=
  whenNotPaused ;;
  active ← reads (λ w, isActiveValidator (validatorSet (actor w)) sender);
  if negb active then abort "NotValidator"%string
  else if bool_decide (netAddress = ""%string) then abort "EmptyAddress"%string
  else modify (set_actor (λ s,
    set_nodes (<[sender := netAddress]> (bootstrapNodes s)) ({[sender]} ∪ bootstrapOwners s) s)).

Definition claim_reward (sender : Address) : stm World string unit :=
  whenNotPaused ;;
  claimCollateral sender ;;
  mret tt.

Definition pause (sender : Address) : stm World string unit :=
  enforceIsContractOwner sender ;;
  whenNotPaused ;;
  modify (set_actor (λ s, set_flags (bootstrapped s) (killed s) true s)).
Definition unpause (sender : Address) : stm World string unit :=
  enforceIsContractOwner sender ;;
  p ← reads (λ w, paused (actor w));
  if negb p then abort "ExpectedPause"%string
  else modify (set_actor (λ s, set_flags (bootstrapped s) (killed s) false s)).

(** ** The constructor

    Of [SubnetActorDiamond], for a subnet whose supply is the native coin. *)

Record ConstructorParams := MkConstructor {
  cp_minActivationCollateral : N;
  cp_minValidators : N;
  cp_bottomUpCheckPeriod : N;
  cp_activeValidatorsLimit : N;
  cp_majorityPercentage : N;
  cp_powerScale : Z;
  cp_permissionMode : PermissionMode
}.

Definition MAX_MSGS_PER_BATCH : N := 10.

Definition actor_constructor (p : ConstructorParams) : outcome string SubnetActorStorage :=
  if bool_decide (ipcGatewayAddr = 0) then Fail "GatewayCannotBeZero"%string
  else if bool_decide (cp_bottomUpCheckPeriod p = 0) then Fail "InvalidSubmissionPeriod"%string
  else if negb (bool_decide (cp_permissionMode p = Federated)) && bool_decide (cp_minActivationCollateral p = 0)
  then Fail "InvalidCollateral"%string
  else if bool_decide (cp_majorityPercentage p < 51) || bool_decide (100 < cp_majorityPercentage p)
  then Fail "InvalidMajorityPercentage"%string
  else if bool_decide (18 < cp_powerScale p)%Z then Fail "InvalidPowerScale"%string
  else
    let collateral := if bool_decide (cp_permissionMode p = Federated) then 0 else cp_minActivationCollateral p in
    Done (MkActor
      (MkParams collateral (cp_bottomUpCheckPeriod p) MAX_MSGS_PER_BATCH (cp_majorityPercentage p) (cp_minValidators p))
      false false false (MkGenesis 0 [] ∅ [])
      (MkSet (cp_permissionMode p) (cp_activeValidatorsLimit p) 0 ∅ pq_empty pq_empty)
      (MkLog INITIAL_CONFIGURATION_NUMBER INITIAL_CONFIGURATION_NUMBER ∅) (MkQueue 0 ∅) ∅ ∅).
End actor.
