(* ===== verification/Solvency.v ===== *)
(** * Solvency of the subnet actor

    What the actor of a subnet with collateral owes to validators and to those who funded the
    genesis of the subnet is covered by its balance, except for initial balances that it has
    returned to validators that left, and keeps booked; the stake that the gateway holds for the
    subnet is the confirmed collateral, and the queued changes can always be confirmed. *)

From Stdlib Require Import Strings.Byte.
From S2P Require Import Prelude Weights PQ ValidatorSet Abi Staking GatewayFinality SubnetActor.

#[local] Arguments encode_uint : simpl never.
#[local] Arguments decode_uint : simpl never.

(** ** Funds *)

Lemma total_weight_map_sum (b : gmap N N) : total_weight b = map_sum id b.
Proof. done. Qed.

Lemma insert_weight (b : gmap N N) a n : weight_of b a + total_weight (<[a := n]> b) = n + total_weight b.
Proof. rewrite !total_weight_map_sum. by apply (map_sum_update id 0). Qed.

Lemma weight_insert_eq (b : gmap N N) a n : weight_of (<[a := n]> b) a = n.
Proof. unfold weight_of. by rewrite lookup_insert_eq. Qed.
Lemma weight_insert_ne (b : gmap N N) a c n : a ≠ c → weight_of (<[a := n]> b) c = weight_of b c.
Proof. intros. unfold weight_of. by rewrite lookup_insert_ne. Qed.

Lemma move_total from to amount (b : gmap N N) :
  amount ≤ weight_of b from → total_weight (move from to amount b) = total_weight b.
Proof.
  intros Hle. unfold move. fold (weight_of b from). set (b1 := <[from := _]> b). fold (weight_of b1 to).
  pose proof (insert_weight b from (weight_of b from - amount)) as H1. fold b1 in H1.
  pose proof (insert_weight b1 to (weight_of b1 to + amount)) as H2. lia.
Qed.

Lemma move_from from to amount (b : gmap N N) :
  from ≠ to → weight_of (move from to amount b) from = weight_of b from - amount.
Proof. intros. unfold move. rewrite weight_insert_ne by done. by rewrite weight_insert_eq. Qed.
Lemma move_to from to amount (b : gmap N N) :
  from ≠ to → weight_of (move from to amount b) to = weight_of b to + amount.
Proof.
  intros. unfold move. rewrite weight_insert_eq. fold (weight_of (<[from := default 0 (b !! from) - amount]> b) to).
  by rewrite weight_insert_ne.
Qed.
Lemma move_other from to amount (b : gmap N N) c :
  c ≠ from → c ≠ to → weight_of (move from to amount b) c = weight_of b c.
Proof. intros. unfold move. by rewrite !weight_insert_ne. Qed.

Lemma two_balances (b : gmap N N) a c : a ≠ c → weight_of b a + weight_of b c ≤ total_weight b.
Proof.
  intros Hne. pose proof (set_weight_total b ({[a]} ∪ {[c]})) as Ht.
  rewrite set_weight_union, !set_weight_singleton in Ht by set_solver. done.
Qed.

Lemma pay_run from to amount w :
  amount ≤ balance w from → pay from to amount w = Done (tt, set_balances (move from to amount (balances w)) w).
Proof. intros Hle. unfold pay. erewrite bind_run by done. by rewrite bool_decide_eq_false_2 by lia. Qed.
Lemma pay_inv from to amount w x w' :
  pay from to amount w = Done (x, w') → amount ≤ balance w from ∧ w' = set_balances (move from to amount (balances w)) w.
Proof.
  unfold pay. intros Hr. apply stm_bind_Done in Hr as (have & ? & [= <- <-] & Hr).
  case_bool_decide; [done|]. injection Hr as <- <-. split; [lia|done].
Qed.

Lemma send_inv `{ActorEnv} from to amount w x w' :
  sendValue from to amount w = Done (x, w') →
  amount ≤ balance w from ∧ w' = set_balances (move from to amount (balances w)) w.
Proof.
  unfold sendValue. intros Hr. apply stm_bind_Done in Hr as (have & ? & [= <- <-] & Hr).
  case_bool_decide; [done|]. destruct (negb _); [done|]. by apply pay_inv in Hr.
Qed.

(** ** The log *)

Definition upd (f : Address → N) (v : Address) (n : N) : Address → N := λ a, if bool_decide (a = v) then n else f a.

(** Confirming the changes one by one goes through, and takes the confirmed collateral to the
    total one. *)
Fixpoint log_ok (conf : Address → N) (l : list StakingChange) (tot : Address → N) : Prop :=
  match l with
  | [] => ∀ v, tot v = conf v
  | c :: l =>
      let v := change_validator c in
      match change_op c with
      | SetMetadata => log_ok conf l tot
      | SetFederatedPower => False
      | Deposit => ∃ amount, change_payload c = encode_uint amount ∧ 0 < amount < u256_size ∧
          log_ok (upd conf v (conf v + amount)) l tot
      | Withdraw => ∃ amount, change_payload c = encode_uint amount ∧ 0 < amount < u256_size ∧ amount ≤ conf v ∧
          log_ok (upd conf v (conf v - amount)) l tot
      end
  end.

Lemma log_ok_ext conf conf' l tot tot' :
  (∀ a, conf a = conf' a) → (∀ a, tot a = tot' a) → log_ok conf l tot → log_ok conf' l tot'.
Proof.
  revert conf conf'. induction l as [|c l IH]; intros conf conf' Hc Ht; cbn.
  { intros Heq v. by rewrite <-Hc, <-Ht. }
  assert (∀ v n, ∀ a, upd conf v n a = upd conf' v n a) as Hupd.
  { intros v n a. unfold upd. by case_bool_decide. }
  destruct (change_op c).
  - intros (amount & Hp & Ha & Hl). exists amount. rewrite <-Hc. split_and!; try done; [lia|lia|].
    eapply IH; [apply Hupd|exact Ht|exact Hl].
  - intros (amount & Hp & Ha & Hle & Hl). exists amount. rewrite <-Hc. split_and!; try done; [lia|lia|].
    eapply IH; [apply Hupd|exact Ht|exact Hl].
  - by apply IH.
  - done.
Qed.

(** Queueing another change. *)
Lemma log_ok_snoc_deposit conf l tot v amount :
  log_ok conf l tot → 0 < amount < u256_size →
  log_ok conf (l ++ [MkChange Deposit (encode_uint amount) v]) (upd tot v (tot v + amount)).
Proof.
  revert conf. induction l as [|c l IH]; intros conf Hl Ha; cbn.
  { exists amount. split_and!; [done|lia|lia|]. intros a. unfold upd. by rewrite !Hl. }
  cbn in Hl. destruct (change_op c); [destruct Hl as (n & ? & ? & ?)|destruct Hl as (n & ? & ? & ? & ?)| |done];
    [exists n; eauto|exists n; eauto 6|eauto].
Qed.
Lemma log_ok_snoc_withdraw conf l tot v amount :
  log_ok conf l tot → 0 < amount < u256_size → amount ≤ tot v →
  log_ok conf (l ++ [MkChange Withdraw (encode_uint amount) v]) (upd tot v (tot v - amount)).
Proof.
  revert conf. induction l as [|c l IH]; intros conf Hl Ha Hle; cbn.
  { exists amount. split_and!; [done|lia|lia|by rewrite <-Hl|]. intros a. unfold upd. by rewrite !Hl. }
  cbn in Hl. destruct (change_op c); [destruct Hl as (n & ? & ? & ?)|destruct Hl as (n & ? & ? & ? & ?)| |done];
    [exists n; eauto|exists n; eauto 6|eauto].
Qed.
Lemma log_ok_snoc_metadata conf l tot v md :
  log_ok conf l tot → log_ok conf (l ++ [MkChange SetMetadata md v]) tot.
Proof.
  revert conf. induction l as [|c l IH]; intros conf Hl; cbn; [done|].
  cbn in Hl. destruct (change_op c); [destruct Hl as (n & ? & ? & ?)|destruct Hl as (n & ? & ? & ? & ?)| |done];
    [exists n; eauto|exists n; eauto 6|eauto].
Qed.

(** The deposits that are still to be confirmed. *)
Definition deposited (c : StakingChange) : N :=
  match change_op c with Deposit => done_or 0 (decode_uint (change_payload c)) | _ => 0 end.
Definition deposits (l : list StakingChange) : N := sumN (deposited <$> l).

Definition pend (w : World) : list StakingChange :=
  let l := changeSet (actor w) in
  changes_from l (startConfigurationNumber l) (N.to_nat (nextConfigurationNumber l - startConfigurationNumber l)).

(** What is still to be claimed. *)
Definition unclaimed (q : StakingReleaseQueue) : N := map_sum (amount_of ∘ pending) (releases q).

Lemma pending_none : (amount_of ∘ pending) no_releases = 0.
Proof. done. Qed.
Lemma unclaimed_set a r q :
  amount_of (pending (releases_of q a)) + unclaimed (set_releases a r q) = amount_of (pending r) + unclaimed q.
Proof. exact (map_sum_update (amount_of ∘ pending) no_releases pending_none (releases q) a r). Qed.
Lemma unclaimed_delete a q :
  amount_of (pending (releases_of q a)) + unclaimed (MkQueue (lockingDuration q) (delete a (releases q))) = unclaimed q.
Proof. exact (map_sum_delete (amount_of ∘ pending) no_releases pending_none (releases q) a). Qed.

Lemma add_release_run now v amount q :
  now + lockingDuration q < u256_size →
  startIdx (releases_of q v) + rel_length (releases_of q v) + 1 < u16_size →
  ∃ q', addNewRelease now v amount q = Done (tt, q') ∧ unclaimed q' = unclaimed q + amount ∧
    lockingDuration q' = lockingDuration q ∧
    ∀ a, startIdx (releases_of q' a) + rel_length (releases_of q' a) ≤
      startIdx (releases_of q a) + rel_length (releases_of q a) + 1.
Proof.
  intros Hnow Hroom. destruct (push_pending (MkRelease (now + lockingDuration q) amount) (releases_of q v) Hroom)
    as (r & Hr & Hp & Hs & Hl).
  exists (set_releases v r q). split; [|split; [|split; [done|]]].
  - unfold addNewRelease. erewrite bind_run by done.
    erewrite bind_run by (unfold lift; by rewrite u256_add_ok by lia). by apply on_releases_run.
  - pose proof (unclaimed_set v r q) as Hu. rewrite Hp in Hu. unfold amount_of in *.
    rewrite fmap_app, sumN_app in Hu. cbn in Hu. lia.
  - intros a. destruct (decide (a = v)) as [->|Hne]; [rewrite releases_set_eq; lia|].
    rewrite releases_set_ne by done. lia.
Qed.

Lemma claim_run now v q amount q' :
  amount_of (pending (releases_of q v)) < u256_size → claim now v q = Done (amount, q') →
  unclaimed q' + amount = unclaimed q.
Proof.
  intros Hsum Hr. unfold claim in Hr.
  assert (rel_length (releases_of q v) ≠ 0) as Hlen.
  { intros Hz. unfold on_releases, zoom, compact in Hr. apply stm_bind_Done in Hr as (? & ? & Hr & _).
    unfold mbind, stm_bind, reads in Hr. rewrite Hz in Hr. done. }
  destruct (compact_part now (releases_of q v) Hlen Hsum) as (k & r & Hc & Hp).
  erewrite bind_run in Hr by by apply on_releases_run. cbv beta iota in Hr.
  assert (amount_of (pending (releases_of q v)) = amount_of (take k (pending (releases_of q v))) + amount_of (pending r)) as Hsplit.
  { rewrite Hp. unfold amount_of. rewrite <-sumN_app, <-fmap_app, take_drop. done. }
  pose proof (unclaimed_set v r q) as Hu. case_bool_decide as Hz.
  - apply stm_bind_Done in Hr as (? & q1 & [= <- <-] & Hr). injection Hr as <- <-.
    assert (pending r = []) as Hnil by (unfold pending; rewrite Hz; done).
    pose proof (unclaimed_delete v (set_releases v r q)) as Hd. rewrite releases_set_eq, Hnil in Hd.
    cbn in Hd |- *. rewrite Hnil in *. cbn in *. lia.
  - apply stm_bind_Done in Hr as (? & q1 & [= <- <-] & Hr). injection Hr as <- <-. lia.
Qed.

(** ** Calls on a part of the state *)

Lemma on_vset_inv {A} (tx : stm ValidatorSet string A) w a w' :
  on_vset tx w = Done (a, w') → ∃ v, tx (validatorSet (actor w)) = Done (a, v) ∧ w' = set_actor (set_vset v) w.
Proof. unfold on_vset, zoom. destruct (tx _) as [[b v]| | | |]; try done. intros [= <- <-]. eauto. Qed.
Lemma on_changes_inv {A} (tx : stm StakingChangeLog string A) w a w' :
  on_changes tx w = Done (a, w') → ∃ l, tx (changeSet (actor w)) = Done (a, l) ∧ w' = set_actor (set_log l) w.
Proof. unfold on_changes, zoom. destruct (tx _) as [[b v]| | | |]; try done. intros [= <- <-]. eauto. Qed.
Lemma on_queue_inv {A} (tx : stm StakingReleaseQueue string A) w a w' :
  on_queue tx w = Done (a, w') → ∃ q, tx (releaseQueue (actor w)) = Done (a, q) ∧ w' = set_actor (set_queue q) w.
Proof. unfold on_queue, zoom. destruct (tx _) as [[b v]| | | |]; try done. intros [= <- <-]. eauto. Qed.

Lemma on_vset_run {A} (tx : stm ValidatorSet string A) w a v :
  tx (validatorSet (actor w)) = Done (a, v) → on_vset tx w = Done (a, set_actor (set_vset v) w).
Proof. intros Htx. unfold on_vset, zoom. by rewrite Htx. Qed.
Lemma on_queue_run {A} (tx : stm StakingReleaseQueue string A) w a q :
  tx (releaseQueue (actor w)) = Done (a, q) → on_queue tx w = Done (a, set_actor (set_queue q) w).
Proof. intros Htx. unfold on_queue, zoom. by rewrite Htx. Qed.

Lemma record_deposit_inv v amount self x self' :
  recordDeposit v amount self = Done (x, self') →
  totalCollateral (info_of self v) + amount < u256_size ∧
  self' = set_info v (with_collateral (totalCollateral (info_of self v) + amount)) self.
Proof.
  unfold recordDeposit. intros Hr. inv_done.
  by match goal with H : u256_add _ _ = _ |- _ => apply u256_add_inv in H as [-> ?] end.
Qed.
Lemma record_withdraw_inv v amount self x self' :
  recordWithdraw v amount self = Done (x, self') →
  amount ≤ totalCollateral (info_of self v) ∧
  self' = set_info v (with_collateral (totalCollateral (info_of self v) - amount)) self.
Proof.
  unfold recordWithdraw. intros Hr. apply stm_bind_Done in Hr as (n & ? & [= <- <-] & Hr).
  case_bool_decide; [done|]. inv_done.
  by match goal with H : u256_sub _ _ = _ |- _ => apply u256_sub_inv in H as [-> ?] end.
Qed.

Lemma record_inv v op p l n l' :
  recordChange v op p l = Done (n, l') →
  l' = MkLog (nextConfigurationNumber l + 1) (startConfigurationNumber l)
      (<[nextConfigurationNumber l := MkChange op p v]> (log_changes l)).
Proof.
  unfold recordChange. intros Hr. inv_done.
  match goal with H : u64_checked_add _ _ = _ |- _ => apply checked_inv in H as [Hc _] end. f_equal. lia.
Qed.

Lemma changes_snoc l c :
  startConfigurationNumber l ≤ nextConfigurationNumber l →
  let l' := MkLog (nextConfigurationNumber l + 1) (startConfigurationNumber l)
    (<[nextConfigurationNumber l := c]> (log_changes l)) in
  changes_from l' (startConfigurationNumber l) (N.to_nat (nextConfigurationNumber l + 1 - startConfigurationNumber l)) =
    changes_from l (startConfigurationNumber l) (N.to_nat (nextConfigurationNumber l - startConfigurationNumber l)) ++ [c].
Proof.
  intros Hle l'. replace (N.to_nat (_ + 1 - _)) with (S (N.to_nat (nextConfigurationNumber l - startConfigurationNumber l))) by lia.
  unfold changes_from. rewrite range_up_snoc, fmap_app. f_equal.
  - apply list_fmap_ext. intros i x Hx. apply list_elem_of_lookup_2, elem_of_range_up in Hx.
    unfold getChange. cbn. by rewrite lookup_insert_ne by lia.
  - rewrite N2Nat.id. replace (_ + (_ - _)) with (nextConfigurationNumber l) by lia.
    unfold getChange. cbn. by rewrite lookup_insert_eq.
Qed.

(** ** The invariant *)

Definition conf (w : World) (v : Address) : N := confirmedCollateral (info_of (validatorSet (actor w)) v).
Definition tot (w : World) (v : Address) : N := totalCollateral (info_of (validatorSet (actor w)) v).

(** Before the subnet is registered, its collateral and initial funds are with the actor. *)
Definition held (s : SubnetActorStorage) : N :=
  if bootstrapped s then 0 else totalConfirmedCollateral (validatorSet s) + genesisCircSupply (genesis s).
Definition owed (w : World) : N := held (actor w) + deposits (pend w) + unclaimed (releaseQueue (actor w)).

Section solvency.
Context `{ActorEnv}.
Hypothesis (Hdistinct : this_actor ≠ ipcGatewayAddr).

Definition registration (w : World) : Prop :=
  match registered w with
  | Some sub => bootstrapped (actor w) = true ∧ killed (actor w) = false ∧
      sub_stake sub = totalConfirmedCollateral (validatorSet (actor w)) ∧ sub_stake sub ≤ balance w ipcGatewayAddr
  | None => bootstrapped (actor w) = killed (actor w)
  end.

(** [extra] is what the current call has been paid and not yet booked. *)
Record solvent (extra : N) (w : World) : Prop := {
  sv_mode : permissionMode (validatorSet (actor w)) ≠ Federated;
  sv_set : vs_inv (validatorSet (actor w));
  sv_numbers : startConfigurationNumber (changeSet (actor w)) ≤ nextConfigurationNumber (changeSet (actor w));
  sv_log : log_ok (conf w) (pend w) (tot w);
  sv_totals v : tot w v < u256_size;
  sv_early : bootstrapped (actor w) = false → pend w = [];
  sv_registered : registration w;
  sv_funds : owed w + extra ≤ balance w this_actor;
  sv_supply : total_weight (balances w) < u256_size
}.

Lemma actor_funds extra w : solvent extra w → owed w + extra < u256_size.
Proof.
  intros Hs. pose proof (sv_funds _ _ Hs). pose proof (sv_supply _ _ Hs).
  pose proof (two_balances (balances w) this_actor ipcGatewayAddr Hdistinct).
  unfold balance in *. unfold weight_of in *. lia.
Qed.

(** Writing parts of the storage that are not counted. *)
Lemma solvent_same extra w s :
  bootstrapped s = bootstrapped (actor w) → killed s = killed (actor w) →
  genesisCircSupply (genesis s) = genesisCircSupply (genesis (actor w)) →
  validatorSet s = validatorSet (actor w) → changeSet s = changeSet (actor w) →
  releaseQueue s = releaseQueue (actor w) →
  solvent extra w → solvent extra (set_actor (λ _, s) w).
Proof.
  intros Hb Hk Hg Hv Hc Hq Hs. destruct w as [a r b n]. cbn in *.
  assert (pend (MkWorld s r b n) = pend (MkWorld a r b n)) as Hp by (unfold pend; cbn; by rewrite Hc).
  assert (owed (MkWorld s r b n) = owed (MkWorld a r b n)) as Ho.
  { unfold owed. rewrite Hp. unfold held. cbn. by rewrite Hb, Hv, Hg, Hq. }
  unfold set_actor. cbn. destruct Hs as [H1 H2 H3 H4 Hv5 H5 H6 H7 H8]. cbn in *. split; cbn.
  - by rewrite Hv.
  - by rewrite Hv.
  - by rewrite Hc.
  - rewrite Hp. unfold conf, tot in *. cbn in *. by rewrite Hv.
  - unfold tot in *. cbn in *. by rewrite Hv.
  - rewrite Hp, Hb. done.
  - unfold registration in *. cbn in *. destruct r as [sub|]; [|by rewrite Hb, Hk]. by rewrite Hb, Hk, Hv.
  - by rewrite Ho.
  - done.
Qed.

(** The value of a call. *)
Lemma paid_in extra sender value w x w' :
  solvent extra w → sender ≠ this_actor → sender ≠ ipcGatewayAddr →
  pay sender this_actor value w = Done (x, w') → solvent (extra + value) w' ∧ actor w' = actor w.
Proof.
  intros Hs Ha Hg [Hle ->]%pay_inv. split; [|done]. destruct Hs as [H1 H2 H3 H4 Hv5 H5 H6 H7 H8]. split; try done.
  - unfold registration in *. cbn. destruct (registered w); [|done].
    unfold balance. cbn. fold (weight_of (move sender this_actor value (balances w)) ipcGatewayAddr).
    rewrite move_other by done. done.
  - change (owed w + (extra + value) ≤ weight_of (move sender this_actor value (balances w)) this_actor).
    rewrite move_to by done. change (weight_of (balances w) this_actor) with (balance w this_actor). lia.
  - cbn. rewrite move_total by done. done.
Qed.

(** Paying out what is no longer owed. *)
Lemma paid_out extra to amount w x w' :
  solvent (extra + amount) w → to ≠ this_actor → to ≠ ipcGatewayAddr →
  sendValue this_actor to amount w = Done (x, w') → solvent extra w' ∧ actor w' = actor w.
Proof.
  intros Hs Ha Hg [Hle ->]%send_inv. split; [|done]. destruct Hs as [H1 H2 H3 H4 Hv5 H5 H6 H7 H8]. split; try done.
  - unfold registration in *. cbn. destruct (registered w); [|done].
    unfold balance. cbn. fold (weight_of (move this_actor to amount (balances w)) ipcGatewayAddr).
    rewrite move_other by done. done.
  - change (owed w + extra ≤ weight_of (move this_actor to amount (balances w)) this_actor).
    rewrite move_from by done. change (weight_of (balances w) this_actor) with (balance w this_actor). lia.
  - cbn. rewrite move_total by done. done.
Qed.

(** *** Queueing changes *)

Definition snoc_log (c : StakingChange) (l : StakingChangeLog) : StakingChangeLog :=
  MkLog (nextConfigurationNumber l + 1) (startConfigurationNumber l)
    (<[nextConfigurationNumber l := c]> (log_changes l)).
Definition queued (c : StakingChange) (w : World) : World := set_actor (λ s, set_log (snoc_log c (changeSet s)) s) w.
Definition booked (v : Address) (n : N) (w : World) : World :=
  set_actor (λ s, set_vset (set_info v (with_collateral n) (validatorSet s)) s) w.

Lemma pend_queued c extra w : solvent extra w → pend (queued c w) = pend w ++ [c].
Proof. intros Hs. apply changes_snoc, Hs. Qed.

Lemma conf_booked v n w a : conf (booked v n w) a = conf w a.
Proof.
  unfold conf, booked. cbn. destruct (decide (a = v)) as [->|]; [by rewrite info_set_eq|by rewrite info_set_ne].
Qed.
Lemma tot_booked v n w a : tot (booked v n w) a = upd (tot w) v n a.
Proof.
  unfold tot, booked, upd. cbn. case_bool_decide as Ha; [subst; by rewrite info_set_eq|by rewrite info_set_ne].
Qed.

Lemma deposits_snoc l c : deposits (l ++ [c]) = deposits l + deposited c.
Proof. unfold deposits. rewrite fmap_app, sumN_app. cbn. lia. Qed.

(** A change that is queued, with the total collateral booked. *)
Lemma queue_solvent extra amount c v n w :
  solvent (extra + amount) w → bootstrapped (actor w) = true → deposited c = amount →
  log_ok (conf w) (pend w ++ [c]) (upd (tot w) v n) → n < u256_size →
  solvent extra (booked v n (queued c w)).
Proof.
  intros Hs Hboot Hdep Hlog Hn. pose proof (pend_queued c _ w Hs) as Hp.
  assert (pend (booked v n (queued c w)) = pend w ++ [c]) as Hp' by exact Hp.
  destruct Hs as [H1 H2 H3 H4 Hv5 H5 H6 H7 H8]. split; try done.
  - cbn. apply info_inv; done.
  - cbn. lia.
  - rewrite Hp'. eapply log_ok_ext; [|intros a; symmetry; apply tot_booked|exact Hlog].
    intros a. symmetry. apply (conf_booked v n (queued c w)).
  - intros a. rewrite tot_booked. unfold upd. case_bool_decide; [done|]. apply Hv5.
  - cbn. congruence.
  - unfold owed. rewrite Hp', deposits_snoc, Hdep. unfold owed, held in *. cbn in *. rewrite Hboot in *.
    change (balance (booked v n (queued c w)) this_actor) with (balance w this_actor). lia.
Qed.

Lemma deposit_solvent extra v amount w x w' :
  solvent (extra + amount) w → bootstrapped (actor w) = true → 0 < amount →
  deposit v amount w = Done (x, w') → solvent extra w'.
Proof.
  intros Hs Hboot Hpos Hr. pose proof (actor_funds _ _ Hs) as Hfit. unfold deposit in Hr.
  apply stm_bind_Done in Hr as (? & w1 & (l & Hl & ->)%on_changes_inv & Hr).
  apply on_vset_inv in Hr as (set & [Hfits ->]%record_deposit_inv & ->).
  unfold depositRequest in Hl. apply stm_bind_Done in Hl as (? & ? & ->%record_inv & [= <- <-]).
  apply (queue_solvent extra amount (MkChange Deposit (encode_uint amount) v) v (tot w v + amount) w); try done.
  - unfold deposited. cbn. by rewrite decode_encode_uint by lia.
  - apply log_ok_snoc_deposit; [apply Hs|lia].
Qed.

Lemma withdraw_solvent extra v amount w x w' :
  solvent extra w → bootstrapped (actor w) = true → 0 < amount < u256_size →
  withdraw v amount w = Done (x, w') → solvent extra w'.
Proof.
  intros Hs Hboot Hpos Hr. unfold withdraw in Hr.
  apply stm_bind_Done in Hr as (? & w1 & (l & Hl & ->)%on_changes_inv & Hr).
  apply on_vset_inv in Hr as (set & [Hle ->]%record_withdraw_inv & ->).
  unfold withdrawRequest in Hl. apply stm_bind_Done in Hl as (? & ? & ->%record_inv & [= <- <-]).
  apply (queue_solvent extra 0 (MkChange Withdraw (encode_uint amount) v) v (tot w v - amount) w); try done.
  - by rewrite N.add_0_r.
  - apply log_ok_snoc_withdraw; [apply Hs|lia|exact Hle].
  - pose proof (sv_totals _ _ Hs v). lia.
Qed.

Lemma metadata_solvent extra v md w x w' :
  solvent extra w → bootstrapped (actor w) = true →
  on_changes (metadataRequest v md) w = Done (x, w') → solvent extra w' ∧ bootstrapped (actor w') = true.
Proof.
  intros Hs Hboot (l & Hl & ->)%on_changes_inv. split; [|done].
  unfold metadataRequest in Hl. apply stm_bind_Done in Hl as (? & ? & ->%record_inv & [= <- <-]).
  set (c := MkChange SetMetadata md v). pose proof (pend_queued c _ w Hs) as Hp.
  change (solvent extra (queued c w)). destruct Hs as [H1 H2 H3 H4 Hv5 H5 H6 H7 H8]. split; try done.
  - cbn. lia.
  - rewrite Hp. by apply log_ok_snoc_metadata.
  - cbn. congruence.
  - unfold owed. rewrite Hp, deposits_snoc. cbn [deposited change_op c].
    unfold owed, held in *. cbn in *. rewrite Hboot in *.
    change (balance (queued c w) this_actor) with (balance w this_actor). lia.
Qed.

(** *** Before the subnet is bootstrapped *)

Definition room (k : N) (w : World) : Prop := N.of_nat (size (members (validatorSet (actor w)))) + k < 32768.

(** Replacing the validator set, when no change is queued. *)
Lemma early_solvent extra extra' set w :
  solvent extra w → bootstrapped (actor w) = false →
  vs_inv set → permissionMode set ≠ Federated →
  (∀ a, totalCollateral (info_of set a) = confirmedCollateral (info_of set a)) →
  totalConfirmedCollateral set + extra' = totalConfirmedCollateral (validatorSet (actor w)) + extra →
  solvent extra' (set_actor (set_vset set) w).
Proof.
  intros Hs Hboot Hinv Hmode Htot Hsum. pose proof (actor_funds _ _ Hs) as Hfit. destruct Hs as [H1 H2 H3 H4 Hv5 H5 H6 H7 H8].
  assert (pend (set_actor (set_vset set) w) = []) as Hp by (by apply H5).
  split; try done.
  - rewrite Hp. intros a. apply Htot.
  - intros a. unfold tot. cbn. rewrite Htot. pose proof (confirmed_le_total set a Hinv).
    unfold owed, held in Hfit. rewrite Hboot in Hfit. lia.
  - unfold registration in *. cbn. destruct (registered w); [|done]. destruct H6 as [? _]. congruence.
  - unfold owed, held in *. rewrite Hp. rewrite (H5 Hboot) in H7. cbn in *. rewrite Hboot in *.
    change (balance (set_actor (set_vset set) w) this_actor) with (balance w this_actor). lia.
Qed.

Lemma early_totals extra w : solvent extra w → bootstrapped (actor w) = false → ∀ a, tot w a = conf w a.
Proof. intros Hs Hboot. pose proof (sv_log _ _ Hs) as Hl. by rewrite (sv_early _ _ Hs Hboot) in Hl. Qed.

Lemma early_total extra w :
  solvent extra w → bootstrapped (actor w) = false →
  totalConfirmedCollateral (validatorSet (actor w)) + genesisCircSupply (genesis (actor w)) + extra < u256_size.
Proof.
  intros Hs Hboot. pose proof (actor_funds _ _ Hs) as Hf. unfold owed, held in Hf. rewrite Hboot in Hf. lia.
Qed.

Lemma deposit_confirm_solvent extra v amount w x w' :
  solvent (extra + amount) w → bootstrapped (actor w) = false → 0 < amount → room 1 w →
  depositWithConfirm v amount w = Done (x, w') → solvent extra w' ∧ bootstrapped (actor w') = false.
Proof.
  intros Hs Hboot Hpos Hroom Hr. unfold depositWithConfirm in Hr. pose proof (early_total _ _ Hs Hboot) as Hfit.
  apply stm_bind_Done in Hr as (? & w1 & (set1 & [Hfits ->]%record_deposit_inv & ->)%on_vset_inv & Hr).
  apply stm_bind_Done in Hr as (? & w2 & (set2 & Hconf & ->)%on_vset_inv & Hr).
  set (set1 := set_info _ _ _) in Hconf. cbn in Hconf.
  assert (vs_inv set1) as Hinv1 by (apply info_inv; [done|apply Hs]).
  destruct (change_applied set1 (Deposited v amount)) as (set' & Hr' & Hinv2 & Hpow); [done| |].
  { split_and!; [apply Hs|done|change (totalConfirmedCollateral (validatorSet (actor w)) + amount < u256_size); lia|].
    change (pq_size (waitingValidators (validatorSet (actor w))) + 1 < 32768).
    pose proof (waiting_le_members _ (sv_set _ _ Hs)). unfold room in Hroom. lia. }
  cbn [apply_change] in Hr'. rewrite Hconf in Hr'. injection Hr' as _ <-.
  apply deposit_info in Hconf as (Hvals & Hm & _ & Ht).
  assert (solvent extra (set_actor (set_vset set2) w)) as Hs2.
  { eapply early_solvent; [exact Hs|done|done|by rewrite Hm; apply Hs| |].
    - intros a. pose proof (early_totals _ _ Hs Hboot a) as Ha. unfold info_of at 1 2. rewrite Hvals.
      destruct (decide (a = v)) as [->|Hne].
      + rewrite lookup_insert_eq. cbn. unfold set1. rewrite info_set_eq. cbn. unfold tot, conf in Ha. lia.
      + rewrite lookup_insert_ne by done. change (default no_info (validators set1 !! a)) with (info_of set1 a).
        unfold set1. by rewrite info_set_ne.
    - rewrite Ht. change (totalConfirmedCollateral set1) with (totalConfirmedCollateral (validatorSet (actor w))). lia. }
  apply stm_bind_Done in Hr as (boot & w3 & [= <- <-] & Hr). cbn in Hr. rewrite Hboot in Hr.
  injection Hr as _ <-.
  assert (∀ s, set_actor (λ _, s) (set_actor (set_vset set2) w) = set_actor (λ _, s) w) as Hset by done.
  match goal with |- solvent _ (set_actor ?f ?w0) ∧ _ => change (set_actor f w0) with (set_actor (λ _, f (actor w0)) w0) end.
  cbn beta. case_bool_decide; (split; [by apply solvent_same|done]).
Qed.

Lemma withdraw_confirm_solvent extra v amount w x w' :
  solvent extra w → bootstrapped (actor w) = false → 0 < amount → v ≠ this_actor → v ≠ ipcGatewayAddr →
  withdrawWithConfirm v amount w = Done (x, w') → solvent extra w'.
Proof.
  intros Hs Hboot Hpos Ha Hg Hr. unfold withdrawWithConfirm in Hr. pose proof (early_total _ _ Hs Hboot) as Hfit.
  apply stm_bind_Done in Hr as (? & w1 & (set1 & [Hle ->]%record_withdraw_inv & ->)%on_vset_inv & Hr).
  apply stm_bind_Done in Hr as (? & w2 & (set2 & Hconf & ->)%on_vset_inv & Hr).
  set (set1 := set_info _ _ _) in Hconf. cbn in Hconf.
  pose proof (early_totals _ _ Hs Hboot) as Htot. pose proof (Htot v) as Hv. unfold tot, conf in Hv.
  assert (vs_inv set1) as Hinv1 by (apply info_inv; [done|apply Hs]).
  assert (confirmedCollateral (info_of set1 v) = conf w v) as Hc1 by (unfold set1; by rewrite info_set_eq).
  destruct (change_applied set1 (Withdrawn v amount)) as (set' & Hr' & Hinv2 & Hpow); [done| |].
  { split_and!; [apply Hs|rewrite Hc1; unfold conf; lia|rewrite Hc1; unfold conf; lia|].
    change (totalConfirmedCollateral (validatorSet (actor w)) < u256_size). lia. }
  cbn [apply_change] in Hr'. rewrite Hconf in Hr'. injection Hr' as _ <-.
  apply withdraw_info in Hconf as (Hvals & Hm & _ & _ & Ht & Hle2).
  change (totalConfirmedCollateral set1) with (totalConfirmedCollateral (validatorSet (actor w))) in Ht, Hle2.
  assert (solvent (extra + amount) (set_actor (set_vset set2) w)) as Hs2.
  { eapply early_solvent; [exact Hs|done|done|by rewrite Hm; apply Hs| |lia].
    intros a. unfold info_of at 1 2. rewrite Hvals. unfold withdrawn_base.
    destruct (_ && _) eqn:Hz.
    - cbn. destruct (decide (a = v)) as [->|Hne]; [by rewrite lookup_delete_eq|].
      rewrite lookup_delete_ne by done. change (default no_info (<[v:=_]> _ !! a)) with (info_of set1 a).
      unfold set1. rewrite info_set_ne by done. apply Htot.
    - cbn. destruct (decide (a = v)) as [->|Hne].
      + rewrite lookup_insert_eq. cbn. fold set1. rewrite Hc1. unfold set1. rewrite info_set_eq. cbn. unfold conf. lia.
      + rewrite lookup_insert_ne by done. change (default no_info (<[v:=_]> _ !! a)) with (info_of set1 a).
        unfold set1. rewrite info_set_ne by done. apply Htot. }
  by apply (paid_out extra v amount _ _ _ Hs2 Ha Hg) in Hr as [? _].
Qed.

Lemma bootstrap_solvent extra w x w' :
  solvent extra w → bootstrapped (actor w) = false →
  bootstrapSubnetIfNeeded w = Done (x, w') → solvent extra w'.
Proof.
  intros Hs Hboot Hr. unfold bootstrapSubnetIfNeeded in Hr.
  apply stm_bind_Done in Hr as (s & ? & [= <- <-] & Hr). destruct (_ && _); [|by injection Hr as _ <-].
  apply stm_bind_Done in Hr as (? & w1 & [= _ <-] & Hr).
  apply stm_bind_Done in Hr as (value & ? & (? & [-> _]%u256_add_inv & [= -> ->])%lift_Done & Hr).
  unfold gw_register in Hr. apply stm_bind_Done in Hr as (? & w2 & [Hle ->]%pay_inv & Hr).
  case_bool_decide; [done|]. case_bool_decide; [done|].
  apply stm_bind_Done in Hr as (sub & ? & [= <- <-] & Hr). cbn in Hr.
  destruct Hs as [S1 S2 S3 S4 Sv5 S5 S6 S7 S8]. unfold registration in S6. destruct (registered w); [done|].
  injection Hr as _ <-. cbn in Hle.
  set (total := totalConfirmedCollateral (validatorSet (actor w))) in *.
  set (circ := genesisCircSupply (genesis (actor w))) in *.
  split; try done.
  - unfold registration. cbn. split_and!; [done|congruence|fold total circ; lia|].
    unfold balance. cbn. fold (weight_of (move this_actor ipcGatewayAddr (total + circ) (balances w)) ipcGatewayAddr).
    rewrite move_to by done. lia.
  - match goal with |- owed ?w1 + _ ≤ _ =>
      change (owed w1) with (0 + deposits (pend w) + unclaimed (releaseQueue (actor w)));
      change (balance w1 this_actor) with (weight_of (move this_actor ipcGatewayAddr (total + circ) (balances w)) this_actor)
    end.
    rewrite move_from by done. unfold owed, held in S7. rewrite Hboot in S7. fold total circ in S7.
    change (balance w this_actor) with (weight_of (balances w) this_actor) in *. lia.
  - cbn. rewrite move_total; [done|]. exact Hle.
Qed.

(** Initial funds. *)
Lemma genesis_solvent extra extra' g w :
  solvent extra w → bootstrapped (actor w) = false →
  genesisCircSupply g + extra' = genesisCircSupply (genesis (actor w)) + extra →
  solvent extra' (set_actor (set_genesis g) w).
Proof.
  intros Hs Hboot Hsum. destruct Hs as [S1 S2 S3 S4 Sv5 S5 S6 S7 S8]. split; try done.
  unfold owed, held in *. change (pend (set_actor (set_genesis g) w)) with (pend w). cbn in *. rewrite Hboot in *.
  change (balance (set_actor (set_genesis g) w) this_actor) with (balance w this_actor). lia.
Qed.

Lemma preFund_solvent sender value w x w' :
  solvent 0 w → sender ≠ this_actor → sender ≠ ipcGatewayAddr →
  preFund sender value w = Done (x, w') → solvent 0 w'.
Proof.
  intros Hs Ha Hg Hr. unfold preFund in Hr.
  apply stm_bind_Done in Hr as (? & w1 & Hp & Hr).
  apply (paid_in 0 sender value w _ w1 Hs Ha Hg) in Hp as [Hs1 _].
  case_bool_decide; [done|]. apply stm_bind_Done in Hr as (boot & ? & [= <- <-] & Hr).
  destruct (bootstrapped (actor w1)) eqn:Hboot; [done|]. inv_done.
  repeat match goal with H : u256_add _ _ = _ |- _ => apply u256_add_inv in H as [-> _] end.
  match goal with H : on_genesis _ _ = _ |- _ => injection H as _ <- end.
  match goal with |- solvent _ (set_actor (λ s, set_genesis ?g _) ?w1) =>
    change (solvent 0 (set_actor (set_genesis ((λ s, g) (actor w1))) w1)) end.
  eapply (genesis_solvent (0 + value)); [done|done|cbn; lia].
Qed.

Lemma preRelease_solvent sender amount w x w' :
  solvent 0 w → sender ≠ this_actor → sender ≠ ipcGatewayAddr →
  preRelease sender amount w = Done (x, w') → solvent 0 w'.
Proof.
  intros Hs Ha Hg Hr. unfold preRelease in Hr. case_bool_decide; [done|].
  apply stm_bind_Done in Hr as (boot & ? & [= <- <-] & Hr). destruct (bootstrapped (actor w)) eqn:Hboot; [done|].
  apply stm_bind_Done in Hr as (have & ? & [= <- <-] & Hr). case_bool_decide; [done|].
  apply stm_bind_Done in Hr as (circ & ? & [= <- <-] & Hr).
  apply stm_bind_Done in Hr as (have' & ? & (? & [-> _]%u256_sub_inv & [= -> ->])%lift_Done & Hr).
  apply stm_bind_Done in Hr as (circ' & ? & (? & [-> Hle]%u256_sub_inv & [= -> ->])%lift_Done & Hr).
  apply stm_bind_Done in Hr as (? & w1 & [= _ <-] & Hr).
  eapply (paid_out 0 sender amount _ _ _); [|done|done|exact Hr].
  eapply (genesis_solvent 0); [done|done|cbn; lia].
Qed.

Lemma return_genesis_solvent sender w x w' :
  solvent 0 w → bootstrapped (actor w) = false → sender ≠ this_actor → sender ≠ ipcGatewayAddr →
  return_genesis_balance sender w = Done (x, w') → solvent 0 w' ∧ bootstrapped (actor w') = false.
Proof.
  intros Hs Hboot Ha Hg Hr. unfold return_genesis_balance in Hr.
  apply stm_bind_Done in Hr as (have & ? & [= <- <-] & Hr). case_bool_decide; [by injection Hr as _ <-|].
  apply stm_bind_Done in Hr as (circ & ? & [= <- <-] & Hr).
  apply stm_bind_Done in Hr as (circ' & ? & (? & [-> Hle]%u256_sub_inv & [= -> ->])%lift_Done & Hr).
  apply stm_bind_Done in Hr as (? & w1 & [= _ <-] & Hr).
  eapply (paid_out 0 sender (genesis_balance w sender) _ _ _) in Hr as [? Hact]; [|  |done|done].
  - split; [done|]. by rewrite Hact.
  - eapply (genesis_solvent 0); [done|done|cbn; lia].
Qed.

Lemma claim_solvent sender w x w' :
  solvent 0 w → sender ≠ this_actor → sender ≠ ipcGatewayAddr →
  claimCollateral sender w = Done (x, w') → solvent 0 w'.
Proof.
  intros Hs Ha Hg Hr. unfold claimCollateral in Hr.
  apply stm_bind_Done in Hr as (now & ? & [= <- <-] & Hr).
  apply stm_bind_Done in Hr as (amount & w1 & (q & Hclaim & ->)%on_queue_inv & Hr).
  apply stm_bind_Done in Hr as (? & w2 & Hsend & [= _ <-]).
  pose proof (actor_funds _ _ Hs) as Hfit. unfold owed in Hfit.
  apply claim_run in Hclaim.
  - eapply (paid_out 0 sender amount _ _ _); [|done|done|exact Hsend].
    destruct Hs as [S1 S2 S3 S4 Sv5 S5 S6 S7 S8]. split; try done.
    unfold owed in *. change (pend (set_actor (set_queue q) w)) with (pend w). cbn.
    change (balance (set_actor (set_queue q) w) this_actor) with (balance w this_actor).
    change (held (set_queue q (actor w))) with (held (actor w)). lia.
  - pose proof (unclaimed_delete sender (releaseQueue (actor w))). lia.
Qed.

Lemma kill_solvent w x w' : solvent 0 w → kill w = Done (x, w') → solvent 0 w'.
Proof.
  intros Hs Hr. unfold kill in Hr. apply stm_bind_Done in Hr as (? & w0 & Hk & Hr).
  unfold notKilled in Hk. apply stm_bind_Done in Hk as (k & ? & [= <- <-] & Hk).
  destruct (killed (actor w)) eqn:Hkilled; [done|]. injection Hk as _ <-.
  apply stm_bind_Done in Hr as (s & ? & [= <- <-] & Hr).
  apply stm_bind_Done in Hr as (n & ? & (? & _ & [= -> ->])%lift_Done & Hr).
  case_bool_decide; [|done]. cbn [negb] in Hr. destruct (bootstrapped (actor w)) eqn:Hboot; [|done]. cbn [negb] in Hr.
  apply stm_bind_Done in Hr as (? & w1 & [= _ <-] & Hr).
  unfold gw_kill in Hr. apply stm_bind_Done in Hr as (sub & ? & [= <- <-] & Hr). cbn in Hr.
  destruct Hs as [S1 S2 S3 S4 Sv5 S5 S6 S7 S8]. unfold registration in S6. destruct (registered w) as [sub|] eqn:Hreg; [|done].
  case_bool_decide; [|done]. cbn [negb] in Hr. apply stm_bind_Done in Hr as (? & w2 & [= _ <-] & [Hle ->]%pay_inv).
  cbn in Hle. split; try done.
  - match goal with |- owed ?w1 + _ ≤ balance ?w1 _ => change (owed w1) with (held (actor w) + deposits (pend w) + unclaimed (releaseQueue (actor w)));
      change (balance w1 this_actor) with (weight_of (move ipcGatewayAddr this_actor (sub_stake sub) (balances w)) this_actor) end.
    rewrite move_to by done. unfold owed in S7. change (balance w this_actor) with (weight_of (balances w) this_actor) in S7. lia.
  - cbn. rewrite move_total; [done|exact Hle].
Qed.

(** *** The facets *)

Lemma view_notPaused : keeps eq whenNotPaused.
Proof. unfold whenNotPaused. solve_keeps. Qed.
Lemma view_notKilled : keeps eq notKilled.
Proof. unfold notKilled. solve_keeps. Qed.
Lemma view_mode m : keeps eq (enforce_mode m).
Proof. unfold enforce_mode. solve_keeps. Qed.
Lemma view_collateral : keeps eq enforceCollateralValidation.
Proof. apply view_mode. Qed.
Lemma view_mode_if (b : bool) : keeps eq (if b then enforceCollateralValidation else mret tt).
Proof. destruct b; [apply view_mode|solve_keeps]. Qed.

Lemma early_metadata extra v md w :
  solvent extra w → bootstrapped (actor w) = false →
  solvent extra (set_actor (set_vset (set_info v (with_metadata md) (validatorSet (actor w)))) w).
Proof.
  intros Hs Hboot. eapply early_solvent; [exact Hs|done|apply info_inv; [done|apply Hs]|apply Hs| |done].
  intros a. pose proof (early_totals _ _ Hs Hboot a) as Ha. unfold tot, conf in Ha.
  destruct (decide (a = v)) as [->|]; [by rewrite info_set_eq|by rewrite info_set_ne].
Qed.

(** Depositing, directly or by a request. *)
Lemma deposit_any_solvent extra v value w x w' :
  solvent (extra + value) w → 0 < value → room 1 w →
  (if negb (bootstrapped (actor w)) then depositWithConfirm v value ;; bootstrapSubnetIfNeeded else deposit v value) w =
    Done (x, w') → solvent extra w'.
Proof.
  intros Hs Hpos Hroom Hr. destruct (bootstrapped (actor w)) eqn:Hboot; cbn [negb] in Hr.
  - by eapply deposit_solvent.
  - apply stm_bind_Done in Hr as (? & w1 & Hd & Hr).
    eapply deposit_confirm_solvent in Hd as [Hs1 Hb1]; try done. by eapply bootstrap_solvent.
Qed.

Lemma join_solvent sender value key w x w' :
  solvent 0 w → sender ≠ this_actor → sender ≠ ipcGatewayAddr → room 1 w →
  join sender value key w = Done (x, w') → solvent 0 w'.
Proof.
  intros Hs Ha Hg Hroom Hr. unfold join in Hr.
  apply stm_bind_Done in Hr as (? & w1 & Hp & Hr).
  apply (paid_in 0 sender value w _ w1 Hs Ha Hg) in Hp as [Hs1 Hact].
  assert (room 1 w1) as Hroom1 by (unfold room; by rewrite Hact).
  apply stm_bind_Done in Hr as (? & ? & <-%view_notPaused & Hr).
  apply stm_bind_Done in Hr as (? & ? & <-%view_notKilled & Hr).
  apply stm_bind_Done in Hr as (boot & ? & [= <- <-] & Hr).
  apply stm_bind_Done in Hr as (? & ? & <-%view_mode_if & Hr).
  case_bool_decide as Hz; [done|].
  apply stm_bind_Done in Hr as (joined & ? & [= <- <-] & Hr). destruct (isValidator w1 sender); [done|].
  destruct (negb (bool_decide (length key = 65%nat))); [done|].
  apply stm_bind_Done in Hr as (? & ? & (? & _ & [= -> ->])%lift_Done & Hr).
  destruct (negb (bool_decide (_ = sender))); [done|].
  destruct (bootstrapped (actor w1)) eqn:Hboot; cbn [negb] in Hr.
  - apply stm_bind_Done in Hr as (? & w2 & Hm & Hr). apply (metadata_solvent (0 + value)) in Hm as [Hs2 Hb2]; [|done|done].
    eapply deposit_solvent; [exact Hs2|done|lia|exact Hr].
  - apply stm_bind_Done in Hr as (? & w2 & (set & [= _ <-] & ->)%on_vset_inv & Hr).
    pose proof (early_metadata (0 + value) sender key w1 Hs1 Hboot) as Hs2.
    eapply (deposit_any_solvent 0 sender value); [exact Hs2|lia|exact Hroom1|].
    cbn. rewrite Hboot. exact Hr.
Qed.

Lemma stake_solvent sender value w x w' :
  solvent 0 w → sender ≠ this_actor → sender ≠ ipcGatewayAddr → room 1 w →
  stake sender value w = Done (x, w') → solvent 0 w'.
Proof.
  intros Hs Ha Hg Hroom Hr. unfold stake in Hr.
  apply stm_bind_Done in Hr as (? & w1 & Hp & Hr).
  apply (paid_in 0 sender value w _ w1 Hs Ha Hg) in Hp as [Hs1 Hact].
  apply stm_bind_Done in Hr as (? & ? & <-%view_notPaused & Hr).
  apply stm_bind_Done in Hr as (? & ? & <-%view_notKilled & Hr).
  apply stm_bind_Done in Hr as (? & ? & <-%view_collateral & Hr).
  case_bool_decide as Hz; [done|].
  apply stm_bind_Done in Hr as (joined & ? & [= <- <-] & Hr). destruct (negb (isValidator w1 sender)); [done|].
  apply stm_bind_Done in Hr as (boot & ? & [= <- <-] & Hr).
  eapply (deposit_any_solvent 0 sender value); [exact Hs1|lia|unfold room; by rewrite Hact|exact Hr].
Qed.

(** Collateral is never more than what there is. *)
Lemma withdraw_any_solvent v amount w x w' :
  solvent 0 w → 0 < amount < u256_size → v ≠ this_actor → v ≠ ipcGatewayAddr →
  (if negb (bootstrapped (actor w)) then withdrawWithConfirm v amount else withdraw v amount) w = Done (x, w') →
  solvent 0 w'.
Proof.
  intros Hs Hpos Ha Hg Hr. destruct (bootstrapped (actor w)) eqn:Hboot; cbn [negb] in Hr.
  - by eapply withdraw_solvent.
  - eapply withdraw_confirm_solvent; try done. lia.
Qed.

Lemma unstake_solvent sender amount w x w' :
  solvent 0 w → sender ≠ this_actor → sender ≠ ipcGatewayAddr →
  unstake sender amount w = Done (x, w') → solvent 0 w'.
Proof.
  intros Hs Ha Hg Hr. unfold unstake in Hr.
  apply stm_bind_Done in Hr as (? & ? & <-%view_notPaused & Hr).
  apply stm_bind_Done in Hr as (? & ? & <-%view_notKilled & Hr).
  apply stm_bind_Done in Hr as (? & ? & <-%view_collateral & Hr).
  case_bool_decide as Hz; [done|].
  apply stm_bind_Done in Hr as (c & ? & [= <- <-] & Hr). case_bool_decide; [done|]. case_bool_decide as Hle; [done|].
  apply stm_bind_Done in Hr as (boot & ? & [= <- <-] & Hr).
  pose proof (sv_totals _ _ Hs sender) as Hfit. change (tot w sender) with (totalValidatorCollateral w sender) in Hfit.
  apply (withdraw_any_solvent sender amount w x w'); [exact Hs|lia|done|done|exact Hr].
Qed.

Lemma leave_solvent sender w x w' :
  solvent 0 w → sender ≠ this_actor → sender ≠ ipcGatewayAddr →
  leave sender w = Done (x, w') → solvent 0 w'.
Proof.
  intros Hs Ha Hg Hr. unfold leave in Hr.
  apply stm_bind_Done in Hr as (? & ? & <-%view_notPaused & Hr).
  apply stm_bind_Done in Hr as (? & ? & <-%view_notKilled & Hr).
  apply stm_bind_Done in Hr as (boot & ? & [= <- <-] & Hr).
  apply stm_bind_Done in Hr as (? & ? & <-%view_mode_if & Hr).
  apply stm_bind_Done in Hr as (amount & ? & [= <- <-] & Hr). case_bool_decide as Hz; [done|].
  pose proof (sv_totals _ _ Hs sender) as Hfit. change (tot w sender) with (totalValidatorCollateral w sender) in Hfit.
  apply stm_bind_Done in Hr as (? & w1 & [= _ <-] & Hr).
  match type of Hr with (if _ then _ else _) (set_actor ?f w) = _ =>
    assert (solvent 0 (set_actor (λ _, f (actor w)) w)) as Hs1 by (by apply solvent_same);
    change (set_actor f w) with (set_actor (λ _, f (actor w)) w) in Hr end.
  destruct (bootstrapped (actor w)) eqn:Hboot; cbn [negb] in Hr.
  - apply (withdraw_solvent 0 sender (totalValidatorCollateral w sender) _ x w' Hs1 Hboot); [lia|exact Hr].
  - apply stm_bind_Done in Hr as (? & w2 & Hg2 & Hr).
    apply (return_genesis_solvent sender _ _ _ Hs1 Hboot Ha Hg) in Hg2 as [Hs2 Hb2].
    apply (withdraw_confirm_solvent 0 sender (totalValidatorCollateral w sender) w2 x w'); [exact Hs2|done|lia|done|done|exact Hr].
Qed.

(** *** Confirming changes *)

(** A registered subnet, with the changes that are still to be confirmed. *)
Record covered (l : list StakingChange) (w : World) : Prop := {
  cv_mode : permissionMode (validatorSet (actor w)) ≠ Federated;
  cv_set : vs_inv (validatorSet (actor w));
  cv_log : log_ok (conf w) l (tot w);
  cv_totals v : tot w v < u256_size;
  cv_flags : bootstrapped (actor w) = true ∧ killed (actor w) = false;
  cv_stake : ∃ sub, registered w = Some sub ∧ sub_stake sub = totalConfirmedCollateral (validatorSet (actor w)) ∧
    sub_stake sub ≤ balance w ipcGatewayAddr;
  cv_funds : deposits l + unclaimed (releaseQueue (actor w)) ≤ balance w this_actor;
  cv_supply : total_weight (balances w) < u256_size
}.

(** Room for some more changes, in the queue of the validators and in those of the releases. *)
Record fits (k : N) (w : World) : Prop := {
  ft_members : room k w;
  ft_releases a : startIdx (releases_of (releaseQueue (actor w)) a) +
    rel_length (releases_of (releaseQueue (actor w)) a) + k < u16_size;
  ft_lock : block_number w + lockingDuration (releaseQueue (actor w)) < u256_size
}.

Lemma fits_fewer k k' w : fits k w → k' ≤ k → fits k' w.
Proof. intros [F1 F2 F3] Hle. unfold room in *. split; [unfold room; lia|intros a; specialize (F2 a); lia|done]. Qed.

Lemma covered_fit l w : covered l w →
  totalConfirmedCollateral (validatorSet (actor w)) + deposits l + unclaimed (releaseQueue (actor w)) < u256_size.
Proof.
  intros [? ? ? ? ? (sub & _ & Hst & Hle) Hf Hsup].
  pose proof (two_balances (balances w) this_actor ipcGatewayAddr Hdistinct).
  change (balance w ipcGatewayAddr) with (weight_of (balances w) ipcGatewayAddr) in *.
  change (balance w this_actor) with (weight_of (balances w) this_actor) in *. lia.
Qed.

Lemma confirm_metadata_ok v md l w k :
  covered (MkChange SetMetadata md v :: l) w → fits (1 + k) w →
  ∃ w', confirm_one (MkChange SetMetadata md v) w = Done (tt, w') ∧ covered l w' ∧ fits k w' ∧
    changeSet (actor w') = changeSet (actor w).
Proof.
  intros Hc [F1 F2 F3]. eexists. split; [by apply on_vset_run|]. destruct Hc as [C1 C2 C3 C4 C5 C6 C7 C8].
  assert (∀ a, confirmedCollateral (info_of (set_info v (with_metadata md) (validatorSet (actor w))) a) = conf w a ∧
    totalCollateral (info_of (set_info v (with_metadata md) (validatorSet (actor w))) a) = tot w a) as Hsame.
  { intros a. unfold conf, tot. destruct (decide (a = v)) as [->|]; [by rewrite info_set_eq|by rewrite info_set_ne]. }
  split; [|split; [|done]].
  - split; try done.
    + cbn. by apply info_inv.
    + eapply log_ok_ext; [| |exact C3]; intros a; symmetry; apply Hsame.
    + intros a. unfold tot. cbn. destruct (Hsame a) as [_ ->]. apply C4.
  - split; [|intros a; specialize (F2 a); cbn; lia|done].
    unfold room in *. cbn. change (members (set_info v (with_metadata md) (validatorSet (actor w))))
      with (members (validatorSet (actor w))). lia.
Qed.

(** The validator set after a confirmed change. *)
Lemma confirmed_set c w k :
  vs_inv (validatorSet (actor w)) → admits (validatorSet (actor w)) c → room (1 + k) w →
  ∃ set, apply_change c (validatorSet (actor w)) = Done (tt, set) ∧ vs_inv set ∧
    N.of_nat (size (members set)) + k < 32768.
Proof.
  intros Hinv Hc Hroom. destruct (change_applied _ c Hinv Hc) as (set & Hr & Hinv' & Hp).
  exists set. split_and!; [done|done|]. pose proof (change_members _ c set Hinv Hinv' Hp).
  unfold room in Hroom. lia.
Qed.

Lemma add_stake_run amount w sub :
  amount ≠ 0 → amount ≤ balance w this_actor → registered w = Some sub → sub_stake sub + amount < u256_size →
  gw_addStake amount w = Done (tt, set_registered (Some (MkSubnet (sub_stake sub + amount) (sub_genesisEpoch sub) (sub_circSupply sub)))
    (set_balances (move this_actor ipcGatewayAddr amount (balances w)) w)).
Proof.
  intros Hnz Hle Hreg Hfit. unfold gw_addStake. erewrite bind_run by by apply pay_run.
  rewrite bool_decide_eq_false_2 by done. erewrite bind_run by done. cbn [registered set_balances]. rewrite Hreg.
  erewrite bind_run by (unfold lift; by rewrite u256_add_ok by lia). done.
Qed.

Lemma release_stake_run amount w sub :
  amount ≠ 0 → registered w = Some sub → amount ≤ sub_stake sub → sub_stake sub < u256_size →
  sub_stake sub ≤ balance w ipcGatewayAddr →
  gw_releaseStake amount w = Done (tt, set_balances (move ipcGatewayAddr this_actor amount (balances w))
    (set_registered (Some (MkSubnet (sub_stake sub - amount) (sub_genesisEpoch sub) (sub_circSupply sub))) w)).
Proof.
  intros Hnz Hreg Hle Hfit Hbal. unfold gw_releaseStake. rewrite bool_decide_eq_false_2 by done.
  erewrite bind_run by done. rewrite Hreg. rewrite bool_decide_eq_false_2 by lia.
  erewrite bind_run by (unfold lift; by rewrite u256_sub_ok by lia). erewrite bind_run by done.
  rewrite pay_run; [done|]. change (balance (set_registered _ w) ipcGatewayAddr) with (balance w ipcGatewayAddr). lia.
Qed.

Lemma confirm_deposit_ok v amount l w k :
  covered (MkChange Deposit (encode_uint amount) v :: l) w → 0 < amount < u256_size → fits (1 + k) w →
  ∃ w', confirm_one (MkChange Deposit (encode_uint amount) v) w = Done (tt, w') ∧ covered l w' ∧ fits k w' ∧
    changeSet (actor w') = changeSet (actor w).
Proof.
  intros Hc Ham [F1 F2 F3]. pose proof (covered_fit _ _ Hc) as Hfit. destruct Hc as [C1 C2 C3 C4 C5 C6 C7 C8].
  assert (deposits (MkChange Deposit (encode_uint amount) v :: l) = amount + deposits l) as Hd.
  { unfold deposits. cbn. unfold deposited. cbn. rewrite decode_encode_uint by lia. done. }
  rewrite Hd in *. destruct C6 as (sub & Hreg & Hst & Hbal).
  pose proof (waiting_le_members _ C2) as Hw.
  destruct (confirmed_set (Deposited v amount) w k C2) as (set & Hr & Hinv & Hroom); [|done|].
  { split_and!; [done|lia|lia|]. unfold room in F1. lia. }
  cbn [apply_change] in Hr. pose proof Hr as (Hvals & Hm & _ & Ht)%deposit_info.
  eexists. split; [|split; [|split]].
  - unfold confirm_one. cbn [change_op change_payload change_validator].
    erewrite bind_run by (unfold lift; by rewrite decode_encode_uint by lia).
    erewrite bind_run by by apply on_vset_run.
    apply (add_stake_run _ _ sub); [lia| |done|lia].
    change (balance (set_actor (set_vset set) w) this_actor) with (balance w this_actor). lia.
  - cbn in C3. destruct C3 as (amount' & Henc & Ham' & Hlog).
    apply encode_uint_inj in Henc as <-; [|lia|lia].
    assert (∀ a, confirmedCollateral (info_of set a) = upd (conf w) v (conf w v + amount) a ∧
      totalCollateral (info_of set a) = tot w a) as Hinfo.
    { intros a. unfold info_of. rewrite Hvals. unfold upd, conf, tot. case_bool_decide as Ha.
      - subst a. by rewrite lookup_insert_eq.
      - by rewrite lookup_insert_ne. }
    split; try done.
    + cbn. by rewrite Hm.
    + eapply log_ok_ext; [| |exact Hlog]; intros a; symmetry; apply Hinfo.
    + intros a. unfold tot. cbn. destruct (Hinfo a) as [_ ->]. apply C4.
    + eexists. split; [done|]. cbn. split; [lia|].
      match goal with |- _ ≤ balance ?w1 _ =>
        change (balance w1 ipcGatewayAddr) with (weight_of (move this_actor ipcGatewayAddr amount (balances w)) ipcGatewayAddr) end.
      rewrite move_to by done. change (balance w ipcGatewayAddr) with (weight_of (balances w) ipcGatewayAddr) in Hbal. lia.
    + match goal with |- _ ≤ balance ?w1 _ =>
        change (balance w1 this_actor) with (weight_of (move this_actor ipcGatewayAddr amount (balances w)) this_actor) end.
      rewrite move_from by done. change (balance w this_actor) with (weight_of (balances w) this_actor) in C7. cbn. lia.
    + cbn. rewrite move_total; [done|]. change (amount ≤ balance w this_actor). lia.
  - split; [done|intros a; specialize (F2 a); cbn; lia|done].
  - done.
Qed.

Lemma withdrawn_infos v amount set set' x :
  confirmWithdraw v amount set = Done (x, set') →
  ∀ a, confirmedCollateral (info_of set' a) =
      upd (λ b, confirmedCollateral (info_of set b)) v (confirmedCollateral (info_of set v) - amount) a ∧
    totalCollateral (info_of set' a) = totalCollateral (info_of set a).
Proof.
  intros (Hvals & _)%withdraw_info a. unfold info_of at 1 4. rewrite Hvals. unfold withdrawn_base, upd.
  destruct (_ && _) eqn:Hz; cbn.
  - apply andb_true_iff in Hz as [Hz%bool_decide_eq_true Ht%bool_decide_eq_true].
    destruct (decide (a = v)) as [->|Ha].
    + by rewrite (bool_decide_eq_true_2 (v = v)), lookup_delete_eq, Hz, Ht.
    + by rewrite (bool_decide_eq_false_2 (a = v)), lookup_delete_ne.
  - destruct (decide (a = v)) as [->|Ha].
    + by rewrite (bool_decide_eq_true_2 (v = v)), lookup_insert_eq.
    + by rewrite (bool_decide_eq_false_2 (a = v)), lookup_insert_ne.
Qed.

Lemma confirm_withdraw_ok v amount l w k :
  covered (MkChange Withdraw (encode_uint amount) v :: l) w → 0 < amount < u256_size → fits (1 + k) w →
  ∃ w', confirm_one (MkChange Withdraw (encode_uint amount) v) w = Done (tt, w') ∧ covered l w' ∧ fits k w' ∧
    changeSet (actor w') = changeSet (actor w).
Proof.
  intros Hc Ham [F1 F2 F3]. pose proof (covered_fit _ _ Hc) as Hfit. destruct Hc as [C1 C2 C3 C4 C5 C6 C7 C8].
  change (deposits (MkChange Withdraw (encode_uint amount) v :: l)) with (deposits l) in *.
  cbn in C3. destruct C3 as (amount' & Henc & Ham' & Hle & Hlog). apply encode_uint_inj in Henc as <-; [|lia|lia].
  destruct C6 as (sub & Hreg & Hst & Hbal). pose proof (confirmed_le_total _ v C2) as Hct. unfold conf in Hle.
  destruct (confirmed_set (Withdrawn v amount) w k C2) as (set & Hr & Hinv & Hroom); [split_and!; [done|lia|lia|lia]|done|].
  cbn [apply_change] in Hr. pose proof (withdrawn_infos _ _ _ _ _ Hr) as Hinfo.
  pose proof Hr as (_ & Hm & _ & _ & Ht & _)%withdraw_info.
  destruct (add_release_run (block_number w) v amount (releaseQueue (actor w))) as (q & Hq & Hun & Hlock & Hidx);
    [done|specialize (F2 v); lia|].
  eexists. split; [|split; [|split]].
  - unfold confirm_one. cbn [change_op change_payload change_validator].
    erewrite bind_run by (unfold lift; by rewrite decode_encode_uint by lia).
    erewrite bind_run by by apply on_vset_run. erewrite bind_run by done. erewrite bind_run by by apply on_queue_run.
    apply (release_stake_run _ _ sub); [lia|done|lia|lia|exact Hbal].
  - split; try done.
    + cbn. by rewrite Hm.
    + eapply log_ok_ext; [| |exact Hlog]; intros a; symmetry; apply Hinfo.
    + intros a. unfold tot. cbn. destruct (Hinfo a) as [_ ->]. apply C4.
    + eexists. split; [done|]. cbn. split; [lia|].
      match goal with |- _ ≤ balance ?w1 _ =>
        change (balance w1 ipcGatewayAddr) with (weight_of (move ipcGatewayAddr this_actor amount (balances w)) ipcGatewayAddr) end.
      rewrite move_from by done. change (balance w ipcGatewayAddr) with (weight_of (balances w) ipcGatewayAddr) in Hbal. lia.
    + match goal with |- _ ≤ balance ?w1 _ =>
        change (balance w1 this_actor) with (weight_of (move ipcGatewayAddr this_actor amount (balances w)) this_actor) end.
      rewrite move_to by done. change (balance w this_actor) with (weight_of (balances w) this_actor) in C7. cbn. lia.
    + cbn. rewrite move_total; [done|]. change (amount ≤ balance w ipcGatewayAddr). lia.
  - split; [done| |cbn; by rewrite Hlock]. intros a. cbn. specialize (F2 a). specialize (Hidx a). lia.
  - done.
Qed.

(** The loop: the first changes are confirmed, the others are left. *)
Lemma confirm_one_ok c l w k :
  covered (c :: l) w → fits (1 + k) w →
  ∃ w', confirm_one c w = Done (tt, w') ∧ covered l w' ∧ fits k w' ∧ changeSet (actor w') = changeSet (actor w).
Proof.
  intros Hc Hf. pose proof (cv_log _ _ Hc) as Hlog. destruct c as [op p v]. cbn in Hlog. destruct op.
  - destruct Hlog as (amount & -> & Ham & _). by apply confirm_deposit_ok.
  - destruct Hlog as (amount & -> & Ham & _). by apply confirm_withdraw_ok.
  - by apply confirm_metadata_ok.
  - done.
Qed.

Lemma covered_purge i l w : covered l w → covered l (set_actor (set_log (purgeChange i (changeSet (actor w)))) w).
Proof. by intros [C1 C2 C3 C4 C5 C6 C7 C8]. Qed.
Lemma fits_purge i k w : fits k w → fits k (set_actor (set_log (purgeChange i (changeSet (actor w)))) w).
Proof. by intros [F1 F2 F3]. Qed.

Lemma confirm_changes_ok n i rest w k :
  covered (changes_from (changeSet (actor w)) i n ++ rest) w → fits (N.of_nat n + k) w →
  ∃ w', confirm_changes n i w = Done (tt, w') ∧ covered rest w' ∧ fits k w' ∧
    changeSet (actor w') = purged i n (changeSet (actor w)).
Proof.
  revert i w. induction n as [|n IH]; intros i w Hc Hf.
  { exists w. split_and!; try done. }
  unfold changes_from in Hc. cbn [range_up fmap list_fmap app] in Hc. rewrite <-N.add_1_r in Hc.
  fold (changes_from (changeSet (actor w)) (i + 1) n) in Hc.
  destruct (confirm_one_ok _ _ _ (N.of_nat n + k) Hc) as (w1 & Hr & Hc1 & Hf1 & Hlog).
  { replace (1 + (N.of_nat n + k)) with (N.of_nat (S n) + k) by lia. done. }
  set (w2 := set_actor (set_log (purgeChange i (changeSet (actor w1)))) w1).
  destruct (IH (i + 1) w2) as (w' & Hr' & Hc' & Hf' & Hlog').
  - replace (changes_from (changeSet (actor w2)) (i + 1) n) with (changes_from (changeSet (actor w)) (i + 1) n).
    + by apply covered_purge.
    + symmetry. cbn. rewrite changes_purged by lia. by rewrite Hlog.
  - by apply fits_purge.
  - exists w'. split_and!; [|done|done|].
    + cbn [confirm_changes]. erewrite bind_run by done. erewrite bind_run by exact Hr. erewrite bind_run by done. exact Hr'.
    + rewrite Hlog'. cbn. by rewrite Hlog.
Qed.

Lemma solvent_covered w : solvent 0 w → is_Some (registered w) → covered (pend w) w.
Proof.
  intros [S1 S2 S3 S4 Sv S5 S6 S7 S8] [sub Hreg]. unfold registration in S6. rewrite Hreg in S6.
  destruct S6 as (Hb & Hk & Hst & Hbal). split; try done.
  - by exists sub.
  - unfold owed, held in S7. rewrite Hb in S7. lia.
Qed.
Lemma covered_solvent w :
  covered (pend w) w → startConfigurationNumber (changeSet (actor w)) ≤ nextConfigurationNumber (changeSet (actor w)) →
  solvent 0 w.
Proof.
  intros [C1 C2 C3 C4 [Hb Hk] (sub & Hreg & Hst & Hbal) C7 C8] Hn. split; try done.
  - congruence.
  - unfold registration. by rewrite Hreg.
  - unfold owed, held. rewrite Hb. lia.
Qed.

Lemma changes_split l i n m : (n ≤ m)%nat → changes_from l i m = changes_from l i n ++ changes_from l (i + N.of_nat n) (m - n).
Proof.
  intros Hle. unfold changes_from. rewrite <-fmap_app, <-range_up_app. do 2 f_equal. lia.
Qed.
Lemma changes_after_purge l i n j m : i + N.of_nat n ≤ j → changes_from (purged i n l) j m = changes_from l j m.
Proof.
  revert i l. induction n as [|n IH]; intros i l Hj; [done|]. cbn. rewrite IH by lia. apply changes_purged. lia.
Qed.

(** The changes up to a number that is in the log are confirmed without a revert. *)
Lemma confirm_ok n w :
  let l := changeSet (actor w) in
  solvent 0 w → is_Some (registered w) →
  startConfigurationNumber l ≤ n < nextConfigurationNumber l → n + 1 < u64_size →
  fits (n + 1 - startConfigurationNumber l) w →
  ∃ w', confirmChange n w = Done (tt, w') ∧ solvent 0 w' ∧ is_Some (registered w') ∧
    startConfigurationNumber (changeSet (actor w')) = n + 1 ∧
    nextConfigurationNumber (changeSet (actor w')) = nextConfigurationNumber l.
Proof.
  intros l Hs Hreg Hn Hmax Hf. pose proof (solvent_covered w Hs Hreg) as Hc.
  set (k := N.to_nat (n + 1 - startConfigurationNumber l)).
  unfold pend in Hc. fold l in Hc. rewrite (changes_split _ _ k) in Hc by lia.
  destruct (confirm_changes_ok k (startConfigurationNumber l) _ w 0 Hc) as (w1 & Hr & Hc1 & _ & Hlog).
  { replace (N.of_nat k + 0) with (n + 1 - startConfigurationNumber l) by lia. done. }
  fold l in Hlog. destruct (purged_numbers (startConfigurationNumber l) k l) as [Hnext Hstart].
  set (w' := set_actor (set_log (set_start (n + 1) (changeSet (actor w1)))) w1).
  assert (covered (pend w') w') as Hc'.
  { assert (pend w' = changes_from l (startConfigurationNumber l + N.of_nat k)
      (N.to_nat (nextConfigurationNumber l - startConfigurationNumber l) - k)) as ->; [|by destruct Hc1; split].
    unfold pend. cbn. rewrite Hlog, Hnext. change (changes_from (set_start (n + 1) ?x)) with (changes_from x).
    rewrite changes_after_purge by lia. f_equal; lia. }
  exists w'. split_and!; [| | | |].
  - unfold confirmChange. erewrite bind_run by done. erewrite bind_run by done. fold l.
    rewrite bool_decide_eq_false_2 by lia. rewrite bool_decide_eq_false_2 by lia. fold k.
    erewrite bind_run by exact Hr.
    erewrite bind_run by (unfold lift; by rewrite u64_checked_add_ok by lia). done.
  - apply covered_solvent; [done|]. cbn. rewrite Hlog, Hnext. lia.
  - destruct (cv_stake _ _ Hc') as (sub & Hsub & _). by exists sub.
  - done.
  - cbn. by rewrite Hlog, Hnext.
Qed.

(** ** The transition system *)

Inductive Action :=
| PreFund (sender value : N)
| PreRelease (sender amount : N)
| Join (sender value : N) (publicKey : list byte)
| Stake (sender value : N)
| Unstake (sender amount : N)
| Leave (sender : N)
| Kill
| Claim (sender : N)
| AddBootstrapNode (sender : N) (netAddress : string)
| Pause (sender : N)
| Unpause (sender : N)
| Confirm (configurationNumber : N).

Definition perform (a : Action) : stm World string unit :=
  match a with
  | PreFund s v => preFund s v
  | PreRelease s v => preRelease s v
  | Join s v k => join s v k
  | Stake s v => stake s v
  | Unstake s v => unstake s v
  | Leave s => leave s
  | Kill => kill
  | Claim s => claim_reward s
  | AddBootstrapNode s n => addBootstrapNode s n
  | Pause s => pause s
  | Unpause s => unpause s
  | Confirm n => confirmChange n
  end.

(** The calls come from accounts other than the two contracts.  Changes are confirmed on the
    submission of a checkpoint, which the gateway only takes from a registered subnet. *)
Definition allowed (w : World) (a : Action) : Prop :=
  match a with
  | PreFund s _ | PreRelease s _ | Join s _ _ | Stake s _ | Unstake s _ | Leave s | Claim s =>
      s ≠ this_actor ∧ s ≠ ipcGatewayAddr
  | Confirm _ => is_Some (registered w)
  | _ => True
  end.

Definition capacity (w : World) : Prop := fits (1 + N.of_nat (length (pend w))) w.

(** Between calls, blocks pass, and everything else on the chain moves funds: not those of the
    subnet actor, and the gateway keeps the stake of the subnet. *)
Record elsewhere (w w' : World) : Prop := {
  el_actor : actor w' = actor w;
  el_stake : sub_stake <$> registered w' = sub_stake <$> registered w;
  el_funds : balance w this_actor ≤ balance w' this_actor;
  el_gateway sub : registered w' = Some sub → sub_stake sub ≤ balance w' ipcGatewayAddr;
  el_supply : total_weight (balances w') < u256_size
}.

Inductive step : World → World → Prop :=
| step_call a w w' : allowed w a → capacity w → perform a w = Done (tt, w') → step w w'
| step_elsewhere w w' : elsewhere w w' → step w w'.

Lemma elsewhere_solvent w w' : solvent 0 w → elsewhere w w' → solvent 0 w'.
Proof.
  intros [S1 S2 S3 S4 Sv S5 S6 S7 S8] [E1 E2 E3 E4 E5].
  split; unfold pend, conf, tot, owed in *; rewrite ?E1; try done.
  - unfold registration in *. destruct (registered w') as [sub'|] eqn:Hr'; destruct (registered w) as [sub|];
      try done; cbn in E2; rewrite E1; [|done]. injection E2 as E2. destruct S6 as (? & ? & ? & ?).
    split_and!; [done|done|congruence|by apply E4].
  - unfold pend in *. rewrite E1. lia.
Qed.

Lemma confirm_solvent n w x w' :
  solvent 0 w → is_Some (registered w) → capacity w → confirmChange n w = Done (x, w') → solvent 0 w'.
Proof.
  intros Hs Hreg Hcap Hr. pose proof Hr as Hr0. unfold confirmChange in Hr0.
  apply stm_bind_Done in Hr0 as (next & ? & [= <- <-] & Hr0). apply stm_bind_Done in Hr0 as (start & ? & [= <- <-] & Hr0).
  case_bool_decide as Hnext; [done|]. case_bool_decide as Hstart; [by injection Hr0 as _ <-|].
  apply stm_bind_Done in Hr0 as (? & w1 & _ & Hr0).
  apply stm_bind_Done in Hr0 as (m & ? & (? & [Hm1 Hm2]%checked_inv & _)%lift_Done & _).
  assert (N.of_nat (length (pend w)) = nextConfigurationNumber (changeSet (actor w)) - startConfigurationNumber (changeSet (actor w))) as Hlen.
  { unfold pend, changes_from. rewrite length_fmap, length_range_up. lia. }
  destruct (confirm_ok n w Hs Hreg) as (w2 & Hr2 & Hs2 & _); [lia|lia| |].
  - destruct Hcap as [F1 F2 F3]. unfold room in *. split; [unfold room; lia|intros a; specialize (F2 a); lia|done].
  - rewrite Hr2 in Hr. injection Hr as _ <-. done.
Qed.

Lemma call_solvent a w w' :
  solvent 0 w → allowed w a → capacity w → perform a w = Done (tt, w') → solvent 0 w'.
Proof.
  intros Hs Hal Hcap Hr.
  assert (room 1 w) as Hroom by (destruct Hcap as [F1 _ _]; unfold room in *; lia).
  destruct a as [s v|s v|s v k|s v|s v|s| |s|s n|s|s|n]; cbn [perform allowed] in *.
  - destruct Hal. by eapply preFund_solvent.
  - destruct Hal. by eapply preRelease_solvent.
  - destruct Hal. by eapply join_solvent.
  - destruct Hal. by eapply stake_solvent.
  - destruct Hal. by eapply unstake_solvent.
  - destruct Hal. by eapply leave_solvent.
  - by eapply kill_solvent.
  - unfold claim_reward in Hr. apply stm_bind_Done in Hr as (? & ? & <-%view_notPaused & Hr).
    apply stm_bind_Done in Hr as (? & w1 & Hc & [= <-]). destruct Hal. by eapply claim_solvent.
  - unfold addBootstrapNode in Hr. apply stm_bind_Done in Hr as (? & ? & <-%view_notPaused & Hr).
    apply stm_bind_Done in Hr as (? & ? & [= <- <-] & Hr). destruct (negb _); [done|].
    case_bool_decide; [done|]. injection Hr as <-. by apply (solvent_same 0 w).
  - unfold pause, enforceIsContractOwner in Hr. apply stm_bind_Done in Hr as (? & w1 & Ho & Hr).
    case_bool_decide; [|done]. injection Ho as _ <-.
    apply stm_bind_Done in Hr as (? & ? & <-%view_notPaused & [= <-]). by apply (solvent_same 0 w).
  - unfold unpause, enforceIsContractOwner in Hr. apply stm_bind_Done in Hr as (? & w1 & Ho & Hr).
    case_bool_decide; [|done]. injection Ho as _ <-. apply stm_bind_Done in Hr as (? & ? & [= <- <-] & Hr).
    destruct (negb _); [done|]. injection Hr as <-. by apply (solvent_same 0 w).
  - by eapply confirm_solvent.
Qed.

(** ** Initial balances *)

(** What is booked as initial balances, and what is counted as the initial supply. *)
Definition booked_genesis (w : World) : N := total_weight (genesisBalance (genesis (actor w))).
Definition circ (w : World) : N := genesisCircSupply (genesis (actor w)).

Definition same_books (w w' : World) : Prop :=
  genesisBalance (genesis (actor w')) = genesisBalance (genesis (actor w)) ∧ circ w' = circ w.
#[local] Instance same_books_po : PreOrder same_books.
Proof using. split; [by intros w|]. intros w1 w2 w3 [Hg Hc] [Hg' Hc']. split; congruence. Qed.

Lemma books_actor f :
  (∀ s, genesisBalance (genesis (f s)) = genesisBalance (genesis s) ∧ genesisCircSupply (genesis (f s)) = genesisCircSupply (genesis s)) →
  keeps same_books (modify (E := string) (set_actor f)).
Proof using. intros Hf. apply keeps_modify. intros w. apply Hf. Qed.
Lemma books_elsewhere f : (∀ w, actor (f w) = actor w) → keeps same_books (modify (E := string) f).
Proof using. intros Hf. apply keeps_modify. intros w. unfold same_books, circ. by rewrite Hf. Qed.
Lemma books_vset {A} (tx : stm ValidatorSet string A) : keeps same_books (on_vset tx).
Proof using. intros w a w' (v & _ & ->)%on_vset_inv. done. Qed.
Lemma books_changes {A} (tx : stm StakingChangeLog string A) : keeps same_books (on_changes tx).
Proof using. intros w a w' (v & _ & ->)%on_changes_inv. done. Qed.
Lemma books_queue {A} (tx : stm StakingReleaseQueue string A) : keeps same_books (on_queue tx).
Proof using. intros w a w' (v & _ & ->)%on_queue_inv. done. Qed.
Lemma books_pay from to amount : keeps same_books (pay from to amount).
Proof using. intros w a w' [_ ->]%pay_inv. done. Qed.
Lemma books_send from to amount : keeps same_books (sendValue from to amount).
Proof using. intros w a w' [_ ->]%send_inv. done. Qed.
Lemma books_genesis_validator v : keeps same_books (add_genesis_validator v).
Proof using. apply books_actor. intros s. cbv zeta. by case_bool_decide. Qed.
#[local] Hint Resolve books_vset books_changes books_queue books_pay books_send books_genesis_validator : keeps.
#[local] Hint Extern 1 (keeps same_books (modify (set_actor _))) => (apply books_actor; intros ?; done) : keeps.
#[local] Hint Extern 2 (keeps same_books (modify _)) => (apply books_elsewhere; intros ?; done) : keeps.

Lemma books_confirm n i : keeps same_books (confirm_changes n i).
Proof using. revert i. induction n as [|n IH]; intros i; cbn [confirm_changes]; unfold confirm_one, gw_releaseStake, gw_addStake; solve_keeps. Qed.
#[local] Hint Resolve books_confirm : keeps.

(** What a call pays out of the initial balances and leaves booked: a validator that leaves before the subnet is registered. *)
Definition returned (a : Action) (w : World) : N :=
  match a with
  | Leave s => if bootstrapped (actor w) then 0 else genesis_balance w s
  | _ => 0
  end.

Lemma return_books sender w x w' :
  return_genesis_balance sender w = Done (x, w') →
  circ w' + genesis_balance w sender = circ w ∧ booked_genesis w' = booked_genesis w.
Proof using. clear Hdistinct.
  unfold return_genesis_balance. intros Hr. apply stm_bind_Done in Hr as (have & ? & [= <- <-] & Hr).
  case_bool_decide as Hz; [injection Hr as _ <-; lia|]. apply stm_bind_Done in Hr as (c & ? & [= <- <-] & Hr).
  apply stm_bind_Done in Hr as (c' & ? & (? & [-> Hle]%u256_sub_inv & [= -> ->])%lift_Done & Hr).
  apply stm_bind_Done in Hr as (? & w1 & [= _ <-] & Hr). apply books_send in Hr as [Hg Hc]. unfold booked_genesis. rewrite Hg, Hc. unfold circ. cbn. lia.
Qed.

Lemma leave_books sender w w' :
  leave sender w = Done (tt, w') → circ w' + returned (Leave sender) w = circ w ∧ booked_genesis w' = booked_genesis w.
Proof using. clear Hdistinct.
  unfold leave. intros Hr. apply stm_bind_Done in Hr as (? & ? & <-%view_notPaused & Hr). apply stm_bind_Done in Hr as (? & ? & <-%view_notKilled & Hr).
  apply stm_bind_Done in Hr as (boot & ? & [= <- <-] & Hr). cbn [returned].
  apply stm_bind_Done in Hr as (? & ? & <-%view_mode_if & Hr).
  apply stm_bind_Done in Hr as (amount & ? & [= <- <-] & Hr). case_bool_decide; [done|].
  apply stm_bind_Done in Hr as (? & w1 & [= _ <-] & Hr). destruct (bootstrapped (actor w)) eqn:Hboot; cbn [negb] in Hr.
  - unfold withdraw in Hr. assert (keeps same_books (on_changes (withdrawRequest sender (totalValidatorCollateral w sender)) ;; on_vset (recordWithdraw sender (totalValidatorCollateral w sender)))) as Hk by solve_keeps.
    apply Hk in Hr as [Hg Hc]. unfold booked_genesis. rewrite Hg, Hc. cbn. unfold circ. cbn. lia.
  - apply stm_bind_Done in Hr as (? & w2 & [Hc Hb]%return_books & Hr).
    assert (keeps same_books (withdrawWithConfirm sender (totalValidatorCollateral w sender))) as Hk by (unfold withdrawWithConfirm; solve_keeps).
    apply Hk in Hr as [Hg' Hc']. unfold booked_genesis in *. rewrite Hg', Hc', Hb. split; [exact Hc|done].
Qed.
Lemma preFund_books sender value w w' :
  preFund sender value w = Done (tt, w') → circ w' + booked_genesis w = circ w + booked_genesis w'.
Proof using. clear Hdistinct.
  unfold preFund. intros Hr. apply stm_bind_Done in Hr as (? & w1 & [Hg Hc]%books_pay & Hr). case_bool_decide; [done|].
  apply stm_bind_Done in Hr as (boot & ? & [= <- <-] & Hr). destruct (bootstrapped _); [done|].
  apply stm_bind_Done in Hr as (have & ? & [= <- <-] & Hr). apply stm_bind_Done in Hr as (c & ? & [= <- <-] & Hr).
  apply stm_bind_Done in Hr as (have' & ? & (? & [-> _]%u256_add_inv & [= -> ->])%lift_Done & Hr).
  apply stm_bind_Done in Hr as (c' & ? & (? & [-> _]%u256_add_inv & [= -> ->])%lift_Done & [= <-]). unfold booked_genesis, circ in *. cbn. rewrite <-Hg, <-Hc.
  pose proof (insert_weight (genesisBalance (genesis (actor w1))) sender (genesis_balance w1 sender + value)) as Hi.
  unfold genesis_balance, weight_of in *. lia.
Qed.
Lemma preRelease_books sender amount w w' :
  preRelease sender amount w = Done (tt, w') → circ w' + booked_genesis w = circ w + booked_genesis w'.
Proof using. clear Hdistinct.
  unfold preRelease. intros Hr. case_bool_decide; [done|]. apply stm_bind_Done in Hr as (boot & ? & [= <- <-] & Hr).
  destruct (bootstrapped _); [done|]. apply stm_bind_Done in Hr as (have & ? & [= <- <-] & Hr). case_bool_decide as Hle; [done|].
  apply stm_bind_Done in Hr as (c & ? & [= <- <-] & Hr).
  apply stm_bind_Done in Hr as (have' & ? & (? & [-> Hh]%u256_sub_inv & [= -> ->])%lift_Done & Hr).
  apply stm_bind_Done in Hr as (c' & ? & (? & [-> Hc']%u256_sub_inv & [= -> ->])%lift_Done & Hr).
  apply stm_bind_Done in Hr as (? & w1 & [= _ <-] & [Hg Hc]%books_send). unfold booked_genesis, circ in *. rewrite Hg, Hc. cbn.
  pose proof (insert_weight (genesisBalance (genesis (actor w))) sender (genesis_balance w sender - amount)) as Hi.
  unfold genesis_balance, weight_of in *. lia.
Qed.

Lemma same_books_sum w w' : same_books w w' → circ w' + booked_genesis w + 0 = circ w + booked_genesis w'.
Proof using. clear Hdistinct. intros [Hg Hc]. unfold booked_genesis. rewrite Hg. lia. Qed.

Lemma call_books a w w' :
  perform a w = Done (tt, w') → circ w' + booked_genesis w + returned a w = circ w + booked_genesis w'.
Proof using. clear Hdistinct.
  assert (∀ m : stm World string unit, keeps same_books m → m w = Done (tt, w') → circ w' + booked_genesis w + 0 = circ w + booked_genesis w') as Hkeep.
  { intros m Hm Hr. by apply same_books_sum, (Hm _ tt). }
  destruct a as [s v|s v|s v k|s v|s v|s| |s|s n|s|s|n]; cbn [perform]; intros Hr.
  1: by rewrite (preFund_books _ _ _ _ Hr), N.add_0_r.
  1: by rewrite (preRelease_books _ _ _ _ Hr), N.add_0_r.
  4: destruct (leave_books _ _ _ Hr) as [Hc Hb]; rewrite Hb; lia.
  all: revert Hr; apply Hkeep; unfold join, stake, unstake, kill, claim_reward, claimCollateral, addBootstrapNode, pause, unpause, confirmChange, whenNotPaused, notKilled,
    enforceIsContractOwner, enforceCollateralValidation, enforce_mode, depositWithConfirm, deposit, withdraw, withdrawWithConfirm, bootstrapSubnetIfNeeded, set_bootstrapped, gw_register, gw_kill; solve_keeps.
Qed.

(** A subnet that has just been created, by a constructor that did not revert. *)
Definition initial (w : World) : Prop :=
  ∃ p, actor_constructor p = Done (actor w) ∧ cp_permissionMode p ≠ Federated ∧
    1 ≤ cp_activeValidatorsLimit p < 32768 ∧ registered w = None ∧ total_weight (balances w) < u256_size.

Lemma initial_solvent w : initial w → solvent 0 w.
Proof.
  intros (p & Hp & Hmode & Hlim & Hreg & Hsup). unfold actor_constructor in Hp.
  repeat (case_match; [done|]). injection Hp as Hp. destruct w as [s r b n]. cbn in *. subst s r.
  split; try done.
  - by apply init_inv.
  - change (0 + 0 ≤ weight_of b this_actor). lia.
Qed.

Lemma reachable_solvent w0 w : initial w0 → rtc step w0 w → solvent 0 w.
Proof.
  intros H0 Hsteps. apply initial_solvent in H0. induction Hsteps as [|w1 w2 w3 Hst _ IH]; [done|]. apply IH.
  destruct Hst as [a w1 w2 Hal Hcap Hr|w1 w2 Hel]; [by eapply call_solvent|by eapply elsewhere_solvent].
Qed.

(** A sequence of calls, with what they have returned of initial balances. *)
Inductive history (w0 : World) : N → World → Prop :=
| history_start : history w0 0 w0
| history_call r a w w' :
    history w0 r w → allowed w a → capacity w → perform a w = Done (tt, w') → history w0 (r + returned a w) w'
| history_elsewhere r w w' : history w0 r w → elsewhere w w' → history w0 r w'.

Lemma history_steps w0 r w : history w0 r w → rtc step w0 w.
Proof using.
  induction 1 as [|r a w w' _ IH Hal Hcap Hr|r w w' _ IH Hel]; [done|eapply rtc_r; [exact IH|by eapply step_call]|eapply rtc_r; [exact IH|by apply step_elsewhere]].
Qed.

Lemma history_books w0 r w : initial w0 → history w0 r w → booked_genesis w = circ w + r.
Proof using.
  clear Hdistinct. intros (p & Hp & _). induction 1 as [|r a w w' _ IH _ _ Hr|r w w' _ IH Hel].
  - unfold actor_constructor in Hp. repeat (case_match; [done|]). injection Hp as Hp. unfold booked_genesis, circ. rewrite <-Hp. done.
  - apply call_books in Hr. lia.
  - unfold booked_genesis, circ in *. by rewrite (el_actor _ _ Hel).
Qed.

(** Everything that somebody is to get back: before the subnet is registered the collateral of its validators and the initial
    balances of all accounts, and always the deposits that are still to be confirmed and the releases that are still to be claimed. *)
Definition claims (w : World) : N :=
  (if bootstrapped (actor w) then 0 else totalConfirmedCollateral (validatorSet (actor w)) + booked_genesis w) +
  deposits (pend w) + unclaimed (releaseQueue (actor w)).

(** C4: a subnet with collateral (not a federated one), whatever is called on it in any order by accounts other than the two contracts while its
    queues have room, and whatever happens elsewhere on the chain.
    The balance of the actor covers the collateral and the initial supply that it holds before the subnet is registered, the
    deposits that are still to be confirmed, and the releases that are still to be claimed.  It covers the initial balances of all accounts
    too, except for what has been returned to validators that left before the subnet was registered, whose balances stay
    booked: the initial balances exceed the initial supply by exactly that amount.
    The gateway has for the subnet exactly the confirmed collateral of its validators. *)
Theorem always_solvent w0 r w :
  initial w0 → history w0 r w →
  owed w ≤ balance w this_actor ∧
  claims w ≤ balance w this_actor + r ∧ booked_genesis w = circ w + r ∧
  totalConfirmedCollateral (validatorSet (actor w)) = total_confirmed (validators (validatorSet (actor w))) ∧
  (∀ sub, registered w = Some sub →
    sub_stake sub = totalConfirmedCollateral (validatorSet (actor w)) ∧ sub_stake sub ≤ balance w ipcGatewayAddr).
Proof.
  intros H0 Hh. pose proof (reachable_solvent w0 w H0 (history_steps _ _ _ Hh)) as Hs. pose proof (sv_funds _ _ Hs) as Hf.
  pose proof (history_books _ _ _ H0 Hh) as Hb. split; [lia|]. split.
  { unfold owed, held in Hf. unfold claims. rewrite Hb. unfold circ. destruct (bootstrapped (actor w)); lia. }
  split; [done|]. split; [apply (vi_total _ (sv_set _ _ Hs))|].
  intros sub Hreg. pose proof (sv_registered _ _ Hs) as Hr. unfold registration in Hr. rewrite Hreg in Hr.
  by destruct Hr as (_ & _ & ? & ?).
Qed.

(** The changes that validators have queued can always be confirmed: as
    long as the subnet is registered and the bounded queues have room, confirming any number of
    them that is in the log does not revert, whatever has been called before. *)
Lemma changes_confirmable w0 w n :
  let l := changeSet (actor w) in
  initial w0 → rtc step w0 w → is_Some (registered w) →
  startConfigurationNumber l ≤ n < nextConfigurationNumber l → n + 1 < u64_size → capacity w →
  ∃ w', confirmChange n w = Done (tt, w') ∧ startConfigurationNumber (changeSet (actor w')) = n + 1 ∧
    rtc step w0 w'.
Proof.
  intros l H0 Hsteps Hreg Hn Hmax Hcap. pose proof (reachable_solvent w0 w H0 Hsteps) as Hs.
  destruct (confirm_ok n w Hs Hreg Hn Hmax) as (w' & Hr & _ & _ & Hstart & _).
  { eapply fits_fewer; [exact Hcap|]. unfold pend, changes_from. rewrite length_fmap, length_range_up. fold l. lia. }
  exists w'. split_and!; [done|done|]. eapply rtc_r; [exact Hsteps|]. by apply (step_call (Confirm n)).
Qed.
End solvency.

(** ** Examples *)

Module SampleSubnet.
#[export] Instance sample_actor : ActorEnv := {|
  this_actor := 100;
  ipcGatewayAddr := 200;
  contractOwner := 7;
  accepts _ _ := true;
  keccak256 l := match l with b :: _ => Byte.to_N b | [] => 0 end;
  networkDepth := 0;
  maxTreeDepth := 10
|}.

Definition collateral_params : ConstructorParams := MkConstructor 10 1 5 2 67 18 Collateral.

Definition new_actor : SubnetActorStorage :=
  match actor_constructor collateral_params with
  | Done s => s
  | _ => MkActor (MkParams 0 0 0 0 0) false false false (MkGenesis 0 [] ∅ []) no_validators (MkLog 0 0 ∅) (MkQueue 0 ∅) ∅ ∅
  end.
Definition world0 : World := MkWorld new_actor None {[ 7 := 50; 8 := 50; 9 := 50 ]} 1.

(** The key of an address of one byte. *)
Definition key_of (b : byte) : list byte := x04 :: b :: replicate 63 x00.

Definition run (a : Action) (w : World) : World := match perform a w with Done (_, w') => w' | _ => w end.
Definition world1 : World := run (Join 7 20 (key_of x07)) world0.
Definition world2 : World := run (Join 8 30 (key_of x08)) world1.
Definition world3 : World := run (Unstake 8 5) world2.
End SampleSubnet.
Import SampleSubnet.

Lemma sample_distinct : this_actor ≠ ipcGatewayAddr.
Proof. by vm_compute. Qed.
Lemma world0_initial : initial world0.
Proof. exists collateral_params. split_and!; by vm_compute. Qed.

(** A check of [capacity]. *)
Definition has_capacity (w : World) : bool :=
  let k := 1 + N.of_nat (length (pend w)) in
  bool_decide (N.of_nat (size (members (validatorSet (actor w)))) + k < 32768) &&
  bool_decide (map_Forall (λ _ r, startIdx r + rel_length r + k < u16_size) (releases (releaseQueue (actor w)))) &&
  bool_decide (k < u16_size) &&
  bool_decide (block_number w + lockingDuration (releaseQueue (actor w)) < u256_size).

Lemma has_capacity_spec w : has_capacity w = true → capacity w.
Proof.
  unfold has_capacity. rewrite !andb_true_iff, !bool_decide_eq_true. intros [[[Hm Hr] Hk] Hl]. split; [exact Hm| |exact Hl].
  intros a. unfold releases_of. destruct (releases (releaseQueue (actor w)) !! a) as [r|] eqn:Ha; cbn; [by apply (Hr a)|lia].
Qed.

Lemma run_step a w : allowed w a → has_capacity w = true → is_done (perform a w) = true → step w (run a w).
Proof.
  intros Hal Hcap Hd. apply (step_call a); [done|by apply has_capacity_spec|]. unfold run.
  destruct (perform a w) as [[[] w']| | | |]; done.
Qed.

Lemma sample_steps : rtc step world0 world3.
Proof.
  apply (rtc_l _ _ world1); [|apply (rtc_l _ _ world2); [|apply rtc_once]]; (apply run_step; [done|by vm_compute|by vm_compute]).
Qed.

(** Two accounts fund the subnet, and one of them joins and leaves: its balance is returned, and stays booked. *)
Definition early1 : World := run (PreFund 7 10) world0.
Definition early2 : World := run (PreFund 9 4) early1.
Definition early3 : World := run (Join 7 5 (key_of x07)) early2.
Definition early4 : World := run (Leave 7) early3.

Lemma early_history : history world0 10 early4.
Proof.
  assert (∀ r a w, history world0 r w → allowed w a → has_capacity w = true → is_done (perform a w) = true → history world0 (r + returned a w) (run a w)) as Hcall.
  { intros r a w Hw Hal Hcap Hd. apply (history_call _ r a w); [done|done|by apply has_capacity_spec|]. unfold run. by destruct (perform a w) as [[[] w']| | | |]. }
  assert (history world0 0 early3) as H3.
  { apply (Hcall 0 (Join 7 5 (key_of x07)) early2); [|done|by vm_compute..]. apply (Hcall 0 (PreFund 9 4) early1); [|done|by vm_compute..].
    apply (Hcall 0 (PreFund 7 10) world0); [apply history_start|done|by vm_compute..]. }
  apply (Hcall 0 (Leave 7) early3); [exact H3|done|by vm_compute..].
Qed.

Lemma always_solvent_witness :
  (claims early4 = 14 ∧ balance early4 100 = 4) ∧
  owed early4 ≤ balance early4 100 ∧
  claims early4 ≤ balance early4 100 + 10 ∧ booked_genesis early4 = circ early4 + 10 ∧
  totalConfirmedCollateral (validatorSet (actor early4)) = total_confirmed (validators (validatorSet (actor early4))) ∧
  (∀ sub, registered early4 = Some sub →
    sub_stake sub = totalConfirmedCollateral (validatorSet (actor early4)) ∧ sub_stake sub ≤ balance early4 200).
Proof. split; [by vm_compute|]. apply (always_solvent sample_distinct world0 10 early4 world0_initial early_history). Defined.

Lemma changes_confirmable_witness :
  ∃ w', confirmChange 3 world3 = Done (tt, w') ∧ startConfigurationNumber (changeSet (actor w')) = 3 + 1 ∧
    rtc step world0 w'.
Proof.
  apply (changes_confirmable sample_distinct world0 world3 3 world0_initial sample_steps); [by eexists; vm_compute|by vm_compute|by vm_compute|apply has_capacity_spec; by vm_compute].
Defined.
