(* ===== verification/SubnetRuns.v ===== *)
(** * Runs of the subnet actor

    What the funds of a subnet do not cover, although the actor is always solvent: initial
    balances that are paid out twice, deposits that are stranded when the subnet is killed, and
    genesis validators that are not what the validator set says. *)

From Stdlib Require Import Strings.Byte.
From S2P Require Import Prelude Weights PQ ValidatorSet Abi Staking GatewayFinality SubnetActor Solvency.

Section runs.
Context `{ActorEnv}.

(** ** Initial balances *)

Definition same_genesis_balance (w w' : World) : Prop :=
  genesisBalance (genesis (actor w')) = genesisBalance (genesis (actor w)) ∧
  bootstrapped (actor w') = bootstrapped (actor w).
#[export] Instance same_genesis_balance_po : PreOrder same_genesis_balance.
Proof. split; [by intros w|]. intros w1 w2 w3 [??] [??]. split; congruence. Qed.

Lemma keeps_gb_modify f :
  (∀ s, genesisBalance (genesis (f s)) = genesisBalance (genesis s) ∧ bootstrapped (f s) = bootstrapped s) →
  keeps same_genesis_balance (modify (E := string) (set_actor f)).
Proof. intros Hf. apply keeps_modify. intros w. apply Hf. Qed.
Lemma keeps_gb_vset {A} (tx : stm ValidatorSet string A) : keeps same_genesis_balance (on_vset tx).
Proof. intros w a w' (v & _ & ->)%on_vset_inv. done. Qed.
Lemma keeps_gb_changes {A} (tx : stm StakingChangeLog string A) : keeps same_genesis_balance (on_changes tx).
Proof. intros w a w' (v & _ & ->)%on_changes_inv. done. Qed.
Lemma keeps_gb_send from to amount : keeps same_genesis_balance (sendValue from to amount).
Proof. intros w a w' [_ ->]%send_inv. done. Qed.
#[local] Hint Resolve keeps_gb_vset keeps_gb_changes keeps_gb_send : keeps.

Lemma leave_keeps_balances sender : keeps same_genesis_balance (leave sender).
Proof.
  unfold leave, whenNotPaused, notKilled, enforceCollateralValidation, enforce_mode, return_genesis_balance, on_genesis,
    withdrawWithConfirm, withdraw.
  repeat first [apply keeps_gb_modify; intros s; done | keeps_step].
Qed.

(** A validator that leaves before the subnet is bootstrapped is paid its
    initial balance, and the balance stays booked: it can be released a second time, at the
    expense of the others who have funded the subnet. *)
Lemma genesis_balance_twice sender w w' :
  bootstrapped (actor w) = false → leave sender w = Done (tt, w') →
  let g := genesis_balance w sender in
  genesis_balance w' sender = g ∧
  (g ≠ 0 → g < u256_size → g ≤ genesisCircSupply (genesis (actor w')) < u256_size →
   g ≤ balance w' this_actor → accepts sender g = true → is_done (preRelease sender g w') = true).
Proof.
  intros Hboot [Hkeep Hb']%leave_keeps_balances g. rewrite Hboot in Hb'.
  assert (genesis_balance w' sender = g) as Hg by (unfold g, genesis_balance; by rewrite Hkeep).
  split; [done|]. intros Hnz Hg256 [Hcirc Hc256] Hbal Hacc. unfold preRelease.
  rewrite bool_decide_eq_false_2 by done. erewrite bind_run by done. rewrite Hb'. erewrite bind_run by done.
  rewrite Hg, bool_decide_eq_false_2 by lia. erewrite bind_run by done.
  erewrite bind_run by (unfold lift; by rewrite u256_sub_ok by lia).
  erewrite bind_run by (unfold lift; by rewrite u256_sub_ok by lia). erewrite bind_run by done.
  unfold sendValue. erewrite bind_run by done.
  change (balance (set_actor _ w') this_actor) with (balance w' this_actor).
  rewrite bool_decide_eq_false_2 by lia. rewrite Hacc. cbn [negb]. rewrite pay_run; [done|].
  change (balance (set_actor _ w') this_actor) with (balance w' this_actor). done.
Qed.

(** ** Killed subnets *)

(** What a subnet that has been killed can no longer do. *)
Definition dead (w w' : World) : Prop :=
  (killed (actor w) = true → registered w = None → bootstrapped (actor w) = true →
   changeSet (actor w') = changeSet (actor w) ∧ killed (actor w') = true ∧ registered w' = None ∧
   bootstrapped (actor w') = true).
#[export] Instance dead_po : PreOrder dead.
Proof.
  split; [by intros w|]. intros w1 w2 w3 H12 H23 Hk Hr Hb.
  destruct (H12 Hk Hr Hb) as (Hc & Hk2 & Hr2 & Hb2). destruct (H23 Hk2 Hr2 Hb2) as (Hc' & ? & ? & ?).
  split_and!; congruence.
Qed.

Lemma notKilled_fails w : killed (actor w) = true → notKilled w = Fail "SubnetAlreadyKilled"%string.
Proof. intros Hk. unfold notKilled, mbind, stm_bind, reads. by rewrite Hk. Qed.

(** A call that a killed subnet turns away. *)
Lemma blocked {A} (tx : stm World string A) : keeps dead (notKilled ;; tx).
Proof.
  intros w x w' Hr Hk. unfold mbind, stm_bind in Hr. by rewrite notKilled_fails in Hr.
Qed.

Lemma keeps_dead_pay from to amount : keeps dead (pay from to amount).
Proof. by intros w x w' [_ ->]%pay_inv. Qed.
Lemma keeps_dead_send from to amount : keeps dead (sendValue from to amount).
Proof. by intros w x w' [_ ->]%send_inv. Qed.
Lemma keeps_dead_queue {A} (tx : stm StakingReleaseQueue string A) : keeps dead (on_queue tx).
Proof. by intros w x w' (q & _ & ->)%on_queue_inv. Qed.
Lemma keeps_dead_owner s : keeps dead (enforceIsContractOwner s).
Proof. unfold enforceIsContractOwner. solve_keeps. Qed.
Lemma keeps_dead_paused : keeps dead whenNotPaused.
Proof. unfold whenNotPaused. solve_keeps. Qed.
#[local] Hint Resolve blocked keeps_dead_pay keeps_dead_send keeps_dead_queue keeps_dead_owner keeps_dead_paused : keeps.

(** Initial funds only move before the subnet is bootstrapped. *)
Lemma keeps_dead_early {A} (tx : stm World string A) (e : string) :
  keeps dead (boot ← reads (λ w, bootstrapped (actor w)); if (boot : bool) then abort e else tx).
Proof.
  intros w x w' Hr _ _ Hb. unfold mbind, stm_bind, reads in Hr. by rewrite Hb in Hr.
Qed.
#[local] Hint Resolve keeps_dead_early : keeps.

Lemma keeps_dead_modify f :
  (∀ s, changeSet (f s) = changeSet s ∧ killed (f s) = killed s ∧ bootstrapped (f s) = bootstrapped s) →
  keeps dead (modify (E := string) (set_actor f)).
Proof. intros Hf. apply keeps_modify. intros w Hk Hr Hb. destruct (Hf (actor w)) as (?&?&?). cbn. split_and!; congruence. Qed.

Ltac dead_step := first [apply keeps_dead_early | apply blocked | apply keeps_dead_modify; intros ?; done | keeps_step].

Lemma keeps_dead_perform a : (∀ n, a ≠ Confirm n) → keeps dead (perform a).
Proof.
  intros Hne. destruct a as [s v|s v|s v k|s v|s v|s| |s|s n|s|s|n]; cbn [perform];
    unfold preFund, preRelease, join, stake, unstake, leave, kill, claim_reward, claimCollateral, addBootstrapNode, pause, unpause;
    try (repeat dead_step; done).
  by destruct (Hne n).
Qed.

Lemma dead_steps w w' : rtc step w w' → dead w w'.
Proof.
  induction 1 as [|w1 w2 w3 Hst _ IH]; [done|]. intros Hk Hr Hb.
  assert (dead w1 w2) as H12; [|by apply (transitivity H12 IH)].
  destruct Hst as [a w1 w2 Hal _ Hrun|w1 w2 [E1 E2 _ _ _]].
  - apply (keeps_dead_perform a) in Hrun; [done|]. intros n ->. cbn in Hal. rewrite Hr in Hal. by destruct Hal.
  - intros _ _ _. rewrite E1. split_and!; try done. rewrite Hr in E2. by destruct (registered w2).
Qed.
End runs.

(** ** Examples *)

Import SampleSubnet.

(** The first validator bootstraps the subnet and leaves; before that is confirmed, a second one
    joins.  Once the first has left, there is no validator, and anyone can kill the subnet. *)
Definition killing : list Action := [Join 7 20 (key_of x07); Leave 7; Join 8 30 (key_of x08); Confirm 1; Kill].
Definition runs (l : list Action) (w : World) : World := fold_left (λ w a, run a w) l w.
Definition killed_world : World := runs killing world0.

(** Whether every action is allowed, has room, and goes through. *)
Definition is_allowed (w : World) (a : Action) : bool :=
  match a with
  | PreFund s _ | PreRelease s _ | Join s _ _ | Stake s _ | Unstake s _ | Leave s | Claim s =>
      bool_decide (s ≠ this_actor) && bool_decide (s ≠ ipcGatewayAddr)
  | Confirm _ => bool_decide (is_Some (registered w))
  | _ => true
  end.
Fixpoint runs_ok (l : list Action) (w : World) : bool :=
  match l with
  | [] => true
  | a :: l => is_allowed w a && has_capacity w && is_done (perform a w) && runs_ok l (run a w)
  end.

Lemma runs_steps l w : runs_ok l w = true → rtc step w (runs l w).
Proof.
  revert w. induction l as [|a l IH]; intros w; [done|]. cbn [runs_ok].
  rewrite !andb_true_iff. intros [[[Hal Hcap] Hd] Hok]. apply (rtc_l _ _ (run a w)); [|by apply IH].
  apply run_step; [|done|done]. destruct a; cbn in *; try done;
    rewrite ?andb_true_iff, ?bool_decide_eq_true in Hal; done.
Qed.

(** A subnet can be killed while a deposit is still to be confirmed: from
    a subnet that has just been created, calls lead to one that is killed and still has a
    deposit of 30 in its log, and no further step ever takes the deposit out of it. *)
Lemma kill_strands_deposits :
  rtc step world0 killed_world ∧ killed (actor killed_world) = true ∧ deposits (pend killed_world) = 30 ∧
  ∀ w, rtc step killed_world w → deposits (pend w) = 30.
Proof.
  split; [apply runs_steps; by vm_compute|]. split; [by vm_compute|]. split; [by vm_compute|].
  intros w Hsteps. pose proof (dead_steps _ _ Hsteps) as Hdead.
  assert (killed (actor killed_world) = true) as Hk by (by vm_compute).
  assert (registered killed_world = None) as Hr by (by vm_compute).
  assert (bootstrapped (actor killed_world) = true) as Hb by (by vm_compute).
  destruct (Hdead Hk Hr Hb) as (Hc & _). unfold pend. rewrite Hc. by vm_compute.
Qed.

(** The initial funds of two accounts; one of them joins, with too little to bootstrap the
    subnet, and leaves. *)
Definition funded_world : World := runs [PreFund 7 10; PreFund 8 10; Join 7 5 (key_of x07)] world0.
Definition left_world : World := run (Leave 7) funded_world.

Lemma genesis_balance_twice_witness :
  genesis_balance left_world 7 = genesis_balance funded_world 7 ∧
  (genesis_balance funded_world 7 ≠ 0 → genesis_balance funded_world 7 < u256_size →
   genesis_balance funded_world 7 ≤ genesisCircSupply (genesis (actor left_world)) < u256_size →
   genesis_balance funded_world 7 ≤ balance left_world this_actor → accepts 7 (genesis_balance funded_world 7) = true →
   is_done (preRelease 7 (genesis_balance funded_world 7) left_world) = true).
Proof. apply (genesis_balance_twice 7 funded_world left_world); by vm_compute. Defined.

(** It ends with more than it had, and the other one cannot release anything any more. *)
Example genesis_balance_taken :
  let w := run (PreRelease 7 10) left_world in
  balance world0 7 = 50 ∧ balance w 7 = 60 ∧ genesis_balance w 8 = 10 ∧ is_done (preRelease 8 10 w) = false.
Proof. by vm_compute. Qed.

(** A validator that joins and leaves, and one that joins and stakes more. *)
Definition stale_world : World :=
  runs [Join 8 3 (key_of x08); Leave 8; Join 7 5 (key_of x07); Stake 7 5] world0.

(** The genesis validators are not kept up to date with the validator
    set: in a subnet that bootstraps, one of them is listed with less than its confirmed
    collateral, after it staked more, and another one with its collateral after it has left. *)
Lemma genesis_validators_stale :
  bootstrapped (actor stale_world) = true ∧
  (λ v, (v_addr v, v_weight v)) <$> genesisValidators (genesis (actor stale_world)) = [(8, 3); (7, 5)] ∧
  conf stale_world 8 = 0 ∧ conf stale_world 7 = 10.
Proof. by vm_compute. Qed.

(** In a federated subnet, anyone can join before the owner has assigned any power: the subnet
    is bootstrapped, and its genesis validators are those who joined. *)
Definition federated_world : World :=
  match actor_constructor (MkConstructor 0 1 5 2 67 18 Federated) with
  | Done s => MkWorld s None {[ 9 := 50 ]} 1
  | _ => world0
  end.
Example federated_subnet_joined :
  let w := run (Join 9 1 (key_of x09)) federated_world in
  bootstrapped (actor w) = true ∧ v_addr <$> genesisValidators (genesis (actor w)) = [9] ∧
  getPower (validatorSet (actor w)) 9 = 0.
Proof. by vm_compute. Qed.
