(* ===== verification/SolIds.v ===== *)
(** * Subnet identifiers and addresses in the contracts

    The libraries [SubnetIDHelper] and [FvmAddressHelper].  A subnet is identified by the chain
    of the root network and the addresses of the subnet actors on the way down to it; an address
    of the FVM is a type and a payload, which for the address of a contract is its ABI encoding.
    The hash of an identifier is keccak's, which is not part of the sources: [IdHash] names it, and
    [IdHashLaws], which the theorems that compare identifiers take, says that it has no collisions. *)

From Stdlib Require Import Strings.Byte.
From S2P Require Import Prelude Validators PQ Abi.

(** ** Subnet identifiers *)

Record SubnetID := MkID { id_root : N; route : list Address }.

#[export] Instance SubnetID_eq_dec : EqDecision SubnetID.
Proof. solve_decision. Defined.

#[export] Instance SubnetID_countable : Countable SubnetID.
Proof.
  refine (inj_countable' (λ s, (id_root s, route s)) (λ p, MkID p.1 p.2) _). by intros [].
Defined.

Definition no_id : SubnetID := MkID 0 [].

Class IdHash := hash_id : SubnetID → N.
Class IdHashLaws `{IdHash} := hash_id_inj :: Inj (=) (=) hash_id.

Definition getAddress (s : SubnetID) : outcome string Address :=
  match last (route s) with
  | Some a => Done a
  | None => Fail "NoAddressForRoot"%string
  end.

Definition getParentSubnet (s : SubnetID) : outcome string SubnetID :=
  if bool_decide (route s = []) then Fail "NoParentForSubnet"%string
  else Done (MkID (id_root s) (take (length (route s) - 1) (route s))).

Definition createSubnetId (s : SubnetID) (actor : Address) : SubnetID :=
  MkID (id_root s) (route s ++ [actor]).

Definition getActor (s : SubnetID) : Address := default 0 (last (route s)).

Definition isRoot (s : SubnetID) : bool := bool_decide (route s = []) && negb (bool_decide (id_root s = 0)).

Definition isEmptyId (s : SubnetID) : bool := bool_decide (route s = []) && bool_decide (id_root s = 0).

Definition equals `{IdHash} (s1 s2 : SubnetID) : bool :=
  if negb (bool_decide (id_root s1 = id_root s2)) then false
  else if negb (bool_decide (length (route s1) = length (route s2))) then false
  else bool_decide (hash_id s1 = hash_id s2).

(** The loops that compare two routes from the front, until one ends or they differ. *)
Fixpoint agree (r1 r2 : list Address) : nat :=
  match r1, r2 with
  | x :: r1, y :: r2 => if bool_decide (x = y) then S (agree r1 r2) else 0%nat
  | _, _ => 0%nat
  end.

Definition commonParent (s1 s2 : SubnetID) : SubnetID :=
  if negb (bool_decide (id_root s1 = id_root s2)) then no_id
  else MkID (id_root s1) (take (agree (route s1) (route s2)) (route s1)).

Definition down (s1 s2 : SubnetID) : outcome string SubnetID :=
  if negb (bool_decide (id_root s1 = id_root s2)) then Fail "DifferentRootNetwork"%string
  else if bool_decide (length (route s1) ≤ length (route s2))%nat then Fail "InvalidRoute"%string
  else Done (MkID (id_root s1) (take (S (agree (route s1) (route s2))) (route s1))).

(** ** Addresses of the FVM *)

Definition DELEGATED : N := 4.
Definition EAM_ACTOR : N := 10.

Record FvmAddress := MkFvm { addrType : N; payload : list byte }.

Record DelegatedAddress := MkDelegated { namespace : N; da_length : N; buffer : list byte }.

(** A struct with a byte string is referred to by its offset, and so is the byte string within
    the struct. *)
Definition encode_delegated (d : DelegatedAddress) : list byte :=
  word 32 ++ word (namespace d) ++ word (da_length d) ++ word 96 ++
  word (nlength (buffer d)) ++ buffer d ++ padding (buffer d).

Definition decode_delegated (p : list byte) : outcome string DelegatedAddress :=
  if bool_decide (nlength p < 32) then Fail ""%string
  else
    let offset := word_at p 0 in
    if bool_decide (u64_max < offset) then Fail ""%string
    else if bool_decide (nlength p < offset + 96) then Fail ""%string
    else
      let ns := word_at p offset in
      if bool_decide (u64_max < ns) then Fail ""%string
      else
        let len := word_at p (offset + 32) in
        if bool_decide (2 ^ 128 ≤ len) then Fail ""%string
        else
          let inner := word_at p (offset + 64) in
          if bool_decide (u64_max < inner) then Fail ""%string
          else
            let start := offset + inner in
            if negb (bool_decide (start + 31 < nlength p)) then Fail ""%string
            else
              let blen := word_at p start in
              if bool_decide (u64_max < blen) then Fail ""%string
              else if bool_decide (nlength p < start + 32 + blen) then Fail ""%string
              else Done (MkDelegated ns len (take (N.to_nat blen) (drop (N.to_nat (start + 32)) p))).

(** [abi.encodePacked] of an address, and the first 20 bytes of a buffer read back. *)
Definition address_bytes (a : Address) : list byte := vec_to_list (be_bytes 20 a).
Definition bytesToAddress (b : list byte) : Address := from_be_bytes b.

Definition fvm_from (a : Address) : FvmAddress :=
  MkFvm DELEGATED (encode_delegated (MkDelegated EAM_ACTOR 20 (address_bytes a))).

Definition extractEvmAddress (a : FvmAddress) : outcome string Address :=
  if negb (bool_decide (addrType a = DELEGATED)) then Fail "NotDelegatedEvmAddress"%string
  else
    d ← decode_delegated (payload a);
    if negb (bool_decide (namespace d = EAM_ACTOR)) then Fail "NotDelegatedEvmAddress"%string
    else if negb (bool_decide (da_length d = 20)) then Fail "NotDelegatedEvmAddress"%string
    else if negb (bool_decide (nlength (buffer d) = 20)) then Fail "NotDelegatedEvmAddress"%string
    else Done (bytesToAddress (buffer d)).

(** ** Identifiers *)

Lemma equals_spec `{IdHash, !IdHashLaws} s1 s2 : equals s1 s2 = bool_decide (s1 = s2).
Proof.
  unfold equals. destruct (decide (s1 = s2)) as [->|Hne].
  - by rewrite !bool_decide_eq_true_2.
  - rewrite (bool_decide_eq_false_2 (s1 = s2)) by done.
    destruct (negb _); [done|]. destruct (negb _); [done|].
    apply bool_decide_eq_false_2. by intros ?%hash_id_inj.
Qed.

Lemma isEmptyId_spec s : isEmptyId s = bool_decide (s = no_id).
Proof.
  destruct s as [r l]. unfold isEmptyId, no_id. cbn. repeat case_bool_decide; naive_solver.
Qed.

Lemma agree_le r1 r2 : (agree r1 r2 ≤ length r1 ∧ agree r1 r2 ≤ length r2)%nat.
Proof.
  revert r2. induction r1 as [|x r1 IH]; intros [|y r2]; cbn; try lia. case_bool_decide; [|lia].
  destruct (IH r2). lia.
Qed.

Lemma agree_prefix r1 r2 : r2 `prefix_of` r1 → agree r1 r2 = length r2.
Proof.
  intros [k ->]. induction r2 as [|x r2 IH]; cbn; [by destruct k|]. by rewrite bool_decide_eq_true_2, IH by done.
Qed.

Lemma agree_refl r : agree r r = length r.
Proof. by apply agree_prefix. Qed.

(** Below a subnet: one step down from it leads to its child on the way. *)
Lemma down_child s a r : down (MkID (id_root s) (route s ++ a :: r)) s = Done (createSubnetId s a).
Proof.
  unfold down. cbn. rewrite bool_decide_eq_true_2 by done. cbn.
  rewrite bool_decide_eq_false_2 by (rewrite length_app; cbn; lia).
  rewrite agree_prefix by (by eexists). unfold createSubnetId. do 2 f_equal.
  by rewrite cons_middle, app_assoc, take_app_length' by (rewrite length_app; cbn; lia).
Qed.

Lemma down_createSubnetId s a : down (createSubnetId s a) s = Done (createSubnetId s a).
Proof. apply (down_child s a []). Qed.

Lemma parent_createSubnetId s a : getParentSubnet (createSubnetId s a) = Done s.
Proof.
  destruct s as [r l]. unfold getParentSubnet, createSubnetId. cbn.
  rewrite bool_decide_eq_false_2 by (by destruct l). rewrite length_app. cbn.
  by rewrite Nat.add_sub, take_app_length.
Qed.

Lemma actor_createSubnetId s a : getActor (createSubnetId s a) = a.
Proof. unfold getActor, createSubnetId. cbn. by rewrite last_snoc. Qed.
Lemma address_createSubnetId s a : getAddress (createSubnetId s a) = Done a.
Proof. unfold getAddress, createSubnetId. cbn. by rewrite last_snoc. Qed.

Lemma createSubnetId_ne s a : createSubnetId s a ≠ s.
Proof.
  destruct s as [r l]. unfold createSubnetId. cbn. intros [= Heq]. apply (f_equal length) in Heq.
  rewrite length_app in Heq. cbn in Heq. lia.
Qed.
Lemma createSubnetId_not_empty s a : isEmptyId (createSubnetId s a) = false.
Proof. unfold isEmptyId, createSubnetId. cbn. by rewrite bool_decide_eq_false_2 by (by destruct (route s)). Qed.

#[export] Instance createSubnetId_inj s : Inj (=) (=) (createSubnetId s).
Proof. intros a b [= Heq]. by simplify_list_eq. Qed.

Lemma commonParent_child s a : commonParent (createSubnetId s a) s = s ∧ commonParent s (createSubnetId s a) = s.
Proof.
  destruct s as [r l]. unfold commonParent, createSubnetId. cbn. rewrite !bool_decide_eq_true_2 by done. cbn. split.
  - by rewrite agree_prefix, take_app_length by (by eexists).
  - f_equal. clear r. induction l as [|x l IH]; cbn; [done|]. by rewrite bool_decide_eq_true_2; cbn; f_equal.
Qed.

Lemma commonParent_refl s : commonParent s s = s.
Proof.
  destruct s as [r l]. unfold commonParent. cbn. rewrite bool_decide_eq_true_2 by done. cbn.
  by rewrite agree_refl, firstn_all.
Qed.

(** ** Addresses *)

Lemma address_bytes_length a : nlength (address_bytes a) = 20.
Proof. unfold nlength, address_bytes. by rewrite length_vec_to_list. Qed.

Lemma word_at_eq p l n r off : p = l ++ word n ++ r → off = nlength l → n < u256_size → word_at p off = n.
Proof. intros -> ->. apply word_at_app. Qed.

Lemma decode_encode_delegated d :
  namespace d ≤ u64_max → da_length d < 2 ^ 128 → nlength (buffer d) ≤ u64_max →
  decode_delegated (encode_delegated d) = Done d.
Proof.
  destruct d as [ns len b]. cbn [namespace da_length buffer]. intros Hn Hl Hb. unfold decode_delegated.
  assert (∀ n, n ≤ u64_max → n < u256_size) as Hw by (unfold u64_max, u256_size; lia).
  set (p := encode_delegated (MkDelegated ns len b)).
  assert (p = word 32 ++ word ns ++ word len ++ word 96 ++ word (nlength b) ++ b ++ padding b) as Hp by done.
  clearbody p.
  assert (nlength p = 160 + nlength b + nlength (padding b)) as Hlen.
  { rewrite Hp. unfold nlength. rewrite !length_app, !word_length. lia. }
  rewrite (word_at_eq p [] 32 _ 0 Hp) by done.
  rewrite (word_at_eq p (word 32) ns _ 32 Hp) by auto.
  rewrite (word_at_eq p (word 32 ++ word ns) len (word 96 ++ word (nlength b) ++ b ++ padding b));
    [|by rewrite Hp, <-app_assoc|done|unfold u256_size; lia].
  rewrite (word_at_eq p (word 32 ++ word ns ++ word len) 96 (word (nlength b) ++ b ++ padding b));
    [|by rewrite Hp, <-!app_assoc|done|done].
  rewrite (word_at_eq p (word 32 ++ word ns ++ word len ++ word 96) (nlength b) (b ++ padding b));
    [|by rewrite Hp, <-!app_assoc|done|auto].
  rewrite Hlen. unfold u64_max in *.
  repeat (rewrite bool_decide_eq_false_2 by lia). rewrite bool_decide_eq_true_2 by lia. cbn [negb].
  repeat (rewrite bool_decide_eq_false_2 by lia).
  do 2 f_equal. rewrite Hp. rewrite !app_assoc, <-app_assoc.
  rewrite drop_app_length' by (rewrite !length_app, !word_length; done).
  apply take_app_length'. unfold nlength. lia.
Qed.

(** The address of a contract is read back from its form in the FVM. *)
Lemma extract_fvm_from a : a < 2 ^ 160 → extractEvmAddress (fvm_from a) = Done a.
Proof.
  intros Ha. unfold extractEvmAddress, fvm_from. cbn [addrType payload]. rewrite bool_decide_eq_true_2 by done. cbn [negb].
  rewrite decode_encode_delegated; [|done|done|cbn [buffer]; by rewrite address_bytes_length].
  cbn [mbind outcome_bind namespace da_length buffer]. rewrite address_bytes_length, !bool_decide_eq_true_2 by done. cbn [negb].
  f_equal. unfold bytesToAddress, address_bytes. rewrite be_bytes_value. by apply N.mod_small.
Qed.
