(* ===== verification/Messages.v ===== *)
(** * Cross-network messages in the gateway contract

    The part of the gateway that moves messages and funds between a network and its children:
    the libraries [CrossMsgHelper], [SupplySourceHelper] and [LibGateway], and the facets that
    call them.  The state is the storage of the gateway that these functions use, the balances
    of the accounts, and the log of the event [NewTopDownMessage], from which the child takes
    the messages that it applies.  The contracts that receive a message, the tokens, and the
    subnet actors whose supply source is asked for are the parameters [MessageEnv]; a recipient
    does not call the gateway back. *)

From Stdlib Require Import Strings.Byte.
From S2P Require Import Prelude Validators PQ Abi SolIds.

(** ** Data *)

Inductive IpcMsgKind := Transfer | Call | Result.
Inductive OutcomeType := Ok | SystemErr | ActorErr.
Inductive IPCMsgType := BottomUp | TopDown.
Inductive SupplyKind := Native | ERC20.

#[export] Instance IpcMsgKind_eq_dec : EqDecision IpcMsgKind.
Proof. solve_decision. Defined.
#[export] Instance IPCMsgType_eq_dec : EqDecision IPCMsgType.
Proof. solve_decision. Defined.
#[export] Instance SupplyKind_eq_dec : EqDecision SupplyKind.
Proof. solve_decision. Defined.

Record SupplySource := MkSupply { sup_kind : SupplyKind; tokenAddress : Address }.

Record IPCAddress := MkAddress { subnetId : SubnetID; rawAddress : FvmAddress }.

Record IpcEnvelope := MkEnvelope {
  kind : IpcMsgKind;
  to : IPCAddress;
  from : IPCAddress;
  nonce : N;
  value : N;
  message : list byte
}.

Record BottomUpMsgBatch := MkBatch { bt_subnetID : SubnetID; bt_blockHeight : N; bt_msgs : list IpcEnvelope }.
Definition no_batch : BottomUpMsgBatch := MkBatch no_id 0 [].

Record BottomUpCheckpoint := MkCheckpoint {
  cp_subnetID : SubnetID;
  cp_blockHeight : N;
  cp_blockHash : list byte;
  cp_nextConfigurationNumber : N;
  cp_msgs : list IpcEnvelope
}.

Record Subnet := MkSubnet {
  stake : N;
  genesisEpoch : N;
  circSupply : N;
  topDownNonce : N;
  appliedBottomUpNonce : N;
  id : SubnetID
}.
Definition no_subnet : Subnet := MkSubnet 0 0 0 0 0 no_id.

Record Gateway := MkGateway {
  networkName : SubnetID;
  bottomUpCheckPeriod : N;
  maxMsgsPerBottomUpBatch : N;
  maxTreeDepth : N;
  generalPurposeCrossMsg : bool;
  multiLevelCrossMsg : bool;
  bottomUpNonce : N;
  appliedTopDownNonce : N;
  totalSubnets : N;
  subnets : gmap N Subnet;
  bottomUpMsgBatches : gmap N BottomUpMsgBatch;
  postbox : gmap N IpcEnvelope;
  topdown_log : list (Address * IpcEnvelope);
  balances : gmap N N
}.

Class MessageEnv := {
  (** The hashes of identifiers and of envelopes. *)
  env_hash_id :: IdHash;
  hash_envelope : IpcEnvelope → N;
  (** The addresses of the gateway, of the system actor and of the burnt funds. *)
  this_gateway : Address;
  SYSTEM_ACTOR : Address;
  BURNT_FUNDS_ACTOR : Address;
  (** Whether an account has code, and the address in its normal form. *)
  has_code : Address → bool;
  normalize : Address → Address;
  (** Whether a recipient takes funds, and what a contract returns for a message. *)
  receives : Address → N → bool;
  handleIpcMessage : Address → IpcEnvelope → N → bool * list byte;
  (** The supply source that a subnet actor names; no answer if it is not one. *)
  supplySource : Address → option SupplySource;
  (** A transfer of a token, and the gateway's balances before and after taking an amount. *)
  token_transfer : Address → Address → N → bool * list byte;
  token_pull : Address → Address → N → option (N * N);
  (** The data of an error. *)
  revert_data : string → list byte
}.

(** *** Updates *)

Definition set_nonces (bottom applied : N) (g : Gateway) : Gateway :=
  MkGateway (networkName g) (bottomUpCheckPeriod g) (maxMsgsPerBottomUpBatch g) (maxTreeDepth g) (generalPurposeCrossMsg g)
    (multiLevelCrossMsg g) bottom applied (totalSubnets g) (subnets g) (bottomUpMsgBatches g) (postbox g)
    (topdown_log g) (balances g).
Definition set_subnets (total : N) (m : gmap N Subnet) (g : Gateway) : Gateway :=
  MkGateway (networkName g) (bottomUpCheckPeriod g) (maxMsgsPerBottomUpBatch g) (maxTreeDepth g) (generalPurposeCrossMsg g)
    (multiLevelCrossMsg g) (bottomUpNonce g) (appliedTopDownNonce g) total m (bottomUpMsgBatches g) (postbox g)
    (topdown_log g) (balances g).
Definition set_batches (m : gmap N BottomUpMsgBatch) (g : Gateway) : Gateway :=
  MkGateway (networkName g) (bottomUpCheckPeriod g) (maxMsgsPerBottomUpBatch g) (maxTreeDepth g) (generalPurposeCrossMsg g)
    (multiLevelCrossMsg g) (bottomUpNonce g) (appliedTopDownNonce g) (totalSubnets g) (subnets g) m (postbox g)
    (topdown_log g) (balances g).
Definition set_postbox (m : gmap N IpcEnvelope) (g : Gateway) : Gateway :=
  MkGateway (networkName g) (bottomUpCheckPeriod g) (maxMsgsPerBottomUpBatch g) (maxTreeDepth g) (generalPurposeCrossMsg g)
    (multiLevelCrossMsg g) (bottomUpNonce g) (appliedTopDownNonce g) (totalSubnets g) (subnets g) (bottomUpMsgBatches g) m
    (topdown_log g) (balances g).
Definition set_log (l : list (Address * IpcEnvelope)) (g : Gateway) : Gateway :=
  MkGateway (networkName g) (bottomUpCheckPeriod g) (maxMsgsPerBottomUpBatch g) (maxTreeDepth g) (generalPurposeCrossMsg g)
    (multiLevelCrossMsg g) (bottomUpNonce g) (appliedTopDownNonce g) (totalSubnets g) (subnets g) (bottomUpMsgBatches g)
    (postbox g) l (balances g).
Definition set_balances (b : gmap N N) (g : Gateway) : Gateway :=
  MkGateway (networkName g) (bottomUpCheckPeriod g) (maxMsgsPerBottomUpBatch g) (maxTreeDepth g) (generalPurposeCrossMsg g)
    (multiLevelCrossMsg g) (bottomUpNonce g) (appliedTopDownNonce g) (totalSubnets g) (subnets g) (bottomUpMsgBatches g)
    (postbox g) (topdown_log g) b.

Definition put_subnet (h : N) (s : Subnet) (g : Gateway) : Gateway :=
  set_subnets (totalSubnets g) (<[h := s]> (subnets g)) g.
Definition put_batch (epoch : N) (b : BottomUpMsgBatch) (g : Gateway) : Gateway :=
  set_batches (<[epoch := b]> (bottomUpMsgBatches g)) g.

Definition with_nonce (n : N) (m : IpcEnvelope) : IpcEnvelope :=
  MkEnvelope (kind m) (to m) (from m) n (value m) (message m).

Definition u64_add (a b : N) : outcome string N := checked panic_arithmetic u64_size (Z.of_N a + Z.of_N b).
Definition u64_sub (a b : N) : outcome string N := checked panic_arithmetic u64_size (Z.of_N a - Z.of_N b).
Definition u256_mul (a b : N) : outcome string N := checked panic_arithmetic u256_size (Z.of_N a * Z.of_N b).
Definition u256_div (a b : N) : outcome string N := if bool_decide (b = 0) then Fail panic_arithmetic else Done (a / b).

(** ** Funds *)

Definition balance (g : Gateway) (a : Address) : N := default 0 (balances g !! a).

Definition move (sender recipient amount : N) (b : gmap N N) : gmap N N :=
  let b := <[sender := default 0 (b !! sender) - amount]> b in
  <[recipient := default 0 (b !! recipient) + amount]> b.

(** The value of a call is moved before the call runs. *)
Definition pay (sender recipient amount : N) : stm Gateway string unit :=
  have ← reads (λ g, balance g sender);
  if bool_decide (have < amount) then abort "insufficient balance"%string
  else modify (λ g, set_balances (move sender recipient amount (balances g)) g).

Section gateway.
Context `{MessageEnv}.

(** [Address.sendValue] of the library, which reverts when the recipient does. *)
Definition sendValue (recipient amount : N) : stm Gateway string unit :=
  have ← reads (λ g, balance g this_gateway);
  if bool_decide (have < amount) then abort "AddressInsufficientBalance"%string
  else if negb (receives recipient amount) then abort "FailedInnerCall"%string
  else pay this_gateway recipient amount.

(** ** [SupplySourceHelper] *)

Definition native : SupplySource := MkSupply Native 0.

Definition ask_supply (actor : Address) : stm Gateway string SupplySource :=
  match supplySource actor with
  | Some s => mret s
  | None => abort ""%string
  end.

Definition hasSupplyOfKind (actor : Address) (k : SupplyKind) : stm Gateway string bool :=
  s ← ask_supply actor;
  mret (bool_decide (sup_kind s = k)).

Definition expect (s : SupplySource) (k : SupplyKind) : stm Gateway string unit :=
  if bool_decide (sup_kind s = k) then mret tt else abort "UnexpectedSupplySource"%string.

Definition lock (sender : Address) (s : SupplySource) (amount : N) : stm Gateway string N :=
  match sup_kind s with
  | ERC20 =>
      match token_pull (tokenAddress s) sender amount with
      | None => abort ""%string
      | Some (initialBalance, finalBalance) =>
          if bool_decide (finalBalance ≤ initialBalance) then abort "NoBalanceIncrease"%string
          else mret (finalBalance - initialBalance)
      end
  | Native => mret amount
  end.

(** A low-level call moves its value only if it succeeds. *)
Definition call_value (recipient amount : N) (result : bool * list byte) : stm Gateway string (bool * list byte) :=
  have ← reads (λ g, balance g this_gateway);
  if bool_decide (have < amount) then abort "NotEnoughBalance"%string
  else if result.1 then pay this_gateway recipient amount ;; mret result
  else mret result.

Definition transferFunds (s : SupplySource) (recipient amount : N) : stm Gateway string (bool * list byte) :=
  match sup_kind s with
  | Native => call_value recipient amount (receives recipient amount, [])
  | ERC20 => mret (token_transfer (tokenAddress s) recipient amount)
  end.

Definition functionCallWithERC20Value (s : SupplySource) (target : Address) (m : IpcEnvelope) (amount : N) :
    stm Gateway string (bool * list byte) :=
  let moved := token_transfer (tokenAddress s) target amount in
  if moved.1 then
    r ← call_value target 0 (handleIpcMessage target m 0);
    let '(success, ret) := r in
    if (success : bool) then mret (success, ret) else abort ""%string
  else abort ""%string.

Definition performCall (s : SupplySource) (target : Address) (m : IpcEnvelope) (amount : N) :
    stm Gateway string (bool * list byte) :=
  if bool_decide (amount = 0) then call_value target 0 (handleIpcMessage target m 0)
  else
    match sup_kind s with
    | Native => call_value target amount (handleIpcMessage target m amount)
    | ERC20 => functionCallWithERC20Value s target m amount
    end.

(** ** [CrossMsgHelper] *)

Definition createTransferMsg (sender recipient : IPCAddress) (amount : N) : IpcEnvelope :=
  MkEnvelope Transfer recipient sender 0 amount [].

Definition outcome_number (o : OutcomeType) : N :=
  match o with Ok => 0 | SystemErr => 1 | ActorErr => 2 end.

(** [abi.encode] of a [ResultMsg]. *)
Definition encode_result (i : N) (o : OutcomeType) (ret : list byte) : list byte :=
  word 32 ++ word i ++ word (outcome_number o) ++ word 96 ++ word (nlength ret) ++ ret ++ padding ret.

Definition createResultMsg (m : IpcEnvelope) (o : OutcomeType) (ret : list byte) : IpcEnvelope :=
  let v := match o with Ok => 0 | _ => value m end in
  MkEnvelope Result (from m) (to m) 0 v (encode_result (hash_envelope m) o ret).

Definition createReleaseMsg (subnet : SubnetID) (signer : Address) (recipient : FvmAddress) (amount : N) :
    outcome string IpcEnvelope :=
  parent ← getParentSubnet subnet;
  mret (createTransferMsg (MkAddress subnet (fvm_from signer)) (MkAddress parent recipient) amount).

Definition createFundMsg (subnet : SubnetID) (signer : Address) (recipient : FvmAddress) (amount : N) :
    outcome string IpcEnvelope :=
  parent ← getParentSubnet subnet;
  mret (createTransferMsg (MkAddress parent (fvm_from signer)) (MkAddress subnet recipient) amount).

Definition applyType (m : IpcEnvelope) (currentSubnet : SubnetID) : IPCMsgType :=
  let toSubnet := subnetId (to m) in
  let fromSubnet := subnetId (from m) in
  let currentParentSubnet := commonParent currentSubnet toSubnet in
  let messageParentSubnet := commonParent fromSubnet toSubnet in
  if equals currentParentSubnet messageParentSubnet &&
     bool_decide (length (route messageParentSubnet) < length (route fromSubnet))%nat
  then BottomUp else TopDown.

Definition isEmpty (m : IpcEnvelope) : bool :=
  match kind m with
  | Transfer => bool_decide (value m = 0)
  | _ => bool_decide (message m = [])
  end.

Definition execute (m : IpcEnvelope) (s : SupplySource) : stm Gateway string (bool * list byte) :=
  if isEmpty m then abort "CannotExecuteEmptyEnvelope"%string
  else
    a ← lift (extractEvmAddress (rawAddress (to m)));
    let recipient := normalize a in
    match kind m with
    | Transfer => transferFunds s recipient (value m)
    | Call | Result => performCall s recipient m (value m)
    end.

(** ** [LibGateway] *)

Definition getNextEpoch (blockNumber checkPeriod : N) : outcome string N :=
  q ← u256_div (blockNumber `mod` u64_size) checkPeriod;
  n ← u256_add q 1;
  u256_mul n checkPeriod.

Definition subnet_at (g : Gateway) (h : N) : Subnet := default no_subnet (subnets g !! h).

Definition getSubnet (i : SubnetID) : stm Gateway string (bool * Subnet) :=
  s ← reads (λ g, subnet_at g (hash_id i));
  mret (negb (isEmptyId (id s)), s).

Definition getSubnetOf (actor : Address) : stm Gateway string (bool * Subnet) :=
  if bool_decide (actor = 0) then abort "InvalidActorAddress"%string
  else
    name ← reads networkName;
    getSubnet (createSubnetId name actor).

Definition commitTopDownMsg (m : IpcEnvelope) : stm Gateway string IpcEnvelope :=
  name ← reads networkName;
  i ← lift (down (subnetId (to m)) name);
  r ← getSubnet i;
  let '(registered, s) := r in
  if negb registered then abort "NotRegisteredSubnet"%string
  else
    let m := with_nonce (topDownNonce s) m in
    next ← lift (u64_add (topDownNonce s) 1);
    supply ← lift (u256_add (circSupply s) (value m));
    modify (put_subnet (hash_id i)
      (MkSubnet (stake s) (genesisEpoch s) supply next (appliedBottomUpNonce s) (id s))) ;;
    a ← lift (getAddress i);
    modify (λ g, set_log (topdown_log g ++ [(a, m)]) g) ;;
    mret m.

Definition batch_at (g : Gateway) (epoch : N) : BottomUpMsgBatch := default no_batch (bottomUpMsgBatches g !! epoch).

(** The messages are pushed after those that are already there. *)
Definition storeBottomUpMsgBatch (b : BottomUpMsgBatch) : stm Gateway string unit :=
  modify (λ g, put_batch (bt_blockHeight b)
    (MkBatch (bt_subnetID b) (bt_blockHeight b) (bt_msgs (batch_at g (bt_blockHeight b)) ++ bt_msgs b)) g).

Definition commitBottomUpMsg (block : N) (m : IpcEnvelope) : stm Gateway string IpcEnvelope :=
  period ← reads bottomUpCheckPeriod;
  epoch ← lift (getNextEpoch block period);
  n ← reads bottomUpNonce;
  let m := with_nonce n m in
  n' ← lift (u64_add n 1);
  modify (λ g, set_nonces n' (appliedTopDownNonce g) g) ;;
  batch ← reads (λ g, batch_at g epoch);
  name ← reads networkName;
  max ← reads maxMsgsPerBottomUpBatch;
  if bool_decide (bt_blockHeight batch = 0) then
    modify (put_batch epoch (MkBatch name epoch (bt_msgs batch ++ [m]))) ;;
    mret m
  else if bool_decide (N.of_nat (length (bt_msgs batch)) = max) then
    let newBatch := MkBatch name block (bt_msgs batch) in
    modify (put_batch epoch (MkBatch (bt_subnetID batch) (bt_blockHeight batch) [m])) ;;
    storeBottomUpMsgBatch newBatch ;;
    mret m
  else
    modify (put_batch epoch (MkBatch (bt_subnetID batch) (bt_blockHeight batch) (bt_msgs batch ++ [m]))) ;;
    mret m.

(** Whether the subnet that the message comes from, or goes to next, has a token as its supply. *)
Definition next_is_token (name : SubnetID) (m : IpcEnvelope) : stm Gateway string bool :=
  match applyType m name with
  | BottomUp =>
      p ← lift (getParentSubnet (subnetId (from m)));
      if equals p name then hasSupplyOfKind (getActor (subnetId (from m))) ERC20 else mret false
  | TopDown =>
      d ← lift (down (subnetId (to m)) name);
      hasSupplyOfKind (getActor d) ERC20
  end.

(** Whether funds should be burnt, and the message as it was committed. *)
Definition commitCrossMessage (block : N) (m : IpcEnvelope) : stm Gateway string (bool * IpcEnvelope) :=
  name ← reads networkName;
  let dst := subnetId (to m) in
  if isEmptyId dst then abort "InvalidXnetMessage"%string
  else if equals dst name then abort "CannotSendCrossMsgToItself"%string
  else
    let src := subnetId (from m) in
    let isLCA := equals (commonParent dst src) name in
    reject ← next_is_token name m;
    if (reject : bool) && bool_decide (kind m = Transfer) then abort "MethodNotAllowed"%string
    else if bool_decide (applyType m name = TopDown) || isLCA then
      n ← reads appliedTopDownNonce;
      n' ← lift (u64_add n 1);
      modify (λ g, set_nonces (bottomUpNonce g) n' g) ;;
      m ← commitTopDownMsg m;
      mret (false, m)
    else
      m ← commitBottomUpMsg block m;
      mret (negb (bool_decide (value m = 0)), m).

Definition crossMsgSideEffects (v : N) (shouldBurn : bool) : stm Gateway string unit :=
  if shouldBurn then sendValue BURNT_FUNDS_ACTOR v else mret tt.

Definition sendReceipt (block : N) (original : IpcEnvelope) (o : OutcomeType) (ret : list byte) : stm Gateway string unit :=
  if isEmpty original then mret tt
  else if bool_decide (kind original = Result) then mret tt
  else
    commitCrossMessage block (createResultMsg original o ret) ;;
    mret tt.

(** A delegated call: a revert of the callee undoes what it did, and its data is the result. *)
Definition executeCrossMsg (m : IpcEnvelope) (s : SupplySource) : stm Gateway string (bool * list byte) :=
  λ g, match execute m s g with
       | Fail e => Done ((false, revert_data e), g)
       | r => r
       end.

(** The supply source to execute a message with, or nothing if it is not to be executed. *)
Definition admit_msg (block : N) (arrivingFrom : SubnetID) (m : IpcEnvelope) : stm Gateway string (option SupplySource) :=
  name ← reads networkName;
  match applyType m name with
  | BottomUp =>
      r ← getSubnet arrivingFrom;
      let '(registered, s) := r in
      if negb registered then mret None
      else if negb (bool_decide (appliedBottomUpNonce s = nonce m)) then
        sendReceipt block m SystemErr (revert_data "InvalidXnetMessage") ;;
        mret None
      else
        n ← lift (u64_add (appliedBottomUpNonce s) 1);
        modify (put_subnet (hash_id arrivingFrom)
          (MkSubnet (stake s) (genesisEpoch s) (circSupply s) (topDownNonce s) n (id s))) ;;
        source ← ask_supply (getActor (id s));
        mret (Some source)
  | TopDown =>
      applied ← reads appliedTopDownNonce;
      if negb (bool_decide (applied = nonce m)) then
        sendReceipt block m SystemErr (revert_data "InvalidXnetMessage") ;;
        mret None
      else
        n ← lift (u64_add applied 1);
        modify (λ g, set_nonces (bottomUpNonce g) n g) ;;
        mret (Some native)
  end.

Definition applyMsg (block : N) (arrivingFrom : SubnetID) (m : IpcEnvelope) : stm Gateway string unit :=
  if isEmptyId (subnetId (to m)) then sendReceipt block m SystemErr (revert_data "InvalidXnetMessage")
  else
    source ← admit_msg block arrivingFrom m;
    match source with
    | None => mret tt
    | Some source =>
        name ← reads networkName;
        if negb (equals (subnetId (to m)) name) then
          modify (λ g, set_postbox (<[hash_envelope m := m]> (postbox g)) g)
        else
          r ← executeCrossMsg m source;
          let '(success, ret) := r in
          sendReceipt block m (if (success : bool) then Ok else ActorErr) ret
    end.

Fixpoint applyMessages (block : N) (arrivingFrom : SubnetID) (l : list IpcEnvelope) : stm Gateway string unit :=
  match l with
  | [] => mret tt
  | m :: l => applyMsg block arrivingFrom m ;; applyMessages block arrivingFrom l
  end.

Definition checkMsgLength (l : list IpcEnvelope) : stm Gateway string unit :=
  max ← reads maxMsgsPerBottomUpBatch;
  if bool_decide (max < N.of_nat (length l)) then abort "MaxMsgsPerBatchExceeded"%string else mret tt.

(** ** The facets *)

Definition applyCrossMessages (block sender : N) (l : list IpcEnvelope) : stm Gateway string unit :=
  if negb (bool_decide (sender = SYSTEM_ACTOR)) then abort "NotSystemActor"%string
  else
    name ← reads networkName;
    parent ← lift (getParentSubnet name);
    applyMessages block parent l.

Fixpoint total_value (acc : N) (l : list IpcEnvelope) : outcome string N :=
  match l with
  | [] => Done acc
  | m :: l => acc ← u256_add acc (value m); total_value acc l
  end.

Definition execBottomUpMsgs (block : N) (l : list IpcEnvelope) (h : N) : stm Gateway string unit :=
  total ← lift (total_value 0 l);
  s ← reads (λ g, subnet_at g h);
  if bool_decide (circSupply s < total) then abort "NotEnoughSubnetCircSupply"%string
  else
    supply ← lift (u256_sub (circSupply s) total);
    modify (put_subnet h
      (MkSubnet (stake s) (genesisEpoch s) supply (topDownNonce s) (appliedBottomUpNonce s) (id s))) ;;
    applyMessages block (id s) l.

Definition commitCheckpoint (block sender : N) (c : BottomUpCheckpoint) : stm Gateway string unit :=
  if negb (bool_decide (getActor (cp_subnetID c) = sender)) then abort "InvalidCheckpointSource"%string
  else
    r ← getSubnetOf sender;
    let '(exists_, s) := r in
    if negb exists_ then abort "SubnetNotFound"%string
    else if negb (equals (cp_subnetID c) (id s)) then abort "InvalidSubnet"%string
    else
      checkMsgLength (cp_msgs c) ;;
      name ← reads networkName;
      execBottomUpMsgs block (cp_msgs c) (hash_id (createSubnetId name sender)).

Definition register (block sender msg_value genesisCircSupply : N) : stm Gateway string unit :=
  pay sender this_gateway msg_value ;;
  name ← reads networkName;
  depth ← reads maxTreeDepth;
  if bool_decide (depth ≤ N.of_nat (length (route name)) + 1) then abort "MethodNotAllowed"%string
  else if bool_decide (msg_value < genesisCircSupply) then abort "NotEnoughFunds"%string
  else
    let i := createSubnetId name sender in
    r ← getSubnet i;
    let '(registered, s) := r in
    if (registered : bool) then abort "AlreadyRegisteredSubnet"%string
    else
      total ← reads totalSubnets;
      total ← lift (u64_add total 1);
      modify (λ g, set_subnets total (<[hash_id i :=
        MkSubnet (msg_value - genesisCircSupply) block genesisCircSupply (topDownNonce s) (appliedBottomUpNonce s) i]> (subnets g)) g).

Definition addStake (sender msg_value : N) : stm Gateway string unit :=
  pay sender this_gateway msg_value ;;
  if bool_decide (msg_value = 0) then abort "NotEnoughFunds"%string
  else
    r ← getSubnetOf sender;
    let '(registered, s) := r in
    if negb registered then abort "NotRegisteredSubnet"%string
    else
      name ← reads networkName;
      n ← lift (u256_add (stake s) msg_value);
      modify (put_subnet (hash_id (createSubnetId name sender))
        (MkSubnet n (genesisEpoch s) (circSupply s) (topDownNonce s) (appliedBottomUpNonce s) (id s))).

Definition releaseStake (sender amount : N) : stm Gateway string unit :=
  if bool_decide (amount = 0) then abort "CannotReleaseZero"%string
  else
    r ← getSubnetOf sender;
    let '(registered, s) := r in
    if negb registered then abort "NotRegisteredSubnet"%string
    else if bool_decide (stake s < amount) then abort "NotEnoughFundsToRelease"%string
    else
      name ← reads networkName;
      n ← lift (u256_sub (stake s) amount);
      modify (put_subnet (hash_id (createSubnetId name sender))
        (MkSubnet n (genesisEpoch s) (circSupply s) (topDownNonce s) (appliedBottomUpNonce s) (id s))) ;;
      sendValue (getActor (id s)) amount.

Definition kill (sender : N) : stm Gateway string unit :=
  r ← getSubnetOf sender;
  let '(registered, s) := r in
  if negb registered then abort "NotRegisteredSubnet"%string
  else if negb (bool_decide (circSupply s = 0)) then abort "NotEmptySubnetCircSupply"%string
  else
    total ← reads totalSubnets;
    total ← lift (u64_sub total 1);
    modify (λ g, set_subnets total (delete (hash_id (id s)) (subnets g)) g) ;;
    sendValue sender (stake s).

Definition fund (sender msg_value : N) (i : SubnetID) (recipient : FvmAddress) : stm Gateway string unit :=
  pay sender this_gateway msg_value ;;
  if bool_decide (msg_value = 0) then abort "InvalidXnetMessage"%string
  else
    r ← getSubnet i;
    let '(registered, _) := r in
    if negb registered then abort "NotRegisteredSubnet"%string
    else
      source ← ask_supply (getActor i);
      expect source Native ;;
      m ← lift (createFundMsg i sender recipient msg_value);
      commitTopDownMsg m ;;
      mret tt.

Definition fundWithToken (sender : N) (i : SubnetID) (recipient : FvmAddress) (amount : N) : stm Gateway string unit :=
  if bool_decide (amount = 0) then abort "InvalidXnetMessage"%string
  else
    r ← getSubnet i;
    let '(registered, _) := r in
    if negb registered then abort "NotRegisteredSubnet"%string
    else
      source ← ask_supply (getActor i);
      expect source ERC20 ;;
      locked ← lock sender source amount;
      m ← lift (createFundMsg i sender recipient locked);
      commitTopDownMsg m ;;
      mret tt.

Definition release (block sender msg_value : N) (recipient : FvmAddress) : stm Gateway string unit :=
  pay sender this_gateway msg_value ;;
  if bool_decide (msg_value = 0) then abort "InvalidXnetMessage"%string
  else
    name ← reads networkName;
    m ← lift (createReleaseMsg name sender recipient msg_value);
    commitBottomUpMsg block m ;;
    sendValue BURNT_FUNDS_ACTOR msg_value.

(** [abi.decode] of a [CallMsg], two byte strings: whether it succeeds. *)
Definition bytes_decode (p : list byte) (base head : N) : bool :=
  let off := word_at p head in
  let start := base + off in
  bool_decide (off ≤ u64_max) && bool_decide (start + 31 < nlength p) &&
  bool_decide (word_at p start ≤ u64_max) && bool_decide (start + 32 + word_at p start ≤ nlength p).

Definition call_decodes (p : list byte) : bool :=
  let base := word_at p 0 in
  bool_decide (32 ≤ nlength p) && bool_decide (base ≤ u64_max) && bool_decide (base + 64 ≤ nlength p) &&
  bytes_decode p base base && bytes_decode p base (base + 32).

Definition sendContractXnetMessage (block sender msg_value : N) (e : IpcEnvelope) : stm Gateway string IpcEnvelope :=
  pay sender this_gateway msg_value ;;
  enabled ← reads generalPurposeCrossMsg;
  if negb enabled then abort "MethodNotAllowed"%string
  else if negb (has_code sender) then abort "InvalidXnetMessage"%string
  else if negb (bool_decide (value e = msg_value)) then abort "InvalidXnetMessage"%string
  else if negb (bool_decide (kind e = Call)) then abort "InvalidXnetMessage"%string
  else if negb (call_decodes (message e)) then abort ""%string
  else
    name ← reads networkName;
    r ← commitCrossMessage block (MkEnvelope Call (to e) (MkAddress name (fvm_from sender)) 0 msg_value (message e));
    let '(shouldBurn, committed) := r in
    crossMsgSideEffects (value committed) shouldBurn ;;
    mret committed.

Definition no_envelope : IpcEnvelope :=
  MkEnvelope Transfer (MkAddress no_id (MkFvm 0 [])) (MkAddress no_id (MkFvm 0 [])) 0 0 [].

Definition propagate (block sender msg_value cid : N) : stm Gateway string unit :=
  pay sender this_gateway msg_value ;;
  enabled ← reads multiLevelCrossMsg;
  if negb enabled then abort "MethodNotAllowed"%string
  else
    m ← reads (λ g, default no_envelope (postbox g !! cid));
    r ← commitCrossMessage block m;
    let '(shouldBurn, _) := r in
    modify (λ g, set_postbox (delete cid (postbox g)) g) ;;
    crossMsgSideEffects (value m) shouldBurn.
End gateway.
