(* ===== verification/MessageFunds.v ===== *)
(** * The funds behind the messages of the gateway

    What the gateway owes is the collateral and the circulating supply of the subnets that are
    registered, and the value of the messages in the postbox.  With subnets whose supply is the
    native coin, every call of the gateway, by whomever and in any order, leaves it with at least
    what it owes.  A subnet with a token of its own breaks that: a message in its checkpoint that
    does not come from below is paid for in the native coin, out of what other subnets hold. *)

From Stdlib Require Import Strings.Byte.
From S2P Require Import Prelude Weights Validators PQ Abi SolIds Messages.

Definition held (s : Subnet) : N := stake s + circSupply s.

Definition owes (g : Gateway) : N := map_sum held (subnets g) + map_sum value (postbox g).

Section funds.
Context `{MessageEnv}.

(** Every entry is a registered subnet, stored under the hash of its identifier. *)
Definition keyed (g : Gateway) : Prop :=
  ∀ h s, subnets g !! h = Some s → hash_id (id s) = h ∧ isEmptyId (id s) = false.

(** The gateway has what it owes, and [k] more. *)
Record covers (k : N) (g : Gateway) : Prop := {
  covers_keyed : keyed g;
  covers_funds : owes g + k ≤ balance g this_gateway
}.

Lemma covers_le j k g : covers k g → j ≤ k → covers j g.
Proof. intros [Hk Hf] Hle. split; [done|lia]. Qed.

(** *** Updates of the state *)

Lemma owes_put h s g : held (subnet_at g h) + owes (put_subnet h s g) = held s + owes g.
Proof.
  unfold owes, put_subnet, subnet_at. cbn.
  pose proof (map_sum_update held no_subnet eq_refl (subnets g) h s) as Hs. lia.
Qed.

Lemma covers_put j k h s g :
  covers j g → hash_id (id s) = h → isEmptyId (id s) = false → held s + k ≤ held (subnet_at g h) + j →
  covers k (put_subnet h s g).
Proof.
  intros [Hk Hf] Hh Hid Hle. split.
  - intros h' s'. cbn. rewrite lookup_insert_Some. intros [[<- <-]|[_ Hs]]; [done|by apply Hk].
  - pose proof (owes_put h s g). change (balance (put_subnet h s g) this_gateway) with (balance g this_gateway). lia.
Qed.

(** A change of what the gateway owes nothing for. *)
Definition same_debts (g g' : Gateway) : Prop :=
  subnets g' = subnets g ∧ postbox g' = postbox g ∧ balances g' = balances g.

Lemma covers_same k g g' : same_debts g g' → covers k g → covers k g'.
Proof.
  intros (Hs & Hp & Hb) [Hk Hf]. unfold balance in *. split.
  - intros h s. rewrite Hs. apply Hk.
  - unfold owes in *. unfold balance. by rewrite Hs, Hp, Hb.
Qed.

Lemma covers_log k l g : covers k g → covers k (set_log l g).
Proof. by apply covers_same. Qed.
Lemma covers_nonces k b t g : covers k g → covers k (set_nonces b t g).
Proof. by apply covers_same. Qed.

Lemma registered_keyed g h : keyed g → isEmptyId (id (subnet_at g h)) = false → hash_id (id (subnet_at g h)) = h.
Proof.
  intros Hk. unfold subnet_at. destruct (subnets g !! h) as [s|] eqn:Hs; cbn; [|done]. intros _. by apply (Hk h s).
Qed.

(** *** Payments *)

Lemma move_balance b sender recipient amount a :
  amount ≤ default 0 (b !! sender) → sender ≠ recipient →
  default 0 (move sender recipient amount b !! a) =
    if bool_decide (a = recipient) then default 0 (b !! a) + amount
    else if bool_decide (a = sender) then default 0 (b !! a) - amount
    else default 0 (b !! a).
Proof.
  intros Hle Hne. unfold move. case_bool_decide as Ha; [subst a|case_bool_decide as Hb; [subst a|]].
  - by rewrite lookup_insert_eq, lookup_insert_ne by done.
  - by rewrite lookup_insert_ne, lookup_insert_eq by done.
  - by rewrite !lookup_insert_ne by done.
Qed.

Lemma pay_in k sender amount g x g' :
  sender ≠ this_gateway → pay sender this_gateway amount g = Done (x, g') → covers k g → covers (amount + k) g'.
Proof.
  intros Hne Hr [Hk Hf]. unfold pay in Hr. inv_done. case_bool_decide as Hle; inv_done. split; [done|].
  unfold balance in *. cbn. rewrite move_balance by (done || lia).
  rewrite bool_decide_eq_true_2 by done. unfold owes in *. cbn. lia.
Qed.

Lemma pay_out k recipient amount g x g' :
  pay this_gateway recipient amount g = Done (x, g') → covers (amount + k) g → covers k g'.
Proof.
  intros Hr [Hk Hf]. unfold pay in Hr. inv_done. case_bool_decide as Hle; inv_done. split; [done|].
  unfold balance, owes in *. cbn.
  destruct (decide (recipient = this_gateway)) as [->|Hne].
  - unfold move. rewrite lookup_insert_eq. cbn. rewrite lookup_insert_eq. cbn. lia.
  - rewrite move_balance by (done || lia). rewrite bool_decide_eq_false_2, bool_decide_eq_true_2 by done. lia.
Qed.

Lemma sendValue_covers k recipient amount g x g' :
  sendValue recipient amount g = Done (x, g') → covers (amount + k) g → covers k g'.
Proof.
  unfold sendValue. intros Hr Hc. inv_done. case_bool_decide; inv_done. destruct (negb _); inv_done.
  by eapply pay_out.
Qed.

Lemma call_covers k recipient amount result g b r g' :
  call_value recipient amount result g = Done ((b, r), g') → covers (amount + k) g →
  covers (if b then k else amount + k) g'.
Proof.
  unfold call_value. intros Hr Hc. destruct result as [ok ret]. inv_done. case_bool_decide; inv_done.
  destruct ok; inv_done; [|done]. by eapply pay_out.
Qed.

(** *** Committing messages *)

Lemma with_nonce_value n m : value (with_nonce n m) = value m.
Proof. done. Qed.

Lemma getSubnet_run i g r g' :
  getSubnet i g = Done (r, g') → g' = g ∧ r = (negb (isEmptyId (id (subnet_at g (hash_id i)))), subnet_at g (hash_id i)).
Proof. unfold getSubnet. intros Hr. by inv_done. Qed.

Lemma getSubnetOf_run a g r g' :
  getSubnetOf a g = Done (r, g') → a ≠ 0 ∧ getSubnet (createSubnetId (networkName g) a) g = Done (r, g').
Proof. unfold getSubnetOf. case_bool_decide; intros Hr; inv_done. done. Qed.

(** What a commitment may cost: [v] more is owed to the subnets. *)
Definition spends (v : N) (g g' : Gateway) : Prop :=
  (keyed g → keyed g') ∧ balances g' = balances g ∧ postbox g' = postbox g ∧
  map_sum held (subnets g') ≤ map_sum held (subnets g) + v.

Lemma spends_covers v k g g' : spends v g g' → covers (v + k) g → covers k g'.
Proof.
  intros (Hk & Hb & Hp & Hs) [Hk' Hf]. split; [by apply Hk|]. unfold owes, balance in *. rewrite Hb, Hp. lia.
Qed.

Lemma spends_same v g g' : same_debts g g' → spends v g g'.
Proof.
  intros (Hs & Hp & Hb). split_and!; [|done|done|by rewrite Hs; lia].
  intros Hk h s. rewrite Hs. apply Hk.
Qed.

Lemma commitTopDown_spends m g m' g' :
  keyed g → commitTopDownMsg m g = Done (m', g') → spends (value m) g g' ∧ value m' = value m.
Proof.
  unfold commitTopDownMsg. intros Hk Hr. inv_done.
  match goal with G : getSubnet _ _ = _ |- _ => apply getSubnet_run in G as [-> ->] end.
  destruct (isEmptyId (id (subnet_at _ _))) eqn:Hid; inv_done; inv_done. split; [|done].
  match goal with G : u256_add _ _ = _ |- _ => apply u256_add_inv in G as [-> _] end.
  split_and!; [|done|done|].
  - intros _ h s. cbn. rewrite lookup_insert_Some. intros [[<- <-]|[_ Hs]]; [|by apply Hk].
    split; [by apply registered_keyed|done].
  - cbn. match goal with |- map_sum held (<[?h := ?s]> ?p) ≤ _ =>
      pose proof (map_sum_update held no_subnet eq_refl p h s) as Hs end.
    unfold held in Hs at 1 3. unfold subnet_at in *. cbn in Hs. lia.
Qed.

Lemma commitTopDown_covers k m g m' g' :
  commitTopDownMsg m g = Done (m', g') → covers (value m + k) g → covers k g' ∧ value m' = value m.
Proof.
  intros Hr Hc. apply commitTopDown_spends in Hr as [Hs Hv]; [|apply Hc]. split; [by eapply spends_covers|done].
Qed.

Lemma commitBottomUp_same block m g m' g' :
  commitBottomUpMsg block m g = Done (m', g') → same_debts g g' ∧ value m' = value m.
Proof.
  unfold commitBottomUpMsg, storeBottomUpMsgBatch. intros Hr. inv_done.
  case_bool_decide; inv_done; [done|]. case_bool_decide; by inv_done.
Qed.

Lemma same_debts_refl g : same_debts g g.
Proof. done. Qed.

Lemma ask_supply_same a g s g' : ask_supply a g = Done (s, g') → g' = g.
Proof. unfold ask_supply. destruct (supplySource a); intros Hr; by inv_done. Qed.

Lemma hasSupply_same a k g s g' : hasSupplyOfKind a k g = Done (s, g') → g' = g.
Proof. unfold hasSupplyOfKind. intros Hr. inv_done. by eapply ask_supply_same. Qed.

Lemma next_same name m g b g' : next_is_token name m g = Done (b, g') → g' = g.
Proof.
  unfold next_is_token. intros Hr. destruct (applyType _ _); inv_done; [|by eapply hasSupply_same].
  destruct (equals _ _); inv_done; [by eapply hasSupply_same|done].
Qed.

Lemma commitCross_spends block m g burn m' g' :
  keyed g → commitCrossMessage block m g = Done ((burn, m'), g') →
  spends (if burn then 0 else value m) g g' ∧ value m' = value m.
Proof.
  unfold commitCrossMessage. intros Hk Hr. inv_done.
  destruct (isEmptyId _); inv_done. destruct (equals (subnetId (to m)) _); inv_done.
  match goal with G : next_is_token _ _ _ = _ |- _ => apply next_same in G as -> end.
  destruct (_ && _); inv_done. destruct (_ || _); inv_done.
  - match goal with G : commitTopDownMsg _ _ = _ |- _ => apply commitTopDown_spends in G; [exact G|done] end.
  - match goal with G : commitBottomUpMsg _ _ _ = _ |- _ => apply commitBottomUp_same in G as [Hs Hv] end.
    split; [by apply spends_same|done].
Qed.

Lemma commitCross_covers k block m g burn m' g' :
  commitCrossMessage block m g = Done ((burn, m'), g') → covers (value m + k) g →
  covers (if burn then value m + k else k) g' ∧ value m' = value m.
Proof.
  intros Hr Hc. apply commitCross_spends in Hr as [Hs Hv]; [|apply Hc]. split; [|done].
  destruct burn; [|by eapply spends_covers]. by apply (spends_covers 0 (value m + k)) in Hs.
Qed.

Lemma sendReceipt_covers k block m o ret g x g' :
  sendReceipt block m o ret g = Done (x, g') → covers (match o with Ok => 0 | _ => value m end + k) g → covers k g'.
Proof.
  unfold sendReceipt. intros Hr Hc.
  destruct (isEmpty m); [inv_done; eapply covers_le; [done|lia]|].
  case_bool_decide; [inv_done; eapply covers_le; [done|lia]|]. inv_done.
  match goal with G : commitCrossMessage _ _ _ = Done (?r, _) |- _ =>
    destruct r as [burn m']; apply (commitCross_covers k) in G; [|exact Hc] end.
  destruct burn; [|naive_solver]. eapply covers_le; [naive_solver|lia].
Qed.

(** *** Executing messages *)

Lemma transferFunds_covers k s recipient amount g b r g' :
  transferFunds s recipient amount g = Done ((b, r), g') → covers (amount + k) g → covers (if b then k else amount + k) g'.
Proof.
  unfold transferFunds. destruct (sup_kind s); [by apply call_covers|].
  destruct (token_transfer _ _ _) as [ok ret]. intros Hr Hc. inv_done. destruct b; [|done].
  eapply covers_le; [done|lia].
Qed.

Lemma performCall_covers k s target m amount g b r g' :
  performCall s target m amount g = Done ((b, r), g') → covers (amount + k) g → covers (if b then k else amount + k) g'.
Proof.
  unfold performCall. case_bool_decide as Hz; [subst amount; by apply call_covers|].
  destruct (sup_kind s); [by apply call_covers|]. unfold functionCallWithERC20Value. intros Hr Hc.
  destruct (token_transfer _ _ _) as [[] ret]; cbn in Hr; inv_done.
  match goal with G : call_value _ _ _ _ = Done (?r, _) |- _ => destruct r as [ok ret']; apply (call_covers (amount + k)) in G; [|done] end.
  destruct ok; inv_done. eapply covers_le; [done|lia].
Qed.

Lemma executeCross_covers k m s g b r g' :
  executeCrossMsg m s g = Done ((b, r), g') → covers (value m + k) g → covers (if b then k else value m + k) g'.
Proof.
  unfold executeCrossMsg. intros Hr Hc. destruct (execute m s g) as [[a g1]|e| | |] eqn:He; inv_done; [|done].
  unfold execute in He. destruct (isEmpty m); inv_done.
  destruct (kind m); [by eapply transferFunds_covers|by eapply performCall_covers..].
Qed.

Lemma admit_covers k block i m g s g' :
  admit_msg block i m g = Done (s, g') → covers (value m + k) g →
  covers (match s with Some _ => value m + k | None => k end) g'.
Proof.
  unfold admit_msg. intros Hr Hc. inv_done. destruct (applyType m _); inv_done.
  - match goal with G : getSubnet _ _ = _ |- _ => apply getSubnet_run in G as [-> ->] end.
    destruct (isEmptyId (id (subnet_at _ _))) eqn:Hid; cbn in *; [inv_done; eapply covers_le; [done|lia]|].
    destruct (negb _); inv_done; [by eapply sendReceipt_covers|].
    match goal with G : ask_supply _ _ = _ |- _ => apply ask_supply_same in G as -> end.
    eapply covers_put; [exact Hc|by apply registered_keyed; [apply Hc|]|done|]. unfold held. cbn. lia.
  - destruct (negb _); inv_done; [by eapply sendReceipt_covers|]. by apply covers_nonces.
Qed.

Lemma applyMsg_covers k block i m g x g' :
  applyMsg block i m g = Done (x, g') → covers (value m + k) g → covers k g'.
Proof.
  unfold applyMsg. intros Hr Hc. destruct (isEmptyId _); [by eapply sendReceipt_covers|]. inv_done.
  match goal with G : admit_msg _ _ _ _ = Done (?s, _) |- _ => apply (admit_covers k) in G; [|done]; destruct s as [s|]; inv_done; [|done] end.
  destruct (negb _); inv_done.
  - match goal with G : covers _ ?g1 |- _ => destruct G as [Hk Hf]; split; [exact Hk|] end.
    unfold owes in *. cbn.
    match goal with |- context [map_sum value (<[?h := m]> ?p)] =>
      pose proof (map_sum_update value no_envelope eq_refl p h m) as Hs end.
    unfold balance in *. cbn. lia.
  - match goal with G : executeCrossMsg _ _ _ = Done (?r, _) |- _ =>
      destruct r as [b ret]; apply (executeCross_covers k) in G; [|done] end.
    eapply sendReceipt_covers; [done|]. by destruct b.
Qed.

Definition values (l : list IpcEnvelope) : N := sumN (value <$> l).

Lemma values_cons m l : values (m :: l) = value m + values l.
Proof. done. Qed.

Lemma applyMessages_covers k block i l g x g' :
  applyMessages block i l g = Done (x, g') → covers (values l + k) g → covers k g'.
Proof.
  revert g x. induction l as [|m l IH]; cbn [applyMessages]; intros g x Hr Hc; inv_done; [done|].
  eapply IH; [done|]. eapply applyMsg_covers; [done|]. by rewrite values_cons, <-N.add_assoc in Hc.
Qed.

Lemma total_value_inv acc l n : total_value acc l = Done n → n = acc + values l.
Proof.
  revert acc. induction l as [|m l IH]; cbn [total_value]; intros acc Hr; inv_done; [change (values []) with 0; lia|].
  match goal with G : u256_add _ _ = _ |- _ => apply u256_add_inv in G as [-> _] end.
  match goal with G : total_value _ _ = _ |- _ => apply IH in G as -> end. rewrite values_cons. lia.
Qed.

(** *** The facets *)

Lemma execBottomUp_covers k block l h g x g' :
  hash_id (id (subnet_at g h)) = h → isEmptyId (id (subnet_at g h)) = false →
  execBottomUpMsgs block l h g = Done (x, g') → covers k g → covers k g'.
Proof.
  unfold execBottomUpMsgs. intros Hh Hid Hr Hc. inv_done.
  match goal with G : total_value _ _ = _ |- _ => apply total_value_inv in G as -> end.
  case_bool_decide; inv_done. match goal with G : u256_sub _ _ = _ |- _ => apply u256_sub_inv in G as [-> Hle] end.
  eapply applyMessages_covers; [done|]. eapply (covers_put k); [done..|]. unfold held. cbn. lia.
Qed.

Lemma commitCheckpoint_covers k block sender c g x g' :
  commitCheckpoint block sender c g = Done (x, g') → covers k g → covers k g'.
Proof.
  unfold commitCheckpoint, checkMsgLength. intros Hr Hc. destruct (negb _); inv_done.
  match goal with G : getSubnetOf _ _ = _ |- _ => apply getSubnetOf_run in G as [Hz [-> ->]%getSubnet_run] end.
  destruct (isEmptyId (id (subnet_at _ _))) eqn:Hid; cbn in *; inv_done. destruct (negb _); inv_done.
  case_bool_decide; inv_done. eapply execBottomUp_covers; [|done..]. apply registered_keyed; [apply Hc|done].
Qed.

Lemma register_covers k block sender v circ g x g' :
  sender ≠ this_gateway → register block sender v circ g = Done (x, g') → covers k g → covers k g'.
Proof.
  unfold register. intros Hs Hr Hc. inv_done.
  match goal with G : pay _ _ _ _ = _ |- _ => apply (pay_in k) in G; [clear Hc; rename G into Hc|done..] end.
  case_bool_decide; inv_done. case_bool_decide; inv_done.
  match goal with G : getSubnet _ _ = _ |- _ => apply getSubnet_run in G as [-> ->] end.
  destruct (isEmptyId (id (subnet_at _ _))) eqn:Hid; cbn in *; inv_done; inv_done.
  match goal with |- covers k (set_subnets _ (<[?h := ?s]> _) ?g) => apply (covers_same k (put_subnet h s g)); [done|] end.
  eapply covers_put; [done|done|apply createSubnetId_not_empty|]. unfold held. cbn. lia.
Qed.

Lemma addStake_covers k sender v g x g' :
  sender ≠ this_gateway → addStake sender v g = Done (x, g') → covers k g → covers k g'.
Proof.
  unfold addStake. intros Hs Hr Hc. inv_done.
  match goal with G : pay _ _ _ _ = _ |- _ => apply (pay_in k) in G; [clear Hc; rename G into Hc|done..] end.
  case_bool_decide; inv_done.
  match goal with G : getSubnetOf _ _ = _ |- _ => apply getSubnetOf_run in G as [Hz [-> ->]%getSubnet_run] end.
  destruct (isEmptyId (id (subnet_at _ _))) eqn:Hid; cbn in *; inv_done.
  match goal with G : u256_add _ _ = _ |- _ => apply u256_add_inv in G as [-> _] end.
  eapply covers_put; [done|by apply registered_keyed; [apply Hc|]|done|]. unfold held. cbn. lia.
Qed.

Lemma releaseStake_covers k sender amount g x g' :
  releaseStake sender amount g = Done (x, g') → covers k g → covers k g'.
Proof.
  unfold releaseStake. intros Hr Hc. case_bool_decide; inv_done.
  match goal with G : getSubnetOf _ _ = _ |- _ => apply getSubnetOf_run in G as [Hz [-> ->]%getSubnet_run] end.
  destruct (isEmptyId (id (subnet_at _ _))) eqn:Hid; cbn in *; inv_done. case_bool_decide; inv_done.
  match goal with G : u256_sub _ _ = _ |- _ => apply u256_sub_inv in G as [-> _] end.
  eapply sendValue_covers; [done|].
  eapply covers_put; [done|by apply registered_keyed; [apply Hc|]|done|]. unfold held. cbn. lia.
Qed.

Lemma kill_covers k sender g x g' : kill sender g = Done (x, g') → covers k g → covers k g'.
Proof.
  unfold kill. intros Hr Hc. inv_done.
  match goal with G : getSubnetOf _ _ = _ |- _ => apply getSubnetOf_run in G as [Hz [-> ->]%getSubnet_run] end.
  destruct (isEmptyId (id (subnet_at _ _))) eqn:Hid; cbn in *; inv_done. destruct (negb _); inv_done.
  eapply sendValue_covers; [done|]. match goal with G : isEmptyId (id (subnet_at ?g ?h)) = false |- _ =>
    rewrite (registered_keyed g h) by (apply Hc || done); pose proof (map_sum_delete held no_subnet eq_refl (subnets g) h) as Hd end.
  destruct Hc as [Hk Hf]. split.
  - intros h s. cbn. rewrite lookup_delete_Some. intros [_ Hl]. by apply Hk.
  - unfold owes, balance in *. cbn in *. unfold subnet_at. unfold held in Hd at 1. lia.
Qed.

Lemma fund_covers k sender v i a g x g' :
  sender ≠ this_gateway → fund sender v i a g = Done (x, g') → covers k g → covers k g'.
Proof.
  unfold fund, expect, createFundMsg. intros Hs Hr Hc. inv_done.
  match goal with G : pay _ _ _ _ = _ |- _ => apply (pay_in k) in G; [clear Hc; rename G into Hc|done..] end.
  case_bool_decide; inv_done.
  match goal with G : getSubnet _ _ = _ |- _ => apply getSubnet_run in G as [-> ->] end.
  destruct (negb _); inv_done. case_bool_decide; inv_done.
  match goal with G : ask_supply _ _ = _ |- _ => apply ask_supply_same in G as -> end.
  match goal with G : commitTopDownMsg _ _ = _ |- _ => by apply (commitTopDown_covers k) in G as [? _] end.
Qed.

Lemma fundWithToken_covers k sender i a v g x g' :
  (∀ b s, supplySource b = Some s → sup_kind s = Native) →
  fundWithToken sender i a v g = Done (x, g') → covers k g → covers k g'.
Proof.
  unfold fundWithToken, expect. intros Hn Hr Hc. case_bool_decide; inv_done.
  match goal with G : getSubnet _ _ = _ |- _ => apply getSubnet_run in G as [-> ->] end.
  destruct (negb _); inv_done.
  case_bool_decide as Hs; inv_done. unfold ask_supply in *.
  destruct (supplySource (getActor i)) as [s|] eqn:Hq; inv_done. apply Hn in Hq. congruence.
Qed.

Lemma release_covers k block sender v a g x g' :
  sender ≠ this_gateway → release block sender v a g = Done (x, g') → covers k g → covers k g'.
Proof.
  unfold release. intros Hs Hr Hc. inv_done.
  match goal with G : pay _ _ _ _ = _ |- _ => apply (pay_in k) in G; [clear Hc; rename G into Hc|done..] end.
  case_bool_decide; inv_done.
  match goal with G : commitBottomUpMsg _ _ _ = _ |- _ => apply commitBottomUp_same in G as [Hd _] end.
  eapply sendValue_covers; [done|]. by eapply covers_same.
Qed.

Lemma sideEffects_covers k v burn g x g' :
  crossMsgSideEffects v burn g = Done (x, g') → covers (if burn then v + k else k) g → covers k g'.
Proof.
  unfold crossMsgSideEffects. destruct burn; intros Hr Hc; [by eapply sendValue_covers|by inv_done].
Qed.

Lemma send_covers k block sender v e g x g' :
  sender ≠ this_gateway → sendContractXnetMessage block sender v e g = Done (x, g') → covers k g → covers k g'.
Proof.
  unfold sendContractXnetMessage. intros Hs Hr Hc. inv_done.
  match goal with G : pay _ _ _ _ = _ |- _ => apply (pay_in k) in G; [clear Hc; rename G into Hc|done..] end.
  do 5 (destruct (negb _); inv_done).
  match goal with G : commitCrossMessage _ _ _ = Done (?r, _) |- _ =>
    destruct r as [burn m']; apply (commitCross_covers k) in G as [Hc' Hv]; [|done] end.
  inv_done. by eapply sideEffects_covers.
Qed.

Lemma propagate_covers k block sender v cid g x g' :
  sender ≠ this_gateway → propagate block sender v cid g = Done (x, g') → covers k g → covers k g'.
Proof.
  unfold propagate. intros Hs Hr Hc. inv_done.
  match goal with G : pay _ _ _ _ = _ |- _ => apply (pay_in k) in G; [clear Hc; rename G into Hc|done..] end.
  destruct (negb _); inv_done.
  match goal with G : commitCrossMessage _ _ _ = Done (?r, _) |- _ =>
    destruct r as [burn m']; apply commitCross_spends in G as [(Hk & Hb & Hp & Hle) Hv]; [|apply Hc] end.
  inv_done. eapply sideEffects_covers; [done|]. destruct Hc as [Hk' Hf]. split; [by apply Hk|].
  unfold owes, balance in *. cbn. rewrite Hb, Hp.
  match goal with |- context [delete ?c ?p] => pose proof (map_sum_delete value no_envelope eq_refl p c) as Hd end.
  destruct burn; lia.
Qed.

(** ** All calls *)

(** The funds of the messages from the parent are minted for the gateway before they are applied. *)
Definition mint_to_gateway (v : N) : stm Gateway string unit :=
  modify (λ g, set_balances (<[this_gateway := balance g this_gateway + v]> (balances g)) g).

Inductive Op :=
| Register (sender v circ : N)
| AddStake (sender v : N)
| ReleaseStake (sender amount : N)
| Kill (sender : N)
| Fund (sender v : N) (i : SubnetID) (recipient : FvmAddress)
| FundWithToken (sender : N) (i : SubnetID) (recipient : FvmAddress) (amount : N)
| Release (sender v : N) (recipient : FvmAddress)
| Send (sender v : N) (e : IpcEnvelope)
| Propagate (sender v cid : N)
| Commit (sender : N) (c : BottomUpCheckpoint)
| ApplyTopDown (l : list IpcEnvelope).

Definition op_sender (o : Op) : N :=
  match o with
  | Register a _ _ | AddStake a _ | ReleaseStake a _ | Kill a | Fund a _ _ _ | FundWithToken a _ _ _
  | Release a _ _ | Send a _ _ | Propagate a _ _ | Commit a _ => a
  | ApplyTopDown _ => SYSTEM_ACTOR
  end.

Definition perform (block : N) (o : Op) : stm Gateway string unit :=
  match o with
  | Register a v circ => register block a v circ
  | AddStake a v => addStake a v
  | ReleaseStake a amount => releaseStake a amount
  | Kill a => kill a
  | Fund a v i r => fund a v i r
  | FundWithToken a i r amount => fundWithToken a i r amount
  | Release a v r => release block a v r
  | Send a v e => sendContractXnetMessage block a v e ;; mret tt
  | Propagate a v cid => propagate block a v cid
  | Commit a c => commitCheckpoint block a c
  | ApplyTopDown l => mint_to_gateway (values l) ;; applyCrossMessages block SYSTEM_ACTOR l
  end.

(** A call that succeeds, from another account than the gateway's; a call that reverts changes
    nothing.  Elsewhere on the chain, balances change, but nothing is taken from the gateway. *)
Inductive gstep (g : Gateway) : Gateway → Prop :=
| gs_call block o x g' : op_sender o ≠ this_gateway → perform block o g = Done (x, g') → gstep g g'
| gs_elsewhere b : balance g this_gateway ≤ default 0 (b !! this_gateway) → gstep g (set_balances b g).

Definition native_only : Prop := ∀ a s, supplySource a = Some s → sup_kind s = Native.

Lemma mint_covers k v g x g' : mint_to_gateway v g = Done (x, g') → covers k g → covers (v + k) g'.
Proof.
  unfold mint_to_gateway. intros Hr [Hk Hf]. inv_done. split; [done|].
  unfold owes, balance in *. cbn. rewrite lookup_insert_eq. cbn. lia.
Qed.

Lemma perform_covers block o g x g' :
  native_only → op_sender o ≠ this_gateway → perform block o g = Done (x, g') → covers 0 g → covers 0 g'.
Proof.
  intros Hn Hs Hr Hc. destruct o; cbn [perform op_sender] in *.
  - by eapply register_covers.
  - by eapply addStake_covers.
  - by eapply releaseStake_covers.
  - by eapply kill_covers.
  - by eapply fund_covers.
  - by eapply fundWithToken_covers.
  - by eapply release_covers.
  - inv_done. by eapply send_covers.
  - by eapply propagate_covers.
  - by eapply commitCheckpoint_covers.
  - unfold applyCrossMessages in Hr. inv_done. rewrite bool_decide_eq_true_2 in * by done. cbn in *. inv_done.
    eapply applyMessages_covers; [done|]. by eapply mint_covers.
Qed.

Lemma steps_cover g g' : native_only → rtc gstep g g' → covers 0 g → covers 0 g'.
Proof.
  intros Hn Hrtc. induction Hrtc as [|g1 g2 g3 Hstep _ IH]; [done|]. intros Hc. apply IH.
  destruct Hstep as [block o x g2 Hs Hr|b Hb]; [by eapply perform_covers|].
  destruct Hc as [Hk Hf]. split; [done|]. unfold balance, owes in *. cbn. lia.
Qed.

Definition empty_gateway (g : Gateway) : Prop := subnets g = ∅ ∧ postbox g = ∅.

Lemma empty_covers g : empty_gateway g → covers 0 g.
Proof.
  intros [Hs Hp]. split; [intros h s; by rewrite Hs|]. unfold owes. rewrite Hs, Hp. unfold map_sum.
  rewrite !map_to_list_empty. cbn. lia.
Qed.

(** C5: with subnets whose supply is the native coin, the gateway always has at
    least what it owes: the collateral and the circulating supply of every subnet, and the value
    of the messages that wait in the postbox, whatever is called, by whomever and in any order. *)
Theorem gateway_backed g g' :
  native_only → empty_gateway g → rtc gstep g g' → owes g' ≤ balance g' this_gateway.
Proof.
  intros Hn He Hs. destruct (steps_cover g g' Hn Hs) as [_ Hf]; [by apply empty_covers|]. lia.
Qed.
End funds.

(** ** Running *)

Lemma u64_add_run a b : a + b < u64_size → u64_add a b = Done (a + b).
Proof. intros. unfold u64_add. rewrite <-N2Z.inj_add. by apply checked_ok. Qed.

Section runs.
Context `{MessageEnv, !IdHashLaws}.

(** A message of a network to its child goes down. *)
Lemma applyType_down m name a :
  subnetId (to m) = createSubnetId name a → subnetId (from m) = name → applyType m name = TopDown.
Proof.
  intros Ht Hf. unfold applyType. rewrite Ht, Hf. rewrite (proj2 (commonParent_child name a)), equals_spec.
  rewrite bool_decide_eq_true_2 by done. cbn. by rewrite bool_decide_eq_false_2 by lia.
Qed.

(** At the network, a message from its child comes up. *)
Lemma applyType_up m name a :
  subnetId (to m) = name → subnetId (from m) = createSubnetId name a → applyType m name = BottomUp.
Proof.
  intros Ht Hf. unfold applyType. rewrite Ht, Hf, commonParent_refl, (proj1 (commonParent_child name a)), equals_spec.
  rewrite bool_decide_eq_true_2 by done. cbn. rewrite bool_decide_eq_true_2; [done|]. rewrite length_app. cbn. lia.
Qed.

Definition sent_down (a : Address) (s : Subnet) (m : IpcEnvelope) (g : Gateway) : Gateway :=
  let h := hash_id (createSubnetId (networkName g) a) in
  let m := with_nonce (topDownNonce s) m in
  let g := set_nonces (bottomUpNonce g) (appliedTopDownNonce g + 1) g in
  let g := put_subnet h (MkSubnet (stake s) (genesisEpoch s) (circSupply s + value m) (topDownNonce s + 1)
             (appliedBottomUpNonce s) (id s)) g in
  set_log (topdown_log g ++ [(a, m)]) g.

Lemma commitTopDown_run m a s g :
  subnetId (to m) = createSubnetId (networkName g) a →
  subnets g !! hash_id (createSubnetId (networkName g) a) = Some s → isEmptyId (id s) = false →
  topDownNonce s + 1 < u64_size → circSupply s + value m < u256_size →
  commitTopDownMsg m g = Done (with_nonce (topDownNonce s) m,
    let g := put_subnet (hash_id (createSubnetId (networkName g) a))
      (MkSubnet (stake s) (genesisEpoch s) (circSupply s + value m) (topDownNonce s + 1) (appliedBottomUpNonce s) (id s)) g in
    set_log (topdown_log g ++ [(a, with_nonce (topDownNonce s) m)]) g).
Proof.
  intros Ht Hs Hid Hn Hv. unfold commitTopDownMsg. erewrite bind_run by done. rewrite Ht, down_createSubnetId.
  erewrite bind_run by done. unfold getSubnet. erewrite bind_run by (erewrite bind_run by done; done).
  unfold subnet_at. rewrite Hs. change (default no_subnet (Some s)) with s. rewrite Hid. cbn [negb].
  rewrite u64_add_run by done. erewrite bind_run by done.
  rewrite with_nonce_value, u256_add_ok by done. erewrite bind_run by done. erewrite bind_run by done.
  rewrite address_createSubnetId. erewrite bind_run by done. by erewrite bind_run.
Qed.

Lemma commitCross_down block m a s src g :
  subnetId (to m) = createSubnetId (networkName g) a → subnetId (from m) = networkName g → kind m ≠ Transfer →
  subnets g !! hash_id (createSubnetId (networkName g) a) = Some s → isEmptyId (id s) = false →
  supplySource a = Some src →
  appliedTopDownNonce g + 1 < u64_size → topDownNonce s + 1 < u64_size → circSupply s + value m < u256_size →
  commitCrossMessage block m g = Done ((false, with_nonce (topDownNonce s) m), sent_down a s m g).
Proof.
  intros Ht Hf Hkind Hs Hid Hsrc Ha Hn Hv. unfold commitCrossMessage. erewrite bind_run by done.
  rewrite Ht, createSubnetId_not_empty, equals_spec, bool_decide_eq_false_2 by apply createSubnetId_ne.
  unfold next_is_token. rewrite (applyType_down m _ a) by done. cbv beta iota.
  erewrite bind_run.
  2:{ rewrite Ht, down_createSubnetId. erewrite bind_run by done. unfold hasSupplyOfKind, ask_supply.
      rewrite actor_createSubnetId, Hsrc. by erewrite bind_run. }
  rewrite (bool_decide_eq_false_2 (kind m = Transfer)) by done. rewrite andb_false_r. cbn [orb].
  rewrite bool_decide_eq_true_2 by done. cbn [orb]. erewrite bind_run by done.
  rewrite u64_add_run by done. erewrite bind_run by done. erewrite bind_run by done.
  erewrite bind_run by (eapply (commitTopDown_run m a s); done). done.
Qed.

Lemma held_le_owes g h s : subnets g !! h = Some s → held s ≤ owes g.
Proof.
  intros Hs. pose proof (map_sum_delete held no_subnet eq_refl (subnets g) h) as Hd. rewrite Hs in Hd.
  change (default no_subnet (Some s)) with s in Hd. unfold owes. lia.
Qed.

Lemma pay_moves sender recipient amount g :
  amount ≤ balance g sender →
  pay sender recipient amount g = Done (tt, set_balances (move sender recipient amount (balances g)) g).
Proof. intros Hle. unfold pay. erewrite bind_run by done. by rewrite bool_decide_eq_false_2 by lia. Qed.

(** A transfer of the native coin to an account of this network. *)
Lemma execute_transfer m r0 r g :
  kind m = Transfer → 0 < value m → extractEvmAddress (rawAddress (to m)) = Done r0 → normalize r0 = r →
  receives r (value m) = true → value m ≤ balance g this_gateway →
  executeCrossMsg m native g = Done ((true, []), set_balances (move this_gateway r (value m) (balances g)) g).
Proof.
  intros Hk Hv He Hr Hrec Hb. unfold executeCrossMsg, execute, isEmpty. rewrite Hk.
  rewrite bool_decide_eq_false_2 by lia. unfold lift. erewrite bind_run by (by rewrite He). cbv zeta.
  rewrite Hr. unfold transferFunds, call_value. cbn [sup_kind native].
  erewrite bind_run by done. rewrite bool_decide_eq_false_2 by lia. rewrite Hrec. cbn [fst].
  by erewrite bind_run by by apply pay_moves.
Qed.

(** The receipt of a transfer from the child [a]. *)
Lemma receipt_down block m a s src g :
  kind m = Transfer → 0 < value m → subnetId (to m) = networkName g → subnetId (from m) = createSubnetId (networkName g) a →
  subnets g !! hash_id (createSubnetId (networkName g) a) = Some s → isEmptyId (id s) = false →
  supplySource a = Some src →
  appliedTopDownNonce g + 1 < u64_size → topDownNonce s + 1 < u64_size → circSupply s < u256_size →
  sendReceipt block m Ok [] g = Done (tt, sent_down a s (createResultMsg m Ok []) g).
Proof.
  intros Hk Hv Ht Hf Hs Hid Hsrc Ha Hn Hc. unfold sendReceipt, isEmpty. rewrite Hk.
  rewrite bool_decide_eq_false_2 by lia. rewrite bool_decide_eq_false_2 by done.
  erewrite bind_run; [done|]. by apply commitCross_down with src; [..|cbn; lia].
Qed.

(** A checkpoint with one message from the child [a] to this network, a transfer. *)
Definition withdrawal (g : Gateway) (a : Address) (s : Subnet) (recipient sender : FvmAddress) (v : N) : IpcEnvelope :=
  MkEnvelope Transfer (MkAddress (networkName g) recipient) (MkAddress (createSubnetId (networkName g) a) sender)
    (appliedBottomUpNonce s) v [].

Lemma applyMsg_withdrawal block g a s recipient sender v r0 r :
  let i := createSubnetId (networkName g) a in
  subnets g !! hash_id i = Some s → id s = i → isEmptyId (networkName g) = false →
  supplySource a = Some native → 0 < v ≤ balance g this_gateway →
  extractEvmAddress recipient = Done r0 → normalize r0 = r → receives r v = true →
  appliedBottomUpNonce s + 1 < u64_size → appliedTopDownNonce g + 1 < u64_size → topDownNonce s + 1 < u64_size →
  circSupply s < u256_size →
  ∃ g', applyMsg block i (withdrawal g a s recipient sender v) g = Done (tt, g') ∧
    balances g' = move this_gateway r v (balances g) ∧ circSupply (subnet_at g' (hash_id i)) = circSupply s ∧
    networkName g' = networkName g ∧ bottomUpCheckPeriod g' = bottomUpCheckPeriod g ∧
    bottomUpNonce g' = bottomUpNonce g ∧ appliedTopDownNonce g' = appliedTopDownNonce g + 1.
Proof.
  intros i Hs Hid Hname Hsrc Hv He Hr Hrec Hb Ha Ht Hc. set (m := withdrawal g a s recipient sender v).
  set (s1 := MkSubnet (stake s) (genesisEpoch s) (circSupply s) (topDownNonce s) (appliedBottomUpNonce s + 1) (id s)).
  set (g1 := put_subnet (hash_id i) s1 g).
  assert (isEmptyId (id s) = false) as Hne by (rewrite Hid; apply createSubnetId_not_empty).
  assert (admit_msg block i m g = Done (Some native, g1)) as Hadm.
  { unfold admit_msg. erewrite bind_run by done. rewrite (applyType_up m _ a) by done.
    unfold getSubnet. erewrite bind_run by (by erewrite bind_run). unfold subnet_at. rewrite Hs.
    change (default no_subnet (Some s)) with s. cbv iota. rewrite Hne. cbn [negb].
    rewrite bool_decide_eq_true_2 by done. cbn [negb]. rewrite u64_add_run by done.
    erewrite bind_run by done. erewrite bind_run by done. unfold ask_supply.
    replace (getActor (id s)) with a by (rewrite Hid; symmetry; apply actor_createSubnetId). rewrite Hsrc.
    by erewrite bind_run. }
  set (g2 := set_balances (move this_gateway r v (balances g1)) g1).
  eexists. split; [|split; [|split]].
  - unfold applyMsg. change (subnetId (to m)) with (networkName g). rewrite Hname.
    erewrite bind_run by exact Hadm. cbv iota. erewrite bind_run by done.
    change (networkName g1) with (networkName g). rewrite equals_spec, bool_decide_eq_true_2 by done. cbn [negb].
    erewrite bind_run; [|by apply (execute_transfer m r0 r g1); try done; apply Hv]. cbv iota.
    apply (receipt_down block m a s1 native g2); try done; [apply Hv|]. apply lookup_insert_eq.
  - done.
  - unfold subnet_at. cbn. rewrite lookup_insert_eq. cbn. lia.
  - done.
Qed.

Lemma commitCheckpoint_run block a c g s :
  let i := createSubnetId (networkName g) a in
  a ≠ 0 → cp_subnetID c = i → subnets g !! hash_id i = Some s → id s = i →
  N.of_nat (length (cp_msgs c)) ≤ maxMsgsPerBottomUpBatch g → values (cp_msgs c) ≤ circSupply s → circSupply s < u256_size →
  commitCheckpoint block a c g =
    applyMessages block i (cp_msgs c) (put_subnet (hash_id i)
      (MkSubnet (stake s) (genesisEpoch s) (circSupply s - values (cp_msgs c)) (topDownNonce s) (appliedBottomUpNonce s) i) g).
Proof.
  intros i Ha Hc Hs Hid Hmax Hle Hlt. unfold commitCheckpoint. rewrite Hc.
  rewrite (bool_decide_eq_true_2 (getActor i = a)) by apply actor_createSubnetId. cbn [negb].
  unfold getSubnetOf. rewrite (bool_decide_eq_false_2 (a = 0)) by done.
  unfold getSubnet. erewrite bind_run by (erewrite bind_run by done; by erewrite bind_run).
  unfold subnet_at. fold i. rewrite Hs. change (default no_subnet (Some s)) with s. cbv iota.
  rewrite Hid, equals_spec, bool_decide_eq_true_2 by done. unfold i at 1. rewrite createSubnetId_not_empty. cbn [negb].
  unfold checkMsgLength. erewrite bind_run by (erewrite bind_run by done; by rewrite bool_decide_eq_false_2 by lia).
  erewrite bind_run by done. fold i. unfold execBottomUpMsgs.
  assert (∀ l acc, acc + values l < u256_size → total_value acc l = Done (acc + values l)) as Htot.
  { intros l. induction l as [|m l IH]; intros acc Hacc; cbn [total_value]; [f_equal; change (values []) with 0; lia|].
    rewrite values_cons in *. rewrite u256_add_ok by lia. cbn [mbind outcome_bind]. rewrite IH by lia. f_equal. lia. }
  rewrite Htot by lia. erewrite bind_run by done. erewrite bind_run by done. unfold subnet_at. rewrite Hs. change (default no_subnet (Some s)) with s.
  rewrite bool_decide_eq_false_2 by lia. rewrite u256_sub_ok by lia. erewrite bind_run by done. erewrite bind_run by done.
  by rewrite Hid.
Qed.

(** A subnet gets its funds out: in every state that the gateway can be in, a
    checkpoint of a registered subnet with a transfer to an account of this network, of no more
    than the circulating supply of the subnet, is committed and pays the account. *)
Lemma checkpoint_pays g0 g block a s c recipient sender v r0 r :
  native_only → empty_gateway g0 → rtc gstep g0 g →
  a ≠ 0 → isEmptyId (networkName g) = false → supplySource a = Some native →
  subnets g !! hash_id (createSubnetId (networkName g) a) = Some s → 0 < v ≤ circSupply s → circSupply s < u256_size →
  cp_subnetID c = createSubnetId (networkName g) a → cp_msgs c = [withdrawal g a s recipient sender v] →
  1 ≤ maxMsgsPerBottomUpBatch g →
  extractEvmAddress recipient = Done r0 → normalize r0 = r → receives r v = true → r ≠ this_gateway →
  appliedBottomUpNonce s + 1 < u64_size → appliedTopDownNonce g + 1 < u64_size → topDownNonce s + 1 < u64_size →
  ∃ g', commitCheckpoint block a c g = Done (tt, g') ∧ balance g' r = balance g r + v ∧
    circSupply (subnet_at g' (hash_id (createSubnetId (networkName g) a))) = circSupply s - v.
Proof.
  intros Hn He Hsteps Ha Hname Hsrc Hs Hv Hlt Hc Hm Hmax Hx Hr Hrec Hne Hb Hat Ht.
  destruct (steps_cover g0 g Hn Hsteps) as [Hk Hf]; [by apply empty_covers|].
  assert (id s = createSubnetId (networkName g) a) as Hid by (apply hash_id_inj; by apply (Hk _ s)).
  pose proof (held_le_owes g _ s Hs) as Hheld. unfold held in Hheld.
  assert (values (cp_msgs c) = v) as Hval by (rewrite Hm; unfold values; cbn; lia).
  set (s1 := MkSubnet (stake s) (genesisEpoch s) (circSupply s - v) (topDownNonce s) (appliedBottomUpNonce s)
               (createSubnetId (networkName g) a)).
  set (g1 := put_subnet (hash_id (createSubnetId (networkName g) a)) s1 g).
  destruct (applyMsg_withdrawal block g1 a s1 recipient sender v r0 r) as (g' & Hrun & Hbal & Hcirc & _);
    try done; [apply lookup_insert_eq|change (balance g1 this_gateway) with (balance g this_gateway); lia|cbn; lia|].
  exists g'. split; [|split; [|exact Hcirc]].
  - rewrite (commitCheckpoint_run block a c g s); try done; [|by rewrite Hm|by rewrite Hval; apply Hv].
    rewrite Hval. fold s1 g1. rewrite Hm. cbn [applyMessages]. by erewrite bind_run by exact Hrun.
  - unfold balance. rewrite Hbal, move_balance; [by rewrite bool_decide_eq_true_2|unfold balance in *; cbn; lia|done].
Qed.

(** *** A subnet with a token *)

(** A message that claims to be a receipt from this network to itself. *)
Definition forged (g : Gateway) (recipient : FvmAddress) (v : N) (data : list byte) : IpcEnvelope :=
  MkEnvelope Result (MkAddress (networkName g) recipient) (MkAddress (networkName g) recipient)
    (appliedTopDownNonce g) v data.

Lemma applyMsg_forged block i g recipient v data r0 r :
  isEmptyId (networkName g) = false → data ≠ [] → 0 < v ≤ balance g this_gateway →
  extractEvmAddress recipient = Done r0 → normalize r0 = r →
  (handleIpcMessage r (forged g recipient v data) v).1 = true → appliedTopDownNonce g + 1 < u64_size →
  applyMsg block i (forged g recipient v data) g =
    Done (tt, set_balances (move this_gateway r v (balances g)) (set_nonces (bottomUpNonce g) (appliedTopDownNonce g + 1) g)).
Proof.
  intros Hname Hdata Hv He Hr Hcall Hn. set (m := forged g recipient v data) in *.
  assert (applyType m (networkName g) = TopDown) as Htype.
  { unfold applyType. cbn. rewrite !commonParent_refl, equals_spec, bool_decide_eq_true_2 by done. cbn.
    by rewrite bool_decide_eq_false_2 by lia. }
  assert (isEmpty m = false) as Hemp by (unfold isEmpty; cbn; by rewrite bool_decide_eq_false_2).
  unfold applyMsg. change (subnetId (to m)) with (networkName g). rewrite Hname.
  erewrite bind_run.
  2:{ unfold admit_msg. erewrite bind_run by done. rewrite Htype. erewrite bind_run by done.
      rewrite (bool_decide_eq_true_2 (_ = nonce m)) by done. cbn [negb]. rewrite u64_add_run by done.
      erewrite bind_run by done. by erewrite bind_run by done. }
  cbv iota. erewrite bind_run by done. change (networkName (set_nonces _ _ g)) with (networkName g).
  rewrite equals_spec, bool_decide_eq_true_2 by done. cbn [negb].
  erewrite bind_run.
  2:{ unfold executeCrossMsg, execute. rewrite Hemp. unfold lift. change (rawAddress (to m)) with recipient. erewrite bind_run by (by rewrite He). cbv zeta.
      cbn [kind m forged]. rewrite Hr. unfold performCall. change (value m) with v.
      rewrite (bool_decide_eq_false_2 (v = 0)) by lia. cbn [sup_kind native]. unfold call_value.
      erewrite bind_run by done. rewrite bool_decide_eq_false_2 by (apply N.le_ngt, Hv). rewrite Hcall.
      by erewrite bind_run by (apply pay_moves; apply Hv). }
  destruct (handleIpcMessage r m v) as [ok ret]. unfold sendReceipt. rewrite Hemp. by rewrite bool_decide_eq_true_2.
Qed.

(** C36: a subnet whose supply is a token takes native coins out of the gateway:
    its actor commits a checkpoint with a message that is not from the subnet, but from this
    network, and the gateway, which takes that for a message from its parent, pays the value in
    the native coin, whoever it belongs to.  Only the subnet's supply of its token is charged. *)
Theorem token_takes_native g block a s src c recipient v data r0 r :
  supplySource a = Some src → sup_kind src = ERC20 →
  a ≠ 0 → isEmptyId (networkName g) = false →
  subnets g !! hash_id (createSubnetId (networkName g) a) = Some s → id s = createSubnetId (networkName g) a →
  0 < v ≤ circSupply s → circSupply s < u256_size → v ≤ balance g this_gateway →
  cp_subnetID c = createSubnetId (networkName g) a → cp_msgs c = [forged g recipient v data] → data ≠ [] →
  1 ≤ maxMsgsPerBottomUpBatch g → appliedTopDownNonce g + 1 < u64_size →
  extractEvmAddress recipient = Done r0 → normalize r0 = r → r ≠ this_gateway →
  (handleIpcMessage r (forged g recipient v data) v).1 = true →
  ∃ g', commitCheckpoint block a c g = Done (tt, g') ∧
    balance g' r = balance g r + v ∧ balance g' this_gateway = balance g this_gateway - v ∧
    ∀ h, h ≠ hash_id (createSubnetId (networkName g) a) → subnets g' !! h = subnets g !! h.
Proof.
  intros _ _ Ha Hname Hs Hid Hv Hlt Hb Hc Hm Hdata Hmax Hn Hx Hr Hne Hcall.
  assert (values (cp_msgs c) = v) as Hval by (rewrite Hm; unfold values; cbn; lia).
  set (s1 := MkSubnet (stake s) (genesisEpoch s) (circSupply s - v) (topDownNonce s) (appliedBottomUpNonce s)
               (createSubnetId (networkName g) a)).
  set (g1 := put_subnet (hash_id (createSubnetId (networkName g) a)) s1 g).
  pose proof (applyMsg_forged block (createSubnetId (networkName g) a) g1 recipient v data r0 r Hname Hdata) as Hrun.
  eexists. split; [|split; [|split]].
  - rewrite (commitCheckpoint_run block a c g s); try done; [|by rewrite Hm|by rewrite Hval; apply Hv].
    rewrite Hval. fold s1 g1. rewrite Hm. cbn [applyMessages].
    erewrite bind_run by (apply Hrun; try done; split; [apply Hv|exact Hb]). done.
  - unfold balance. cbn. rewrite move_balance by (done || exact Hb). by rewrite bool_decide_eq_true_2.
  - unfold balance. cbn. rewrite move_balance by (done || exact Hb).
    by rewrite bool_decide_eq_false_2, bool_decide_eq_true_2 by done.
  - intros h Hh. cbn. by apply lookup_insert_ne.
Qed.
End runs.

(** ** Concrete networks *)

Section sequences.
Context `{MessageEnv}.

Fixpoint perform_all (l : list (N * Op)) : stm Gateway string unit :=
  match l with
  | [] => mret tt
  | (block, o) :: l => perform block o ;; perform_all l
  end.

Lemma perform_all_steps l g x g' :
  Forall (λ p, op_sender p.2 ≠ this_gateway) l → perform_all l g = Done (x, g') → rtc gstep g g'.
Proof.
  revert g. induction l as [|[block o] l IH]; intros g Hs Hr; cbn [perform_all] in Hr; inv_done; [done|].
  apply Forall_cons in Hs as [Ho Hl]. eapply rtc_l; [by eapply gs_call|]. by apply IH.
Qed.
End sequences.

Module SampleNetwork.
(** The gateway at the address 77.  The supply of the subnet of the actor 6 is a token. *)
Definition sample_env (supply : N → option SupplySource) : MessageEnv := {|
  env_hash_id := λ i, Npos (encode i);
  hash_envelope := λ m, Npos (encode (subnetId (from m), nonce m));
  this_gateway := 77;
  SYSTEM_ACTOR := 1;
  BURNT_FUNDS_ACTOR := 99;
  has_code := λ a, bool_decide (a < 50);
  normalize := λ a, a;
  receives := λ _ _, true;
  handleIpcMessage := λ _ _ _, (true, []);
  supplySource := supply;
  token_transfer := λ _ _ _, (true, []);
  token_pull := λ _ _ amount, Some (0, amount);
  revert_data := λ _, []
|}.

Definition native_env : MessageEnv := sample_env (λ _, Some native).
Definition mixed_env : MessageEnv :=
  sample_env (λ a, Some (if bool_decide (a = 6) then MkSupply ERC20 500 else native)).

Lemma sample_hash supply : @IdHashLaws (@env_hash_id (sample_env supply)).
Proof. intros x y [= Hxy]. by apply (inj encode). Qed.

Definition root : SubnetID := MkID 314 [].
Definition sample_gateway (name : SubnetID) : Gateway :=
  MkGateway name 10 2 4 true true 0 0 0 ∅ ∅ ∅ [] {[ 5 := 100; 6 := 100; 8 := 100; 77 := 0 ]}.

Definition after (env : MessageEnv) (l : list (N * Op)) : Gateway :=
  match perform_all l (sample_gateway root) with Done (_, g) => g | _ => sample_gateway root end.

Lemma after_steps env l :
  match @perform_all env l (sample_gateway root) with Done _ => true | _ => false end = true →
  Forall (λ p, @op_sender env p.2 ≠ @this_gateway env) l →
  rtc (@gstep env) (sample_gateway root) (after env l).
Proof.
  intros Hr Hs. unfold after. destruct (perform_all l _) as [[x g]| | | |] eqn:He; try done.
  by apply (perform_all_steps l _ x).
Qed.

(** A subnet registers with a collateral of 20 and an initial supply of 10, and is funded. *)
Definition native_ops : list (N * Op) :=
  [(1, Register 5 30 10); (2, Fund 8 40 (createSubnetId root 5) (fvm_from 9))].
Definition native_net : Gateway := after native_env native_ops.

Lemma native_steps : rtc (@gstep native_env) (sample_gateway root) native_net.
Proof.
  apply after_steps; [by vm_compute|]. by repeat constructor.
Qed.

Lemma native_env_native : @native_only native_env.
Proof. intros a s [= <-]. done. Qed.

Lemma gateway_backed_witness :
  owes native_net = 70 ∧ owes native_net ≤ balance native_net 77.
Proof.
  split; [by vm_compute|].
  by apply (@gateway_backed native_env (sample_gateway root) native_net native_env_native); [|apply native_steps].
Defined.

Definition withdraw_checkpoint : BottomUpCheckpoint :=
  MkCheckpoint (createSubnetId root 5) 10 [] 0
    [withdrawal native_net 5 (subnet_at native_net (@hash_id (@env_hash_id native_env) (createSubnetId root 5)))
       (fvm_from 8) (fvm_from 9) 45].

Lemma checkpoint_pays_witness :
  ∃ g', @commitCheckpoint native_env 11 5 withdraw_checkpoint native_net = Done (tt, g') ∧
    balance native_net 8 = 60 ∧ balance g' 8 = 105.
Proof.
  destruct (@checkpoint_pays native_env (sample_hash _) (sample_gateway root) native_net 11 5
    (subnet_at native_net (@hash_id (@env_hash_id native_env) (createSubnetId root 5)))
    withdraw_checkpoint (fvm_from 8) (fvm_from 9) 45 8 8) as (g' & Hr & Hb & _);
    [exact native_env_native|done|exact native_steps|by vm_compute..|].
  exists g'. split_and!; [exact Hr|by vm_compute|by rewrite Hb; vm_compute].
Defined.

(** The subnet of the actor 6 has a supply of 40 units of a token, which it makes up itself. *)
Definition mixed_ops : list (N * Op) :=
  native_ops ++ [(3, Register 6 1 0); (4, FundWithToken 6 (createSubnetId root 6) (fvm_from 6) 40)].
Definition mixed_net : Gateway := after mixed_env mixed_ops.

Definition forged_checkpoint : BottomUpCheckpoint :=
  MkCheckpoint (createSubnetId root 6) 10 [] 0 [forged mixed_net (fvm_from 6) 40 [x01]].

Lemma token_takes_native_witness :
  ∃ g', @commitCheckpoint mixed_env 11 6 forged_checkpoint mixed_net = Done (tt, g') ∧
    balance g' 6 = balance mixed_net 6 + 40 ∧ balance g' 77 = 31 ∧
    held (subnet_at g' (@hash_id (@env_hash_id mixed_env) (createSubnetId root 5))) = 70.
Proof.
  destruct (@token_takes_native mixed_env (sample_hash _) mixed_net 11 6
    (subnet_at mixed_net (@hash_id (@env_hash_id mixed_env) (createSubnetId root 6))) (MkSupply ERC20 500)
    forged_checkpoint (fvm_from 6) 40 [x01] 6 6) as (g' & Hr & Hb & Hg & Hs);
    [by vm_compute..|].
  exists g'. split_and!; [exact Hr|exact Hb|change (balance g' 77 = balance mixed_net 77 - 40) in Hg; by rewrite Hg; vm_compute|].
  unfold subnet_at. rewrite Hs by (by vm_compute). by vm_compute.
Defined.
End SampleNetwork.
