(* ===== verification/MessageDelivery.v ===== *)
(** * Delivery of cross-network messages

    How messages get from one gateway to another.  Funds that are sent down on the parent arrive
    in the child, each once and in order, because the nonces that the parent gives are the ones
    that the child expects.  A network in the middle loses that agreement with its parent with
    every message that it sends to a child of its own, receipts included.  Bottom-up messages are
    numbered without gaps over the batches, and a batch can grow over the limit that the parent
    has on it. *)

From Stdlib Require Import Strings.Byte.
From S2P Require Import Prelude Weights Validators PQ Abi SolIds Messages MessageFunds.

(** ** Funds from the parent to the child *)

(** One call of [fund] after another: the sender, the amount and the recipient. *)
Fixpoint fund_all `{MessageEnv} (i : SubnetID) (fs : list (N * N * N)) : stm Gateway string unit :=
  match fs with
  | [] => mret tt
  | (sender, v, r) :: fs => fund sender v i (fvm_from r) ;; fund_all i fs
  end.

Fixpoint fund_msgs (name : SubnetID) (i : SubnetID) (n : N) (fs : list (N * N * N)) : list IpcEnvelope :=
  match fs with
  | [] => []
  | (sender, v, r) :: fs =>
      MkEnvelope Transfer (MkAddress i (fvm_from r)) (MkAddress name (fvm_from sender)) n v [] ::
      fund_msgs name i (n + 1) fs
  end.

(** The funds that arrive at an account. *)
Fixpoint credit (r : N) (fs : list (N * N * N)) : N :=
  match fs with
  | [] => 0
  | (_, v, r') :: fs => (if bool_decide (r' = r) then v else 0) + credit r fs
  end.

Section parent.
Context `{MessageEnv}.

Lemma pay_frame sender recipient amount g x g' :
  pay sender recipient amount g = Done (x, g') → ∃ b, g' = set_balances b g.
Proof. unfold pay. intros Hr. inv_done. case_bool_decide; inv_done. by eexists. Qed.

(** The recipient can be any address of the FVM. *)
Lemma fund_sends sender v a (recipient : FvmAddress) g x g' :
  let i := createSubnetId (networkName g) a in
  fund sender v i recipient g = Done (x, g') →
  networkName g' = networkName g ∧ 0 < v ∧
  topdown_log g' = topdown_log g ++ [(a, MkEnvelope Transfer (MkAddress i recipient) (MkAddress (networkName g) (fvm_from sender))
    (topDownNonce (subnet_at g (hash_id i))) v [])] ∧
  topDownNonce (subnet_at g' (hash_id i)) = topDownNonce (subnet_at g (hash_id i)) + 1.
Proof.
  intros i. unfold fund, expect. intros Hr. inv_done.
  match goal with G : pay _ _ _ _ = _ |- _ => apply pay_frame in G as [b ->] end.
  case_bool_decide; inv_done.
  match goal with G : getSubnet _ _ = _ |- _ => apply getSubnet_run in G as [-> ->] end.
  destruct (negb _); inv_done. case_bool_decide; inv_done.
  match goal with G : ask_supply _ _ = _ |- _ => apply ask_supply_same in G as -> end.
  match goal with G : createFundMsg _ _ _ _ = _ |- _ => unfold createFundMsg, i in G; rewrite parent_createSubnetId in G;
    injection G as <- end.
  match goal with G : commitTopDownMsg _ _ = _ |- _ => unfold commitTopDownMsg in G; inv_done end.
  match goal with G : down _ _ = _ |- _ => cbn [subnetId to createTransferMsg] in G; rewrite down_createSubnetId in G; injection G as <- end.
  match goal with G : getSubnet _ _ = _ |- _ => apply getSubnet_run in G as [-> ->] end.
  destruct (negb _); inv_done; inv_done.
  match goal with G : getAddress _ = _ |- _ => unfold i in G; rewrite address_createSubnetId in G; injection G as <- end.
  match goal with G : u64_add _ _ = _ |- _ => apply checked_inv in G as [Hn _] end.
  split_and!; [done|lia|done|]. unfold subnet_at at 1. cbn. rewrite lookup_insert_eq. cbn. unfold subnet_at in *. cbn in *. fold i in Hn. lia.
Qed.

Lemma fund_msgs_app name i n fs1 fs2 :
  fund_msgs name i n (fs1 ++ fs2) = fund_msgs name i n fs1 ++ fund_msgs name i (n + N.of_nat (length fs1)) fs2.
Proof.
  revert n. induction fs1 as [|[[s v] r] fs1 IH]; intros n; cbn [app fund_msgs length]; [by rewrite N.add_0_r|].
  rewrite IH. do 3 f_equal. lia.
Qed.

Lemma fund_all_sends fs a g x g' :
  let i := createSubnetId (networkName g) a in
  fund_all i fs g = Done (x, g') →
  topdown_log g' = topdown_log g ++ ((a,.) <$> fund_msgs (networkName g) i (topDownNonce (subnet_at g (hash_id i))) fs) ∧
  topDownNonce (subnet_at g' (hash_id i)) = topDownNonce (subnet_at g (hash_id i)) + N.of_nat (length fs) ∧
  Forall (λ f, 0 < f.1.2) fs.
Proof.
  revert g x. induction fs as [|[[s v] r] fs IH]; intros g x i Hr; cbn [fund_all] in Hr; inv_done.
  { rewrite app_nil_r, N.add_0_r. done. }
  match goal with G : fund _ _ _ _ _ = Done (_, ?g1) |- _ => apply fund_sends in G as (Hname & Hv & Hlog & Hn); specialize (IH g1) end.
  rewrite Hname in IH. destruct (IH _ ltac:(done)) as (Hlog' & Hn' & Hall).
  subst i. rewrite Hlog', Hlog, Hn', Hn. split_and!; [|cbn [length]; lia|by constructor].
  by rewrite <-app_assoc.
Qed.
End parent.

Section child.
Context `{MessageEnv, !IdHashLaws}.

(** What a commitment of a bottom-up message leaves as it is. *)
Definition same_but_batches (g g' : Gateway) : Prop :=
  networkName g' = networkName g ∧ bottomUpCheckPeriod g' = bottomUpCheckPeriod g ∧ balances g' = balances g ∧
  appliedTopDownNonce g' = appliedTopDownNonce g ∧ bottomUpNonce g' = bottomUpNonce g + 1.

Lemma commitBottomUp_run block m e g :
  getNextEpoch block (bottomUpCheckPeriod g) = Done e → bottomUpNonce g + 1 < u64_size →
  ∃ g', commitBottomUpMsg block m g = Done (with_nonce (bottomUpNonce g) m, g') ∧ same_but_batches g g'.
Proof.
  intros He Hn. unfold commitBottomUpMsg, storeBottomUpMsgBatch. erewrite bind_run by done. rewrite He.
  erewrite bind_run by done. erewrite bind_run by done. rewrite u64_add_run by done.
  erewrite bind_run by done. erewrite bind_run by done. do 3 (erewrite bind_run by done).
  case_bool_decide; [by eexists|]. case_bool_decide; by eexists.
Qed.

(** The message of the child that answers one from its parent goes up. *)
Lemma commitCross_up block m pn a e g :
  networkName g = createSubnetId pn a → subnetId (to m) = pn → subnetId (from m) = createSubnetId pn a →
  isEmptyId pn = false → kind m ≠ Transfer →
  getNextEpoch block (bottomUpCheckPeriod g) = Done e → bottomUpNonce g + 1 < u64_size →
  ∃ b m' g', commitCrossMessage block m g = Done ((b, m'), g') ∧ same_but_batches g g'.
Proof.
  intros Hname Ht Hf Hpn Hk He Hn. destruct (commitBottomUp_run block m e g He Hn) as (g' & Hr & Hsame).
  assert (pn ≠ createSubnetId pn a) as Hne by (symmetry; apply createSubnetId_ne).
  assert (applyType m (createSubnetId pn a) = BottomUp) as Htype.
  { unfold applyType. rewrite Ht, Hf, (proj1 (commonParent_child pn a)), equals_spec, bool_decide_eq_true_2 by done.
    cbn [andb]. rewrite bool_decide_eq_true_2; [done|]. cbn. rewrite length_app. cbn. lia. }
  eexists _, _, g'. split; [|exact Hsame]. unfold commitCrossMessage. erewrite bind_run by done.
  rewrite Hname, Ht, Hpn, equals_spec, bool_decide_eq_false_2 by done.
  erewrite bind_run.
  2:{ unfold next_is_token. rewrite Htype, Hf, parent_createSubnetId. erewrite bind_run by done.
      by rewrite equals_spec, bool_decide_eq_false_2 by done. }
  cbn [andb]. rewrite Htype, Hf. rewrite (proj2 (commonParent_child pn a)), equals_spec.
  rewrite !bool_decide_eq_false_2 by done. cbn [orb]. by erewrite bind_run by exact Hr.
Qed.

Lemma applyMsg_fund block pn a e g sender v r :
  networkName g = createSubnetId pn a → isEmptyId pn = false →
  getNextEpoch block (bottomUpCheckPeriod g) = Done e → bottomUpNonce g + 1 < u64_size →
  appliedTopDownNonce g + 1 < u64_size → 0 < v ≤ balance g this_gateway →
  r < 2 ^ 160 → normalize r = r → receives r v = true →
  ∃ g', applyMsg block pn (MkEnvelope Transfer (MkAddress (createSubnetId pn a) (fvm_from r))
          (MkAddress pn (fvm_from sender)) (appliedTopDownNonce g) v []) g = Done (tt, g') ∧
    networkName g' = networkName g ∧ bottomUpCheckPeriod g' = bottomUpCheckPeriod g ∧
    bottomUpNonce g' = bottomUpNonce g + 1 ∧ appliedTopDownNonce g' = appliedTopDownNonce g + 1 ∧
    balances g' = move this_gateway r v (balances g).
Proof.
  intros Hname Hpn He Hb Ht Hv Hr Hnorm Hrec. set (m := MkEnvelope _ _ _ _ _ _).
  set (g1 := set_nonces (bottomUpNonce g) (appliedTopDownNonce g + 1) g).
  set (g2 := set_balances (move this_gateway r v (balances g1)) g1).
  destruct (commitCross_up block (createResultMsg m Ok []) pn a e g2) as (b & m' & g' & Hc & Hs1 & Hs2 & Hs3 & Hs4 & Hs5);
    try done.
  assert (admit_msg block pn m g = Done (Some native, g1)) as Hadm.
  { unfold admit_msg. erewrite bind_run by done. rewrite Hname.
    assert (applyType m (createSubnetId pn a) = TopDown) as ->.
    { unfold applyType. cbn [subnetId to from m]. rewrite commonParent_refl, (proj2 (commonParent_child pn a)), equals_spec.
      by rewrite bool_decide_eq_false_2 by apply createSubnetId_ne. }
    erewrite bind_run by done. rewrite bool_decide_eq_true_2 by done. cbn [negb]. rewrite u64_add_run by done.
    erewrite bind_run by done. by erewrite bind_run by done. }
  exists g'. split_and!; [|done..].
  unfold applyMsg. cbn [subnetId to m]. rewrite createSubnetId_not_empty. erewrite bind_run by exact Hadm.
  cbv iota. erewrite bind_run by done. change (networkName g1) with (networkName g).
  rewrite Hname, equals_spec, bool_decide_eq_true_2 by done. cbn [negb].
  erewrite bind_run; [|apply (execute_transfer m r r g1); [done|apply Hv|by apply extract_fvm_from|done|done|apply Hv]].
  cbv iota. unfold sendReceipt, isEmpty. cbn [kind m value]. rewrite bool_decide_eq_false_2 by lia.
  rewrite bool_decide_eq_false_2 by done. fold m g2. by erewrite bind_run by exact Hc.
Qed.

Lemma applyMessages_funds block pn a e fs g :
  networkName g = createSubnetId pn a → isEmptyId pn = false →
  getNextEpoch block (bottomUpCheckPeriod g) = Done e →
  bottomUpNonce g + N.of_nat (length fs) < u64_size → appliedTopDownNonce g + N.of_nat (length fs) < u64_size →
  values (fund_msgs pn (createSubnetId pn a) (appliedTopDownNonce g) fs) ≤ balance g this_gateway →
  Forall (λ '(_, v, r), 0 < v ∧ r < 2 ^ 160 ∧ normalize r = r ∧ receives r v = true ∧ r ≠ this_gateway) fs →
  ∃ g', applyMessages block pn (fund_msgs pn (createSubnetId pn a) (appliedTopDownNonce g) fs) g = Done (tt, g') ∧
    appliedTopDownNonce g' = appliedTopDownNonce g + N.of_nat (length fs) ∧
    ∀ r, r ≠ this_gateway → balance g' r = balance g r + credit r fs.
Proof.
  revert g. induction fs as [|[[s v] r] fs IH]; intros g Hname Hpn He Hb Ht Hval Hall.
  { exists g. split_and!; [done|by rewrite N.add_0_r|]. intros r _. cbn. lia. }
  apply Forall_cons in Hall as [(Hv & Hr & Hnorm & Hrec & Hne) Hall].
  cbn [fund_msgs length] in *. rewrite values_cons in Hval. cbn [value] in Hval.
  destruct (applyMsg_fund block pn a e g s v r) as (g1 & Hrun & Hn1 & Hp1 & Hb1 & Ha1 & Hbal); try done; try lia.
  rewrite <-Ha1 in Hval |- *.
  assert (∀ x, balance g1 x = default 0 (move this_gateway r v (balances g) !! x)) as Hmv by (intros x; unfold balance; by rewrite Hbal).
  unfold balance in Hval.
  destruct (IH g1) as (g' & Hrun' & Ha' & Hcr); [congruence|done|congruence|lia|lia| |done|].
  { rewrite Hmv, move_balance by (done || lia). rewrite bool_decide_eq_false_2, bool_decide_eq_true_2 by done. lia. }
  exists g'. split_and!; [cbn [applyMessages]; by erewrite bind_run by exact Hrun|lia|].
  intros x Hx. rewrite Hcr by done. rewrite Hmv, move_balance by (done || lia). unfold balance. cbn [credit].
  rewrite (bool_decide_eq_false_2 (x = this_gateway)) by done. rewrite (bool_decide_ext (r = x) (x = r)) by done.
  case_bool_decide; lia.
Qed.
End child.

(** The funds that are sent to a child on the parent arrive there, in the order they
    were sent: when the child, in step with the parent, applies the messages that the calls of
    [fund] have left in the parent's log, every recipient gets what was sent to it, and the child
    is in step with the parent again. *)
Lemma funds_arrive (P C : MessageEnv) (HC : @IdHashLaws (@env_hash_id C)) a fs gp x gp' gc block e :
  let i := createSubnetId (networkName gp) a in
  @fund_all P i fs gp = Done (x, gp') → networkName gc = i → isEmptyId (networkName gp) = false →
  appliedTopDownNonce gc = topDownNonce (subnet_at gp (@hash_id (@env_hash_id P) i)) →
  getNextEpoch block (bottomUpCheckPeriod gc) = Done e →
  bottomUpNonce gc + N.of_nat (length fs) < u64_size → appliedTopDownNonce gc + N.of_nat (length fs) < u64_size →
  Forall (λ '(_, v, r), r < 2 ^ 160 ∧ @normalize C r = r ∧ @receives C r v = true ∧ r ≠ @this_gateway C) fs →
  ∃ msgs gc', topdown_log gp' = topdown_log gp ++ ((a,.) <$> msgs) ∧
    (@mint_to_gateway C (values msgs) ;; @applyCrossMessages C block (@SYSTEM_ACTOR C) msgs) gc = Done (tt, gc') ∧
    appliedTopDownNonce gc' = topDownNonce (subnet_at gp' (@hash_id (@env_hash_id P) i)) ∧
    ∀ r, r ≠ @this_gateway C → balance gc' r = balance gc r + credit r fs.
Proof.
  intros i Hfund Hname Hpn Hstep He Hb Ht Hall. destruct (fund_all_sends fs a gp x gp' Hfund) as (Hlog & Hn & Hpos). fold i in Hlog, Hn.
  set (msgs := fund_msgs (networkName gp) i (appliedTopDownNonce gc) fs).
  set (g0 := set_balances (<[@this_gateway C := balance gc (@this_gateway C) + values msgs]> (balances gc)) gc).
  destruct (@applyMessages_funds C HC block (networkName gp) a e fs g0) as (gc' & Hrun & Ha & Hcr); try done.
  - unfold balance. cbn. rewrite lookup_insert_eq. cbn. fold i msgs. lia.
  - apply Forall_forall. intros [[s v] r] Hin. rewrite Forall_forall in Hall, Hpos.
    specialize (Hall _ Hin). specialize (Hpos _ Hin). cbn in *. naive_solver.
  - exists msgs, gc'. split_and!.
    + by rewrite Hlog, <-Hstep.
    + erewrite bind_run by done. unfold applyCrossMessages. rewrite bool_decide_eq_true_2 by done. cbn [negb].
      erewrite bind_run by done. fold g0. change (networkName g0) with (networkName gc). rewrite Hname.
      unfold i. rewrite parent_createSubnetId. erewrite bind_run by done. exact Hrun.
    + rewrite Hn, <-Hstep. exact Ha.
    + intros r Hr. rewrite Hcr by done. unfold balance. cbn. by rewrite lookup_insert_ne.
Qed.

(** ** A network with a parent and a child *)

Section middle.
Context `{MessageEnv, !IdHashLaws}.

(** A message from the parent with another nonce than the expected one is answered, and that is all. *)
Lemma applyMsg_refused block pn a e g m :
  networkName g = createSubnetId pn a → isEmptyId pn = false →
  subnetId (to m) = createSubnetId pn a → subnetId (from m) = pn →
  kind m = Transfer → 0 < value m → nonce m ≠ appliedTopDownNonce g →
  getNextEpoch block (bottomUpCheckPeriod g) = Done e → bottomUpNonce g + 1 < u64_size →
  ∃ g', applyMsg block pn m g = Done (tt, g') ∧ same_but_batches g g'.
Proof.
  intros Hname Hpn Ht Hf Hk Hv Hn He Hb.
  destruct (commitCross_up block (createResultMsg m SystemErr (revert_data "InvalidXnetMessage")) pn a e g)
    as (b & m' & g' & Hc & Hs); try done.
  exists g'. split; [|exact Hs]. unfold applyMsg. rewrite Ht, createSubnetId_not_empty.
  rewrite (bind_run _ _ g None g'); [done|]. unfold admit_msg. erewrite bind_run by done. rewrite Hname.
  assert (applyType m (createSubnetId pn a) = TopDown) as ->.
  { unfold applyType. rewrite Ht, Hf, commonParent_refl, (proj2 (commonParent_child pn a)), equals_spec.
    by rewrite bool_decide_eq_false_2 by apply createSubnetId_ne. }
  erewrite bind_run by done. rewrite bool_decide_eq_false_2 by congruence. cbn [negb].
  rewrite (bind_run _ _ g tt g'); [done|]. unfold sendReceipt, isEmpty. rewrite Hk. rewrite bool_decide_eq_false_2 by lia.
  rewrite bool_decide_eq_false_2 by done. by erewrite bind_run by exact Hc.
Qed.

(** C37: a network that has a parent and a child of its own loses a message
    from the parent with every withdrawal of the child: the receipt of the withdrawal takes up the
    nonce of the next message from the parent, which is then refused, and its funds do not
    arrive. *)
Theorem withdrawal_skips_topdown g block pn b a s c recipient sender v r0 r payer w payee e :
  networkName g = createSubnetId pn b → isEmptyId pn = false →
  a ≠ 0 → supplySource a = Some native →
  subnets g !! hash_id (createSubnetId (networkName g) a) = Some s → id s = createSubnetId (networkName g) a →
  0 < v ≤ circSupply s → circSupply s < u256_size → v ≤ balance g this_gateway →
  cp_subnetID c = createSubnetId (networkName g) a → cp_msgs c = [withdrawal g a s recipient sender v] →
  1 ≤ maxMsgsPerBottomUpBatch g →
  extractEvmAddress recipient = Done r0 → normalize r0 = r → receives r v = true →
  appliedBottomUpNonce s + 1 < u64_size → appliedTopDownNonce g + 1 < u64_size → topDownNonce s + 1 < u64_size →
  0 < w → getNextEpoch block (bottomUpCheckPeriod g) = Done e → bottomUpNonce g + 1 < u64_size →
  ∃ g1 g2, commitCheckpoint block a c g = Done (tt, g1) ∧
    applyMessages block pn (fund_msgs pn (networkName g) (appliedTopDownNonce g) [(payer, w, payee)]) g1 = Done (tt, g2) ∧
    balances g2 = balances g1 ∧ appliedTopDownNonce g2 = appliedTopDownNonce g + 1.
Proof.
  intros Hname Hpn Ha Hsrc Hs Hid Hv Hlt Hbal Hc Hm Hmax Hx Hr Hrec Hb Hat Ht Hval He Hbn.
  set (m := MkEnvelope Transfer (MkAddress (networkName g) (fvm_from payee)) (MkAddress pn (fvm_from payer)) (appliedTopDownNonce g) w []).
  assert (values (cp_msgs c) = v) as Hvs by (rewrite Hm; unfold values; cbn; lia).
  set (s1 := MkSubnet (stake s) (genesisEpoch s) (circSupply s - v) (topDownNonce s) (appliedBottomUpNonce s)
               (createSubnetId (networkName g) a)).
  set (g0 := put_subnet (hash_id (createSubnetId (networkName g) a)) s1 g).
  assert (isEmptyId (networkName g) = false) as Hne by (rewrite Hname; apply createSubnetId_not_empty).
  destruct (applyMsg_withdrawal block g0 a s1 recipient sender v r0 r)
    as (g1 & Hrun & _ & _ & Hn1 & Hp1 & Hb1 & Ha1); try done; [apply lookup_insert_eq|by split; [apply Hv|]|cbn; lia|].
  cbn [g0 put_subnet set_subnets networkName bottomUpCheckPeriod bottomUpNonce appliedTopDownNonce] in Hn1, Hp1, Hb1, Ha1.
  destruct (applyMsg_refused block pn b e g1 m) as (g2 & Hrun2 & _ & _ & Hb2 & Ha2 & _); try done;
    [congruence|cbn; lia|congruence|by rewrite Hb1|].
  exists g1, g2. split_and!; [|cbn [fund_msgs applyMessages]; fold m; by erewrite bind_run by exact Hrun2|done|by rewrite Ha2, Ha1].
  rewrite (commitCheckpoint_run block a c g s); try done; [|by rewrite Hm|by rewrite Hvs; apply Hv].
  rewrite Hvs. fold s1 g0. rewrite Hm. cbn [applyMessages]. by erewrite bind_run by exact Hrun.
Qed.
End middle.

(** ** Concrete runs *)

Module SampleDelivery.
Import SampleNetwork.

(** The child of the root network that the actor 5 is for, with a child of its own. *)
Definition child_gateway : Gateway := sample_gateway (createSubnetId root 5).

Lemma funds_arrive_witness :
  ∃ msgs gc', topdown_log (after native_env (native_ops ++ [(3, Fund 8 15 (createSubnetId root 5) (fvm_from 12))])) =
      (5,.) <$> msgs ∧
    (@mint_to_gateway native_env (values msgs) ;; @applyCrossMessages native_env 7 1 msgs) child_gateway = Done (tt, gc') ∧
    balance gc' 9 = 40 ∧ balance gc' 12 = 15.
Proof.
  destruct (funds_arrive native_env native_env (sample_hash _) 5 [(8, 40, 9); (8, 15, 12)]
    (after native_env [(1, Register 5 30 10)]) tt
    (after native_env (native_ops ++ [(3, Fund 8 15 (createSubnetId root 5) (fvm_from 12))]))
    child_gateway 7 10) as (msgs & gc' & Hlog & Hrun & _ & Hcr); [by vm_compute..| |].
  { repeat constructor; by vm_compute. }
  exists msgs, gc'. split_and!; [exact Hlog|exact Hrun|..].
  - by rewrite (Hcr 9) by (by vm_compute).
  - by rewrite (Hcr 12) by (by vm_compute).
Defined.

(** The child registers a subnet of its own, with a supply of 10. *)
Definition middle_gateway : Gateway :=
  match @perform_all native_env [(1, Register 8 30 10)] child_gateway with Done (_, g) => g | _ => child_gateway end.
Definition middle_subnet : Subnet :=
  subnet_at middle_gateway (@hash_id (@env_hash_id native_env) (createSubnetId (createSubnetId root 5) 8)).
Definition middle_checkpoint : BottomUpCheckpoint :=
  MkCheckpoint (createSubnetId (createSubnetId root 5) 8) 10 [] 0
    [withdrawal middle_gateway 8 middle_subnet (fvm_from 12) (fvm_from 12) 4].

Lemma withdrawal_skips_topdown_witness :
  ∃ g1 g2, @commitCheckpoint native_env 3 8 middle_checkpoint middle_gateway = Done (tt, g1) ∧
    @applyMessages native_env 3 root (fund_msgs root (createSubnetId root 5) 0 [(8, 40, 9)]) g1 = Done (tt, g2) ∧
    balances g2 = balances g1.
Proof.
  destruct (@withdrawal_skips_topdown native_env (sample_hash _) middle_gateway 3 root 5 8 middle_subnet middle_checkpoint
    (fvm_from 12) (fvm_from 12) 4 12 12 8 40 9 10) as (g1 & g2 & H1 & H2 & H3 & _); [by vm_compute..|].
  exists g1, g2. split_and!; [exact H1|exact H2|exact H3].
Defined.
End SampleDelivery.
