(* ===== verification/EvmTypes.v ===== *)
(** * Conversions between the node and the contracts

    The types of the node that stand for those of the contracts, and the conversions in both directions: [ipc/api/src/evm.rs],
    [ipc/api/src/staking.rs], [contracts/binding/src/convert.rs], and the addresses of [ipc/types/src/ethaddr.rs].
    What the contracts emit is converted when the node reads it, and converted back when the node calls the contracts of its
    own chain.

    Addresses of the FVM and the ABI coder of the node are library code. *)

From Stdlib Require Import Strings.Byte.
From stdpp Require Import vector.
From S2P Require Import Prelude SubnetId Cross Validators PQ Abi Staking SolIds Messages Ledger.

(** ** Libraries *)

(** [fvm_shared::address] and [ethers::abi] for the tuple that stands for a delegated address. *)
Class FvmAddresses := {
  fvm_text : Payload → string;
  fvm_of_text : string → string + Payload;
  new_delegated : N → list byte → string + Payload;
  address_from_bytes : list byte → string + Payload;
  abi_encode_address : N → N → list byte → list byte;
  abi_decode_address : list byte → string + (N * N * list byte)
}.

(** A subaddress has at most 54 bytes, an address of a key is a byte and the hash of the key, and the coder implements the ABI. *)
Class FvmAddressLaws `{FvmAddresses} := {
  new_delegated_law ns sub : (length sub ≤ 54)%nat → new_delegated ns sub = inr (Validators.Delegated ns sub);
  from_bytes_law b : length b = 20%nat → address_from_bytes (x01 :: b) = inr (Validators.Secp256k1 b);
  abi_encode_law d : abi_encode_address (namespace d) (da_length d) (buffer d) = encode_delegated d;
  abi_decode_law d : namespace d ≤ u64_max → da_length d < 2 ^ 128 → nlength (buffer d) ≤ u64_max →
    abi_decode_address (encode_delegated d) = inr (namespace d, da_length d, buffer d)
}.

Definition protocol_of (p : Payload) : Protocol :=
  match p with
  | Validators.ID _ => ProtoID
  | Validators.Secp256k1 _ => SubnetId.Secp256k1
  | Validators.Actor _ => SubnetId.Actor
  | Validators.BLS _ => SubnetId.BLS
  | Validators.Delegated _ _ => SubnetId.Delegated
  end.
#[export] Instance payload_addresses `{FvmAddresses} : AddressType := {|
  SubnetId.Address := Payload;
  addr_protocol := protocol_of;
  addr_new_id := Validators.ID;
  addr_to_string := fvm_text;
  addr_from_str := fvm_of_text
|}.

(** [protocol() as u8]. *)
Definition protocol_number (p : Protocol) : N :=
  match p with ProtoID => 0 | SubnetId.Secp256k1 => 1 | SubnetId.Actor => 2 | SubnetId.BLS => 3 | SubnetId.Delegated => 4 end.

Section conversions.
Context `{FvmAddresses}.

(** ** Addresses *)

(** [Address::from] of an [EthAddress]. *)
Definition eth_to_address (a : EthAddress) : outcome string Payload :=
  if is_masked_id a then Done (Validators.ID (from_be_bytes (drop 12 (vec_to_list a))))
  else match new_delegated EAM_ACTOR_ID (vec_to_list a) with
       | inr p => Done p
       | inl _ => Panic
       end.
(** The address is printed as a number and read back. *)
Definition ethers_address_to_fil_address (a : PQ.Address) : outcome string Payload := eth_to_address (be_bytes 20 a).

Definition payload_to_evm_address (p : Payload) : outcome string PQ.Address :=
  match p with
  | Validators.Delegated _ sub => if bool_decide (length sub < 20)%nat then Panic else Done (from_be_bytes (take 20 sub))
  | _ => Fail "address provided is not delegated"%string
  end.

Definition addr_payload_to_bytes (p : Payload) : outcome string (list byte) :=
  match p with
  | Validators.Secp256k1 v => Done v
  | Validators.Delegated ns sub => Done (abi_encode_address ns (nlength sub) sub)
  | _ => Fail "Invalid payload type"%string
  end.

(** The numbers of the tuple are 256 bits wide, and casts to narrower ones panic. *)
Definition bytes_to_fvm_addr (protocol : N) (bytes : list byte) : outcome string Payload :=
  if bool_decide (protocol = 1) then of_sum (address_from_bytes (x01 :: bytes))
  else if bool_decide (protocol = 4) then
    match abi_decode_address bytes with
    | inl e => Fail e
    | inr (ns, len, raw_bytes) =>
        if bool_decide (2 ^ 128 ≤ len) then Panic
        else if bool_decide (u64_max < ns) then Panic
        else if negb (bool_decide (len `mod` u64_size = nlength raw_bytes)) then Fail "bytes len not match"%string
        else of_sum (new_delegated ns raw_bytes)
    end
  else Fail "address not support now"%string.

Definition fvm_to_evm (p : Payload) : outcome string FvmAddress :=
  b ← addr_payload_to_bytes p;
  Done (MkFvm (protocol_number (protocol_of p)) b).
Definition fvm_of_evm (a : FvmAddress) : outcome string Payload := bytes_to_fvm_addr (addrType a) (SolIds.payload a).

(** ** Subnets *)

Definition subnet_id_to_evm_addresses (s : SubnetId.SubnetID) : outcome string (list PQ.Address) := try_all payload_to_evm_address (children s).
Definition subnet_to_evm (s : SubnetId.SubnetID) : outcome string SolIds.SubnetID :=
  route ← subnet_id_to_evm_addresses s;
  Done (MkID (root s) route).
Definition subnet_of_evm (s : SolIds.SubnetID) : outcome string SubnetId.SubnetID :=
  children ← (try_all ethers_address_to_fil_address (route s) : outcome string (list SubnetId.Address));
  Done (SubnetId.new (id_root s) children).

Definition ipc_address_to_evm (a : Cross.IPCAddress) : outcome string Messages.IPCAddress :=
  s ← subnet_to_evm (Cross.subnet_id a);
  raw ← fvm_to_evm (Cross.raw_address a);
  Done (MkAddress s raw).
Definition ipc_address_of_evm (a : Messages.IPCAddress) : outcome string Cross.IPCAddress :=
  addr ← fvm_of_evm (Messages.rawAddress a);
  s ← subnet_of_evm (Messages.subnetId a);
  Done (address_new s addr).

(** ** Messages *)

(** The kinds are numbered in the order of their declarations. *)
Definition kind_number (k : Cross.IpcMsgKind) : N := match k with Cross.Transfer => 0 | Cross.Call => 1 | Cross.Receipt => 2 end.
Definition evm_kind_number (k : Messages.IpcMsgKind) : N := match k with Messages.Transfer => 0 | Messages.Call => 1 | Messages.Result => 2 end.
(** A contract reverts if it gets a number that is not one of a kind. *)
Definition evm_kind (n : N) : outcome string Messages.IpcMsgKind :=
  match n with 0 => Done Messages.Transfer | 1 => Done Messages.Call | 2 => Done Messages.Result | _ => Fail ""%string end.

(** The amount is printed as a number and read back. *)
Definition fil_to_eth_amount (v : Z) : outcome string N :=
  if bool_decide (0 ≤ v < Z.of_N u256_size)%Z then Done (Z.to_N v) else Fail "invalid number"%string.
Definition eth_to_fil_amount (v : N) : Z := Z.of_N v.

Definition envelope_into_evm (m : Cross.IpcEnvelope) : outcome string Messages.IpcEnvelope :=
  val ← fil_to_eth_amount (Cross.amount m);
  from ← ipc_address_to_evm (Cross.from m);
  to ← ipc_address_to_evm (Cross.to m);
  kind ← evm_kind (kind_number (Cross.kind m));
  Done (Messages.MkEnvelope kind to from (Cross.nonce m) val (Cross.message m)).
Definition envelope_of_evm (m : Messages.IpcEnvelope) : outcome string Cross.IpcEnvelope :=
  from ← ipc_address_of_evm (Messages.from m);
  to ← ipc_address_of_evm (Messages.to m);
  kind ← kind_try_from (evm_kind_number (Messages.kind m));
  Done (Cross.MkEnvelope kind to (eth_to_fil_amount (Messages.value m)) from (Messages.message m) (Messages.nonce m)).

(** ** Changes of validators *)

Record AgentChange := MkAgentChange { agent_op : StakingOperation; agent_payload : list byte; agent_validator : Payload }.
Record AgentChangeRequest := MkAgentRequest { agent_number : N; agent_change : AgentChange }.

(** The operations have the same names and the same order on both sides. *)
Definition op_number (o : StakingOperation) : N := match o with Deposit => 0 | Withdraw => 1 | SetMetadata => 2 | SetFederatedPower => 3 end.
Definition op_try_from (n : N) : outcome string StakingOperation :=
  match n with 0 => Done Deposit | 1 => Done Withdraw | 2 => Done SetMetadata | 3 => Done SetFederatedPower | _ => Fail "no such operation"%string end.

Definition request_into_evm (r : AgentChangeRequest) : outcome string StakingChangeRequest :=
  validator ← payload_to_evm_address (agent_validator (agent_change r));
  op ← op_try_from (op_number (agent_op (agent_change r)));
  Done (MkRequest (MkChange op (agent_payload (agent_change r)) validator) (agent_number r)).
Definition request_of_evm (r : StakingChangeRequest) : outcome string AgentChangeRequest :=
  op ← op_try_from (op_number (change_op (request_change r)));
  validator ← ethers_address_to_fil_address (change_validator (request_change r));
  Done (MkAgentRequest (request_configurationNumber r) (MkAgentChange op (change_payload (request_change r)) validator)).

(** ** Round trips *)

Context `{!FvmAddressLaws}.

(** Addresses that are not numbers of actors in disguise, and identifiers made of them. *)
Definition unmasked (a : PQ.Address) : Prop := a < 2 ^ 160 ∧ is_masked_id (be_bytes 20 a) = false.
Definition plain_id (s : SolIds.SubnetID) : Prop := Forall unmasked (route s).

Lemma eth_back a : a < 2 ^ 160 → payload_to_evm_address (Validators.Delegated EAM_ACTOR_ID (vec_to_list (be_bytes 20 a))) = Done a.
Proof.
  intros Ha. cbn [payload_to_evm_address]. rewrite bool_decide_eq_false_2 by (rewrite length_vec_to_list; lia).
  rewrite take_ge by (by rewrite length_vec_to_list). f_equal. rewrite be_bytes_value. by apply N.mod_small.
Qed.
Lemma address_converts a : unmasked a → ethers_address_to_fil_address a = Done (Validators.Delegated EAM_ACTOR_ID (vec_to_list (be_bytes 20 a))).
Proof.
  intros [_ Hm]. unfold ethers_address_to_fil_address, eth_to_address. rewrite Hm. rewrite new_delegated_law; [done|]. rewrite length_vec_to_list. lia.
Qed.

Lemma subnet_roundtrip s : plain_id s → ∃ r, subnet_of_evm s = Done r ∧ subnet_to_evm r = Done s.
Proof.
  intros Hs. unfold subnet_of_evm, subnet_to_evm, subnet_id_to_evm_addresses. destruct s as [rt l]. unfold plain_id in Hs. cbn [route id_root] in *.
  assert (∃ ps, try_all ethers_address_to_fil_address l = Done ps ∧ try_all payload_to_evm_address ps = Done l) as (ps & Hof & Hto).
  { induction Hs as [|a l Ha _ (ps & IH1 & IH2)]; [by exists []|]. exists (Validators.Delegated EAM_ACTOR_ID (vec_to_list (be_bytes 20 a)) :: ps).
    cbn [try_all]. rewrite address_converts by done. cbn [mbind outcome_bind]. rewrite IH1, eth_back by apply Ha. cbn. by rewrite IH2. }
  rewrite Hof. eexists. split; [done|]. cbn [SubnetId.new SubnetId.children SubnetId.root]. by rewrite Hto.
Qed.

(** What the contracts make of an address of theirs, they get back. *)
Lemma fvm_roundtrip a : fvm_of_evm (fvm_from a) = Done (Validators.Delegated EAM_ACTOR_ID (address_bytes a)) ∧
  fvm_to_evm (Validators.Delegated EAM_ACTOR_ID (address_bytes a)) = Done (fvm_from a).
Proof.
  pose proof (address_bytes_length a) as Hl. set (d := MkDelegated EAM_ACTOR 20 (address_bytes a)). split.
  - unfold fvm_of_evm, bytes_to_fvm_addr, fvm_from. cbn [addrType SolIds.payload]. rewrite (bool_decide_eq_false_2 (4 = 1)), (bool_decide_eq_true_2 (4 = 4)) by done.
    fold d. rewrite abi_decode_law by (try done; unfold d; cbn [buffer]; by rewrite Hl). unfold d. cbn [namespace da_length buffer].
    rewrite (bool_decide_eq_false_2 (2 ^ 128 ≤ 20)), (bool_decide_eq_false_2 (u64_max < EAM_ACTOR)) by (unfold u64_max, EAM_ACTOR; lia).
    rewrite Hl, bool_decide_eq_true_2 by done. cbn [negb]. rewrite new_delegated_law; [done|]. unfold address_bytes. rewrite length_vec_to_list. lia.
  - unfold fvm_to_evm, addr_payload_to_bytes, fvm_from. rewrite Hl. fold d. pose proof (abi_encode_law d) as He. unfold d in *. cbn [namespace da_length buffer] in He.
    change EAM_ACTOR_ID with EAM_ACTOR. by rewrite He.
Qed.

(** A message whose addresses the contracts have made. *)
Record plain_message (m : Messages.IpcEnvelope) : Prop := {
  pm_from : plain_id (Messages.subnetId (Messages.from m));
  pm_to : plain_id (Messages.subnetId (Messages.to m));
  pm_sender : ∃ a, Messages.rawAddress (Messages.from m) = fvm_from a;
  pm_recipient : ∃ a, Messages.rawAddress (Messages.to m) = fvm_from a;
  pm_value : Messages.value m < u256_size
}.

Lemma evm_address_roundtrip a :
  plain_id (Messages.subnetId a) → (∃ x, Messages.rawAddress a = fvm_from x) →
  ∃ r, ipc_address_of_evm a = Done r ∧ ipc_address_to_evm r = Done a.
Proof.
  intros Hs [x Hx]. destruct a as [s raw]. cbn [Messages.subnetId Messages.rawAddress] in *. subst raw.
  destruct (subnet_roundtrip s Hs) as (r & Hof & Hto), (fvm_roundtrip x) as [Fof Fto].
  unfold ipc_address_of_evm, ipc_address_to_evm. cbn [Messages.subnetId Messages.rawAddress]. rewrite Fof. cbn [mbind outcome_bind]. rewrite Hof.
  eexists. split; [done|]. cbn [Cross.subnet_id Cross.raw_address address_new]. rewrite Hto. cbn [mbind outcome_bind]. by rewrite Fto.
Qed.

Lemma envelope_roundtrip m :
  plain_message m → ∃ r, envelope_of_evm m = Done r ∧ envelope_into_evm r = Done m ∧ Cross.nonce r = Messages.nonce m ∧ Cross.amount r = Z.of_N (Messages.value m).
Proof.
  intros [Hf Ht Hs Hr Hv]. destruct (evm_address_roundtrip _ Hf Hs) as (rf & Fof & Fto), (evm_address_roundtrip _ Ht Hr) as (rt & Tof & Tto).
  unfold envelope_of_evm. rewrite Fof. cbn [mbind outcome_bind]. rewrite Tof. cbn [mbind outcome_bind].
  destruct m as [k t f n v p]. cbn [Messages.kind Messages.to Messages.from Messages.nonce Messages.value Messages.message] in *.
  assert (fil_to_eth_amount (eth_to_fil_amount v) = Done v) as Hamount.
  { unfold fil_to_eth_amount, eth_to_fil_amount. rewrite bool_decide_eq_true_2 by lia. by rewrite N2Z.id. }
  assert (∃ rk, kind_try_from (evm_kind_number k) = Done rk ∧ evm_kind (kind_number rk) = Done k) as (rk & -> & Hk) by (destruct k; by eexists).
  eexists. split; [done|]. unfold envelope_into_evm. cbn [Cross.kind Cross.to Cross.amount Cross.from Cross.nonce Cross.message].
  rewrite Hamount. cbn [mbind outcome_bind]. rewrite Fto. cbn [mbind outcome_bind]. rewrite Tto. cbn [mbind outcome_bind]. by rewrite Hk.
Qed.

Lemma request_roundtrip r :
  unmasked (change_validator (request_change r)) →
  ∃ q, request_of_evm r = Done q ∧ request_into_evm q = Done r ∧ agent_number q = request_configurationNumber r.
Proof.
  intros Hv. destruct r as [[op p v] n]. cbn [request_change change_validator] in Hv. unfold request_of_evm. cbn [request_change change_op change_validator].
  rewrite address_converts by done. assert (op_try_from (op_number op) = Done op) as Hop by (by destruct op). rewrite Hop. cbn [mbind outcome_bind].
  eexists. split; [done|]. unfold request_into_evm. cbn [agent_change agent_validator agent_op]. rewrite eth_back by apply Hv. cbn [mbind outcome_bind]. by rewrite Hop.
Qed.
End conversions.

(** ** Lists of them *)

Section lists.
Context `{FvmAddresses, !FvmAddressLaws}.

(** What a conversion makes of a value, with a default where there is nothing. *)
Definition converted {A B} (d : B) (f : A → outcome string B) (a : A) : B := match f a with Done b => b | _ => d end.
Definition no_envelope : Messages.IpcEnvelope :=
  Messages.MkEnvelope Messages.Transfer (MkAddress (MkID 0 []) (MkFvm 0 [])) (MkAddress (MkID 0 []) (MkFvm 0 [])) 0 0 [].
Definition no_request : StakingChangeRequest := MkRequest (MkChange Deposit [] 0) 0.

Lemma envelope_amount r m : envelope_into_evm r = Done m → Cross.amount r = Z.of_N (Messages.value m).
Proof.
  unfold envelope_into_evm, fil_to_eth_amount. case_bool_decide as Hv; [|done]. cbn [mbind outcome_bind].
  destruct (ipc_address_to_evm (Cross.from r)); try done. destruct (ipc_address_to_evm (Cross.to r)); try done. cbn [mbind outcome_bind].
  destruct (evm_kind _); try done. intros [= <-]. cbn. lia.
Qed.

(** Values that are read and written back are those that were there. *)
Lemma read_back {A B} (d : A) (rd : A → outcome string B) (wr : B → outcome string A) (good : A → Prop) l rs :
  (∀ a, good a → ∃ b, rd a = Done b ∧ wr b = Done a) → Forall good l → try_all rd l = Done rs →
  Forall (λ b, wr b = Done (converted d wr b)) rs ∧ converted d wr <$> rs = l.
Proof.
  intros Hrt Hl. revert rs. induction Hl as [|a l Ha _ IH]; intros rs Hr; cbn [try_all] in Hr; [by injection Hr as <-|].
  destruct (Hrt a Ha) as (b & Hrd & Hwr). rewrite Hrd in Hr. cbn [mbind outcome_bind] in Hr.
  destruct (try_all rd l) as [bs| | | |]; try done. cbn in Hr. injection Hr as <-. destruct (IH bs eq_refl) as [IH1 IH2].
  assert (converted d wr b = a) as Hc by (unfold converted; by rewrite Hwr). split; [constructor; [by rewrite Hc|done]|].
  rewrite fmap_cons, Hc. by f_equal.
Qed.

(** Reading never goes wrong for them. *)
Lemma read_all {A B} (rd : A → outcome string B) (wr : B → outcome string A) (good : A → Prop) l :
  (∀ a, good a → ∃ b, rd a = Done b ∧ wr b = Done a) → Forall good l → ∃ rs, try_all rd l = Done rs.
Proof.
  intros Hrt Hl. induction Hl as [|a l Ha _ [rs IH]]; [by eexists|]. destruct (Hrt a Ha) as (b & Hrd & _).
  cbn [try_all]. rewrite Hrd. cbn [mbind outcome_bind]. rewrite IH. by eexists.
Qed.
End lists.

(** ** A concrete coder *)

Module SampleFvm.
Definition sample_delegated (ns : N) (sub : list byte) : string + Payload :=
  if bool_decide (length sub ≤ 54)%nat then inr (Validators.Delegated ns sub) else inl "subaddress too long"%string.
Definition sample_from_bytes (b : list byte) : string + Payload :=
  match b with
  | x01 :: r => if bool_decide (length r = 20%nat) then inr (Validators.Secp256k1 r) else inl "invalid length"%string
  | _ => inl "unknown protocol"%string
  end.
#[export] Instance sample_fvm : FvmAddresses := {|
  fvm_text _ := "f0"%string;
  fvm_of_text _ := inl "unknown network"%string;
  new_delegated := sample_delegated;
  address_from_bytes := sample_from_bytes;
  abi_encode_address ns len b := encode_delegated (MkDelegated ns len b);
  abi_decode_address b := match decode_delegated b with Done d => inr (namespace d, da_length d, buffer d) | _ => inl "invalid data"%string end
|}.
#[export] Instance sample_fvm_laws : FvmAddressLaws.
Proof.
  split.
  - intros ns sub Hs. cbn. unfold sample_delegated. by rewrite bool_decide_eq_true_2.
  - intros b Hb. cbn. by rewrite bool_decide_eq_true_2.
  - by intros [].
  - intros d Hn Hl Hb. cbn [abi_decode_address sample_fvm]. by rewrite decode_encode_delegated.
Qed.
End SampleFvm.
