(* ===== verification/Submission.v ===== *)
(** * Submission of checkpoints

    [SubnetActorCheckpointingFacet] with [MultisignatureChecker]: a checkpoint of the child is
    accepted by the subnet actor on the parent when its height is the next one and it has the
    signatures of validators with enough power.  The recovery of the signer of a hash is code of
    a library, the parameter [tryRecover]; the gateway is the interface [CheckpointGateway]. *)

From Stdlib Require Import Strings.Byte.
From S2P Require Import Prelude Weights PQ ValidatorSet Abi SolIds Messages Staking GatewayFinality SubnetActor.

(** What the subnet actor relies on the gateway for. *)
Class CheckpointGateway := gw_commitCheckpoint : BottomUpCheckpoint → stm World string unit.

(** The gateway does not call the actor back. *)
Definition same_actor (w w' : World) : Prop := actor w' = actor w.
#[export] Instance same_actor_po : PreOrder same_actor.
Proof. split; [by intros w|]. unfold same_actor. intros w1 w2 w3 -> ->. done. Qed.

Class CheckpointGatewayLaws `{CheckpointGateway} := gw_keeps_actor c : keeps same_actor (gw_commitCheckpoint c).

Class SubmitEnv := {
  checkpoint_hash : BottomUpCheckpoint → N;
  (** The signer of a hash, or nothing if the signature is not valid. *)
  tryRecover : N → list byte → option Address
}.

Record Submissions := MkSubmissions {
  sm_world : World;
  lastBottomUpCheckpointHeight : N;
  committedCheckpoints : gmap N BottomUpCheckpoint
}.

Definition on_world {A} (tx : stm World string A) : stm Submissions string A :=
  zoom sm_world (λ w s, MkSubmissions w (lastBottomUpCheckpointHeight s) (committedCheckpoints s)) tx.

Inductive MultisignatureError :=
| Nil | InvalidArrayLength | EmptySignatures | InvalidSignatory | InvalidSignature | WeightsSumLessThanThreshold.

#[export] Instance MultisignatureError_eq_dec : EqDecision MultisignatureError.
Proof. solve_decision. Defined.

Section submission.
Context `{SubmitEnv}.

(** The loop over the signatures, with the weight so far: an error, or the weight of them all. *)
Fixpoint check_signatures (hash weight : N) (signatories weights : list N) (signatures : list (list byte)) :
    outcome string (MultisignatureError + N) :=
  match signatures, signatories, weights with
  | sig :: signatures, a :: signatories, w :: weights =>
      match tryRecover hash sig with
      | None => Done (inl InvalidSignature)
      | Some recovered =>
          if negb (bool_decide (recovered = a)) then Done (inl InvalidSignatory)
          else weight ← u256_add weight w; check_signatures hash weight signatories weights signatures
      end
  | _, _, _ => Done (inr weight)
  end.

Definition isValidWeightedMultiSignature (signatories weights : list N) (threshold hash : N) (signatures : list (list byte)) :
    outcome string (bool * MultisignatureError) :=
  if bool_decide (signatures = []) then Done (false, EmptySignatures)
  else if bool_decide (length signatures ≠ length signatories) || bool_decide (length signatures ≠ length weights)
  then Done (false, InvalidArrayLength)
  else
    r ← check_signatures hash 0 signatories weights signatures;
    match r with
    | inl e => Done (false, e)
    | inr weight => Done (if bool_decide (threshold ≤ weight) then (true, Nil) else (false, WeightsSumLessThanThreshold))
    end.

Definition validateActiveQuorumSignatures (set : ValidatorSet) (majority : N) (signatories : list N) (hash : N)
    (signatures : list (list byte)) : outcome string unit :=
  collaterals ← getTotalPowerOfValidators set signatories;
  activeCollateral ← getTotalActivePower set;
  product ← u256_mul activeCollateral majority;
  r ← isValidWeightedMultiSignature signatories collaterals (product / 100) hash signatures;
  let '(valid, _) := r in
  if negb valid then Fail "InvalidSignatureErr"%string else Done tt.

Definition ensureValidCheckpoint (p : ActorParams) (last : N) (c : BottomUpCheckpoint) : outcome string unit :=
  let msgs := N.of_nat (length (cp_msgs c)) in
  if bool_decide (maxMsgsPerBottomUpBatch p < msgs) then Fail "MaxMsgsPerBatchExceeded"%string
  else if bool_decide (cp_blockHeight c ≤ last) then Fail "BottomUpCheckpointAlreadySubmitted"%string
  else
    nextCheckpointHeight ← getNextEpoch last (bottomUpCheckPeriod p);
    if bool_decide (nextCheckpointHeight < cp_blockHeight c) then Fail "CannotSubmitFutureCheckpoint"%string
    else if bool_decide (cp_blockHeight c = nextCheckpointHeight) then Done tt
    else if bool_decide (msgs = maxMsgsPerBottomUpBatch p) then Done tt
    else Fail "InvalidCheckpointEpoch"%string.

Definition submitCheckpoint `{ActorEnv, CheckpointGateway} (c : BottomUpCheckpoint) (signatories : list N)
    (signatures : list (list byte)) : stm Submissions string unit :=
  on_world whenNotPaused ;;
  p ← reads (λ s, params (actor (sm_world s)));
  last ← reads lastBottomUpCheckpointHeight;
  lift (ensureValidCheckpoint p last c) ;;
  set ← reads (λ s, validatorSet (actor (sm_world s)));
  lift (validateActiveQuorumSignatures set (majorityPercentage p) signatories (checkpoint_hash c) signatures) ;;
  modify (λ s, MkSubmissions (sm_world s) (cp_blockHeight c) (<[cp_blockHeight c := c]> (committedCheckpoints s))) ;;
  on_world (gw_commitCheckpoint c) ;;
  on_world (confirmChange (cp_nextConfigurationNumber c)).
End submission.

(** ** Sums of powers *)

Lemma u256_sum_inv acc l n : u256_sum acc l = Done n → n = acc + sumN l.
Proof.
  revert acc. induction l as [|x l IH]; intros acc Hr; cbn [u256_sum] in Hr; inv_done; [cbn; lia|].
  match goal with G : u256_add _ _ = _ |- _ => apply u256_add_inv in G as [-> _] end.
  match goal with G : u256_sum _ _ = _ |- _ => apply IH in G as -> end. cbn. lia.
Qed.

Lemma powers_inv set l ps : getTotalPowerOfValidators set l = Done ps →
  ps = getPower set <$> l ∧ Forall (λ a, isActiveValidator set a = true) l.
Proof.
  revert ps. induction l as [|a l IH]; intros ps Hr; cbn [getTotalPowerOfValidators] in Hr; inv_done; [done|].
  destruct (isActiveValidator set a) eqn:Ha; cbn in Hr; inv_done.
  match goal with G : getTotalPowerOfValidators _ _ = _ |- _ => apply IH in G as [-> Hl] end. split; [done|by constructor].
Qed.

Lemma powers_run set l : Forall (λ a, isActiveValidator set a = true) l →
  getTotalPowerOfValidators set l = Done (getPower set <$> l).
Proof.
  induction 1 as [|a l Ha _ IH]; [done|]. cbn [getTotalPowerOfValidators]. rewrite Ha. cbn [negb]. by rewrite IH.
Qed.

Section signatures.
Context `{SubmitEnv}.

(** What is checked: every signature is that of its signatory. *)
Lemma check_signatures_inv hash acc signatories weights signatures n :
  length signatures = length signatories → length signatures = length weights →
  check_signatures hash acc signatories weights signatures = Done (inr n) →
  n = acc + sumN weights ∧ Forall2 (λ a sig, tryRecover hash sig = Some a) signatories signatures.
Proof.
  revert acc weights signatures. induction signatories as [|a l IH]; intros acc [|w ws] [|sig sigs] Hl1 Hl2 Hr; try done;
    cbn [check_signatures] in Hr; inv_done; [split; [cbn; lia|constructor]|].
  destruct (tryRecover hash sig) as [b|] eqn:Hs; [|inv_done]. case_bool_decide as Hb; cbn in Hr; inv_done.
  match goal with G : u256_add _ _ = _ |- _ => apply u256_add_inv in G as [-> _] end.
  match goal with G : check_signatures _ _ _ _ _ = _ |- _ => apply IH in G as [-> Hall]; [|cbn in Hl1; lia|cbn in Hl2; lia] end.
  split; [cbn; lia|by constructor].
Qed.

Lemma check_signatures_run hash acc signatories weights signatures :
  length signatures = length weights → acc + sumN weights < u256_size →
  Forall2 (λ a sig, tryRecover hash sig = Some a) signatories signatures →
  check_signatures hash acc signatories weights signatures = Done (inr (acc + sumN weights)).
Proof.
  intros Hl Hs Hall. revert acc weights Hl Hs.
  induction Hall as [|a sig l sigs Ha _ IH]; intros acc [|w ws] Hl Hs; try done; cbn [check_signatures].
  { cbn. by rewrite N.add_0_r. }
  change (sumN (w :: ws)) with (w + sumN ws) in *. rewrite Ha, bool_decide_eq_true_2 by done. cbn [negb]. rewrite u256_add_ok by lia. cbn [mbind outcome_bind].
  cbn [length] in Hl. rewrite IH by lia. by rewrite N.add_assoc.
Qed.

Definition signed_by (hash : N) (signatories : list N) (signatures : list (list byte)) : Prop :=
  Forall2 (λ a sig, tryRecover hash sig = Some a) signatories signatures.

(** What an accepted list of signatures shows. *)
Lemma validate_inv set majority signatories hash signatures x :
  validateActiveQuorumSignatures set majority signatories hash signatures = Done x →
  ∃ total, getTotalActivePower set = Done total ∧ signatories ≠ [] ∧
    Forall (λ a, isActiveValidator set a = true) signatories ∧ signed_by hash signatories signatures ∧
    total * majority / 100 ≤ sumN (getPower set <$> signatories).
Proof.
  unfold validateActiveQuorumSignatures, isValidWeightedMultiSignature. intros Hr. inv_done.
  match goal with G : getTotalPowerOfValidators _ _ = _ |- _ => apply powers_inv in G as [-> Hact] end.
  match goal with G : u256_mul _ _ = _ |- _ => apply checked_inv in G as [Hm _] end.
  case_bool_decide as Hnil; inv_done. destruct (_ || _) eqn:Hlen; inv_done.
  apply orb_false_iff in Hlen as [Hl1%bool_decide_eq_false Hl2%bool_decide_eq_false].
  apply dec_stable in Hl1, Hl2.
  match goal with G : check_signatures _ _ _ _ _ = Done ?r |- _ => destruct r as [err|n]; inv_done;
    apply check_signatures_inv in G as [Hn Hall]; [|done|done] end.
  case_bool_decide as Hth; inv_done. eexists. split_and!; [done| |done|done|].
  - intros ->. by destruct signatures.
  - rewrite N.add_0_l in Hth. match goal with G : Z.of_N ?p = (Z.of_N ?t * _)%Z |- _ => by assert (p = t * majority) as <- by lia end.
Qed.

(** Signatures of active validators are accepted if their powers reach the threshold. *)
Lemma validate_eq set majority signatories hash signatures total :
  getTotalActivePower set = Done total → total * majority < u256_size → signatories ≠ [] →
  Forall (λ a, isActiveValidator set a = true) signatories → signed_by hash signatories signatures →
  sumN (getPower set <$> signatories) < u256_size →
  validateActiveQuorumSignatures set majority signatories hash signatures =
    if bool_decide (total * majority / 100 ≤ sumN (getPower set <$> signatories)) then Done tt
    else Fail "InvalidSignatureErr"%string.
Proof.
  intros Ht Hm Hne Hact Hs Hlt. unfold validateActiveQuorumSignatures. rewrite powers_run by done.
  cbn [mbind outcome_bind]. rewrite Ht. cbn [mbind outcome_bind]. unfold u256_mul.
  rewrite <-N2Z.inj_mul, checked_ok by done. cbn [mbind outcome_bind].
  unfold isValidWeightedMultiSignature. pose proof (Forall2_length _ _ _ Hs) as Hlen.
  rewrite bool_decide_eq_false_2 by (intros ->; by destruct signatories).
  rewrite !bool_decide_eq_false_2 by (rewrite ?length_fmap; lia). cbn [orb].
  rewrite check_signatures_run by (rewrite ?length_fmap; done || lia). cbn [mbind outcome_bind].
  rewrite N.add_0_l. by case_bool_decide.
Qed.

Lemma validate_run set majority signatories hash signatures total :
  getTotalActivePower set = Done total → total * majority < u256_size → signatories ≠ [] →
  Forall (λ a, isActiveValidator set a = true) signatories → signed_by hash signatories signatures →
  total * majority / 100 ≤ sumN (getPower set <$> signatories) → sumN (getPower set <$> signatories) < u256_size →
  validateActiveQuorumSignatures set majority signatories hash signatures = Done tt.
Proof. intros. rewrite (validate_eq _ _ _ _ _ total) by done. by rewrite bool_decide_eq_true_2. Qed.
End signatures.

(** *** Sums over lists of validators *)

Lemma sumN_sub (f : N → N) l k : NoDup l → (∀ x, x ∈ l → x ∈ k) → sumN (f <$> l) ≤ sumN (f <$> k).
Proof.
  intros Hnd Hin. destruct (submseteq_Permutation l k) as [k' Hk]; [by apply NoDup_submseteq|].
  rewrite Hk, fmap_app, sumN_app. lia.
Qed.

Lemma active_listed set a :
  linked (activeValidators set) → isActiveValidator set a = true → a ∈ listActiveValidators set.
Proof.
  intros Hl Ha. unfold isActiveValidator, pq_contains in Ha. apply negb_true_iff, bool_decide_eq_false in Ha.
  unfold pos_of in Ha. destruct (addressToPos (activeValidators set) !! a) as [p|] eqn:Hp; [|done].
  apply linked_inverse in Hp as [Hr Hp]; [|done]. unfold listActiveValidators. apply list_elem_of_fmap. exists p. split.
  - unfold addr_at. by rewrite Hp.
  - apply elem_of_range_up. lia.
Qed.

Lemma active_linked set : vs_inv set → linked (activeValidators set).
Proof. intros Hinv. exact (valid_linked _ _ (o_active _ _ _ _ (vi_ordered _ Hinv))). Qed.

Lemma total_power_eq set total : getTotalActivePower set = Done total → total = sumN (getPower set <$> listActiveValidators set).
Proof. intros Ht. apply u256_sum_inv in Ht. by rewrite N.add_0_l in Ht. Qed.

(** ** Quorums *)

Section quorums.
Context `{SubmitEnv}.

Lemma signed_in hash a l sigs : signed_by hash l sigs → a ∈ l → ∃ sig, sig ∈ sigs ∧ tryRecover hash sig = Some a.
Proof.
  intros Hall (k & Hk)%list_elem_of_lookup. destruct (Forall2_lookup_l _ _ _ _ _ Hall Hk) as (sig & Hsig & Hr).
  exists sig. split; [by eapply list_elem_of_lookup_2|done].
Qed.

(** C26: two checkpoints that are both accepted, each with the signatures of
    different validators, have a validator in common that has signed both, if twice the threshold
    is more than the power of all active validators. *)
Theorem checkpoint_quorums_meet set majority total l1 l2 hash1 hash2 sigs1 sigs2 :
  vs_inv set → getTotalActivePower set = Done total → total < 2 * (total * majority / 100) →
  NoDup l1 → NoDup l2 →
  validateActiveQuorumSignatures set majority l1 hash1 sigs1 = Done tt →
  validateActiveQuorumSignatures set majority l2 hash2 sigs2 = Done tt →
  ∃ a sig1 sig2, isActiveValidator set a = true ∧ sig1 ∈ sigs1 ∧ tryRecover hash1 sig1 = Some a ∧
    sig2 ∈ sigs2 ∧ tryRecover hash2 sig2 = Some a.
Proof.
  intros Hinv Ht Hlt Hnd1 Hnd2 (t1 & Ht1 & _ & Hact1 & Hs1 & Hw1)%validate_inv (t2 & Ht2 & _ & Hact2 & Hs2 & Hw2)%validate_inv.
  assert (t1 = total) as -> by congruence. assert (t2 = total) as -> by congruence.
  rewrite Forall_forall in Hact1, Hact2.
  destruct (decide (Exists (λ a, a ∈ l2) l1)) as [Hex|Hno].
  - apply Exists_exists in Hex as (a & Ha1 & Ha2).
    destruct (signed_in hash1 a l1 sigs1 Hs1 Ha1) as (sig1 & Hi1 & Hr1).
    destruct (signed_in hash2 a l2 sigs2 Hs2 Ha2) as (sig2 & Hi2 & Hr2).
    exists a, sig1, sig2. split_and!; auto.
  - exfalso. apply total_power_eq in Ht.
    assert (sumN (getPower set <$> (l1 ++ l2)) ≤ sumN (getPower set <$> listActiveValidators set)) as Hle.
    { apply sumN_sub.
      - apply NoDup_app. split_and!; [done| |done]. intros a Ha1 Ha2. apply Hno, Exists_exists. eauto.
      - intros a Ha. apply active_listed; [by apply active_linked|].
        apply elem_of_app in Ha as [|]; auto. }
    rewrite fmap_app, sumN_app, <-Ht in Hle. lia.
Qed.

Lemma sumN_replicate (f : N → N) n a : sumN (f <$> replicate n a) = N.of_nat n * f a.
Proof. induction n as [|n IH]; [done|]. cbn [replicate]. rewrite fmap_cons. cbn [sumN foldr]. fold (sumN (f <$> replicate n a)). lia. Qed.

(** C35: the signatories need not be different: any active validator, however
    little power it has, can have any checkpoint accepted alone, by giving its own signature as
    many times as it takes to reach the threshold. *)
Theorem one_signer_suffices set majority total v hash sig :
  vs_inv set → getTotalActivePower set = Done total → 51 ≤ majority ≤ 100 → total * majority < u256_size →
  isActiveValidator set v = true → tryRecover hash sig = Some v →
  ∃ n, validateActiveQuorumSignatures set majority (replicate n v) hash (replicate n sig) = Done tt.
Proof.
  intros Hinv Ht Hm Hlt Hact Hsig. pose proof (total_power_eq _ _ Ht) as Htot.
  assert (v ∈ listActiveValidators set) as Hin.
  { apply active_listed; [by apply active_linked|done]. }
  assert (getPower set v ≠ 0) as Hp.
  { apply (vi_members _ Hinv). unfold members. apply elem_of_union_l. unfold contents. apply elem_of_dom.
    unfold isActiveValidator, pq_contains, pos_of in Hact. destruct (addressToPos _ !! v); [done|]. by vm_compute in Hact. }
  assert (getPower set v ≤ total) as Hle.
  { rewrite Htot. pose proof (sumN_sub (getPower set) [v] (listActiveValidators set)) as Hs.
    cbn in Hs. rewrite N.add_0_r in Hs. apply Hs; [apply NoDup_singleton|]. by intros x ->%list_elem_of_singleton. }
  set (p := getPower set v) in *. set (t := total * majority / 100).
  assert (t ≤ total) as Hth by (unfold t; apply N.Div0.div_le_upper_bound; nia).
  exists (N.to_nat (t / p + 1)). eapply validate_run; [done|done| | | |..].
  - destruct (N.to_nat (t / p + 1)) eqn:He; [lia|done].
  - by apply Forall_replicate.
  - by apply Forall2_replicate.
  - rewrite sumN_replicate, N2Nat.id. fold p. fold t. pose proof (N.div_mod t p Hp). pose proof (N.mod_lt t p Hp). nia.
  - rewrite sumN_replicate, N2Nat.id. fold p. pose proof (N.Div0.mul_div_le t p). nia.
Qed.
End quorums.

(** ** Heights *)

(** The actor's parameters do not change. *)
Definition same_params (w w' : World) : Prop := params (actor w') = params (actor w).
#[export] Instance same_params_po : PreOrder same_params.
Proof. split; [by intros w|]. unfold same_params. intros w1 w2 w3 -> ->. done. Qed.

Lemma keeps_zoom {S T E A} (R : T → T → Prop) (get : T → S) (put : S → T → T) (tx : stm S E A) :
  (∀ t s, R t (put s t)) → keeps R (zoom get put tx).
Proof.
  intros Hput t a t' Hr. unfold zoom in Hr. destruct (tx (get t)) as [[b s]| | | |]; try done.
  injection Hr as _ <-. apply Hput.
Qed.

Section heights.
Context `{SubmitEnv, ActorEnv, CheckpointGateway, !CheckpointGatewayLaws}.

Lemma params_vset {A} (tx : stm ValidatorSet string A) : keeps same_params (on_vset tx).
Proof. by apply keeps_zoom. Qed.
Lemma params_changes {A} (tx : stm StakingChangeLog string A) : keeps same_params (on_changes tx).
Proof. by apply keeps_zoom. Qed.
Lemma params_queue {A} (tx : stm StakingReleaseQueue string A) : keeps same_params (on_queue tx).
Proof. by apply keeps_zoom. Qed.
Lemma params_registered (f : World → option SubnetActor.Subnet) : keeps (E:=string) same_params (modify (λ w, set_registered (f w) w)).
Proof. by apply keeps_modify. Qed.
Lemma params_pay a b n : keeps same_params (SubnetActor.pay a b n).
Proof. unfold SubnetActor.pay. solve_keeps. by apply keeps_modify. Qed.
Hint Resolve params_vset params_changes params_queue params_pay : keeps.

Lemma params_confirm_one c : keeps same_params (confirm_one c).
Proof.
  unfold confirm_one. destruct (change_op c); unfold gw_releaseStake, gw_addStake; solve_keeps; by apply keeps_modify.
Qed.
Hint Resolve params_confirm_one : keeps.

Lemma params_confirm_changes n i : keeps same_params (confirm_changes n i).
Proof. revert i. induction n as [|n IH]; intros i; cbn [confirm_changes]; solve_keeps. Qed.
Hint Resolve params_confirm_changes : keeps.

Lemma params_confirm n : keeps same_params (confirmChange n).
Proof. unfold confirmChange. solve_keeps. Qed.

Definition period (s : Submissions) : N := bottomUpCheckPeriod (params (actor (sm_world s))).

(** A submission that is accepted; between submissions, anything else happens to the actor. *)
Inductive submit_step (s : Submissions) : Submissions → Prop :=
| ss_submit c signatories signatures x s' :
    submitCheckpoint c signatories signatures s = Done (x, s') → submit_step s s'
| ss_other w :
    same_params (sm_world s) w →
    submit_step s (MkSubmissions w (lastBottomUpCheckpointHeight s) (committedCheckpoints s)).

Lemma on_world_inv {A} (tx : stm World string A) s a s' :
  on_world tx s = Done (a, s') →
  ∃ w, tx (sm_world s) = Done (a, w) ∧ s' = MkSubmissions w (lastBottomUpCheckpointHeight s) (committedCheckpoints s).
Proof.
  unfold on_world, zoom. destruct (tx _) as [[b w]| | | |]; try done. intros [= <- <-]. by exists w.
Qed.

Lemma submit_inv c signatories signatures s x s' :
  submitCheckpoint c signatories signatures s = Done (x, s') →
  ensureValidCheckpoint (params (actor (sm_world s))) (lastBottomUpCheckpointHeight s) c = Done tt ∧
  validateActiveQuorumSignatures (validatorSet (actor (sm_world s))) (majorityPercentage (params (actor (sm_world s))))
    signatories (checkpoint_hash c) signatures = Done tt ∧
  period s' = period s ∧ lastBottomUpCheckpointHeight s' = cp_blockHeight c ∧
  committedCheckpoints s' = <[cp_blockHeight c := c]> (committedCheckpoints s).
Proof.
  unfold submitCheckpoint. intros Hr.
  apply stm_bind_Done in Hr as ([] & s1 & (w1 & Hp & ->)%on_world_inv & Hr).
  assert (w1 = sm_world s) as ->. { unfold whenNotPaused in Hp. inv_done. by destruct (paused _); inv_done. }
  destruct s as [w last m]. cbn [sm_world lastBottomUpCheckpointHeight committedCheckpoints] in *. inv_done.
  repeat match goal with G : on_world _ _ = _ |- _ => apply on_world_inv in G as (? & ? & ->) end. cbn in *.
  repeat match goal with u : () |- _ => destruct u end. split_and!; try done.
  unfold period. cbn.
  match goal with G : gw_commitCheckpoint _ _ = _, K : confirmChange _ _ = _ |- _ =>
    apply gw_keeps_actor in G; apply params_confirm in K; unfold same_actor, same_params in *; by rewrite K, G end.
Qed.

(** The next height is the first multiple of the period above the last one, or below it. *)
(** A submission of the next checkpoint comes down to the check of its signatures, when the gateway takes it and
    its changes can be confirmed. *)
Lemma submit_next c signatories signatures s w :
  let a := actor (sm_world s) in
  paused a = false → N.of_nat (length (cp_msgs c)) ≤ maxMsgsPerBottomUpBatch (params a) →
  lastBottomUpCheckpointHeight s < cp_blockHeight c →
  getNextEpoch (lastBottomUpCheckpointHeight s) (bottomUpCheckPeriod (params a)) = Done (cp_blockHeight c) →
  (gw_commitCheckpoint c ;; confirmChange (cp_nextConfigurationNumber c)) (sm_world s) = Done (tt, w) →
  submitCheckpoint c signatories signatures s =
    _ ← validateActiveQuorumSignatures (validatorSet a) (majorityPercentage (params a)) signatories (checkpoint_hash c) signatures;
    Done (tt, MkSubmissions w (cp_blockHeight c) (<[cp_blockHeight c := c]> (committedCheckpoints s))).
Proof.
  intros a Hp Hm Hlast He Hw. unfold submitCheckpoint, a in *.
  erewrite bind_run by (unfold on_world, zoom, whenNotPaused, mbind, stm_bind, reads; by rewrite Hp).
  do 2 erewrite bind_run by done. cbn [sm_world lastBottomUpCheckpointHeight committedCheckpoints].
  erewrite bind_run; [|unfold lift, ensureValidCheckpoint; rewrite bool_decide_eq_false_2, bool_decide_eq_false_2 by lia; rewrite He; cbn [mbind outcome_bind];
    rewrite bool_decide_eq_false_2 by lia; by rewrite bool_decide_eq_true_2].
  erewrite bind_run by done. cbn [sm_world]. apply stm_bind_Done in Hw as ([] & w1 & Hg & Hc).
  unfold lift at 1, mbind at 1, stm_bind at 1. destruct (validateActiveQuorumSignatures _ _ _ _ _) as [[]| | | |]; try done. cbn [mbind outcome_bind].
  erewrite bind_run by done. cbn [sm_world lastBottomUpCheckpointHeight committedCheckpoints].
  erewrite bind_run by (unfold on_world, zoom; cbn [sm_world]; by rewrite Hg). unfold on_world, zoom. cbn [sm_world]. by rewrite Hc.
Qed.

Lemma next_epoch_inv last p e : getNextEpoch last p = Done e → p ≠ 0 ∧ e = (last `mod` u64_size / p + 1) * p.
Proof.
  unfold getNextEpoch, u256_div. case_bool_decide as Hp; intros Hr; inv_done. split; [done|].
  match goal with G : u256_add _ _ = _ |- _ => apply u256_add_inv in G as [-> _] end.
  match goal with G : u256_mul _ _ = _ |- _ => apply checked_inv in G as [Hz _] end. lia.
Qed.

Lemma no_multiple_between last p e k : getNextEpoch last p = Done e → last < k * p ≤ e → k * p = e.
Proof.
  intros [Hp ->]%next_epoch_inv Hk. pose proof (N.Div0.mod_le last u64_size) as Hm.
  set (l := last `mod` u64_size) in *. f_equal.
  assert (l / p < k) by (apply N.Div0.div_lt_upper_bound; lia).
  assert (k ≤ l / p + 1); [|lia]. apply (N.mul_le_mono_pos_r _ _ p); lia.
Qed.

Lemma ensure_inv p last c x : ensureValidCheckpoint p last c = Done x →
  ∃ e, getNextEpoch last (bottomUpCheckPeriod p) = Done e ∧ last < cp_blockHeight c ≤ e ∧
    N.of_nat (length (cp_msgs c)) ≤ maxMsgsPerBottomUpBatch p ∧
    (cp_blockHeight c = e ∨ N.of_nat (length (cp_msgs c)) = maxMsgsPerBottomUpBatch p).
Proof.
  unfold ensureValidCheckpoint. intros Hr. case_bool_decide; inv_done. case_bool_decide; inv_done.
  eexists. split; [done|]. case_bool_decide; [done|]. case_bool_decide; [split_and!; (lia || by left)|].
  case_bool_decide; [split_and!; (lia || by right)|done].
Qed.

Record heights_ok (s : Submissions) : Prop := {
  every_epoch k : 0 < k * period s ≤ lastBottomUpCheckpointHeight s → is_Some (committedCheckpoints s !! (k * period s));
  own_height h c : committedCheckpoints s !! h = Some c → cp_blockHeight c = h ∧ h ≤ lastBottomUpCheckpointHeight s
}.

Lemma submit_heights s s' : submit_step s s' → heights_ok s →
  heights_ok s' ∧ period s' = period s ∧ lastBottomUpCheckpointHeight s ≤ lastBottomUpCheckpointHeight s' ∧
  committedCheckpoints s ⊆ committedCheckpoints s'.
Proof.
  intros [c l sigs x s1 Hr|w Hw] [Hev Hown].
  - apply submit_inv in Hr as ((e & He & Hc & _)%ensure_inv & _ & Hp & Hlast & Hcom).
    split_and!; [|done|lia|].
    + split.
      * intros k. rewrite Hp, Hlast, Hcom. intros Hk.
        destruct (decide (k * period s ≤ lastBottomUpCheckpointHeight s)) as [Hle|Hgt].
        { rewrite lookup_insert_is_Some'. right. apply Hev. lia. }
        apply lookup_insert_is_Some'. left. assert (k * period s = e) by (eapply (no_multiple_between (lastBottomUpCheckpointHeight s)); [exact He|lia]). lia.
      * intros h c'. rewrite Hlast, Hcom, lookup_insert_Some. intros [[<- <-]|[_ Hl]]; [split; [done|lia]|].
        destruct (Hown _ _ Hl). split; [done|lia].
    + rewrite Hcom. apply insert_subseteq. destruct (_ !! _) as [c'|] eqn:Hl; [|done]. apply Hown in Hl. lia.
  - split_and!; [|by unfold period; cbn; rewrite Hw|done|done]. split; cbn.
    + unfold period. cbn. rewrite Hw. apply Hev.
    + apply Hown.
Qed.

(** C19: whatever checkpoints are submitted, and whatever else happens to the subnet
    actor in between, there is an accepted checkpoint for every multiple of the period up to the
    last accepted height; accepted checkpoints stay, and the last height only grows. *)
Theorem no_epoch_skipped s s' :
  lastBottomUpCheckpointHeight s = 0 → committedCheckpoints s = ∅ → rtc submit_step s s' →
  (∀ k, 0 < k * period s ≤ lastBottomUpCheckpointHeight s' →
    ∃ c, committedCheckpoints s' !! (k * period s) = Some c ∧ cp_blockHeight c = k * period s) ∧
  ∀ s'', submit_step s' s'' → committedCheckpoints s' ⊆ committedCheckpoints s'' ∧
    lastBottomUpCheckpointHeight s' ≤ lastBottomUpCheckpointHeight s''.
Proof.
  intros Hl Hc Hrtc. assert (heights_ok s) as Hok.
  { split; [intros k; rewrite Hl; lia|intros h c; by rewrite Hc]. }
  assert (heights_ok s' ∧ period s' = period s) as [[Hev Hown] Hp].
  { clear Hl Hc. induction Hrtc as [|s1 s2 s3 Hs _ IH]; [done|]. apply submit_heights in Hs as (Hok2 & Hp & _); [|done].
    destruct (IH Hok2) as [Hok3 Hp3]. split; [done|congruence]. }
  split.
  - rewrite <-Hp. intros k Hk. destruct (Hev k Hk) as [c Hk']. exists c. split; [done|]. by apply Hown in Hk' as [? _].
  - intros s'' Hs. apply submit_heights in Hs; [naive_solver|]. by split.
Qed.
End heights.

(** ** Concrete submissions *)

(** Assigning powers one after the other, with the conditions that keep the set in order. *)
Fixpoint assign_all (l : list (N * N)) (set : ValidatorSet) : option ValidatorSet :=
  match l with
  | [] => Some set
  | (v, p) :: l =>
      if bool_decide (permissionMode set = Federated) && bool_decide (pq_size (waitingValidators set) + 1 < 32768) then
        match confirmFederatedPower v p set with
        | Done (_, set) => assign_all l set
        | _ => None
        end
      else None
  end.

Lemma assign_all_inv l set set' : vs_inv set → assign_all l set = Some set' → vs_inv set'.
Proof.
  revert set. induction l as [|[v p] l IH]; intros set Hinv Hr; cbn [assign_all] in Hr; [by injection Hr as <-|].
  destruct (_ && _) eqn:Hc; [|done]. apply andb_true_iff in Hc as [H1%bool_decide_eq_true H2%bool_decide_eq_true].
  destruct (change_applied set (Assigned v p) Hinv) as (set1 & Hrun & Hinv1 & _); [done|].
  cbn [apply_change] in Hrun. rewrite Hrun in Hr. by apply (IH set1).
Qed.

Module SampleSubmission.
(** The hash of a checkpoint is its height, and a signature is the address of its signer. *)
#[export] Instance sample_submit : SubmitEnv := {|
  checkpoint_hash := cp_blockHeight;
  tryRecover := λ _ sig, match sig with b :: _ => Some (Byte.to_N b) | [] => None end
|}.

(** Four validators of the power 1 each. *)
Definition federation : ValidatorSet :=
  default no_validators (assign_all [(1, 1); (2, 1); (3, 1); (4, 1)] (MkSet Federated 10 0 ∅ pq_empty pq_empty)).

Lemma federation_inv : vs_inv federation.
Proof.
  unfold federation. destruct (assign_all _ _) as [set|] eqn:Hs; [|by vm_compute in Hs].
  eapply assign_all_inv; [|exact Hs]. by apply init_inv.
Qed.

(** The threshold is rounded down: of four validators with the same power,
    two are enough for a majority of 67 percent, so that two checkpoints can both be accepted that
    no validator has signed both of. *)
Lemma floor_quorums_disjoint :
  getTotalActivePower federation = Done 4 ∧
  validateActiveQuorumSignatures federation 67 [1; 2] 10 [[x01]; [x02]] = Done tt ∧
  validateActiveQuorumSignatures federation 67 [3; 4] 11 [[x03]; [x04]] = Done tt.
Proof. split_and!; by vm_compute. Qed.

Lemma checkpoint_quorums_meet_witness :
  ∃ a, isActiveValidator federation a = true ∧
    tryRecover 10 [Byte.x01] = Some 1 ∧ a ∈ [1; 2; 3] ∧ a ∈ [2; 3; 4].
Proof.
  destruct (checkpoint_quorums_meet federation 80 4 [1; 2; 3] [2; 3; 4] 10 11 [[x01]; [x02]; [x03]] [[x02]; [x03]; [x04]]
    federation_inv) as (a & sig1 & sig2 & Ha & Hin1 & Hr1 & Hin2 & Hr2); 
    [by vm_compute|by vm_compute|by apply (bool_decide_unpack _)|by apply (bool_decide_unpack _)|by vm_compute|by vm_compute|].
  exists a. split_and!; [done|done|..].
  - rewrite !elem_of_cons in Hin1. destruct Hin1 as [->|[->|[->|[]%not_elem_of_nil]]]; injection Hr1 as <-; set_solver.
  - rewrite !elem_of_cons in Hin2. destruct Hin2 as [->|[->|[->|[]%not_elem_of_nil]]]; injection Hr2 as <-; set_solver.
Defined.

Lemma one_signer_suffices_witness :
  ∃ n, validateActiveQuorumSignatures federation 67 (replicate n 1) 10 (replicate n [x01]) = Done tt.
Proof.
  apply (one_signer_suffices federation 67 4 1 10 [x01] federation_inv); by vm_compute.
Defined.

#[export] Instance sample_actor : ActorEnv := {|
  this_actor := 50;
  ipcGatewayAddr := 51;
  contractOwner := 52;
  accepts := λ _ _, true;
  keccak256 := λ _, 0;
  networkDepth := 0;
  SubnetActor.maxTreeDepth := 2
|}.
(** A gateway for checkpoints without messages. *)
#[export] Instance sample_commit : CheckpointGateway := λ _, mret tt.
#[export] Instance sample_commit_laws : CheckpointGatewayLaws.
Proof. intros c w x w' [= _ <-]. done. Qed.

Definition federated_world : World :=
  MkWorld (MkActor (MkParams 0 10 10 67 1) true false false (MkGenesis 0 [] ∅ []) federation
    (MkLog 1 1 ∅) (MkQueue 0 ∅) ∅ ∅) None ∅ 0.
Definition before_submission : Submissions := MkSubmissions federated_world 0 ∅.
Definition checkpoint_at (h : N) : BottomUpCheckpoint := MkCheckpoint (MkID 314 [50]) h [] 0 [].
Definition after_submission : Submissions :=
  match submitCheckpoint (checkpoint_at 10) [1; 2; 3] [[x01]; [x02]; [x03]] before_submission with
  | Done (_, s) => s
  | _ => before_submission
  end.

Lemma submission_step : submit_step before_submission after_submission.
Proof.
  apply (ss_submit _ (checkpoint_at 10) [1; 2; 3] [[x01]; [x02]; [x03]] tt). by vm_compute.
Qed.

Lemma no_epoch_skipped_witness :
  lastBottomUpCheckpointHeight after_submission = 10 ∧
  ∃ c, committedCheckpoints after_submission !! 10 = Some c ∧ cp_blockHeight c = 10.
Proof.
  split; [by vm_compute|].
  apply (proj1 (no_epoch_skipped before_submission after_submission eq_refl eq_refl (rtc_once _ _ submission_step)) 1).
  by vm_compute.
Defined.
End SampleSubmission.
