(* ===== verification/Quorum.v ===== *)
(** * Collecting the signatures of a checkpoint

    [LibQuorum] and the functions of [CheckpointingFacet] that call it: in the gateway of the
    child, a checkpoint is created with the root of the validators' Merkle tree and the weight
    that it needs, validators add their signatures, and old checkpoints are pruned.  What has been
    collected when the quorum is reached is what a relayer submits to the parent, where it is
    accepted.  Keccak, the recovery of a signer and the check of a Merkle proof are library code,
    and parameters. *)

From Stdlib Require Import Strings.Byte.
From S2P Require Import Prelude Weights PQ ValidatorSet SolIds Messages Submission.

Class QuorumEnv := {
  quorum_submit :: SubmitEnv;
  (** The leaf of a validator and its weight, and whether a proof leads from a leaf to a root. *)
  validatorLeaf : Address → N → N;
  merkle_verify : list N → N → N → bool;
  quorum_system_actor : Address
}.

Record QuorumInfo := MkInfo {
  hash : N;
  rootHash : N;
  threshold : N;
  currentWeight : N;
  reached : bool
}.
Definition no_info : QuorumInfo := MkInfo 0 0 0 0 false.

Record QuorumMap := MkQuorumMap {
  retentionHeight : N;
  quorumInfo : gmap N QuorumInfo;
  incompleteQuorums : gset N;
  quorumSignatureSenders : gmap N (gset N);
  quorumSignatures : gmap N (gmap N (list byte))
}.

(** The part of the gateway's storage that checkpoints are kept in. *)
Record CheckpointStore := MkStore {
  checkpointQuorumMap : QuorumMap;
  bottomUpCheckpoints : gmap N BottomUpCheckpoint;
  store_batches : gmap N BottomUpMsgBatch;
  store_majority : N
}.

Definition info_at (q : QuorumMap) (h : N) : QuorumInfo := default no_info (quorumInfo q !! h).
Definition senders_at (q : QuorumMap) (h : N) : gset N := default ∅ (quorumSignatureSenders q !! h).
Definition signatures_at (q : QuorumMap) (h : N) : gmap N (list byte) := default ∅ (quorumSignatures q !! h).

Definition set_info (h : N) (i : QuorumInfo) (q : QuorumMap) : QuorumMap :=
  MkQuorumMap (retentionHeight q) (<[h := i]> (quorumInfo q)) (incompleteQuorums q) (quorumSignatureSenders q) (quorumSignatures q).
Definition set_incomplete (s : gset N) (q : QuorumMap) : QuorumMap :=
  MkQuorumMap (retentionHeight q) (quorumInfo q) s (quorumSignatureSenders q) (quorumSignatures q).
Definition set_signature (h : N) (a : Address) (sig : list byte) (q : QuorumMap) : QuorumMap :=
  MkQuorumMap (retentionHeight q) (quorumInfo q) (incompleteQuorums q)
    (<[h := {[a]} ∪ senders_at q h]> (quorumSignatureSenders q))
    (<[h := <[a := sig]> (signatures_at q h)]> (quorumSignatures q)).
Definition set_retention (n : N) (q : QuorumMap) : QuorumMap :=
  MkQuorumMap n (quorumInfo q) (incompleteQuorums q) (quorumSignatureSenders q) (quorumSignatures q).

Definition on_quorums {A} (tx : stm QuorumMap string A) : stm CheckpointStore string A :=
  zoom checkpointQuorumMap (λ q s, MkStore q (bottomUpCheckpoints s) (store_batches s) (store_majority s)) tx.

Section quorum.
Context `{QuorumEnv}.

(** ** [LibQuorum] *)

Definition weightNeeded (weight majorityPercentage : N) : outcome string N :=
  product ← u256_mul weight majorityPercentage;
  u256_div product 100.

Definition isHeightAlreadyProcessed (height : N) : stm QuorumMap string unit :=
  r ← reads retentionHeight;
  if bool_decide (height < r) then abort "QuorumAlreadyProcessed"%string else mret tt.

Definition addQuorumSignature (height : N) (membershipProof : list N) (weight : N) (signature : list byte) :
    stm QuorumMap string unit :=
  info ← reads (λ q, info_at q height);
  match tryRecover (hash info) signature with
  | None => abort "InvalidSignature"%string
  | Some recoveredSignatory =>
      sent ← reads (λ q, bool_decide (recoveredSignatory ∈ senders_at q height));
      if (sent : bool) then abort "SignatureReplay"%string
      else if negb (merkle_verify membershipProof (rootHash info) (validatorLeaf recoveredSignatory weight))
      then abort "NotAuthorized"%string
      else
        modify (set_signature height recoveredSignatory signature) ;;
        total ← lift (u256_add (currentWeight info) weight);
        if bool_decide (threshold info ≤ total) then
          modify (set_info height (MkInfo (hash info) (rootHash info) (threshold info) total true)) ;;
          if reached info then mret tt
          else
            incomplete ← reads incompleteQuorums;
            if bool_decide (height ∈ incomplete) then modify (set_incomplete (incomplete ∖ {[height]}))
            else abort "FailedRemoveIncompleteQuorum"%string
        else
          modify (set_info height (MkInfo (hash info) (rootHash info) (threshold info) total (reached info)))
  end.

Definition createQuorumInfo (objHeight objHash membershipRootHash membershipWeight majorityPercentage : N) :
    stm QuorumMap string unit :=
  r ← reads retentionHeight;
  if bool_decide (objHeight < r) then abort "QuorumAlreadyProcessed"%string
  else if bool_decide (membershipWeight = 0) then abort "ZeroMembershipWeight"%string
  else
    needed ← lift (weightNeeded membershipWeight majorityPercentage);
    incomplete ← reads incompleteQuorums;
    if bool_decide (objHeight ∈ incomplete) then abort "FailedAddIncompleteQuorum"%string
    else
      modify (set_incomplete ({[objHeight]} ∪ incomplete)) ;;
      modify (set_info objHeight (MkInfo objHash membershipRootHash needed 0 false)).

(** The signatures of a height, the record of who has signed, and the information go. *)
Definition prune_height (h : N) (q : QuorumMap) : QuorumMap :=
  MkQuorumMap (retentionHeight q) (delete h (quorumInfo q)) (incompleteQuorums q) (delete h (quorumSignatureSenders q))
    (<[h := filter (λ '(a, _), a ∉ senders_at q h) (signatures_at q h)]> (quorumSignatures q)).

Fixpoint prune_loop (n : nat) (h : N) : stm QuorumMap string unit :=
  match n with
  | O => mret tt
  | S n => modify (prune_height h) ;; prune_loop n (h + 1)
  end.

Definition pruneQuorums (newRetentionHeight : N) : stm QuorumMap string unit :=
  old ← reads retentionHeight;
  if bool_decide (newRetentionHeight ≤ old) then abort "InvalidRetentionHeight"%string
  else
    prune_loop (N.to_nat (newRetentionHeight - old)) old ;;
    modify (set_retention newRetentionHeight).

Definition getSignatureBundle (h : N) (q : QuorumMap) : QuorumInfo * list N * list (list byte) :=
  let signatories := elements (senders_at q h) in
  (info_at q h, signatories, (λ a, default [] (signatures_at q h !! a)) <$> signatories).

(** ** [CheckpointingFacet] *)

Definition no_checkpoint : BottomUpCheckpoint := MkCheckpoint no_id 0 [] 0 [].

(** The messages are pushed after those that are already there. *)
Definition storeBottomUpCheckpoint (c : BottomUpCheckpoint) : stm CheckpointStore string unit :=
  modify (λ s,
    let old := default no_checkpoint (bottomUpCheckpoints s !! cp_blockHeight c) in
    let b := MkCheckpoint (cp_subnetID c) (cp_blockHeight c) (cp_blockHash c) (cp_nextConfigurationNumber c)
               (cp_msgs old ++ cp_msgs c) in
    MkStore (checkpointQuorumMap s) (<[cp_blockHeight c := b]> (bottomUpCheckpoints s)) (store_batches s) (store_majority s)).

Definition bottomUpCheckpointExists (s : CheckpointStore) (epoch : N) : bool :=
  negb (bool_decide (cp_blockHeight (default no_checkpoint (bottomUpCheckpoints s !! epoch)) = 0)).

Definition createBottomUpCheckpoint (sender : Address) (c : BottomUpCheckpoint) (membershipRootHash membershipWeight : N) :
    stm CheckpointStore string unit :=
  if negb (bool_decide (sender = quorum_system_actor)) then abort "NotSystemActor"%string
  else
    e ← reads (λ s, bottomUpCheckpointExists s (cp_blockHeight c));
    if (e : bool) then abort "CheckpointAlreadyExists"%string
    else
      majority ← reads store_majority;
      on_quorums (createQuorumInfo (cp_blockHeight c) (checkpoint_hash c) membershipRootHash membershipWeight majority) ;;
      storeBottomUpCheckpoint c.

Fixpoint delete_range {A} (n : nat) (h : N) (m : gmap N A) : gmap N A :=
  match n with
  | O => m
  | S n => delete_range n (h + 1) (delete h m)
  end.

Definition pruneBottomUpCheckpoints (sender newRetentionHeight : N) : stm CheckpointStore string unit :=
  if negb (bool_decide (sender = quorum_system_actor)) then abort "NotSystemActor"%string
  else
    old ← reads (λ s, retentionHeight (checkpointQuorumMap s));
    let n := N.to_nat (newRetentionHeight - old) in
    modify (λ s, MkStore (checkpointQuorumMap s) (delete_range n old (bottomUpCheckpoints s))
                   (delete_range n old (store_batches s)) (store_majority s)) ;;
    on_quorums (pruneQuorums newRetentionHeight).

Definition addCheckpointSignature (height : N) (membershipProof : list N) (weight : N) (signature : list byte) :
    stm CheckpointStore string unit :=
  on_quorums (isHeightAlreadyProcessed height) ;;
  e ← reads (λ s, bottomUpCheckpointExists s height);
  if negb e then abort "CheckpointNotCreated"%string
  else on_quorums (addQuorumSignature height membershipProof weight signature).
End quorum.

(** ** What is collected *)

Section collected.
Context `{QuorumEnv}.

(** The signatures of a height are those of different validators with proven weights, which add
    up to the current weight. *)
Definition height_ok (q : QuorumMap) (h : N) : Prop :=
  let i := info_at q h in
  ∃ l : list (N * N), NoDup l.*1 ∧ senders_at q h = list_to_set l.*1 ∧ currentWeight i = sumN l.*2 ∧
    Forall (λ x, (∃ proof, merkle_verify proof (rootHash i) (validatorLeaf x.1 x.2) = true) ∧
                 ∃ sig, signatures_at q h !! x.1 = Some sig ∧ tryRecover (hash i) sig = Some x.1) l ∧
    (reached i = true → l ≠ [] ∧ threshold i ≤ currentWeight i).

Definition store_ok (s : CheckpointStore) : Prop :=
  let q := checkpointQuorumMap s in
  1 ≤ retentionHeight q ∧
  ∀ h, retentionHeight q ≤ h → height_ok q h ∧ (senders_at q h ≠ ∅ → bottomUpCheckpointExists s h = true).

Lemma height_ok_ext q q' h :
  quorumInfo q' !! h = quorumInfo q !! h → quorumSignatureSenders q' !! h = quorumSignatureSenders q !! h →
  quorumSignatures q' !! h = quorumSignatures q !! h → height_ok q h → height_ok q' h.
Proof. intros H1 H2 H3. unfold height_ok, info_at, senders_at, signatures_at. by rewrite H1, H2, H3. Qed.

Lemma create_quorum_run h hs root w majority q x q' :
  createQuorumInfo h hs root w majority q = Done (x, q') →
  ∃ needed inc, weightNeeded w majority = Done needed ∧ retentionHeight q ≤ h ∧
    q' = set_info h (MkInfo hs root needed 0 false) (set_incomplete inc q).
Proof.
  unfold createQuorumInfo. intros Hr. inv_done. case_bool_decide; inv_done. case_bool_decide; inv_done.
  case_bool_decide; inv_done. eexists _, _. split_and!; [done|lia|done].
Qed.

Lemma height_ok_create h hs root needed inc q :
  senders_at q h = ∅ → height_ok (set_info h (MkInfo hs root needed 0 false) (set_incomplete inc q)) h.
Proof.
  intros Hs. exists []. unfold info_at. cbn. rewrite lookup_insert_eq. cbn.
  split_and!; [constructor|exact Hs|done|constructor|done].
Qed.

Lemma add_signature_run h proof w sig q x q' :
  let i := info_at q h in
  addQuorumSignature h proof w sig q = Done (x, q') →
  ∃ a r inc, tryRecover (hash i) sig = Some a ∧ (a ∉ senders_at q h) ∧
    merkle_verify proof (rootHash i) (validatorLeaf a w) = true ∧
    (r = true → (reached i = true ∨ threshold i ≤ currentWeight i + w)) ∧
    q' = set_incomplete inc (set_info h (MkInfo (hash i) (rootHash i) (threshold i) (currentWeight i + w) r)
           (set_signature h a sig q)).
Proof.
  intros i Hr. unfold addQuorumSignature in Hr. inv_done. destruct (tryRecover _ _) as [a|] eqn:Ha; inv_done.
  case_bool_decide as Hin; inv_done. destruct (merkle_verify _ _ _) eqn:Hm; cbn in *; inv_done.
  match goal with G : u256_add _ _ = _ |- _ => apply u256_add_inv in G as [-> _] end.
  case_bool_decide as Hth; inv_done.
  - destruct (reached _) eqn:Hreach; inv_done.
    + eexists a, true, _. split_and!; [done|done|done|by left|]. unfold set_incomplete. cbn. done.
    + case_bool_decide; inv_done. eexists a, true, _. split_and!; [done|done|done|by right|done].
  - eexists a, _, _. split_and!; [done|done|done|by left|]. unfold set_incomplete. cbn. done.
Qed.

Lemma height_ok_add h proof w sig q a r inc :
  let i := info_at q h in
  tryRecover (hash i) sig = Some a → a ∉ senders_at q h →
  merkle_verify proof (rootHash i) (validatorLeaf a w) = true →
  (r = true → (reached i = true ∨ threshold i ≤ currentWeight i + w)) →
  height_ok q h →
  height_ok (set_incomplete inc (set_info h (MkInfo (hash i) (rootHash i) (threshold i) (currentWeight i + w) r)
    (set_signature h a sig q))) h.
Proof.
  intros i Hr Ha Hm Hreach (l & Hnd & Hs & Hw & Hall & Hth). fold i in Hw, Hall, Hth.
  exists ((a, w) :: l). unfold info_at, senders_at, signatures_at. cbn. rewrite !lookup_insert_eq. cbn.
  assert (∀ b, b ∈ l.*1 → b ≠ a) as Hne. { intros b Hb ->. apply Ha. rewrite Hs. by apply elem_of_list_to_set. }
  split_and!.
  - constructor; [|done]. intros Hin. by apply (Hne a).
  - fold (senders_at q h). by rewrite Hs.
  - by rewrite Hw, N.add_comm.
  - constructor; cbn.
    + split; [by exists proof|]. exists sig. split; [by rewrite lookup_insert_eq|done].
    + eapply Forall_impl; [apply Forall_and; split; [apply Forall_forall; intros x Hx; exact Hx|exact Hall]|].
      intros x (Hx & Hproof & sig' & Hsig & Hrec). split; [done|]. exists sig'. split; [|done].
      rewrite lookup_insert_ne; [exact Hsig|]. symmetry. apply Hne. by apply list_elem_of_fmap_2.
  - intros Hr'. split; [done|]. destruct (Hreach Hr') as [[_ ?]%Hth|]; [lia|done].
Qed.

Lemma prune_loop_above n h q x q' k :
  prune_loop n h q = Done (x, q') → h + N.of_nat n ≤ k →
  quorumInfo q' !! k = quorumInfo q !! k ∧ quorumSignatureSenders q' !! k = quorumSignatureSenders q !! k ∧
  quorumSignatures q' !! k = quorumSignatures q !! k.
Proof.
  revert h q. induction n as [|n IH]; intros h q Hr Hk; cbn [prune_loop] in Hr; inv_done; [done|].
  match goal with G : prune_loop _ _ _ = _ |- _ => apply IH in G as (-> & -> & ->); [|lia] end.
  cbn. rewrite !lookup_delete_ne, lookup_insert_ne by lia. done.
Qed.

Lemma delete_range_above {A} n h (m : gmap N A) k : h + N.of_nat n ≤ k → delete_range n h m !! k = m !! k.
Proof.
  revert h m. induction n as [|n IH]; intros h m Hk; cbn [delete_range]; [done|].
  rewrite IH by lia. by rewrite lookup_delete_ne by lia.
Qed.

Lemma on_quorums_inv {A} (tx : stm QuorumMap string A) s a s' :
  on_quorums tx s = Done (a, s') →
  ∃ q, tx (checkpointQuorumMap s) = Done (a, q) ∧ s' = MkStore q (bottomUpCheckpoints s) (store_batches s) (store_majority s).
Proof.
  unfold on_quorums, zoom. destruct (tx _) as [[b q]| | | |]; try done. intros [= <- <-]. by exists q.
Qed.

Lemma create_ok sender c root w s x s' :
  createBottomUpCheckpoint sender c root w s = Done (x, s') → store_ok s → store_ok s'.
Proof.
  unfold createBottomUpCheckpoint, storeBottomUpCheckpoint. intros Hr (Hret & Hok). destruct (negb _); inv_done.
  destruct (bottomUpCheckpointExists _ _) eqn:He; inv_done.
  match goal with G : on_quorums _ _ = _ |- _ =>
    apply on_quorums_inv in G as (q & (needed & inc & _ & Hle & ->)%create_quorum_run & ->) end.
  split; [done|]. cbn. intros h Hh. destruct (Hok h Hh) as [Hh1 Hh2].
  destruct (decide (h = cp_blockHeight c)) as [->|Hne].
  - split.
    + apply height_ok_create, dec_stable. intros Hnon. apply Hh2 in Hnon. congruence.
    + intros _. unfold bottomUpCheckpointExists. cbn. rewrite lookup_insert_eq. cbn. apply negb_true_iff, bool_decide_eq_false. lia.
  - split.
    + eapply height_ok_ext; [..|exact Hh1]; cbn; [by apply lookup_insert_ne|done|done].
    + intros Hs. unfold bottomUpCheckpointExists. cbn. rewrite lookup_insert_ne by done. by apply Hh2.
Qed.

Lemma prune_ok sender n s x s' : pruneBottomUpCheckpoints sender n s = Done (x, s') → store_ok s → store_ok s'.
Proof.
  unfold pruneBottomUpCheckpoints, pruneQuorums. intros Hr (Hret & Hok). destruct (negb _); inv_done.
  match goal with G : on_quorums _ _ = _ |- _ => apply on_quorums_inv in G as (q & Hq & ->) end. cbn in Hq.
  inv_done. case_bool_decide; inv_done.
  match goal with G : prune_loop _ _ _ = _ |- _ => pose proof (λ k, prune_loop_above _ _ _ _ _ k G) as Habove end.
  split; cbn; [lia|]. intros h Hh. destruct (Hok h ltac:(lia)) as [Hh1 Hh2].
  destruct (Habove h ltac:(lia)) as (Hi & Hs & Hsig). split.
  - eapply height_ok_ext; [exact Hi|exact Hs|exact Hsig|exact Hh1].
  - unfold senders_at. cbn. rewrite Hs. intros Hne. unfold bottomUpCheckpointExists. cbn.
    rewrite delete_range_above by lia. by apply Hh2.
Qed.

Lemma sign_ok h proof w sig s x s' : addCheckpointSignature h proof w sig s = Done (x, s') → store_ok s → store_ok s'.
Proof.
  unfold addCheckpointSignature. intros Hr (Hret & Hok). inv_done.
  match goal with G : on_quorums (isHeightAlreadyProcessed _) _ = _ |- _ => apply on_quorums_inv in G as (q & Hq & ->) end.
  unfold isHeightAlreadyProcessed in Hq. inv_done. case_bool_decide as Hh; inv_done.
  destruct (bottomUpCheckpointExists _ _) eqn:He; cbn in *; inv_done.
  match goal with G : on_quorums _ _ = _ |- _ =>
    apply on_quorums_inv in G as (q' & (a & r & inc & Hrec & Hnin & Hm & Hreach & ->)%add_signature_run & ->) end.
  cbn in *. split; [done|]. cbn. intros k Hk. destruct (Hok k Hk) as [Hk1 Hk2].
  destruct (decide (k = h)) as [->|Hne].
  - split; [by eapply height_ok_add|done].
  - split.
    + eapply height_ok_ext; [..|exact Hk1]; cbn; by rewrite lookup_insert_ne.
    + unfold senders_at. cbn. by rewrite lookup_insert_ne.
Qed.

(** What is given out for a height are signatures of the signatories. *)
Lemma collected_signed s h :
  store_ok s → retentionHeight (checkpointQuorumMap s) ≤ h →
  let '(info, signatories, signatures) := getSignatureBundle h (checkpointQuorumMap s) in
  signed_by (hash info) signatories signatures.
Proof.
  intros (_ & Hok) Hh. unfold getSignatureBundle. destruct (Hok h Hh) as [(l & Hnd & Hs & _ & Hall & _) _].
  set (q := checkpointQuorumMap s) in *.
  assert (elements (senders_at q h) ≡ₚ l.*1) as Hperm by (rewrite Hs; by apply elements_list_to_set).
  unfold signed_by. apply Forall2_fmap_r, Forall_Forall2_diag, Forall_forall. intros a Ha.
  rewrite Hperm in Ha. apply list_elem_of_fmap in Ha as (x & -> & Hx). rewrite Forall_forall in Hall.
  destruct (Hall x Hx) as [_ (sig & Hsig & Hrec)]. cbn. by rewrite Hsig.
Qed.

Lemma sumN_scale k l : sumN (N.mul k <$> l) = k * sumN l.
Proof. induction l as [|x l IH]; [cbn; lia|]. change (k * x + sumN (N.mul k <$> l) = k * (x + sumN l)). lia. Qed.

(** What happens to the checkpoints of the child, in any order. *)
Inductive checkpoint_step (s : CheckpointStore) : CheckpointStore → Prop :=
| cs_create sender c root w x s' : createBottomUpCheckpoint sender c root w s = Done (x, s') → checkpoint_step s s'
| cs_sign h proof w sig x s' : addCheckpointSignature h proof w sig s = Done (x, s') → checkpoint_step s s'
| cs_prune sender n x s' : pruneBottomUpCheckpoints sender n s = Done (x, s') → checkpoint_step s s'.

Definition empty_store (majority : N) : CheckpointStore := MkStore (MkQuorumMap 1 ∅ ∅ ∅ ∅) ∅ ∅ majority.

Lemma empty_store_ok majority : store_ok (empty_store majority).
Proof.
  split; [done|]. intros h _. split; [|done]. exists []. by split_and!; [constructor|..|constructor|].
Qed.

Lemma steps_ok s s' : rtc checkpoint_step s s' → store_ok s → store_ok s'.
Proof.
  induction 1 as [|s1 s2 s3 Hstep _ IH]; [done|]. intros Hok. apply IH.
  destruct Hstep; [by eapply create_ok|by eapply sign_ok|by eapply prune_ok].
Qed.

(** What a checkpoint has been created with stays until it is pruned. *)
Definition created_with (c : BottomUpCheckpoint) (root needed : N) (s : CheckpointStore) : Prop :=
  let i := info_at (checkpointQuorumMap s) (cp_blockHeight c) in
  bottomUpCheckpointExists s (cp_blockHeight c) = true ∧
  hash i = checkpoint_hash c ∧ rootHash i = root ∧ threshold i = needed.

Lemma step_majority s s' : checkpoint_step s s' → store_majority s' = store_majority s.
Proof.
  intros [sender c root w x s1 Hr|h proof w sig x s1 Hr|sender n x s1 Hr].
  - unfold createBottomUpCheckpoint, storeBottomUpCheckpoint in Hr. destruct (negb _); inv_done. destruct (bottomUpCheckpointExists _ _); inv_done.
    by match goal with G : on_quorums _ _ = _ |- _ => apply on_quorums_inv in G as (? & _ & ->) end.
  - unfold addCheckpointSignature in Hr. inv_done. destruct (negb _); inv_done.
    by repeat match goal with G : on_quorums _ _ = _ |- _ => apply on_quorums_inv in G as (? & _ & ->) end.
  - unfold pruneBottomUpCheckpoints in Hr. destruct (negb _); inv_done.
    by match goal with G : on_quorums _ _ = _ |- _ => apply on_quorums_inv in G as (? & _ & ->) end.
Qed.
Lemma steps_majority s s' : rtc checkpoint_step s s' → store_majority s' = store_majority s.
Proof. induction 1 as [|s1 s2 s3 Hs _ IH]; [done|]. by rewrite IH, (step_majority _ _ Hs). Qed.

Lemma create_created sender c root w s x s' :
  store_ok s → createBottomUpCheckpoint sender c root w s = Done (x, s') → created_with c root (w * store_majority s / 100) s'.
Proof.
  unfold createBottomUpCheckpoint, storeBottomUpCheckpoint. intros (Hret & _) Hr. destruct (negb _); inv_done.
  destruct (bottomUpCheckpointExists _ _) eqn:He; inv_done.
  match goal with G : on_quorums _ _ = _ |- _ =>
    apply on_quorums_inv in G as (q & (needed & inc & Hw & Hle & ->)%create_quorum_run & ->) end.
  unfold weightNeeded in Hw. apply outcome_bind_Done in Hw as (product & [Hp _]%checked_inv & [= <-]).
  match type of Hp with _ = (_ * Z.of_N ?m)%Z => assert (product = w * m) as -> by lia end.
  unfold created_with, bottomUpCheckpointExists, info_at. cbn. rewrite !lookup_insert_eq. cbn.
  split; [|done]. apply negb_true_iff, bool_decide_eq_false. lia.
Qed.

(** Each step keeps it, above the heights that are kept. *)
Lemma step_created c root needed s s' :
  checkpoint_step s s' → created_with c root needed s → retentionHeight (checkpointQuorumMap s') ≤ cp_blockHeight c →
  created_with c root needed s'.
Proof.
  intros Hstep (He & Hh & Hr & Ht) Hle. unfold created_with, info_at in *. destruct Hstep as [sender c' root' w x s1 Hrun|h proof w sig x s1 Hrun|sender n x s1 Hrun].
  - unfold createBottomUpCheckpoint, storeBottomUpCheckpoint in Hrun. destruct (negb _); inv_done. destruct (bottomUpCheckpointExists _ (cp_blockHeight c')) eqn:He'; inv_done.
    match goal with G : on_quorums _ _ = _ |- _ => apply on_quorums_inv in G as (q & (needed' & inc & _ & _ & ->)%create_quorum_run & ->) end.
    assert (cp_blockHeight c' ≠ cp_blockHeight c) as Hne by congruence.
    unfold bottomUpCheckpointExists in *. cbn. by rewrite !lookup_insert_ne.
  - unfold addCheckpointSignature in Hrun. inv_done.
    match goal with G : on_quorums (isHeightAlreadyProcessed _) _ = _ |- _ => apply on_quorums_inv in G as (q & Hq & ->) end.
    unfold isHeightAlreadyProcessed in Hq. inv_done. case_bool_decide; inv_done. destruct (negb _); inv_done.
    match goal with G : on_quorums _ _ = _ |- _ => apply on_quorums_inv in G as (q' & (a & r & inc & _ & _ & _ & _ & ->)%add_signature_run & ->) end.
    cbn. split; [done|]. unfold info_at. destruct (decide (h = cp_blockHeight c)) as [->|Hne]; [by rewrite lookup_insert_eq|by rewrite lookup_insert_ne].
  - unfold pruneBottomUpCheckpoints, pruneQuorums in Hrun. destruct (negb _); inv_done.
    match goal with G : on_quorums _ _ = _ |- _ => apply on_quorums_inv in G as (q & Hq & ->) end. cbn in Hq. inv_done. case_bool_decide; inv_done. cbn in Hle.
    match goal with G : prune_loop _ _ _ = _ |- _ => destruct (prune_loop_above _ _ _ _ _ (cp_blockHeight c) G) as (Hi & _ & _); [lia|] end.
    cbn. rewrite Hi. unfold bottomUpCheckpointExists in *. cbn. by rewrite delete_range_above by lia.
Qed.
Lemma retention_grows s s' : checkpoint_step s s' → retentionHeight (checkpointQuorumMap s) ≤ retentionHeight (checkpointQuorumMap s').
Proof.
  intros [sender c' root' w x s1 Hrun|h proof w sig x s1 Hrun|sender n x s1 Hrun].
  - unfold createBottomUpCheckpoint, storeBottomUpCheckpoint in Hrun. destruct (negb _); inv_done. destruct (bottomUpCheckpointExists _ _); inv_done.
    by match goal with G : on_quorums _ _ = _ |- _ => apply on_quorums_inv in G as (q & (needed' & inc & _ & _ & ->)%create_quorum_run & ->) end.
  - unfold addCheckpointSignature in Hrun. inv_done.
    match goal with G : on_quorums (isHeightAlreadyProcessed _) _ = _ |- _ => apply on_quorums_inv in G as (q & Hq & ->) end.
    unfold isHeightAlreadyProcessed in Hq. inv_done. case_bool_decide; inv_done. destruct (negb _); inv_done.
    by match goal with G : on_quorums _ _ = _ |- _ => apply on_quorums_inv in G as (q' & (a & r & inc & _ & _ & _ & _ & ->)%add_signature_run & ->) end.
  - unfold pruneBottomUpCheckpoints, pruneQuorums in Hrun. destruct (negb _); inv_done.
    match goal with G : on_quorums _ _ = _ |- _ => apply on_quorums_inv in G as (q & Hq & ->) end. cbn in Hq. inv_done. case_bool_decide; inv_done. cbn. lia.
Qed.
Lemma steps_created c root needed s s' :
  rtc checkpoint_step s s' → created_with c root needed s → retentionHeight (checkpointQuorumMap s') ≤ cp_blockHeight c →
  created_with c root needed s'.
Proof.
  intros Hsteps Hc. revert s' Hsteps. refine (rtc_ind_r _ _ _ _); [done|]. intros s1 s2 _ Hstep IH Hle.
  pose proof (retention_grows _ _ Hstep). apply (step_created c root needed s1 s2 Hstep); [apply IH; lia|done].
Qed.

(** C27: what the gateway of the child has collected for a checkpoint that it has created
    and that has reached its quorum, and gives out to a relayer, against what the subnet actor on the
    parent asks for, when the Merkle root of the checkpoint only has leaves of active validators, with
    their collateral in some unit as the weight.  The signatories are different, they have signed the
    checkpoint, their weight is what the child needs, and the subnet actor accepts them exactly if the
    weight that was collected reaches its own threshold.  When the total weight that the checkpoint was
    created with is the total collateral, it does if the unit is one, and otherwise if the weight reaches the
    majority without being rounded down. *)
Theorem quorum_submittable majority s0 sender c root weight s1 s set total unit :
  rtc checkpoint_step (empty_store majority) s0 →
  createBottomUpCheckpoint sender c root weight s0 = Done (tt, s1) → rtc checkpoint_step s1 s →
  retentionHeight (checkpointQuorumMap s) ≤ cp_blockHeight c →
  let '(info, signatories, signatures) := getSignatureBundle (cp_blockHeight c) (checkpointQuorumMap s) in
  reached info = true →
  getTotalActivePower set = Done total → total * majority < u256_size → unit * currentWeight info < u256_size →
  (∀ proof a w, merkle_verify proof root (validatorLeaf a w) = true →
    isActiveValidator set a = true ∧ getPower set a = unit * w) →
  NoDup signatories ∧ weight * majority / 100 ≤ currentWeight info ∧
  validateActiveQuorumSignatures set majority signatories (checkpoint_hash c) signatures =
    (if bool_decide (total * majority / 100 ≤ unit * currentWeight info) then Done tt
     else Fail "InvalidSignatureErr"%string) ∧
  (total = unit * weight → unit = 1 ∨ weight * majority ≤ 100 * currentWeight info →
   validateActiveQuorumSignatures set majority signatories (checkpoint_hash c) signatures = Done tt).
Proof.
  intros Hsteps0 Hcreate Hsteps Hh. unfold getSignatureBundle. intros Hreach Htot Hmul Hcw Hroot.
  pose proof (steps_ok _ _ Hsteps0 (empty_store_ok majority)) as Hst0.
  destruct (steps_created c root (weight * majority / 100) s1 s Hsteps) as (_ & Hhash & Hrt & Hneed); [|done|].
  { rewrite <-(steps_majority _ _ Hsteps0 : _ = majority). by eapply create_created. }
  assert (store_ok s) as Hst by (eapply steps_ok; [exact Hsteps|by eapply create_ok]).
  set (h := cp_blockHeight c) in *. pose proof (collected_signed s h Hst Hh) as Hsigned.
  destruct Hst as (_ & Hok). destruct (Hok h Hh) as [(l & Hnd & Hs & Hw & Hall & Hr) _]. clear Hok.
  set (q := checkpointQuorumMap s) in *. destruct (Hr Hreach) as [Hne Hth]. rewrite Hneed in Hth. rewrite Hrt in Hall.
  assert (elements (senders_at q h) ≡ₚ l.*1) as Hperm by (rewrite Hs; by apply elements_list_to_set).
  assert (Forall (λ x, isActiveValidator set x.1 = true ∧ getPower set x.1 = unit * x.2) l) as Hlist.
  { eapply Forall_impl; [exact Hall|]. intros x [[proof Hp] _]. by apply (Hroot proof). }
  assert (sumN (getPower set <$> elements (senders_at q h)) = unit * currentWeight (info_at q h)) as Hsum.
  { rewrite Hperm, Hw, <-sumN_scale. f_equal. rewrite <-!list_fmap_compose. apply list_fmap_ext. intros k x Hx.
    eapply Forall_lookup_1 in Hlist as [_ ?]; [|exact Hx]. done. }
  assert (validateActiveQuorumSignatures set majority (elements (senders_at q h)) (checkpoint_hash c)
      ((λ a, default [] (signatures_at q h !! a)) <$> elements (senders_at q h)) =
    (if bool_decide (total * majority / 100 ≤ unit * currentWeight (info_at q h)) then Done tt
     else Fail "InvalidSignatureErr"%string)) as Heq; [|split_and!; [apply NoDup_elements|done|done|]].
  - rewrite <-Hsum. apply validate_eq; [exact Htot|exact Hmul| | |rewrite <-Hhash; exact Hsigned|by rewrite Hsum].
    + intros Hnil. rewrite Hnil in Hperm. apply Permutation_nil_l in Hperm. by destruct l.
    + rewrite Hperm. apply Forall_fmap. eapply Forall_impl; [exact Hlist|]. by intros x [? _].
  - intros -> Hunit. rewrite Heq, bool_decide_eq_true_2; [done|]. destruct Hunit as [->|Hexact]; [by rewrite !N.mul_1_l|].
    apply N.Div0.div_le_upper_bound. nia.
Qed.
End collected.

(** ** A concrete checkpoint *)

Module SampleQuorum.
Import SampleSubmission.

(** A tree with the root 7, of the four validators of the federation. *)
#[export] Instance sample_quorum : QuorumEnv := {|
  quorum_submit := sample_submit;
  validatorLeaf := λ a w, Npos (encode (a, w));
  merkle_verify := λ _ root leaf,
    bool_decide (root = 7) && bool_decide (leaf ∈ (λ x : N * N, Npos (encode x)) <$> [(1, 1); (2, 1); (3, 1); (4, 1)]);
  quorum_system_actor := 0
|}.

Definition store_steps : stm CheckpointStore string unit :=
  createBottomUpCheckpoint 0 (checkpoint_at 10) 7 4 ;;
  addCheckpointSignature 10 [] 1 [x01] ;;
  addCheckpointSignature 10 [] 1 [x03].

Definition signed_store : CheckpointStore :=
  match store_steps (empty_store 67) with Done (_, s) => s | _ => empty_store 67 end.

Definition created_store : CheckpointStore :=
  match createBottomUpCheckpoint 0 (checkpoint_at 10) 7 4 (empty_store 67) with Done (_, s) => s | _ => empty_store 67 end.
Lemma created_run : createBottomUpCheckpoint 0 (checkpoint_at 10) 7 4 (empty_store 67) = Done (tt, created_store).
Proof. by vm_compute. Qed.
Lemma signed_steps : rtc checkpoint_step created_store signed_store.
Proof.
  assert ((addCheckpointSignature 10 [] 1 [x01] ;; addCheckpointSignature 10 [] 1 [x03]) created_store = Done (tt, signed_store)) as Hr by by vm_compute.
  apply stm_bind_Done in Hr as ([] & s2 & H2 & H3). eapply rtc_l; [by eapply cs_sign|]. eapply rtc_once. by eapply cs_sign.
Qed.

Lemma leaves_active proof a w :
  merkle_verify proof 7 (validatorLeaf a w) = true → isActiveValidator federation a = true ∧ getPower federation a = w.
Proof.
  unfold merkle_verify, validatorLeaf, sample_quorum. intros [_ Hm]%andb_true_iff.
  apply bool_decide_eq_true, list_elem_of_fmap in Hm as ([b v] & [= Heq] & Hin).
  apply (inj encode) in Heq as [= -> ->]. rewrite !elem_of_cons in Hin.
  destruct Hin as [[= -> ->]|[[= -> ->]|[[= -> ->]|[[= -> ->]|[]%not_elem_of_nil]]]]; split; by vm_compute.
Qed.

Lemma quorum_submittable_witness :
  let '(info, signatories, signatures) := getSignatureBundle 10 (checkpointQuorumMap signed_store) in
  info = MkInfo 10 7 2 2 true ∧ NoDup signatories ∧
  validateActiveQuorumSignatures federation 67 signatories 10 signatures = Done tt.
Proof.
  assert (retentionHeight (checkpointQuorumMap signed_store) ≤ cp_blockHeight (checkpoint_at 10)) as Hret by by vm_compute.
  pose proof (quorum_submittable 67 (empty_store 67) 0 (checkpoint_at 10) 7 4 created_store signed_store federation 4 1 (rtc_refl _ (empty_store 67))
    created_run signed_steps Hret) as Hq.
  change (cp_blockHeight (checkpoint_at 10)) with 10 in Hq. unfold getSignatureBundle in *.
  assert (info_at (checkpointQuorumMap signed_store) 10 = MkInfo 10 7 2 2 true) as Hi by by vm_compute.
  rewrite Hi in *. destruct Hq as (Hnd & _ & _ & Hok); [done|by vm_compute|done|done| |].
  - intros proof a w Hm. rewrite N.mul_1_l. by apply (leaves_active proof).
  - split_and!; [done|exact Hnd|]. apply Hok; [done|by left].
Defined.

(** The powers that the node of the child puts into the tree are the collaterals in a unit of their
    own, and the needed weight is rounded down in that unit: with four validators of a
    thousand each, two signatures make a quorum of 67 percent in the child, and the parent does
    not accept them. *)
Definition thousands : ValidatorSet :=
  default no_validators (assign_all [(1, 1000); (2, 1000); (3, 1000); (4, 1000)] (MkSet Federated 10 0 ∅ pq_empty pq_empty)).
Example rounded_quorum_rejected :
  let '(info, signatories, signatures) := getSignatureBundle 10 (checkpointQuorumMap signed_store) in
  reached info = true ∧ getTotalActivePower thousands = Done 4000 ∧
  validateActiveQuorumSignatures thousands 67 signatories (hash info) signatures = Fail "InvalidSignatureErr"%string.
Proof. by vm_compute. Qed.

(** Pruning a checkpoint that has no quorum leaves its height among the incomplete ones. *)
Example pruned_incomplete :
  ∃ s, (createBottomUpCheckpoint 0 (checkpoint_at 10) 7 4 ;; pruneBottomUpCheckpoints 0 11) (empty_store 67) = Done (tt, s) ∧
    incompleteQuorums (checkpointQuorumMap s) = {[10]} ∧ bottomUpCheckpointExists s 10 = false.
Proof. eexists. split; [by vm_compute|]. split; by vm_compute. Qed.
End SampleQuorum.
