(* ===== verification/MessageBatches.v ===== *)
(** * Batches of bottom-up messages

    The messages that leave a subnet upwards are collected in a batch for the next multiple of the
    checkpoint period; a batch that is full is moved to the number of the current block, and a new
    one is begun.  The parent only takes checkpoints with at most a maximal number of messages.
    With no more than that number of messages in every block no batch exceeds it, and in any case
    no message is lost; with more of them in a block, a batch can exceed it. *)

From S2P Require Import Prelude Weights PQ SolIds Messages MessageFunds.

Fixpoint commit_block (block : N) (ms : list IpcEnvelope) : stm Gateway string unit :=
  match ms with
  | [] => mret tt
  | m :: ms => commitBottomUpMsg block m ;; commit_block block ms
  end.

Fixpoint commit_blocks (l : list (N * list IpcEnvelope)) : stm Gateway string unit :=
  match l with
  | [] => mret tt
  | (block, ms) :: l => commit_block block ms ;; commit_blocks l
  end.

Definition batch_size (g : Gateway) (k : N) : nat := length (bt_msgs (batch_at g k)).

Definition epoch_of (p block : N) : N := (block / p + 1) * p.

Lemma epoch_bounds p block : p ≠ 0 → block < epoch_of p block ≤ block + p.
Proof.
  intros Hp. unfold epoch_of. pose proof (N.div_mod block p Hp). pose proof (N.mod_lt block p Hp). nia.
Qed.

Lemma epoch_mod p block : p ≠ 0 → epoch_of p block `mod` p = 0.
Proof. intros Hp. unfold epoch_of. apply N.Div0.mod_mul. Qed.

Lemma next_epoch_run p block e : block < u64_size → getNextEpoch block p = Done e → p ≠ 0 ∧ e = epoch_of p block.
Proof.
  unfold getNextEpoch, u256_div. intros Hb Hr. case_bool_decide as Hp; inv_done. split; [done|].
  match goal with G : u256_add _ _ = _ |- _ => apply u256_add_inv in G as [-> _] end.
  match goal with G : u256_mul _ _ = _ |- _ => apply checked_inv in G as [Hz _] end.
  rewrite N.mod_small in Hz by done. unfold epoch_of. lia.
Qed.

Section batches.
Context (p M : N).
Hypothesis (HM : 1 ≤ M).

(** Every entry is at its height, which is not after the block unless it is a multiple of the
    period, and not after the next such multiple. *)
Definition placed (block : N) (g : Gateway) : Prop :=
  ∀ k b, bottomUpMsgBatches g !! k = Some b →
    bt_blockHeight b = k ∧ 1 ≤ k ≤ epoch_of p block ∧ (k ≤ block ∨ k `mod` p = 0).

Record batches_ok (block c : N) (g : Gateway) : Prop := {
  bo_period : bottomUpCheckPeriod g = p;
  bo_max : maxMsgsPerBottomUpBatch g = M;
  bo_placed : placed block g;
  bo_limit k : N.of_nat (batch_size g k) ≤ M;
  bo_count : batch_size g block = 0%nat ∨ N.of_nat (batch_size g (epoch_of p block)) ≤ c
}.

Lemma size_put g k b k' : batch_size (put_batch k b g) k' = if bool_decide (k' = k) then length (bt_msgs b) else batch_size g k'.
Proof.
  unfold batch_size, batch_at, put_batch. cbn. case_bool_decide; subst.
  - by rewrite lookup_insert_eq.
  - by rewrite lookup_insert_ne.
Qed.

Lemma placed_put block g k b :
  placed block g → bt_blockHeight b = k → 1 ≤ k ≤ epoch_of p block → (k ≤ block ∨ k `mod` p = 0) → placed block (put_batch k b g).
Proof.
  intros Hp Hb Hk Hor k' b'. cbn. rewrite lookup_insert_Some. intros [[<- <-]|[_ Hl]]; [done|by apply Hp].
Qed.

Lemma batch_height block g k : placed block g → bt_blockHeight (batch_at g k) ≠ 0 → bt_blockHeight (batch_at g k) = k.
Proof.
  intros Hpl Hz. unfold batch_at in *. destruct (bottomUpMsgBatches g !! k) as [b|] eqn:Hl; [|done].
  by apply Hpl in Hl as (Heq & _).
Qed.

Lemma commit_ok block c m g m' g' :
  1 ≤ block < u64_size → c < M → batches_ok block c g → commitBottomUpMsg block m g = Done (m', g') →
  batches_ok block (c + 1) g'.
Proof.
  intros Hb Hc [Hper Hmax Hpl Hlim Hcnt] Hr. unfold commitBottomUpMsg, storeBottomUpMsgBatch in Hr. inv_done.
  match goal with G : getNextEpoch _ _ = _ |- _ => rewrite Hper in G; apply next_epoch_run in G as [Hp ->]; [|lia] end.
  pose proof (epoch_bounds p block Hp) as He. pose proof (epoch_mod p block Hp) as Hmod.
  match goal with G : bottomUpCheckPeriod ?x = p |- _ => rename x into g end.
  match goal with G : context [batch_at (set_nonces ?n ?t g) ?e] |- _ =>
    change (batch_at (set_nonces n t g) e) with (batch_at g e) in G; set (g1 := set_nonces n t g) in * end.
  assert (∀ k, batch_size g1 k = batch_size g k) as Hsz by done. assert (placed block g1) as Hpl1 by done.
  set (e := epoch_of p block) in *.
  pose proof (Hlim e) as Hlim_e. unfold batch_size in Hlim_e.
  case_bool_decide as Hz; inv_done.
  - (* a new batch *)
    assert (bt_msgs (batch_at g e) = []) as Hnil.
    { unfold batch_at in *. destruct (bottomUpMsgBatches g !! e) as [b|] eqn:Hl; [|done]. apply Hpl in Hl. cbn in Hz. lia. }
    split; [done|done|by apply placed_put; [|done|lia|right]|..].
    + intros k. rewrite size_put, Hnil. case_bool_decide; [cbn; lia|apply Hlim].
    + rewrite !size_put, Hnil. rewrite (bool_decide_eq_true_2 (e = e)) by done. right. cbn. lia.
  - case_bool_decide as Hfull; inv_done; pose proof (batch_height block g e Hpl Hz) as Hh.
    + (* a full batch *)
      assert (batch_size g block = 0%nat) as Hempty.
      { destruct Hcnt as [|Hle]; [done|]. unfold batch_size in Hle. rewrite Hmax in Hfull. lia. }
      assert (bt_msgs (batch_at g block) = []) as Hnil by by apply nil_length_inv.
      set (g2 := put_batch e _ g1).
      assert (bt_msgs (batch_at g2 block) = []) as Hnil2.
      { unfold batch_at, g2. cbn. rewrite lookup_insert_ne by lia. exact Hnil. }
      split; [done|done| |..].
      * apply placed_put; [by apply placed_put; [|exact Hh|lia|right]|done|lia|left; cbn; lia].
      * intros k. rewrite size_put. cbn [bt_msgs bt_blockHeight]. rewrite Hnil2. cbn [app]. case_bool_decide; [done|].
        unfold g2. rewrite size_put. case_bool_decide; [cbn; lia|apply Hlim].
      * right. rewrite size_put. cbn [bt_blockHeight]. rewrite bool_decide_eq_false_2 by lia.
        unfold g2. rewrite size_put, bool_decide_eq_true_2 by done. cbn. lia.
    + split; [done|done|by apply placed_put; [|exact Hh|lia|right]|..].
      * intros k. rewrite size_put. cbn [bt_msgs]. case_bool_decide; [|apply Hlim]. rewrite length_app. cbn. lia.
      * rewrite !size_put. cbn [bt_msgs]. rewrite (bool_decide_eq_true_2 (e = e)) by done.
        rewrite bool_decide_eq_false_2 by lia. rewrite length_app. cbn [length].
        destruct Hcnt as [Hcnt|Hcnt]; [left; exact Hcnt|right; unfold batch_size in Hcnt; lia].
Qed.

Lemma commit_block_ok block c ms g x g' :
  1 ≤ block < u64_size → c + N.of_nat (length ms) ≤ M → batches_ok block c g → commit_block block ms g = Done (x, g') →
  batches_ok block (c + N.of_nat (length ms)) g'.
Proof.
  intros Hb. revert c g x. induction ms as [|m ms IH]; intros c g x Hc Hok Hr; cbn [commit_block] in Hr; inv_done.
  { by rewrite N.add_0_r. }
  cbn [length] in *. match goal with G : commitBottomUpMsg _ _ _ = _ |- _ => apply (commit_ok block c m _ _ _ Hb ltac:(lia) Hok) in G end.
  replace (c + N.of_nat (S (length ms))) with (c + 1 + N.of_nat (length ms)) by lia. eapply IH; [lia|done|done].
Qed.

(** At the beginning of a later block. *)
Lemma next_block_ok block block' c g :
  p ≠ 0 → block < block' → batches_ok block c g → batches_ok block' 0 g.
Proof.
  intros Hp Hlt [Hper Hmax Hpl Hlim _]. pose proof (epoch_bounds p block Hp) as He. pose proof (epoch_bounds p block' Hp) as He'.
  assert (epoch_of p block ≤ epoch_of p block') as Hmono.
  { unfold epoch_of. apply N.mul_le_mono_r, N.add_le_mono_r. by apply N.Div0.div_le_mono, N.lt_le_incl. }
  split; [done|done| |done|].
  - intros k b Hl. apply Hpl in Hl as (Hk & Hr & Hor). split_and!; [done|lia|lia|]. destruct Hor; [left; lia|by right].
  - destruct (decide (batch_size g block' = 0%nat)) as [|Hne]; [by left|]. right.
    unfold batch_size, batch_at in *. destruct (bottomUpMsgBatches g !! block') as [b|] eqn:Hl; [|done].
    apply Hpl in Hl as (_ & Hr & [Hle|Hmod]); [lia|].
    destruct (bottomUpMsgBatches g !! epoch_of p block') as [b'|] eqn:Hl'; [|done].
    apply Hpl in Hl' as (_ & Hr' & _). exfalso.
    assert (epoch_of p block' = block' + p).
    { unfold epoch_of. pose proof (N.div_mod block' p Hp). rewrite Hmod in *. lia. }
    lia.
Qed.

Lemma commit_blocks_ok l block c g x g' :
  p ≠ 0 → batches_ok block c g →
  StronglySorted (λ a b, a.1 < b.1) l → Forall (λ b, block < b.1 < u64_size ∧ N.of_nat (length b.2) ≤ M) l →
  commit_blocks l g = Done (x, g') → ∀ k, N.of_nat (batch_size g' k) ≤ M.
Proof.
  intros Hp. revert block c g x. induction l as [|[b ms] l IH]; intros block c g x Hok Hs Hall Hr; cbn [commit_blocks] in Hr; inv_done.
  { by apply Hok. }
  apply StronglySorted_inv in Hs as [Hs Hlt]. apply Forall_cons in Hall as [[Hb Hms] Hall]. cbn [fst snd] in *.
  assert (batches_ok b 0 g) as Hok1 by (by apply (next_block_ok block b c); [|lia|]).
  match goal with G : commit_block _ _ _ = _ |- _ =>
    pose proof (commit_block_ok b 0 ms g _ _ ltac:(lia) ltac:(lia) Hok1 G) as Hok2 end.
  eapply (IH b); [done|done| |done]. apply Forall_forall. intros y Hy. rewrite Forall_forall in Hlt, Hall.
  specialize (Hlt y Hy). specialize (Hall y Hy). cbn in Hlt. lia.
Qed.
End batches.

(** *** No message is lost *)

(** The messages in all the batches, and messages with consecutive numbers. *)
Definition all_messages (g : Gateway) : list IpcEnvelope := map_to_list (bottomUpMsgBatches g) ≫= λ kb, bt_msgs kb.2.
Fixpoint number_from (n : N) (ms : list IpcEnvelope) : list IpcEnvelope :=
  match ms with
  | [] => []
  | m :: ms => with_nonce n m :: number_from (n + 1) ms
  end.

Lemma number_from_app n ms1 ms2 : number_from n (ms1 ++ ms2) = number_from n ms1 ++ number_from (n + N.of_nat (length ms1)) ms2.
Proof.
  revert n. induction ms1 as [|m ms1 IH]; intros n; cbn [app number_from length]; [by rewrite N.add_0_r|]. rewrite IH. do 3 f_equal. lia.
Qed.

Lemma all_put g k b : bt_msgs (batch_at g k) ++ all_messages (put_batch k b g) ≡ₚ bt_msgs b ++ all_messages g.
Proof.
  unfold all_messages, batch_at. change (bottomUpMsgBatches (put_batch k b g)) with (<[k := b]> (bottomUpMsgBatches g)).
  set (m := bottomUpMsgBatches g). destruct (m !! k) as [b0|] eqn:Hl; cbn [default from_option].
  - rewrite <-(insert_delete_eq m k b), (map_to_list_insert _ k b) by apply lookup_delete_eq. rewrite <-(map_to_list_delete m k b0) by done.
    rewrite !bind_cons. cbn [snd]. rewrite !app_assoc. by rewrite (Permutation_app_comm (bt_msgs b0)).
  - rewrite (map_to_list_insert m k b) by done. by rewrite bind_cons.
Qed.

(** Committing a message adds it, with the next number, to what is there. *)
Lemma commit_stores p block m g m' g' :
  bottomUpCheckPeriod g = p → block < u64_size → commitBottomUpMsg block m g = Done (m', g') →
  all_messages g' ≡ₚ all_messages g ++ [with_nonce (bottomUpNonce g) m] ∧ bottomUpNonce g' = bottomUpNonce g + 1 ∧ bottomUpCheckPeriod g' = p.
Proof.
  intros Hper Hb Hr. unfold commitBottomUpMsg, storeBottomUpMsgBatch in Hr. inv_done.
  match goal with G : getNextEpoch _ _ = _ |- _ => apply next_epoch_run in G as [Hp ->]; [|lia] end.
  match goal with G : context [epoch_of (bottomUpCheckPeriod ?x) _] |- _ => rename x into g end.
  set (p := bottomUpCheckPeriod g) in *. pose proof (epoch_bounds p block Hp) as He. set (e := epoch_of p block) in *.
  match goal with G : context [batch_at (set_nonces ?n ?t g) ?e] |- _ =>
    change (batch_at (set_nonces n t g) e) with (batch_at g e) in G; set (g1 := set_nonces n t g) in *;
    assert (bottomUpNonce g1 = n) as Hn1 by done end.
  match goal with G : u64_add _ _ = _ |- _ => apply checked_inv in G as [Hnext _] end.
  assert (all_messages g1 = all_messages g) as Hst by done. assert (∀ k, batch_at g1 k = batch_at g k) as Hsz by done.
  set (m1 := with_nonce (bottomUpNonce g) m) in *.
  assert (∀ b, bt_msgs b = bt_msgs (batch_at g e) ++ [m1] → all_messages (put_batch e b g1) ≡ₚ all_messages g ++ [m1]) as Hadd.
  { intros b Heq. pose proof (all_put g1 e b) as Hput. rewrite Hsz, Hst, Heq, <-app_assoc in Hput. apply Permutation_app_inv_l in Hput.
    rewrite Hput. apply Permutation_app_comm. }
  case_bool_decide; inv_done; [|case_bool_decide; inv_done]; (split; [|split; [cbn; lia|done]]).
  - by apply Hadd.
  - cbn [bt_blockHeight bt_subnetID bt_msgs]. match goal with |- context [put_batch block _ ?x] => set (g2 := x) end.
    match goal with |- context [put_batch block ?b g2] => pose proof (all_put g2 block b) as Hp2 end. cbn [bt_msgs] in Hp2.
    rewrite <-app_assoc in Hp2. apply Permutation_app_inv_l in Hp2. rewrite Hp2. unfold g2.
    match goal with |- context [put_batch e ?b g1] => pose proof (all_put g1 e b) as Hp1 end. cbn [bt_msgs] in Hp1.
    rewrite Hsz, Hst in Hp1. rewrite Hp1. apply Permutation_app_comm.
  - by apply Hadd.
Qed.

Lemma block_stores p block ms g x g' :
  bottomUpCheckPeriod g = p → block < u64_size → commit_block block ms g = Done (x, g') →
  all_messages g' ≡ₚ all_messages g ++ number_from (bottomUpNonce g) ms ∧
  bottomUpNonce g' = bottomUpNonce g + N.of_nat (length ms) ∧ bottomUpCheckPeriod g' = p.
Proof.
  intros Hper Hb. revert g x Hper. induction ms as [|m ms IH]; intros g x Hper Hr; cbn [commit_block] in Hr; inv_done.
  { by rewrite app_nil_r, N.add_0_r. }
  match goal with G : commitBottomUpMsg _ _ _ = Done (_, ?g1) |- _ => apply (commit_stores (bottomUpCheckPeriod g)) in G as (Hst & Hn & Hper1); [|done|done];
    destruct (IH g1 _ Hper1 ltac:(done)) as (Hst2 & Hn2 & Hper2) end.
  split_and!; [|cbn [length]; lia|done]. cbn [number_from]. by rewrite Hst2, Hst, Hn, <-app_assoc.
Qed.

Lemma blocks_store p l g x g' :
  bottomUpCheckPeriod g = p → Forall (λ b, b.1 < u64_size) l → commit_blocks l g = Done (x, g') →
  all_messages g' ≡ₚ all_messages g ++ number_from (bottomUpNonce g) (concat l.*2).
Proof.
  intros Hper Hall. revert g x Hper. induction Hall as [|[b ms] l Hb _ IH]; intros g x Hper Hr; cbn [commit_blocks] in Hr; inv_done.
  { by rewrite app_nil_r. }
  match goal with G : commit_block _ _ _ = Done (_, ?g1) |- _ => apply (block_stores (bottomUpCheckPeriod g)) in G as (Hst & Hn & Hper1); [|done|done];
    rewrite (IH g1 _ Hper1 ltac:(done)) end.
  cbn [fmap list_fmap snd concat]. by rewrite number_from_app, Hst, Hn, <-app_assoc.
Qed.

(** C28: if no block has more bottom-up messages than a batch may have, no batch ever has
    more, whatever the blocks are and however the messages fall into the checkpoint periods; and no
    message is lost, changed or there twice: the batches together hold exactly the messages that were committed, with
    consecutive numbers in the order in which they were committed. *)
Theorem batches_bounded l g x g' :
  bottomUpMsgBatches g = ∅ → bottomUpCheckPeriod g ≠ 0 → 1 ≤ maxMsgsPerBottomUpBatch g →
  StronglySorted (λ a b, a.1 < b.1) l →
  Forall (λ b, 0 < b.1 < u64_size ∧ N.of_nat (length b.2) ≤ maxMsgsPerBottomUpBatch g) l →
  commit_blocks l g = Done (x, g') →
  (∀ k, N.of_nat (batch_size g' k) ≤ maxMsgsPerBottomUpBatch g) ∧
  all_messages g' ≡ₚ number_from (bottomUpNonce g) (concat l.*2).
Proof.
  intros Hempty Hp HM Hs Hall Hr. split.
  - eapply (commit_blocks_ok (bottomUpCheckPeriod g) _ HM l 0 0 g); try done.
    split; [done|done|by intros k b; rewrite Hempty|..].
    + intros k. unfold batch_size, batch_at. rewrite Hempty, lookup_empty. cbn. lia.
    + left. unfold batch_size, batch_at. by rewrite Hempty, lookup_empty.
  - rewrite (blocks_store _ l g x g' eq_refl); [|eapply Forall_impl; [exact Hall|cbn; lia]|done].
    unfold all_messages at 1. by rewrite Hempty, map_to_list_empty.
Qed.

(** ** Concrete batches *)

Module SampleBatches.
Import SampleNetwork.

Definition child : Gateway := sample_gateway (createSubnetId root 5).
Definition up (n : nat) : list IpcEnvelope := replicate n no_envelope.

Definition after_blocks (l : list (N * list IpcEnvelope)) : Gateway :=
  match commit_blocks l child with Done (_, g) => g | _ => child end.

Definition two_blocks : list (N * list IpcEnvelope) := [(3, up 2); (4, up 2)].

Lemma batches_bounded_witness :
  batch_size (after_blocks two_blocks) 4 = 2%nat ∧
  (∀ k, N.of_nat (batch_size (after_blocks two_blocks) k) ≤ 2) ∧
  all_messages (after_blocks two_blocks) ≡ₚ (λ n, with_nonce n no_envelope) <$> [0; 1; 2; 3].
Proof.
  split; [by vm_compute|].
  change ((λ n, with_nonce n no_envelope) <$> [0; 1; 2; 3]) with (number_from (bottomUpNonce child) (concat two_blocks.*2)).
  apply (batches_bounded two_blocks child tt (after_blocks two_blocks)); [done|done|done| |by repeat constructor|by vm_compute].
  by repeat constructor.
Defined.

(** Five messages in one block, with at most two in a batch: the batch of the block gets four,
    and the parent refuses a checkpoint with that many. *)
Example oversized_batch :
  batch_size (after_blocks [(3, up 5)]) 3 = 4%nat ∧
  @checkMsgLength (bt_msgs (batch_at (after_blocks [(3, up 5)]) 3)) (sample_gateway root) = Fail "MaxMsgsPerBatchExceeded"%string.
Proof. split; by vm_compute. Qed.
End SampleBatches.
