(* ===== verification/Mirror.v ===== *)
(** * The validators of the child follow those of the parent

    The subnet actor on the parent confirms the changes of its log one by one; the gateway of the
    child confirms the same changes on its own copy of the validators.  Both run the same library,
    on sets that differ: only the parent knows of collateral that is not confirmed yet.  The two
    stay in step, in the powers of all validators and in the two queues, so that the child's
    membership is that of the parent.  They have to be in step to begin with, which the constructor
    of the gateway does not see to when there are genesis validators. *)

From Stdlib Require Import FunctionalExtensionality.
From S2P Require Import Prelude PQ ValidatorSet Abi Staking GatewayFinality SubnetActor Solvency.

(** ** Runs in lockstep *)

Section lockstep.
Context {S1 S2 E : Type} (R : S1 → S2 → Prop).

(** From related states, both runs end in the same way, and in related states. *)
Definition lockstep {A} (m1 : stm S1 E A) (m2 : stm S2 E A) : Prop :=
  ∀ s1 s2, R s1 s2 →
    match m1 s1, m2 s2 with
    | Done (a, s1'), Done (b, s2') => a = b ∧ R s1' s2'
    | Fail e1, Fail e2 => e1 = e2
    | Retry, Retry | Panic, Panic | OutOfFuel, OutOfFuel => True
    | _, _ => False
    end.

Lemma lockstep_ret {A} (a : A) : lockstep (mret a) (mret a).
Proof. intros s1 s2 HR. by unfold mret, stm_ret. Qed.
Lemma lockstep_abort {A} (e : E) : lockstep (A:=A) (abort e) (abort e).
Proof. intros s1 s2 HR. done. Qed.
Lemma lockstep_lift {A} (o : outcome E A) : lockstep (lift o) (lift o).
Proof. intros s1 s2 HR. unfold lift. by destruct o. Qed.
Lemma lockstep_reads {A} (f1 : S1 → A) (f2 : S2 → A) : (∀ s1 s2, R s1 s2 → f1 s1 = f2 s2) → lockstep (reads f1) (reads f2).
Proof. intros Hf s1 s2 HR. unfold reads. split; [by apply Hf|done]. Qed.
Lemma lockstep_modify (f1 : S1 → S1) (f2 : S2 → S2) :
  (∀ s1 s2, R s1 s2 → R (f1 s1) (f2 s2)) → lockstep (modify f1) (modify f2).
Proof. intros Hf s1 s2 HR. unfold modify. split; [done|by apply Hf]. Qed.
Lemma lockstep_bind {A B} (m1 : stm S1 E A) (m2 : stm S2 E A) (f1 : A → stm S1 E B) (f2 : A → stm S2 E B) :
  lockstep m1 m2 → (∀ a, lockstep (f1 a) (f2 a)) → lockstep (m1 ≫= f1) (m2 ≫= f2).
Proof.
  intros Hm Hf s1 s2 HR. specialize (Hm s1 s2 HR). unfold mbind, stm_bind, mbind, outcome_bind.
  destruct (m1 s1) as [[a s1']| | | |], (m2 s2) as [[b s2']| | | |]; try done.
  destruct Hm as [-> HR']. by apply Hf.
Qed.
Lemma lockstep_run {A} (m1 : stm S1 E A) (m2 : stm S2 E A) s1 s2 a s1' :
  lockstep m1 m2 → R s1 s2 → m1 s1 = Done (a, s1') → ∃ s2', m2 s2 = Done (a, s2') ∧ R s1' s2'.
Proof.
  intros Hm HR Hr. specialize (Hm s1 s2 HR). rewrite Hr in Hm.
  destruct (m2 s2) as [[b s2']| | | |]; try done. destruct Hm as [-> ?]. by exists s2'.
Qed.
End lockstep.

(** ** The two sets of validators *)

(** The set of the parent and the one of the child: only collateral counts, and both have the same
    amount confirmed for every validator. *)
Record mirrors (p c : ValidatorSet) : Prop := {
  mi_parent : permissionMode p ≠ Federated;
  mi_child : permissionMode c ≠ Federated;
  mi_limit : activeLimit p = activeLimit c;
  mi_total : totalConfirmedCollateral p = totalConfirmedCollateral c;
  mi_active : activeValidators p = activeValidators c;
  mi_waiting : waitingValidators p = waitingValidators c;
  mi_confirmed a : confirmedCollateral (info_of p a) = confirmedCollateral (info_of c a);
  mi_federated a : federatedPower (info_of c a) = 0
}.

Lemma mirrors_power p c : mirrors p c → getPower p = getPower c.
Proof.
  intros Hm. apply functional_extensionality. intros a.
  rewrite !collateral_power by apply Hm. apply Hm.
Qed.

Lemma lock_active {A} (op : ∀ o : HeapOrder, (N → N) → stm PQ string A) : lockstep mirrors (on_active op) (on_active op).
Proof.
  intros p c Hm. unfold on_active, zoom. rewrite (mirrors_power p c Hm), (mi_active _ _ Hm).
  destruct (op _ _ _) as [[a q]| | | |]; try done. split; [done|]. destruct Hm. by split.
Qed.
Lemma lock_waiting {A} (op : ∀ o : HeapOrder, (N → N) → stm PQ string A) : lockstep mirrors (on_waiting op) (on_waiting op).
Proof.
  intros p c Hm. unfold on_waiting, zoom. rewrite (mirrors_power p c Hm), (mi_waiting _ _ Hm).
  destruct (op _ _ _) as [[a q]| | | |]; try done. split; [done|]. destruct Hm. by split.
Qed.
Lemma lock_read {A} (f : ValidatorSet → A) : (∀ p c, mirrors p c → f p = f c) → lockstep (E:=string) mirrors (reads f) (reads f).
Proof. apply lockstep_reads. Qed.

Create HintDb lockstep.
#[export] Hint Resolve lockstep_ret lockstep_abort lockstep_lift lock_active lock_waiting : lockstep.

(** Go through two equal programs. *)
Ltac lock_step :=
  match goal with
  | |- lockstep _ (_ ≫= _) (_ ≫= _) => apply lockstep_bind; [|intros ?]
  | |- lockstep _ (if ?b then _ else _) (if ?b then _ else _) => destruct b
  | |- lockstep _ (match ?x with _ => _ end) (match ?x with _ => _ end) => destruct x
  | |- lockstep _ (reads _) (reads _) => apply lockstep_reads; intros ?? HM; destruct HM; congruence
  | |- lockstep _ _ _ => solve [eauto with lockstep]
  end.
Ltac solve_lockstep := repeat lock_step.

Lemma lock_increase v n : lockstep mirrors (increaseReshuffle v n) (increaseReshuffle v n).
Proof. unfold increaseReshuffle. solve_lockstep. Qed.
Lemma lock_reduce v n : lockstep mirrors (reduceReshuffle v n) (reduceReshuffle v n).
Proof. unfold reduceReshuffle. solve_lockstep. Qed.
#[export] Hint Resolve lock_increase lock_reduce : lockstep.

Lemma mirrors_set v f1 f2 p c :
  mirrors p c → confirmedCollateral (f1 (info_of p v)) = confirmedCollateral (f2 (info_of c v)) →
  federatedPower (f2 (info_of c v)) = federatedPower (info_of c v) →
  mirrors (set_info v f1 p) (set_info v f2 c).
Proof.
  intros [] Hf Hp. split; try done; intros a; unfold info_of, set_info; cbn;
    (destruct (decide (a = v)) as [->|Hne]; [rewrite !lookup_insert_eq|rewrite !lookup_insert_ne by done]).
  - done.
  - apply mi_confirmed0.
  - etrans; [exact Hp|apply mi_federated0].
  - apply mi_federated0.
Qed.

Lemma lock_metadata v md : lockstep mirrors (setMetadata v md) (setMetadata v md).
Proof. apply lockstep_modify. intros p c Hm. apply mirrors_set; [done|apply Hm|done]. Qed.

Lemma lock_deposit v amount : lockstep mirrors (confirmDeposit v amount) (confirmDeposit v amount).
Proof.
  unfold confirmDeposit. solve_lockstep.
  - apply lockstep_modify. intros p c Hm. by apply mirrors_set.
  - apply lockstep_modify. intros p c []. by split.
Qed.

(** The entry of a validator is removed, or its collateral is set to zero. *)
Lemma lock_lower v new (t1 t2 : bool) :
  lockstep (E:=string) mirrors
    (if bool_decide (new = 0) && t1 then modify (λ s, set_validators (delete v (validators s)) s)
     else modify (set_info v (with_confirmed new)))
    (if bool_decide (new = 0) && t2 then modify (λ s, set_validators (delete v (validators s)) s)
     else modify (set_info v (with_confirmed new))).
Proof.
  case_bool_decide as Hz; cbn [andb].
  - subst new. destruct t1, t2; apply lockstep_modify; intros p c [];
      (split; try done; intros a; unfold info_of; cbn; destruct (decide (a = v)) as [->|Hne];
       rewrite ?lookup_delete_eq, ?lookup_insert_eq, ?lookup_delete_ne, ?lookup_insert_ne by done;
       solve [done|apply mi_confirmed0|apply mi_federated0]).
  - apply lockstep_modify. intros p c Hm. by apply mirrors_set.
Qed.

Lemma lock_withdraw v amount : lockstep mirrors (confirmWithdraw v amount) (confirmWithdraw v amount).
Proof.
  intros p c Hm. unfold confirmWithdraw.
  rewrite (bind_run _ _ p (info_of p v) p), (bind_run _ _ c (info_of c v) c) by done.
  rewrite (mi_confirmed _ _ Hm v). revert p c Hm. intros p c Hm.
  set (t1 := bool_decide (totalCollateral (info_of p v) = 0)). set (t2 := bool_decide (totalCollateral (info_of c v) = 0)).
  generalize (confirmedCollateral (info_of c v)), t1, t2. clear t1 t2. intros n t1 t2. revert p c Hm.
  change (lockstep (E:=string) mirrors
    (newCollateral ← lift (u256_sub n amount);
     (if bool_decide (newCollateral = 0) && t1 then modify (λ s, set_validators (delete v (validators s)) s)
      else modify (set_info v (with_confirmed newCollateral))) ;;
     reduceReshuffle v newCollateral ;;
     total ← reads totalConfirmedCollateral; total ← lift (u256_sub total amount); modify (set_total total))
    (newCollateral ← lift (u256_sub n amount);
     (if bool_decide (newCollateral = 0) && t2 then modify (λ s, set_validators (delete v (validators s)) s)
      else modify (set_info v (with_confirmed newCollateral))) ;;
     reduceReshuffle v newCollateral ;;
     total ← reads totalConfirmedCollateral; total ← lift (u256_sub total amount); modify (set_total total))).
  apply lockstep_bind; [auto with lockstep|intros new]. apply lockstep_bind; [apply lock_lower|intros _].
  solve_lockstep. apply lockstep_modify. intros p c []. by split.
Qed.
#[export] Hint Resolve lock_metadata lock_deposit lock_withdraw : lockstep.

Lemma lock_track ch : change_op ch ≠ SetFederatedPower → lockstep mirrors (track_change ch) (track_change ch).
Proof. intros Hop. unfold track_change. destruct (change_op ch) eqn:Ho; solve_lockstep. done. Qed.

Lemma lock_tracks cs : Forall (λ ch, change_op ch ≠ SetFederatedPower) cs → lockstep mirrors (track_changes cs) (track_changes cs).
Proof.
  induction 1 as [|ch cs Hc _ IH]; cbn [track_changes]; [apply lockstep_ret|].
  apply lockstep_bind; [by apply lock_track|intros _; exact IH].
Qed.

(** ** The parent *)

Section parent.
Context `{ActorEnv}.

Definition same_staking (w w' : World) : Prop :=
  validatorSet (actor w') = validatorSet (actor w) ∧ changeSet (actor w') = changeSet (actor w).
#[export] Instance same_staking_po : PreOrder same_staking.
Proof. split; [by intros w|]. intros w1 w2 w3 [??] [??]. split; congruence. Qed.

Lemma staking_queue {A} (tx : stm StakingReleaseQueue string A) : keeps same_staking (on_queue tx).
Proof. intros w a w'. unfold on_queue, zoom. destruct (tx _) as [[b q]| | | |]; try done. by intros [= <- <-]. Qed.
Lemma staking_pay a b n : keeps same_staking (pay a b n).
Proof. unfold pay. solve_keeps. by apply keeps_modify. Qed.
Lemma staking_release n : keeps same_staking (gw_releaseStake n).
Proof. unfold gw_releaseStake. pose proof staking_pay. solve_keeps. by apply keeps_modify. Qed.
Lemma staking_add n : keeps same_staking (gw_addStake n).
Proof. unfold gw_addStake. pose proof staking_pay. solve_keeps. by apply keeps_modify. Qed.

Lemma lift_run {T A} (o : outcome string A) a (s : T) : o = Done a → lift o s = Done (a, s).
Proof. by intros ->. Qed.

(** What confirming a change does to the validators is what the child does. *)
Lemma confirm_one_tracks ch w x w' :
  confirm_one ch w = Done (x, w') →
  track_change ch (validatorSet (actor w)) = Done (tt, validatorSet (actor w')) ∧
  changeSet (actor w') = changeSet (actor w).
Proof.
  unfold confirm_one, track_change. intros Hr. destruct (change_op ch).
  - apply stm_bind_Done in Hr as (amount & w0 & (n & Hd & [= -> ->])%lift_Done & Hr).
    apply stm_bind_Done in Hr as ([] & w1 & (v & Hv & ->)%on_vset_inv & Hr). apply staking_add in Hr as [Hs Hc].
    erewrite bind_run by (apply lift_run; exact Hd). rewrite Hv, Hs. done.
  - apply stm_bind_Done in Hr as (amount & w0 & (n & Hd & [= -> ->])%lift_Done & Hr).
    apply stm_bind_Done in Hr as ([] & w1 & (v & Hv & ->)%on_vset_inv & Hr).
    apply stm_bind_Done in Hr as (now & w2 & [= <- <-] & Hr).
    apply stm_bind_Done in Hr as (u & w3 & [Hq1 Hq2]%staking_queue & [Hs Hc]%staking_release).
    erewrite bind_run by (apply lift_run; exact Hd). rewrite Hv, Hs, Hq1. split; [done|]. by rewrite Hc, Hq2.
  - apply on_vset_inv in Hr as (v & Hv & ->). rewrite Hv. by destruct x.
  - apply stm_bind_Done in Hr as ([md power] & w0 & (n & Hd & [= <- ->])%lift_Done & Hr).
    apply stm_bind_Done in Hr as ([] & w1 & (v & Hv & ->)%on_vset_inv & (v2 & Hv2 & ->)%on_vset_inv).
    erewrite bind_run by (apply lift_run; exact Hd). cbv beta iota. erewrite bind_run by exact Hv. destruct x. split; [exact Hv2|done].
Qed.

Lemma confirm_changes_track n i w x w' :
  confirm_changes n i w = Done (x, w') →
  track_changes (changes_from (changeSet (actor w)) i n) (validatorSet (actor w)) = Done (tt, validatorSet (actor w')).
Proof.
  revert i w. induction n as [|n IH]; intros i w Hr; cbn [confirm_changes] in Hr.
  { injection Hr as _ <-. done. }
  apply stm_bind_Done in Hr as (ch & w0 & [= <- <-] & Hr).
  apply stm_bind_Done in Hr as (u & w1 & [Ht Hc]%confirm_one_tracks & Hr).
  apply stm_bind_Done in Hr as (u2 & w2 & [= _ <-] & Hr). apply IH in Hr.
  unfold changes_from in *. cbn [range_up fmap list_fmap track_changes]. rewrite <-N.add_1_r.
  erewrite bind_run by exact Ht. cbn in Hr. rewrite Hc in Hr. fold (changes_from (changeSet (actor w)) (i + 1) n).
  fold (changes_from (purgeChange i (changeSet (actor w))) (i + 1) n) in Hr. by rewrite changes_purged in Hr by lia.
Qed.

Lemma confirm_tracks n w x w' :
  let l := changeSet (actor w) in
  startConfigurationNumber l ≤ n → confirmChange n w = Done (x, w') →
  track_changes (changes_from l (startConfigurationNumber l) (N.to_nat (n + 1 - startConfigurationNumber l)))
    (validatorSet (actor w)) = Done (tt, validatorSet (actor w')).
Proof.
  intros l Hn Hr. unfold confirmChange in Hr.
  apply stm_bind_Done in Hr as (next & ? & [= <- <-] & Hr). apply stm_bind_Done in Hr as (start & ? & [= <- <-] & Hr).
  case_bool_decide; [done|]. rewrite bool_decide_eq_false_2 in Hr by (fold l; lia).
  apply stm_bind_Done in Hr as (? & w1 & Hc%confirm_changes_track & Hr).
  apply stm_bind_Done in Hr as (m & ? & (m' & _ & [= -> ->])%lift_Done & Hr). injection Hr as _ <-. exact Hc.
Qed.
End parent.

(** ** The child *)

(** The requests that carry changes, numbered from [i] on. *)
Fixpoint requests (i : N) (cs : list StakingChange) : list StakingChangeRequest :=
  match cs with
  | [] => []
  | c :: cs => MkRequest c i :: requests (i + 1) cs
  end.

Lemma batch_run cs t :
  let l := tr_changes t in
  nextConfigurationNumber l + N.of_nat (length cs) < u64_size →
  ∃ l', batchStoreChange (requests (nextConfigurationNumber l) cs) t = Done (tt, MkTracker (tr_validators t) l') ∧
    nextConfigurationNumber l' = nextConfigurationNumber l + N.of_nat (length cs) ∧
    startConfigurationNumber l' = startConfigurationNumber l ∧
    (∀ k, k < nextConfigurationNumber l → getChange k l' = getChange k l) ∧
    changes_from l' (nextConfigurationNumber l) (length cs) = cs.
Proof.
  revert t. induction cs as [|c cs IH]; intros t l Hl; cbn [requests batchStoreChange length] in *.
  { exists l. split_and!; [by destruct t|lia|done..]. }
  pose proof (store_run c t) as Hs. fold l in Hs. specialize (Hs ltac:(lia)).
  match type of Hs with _ = Done (tt, ?x) => set (t1 := x) in * end.
  destruct (IH t1) as (l' & Hr & Hn & Hst & Hk & Hc); [cbn; lia|]. cbn in Hr, Hn, Hst, Hk, Hc.
  exists l'. split_and!; [|lia|done| |].
  - rewrite (bind_run _ _ t tt t1) by exact Hs. exact Hr.
  - intros k Hlt. rewrite Hk by lia. unfold getChange. cbn. by rewrite lookup_insert_ne by lia.
  - unfold changes_from in *. cbn [range_up fmap list_fmap]. rewrite <-N.add_1_r. f_equal; [|exact Hc].
    rewrite Hk by lia. unfold getChange. cbn. by rewrite lookup_insert_eq.
Qed.

(** The power table of a set without federated power. *)
Lemma power_table_run set l :
  (∀ a, federatedPower (info_of set a) = 0) → (∀ a, confirmedCollateral (info_of set a) < u256_size) →
  power_table set l = Done ((λ a, MkValidator (confirmedCollateral (info_of set a)) a (metadata (info_of set a))) <$> l).
Proof.
  intros Hf Hc. induction l as [|a l IH]; cbn [power_table fmap list_fmap]; [done|].
  rewrite Hf, u256_add_ok by (rewrite N.add_0_r; apply Hc). rewrite N.add_0_r.
  unfold mbind, outcome_bind. rewrite IH. done.
Qed.

(** ** Both sides *)

Section both.
Context `{ActorEnv} `{GatewayEnv}.
Hypothesis (Hdistinct : this_actor ≠ ipcGatewayAddr).

(** The gateway of the child follows the subnet actor: it has confirmed what the parent has. *)
Record follows (w : World) (s : GatewayActorStorage) : Prop := {
  fo_set : mirrors (validatorSet (actor w)) (tr_validators (validatorsTracker s));
  fo_start : startConfigurationNumber (tr_changes (validatorsTracker s)) = startConfigurationNumber (changeSet (actor w));
  fo_next : nextConfigurationNumber (tr_changes (validatorsTracker s)) = startConfigurationNumber (changeSet (actor w));
  fo_gateway : gw_inv s
}.

(** The changes of the parent up to a number, and what the child does with them. *)
Definition queued (n : N) (w : World) : list StakingChange :=
  let l := changeSet (actor w) in
  changes_from l (startConfigurationNumber l) (N.to_nat (n + 1 - startConfigurationNumber l)).
Definition relay (sender : Address) (n : N) (w : World) : stm GatewayActorStorage string N :=
  storeValidatorChanges sender (requests (startConfigurationNumber (changeSet (actor w))) (queued n w)) ;;
  applyFinalityChanges sender.

Lemma log_no_federated conf l tot : log_ok conf l tot → Forall (λ ch, change_op ch ≠ SetFederatedPower) l.
Proof.
  revert conf. induction l as [|c l IH]; intros conf Hl; [constructor|]. cbn in Hl. constructor.
  - by destruct (change_op c).
  - destruct (change_op c); [destruct Hl as (n & ? & ? & ?)|destruct Hl as (n & ? & ? & ? & ?)| |done]; eauto.
Qed.

Lemma queued_collateral n w :
  solvent 0 w → n < nextConfigurationNumber (changeSet (actor w)) →
  Forall (λ ch, change_op ch ≠ SetFederatedPower) (queued n w).
Proof.
  intros Hs Hn. pose proof (log_no_federated _ _ _ (sv_log _ _ Hs)) as Hf. unfold pend in Hf. cbv zeta in Hf.
  rewrite (changes_split Hdistinct _ _ (N.to_nat (n + 1 - startConfigurationNumber (changeSet (actor w))))) in Hf by lia.
  by apply Forall_app in Hf as [? _].
Qed.

Lemma confirmed_fits w a : solvent 0 w → is_Some (registered w) → confirmedCollateral (info_of (validatorSet (actor w)) a) < u256_size.
Proof.
  intros Hs Hreg. pose proof (solvent_covered Hdistinct w Hs Hreg) as Hc. pose proof (covered_fit Hdistinct _ _ Hc).
  pose proof (confirmed_le_total _ a (cv_set _ _ Hc)). lia.
Qed.

(** The changes reach the child's log, and confirming them leaves its validators in step. *)
Lemma tracker_follows n w w' t :
  mirrors (validatorSet (actor w)) (tr_validators t) → solvent 0 w →
  let l := changeSet (actor w) in
  startConfigurationNumber (tr_changes t) = startConfigurationNumber l →
  nextConfigurationNumber (tr_changes t) = startConfigurationNumber l →
  startConfigurationNumber l ≤ n < nextConfigurationNumber l → n + 1 < u64_size →
  confirmChange n w = Done (tt, w') →
  ∃ l' l'' v, batchStoreChange (requests (startConfigurationNumber l) (queued n w)) t =
      Done (tt, MkTracker (tr_validators t) l') ∧
    nextConfigurationNumber l' = n + 1 ∧ startConfigurationNumber l' = startConfigurationNumber l ∧
    tracker_confirmChange n (MkTracker (tr_validators t) l') = Done (tt, MkTracker v l'') ∧
    nextConfigurationNumber l'' = n + 1 ∧ startConfigurationNumber l'' = n + 1 ∧
    mirrors (validatorSet (actor w')) v.
Proof.
  intros Hm Hs l Hst Hnx Hn Hmax Hr.
  assert (N.of_nat (length (queued n w)) = n + 1 - startConfigurationNumber l) as Hlen.
  { unfold queued, changes_from. rewrite length_fmap, length_range_up. fold l. lia. }
  destruct (batch_run (queued n w) t) as (l' & Hb & Hbn & Hbs & _ & Hbc); [cbv zeta; lia|].
  rewrite Hnx in Hb, Hbn, Hbc. rewrite Hst in Hbs.
  destruct (lockstep_run mirrors _ _ _ (tr_validators t) tt _
    (lock_tracks _ (queued_collateral n w Hs (proj2 Hn))) Hm (confirm_tracks n w tt w' (proj1 Hn) Hr)) as (v & Hv & Hm').
  destruct (purged_numbers (startConfigurationNumber l') (length (queued n w)) l') as [Hpn _].
  exists l', (set_start (n + 1) (purged (startConfigurationNumber l') (length (queued n w)) l')), v.
  split_and!; [done|lia|done| |cbn; lia|done|done].
  replace (length (queued n w)) with (N.to_nat (n + 1 - startConfigurationNumber l')) by lia.
  apply tracker_confirm_run; cbn; [lia|done|]. rewrite Hbs.
  replace (N.to_nat _) with (length (queued n w)) by lia. by rewrite Hbc.
Qed.

(** C6: from a state in which the gateway of the child follows the subnet
    actor, the changes of the parent up to any number are confirmed on both sides: the subnet
    actor does not revert, the child stores and applies the changes that have been relayed, ends
    up following the subnet actor again, and has the active validators of the parent with
    their powers as its membership. *)
Theorem child_mirrors_parent w0 w n s sender :
  let l := changeSet (actor w) in
  initial w0 → rtc step w0 w → is_Some (registered w) →
  startConfigurationNumber l ≤ n < nextConfigurationNumber l → n + 1 < u64_size → capacity w →
  isSystemActor sender = true → follows w s →
  ∃ w' s', confirmChange n w = Done (tt, w') ∧ relay sender n w s = Done (n, s') ∧ follows w' s' ∧
    m_configurationNumber (currentMembership s') = n ∧
    (λ v, (v_addr v, v_weight v)) <$> m_validators (currentMembership s') =
      (λ a, (a, getPower (validatorSet (actor w')) a)) <$> listActiveValidators (validatorSet (actor w')).
Proof.
  intros l Hinit Hsteps Hreg Hn Hmax Hcap Hsys [Hm Hst Hnx Hgw].
  pose proof (reachable_solvent Hdistinct w0 w Hinit Hsteps) as Hs.
  destruct (confirm_ok Hdistinct n w Hs Hreg Hn Hmax) as (w' & Hr & Hs' & Hreg' & Hst' & _).
  { eapply (fits_fewer Hdistinct); [exact Hcap|]. unfold pend, changes_from. rewrite length_fmap, length_range_up. fold l. lia. }
  destruct (tracker_follows n w w' (validatorsTracker s) Hm Hs Hst Hnx Hn Hmax Hr)
    as (l' & l'' & v & Hb & Hbn & Hbs & Hc & Hcn & Hcs & Hm'). fold l in Hb, Hbs, Hst, Hnx.
  set (s1 := set_tracker (MkTracker (tr_validators (validatorsTracker s)) l') s).
  pose proof (power_table_run v (listActiveValidators v) (mi_federated _ _ Hm')) as Hp.
  specialize (Hp ltac:(intros a; rewrite <-(mi_confirmed _ _ Hm'); by apply confirmed_fits)).
  assert (n = nextConfigurationNumber (tr_changes (validatorsTracker s1)) - 1) as Hnum by (cbn; lia).
  destruct Hgw as [G1 G2 G3].
  assert (gw_inv s1) as Hg1 by (split; cbn; lia).
  pose proof (λ vs, apply_changes_run sender s1 (MkTracker v l'') vs Hsys Hg1) as Ha. cbv zeta in Ha. rewrite <-Hnum in Ha.
  specialize (Ha _ ltac:(cbn; lia) Hc Hp).
  exists w'. eexists. split; [done|]. split; [|split; [|split]].
  - unfold relay, storeValidatorChanges, systemActorOnly. rewrite Hsys. cbn [negb]. fold l.
    erewrite bind_run by by apply on_tracker_run. exact Ha.
  - split; cbn; [done|congruence|congruence|]. split; cbn; lia.
  - done.
  - cbn. rewrite <-list_fmap_compose. unfold listActiveValidators. rewrite (mi_active _ _ Hm').
    apply list_fmap_ext. intros i a _. cbn. rewrite (mirrors_power _ _ Hm'), collateral_power by apply Hm'. done.
Qed.
End both.

Lemma bind_fails {T A B} (m : stm T string A) (f : A → stm T string B) s e : m s = Fail e → (m ≫= f) s = Fail e.
Proof. intros Hm. unfold mbind, stm_bind, mbind, outcome_bind. by rewrite Hm. Qed.

(** Confirming stops at the first change that cannot be applied. *)
Lemma tracker_fails n t e :
  let l := tr_changes t in
  startConfigurationNumber l ≤ n < nextConfigurationNumber l →
  track_change (getChange (startConfigurationNumber l) l) (tr_validators t) = Fail e →
  tracker_confirmChange n t = Fail e.
Proof.
  intros l Hn Hf. unfold tracker_confirmChange. erewrite bind_run by done. erewrite bind_run by done. fold l.
  rewrite bool_decide_eq_false_2 by lia. rewrite bool_decide_eq_false_2 by lia. apply bind_fails.
  destruct (N.to_nat (n + 1 - startConfigurationNumber l)) eqn:Hk; [lia|]. cbn [confirm_loop].
  erewrite bind_run by done. apply bind_fails. unfold on_set, zoom. fold l. by rewrite Hf.
Qed.

Lemma unknown_withdrawal limit v amount :
  0 < amount < u256_size →
  track_change (MkChange Withdraw (encode_uint amount) v) (MkSet Collateral limit 0 ∅ pq_empty pq_empty) =
    Fail panic_arithmetic.
Proof.
  intros Ha. unfold track_change. cbn [change_op change_payload change_validator].
  erewrite bind_run by (apply lift_run, decode_encode_uint; lia).
  unfold confirmWithdraw. erewrite bind_run by done. apply bind_fails. change (confirmedCollateral _) with 0.
  unfold lift, u256_sub, checked. rewrite bool_decide_eq_false_2 by lia. done.
Qed.

(** C38: the tracker of the child does not know the genesis validators, so
    that a withdrawal of one of them, which the parent accepts, cannot be applied in the child: with any parameters
    that the constructor of the gateway accepts, and with that change as the first one, applying the changes of the parent reverts, whichever
    changes come after it, and so at every later attempt. *)
Theorem genesis_withdrawal_blocks `{GatewayEnv} sender period majority limit gs v amount cs :
  period ≠ 0 → 51 ≤ majority ≤ 100 → isSystemActor sender = true → 0 < amount < u256_size → N.of_nat (length cs) + 2 < u64_size →
  ∃ s0 s1, gateway_constructor period majority limit gs = Done s0 ∧
    storeValidatorChanges sender (requests 1 (MkChange Withdraw (encode_uint amount) v :: cs)) s0 = Done (tt, s1) ∧
    applyFinalityChanges sender s1 = Fail panic_arithmetic.
Proof.
  intros Hp Hm Hsys Ha Hlen. rewrite constructed by done. set (c := MkChange Withdraw (encode_uint amount) v).
  destruct (batch_run (c :: cs) (MkTracker (MkSet Collateral limit 0 ∅ pq_empty pq_empty) (MkLog 1 1 ∅)))
    as (l' & Hb & Hn & Hst & _ & Hc); [cbn -[N.of_nat]; cbn [length]; lia|].
  cbn [tr_validators tr_changes nextConfigurationNumber startConfigurationNumber length] in *.
  eexists _, _. split; [done|]. split.
  { unfold storeValidatorChanges, systemActorOnly. rewrite Hsys. cbn [negb]. by apply on_tracker_run. }
  unfold applyFinalityChanges, systemActorOnly. rewrite Hsys. cbn [negb].
  erewrite bind_run by done. cbn [validatorsTracker set_tracker tr_changes]. rewrite Hn.
  erewrite bind_run by (apply lift_run, u64_checked_sub_ok; lia). erewrite bind_run by done.
  erewrite bind_run by (apply lift_run, u64_checked_add_ok; lia). cbn [validatorsTracker set_tracker tr_changes].
  rewrite bool_decide_eq_false_2 by lia. apply bind_fails. unfold on_tracker, zoom. cbn [validatorsTracker set_tracker].
  rewrite (tracker_fails _ _ panic_arithmetic); [done|cbn [tr_changes]; lia|]. cbn [tr_validators tr_changes].
  rewrite Hst. replace (getChange 1 l') with c by (by injection Hc). by apply unknown_withdrawal.
Qed.

(** ** Examples *)

Module SampleMirror.
Import SampleSubnet SampleGateway.

(** A gateway that has been told of the validators of the genesis. *)
Definition told_gateway (w : World) : GatewayActorStorage :=
  MkGateway 0 ∅ (MkTracker (validatorSet (actor w)) (MkLog 1 1 ∅)) (MkMembership [] 0) no_membership.

Lemma told_follows : follows world3 (told_gateway world3).
Proof.
  split; [|by vm_compute|by vm_compute|split; by vm_compute].
  assert (permissionMode (validatorSet (actor world3)) ≠ Federated) by by vm_compute.
  split; try done. intros a. unfold info_of.
  assert (map_Forall (λ _ i, federatedPower i = 0) (validators (validatorSet (actor world3)))) as Hz
    by (apply (bool_decide_unpack _); by vm_compute).
  cbn [tr_validators told_gateway validatorsTracker].
  destruct (validators (validatorSet (actor world3)) !! a) as [i|] eqn:Hi; [by apply (Hz a)|done].
Qed.

Lemma child_mirrors_parent_witness :
  ∃ w' s', confirmChange 3 world3 = Done (tt, w') ∧ relay 1 3 world3 (told_gateway world3) = Done (3, s') ∧ follows w' s' ∧
    m_configurationNumber (currentMembership s') = 3 ∧
    (λ v, (v_addr v, v_weight v)) <$> m_validators (currentMembership s') =
      (λ a, (a, getPower (validatorSet (actor w')) a)) <$> listActiveValidators (validatorSet (actor w')).
Proof.
  apply (child_mirrors_parent sample_distinct world0 world3 3 (told_gateway world3) 1 world0_initial sample_steps);
    [by eexists; vm_compute|by vm_compute|by vm_compute|apply has_capacity_spec; by vm_compute|by vm_compute|exact told_follows].
Defined.

(** The first validator leaves, after the subnet has been created with it. *)
Definition leaving_world : World := run (Leave 7) world1.

Lemma genesis_withdrawal_blocks_witness :
  queued 1 leaving_world = [MkChange Withdraw (encode_uint 20) 7] ∧ is_done (confirmChange 1 leaving_world) = true ∧
  ∃ s0 s1, gateway_constructor 10 67 2 [MkValidator 20 7 (key_of Byte.x07)] = Done s0 ∧
    storeValidatorChanges 1 (requests 1 [MkChange Withdraw (encode_uint 20) 7]) s0 = Done (tt, s1) ∧
    applyFinalityChanges 1 s1 = Fail panic_arithmetic.
Proof.
  split; [by vm_compute|]. split; [by vm_compute|].
  apply (genesis_withdrawal_blocks 1 10 67 2 [MkValidator 20 7 (key_of Byte.x07)] 7 20 []); [done|done|by vm_compute|done|done].
Defined.
End SampleMirror.
