(* ===== verification/Bridge.v ===== *)
(** * The node on top of the contracts

    The theorems about the node are proved against laws of the gateway ([GatewayLaws]), and the
    contracts are modelled on their own.  Here the two are put together: a machine whose gateway
    is the Solidity code ([contract_machine]), called with what the conversions of [EvmTypes] make of the
    data of the node, satisfies the laws, so that what the parent's contracts have emitted reaches the
    child's contracts through the node. *)

From Stdlib Require Import Strings.Byte.
From S2P Require Import Prelude OrdMap Weights Cache Voting Finality Node Fetch Syncer Pool Merkle Ledger Chain.
From S2P Require Import PQ ValidatorSet Abi Staking GatewayFinality SolIds Messages MessageFunds MessageDelivery Mirror EvmTypes.

(** ** Messages from the parent never revert *)

(** A call that does not go wrong in any other way than by a revert. *)
Definition plain {A} (o : outcome string A) : Prop :=
  match o with Done _ | Fail _ => True | _ => False end.
Definition plain_call {S A} (tx : stm S string A) : Prop := ∀ s, plain (tx s).

Lemma plain_ret {S A} (a : A) : plain_call (S:=S) (mret a).
Proof. done. Qed.
Lemma plain_abort {S A} e : plain_call (S:=S) (A:=A) (abort e).
Proof. done. Qed.
Lemma plain_reads {S A} (f : S → A) : plain_call (reads f).
Proof. done. Qed.
Lemma plain_modify {S} (f : S → S) : plain_call (modify f).
Proof. done. Qed.
Lemma plain_lift {S A} (o : outcome string A) : plain o → plain_call (S:=S) (lift o).
Proof. intros Ho s. unfold lift. by destruct o. Qed.
Lemma plain_bind {S A B} (m : stm S string A) (f : A → stm S string B) :
  plain_call m → (∀ a, plain_call (f a)) → plain_call (m ≫= f).
Proof.
  intros Hm Hf s. specialize (Hm s). unfold mbind, stm_bind, mbind, outcome_bind.
  destruct (m s) as [[a s']| | | |]; try done. apply Hf.
Qed.
Create HintDb plain.
#[export] Hint Resolve plain_ret plain_abort plain_reads plain_modify plain_lift plain_bind : plain.
Ltac solve_plain :=
  repeat match goal with
  | |- plain_call (_ ≫= _) => apply plain_bind; [|intros ?]
  | |- plain_call (if ?b then _ else _) => destruct b
  | |- plain_call (match ?x with _ => _ end) => destruct x
  | |- plain_call _ => solve [eauto with plain]
  end.

Section messages.
Context `{MessageEnv}.

Lemma plain_decode p : plain (decode_delegated p).
Proof. unfold decode_delegated. cbv zeta. by repeat case_bool_decide. Qed.
Lemma plain_extract a : plain (extractEvmAddress a).
Proof.
  unfold extractEvmAddress. destruct (negb _); [done|]. pose proof (plain_decode (payload a)) as Hp.
  destruct (decode_delegated _) as [d| | | |]; try done. cbn. by repeat destruct (negb _).
Qed.
Lemma plain_execute m s : plain_call (execute m s).
Proof.
  pose proof (plain_extract (rawAddress (to m))).
  unfold execute, transferFunds, performCall, functionCallWithERC20Value, call_value, pay. solve_plain.
Qed.

Definition only_balances (g g' : Gateway) : Prop := ∃ b, g' = set_balances b g.
#[export] Instance only_balances_po : PreOrder only_balances.
Proof.
  split; [by intros []; eexists|]. intros g1 g2 g3 [b1 ->] [b2 ->]. by exists b2.
Qed.
Lemma execute_balances m s : keeps only_balances (execute m s).
Proof.
  unfold execute, transferFunds, performCall, functionCallWithERC20Value, call_value, pay. solve_keeps.
  all: apply keeps_modify; intros g; by eexists.
Qed.

Lemma executeCross_total m s g : ∃ r b, executeCrossMsg m s g = Done (r, set_balances b g).
Proof.
  unfold executeCrossMsg. pose proof (plain_execute m s g) as Hp. pose proof (execute_balances m s g) as Hk.
  destruct (execute m s g) as [[r g']|e| | |]; try done.
  - destruct (Hk _ _ eq_refl) as [b ->]. eauto.
  - exists (false, revert_data e), (balances g). by destruct g.
Qed.

(** What applying a message of the parent leaves as it is, and how the nonces move. *)
Definition applied_one (g g' : Gateway) : Prop :=
  networkName g' = networkName g ∧ bottomUpCheckPeriod g' = bottomUpCheckPeriod g ∧
  appliedTopDownNonce g' = appliedTopDownNonce g + 1 ∧ bottomUpNonce g' ≤ bottomUpNonce g + 1.

Context `{!IdHashLaws}.

(** Every message from the parent to this network with the expected nonce is applied, whatever its
    execution comes to: a revert of it is answered, and a receipt is not. *)
Lemma applyMsg_topdown block pn a e m g :
  networkName g = createSubnetId pn a → isEmptyId pn = false →
  subnetId (to m) = createSubnetId pn a → subnetId (from m) = pn → Messages.nonce m = appliedTopDownNonce g →
  getNextEpoch block (bottomUpCheckPeriod g) = Done e → bottomUpNonce g + 1 < u64_size →
  appliedTopDownNonce g + 1 < u64_size →
  ∃ g', applyMsg block pn m g = Done (tt, g') ∧ applied_one g g'.
Proof.
  intros Hname Hpn Ht Hf Hno He Hb Hn.
  set (g1 := set_nonces (bottomUpNonce g) (appliedTopDownNonce g + 1) g).
  destruct (executeCross_total m native g1) as ([success ret] & b & Hx). set (g2 := set_balances b g1) in *.
  destruct (commitCross_up block (createResultMsg m (if success then Ok else ActorErr) ret) pn a e g2)
    as (burn & m' & g' & Hc & Hs1 & Hs2 & Hs3 & Hs4 & Hs5); try done.
  assert (admit_msg block pn m g = Done (Some native, g1)) as Hadm.
  { unfold admit_msg. erewrite bind_run by done. rewrite Hname.
    assert (applyType m (createSubnetId pn a) = TopDown) as ->.
    { unfold applyType. rewrite Ht, Hf, commonParent_refl, (proj2 (commonParent_child pn a)), equals_spec.
      by rewrite bool_decide_eq_false_2 by apply createSubnetId_ne. }
    erewrite bind_run by done. rewrite bool_decide_eq_true_2 by done. cbn [negb]. rewrite u64_add_run by done.
    erewrite bind_run by done. by erewrite bind_run by done. }
  unfold applyMsg. rewrite Ht, createSubnetId_not_empty. erewrite bind_run by exact Hadm.
  cbv iota. erewrite bind_run by done. change (networkName g1) with (networkName g).
  rewrite Hname, equals_spec, bool_decide_eq_true_2 by done. cbn [negb]. erewrite bind_run by exact Hx.
  cbv iota beta. unfold sendReceipt.
  assert (applied_one g g2) as Hone by (split_and!; try done; cbn; lia).
  destruct (isEmpty m); [by eexists|]. case_bool_decide; [by eexists|].
  erewrite bind_run by exact Hc. exists g'. split; [done|].
  unfold applied_one. rewrite Hs1, Hs2, Hs4, Hs5. split_and!; [done|done|done|]. cbn. lia.
Qed.

(** The messages of a list come from the parent and are numbered from [n] on. *)
Definition from_parent (pn : SolIds.SubnetID) (a n : N) (ms : list Messages.IpcEnvelope) : Prop :=
  ∀ (k : nat) m, ms !! k = Some m →
    Messages.nonce m = n + N.of_nat k ∧ subnetId (to m) = createSubnetId pn a ∧ subnetId (from m) = pn.

Lemma applyMessages_topdown block pn a e ms g :
  networkName g = createSubnetId pn a → isEmptyId pn = false → from_parent pn a (appliedTopDownNonce g) ms →
  getNextEpoch block (bottomUpCheckPeriod g) = Done e → bottomUpNonce g + N.of_nat (length ms) < u64_size →
  appliedTopDownNonce g + N.of_nat (length ms) < u64_size →
  ∃ g', applyMessages block pn ms g = Done (tt, g') ∧
    networkName g' = networkName g ∧ bottomUpCheckPeriod g' = bottomUpCheckPeriod g ∧
    appliedTopDownNonce g' = appliedTopDownNonce g + N.of_nat (length ms) ∧
    bottomUpNonce g' ≤ bottomUpNonce g + N.of_nat (length ms).
Proof.
  revert g. induction ms as [|m ms IH]; intros g Hname Hpn Hall He Hb Hn; cbn [applyMessages length] in *.
  { exists g. split_and!; [done..|lia|lia]. }
  destruct (Hall 0%nat m eq_refl) as (Hno & Ht & Hf).
  destruct (applyMsg_topdown block pn a e m g) as (g1 & Hr & H1 & H2 & H3 & H4); try done; [by rewrite Hno, N.add_0_r|lia|lia|].
  destruct (IH g1) as (g' & Hr' & E1 & E2 & E3 & E4); try congruence; [|lia|lia|].
  { intros k m' Hk. destruct (Hall (S k) m' Hk) as (? & ? & ?). split_and!; [lia|done|done]. }
  exists g'. split_and!; [by erewrite bind_run by exact Hr|congruence|congruence|lia|lia].
Qed.
End messages.

(** ** A machine with the contracts *)

(** The node has changes and messages of its own types, which it makes from those of the contracts when it
    reads them, and turns into those of the contracts when it calls them. *)
#[export] Instance contract_data `{FvmAddresses} : ParentData := {|
  BlockHash := list byte;
  ValidatorKey := N;
  Object := N;
  Finality.StakingChangeRequest := AgentChangeRequest;
  Finality.configuration_number := agent_number;
  Finality.IpcEnvelope := Cross.IpcEnvelope;
  Finality.nonce := Cross.nonce
|}.

(** The storage of the gateway, in the two parts that the models of its facets have, and what it
    has been given so far, which the contracts do not keep. *)
Record Contracts := MkContracts {
  finality_part : GatewayActorStorage;
  message_part : Gateway;
  given_changes : list Staking.StakingChangeRequest;
  given_messages : list Messages.IpcEnvelope
}.

Section machine.
Context `{FvmAddresses, GatewayEnv} `{C : MessageEnv, ChainIds}.
(** The rest of the ledger, and what it does when a message is executed. *)
Context (base : Machine (H:=contract_data)).
Context (execute_any : FvmMessage → ApplyKind → N → stm (FvmState * Contracts) string ApplyRet).
Context (receipt : FvmApplyRet).

Abbreviation State := (@FvmState contract_data _ base * Contracts)%type.

Definition on_base {A} (tx : stm (@FvmState contract_data _ base) string A) : stm State string A :=
  zoom fst (λ s st, (s, snd st)) tx.
Definition on_finality {A} (tx : stm GatewayActorStorage string A) : stm State string A :=
  zoom (λ st, finality_part (snd st))
    (λ p st, (fst st, MkContracts p (message_part (snd st)) (given_changes (snd st)) (given_messages (snd st)))) tx.
Definition on_messages {A} (tx : stm Gateway string A) : stm State string A :=
  zoom (λ st, message_part (snd st))
    (λ p st, (fst st, MkContracts (finality_part (snd st)) p (given_changes (snd st)) (given_messages (snd st)))) tx.
Definition note_changes (l : list Staking.StakingChangeRequest) : stm State string unit :=
  modify (λ st, (fst st, MkContracts (finality_part (snd st)) (message_part (snd st))
    (given_changes (snd st) ++ l) (given_messages (snd st)))).
Definition note_messages (l : list Messages.IpcEnvelope) : stm State string unit :=
  modify (λ st, (fst st, MkContracts (finality_part (snd st)) (message_part (snd st))
    (given_changes (snd st)) (given_messages (snd st) ++ l))).

Definition to_evm (f : IPCParentFinality) : GatewayFinality.ParentFinality :=
  GatewayFinality.MkFinality (height f) (block_hash f).
Definition of_evm (f : GatewayFinality.ParentFinality) : IPCParentFinality :=
  Finality.MkFinality (GatewayFinality.pf_height f) (GatewayFinality.pf_blockHash f).

Definition block_of (st : State) : N := Z.to_N (context_epoch (fst st)).

Definition contract_machine : Machine := {|
  FvmState := State;
  decode_object := @decode_object _ _ base;
  cid_to_bytes := @cid_to_bytes _ _ base;
  ExitCode_OK := @ExitCode_OK _ _ base;
  SYS_SENDER_INVALID := @SYS_SENDER_INVALID _ _ base;
  SYS_SENDER_STATE_INVALID := @SYS_SENDER_STATE_INVALID _ _ base;
  SYS_ASSERTION_FAILED := @SYS_ASSERTION_FAILED _ _ base;
  SYSTEM_ACTOR_ADDR := @SYSTEM_ACTOR_ADDR _ _ base;
  GATEWAY_ACTOR_ADDR := @GATEWAY_ACTOR_ADDR _ _ base;
  METHOD_INVOKE_CONTRACT := @METHOD_INVOKE_CONTRACT _ _ base;
  GetObject := @GetObject _ _ base;
  ResolveObject := @ResolveObject _ _ base;
  BLOCK_GAS_LIMIT := @BLOCK_GAS_LIMIT _ _ base;
  raw_bytes_default := @raw_bytes_default _ _ base;
  serialize_get_params := @serialize_get_params _ _ base;
  serialize_resolve_params := @serialize_resolve_params _ _ base;
  cid_of_relayed := @cid_of_relayed _ _ base;
  block_hash_len h := N.of_nat (length h);
  envelope_value m := Cross.amount m;
  EvmChange := Staking.StakingChangeRequest;
  change_to_evm := request_into_evm;
  EvmEnvelope := Messages.IpcEnvelope;
  envelope_to_evm := envelope_into_evm;
  message_check := @message_check _ _ base;
  message_length := @message_length _ _ base;
  context_epoch st := context_epoch (fst st);
  context_timestamp st := context_timestamp (fst st);
  context_chain_id st := context_chain_id (fst st);
  tree_lookup_id st := tree_lookup_id (fst st);
  tree_get_actor st := tree_get_actor (fst st);
  tree_set_actor i a st := (tree_set_actor i a (fst st), snd st);
  executor_execute := execute_any;
  executor_flush := on_base executor_flush;
  gateway_commit_parent_finality f :=
    r ← on_finality (commitParentFinality SYSTEM_ACTOR (to_evm f));
    mret (fst r, of_evm (snd r));
  gateway_store_validator_changes l :=
    on_finality (storeValidatorChanges SYSTEM_ACTOR l) ;; note_changes l;
  gateway_apply_cross_messages l :=
    block ← reads block_of;
    on_messages (applyCrossMessages block SYSTEM_ACTOR l) ;; note_messages l ;; mret receipt;
  credit_gateway_actor v := on_messages (MessageFunds.mint_to_gateway (Z.to_N v))
|}.
End machine.

(** ** The changes in the tracker *)

(** The tracker has been given these changes: those that have been confirmed made its validators
    what they are, and the others are in its log. *)
Record tracked (limit : N) (t : ParentValidatorsTracker) (cs : list StakingChange) : Prop := {
  td_start : 1 ≤ startConfigurationNumber (tr_changes t) ≤ nextConfigurationNumber (tr_changes t);
  td_next : nextConfigurationNumber (tr_changes t) = 1 + N.of_nat (length cs);
  td_pending : changes_from (tr_changes t) (startConfigurationNumber (tr_changes t))
      (N.to_nat (nextConfigurationNumber (tr_changes t) - startConfigurationNumber (tr_changes t))) =
    drop (N.to_nat (startConfigurationNumber (tr_changes t) - 1)) cs;
  td_confirmed : track_changes (take (N.to_nat (startConfigurationNumber (tr_changes t) - 1)) cs)
      (MkSet Collateral limit 0 ∅ pq_empty pq_empty) = Done (tt, tr_validators t)
}.

Lemma requests_app i cs1 cs2 : requests i (cs1 ++ cs2) = requests i cs1 ++ requests (i + N.of_nat (length cs1)) cs2.
Proof.
  revert i. induction cs1 as [|c cs1 IH]; intros i; cbn [requests app length]; [by rewrite N.add_0_r|].
  rewrite IH. do 3 f_equal. lia.
Qed.
Lemma requests_length i cs : length (requests i cs) = length cs.
Proof. revert i. induction cs as [|c cs IH]; intros i; cbn; [done|]. by rewrite IH. Qed.

(** Changes that are numbered from the first number on. *)
Definition numbered (rs : list Staking.StakingChangeRequest) : Prop :=
  rs = requests 1 (request_change <$> rs) ∧ 1 + N.of_nat (length rs) < u64_size.

Lemma numbered_rest rs1 rs2 :
  numbered (rs1 ++ rs2) → rs2 = requests (1 + N.of_nat (length rs1)) (request_change <$> rs2).
Proof.
  intros [Heq _]. rewrite fmap_app, requests_app, length_fmap in Heq.
  apply app_inj_1 in Heq as [_ ?]; [done|]. by rewrite requests_length, length_fmap.
Qed.

Lemma track_more limit t cs l :
  tracked limit t cs → nextConfigurationNumber (tr_changes t) + N.of_nat (length l) < u64_size →
  ∃ t', batchStoreChange (requests (nextConfigurationNumber (tr_changes t)) l) t = Done (tt, t') ∧
    tracked limit t' (cs ++ l).
Proof.
  intros [T1 T2 T3 T4] Hl. destruct (batch_run l t Hl) as (l' & Hr & Hn & Hs & Hk & Hc).
  eexists. split; [exact Hr|].
  assert (changes_from l' (startConfigurationNumber (tr_changes t))
      (N.to_nat (nextConfigurationNumber (tr_changes t) - startConfigurationNumber (tr_changes t))) =
    drop (N.to_nat (startConfigurationNumber (tr_changes t) - 1)) cs) as Hold.
  { rewrite <-T3. unfold changes_from. apply list_fmap_ext. intros i k Hi. apply Hk.
    apply list_elem_of_lookup_2, elem_of_range_up in Hi. lia. }
  split; cbn [tr_changes tr_validators].
  - lia.
  - rewrite length_app. lia.
  - rewrite Hs, Hn, drop_app_le by lia. rewrite <-Hold.
    replace (N.to_nat _) with (N.to_nat (nextConfigurationNumber (tr_changes t) - startConfigurationNumber (tr_changes t))
      + length l)%nat by lia.
    unfold changes_from in *. rewrite range_up_app, fmap_app. f_equal. etrans; [|exact Hc]. do 2 f_equal. lia.
  - rewrite Hs, take_app_le by lia. exact T4.
Qed.

(** ** The laws *)

Section laws.
Context `{FvmAddresses, GatewayEnv, MessageEnv, !IdHashLaws, ChainIds}.
Context `{!ParentQueryProxy (H:=contract_data), !Scheduler}.
Context (base : Machine (H:=contract_data)).
Context (execute_any : FvmMessage → ApplyKind → N → stm (FvmState * Contracts) string ApplyRet).
Context (receipt : FvmApplyRet).
#[local] Existing Instance contract_machine | 0.
Abbreviation M := (contract_machine base execute_any receipt).

(** The parent and the subnet actor of this network there, the limit on active validators, and the
    number of messages that there can be. *)
Variables (pn : SolIds.SubnetID) (a limit most : N).
Hypothesis (Hsys : isSystemActor SYSTEM_ACTOR = true).
Hypothesis (Hpn : isEmptyId pn = false).
Hypothesis (Hmost : most < u64_size).

Definition committed_of (st : FvmState (Machine := M)) : option IPCParentFinality :=
  let p := finality_part (snd st) in
  if bool_decide (latestParentHeight p = 0) then None else Some (of_evm (getLatestParentFinality p)).

(** What holds of the contracts at all times: the books of the finalities and of the changes are in
    order, and the nonces are those of the messages that have been applied, with room for all that
    can still come. *)
Record contracts_sound (st : FvmState (Machine := M)) : Prop := {
  cs_finality : fin_inv (finality_part (snd st));
  cs_tracker : tracked limit (validatorsTracker (finality_part (snd st))) (request_change <$> given_changes (snd st));
  cs_name : networkName (message_part (snd st)) = createSubnetId pn a;
  cs_epoch : is_done (getNextEpoch (block_of base st) (bottomUpCheckPeriod (message_part (snd st)))) = true;
  cs_nonce : appliedTopDownNonce (message_part (snd st)) = N.of_nat (length (given_messages (snd st)));
  cs_room : bottomUpNonce (message_part (snd st)) + most < u64_size + appliedTopDownNonce (message_part (snd st))
}.

Definition messages_taken (ms : list Messages.IpcEnvelope) : Prop :=
  N.of_nat (length ms) ≤ most ∧ from_parent pn a 0 ms.

Lemma committed_height st :
  contracts_sound st → from_option height 0 (committed_of st) = latestParentHeight (finality_part (snd st)).
Proof.
  intros Hs. unfold committed_of. case_bool_decide as Hz; [done|]. cbn. by apply fin_inv_latest, Hs.
Qed.

Definition same_tracker (p p' : GatewayActorStorage) : Prop := validatorsTracker p' = validatorsTracker p.
Lemma commit_tracker sender f : keeps same_tracker (commitParentFinality sender f).
Proof.
  intros p x p' Hr. unfold commitParentFinality, systemActorOnly, lib_commitParentFinality in Hr.
  destruct (negb _); [done|]. inv_done. case_bool_decide; by inv_done.
Qed.

Lemma contracts_commit f st :
  contracts_sound st → latestParentHeight (finality_part (snd st)) < height f →
  ∃ prev st', gateway_commit_parent_finality (Machine := M) f st =
      Done ((bool_decide (is_Some (committed_of st)), prev), st') ∧
    (∀ g, committed_of st = Some g → prev = g) ∧ contracts_sound st' ∧ committed_of st' = Some f ∧
    given_messages (snd st') = given_messages (snd st) ∧ given_changes (snd st') = given_changes (snd st) ∧
    message_part (snd st') = message_part (snd st) ∧ fst st' = fst st.
Proof.
  intros [S1 S2 S3 S4 S5 S6] Hlt.
  pose proof (commit_finality_spec SYSTEM_ACTOR (to_evm f) (finality_part (snd st)) Hsys S1) as Hc.
  cbn [to_evm GatewayFinality.pf_height] in Hc. rewrite bool_decide_eq_false_2 in Hc by lia.
  destruct Hc as (p' & Hr & Hinv & Hl & _). pose proof (commit_tracker _ _ _ _ _ Hr) as Ht.
  pose proof (fin_inv_latest p' Hinv) as Hh. rewrite Hl in Hh. cbn in Hh.
  eexists _, (fst st, MkContracts p' (message_part (snd st)) (given_changes (snd st)) (given_messages (snd st))).
  split_and!; try done.
  - cbn [gateway_commit_parent_finality contract_machine].
    erewrite bind_run by (unfold on_finality, zoom; by rewrite Hr). unfold mret, stm_ret. do 3 f_equal.
    unfold committed_of. cbn. case_bool_decide; [by rewrite bool_decide_eq_false_2 by apply is_Some_None|].
    by rewrite bool_decide_eq_true_2.
  - intros g Hg. unfold committed_of in Hg. cbn. case_bool_decide; simplify_eq. done.
  - split; cbn; try done. by rewrite Ht.
  - unfold committed_of. cbn. rewrite bool_decide_eq_false_2 by lia. rewrite Hl. by destruct f.
Qed.

Lemma contracts_store l st :
  contracts_sound st → numbered (given_changes (snd st) ++ l) →
  ∃ st', gateway_store_validator_changes (Machine := M) l st = Done (tt, st') ∧ contracts_sound st' ∧
    committed_of st' = committed_of st ∧ given_messages (snd st') = given_messages (snd st) ∧
    given_changes (snd st') = given_changes (snd st) ++ l ∧ message_part (snd st') = message_part (snd st) ∧ fst st' = fst st.
Proof.
  intros [S1 S2 S3 S4 S5 S6] Hl. pose proof (numbered_rest _ _ Hl) as Hreq. destruct Hl as [_ Hlen].
  destruct (track_more limit _ _ (request_change <$> l) S2) as (t' & Hr & Ht').
  { rewrite (td_next _ _ _ S2), !length_fmap. rewrite length_app in Hlen. lia. }
  rewrite (td_next _ _ _ S2), length_fmap, <-Hreq in Hr.
  eexists (fst st, MkContracts (set_tracker t' (finality_part (snd st))) (message_part (snd st))
    (given_changes (snd st) ++ l) (given_messages (snd st))).
  split_and!; try done.
  - cbn [gateway_store_validator_changes contract_machine].
    rewrite (bind_run _ _ st tt (fst st, MkContracts (set_tracker t' (finality_part (snd st))) (message_part (snd st))
      (given_changes (snd st)) (given_messages (snd st)))); [done|].
    unfold on_finality, zoom, storeValidatorChanges, systemActorOnly. rewrite Hsys. cbn [negb].
    by erewrite on_tracker_run by exact Hr.
  - split; try done. cbn. by rewrite fmap_app.
Qed.

(** The value that is minted is the value that the contracts hand out. *)
Lemma tokens_values l :
  Forall (λ m, envelope_into_evm m = Done (converted no_envelope envelope_into_evm m)) l →
  @tokens_to_mint _ _ M l = Z.of_N (values (converted no_envelope envelope_into_evm <$> l)).
Proof using.
  clear Hsys Hpn Hmost. intros Hall. unfold tokens_to_mint. set (conv := converted no_envelope envelope_into_evm) in *.
  assert (∀ z, fold_left (λ t m, (t + envelope_value (Machine := M) m)%Z) l z = (z + Z.of_N (values (conv <$> l)))%Z) as Hf; [|apply Hf].
  induction Hall as [|m l Hm _ IH]; intros z; cbn [fold_left].
  - unfold values. cbn. lia.
  - rewrite IH, fmap_cons, values_cons. cbn [envelope_value contract_machine]. rewrite (envelope_amount m _ Hm). lia.
Qed.

(** The gateway after a value has been minted. *)
Definition minted (v : Z) (g : Gateway) : Gateway :=
  if bool_decide (v = 0%Z) then g
  else set_balances (<[this_gateway := balance g this_gateway + Z.to_N v]> (balances g)) g.

Lemma from_parent_rest n ms1 ms2 : from_parent pn a n (ms1 ++ ms2) → from_parent pn a (n + N.of_nat (length ms1)) ms2.
Proof.
  intros Hall k m Hk. destruct (Hall (length ms1 + k)%nat m) as (? & ? & ?); [|split_and!; [lia|done|done]].
  rewrite lookup_app_r by lia. by replace (length ms1 + k - length ms1)%nat with k by lia.
Qed.

Lemma contracts_apply l v st :
  contracts_sound st → messages_taken (given_messages (snd st) ++ l) →
  ∃ st1 st', (if bool_decide (v = 0%Z) then st1 = st else credit_gateway_actor (Machine := M) v st = Done (tt, st1)) ∧
    gateway_apply_cross_messages (Machine := M) l st1 = Done (receipt, st') ∧ contracts_sound st' ∧
    committed_of st' = committed_of st ∧ given_messages (snd st') = given_messages (snd st) ++ l ∧
    given_changes (snd st') = given_changes (snd st) ∧ finality_part (snd st') = finality_part (snd st) ∧
    applyMessages (block_of base st) pn l (minted v (message_part (snd st))) = Done (tt, message_part (snd st')).
Proof.
  intros [S1 S2 S3 S4 S5 S6] [Hlen Hall]. rewrite length_app in Hlen.
  set (g1 := minted v (message_part (snd st))).
  assert (networkName g1 = networkName (message_part (snd st)) ∧
    bottomUpCheckPeriod g1 = bottomUpCheckPeriod (message_part (snd st)) ∧
    appliedTopDownNonce g1 = appliedTopDownNonce (message_part (snd st)) ∧
    bottomUpNonce g1 = bottomUpNonce (message_part (snd st))) as (G1 & G2 & G3 & G4).
  { unfold g1, minted. by case_bool_decide. }
  destruct (getNextEpoch (block_of base st) (bottomUpCheckPeriod (message_part (snd st)))) as [e| | | |] eqn:He; try done.
  destruct (applyMessages_topdown (block_of base st) pn a e l g1) as (g' & Hr & E1 & E2 & E3 & E4); [congruence|done| |congruence|lia|lia|].
  { rewrite G3, S5. apply (from_parent_rest 0). exact Hall. }
  exists (fst st, MkContracts (finality_part (snd st)) g1 (given_changes (snd st)) (given_messages (snd st))).
  exists (fst st, MkContracts (finality_part (snd st)) g' (given_changes (snd st)) (given_messages (snd st) ++ l)).
  split_and!; try done.
  - unfold g1, minted. case_bool_decide; by destruct st as [? []].
  - cbn [gateway_apply_cross_messages contract_machine]. erewrite bind_run by done.
    rewrite (bind_run _ _ _ tt (fst st, MkContracts (finality_part (snd st)) g' (given_changes (snd st)) (given_messages (snd st)))).
    { by erewrite bind_run by done. }
    unfold on_messages, zoom, applyCrossMessages. cbn [message_part snd fst]. rewrite bool_decide_eq_true_2 by done. cbn [negb].
    change (block_of base (fst st, _)) with (block_of base st).
    erewrite bind_run by done. rewrite G1, S3, parent_createSubnetId. erewrite bind_run by done. by rewrite Hr.
  - split; cbn; [done|done|congruence| |rewrite length_app; lia|lia].
    change (block_of base (fst st, _)) with (block_of base st). by rewrite E2, G2, He.
Qed.

#[export, refine] Instance contract_laws : @GatewayLaws _ _ _ _ M := {|
  committed := committed_of;
  Chain.applied st := given_messages (snd st);
  stored st := given_changes (snd st);
  evm_envelope := converted no_envelope envelope_into_evm;
  evm_change := converted no_request request_into_evm;
  gateway_sound := contracts_sound;
  takes_changes := numbered;
  takes_messages := messages_taken
|}.
Proof.
  - intros f st Hs Hlt. rewrite committed_height in Hlt by done.
    destruct (contracts_commit f st Hs Hlt) as (prev & st' & ? & ? & ? & ? & ? & ? & _). by exists prev, st'.
  - intros f st Hs Hle. rewrite committed_height in Hle by done.
    pose proof (commit_finality_spec SYSTEM_ACTOR (to_evm f) (finality_part (snd st)) Hsys (cs_finality _ Hs)) as Hc.
    cbn [to_evm GatewayFinality.pf_height] in Hc. rewrite bool_decide_eq_true_2 in Hc by done.
    eexists. cbn [gateway_commit_parent_finality contract_machine]. apply bind_fails. unfold on_finality, zoom. by rewrite Hc.
  - intros l st Hs Hl. destruct (contracts_store l st Hs Hl) as (st' & ? & ? & ? & ? & ? & _). by exists st'.
  - intros l st Hs Hl. destruct (contracts_apply _ (@tokens_to_mint _ _ M l) st Hs Hl) as (st1 & st' & Hm & Hr & ? & ? & ? & ? & _). by exists st1, receipt, st'.
Defined.
End laws.

(** ** From the parent's contracts to the child's *)

Section across.
Context `{FA : FvmAddresses, !FvmAddressLaws, Profile, GE : GatewayEnv} (P C : MessageEnv) `{HC : !@IdHashLaws (@env_hash_id C), ChainIds}.
Context `{!ParentQueryProxy (H:=contract_data), !Scheduler}.
Context (base : Machine (H:=contract_data)).
Context (execute_any : FvmMessage → ApplyKind → N → stm (FvmState * Contracts) string ApplyRet).
Context (receipt : FvmApplyRet).
Abbreviation M := (contract_machine (C := C) base execute_any receipt).
#[local] Instance across_machine : Machine (H:=contract_data) := M.
Context `{!@Inner _ _ M, !Resolvers}.

Variables (pn : SolIds.SubnetID) (a limit most : N).
Hypothesis (Hsys : isSystemActor (@SYSTEM_ACTOR C) = true).
Hypothesis (Hpn : isEmptyId pn = false).
Hypothesis (Hmost : most < u64_size).
#[local] Instance across_laws : GatewayLaws := @contract_laws FA GE C HC _ _ _ base execute_any receipt pn a limit most Hsys Hpn Hmost.

(** The parent: its gateway before each height, and the calls of [fund] for this network in the
    block of that height, which leave messages in the log; the changes of the validators that it has asked for. *)
Variables (gp : N → Gateway) (funds : N → list (N * N * N)).
Variables (requested : N → list Staking.StakingChangeRequest) (logged : N → list Messages.IpcEnvelope) (g : N).
Abbreviation child_id := (createSubnetId pn a).
Abbreviation parent_nonce h := (topDownNonce (subnet_at (gp h) (@hash_id (@env_hash_id P) child_id))).
Hypothesis (gp_name : ∀ h, networkName (gp h) = pn).
Hypothesis (gp_funds : ∀ h, @fund_all P child_id (funds h) (gp h) = Done (tt, gp (h + 1))).
Hypothesis (gp_log : ∀ h, topdown_log (gp (h + 1)) = topdown_log (gp h) ++ ((a,.) <$> logged h)).
Hypothesis (gp_new : parent_nonce g = 0).

(** What the node makes of them when it reads them.  Amounts have 256 bits, and the addresses of the subnet actors and
    of the validators are not those that stand for numbers of actors, which would come back as something else. *)
Variables (changes : N → list AgentChangeRequest) (msgs : N → list Cross.IpcEnvelope).
Hypothesis (read_changes : ∀ h, try_all request_of_evm (requested h) = Done (changes h)).
Hypothesis (read_msgs : ∀ h, try_all envelope_of_evm (logged h) = Done (msgs h)).
Hypothesis (child_plain : plain_id child_id).
Hypothesis (validators_plain : ∀ h, Forall (λ r, unmasked (change_validator (request_change r))) (requested h)).
Hypothesis (funds_fit : ∀ h, Forall (λ f, f.1.2 < u256_size) (funds h)).

Lemma msgs_are_funds h : logged h = fund_msgs pn child_id (parent_nonce h) (funds h).
Proof.
  pose proof (@fund_all_sends P (funds h) a (gp h) tt (gp (h + 1))) as Hs. rewrite gp_name in Hs.
  destruct (Hs (gp_funds h)) as (Hlog & _). rewrite gp_log in Hlog. apply app_inv_head in Hlog.
  by apply (inj (fmap (a,.))) in Hlog.
Qed.
Lemma parent_nonce_step h : parent_nonce (h + 1) = parent_nonce h + N.of_nat (length (funds h)).
Proof.
  pose proof (@fund_all_sends P (funds h) a (gp h) tt (gp (h + 1))) as Hs. rewrite gp_name in Hs.
  by destruct (Hs (gp_funds h)) as (_ & Hn & _).
Qed.
Lemma funds_positive h : Forall (λ f, 0 < f.1.2) (funds h).
Proof.
  pose proof (@fund_all_sends P (funds h) a (gp h) tt (gp (h + 1))) as Hs. rewrite gp_name in Hs.
  by destruct (Hs (gp_funds h)) as (_ & _ & ?).
Qed.

Lemma between_msgs x y : x ≤ y →
  between logged x y = fund_msgs pn child_id (parent_nonce x) (between funds x y) ∧
  parent_nonce y = parent_nonce x + N.of_nat (length (between funds x y)).
Proof.
  intros Hle. replace y with (x + N.of_nat (N.to_nat (y - x))) by lia. generalize (N.to_nat (y - x)). intros k. clear Hle y.
  induction k as [|k [IH1 IH2]].
  { rewrite N.add_0_r. unfold between. rewrite !N.sub_diag. split; [done|]. by rewrite N.add_0_r. }
  replace (x + N.of_nat (S k)) with (x + N.of_nat k + 1) by lia.
  rewrite !(between_app _ x (x + N.of_nat k) (x + N.of_nat k + 1)) by lia.
  assert (∀ {A} (v : N → list A) h, between v h (h + 1) = v h) as Hone.
  { intros A v h. unfold between. replace (N.to_nat (h + 1 - h)) with 1%nat by lia. cbn. apply app_nil_r. }
  rewrite !Hone, IH1, msgs_are_funds, fund_msgs_app, IH2. split; [done|].
  rewrite parent_nonce_step, IH2, length_app. lia.
Qed.

Lemma fund_msgs_length name i n fs : length (fund_msgs name i n fs) = length fs.
Proof. revert n. induction fs as [|[[s v] r] fs IH]; intros n; cbn; [done|]. by rewrite IH. Qed.
Lemma funds_from_parent n fs : from_parent pn a n (fund_msgs pn child_id n fs).
Proof.
  revert n. induction fs as [|[[s v] r] fs IH]; intros n k m Hk; cbn [fund_msgs] in Hk; [done|].
  destruct k as [|k]; cbn in Hk; [simplify_eq; split_and!; [cbn; lia|done|done]|].
  destruct (IH _ _ _ Hk) as (? & ? & ?). split_and!; [lia|done|done].
Qed.

Lemma fund_plain n fs : Forall (λ f, f.1.2 < u256_size) fs → Forall plain_message (fund_msgs pn child_id n fs).
Proof.
  intros Hfs. revert n. induction Hfs as [|[[s v] r] fs Hv _ IH]; intros n; cbn [fund_msgs]; [done|]. constructor; [|apply IH].
  pose proof child_plain as Hp. unfold plain_id in Hp. cbn in Hp. apply Forall_app in Hp as [Hp _].
  split; cbn; [exact Hp|exact child_plain|by eexists|by eexists|exact Hv].
Qed.
Lemma msgs_back h : Forall (λ m, envelope_into_evm m = Done (converted no_envelope envelope_into_evm m)) (msgs h) ∧
  converted no_envelope envelope_into_evm <$> msgs h = logged h.
Proof.
  apply (read_back no_envelope envelope_of_evm envelope_into_evm plain_message); [|rewrite msgs_are_funds; apply fund_plain, funds_fit|apply read_msgs].
  intros m Hm. destruct (envelope_roundtrip m Hm) as (r & ? & ? & _). by exists r.
Qed.
Lemma changes_back h : Forall (λ c, request_into_evm c = Done (converted no_request request_into_evm c)) (changes h) ∧
  converted no_request request_into_evm <$> changes h = requested h.
Proof.
  apply (read_back no_request request_of_evm request_into_evm _ _ _) with (2 := validators_plain h); [|apply read_changes].
  intros r Hr. destruct (request_roundtrip r Hr) as (q & ? & ? & _). by exists q.
Qed.
Lemma between_back {A B} (f : A → B) (v : N → list A) (w : N → list B) x y :
  (∀ h, f <$> v h = w h) → f <$> between v x y = between w x y.
Proof.
  intros Hf. unfold between. generalize (range_up x (N.to_nat (y - x))). intros l.
  induction l as [|h l IH]; cbn; [done|]. by rewrite fmap_app, IH, Hf.
Qed.
Lemma between_logged x y : converted no_envelope envelope_into_evm <$> between msgs x y = between logged x y.
Proof. apply between_back. intros h. apply msgs_back. Qed.
Lemma between_requested x y : converted no_request request_into_evm <$> between changes x y = between requested x y.
Proof. apply between_back. intros h. apply changes_back. Qed.

Hypothesis (changes_numbered : ∀ h, numbered (between requested g h)).
Hypothesis (funds_few : ∀ h, N.of_nat (length (between funds g h)) ≤ most).

Lemma msgs_accepted h : messages_taken pn a most (between logged g h).
Proof.
  destruct (decide (g ≤ h)) as [Hle|Hgt].
  - destruct (between_msgs g h Hle) as [-> _]. rewrite gp_new. split; [by rewrite fund_msgs_length|apply funds_from_parent].
  - unfold between. replace (N.to_nat (h - g)) with 0%nat by lia. split; cbn; [lia|by intros k m].
Qed.

(** The calls that the node makes, on the contracts. *)
Abbreviation sound := (contracts_sound base execute_any receipt pn a limit most).

Lemma on_fvm_inv {A} (tx : stm FvmState string A) st x st' :
  on_fvm tx st = Done (x, st') → tx (fvm st) = Done (x, fvm st').
Proof. unfold on_fvm, zoom. destruct (tx (fvm st)) as [[y s']| | | |]; try done. by intros [= <- <-]. Qed.

Lemma commit_messages f st prev st' :
  sound (fvm st) → latestParentHeight (finality_part (snd (fvm st))) < height f →
  commit_parent_finality f st = Done (prev, st') →
  message_part (snd (fvm st')) = message_part (snd (fvm st)) ∧ fst (fvm st') = fst (fvm st) ∧ sound (fvm st') ∧
  given_changes (snd (fvm st')) = given_changes (snd (fvm st)) ∧ given_messages (snd (fvm st')) = given_messages (snd (fvm st)).
Proof.
  intros Hs Hlt Hr. destruct (contracts_commit base execute_any receipt pn a limit most Hsys Hmost f (fvm st) Hs Hlt)
    as (x & s' & Hc & _ & Hs' & _ & Hgm & Hgc & Hm & Hb).
  unfold commit_parent_finality, finality_try_from in Hr.
  apply stm_bind_Done in Hr as (f0 & st0 & (f1 & Hf & [= -> ->])%lift_Done & Hr).
  destruct (bool_decide (block_hash_len _ ≠ _)); [done|]. injection Hf as <-. apply stm_bind_Done in Hr as ([has pf] & st1 & Hg%on_fvm_inv & Hr). injection Hr as _ <-.
  pose proof (eq_trans (eq_sym Hc) Hg) as [= _ _ Hx]. unfold across_machine in *. by rewrite <-Hx.
Qed.

Lemma store_messages l st st' :
  Forall (λ c, request_into_evm c = Done (converted no_request request_into_evm c)) l →
  sound (fvm st) → numbered (given_changes (snd (fvm st)) ++ (converted no_request request_into_evm <$> l)) →
  store_validator_changes l st = Done (tt, st') →
  message_part (snd (fvm st')) = message_part (snd (fvm st)) ∧ fst (fvm st') = fst (fvm st) ∧ sound (fvm st') ∧
  given_messages (snd (fvm st')) = given_messages (snd (fvm st)).
Proof.
  intros Hconv Hs Hl Hr. destruct (contracts_store base execute_any receipt pn a limit most Hsys Hmost _ (fvm st) Hs Hl)
    as (s' & Hc & Hs' & _ & Hgm & _ & Hm & Hb).
  unfold store_validator_changes in Hr. destruct l as [|c l]; [by injection Hr as <-|].
  apply stm_bind_Done in Hr as (l0 & st0 & (l1 & Hf & [= -> ->])%lift_Done & Hr%on_fvm_inv).
  rewrite (try_all_Done _ (converted no_request request_into_evm)) in Hf by exact Hconv. injection Hf as <-.
  pose proof (eq_trans (eq_sym Hc) Hr) as [= Hx]. unfold across_machine in *. by rewrite <-Hx.
Qed.

Lemma execute_messages l st ret st' :
  Forall (λ m, envelope_into_evm m = Done (converted no_envelope envelope_into_evm m)) l →
  sound (fvm st) → messages_taken pn a most (given_messages (snd (fvm st)) ++ (converted no_envelope envelope_into_evm <$> l)) →
  execute_topdown_msgs l st = Done (ret, st') →
  @applyMessages C (block_of base (fvm st)) pn (converted no_envelope envelope_into_evm <$> l)
      (@minted C (Z.of_N (values (converted no_envelope envelope_into_evm <$> l))) (message_part (snd (fvm st)))) =
    Done (tt, message_part (snd (fvm st'))).
Proof.
  intros Hconv Hs Hl Hr. pose proof (tokens_values base execute_any receipt l Hconv) as Htok.
  destruct (contracts_apply base execute_any receipt pn a limit most Hpn Hmost _ (@tokens_to_mint _ _ M l) (fvm st) Hs Hl)
    as (s1 & s' & Hm & Hc & _ & _ & _ & _ & _ & Hrun).
  unfold across_machine in *. unfold execute_topdown_msgs, apply_cross_messages, mint_to_gateway in Hr.
  assert (∃ st1, fvm st1 = s1 ∧ (messages ← lift (try_all envelope_to_evm l); on_fvm (gateway_apply_cross_messages messages)) st1 =
    Done (ret, st')) as (st1 & Hst1 & Happ).
  { apply stm_bind_Done in Hr as ([] & st1 & Hmint & Happ). exists st1. split; [|done]. case_bool_decide.
    - injection Hmint as <-. done.
    - apply stm_bind_Done in Hmint as ([] & st2 & Hcr%on_fvm_inv & Hup). pose proof (eq_trans (eq_sym Hm) Hcr) as [= Hx]. by injection Hup as <-. }
  apply stm_bind_Done in Happ as (l0 & st0 & (l1 & Hf & [= -> ->])%lift_Done & Happ%on_fvm_inv).
  pose proof (eq_trans (eq_sym (try_all_Done envelope_into_evm (converted no_envelope envelope_into_evm) l Hconv)) Hf) as [= <-].
  unfold across_machine in *. rewrite Hst1 in Happ. pose proof (eq_trans (eq_sym Hc) Happ) as [= _ Hx]. rewrite Htok in Hrun.
  unfold across_machine in *. by rewrite <-Hx.
Qed.

(** A recipient that takes the funds as they come. *)
Definition takes_funds (f : N * N * N) : Prop :=
  f.2 < 2 ^ 160 ∧ @normalize C f.2 = f.2 ∧ @receives C f.2 f.1.2 = true ∧ f.2 ≠ @this_gateway C.

Lemma between_funds_good x y : Forall takes_funds (between funds x y) →
  Forall (λ '(_, v, r), 0 < v ∧ r < 2 ^ 160 ∧ @normalize C r = r ∧ @receives C r v = true ∧ r ≠ @this_gateway C) (between funds x y).
Proof.
  intros Hall. assert (Forall (λ f, 0 < f.1.2) (between funds x y)) as Hpos by (apply between_Forall, funds_positive).
  apply Forall_forall. intros [[s v] r] Hin. rewrite Forall_forall in Hall, Hpos.
  specialize (Hall _ Hin). specialize (Hpos _ Hin). by split.
Qed.

Lemma given_nonce st x : sound (fvm st) → g ≤ x → given_messages (snd (fvm st)) = between logged g x →
  appliedTopDownNonce (message_part (snd (fvm st))) = parent_nonce x.
Proof.
  intros Hs Hx Hg. destruct (between_msgs g x Hx) as [Hm Hn]. rewrite (cs_nonce _ _ _ _ _ _ _ _ Hs), Hg, Hm, fund_msgs_length, Hn, gp_new. done.
Qed.

Lemma funds_applied x y st ret st' :
  sound (fvm st) → g ≤ x ≤ y → given_messages (snd (fvm st)) = between logged g x →
  execute_topdown_msgs (between msgs x y) st = Done (ret, st') → Forall takes_funds (between funds x y) →
  ∀ r, r ≠ @this_gateway C →
    balance (message_part (snd (fvm st'))) r = balance (message_part (snd (fvm st))) r + credit r (between funds x y).
Proof.
  intros Hs Hxy Hg Hr Hall r Hne. pose proof (given_nonce st x Hs (proj1 Hxy) Hg) as Hn.
  apply execute_messages in Hr; [|apply between_Forall; intros h; apply msgs_back|done|rewrite between_logged, Hg, <-between_app by lia; apply msgs_accepted].
  rewrite between_logged in Hr. destruct (between_msgs x y) as [Hm _]; [lia|]. rewrite Hm, <-Hn in Hr. set (gc := message_part (snd (fvm st))) in *.
  set (ms := fund_msgs pn child_id (appliedTopDownNonce gc) (between funds x y)) in *.
  pose proof (funds_few y) as Hfew. rewrite (between_app funds g x y), length_app in Hfew by lia.
  destruct (between_msgs g x) as [_ Hgx]; [lia|].
  destruct (getNextEpoch (block_of base (fvm st)) (bottomUpCheckPeriod gc)) as [e| | | |] eqn:He;
    [|by pose proof (cs_epoch _ _ _ _ _ _ _ _ Hs) as Hd; unfold gc in He; rewrite He in Hd..].
  pose proof (cs_room _ _ _ _ _ _ _ _ Hs) as Hroom. fold gc in Hroom.
  assert (bottomUpNonce (@minted C (Z.of_N (values ms)) gc) = bottomUpNonce gc ∧ appliedTopDownNonce (@minted C (Z.of_N (values ms)) gc) = appliedTopDownNonce gc ∧
    networkName (@minted C (Z.of_N (values ms)) gc) = networkName gc ∧ bottomUpCheckPeriod (@minted C (Z.of_N (values ms)) gc) = bottomUpCheckPeriod gc ∧
    values ms ≤ balance (@minted C (Z.of_N (values ms)) gc) (@this_gateway C) ∧
    balance (@minted C (Z.of_N (values ms)) gc) r = balance gc r) as (M1 & M2 & M3 & M4 & M5 & M6).
  { unfold minted. case_bool_decide as Hz; [split_and!; try done; lia|]. rewrite N2Z.id. split_and!; try done; unfold balance; cbn.
    - rewrite lookup_insert_eq. cbn. lia.
    - by rewrite lookup_insert_ne. }
  destruct (@applyMessages_funds C HC (block_of base (fvm st)) pn a e (between funds x y) (@minted C (Z.of_N (values ms)) gc)) as (g' & Hrun & _ & Hcr).
  - rewrite M3. apply Hs.
  - done.
  - by rewrite M4.
  - lia.
  - lia.
  - by rewrite M2.
  - by apply between_funds_good.
  - rewrite M2 in Hrun. fold ms in Hrun. pose proof (eq_trans (eq_sym Hr) Hrun) as [= ->]. by rewrite Hcr, M6.
Qed.

Hypothesis (parent_answers : ∀ h, answers (get_validator_changes h) (changes h) ∧ answers (get_top_down_msgs h) (msgs h)).
Hypothesis (others_attached : ∀ f n, attached changes msgs g f n → attached changes msgs g f (others n)).

(** C7: funds get from the contracts of the parent to those of the child through
    the node.  The parent has executed calls of [fund] to addresses of the EVM, block by block; the node reads its log
    and converts it to types of its own, is attached to the parent, and stays so whatever its other tasks do; neither the subnet actors nor
    the validators have addresses that stand for numbers of actors, and the recipients take the funds.  Then delivering
    the next finality, in which the node converts back what it hands on, succeeds on the contracts of the
    child: every recipient gets exactly the funds that were sent to it at the heights in between,
    the gateways agree on the nonce, the tracker of the child has been given the changes of the
    parent's validators up to there, and the finality is the latest one. *)
Theorem funds_cross_the_node env st (p : Ledger.ParentFinality) f f' :
  f' = finality_new (Ledger.pf_height p) (pf_block_hash p) →
  attached changes msgs g f (node env) → executed changes msgs g (fvm st) → executed_to g (fvm st) ≤ height f →
  committed (fvm st) = Some f ∨ committed (fvm st) = None ∧ debug_assertions = false →
  height f < height f' → height f' + 1 < u64_size → length (block_hash f') = 32%nat →
  let sent := between funds (executed_to g (fvm st)) (height f') in
  Forall takes_funds sent →
  ∃ ret st' n', deliver st (Ipc (TopDownExec p)) env = (Done (RetIpc ret, st'), set_node n' env) ∧
    attached changes msgs g f' n' ∧ executed changes msgs g (fvm st') ∧
    let c := snd (fvm st) in let c' := snd (fvm st') in
    (∀ r, r ≠ @this_gateway C → balance (message_part c') r = balance (message_part c) r + credit r sent) ∧
    appliedTopDownNonce (message_part c') = parent_nonce (height f') ∧
    tracked limit (validatorsTracker (finality_part c')) (request_change <$> between requested g (height f')) ∧
    getLatestParentFinality (finality_part c') = to_evm f'.
Proof.
  intros Hf' Hatt Hex Hto Hprev Hlt Hfit Hlen sent Hall.
  destruct (topdown_delivered (H0 := contract_data) changes msgs g) with (env := env) (st := st) (p := p) (f := f) (f' := f')
    as (ret & prev & st1 & st2 & st' & n' & Hd & Hcall1 & Hcall2 & Hcall3 & Hatt' & Hex' & Hc' & _); try done.
  { intros h. apply changes_back. }
  { intros h. apply msgs_back. }
  { intros h. rewrite between_requested. apply changes_numbered. }
  { intros h. rewrite between_logged. apply msgs_accepted. }
  { cbn. by rewrite Hlen. }
  pose proof Hex as (Hs & Hg & Hst & Hap). rewrite between_requested in Hst. rewrite between_logged in Hap. set (x := executed_to g (fvm st)) in *.
  change (given_changes (snd (fvm st)) = between requested g x) in Hst. change (given_messages (snd (fvm st)) = between logged g x) in Hap.
  assert (x ≤ height f') as Hx by lia.
  assert (from_option height 0 (committed (fvm st)) < height f') as Hlow by (destruct Hprev as [->|[-> _]]; cbn; lia).
  apply commit_messages in Hcall1 as (Hm1 & Hb1 & Hs1 & Hgc1 & Hgm1); [|done|].
  2:{ eapply N.le_lt_trans; [apply N.eq_le_incl; symmetry; exact (committed_height base execute_any receipt pn a limit most _ Hs)|].
      exact Hlow. }
  apply store_messages in Hcall2 as (Hm2 & Hb2 & Hs2 & Hgm2); [|apply between_Forall; intros h; apply changes_back|done|].
  2:{ rewrite between_requested. unfold across_machine in *. rewrite Hgc1, Hst, <-between_app by lia. apply changes_numbered. }
  assert (executed_to g (fvm st') = height f') as Hto' by (unfold executed_to; by rewrite Hc').
  pose proof Hex' as (Hs' & Hg' & Hst' & Hap'). rewrite Hto' in *. rewrite between_requested in Hst'. rewrite between_logged in Hap'.
  change (given_changes (snd (fvm st')) = between requested g (height f')) in Hst'.
  change (given_messages (snd (fvm st')) = between logged g (height f')) in Hap'.
  exists ret, st', n'. split; [exact Hd|]. split; [exact Hatt'|]. split; [exact Hex'|]. cbv zeta. split_and!.
  - intros r Hr. unfold across_machine in *. rewrite (funds_applied x (height f') st2 ret st'); [|done|lia|congruence|done|done|done].
    by rewrite Hm2, Hm1.
  - by apply given_nonce.
  - unfold across_machine in *. rewrite <-Hst'. apply (cs_tracker _ _ _ _ _ _ _ _ Hs').
  - change (committed (fvm st')) with (committed_of base execute_any receipt (fvm st')) in Hc'. unfold committed_of in Hc'.
    case_bool_decide; [done|]. injection Hc' as <-. unfold to_evm, of_evm. cbn. unfold across_machine. by destruct (getLatestParentFinality _).
Qed.
End across.

(** ** Funds that the node cannot read *)

Section unreadable.
Context `{FvmAddresses, MessageEnv}.

(** The gateway takes funds for any address.  One of a type that the node does not know leaves a message in the log that
    the node cannot convert, and neither can it the list of messages of that height. *)
Lemma unreadable_funds sender v a (recipient : FvmAddress) g x g' :
  addrType recipient ≠ 1 → addrType recipient ≠ 4 →
  fund sender v (createSubnetId (networkName g) a) recipient g = Done (x, g') →
  ∃ m, topdown_log g' = topdown_log g ++ [(a, m)] ∧
    ∀ before after cs, try_all envelope_of_evm (before ++ m :: after) ≠ Done cs.
Proof.
  intros H1 H4 Hr. apply fund_sends in Hr as (_ & _ & Hlog & _).
  match type of Hlog with _ = _ ++ [(_, ?m0)] => set (m := m0) in *; assert (∀ c, envelope_of_evm m ≠ Done c) as Hm end.
  { intros c. unfold envelope_of_evm, m. cbn [Messages.from Messages.to]. destruct (ipc_address_of_evm (MkAddress (networkName g) (fvm_from sender))); try done.
    unfold ipc_address_of_evm, fvm_of_evm, bytes_to_fvm_addr. cbn [Messages.rawAddress mbind outcome_bind].
    by rewrite (bool_decide_eq_false_2 (_ = 1)), (bool_decide_eq_false_2 (_ = 4)). }
  exists m. split; [exact Hlog|]. intros before after. induction before as [|m' ms IH]; intros cs; cbn [app try_all].
  - destruct (envelope_of_evm m) as [c| | | |]; try done. by destruct (Hm c).
  - destruct (envelope_of_evm m'); try done. cbn [mbind outcome_bind]. by destruct (try_all _ _) as [cs'| | | |]; try done; destruct (IH cs').
Qed.
End unreadable.

(** ** A concrete parent, node and child *)

Module SampleBridge.
Import SampleNetwork SampleGateway SampleFvm.
#[local] Existing Instance dev_profile.
#[local] Existing Instance SampleMachine.ids.

(** Two transfers to the network of the actor 5, and a deposit of the validator 9. *)
Definition sent_at (h : N) : list (N * N * N) :=
  if bool_decide (h = 10) then [(8, 40, 9)] else if bool_decide (h = 11) then [(8, 15, 12)] else [].
Definition gateway_at (h : N) : Gateway :=
  after native_env ([(1, Register 5 30 10)] ++
    (if bool_decide (11 ≤ h) then [(2, Fund 8 40 (createSubnetId root 5) (fvm_from 9))] else []) ++
    (if bool_decide (12 ≤ h) then [(3, Fund 8 15 (createSubnetId root 5) (fvm_from 12))] else [])).
Definition logged_at (h : N) : list Messages.IpcEnvelope :=
  fund_msgs root (createSubnetId root 5) (if bool_decide (h ≤ 10) then 0 else 1) (sent_at h).
Definition requested_at (h : N) : list Staking.StakingChangeRequest :=
  if bool_decide (h = 10) then [MkRequest (MkChange Deposit (encode_uint 5) 9) 1] else [].

(** What the node reads. *)
Definition read_list {A B} (f : A → outcome string B) (l : list A) : list B := match try_all f l with Done bs => bs | _ => [] end.
Definition messages_at (h : N) : list Cross.IpcEnvelope := read_list envelope_of_evm (logged_at h).
Definition changes_at (h : N) : list AgentChangeRequest := read_list request_of_evm (requested_at h).

Definition hash_at (h : N) : list byte := word h.
Definition fin_at (h : N) : IPCParentFinality := Finality.MkFinality h (hash_at h).

#[local] Instance parent_proxy : ParentQueryProxy (H:=contract_data) := {|
  World := unit;
  get_chain_head_height w := (inr 20, w);
  get_genesis_epoch w := (inr 0, w);
  get_block_hash h w := (inr (MkBlockHashResult (hash_at (h - 1)) (hash_at h)), w);
  get_top_down_msgs h w := (inr (MkQueryPayload (messages_at h) (hash_at h)), w);
  get_validator_changes h w := (inr (MkQueryPayload (changes_at h) (hash_at h)), w);
  get_latest_committed_finality w := (inr (Some (fin_at 10)), w);
  get_power_table w := (inr None, w);
  catching_up w := (inr false, w);
  sleep _ w := w
|}.
#[local] Instance idle : Scheduler (H:=contract_data) := {| others n := n |}.

(** A ledger that has nothing but the epoch. *)
Definition epoch_machine : Machine (H:=contract_data) := {|
  FvmState := Z;
  decode_object _ := inr None;
  ExitCode_OK := 0;
  SYS_SENDER_INVALID := 1;
  SYS_SENDER_STATE_INVALID := 2;
  SYS_ASSERTION_FAILED := 10;
  cid_to_bytes c := c;
  SYSTEM_ACTOR_ADDR := 0;
  GATEWAY_ACTOR_ADDR := 64;
  METHOD_INVOKE_CONTRACT := 3844450837;
  GetObject := 1;
  ResolveObject := 2;
  BLOCK_GAS_LIMIT := 10000000000;
  raw_bytes_default := 0;
  serialize_get_params k := inr k;
  serialize_resolve_params k _ := inr k;
  cid_of_relayed m := inr (relay_sequence m);
  block_hash_len h := N.of_nat (length h);
  envelope_value m := 0%Z;
  EvmChange := N;
  change_to_evm c := Done 0;
  EvmEnvelope := N;
  envelope_to_evm m := Done 0;
  message_check _ := None;
  message_length _ := inr 0;
  context_epoch s := s;
  context_timestamp _ := 0;
  context_chain_id _ := 0;
  tree_lookup_id _ _ := inr None;
  tree_get_actor _ _ := inr None;
  tree_set_actor _ _ s := s;
  executor_execute _ _ _ s := Done (MkRet 0 0 0 None [], s);
  executor_flush s := Done (0, s);
  gateway_commit_parent_finality f s := Done ((false, f), s);
  gateway_store_validator_changes _ s := Done (tt, s);
  gateway_apply_cross_messages _ s := Done (MkApplyRet (MkRet 0 0 0 None []) 0 64 0 0 ∅, s);
  credit_gateway_actor _ s := Done (tt, s)
|}.
Definition no_execution (m : FvmMessage) (k : ApplyKind) (n : N) :
    stm (@FvmState contract_data SampleMachine.ids epoch_machine * Contracts) string ApplyRet :=
  abort "not executed"%string.
Definition sample_receipt : FvmApplyRet := MkApplyRet (MkRet 0 0 0 None []) 0 64 0 0 ∅.
#[local] Instance ledger : Machine (H:=contract_data) :=
  contract_machine (C := native_env) epoch_machine no_execution sample_receipt.

#[local] Instance inner_interpreter : Inner := {|
  SignedMessage := N;
  signed_object _ := None;
  inner_begin st := Done (sample_receipt, st);
  PowerUpdate := N * N;
  update_key := fst;
  update_power := snd;
  inner_deliver_signed _ st := Done (inl "unsigned"%string, st);
  inner_deliver_synthetic _ st := Done (inl "unsigned"%string, st);
  inner_end st := Done ([], st);
  CheckState := unit;
  CheckRes := unit;
  inner_check_signed _ _ s := Done (tt, s);
  inner_check_synthetic _ _ s := Done (tt, s)
|}.
#[local] Instance resolvers : Resolvers := {| resolve_checkpoints p := p; resolve_objects p := p |}.

(** The child has committed the height 10 of the parent. *)
Definition child_contracts : Contracts :=
  MkContracts (GatewayFinality.MkGateway 10 {[ 10 := to_evm (fin_at 10) ]}
      (MkTracker (MkSet Collateral 3 0 ∅ pq_empty pq_empty) (MkLog 1 1 ∅)) no_membership no_membership)
    (SampleNetwork.sample_gateway (createSubnetId root 5)) [] [].
Definition child_state : FvmExecState := MkExecState ((7%Z, child_contracts) : FvmState) None None (MkUpdatable 0 0 0 3) false.

Definition child_provider : FinalityWithNull := MkProvider (Config.new 5 1000 100 3) 0 (MkCache 1 []) (Some (fin_at 10)).
Definition child_node : Node :=
  MkNode tt (Some (MkCached child_provider (Config.new 5 1000 100 3)))
    (MkTally ∅ {[ 10 := Some (hash_at 10) ]} ∅ false ∅ false).
Definition child_env : ChainEnv := MkEnv pool_new pool_new child_node.

Lemma between_empty {A} (v : N → list A) x y : (∀ h, x ≤ h < y → v h = []) → between v x y = [].
Proof.
  intros Hv. unfold between. apply concat_nil_Forall, Forall_fmap, Forall_forall. intros h Hh. apply elem_of_range_up in Hh. apply Hv. lia.
Qed.

Lemma changes_sample h : numbered (between requested_at 0 h).
Proof.
  destruct (decide (h ≤ 10)) as [Hle|Hgt].
  - rewrite between_empty; [done|]. intros x Hx. unfold requested_at. by rewrite bool_decide_eq_false_2 by lia.
  - rewrite (between_app _ 0 11 h), (between_empty _ 11) by (lia || (intros x Hx; unfold requested_at; by rewrite bool_decide_eq_false_2 by lia)).
    by vm_compute.
Qed.
Lemma funds_sample h : N.of_nat (length (between sent_at 0 h)) ≤ 100.
Proof.
  destruct (decide (h ≤ 10)) as [Hle|Hgt].
  - rewrite between_empty; [done|]. intros x Hx. unfold sent_at. by rewrite !bool_decide_eq_false_2 by lia.
  - destruct (decide (h = 11)) as [->|Hne]; [by vm_compute|].
    rewrite (between_app _ 0 12 h), (between_empty _ 12) by (lia || (intros x Hx; unfold sent_at; by rewrite !bool_decide_eq_false_2 by lia)).
    by vm_compute.
Qed.
Lemma parent_sample h :
  networkName (gateway_at h) = root ∧
  @fund_all native_env (createSubnetId root 5) (sent_at h) (gateway_at h) = Done (tt, gateway_at (h + 1)) ∧
  topdown_log (gateway_at (h + 1)) = topdown_log (gateway_at h) ++ ((5,.) <$> logged_at h).
Proof.
  unfold gateway_at, sent_at, logged_at.
  destruct (decide (h = 10)) as [->|]; [split_and!; by vm_compute|].
  destruct (decide (h = 11)) as [->|]; [split_and!; by vm_compute|].
  unfold sent_at. rewrite (bool_decide_eq_false_2 (h = 10)), (bool_decide_eq_false_2 (h = 11)) by done.
  rewrite (bool_decide_ext (11 ≤ h + 1) (11 ≤ h)), (bool_decide_ext (12 ≤ h + 1) (12 ≤ h)) by lia.
  rewrite app_nil_r. split_and!; [|done|done]. by do 2 case_bool_decide; vm_compute.
Qed.

Lemma read_list_done {A B} (f : A → outcome string B) l : is_done (try_all f l) = true → try_all f l = Done (read_list f l).
Proof. unfold read_list. by destruct (try_all f l). Qed.
Lemma read_sample h :
  try_all request_of_evm (requested_at h) = Done (changes_at h) ∧ try_all envelope_of_evm (logged_at h) = Done (messages_at h).
Proof.
  split; apply read_list_done; unfold logged_at, requested_at, sent_at; repeat case_bool_decide; by vm_compute.
Qed.
Lemma plain_sample h : Forall (λ r, unmasked (change_validator (request_change r))) (requested_at h) ∧ Forall (λ f, f.1.2 < u256_size) (sent_at h).
Proof. unfold requested_at, sent_at. repeat case_bool_decide; split; repeat constructor; by vm_compute. Qed.

Lemma child_plain_sample : plain_id (createSubnetId root 5).
Proof. repeat constructor; by vm_compute. Qed.

Lemma child_attached : attached changes_at messages_at 0 (fin_at 10) (node child_env).
Proof.
  exists child_provider. split_and!.
  - split_and!; [by eexists| |done|done]. split; [|by intros ?].
    apply (seq_cache_intro 11); [done|constructor].
  - done.
  - intros h. change (({[10 := Some (hash_at 10)]} : gmap N (option (list byte))) !! h = chain_view child_provider (fin_at 10) h).
    unfold chain_view. case_bool_decide as Hh; [subst h; by vm_compute|].
    rewrite lookup_singleton_ne by (intros <-; by apply Hh). case_bool_decide; [done|].
    change (blocks child_provider) with (∅ : gmap N (option ParentViewPayload)). by rewrite lookup_empty.
  - intros h v. change (blocks child_provider) with (∅ : gmap N (option ParentViewPayload)). by rewrite lookup_empty.
Qed.

#[local] Instance sample_laws : GatewayLaws :=
  @contract_laws _ SampleGateway.sample_gateway native_env (sample_hash _) _ _ _ epoch_machine no_execution sample_receipt
    root 5 3 100 eq_refl eq_refl eq_refl.

Lemma child_executed : executed changes_at messages_at 0 (fvm child_state).
Proof.
  split; [|split; [done|split]].
  - split.
    + split.
      * intros h f Hf. change (({[10 := to_evm (fin_at 10)]} : gmap N GatewayFinality.ParentFinality) !! h = Some f) in Hf.
        by apply lookup_singleton_Some in Hf as [<- <-].
      * intros _. by eexists.
    + by split.
    + done.
    + by vm_compute.
    + done.
    + done.
  - change (executed_to 0 (fvm child_state)) with 10. rewrite (between_empty changes_at); [done|].
    intros x Hx. unfold changes_at, requested_at. by rewrite bool_decide_eq_false_2 by lia.
  - change (executed_to 0 (fvm child_state)) with 10. rewrite (between_empty messages_at); [done|].
    intros x Hx. unfold messages_at, logged_at, sent_at. by rewrite !(bool_decide_eq_false_2 (x = _)) by lia.
Qed.

Lemma funds_cross_the_node_witness :
  ∃ ret st' n', deliver child_state (Ipc (TopDownExec (Ledger.MkParentFinality 12 (hash_at 12)))) child_env =
      (Done (RetIpc ret, st'), set_node n' child_env) ∧
    balance (message_part (snd (fvm st'))) 9 = 40 ∧ balance (message_part (snd (fvm st'))) 12 = 15 ∧
    appliedTopDownNonce (message_part (snd (fvm st'))) = 2 ∧
    nextConfigurationNumber (tr_changes (validatorsTracker (finality_part (snd (fvm st'))))) = 2.
Proof.
  destruct (funds_cross_the_node (GE := SampleGateway.sample_gateway) native_env native_env (HC := sample_hash _) epoch_machine no_execution sample_receipt root 5 3 100
    eq_refl eq_refl eq_refl gateway_at sent_at requested_at logged_at 0 (λ h, proj1 (parent_sample h))
    (λ h, proj1 (proj2 (parent_sample h))) (λ h, proj2 (proj2 (parent_sample h))) eq_refl changes_at messages_at (λ h, proj1 (read_sample h)) (λ h, proj2 (read_sample h))
    child_plain_sample (λ h, proj1 (plain_sample h)) (λ h, proj2 (plain_sample h)) changes_sample funds_sample)
    with (env := child_env) (st := child_state) (p := Ledger.MkParentFinality (H := contract_data) 12 (hash_at 12))
      (f := fin_at 10) (f' := fin_at 12) as (ret & st' & n' & Hd & _ & _ & Hb & Hn & Ht & _).
  - intros h. split; intros w; left; by eexists.
  - done.
  - done.
  - exact child_attached.
  - exact child_executed.
  - done.
  - left. reflexivity.
  - done.
  - done.
  - by vm_compute.
  - repeat constructor; by vm_compute.
  - exists ret, st', n'. split; [exact Hd|]. split_and!.
    + etrans; [apply (Hb 9); by vm_compute|by vm_compute].
    + etrans; [apply (Hb 12); by vm_compute|by vm_compute].
    + etrans; [exact Hn|by vm_compute].
    + etrans; [exact (td_next _ _ _ Ht)|by vm_compute].
Defined.
End SampleBridge.
