(* ===== verification/BottomUp.v ===== *)
(** * Checkpoints from the node to the parent

    The node of a validator signs a checkpoint and proves, with the Merkle tree of the power
    table, that it may; the gateway of the child collects these calls, and the subnet actor on the
    parent checks what a relayer brings.  Here the three are put together: the parameters of the
    contracts ([QuorumEnv]) are instantiated with what the node computes ([node_quorum]), and the
    signatures of enough validators lead to an accepted checkpoint. *)

From Stdlib Require Import Strings.Byte.
From stdpp Require Import vector.
From S2P Require Import Prelude SubnetActor OrdMap Weights Cache Voting Finality Node Fetch Syncer Merkle.
From S2P Require Import SubnetId MerkleStandard Validators Ledger Signing Checkpoint.
From S2P Require Import PQ ValidatorSet Abi SolIds Messages Submission Quorum.

(** ** Words, addresses and signatures *)

Definition num (h : Hash) : N := from_be_bytes (vec_to_list h).
Definition hash_of (n : N) : Hash := be_bytes 32 n.
Definition addr (a : EthAddress) : N := from_be_bytes (vec_to_list a).

Lemma be_bytes_back {n} (v : vec byte n) : be_bytes n (from_be_bytes (vec_to_list v)) = v.
Proof.
  apply vec_to_list_inj2. pose proof (length_vec_to_list v) as Hl. revert Hl. generalize (vec_to_list v). intros l <-.
  apply be_bytes_inverse.
Qed.
Lemma hash_of_num h : hash_of (num h) = h.
Proof. apply be_bytes_back. Qed.
#[export] Instance addr_inj : Inj (=) (=) addr.
Proof. intros a b Hab. rewrite <-(be_bytes_back a), <-(be_bytes_back b). unfold addr in Hab. by rewrite Hab. Qed.

(** A signature of 65 bytes. *)
Definition signature_bytes (s : EthSignature) : list byte :=
  word (eth_r s) ++ word (eth_s s) ++ [default x00 (Byte.of_N (eth_v s))].
Definition parse_signature (b : list byte) : option EthSignature :=
  if bool_decide (length b = 65%nat)
  then Some (MkEthSignature (from_be_bytes (drop 64 b)) (from_be_bytes (take 32 b)) (from_be_bytes (take 32 (drop 32 b))))
  else None.

Lemma word_value n : n < u256_size → from_be_bytes (word n) = n.
Proof. intros Hn. unfold word. rewrite be_bytes_value. by apply N.mod_small. Qed.

Lemma parse_signature_bytes s :
  eth_r s < u256_size → eth_s s < u256_size → eth_v s < 256 → parse_signature (signature_bytes s) = Some s.
Proof.
  intros Hr Hs Hv. unfold parse_signature, signature_bytes.
  rewrite bool_decide_eq_true_2 by (rewrite !length_app, !word_length; done).
  rewrite (take_app_length' (word (eth_r s))), (drop_app_length' (word (eth_r s)) _ 32) by (by rewrite word_length).
  rewrite (take_app_length' (word (eth_s s))) by (by rewrite word_length).
  rewrite app_assoc, drop_app_length' by (by rewrite length_app, !word_length).
  rewrite !word_value by done. f_equal. destruct s as [v r s]. cbn [eth_v eth_r eth_s] in *. f_equal.
  rewrite from_be_cons, byte_of_to by done. cbn. lia.
Qed.

(** ** The environment of the contracts *)

Section environment.
Context `{ChainIds, Keccak, Keys, !Crypto}.
Context (checkpoint_hash_of : Messages.BottomUpCheckpoint → N) (system_actor : N).

(** [ECDSA.tryRecover]. *)
Definition try_recover (h : N) (b : list byte) : option N :=
  match parse_signature b with
  | None => None
  | Some s =>
      match eth_recover (MkEthSignature (eth_v s - 27) (eth_r s) (eth_s s)) (hash_of h) with
      | inl _ => None
      | inr a => Some (addr a)
      end
  end.

(** The leaf of a validator, hashed twice, and [MerkleProof.verify]. *)
Definition validator_leaf (a w : N) : N := num (keccak256 (vec_to_list (keccak256 (word a ++ word w)))).
Definition verify_proof (proof : list N) (root leaf : N) : bool :=
  bool_decide (num (fold_left hash_pair (hash_of <$> proof) (hash_of leaf)) = root).

Definition node_quorum : QuorumEnv := {|
  quorum_submit := {| checkpoint_hash := checkpoint_hash_of; tryRecover := try_recover |};
  validatorLeaf := validator_leaf;
  merkle_verify := verify_proof;
  quorum_system_actor := system_actor
|}.
End environment.

(** ** Collecting *)

Section collecting.
Context `{QuorumEnv}.

(** A signature that is to be added: its signer, the weight, the proof and the bytes. *)
Record Vote := MkVote { vote_signer : N; vote_weight : N; vote_proof : list N; vote_bytes : list byte }.

Definition vote_ok (hs root : N) (v : Vote) : Prop :=
  tryRecover hs (vote_bytes v) = Some (vote_signer v) ∧
  merkle_verify (vote_proof v) root (validatorLeaf (vote_signer v) (vote_weight v)) = true.

Fixpoint add_votes (h : N) (vs : list Vote) : stm CheckpointStore string unit :=
  match vs with
  | [] => mret tt
  | v :: vs => addCheckpointSignature h (vote_proof v) (vote_weight v) (vote_bytes v) ;; add_votes h vs
  end.

(** The checkpoint of a height is there, and waits for signatures unless it has its quorum. *)
Record open_at (h : N) (s : CheckpointStore) : Prop := {
  op_height : retentionHeight (checkpointQuorumMap s) ≤ h;
  op_exists : bottomUpCheckpointExists s h = true;
  op_waits : reached (info_at (checkpointQuorumMap s) h) = true ∨ h ∈ incompleteQuorums (checkpointQuorumMap s)
}.

Lemma add_quorum_run h v q :
  let i := info_at q h in
  let r := reached i || bool_decide (threshold i ≤ currentWeight i + vote_weight v) in
  reached i = true ∨ h ∈ incompleteQuorums q → vote_ok (hash i) (rootHash i) v → vote_signer v ∉ senders_at q h →
  currentWeight i + vote_weight v < u256_size →
  ∃ inc, addQuorumSignature h (vote_proof v) (vote_weight v) (vote_bytes v) q =
      Done (tt, set_incomplete inc (set_info h (MkInfo (hash i) (rootHash i) (threshold i) (currentWeight i + vote_weight v) r)
        (set_signature h (vote_signer v) (vote_bytes v) q))) ∧
    (r = true ∨ inc = incompleteQuorums q).
Proof.
  intros i r Hw [Hrec Hm] Hnew Hfit.
  unfold addQuorumSignature. erewrite bind_run by done. fold i. rewrite Hrec. erewrite bind_run by done.
  rewrite bool_decide_eq_false_2 by done. rewrite Hm. cbn [negb]. erewrite bind_run by done.
  erewrite bind_run by (unfold lift; by rewrite u256_add_ok by lia). unfold r.
  case_bool_decide as Hth; [erewrite bind_run by done|].
  - rewrite orb_true_r. destruct (reached i) eqn:Hr.
    + exists (incompleteQuorums q). split; [done|by left].
    + destruct Hw as [Hw|Hw]; [unfold i in Hr; congruence|]. erewrite bind_run by done. cbn [incompleteQuorums set_info set_signature].
      rewrite bool_decide_eq_true_2 by done. eexists. split; [done|by left].
  - rewrite orb_false_r. exists (incompleteQuorums q). split; [done|by right].
Qed.

Lemma add_vote_run h v s :
  let q := checkpointQuorumMap s in let i := info_at q h in
  open_at h s → vote_ok (hash i) (rootHash i) v → vote_signer v ∉ senders_at q h →
  currentWeight i + vote_weight v < u256_size →
  ∃ s', addCheckpointSignature h (vote_proof v) (vote_weight v) (vote_bytes v) s = Done (tt, s') ∧ open_at h s' ∧
    let q' := checkpointQuorumMap s' in
    senders_at q' h = {[vote_signer v]} ∪ senders_at q h ∧
    info_at q' h = MkInfo (hash i) (rootHash i) (threshold i) (currentWeight i + vote_weight v)
      (reached i || bool_decide (threshold i ≤ currentWeight i + vote_weight v)).
Proof.
  intros q i [O1 O2 O3] Hok Hnew Hfit. destruct (add_quorum_run h v q O3 Hok Hnew Hfit) as (inc & Hr & Hinc). fold i in Hr, Hinc.
  unfold addCheckpointSignature. exists (MkStore (set_incomplete inc (set_info h (MkInfo (hash i) (rootHash i) (threshold i)
      (currentWeight i + vote_weight v) (reached i || bool_decide (threshold i ≤ currentWeight i + vote_weight v)))
      (set_signature h (vote_signer v) (vote_bytes v) q))) (bottomUpCheckpoints s) (store_batches s) (store_majority s)).
  split; [|split; [|cbv zeta; split]].
  - rewrite (bind_run _ _ s tt s).
    2:{ unfold on_quorums, zoom, isHeightAlreadyProcessed. erewrite bind_run by done. rewrite bool_decide_eq_false_2 by lia. by destruct s. }
    erewrite bind_run by done. rewrite O2. cbn [negb]. unfold on_quorums, zoom. fold q. by rewrite Hr.
  - split; [done|exact O2|]. unfold info_at. cbn. rewrite lookup_insert_eq. cbn. destruct Hinc as [?| ->]; [by left|]. destruct O3 as [Hre|?]; [left|by right].
    by fold q in Hre; fold i in Hre; rewrite Hre.
  - unfold senders_at. cbn. by rewrite lookup_insert_eq.
  - unfold info_at. cbn. by rewrite lookup_insert_eq.
Qed.

Lemma add_votes_run h vs s :
  let q := checkpointQuorumMap s in let i := info_at q h in
  let w := sumN (vote_weight <$> vs) in
  open_at h s → Forall (vote_ok (hash i) (rootHash i)) vs → NoDup (vote_signer <$> vs) →
  (∀ v, v ∈ vs → vote_signer v ∉ senders_at q h) → currentWeight i + w < u256_size →
  ∃ s', add_votes h vs s = Done (tt, s') ∧ open_at h s' ∧
    let q' := checkpointQuorumMap s' in let i' := info_at q' h in
    senders_at q' h = list_to_set (vote_signer <$> vs) ∪ senders_at q h ∧
    hash i' = hash i ∧ rootHash i' = rootHash i ∧ threshold i' = threshold i ∧ currentWeight i' = currentWeight i + w ∧
    (vs ≠ [] → threshold i ≤ currentWeight i + w → reached i' = true) ∧ (reached i = true → reached i' = true).
Proof.
  revert s. induction vs as [|v vs IH]; intros s q i w Ho Hok Hnd Hnew Hfit.
  { exists s. cbv zeta. split_and!; try done; first [set_solver|fold q i; unfold w; cbn; lia]. }
  apply Forall_cons in Hok as [Hv Hvs]. cbn [fmap list_fmap] in Hnd. apply NoDup_cons in Hnd as [Hnin Hnd].
  assert (w = vote_weight v + sumN (vote_weight <$> vs)) as Hwv by done.
  destruct (add_vote_run h v s Ho Hv) as (s1 & Hr1 & Ho1 & Hs1 & Hi1); [apply Hnew; set_solver|fold q i; lia|].
  fold q i in Hs1, Hi1. destruct (IH s1) as (s' & Hr & Ho' & Hs' & Hh & Hro & Hth & Hcw & Hre & Hkeep); try done.
  - by rewrite Hi1.
  - intros x Hx. rewrite Hs1. intros [Heq%elem_of_singleton|Hin]%elem_of_union.
    + apply Hnin. rewrite <-Heq. by apply list_elem_of_fmap_2.
    + by apply (Hnew x); [set_solver|].
  - rewrite Hi1. cbn. lia.
  - rewrite Hi1 in *. cbn [hash rootHash threshold currentWeight reached] in Hh, Hro, Hth, Hcw, Hre, Hkeep.
    exists s'. split; [cbn [add_votes]; by erewrite bind_run by exact Hr1|]. split; [done|]. cbv zeta. split_and!; try done.
    + rewrite Hs', Hs1. cbn [fmap list_fmap list_to_set]. set_solver.
    + rewrite Hcw. lia.
    + intros _ Hle. destruct vs as [|v' vs']; [|apply Hre; [done|lia]]. apply Hkeep. change (w = vote_weight v + 0) in Hwv.
      rewrite (bool_decide_eq_true_2 (threshold i ≤ currentWeight i + vote_weight v)) by lia. apply orb_true_r.
    + intros Hri. apply Hkeep. by rewrite Hri.
Qed.

(** Creating a checkpoint opens its height. *)
Lemma add_votes_ok h vs s u s' : add_votes h vs s = Done (u, s') → store_ok s → store_ok s'.
Proof.
  revert s. induction vs as [|v vs IH]; intros s Hr Hok; cbn [add_votes] in Hr; inv_done; [done|].
  eapply IH; [done|]. by eapply sign_ok.
Qed.

(** What is given out for a height is accepted by a parent that knows the signers, exactly if they reach its threshold. *)
Lemma bundle_accepted h s (signers : list N) (weights : list N) set all percent unit :
  store_ok s → open_at h s → senders_at (checkpointQuorumMap s) h = list_to_set signers → NoDup signers → signers ≠ [] →
  getTotalActivePower set = Done all → all * percent < u256_size → unit * sumN weights < u256_size →
  Forall2 (λ a w, isActiveValidator set a = true ∧ getPower set a = unit * w) signers weights →
  let '(info, signatories, signatures) := getSignatureBundle h (checkpointQuorumMap s) in
  validateActiveQuorumSignatures set percent signatories (hash info) signatures =
    if bool_decide (all * percent / 100 ≤ unit * sumN weights) then Done tt else Fail "InvalidSignatureErr"%string.
Proof.
  intros Hok Hopen Hs Hnd Hne Hall Hmul Hfit Hact. pose proof (collected_signed s h Hok (op_height _ _ Hopen)) as Hsigned.
  unfold getSignatureBundle in *. rewrite Hs in *. pose proof (elements_list_to_set (C:=gset N) signers Hnd) as Hperm.
  assert (getPower set <$> signers = N.mul unit <$> weights) as Hpow.
  { clear -Hact. induction Hact as [|a w l k [_ Hp] _ IH]; [done|]. cbn [fmap list_fmap]. by rewrite Hp, IH. }
  assert (sumN (getPower set <$> elements (list_to_set (C:=gset N) signers)) = unit * sumN weights) as Hsum.
  { by rewrite Hperm, Hpow, sumN_scale. }
  rewrite <-Hsum. apply validate_eq; try done.
  - intros Hnil. rewrite Hnil in Hperm. by apply Permutation_nil in Hperm.
  - rewrite Hperm. apply Forall_forall. intros a Ha. apply list_elem_of_lookup in Ha as [i Hi].
    eapply Forall2_lookup_l in Hact as (w & _ & [Ha _]); [exact Ha|exact Hi].
  - by rewrite Hsum.
Qed.

Lemma weightNeeded_inv w majority n : weightNeeded w majority = Done n → n = w * majority / 100.
Proof.
  unfold weightNeeded. intros (p & [Hp _]%checked_inv & Hn)%outcome_bind_Done.
  unfold u256_div in Hn. apply (inj Done) in Hn as <-. f_equal. lia.
Qed.

(** A checkpoint that has just been created has no signatures, and needs its share of the weight. *)
Lemma create_open sender c root w s x s' :
  createBottomUpCheckpoint sender c root w s = Done (x, s') → store_ok s →
  let h := cp_blockHeight c in let q := checkpointQuorumMap s' in
  open_at h s' ∧ senders_at q h = ∅ ∧
  info_at q h = MkInfo (checkpoint_hash c) root (w * store_majority s / 100) 0 false.
Proof.
  unfold createBottomUpCheckpoint, storeBottomUpCheckpoint. intros Hr (Hret & Hok). destruct (negb _); inv_done.
  destruct (bottomUpCheckpointExists _ _) eqn:He; inv_done.
  match goal with G : on_quorums _ _ = _ |- _ => apply on_quorums_inv in G as (q & Hq & ->) end.
  unfold createQuorumInfo in Hq. inv_done. case_bool_decide as Hle; inv_done. case_bool_decide; inv_done. case_bool_decide; inv_done.
  match goal with G : weightNeeded _ _ = _ |- _ => apply weightNeeded_inv in G as -> end.
  split; [split|split].
  - cbn. lia.
  - unfold bottomUpCheckpointExists. cbn. rewrite lookup_insert_eq. cbn. apply negb_true_iff, bool_decide_eq_false. lia.
  - right. cbn. set_solver.
  - apply dec_stable. intros Hne. destruct (Hok (cp_blockHeight c)) as [_ Hs]; [lia|]. rewrite Hs in He; [done|exact Hne].
  - unfold info_at. cbn. by rewrite lookup_insert_eq.
Qed.
End collecting.

(** ** From the node to the parent *)

Section across.
Context `{Profile, ParentData, ChainIds, !Machine, !Checkpoint.CheckpointGateway}.
Context `{Keccak, Abi, Keys, EthText, !Crypto, !CryptoLaws}.
Context (checkpoint_hash_of : Messages.BottomUpCheckpoint → N) (system_actor : N).
#[local] Instance across_quorum : QuorumEnv := node_quorum checkpoint_hash_of system_actor.

(** The calldata that the node makes is a call of [addCheckpointSignature]. *)
Context (call : Calldata → stm CheckpointStore string unit).
Hypothesis (call_spec : ∀ h prf w sig c, add_checkpoint_signature h prf w sig = Some c →
  call c = addCheckpointSignature h (num <$> prf) w (signature_bytes sig)).
(** The numbers of a signature that the libraries parse. *)
Hypothesis (parse_standard_fits : ∀ (b : vec byte 64) r s,
  parse_standard (vec_to_list b) = inr (r, s) → r < u256_size ∧ s < u256_size).
Hypothesis (parse_recovery_fits : ∀ sk h v, parse_recovery_id (sk_sign sk h).2 = inr v → v < 4).

Fixpoint run_calls (cs : list Calldata) : stm CheckpointStore string unit :=
  match cs with
  | [] => mret tt
  | c :: cs => call c ;; run_calls cs
  end.

(** The encoding of a validator in the tree is that of [abi.encode] in the contract. *)
Definition encoded (v : Validators.Validator) : Prop :=
  row_encoding VALIDATOR_TREE_FIELDS (validator_to_vec v) = Some (word (addr (eth_of_key (public_key v))) ++ word (power v)).

Lemma proof_verified v r prf :
  encoded v → validate_proof v r prf = Done true →
  verify_proof (num <$> prf) (num r) (validator_leaf (addr (eth_of_key (public_key v))) (power v)) = true.
Proof.
  intros He Hv. unfold validate_proof in Hv.
  apply outcome_bind_Done in Hv as (h & (e & He' & ->)%standard_leaf_hash_Done & (r' & Hr' & Heq)%outcome_bind_Done).
  unfold encoded in He. rewrite He in He'. apply (inj Some) in He' as <-. injection Heq as ->%bool_decide_eq_true. apply (inj Done) in Hr' as <-.
  unfold verify_proof, validator_leaf. apply bool_decide_eq_true. f_equal. rewrite hash_of_num, <-list_fmap_compose.
  unfold inner_hash. f_equal. etrans; [|apply list_fmap_id]. apply list_fmap_ext. intros k x _. apply hash_of_num.
Qed.

(** The contract recovers the signer from the bytes of the node's signature. *)
Lemma node_signature_recovered sk h sig :
  to_eth_signature (sign_secp256k1 sk h) false = Done sig →
  try_recover (num h) (signature_bytes sig) = Some (addr (eth_of_key (secret_public_key sk))).
Proof.
  intros Hsig. destruct (eth_recover_signed sk h) as (v & r & s & Hv & Hrs & Hrec).
  pose proof (eth_signature_parts sk h v r s false Hv Hrs) as Hparts. unfold sign_eth in Hparts. rewrite Hsig in Hparts. injection Hparts as ->.
  apply parse_recovery_fits in Hv. apply parse_standard_fits in Hrs as [Hr Hs].
  unfold try_recover. rewrite parse_signature_bytes by (cbn [eth_r eth_s eth_v]; first [done|lia]).
  cbn [eth_r eth_s eth_v]. by rewrite hash_of_num, N.add_sub, Hrec.
Qed.

(** What the node of a validator sends is a signature that the contract takes. *)
Lemma node_vote ck old t r v sk c :
  ValidatorMerkleTree_new old = Done t → root_hash t = Done r → (2 * Z.of_nat (length old) ≤ i32_max)%Z →
  v ∈ old → encoded v → public_key v = secret_public_key sk →
  add_checkpoint_signature_calldata ck old v sk = Done c →
  ∃ x, vote_signer x = addr (eth_of_key (public_key v)) ∧ vote_weight x = power v ∧
    vote_ok (num (checkpoint_abi_hash ck)) (num r) x ∧
    call c = addCheckpointSignature (cp_block_height ck) (vote_proof x) (vote_weight x) (vote_bytes x).
Proof.
  intros Ht Hr Hlen Hv He Hk Hc. unfold add_checkpoint_signature_calldata in Hc.
  rewrite (bool_decide_eq_true_2 _ Hk), andb_false_r in Hc.
  apply outcome_bind_Done in Hc as (sig & Hsig & Hc). rewrite Ht in Hc. unfold mbind at 1, outcome_bind in Hc.
  apply outcome_bind_Done in Hc as (prf & Hprf & Hc).
  destruct (prove_validates old t v Ht Hlen Hv) as (prf' & r' & Hp & Hr' & Hok).
  assert (prf' = prf) as -> by (apply (inj (Done (E:=string))); congruence).
  assert (r' = r) as -> by (apply (inj (Done (E:=string))); congruence).
  destruct (add_checkpoint_signature _ _ _ _) as [c'|] eqn:Hadd; [|done]. injection Hc as ->.
  exists (MkVote (addr (eth_of_key (public_key v))) (power v) (num <$> prf) (signature_bytes sig)).
  split; [done|]. split; [done|]. split; [|by apply call_spec]. split; [|by apply proof_verified].
  cbn [tryRecover quorum_submit across_quorum node_quorum vote_bytes vote_signer]. rewrite Hk. by apply node_signature_recovered.
Qed.
Lemma sumN_elem x l : x ∈ l → x ≤ sumN l.
Proof.
  induction 1 as [x l|x y l _ IH]; [change (x ≤ x + sumN l)|change (x ≤ y + sumN l)]; lia.
Qed.

(** The calls of several nodes are votes. *)
Lemma node_votes ck old t r (ns : list (Validators.Validator * SecretKey * Calldata)) :
  ValidatorMerkleTree_new old = Done t → root_hash t = Done r → (2 * Z.of_nat (length old) ≤ i32_max)%Z →
  Forall (λ n, n.1.1 ∈ old ∧ encoded n.1.1 ∧ public_key n.1.1 = secret_public_key n.1.2 ∧
    add_checkpoint_signature_calldata ck old n.1.1 n.1.2 = Done n.2) ns →
  ∃ xs, vote_signer <$> xs = (λ n, addr (eth_of_key (public_key n.1.1))) <$> ns ∧
    vote_weight <$> xs = (λ n, power n.1.1) <$> ns ∧
    Forall (vote_ok (num (checkpoint_abi_hash ck)) (num r)) xs ∧
    ∀ s, run_calls ns.*2 s = add_votes (cp_block_height ck) xs s.
Proof.
  intros Ht Hr Hlen. induction 1 as [|[[v sk] c] ns (Hv & He & Hk & Hc) _ (xs & Hs & Hw & Hok & Hrun)].
  { by exists []. }
  destruct (node_vote ck old t r v sk c Ht Hr Hlen Hv He Hk Hc) as (x & Hxs & Hxw & Hxok & Hcall).
  exists (x :: xs). cbn [fmap list_fmap fst snd]. split_and!; [by rewrite Hxs, Hs|by rewrite Hxw, Hw|by constructor|].
  intros s. cbn [run_calls add_votes]. rewrite Hcall. unfold mbind, stm_bind.
  destruct (addCheckpointSignature _ _ _ _ s) as [[u s']| | | |]; [apply Hrun|done..].
Qed.

(** The checkpoints of a node's ledger, as a contract of the child keeps them. *)
Context `{!HashOrder (vec byte 65), !CheckpointLaws}.
Hypothesis (abi_encodes : ∀ v, power v < u256_size → encoded v).

(** The parent. *)
Context `{!ActorEnv, !Submission.CheckpointGateway}.

(** C8: the way of a checkpoint from the child to the parent.  The interpreter of
    the child has created a checkpoint, with the root and the total power that it has computed from
    the power table, and the gateway of the child has taken it.  The nodes of validators of this
    table make the calldata of their signatures, and together have the power that is needed.
    Then the gateway of the child takes all these calls, the quorum is reached, and what the gateway gives out
    to a relayer has exactly these signers.  A subnet actor on the parent that has them as active validators,
    with the powers as collateral in some unit, that is not paused, for which the height is the next one, whose
    gateway takes the checkpoint and for which its changes can be confirmed, takes the submission exactly if the
    collateral of the signers reaches the threshold of the parent.  It does when all the collateral is
    that of the table and the signers have the majority without rounding; a quorum of the child is
    rounded down in the unit of the powers and need not. *)
Theorem checkpoint_crosses st ck updates st' old majority s c root total s1
    (ns : list (Validators.Validator * SecretKey * Calldata)) :
  maybe_create_checkpoint st = Done (Some (ck, updates), st') →
  membership_to_power_table (book_membership (fvm st)) (power_scale (updatable st)) = Done old →
  (2 * Z.of_nat (length old) ≤ i32_max)%Z →
  book_checkpoints (fvm st') !! cp_block_height ck = Some (ck, root, total) →
  rtc checkpoint_step (empty_store majority) s →
  cp_blockHeight c = cp_block_height ck → checkpoint_hash_of c = num (checkpoint_abi_hash ck) →
  createBottomUpCheckpoint system_actor c (num root) total s = Done (tt, s1) →
  Forall (λ n, n.1.1 ∈ old ∧ public_key n.1.1 = secret_public_key n.1.2 ∧
    add_checkpoint_signature_calldata ck old n.1.1 n.1.2 = Done n.2) ns →
  let weight := sumN ((λ n, power n.1.1) <$> ns) in
  let signers := (λ n, addr (eth_of_key (public_key n.1.1))) <$> ns in
  ns ≠ [] → NoDup signers → weight < u256_size → total * store_majority s / 100 ≤ weight →
  ∃ s2, run_calls ns.*2 s1 = Done (tt, s2) ∧
    let '(info, signatories, signatures) := getSignatureBundle (cp_blockHeight c) (checkpointQuorumMap s2) in
    reached info = true ∧ currentWeight info = weight ∧ signatories ≡ₚ signers ∧
    ∀ p w all unit,
      let a := actor (sm_world p) in
      let percent := majorityPercentage (SubnetActor.params a) in
      paused a = false → N.of_nat (length (cp_msgs c)) ≤ SubnetActor.maxMsgsPerBottomUpBatch (SubnetActor.params a) →
      lastBottomUpCheckpointHeight p < cp_blockHeight c →
      getNextEpoch (lastBottomUpCheckpointHeight p) (SubnetActor.bottomUpCheckPeriod (SubnetActor.params a)) = Done (cp_blockHeight c) →
      (gw_commitCheckpoint c ;; confirmChange (cp_nextConfigurationNumber c)) (sm_world p) = Done (tt, w) →
      getTotalActivePower (validatorSet a) = Done all → all * percent < u256_size → unit * weight < u256_size →
      Forall (λ n, isActiveValidator (validatorSet a) (addr (eth_of_key (public_key n.1.1))) = true ∧
        getPower (validatorSet a) (addr (eth_of_key (public_key n.1.1))) = unit * power n.1.1) ns →
      submitCheckpoint c signatories signatures p =
        (if bool_decide (all * percent / 100 ≤ unit * weight)
         then Done (tt, MkSubmissions w (cp_blockHeight c) (<[cp_blockHeight c := c]> (committedCheckpoints p)))
         else Fail "InvalidSignatureErr"%string) ∧
      (all = unit * total → total * percent ≤ 100 * weight → all * percent / 100 ≤ unit * weight).
Proof.
  intros Hrun Hold Hlen Hbook Hsteps Hh Hhash Hcreate Hns weight signers Hne Hnd Hfit Hq.
  destruct (checkpoint_run _ _ _ _ Hrun) as (old' & new & t & r & Hold' & _ & Ht & Hr & _ & _ & Hb & _).
  assert (old' = old) as -> by (apply (inj (Done (E:=string))); congruence).
  rewrite Hb, lookup_insert_eq in Hbook. injection Hbook as -> <-.
  pose proof (steps_ok _ _ Hsteps (empty_store_ok majority)) as Hs0.
  destruct (create_open _ _ _ _ _ _ _ Hcreate Hs0) as (Hopen & Hnone & Hinfo).
  destruct (node_votes ck old t root ns Ht Hr Hlen) as (xs & Hxs & Hxw & Hxok & Hcalls).
  { eapply Forall_impl; [apply Forall_and; split; [exact Hns|apply Forall_forall; intros n Hn; exact Hn]|].
    intros n ((Hin & Hk & Hd) & Hn). split_and!; [done| |done|done]. apply abi_encodes. eapply N.le_lt_trans; [|exact Hfit].
    unfold weight. apply sumN_elem. by apply (list_elem_of_fmap_2 (λ n, power n.1.1)). }
  destruct (add_votes_run (cp_block_height ck) xs s1) as (s2 & Hs2 & Ho2 & Hsenders & Hh2 & _ & _ & Hcw & Hreach & _).
  all: rewrite <-?Hh, ?Hinfo, ?Hnone, ?Hxs, ?Hxw; cbn [hash rootHash currentWeight].
  { exact Hopen. }
  { change (checkpoint_hash c) with (checkpoint_hash_of c). by rewrite Hhash. }
  { exact Hnd. }
  { set_solver. }
  { done. }
  rewrite <-Hh, Hinfo in Hreach, Hcw, Hh2. rewrite <-Hh, Hnone, Hxs, union_empty_r_L in Hsenders.
  cbn [hash threshold currentWeight] in Hreach, Hcw, Hh2. rewrite Hxw in Hreach, Hcw.
  exists s2. split; [by rewrite Hcalls|].
  assert (store_ok s2) as Hok2 by (eapply add_votes_ok; [exact Hs2|]; by eapply create_ok).
  pose proof (λ set all percent unit, bundle_accepted (cp_blockHeight c) s2 signers ((λ n, power n.1.1) <$> ns) set all percent unit Hok2)
    as Haccept.
  unfold getSignatureBundle in *. rewrite Hsenders in *. change (checkpoint_hash c) with (checkpoint_hash_of c) in Hh2.
  split_and!; [apply Hreach; [|done]|exact Hcw|by apply elements_list_to_set|].
  - intros ->. by destruct ns.
  - intros p w all unit Hp Hm Hlast He Hw Hall Hmul Hfit' Hact. split.
    + rewrite (submit_next c _ _ p w Hp Hm Hlast He Hw). change (checkpoint_hash c) with (checkpoint_hash_of c). rewrite <-Hh2.
      rewrite (Haccept _ all _ unit); [fold weight; by case_bool_decide|by rewrite Hh|done|done|by destruct ns|done|done|done|].
      unfold signers. apply Forall2_fmap, Forall_Forall2_diag. exact Hact.
    + intros -> Hexact. apply N.Div0.div_le_upper_bound. nia.
Qed.
End across.

(** ** A concrete checkpoint

    Two validators, whose powers of 5 and 7 are the collateral in tokens. *)

Module SampleBottomUp.
Import SampleKeccak SampleCrypto SampleLedger.

(** Values are written in hexadecimal, and encoded as words. *)
#[export] Instance word_abi : MerkleStandard.Abi := {|
  ParamType := string;
  read_param := inr;
  Token := N;
  tokenize _ v := match SampleAbi.decode v with inl e => inl e | inr b => inr (from_be_bytes b) end;
  abi_encode ts := ts ≫= word
|}.
#[export] Instance word_text : EthText := {|
  h160_debug a := SampleAbi.encode (vec_to_list a);
  u256_to_string n := SampleAbi.encode (word n)
|}.

Definition hash_at (c : Messages.BottomUpCheckpoint) : N := from_be_bytes (cp_blockHash c).
Definition call (c : Calldata) : stm CheckpointStore string unit :=
  let '(h, p, w, s) := c in
  @addCheckpointSignature (node_quorum hash_at 1) h (num <$> p) w (signature_bytes s).

Lemma words_encoded v : power v < u256_size → encoded v.
Proof.
  intros Hv. unfold encoded, row_encoding, validator_to_vec, VALIDATOR_TREE_FIELDS.
  cbn [tokens_from read_param word_abi lookup list_lookup unwrap mbind outcome_bind h160_debug u256_to_string word_text tokenize].
  rewrite !SampleAbi.decode_encode. cbn [mbind outcome_bind abi_encode word_abi]. rewrite word_value by done.
  cbn [list_bind mbind]. by rewrite app_nil_r.
Qed.

Lemma standard_fits (b : vec byte 64) r s : parse_standard (vec_to_list b) = inr (r, s) → r < u256_size ∧ s < u256_size.
Proof.
  intros [= <- <-]. pose proof (length_vec_to_list b) as Hl.
  split; eapply N.lt_le_trans; try apply from_be_bytes_lt; rewrite ?length_take, ?length_drop, Hl; done.
Qed.

Definition outcome_of : option (Checkpoint N * list Validators.Validator) * FvmExecState :=
  done_or (None, exec) (maybe_create_checkpoint exec).
Definition ck : Checkpoint FacetEnvelope := default (MkCkpt (MkEvmSubnet 0 []) 0 hash_zero 0 []) (fst <$> outcome_of.1).
Definition updates : list Validators.Validator := default [] (snd <$> outcome_of.1).
Definition table : list Validators.Validator := done_or [] (membership_to_power_table members_1 0).
Definition tree_root : Hash :=
  match ValidatorMerkleTree_new table with Done t => done_or hash_zero (root_hash t) | _ => hash_zero end.
Definition contract_ck : Messages.BottomUpCheckpoint :=
  Messages.MkCheckpoint no_id (cp_block_height ck) (vec_to_list (checkpoint_abi_hash ck)) 0 [].
Definition opened : CheckpointStore :=
  match @createBottomUpCheckpoint (node_quorum hash_at 1) 1 contract_ck (num tree_root) 12 (empty_store 67) with
  | Done (_, s) => s | _ => empty_store 67
  end.
Definition signer (k : vec byte 64) (w : N) : Validators.Validator * SecretKey * Calldata :=
  let v := MkValidator k w in
  (v, k, done_or (0, [], 0, MkEthSignature 0 0 0) (add_checkpoint_signature_calldata ck table v k)).
Definition signers : list (Validators.Validator * SecretKey * Calldata) := [signer alice 5; signer bob 7].
Definition address (k : vec byte 64) : N := addr (eth_of_key k).
Definition tokens : N := 10 ^ 18.
Definition staked : ValidatorSet :=
  default no_validators (assign_all [(address alice, 5 * tokens); (address bob, 7 * tokens)]
    (MkSet Federated 10 0 ∅ pq_empty pq_empty)).

Lemma ck_created : maybe_create_checkpoint exec = Done (Some (ck, updates), outcome_of.2).
Proof.
  transitivity (Done (E:=string) outcome_of).
  - apply done_or_eq. vm_compute. reflexivity.
  - apply (f_equal Done). apply has_value_pair. vm_compute. reflexivity.
Qed.

Lemma signer_ok k w :
  MkValidator k w ∈ table → is_done (add_checkpoint_signature_calldata ck table (MkValidator k w) k) = true →
  let n := signer k w in
  n.1.1 ∈ table ∧ public_key n.1.1 = secret_public_key n.1.2 ∧
  add_checkpoint_signature_calldata ck table n.1.1 n.1.2 = Done n.2.
Proof. intros Hin Hd. split_and!; [done|done|]. by apply done_or_eq. Qed.

(** The parent: it has the checkpoint of the height 10, and the signers as its validators. *)
#[export] Existing Instance SampleSubmission.sample_actor.
#[export] Existing Instance SampleSubmission.sample_commit.
Definition parent_world : SubnetActor.World :=
  MkWorld (SubnetActor.MkActor (MkParams 0 10 10 67 1) true false false (MkGenesis 0 [] ∅ []) staked (Staking.MkLog 1 1 ∅) (Staking.MkQueue 0 ∅) ∅ ∅) None ∅ 0.
Definition parent : Submissions := MkSubmissions parent_world 10 ∅.

Lemma checkpoint_crosses_witness :
  ∃ s2, run_calls call signers.*2 opened = Done (tt, s2) ∧
    let '(info, signatories, signatures) := getSignatureBundle 20 (checkpointQuorumMap s2) in
    reached info = true ∧
    @submitCheckpoint (@quorum_submit (node_quorum hash_at 1)) _ _ contract_ck signatories signatures parent =
      Done (tt, MkSubmissions parent_world 20 {[20 := contract_ck]}).
Proof.
  destruct (checkpoint_crosses hash_at 1 call ltac:(by intros h p w s c [= <-]) standard_fits ltac:(by intros sk h v [= <-])
    words_encoded exec ck updates outcome_of.2 table 67 (empty_store 67) contract_ck tree_root 12 opened signers)
    as (s2 & Hrun & Hend).
  - apply ck_created.
  - apply done_or_eq. vm_compute. reflexivity.
  - vm_compute. discriminate.
  - vm_compute. reflexivity.
  - constructor.
  - reflexivity.
  - vm_compute. reflexivity.
  - vm_compute. reflexivity.
  - apply Forall_cons_2; [|apply Forall_cons_2; [|apply Forall_nil_2]].
    all: apply signer_ok; [apply (bool_decide_unpack _); vm_compute; exact I|vm_compute; reflexivity].
  - discriminate.
  - apply (bool_decide_unpack _). vm_compute. exact I.
  - by vm_compute.
  - by vm_compute.
  - exists s2. split; [done|].
    assert (cp_blockHeight contract_ck = 20) as Hh by by vm_compute. rewrite Hh in Hend.
    unfold getSignatureBundle in *. destruct Hend as (Hr & _ & _ & Haccept). split; [done|].
    destruct (Haccept parent parent_world (12 * tokens) tokens) as [Hs _].
    1-8: by vm_compute.
    + apply Forall_cons_2; [|apply Forall_cons_2; [|apply Forall_nil_2]]; split; vm_compute; reflexivity.
    + rewrite bool_decide_eq_true_2 in Hs by (vm_compute; discriminate). exact Hs.
Defined.
End SampleBottomUp.
