(* ===== verification/Car.v ===== *)
(** * Snapshots of the state as CAR files

    [fendermint/vm/interpreter/src/fvm/state/snapshot.rs] and the block stores of [fvm/store]: a
    snapshot streams the blocks that are reachable from a state root into a CAR file, together with
    the parameters of the state and a description, and is read back into another store.  The
    encodings, the CAR format and the state tree are library code, and parameters. *)

From Stdlib Require Import Strings.Byte.
From S2P Require Import Prelude OrdMap Weights Cache Voting Finality Node Fetch Syncer Pool Merkle Ledger.

(** ** Block stores *)

Class Blockstore `{ChainIds} (BS : Type) := {
  bs_get : BS → Cid → string + option (list byte);
  bs_put_keyed : Cid → list byte → BS → outcome string BS
}.

Section stores.
Context `{ChainIds}.

(** [MemoryBlockstore]. *)
Definition MemoryBlockstore : Type := gmap Cid (list byte).
Definition memory_has (m : MemoryBlockstore) (k : Cid) : string + bool := inr (bool_decide (is_Some (m !! k))).
Definition memory_get (m : MemoryBlockstore) (k : Cid) : string + option (list byte) := inr (m !! k).
Definition memory_put_keyed (k : Cid) (block : list byte) (m : MemoryBlockstore) : outcome string MemoryBlockstore :=
  Done (<[k := block]> m).
#[export] Instance memory_blockstore : Blockstore MemoryBlockstore :=
  {| bs_get := memory_get; bs_put_keyed := memory_put_keyed |}.

(** [ReadOnlyBlockstore]: only the empty array is written. *)
Record ReadOnlyBlockstore (BS : Type) := MkReadOnly { writable : BS }.
Arguments MkReadOnly {_} _.
Arguments writable {_} _.
Context (EMPTY_ARR_CID : Cid).
Definition read_only_get {BS} `{!Blockstore BS} (s : ReadOnlyBlockstore BS) (k : Cid) : string + option (list byte) :=
  bs_get (writable s) k.
Definition read_only_put_keyed {BS} `{!Blockstore BS} (k : Cid) (block : list byte) (s : ReadOnlyBlockstore BS) :
    outcome string (ReadOnlyBlockstore BS) :=
  if bool_decide (k = EMPTY_ARR_CID) then MkReadOnly <$> bs_put_keyed k block (writable s) else Panic.
Definition read_only_blockstore {BS} `{!Blockstore BS} : Blockstore (ReadOnlyBlockstore BS) :=
  {| bs_get := read_only_get; bs_put_keyed := read_only_put_keyed |}.

(** A read-only store never changes what a block is, except for the empty array. *)
Lemma read_only_keeps (m : MemoryBlockstore) k block s k' :
  read_only_put_keyed k block (MkReadOnly m) = Done s → k' ≠ EMPTY_ARR_CID →
  read_only_get s k' = read_only_get (MkReadOnly m) k'.
Proof.
  unfold read_only_put_keyed. case_bool_decide as Hk; [|done]. intros [= <-] Hne.
  unfold read_only_get. cbn [writable bs_get memory_blockstore]. unfold memory_get. f_equal. apply (lookup_insert_ne (M:=gmap Cid)). congruence.
Qed.
End stores.
Arguments MkReadOnly {_} _.
Arguments writable {_} _.

(** ** Data *)

Set Warnings "-register-all".
(** [libipld::Ipld]; a map is visited in the order of its keys. *)
Inductive Ipld `{ChainIds} :=
| IpldNull
| IpldBool (b : bool)
| IpldInteger (z : Z)
| IpldFloat (bits : N)
| IpldString (s : string)
| IpldBytes (b : list byte)
| IpldList (v : list Ipld)
| IpldMap (m : list (string * Ipld))
| IpldLink (cid : Cid).

Record SnapshotMetadata `{ChainIds} := MkMetadata { meta_version : N; data_root_cid : Cid }.
Arguments MkMetadata {_} _ _.

Definition BlockHeight : Type := N.
Definition SnapshotVersion : Type := N.
Definition BlockStateParams `{ChainIds} : Type := FvmStateParams * BlockHeight.
#[export] Instance FvmStateParams_eq_dec `{ChainIds} : EqDecision FvmStateParams.
Proof. solve_decision. Defined.
#[export] Instance FvmStateParams_countable `{ChainIds} : Countable FvmStateParams :=
  inj_countable' (λ p, (sp_state_root p, sp_timestamp p, sp_network_version p, sp_base_fee p, sp_circ_supply p, sp_chain_id p, sp_power_scale p, sp_app_version p))
    (λ '(a, b, c, d, e, f, g, h), MkStateParams a b c d e f g h) (λ p, match p with MkStateParams _ _ _ _ _ _ _ _ => eq_refl end).

Record V1Snapshot `{ChainIds} (BS : Type) := MkV1 {
  v1_store : BS;
  v1_state_params : FvmStateParams;
  v1_block_height : BlockHeight
}.
Arguments MkV1 {_ _} _ _ _.
Arguments v1_store {_ _} _.
Arguments v1_state_params {_ _} _.
Arguments v1_block_height {_ _} _.

Inductive Snapshot `{ChainIds} (BS : Type) := V1 (s : V1Snapshot BS).
Arguments V1 {_ _} _.

(** What the libraries provide: identifiers, encodings, the state tree, streams and CAR files. *)
Class CarEnv `{ChainIds} := {
  cid_codec : Cid → N;
  DAG_CBOR : N;
  (* [Cid::new_v1(DAG_CBOR, Code::Blake2b256.digest(&bytes))] *)
  cbor_cid : list byte → Cid;
  ipld_from_slice : list byte → option Ipld;
  params_to_vec : BlockStateParams → string + list byte;
  params_from_slice : list byte → string + BlockStateParams;
  metadata_to_vec : SnapshotMetadata → string + list byte;
  metadata_from_slice : list byte → string + SnapshotMetadata;
  (* the error of [StateTree::new_from_root], if there is one *)
  new_from_root : (Cid → string + option (list byte)) → Cid → option string;
  (* [StreamExt::merge] of two streams that end *)
  merge {A} : list A → list A → list A;
  (* [fvm_ipld_car]: a frame is a length and as many bytes; a file is a frame with the header and
     one for each block; loading puts blocks into a store, and returns the roots or an error *)
  varint : N → list byte;
  header_to_vec : list Cid → list byte;
  cid_to_bytes : Cid → list byte;
  load_car : bool → list byte → list (Cid * list byte) * (string + list Cid)
}.

Section car.
Context `{CarEnv}.

(** [ld_write], and what [write_stream_async] writes. *)
Definition ld_frame (b : list byte) : list byte := varint (N.of_nat (length b)) ++ b.
Definition block_frame (b : Cid * list byte) : list byte := ld_frame (cid_to_bytes b.1 ++ b.2).
Definition car_frames (roots : list Cid) (blocks : list (Cid * list byte)) : list (list byte) :=
  ld_frame (header_to_vec roots) :: (block_frame <$> blocks).
Definition car_bytes (roots : list Cid) (blocks : list (Cid * list byte)) : list byte := concat (car_frames roots blocks).

(** ** Streaming the state tree *)

Fixpoint walk_ipld_cids (ipld : Ipld) (dfs : list Cid) : list Cid :=
  match ipld with
  | IpldList v => fold_left (λ dfs i, walk_ipld_cids i dfs) v dfs
  | IpldMap m => fold_left (λ dfs kv, walk_ipld_cids kv.2 dfs) m dfs
  | IpldLink cid => dfs ++ [cid]
  | _ => dfs
  end.

Section streamer.
Context (get : Cid → string + option (list byte)).

(** [StateTreeStreamer::poll_next]: blocks that are not in the store are skipped, and an error of the
    store ends the stream. *)
Fixpoint poll_next_block (dfs : list Cid) : outcome string (option (Cid * list byte) * list Cid) :=
  match dfs with
  | [] => Done (None, [])
  | cid :: dfs =>
      match get cid with
      | inr (Some bytes) =>
          if bool_decide (cid_codec cid = DAG_CBOR) then
            match ipld_from_slice bytes with
            | Some ipld => Done (Some (cid, bytes), walk_ipld_cids ipld dfs)
            | None => Panic
            end
          else Done (Some (cid, bytes), dfs)
      | inr None => poll_next_block dfs
      | inl _ => Done (None, dfs)
      end
  end.

(** The stream as a whole. *)
Fixpoint state_tree_blocks (fuel : nat) (dfs : list Cid) : outcome string (list (Cid * list byte)) :=
  match fuel with
  | O => OutOfFuel
  | S fuel =>
      r ← poll_next_block dfs;
      match r with
      | (None, _) => Done []
      | (Some b, dfs) => rest ← state_tree_blocks fuel dfs; Done (b :: rest)
      end
  end.
End streamer.

Definition of_result {A} (r : string + A) : outcome string A :=
  match r with inl e => Fail e | inr a => Done a end.

(** ** Snapshots *)

Section snapshot.
Context {BS : Type} `{!Blockstore BS}.

Definition v1_new (store : BS) (state_params : FvmStateParams) (block_height : BlockHeight) : outcome string (V1Snapshot BS) :=
  match new_from_root (bs_get store) (sp_state_root state_params) with
  | Some e => Fail e
  | None => Done (MkV1 store state_params block_height)
  end.

Definition snapshot_new (store : BS) (state_params : FvmStateParams) (block_height : BlockHeight) : outcome string (Snapshot BS) :=
  s ← v1_new store state_params block_height; Done (V1 s).

Definition snapshot_version (s : Snapshot BS) : SnapshotVersion := match s with V1 _ => 1 end.

(** [get_cbor]. *)
Definition get_cbor {A} (from_slice : list byte → string + A) (store : BS) (cid : Cid) : outcome string (option A) :=
  match bs_get store cid with
  | inl e => Fail e
  | inr None => Done None
  | inr (Some bytes) => a ← of_result (from_slice bytes); Done (Some a)
  end.

Definition from_root (store : BS) (root_cid : Cid) : outcome string (V1Snapshot BS) :=
  p ← get_cbor params_from_slice store root_cid;
  match p with
  | Some (state_params, block_height) =>
      match new_from_root (bs_get store) (sp_state_root state_params) with
      | Some e => Fail e
      | None => Done (MkV1 store state_params block_height)
      end
  | None => Fail "invalid v1 snapshot, root cid not found"%string
  end.

(** The stream of a snapshot, with the identifier of the parameters. *)
Definition v1_into_streamer (fuel : nat) (s : V1Snapshot BS) : outcome string (Cid * list (Cid * list byte)) :=
  let state_tree_root := sp_state_root (v1_state_params s) in
  bytes ← of_result (params_to_vec (v1_state_params s, v1_block_height s));
  let root_cid := cbor_cid bytes in
  blocks ← state_tree_blocks (bs_get (v1_store s)) fuel [state_tree_root];
  Done (root_cid, merge blocks [(root_cid, bytes)]).

Definition into_streamer (fuel : nat) (s : Snapshot BS) : outcome string (SnapshotMetadata * list (Cid * list byte)) :=
  match s with
  | V1 inner =>
      r ← v1_into_streamer fuel inner;
      Done (MkMetadata 1 r.1, r.2)
  end.

Definition derive_cid (m : SnapshotMetadata) : outcome string (Cid * list byte) :=
  bytes ← of_result (metadata_to_vec m);
  Done (cbor_cid bytes, bytes).

(** The roots and the blocks of the file that is written. *)
Definition write_car (fuel : nat) (s : Snapshot BS) : outcome string (list Cid * list (Cid * list byte)) :=
  r ← into_streamer fuel s;
  m ← derive_cid r.1;
  Done ([m.1], merge [m] r.2).

(** Putting blocks into a store. *)
Fixpoint put_blocks (blocks : list (Cid * list byte)) (store : BS) : outcome string BS :=
  match blocks with
  | [] => Done store
  | (cid, bytes) :: blocks => store ← bs_put_keyed cid bytes store; put_blocks blocks store
  end.

(** The store that the blocks are put into stays, whatever comes after. *)
Definition read_car (car : list byte) (validate : bool) : io BS string (Snapshot BS) := λ store,
  let '(blocks, result) := load_car validate car in
  match put_blocks blocks store with
  | Done store =>
      (roots ← of_result result;
       metadata_cid ← match roots with
                      | [cid] => Done cid
                      | _ => Fail "invalid snapshot, should have 1 root cid"%string
                      end;
       m ← get_cbor metadata_from_slice store metadata_cid;
       match m with
       | None => Fail "invalid snapshot, metadata not found"%string
       | Some m =>
           if bool_decide (meta_version m = 1) then s ← from_root store (data_root_cid m); Done (V1 s)
           else Fail "unknown snapshot version"%string
       end, store)
  | Fail e => (Fail e, store)
  | Retry => (Retry, store)
  | Panic => (Panic, store)
  | OutOfFuel => (OutOfFuel, store)
  end.
End snapshot.

Lemma state_tree_blocks_mono get fuel fuel' dfs out :
  state_tree_blocks get fuel dfs = Done out → (fuel ≤ fuel')%nat → state_tree_blocks get fuel' dfs = Done out.
Proof.
  revert fuel' dfs out. induction fuel as [|fuel IH]; intros [|fuel'] dfs out Hr Hle; try done; [lia|]. cbn [state_tree_blocks] in *.
  destruct (poll_next_block get dfs) as [[[b|] dfs']| | | |]; try done. cbn [mbind outcome_bind] in *.
  destruct (state_tree_blocks get fuel dfs') as [rest| | | |] eqn:Hrest; try done.
  rewrite (IH fuel' dfs' rest) by (done || lia). done.
Qed.

(** ** What is streamed *)

(** The links in a piece of data, from left to right. *)
Fixpoint ipld_links (ipld : Ipld) : list Cid :=
  match ipld with
  | IpldList v => concat (ipld_links <$> v)
  | IpldMap m => concat ((λ kv, ipld_links kv.2) <$> m)
  | IpldLink cid => [cid]
  | _ => []
  end.

Lemma fold_left_app {A B} (f : B → list A → list A) (g : B → list A) l acc :
  Forall (λ b, ∀ acc, f b acc = acc ++ g b) l → fold_left (λ acc b, f b acc) l acc = acc ++ concat (g <$> l).
Proof.
  intros Hl. revert acc. induction Hl as [|b l Hb _ IH]; intros acc; cbn; [by rewrite app_nil_r|].
  by rewrite IH, Hb, app_assoc.
Qed.

Fixpoint walk_links (ipld : Ipld) : ∀ dfs, walk_ipld_cids ipld dfs = dfs ++ ipld_links ipld.
Proof.
  destruct ipld as [| | | | | |v|m|cid]; intros dfs; cbn [walk_ipld_cids ipld_links]; rewrite ?app_nil_r; try reflexivity.
  - apply (fold_left_app walk_ipld_cids ipld_links). induction v as [|i v IH]; constructor; [intros acc; apply walk_links|exact IH].
  - apply (fold_left_app (λ kv, walk_ipld_cids kv.2) (λ kv, ipld_links kv.2)).
    induction m as [|[k i] m IH]; constructor; [intros acc; apply walk_links|exact IH].
Qed.

Section streamed.
Context (get : Cid → string + option (list byte)).

(** The links of a block. *)
Definition links_of (c : Cid) : list Cid :=
  match get c with
  | inr (Some bytes) =>
      if bool_decide (cid_codec c = DAG_CBOR) then from_option ipld_links [] (ipld_from_slice bytes) else []
  | _ => []
  end.
Definition linked (c d : Cid) : Prop := d ∈ links_of c.

(** What the store holds at an identifier can be streamed: it answers, and the data can be read. *)
Definition streamable (c : Cid) : Prop :=
  match get c with
  | inl _ => False
  | inr None => True
  | inr (Some bytes) => cid_codec c = DAG_CBOR → is_Some (ipld_from_slice bytes)
  end.
Definition reachable (dfs : list Cid) (c : Cid) : Prop := ∃ r, r ∈ dfs ∧ rtc linked r c.

Lemma reachable_step c dfs d :
  reachable (c :: dfs) d ↔ c = d ∨ reachable (dfs ++ links_of c) d.
Proof.
  unfold reachable. split.
  - intros (r & [->|Hr]%elem_of_cons & Hd).
    + apply rtc_inv in Hd as [->|(e & He & Hd)]; [by left|]. right. exists e. split; [|done]. set_solver.
    + right. exists r. set_solver.
  - intros [->|(r & [Hr|Hr]%elem_of_app & Hd)].
    + exists d. split; [set_solver|done].
    + exists r. set_solver.
    + exists c. split; [set_solver|]. by eapply rtc_l.
Qed.

Lemma reachable_missing c dfs d : links_of c = [] → reachable (c :: dfs) d ↔ c = d ∨ reachable dfs d.
Proof. intros Hl. by rewrite reachable_step, Hl, app_nil_r. Qed.

(** Identifiers do not link to themselves, not even indirectly. *)
Context (rank : Cid → nat).
Hypothesis (acyclic : ∀ c d, linked c d → (rank d < rank c)%nat).

Fixpoint weight (n : nat) (c : Cid) : nat :=
  match n with
  | O => 1
  | S n => S (sum_list (weight n <$> links_of c))
  end.
Definition size_of (c : Cid) : nat := weight (rank c) c.

Lemma weight_stable n c : (rank c ≤ n)%nat → weight n c = size_of c.
Proof.
  revert c. induction n as [n IH] using lt_wf_ind. intros c Hn. unfold size_of.
  destruct n as [|n]; [by replace (rank c) with 0%nat by lia|].
  assert (∀ k, (k < S n)%nat → (rank c ≤ S k)%nat → weight k <$> links_of c = size_of <$> links_of c) as Hk.
  { intros k Hk Hr. apply list_fmap_ext. intros i d Hd. apply IH; [done|].
    apply list_elem_of_lookup_2, acyclic in Hd. lia. }
  destruct (rank c) as [|r] eqn:Hr; cbn [weight].
  - destruct (links_of c) as [|d l] eqn:Hl; [done|].
    assert (linked c d) as Hd%acyclic by (unfold linked; rewrite Hl; set_solver). lia.
  - rewrite !Hk by lia. done.
Qed.

Lemma size_of_links c : size_of c = S (sum_list (size_of <$> links_of c)).
Proof.
  rewrite <-(weight_stable (S (rank c))) by lia. cbn [weight]. f_equal. f_equal. apply list_fmap_ext.
  intros i d Hd. apply weight_stable. apply list_elem_of_lookup_2, acyclic in Hd. lia.
Qed.

Definition queue_size (dfs : list Cid) : nat := sum_list (size_of <$> dfs).

Lemma queue_size_app dfs dfs' : queue_size (dfs ++ dfs') = (queue_size dfs + queue_size dfs')%nat.
Proof. unfold queue_size. by rewrite fmap_app, sum_list_with_app. Qed.

Lemma poll_next_cases dfs :
  (∀ c, reachable dfs c → streamable c) →
  match poll_next_block get dfs with
  | Done (None, _) => ∀ c b, reachable dfs c → get c ≠ inr (Some b)
  | Done (Some (c, b), dfs') =>
      get c = inr (Some b) ∧ reachable dfs c ∧ (queue_size dfs' < queue_size dfs)%nat ∧
      (∀ d, reachable dfs' d → reachable dfs d) ∧
      (∀ d b', reachable dfs d → get d = inr (Some b') → d = c ∨ reachable dfs' d)
  | _ => False
  end.
Proof.
  induction dfs as [|c dfs IH]; intros Hs; cbn [poll_next_block].
  { intros c b (r & []%not_elem_of_nil & _). }
  assert (streamable c) as Hc by (apply Hs, reachable_step; by left).
  assert (queue_size (c :: dfs) = size_of c + queue_size dfs)%nat as Hq by done. rewrite size_of_links in Hq.
  unfold streamable in Hc. pose proof (reachable_step c dfs) as Hstep.
  destruct (get c) as [e|[b|]] eqn:Hg; [done| |].
  - assert (links_of c = if bool_decide (cid_codec c = DAG_CBOR) then from_option ipld_links [] (ipld_from_slice b) else []) as Hl
      by (unfold links_of; by rewrite Hg).
    destruct (bool_decide (cid_codec c = DAG_CBOR)) eqn:Hcodec.
    + apply bool_decide_eq_true in Hcodec. destruct (Hc Hcodec) as [ipld Hi]. rewrite Hi in *. cbn [from_option] in Hl.
      rewrite walk_links, <-Hl. fold (queue_size (links_of c)) in Hq. rewrite queue_size_app.
      split_and!; [done|apply Hstep; by left|lia|intros d Hd; apply Hstep; by right|].
      intros d b' [->|Hd]%Hstep _; [by left|by right].
    + rewrite Hl, app_nil_r in Hstep. split_and!; [done|apply Hstep; by left|lia|intros d Hd; apply Hstep; by right|].
      intros d b' [->|Hd]%Hstep _; [by left|by right].
  - assert (links_of c = []) as Hl by (unfold links_of; by rewrite Hg). rewrite Hl, app_nil_r in Hstep.
    specialize (IH (λ d Hd, Hs d (proj2 (Hstep d) (or_intror Hd)))).
    destruct (poll_next_block get dfs) as [[[[c' b]|] dfs']| | | |]; [|..|done|done|done|done].
    + destruct IH as (Hb & Hr & Hlt & Hin & Hout). split_and!; [done|apply Hstep; by right|lia| |].
      * intros d Hd. apply Hstep. right. by apply Hin.
      * intros d b' [->|Hd]%Hstep Hd'; [congruence|by eapply Hout].
    + intros d b [->|Hd]%Hstep; [congruence|by apply IH].
Qed.

(** With enough fuel the stream ends, and has exactly the blocks that can be reached. *)
Lemma blocks_spec fuel dfs :
  (∀ c, reachable dfs c → streamable c) → (queue_size dfs < fuel)%nat →
  ∃ out, state_tree_blocks get fuel dfs = Done out ∧ (length out ≤ queue_size dfs)%nat ∧
    ∀ c b, (c, b) ∈ out ↔ reachable dfs c ∧ get c = inr (Some b).
Proof.
  revert dfs. induction fuel as [|fuel IH]; intros dfs Hs Hf; [lia|]. cbn [state_tree_blocks].
  pose proof (poll_next_cases dfs Hs) as Hp.
  destruct (poll_next_block get dfs) as [[[[c b]|] dfs']| | | |]; [|..|done|done|done|done]; cbn [mbind outcome_bind].
  - destruct Hp as (Hb & Hr & Hlt & Hin & Hout). destruct (IH dfs') as (out & -> & Hlen & Hspec).
    { intros d Hd. by apply Hs, Hin. } { lia. }
    eexists. split; [done|]. split; [cbn; lia|]. intros d b'. rewrite elem_of_cons, Hspec. split.
    + intros [[= -> ->]|[Hd Hg]]; [done|]. split; [by apply Hin|done].
    + intros [Hd Hg]. destruct (Hout d b' Hd Hg) as [->|Hd']; [left; congruence|by right].
  - exists []. split; [done|]. split; [cbn; lia|]. intros c b. split; [intros []%not_elem_of_nil|]. intros [Hr Hg]. by apply Hp in Hg.
Qed.
End streamed.
End car.

(** ** What the libraries promise *)

Class CarLaws `{CarEnv} := {
  varint_nonempty n : varint n ≠ [];
  merge_perm {A} (a b : list A) : merge a b ≡ₚ a ++ b;
  (* whether an identifier has the digest of the data, which is what loading validates *)
  cid_valid : Cid → list byte → bool;
  cbor_valid b : cid_valid (cbor_cid b) b = true;
  load_written validate roots blocks :
    (validate = true → Forall (λ b, cid_valid b.1 b.2 = true) blocks) →
    load_car validate (car_bytes roots blocks) = (blocks, inr roots);
  params_back p b : params_to_vec p = inr b → params_from_slice b = inr p;
  metadata_back m b : metadata_to_vec m = inr b → metadata_from_slice b = inr m;
  (* a state tree is opened by reading blocks that can be reached from its root *)
  tree_opens get get' root :
    (∀ c b, reachable get [root] c → get c = inr (Some b) → get' c = inr (Some b)) →
    new_from_root get root = None → new_from_root get' root = None
}.

(** Two different pieces of data with the same identifier. *)
Definition cid_collision `{CarLaws} : Prop :=
  ∃ c b b', b ≠ b' ∧ cid_valid c b = true ∧ cid_valid c b' = true.

Section roundtrip.
Context `{CarLaws}.
Implicit Types (m : MemoryBlockstore).

Lemma put_blocks_memory blocks m :
  ∃ m', put_blocks blocks m = Done m' ∧
    ∀ c, (∃ b, (c, b) ∈ blocks ∧ m' !! c = Some b) ∨ ((c ∉ blocks.*1) ∧ m' !! c = m !! c).
Proof.
  revert m. induction blocks as [|[c b] blocks IH]; intros m; cbn [put_blocks].
  { exists m. split; [done|]. intros c. right. split; [set_solver|done]. }
  cbn [bs_put_keyed memory_blockstore]. unfold memory_put_keyed. cbn [mbind outcome_bind].
  destruct (IH (<[c := b]> m)) as (m' & -> & Hm'). exists m'. split; [done|]. intros d.
  destruct (Hm' d) as [(b' & Hin & Hd)|[Hnin Hd]]; [left; exists b'; split; [set_solver|done]|].
  destruct (decide (d = c)) as [->|Hne].
  - left. exists b. split; [set_solver|]. rewrite Hd. apply (lookup_insert_eq (M:=gmap Cid)).
  - right. split; [set_solver|]. rewrite Hd. by apply (lookup_insert_ne (M:=gmap Cid)).
Qed.

(** Valid blocks agree where they have the same identifier, or there is a collision. *)
Lemma blocks_agree blocks :
  Forall (λ b, cid_valid b.1 b.2 = true) blocks →
  (∀ c b b', (c, b) ∈ blocks → (c, b') ∈ blocks → b = b') ∨ cid_collision.
Proof.
  intros Hv. rewrite Forall_forall in Hv.
  destruct (decide (Forall (λ x, Forall (λ y : Cid * list byte, x.1 = y.1 → x.2 = y.2) blocks) blocks)) as [Ha|Hn].
  - left. intros c b b' Hb Hb'. rewrite Forall_forall in Ha. specialize (Ha _ Hb). rewrite Forall_forall in Ha. by apply (Ha _ Hb').
  - right. apply not_Forall_Exists, Exists_exists in Hn as ([c b] & Hb & Hn); [|apply _].
    apply not_Forall_Exists, Exists_exists in Hn as ([c' b'] & Hb' & Hn); [|apply _]. cbn in Hn.
    destruct (decide (c = c')) as [->|]; [|tauto]. exists c', b, b'. split; [tauto|].
    split; [by apply (Hv _ Hb)|by apply (Hv _ Hb')].
Qed.

Context {BS : Type} `{!Blockstore BS} (store : BS) (rank : Cid → nat).
Hypothesis (acyclic : ∀ c d, linked (bs_get store) c d → (rank d < rank c)%nat).

(** What is written for a snapshot. *)
Lemma write_car_spec p h pb :
  let root := sp_state_root p in let get := bs_get store in
  (∀ c, reachable get [root] c → streamable get c) →
  params_to_vec (p, h) = inr pb →
  (∀ x, ∃ b, metadata_to_vec x = inr b) →
  ∃ mb blocks, metadata_to_vec (MkMetadata 1 (cbor_cid pb)) = inr mb ∧
    (∀ fuel, (queue_size get rank [root] < fuel)%nat → write_car fuel (V1 (MkV1 store p h)) = Done ([cbor_cid mb], blocks)) ∧
    (length blocks ≤ queue_size get rank [root] + 2)%nat ∧
    ∀ c b, (c, b) ∈ blocks ↔
      (c, b) = (cbor_cid mb, mb) ∨ (c, b) = (cbor_cid pb, pb) ∨ reachable get [root] c ∧ get c = inr (Some b).
Proof.
  intros root get Hs Hp Hm. destruct (Hm (MkMetadata 1 (cbor_cid pb))) as [mb Hmb].
  destruct (blocks_spec get rank acyclic (S (queue_size get rank [root])) [root] Hs ltac:(lia)) as (out & Hout & Hlen & Hspec).
  exists mb, (merge [(cbor_cid mb, mb)] (merge out [(cbor_cid pb, pb)])). split; [done|]. split_and!.
  - intros fuel Hf. unfold write_car, into_streamer, v1_into_streamer. cbn [v1_state_params v1_block_height v1_store].
    rewrite Hp. cbn [of_result mbind outcome_bind]. fold get root.
    rewrite (state_tree_blocks_mono _ _ fuel _ _ Hout) by lia. cbn [mbind outcome_bind fst snd].
    unfold derive_cid. rewrite Hmb. done.
  - rewrite !merge_perm, !length_app. cbn [length]. lia.
  - intros c b. rewrite !merge_perm, !elem_of_app, !list_elem_of_singleton, Hspec. tauto.
Qed.

(** A snapshot that is written to a CAR file is read back.  If the state tree of the
    snapshot has no cycles and can be streamed, writing ends, and reading the file into any other
    store, with or without validation, gives a snapshot with the same parameters and height, whose
    store has every block that can be reached from the state root, and keeps what the file does
    not have; unless two of the blocks have the same digest. *)
Lemma car_roundtrip p h :
  let root := sp_state_root p in let get := bs_get store in
  (∀ c, reachable get [root] c → streamable get c) →
  (∀ c b, reachable get [root] c → get c = inr (Some b) → cid_valid c b = true) →
  (∀ x, ∃ b, params_to_vec x = inr b) → (∀ x, ∃ b, metadata_to_vec x = inr b) →
  new_from_root get root = None →
  ∃ roots blocks, snapshot_new store p h = Done (V1 (MkV1 store p h)) ∧
    (∀ fuel, (queue_size get rank [root] < fuel)%nat → write_car fuel (V1 (MkV1 store p h)) = Done (roots, blocks)) ∧
    (length blocks ≤ queue_size get rank [root] + 2)%nat ∧
    ∀ validate m,
      (∃ m', read_car (car_bytes roots blocks) validate m = (Done (V1 (MkV1 m' p h)), m') ∧
        (∀ c b, reachable get [root] c → get c = inr (Some b) → m' !! c = Some b) ∧
        (∀ c, c ∉ blocks.*1 → m' !! c = m !! c)) ∨
      cid_collision.
Proof.
  intros root get Hs Hvalid Hp Hm Hopen. destruct (Hp (p, h)) as [pb Hpb].
  destruct (write_car_spec p h pb Hs Hpb Hm) as (mb & blocks & Hmb & Hw & Hlen & Hblocks).
  exists [cbor_cid mb], blocks. split; [|split; [exact Hw|split; [exact Hlen|]]].
  { unfold snapshot_new, v1_new. fold root get. by rewrite Hopen. }
  intros validate m.
  assert (Forall (λ b, cid_valid b.1 b.2 = true) blocks) as Hall.
  { apply Forall_forall. intros [c b] Hin. apply Hblocks in Hin as [[= -> ->]|[[= -> ->]|[Hr Hg]]]; [apply cbor_valid..|by eapply Hvalid]. }
  destruct (blocks_agree blocks Hall) as [Hagree|]; [left|by right].
  destruct (put_blocks_memory blocks m) as (m' & Hput & Hm').
  assert (∀ c b, (c, b) ∈ blocks → m' !! c = Some b) as Hhas.
  { intros c b Hin. destruct (Hm' c) as [(b' & Hin' & ->)|[Hnin _]]; [by rewrite (Hagree c b b')|].
    destruct Hnin. by apply (list_elem_of_fmap_2 fst _ _ Hin). }
  assert (∀ c b, reachable get [root] c → get c = inr (Some b) → m' !! c = Some b) as Hreach.
  { intros c b Hr Hg. apply Hhas, Hblocks. by right; right. }
  exists m'. split_and!; [|done|].
  - unfold read_car. rewrite (load_written validate) by done. rewrite Hput. cbn [of_result mbind outcome_bind]. f_equal.
    unfold get_cbor at 1. cbn [bs_get memory_blockstore]. unfold memory_get. rewrite (Hhas (cbor_cid mb) mb) by (apply Hblocks; by left).
    rewrite (metadata_back _ _ Hmb). cbn [of_result mbind outcome_bind meta_version data_root_cid].
    rewrite bool_decide_eq_true_2 by done. unfold from_root, get_cbor. cbn [bs_get memory_blockstore]. unfold memory_get.
    rewrite (Hhas (cbor_cid pb) pb) by (apply Hblocks; by right; left). rewrite (params_back _ _ Hpb).
    cbn [of_result mbind outcome_bind]. fold root. rewrite (tree_opens get (memory_get m') root); [done| |done].
    intros c b Hr Hg. unfold memory_get. f_equal. by apply Hreach.
  - intros c Hc. destruct (Hm' c) as [(b & Hin & _)|[_ ?]]; [|done]. destruct Hc. by apply (list_elem_of_fmap_2 fst _ _ Hin).
Qed.
End roundtrip.

(** ** A format

    Data is written as the bits of its number, which end with a byte of their own, so that
    several values can follow each other; identifiers are made by a given digest. *)
Module SampleCar.

Fixpoint pos_bytes (p : positive) : list byte :=
  match p with
  | xO p => x00 :: pos_bytes p
  | xI p => x01 :: pos_bytes p
  | xH => [x02]
  end.
Fixpoint read_pos (l : list byte) : option (positive * list byte) :=
  match l with
  | x00 :: l => prod_map xO id <$> read_pos l
  | x01 :: l => prod_map xI id <$> read_pos l
  | x02 :: l => Some (xH, l)
  | _ => None
  end.
Definition put {A} `{Countable A} (a : A) : list byte := pos_bytes (encode a).
Definition read {A} `{Countable A} (l : list byte) : option (A * list byte) :=
  '(p, l) ← read_pos l; a ← decode p; Some (a, l).
Definition read_all {A} `{Countable A} (l : list byte) : string + A :=
  match read l with
  | Some (a, []) => inr a
  | _ => inl "malformed"%string
  end.

Lemma read_pos_bytes p l : read_pos (pos_bytes p ++ l) = Some (p, l).
Proof. induction p as [p IH|p IH|]; cbn; by rewrite ?IH. Qed.
Lemma read_put {A} `{Countable A} (a : A) l : read (put a ++ l) = Some (a, l).
Proof. unfold read, put. rewrite read_pos_bytes. cbn. by rewrite decode_encode. Qed.
Lemma read_all_put {A} `{Countable A} (a : A) : read_all (put a) = inr a.
Proof. unfold read_all. rewrite <-(app_nil_r (put a)). by rewrite read_put. Qed.
Lemma put_nonempty {A} `{Countable A} (a : A) : put a ≠ [].
Proof. unfold put. by destruct (encode a). Qed.

Section format.
Context `{ChainIds} (digest : list byte → Cid).

Fixpoint read_frames (fuel : nat) (l : list byte) : option (list (list byte)) :=
  match l, fuel with
  | [], _ => Some []
  | _, O => None
  | _, S fuel =>
      '(n, l) ← read (A:=N) l;
      rest ← read_frames fuel (drop (N.to_nat n) l);
      Some (take (N.to_nat n) l :: rest)
  end.

Definition read_file (l : list byte) : option (list Cid * list (Cid * list byte)) :=
  frames ← read_frames (length l) l;
  match frames with
  | [] => None
  | header :: frames =>
      roots ← match read_all (A:=list Cid) header with inr roots => Some roots | inl _ => None end;
      blocks ← mapM read frames;
      Some (roots, blocks)
  end.

(** The blocks up to the first that is not valid. *)
Fixpoint valid_prefix (valid : Cid → list byte → bool) (blocks : list (Cid * list byte)) : list (Cid * list byte) * bool :=
  match blocks with
  | [] => ([], true)
  | (c, b) :: blocks => if valid c b then let '(bs, ok) := valid_prefix valid blocks in ((c, b) :: bs, ok) else ([], false)
  end.

Definition has_digest (c : Cid) (b : list byte) : bool := bool_decide (c = digest b).

(** A block that is an identifier is a link, and other blocks are opaque. *)
Definition as_ipld (b : list byte) : option Ipld :=
  match read_all (A:=Cid) b with inr c => Some (IpldList [IpldLink c]) | inl _ => Some (IpldBytes b) end.

#[export] Instance car_env : CarEnv := {|
  cid_codec _ := 113;
  DAG_CBOR := 113;
  cbor_cid := digest;
  ipld_from_slice := as_ipld;
  params_to_vec p := inr (put p);
  params_from_slice := read_all;
  metadata_to_vec m := inr (put (meta_version m, data_root_cid m));
  metadata_from_slice b := match read_all b with inr (v, c) => inr (MkMetadata v c) | inl e => inl e end;
  new_from_root get root := match get root with inr (Some _) => None | _ => Some "root not found"%string end;
  merge A a b := a ++ b;
  varint := put;
  header_to_vec := put;
  cid_to_bytes := put;
  load_car validate l :=
    match read_file l with
    | None => ([], inl "malformed"%string)
    | Some (roots, blocks) =>
        if (validate : bool) then
          let '(blocks, ok) := valid_prefix has_digest blocks in
          (blocks, if (ok : bool) then inr roots else inl "invalid block"%string)
        else (blocks, inr roots)
    end
|}.

Lemma read_frames_written fs fuel : (length fs ≤ fuel)%nat → read_frames fuel (concat (ld_frame <$> fs)) = Some fs.
Proof.
  revert fuel. induction fs as [|f fs IH]; intros fuel Hfuel; [by destruct fuel|]. cbn [fmap list_fmap concat].
  destruct fuel as [|fuel]; cbn in Hfuel; [lia|]. unfold ld_frame at 1. cbn [varint car_env].
  assert (∀ l, l ≠ [] → read_frames (S fuel) l = ('(n, l) ← read (A:=N) l; rest ← read_frames fuel (drop (N.to_nat n) l); Some (take (N.to_nat n) l :: rest))) as Heq
    by (by intros []).
  rewrite Heq.
  - rewrite <-app_assoc, read_put. cbn. rewrite Nat2N.id, drop_app_length, take_app_length, IH by lia. done.
  - rewrite <-app_assoc. pose proof (put_nonempty (N.of_nat (length f))). by destruct (put _).
Qed.

Lemma mapM_read_blocks (blocks : list (Cid * list byte)) :
  mapM (read (A:=Cid)) ((λ b, put b.1 ++ b.2) <$> blocks) = Some blocks.
Proof. induction blocks as [|[c b] blocks IH]; [done|]. cbn [fmap list_fmap mapM fst snd]. rewrite read_put. cbn [mbind option_bind]. by rewrite IH. Qed.

Lemma read_file_written roots blocks : read_file (car_bytes roots blocks) = Some (roots, blocks).
Proof.
  unfold read_file, car_bytes, car_frames.
  set (fs := put roots :: ((λ b, put b.1 ++ b.2) <$> blocks)).
  replace (ld_frame (header_to_vec roots) :: (block_frame <$> blocks)) with (ld_frame <$> fs)
    by (unfold fs; cbn; by rewrite <-list_fmap_compose).
  rewrite read_frames_written.
  - unfold fs. cbn. rewrite read_all_put. cbn. by rewrite mapM_read_blocks.
  - clear. generalize fs. clear. induction fs as [|f fs IH]; [done|]. cbn [fmap list_fmap concat length].
    unfold ld_frame at 1. rewrite !length_app. cbn [varint car_env].
    pose proof (put_nonempty (N.of_nat (length f))). destruct (put _); [done|cbn; lia].
Qed.

Lemma valid_prefix_all valid blocks : Forall (λ b, valid b.1 b.2 = true) blocks → valid_prefix valid blocks = (blocks, true).
Proof. induction 1 as [|[c b] blocks Hb _ IH]; [done|]. cbn in *. by rewrite Hb, IH. Qed.

#[export] Instance car_laws : CarLaws.
Proof.
  refine {| cid_valid := has_digest |}.
  - intros n. apply put_nonempty.
  - done.
  - intros b. by apply bool_decide_eq_true.
  - intros validate roots blocks Hv. cbn [load_car car_env]. rewrite read_file_written. destruct validate; [|done].
    by rewrite valid_prefix_all by auto.
  - intros p b [= <-]. apply read_all_put.
  - intros [v c] b [= <-]. cbn [metadata_from_slice car_env]. by rewrite read_all_put.
  - intros get get' root Hr. cbn [new_from_root car_env]. destruct (get root) as [e|[b|]] eqn:Hg; [done| |done]. intros _.
    rewrite (Hr root b); [done| |done]. exists root. split; [set_solver|done].
Defined.

(** With a digest that has no collisions there are none. *)
Lemma no_collision : Inj (=) (=) digest → ¬ cid_collision.
Proof.
  intros Hinj (c & b & b' & Hne & Hb%bool_decide_eq_true & Hb'%bool_decide_eq_true). apply Hne, (inj digest). congruence.
Qed.
End format.
End SampleCar.
