(* ===== verification/Chunks.v ===== *)
(** * Splitting a CAR file into chunks

    [fendermint/vm/snapshot/src/car]: a writer that distributes what is written over files of a
    limited size, and the stream of the blocks of a CAR file.  Both are polled: files
    are opened, written, flushed and closed asynchronously, and every poll of a file can be pending, fail, or
    do a part of the work.  The answers of the file system are an arbitrary schedule. *)

From Stdlib Require Import Strings.Byte.
From stdpp Require Import pretty.
From S2P Require Import Prelude OrdMap Weights Cache Voting Finality Node Fetch Syncer Pool Merkle Ledger Chain Car.

Inductive Poll (A : Type) := Pending | Ready (a : A).
Arguments Pending {_}.
Arguments Ready {_} _.

(** What the file system answers when it is polled: wait, an error, or that it has done the
    work, up to a number of bytes. *)
Inductive Answer := Wait | Broken (e : string) | Ok_upto (n : N).

Record Disk := MkDisk { files : gmap string (list byte); clock : nat }.

Inductive ChunkWriterState :=
| Idle
| Opening (out : string)
| Open (out : string) (written : N)
| Closing (out : string).

(** The writer and the files that it writes to. *)
Record ChunkWriter := MkWriter {
  next_idx : N;
  cw_state : ChunkWriterState;
  cw_disk : Disk
}.

Section chunker.
Context (answer : nat → Answer) (max_size : N) (file_name : N → string).

(** ** Files *)

Definition advance (d : Disk) : Disk := MkDisk (files d) (S (clock d)).
Definition set_file (name : string) (b : list byte) (d : Disk) : Disk := MkDisk (<[name := b]> (files d)) (clock d).

(** Polling a file: an answer is used up. *)
Definition poll_file {A} (work : N → Disk → A * Disk) (d : Disk) : Poll (string + A) * Disk :=
  match answer (clock d) with
  | Wait => (Pending, advance d)
  | Broken e => (Ready (inl e), advance d)
  | Ok_upto n => let '(a, d) := work n (advance d) in (Ready (inr a), d)
  end.

Definition file_create (name : string) : Disk → Poll (string + unit) * Disk :=
  poll_file (λ _ d, (tt, set_file name [] d)).
Definition file_write (name : string) (buf : list byte) : Disk → Poll (string + N) * Disk :=
  poll_file (λ n d,
    let part := take (N.to_nat n) buf in
    (N.of_nat (length part), set_file name (default [] (files d !! name) ++ part) d)).
Definition file_flush : Disk → Poll (string + unit) * Disk := poll_file (λ _ d, (tt, d)).
Definition file_close : Disk → Poll (string + unit) * Disk := poll_file (λ _ d, (tt, d)).

(** ** The writer *)

Definition StatePoll (T : Type) : Type := ChunkWriterState * Poll (string + T).

Definition chunk_writer_new (d : Disk) : ChunkWriter := MkWriter 0 Idle d.
Definition chunk_created (w : ChunkWriter) : N := next_idx w.

Definition state_poll_open {T} (out : string) (f : string → Disk → StatePoll T * Disk) (d : Disk) : StatePoll T * Disk :=
  match file_create out d with
  | (Pending, d) => ((Opening out, Pending), d)
  | (Ready (inl e), d) => ((Idle, Ready (inl e)), d)
  | (Ready (inr tt), d) => f out d
  end.

Definition state_poll_write (buf : list byte) (sofar : N) (out : string) (d : Disk) : StatePoll N * Disk :=
  match file_write out buf d with
  | (Pending, d) => ((Open out sofar, Pending), d)
  | (Ready (inr written), d) => ((Open out (sofar + written), Ready (inr written)), d)
  | (Ready (inl e), d) => ((Open out sofar, Ready (inl e)), d)
  end.

Definition state_poll_close (out : string) (d : Disk) : StatePoll unit * Disk :=
  match file_close d with
  | (Pending, d) => ((Closing out, Pending), d)
  | (Ready (inl e), d) => ((Idle, Ready (inl e)), d)
  | (Ready (inr tt), d) => ((Idle, Ready (inr tt)), d)
  end.

Definition state_poll_open_write (buf : list byte) (out : string) (d : Disk) : StatePoll N * Disk :=
  state_poll_open out (state_poll_write buf 0) d.

(** The name of the next file, whose future is polled by the caller. *)
Definition next_file (w : ChunkWriter) : string * ChunkWriter :=
  (file_name (next_idx w), MkWriter (next_idx w + 1) (cw_state w) (cw_disk w)).

(** Replace the state, returning the result of the poll. *)
Definition poll_state {T} (r : StatePoll T * Disk) (idx : N) : Poll (string + T) * ChunkWriter :=
  let '((state, poll), d) := r in (poll, MkWriter idx state d).

(** A file that cannot be closed is given up, and the next one is opened. *)
Definition poll_write (buf : list byte) (w : ChunkWriter) : Poll (string + N) * ChunkWriter :=
  match cw_state w with
  | Idle =>
      let '(out, w) := next_file w in
      poll_state (state_poll_open_write buf out (cw_disk w)) (next_idx w)
  | Opening out => poll_state (state_poll_open_write buf out (cw_disk w)) (next_idx w)
  | Open out written => poll_state (state_poll_write buf written out (cw_disk w)) (next_idx w)
  | Closing out =>
      match state_poll_close out (cw_disk w) with
      | ((_, Ready _), d) =>
          let '(out, w) := next_file w in
          poll_state (state_poll_open_write buf out d) (next_idx w)
      | ((state, Pending), d) => (Pending, MkWriter (next_idx w) state d)
      end
  end.

Definition poll_flush (w : ChunkWriter) : Poll (string + unit) * ChunkWriter :=
  match cw_state w with
  | Idle => (Ready (inr tt), w)
  | Opening out =>
      poll_state (state_poll_open out (λ out d, ((Open out 0, Ready (inr tt)), d)) (cw_disk w)) (next_idx w)
  | Open out written =>
      match file_flush (cw_disk w) with
      | (Pending, d) => (Pending, MkWriter (next_idx w) (Open out written) d)
      | (Ready (inl e), d) => (Ready (inl e), MkWriter (next_idx w) (Open out written) d)
      | (Ready (inr tt), d) =>
          let close := bool_decide (next_idx w = 1) || bool_decide (max_size ≤ written) && bool_decide (0 < max_size) in
          if close then poll_state (state_poll_close out d) (next_idx w)
          else (Ready (inr tt), MkWriter (next_idx w) (Open out written) d)
      end
  | Closing out => poll_state (state_poll_close out (cw_disk w)) (next_idx w)
  end.

Definition poll_close (w : ChunkWriter) : Poll (string + unit) * ChunkWriter :=
  match cw_state w with
  | Idle => (Ready (inr tt), w)
  | Opening out => poll_state (state_poll_open out state_poll_close (cw_disk w)) (next_idx w)
  | Open out _ => poll_state (state_poll_close out (cw_disk w)) (next_idx w)
  | Closing out => poll_state (state_poll_close out (cw_disk w)) (next_idx w)
  end.

(** ** Driving the writer

    [AsyncWriteExt::write_all] and [flush] poll until the work is done; [ld_write] writes the length
    and the bytes of a frame, and flushes. *)

Fixpoint write_all (fuel : nat) (buf : list byte) : stm ChunkWriter string unit := λ w,
  match buf, fuel with
  | [], _ => Done (tt, w)
  | _, O => OutOfFuel
  | _, S fuel =>
      match poll_write buf w with
      | (Pending, w) => write_all fuel buf w
      | (Ready (inl e), w) => Fail e
      | (Ready (inr n), w) =>
          if bool_decide (n = 0) then Fail "write zero"%string else write_all fuel (drop (N.to_nat n) buf) w
      end
  end.

Fixpoint flush (fuel : nat) : stm ChunkWriter string unit := λ w,
  match fuel with
  | O => OutOfFuel
  | S fuel =>
      match poll_flush w with
      | (Pending, w) => flush fuel w
      | (Ready (inl e), w) => Fail e
      | (Ready (inr tt), w) => Done (tt, w)
      end
  end.

Definition ld_write `{CarEnv} (fuel : nat) (b : list byte) : stm ChunkWriter string unit :=
  write_all fuel (varint (N.of_nat (length b))) ;;
  write_all fuel b ;;
  flush fuel.

Fixpoint ld_write_all `{CarEnv} (fuel : nat) (bs : list (list byte)) : stm ChunkWriter string unit :=
  match bs with
  | [] => mret tt
  | b :: bs => ld_write fuel b ;; ld_write_all fuel bs
  end.

(** [CarHeader::write_stream_async]. *)
Definition write_stream `{CarEnv} (fuel : nat) (roots : list Cid) (blocks : list (Cid * list byte)) : stm ChunkWriter string unit :=
  ld_write_all fuel (header_to_vec roots :: ((λ b, cid_to_bytes b.1 ++ b.2) <$> blocks)).

(** ** The blocks of a CAR file

    [BlockStreamer]: the reader, which is a list of what it will return, or the future that reads from
    it. *)

Inductive BlockStreamerState `{ChainIds} :=
| StreamerIdle (reader : list (string + Cid * list byte))
| StreamerReading (reader : list (string + Cid * list byte)).

Section streamer.
Context `{ChainIds}.
Abbreviation item := (string + Cid * list byte)%type.

Definition next_block (reader : list item) : list item * option item :=
  match reader with
  | [] => ([], None)
  | i :: reader => (reader, Some i)
  end.

Definition poll_reading (ready : bool) (reader : list item) : Poll (option item) * option BlockStreamerState :=
  if ready then let '(reader, out) := next_block reader in (Ready out, Some (StreamerIdle reader))
  else (Pending, Some (StreamerReading reader)).

Definition streamer_poll_next (ready : bool) (state : option BlockStreamerState) : Poll (option item) * option BlockStreamerState :=
  match state with
  | None => (Ready None, None)
  | Some (StreamerIdle reader) => poll_reading ready reader
  | Some (StreamerReading next_block) => poll_reading ready next_block
  end.

(** The stream as it is consumed, without the blocks that failed. *)
Fixpoint collect_blocks (fuel : nat) (ready : nat → bool) (t : nat) (state : option BlockStreamerState) :
    outcome string (list (Cid * list byte)) :=
  match fuel with
  | O => OutOfFuel
  | S fuel =>
      match streamer_poll_next (ready t) state with
      | (Pending, state) => collect_blocks fuel ready (S t) state
      | (Ready None, _) => Done []
      | (Ready (Some (inl _)), state) => collect_blocks fuel ready (S t) state
      | (Ready (Some (inr b)), state) => rest ← collect_blocks fuel ready (S t) state; Done (b :: rest)
      end
  end.

(** All blocks that can be read are collected, in order, whenever the reader is ready. *)
Lemma collect_blocks_runs (ready : nat → bool) t reader :
  (∀ t, ∃ d, ready (t + d)%nat = true) →
  ∃ fuel, ∀ fuel', (fuel ≤ fuel')%nat →
    collect_blocks fuel' ready t (Some (StreamerIdle reader)) = Done (omap (λ i, match i with inl _ => None | inr b => Some b end) reader).
Proof.
  intros Hfair.
  assert (∀ d t reader state, state = Some (StreamerIdle reader) ∨ state = Some (StreamerReading reader) → ready (t + d)%nat = true →
    (∀ i r t, reader = i :: r → ∃ fuel, ∀ fuel', (fuel ≤ fuel')%nat →
       collect_blocks fuel' ready t (Some (StreamerIdle r)) = Done (omap (λ i, match i with inl _ => None | inr b => Some b end) r)) →
    ∃ fuel, ∀ fuel', (fuel ≤ fuel')%nat → collect_blocks fuel' ready t state =
      Done (omap (λ i, match i with inl _ => None | inr b => Some b end) reader)) as Hwait.
  { clear t reader. induction d as [|d IHd]; intros t reader state Hst Hd Hrest; destruct (ready t) eqn:Ht.
    2:{ rewrite Nat.add_0_r in Hd. congruence. }
    3:{ destruct (IHd (S t) reader (Some (StreamerReading reader))) as [fuel Hf]; [by right|by rewrite Nat.add_succ_l, <-Nat.add_succ_r|done|].
        exists (S fuel). intros [|fuel'] Hle; [lia|]. cbn [collect_blocks]. rewrite Ht.
        replace (streamer_poll_next false state) with (@Pending (option item), Some (StreamerReading reader)) by (by destruct Hst as [->| ->]).
        apply Hf. lia. }
    all: assert (streamer_poll_next true state = (Ready (next_block reader).2, Some (StreamerIdle (next_block reader).1))) as Hp
      by (destruct Hst as [->| ->]; cbn; unfold poll_reading; by destruct (next_block reader)).
    all: destruct reader as [|i r]; [exists 1%nat; intros [|fuel'] Hle; [lia|]; cbn [collect_blocks]; by rewrite Ht, Hp|].
    all: destruct (Hrest i r (S t) eq_refl) as [fuel Hf]; exists (S fuel); intros [|fuel'] Hle; [lia|]; cbn [collect_blocks]; rewrite Ht, Hp.
    all: cbn [next_block fst snd omap list_omap]; destruct i as [e|b]; rewrite Hf by lia; done. }
  revert t. induction reader as [|i r IH]; intros t; destruct (Hfair t) as [d Hd].
  - apply (Hwait d); [by left|done|done].
  - apply (Hwait d); [by left|done|]. intros i' r' t' [= <- <-]. apply IH.
Qed.
End streamer.

(** Opening a CAR file: the roots in its header, and what the reader will return. *)
Class CarReaderEnv `{CarEnv} := {
  car_reader : list byte → string + (list Cid * list (string + Cid * list byte))
}.

Definition split `{CarReaderEnv} (fuel : nat) (ready : nat → bool) (input : list byte) : stm Disk string N := λ d,
  match car_reader input with
  | inl e => Fail ("failed to open CAR reader: " +:+ e)%string
  | inr (roots, reader) =>
      blocks ← collect_blocks fuel ready 0 (Some (StreamerIdle reader));
      match write_stream fuel roots blocks (chunk_writer_new d) with
      | Done (_, w) => Done (chunk_created w, cw_disk w)
      | Fail e => Fail ("failed to write CAR file: " +:+ e)%string
      | Retry => Retry
      | Panic => Panic
      | OutOfFuel => OutOfFuel
      end
  end.

(** ** The chunks that result

    The files of a directory, and how they belong to the state of the writer: the chunks that are
    closed, and what has been written of the current one. *)

Fixpoint dir_from (i : N) (chunks : list (list byte)) : gmap string (list byte) :=
  match chunks with
  | [] => ∅
  | b :: bs => <[file_name i := b]> (dir_from (i + 1) bs)
  end.
Definition dir (chunks : list (list byte)) : gmap string (list byte) := dir_from 0 chunks.

Definition rep (done : list (list byte)) (cur : list byte) (w : ChunkWriter) : Prop :=
  let k := N.of_nat (length done) in
  match cw_state w with
  | Idle | Closing _ => next_idx w = k ∧ cur = [] ∧ files (cw_disk w) = dir done
  | Opening out => next_idx w = k + 1 ∧ cur = [] ∧ out = file_name k ∧ files (cw_disk w) = dir done
  | Open out n => next_idx w = k + 1 ∧ out = file_name k ∧ n = N.of_nat (length cur) ∧ files (cw_disk w) = dir (done ++ [cur])
  end.

Definition is_open (w : ChunkWriter) : Prop := match cw_state w with Open _ _ => True | _ => False end.
Definition phase (w : ChunkWriter) : nat :=
  match cw_state w with Idle | Closing _ => 2 | Opening _ => 1 | Open _ _ => 0 end.

Hypothesis (names_differ : Inj (=) (=) file_name).
(** The file system does not fail, does not wait forever, and does not do nothing. *)
Hypothesis (never_broken : ∀ t e, answer t ≠ Broken e).
Hypothesis (some_work : ∀ t n, answer t = Ok_upto n → 0 < n).
Hypothesis (fair : ∀ t, ∃ d, answer (t + d) ≠ Wait).

Lemma dir_from_snoc i chunks b :
  dir_from i (chunks ++ [b]) = <[file_name (i + N.of_nat (length chunks)) := b]> (dir_from i chunks).
Proof.
  revert i. induction chunks as [|c chunks IH]; intros i; cbn [dir_from app length]; [by rewrite N.add_0_r|].
  rewrite IH. replace (i + 1 + N.of_nat (length chunks)) with (i + N.of_nat (S (length chunks))) by lia.
  apply insert_insert_ne. intros Heq%(inj file_name). lia.
Qed.

Lemma dir_snoc chunks b : dir (chunks ++ [b]) = <[file_name (N.of_nat (length chunks)) := b]> (dir chunks).
Proof. apply dir_from_snoc. Qed.

Lemma dir_current chunks b : dir (chunks ++ [b]) !! file_name (N.of_nat (length chunks)) = Some b.
Proof. rewrite dir_snoc. apply lookup_insert_eq. Qed.

Lemma take_part {A} n (l : list A) : take (length (take n l)) l = take n l.
Proof.
  rewrite length_take. destruct (decide (n ≤ length l)%nat); [by rewrite Nat.min_l|].
  rewrite Nat.min_r by lia. rewrite !take_ge by lia. done.
Qed.

Lemma state_poll_write_step buf sofar chunks cur d :
  buf ≠ [] → files d = dir (chunks ++ [cur]) →
  let out := file_name (N.of_nat (length chunks)) in
  let '((st, r), d') := state_poll_write buf sofar out d in
  clock d' = S (clock d) ∧
  ((∃ k, r = Ready (inr k) ∧ 0 < k ∧ k ≤ N.of_nat (length buf) ∧ st = Open out (sofar + k) ∧
      files d' = dir (chunks ++ [cur ++ take (N.to_nat k) buf])) ∨
   (answer (clock d) = Wait ∧ r = Pending ∧ st = Open out sofar ∧ files d' = files d)).
Proof.
  intros Hne Hf. unfold state_poll_write, file_write, poll_file.
  destruct (answer (clock d)) as [|e|n] eqn:Ha; [|by destruct (never_broken (clock d) e)|].
  - split; [done|]. by right.
  - split; [done|]. left. set (part := take (N.to_nat n) buf). exists (N.of_nat (length part)). apply some_work in Ha.
    assert (length part = N.to_nat n `min` length buf)%nat as Hl by apply length_take.
    assert (0 < length buf)%nat by (destruct buf; [done|cbn; lia]).
    split_and!; [done|lia|lia|done|]. cbn. rewrite Hf, dir_current. cbn. rewrite Nat2N.id. unfold part at 2. rewrite take_part. fold part.
    rewrite !dir_snoc. by rewrite insert_insert_eq.
Qed.

Lemma state_poll_open_write_step buf chunks d :
  buf ≠ [] → files d = dir chunks →
  let out := file_name (N.of_nat (length chunks)) in
  let '((st, r), d') := state_poll_open_write buf out d in
  (∃ k, r = Ready (inr k) ∧ 0 < k ∧ k ≤ N.of_nat (length buf) ∧ st = Open out k ∧
     files d' = dir (chunks ++ [take (N.to_nat k) buf])) ∨
  (r = Pending ∧ st = Open out 0 ∧ files d' = dir (chunks ++ [[]])) ∨
  (answer (clock d) = Wait ∧ clock d' = S (clock d) ∧ r = Pending ∧ st = Opening out ∧ files d' = files d).
Proof.
  intros Hne Hf. unfold state_poll_open_write, state_poll_open, file_create, poll_file.
  destruct (answer (clock d)) as [|e|n] eqn:Ha; [|by destruct (never_broken (clock d) e)|].
  - by right; right.
  - set (out := file_name (N.of_nat (length chunks))). set (d1 := set_file out [] (advance d)).
    assert (files d1 = dir (chunks ++ [[]])) as Hf1 by (cbn; by rewrite Hf, dir_snoc).
    pose proof (state_poll_write_step buf 0 chunks [] d1 Hne Hf1) as Hstep. cbv zeta in Hstep. fold out in Hstep.
    destruct (state_poll_write buf 0 out d1) as [[st r] d'].
    destruct Hstep as (_ & [(k & -> & Hk & Hl & -> & Hd')|(_ & -> & -> & Hd')]).
    + left. exists k. by rewrite N.add_0_l.
    + right; left. by rewrite Hd'.
Qed.

Lemma poll_write_step buf chunks cur w :
  buf ≠ [] → rep chunks cur w →
  let '(r, w') := poll_write buf w in
  (∃ k, r = Ready (inr k) ∧ 0 < k ∧ k ≤ N.of_nat (length buf) ∧ is_open w' ∧ rep chunks (cur ++ take (N.to_nat k) buf) w') ∨
  (r = Pending ∧ rep chunks cur w' ∧
    ((phase w' < phase w)%nat ∨
     phase w' = phase w ∧ answer (clock (cw_disk w)) = Wait ∧ clock (cw_disk w') = S (clock (cw_disk w)))).
Proof.
  intros Hne Hrep. destruct w as [idx st d]. unfold rep in Hrep. cbn [cw_state next_idx cw_disk] in Hrep.
  assert (∀ d1, files d1 = dir chunks → cur = [] → (1 < phase (MkWriter idx st d) ∨ (phase (MkWriter idx st d) = 1 ∧ d1 = d))%nat →
    let '(r, w') := poll_state (state_poll_open_write buf (file_name (N.of_nat (length chunks))) d1) (N.of_nat (length chunks) + 1) in
    (∃ k, r = Ready (inr k) ∧ 0 < k ∧ k ≤ N.of_nat (length buf) ∧ is_open w' ∧ rep chunks (cur ++ take (N.to_nat k) buf) w') ∨
    (r = Pending ∧ rep chunks cur w' ∧
      ((phase w' < phase (MkWriter idx st d))%nat ∨
       phase w' = phase (MkWriter idx st d) ∧ answer (clock d) = Wait ∧ clock (cw_disk w') = S (clock d)))) as Hopen.
  { intros d1 Hd1 -> Hph. pose proof (state_poll_open_write_step buf chunks d1 Hne Hd1) as Hs. cbv zeta in Hs.
    destruct (state_poll_open_write _ _ d1) as [[st' r] d']. cbn [poll_state].
    destruct Hs as [(k & -> & Hk & Hl & -> & Hf')|[(-> & -> & Hf')|(Ha & Hc & -> & -> & Hf')]].
    - left. exists k. split_and!; try done. unfold rep. cbn [cw_state next_idx cw_disk app]. split_and!; try done.
      rewrite length_take. lia.
    - right. split_and!; [done|done|]. left. destruct Hph as [|[-> _]]; cbn; lia.
    - right. split_and!; [done|by unfold rep; cbn; rewrite Hf'|]. destruct Hph as [|[Hp ->]]; [left; cbn; lia|right]. by split_and!. }
  destruct st as [|out|out n|out]; unfold poll_write; cbn [cw_state next_file next_idx cw_disk].
  - destruct Hrep as (-> & Hcur & Hf). apply Hopen; [done|done|left; cbn; lia].
  - destruct Hrep as (-> & Hcur & -> & Hf). apply Hopen; [done|done|by right].
  - destruct Hrep as (-> & -> & -> & Hf).
    pose proof (state_poll_write_step buf (N.of_nat (length cur)) chunks cur d Hne Hf) as Hs. cbv zeta in Hs.
    destruct (state_poll_write _ _ _ d) as [[st' r] d']. destruct Hs as (Hc & [(k & -> & Hk & Hl & -> & Hf')|(Ha & -> & -> & Hf')]).
    + left. exists k. split_and!; try done. unfold rep. cbn. split_and!; try done. rewrite length_app, length_take. lia.
    + right. split_and!; [done|unfold rep; cbn; by rewrite Hf'|]. by right.
  - destruct Hrep as (-> & Hcur & Hf). unfold state_poll_close, file_close, poll_file.
    destruct (answer (clock d)) as [|e|m] eqn:Ha; [|by destruct (never_broken (clock d) e)|].
    + right. split_and!; [done|done|]. by right.
    + cbn [next_file next_idx cw_disk]. apply Hopen; [done|done|left; cbn; lia].
Qed.

(** Waiting ends: a poll that is pending has got further, or has met an answer that it waits. *)
Definition later (rank : ChunkWriter → nat) (w w' : ChunkWriter) : Prop :=
  (rank w' < rank w)%nat ∨
  rank w' = rank w ∧ answer (clock (cw_disk w)) = Wait ∧ clock (cw_disk w') = S (clock (cw_disk w)).

Lemma poll_ind rank (P : ChunkWriter → Prop) : (∀ w, (∀ w', later rank w w' → P w') → P w) → ∀ w, P w.
Proof.
  intros Hstep w. remember (rank w) as p eqn:Hp. revert w Hp. induction p as [p IHp] using lt_wf_ind. intros w ->.
  destruct (fair (clock (cw_disk w))) as [d Hd]. revert w IHp Hd. induction d as [|d IHd]; intros w IHp Hd; apply Hstep.
  - intros w' [Hlt|(_ & Hw & _)]; [by eapply IHp|]. rewrite Nat.add_0_r in Hd. congruence.
  - intros w' [Hlt|(Hr & _ & Hc)]; [by eapply IHp|]. apply IHd; [by rewrite Hr|]. rewrite Hc. by rewrite <-Nat.add_succ_comm in Hd.
Qed.

(** However the file system answers, all bytes arrive in the current chunk. *)
Lemma write_all_runs buf chunks cur w :
  rep chunks cur w →
  ∃ fuel w', (∀ fuel', (fuel ≤ fuel')%nat → write_all fuel' buf w = Done (tt, w')) ∧
    rep chunks (cur ++ buf) w' ∧ (buf ≠ [] ∨ is_open w → is_open w').
Proof.
  remember (length buf) as l eqn:Hl. revert buf Hl cur w. induction l as [l IHl] using lt_wf_ind. intros buf -> cur w.
  induction w as [w IHw] using (poll_ind phase). intros Hrep.
  destruct buf as [|b buf]; [exists 0%nat, w; split_and!; [by intros []|by rewrite app_nil_r|by intros [[]|]; done]|].
  pose proof (poll_write_step (b :: buf) chunks cur w ltac:(done) Hrep) as Hs.
  destruct (poll_write (b :: buf) w) as [r w1] eqn:Hpoll. destruct Hs as [(k & -> & Hk & Hlen & Ho & Hr1)|(-> & Hr1 & Hph)].
  - destruct (IHl (length (drop (N.to_nat k) (b :: buf)))) with (buf := drop (N.to_nat k) (b :: buf))
      (cur := cur ++ take (N.to_nat k) (b :: buf)) (w := w1) as (fuel & w' & Hrun & Hr' & Ho'); [rewrite length_drop; cbn; lia|done|done|].
    exists (S fuel), w'. split_and!; [|by rewrite <-app_assoc, take_drop in Hr'|by auto].
    intros [|fuel'] Hf; [lia|]. cbn [write_all]. rewrite Hpoll, bool_decide_eq_false_2 by lia. apply Hrun. lia.
  - destruct (IHw w1 Hph Hr1) as (fuel & w' & Hrun & Hr' & Ho'). exists (S fuel), w'.
    split_and!; [|done|by intros _; apply Ho'; left]. intros [|fuel'] Hf; [lia|]. cbn [write_all]. rewrite Hpoll. apply Hrun. lia.
Qed.

(** When a chunk is closed: the first one at once, the others when they have reached the size. *)
Definition closes (chunks : list (list byte)) (cur : list byte) : bool :=
  bool_decide (chunks = []) || bool_decide (max_size ≤ N.of_nat (length cur)) && bool_decide (0 < max_size).
Definition flush_rank (w : ChunkWriter) : nat :=
  match cw_state w with Open _ _ => 2 | Closing _ => 1 | _ => 0 end.

Lemma state_poll_close_step out chunks d idx :
  files d = dir chunks → idx = N.of_nat (length chunks) →
  let '(r, w) := poll_state (state_poll_close out d) idx in
  rep chunks [] w ∧
  (r = Ready (inr tt) ∧ cw_state w = Idle ∨
   r = Pending ∧ cw_state w = Closing out ∧ answer (clock d) = Wait ∧ clock (cw_disk w) = S (clock d)).
Proof.
  intros Hf ->. unfold state_poll_close, file_close, poll_file.
  destruct (answer (clock d)) as [|e|m] eqn:Ha; [|by destruct (never_broken (clock d) e)|]; cbn; (split; [done|]); [by right|by left].
Qed.

(** A chunk that is being closed gets closed. *)
Lemma flush_closing chunks w :
  rep chunks [] w → (∃ out, cw_state w = Closing out) →
  ∃ fuel w', (∀ fuel', (fuel ≤ fuel')%nat → flush fuel' w = Done (tt, w')) ∧ rep chunks [] w' ∧ phase w' = 2%nat.
Proof.
  induction w as [w IH] using (poll_ind flush_rank). intros Hrep [out Hst]. destruct w as [idx st d]. cbn in Hst. subst st.
  destruct Hrep as (Hidx & _ & Hf). pose proof (state_poll_close_step out chunks d idx Hf Hidx) as Hs.
  assert (poll_flush (MkWriter idx (Closing out) d) = poll_state (state_poll_close out d) idx) as Hpoll by done.
  destruct (poll_state _ _) as [r w']. destruct Hs as [Hr [(-> & Hst)|(-> & Hst & Ha & Hc)]].
  - exists 1%nat, w'. split; [|split; [done|unfold phase; by rewrite Hst]]. intros [|fuel] Hfuel; [lia|]. cbn [flush]. by rewrite Hpoll.
  - destruct (IH w') as (fuel & w2 & Hrun & Hr2); [|done|by eexists|].
    { right. split_and!; [unfold flush_rank; by rewrite Hst|done|done]. }
    exists (S fuel), w2. split; [|done]. intros [|fuel'] Hfuel; [lia|]. cbn [flush]. rewrite Hpoll. apply Hrun. lia.
Qed.

Lemma flush_runs chunks cur w :
  rep chunks cur w → is_open w →
  ∃ fuel w', (∀ fuel', (fuel ≤ fuel')%nat → flush fuel' w = Done (tt, w')) ∧
    (if closes chunks cur then rep (chunks ++ [cur]) [] w' ∧ phase w' = 2%nat else rep chunks cur w' ∧ is_open w').
Proof.
  induction w as [w IH] using (poll_ind flush_rank). intros Hrep Hopen. destruct w as [idx st d].
  destruct st as [| |out n|]; try done. destruct Hrep as (Hidx & -> & -> & Hf). cbn in Hidx, Hf.
  assert (bool_decide (idx = 1) || bool_decide (max_size ≤ N.of_nat (length cur)) && bool_decide (0 < max_size) = closes chunks cur) as Hc.
  { unfold closes. f_equal. apply bool_decide_ext. destruct chunks; cbn in Hidx; split; intros; first [done|lia]. }
  set (out := file_name (N.of_nat (length chunks))) in *.
  destruct (answer (clock d)) as [|e|m] eqn:Ha; [|by destruct (never_broken (clock d) e)|].
  - set (w1 := MkWriter idx (Open out (N.of_nat (length cur))) (advance d)).
    destruct (IH w1) as (fuel & w' & Hrun & Hr'); [by right|done|done|].
    exists (S fuel), w'. split; [|done]. intros [|fuel'] Hfuel; [lia|]. cbn [flush]. unfold poll_flush. cbn [cw_state cw_disk].
    unfold file_flush, poll_file. rewrite Ha. apply Hrun. lia.
  - assert (poll_flush (MkWriter idx (Open out (N.of_nat (length cur))) d) =
      if closes chunks cur then poll_state (state_poll_close out (advance d)) idx
      else (Ready (inr tt), MkWriter idx (Open out (N.of_nat (length cur))) (advance d))) as Hpoll.
    { unfold poll_flush. cbn [cw_state cw_disk next_idx]. unfold file_flush, poll_file. rewrite Ha. cbv zeta. by rewrite Hc. }
    destruct (closes chunks cur).
    + pose proof (state_poll_close_step out (chunks ++ [cur]) (advance d) idx Hf) as Hs.
      rewrite length_app in Hs. cbn [length] in Hs. specialize (Hs ltac:(lia)).
      destruct (poll_state _ _) as [r w']. destruct Hs as [Hr [(-> & Hst)|(-> & Hst & _)]].
      * exists 1%nat, w'. split; [|split; [done|unfold phase; by rewrite Hst]]. intros [|fuel] Hfuel; [lia|]. cbn [flush]. by rewrite Hpoll.
      * destruct (flush_closing _ _ Hr) as (fuel & w2 & Hrun & Hr2); [by eexists|].
        exists (S fuel), w2. split; [|done]. intros [|fuel'] Hfuel; [lia|]. cbn [flush]. rewrite Hpoll. apply Hrun. lia.
    + exists 1%nat, (MkWriter idx (Open out (N.of_nat (length cur))) (advance d)).
      split; [intros [|fuel] Hfuel; [lia|]; cbn [flush]; by rewrite Hpoll|]. split; [|done]. by split_and!.
Qed.

(** The chunks as a function of what is written: the header, and then whole frames, gathered until
    they reach the size. *)
Fixpoint gather (cur : list byte) (frames : list (list byte)) : list (list byte) :=
  match frames with
  | [] => if bool_decide (cur = []) then [] else [cur]
  | f :: frames =>
      let cur := cur ++ f in
      if bool_decide (max_size ≤ N.of_nat (length cur)) && bool_decide (0 < max_size) then cur :: gather [] frames
      else gather cur frames
  end.

Section frames.
Context `{CarLaws}.

(** Between frames: the current chunk is open, or there is none. *)
Definition settled (chunks : list (list byte)) (cur : list byte) (w : ChunkWriter) : Prop :=
  rep chunks cur w ∧ (cur ≠ [] ∧ is_open w ∨ cur = [] ∧ phase w = 2%nat).

Lemma ld_write_runs b chunks cur w :
  rep chunks cur w →
  let cur' := cur ++ ld_frame b in
  ∃ fuel w', (∀ fuel', (fuel ≤ fuel')%nat → ld_write fuel' b w = Done (tt, w')) ∧
    (if closes chunks cur' then settled (chunks ++ [cur']) [] w' else settled chunks cur' w').
Proof.
  intros Hrep cur'. destruct (write_all_runs (varint (N.of_nat (length b))) chunks cur w Hrep) as (f1 & w1 & Hrun1 & Hr1 & Ho1).
  destruct (write_all_runs b chunks _ w1 Hr1) as (f2 & w2 & Hrun2 & Hr2 & Ho2).
  rewrite <-app_assoc in Hr2. fold (ld_frame b) in Hr2. fold cur' in Hr2.
  destruct (flush_runs chunks cur' w2 Hr2) as (f3 & w3 & Hrun3 & Hr3); [apply Ho2; right; apply Ho1; left; apply varint_nonempty|].
  exists (f1 + f2 + f3)%nat, w3. split.
  - intros fuel' Hf. unfold ld_write, mbind, stm_bind. rewrite Hrun1, Hrun2 by lia. apply Hrun3. lia.
  - destruct (closes chunks cur'); destruct Hr3 as [Hr3 Hp]; (split; [done|]); [by right|left]. split; [|done].
    unfold cur', ld_frame. intros (_ & [Hv _]%app_eq_nil)%app_eq_nil. by apply varint_nonempty in Hv.
Qed.

Lemma settled_files chunks cur w :
  settled chunks cur w → let cs := chunks ++ gather cur [] in
  files (cw_disk w) = dir cs ∧ next_idx w = N.of_nat (length cs).
Proof.
  intros [Hrep Hcur]. cbn [gather]. unfold rep, is_open, phase in *.
  case_bool_decide as Hc; destruct (cw_state w) as [|out|out n|out]; destruct Hcur as [[? ?]|[? ?]]; try done.
  all: destruct_and?; subst; rewrite ?app_nil_r, ?length_app; cbn [length]; split; [done|lia].
Qed.

Lemma ld_write_all_runs bs chunks cur w :
  chunks ≠ [] → settled chunks cur w →
  ∃ fuel w', (∀ fuel', (fuel ≤ fuel')%nat → ld_write_all fuel' bs w = Done (tt, w')) ∧
    let cs := chunks ++ gather cur (ld_frame <$> bs) in
    files (cw_disk w') = dir cs ∧ next_idx w' = N.of_nat (length cs).
Proof.
  revert chunks cur w. induction bs as [|b bs IH]; intros chunks cur w Hne Hset.
  { exists 0%nat, w. split; [done|]. by apply settled_files. }
  destruct (ld_write_runs b chunks cur w (proj1 Hset)) as (f1 & w1 & Hrun1 & Hset1).
  assert (closes chunks (cur ++ ld_frame b) = bool_decide (max_size ≤ N.of_nat (length (cur ++ ld_frame b))) && bool_decide (0 < max_size)) as Hc.
  { unfold closes. by rewrite bool_decide_eq_false_2 by done. }
  rewrite Hc in Hset1. cbn [fmap list_fmap gather]. destruct (_ && _).
  - destruct (IH (chunks ++ [cur ++ ld_frame b]) [] w1) as (f2 & w2 & Hrun2 & Hf2); [by destruct chunks|done|].
    exists (f1 + f2)%nat, w2. rewrite <-app_assoc in Hf2. split; [|done]. intros fuel' Hf. cbn [ld_write_all]. unfold mbind, stm_bind.
    rewrite Hrun1 by lia. apply Hrun2. lia.
  - destruct (IH chunks (cur ++ ld_frame b) w1) as (f2 & w2 & Hrun2 & Hf2); [done|done|].
    exists (f1 + f2)%nat, w2. split; [|done]. intros fuel' Hf. cbn [ld_write_all]. unfold mbind, stm_bind.
    rewrite Hrun1 by lia. apply Hrun2. lia.
Qed.

(** *** The sizes of the chunks *)

Lemma gather_concat cur frames : concat (gather cur frames) = cur ++ concat frames.
Proof.
  revert cur. induction frames as [|f frames IH]; intros cur; cbn [gather].
  - rewrite app_nil_r. case_bool_decide as Hc; [by rewrite Hc|apply app_nil_r].
  - destruct (_ && _); cbn [concat]; rewrite IH; by rewrite <-?app_assoc.
Qed.

Lemma gather_length cur frames : (length (gather cur frames) ≤ length frames + (if decide (cur = []) then 0 else 1))%nat.
Proof.
  revert cur. induction frames as [|f frames IH]; intros cur; cbn [gather length].
  - case_bool_decide; destruct (decide _); cbn; first [done|lia].
  - destruct (_ && _); cbn [length]; [specialize (IH []); rewrite decide_True in IH by done; lia|].
    specialize (IH (cur ++ f)). destruct (decide (cur = [])), (decide (cur ++ f = [])); lia.
Qed.

Lemma gather_full cur frames i c :
  0 < max_size → gather cur frames !! i = Some c → (S i < length (gather cur frames))%nat → max_size ≤ N.of_nat (length c).
Proof.
  intros Hmax. revert cur i. induction frames as [|f frames IH]; intros cur i; cbn [gather].
  - case_bool_decide; cbn; [done|]. lia.
  - destruct (bool_decide (max_size ≤ _)) eqn:Hle; [|apply IH]. rewrite bool_decide_eq_true_2 by done. cbn [andb length].
    destruct i as [|i]; cbn [lookup list_lookup]; [|intros Hc Hi; eapply IH; [exact Hc|lia]].
    intros [= <-] _. by apply bool_decide_eq_true in Hle.
Qed.

(** A chunk is as long as it has to be, up to the frame that was written last. *)
Lemma gather_bounded cur frames c :
  N.of_nat (length cur) < max_size → c ∈ gather cur frames →
  ∃ c' f, c = c' ++ f ∧ (f ∈ frames ∨ f = []) ∧ N.of_nat (length c') < max_size.
Proof.
  revert cur. induction frames as [|f frames IH]; intros cur Hcur; cbn [gather].
  - case_bool_decide; [intros []%not_elem_of_nil|]. intros ->%list_elem_of_singleton. exists cur, []. rewrite app_nil_r. auto.
  - assert (∀ cur, N.of_nat (length cur) < max_size → c ∈ gather cur frames →
      ∃ c' f', c = c' ++ f' ∧ (f' ∈ f :: frames ∨ f' = []) ∧ N.of_nat (length c') < max_size) as Hrest.
    { intros cur' Hcur' Hin. destruct (IH cur' Hcur' Hin) as (c' & f' & -> & Hf & Hl). exists c', f'. set_solver. }
    destruct (bool_decide (max_size ≤ _)) eqn:Hle; cbn [andb].
    + rewrite bool_decide_eq_true_2 by lia. intros [->|Hin]%elem_of_cons; [exists cur, f; set_solver|]. apply (Hrest []); [cbn; lia|done].
    + apply bool_decide_eq_false in Hle. apply Hrest. lia.
Qed.

Context `{!CarReaderEnv} (ready : nat → bool).
Hypothesis (read_written : ∀ roots blocks, car_reader (car_bytes roots blocks) = inr (roots, inr <$> blocks)).
Hypothesis (reader_fair : ∀ t, ∃ d, ready (t + d)%nat = true).

(** The chunks of a CAR file. *)
Definition car_chunks (roots : list Cid) (blocks : list (Cid * list byte)) : list (list byte) :=
  ld_frame (header_to_vec roots) :: gather [] (block_frame <$> blocks).

Lemma split_runs roots blocks t :
  ∃ fuel d', (∀ fuel', (fuel ≤ fuel')%nat →
      split fuel' ready (car_bytes roots blocks) (MkDisk ∅ t) = Done (N.of_nat (length (car_chunks roots blocks)), d')) ∧
    files d' = dir (car_chunks roots blocks).
Proof.
  destruct (collect_blocks_runs ready 0 (inr <$> blocks) reader_fair) as [f0 Hcollect].
  assert (omap (λ i : string + Cid * list byte, match i with inl _ => None | inr b => Some b end) (inr <$> blocks) = blocks) as Hom.
  { clear. induction blocks as [|b blocks IH]; [done|]. cbn. by rewrite IH. }
  rewrite Hom in Hcollect.
  assert (rep [] [] (chunk_writer_new (MkDisk ∅ t))) as Hrep0 by done.
  destruct (ld_write_runs (header_to_vec roots) [] [] _ Hrep0) as (f1 & w1 & Hrun1 & Hset1). cbn [app] in Hset1.
  replace (closes [] (ld_frame (header_to_vec roots))) with true in Hset1 by (unfold closes; by rewrite bool_decide_eq_true_2).
  destruct (ld_write_all_runs ((λ b, cid_to_bytes b.1 ++ b.2) <$> blocks) [ld_frame (header_to_vec roots)] [] w1 ltac:(done) Hset1) as (f2 & w2 & Hrun2 & Hf2 & Hn2).
  rewrite <-list_fmap_compose in Hf2, Hn2. change (ld_frame ∘ _) with block_frame in Hf2, Hn2.
  exists (f0 + f1 + f2)%nat, (cw_disk w2). split; [|exact Hf2]. intros fuel' Hf. unfold split. rewrite read_written, Hcollect by lia.
  cbn [mbind outcome_bind]. unfold write_stream. cbn [ld_write_all]. unfold mbind, stm_bind. rewrite Hrun1, Hrun2 by lia.
  unfold chunk_created. by rewrite Hn2.
Qed.

(** C30: splitting a CAR file into chunks.  However the file system delays and breaks up the work,
    as long as it does not fail, splitting ends; the files are numbered from zero and are as
    many as is returned; in order they hold exactly the bytes of the CAR file; the first one is the
    header; and with a size to keep to, every other chunk but the last has at least that size, and would
    not have it without the frame that was written last, so that no frame is torn. *)
Theorem split_spec roots blocks t :
  ∃ fuel d' chunks,
    (∀ fuel', (fuel ≤ fuel')%nat →
      split fuel' ready (car_bytes roots blocks) (MkDisk ∅ t) = Done (N.of_nat (length chunks), d')) ∧
    files d' = dir chunks ∧ concat chunks = car_bytes roots blocks ∧ head chunks = Some (ld_frame (header_to_vec roots)) ∧
    (0 < max_size → ∀ i c, chunks !! S i = Some c →
      ((S (S i) < length chunks)%nat → max_size ≤ N.of_nat (length c)) ∧
      ∃ c' f, c = c' ++ f ∧ (f ∈ block_frame <$> blocks ∨ f = []) ∧ N.of_nat (length c') < max_size).
Proof.
  destruct (split_runs roots blocks t) as (fuel & d' & Hrun & Hf). exists fuel, d', (car_chunks roots blocks).
  split_and!; [done|done| |done|].
  - unfold car_chunks, car_bytes, car_frames. cbn [concat]. by rewrite gather_concat.
  - intros Hmax i c Hc. unfold car_chunks in *. cbn [lookup list_lookup length] in *. split.
    + intros Hi. eapply gather_full; [done|exact Hc|lia].
    + eapply gather_bounded; [|by eapply list_elem_of_lookup_2]. cbn. lia.
Qed.
End frames.
End chunker.

(** ** A file system *)
Module SampleChunks.
#[local] Existing Instance SampleMachine.ids.
Import SampleCar.

(** Every second poll waits, and at most seven bytes are written at once. *)
Definition slow (t : nat) : Answer := if Nat.even t then Wait else Ok_upto 7.
Definition sometimes (t : nat) : bool := Nat.odd t.
Definition digest (b : list byte) : Cid := Npos (encode b).
#[export] Instance digest_inj : Inj (=) (=) digest.
Proof. intros a b [= Heq]. by apply (inj encode). Qed.
#[export] Instance sample_car : CarEnv := car_env digest.
#[export] Instance sample_laws : CarLaws := car_laws digest.
#[export] Instance sample_reader : CarReaderEnv := {|
  car_reader l := match read_file l with Some (roots, blocks) => inr (roots, inr <$> blocks) | None => inl "malformed"%string end
|}.

Lemma slow_works t e : slow t ≠ Broken e.
Proof. unfold slow. by destruct (Nat.even t). Qed.
Lemma slow_writes t n : slow t = Ok_upto n → 0 < n.
Proof. unfold slow. destruct (Nat.even t); [done|]. by intros [= <-]. Qed.
Lemma slow_ends t : ∃ d, slow (t + d) ≠ Wait.
Proof.
  unfold slow. destruct (Nat.even t) eqn:Ht; [exists 1%nat|exists 0%nat]; [|by rewrite Nat.add_0_r, Ht].
  rewrite Nat.add_comm. cbn [Nat.add]. by rewrite Nat.even_succ, <-Nat.negb_even, Ht.
Qed.
Lemma sometimes_ready t : ∃ d, sometimes (t + d)%nat = true.
Proof.
  unfold sometimes. destruct (Nat.odd t) eqn:Ht; [exists 0%nat; by rewrite Nat.add_0_r|exists 1%nat].
  rewrite Nat.add_comm. cbn [Nat.add]. by rewrite Nat.odd_succ, <-Nat.negb_odd, Ht.
Qed.
Lemma sample_read roots blocks : car_reader (car_bytes roots blocks) = inr (roots, inr <$> blocks).
Proof. cbn [car_reader sample_reader]. unfold sample_car. by rewrite (read_file_written digest). Qed.

Definition leaf : list byte := [x00; x07].
Definition tree : list byte := put (digest leaf).
Definition named (i : N) : string := pretty i.

(** Two blocks are split into the header and chunks of at least ten bytes. *)
Example split_spec_witness :
  ∃ fuel d' chunks,
    (∀ fuel', (fuel ≤ fuel')%nat →
      split slow 10 named fuel' sometimes (car_bytes [digest tree] [(digest tree, tree); (digest leaf, leaf)]) (MkDisk ∅ 0) = Done (N.of_nat (length chunks), d')) ∧
    files d' = dir named chunks ∧ concat chunks = car_bytes [digest tree] [(digest tree, tree); (digest leaf, leaf)].
Proof.
  destruct (split_spec slow 10 named _ slow_works slow_writes slow_ends sometimes sample_read sometimes_ready
    [digest tree] [(digest tree, tree); (digest leaf, leaf)] 0) as (fuel & d' & chunks & Hrun & Hf & Hc & _).
  by exists fuel, d', chunks.
Defined.
End SampleChunks.
