(* ===== verification/Snapshots.v ===== *)
(** * Taking, offering and downloading snapshots

    [fendermint/vm/snapshot/src]: the manager exports the state at regular heights into directories
    with a manifest and the chunks of a CAR file, and keeps a limited number of them; the client is
    what the application uses to announce heights, to serve chunks to peers, and to download the
    snapshot of another node chunk by chunk.  File operations can fail; a failed transaction leaves
    the variables as they were, but not the files. *)

From Stdlib Require Import Strings.Ascii Strings.Byte.
From stdpp Require Import vector pretty infinite.
From S2P Require Import Prelude OrdMap Weights Cache Voting Finality Node Fetch Syncer Pool Merkle Ledger Chain SubnetId.
From S2P Require Import Car Chunks.

(** ** Data *)

(** [tendermint::Hash]: a SHA-256 hash, or none. *)
Definition TmHash : Type := option Hash.

Record SnapshotManifest `{ChainIds} := MkManifest {
  mf_block_height : BlockHeight;
  mf_size : N;
  mf_chunks : N;
  mf_checksum : TmHash;
  mf_state_params : FvmStateParams;
  mf_version : SnapshotVersion
}.
Arguments MkManifest {_} _ _ _ _ _ _.

(** A directory under a parent directory. *)
Definition Path : Type := string * string.

Record SnapshotItem `{ChainIds} := MkItem {
  snapshot_dir : Path;
  manifest : SnapshotManifest;
  last_access : N
}.
Arguments MkItem {_} _ _ _.

Record SnapshotDownload `{ChainIds} := MkDownload {
  dl_manifest : SnapshotManifest;
  download_dir : Path;
  next_index : N
}.
Arguments MkDownload {_} _ _ _.

(** The files of a snapshot: the manifest, the parts and the complete CAR file with its checksum. *)
Record SnapDir := MkSnapDir {
  manifest_file : option string;
  parts : option (gmap string (list byte));
  car_file : option (list byte);
  checksum_file : option TmHash
}.
Definition empty_dir : SnapDir := MkSnapDir None None None None.

(** The variables that the manager and the client share, and the disk. *)
Record SnapNode `{ChainIds} := MkSnapNode {
  snapshots : list SnapshotItem;
  latest_params : option BlockStateParams;
  current_download : option SnapshotDownload;
  is_syncing : bool;
  sn_fs : gmap Path SnapDir;
  sn_tick : nat
}.
Arguments MkSnapNode {_} _ _ _ _ _ _.

Inductive SnapshotError :=
| IncompatibleVersion (v : N)
| IoError (e : string)
| NoDownload
| UnexpectedChunk (expected got : N)
| WrongChecksum (expected got : TmHash).

Record SnapshotParams := MkSnapshotParams {
  snapshots_dir : string;
  sp_download_dir : string;
  block_interval : BlockHeight;
  chunk_size : N;
  hist_size : N;
  last_access_hold : N
}.

#[export] Instance SnapshotManifest_eq_dec `{ChainIds} : EqDecision SnapshotManifest.
Proof. solve_decision. Defined.

(** ** Names of parts *)

(** A file name split at its last dot. *)
Fixpoint rsplit_dot (s : string) : option (string * string) :=
  match s with
  | EmptyString => None
  | String c s =>
      match rsplit_dot s with
      | Some (before, after) => Some (String c before, after)
      | None => if bool_decide (c = "."%char) then Some (EmptyString, s) else None
      end
  end.

(** [Path::extension] and [Path::file_stem]: a name that only starts with a dot has no extension. *)
Definition extension (name : string) : option string :=
  if bool_decide (name = "..")%string then None
  else match rsplit_dot name with
       | Some (EmptyString, _) | None => None
       | Some (_, after) => Some after
       end.
Definition file_stem (name : string) : string :=
  if bool_decide (name = "..")%string then ".."%string
  else match rsplit_dot name with
       | Some (EmptyString, _) | None => name
       | Some (before, _) => before
       end.

Abbreviation u32_size := 4294967296.
Definition parse_u32 (s : string) : option N :=
  match parse_u64 s with
  | Some n => if bool_decide (n < u32_size) then Some n else None
  | None => None
  end.

Definition part_name (idx : N) : string := (pretty idx +:+ ".part")%string.

(** The keys of all parts: a part without a number is a panic. *)
Fixpoint index_parts (entries : list (string * list byte)) : outcome string (list (N * list byte)) :=
  match entries with
  | [] => Done []
  | (name, bytes) :: entries =>
      idx ← unwrap (parse_u32 (file_stem name));
      rest ← index_parts entries;
      Done ((idx, bytes) :: rest)
  end.

Definition by_index (a b : N * list byte) : Prop := a.1 ≤ b.1.
#[export] Instance by_index_dec : RelDecision by_index.
Proof. intros a b. unfold by_index. apply _. Defined.

Section list_parts.
Context `{!HashOrder string}.

(** What a directory is listed as, in no particular order; the parts in order of their index. *)
Definition list_parts (dir : option (gmap string (list byte))) : outcome string (list (list byte)) :=
  entries ← unwrap (hash_iter <$> dir);
  let chunks := filter (λ e, default EmptyString (extension e.1) = "part"%string) entries in
  indexed ← index_parts chunks;
  Done (merge_sort by_index indexed).*2.
End list_parts.

(** ** The environment

    The digest, the text of manifests, the errors of file operations, the clock, the names of temporary
    directories, the library that copies directories, and the polls of the chunk writer. *)
Class SnapEnv `{CarReaderEnv} := {
  sha256 : list byte → Hash;
  manifest_to_json : SnapshotManifest → string + string;
  manifest_from_json : string → string + SnapshotManifest;
  fault : nat → option string;
  system_time : nat → N;
  fresh_name : gmap Path SnapDir → string → string;
  copy_dir : SnapDir → option SnapDir → string + SnapDir;
  chunk_answers : nat → Answer;
  reader_ready : nat → bool
}.

Section snapshots.
Context `{Profile, SnapEnv, !HashOrder string}.

Definition set_snapshots l (n : SnapNode) : SnapNode :=
  MkSnapNode l (latest_params n) (current_download n) (is_syncing n) (sn_fs n) (sn_tick n).
Definition set_latest p (n : SnapNode) : SnapNode :=
  MkSnapNode (snapshots n) p (current_download n) (is_syncing n) (sn_fs n) (sn_tick n).
Definition set_download d (n : SnapNode) : SnapNode :=
  MkSnapNode (snapshots n) (latest_params n) d (is_syncing n) (sn_fs n) (sn_tick n).
Definition set_syncing b (n : SnapNode) : SnapNode :=
  MkSnapNode (snapshots n) (latest_params n) (current_download n) b (sn_fs n) (sn_tick n).
Definition set_fs fs (n : SnapNode) : SnapNode :=
  MkSnapNode (snapshots n) (latest_params n) (current_download n) (is_syncing n) fs (sn_tick n).
Definition put_dir p d (n : SnapNode) : SnapNode := set_fs (<[p := d]> (sn_fs n)) n.
Definition drop_dir p (n : SnapNode) : SnapNode := set_fs (delete p (sn_fs n)) n.
(** The parts in a directory. *)
Definition parts_of (p : Path) (n : SnapNode) : option (gmap string (list byte)) :=
  match sn_fs n !! p with Some d => parts d | None => None end.
Definition io_modify {S E} (f : S → S) : io S E unit := λ s, (Done tt, f s).

(** A file operation, which may fail. *)
Definition fs_op : io SnapNode string unit := λ n,
  let n' := MkSnapNode (snapshots n) (latest_params n) (current_download n) (is_syncing n) (sn_fs n) (S (sn_tick n)) in
  match fault (sn_tick n) with
  | Some e => (Fail e, n')
  | None => (Done tt, n')
  end.
Definition with_context {S A} (c : string) (m : io S string A) : io S string A := io_map_err (λ e, c +:+ ": " +:+ e)%string m.

(** ** [SnapshotItem] *)

Definition item_new (dir : Path) (m : SnapshotManifest) : SnapshotItem := MkItem dir m 0.

Definition load_chunk (item : SnapshotItem) (chunk : N) : io SnapNode string (list byte) :=
  if bool_decide (mf_chunks (manifest item) ≤ chunk) then io_of (Fail "cannot load chunk"%string)
  else
    with_context "failed to read chunk" fs_op ;;
    ps ← io_reads (parts_of (snapshot_dir item));
    match default ∅ ps !! part_name chunk with
    | Some content => mret content
    | None => io_of (Fail "failed to read chunk"%string)
    end.

(** Copying the parts one after the other. *)
Fixpoint copy_parts (ps : list (list byte)) (acc : list byte) : io SnapNode string (list byte) :=
  match ps with
  | [] => mret acc
  | part :: ps =>
      with_context "failed to open snapshot part" fs_op ;;
      fs_op ;;
      copy_parts ps (acc ++ part)
  end.

(** The node and the store that snapshots are imported into. *)
Definition World : Type := SnapNode * MemoryBlockstore.
Definition on_snap {E A} (m : io SnapNode E A) : io World E A := λ w,
  let '(r, n) := m w.1 in (r, (n, w.2)).
Definition on_store {E A} (m : io MemoryBlockstore E A) : io World E A := λ w,
  let '(r, s) := m w.2 in (r, (w.1, s)).

Definition set_car (item : SnapshotItem) (car : option (list byte)) (n : SnapNode) : SnapNode :=
  match sn_fs n !! snapshot_dir item with
  | Some d => put_dir (snapshot_dir item) (MkSnapDir (manifest_file d) (parts d) car (checksum_file d)) n
  | None => n
  end.

Definition import (item : SnapshotItem) (validate : bool) : io World string (Snapshot MemoryBlockstore) :=
  dir ← on_snap (io_reads (parts_of (snapshot_dir item)));
  ps ← on_snap (with_context "failed to list snapshot parts" (io_of (list_parts dir)));
  on_snap (with_context "failed to create CAR file" fs_op) ;;
  car ← on_snap (copy_parts ps []);
  on_snap (io_modify (set_car item (Some car))) ;;
  result ← attempt (on_snap fs_op ;; on_store (read_car car validate));
  on_snap (with_context "failed to remove CAR file" fs_op) ;;
  on_snap (io_modify (set_car item None)) ;;
  snapshot ← match result with
             | inl e => io_of (Fail ("failed to import the snapshot into the blockstore: " +:+ e)%string)
             | inr s => mret s
             end;
  if (validate : bool) then
    match snapshot with
    | V1 s =>
        if negb (bool_decide (v1_block_height s = mf_block_height (manifest item)))
        then io_of (Fail "invalid snapshot block height"%string)
        else if negb (bool_decide (v1_state_params s = mf_state_params (manifest item)))
        then io_of (Fail "invalid state params"%string)
        else mret snapshot
    end
  else mret snapshot.

(** ** [manifest.rs] *)

Definition write_manifest (m : SnapshotManifest) (dir : SnapDir) : io SnapNode string SnapDir :=
  json ← with_context "failed to convert manifest to JSON" (io_of (of_result (manifest_to_json m)));
  with_context "failed to write manifest file" fs_op ;;
  mret (MkSnapDir (Some json) (parts dir) (car_file dir) (checksum_file dir)).

Definition file_checksum (content : list byte) : io SnapNode string TmHash :=
  fs_op ;; mret (Some (sha256 content)).

Definition parts_checksum (dir : option (gmap string (list byte))) : io SnapNode string TmHash :=
  chunks ← io_of (list_parts dir);
  content ← copy_parts chunks [];
  mret (Some (sha256 content)).

Definition by_height (a b : SnapshotItem) : Prop := mf_block_height (manifest a) ≤ mf_block_height (manifest b).
#[export] Instance by_height_dec : RelDecision by_height.
Proof. intros a b. unfold by_height. apply _. Defined.

(** The manifests of the directories whose metadata can be read. *)
Fixpoint collect_manifests (entries : list (Path * SnapDir)) : io SnapNode string (list (Path * string)) :=
  match entries with
  | [] => mret []
  | (dir, d) :: entries =>
      metadata ← attempt fs_op;
      rest ← collect_manifests entries;
      mret (match metadata, manifest_file d with
            | inr _, Some json => (dir, json) :: rest
            | _, _ => rest
            end)
  end.

(** Manifests that cannot be parsed are skipped; one that cannot be read is an error. *)
Fixpoint parse_manifests (dirs : list (Path * string)) : io SnapNode string (list SnapshotItem) :=
  match dirs with
  | [] => mret []
  | (dir, json) :: dirs =>
      with_context "failed to open manifest" fs_op ;;
      rest ← parse_manifests dirs;
      mret (match manifest_from_json json with
            | inr m => item_new dir m :: rest
            | inl _ => rest
            end)
  end.

Definition list_manifests (dir : string) : io SnapNode string (list SnapshotItem) :=
  with_context "failed to read snapshot directory" fs_op ;;
  contents ← io_reads (λ n, filter (λ e, e.1.1 = dir) (map_to_list (sn_fs n)));
  manifests ← collect_manifests contents;
  items ← parse_manifests manifests;
  mret (merge_sort by_height items).

(** ** [SnapshotClient] *)

Definition notify (interval : BlockHeight) (block_height : BlockHeight) (state_params : FvmStateParams) : stm SnapNode string unit :=
  if bool_decide (interval = 0) then lift Panic
  else if bool_decide (block_height `mod` interval = 0) then modify (set_latest (Some (state_params, block_height)))
  else mret tt.

Definition list_snapshots : stm SnapNode string (list SnapshotItem) := reads snapshots.

(** The first snapshot that fits is marked and returned. *)
Fixpoint access_item (now : N) (block_height : BlockHeight) (version : SnapshotVersion) (items : list SnapshotItem) :
    option (SnapshotItem * list SnapshotItem) :=
  match items with
  | [] => None
  | s :: items =>
      if bool_decide (mf_block_height (manifest s) = block_height ∧ mf_version (manifest s) = version) then
        let s := MkItem (snapshot_dir s) (manifest s) now in Some (s, s :: items)
      else (λ '(r, items), (r, s :: items)) <$> access_item now block_height version items
  end.

Definition access_snapshot (block_height : BlockHeight) (version : SnapshotVersion) : stm SnapNode string (option SnapshotItem) :=
  items ← reads snapshots;
  now ← reads (λ n, system_time (sn_tick n));
  match access_item now block_height version items with
  | Some (s, items) => modify (set_snapshots items) ;; mret (Some s)
  | None => mret None
  end.

(** A transaction with file operations: when it aborts, the variables are restored, the disk is
    not. *)
Definition atomically_io {E A} (m : io SnapNode E A) : io SnapNode E A := λ n,
  match m n with
  | (Done a, n') => (Done a, n')
  | (r, n') => (r, MkSnapNode (snapshots n) (latest_params n) (current_download n) (is_syncing n) (sn_fs n') (sn_tick n'))
  end.

(** The directory of the previous download goes when another one takes its place, that of a download
    that cannot be started at once. *)
Definition offer_snapshot (parent : string) (m : SnapshotManifest) : io SnapNode SnapshotError Path :=
  if negb (bool_decide (mf_version m = 1)) then io_of (Fail (IncompatibleVersion (mf_version m)))
  else
    io_map_err IoError fs_op ;;
    dir ← io_reads (λ n, (parent, fresh_name (sn_fs n) parent));
    json ← io_map_err IoError (io_of (of_result (manifest_to_json m)));
    io_map_err IoError fs_op ;;
    io_map_err IoError fs_op ;;
    old ← io_reads current_download;
    io_modify (λ n, match old with Some d => drop_dir (download_dir d) n | None => n end) ;;
    io_modify (put_dir dir (MkSnapDir (Some json) (Some ∅) None None)) ;;
    io_modify (set_download (Some (MkDownload m dir 0))) ;;
    mret dir.

Definition put_part (dir : Path) (index : N) (contents : list byte) (n : SnapNode) : SnapNode :=
  match sn_fs n !! dir with
  | Some d => put_dir dir (MkSnapDir (manifest_file d) ((<[part_name index := contents]>) <$> parts d) (car_file d) (checksum_file d)) n
  | None => n
  end.

(** [u32] addition of one. *)
Definition u32_succ {E} (n : N) : outcome E N :=
  if bool_decide (n + 1 < u32_size) then Done (n + 1) else if overflow_checks then Panic else Done 0.

Definition save_chunk (index : N) (contents : list byte) : io SnapNode SnapshotError (option SnapshotItem) :=
  cd ← io_reads current_download;
  match cd with
  | None => io_of (Fail NoDownload)
  | Some cd =>
      if negb (bool_decide (index = next_index cd)) then io_of (Fail (UnexpectedChunk (next_index cd) index))
      else
        io_map_err IoError fs_op ;;
        io_modify (put_part (download_dir cd) index contents) ;;
        next ← io_of (u32_succ index);
        io_modify (set_download (Some (MkDownload (dl_manifest cd) (download_dir cd) next))) ;;
        if bool_decide (next = mf_chunks (dl_manifest cd)) then
          dir ← io_reads (parts_of (download_dir cd));
          checksum ← io_map_err IoError (parts_checksum dir);
          if bool_decide (checksum = mf_checksum (dl_manifest cd)) then mret (Some (item_new (download_dir cd) (dl_manifest cd)))
          else io_of (Fail (WrongChecksum (mf_checksum (dl_manifest cd)) checksum))
        else mret None
  end.

(** ** [SnapshotManager] *)

Definition manager_new (params : SnapshotParams) : io SnapNode string unit :=
  with_context "failed to create snapshots directory" fs_op ;;
  items ← with_context "failed to list manifests" (list_manifests (snapshots_dir params));
  io_modify (λ n, MkSnapNode items None None true (sn_fs n) (sn_tick n)).

(** The directory is renamed, or copied without the CAR file if that fails, as it does when it exists. *)
Definition move_or_copy (from : SnapDir) (to : Path) : io SnapNode string unit :=
  renamed ← attempt (fs_op ;; e ← io_reads (λ n, bool_decide (is_Some (sn_fs n !! to)));
                     if (e : bool) then io_of (Fail "directory not empty"%string) else mret tt);
  match renamed with
  | inr _ =>
      io_modify (put_dir to from) ;;
      with_context "failed to remove CAR file" fs_op ;;
      io_modify (put_dir to (MkSnapDir (manifest_file from) (parts from) None (checksum_file from)))
  | inl _ =>
      fs_op ;;
      old ← io_reads (λ n, sn_fs n !! to);
      d ← io_of (of_result (copy_dir from old));
      io_modify (put_dir to d)
  end.

Definition snapshot_name (h : BlockHeight) : string := ("snapshot-" +:+ pretty h)%string.

Section manager.
Context (params : SnapshotParams) (store : MemoryBlockstore) (fuel : nat).

Definition create_snapshot (block_height : BlockHeight) (state_params : FvmStateParams) : io SnapNode string SnapshotItem :=
  snapshot ← with_context "failed to create snapshot" (io_of (snapshot_new store state_params block_height));
  with_context "failed to create temp dir for snapshot" fs_op ;;
  with_context "failed to write CAR file" fs_op ;;
  written ← with_context "failed to write CAR file" (io_of (write_car fuel snapshot));
  let car := car_bytes written.1 written.2 in
  with_context "failed to get snapshot metadata" fs_op ;;
  let snapshot_size := N.of_nat (length car) in
  checksum_bytes ← with_context "failed to compute checksum" (file_checksum car);
  with_context "failed to write checksum file" fs_op ;;
  with_context "failed to create parts dir" fs_op ;;
  tick ← io_reads sn_tick;
  chunks ← with_context "failed to split CAR into chunks"
             (io_of (split chunk_answers (chunk_size params) part_name fuel reader_ready car (MkDisk ∅ tick)));
  let m := MkManifest block_height snapshot_size (chunks.1 `mod` u32_size) checksum_bytes state_params (snapshot_version snapshot) in
  dir ← with_context "failed to export manifest"
          (write_manifest m (MkSnapDir None (Some (files chunks.2)) (Some car) (Some checksum_bytes)));
  let to := (snapshots_dir params, snapshot_name block_height) in
  with_context "failed to move snapshot" (move_or_copy dir to) ;;
  mret (item_new to m).

(** The time since the last access, unless the clock is behind. *)
Definition elapsed (now t : N) : option N := if bool_decide (t ≤ now) then Some (now - t) else None.

(** The snapshots to remove, and those that stay. *)
Fixpoint prune_items (now : N) (items : list SnapshotItem) : list SnapshotItem * list SnapshotItem :=
  match items with
  | [] => ([], [])
  | s :: rest =>
      if bool_decide (N.of_nat (length items) ≤ hist_size params) then ([], items)
      else
        let held := match elapsed now (last_access s) with
                    | Some t => bool_decide (t ≤ last_access_hold params)
                    | None => false
                    end in
        if held then ([], items)
        else let '(removables, items) := prune_items now rest in (s :: removables, items)
  end.

(** A directory that cannot be removed is left. *)
Fixpoint remove_dirs (items : list SnapshotItem) : io SnapNode string unit :=
  match items with
  | [] => mret tt
  | s :: items =>
      r ← attempt fs_op;
      io_modify (λ n, match r with inl _ => n | inr _ => drop_dir (snapshot_dir s) n end) ;;
      remove_dirs items
  end.

Definition prune_history : io SnapNode string unit :=
  if bool_decide (hist_size params = 0) then mret tt
  else
    removables ← (λ n, let '(removables, items) := prune_items (system_time (sn_tick n)) (snapshots n) in
                       (Done removables, set_snapshots items n));
    remove_dirs removables.

(** What the manager waits for: the node has caught up, and there is another height to take. *)
Definition next_params (last : option BlockStateParams) : stm SnapNode string BlockStateParams :=
  syncing ← reads is_syncing;
  if (syncing : bool) then retry
  else
    latest ← reads latest_params;
    match latest with
    | None => retry
    | Some new => if bool_decide (latest = last) then retry else mret new
    end.

(** One round of the manager, with the parameters of the last one. *)
Definition run_round (last : option BlockStateParams) : io SnapNode string (option BlockStateParams) :=
  p ← atomically_or_err (next_params last);
  let '(state_params, block_height) := p in
  r ← attempt (create_snapshot block_height state_params);
  io_modify (λ n, match r with inr item => set_snapshots (snapshots n ++ [item]) n | inl _ => n end) ;;
  prune_history ;;
  mret (Some (state_params, block_height)).
End manager.

(** One round of polling CometBFT. *)
Definition poll_sync_status (status : string + bool) : stm SnapNode string unit :=
  match status with
  | inr catching_up => modify (set_syncing catching_up)
  | inl _ => mret tt
  end.
End snapshots.

(** ** Names and parts *)

Lemma rsplit_dot_app (a b : string) :
  rsplit_dot b = None → rsplit_dot (a +:+ String "."%char b) = Some (a, b).
Proof.
  intros Hb. induction a as [|c a IH].
  - change (rsplit_dot (String "."%char b) = Some (EmptyString, b)). cbn [rsplit_dot]. by rewrite Hb.
  - change (rsplit_dot (String c (a +:+ String "."%char b)) = Some (String c a, b)). cbn [rsplit_dot]. by rewrite IH.
Qed.

Lemma digit_of_pretty d : d < 10 → digit_of (pretty_N_char d) = Some d.
Proof.
  intros Hd. destruct d as [|p]; [done|]. do 4 (destruct p as [p|p|]; try done; try lia).
Qed.

Lemma parse_digits_pretty n s : n < u64_size → parse_digits (pretty_N_go n s) 0 = parse_digits s n.
Proof.
  revert s. induction (N.lt_wf_0 n) as [n _ IH]. intros s Hn.
  destruct (decide (n = 0)) as [->|Hne]; [by rewrite pretty_N_go_0|].
  rewrite pretty_N_go_step by lia. pose proof (N.div_mod n 10 ltac:(done)) as Hdm. pose proof (N.mod_lt n 10 ltac:(done)) as Hm.
  rewrite IH by lia. cbn [parse_digits]. rewrite digit_of_pretty by done.
  replace (n / 10 * 10 + n `mod` 10) with n by lia. by rewrite bool_decide_eq_true_2.
Qed.

Lemma pretty_go_first n s :
  0 < n → ∃ d s', d < 10 ∧ pretty_N_go n s = String (pretty_N_char d) s'.
Proof.
  revert s. induction (N.lt_wf_0 n) as [n _ IH]. intros s Hn. rewrite pretty_N_go_step by done.
  pose proof (N.mod_lt n 10 ltac:(done)) as Hm. pose proof (N.div_mod n 10 ltac:(done)) as Hdm.
  destruct (decide (n / 10 = 0)) as [->|Hne]; [rewrite pretty_N_go_0; eauto|]. apply IH; lia.
Qed.

Lemma parse_u64_digit d s : d < 10 → parse_u64 (String (pretty_N_char d) s) = parse_digits (String (pretty_N_char d) s) 0.
Proof. intros Hd. destruct d as [|p]; [done|]. do 4 (destruct p as [p|p|]; try done; try lia). Qed.

Lemma parse_pretty n : n < u32_size → parse_u32 (pretty n) = Some n.
Proof.
  intros Hn. unfold parse_u32. assert (parse_u64 (pretty n) = Some n) as ->; [|by rewrite bool_decide_eq_true_2].
  unfold pretty, pretty_N. destruct (decide (n = 0)) as [->|Hne]; [done|].
  destruct (pretty_go_first n "" ltac:(lia)) as (d & s' & Hd & Heq). rewrite Heq, parse_u64_digit, <-Heq by done.
  by rewrite parse_digits_pretty by lia.
Qed.

#[export] Instance part_name_inj : Inj (=) (=) part_name.
Proof.
  intros a b Hab. unfold part_name in Hab. apply (inj pretty).
  assert (rsplit_dot (pretty a +:+ ".part")%string = rsplit_dot (pretty b +:+ ".part")%string) as Heq by by rewrite Hab.
  rewrite !(rsplit_dot_app _ "part") in Heq by done. by injection Heq.
Qed.

Lemma part_name_parsed i :
  i < u32_size → extension (part_name i) = Some "part"%string ∧ parse_u32 (file_stem (part_name i)) = Some i.
Proof.
  intros Hi. unfold extension, file_stem. rewrite !bool_decide_eq_false_2.
  - unfold part_name. rewrite (rsplit_dot_app _ "part") by done.
    assert (pretty i ≠ EmptyString) as Hne.
    { unfold pretty, pretty_N. destruct (decide (i = 0)); [done|]. destruct (pretty_go_first i "" ltac:(lia)) as (? & ? & _ & ->). done. }
    destruct (pretty i) eqn:Hp; [done|]. split; [done|]. rewrite <-Hp. by apply parse_pretty.
  - intros Heq%(f_equal rsplit_dot). unfold part_name in Heq. by rewrite (rsplit_dot_app _ "part") in Heq.
Qed.

(** Chunks with the indices from a number on. *)
Fixpoint numbered (i : N) (chunks : list (list byte)) : list (N * list byte) :=
  match chunks with
  | [] => []
  | b :: bs => (i, b) :: numbered (i + 1) bs
  end.

Lemma numbered_ge i chunks x : x ∈ numbered i chunks → i ≤ x.1 < i + N.of_nat (length chunks).
Proof.
  revert i. induction chunks as [|b bs IH]; intros i; cbn; [intros []%not_elem_of_nil|].
  intros [->|Hx%IH]%elem_of_cons; cbn; lia.
Qed.

Lemma numbered_sorted i chunks : StronglySorted by_index (numbered i chunks).
Proof.
  revert i. induction chunks as [|b bs IH]; intros i; cbn; constructor; [apply IH|].
  apply Forall_forall. intros x Hx%numbered_ge. unfold by_index. cbn. lia.
Qed.

Lemma numbered_keys i chunks x y : x ∈ numbered i chunks → y ∈ numbered i chunks → x.1 = y.1 → x = y.
Proof.
  revert i. induction chunks as [|b bs IH]; intros i; cbn; [intros []%not_elem_of_nil|].
  intros [->|Hx]%elem_of_cons [->|Hy]%elem_of_cons Heq; [done|..].
  - apply numbered_ge in Hy. cbn in *. lia.
  - apply numbered_ge in Hx. cbn in *. lia.
  - by eapply IH.
Qed.

Lemma numbered_chunks i chunks : (numbered i chunks).*2 = chunks.
Proof. revert i. induction chunks as [|b bs IH]; intros i; cbn; [done|]. by rewrite IH. Qed.

Lemma dir_entries i chunks :
  map_to_list (dir_from part_name i chunks) ≡ₚ (λ x, (part_name x.1, x.2)) <$> numbered i chunks.
Proof.
  revert i. induction chunks as [|b bs IH]; intros i; cbn [dir_from numbered fmap list_fmap]; [by rewrite map_to_list_empty|].
  rewrite map_to_list_insert; [by rewrite IH|].
  assert (∀ j, i < j → dir_from part_name j bs !! part_name i = None) as Hout; [|apply Hout; lia].
  clear. induction bs as [|b bs IH]; intros j Hj; cbn [dir_from]; [done|].
  rewrite lookup_insert_ne by (intros Heq%(inj part_name); lia). apply IH. lia.
Qed.

Lemma filter_every {A} (P : A → Prop) `{∀ x, Decision (P x)} l : Forall P l → filter P l = l.
Proof. induction 1 as [|x l Hx _ IH]; [done|]. by rewrite filter_cons_True, IH. Qed.

#[export] Instance by_index_total : Total by_index.
Proof. intros x y. unfold by_index. lia. Qed.
#[export] Instance by_index_trans : Transitive by_index.
Proof. intros x y z. unfold by_index. lia. Qed.

Lemma index_parts_named l :
  Forall (λ x, x.1 < u32_size) l → index_parts ((λ x, (part_name x.1, x.2)) <$> l) = Done l.
Proof.
  induction 1 as [|[i b] l Hi _ IH]; [done|]. cbn [fmap list_fmap index_parts fst snd].
  rewrite (proj2 (part_name_parsed i Hi)). cbn [unwrap mbind outcome_bind]. by rewrite IH.
Qed.

Lemma index_parts_perm l k r :
  l ≡ₚ k → index_parts l = Done r → ∃ r', index_parts k = Done r' ∧ r ≡ₚ r'.
Proof.
  intros Hp. revert r. induction Hp as [|[n b] l k _ IH|[n b] [n' b'] l|l k m _ IH1 _ IH2]; intros r Hr; cbn [index_parts] in *.
  - by eexists.
  - inv_done. match goal with G : index_parts l = _ |- _ => destruct (IH _ G) as (r' & -> & Hr') end.
    eexists. split; [match goal with G : unwrap _ = _ |- _ => by rewrite G end|by constructor].
  - inv_done. repeat match goal with G : unwrap _ = _ |- _ => rewrite G; clear G end. cbn [mbind outcome_bind].
    match goal with G : index_parts _ = _ |- _ => rewrite G end. eexists. split; [done|]. constructor.
  - destruct (IH1 r Hr) as (r1 & Hr1 & Hp1). destruct (IH2 r1 Hr1) as (r2 & Hr2 & Hp2). exists r2. split; [done|by etrans].
Qed.

(** The parts of a directory of chunks are the chunks. *)
Lemma list_parts_dir `{!HashOrder string} chunks :
  N.of_nat (length chunks) < u32_size → list_parts (Some (dir part_name chunks)) = Done chunks.
Proof.
  intros Hlen. unfold list_parts. cbn [unwrap fmap option_fmap option_map mbind outcome_bind].
  assert (hash_iter (dir part_name chunks) ≡ₚ (λ x, (part_name x.1, x.2)) <$> numbered 0 chunks) as Hp
    by (rewrite hash_iter_perm; apply dir_entries).
  assert (Forall (λ x, x.1 < u32_size) (numbered 0 chunks)) as Hsmall.
  { apply Forall_forall. intros x Hx%numbered_ge. lia. }
  assert (filter (λ e : string * list byte, default EmptyString (extension e.1) = "part"%string) (hash_iter (dir part_name chunks)) ≡ₚ
    (λ x, (part_name x.1, x.2)) <$> numbered 0 chunks) as Hf.
  { rewrite Hp. rewrite filter_every; [done|]. apply Forall_fmap. eapply Forall_impl; [exact Hsmall|].
    intros x Hx. cbn. by rewrite (proj1 (part_name_parsed x.1 Hx)). }
  destruct (index_parts_perm _ _ _ (symmetry Hf) (index_parts_named _ Hsmall)) as (r & -> & Hr). cbn [mbind outcome_bind]. f_equal.
  transitivity ((numbered 0 chunks).*2); [|apply numbered_chunks]. f_equal.
  apply (StronglySorted_unique_strong by_index).
  - intros x y Hx Hy Hxy Hyx. apply (numbered_keys 0 chunks).
    + rewrite Hr. rewrite <-(merge_sort_Permutation by_index r). done.
    + done.
    + unfold by_index in *. lia.
  - apply StronglySorted_merge_sort; apply _.
  - apply numbered_sorted.
  - rewrite merge_sort_Permutation. done.
Qed.

(** ** Keeping a limited history *)

Section history.
Context `{Profile, SnapEnv, !HashOrder string} (params : SnapshotParams).

(** A snapshot that was asked for recently. *)
Definition held (now : N) (s : SnapshotItem) : Prop := last_access s ≤ now ∧ now - last_access s ≤ last_access_hold params.

Lemma prune_items_spec now items :
  let '(removables, rest) := prune_items params now items in
  items = removables ++ rest ∧ Forall (λ s, ¬ held now s) removables ∧
  (N.of_nat (length rest) ≤ hist_size params ∨ ∃ s, head rest = Some s ∧ held now s) ∧
  (removables ≠ [] → hist_size params ≤ N.of_nat (length rest)).
Proof.
  induction items as [|s items IH]; cbn [prune_items]; [split_and!; [done|done|left; cbn; lia|done]|].
  case_bool_decide as Hlen; [split_and!; [done|done|by left|done]|].
  assert (match elapsed now (last_access s) with Some t => bool_decide (t ≤ last_access_hold params) | None => false end = bool_decide (held now s)) as ->.
  { unfold elapsed, held. case_bool_decide as Ht; [apply bool_decide_ext; tauto|symmetry; apply bool_decide_eq_false; tauto]. }
  case_bool_decide as Hheld; [split_and!; [done|done|right; eauto|done]|].
  destruct (prune_items params now items) as [removables rest]. destruct IH as (-> & Hnot & Hrest & Hmin).
  split_and!; [done|by constructor|done|]. intros _. destruct removables; [|by apply Hmin].
  cbn [app length] in Hlen. lia.
Qed.

(** Removing directories does not touch what is remembered, and removes nothing else. *)
Lemma remove_dirs_spec items n :
  ∃ n', remove_dirs items n = (Done tt, n') ∧ snapshots n' = snapshots n ∧
    (∀ p, p ∉ snapshot_dir <$> items → sn_fs n' !! p = sn_fs n !! p) ∧
    (∀ p, is_Some (sn_fs n' !! p) → is_Some (sn_fs n !! p)).
Proof.
  revert n. induction items as [|s items IH]; intros n; cbn [remove_dirs]; [by exists n|].
  set (n1 := (attempt (F:=string) fs_op n).2).
  assert (∃ r, attempt fs_op n = (Done (E:=string) r, n1) ∧ snapshots n1 = snapshots n ∧ sn_fs n1 = sn_fs n) as (r & Hr & Hs1 & Hf1).
  { unfold n1, attempt, fs_op. destruct (fault (sn_tick n)); by eexists. }
  rewrite (io_run_bind _ _ _ _ _ Hr). erewrite io_run_bind by done. cbv beta.
  set (n2 := match r with inl _ => n1 | inr _ => drop_dir (snapshot_dir s) n1 end).
  assert (snapshots n2 = snapshots n ∧ (sn_fs n2 = sn_fs n ∨ sn_fs n2 = delete (snapshot_dir s) (sn_fs n))) as [Hs2 Hf2].
  { unfold n2. destruct r; cbn; rewrite ?Hs1, ?Hf1; auto. }
  destruct (IH n2) as (n' & Hr' & Hs' & Hf' & Hi'). exists n'. split_and!; [done|congruence|..].
  - intros p Hp. cbn in Hp. apply not_elem_of_cons in Hp as [Hne Hp]. rewrite Hf' by done.
    destruct Hf2 as [->| ->]; [done|]. by apply lookup_delete_ne.
  - intros p Hp%Hi'. destruct Hf2 as [Hf2|Hf2]; rewrite Hf2 in Hp; [done|]. apply lookup_delete_is_Some in Hp. tauto.
Qed.

(** What is left of the snapshots after pruning, whatever happens to the files: the newest
    ones, in order; no more than the limit, unless the oldest of them was asked for recently; never
    fewer than the limit if any were removed; none that was asked for within the time to hold it; and the
    directories of all those that are left, if no two snapshots share one. *)
Lemma history_pruned n :
  hist_size params ≠ 0 → NoDup (snapshot_dir <$> snapshots n) →
  ∃ n' removed, prune_history params n = (Done tt, n') ∧
    let now := system_time (sn_tick n) in
    snapshots n = removed ++ snapshots n' ∧ Forall (λ s, ¬ held now s) removed ∧
    (N.of_nat (length (snapshots n')) ≤ hist_size params ∨ ∃ s, head (snapshots n') = Some s ∧ held now s) ∧
    (removed ≠ [] → hist_size params ≤ N.of_nat (length (snapshots n'))) ∧
    (∀ s, s ∈ snapshots n' → sn_fs n' !! snapshot_dir s = sn_fs n !! snapshot_dir s).
Proof.
  intros Hsize Hnd. unfold prune_history. rewrite bool_decide_eq_false_2 by done.
  pose proof (prune_items_spec (system_time (sn_tick n)) (snapshots n)) as Hspec.
  destruct (prune_items params (system_time (sn_tick n)) (snapshots n)) as [removed rest] eqn:Hprune.
  destruct Hspec as (Hitems & Hnot & Hrest & Hmin).
  destruct (remove_dirs_spec removed (set_snapshots rest n)) as (n' & Hrun & Hs & Hf & _). cbn in Hs.
  exists n', removed. rewrite Hs. split_and!; [|done|done|done|done|].
  - erewrite io_run_bind; [exact Hrun|]. by rewrite Hprune.
  - intros s Hin. rewrite Hf; [done|]. intros Hin'. rewrite Hitems, fmap_app in Hnd. apply NoDup_app in Hnd as (_ & Hdis & _).
    apply (Hdis _ Hin'). by apply list_elem_of_fmap_2.
Qed.
End history.

(** ** Downloading *)

Section download.
Context `{Profile, SnapEnv, !HashOrder string}.

(** A node whose clock has moved on. *)
Definition ticked (k : nat) (n : SnapNode) : SnapNode :=
  MkSnapNode (snapshots n) (latest_params n) (current_download n) (is_syncing n) (sn_fs n) (k + sn_tick n).

Lemma fs_op_cases n : ∃ r, fs_op n = (r, ticked 1 n) ∧ (r = Done tt ∨ ∃ e, r = Fail e).
Proof. unfold fs_op, ticked. destruct (fault (sn_tick n)); eexists; split; eauto. Qed.

Lemma copy_parts_cases ps acc n :
  ∃ r k, copy_parts ps acc n = (r, ticked k n) ∧ (r = Done (acc ++ concat ps) ∨ ∃ e, r = Fail e).
Proof.
  revert acc n. induction ps as [|p ps IH]; intros acc n; cbn [copy_parts].
  { exists (Done acc), 0%nat. cbn. rewrite app_nil_r. split; [by destruct n|by left]. }
  unfold mbind, io_bind, with_context, io_map_err.
  destruct (fs_op_cases n) as (r1 & -> & [->|(e & ->)]); cbn [map_err]; [|eexists _, 1%nat; eauto].
  destruct (fs_op_cases (ticked 1 n)) as (r2 & -> & [->|(e & ->)]); [|eexists _, 2%nat; eauto].
  destruct (IH (acc ++ p) (ticked 1 (ticked 1 n))) as (r & k & -> & Hr). exists r, (k + 2)%nat. cbn [concat].
  rewrite app_assoc. split; [|done]. f_equal. unfold ticked. cbn. f_equal. lia.
Qed.

(** What a completed download has is what the manifest promises. *)
Lemma save_chunk_sound index contents n item n' :
  save_chunk index contents n = (Done (Some item), n') →
  ∃ cd ps, current_download n = Some cd ∧ item = item_new (download_dir cd) (dl_manifest cd) ∧
    current_download n' = Some (MkDownload (dl_manifest cd) (download_dir cd) (mf_chunks (dl_manifest cd))) ∧
    list_parts (parts_of (snapshot_dir item) n') = Done ps ∧ Some (sha256 (concat ps)) = mf_checksum (manifest item).
Proof.
  unfold save_chunk. intros Hr. inv_io. destruct (current_download n) as [cd|] eqn:Hcd; inv_io.
  case_bool_decide as Hidx; cbn [negb] in *; inv_io.
  case_bool_decide as Hlast; inv_io; [|done]. unfold parts_checksum in *. inv_io.
  match goal with G : copy_parts ?ps ?acc ?m = _ |- _ =>
    destruct (copy_parts_cases ps acc m) as (r & k & Hcopy & Hr); rewrite Hcopy in G; injection G as -> <- end.
  destruct Hr as [[= ->]|[e [=]]]. case_bool_decide as Hsum; inv_io. simplify_eq.
  repeat match goal with G : io_modify _ _ = _ |- _ => injection G as _ <- end.
  eexists cd, _. split_and!; [done|done|done|eassumption|done].
Qed.

(** A download in progress: the parts that have arrived are the first chunks. *)
Definition downloading (chunks : list (list byte)) (m : SnapshotManifest) (d : Path) (k : nat) (n : SnapNode) : Prop :=
  current_download n = Some (MkDownload m d (N.of_nat k)) ∧ parts_of d n = Some (dir part_name (take k chunks)).

Hypothesis (no_faults : ∀ t, fault t = None).

Lemma fs_op_runs n : fs_op n = (Done tt, ticked 1 n).
Proof. unfold fs_op. by rewrite no_faults. Qed.
Lemma io_map_err_run {S E F A} (f : E → F) (m : io S E A) s a s' : m s = (Done a, s') → io_map_err f m s = (Done a, s').
Proof. intros Hm. by apply io_map_err_Done. Qed.

Lemma copy_parts_runs ps acc n : ∃ k, copy_parts ps acc n = (Done (acc ++ concat ps), ticked k n).
Proof.
  revert acc n. induction ps as [|p ps IH]; intros acc n; cbn [copy_parts concat].
  { exists 0%nat. rewrite app_nil_r. by destruct n. }
  erewrite io_run_bind by (apply io_map_err_run, fs_op_runs). erewrite io_run_bind by apply fs_op_runs.
  destruct (IH (acc ++ p) (ticked 1 (ticked 1 n))) as [k ->]. exists (k + 2)%nat. rewrite app_assoc. f_equal. unfold ticked. cbn. f_equal. lia.
Qed.

Lemma parts_of_put_part d index b n ps :
  parts_of d n = Some ps → parts_of d (put_part d index b n) = Some (<[part_name index := b]> ps) ∧
    current_download (put_part d index b n) = current_download n ∧ snapshots (put_part d index b n) = snapshots n ∧
    (∀ p, p ≠ d → sn_fs (put_part d index b n) !! p = sn_fs n !! p).
Proof.
  unfold parts_of, put_part. destruct (sn_fs n !! d) as [dd|] eqn:Hd; [|done]. intros Hp. cbn. rewrite lookup_insert_eq. cbn. rewrite Hp.
  split_and!; [done|done|done|]. intros p Hne. by rewrite lookup_insert_ne.
Qed.

(** The next chunk is saved; with the last one the download is complete. *)
Lemma save_chunk_runs chunks m d k b n :
  downloading chunks m d k n → chunks !! k = Some b → N.of_nat (length chunks) < u32_size →
  mf_chunks m = N.of_nat (length chunks) → mf_checksum m = Some (sha256 (concat chunks)) →
  ∃ n', save_chunk (N.of_nat k) b n = (Done (if decide (S k = length chunks) then Some (item_new d m) else None), n') ∧
    downloading chunks m d (S k) n' ∧ snapshots n' = snapshots n ∧ (∀ p, p ≠ d → sn_fs n' !! p = sn_fs n !! p).
Proof.
  intros [Hcd Hparts] Hb Hlen Hchunks Hsum. assert (k < length chunks)%nat as Hk by (by eapply lookup_lt_Some).
  unfold save_chunk. erewrite io_run_bind by done. rewrite Hcd. cbn [next_index]. rewrite bool_decide_eq_true_2 by done. cbn [negb].
  erewrite io_run_bind by (apply io_map_err_run, fs_op_runs). erewrite io_run_bind by done. cbn [download_dir dl_manifest].
  assert (parts_of d (ticked 1 n) = Some (dir part_name (take k chunks))) as Hp1 by exact Hparts.
  destruct (parts_of_put_part d (N.of_nat k) b _ _ Hp1) as (Hp2 & Hc2 & Hs2 & Hf2).
  assert (<[part_name (N.of_nat k) := b]> (dir part_name (take k chunks)) = dir part_name (take (S k) chunks)) as Hins.
  { rewrite (take_S_r _ _ b) by done. rewrite dir_snoc by apply _. by rewrite length_take_le by lia. }
  rewrite Hins in Hp2. set (n2 := put_part d (N.of_nat k) b (ticked 1 n)) in *.
  assert (u32_succ (E:=SnapshotError) (N.of_nat k) = Done (N.of_nat (S k))) as Hsucc.
  { unfold u32_succ. rewrite bool_decide_eq_true_2 by lia. f_equal. lia. }
  erewrite io_run_bind by (apply io_of_Done; split; [exact Hsucc|reflexivity]). erewrite io_run_bind by done.
  set (n3 := set_download _ n2).
  assert (downloading chunks m d (S k) n3 ∧ snapshots n3 = snapshots n ∧ (∀ p, p ≠ d → sn_fs n3 !! p = sn_fs n !! p)) as (Hd3 & Hs3 & Hf3) by done.
  destruct (decide (S k = length chunks)) as [Hlast|Hlast].
  - rewrite bool_decide_eq_true_2 by (rewrite Hchunks; lia). erewrite io_run_bind by done.
    assert (parts_of d n3 = Some (dir part_name chunks)) as -> by (destruct Hd3 as [_ ->]; by rewrite take_ge by lia).
    destruct (copy_parts_runs chunks [] n3) as [j Hcopy].
    assert (parts_checksum (Some (dir part_name chunks)) n3 = (Done (Some (sha256 (concat chunks))), ticked j n3)) as Hsum3.
    { unfold parts_checksum. erewrite io_run_bind by (apply io_of_Done; split; [by apply list_parts_dir|reflexivity]).
      by erewrite io_run_bind by exact Hcopy. }
    erewrite io_run_bind by (apply io_map_err_run; exact Hsum3). rewrite bool_decide_eq_true_2 by done.
    exists (ticked j n3). split_and!; [done|exact Hd3|done|done].
  - rewrite bool_decide_eq_false_2 by (rewrite Hchunks; lia). exists n3. by split_and!.
Qed.
End download.

(** ** Exporting, serving and importing *)

Section transfer.
Context `{Profile, SnapEnv, !HashOrder string, !CarLaws}.
Hypothesis (no_faults : ∀ t, fault t = None).

Lemma dir_from_lookup i chunks k : dir_from part_name i chunks !! part_name (i + N.of_nat k) = chunks !! k.
Proof.
  revert i k. induction chunks as [|b bs IH]; intros i k; cbn [dir_from]; [by rewrite lookup_empty, lookup_nil|].
  destruct k as [|k]; [rewrite N.add_0_r; apply lookup_insert_eq|].
  rewrite lookup_insert_ne by (intros Heq%(inj part_name); lia).
  replace (i + N.of_nat (S k)) with (i + 1 + N.of_nat k) by lia. apply IH.
Qed.
Lemma dir_lookup chunks k : dir part_name chunks !! part_name (N.of_nat k) = chunks !! k.
Proof. apply (dir_from_lookup 0). Qed.

Lemma load_chunk_runs item chunks k b n :
  parts_of (snapshot_dir item) n = Some (dir part_name chunks) → mf_chunks (manifest item) = N.of_nat (length chunks) →
  chunks !! k = Some b → load_chunk item (N.of_nat k) n = (Done b, ticked 1 n).
Proof.
  intros Hp Hm Hb. unfold load_chunk. pose proof (lookup_lt_Some _ _ _ Hb). rewrite bool_decide_eq_false_2 by (rewrite Hm; lia).
  erewrite io_run_bind by (apply io_map_err_run, fs_op_runs, no_faults). erewrite io_run_bind by done.
  assert (parts_of (snapshot_dir item) (ticked 1 n) = Some (dir part_name chunks)) as -> by exact Hp. cbn [default from_option id].
  by rewrite dir_lookup, Hb.
Qed.

Lemma offer_runs parent m json n :
  mf_version m = 1 → manifest_to_json m = inr json →
  (∀ fs d, (d, fresh_name fs d) ∉ dom fs) →
  ∃ n' d, offer_snapshot parent m n = (Done d, n') ∧ downloading [] m d 0 n' ∧ snapshots n' = snapshots n.
Proof.
  intros Hv Hj Hfresh. unfold offer_snapshot. rewrite bool_decide_eq_true_2 by done. cbn [negb].
  erewrite io_run_bind by (apply io_map_err_run, fs_op_runs, no_faults). erewrite io_run_bind by done.
  erewrite io_run_bind by (apply io_map_err_run, io_of_Done; split; [by rewrite Hj|reflexivity]).
  do 2 erewrite io_run_bind by (apply io_map_err_run, fs_op_runs, no_faults).
  do 4 erewrite io_run_bind by done. eexists _, _. split; [done|].
  split; [|by destruct (current_download _)]. split; [done|]. unfold parts_of. cbn. by rewrite lookup_insert_eq.
Qed.

Lemma on_snap_run {E A} (m : io SnapNode E A) n s r n' : m n = (r, n') → on_snap m (n, s) = (r, (n', s)).
Proof. intros Hm. unfold on_snap. cbn. by rewrite Hm. Qed.

Lemma set_car_spec item car n :
  parts_of (snapshot_dir item) (set_car item car n) = parts_of (snapshot_dir item) n ∧
  current_download (set_car item car n) = current_download n ∧ snapshots (set_car item car n) = snapshots n.
Proof.
  unfold set_car, parts_of. destruct (sn_fs n !! snapshot_dir item) as [d|] eqn:Hd; [|by rewrite Hd].
  cbn. by rewrite lookup_insert_eq.
Qed.

Lemma import_runs item chunks n store s store' :
  parts_of (snapshot_dir item) n = Some (dir part_name chunks) → N.of_nat (length chunks) < u32_size →
  read_car (concat chunks) true store = (Done (V1 s), store') →
  v1_block_height s = mf_block_height (manifest item) → v1_state_params s = mf_state_params (manifest item) →
  ∃ n', import item true (n, store) = (Done (V1 s), (n', store')) ∧
    snapshots n' = snapshots n ∧ current_download n' = current_download n.
Proof.
  intros Hp Hlen Hread Hh Hparams. unfold import.
  erewrite io_run_bind by (by apply on_snap_run). rewrite Hp.
  erewrite io_run_bind by (apply on_snap_run, io_map_err_run, io_of_Done; split; [by apply list_parts_dir|reflexivity]).
  erewrite io_run_bind by (apply on_snap_run, io_map_err_run, fs_op_runs, no_faults).
  destruct (copy_parts_runs no_faults chunks [] (ticked 1 n)) as [k Hcopy].
  erewrite io_run_bind by (apply on_snap_run; exact Hcopy). cbn [app].
  set (n1 := ticked k (ticked 1 n)). erewrite io_run_bind by (by apply on_snap_run).
  destruct (set_car_spec item (Some (concat chunks)) n1) as (_ & Hc1 & Hs1). set (n2 := set_car item (Some (concat chunks)) n1) in *.
  assert (attempt (F:=string) (on_snap fs_op ;; on_store (read_car (concat chunks) true)) (n2, store) =
    (Done (inr (V1 s)), (ticked 1 n2, store'))) as Hres.
  { unfold attempt. erewrite io_run_bind by (apply on_snap_run, fs_op_runs, no_faults). unfold on_store. cbn [fst snd]. by rewrite Hread. }
  erewrite io_run_bind by exact Hres. erewrite io_run_bind by (apply on_snap_run, io_map_err_run, fs_op_runs, no_faults).
  erewrite io_run_bind by (by apply on_snap_run). erewrite io_run_bind by done.
  set (n3 := ticked 1 (ticked 1 n2)). destruct (set_car_spec item None n3) as (_ & Hc3 & Hs3).
  rewrite !bool_decide_eq_true_2 by done. cbn [negb]. exists (set_car item None n3). split; [done|]. split.
  - rewrite Hs3. exact Hs1.
  - rewrite Hc3. exact Hc1.
Qed.

Lemma move_runs from to n :
  sn_fs n !! to = None →
  ∃ n', move_or_copy from to n = (Done tt, n') ∧ parts_of to n' = parts from ∧
    sn_fs n' = <[to := MkSnapDir (manifest_file from) (parts from) None (checksum_file from)]> (sn_fs n) ∧ snapshots n' = snapshots n.
Proof.
  intros Hto. unfold move_or_copy.
  assert (attempt (F:=string) (fs_op ;; e ← io_reads (λ n, bool_decide (is_Some (sn_fs n !! to)));
      if (e : bool) then io_of (Fail "directory not empty"%string) else mret tt) n = (Done (inr tt), ticked 1 n)) as Hres.
  { unfold attempt. erewrite io_run_bind by (apply fs_op_runs, no_faults). erewrite io_run_bind by done.
    cbn [sn_fs ticked]. rewrite Hto. done. }
  erewrite io_run_bind by exact Hres. cbv beta iota. erewrite io_run_bind by done. erewrite io_run_bind by (apply io_map_err_run, fs_op_runs, no_faults).
  eexists. split; [done|]. unfold parts_of. cbn. rewrite insert_insert_eq, lookup_insert_eq. done.
Qed.

Context (params : SnapshotParams) (store : MemoryBlockstore) (rank : Cid → nat).
Hypothesis (acyclic : ∀ c d, linked (memory_get store) c d → (rank d < rank c)%nat).
Hypothesis (never_broken : ∀ t e, chunk_answers t ≠ Broken e).
Hypothesis (some_work : ∀ t n, chunk_answers t = Ok_upto n → 0 < n).
Hypothesis (fair : ∀ t, ∃ d, chunk_answers (t + d) ≠ Wait).
Hypothesis (read_written : ∀ roots blocks, car_reader (car_bytes roots blocks) = inr (roots, inr <$> blocks)).
Hypothesis (reader_fair : ∀ t, ∃ d, reader_ready (t + d)%nat = true).
Hypothesis (params_fit : ∀ x, ∃ b, params_to_vec x = inr b).
Hypothesis (metadata_fit : ∀ x, ∃ b, metadata_to_vec x = inr b).
Hypothesis (json_fit : ∀ m, ∃ j, manifest_to_json m = inr j).

(** A state that can be exported: its tree can be opened and streamed, and its blocks are valid. *)
Record exportable (p : FvmStateParams) : Prop := {
  ex_opens : new_from_root (memory_get store) (sp_state_root p) = None;
  ex_streams c : reachable (memory_get store) [sp_state_root p] c → streamable (memory_get store) c;
  ex_valid c b : reachable (memory_get store) [sp_state_root p] c → store !! c = Some b → cid_valid c b = true
}.

(** The snapshot of an exportable state: a directory with the chunks of a CAR file that can be read back. *)
Lemma create_snapshot_runs p h n :
  let to := (snapshots_dir params, snapshot_name h) in
  exportable p → sn_fs n !! to = None →
  ∃ chunks m n' fuel0,
    (∀ fuel, (fuel0 ≤ fuel)%nat → create_snapshot params store fuel h p n = (Done (item_new to m), n')) ∧
    parts_of to n' = Some (dir part_name chunks) ∧ snapshots n' = snapshots n ∧
    mf_block_height m = h ∧ mf_state_params m = p ∧ mf_version m = 1 ∧
    mf_chunks m = N.of_nat (length chunks) `mod` u32_size ∧ mf_checksum m = Some (sha256 (concat chunks)) ∧ chunks ≠ [] ∧
    (length chunks ≤ queue_size (memory_get store) rank [sp_state_root p] + 3)%nat ∧
    ∀ validate s, cid_collision ∨
      ∃ s', read_car (concat chunks) validate s = (Done (V1 (MkV1 s' p h)), s') ∧
        ∀ c b, reachable (memory_get store) [sp_state_root p] c → store !! c = Some b → s' !! c = Some b.
Proof.
  intros to [Ho Hs Hv] Hto.
  destruct (car_roundtrip (Blockstore0:=memory_blockstore) store rank acyclic p h Hs) as (roots & blocks & Hnew & Hw & Hlen & Hread); [|done|done|done|].
  { intros c b Hr [= Hb]. by eapply Hv. }
  set (n7 := ticked 1 (ticked 1 (ticked 1 (ticked 1 (ticked 1 (ticked 1 n)))))).
  destruct (split_runs chunk_answers (chunk_size params) part_name _ never_broken some_work fair reader_ready read_written reader_fair
    roots blocks (sn_tick n7)) as (f1 & disk & Hsplit & Hfiles).
  set (chunks := car_chunks (chunk_size params) roots blocks) in *.
  assert (concat chunks = car_bytes roots blocks) as Hcat.
  { unfold chunks, car_chunks, car_bytes, car_frames. cbn [concat]. by rewrite gather_concat. }
  set (m := MkManifest h (N.of_nat (length (car_bytes roots blocks))) (N.of_nat (length chunks) `mod` u32_size) (Some (sha256 (car_bytes roots blocks))) p 1).
  destruct (json_fit m) as [json Hjson].
  set (sd := MkSnapDir (Some json) (Some (files disk)) (Some (car_bytes roots blocks)) (Some (Some (sha256 (car_bytes roots blocks))))).
  assert (sn_fs (ticked 1 n7) !! to = None) as Hto7 by exact Hto. destruct (move_runs sd to (ticked 1 n7) Hto7) as (n' & Hmove & Hparts & _ & Hsnaps).
  exists chunks, m, n', (S (queue_size (memory_get store) rank [sp_state_root p]) + f1)%nat.
  split; [|rewrite Hcat; split_and!; try done; [by rewrite Hparts; cbn; rewrite Hfiles| |]].
  - intros fuel Hf. unfold create_snapshot.
    erewrite io_run_bind by (apply io_map_err_run, io_of_Done; split; [exact Hnew|reflexivity]).
    do 2 erewrite io_run_bind by (apply io_map_err_run, fs_op_runs, no_faults).
    erewrite io_run_bind by (apply io_map_err_run, io_of_Done; split; [apply Hw; cbn in *; lia|reflexivity]). cbn [fst snd].
    erewrite io_run_bind by (apply io_map_err_run, fs_op_runs, no_faults).
    erewrite io_run_bind by (apply io_map_err_run; unfold file_checksum; erewrite io_run_bind by (apply fs_op_runs, no_faults); reflexivity).
    do 2 erewrite io_run_bind by (apply io_map_err_run, fs_op_runs, no_faults). erewrite io_run_bind by done. fold n7.
    erewrite io_run_bind by (apply io_map_err_run, io_of_Done; split; [apply Hsplit; lia|reflexivity]). cbn [fst snd snapshot_version]. fold m.
    erewrite io_run_bind.
    2:{ apply io_map_err_run. unfold write_manifest.
        erewrite io_run_bind by (apply io_map_err_run, io_of_Done; split; [by rewrite Hjson|reflexivity]).
        erewrite io_run_bind by (apply io_map_err_run, fs_op_runs, no_faults). reflexivity. }
    cbn [parts car_file checksum_file]. fold sd to. erewrite io_run_bind by (apply io_map_err_run; exact Hmove). done.
  - pose proof (gather_length (chunk_size params) [] (block_frame <$> blocks)) as Hg. rewrite length_fmap, decide_True in Hg by done.
    unfold chunks, car_chunks. cbn [length]. change (bs_get store) with (memory_get store) in Hlen. lia.
  - intros validate s. destruct (Hread validate s) as [(s' & Hr & Hall & _)|Hc]; [right|by left].
    exists s'. split; [done|]. intros c b Hreach Hb. apply Hall; [done|]. cbn [bs_get memory_blockstore]. unfold memory_get. by rewrite <-Hb.
Qed.

(** Pruning keeps the newest snapshot and its files. *)
Lemma prune_keeps_last items item n :
  snapshots n = items ++ [item] → snapshot_dir item ∉ snapshot_dir <$> items →
  ∃ n' removed rest, prune_history params n = (Done tt, n') ∧ items = removed ++ rest ∧ snapshots n' = rest ++ [item] ∧
    parts_of (snapshot_dir item) n' = parts_of (snapshot_dir item) n.
Proof.
  intros Hs Hdir. unfold prune_history. case_bool_decide as Hsize; [by exists n, [], items|].
  pose proof (prune_items_spec params (system_time (sn_tick n)) (snapshots n)) as Hspec.
  destruct (prune_items params (system_time (sn_tick n)) (snapshots n)) as [removed rest] eqn:Hprune.
  destruct Hspec as (Hitems & _ & _ & Hmin). rewrite Hs in Hitems.
  destruct rest as [|x rest _] using rev_ind.
  { rewrite app_nil_r in Hitems. destruct removed; [by destruct items|]. specialize (Hmin ltac:(done)). cbn in Hmin. lia. }
  rewrite app_assoc in Hitems. apply app_inj_tail in Hitems as [Hitems <-].
  destruct (remove_dirs_spec removed (set_snapshots (rest ++ [item]) n)) as (n' & Hrun & Hs' & Hf & _).
  exists n', removed, rest. split_and!; [|done|done|].
  - erewrite io_run_bind; [exact Hrun|]. by rewrite Hprune.
  - unfold parts_of. rewrite Hf; [done|]. intros Hin. apply Hdir. rewrite Hitems, fmap_app. set_solver.
Qed.

(** A round of the manager of a node that has caught up. *)
Lemma run_round_runs p h last n :
  let to := (snapshots_dir params, snapshot_name h) in
  exportable p → sn_fs n !! to = None → to ∉ snapshot_dir <$> snapshots n →
  is_syncing n = false → latest_params n = Some (p, h) → last ≠ Some (p, h) →
  ∃ chunks m n' fuel0 removed rest,
    (∀ fuel, (fuel0 ≤ fuel)%nat → run_round params store fuel last n = (Done (Some (p, h)), n')) ∧
    snapshots n = removed ++ rest ∧ snapshots n' = rest ++ [item_new to m] ∧ parts_of to n' = Some (dir part_name chunks) ∧
    mf_block_height m = h ∧ mf_state_params m = p ∧ mf_version m = 1 ∧
    mf_chunks m = N.of_nat (length chunks) `mod` u32_size ∧ mf_checksum m = Some (sha256 (concat chunks)) ∧ chunks ≠ [] ∧
    (length chunks ≤ queue_size (memory_get store) rank [sp_state_root p] + 3)%nat ∧
    ∀ validate s, cid_collision ∨
      ∃ s', read_car (concat chunks) validate s = (Done (V1 (MkV1 s' p h)), s') ∧
        ∀ c b, reachable (memory_get store) [sp_state_root p] c → store !! c = Some b → s' !! c = Some b.
Proof.
  intros to Hex Hto Hnew Hsync Hlatest Hlast.
  destruct (create_snapshot_runs p h n Hex Hto) as (chunks & m & n1 & fuel0 & Hrun & Hparts & Hs1 & Hrest). fold to in Hrun, Hparts.
  set (n2 := set_snapshots (snapshots n1 ++ [item_new to m]) n1).
  destruct (prune_keeps_last (snapshots n1) (item_new to m) n2 eq_refl) as (n' & removed & rest & Hprune & Hitems & Hs' & Hparts'); [by rewrite Hs1|].
  exists chunks, m, n', fuel0, removed, rest. split; [|split; [congruence|split; [done|split; [exact (eq_trans Hparts' Hparts)|exact Hrest]]]].
  intros fuel Hf. unfold run_round.
  assert (atomically_or_err (next_params last) n = (Done (p, h), n)) as Hnext.
  { unfold atomically_or_err, next_params, mbind, stm_bind, reads. rewrite Hsync, Hlatest. by rewrite bool_decide_eq_false_2. }
  erewrite io_run_bind by exact Hnext. cbv beta iota.
  assert (attempt (F:=string) (create_snapshot params store fuel h p) n = (Done (inr (item_new to m)), n1)) as Hatt by (unfold attempt; by rewrite Hrun).
  erewrite io_run_bind by exact Hatt. erewrite io_run_bind by done. cbv beta iota. fold n2.
  by erewrite io_run_bind by exact Hprune.
Qed.

(** The snapshot of a height is found behind those of other heights. *)
Lemma access_item_last now h items m d t :
  Forall (λ s, mf_block_height (manifest s) ≠ h) items → mf_block_height m = h → mf_version m = 1 →
  access_item now h 1 (items ++ [MkItem d m t]) = Some (MkItem d m now, items ++ [MkItem d m now]).
Proof.
  intros Hother Hh Hv. induction Hother as [|s items Hs _ IH]; cbn [access_item app].
  - by rewrite bool_decide_eq_true_2.
  - rewrite bool_decide_eq_false_2 by tauto. by rewrite IH.
Qed.
End transfer.

(** ** A node with three snapshots *)
Module SampleSnapshots.
#[local] Existing Instance SampleMachine.ids.
#[export] Existing Instance SampleChunks.sample_car.
#[export] Existing Instance SampleChunks.sample_reader.
#[export] Existing Instance SampleChunks.sample_laws.
Import SampleChunks.

(** Files work, a tick is ten seconds, and a digest is the first bytes. *)
#[export] Instance snap_env : SnapEnv := {|
  sha256 b := vec_of_list b;
  manifest_to_json m := inr (pretty (mf_block_height m));
  manifest_from_json _ := inl "unreadable"%string;
  fault _ := None;
  system_time t := 10 * N.of_nat t;
  fresh_name fs _ := fresh (map_to_list fs).*1.*2;
  copy_dir from _ := inr from;
  chunk_answers := slow;
  reader_ready := sometimes
|}.

Definition manifest_at (h : N) : SnapshotManifest := MkManifest h 100 2 None (MkStateParams 33 h 21 0 500 1 3 0) 1.
Definition item_at (h : N) (t : N) : SnapshotItem := MkItem ("snapshots", snapshot_name h)%string (manifest_at h) t.
Definition dir_at (h : N) : SnapDir := MkSnapDir (Some (pretty h)) (Some ∅) None None.
Definition three : SnapNode :=
  MkSnapNode [item_at 10 0; item_at 20 0; item_at 30 70] None None false
    {[("snapshots", snapshot_name 10)%string := dir_at 10; ("snapshots", snapshot_name 20)%string := dir_at 20;
      ("snapshots", snapshot_name 30)%string := dir_at 30]} 8.
Definition keep_one : SnapshotParams := MkSnapshotParams "snapshots" "downloads" 10 10 1 20.

(** The two oldest go, since one is to be kept. *)
Example history_pruned_witness :
  ∃ n' removed, prune_history keep_one three = (Done tt, n') ∧ snapshots three = removed ++ snapshots n' ∧
    (N.of_nat (length (snapshots n')) ≤ 1 ∨ ∃ s, head (snapshots n') = Some s ∧ held keep_one 80 s).
Proof.
  destruct (history_pruned keep_one three) as (n' & removed & Hrun & Hs & _ & Hlen & _); [done|vm_compute; by repeat constructor; set_solver|].
  by exists n', removed.
Defined.
End SampleSnapshots.
