(* ===== verification/StateSync.v ===== *)
(** * Syncing the state of a node from a snapshot of another

    The ABCI requests that serve and apply snapshots, of [fendermint/app/src/app.rs], with the
    conversions of [tmconv.rs]: a node lists its snapshots and gives out their chunks; a node that joins is
    offered one together with the application hash that CometBFT has verified, and adopts its state when all
    chunks have arrived.  Nothing but a state with the verified hash is ever adopted, and the state of an
    honest node is adopted completely. *)

From Stdlib Require Import Strings.Byte.
From stdpp Require Import vector.
From S2P Require Import Prelude OrdMap Weights Cache Voting Finality Node Fetch Syncer Pool Merkle.
From S2P Require Import Ledger Chain BytesInterp App Car Chunks Snapshots.

(** ** ABCI types *)

Record AbciSnapshot := MkAbciSnapshot {
  ab_height : N;
  ab_format : N;
  ab_chunks : N;
  ab_hash : list byte;
  ab_metadata : list byte
}.

Record OfferRequest := MkOffer { offer_snapshot_of : AbciSnapshot; offer_app_hash : Hash }.

Inductive OfferResponse := OfferUnknown | OfferAccept | OfferAbort | OfferReject | OfferRejectFormat.
Inductive ApplyChunkResult := ChunkUnknown | ChunkAccept | ChunkRetry | ChunkRejectSnapshot.
Record ApplyChunkResponse := MkChunkResponse { chunk_result : ApplyChunkResult; refetch_chunks : list N }.

(** The encoding of the part of the manifest that has no field of its own. *)
Class SyncEnv `{ChainIds} := {
  sync_meta_to_vec : N * FvmStateParams → string + list byte;
  sync_meta_from_slice : list byte → string + (N * FvmStateParams)
}.

(** The application, the snapshots and the block store of a node. *)
Record SyncNode `{ParentQueryProxy, ChainIds, !Machine, !Inner} := MkSyncNode {
  sy_app : App;
  sy_snap : SnapNode;
  sy_store : MemoryBlockstore
}.
Arguments MkSyncNode {_ _ _ _ _} _ _ _.

(** [SnapshotClient], if snapshots are enabled: the directory for downloads and the interval. *)
Record ClientConfig := MkClient { client_download_dir : string; client_interval : N }.

Section requests.
Context `{Profile, Scheduler, !ChainIds, !Machine, !Inner, !Resolvers, !Codec, !Launch, !Backend}.
Context `{!CarEnv, !CarReaderEnv, !SnapEnv, !SyncEnv, !HashOrder string}.
Context (config : AppConfig) (client : option ClientConfig).

Definition on_app {A} (m : io App string A) : io SyncNode string A := λ n,
  let '(r, app) := m (sy_app n) in (r, MkSyncNode app (sy_snap n) (sy_store n)).
Definition on_snaps {E A} (m : io SnapNode E A) : io SyncNode E A := λ n,
  let '(r, s) := m (sy_snap n) in (r, MkSyncNode (sy_app n) s (sy_store n)).
Definition on_world {E A} (m : io World E A) : io SyncNode E A := λ n,
  let '(r, w) := m (sy_snap n, sy_store n) in (r, MkSyncNode (sy_app n) w.1 w.2).

(** ** Conversions *)

(** [tendermint::Hash] to and from bytes. *)
Definition tm_hash_bytes (h : TmHash) : list byte := from_option vec_to_list [] h.
Definition tm_hash_try_from (b : list byte) : string + TmHash :=
  if bool_decide (b = []) then inr None
  else if bool_decide (length b = 32%nat) then inr (Some (vec_of_list b))
  else inl "invalid hash"%string.

Definition to_snapshot (item : SnapshotItem) : outcome string AbciSnapshot :=
  let m := manifest item in
  if bool_decide (mf_block_height m ≤ i64_max) then
    metadata ← of_result (sync_meta_to_vec (mf_size m, mf_state_params m));
    Done (MkAbciSnapshot (mf_block_height m) (mf_version m) (mf_chunks m) (tm_hash_bytes (mf_checksum m)) metadata)
  else Panic.

Fixpoint to_snapshots (items : list SnapshotItem) : outcome string (list AbciSnapshot) :=
  match items with
  | [] => Done []
  | item :: items => s ← to_snapshot item; rest ← to_snapshots items; Done (s :: rest)
  end.

Definition from_snapshot (offer : OfferRequest) : outcome string SnapshotManifest :=
  let s := offer_snapshot_of offer in
  metadata ← map_err (λ e, "failed to parse snapshot metadata: " +:+ e)%string (of_result (sync_meta_from_slice (ab_metadata s)));
  if negb (bool_decide (to_app_hash metadata.2 = offer_app_hash offer))
  then Fail "the application hash does not match the metadata"%string
  else
    checksum ← map_err (λ e, "failed to parse checksum: " +:+ e)%string (of_result (tm_hash_try_from (ab_hash s)));
    Done (MkManifest (ab_height s) metadata.1 (ab_chunks s) checksum metadata.2 (ab_format s)).

(** ** Requests *)

Definition abci_list_snapshots : io SyncNode string (list AbciSnapshot) :=
  match client with
  | Some _ =>
      items ← on_snaps (atomically_or_err list_snapshots);
      io_of (to_snapshots items)
  | None => mret []
  end.

Definition load_snapshot_chunk (height format chunk : N) : io SyncNode string (list byte) :=
  match client with
  | Some _ =>
      item ← on_snaps (atomically_or_err (access_snapshot height format));
      match item with
      | Some item =>
          r ← attempt (on_snaps (load_chunk item chunk));
          match r with
          | inr content => mret content
          | inl _ => mret []
          end
      | None => mret []
      end
  | None => mret []
  end.

Definition abci_offer_snapshot (request : OfferRequest) : io SyncNode string OfferResponse :=
  match client with
  | Some c =>
      m ← attempt (io_of (from_snapshot request));
      match m with
      | inr m =>
          r ← attempt (on_snaps (atomically_io (offer_snapshot (client_download_dir c) m)));
          match r with
          | inr _ => mret OfferAccept
          | inl (IncompatibleVersion _) => mret OfferRejectFormat
          | inl _ => mret OfferAbort
          end
      | inl _ => mret OfferReject
      end
  | None => mret OfferUnknown
  end.

Definition apply_snapshot_chunk (index : N) (chunk : list byte) : io SyncNode string ApplyChunkResponse :=
  let default := MkChunkResponse ChunkUnknown [] in
  match client with
  | Some _ =>
      r ← attempt (on_snaps (atomically_io (save_chunk index chunk)));
      match r with
      | inr None => mret (MkChunkResponse ChunkAccept [])
      | inr (Some item) =>
          imported ← attempt (on_world (import item true));
          match imported with
          | inl _ => mret (MkChunkResponse ChunkRejectSnapshot [])
          | inr _ =>
              on_app (adopt_snapshot config (mf_block_height (manifest item)) (mf_state_params (manifest item))) ;;
              mret (MkChunkResponse ChunkAccept [])
          end
      | inl (UnexpectedChunk expected _) => mret (MkChunkResponse ChunkRetry [expected])
      | inl (WrongChecksum _ _) => mret (MkChunkResponse ChunkRejectSnapshot [])
      | inl _ => mret default
      end
  | None => mret default
  end.
End requests.

(** ** Only verified states are adopted *)

Section safety.
Context `{Profile, Scheduler, !ChainIds, !Machine, !Inner, !Resolvers, !Codec, !Launch, !Backend}.
Context `{!CarEnv, !CarReaderEnv, !SnapEnv, !SyncEnv, !HashOrder string}.
Context (config : AppConfig) (client : option ClientConfig).

(** The heights and application hashes that CometBFT has verified with a light client. *)
Context (verified : N → Hash → Prop).

Inductive sync_step (n : SyncNode) : SyncNode → Prop :=
| sync_offer req r n' :
    verified (ab_height (offer_snapshot_of req)) (offer_app_hash req) →
    abci_offer_snapshot client req n = (r, n') → sync_step n n'
| sync_chunk index chunk r n' : apply_snapshot_chunk config client index chunk n = (r, n') → sync_step n n'
| sync_load height format chunk r n' : load_snapshot_chunk client height format chunk n = (r, n') → sync_step n n'
| sync_list r n' : abci_list_snapshots client n = (r, n') → sync_step n n'.

(** What is being downloaded belongs to a verified hash. *)
Definition genuine (m : SnapshotManifest) : Prop := verified (mf_block_height m) (to_app_hash (mf_state_params m)).
Definition downloads_genuine (s : SnapNode) : Prop := ∀ cd, current_download s = Some cd → genuine (dl_manifest cd).

(** What a step may do to the manifest that is being downloaded. *)
Definition keeps_download (s s' : SnapNode) : Prop := dl_manifest <$> current_download s' = dl_manifest <$> current_download s.

Lemma keeps_genuine s s' : keeps_download s s' → downloads_genuine s → downloads_genuine s'.
Proof.
  intros Hk Hg cd Hcd. unfold keeps_download in Hk. rewrite Hcd in Hk. cbn in Hk.
  destruct (current_download s) as [cd'|] eqn:Hcd'; [|done]. injection Hk as ->. by apply Hg.
Qed.

Lemma from_snapshot_genuine req m :
  verified (ab_height (offer_snapshot_of req)) (offer_app_hash req) → from_snapshot req = Done m → genuine m.
Proof.
  intros Hv. unfold from_snapshot. intros Hm. inv_done. case_bool_decide as Happ; cbn [negb] in *; [|done].
  inv_done. unfold genuine. cbn. by rewrite Happ.
Qed.

Lemma atomically_io_cases {E A} (m : io SnapNode E A) s r s' :
  atomically_io m s = (r, s') → (∃ a, r = Done a ∧ m s = (Done a, s')) ∨ ((∀ a, r ≠ Done a) ∧ current_download s' = current_download s).
Proof.
  unfold atomically_io. destruct (m s) as [[a| | | |] s1]; intros [= <- <-]; [left; by eauto|..]; right; by split.
Qed.

Lemma offer_download parent m s d s' :
  offer_snapshot parent m s = (Done d, s') → ∃ i, current_download s' = Some (MkDownload m d i).
Proof.
  unfold offer_snapshot. destruct (negb _); intros Hr; inv_io.
  repeat match goal with G : io_modify _ _ = _ |- _ => injection G as _ <- end. subst. by eexists.
Qed.

Lemma save_chunk_keeps index chunk s r s' : save_chunk index chunk s = (Done r, s') → keeps_download s s'.
Proof.
  unfold save_chunk. intros Hr. inv_io. destruct (current_download _) as [cd|] eqn:Hcd; inv_io.
  case_bool_decide as Hidx; cbn [negb] in *; inv_io.
  match goal with G : fs_op ?s = _ |- _ => destruct (fs_op_cases s) as (r1 & Hop & _); rewrite Hop in G; injection G as -> <- end.
  repeat match goal with G : io_modify _ _ = _ |- _ => injection G as _ <- end.
  case_bool_decide as Hlast; inv_io; [|unfold keeps_download; by rewrite Hcd].
  unfold parts_checksum in *. inv_io.
  match goal with G : copy_parts ?ps ?acc ?m = _ |- _ =>
    destruct (copy_parts_cases ps acc m) as (r2 & k & Hcopy & _); rewrite Hcopy in G; injection G as -> <- end.
  case_bool_decide; inv_io; unfold keeps_download; by rewrite Hcd.
Qed.

(** Code that leaves something alone, however it ends. *)
Definition io_keeps {S E A} (R : S → S → Prop) (m : io S E A) : Prop := ∀ s, R s (m s).2.

Lemma io_keeps_bind {S E A B} (R : S → S → Prop) `{!Transitive R} (m : io S E A) (f : A → io S E B) :
  io_keeps R m → (∀ a, io_keeps R (f a)) → io_keeps R (m ≫= f).
Proof.
  intros Hm Hf s. specialize (Hm s). unfold mbind, io_bind. destruct (m s) as [[a| | | |] s1]; [|done..].
  etrans; [exact Hm|apply Hf].
Qed.
Lemma io_keeps_attempt {S E F A} (R : S → S → Prop) (m : io S E A) : io_keeps R m → io_keeps R (attempt (F:=F) m).
Proof. intros Hm s. specialize (Hm s). unfold attempt. by destruct (m s) as [[| | | |] ?]. Qed.
Lemma io_keeps_map_err {S E F A} (R : S → S → Prop) (f : E → F) (m : io S E A) : io_keeps R m → io_keeps R (io_map_err f m).
Proof. intros Hm s. specialize (Hm s). unfold io_map_err. by destruct (m s). Qed.
Lemma io_keeps_of {S E A} (R : S → S → Prop) `{!Reflexive R} (o : outcome E A) : io_keeps R (io_of o).
Proof. by intros s. Qed.
Lemma io_keeps_ret {S E A} (R : S → S → Prop) `{!Reflexive R} (a : A) : io_keeps (E:=E) R (mret a).
Proof. by intros s. Qed.

(** Importing changes neither the snapshots nor the download. *)
Definition same_vars (w w' : World) : Prop := current_download w'.1 = current_download w.1.
#[local] Instance same_vars_refl : Reflexive same_vars.
Proof. by intros w. Qed.
#[local] Instance same_vars_trans : Transitive same_vars.
Proof. intros w1 w2 w3 Ha Hb. unfold same_vars in *. congruence. Qed.

Lemma keeps_on_snap {E A} (m : io SnapNode E A) : (∀ s, current_download (m s).2 = current_download s) → io_keeps same_vars (on_snap m).
Proof. intros Hm [s st]. specialize (Hm s). unfold on_snap, same_vars. cbn. by destruct (m s). Qed.
Lemma keeps_on_store {E A} (m : io MemoryBlockstore E A) : io_keeps same_vars (on_store m).
Proof. intros [s st]. unfold on_store, same_vars. cbn. by destruct (m st). Qed.
Lemma fs_op_download s : current_download (fs_op s).2 = current_download s.
Proof. destruct (fs_op_cases s) as (r & -> & _). done. Qed.
Lemma map_err_download {E F A} (f : E → F) (m : io SnapNode E A) s :
  current_download (m s).2 = current_download s → current_download (io_map_err f m s).2 = current_download s.
Proof. unfold io_map_err. by destruct (m s). Qed.

Lemma import_keeps item validate : io_keeps same_vars (import item validate).
Proof.
  unfold import. apply io_keeps_bind; [apply _|by apply keeps_on_snap|intros dir].
  apply io_keeps_bind; [apply _|apply keeps_on_snap; intros s; by apply map_err_download|intros ps].
  apply io_keeps_bind; [apply _|apply keeps_on_snap; intros s; apply map_err_download, fs_op_download|intros _].
  apply io_keeps_bind; [apply _|apply keeps_on_snap; intros s; by destruct (copy_parts_cases ps [] s) as (r & k & -> & _)|intros car].
  apply io_keeps_bind; [apply _|apply keeps_on_snap; intros s; apply set_car_spec|intros _].
  apply io_keeps_bind; [apply _|apply io_keeps_attempt, io_keeps_bind; [apply _|apply keeps_on_snap, fs_op_download|intros _; apply keeps_on_store]|intros result].
  apply io_keeps_bind; [apply _|apply keeps_on_snap; intros s; apply map_err_download, fs_op_download|intros _].
  apply io_keeps_bind; [apply _|apply keeps_on_snap; intros s; apply set_car_spec|intros _].
  apply io_keeps_bind; [apply _|by destruct result|intros [s]].
  destruct validate; [|done]. destruct (negb _); [done|]. by destruct (negb _).
Qed.

(** An accepted last chunk adopts what the manifest of the download says. *)
Lemma adopt_state h p app r app' :
  adopt_snapshot config h p app = (r, app') →
  app_state app' = app_state app ∨ ∃ s, app_state app' = Some s ∧ as_block_height s = h ∧ as_params s = p.
Proof.
  unfold adopt_snapshot. intros Hr. assert (committed_state app = (from_option Done (Fail "app state not found"%string) (app_state app), app)) as Hc.
  { unfold committed_state, io_reads, mbind, io_bind. by destruct (app_state app). }
  unfold mbind, io_bind in Hr. rewrite Hc in Hr. destruct (app_state app) as [s|] eqn:Hs; cbn [from_option] in Hr; [|injection Hr as _ <-; by left].
  unfold set_committed_state in Hr. match type of Hr with (match ?tx with _ => _ end) = _ => destruct tx as [[hist s']| | | |] eqn:Htx end.
  2-5: injection Hr as _ <-; by left.
  injection Hr as _ <-. right. exists s'. split; [done|]. inv_done. done.
Qed.

(** What one request may do: change the download, or adopt a verified state. *)
Definition adopts (n n' : SyncNode) : Prop :=
  app_state (sy_app n') = app_state (sy_app n) ∨
  ∃ s, app_state (sy_app n') = Some s ∧ verified (as_block_height s) (to_app_hash (as_params s)).

Lemma attempt_cases {S E F A} (m : io S E A) s r s' :
  attempt (F:=F) m s = (r, s') → (m s).2 = s' ∧
    match r with Done (inr a) => m s = (Done a, s') | Done (inl e) => m s = (Fail e, s') | _ => True end.
Proof. unfold attempt. destruct (m s) as [[| | | |] s1]; by intros [= <- <-]. Qed.

Lemma offer_step req r n n' :
  verified (ab_height (offer_snapshot_of req)) (offer_app_hash req) →
  abci_offer_snapshot client req n = (r, n') → downloads_genuine (sy_snap n) →
  downloads_genuine (sy_snap n') ∧ app_state (sy_app n') = app_state (sy_app n).
Proof.
  intros Hv. unfold abci_offer_snapshot. destruct client as [c|]; [|intros [= _ <-]; done]. intros Hr Hg.
  unfold attempt at 1, io_of, mbind, io_bind in Hr. destruct (from_snapshot req) as [m| | | |] eqn:Hm; cbn [attempt] in Hr.
  2-5: injection Hr as _ <-; done.
  apply from_snapshot_genuine in Hm; [|done].
  destruct (atomically_io (offer_snapshot (client_download_dir c) m) (sy_snap n)) as [ro so] eqn:Hat.
  assert (n' = MkSyncNode (sy_app n) so (sy_store n)) as ->.
  { revert Hr. unfold attempt, on_snaps. rewrite Hat. destruct ro as [|[]| | |]; cbn; by intros [= _ <-]. }
  split; [|done]. cbn. apply atomically_io_cases in Hat as [(d & -> & (i & Hd)%offer_download)|[_ Hd]]; intros cd Hcd.
  - rewrite Hd in Hcd. injection Hcd as <-. exact Hm.
  - apply Hg. by rewrite <-Hd.
Qed.

Lemma chunk_step index chunk r n n' :
  apply_snapshot_chunk config client index chunk n = (r, n') → downloads_genuine (sy_snap n) →
  downloads_genuine (sy_snap n') ∧ adopts n n'.
Proof.
  unfold apply_snapshot_chunk. destruct client as [c|]; [|intros [= _ <-]; split; [done|by left]]. intros Hr Hg.
  destruct (atomically_io (save_chunk index chunk) (sy_snap n)) as [rs ss] eqn:Hat.
  set (n1 := MkSyncNode (sy_app n) ss (sy_store n)).
  assert (attempt (F:=string) (on_snaps (atomically_io (save_chunk index chunk))) n =
    (match rs with Done x => Done (inr x) | Fail e => Done (inl e) | Retry => Retry | Panic => Panic | OutOfFuel => OutOfFuel end, n1)) as Hatt.
  { unfold attempt, on_snaps. rewrite Hat. by destruct rs. }
  assert (downloads_genuine ss) as Hgs.
  { apply atomically_io_cases in Hat as [(x & -> & Hk%save_chunk_keeps)|[_ Hd]]; [by eapply keeps_genuine|].
    intros cd Hcd. apply Hg. by rewrite <-Hd. }
  unfold mbind at 1, io_bind at 1 in Hr. rewrite Hatt in Hr.
  assert ((r, n') = (r, n1) → downloads_genuine (sy_snap n') ∧ adopts n n') as Hsame by (intros [= ->]; split; [done|by left]).
  destruct rs as [[item|]|e| | |]; cbn [mret io_ret] in Hr; [|injection Hr as _ <-; by apply Hsame|
    destruct e; injection Hr as _ <-; by apply Hsame|injection Hr as _ <-; by apply Hsame..].
  apply atomically_io_cases in Hat as [(x & [= <-] & Hsave)|[Hno _]]; [|by destruct (Hno (Some item))].
  apply save_chunk_sound in Hsave as (cd & ps & Hcd & -> & Hcd' & _).
  assert (genuine (dl_manifest cd)) as Hgen by by apply Hg.
  pose proof (import_keeps (item_new (download_dir cd) (dl_manifest cd)) true (ss, sy_store n)) as Hkeep.
  destruct (import (item_new (download_dir cd) (dl_manifest cd)) true (ss, sy_store n)) as [ri [si sti]] eqn:Himp. unfold same_vars in Hkeep. cbn in Hkeep.
  assert (downloads_genuine si) as Hgi by (intros cd2; rewrite Hkeep; apply Hgs).
  set (n2 := MkSyncNode (sy_app n) si sti).
  assert (attempt (F:=string) (on_world (import (item_new (download_dir cd) (dl_manifest cd)) true)) n1 =
    (match ri with Done x => Done (inr x) | Fail e => Done (inl e) | Retry => Retry | Panic => Panic | OutOfFuel => OutOfFuel end, n2)) as Hatt2.
  { unfold attempt, on_world. cbn [sy_snap sy_store n1]. rewrite Himp. by destruct ri. }
  unfold mbind at 1, io_bind at 1 in Hr. rewrite Hatt2 in Hr.
  destruct ri as [x|e| | |]; cbn [mret io_ret] in Hr; [|injection Hr as _ <-; split; [done|by left]..].
  cbn [manifest item_new] in Hr. unfold mbind, io_bind, on_app in Hr. cbn [sy_app n2] in Hr.
  destruct (adopt_snapshot config (mf_block_height (dl_manifest cd)) (mf_state_params (dl_manifest cd)) (sy_app n)) as [ra app'] eqn:Had.
  assert (n' = MkSyncNode app' si sti) as -> by (destruct ra; by injection Hr as _ <-). split; [done|].
  destruct (adopt_state _ _ _ _ _ Had) as [Hs|(s & Hs & Hh & Hp)]; [by left|right]. exists s. split; [done|]. rewrite Hh, Hp. exact Hgen.
Qed.

(** The requests that serve snapshots do not touch the state or the download. *)
Definition same_sync (n n' : SyncNode) : Prop :=
  current_download (sy_snap n') = current_download (sy_snap n) ∧ sy_app n' = sy_app n.
#[local] Instance same_sync_refl : Reflexive same_sync.
Proof. by intros n. Qed.
#[local] Instance same_sync_trans : Transitive same_sync.
Proof. intros n1 n2 n3 [Ha Hb] [Hc Hd]. split; congruence. Qed.

Lemma keeps_on_snaps {E A} (m : io SnapNode E A) : (∀ s, current_download (m s).2 = current_download s) → io_keeps same_sync (on_snaps m).
Proof. intros Hm n. specialize (Hm (sy_snap n)). unfold on_snaps, same_sync. by destruct (m (sy_snap n)). Qed.

Lemma load_chunk_download item chunk s : current_download (load_chunk item chunk s).2 = current_download s.
Proof.
  unfold load_chunk. destruct (bool_decide _); [done|]. unfold mbind, io_bind, with_context, io_map_err.
  destruct (fs_op_cases s) as (r & -> & [->|(e & ->)]); cbn; [|done]. by destruct (default ∅ _ !! _).
Qed.

Lemma load_keeps height format chunk : io_keeps same_sync (load_snapshot_chunk client height format chunk).
Proof.
  unfold load_snapshot_chunk. destruct client as [c|]; [|by apply io_keeps_ret].
  apply io_keeps_bind; [apply _| |intros [item|]; [|by apply io_keeps_ret]].
  - apply keeps_on_snaps. intros s. unfold atomically_or_err, access_snapshot, mbind, stm_bind, reads. 
    by destruct (access_item _ _ _ _) as [[]|].
  - apply io_keeps_bind; [apply _|apply io_keeps_attempt, keeps_on_snaps, load_chunk_download|intros [e|b]; by apply io_keeps_ret].
Qed.

Lemma list_keeps : io_keeps same_sync (abci_list_snapshots client).
Proof.
  unfold abci_list_snapshots. destruct client as [c|]; [|by apply io_keeps_ret].
  apply io_keeps_bind; [apply _|by apply keeps_on_snaps|intros items; by apply io_keeps_of].
Qed.

Lemma sync_step_safe n n' :
  sync_step n n' → downloads_genuine (sy_snap n) → downloads_genuine (sy_snap n') ∧ adopts n n'.
Proof.
  intros Hstep Hg. destruct Hstep as [req r n' Hv Hr|index chunk r n' Hr|height format chunk r n' Hr|r n' Hr].
  - destruct (offer_step req r n n' Hv Hr Hg). split; [done|by left].
  - by eapply chunk_step.
  - pose proof (load_keeps height format chunk n) as [Hc Ha]. rewrite Hr in Hc, Ha. cbn in Hc, Ha.
    split; [intros cd; rewrite Hc; apply Hg|left; by rewrite Ha].
  - pose proof (list_keeps n) as [Hc Ha]. rewrite Hr in Hc, Ha. cbn in Hc, Ha.
    split; [intros cd; rewrite Hc; apply Hg|left; by rewrite Ha].
Qed.

(** C10: whatever snapshots a node is offered and whatever chunks it is given, in any order and
    whatever goes wrong with its files, its committed state stays what it was, or is one whose
    height and application hash CometBFT has verified. *)
Theorem state_sync_safe n n' :
  rtc sync_step n n' → current_download (sy_snap n) = None → adopts n n'.
Proof.
  intros Hsteps Hnone. assert (downloads_genuine (sy_snap n)) as Hg by (intros cd Hcd; congruence). clear Hnone.
  induction Hsteps as [n|n1 n2 n3 Hstep _ IH]; [by left|].
  destruct (sync_step_safe _ _ Hstep Hg) as [Hg2 Hadopt]. destruct (IH Hg2) as [Heq|Hs]; [|by right].
  destruct Hadopt as [Heq'|(s & Hs & Hv)]; [left; congruence|right]. exists s. split; [congruence|done].
Qed.
End safety.

(** ** The state of an honest node is adopted *)

Section completeness.
Context `{Profile, Scheduler, !ChainIds, !Machine, !Inner, !Resolvers, !Codec, !Launch, !Backend}.
Context `{!CarEnv, !CarReaderEnv, !SnapEnv, !SyncEnv, !HashOrder string, !CarLaws}.

(** Asking one node for chunk after chunk, and giving them to another as long as it accepts them. *)
Fixpoint transfer (config : AppConfig) (serving joining : option ClientConfig) (height format : N) (index : N) (count : nat)
    (e n : SyncNode) : option (SyncNode * SyncNode) :=
  match count with
  | O => Some (e, n)
  | S count =>
      match load_snapshot_chunk serving height format index e with
      | (Done chunk, e) =>
          match apply_snapshot_chunk config joining index chunk n with
          | (Done (MkChunkResponse ChunkAccept _), n) => transfer config serving joining height format (index + 1) count e n
          | _ => None
          end
      | _ => None
      end
  end.

Context (config : AppConfig) (ce cn : ClientConfig).

(** The file systems and libraries of the two nodes work. *)
Hypothesis (no_faults : ∀ t, fault t = None).
Hypothesis (fresh : ∀ fs d, (d, fresh_name fs d) ∉ dom fs).
Hypothesis (never_broken : ∀ t e, chunk_answers t ≠ Broken e).
Hypothesis (some_work : ∀ t n, chunk_answers t = Ok_upto n → 0 < n).
Hypothesis (fair : ∀ t, ∃ d, chunk_answers (t + d) ≠ Wait).
Hypothesis (reader_fair : ∀ t, ∃ d, reader_ready (t + d)%nat = true).
Hypothesis (read_written : ∀ roots blocks, car_reader (car_bytes roots blocks) = inr (roots, inr <$> blocks)).
(** Everything can be encoded, and the description in an offer is decoded to what it was. *)
Hypothesis (params_fit : ∀ x, ∃ b, params_to_vec x = inr b).
Hypothesis (metadata_fit : ∀ x, ∃ b, metadata_to_vec x = inr b).
Hypothesis (json_fit : ∀ m, ∃ j, manifest_to_json m = inr j).
Hypothesis (sync_fit : ∀ x, ∃ b, sync_meta_to_vec x = inr b).
Hypothesis (sync_back : ∀ x b, sync_meta_to_vec x = inr b → sync_meta_from_slice b = inr x).

Lemma tm_hash_back h : tm_hash_try_from (tm_hash_bytes (Some h)) = inr (Some h).
Proof.
  unfold tm_hash_try_from. cbn [tm_hash_bytes from_option].
  assert (length (vec_to_list h) = 32%nat) as Hl by apply length_vec_to_list.
  rewrite bool_decide_eq_false_2 by (intros Hn; by rewrite Hn in Hl). rewrite bool_decide_eq_true_2 by done. by rewrite vec_of_list_to.
Qed.

(** An offer is what the manifest was. *)
Lemma snapshot_back dir m hash t :
  mf_block_height m ≤ i64_max → mf_checksum m = Some hash →
  ∃ a, to_snapshot (MkItem dir m t) = Done a ∧ ab_height a = mf_block_height m ∧ ab_format a = mf_version m ∧ ab_chunks a = mf_chunks m ∧
    from_snapshot (MkOffer a (to_app_hash (mf_state_params m))) = Done m.
Proof.
  intros Hh Hc. destruct (sync_fit (mf_size m, mf_state_params m)) as [b Hb].
  unfold to_snapshot. cbn [manifest]. rewrite bool_decide_eq_true_2, Hb by done. eexists. split; [reflexivity|]. split_and!; [done..|].
  unfold from_snapshot. cbn [offer_snapshot_of offer_app_hash ab_metadata ab_hash ab_height ab_chunks ab_format]. rewrite (sync_back _ _ Hb).
  cbn [of_result map_err mbind outcome_bind snd fst]. rewrite bool_decide_eq_true_2 by done. cbn [negb]. rewrite Hc, tm_hash_back.
  cbn. rewrite <-Hc. by destruct m.
Qed.

Lemma to_snapshots_in items item a :
  Forall (λ s, mf_block_height (manifest s) ≤ i64_max) items → to_snapshot item = Done a →
  ∃ l, to_snapshots (items ++ [item]) = Done l ∧ a ∈ l.
Proof.
  intros Hall Ha. induction Hall as [|s items Hs _ IH]; cbn [app to_snapshots].
  - rewrite Ha. eexists. split; [done|]. set_solver.
  - destruct (sync_fit (mf_size (manifest s), mf_state_params (manifest s))) as [b Hb].
    unfold to_snapshot. rewrite bool_decide_eq_true_2, Hb by done. destruct IH as (l & -> & Hin). eexists. split; [done|]. set_solver.
Qed.

(** What a serving node has: the snapshot behind others, and its chunks. *)
Definition serves (rest : list SnapshotItem) (to : Path) (m : SnapshotManifest) (chunks : list (list byte)) (e : SyncNode) : Prop :=
  (∃ t, snapshots (sy_snap e) = rest ++ [MkItem to m t]) ∧ parts_of to (sy_snap e) = Some (dir part_name chunks).

Section one_snapshot.
Context (rest : list SnapshotItem) (to : Path) (m : SnapshotManifest) (chunks : list (list byte)).
Hypothesis (others_differ : Forall (λ s, mf_block_height (manifest s) ≠ mf_block_height m) rest).
Hypothesis (version_one : mf_version m = 1).
Hypothesis (few_chunks : N.of_nat (length chunks) < u32_size).
Hypothesis (all_chunks : mf_chunks m = N.of_nat (length chunks)).
Hypothesis (summed : mf_checksum m = Some (sha256 (concat chunks))).

Lemma serve_runs e k b :
  serves rest to m chunks e → chunks !! k = Some b →
  ∃ e', load_snapshot_chunk (Some ce) (mf_block_height m) 1 (N.of_nat k) e = (Done b, e') ∧ serves rest to m chunks e'.
Proof.
  intros [[t Hs] Hp] Hb. set (now := system_time (sn_tick (sy_snap e))).
  set (s1 := set_snapshots (rest ++ [MkItem to m now]) (sy_snap e)).
  assert (on_snaps (atomically_or_err (access_snapshot (mf_block_height m) 1)) e =
    (Done (Some (MkItem to m now)), MkSyncNode (sy_app e) s1 (sy_store e))) as Hacc.
  { unfold on_snaps, atomically_or_err, access_snapshot, mbind, stm_bind, reads. rewrite Hs. fold now.
    by rewrite access_item_last. }
  assert (parts_of to s1 = Some (dir part_name chunks)) as Hp1 by exact Hp.
  unfold load_snapshot_chunk. erewrite io_run_bind by exact Hacc. cbv beta iota.
  erewrite io_run_bind.
  2:{ unfold attempt, on_snaps. cbn [sy_snap]. by rewrite (load_chunk_runs no_faults (MkItem to m now) chunks k b s1 Hp1 all_chunks Hb). }
  eexists. split; [reflexivity|]. split; [by exists now|exact Hp].
Qed.

(** A joining node that has the first chunks. *)
Lemma chunk_runs d k b n :
  downloading chunks m d k (sy_snap n) → chunks !! k = Some b → S k ≠ length chunks →
  ∃ n', apply_snapshot_chunk config (Some cn) (N.of_nat k) b n = (Done (MkChunkResponse ChunkAccept []), n') ∧
    downloading chunks m d (S k) (sy_snap n') ∧ sy_app n' = sy_app n ∧ sy_store n' = sy_store n.
Proof.
  intros Hd Hb Hk. destruct (save_chunk_runs no_faults chunks m d k b _ Hd Hb few_chunks all_chunks summed) as (s' & Hsave & Hd' & _).
  rewrite decide_False in Hsave by done. unfold apply_snapshot_chunk. erewrite io_run_bind.
  2:{ unfold attempt, on_snaps, atomically_io. by rewrite Hsave. }
  eexists. split; [reflexivity|]. done.
Qed.

Context (s : AppState) (p : FvmStateParams) (h : N).
Hypothesis (manifest_height : mf_block_height m = h).
Hypothesis (manifest_params : mf_state_params m = p).
Hypothesis (height_fits : h ≤ i64_max).

(** The application of a joining node, and what becomes of it. *)
Definition joins (n : SyncNode) : Prop :=
  app_state (sy_app n) = Some s ∧ starts_at (oldest_state_height s) (state_hist (sy_app n)) ∧ oldest_state_height s ≤ h + 1.
Definition joined (store : MemoryBlockstore) (n : SyncNode) : Prop :=
  (∃ oldest, app_state (sy_app n) = Some (MkAppState h oldest p)) ∧ state_hist (sy_app n) !! (h + 1) = Some p ∧ sy_store n = store.

Lemma last_chunk_runs d k b n store' :
  downloading chunks m d k (sy_snap n) → chunks !! k = Some b → S k = length chunks → joins n →
  read_car (concat chunks) true (sy_store n) = (Done (V1 (MkV1 store' p h)), store') →
  ∃ n', apply_snapshot_chunk config (Some cn) (N.of_nat k) b n = (Done (MkChunkResponse ChunkAccept []), n') ∧ joined store' n'.
Proof.
  intros Hd Hb Hk (Hs & Hstart & Hold) Hread.
  destruct (save_chunk_runs no_faults chunks m d k b _ Hd Hb few_chunks all_chunks summed) as (s1 & Hsave & [Hcd Hp1] & _).
  rewrite decide_True in Hsave by done. rewrite take_ge in Hp1 by lia.
  unfold apply_snapshot_chunk. erewrite io_run_bind.
  2:{ unfold attempt, on_snaps, atomically_io. by rewrite Hsave. }
  cbv beta iota. destruct (import_runs no_faults (item_new d m) chunks s1 (sy_store n) _ store' Hp1 few_chunks Hread) as (s2 & Himp & _); [done|done|].
  erewrite io_run_bind.
  2:{ unfold attempt, on_world. cbn [sy_snap sy_store]. by rewrite Himp. }
  cbv beta iota. cbn [manifest item_new]. rewrite manifest_height, manifest_params.
  destruct (set_committed_spec config (MkAppState h (oldest_state_height s) p) (sy_app n)) as (oldest & _ & _ & Hrun);
    [cbn; unfold i64_max in *; lia|done|done|].
  erewrite io_run_bind.
  2:{ unfold on_app. cbn [sy_app]. unfold adopt_snapshot. erewrite io_run_bind.
      2:{ unfold committed_state, mbind, io_bind, io_reads. by rewrite Hs. }
      by rewrite Hrun. }
  eexists. split; [reflexivity|]. cbn. split_and!; [by eexists| |done].
  apply map_lookup_filter_Some. rewrite lookup_insert_eq. split; [done|]. cbn. lia.
Qed.

Lemma transfer_runs d k n e store' :
  serves rest to m chunks e → downloading chunks m d k (sy_snap n) → (k < length chunks)%nat → joins n →
  read_car (concat chunks) true (sy_store n) = (Done (V1 (MkV1 store' p h)), store') →
  ∃ e' n', transfer config (Some ce) (Some cn) h 1 (N.of_nat k) (length chunks - k) e n = Some (e', n') ∧ joined store' n'.
Proof.
  intros Hserve Hd Hk Hj Hread. remember (length chunks - k)%nat as count eqn:Hcount.
  revert k n e Hserve Hd Hk Hj Hread Hcount. induction count as [|count IH]; intros k n e Hserve Hd Hk Hj Hread Hcount; [lia|].
  destruct (lookup_lt_is_Some_2 chunks k Hk) as [b Hb]. cbn [transfer].
  destruct (serve_runs e k b Hserve Hb) as (e1 & Hload & Hserve1). rewrite manifest_height in Hload. rewrite Hload.
  destruct (decide (S k = length chunks)) as [Hlast|Hmore].
  - destruct (last_chunk_runs d k b n store' Hd Hb Hlast Hj Hread) as (n1 & -> & Hn1). replace count with 0%nat by lia. eauto.
  - destruct (chunk_runs d k b n Hd Hb Hmore) as (n1 & -> & Hd1 & Happ & Hst). replace (N.of_nat k + 1) with (N.of_nat (S k)) by lia.
    apply IH; [done|done|lia|unfold joins; by rewrite Happ|by rewrite Hst|lia].
Qed.
End one_snapshot.

(** C11: a node that has caught up takes a snapshot of its latest state, lists it, and serves its
    chunks; another node accepts the offer with the application hash of that state and accepts every
    chunk, and then has committed exactly that state at that height, with every block of the state tree in its
    store; unless the blocks have a collision of digests.  The state tree has no cycles and fewer blocks, counted along
    links, than a 32-bit number of chunks can tell. *)
Theorem state_sync_complete (params : SnapshotParams) (rank : Cid → nat) (e n : SyncNode) p h last s :
  let to := (snapshots_dir params, snapshot_name h) in let get := memory_get (sy_store e) in
  (∀ c d, linked get c d → (rank d < rank c)%nat) → exportable (sy_store e) p →
  N.of_nat (queue_size get rank [sp_state_root p]) + 3 < u32_size → h ≤ i64_max →
  sn_fs (sy_snap e) !! to = None →
  Forall (λ s, snapshot_dir s ≠ to ∧ mf_block_height (manifest s) ≠ h ∧ mf_block_height (manifest s) ≤ i64_max) (snapshots (sy_snap e)) →
  is_syncing (sy_snap e) = false → latest_params (sy_snap e) = Some (p, h) → last ≠ Some (p, h) →
  joins s h n →
  ∃ e1 l a fuel0,
    (∀ fuel, (fuel0 ≤ fuel)%nat → on_snaps (run_round params (sy_store e) fuel last) e = (Done (Some (p, h)), e1)) ∧
    abci_list_snapshots (Some ce) e1 = (Done l, e1) ∧ a ∈ l ∧ ab_height a = h ∧
    ∃ n1, abci_offer_snapshot (Some cn) (MkOffer a (to_app_hash p)) n = (Done OfferAccept, n1) ∧
      (cid_collision ∨ ∃ e2 n2 store', transfer config (Some ce) (Some cn) h (ab_format a) 0 (N.to_nat (ab_chunks a)) e1 n1 = Some (e2, n2) ∧
        joined p h store' n2 ∧ ∀ c b, reachable get [sp_state_root p] c → sy_store e !! c = Some b → store' !! c = Some b).
Proof.
  intros to get Hacyclic Hex Hfew Hh Hto Hothers Hsync Hlatest Hlast Hj.
  assert (to ∉ snapshot_dir <$> snapshots (sy_snap e)) as Hnew.
  { intros (x & Hx & Hin)%list_elem_of_fmap. rewrite Forall_forall in Hothers. by destruct (Hothers x Hin). }
  destruct (run_round_runs no_faults params (sy_store e) rank Hacyclic never_broken some_work fair read_written reader_fair params_fit
    metadata_fit json_fit p h last (sy_snap e) Hex Hto Hnew Hsync Hlatest Hlast)
    as (chunks & m & s1 & fuel0 & removed & rest & Hrun & Hitems & Hs1 & Hparts & Hmh & Hmp & Hmv & Hmc & Hsum & Hne & Hlen & Hread).
  fold to in Hs1, Hparts. set (e1 := MkSyncNode (sy_app e) s1 (sy_store e)).
  assert (N.of_nat (length chunks) < u32_size) as Hsmall by (fold get in Hlen; lia). rewrite N.mod_small in Hmc by done.
  rewrite Hitems in Hothers. apply Forall_app in Hothers as [_ Hothers].
  destruct (snapshot_back to m _ 0 ltac:(by rewrite Hmh) Hsum) as (a & Ha & Hah & Haf & Hac & Hoffer).
  destruct (to_snapshots_in rest (item_new to m) a) as (l & Hl & Hin); [eapply Forall_impl; [exact Hothers|by intros x (_ & _ & ?)]|done|].
  exists e1, l, a, fuel0. split_and!; [|by unfold abci_list_snapshots, mbind, io_bind, on_snaps, atomically_or_err, list_snapshots, reads; cbn;
    rewrite Hs1; unfold io_of; rewrite Hl|done|congruence|].
  { intros fuel Hf. unfold on_snaps. by rewrite Hrun. }
  destruct (json_fit m) as [json Hjson].
  destruct (offer_runs no_faults (client_download_dir cn) m json (sy_snap n) Hmv Hjson fresh) as (sn & d & Hoff & [Hcd Hpd] & _).
  exists (MkSyncNode (sy_app n) sn (sy_store n)). split.
  { unfold abci_offer_snapshot. erewrite io_run_bind.
    2:{ unfold attempt, io_of. rewrite <-Hmp, Hoffer. done. }
    cbv beta iota. erewrite io_run_bind.
    2:{ unfold attempt, on_snaps, atomically_io. by rewrite Hoff. }
    done. }
  destruct (Hread true (sy_store n)) as [Hcoll|(store' & Hcar & Hall)]; [by left|right].
  destruct (transfer_runs rest to m chunks) with (s := s) (p := p) (h := h) (d := d) (k := 0%nat)
    (n := MkSyncNode (sy_app n) sn (sy_store n)) (e := e1) (store' := store') as (e2 & n2 & Htr & Hn2); try done.
  { eapply Forall_impl; [exact Hothers|intros x (_ & Hx & _); by rewrite Hmh]. }
  { split; [|done]. by exists 0. }
  { destruct chunks; [done|cbn; lia]. }
  exists e2, n2, store'. split; [|done]. rewrite Hac, Hmc, Haf, Hmv, Nat2N.id. by rewrite Nat.sub_0_r in Htr.
Qed.
End completeness.

(** ** Two nodes *)
Module SampleStateSync.
#[local] Existing Instance dev_profile.
#[local] Existing Instance sample_data.
#[local] Existing Instance SampleParent.proxy.
#[local] Existing Instance SampleParent.idle.
#[local] Existing Instance SampleMachine.ids.
#[local] Existing Instance SampleMachine.machine.
#[local] Existing Instance SampleMachine.inner_interpreter.
#[local] Existing Instance SampleMachine.resolvers.
#[local] Existing Instance SampleApp.codec.
#[local] Existing Instance SampleApp.launch.
#[local] Existing Instance SampleApp.backend.
#[local] Existing Instance SampleChunks.sample_car.
#[local] Existing Instance SampleChunks.sample_laws.
#[local] Existing Instance SampleChunks.sample_reader.
#[local] Existing Instance SampleSnapshots.snap_env.
Import SampleCar SampleChunks SampleSnapshots.

#[local] Instance any_order : HashOrder string := {| hash_iter A m := map_to_list m; hash_iter_perm A m := reflexivity (map_to_list m) |}.
#[local] Instance sync_env : SyncEnv := {| sync_meta_to_vec x := inr (put x); sync_meta_from_slice := read_all |}.

Definition client : ClientConfig := MkClient "downloads" 10.

(** A state tree of two blocks. *)
Definition blocks : MemoryBlockstore := {[digest tree := tree; digest leaf := leaf]}.
Definition depth (c : Cid) : nat := if bool_decide (c = digest tree) then 1 else 0.
Definition state : FvmStateParams := MkStateParams (digest tree) 60 21 0 500 1 3 0.
Definition exporter : SyncNode :=
  MkSyncNode SampleApp.app_20 (MkSnapNode (snapshots three) (Some (state, 40)) None false (sn_fs three) 8) blocks.
Definition newcomer : SyncNode := MkSyncNode SampleApp.app_20 (MkSnapNode [] None None true ∅ 0) ∅.

Lemma blocks_at c b : blocks !! c = Some b → c = digest tree ∧ b = tree ∨ c = digest leaf ∧ b = leaf.
Proof.
  unfold blocks. intros Hb. apply (lookup_insert_Some (M:=gmap Cid)) in Hb as [[<- <-]|[_ Hb]]; [by left|right].
  apply (lookup_singleton_Some (M:=gmap Cid)) in Hb as [<- <-]. done.
Qed.

Lemma blocks_acyclic c d : linked (memory_get blocks) c d → (depth d < depth c)%nat.
Proof.
  unfold linked, links_of, memory_get. destruct (blocks !! c) as [b|] eqn:Hb; [|intros []%not_elem_of_nil].
  destruct (blocks_at c b Hb) as [[-> ->]|[-> ->]].
  - replace (from_option ipld_links [] (ipld_from_slice tree)) with [digest leaf] by (vm_compute; reflexivity).
    intros ->%list_elem_of_singleton. vm_compute. lia.
  - intros []%not_elem_of_nil.
Qed.

Lemma state_exportable : exportable blocks state.
Proof.
  split; [vm_compute; reflexivity|..].
  - intros c _. unfold streamable, memory_get. destruct (blocks !! c) as [b|]; [|done]. intros _. cbn. unfold as_ipld.
    destruct (read_all b); by eexists.
  - intros c b _ [[-> ->]|[-> ->]]%blocks_at; vm_compute; reflexivity.
Qed.

Lemma fresh_names (fs : gmap Path SnapDir) d : (d, fresh_name fs d) ∉ dom fs.
Proof.
  cbn [fresh_name snap_env]. intros [x Hx]%elem_of_dom. apply (infinite_is_fresh (map_to_list fs).*1.*2).
  apply elem_of_map_to_list in Hx. by apply (list_elem_of_fmap_2 fst), (list_elem_of_fmap_2 snd) in Hx.
Qed.

Lemma no_fault t : fault t = None.
Proof. done. Qed.
Lemma params_encoded (x : BlockStateParams) : ∃ b, params_to_vec x = inr b.
Proof. by eexists. Qed.
Lemma metadata_encoded (x : SnapshotMetadata) : ∃ b, metadata_to_vec x = inr b.
Proof. by eexists. Qed.
Lemma manifest_encoded (m : SnapshotManifest) : ∃ j, manifest_to_json m = inr j.
Proof. by eexists. Qed.
Lemma sync_encoded x : ∃ b, sync_meta_to_vec x = inr b.
Proof. by eexists. Qed.
Lemma sync_decoded x b : sync_meta_to_vec x = inr b → sync_meta_from_slice b = inr x.
Proof. intros [= <-]. apply read_all_put. Qed.

Example state_sync_complete_witness :
  ∃ e1 l a fuel0,
    (∀ fuel, (fuel0 ≤ fuel)%nat → on_snaps (run_round keep_one blocks fuel None) exporter = (Done (Some (state, 40)), e1)) ∧
    abci_list_snapshots (Some client) e1 = (Done l, e1) ∧ a ∈ l ∧
    ∃ n1, abci_offer_snapshot (Some client) (MkOffer a (to_app_hash state)) newcomer = (Done OfferAccept, n1) ∧
      ∃ e2 n2 store', transfer SampleApp.three_states (Some client) (Some client) 40 (ab_format a) 0 (N.to_nat (ab_chunks a)) e1 n1 = Some (e2, n2) ∧
        joined state 40 store' n2.
Proof.
  destruct (state_sync_complete SampleApp.three_states client client no_fault fresh_names slow_works slow_writes slow_ends sometimes_ready
    sample_read params_encoded metadata_encoded manifest_encoded sync_encoded sync_decoded
    keep_one depth exporter newcomer state 40 None SampleApp.at_20 blocks_acyclic state_exportable)
    as (e1 & l & a & fuel0 & Hrun & Hlist & Ha & _ & n1 & Hoffer & Hcase).
  1-2: by vm_compute.
  1: vm_compute; reflexivity.
  1: repeat (apply Forall_cons_2; [by split_and!|]); by apply Forall_nil_2.
  1-3: done.
  1: split; [done|]; split; [exact SampleApp.app_20_start|done].
  exists e1, l, a, fuel0. split_and!; [done..|]. exists n1. split; [done|].
  destruct Hcase as [Hcoll|(e2 & n2 & store' & Htr & Hj & _)]; [by destruct (no_collision digest digest_inj)|]. by exists e2, n2, store'.
Defined.

(** An offer at a verified height, and a chunk. *)
Definition verified_40 (h : N) (hash : Hash) : Prop := h = 40 ∧ hash = hash_zero.
Definition offer_40 : OfferRequest := MkOffer (MkAbciSnapshot 40 1 2 (vec_to_list hash_zero) (put (100, state))) hash_zero.
Definition after_offer : SyncNode := (abci_offer_snapshot (Some client) offer_40 newcomer).2.
Definition after_chunk : SyncNode := (apply_snapshot_chunk SampleApp.three_states (Some client) 0 leaf after_offer).2.

Example state_sync_safe_witness : adopts verified_40 newcomer after_chunk.
Proof.
  apply (state_sync_safe SampleApp.three_states (Some client)); [|done].
  eapply rtc_l; [by eapply (sync_offer _ _ _ _ offer_40), surjective_pairing|].
  apply rtc_once. by eapply (sync_chunk _ _ _ _ 0 leaf), surjective_pairing.
Defined.
End SampleStateSync.
