(* ===== verification/Gap.v ===== *)
(** * A batch that was overtaken

    Checkpoints between two periods carry full batches of messages.  The subnet actor on the parent takes
    the checkpoint of the next period also when such a batch has not been submitted, and then takes the batch
    no more.  The messages of a subnet are numbered, and the gateway on the parent executes only the one with the
    next number; so from then on no message of the subnet is executed.  The subnet actor and the gateway are put together here:
    what the actor accepts is what the gateway gets. *)

From Stdlib Require Import Strings.Byte.
From S2P Require Import Prelude Weights PQ ValidatorSet Abi Staking SubnetActor Submission SolIds Messages MessageFunds MessageDelivery.

Definition applied (h : N) (g : Gateway) : N := appliedBottomUpNonce (subnet_at g h).

(** Nothing about the numbers and identifiers of subnets changes. *)
Definition frame (g g' : Gateway) : Prop :=
  (∀ h, applied h g' = applied h g ∧ id (subnet_at g' h) = id (subnet_at g h)) ∧ networkName g' = networkName g.
#[export] Instance frame_po : PreOrder frame.
Proof.
  split; [by intros g|]. intros g1 g2 g3 [H12 Hn12] [H23 Hn23]. split; [|congruence].
  intros h. destruct (H12 h), (H23 h). split; congruence.
Qed.

Section gap.
Context `{MessageEnv}.

Lemma frame_put h s g : appliedBottomUpNonce s = applied h g → id s = id (subnet_at g h) → frame g (put_subnet h s g).
Proof.
  intros Ha Hi. split; [|done]. intros k. unfold applied, subnet_at in *. cbn.
  destruct (decide (k = h)) as [->|Hne]; [by rewrite lookup_insert_eq|by rewrite lookup_insert_ne].
Qed.
Lemma frame_same g g' : subnets g' = subnets g → networkName g' = networkName g → frame g g'.
Proof. intros Hs Hn. split; [|done]. intros h. unfold applied, subnet_at. by rewrite Hs. Qed.

(** *** Commitments *)

Lemma commitTopDown_frame m g m' g' : commitTopDownMsg m g = Done (m', g') → frame g g' ∧ balances g' = balances g.
Proof.
  unfold commitTopDownMsg. intros Hr. inv_done.
  match goal with G : getSubnet _ _ = _ |- _ => apply getSubnet_run in G as [-> ->] end.
  destruct (isEmptyId (id (subnet_at _ _))) eqn:Hid; inv_done; inv_done. split; [|done].
  match goal with |- frame ?g (set_log _ ?g1) => transitivity g1; [by apply frame_put|by apply frame_same] end.
Qed.

Lemma commitCross_frame block m g r g' : commitCrossMessage block m g = Done (r, g') → frame g g' ∧ balances g' = balances g.
Proof.
  unfold commitCrossMessage. intros Hr. inv_done.
  destruct (isEmptyId _); inv_done. destruct (equals (subnetId (to m)) _); inv_done.
  match goal with G : next_is_token _ _ _ = _ |- _ => apply next_same in G as -> end.
  destruct (_ && _); inv_done. destruct (_ || _); inv_done.
  - match goal with G : commitTopDownMsg _ ?g1 = _ |- _ => apply commitTopDown_frame in G as [Hf Hb] end.
    split; [|done]. etrans; [|exact Hf]. by apply frame_same.
  - match goal with G : commitBottomUpMsg _ _ _ = Done (_, ?g2) |- _ => rename G into Hc; rename g2 into g' end.
    apply commitBottomUp_same in Hc as Hs. destruct Hs as [(Hs & _ & Hb) _]. split; [|done]. apply frame_same; [done|].
    revert Hc. unfold commitBottomUpMsg, storeBottomUpMsgBatch. intros Hc. inv_done. case_bool_decide; inv_done; [done|]. case_bool_decide; by inv_done.
Qed.

Lemma sendReceipt_frame block m o ret g x g' : sendReceipt block m o ret g = Done (x, g') → frame g g' ∧ balances g' = balances g.
Proof.
  unfold sendReceipt. intros Hr. destruct (isEmpty m); [by inv_done|]. case_bool_decide; inv_done; [done|]. by eapply commitCross_frame.
Qed.

(** *** Calls *)

Lemma pay_framed sender recipient amount g x g' : pay sender recipient amount g = Done (x, g') → frame g g'.
Proof. intros [b ->]%pay_frame. by apply frame_same. Qed.
Lemma sendValue_frame recipient amount g x g' : sendValue recipient amount g = Done (x, g') → frame g g'.
Proof. unfold sendValue. intros Hr. inv_done. case_bool_decide; inv_done. destruct (negb _); inv_done. by eapply pay_framed. Qed.
Lemma call_frame recipient amount r g b g' : call_value recipient amount r g = Done (b, g') → frame g g'.
Proof. unfold call_value. intros Hr. inv_done. case_bool_decide; inv_done. destruct r.1; inv_done; [by eapply pay_framed|done]. Qed.

Lemma performCall_frame s target m amount g r g' : performCall s target m amount g = Done (r, g') → frame g g'.
Proof.
  unfold performCall. intros Hr. case_bool_decide; [by eapply call_frame|]. destruct (sup_kind s); [by eapply call_frame|].
  unfold functionCallWithERC20Value in Hr. destruct (token_transfer _ _ _) as [[] ret]; cbn in Hr; inv_done.
  match goal with G : call_value _ _ _ _ = Done (?r, _) |- _ => destruct r as [[] ret']; apply call_frame in G end; by inv_done.
Qed.

Lemma execute_frame m s g r g' : executeCrossMsg m s g = Done (r, g') → frame g g'.
Proof.
  unfold executeCrossMsg. intros Hr. destruct (execute m s g) as [[a g1]|e| | |] eqn:He; inv_done; [|done].
  unfold execute in He. destruct (isEmpty m); inv_done. destruct (kind m); [|by eapply performCall_frame..].
  unfold transferFunds in *. destruct (sup_kind s); [by eapply call_frame|by inv_done].
Qed.

(** *** Messages *)

(** Numbers may only change for the subnet that messages arrive from. *)
Definition frame_but (k : N) (g g' : Gateway) : Prop :=
  (∀ h, h ≠ k → applied h g' = applied h g) ∧ (∀ h, id (subnet_at g' h) = id (subnet_at g h)) ∧ networkName g' = networkName g.
#[local] Instance frame_but_po k : PreOrder (frame_but k).
Proof.
  split; [by intros g|]. intros g1 g2 g3 (Ha & Hi & Hn) (Ha' & Hi' & Hn').
  split_and!; [intros h Hh; rewrite Ha', Ha by done; done|intros h; by rewrite Hi', Hi|congruence].
Qed.
Lemma frame_weaken k g g' : frame g g' → frame_but k g g'.
Proof. intros [Hf Hn]. split_and!; [intros h _; apply Hf|intros h; apply Hf|done]. Qed.

Lemma admit_frame block i m g r g' : admit_msg block i m g = Done (r, g') → frame_but (hash_id i) g g'.
Proof.
  unfold admit_msg. intros Hr. inv_done. destruct (applyType m _); inv_done.
  - match goal with G : getSubnet _ _ = _ |- _ => apply getSubnet_run in G as [-> ->] end.
    destruct (negb (negb _)); [by inv_done|]. destruct (negb _); inv_done.
    + apply frame_weaken. by eapply sendReceipt_frame.
    + match goal with G : ask_supply _ _ = _ |- _ => apply ask_supply_same in G as -> end.
      split_and!; [..|done]; intros h; unfold applied, subnet_at; cbn.
      * intros Hh. by rewrite lookup_insert_ne.
      * destruct (decide (h = hash_id i)) as [->|]; [by rewrite lookup_insert_eq|by rewrite lookup_insert_ne].
  - destruct (negb _); inv_done; [apply frame_weaken; by eapply sendReceipt_frame|]. by apply frame_weaken, frame_same.
Qed.

Lemma applyMsg_frame block i m g x g' : applyMsg block i m g = Done (x, g') → frame_but (hash_id i) g g'.
Proof.
  unfold applyMsg. intros Hr. destruct (isEmptyId _); [apply frame_weaken; by eapply sendReceipt_frame|]. inv_done.
  match goal with G : admit_msg _ _ _ _ = Done (?r, _) |- _ => destruct r as [source|]; apply admit_frame in G as Ha end; [|by inv_done].
  etrans; [exact Ha|]. inv_done. destruct (negb _); inv_done; [by apply frame_weaken, frame_same|].
  match goal with G : executeCrossMsg _ _ _ = Done (?r, _) |- _ => destruct r as [ok ret]; apply execute_frame in G end.
  apply frame_weaken. etrans; [eassumption|]. by eapply sendReceipt_frame.
Qed.

Lemma applyMessages_frame block i l g x g' : applyMessages block i l g = Done (x, g') → frame_but (hash_id i) g g'.
Proof.
  revert g. induction l as [|m l IH]; intros g Hr; cbn [applyMessages] in Hr; inv_done; [done|].
  match goal with G : applyMsg _ _ _ _ = _ |- _ => apply applyMsg_frame in G end. etrans; [eassumption|]. by apply IH.
Qed.

(** A message with a later number than the next is not executed, and does not count. *)
Lemma admit_out_of_turn block i m g r g' :
  applyType m (networkName g) = BottomUp → applied (hash_id i) g < nonce m →
  admit_msg block i m g = Done (r, g') → r = None ∧ frame g g' ∧ balances g' = balances g.
Proof.
  unfold applied. intros Ht Hn. unfold admit_msg. intros Hr. inv_done. rewrite Ht in *. inv_done.
  match goal with G : getSubnet _ _ = _ |- _ => apply getSubnet_run in G as [-> ->] end.
  destruct (negb (negb _)); [by inv_done|]. rewrite bool_decide_eq_false_2 in * by lia. cbn [negb] in *. inv_done.
  split; [done|]. by eapply sendReceipt_frame.
Qed.

Lemma applyMsg_out_of_turn block i m g x g' :
  applyType m (networkName g) = BottomUp → applied (hash_id i) g < nonce m →
  applyMsg block i m g = Done (x, g') → frame g g' ∧ balances g' = balances g.
Proof.
  intros Ht Hn. unfold applyMsg. intros Hr. destruct (isEmptyId _); [by eapply sendReceipt_frame|]. inv_done.
  match goal with G : admit_msg _ _ _ _ = _ |- _ => apply admit_out_of_turn in G as (-> & Hf & Hb); [|done..] end. by inv_done.
Qed.

Lemma applyMessages_out_of_turn block i l g x g' :
  Forall (λ m, applyType m (networkName g) = BottomUp ∧ applied (hash_id i) g < nonce m) l →
  applyMessages block i l g = Done (x, g') → frame g g' ∧ balances g' = balances g.
Proof.
  revert g. induction l as [|m l IH]; intros g Hl Hr; cbn [applyMessages] in Hr; inv_done; [done|].
  apply Forall_cons in Hl as [[Ht Hn] Hl].
  match goal with G : applyMsg _ _ _ _ = _ |- _ => apply applyMsg_out_of_turn in G as [Hf Hb]; [|done..] end.
  match goal with G : applyMessages _ _ _ _ = _ |- _ => apply IH in G as [Hf' Hb'] end; [split; [by etrans|congruence]|].
  destruct Hf as [Hf ->]. by rewrite (proj1 (Hf _)).
Qed.

(** *** All calls *)

Definition named (g : Gateway) : Prop := ∀ h, isEmptyId (id (subnet_at g h)) = true ∨ hash_id (id (subnet_at g h)) = h.

(** The calls of other accounts than the subnet actor [a], and messages from the parent that arrive: they are for this network or
    one below it, and from outside. *)
Definition below (i s : SubnetID) : Prop := id_root s = id_root i ∧ route i `prefix_of` route s.
Definition other_call (a : Address) (g : Gateway) (o : Op) : Prop :=
  match o with
  | Kill b | Commit b _ => b ≠ a
  | ApplyTopDown l => Forall (λ m, below (networkName g) (subnetId (to m)) ∧ ¬ below (networkName g) (subnetId (from m))) l
  | _ => True
  end.

(** *** Directions *)

Lemma agree_fork l x y : ¬ (l `prefix_of` y) → agree (l ++ x) y = agree l y.
Proof.
  revert y. induction l as [|b l IH]; intros y Hy; cbn [app agree]; [destruct Hy; apply prefix_nil|].
  destruct y as [|c y]; [done|]. case_bool_decide as Hbc; [|done]. subst c. rewrite IH; [done|].
  intros Hp. apply Hy. by apply prefix_cons.
Qed.
Lemma agree_comm l y : agree l y = agree y l.
Proof.
  revert y. induction l as [|b l IH]; intros [|c y]; cbn; try done. rewrite IH.
  by rewrite (bool_decide_ext (b = c) (c = b)).
Qed.
Lemma agree_before l a x y : ¬ ((l ++ [a]) `prefix_of` y) → agree (l ++ a :: x) y = agree l y.
Proof.
  intros Hy. destruct (decide (l `prefix_of` y)) as [[z ->]|Hl]; [|by apply agree_fork].
  assert (agree (l ++ a :: x) (l ++ z) = length l) as ->.
  { clear -Hy. induction l as [|b l IH]; cbn.
    - destruct z as [|c z]; [done|]. rewrite bool_decide_eq_false_2; [done|]. intros ->. apply Hy. by exists z.
    - rewrite bool_decide_eq_true_2 by done. f_equal. apply IH. intros [w Hw]. apply Hy. exists w. cbn. by rewrite <-Hw. }
  rewrite agree_comm, agree_prefix by (by exists z). done.
Qed.

(** What leaves a subnet goes up for its parent. *)
Lemma leaving_up `{!IdHashLaws} m name a :
  below (createSubnetId name a) (subnetId (from m)) → ¬ below (createSubnetId name a) (subnetId (to m)) → applyType m name = BottomUp.
Proof.
  intros [Hroot [x Hx]] Hto. unfold applyType. rewrite equals_spec.
  destruct (subnetId (from m)) as [r l], (subnetId (to m)) as [rt t]. cbn [id_root route createSubnetId] in *. subst r l.
  rewrite <-app_assoc. cbn [app]. unfold commonParent. cbn [id_root route]. destruct (decide (id_root name = rt)) as [Hr|Hr].
  - subst rt. rewrite !(bool_decide_eq_true_2 (id_root name = id_root name)) by done. cbn [negb route].
    assert (agree (route name ++ a :: x) t = agree (route name) t) as Hag.
    { apply agree_before. intros Hp. apply Hto. by split. }
    rewrite Hag. pose proof (agree_le (route name) t) as [Hle _]. rewrite take_app_le by done.
    rewrite (bool_decide_eq_true_2 (_ = _)) by done. cbn [andb]. rewrite bool_decide_eq_true_2; [done|].
    rewrite length_take, length_app. cbn [length]. lia.
  - rewrite !(bool_decide_eq_false_2 (id_root name = rt)) by done. cbn [negb route no_id length].
    rewrite (bool_decide_eq_true_2 (no_id = no_id)), (bool_decide_eq_true_2 (0 < _)%nat); [done| |done]. rewrite length_app. cbn. lia.
Qed.

(** What arrives from outside goes down. *)
Lemma arriving_down `{!IdHashLaws} m name :
  isEmptyId name = false → below name (subnetId (to m)) → ¬ below name (subnetId (from m)) → applyType m name = TopDown.
Proof.
  intros Hname [Hroot Hpre] Hfrom. unfold applyType. rewrite equals_spec, (bool_decide_eq_false_2 (_ = _)); [done|].
  intros Heq. apply Hfrom. unfold commonParent in Heq. rewrite Hroot in Heq. rewrite (bool_decide_eq_true_2 (id_root name = id_root name)) in Heq by done.
  assert (agree (route name) (route (subnetId (to m))) = length (route name)) as Hag by (rewrite agree_comm; by apply agree_prefix).
  cbn [negb] in Heq. rewrite Hag, firstn_all in Heq. destruct (decide (id_root (subnetId (from m)) = id_root name)) as [Hr|Hr].
  - rewrite bool_decide_eq_true_2 in Heq by done. cbn [negb] in Heq. injection Heq as _ Hl. split; [done|].
    rewrite Hl. apply prefix_take.
  - rewrite bool_decide_eq_false_2 in Heq by done. cbn [negb] in Heq. injection Heq as Hz Hl.
    unfold isEmptyId in Hname. by rewrite Hl, Hz in Hname.
Qed.

Lemma named_frame k g g' : frame_but k g g' → named g → named g'.
Proof. intros (_ & Hi & _) Hn h. rewrite !Hi. apply Hn. Qed.

Lemma exec_frame block l k g x g' :
  hash_id (id (subnet_at g k)) = k → execBottomUpMsgs block l k g = Done (x, g') →
  frame_but k g g' ∧
  (Forall (λ m, applyType m (networkName g) = BottomUp ∧ applied k g < nonce m) l → frame g g' ∧ balances g' = balances g).
Proof.
  intros He Hr. unfold execBottomUpMsgs in Hr. inv_done. case_bool_decide; inv_done.
  match goal with G : applyMessages _ _ _ (put_subnet k ?s1 ?g0) = _ |- _ =>
    rename G into Happ; assert (frame g0 (put_subnet k s1 g0)) as Hg1 by (by apply frame_put); set (g1 := put_subnet k s1 g0) in * end. split.
  - apply applyMessages_frame in Happ. rewrite He in Happ. etrans; [by apply frame_weaken|done].
  - intros Hl. apply applyMessages_out_of_turn in Happ as [Hf Hb]; [split; [by etrans|done]|].
    rewrite He. destruct Hg1 as [Hg1 ->]. by rewrite (proj1 (Hg1 k)).
Qed.

Lemma commit_frame block a c g x g' :
  named g → commitCheckpoint block a c g = Done (x, g') →
  let k := hash_id (createSubnetId (networkName g) a) in
  frame_but k g g' ∧
  (Forall (λ m, applyType m (networkName g) = BottomUp ∧ applied k g < nonce m) (cp_msgs c) → frame g g' ∧ balances g' = balances g).
Proof.
  cbv zeta. intros Hn Hr. unfold commitCheckpoint in Hr. destruct (negb _); inv_done.
  match goal with G : getSubnetOf _ _ = _ |- _ => apply getSubnetOf_run in G as [_ [-> ->]%getSubnet_run] end. cbv beta iota in *.
  destruct (isEmptyId (id (subnet_at _ _))) eqn:Hid; cbn [negb] in *; inv_done. destruct (negb _); inv_done.
  match goal with G : checkMsgLength _ _ = _ |- _ => unfold checkMsgLength in G; inv_done; case_bool_decide; inv_done end.
  eapply exec_frame; [|eassumption]. match type of Hid with isEmptyId (id (subnet_at _ ?k)) = _ => destruct (Hn k) as [He|He]; [by rewrite Hid in He|done] end.
Qed.

(** What the other calls do. *)
Lemma stake_frame s h g n :
  s = subnet_at g h → frame g (put_subnet h (MkSubnet n (genesisEpoch s) (circSupply s) (topDownNonce s) (appliedBottomUpNonce s) (id s)) g).
Proof. intros ->. by apply frame_put. Qed.

Lemma register_frame block a v circ g x g' :
  register block a v circ g = Done (x, g') →
  (∀ h, applied h g' = applied h g) ∧ networkName g' = networkName g ∧ (named g → named g').
Proof.
  unfold register. intros Hr. inv_done. match goal with G : pay _ _ _ _ = _ |- _ => apply pay_frame in G as [b ->] end.
  case_bool_decide; inv_done. case_bool_decide; inv_done.
  match goal with G : getSubnet _ _ = _ |- _ => apply getSubnet_run in G as [-> ->] end. cbv beta iota in *.
  destruct (isEmptyId _) eqn:Hid; cbn [negb] in *; inv_done. inv_done. split_and!; [|done|].
  - intros h. unfold applied, subnet_at. cbn. match goal with |- context [<[?k := _]> _] => destruct (decide (h = k)) as [->|] end;
      [by rewrite lookup_insert_eq|by rewrite lookup_insert_ne].
  - intros Hn h. specialize (Hn h). unfold subnet_at in *. cbn in *.
    match goal with |- context [<[?k := _]> _] => destruct (decide (h = k)) as [->|] end; [right; by rewrite lookup_insert_eq|by rewrite lookup_insert_ne].
Qed.

Lemma kill_frame a g x g' :
  kill a g = Done (x, g') → named g →
  (∀ h, h ≠ hash_id (createSubnetId (networkName g) a) → applied h g' = applied h g) ∧ networkName g' = networkName g ∧ named g'.
Proof.
  unfold kill. intros Hr Hn. inv_done.
  match goal with G : getSubnetOf _ _ = _ |- _ => apply getSubnetOf_run in G as [_ [-> ->]%getSubnet_run] end. cbv beta iota in *.
  match goal with |- context [hash_id (createSubnetId ?n a)] => set (k := hash_id (createSubnetId n a)) in * end.
  destruct (isEmptyId (id (subnet_at _ k))) eqn:Hid; cbn [negb] in *; inv_done. destruct (negb _); inv_done.
  destruct (Hn k) as [He|He]; [by rewrite Hid in He|]. rewrite He in *.
  match goal with G : sendValue _ _ ?g1 = _ |- _ => apply sendValue_frame in G as [Hf Hname]; set (g2 := g1) in * end.
  match goal with |- context [applied _ g' = applied _ ?g0] =>
    assert (∀ h, h ≠ k → subnet_at g2 h = subnet_at g0 h) as Hother by (intros h Hh; unfold subnet_at; cbn; by rewrite lookup_delete_ne) end.
  split_and!; [|done|].
  - intros h Hh. rewrite (proj1 (Hf h)). unfold applied. by rewrite Hother.
  - intros h. rewrite (proj2 (Hf h)). destruct (decide (h = k)) as [->|Hh]; [|by rewrite Hother].
    left. unfold subnet_at. cbn. by rewrite lookup_delete_eq.
Qed.

Lemma addStake_frame a v g x g' : addStake a v g = Done (x, g') → frame g g'.
Proof.
  unfold addStake. intros Hr. inv_done. match goal with G : pay _ _ _ _ = _ |- _ => apply pay_framed in G end.
  case_bool_decide; inv_done. match goal with G : getSubnetOf _ _ = _ |- _ => apply getSubnetOf_run in G as [_ [-> ->]%getSubnet_run] end.
  cbv beta iota in *. destruct (negb (negb _)); inv_done. inv_done. etrans; [eassumption|]. by apply stake_frame.
Qed.

Lemma releaseStake_frame a v g x g' : releaseStake a v g = Done (x, g') → frame g g'.
Proof.
  unfold releaseStake. intros Hr. case_bool_decide; inv_done.
  match goal with G : getSubnetOf _ _ = _ |- _ => apply getSubnetOf_run in G as [_ [-> ->]%getSubnet_run] end.
  cbv beta iota in *. destruct (negb (negb _)); inv_done. case_bool_decide; inv_done.
  match goal with G : sendValue _ _ _ = _ |- _ => apply sendValue_frame in G end. etrans; [|eassumption]. by apply stake_frame.
Qed.

Lemma fund_frame a v i r g x g' : fund a v i r g = Done (x, g') → frame g g'.
Proof.
  unfold fund, expect. intros Hr. inv_done. match goal with G : pay _ _ _ _ = _ |- _ => apply pay_framed in G end.
  case_bool_decide; inv_done. match goal with G : getSubnet _ _ = _ |- _ => apply getSubnet_run in G as [-> ->] end.
  cbv beta iota in *. destruct (negb (negb _)); inv_done. case_bool_decide; inv_done.
  match goal with G : ask_supply _ _ = _ |- _ => apply ask_supply_same in G as -> end.
  match goal with G : commitTopDownMsg _ _ = _ |- _ => apply commitTopDown_frame in G as [? _] end. by etrans.
Qed.

Lemma fundWithToken_frame a v i r g x g' : fundWithToken a i r v g = Done (x, g') → frame g g'.
Proof.
  unfold fundWithToken, expect. intros Hr. case_bool_decide; inv_done.
  match goal with G : getSubnet _ _ = _ |- _ => apply getSubnet_run in G as [-> ->] end.
  cbv beta iota in *. destruct (negb (negb _)); inv_done. case_bool_decide; inv_done.
  match goal with G : ask_supply _ _ = _ |- _ => apply ask_supply_same in G as -> end.
  match goal with G : lock _ ?s _ _ = _ |- _ => unfold lock in G; destruct (sup_kind s); [by inv_done|destruct (token_pull _ _ _) as [[]|]; inv_done] end.
  case_bool_decide; inv_done. match goal with G : commitTopDownMsg _ _ = _ |- _ => by apply commitTopDown_frame in G as [? _] end.
Qed.

Lemma commitBottomUp_frame block m g m' g' : commitBottomUpMsg block m g = Done (m', g') → frame g g'.
Proof.
  intros Hc. apply commitBottomUp_same in Hc as Hs. destruct Hs as [(Hs & _) _]. apply frame_same; [done|].
  revert Hc. unfold commitBottomUpMsg, storeBottomUpMsgBatch. intros Hc. inv_done. case_bool_decide; inv_done; [done|]. case_bool_decide; by inv_done.
Qed.

Lemma release_frame block a v r g x g' : release block a v r g = Done (x, g') → frame g g'.
Proof.
  unfold release. intros Hr. inv_done. match goal with G : pay _ _ _ _ = _ |- _ => apply pay_framed in G end. case_bool_decide; inv_done.
  match goal with G : commitBottomUpMsg _ _ _ = _ |- _ => apply commitBottomUp_frame in G end.
  match goal with G : sendValue _ _ _ = _ |- _ => apply sendValue_frame in G end. etrans; [eassumption|]. by etrans.
Qed.

Lemma sideEffects_frame v burn g x g' : crossMsgSideEffects v burn g = Done (x, g') → frame g g'.
Proof. unfold crossMsgSideEffects. destruct burn; intros Hr; [by eapply sendValue_frame|by inv_done]. Qed.

Lemma send_frame block a v e g x g' : sendContractXnetMessage block a v e g = Done (x, g') → frame g g'.
Proof.
  unfold sendContractXnetMessage. intros Hr. inv_done. match goal with G : pay _ _ _ _ = _ |- _ => apply pay_framed in G end.
  do 5 (destruct (negb _); inv_done).
  match goal with G : commitCrossMessage _ _ _ = Done (?r, _) |- _ => destruct r as [burn m']; apply commitCross_frame in G as [? _] end. inv_done.
  match goal with G : crossMsgSideEffects _ _ _ = _ |- _ => apply sideEffects_frame in G end. etrans; [eassumption|]. by etrans.
Qed.

Lemma propagate_frame block a v cid g x g' : propagate block a v cid g = Done (x, g') → frame g g'.
Proof.
  unfold propagate. intros Hr. inv_done. match goal with G : pay _ _ _ _ = _ |- _ => apply pay_framed in G end. destruct (negb _); inv_done.
  match goal with G : commitCrossMessage _ _ _ = Done (?r, _) |- _ => destruct r as [burn m']; apply commitCross_frame in G as [? _] end. inv_done.
  match goal with G : crossMsgSideEffects _ _ ?g1 = _ |- _ => apply sideEffects_frame in G; etrans; [|exact G] end.
  etrans; [eassumption|]. etrans; [eassumption|]. by apply frame_same.
Qed.

Lemma applyMsg_down block i m g x g' : applyType m (networkName g) = TopDown → applyMsg block i m g = Done (x, g') → frame g g'.
Proof.
  intros Ht. unfold applyMsg. intros Hr. destruct (isEmptyId _); [by eapply sendReceipt_frame|]. inv_done.
  match goal with G : admit_msg _ _ _ ?g = Done (?r, ?g1) |- _ => assert (frame g g1) as Ha end.
  { unfold admit_msg in *. inv_done. rewrite Ht in *. inv_done. destruct (negb _); inv_done; [by eapply sendReceipt_frame|by apply frame_same]. }
  etrans; [exact Ha|]. case_match; [|by inv_done]. inv_done. destruct (negb _); inv_done; [by apply frame_same|].
  match goal with G : executeCrossMsg _ _ _ = Done (?r, _) |- _ => destruct r as [ok ret]; apply execute_frame in G end.
  etrans; [eassumption|]. by eapply sendReceipt_frame.
Qed.

Lemma applyMessages_down block i l g x g' :
  Forall (λ m, applyType m (networkName g) = TopDown) l → applyMessages block i l g = Done (x, g') → frame g g'.
Proof.
  revert g. induction l as [|m l IH]; intros g Hl Hr; cbn [applyMessages] in Hr; inv_done; [done|]. apply Forall_cons in Hl as [Ht Hl].
  match goal with G : applyMsg _ _ _ _ = _ |- _ => apply applyMsg_down in G as Hf; [|done] end. etrans; [exact Hf|].
  apply IH; [|done]. destruct Hf as [_ ->]. done.
Qed.

Lemma perform_other `{!IdHashLaws} block o g x g' a :
  isEmptyId (networkName g) = false → named g → other_call a g o → perform block o g = Done (x, g') →
  let k := hash_id (createSubnetId (networkName g) a) in
  applied k g' = applied k g ∧ networkName g' = networkName g ∧ named g'.
Proof.
  intros Hname Hn Hother Hr k.
  assert (∀ b, b ≠ a → hash_id (createSubnetId (networkName g) b) ≠ k) as Hne.
  { intros b Hb [= Hroute]%(inj hash_id). by apply (inj (app _)) in Hroute as [= ->]. }
  assert (frame g g' → applied k g' = applied k g ∧ networkName g' = networkName g ∧ named g') as Hframe.
  { intros Hf. split_and!; [apply Hf|apply Hf|eapply (named_frame 0); [by apply frame_weaken|done]]. }
  destruct o as [| | |b| | | | | |b c|l]; cbn [perform other_call] in *.
  - apply register_frame in Hr as (? & ? & ?). auto.
  - by eapply Hframe, addStake_frame.
  - by eapply Hframe, releaseStake_frame.
  - apply kill_frame in Hr as (Ha & ? & ?); [|done]. split_and!; [|done|done]. apply Ha. symmetry. by apply Hne.
  - by eapply Hframe, fund_frame.
  - by eapply Hframe, fundWithToken_frame.
  - by eapply Hframe, release_frame.
  - inv_done. by eapply Hframe, send_frame.
  - by eapply Hframe, propagate_frame.
  - apply commit_frame in Hr as [Hf _]; [|done]. split_and!; [|apply Hf|by eapply named_frame].
    apply Hf. symmetry. by apply Hne.
  - apply Hframe. inv_done. unfold applyCrossMessages, mint_to_gateway in *. inv_done. destruct (negb _); inv_done.
    match goal with G : applyMessages _ _ _ _ = _ |- _ => apply applyMessages_down in G as Hf end.
    + etrans; [|exact Hf]. by apply frame_same.
    + eapply Forall_impl; [exact Hother|]. intros m [Hto Hfrom]. by apply arriving_down.
Qed.
End gap.

(** ** How a gap comes about *)

Section overtaken.
Context `{MessageEnv, !IdHashLaws, SubmitEnv, ActorEnv, CheckpointGateway, !CheckpointGatewayLaws}.

(** The network of the gateway, the subnet actor, and the checkpoints of the subnet: their messages leave the subnet, and are
    numbered in the order of the heights, as the gateway of the child does. *)
Variables (name : SubnetID) (a : Address) (of_child : BottomUpCheckpoint → Prop).
Hypothesis (name_given : isEmptyId name = false).
Hypothesis (child_leaving : ∀ c m, of_child c → m ∈ cp_msgs c →
  below (createSubnetId name a) (subnetId (from m)) ∧ ¬ below (createSubnetId name a) (subnetId (to m))).
Hypothesis (child_ordered : ∀ c c' m m', of_child c → of_child c' → cp_blockHeight c < cp_blockHeight c' →
  m ∈ cp_msgs c → m' ∈ cp_msgs c' → nonce m < nonce m').
Abbreviation k := (hash_id (createSubnetId name a)).

(** What happens on the parent: a checkpoint of the subnet is submitted, which the actor accepts and hands on to the gateway; the actor or the
    gateway are called otherwise; or funds move elsewhere. *)
Inductive parent_step : Submissions * Gateway → Submissions * Gateway → Prop :=
| ps_submit block c signatories signatures x y s s' g g' :
    of_child c → submitCheckpoint c signatories signatures s = Done (x, s') → commitCheckpoint block a c g = Done (y, g') →
    parent_step (s, g) (s', g')
| ps_actor w s g : same_params (sm_world s) w →
    parent_step (s, g) (MkSubmissions w (lastBottomUpCheckpointHeight s) (committedCheckpoints s), g)
| ps_gateway block o x s g g' : other_call a g o → perform block o g = Done (x, g') → parent_step (s, g) (s, g')
| ps_elsewhere b s g : parent_step (s, g) (s, set_balances b g).

(** A batch of the subnet has been overtaken, with a message that the gateway has not executed. *)
Record overtaken (b : BottomUpCheckpoint) (m : IpcEnvelope) (p : Submissions * Gateway) : Prop := {
  ov_child : of_child b;
  ov_message : m ∈ cp_msgs b;
  ov_height : cp_blockHeight b ≤ lastBottomUpCheckpointHeight p.1;
  ov_missing : applied k p.2 ≤ nonce m;
  ov_named : named p.2;
  ov_name : networkName p.2 = name
}.

(** The messages of what can still be submitted are out of turn. *)
Lemma later_out_of_turn b m c signatories signatures x p s' :
  overtaken b m p → of_child c → submitCheckpoint c signatories signatures p.1 = Done (x, s') →
  lastBottomUpCheckpointHeight p.1 ≤ lastBottomUpCheckpointHeight s' ∧
  Forall (λ m', applyType m' (networkName p.2) = BottomUp ∧ applied k p.2 < nonce m') (cp_msgs c).
Proof.
  intros [Hb Hm Hh Ha _ Hname] Hc Hr. apply submit_inv in Hr as ((e & _ & Hlt & _)%ensure_inv & _ & _ & -> & _).
  split; [lia|]. apply Forall_forall. intros m' Hm'. rewrite Hname. destruct (child_leaving c m' Hc Hm') as [Hfrom Hto].
  split; [by apply (leaving_up m' name a)|]. eapply N.le_lt_trans; [exact Ha|]. apply (child_ordered b c m m'); try done. lia.
Qed.

Lemma submission_moves_nothing b m block c signatories signatures x y p s' g' :
  overtaken b m p → of_child c → submitCheckpoint c signatories signatures p.1 = Done (x, s') →
  commitCheckpoint block a c p.2 = Done (y, g') →
  overtaken b m (s', g') ∧ applied k g' = applied k p.2 ∧ balances g' = balances p.2.
Proof.
  intros Ho Hc Hs Hg. destruct (later_out_of_turn _ _ _ _ _ _ _ _ Ho Hc Hs) as [Hle Hout]. destruct Ho as [Hb Hm Hh Ha Hn Hname].
  destruct (commit_frame block a c p.2 y g' Hn Hg) as [_ Hf]. rewrite Hname in Hf.
  destruct Hf as [[Hfr Hn'] Hbal]; [by rewrite Hname in Hout|].
  split_and!; [|apply Hfr|done]. split; cbn [fst snd]; try done; [lia|by rewrite (proj1 (Hfr _))| |congruence].
  intros h. rewrite (proj2 (Hfr h)). apply Hn.
Qed.

Lemma overtaken_step b m p p' : parent_step p p' → overtaken b m p → overtaken b m p' ∧ applied k p'.2 = applied k p.2.
Proof.
  intros Hstep Ho. destruct Hstep as [block c l sigs x y s s' g g' Hc Hs Hg|w s g Hw|block o x s g g' Ho' Hr|f s g]; cbn [fst snd] in *.
  - destruct (submission_moves_nothing b m block c l sigs x y (s, g) s' g' Ho Hc Hs Hg) as (? & ? & _). done.
  - split; [|done]. destruct Ho. by split.
  - destruct Ho as [Hb Hm Hh Ha Hn Hname]. cbn [fst snd] in *. pose proof (perform_other block o g x g' a) as Hp. rewrite Hname in Hp.
    destruct (Hp name_given Hn Ho' Hr) as (Ha' & Hname' & Hn'). split; [|done]. split; cbn [fst snd]; try done. by rewrite Ha'.
  - split; [|done]. destruct Ho. by split.
Qed.

Lemma overtaken_steps b m p p' : rtc parent_step p p' → overtaken b m p → overtaken b m p' ∧ applied k p'.2 = applied k p.2.
Proof.
  induction 1 as [|p1 p2 p3 Hstep _ IH]; [done|]. intros Ho. destruct (overtaken_step _ _ _ _ Hstep Ho) as [Ho2 Ha2].
  destruct (IH Ho2) as [Ho3 Ha3]. split; [done|congruence].
Qed.

(** C34: once a batch of a subnet's bottom-up messages has been overtaken by a later checkpoint, whatever is called, as long as the
    subnet is not killed and it submits checkpoints of its own, the number that the parent's gateway waits for stays the same; the batch is not
    accepted any more; and no checkpoint of the subnet that is accepted moves any funds: none of its messages is executed. *)
Theorem gap_blocks_forever b m p p' :
  overtaken b m p → rtc parent_step p p' →
  applied k p'.2 = applied k p.2 ∧
  (∀ signatories signatures x s', submitCheckpoint b signatories signatures p'.1 ≠ Done (x, s')) ∧
  ∀ block c signatories signatures x y s' g', of_child c →
    submitCheckpoint c signatories signatures p'.1 = Done (x, s') → commitCheckpoint block a c p'.2 = Done (y, g') →
    balances g' = balances p'.2 ∧ applied k g' = applied k p.2.
Proof.
  intros Ho Hsteps. destruct (overtaken_steps b m p p' Hsteps Ho) as [Ho' Ha]. split_and!; [done|..].
  - intros l sigs x s' Hr. pose proof (ov_height _ _ _ Ho'). apply submit_inv in Hr as ((e & _ & Hlt & _)%ensure_inv & _). lia.
  - intros block c l sigs x y s' g' Hc Hs Hg.
    destruct (submission_moves_nothing b m block c l sigs x y p' s' g' Ho' Hc Hs Hg) as (_ & Ha' & Hb'). split; [done|congruence].
Qed.
End overtaken.

Module SampleGap.
Import SampleNetwork SampleSubmission.

(** A batch of the child was cut at the height 5, with the withdrawal of 45 with the number 0.  The one with the number 1 comes in the
    checkpoint of the height 20.  The parent has taken that of the height 10, and has not had the batch. *)
Definition late (n : N) : IpcEnvelope :=
  let m := withdrawal native_net 5 (subnet_at native_net (@hash_id (@env_hash_id native_env) (createSubnetId root 5)))
    (fvm_from 8) (fvm_from 9) 45 in
  with_nonce n m.
Definition batch5 : BottomUpCheckpoint := MkCheckpoint (createSubnetId root 5) 5 [] 0 [late 0].
Definition checkpoint20 : BottomUpCheckpoint := MkCheckpoint (createSubnetId root 5) 20 [] 0 [late 1].
Definition checkpoint30 : BottomUpCheckpoint := MkCheckpoint (createSubnetId root 5) 30 [] 0 [late 2].
Definition sample_of (c : BottomUpCheckpoint) : Prop := c ∈ [batch5; checkpoint20; checkpoint30].
#[local] Existing Instance native_env.

Definition parent0 : Submissions * Gateway := (after_submission, native_net).
Definition submitted (c : BottomUpCheckpoint) (p : Submissions * Gateway) : Submissions * Gateway :=
  match submitCheckpoint c [1; 2; 3] [[x01]; [x02]; [x03]] p.1, commitCheckpoint 11 5 c p.2 with
  | Done (_, s), Done (_, g) => (s, g)
  | _, _ => p
  end.
Definition parent1 : Submissions * Gateway := submitted checkpoint20 parent0.

Lemma sample_leaving c m : sample_of c → m ∈ cp_msgs c →
  below (createSubnetId root 5) (subnetId (from m)) ∧ ¬ below (createSubnetId root 5) (subnetId (to m)).
Proof.
  intros Hc Hm. assert (∃ n, m = late n) as [n ->].
  { unfold sample_of in Hc. rewrite !elem_of_cons in Hc. destruct Hc as [->|[->|[->|[]%not_elem_of_nil]]];
      apply list_elem_of_singleton in Hm as ->; by eexists. }
  split; [split; [done|by exists []]|]. intros [_ [x Hx]]. by vm_compute in Hx.
Qed.
Lemma sample_ordered c c' m m' : sample_of c → sample_of c' → cp_blockHeight c < cp_blockHeight c' →
  m ∈ cp_msgs c → m' ∈ cp_msgs c' → nonce m < nonce m'.
Proof.
  intros Hc Hc' Hlt Hm Hm'. unfold sample_of in *. rewrite !elem_of_cons in Hc, Hc'.
  destruct Hc as [->|[->|[->|[]%not_elem_of_nil]]], Hc' as [->|[->|[->|[]%not_elem_of_nil]]]; try done;
    apply list_elem_of_singleton in Hm as ->, Hm' as ->; by vm_compute.
Qed.

Lemma native_named : named native_net.
Proof.
  intros h. unfold subnet_at. destruct (subnets native_net !! h) as [s|] eqn:Hs; [|by left]. right.
  revert h s Hs. apply map_Forall_lookup. by apply (bool_decide_unpack _); vm_compute.
Qed.

Lemma sample_overtaken : overtaken root 5 sample_of batch5 (late 0) parent0.
Proof. split; [by left|by left|by vm_compute|by vm_compute|exact native_named|by vm_compute]. Qed.

Lemma succeeded {A} (o : outcome string (unit * A)) : is_done o = true → ∃ s, o = Done (tt, s).
Proof. destruct o as [[[] s]| | | |]; [by eexists|done..]. Qed.
Lemma sample_step : parent_step 5 sample_of parent0 parent1.
Proof.
  destruct (succeeded (submitCheckpoint checkpoint20 [1; 2; 3] [[x01]; [x02]; [x03]] parent0.1)) as [s Hs]; [by vm_compute|].
  destruct (succeeded (commitCheckpoint 11 5 checkpoint20 parent0.2)) as [g Hg]; [by vm_compute|].
  assert (parent1 = (s, g)) as -> by (unfold parent1, submitted; by rewrite Hs, Hg).
  eapply (ps_submit _ _ 11 checkpoint20 [1; 2; 3] [[x01]; [x02]; [x03]]); [right; by left|exact Hs|exact Hg].
Qed.

(** The funds of the withdrawals stay in the gateway. *)
Lemma gap_blocks_forever_witness :
  lastBottomUpCheckpointHeight parent1.1 = 20 ∧
  (∀ signatories signatures x s', submitCheckpoint batch5 signatories signatures parent1.1 ≠ Done (x, s')) ∧
  ∃ s g, submitCheckpoint checkpoint30 [1; 2; 3] [[x01]; [x02]; [x03]] parent1.1 = Done (tt, s) ∧
    commitCheckpoint 12 5 checkpoint30 parent1.2 = Done (tt, g) ∧ balance g 8 = 60 ∧ balance g 77 = 70.
Proof.
  destruct (gap_blocks_forever (H0 := sample_hash _) root 5 sample_of eq_refl sample_leaving sample_ordered batch5 (late 0) parent0 parent1
    sample_overtaken (rtc_once _ _ sample_step)) as (_ & Hrefused & Hnothing).
  split; [by vm_compute|]. split; [exact Hrefused|].
  destruct (succeeded (submitCheckpoint checkpoint30 [1; 2; 3] [[x01]; [x02]; [x03]] parent1.1)) as [s Hs]; [by vm_compute|].
  destruct (succeeded (commitCheckpoint 12 5 checkpoint30 parent1.2)) as [g Hg]; [by vm_compute|].
  exists s, g. split; [exact Hs|]. split; [exact Hg|].
  destruct (Hnothing 12 checkpoint30 [1; 2; 3] [[x01]; [x02]; [x03]] tt tt s g) as [Hb _]; [by right; right; left|exact Hs|exact Hg|].
  unfold balance. rewrite Hb. split; vm_compute; reflexivity.
Defined.

(** *** Before and after *)

(** A full batch of ten messages is accepted before the checkpoint of the period, and refused after it, though it has the signatures of a quorum. *)
Definition full_batch : BottomUpCheckpoint := MkCheckpoint (MkID 314 [50]) 5 [] 0 (replicate 10 (late 0)).

Example batch_before_epoch :
  match submitCheckpoint full_batch [1; 2; 3] [[x01]; [x02]; [x03]] before_submission with Done _ => True | _ => False end.
Proof. by vm_compute. Qed.
Example batch_overtaken :
  submitCheckpoint full_batch [1; 2; 3] [[x01]; [x02]; [x03]] after_submission = Fail "BottomUpCheckpointAlreadySubmitted"%string.
Proof. by vm_compute. Qed.
End SampleGap.
