(* ===== verification/Relayer.v ===== *)
(** * The checkpoint relayer

    [ipc/provider/src/checkpoint.rs]: the daemon that brings checkpoints with a quorum from the child to
    the parent.  Every round it looks for the quorums that were reached since the last checkpoint that the
    parent has, and submits the checkpoints in tasks that run next to each other, as many at a time
    as there are permits.  In which order tasks and main loop go on is a schedule.  The chains are the interface
    [Relayer], with the contracts of [contracts/src] behind the calls of [manager/evm/manager.rs]. *)

From Stdlib Require Import Strings.Byte.
From stdpp Require Import pretty.
From S2P Require Import Prelude Weights PQ ValidatorSet Abi SolIds Messages Staking GatewayFinality SubnetActor Submission Quorum.

(** ** Data *)

(** [ChainEpoch] is an [i64]. *)
Definition ChainEpoch : Type := Z.
Definition i64_sub `{Profile} {E} (a b : Z) : outcome E Z :=
  let d := (a - b)%Z in
  if bool_decide (- 9223372036854775808 ≤ d < 9223372036854775808)%Z then Done d
  else if overflow_checks then Panic else Done ((d + 9223372036854775808) mod 18446744073709551616 - 9223372036854775808)%Z.
Definition i64_add `{Profile} {E} (a b : Z) : outcome E Z :=
  let d := (a + b)%Z in
  if bool_decide (- 9223372036854775808 ≤ d < 9223372036854775808)%Z then Done d
  else if overflow_checks then Panic else Done ((d + 9223372036854775808) mod 18446744073709551616 - 9223372036854775808)%Z.

Record QuorumReachedEvent := MkEvent {
  obj_kind : N;
  ev_height : ChainEpoch;
  obj_hash : N;
  quorum_weight : N
}.

Record BottomUpCheckpointBundle := MkBundle {
  bundle_checkpoint : BottomUpCheckpoint;
  bundle_signatures : list (list byte);
  bundle_signatories : list N
}.

(** [BottomUpCheckpointRelayer]: what is asked of a chain. *)
Class Relayer (S : Type) := {
  submit_checkpoint : BottomUpCheckpointBundle → stm S string ChainEpoch;
  last_bottom_up_checkpoint_height : S → outcome string ChainEpoch;
  checkpoint_period : S → outcome string ChainEpoch;
  checkpoint_bundle_at : ChainEpoch → S → outcome string (option BottomUpCheckpointBundle);
  quorum_reached_events : ChainEpoch → S → outcome string (list QuorumReachedEvent);
  current_epoch : S → outcome string ChainEpoch
}.

(** ** A round

    Where the main loop is: at the start; at a height with the events that are left; waiting for a permit;
    waiting for the tasks; or done. *)
Abbreviation Task := (BottomUpCheckpointBundle * QuorumReachedEvent)%type.

Inductive Main :=
| Start
| Scanning (last finalized h : ChainEpoch) (events : list QuorumReachedEvent)
| Acquiring (last finalized h : ChainEpoch) (task : Task) (events : list QuorumReachedEvent)
| Joining
| Finished (r : string + unit)
| Crashed.

(** The main loop, its tasks, those that it has left behind, whether one of its own has panicked, and the chains. *)
Record Relay (P C : Type) := MkRelay {
  main : Main;
  mine : list Task;
  detached : list Task;
  panicked : bool;
  parent_chain : P;
  child_chain : C
}.
Arguments MkRelay {P C} _ _ _ _ _ _.
Arguments main {P C} _.
Arguments mine {P C} _.
Arguments detached {P C} _.
Arguments panicked {P C} _.
Arguments parent_chain {P C} _.
Arguments child_chain {P C} _.

(** [BottomUpCheckpointManager]: how many blocks it takes until a block is final, and the number of permits. *)
Record Manager := MkManager { finalization_blocks : ChainEpoch; max_parallelism : nat; period : ChainEpoch }.

Definition manager_new `{Relayer P} (max_parallelism : nat) (parent : P) : outcome string Manager :=
  period ← map_err (λ e, "cannot get bottom up checkpoint period: " +:+ e)%string (checkpoint_period parent);
  Done (MkManager 0%Z max_parallelism period).
Definition with_finalization_blocks (n : ChainEpoch) (m : Manager) : Manager := MkManager n (max_parallelism m) (period m).

Inductive Choice (P : Type) := MainLoop | RunTask (i : nat) | Elsewhere (p : P).
Arguments MainLoop {P}.
Arguments RunTask {P} _.
Arguments Elsewhere {P} _.

Section relayer.
Context `{Profile, !Relayer P, !Relayer C} (m : Manager).
Abbreviation Relay := (Relay P C).

Definition goto (s : Main) (r : Relay) : Relay := MkRelay s (mine r) (detached r) (panicked r) (parent_chain r) (child_chain r).

(** An early return leaves the tasks running. *)
Definition return_err (e : string) (r : Relay) : Relay :=
  MkRelay (Finished (inl e)) [] (detached r ++ mine r) false (parent_chain r) (child_chain r).
Definition query {A} (o : outcome string A) (k : A → Relay) (r : Relay) : Relay :=
  match o with
  | Done a => k a
  | Fail e => return_err e r
  | _ => goto Crashed r
  end.

(** The next thing that [submit_next_epoch] does, unless it has to wait. *)
Definition main_step (r : Relay) : option Relay :=
  match main r with
  | Start =>
      Some (query (map_err (λ e, "cannot obtain the last bottom up checkpoint height due to: " +:+ e)%string
                    (last_bottom_up_checkpoint_height (parent_chain r)))
        (λ last_checkpoint_epoch, query (current_epoch (child_chain r))
          (λ current_height, query (i64_sub current_height (finalization_blocks m))
            (λ d, let finalized_height := Z.max 1 d in
                  if bool_decide (finalized_height ≤ last_checkpoint_epoch)%Z then goto (Finished (inr tt)) r
                  else query (i64_add last_checkpoint_epoch 1)
                         (λ start, goto (Scanning last_checkpoint_epoch finalized_height start []) r) r) r) r) r)
  | Scanning last finalized h [] =>
      if bool_decide (h ≤ finalized)%Z then
        Some (query (quorum_reached_events h (child_chain r)) (λ events, goto (Scanning last finalized (h + 1)%Z events) r) r)
      else Some (goto Joining r)
  | Scanning last finalized h (event :: events) =>
      if bool_decide (ev_height event ≤ last)%Z then Some (goto (Scanning last finalized h events) r)
      else
        Some (query (checkpoint_bundle_at (ev_height event) (child_chain r))
          (λ bundle, match bundle with
                     | Some bundle => goto (Acquiring last finalized h (bundle, event) events) r
                     | None => return_err ("expected checkpoint at height " +:+ pretty (ev_height event) +:+ " but none found")%string r
                     end) r)
  | Acquiring last finalized h task events =>
      if bool_decide (length (mine r) + length (detached r) < max_parallelism m)%nat then
        Some (MkRelay (Scanning last finalized h events) (mine r ++ [task]) (detached r) (panicked r) (parent_chain r) (child_chain r))
      else None
  | Joining =>
      if panicked r then Some (return_err "task panicked" r)
      else if bool_decide (mine r = []) then Some (goto (Finished (inr tt)) r) else None
  | Finished _ | Crashed => None
  end.

(** [submit_checkpoint] in a task: an error is logged, and what happens to the chain is undone. *)
Definition submit_task (t : Task) (p : P) : P * bool :=
  match submit_checkpoint t.1 p with
  | Done (_, p) => (p, false)
  | Fail _ => (p, false)
  | _ => (p, true)
  end.

Definition task_step (i : nat) (r : Relay) : option Relay :=
  match mine r !! i with
  | Some t =>
      let '(p, panic) := submit_task t (parent_chain r) in
      Some (MkRelay (main r) (delete i (mine r)) (detached r) (panicked r || panic) p (child_chain r))
  | None =>
      let j := (i - length (mine r))%nat in
      match detached r !! j with
      | Some t => Some (MkRelay (main r) (mine r) (delete j (detached r)) (panicked r) (submit_task t (parent_chain r)).1 (child_chain r))
      | None => None
      end
  end.

Definition step (c : Choice P) (r : Relay) : option Relay :=
  match c with
  | MainLoop => main_step r
  | RunTask i => task_step i r
  | Elsewhere p => Some (MkRelay (main r) (mine r) (detached r) (panicked r) p (child_chain r))
  end.

Fixpoint run_schedule (cs : list (Choice P)) (r : Relay) : option Relay :=
  match cs with
  | [] => Some r
  | c :: cs => r ← step c r; run_schedule cs r
  end.

(** The next round of [run]. *)
Definition next_round (r : Relay) : Relay := MkRelay Start (mine r) (detached r) false (parent_chain r) (child_chain r).
End relayer.

(** ** Rounds *)

Section rounds.
Context `{Profile, !Relayer P, !Relayer C} (m : Manager) (c : C).
Abbreviation Relay := (Relay P C).
#[local] Open Scope Z_scope.

(** The child answers: its height, the events of every height, and the bundle of every event. *)
Context (current : Z) (evs : Z → list QuorumReachedEvent) (offered : Z → BottomUpCheckpointBundle).
Hypothesis (current_ok : current_epoch c = Done current).
Hypothesis (current_fits : 0 ≤ current - finalization_blocks m ∧ current < 9223372036854775807).
Hypothesis (blocks_fit : 0 ≤ finalization_blocks m).
Hypothesis (events_ok : ∀ h, quorum_reached_events h c = Done (evs h)).
Hypothesis (bundle_ok : ∀ h e, e ∈ evs h → checkpoint_bundle_at (ev_height e) c = Done (Some (offered (ev_height e)))).

(** The parent answers, and its last height only grows, whatever is submitted. *)
Context (inv : P → Prop) (height : P → Z).
Hypothesis (last_ok : ∀ p, inv p → last_bottom_up_checkpoint_height p = Done (height p) ∧ 0 ≤ height p < 9223372036854775807).
Hypothesis (submit_ok : ∀ p h e, inv p → e ∈ evs h →
  match submit_checkpoint (offered (ev_height e)) p with
  | Done (_, p') => inv p' ∧ height p ≤ height p'
  | Fail _ => True
  | _ => False
  end).

Definition finalized : Z := Z.max 1 (current - finalization_blocks m).

(** A step of the relayer, or of others on the parent. *)
Definition relay_step (r r' : Relay) : Prop :=
  ∃ ch, step m ch r = Some r' ∧ (∀ p, ch = Elsewhere p → inv p ∧ height (parent_chain r) ≤ height p).

Definition known (t : Task) : Prop := ∃ h e, e ∈ evs h ∧ t = (offered (ev_height e), e).
Definition expected (e : QuorumReachedEvent) : Prop := ∃ h, e ∈ evs h.

(** What holds all the time. *)
Record sound (r : Relay) : Prop := {
  so_child : child_chain r = c;
  so_inv : inv (parent_chain r);
  so_mine : Forall known (mine r);
  so_detached : Forall known (detached r);
  so_panic : panicked r = false;
  so_main : match main r with
            | Start => mine r = []
            | Joining => True
            | Scanning last fin h es => fin = finalized ∧ 0 ≤ h ∧ 0 ≤ last ≤ height (parent_chain r) ∧ Forall expected es
            | Acquiring last fin h t es => fin = finalized ∧ 0 ≤ h ∧ 0 ≤ last ≤ height (parent_chain r) ∧ known t ∧ Forall expected es
            | Finished x => x = inr tt ∧ mine r = []
            | Crashed => False
            end
}.

Lemma submit_known t p : inv p → known t → ∃ p', submit_task t p = (p', false) ∧ inv p' ∧ height p ≤ height p'.
Proof.
  intros Hp (h & e & He & ->). unfold submit_task. cbn [fst]. specialize (submit_ok p h e Hp He).
  destruct (submit_checkpoint _ p) as [[x p']|err| | |]; try done; eexists; (split; [done|]); [done|by split].
Qed.

Lemma finalized_ok : i64_sub (E:=string) current (finalization_blocks m) = Done (current - finalization_blocks m).
Proof. unfold i64_sub. rewrite bool_decide_eq_true_2; [done|lia]. Qed.

(** What the main loop does. *)
Lemma main_step_eq r r' :
  sound r → main_step m r = Some r' →
  match main r with
  | Start =>
      let last := height (parent_chain r) in
      r' = goto (if bool_decide (finalized ≤ last) then Finished (inr tt) else Scanning last finalized (last + 1) []) r
  | Scanning last fin h [] => r' = goto (if bool_decide (h ≤ fin) then Scanning last fin (h + 1) (evs h) else Joining) r
  | Scanning last fin h (e :: es) =>
      r' = goto (if bool_decide (ev_height e ≤ last) then Scanning last fin h es else Acquiring last fin h (offered (ev_height e), e) es) r
  | Acquiring last fin h t es => r' = MkRelay (Scanning last fin h es) (mine r ++ [t]) (detached r) (panicked r) (parent_chain r) (child_chain r)
  | Joining => mine r = [] ∧ r' = goto (Finished (inr tt)) r
  | Finished _ | Crashed => False
  end.
Proof.
  intros [Hc Hi Hm Hd Hp Hmain] Hstep. unfold main_step in Hstep. destruct (main r) as [|last fin h [|e es]|last fin h t es| |x|]; try done.
  - destruct (last_ok _ Hi) as [Hlast Hrange]. rewrite Hlast, Hc, current_ok in Hstep. cbn [map_err query] in Hstep.
    rewrite finalized_ok in Hstep. cbn [query] in Hstep. fold finalized in Hstep.
    assert (i64_add (E:=string) (height (parent_chain r)) 1 = Done (height (parent_chain r) + 1)) as Hadd.
    { unfold i64_add. rewrite bool_decide_eq_true_2; [done|lia]. }
    rewrite Hadd in Hstep. cbn [query] in Hstep. cbv zeta. destruct (bool_decide (finalized ≤ _)); congruence.
  - rewrite Hc, events_ok in Hstep. cbn [query] in Hstep. case_bool_decide; congruence.
  - destruct Hmain as (_ & _ & _ & He). apply Forall_cons in He as [[h' He] _]. case_bool_decide; [congruence|].
    rewrite Hc, (bundle_ok h' e He) in Hstep. cbn [query] in Hstep. congruence.
  - case_bool_decide; congruence.
  - rewrite Hp in Hstep. case_bool_decide; [|done]. split; [done|congruence].
Qed.

Lemma sound_main r r' : sound r → main_step m r = Some r' → sound r' ∧ parent_chain r' = parent_chain r.
Proof.
  intros Hs Hstep. pose proof (main_step_eq r r' Hs Hstep) as Heq. cbv zeta in Heq. destruct Hs as [Hc Hi Hm Hd Hp Hmain].
  destruct (last_ok _ Hi) as [_ Hrange]. destruct (main r) as [|last fin h [|e es]|last fin h t es| |x|]; try done.
  - subst r'. split; [|done]. split; try done. cbn. case_bool_decide; [done|]. split_and!; try done; lia.
  - subst r'. split; [|done]. split; try done. cbn. case_bool_decide; [|done]. destruct Hmain as (? & ? & ? & _). split_and!; try done; try lia.
    apply Forall_forall. intros e He. by exists h.
  - subst r'. split; [|done]. split; try done. cbn. destruct Hmain as (? & ? & ? & He). apply Forall_cons in He as [[h' He] Hes].
    case_bool_decide; split_and!; try done; try lia. by exists h', e.
  - subst r'. split; [|done]. destruct Hmain as (? & ? & ? & Ht & Hes). split; try done. cbn. apply Forall_app. split; [done|by constructor].
  - destruct Heq as [Hnil ->]. split; [|done]. by split.
Qed.

Lemma elem_delete {A} (x : A) i (l : list A) : x ∈ delete i l → x ∈ l.
Proof. intros Hx. eapply elem_of_submseteq; [exact Hx|]. apply sublist_submseteq, sublist_delete. Qed.
Lemma Forall_delete {A} (Q : A → Prop) i (l : list A) : Forall Q l → Forall Q (delete i l).
Proof. rewrite !Forall_forall. intros Hall x Hx. by eapply Hall, elem_delete. Qed.

Lemma task_step_cases i r r' :
  sound r → task_step i r = Some r' →
  ∃ t p', (t ∈ mine r ∨ t ∈ detached r) ∧ submit_task t (parent_chain r) = (p', false) ∧ inv p' ∧ height (parent_chain r) ≤ height p' ∧
    ((mine r !! i = Some t ∧ r' = MkRelay (main r) (delete i (mine r)) (detached r) false p' c) ∨
     (∃ j, detached r !! j = Some t ∧ r' = MkRelay (main r) (mine r) (delete j (detached r)) false p' c)).
Proof.
  intros [Hc Hi Hm Hd Hp _] Hstep. unfold task_step in Hstep. rewrite Forall_forall in Hm, Hd.
  destruct (mine r !! i) as [t|] eqn:Ht.
  - pose proof (list_elem_of_lookup_2 _ _ _ Ht) as Hin. destruct (submit_known t _ Hi (Hm t Hin)) as (p' & Hsub & Hip & Hle).
    exists t, p'. rewrite Hsub, Hp, Hc in Hstep. injection Hstep as <-. split_and!; auto.
  - set (j := (i - length (mine r))%nat) in *. destruct (detached r !! j) as [t|] eqn:Hj; [|done].
    pose proof (list_elem_of_lookup_2 _ _ _ Hj) as Hin. destruct (submit_known t _ Hi (Hd t Hin)) as (p' & Hsub & Hip & Hle).
    exists t, p'. rewrite Hsub, Hp, Hc in Hstep. injection Hstep as <-. split_and!; eauto.
Qed.

Lemma sound_parent r p' :
  sound r → inv p' → height (parent_chain r) ≤ height p' → ∀ mine' detached', (∀ t, t ∈ mine' → t ∈ mine r) → Forall known detached' →
  sound (MkRelay (main r) mine' detached' false p' c).
Proof.
  intros [Hc Hi Hm Hd Hp Hmain] Hi' Hle mine' detached' Hsub Hd'. split; try done.
  - rewrite Forall_forall in *. auto.
  - assert (mine r = [] → mine' = []) as Hnil. { intros Hn. destruct mine' as [|t mine']; [done|]. specialize (Hsub t). rewrite Hn in Hsub. set_solver. }
    cbn. destruct (main r); naive_solver lia.
Qed.

Lemma sound_step r r' : relay_step r r' → sound r → sound r' ∧ height (parent_chain r) ≤ height (parent_chain r').
Proof.
  intros (ch & Hstep & Hother) Hs. destruct ch as [|i|p]; cbn [step] in Hstep.
  - destruct (sound_main r r' Hs Hstep) as [? ->]. by split.
  - destruct (task_step_cases i r r' Hs Hstep) as (t & p' & _ & _ & Hi' & Hle & [(Hi & ->)|(j & Hj & ->)]); (split; [|done]).
    + apply sound_parent; try done; [|apply Hs]. intros x Hx. by eapply elem_delete.
    + apply sound_parent; try done. apply Forall_delete, Hs.
  - injection Hstep as <-. destruct (Hother p eq_refl) as [Hi' Hle]. split; [|done].
    rewrite (so_child _ Hs), (so_panic _ Hs). apply sound_parent; try done. apply Hs.
Qed.

(** *** What a round achieves *)

(** What the parent waits for: the next multiple of the period. *)
Context (per top : Z).
Hypothesis (period_pos : 0 < per).
Definition next_due (h : Z) : Z := (h / per + 1) * per.
Hypothesis (next_accepted : ∀ p, inv p → next_due (height p) ≤ top →
  ∃ x p', submit_checkpoint (offered (next_due (height p))) p = Done (x, p') ∧ next_due (height p) ≤ height p').
(** Up to a height every checkpoint has reached its quorum in a later block that is final. *)
Hypothesis (reached_all : ∀ k, 0 < k * per ≤ top → ∃ h e, k * per < h ≤ finalized ∧ e ∈ evs h ∧ ev_height e = k * per).

Lemma next_due_stable h h' : h ≤ h' < next_due h → next_due h' = next_due h.
Proof.
  unfold next_due. intros Hh. f_equal. f_equal. pose proof (Z.div_mod h per ltac:(lia)). pose proof (Z.mod_pos_bound h per ltac:(lia)).
  symmetry. apply (Z.div_unique_pos h' per (h / per) (h' - per * (h / per))); lia.
Qed.
Lemma next_due_gt h : h < next_due h.
Proof. unfold next_due. pose proof (Z.div_mod h per ltac:(lia)). pose proof (Z.mod_pos_bound h per ltac:(lia)). lia. Qed.

Section one_round.
Context (h0 : Z).
Hypothesis (h0_pos : 0 ≤ h0).
Hypothesis (h0_below : next_due h0 ≤ top).
Abbreviation due := (next_due h0).

Definition later_event (h : Z) : Prop := ∃ h' e, h ≤ h' ≤ finalized ∧ e ∈ evs h' ∧ ev_height e = due.
Definition ahead (r : Relay) : Prop :=
  match main r with
  | Start => True
  | Scanning last _ h es => last < due ∧ ((∃ e, e ∈ es ∧ ev_height e = due) ∨ later_event h)
  | Acquiring last _ h t es => last < due ∧ (ev_height t.2 = due ∨ (∃ e, e ∈ es ∧ ev_height e = due) ∨ later_event h)
  | _ => False
  end.
(** The checkpoint that is due is on its way: the parent has it, a task has it, or it is still to come. *)
Definition on_its_way (r : Relay) : Prop :=
  h0 ≤ height (parent_chain r) ∧
  (due ≤ height (parent_chain r) ∨ (∃ t, t ∈ mine r ∧ ev_height t.2 = due) ∨ ahead r).

Lemma due_event : later_event (due + 1).
Proof.
  destruct (reached_all (h0 / per + 1)) as (h & e & Hh & He & Hev).
  { pose proof (next_due_gt h0). unfold next_due in *. lia. }
  exists h, e. split_and!; [|lia|done|done]. unfold next_due. lia.
Qed.

Lemma ahead_step r r' :
  sound r → main_step m r = Some r' → h0 ≤ height (parent_chain r) → ahead r →
  due ≤ height (parent_chain r') ∨ (∃ t, t ∈ mine r' ∧ ev_height t.2 = due) ∨ ahead r'.
Proof.
  intros Hs Hstep Hh0 Ha. pose proof (main_step_eq r r' Hs Hstep) as Heq. cbv zeta in Heq. unfold ahead in Ha.
  destruct (main r) as [|last fin h [|e es]|last fin h t es| |x|] eqn:Hmain; try done.
  - subst r'. cbn. destruct (decide (due ≤ height (parent_chain r))) as [|Hlt]; [by left|]. right; right.
    destruct due_event as (h & e & Hh & He). unfold ahead. cbn. rewrite bool_decide_eq_false_2 by lia. split; [lia|].
    right. exists h, e. split; [lia|done].
  - subst r'. right; right. pose proof (so_main _ Hs) as Hm. rewrite Hmain in Hm. destruct Hm as (-> & _).
    destruct Ha as [Hl [(e & []%not_elem_of_nil & _)|(h' & e & Hh & He & Hev)]]. unfold ahead. cbn. rewrite bool_decide_eq_true_2 by lia.
    split; [done|]. destruct (decide (h' = h)) as [->|]; [left; by exists e|right]. exists h', e. split; [lia|done].
  - subst r'. right; right. unfold ahead. cbn. destruct Ha as [Hl Hin].
    case_bool_decide as Hle; cbn; (split; [done|]).
    + destruct Hin as [(e' & [->|Hin]%elem_of_cons & He')|]; [lia|left; by exists e'|by right].
    + destruct Hin as [(e' & [->|Hin]%elem_of_cons & He')|]; [by left|right; left; by exists e'|by right; right].
  - subst r'. right. cbn. destruct Ha as [Hl [Ht|Ha]]; [left; exists t; split; [set_solver|done]|right]. by split.
Qed.

Lemma on_its_way_step r r' : relay_step r r' → sound r → on_its_way r → on_its_way r'.
Proof.
  intros Hrs Hs [Hh0 Hway]. destruct (sound_step r r' Hrs Hs) as [_ Hle]. split; [lia|].
  destruct Hway as [Hdone|Hway]; [left; lia|]. destruct Hrs as (ch & Hstep & _). destruct ch as [|i|p]; cbn [step] in Hstep.
  - destruct Hway as [(t & Ht & Hev)|Ha]; [|by eapply ahead_step].
    right; left. exists t. split; [|done]. pose proof (main_step_eq r r' Hs Hstep) as Heq. cbv zeta in Heq.
    destruct (main r) as [|last fin h [|e es]|last fin h t' es| |x|]; try done; try (by subst r'); [subst r'; set_solver|].
    destruct Heq as [Hnil _]. rewrite Hnil in Ht. set_solver.
  - destruct (task_step_cases i r r' Hs Hstep) as (t & p' & _ & Hsub & _ & _ & [(Hi & ->)|(j & _ & ->)]); cbn [parent_chain mine].
    + destruct Hway as [(t' & Ht' & Hev)|Ha]; [|by right; right].
      destruct (decide (due ≤ height p')) as [|Hlt]; [by left|]. right; left. exists t'. split; [|done].
      apply list_elem_of_lookup in Ht' as [k Hk]. destruct (decide (k = i)) as [->|Hne].
      * exfalso. apply Hlt. rewrite Hk in Hi. injection Hi as ->. cbn in Hle.
        pose proof (so_mine _ Hs) as Hm. rewrite Forall_lookup in Hm. destruct (Hm i t Hk) as (h & e & He & ->). cbn in Hev.
        assert (next_due (height (parent_chain r)) = due) as Hdue by (apply next_due_stable; lia).
        destruct (next_accepted (parent_chain r) (so_inv _ Hs) ltac:(lia)) as (x & p2 & Hacc & Hp2).
        rewrite Hdue in *. unfold submit_task in Hsub. cbn [fst] in Hsub. rewrite Hev, Hacc in Hsub. injection Hsub as <-. done.
      * apply list_elem_of_lookup_2 with (i := if decide (k < i)%nat then k else pred k). case_decide.
        -- by rewrite list_lookup_delete_lt.
        -- rewrite list_lookup_delete_ge by lia. by replace (S (pred k)) with k by lia.
    + by right.
  - by injection Hstep as <-; right.
Qed.
End one_round.

Lemma sound_steps r r' : rtc relay_step r r' → sound r → sound r' ∧ height (parent_chain r) ≤ height (parent_chain r').
Proof.
  induction 1 as [r|r1 r2 r3 Hstep _ IH]; intros Hs; [split; [done|lia]|].
  destruct (sound_step _ _ Hstep Hs) as [Hs2 Hle]. destruct (IH Hs2). split; [done|lia].
Qed.

(** A round that ends has brought the checkpoint that was due. *)
Lemma round_achieves r r' x :
  sound r → main r = Start → rtc relay_step r r' → main r' = Finished x →
  next_due (height (parent_chain r)) ≤ top → next_due (height (parent_chain r)) ≤ height (parent_chain r').
Proof.
  intros Hs Hstart Hsteps Hfin Hdue. set (h0 := height (parent_chain r)) in *.
  assert (0 ≤ h0) as Hpos by (destruct (last_ok _ (so_inv _ Hs)); lia).
  assert (on_its_way h0 r) as Hway. { split; [done|]. right; right. unfold ahead. by rewrite Hstart. }
  assert (sound r' ∧ on_its_way h0 r') as [Hs' [_ Hway']].
  { clear Hstart Hfin. clearbody h0. induction Hsteps as [r|r1 r2 r3 Hstep _ IH]; [done|].
    apply IH; [by eapply sound_step|by eapply on_its_way_step]. }
  destruct Hway' as [|[(t & Ht & _)|Ha]]; [done|..].
  - pose proof (so_main _ Hs') as Hm. rewrite Hfin in Hm. destruct Hm as [_ Hm]. rewrite Hm in Ht. set_solver.
  - unfold ahead in Ha. by rewrite Hfin in Ha.
Qed.

(** Several rounds, one after the other. *)
Inductive rounds : nat → Relay → Relay → Prop :=
| rounds_none r : rounds 0 r r
| rounds_more n r r1 r2 x : rtc relay_step (next_round r) r1 → main r1 = Finished x → rounds n r1 r2 → rounds (S n) r r2.

Lemma next_round_sound r x : sound r → main r = Finished x → sound (next_round r).
Proof. intros [Hc Hi Hm Hd Hp Hmain] Hf. rewrite Hf in Hmain. destruct Hmain as [_ Hnil]. by split. Qed.

Lemma rounds_achieve n r r' x :
  top mod per = 0 → sound r → main r = Finished x → rounds n r r' →
  Z.min top ((height (parent_chain r) / per + Z.of_nat n) * per) ≤ height (parent_chain r').
Proof.
  intros Htop Hs Hf Hr. revert x Hs Hf. induction Hr as [r|n r r1 r2 y Hsteps Hf1 _ IH]; intros x Hs Hf.
  { pose proof (Z.mul_div_le (height (parent_chain r)) per ltac:(lia)). lia. }
  pose proof (next_round_sound r x Hs Hf) as Hs0. destruct (sound_steps _ _ Hsteps Hs0) as [Hs1 Hle].
  specialize (IH y Hs1 Hf1). cbn [parent_chain next_round] in Hle. set (h := height (parent_chain r)) in *. set (h1 := height (parent_chain r1)) in *.
  pose proof (Z.mul_div_le h per ltac:(lia)) as Hq. pose proof (Z.div_mod top per ltac:(lia)) as Ht. rewrite Htop, Z.add_0_r in Ht.
  destruct (decide (next_due h ≤ top)) as [Hd|Hd].
  - pose proof (round_achieves _ _ _ Hs0 eq_refl Hsteps Hf1 Hd) as Hach. cbn [parent_chain next_round] in Hach. fold h h1 in Hach.
    assert (h / per + 1 ≤ h1 / per) as Hk by (apply Z.div_le_lower_bound; unfold next_due in Hach; lia).
    pose proof (Z.mul_le_mono_nonneg_r (h / per + Z.of_nat (S n)) (h1 / per + Z.of_nat n) per ltac:(lia) ltac:(lia)). lia.
  - assert (top / per ≤ h / per) as Hk.
    { destruct (decide (top / per ≤ h / per)) as [|Hgt]; [done|]. destruct Hd. unfold next_due. rewrite Ht, (Z.mul_comm per). apply Z.mul_le_mono_nonneg_r; lia. }
    pose proof (Z.mul_le_mono_nonneg_l _ _ per ltac:(lia) Hk) as Hkp.
    pose proof (Z.div_le_mono top h1 per ltac:(lia) ltac:(lia)) as Hk1.
    pose proof (Z.mul_le_mono_nonneg_r (top / per) (h1 / per + Z.of_nat n) per ltac:(lia) ltac:(lia)) as Hkn. rewrite (Z.mul_comm (top / per)) in Hkn. lia.
Qed.

(** *** Rounds end *)

Fixpoint cost (n : nat) (h : Z) : nat :=
  match n with
  | O => 0
  | S n => S (3 * length (evs h) + cost n (h + 1))
  end.
Definition cost_from (h : Z) : nat := cost (Z.to_nat (finalized + 1 - h)) h.

(** What is left to do in a round, the others aside. *)
Definition work (r : Relay) : nat :=
  (match main r with
   | Start => 3 + cost_from 0
   | Scanning _ _ h es => 2 + 3 * length es + cost_from h
   | Acquiring _ _ h _ es => 4 + 3 * length es + cost_from h
   | Joining => 1
   | Finished _ | Crashed => 0
   end + length (mine r) + length (detached r))%nat.

Lemma cost_from_step h : h ≤ finalized → cost_from h = S (3 * length (evs h) + cost_from (h + 1)).
Proof.
  intros Hh. unfold cost_from. replace (Z.to_nat (finalized + 1 - h)) with (S (Z.to_nat (finalized + 1 - (h + 1)))) by lia. done.
Qed.
Lemma cost_from_le k h : (cost_from (h + Z.of_nat k) ≤ cost_from h)%nat.
Proof.
  induction k as [|k IH]; [by rewrite Z.add_0_r|]. etrans; [|exact IH]. set (h' := h + Z.of_nat k).
  replace (h + Z.of_nat (S k)) with (h' + 1) by lia.
  destruct (decide (h' ≤ finalized)) as [Hle|Hgt]; [rewrite (cost_from_step h') by done; lia|].
  unfold cost_from. replace (Z.to_nat (finalized + 1 - (h' + 1))) with 0%nat by lia. cbn. lia.
Qed.

Definition own (ch : Choice P) : Prop := match ch with Elsewhere _ => False | _ => True end.

Lemma work_decreases ch r r' : sound r → own ch → step m ch r = Some r' → (work r' < work r)%nat.
Proof.
  intros Hs Hown Hstep. destruct ch as [|i|]; [| |done]; cbn [step] in Hstep.
  - pose proof (main_step_eq r r' Hs Hstep) as Heq. cbv zeta in Heq. pose proof (so_main _ Hs) as Hm. unfold work.
    destruct (last_ok _ (so_inv _ Hs)) as [_ Hrange].
    destruct (main r) as [|last fin h [|e es]|last fin h t es| |x|]; try done.
    + subst r'. cbn. case_bool_decide; [lia|]. cbn [length].
      pose proof (cost_from_le (Z.to_nat (height (parent_chain r) + 1)) 0) as Hc.
      replace (0 + Z.of_nat (Z.to_nat (height (parent_chain r) + 1))) with (height (parent_chain r) + 1) in Hc by lia. lia.
    + subst r'. cbn. destruct Hm as (-> & _). case_bool_decide; [rewrite (cost_from_step h) by done; lia|lia].
    + subst r'. cbn. case_bool_decide; lia.
    + subst r'. cbn. rewrite length_app. cbn. lia.
    + destruct Heq as [_ ->]. cbn. lia.
  - destruct (task_step_cases i r r' Hs Hstep) as (t & p' & _ & _ & _ & _ & [(Hi & ->)|(j & Hj & ->)]); unfold work; cbn [main mine detached].
    + apply lookup_lt_Some in Hi as Hlt. rewrite length_delete by done. lia.
    + apply lookup_lt_Some in Hj as Hlt. rewrite length_delete by done. lia.
Qed.

Lemma task_enabled (r : Relay) : mine r ++ detached r ≠ [] → ∃ r', task_step 0 r = Some r'.
Proof.
  unfold task_step. destruct (mine r) as [|t ts]; cbn.
  - destruct (detached r) as [|t ts]; [done|]. eauto.
  - destruct (submit_task t (parent_chain r)). eauto.
Qed.

Lemma never_stuck (r : Relay) :
  (0 < max_parallelism m)%nat → sound r → (∃ x, main r = Finished x) ∨ ∃ ch r', own ch ∧ step m ch r = Some r'.
Proof.
  intros Hpar Hs. destruct (main r) as [|last fin h [|e es]|last fin h t es| |x|] eqn:Hm; [..|by left; eauto|].
  all: right.
  - exists MainLoop. unfold step, main_step. rewrite Hm. by eexists.
  - exists MainLoop. unfold step, main_step. rewrite Hm. case_bool_decide; by eexists.
  - exists MainLoop. unfold step, main_step. rewrite Hm. case_bool_decide; by eexists.
  - destruct (decide (length (mine r) + length (detached r) < max_parallelism m)%nat) as [Hfree|Hfull].
    + exists MainLoop. unfold step, main_step. rewrite Hm, bool_decide_eq_true_2 by done. by eexists.
    + destruct (task_enabled r) as [r' Hr']; [|by exists (RunTask 0), r'].
      intros Hnil%(f_equal length). rewrite length_app in Hnil. cbn in Hnil. lia.
  - destruct (mine r) as [|t ts] eqn:Hmine.
    + exists MainLoop. unfold step, main_step. rewrite Hm, (so_panic _ Hs), Hmine. by eexists.
    + destruct (task_enabled r) as [r' Hr']; [by rewrite Hmine|by exists (RunTask 0), r'].
  - pose proof (so_main _ Hs) as Hc. by rewrite Hm in Hc.
Qed.
End rounds.

(** ** The contracts behind the calls

    A chain of the [EthSubnetManager]: its height, the subnet actor of a child, the checkpoints of its own gateway, and the
    events that its blocks have emitted.  A call that reverts is an error, and so is a Solidity panic. *)

(** What [QuorumReached] has, and whether the log was removed again. *)
Record QuorumLog := MkQuorumLog { lg_kind : N; lg_height : N; lg_hash : N; lg_weight : N; lg_removed : option bool }.

Record EvmChain := MkChain {
  block_number : N;
  subnet_actor : Submissions;
  checkpoint_store : CheckpointStore;
  quorum_logs : gmap N (list QuorumLog)
}.

(** [U256::as_u64], and its cast to [i64]. *)
Definition as_u64 {E} (n : N) : outcome E N := if bool_decide (n < u64_size) then Done n else Panic.
Definition as_epoch (n : N) : ChainEpoch :=
  if bool_decide (n < 9223372036854775808) then Z.of_N n else (Z.of_N n - 18446744073709551616)%Z.

Section evm.
Context `{QuorumEnv, ActorEnv, CheckpointGateway}.

(** Addresses are those of the EVM, so that none of them is refused as not delegated. *)
Definition contract_address_from_subnet (i : SubnetID) : outcome string Address :=
  match last (route i) with
  | Some a => Done a
  | None => Fail "subnet has no child"%string
  end.

Definition evm_submit_checkpoint (b : BottomUpCheckpointBundle) : stm EvmChain string ChainEpoch := λ s,
  address ← contract_address_from_subnet (cp_subnetID (bundle_checkpoint b));
  if negb (bool_decide (address = this_actor)) then Fail "call reverted"%string
  else
    match submitCheckpoint (bundle_checkpoint b) (bundle_signatories b) (bundle_signatures b) (subnet_actor s) with
    | Done (_, a) => n ← as_u64 (block_number s); Done (as_epoch n, MkChain (block_number s) a (checkpoint_store s) (quorum_logs s))
    | Fail e => Fail e
    | _ => Fail "call reverted"%string
    end.

Definition evm_last_bottom_up_checkpoint_height (s : EvmChain) : outcome string ChainEpoch :=
  as_epoch <$> as_u64 (lastBottomUpCheckpointHeight (subnet_actor s)).
Definition evm_checkpoint_period (s : EvmChain) : outcome string ChainEpoch :=
  as_epoch <$> as_u64 (bottomUpCheckPeriod (params (actor (sm_world (subnet_actor s))))).

Definition evm_checkpoint_bundle_at (height : ChainEpoch) (s : EvmChain) : outcome string (option BottomUpCheckpointBundle) :=
  if bool_decide (height < 0)%Z then Panic
  else
    let h := Z.to_N height in
    let c := default no_checkpoint (bottomUpCheckpoints (checkpoint_store s) !! h) in
    let '(_, signatories, signatures) := getSignatureBundle h (checkpointQuorumMap (checkpoint_store s)) in
    n ← as_u64 (cp_blockHeight c);
    Done (if bool_decide (n = 0) then None else Some (MkBundle c signatures signatories)).

Fixpoint read_logs (l : list QuorumLog) : outcome string (list QuorumReachedEvent) :=
  match l with
  | [] => Done []
  | log :: l =>
      h ← as_u64 (lg_height log);
      rest ← read_logs l;
      Done (MkEvent (lg_kind log) (as_epoch h) (lg_hash log) (lg_weight log) :: rest)
  end.
Definition evm_quorum_reached_events (height : ChainEpoch) (s : EvmChain) : outcome string (list QuorumReachedEvent) :=
  let block := Z.to_N (height mod 18446744073709551616)%Z in
  read_logs (filter (λ l, default false (lg_removed l) = false) (default [] (quorum_logs s !! block))).

Definition evm_current_epoch (s : EvmChain) : outcome string ChainEpoch := as_epoch <$> as_u64 (block_number s).

#[export] Instance evm_relayer : Relayer EvmChain := {|
  submit_checkpoint := evm_submit_checkpoint;
  last_bottom_up_checkpoint_height := evm_last_bottom_up_checkpoint_height;
  checkpoint_period := evm_checkpoint_period;
  checkpoint_bundle_at := evm_checkpoint_bundle_at;
  quorum_reached_events := evm_quorum_reached_events;
  current_epoch := evm_current_epoch
|}.

Lemma as_epoch_small n : n < 9223372036854775807 → as_u64 (E:=string) n = Done n ∧ as_epoch n = Z.of_N n.
Proof. intros Hn. unfold as_u64, as_epoch. by rewrite !bool_decide_eq_true_2 by lia. Qed.

Lemma read_logs_small l :
  Forall (λ g, lg_height g < 9223372036854775807) l →
  read_logs l = Done ((λ g, MkEvent (lg_kind g) (Z.of_N (lg_height g)) (lg_hash g) (lg_weight g)) <$> l).
Proof.
  induction 1 as [|g l Hg _ IH]; [done|]. cbn [read_logs]. destruct (as_epoch_small _ Hg) as [-> Heq]. cbn [mbind outcome_bind].
  rewrite IH. cbn. by rewrite Heq.
Qed.
End evm.

Abbreviation last_height s := (lastBottomUpCheckpointHeight (subnet_actor s)).
Abbreviation actor_of s := (actor (sm_world (subnet_actor s))).

Section answers.
Context `{Profile, QuorumEnv, ActorEnv, CheckpointGateway}.

(** *** The child *)

Definition live_logs (cc : EvmChain) (block : N) : list QuorumLog :=
  filter (λ l, default false (lg_removed l) = false) (default [] (quorum_logs cc !! block)).
Definition bundle_of (cc : EvmChain) (h : N) : BottomUpCheckpointBundle :=
  let '(_, signatories, signatures) := getSignatureBundle h (checkpointQuorumMap (checkpoint_store cc)) in
  MkBundle (default no_checkpoint (bottomUpCheckpoints (checkpoint_store cc) !! h)) signatures signatories.

(** A child that has every checkpoint for which it has announced a quorum. *)
Record answering (cc : EvmChain) : Prop := {
  an_block : block_number cc < 9223372036854775807;
  an_logs block g : g ∈ live_logs cc block →
    0 < lg_height g < 9223372036854775807 ∧ cp_blockHeight (bundle_checkpoint (bundle_of cc (lg_height g))) = lg_height g
}.
Definition log_event (g : QuorumLog) : QuorumReachedEvent := MkEvent (lg_kind g) (Z.of_N (lg_height g)) (lg_hash g) (lg_weight g).
Definition events_at (cc : EvmChain) (h : Z) : list QuorumReachedEvent :=
  log_event <$> live_logs cc (Z.to_N (h mod 18446744073709551616)).
Definition offers (cc : EvmChain) (h : Z) : BottomUpCheckpointBundle := bundle_of cc (Z.to_N h).
Definition parent_height (s : EvmChain) : Z := Z.of_N (last_height s).

Lemma child_current cc : answering cc → evm_current_epoch cc = Done (Z.of_N (block_number cc)).
Proof. intros [Hb _]. unfold evm_current_epoch. destruct (as_epoch_small _ Hb) as [-> Heq]. cbn. by rewrite Heq. Qed.

Lemma child_events cc h : answering cc → evm_quorum_reached_events h cc = Done (events_at cc h).
Proof.
  intros [_ Hl]. unfold evm_quorum_reached_events, events_at, live_logs. apply read_logs_small, Forall_forall. intros g Hg. by apply Hl in Hg as [[_ ?] _].
Qed.

Lemma child_bundle cc h e :
  answering cc → e ∈ events_at cc h → evm_checkpoint_bundle_at (ev_height e) cc = Done (Some (offers cc (ev_height e))).
Proof.
  intros [_ Hl] (g & -> & Hg)%list_elem_of_fmap. destruct (Hl _ g Hg) as [Hh Hc]. cbn [ev_height log_event].
  unfold evm_checkpoint_bundle_at, offers. rewrite bool_decide_eq_false_2 by lia. rewrite N2Z.id. unfold bundle_of in *.
  destruct (getSignatureBundle _ _) as [[info signatories] signatures]. cbn [bundle_checkpoint] in Hc.
  rewrite Hc. destruct (as_epoch_small (lg_height g)) as [-> _]; [lia|]. cbn [mbind outcome_bind]. by rewrite bool_decide_eq_false_2 by lia.
Qed.

(** *** A parent that takes nothing *)

Definition paused_parent (l : N) (s : EvmChain) : Prop :=
  paused (actor_of s) = true ∧ last_height s = l ∧ l < 9223372036854775807.

Lemma submit_paused l b s : paused_parent l s → ∃ e, evm_submit_checkpoint b s = Fail e.
Proof.
  intros (Hp & _ & _). unfold evm_submit_checkpoint, contract_address_from_subnet.
  destruct (last _) as [a|]; cbn [mbind outcome_bind]; [|by eexists]. destruct (negb _); [by eexists|].
  assert (submitCheckpoint (bundle_checkpoint b) (bundle_signatories b) (bundle_signatures b) (subnet_actor s) = Fail "EnforcedPause"%string) as ->; [|by eexists].
  unfold submitCheckpoint, on_world, zoom, whenNotPaused, mbind, stm_bind, reads. by rewrite Hp.
Qed.

Lemma paused_last l s : paused_parent l s →
  evm_last_bottom_up_checkpoint_height s = Done (parent_height s) ∧ (0 ≤ parent_height s < 9223372036854775807)%Z.
Proof.
  intros (_ & Hl & Hlt). unfold evm_last_bottom_up_checkpoint_height, parent_height. rewrite Hl.
  destruct (as_epoch_small l Hlt) as [-> Heq]. cbn. rewrite Heq. split; [done|lia].
Qed.

(** C39: a round whose submissions all fail is reported as a success.  When the subnet actor on the parent is paused,
    every submission reverts.  With a child that answers, and has every checkpoint whose quorum it has announced, a round of the
    relayer, however its tasks are interleaved, can always go on until it is finished, every step of it leaves less to do,
    so that it comes to the end, it then returns no error, and the parent has no more checkpoints than before. *)
Theorem failures_unreported m cc r :
  let l := last_height (parent_chain r) in
  answering cc → paused_parent l (parent_chain r) → (0 < max_parallelism m)%nat →
  (0 ≤ finalization_blocks m ≤ Z.of_N (block_number cc))%Z →
  r = MkRelay Start [] [] false (parent_chain r) cc →
  ∀ r', rtc (relay_step m (paused_parent l) parent_height) r r' →
    last_height (parent_chain r') = l ∧
    ((∃ ch r2, own ch ∧ step m ch r' = Some r2) ∨ main r' = Finished (inr tt)) ∧
    ∀ ch r2, own ch → step m ch r' = Some r2 →
      (work m (Z.of_N (block_number cc)) (events_at cc) r2 < work m (Z.of_N (block_number cc)) (events_at cc) r')%nat.
Proof.
  intros l Hans Hp Hpar Hfin Hr r' Hsteps. pose proof (an_block _ Hans) as Hblock.
  set (snd := sound m cc (Z.of_N (block_number cc)) (events_at cc) (offers cc) (paused_parent l) parent_height).
  assert (snd r) as Hsound by (rewrite Hr; by split).
  pose proof (λ s h e (Hs : paused_parent l s) (_ : e ∈ events_at cc h), submit_paused l (offers cc (ev_height e)) s Hs) as Hsubmit.
  assert (snd r') as Hs'.
  { eapply sound_steps; [by apply child_current|lia|lia|by intros; apply child_events|by intros; eapply child_bundle|apply paused_last| |exact Hsteps|done].
    intros s h e Hs He. cbn [submit_checkpoint evm_relayer]. by destruct (Hsubmit s h e Hs He) as [? ->]. }
  split; [apply (so_inv _ _ _ _ _ _ _ _ Hs')|]. split.
  2:{ intros ch r2 Hown Hstep.
    eapply work_decreases; [by apply child_current|lia|lia|by intros; apply child_events|by intros; eapply child_bundle|apply paused_last| |exact Hs'|done|done].
    intros s h e Hs He. cbn [submit_checkpoint evm_relayer]. by destruct (Hsubmit s h e Hs He) as [? ->]. }
  destruct (never_stuck m cc _ _ _ _ _ r' Hpar Hs') as [[x Hx]|]; [right|by left].
  pose proof (so_main _ _ _ _ _ _ _ _ Hs') as Hm. rewrite Hx in Hm. destruct Hm as [-> _]. done.
Qed.
End answers.

Section contracts.
Context `{Profile, QuorumEnv, ActorEnv, CheckpointGateway, !CheckpointGatewayLaws}.

(** The parameters of the subnet actor and its validators, which stay for the time being, and what the gateway needs. *)
Context (p : ActorParams) (set : ValidatorSet) (gateway_ready : World → Prop).
Hypothesis (period_pos : 0 < bottomUpCheckPeriod p).
Abbreviation per := (bottomUpCheckPeriod p).

(** A checkpoint that the actor takes when its height is the next one: it names the actor, its messages fit, it confirms no
    changes of the validators, it has enough signatures, and the gateway takes it. *)
Record fit (b : BottomUpCheckpointBundle) : Prop := {
  fit_address : last (route (cp_subnetID (bundle_checkpoint b))) = Some this_actor;
  fit_msgs : N.of_nat (length (cp_msgs (bundle_checkpoint b))) ≤ maxMsgsPerBottomUpBatch p;
  fit_config : cp_nextConfigurationNumber (bundle_checkpoint b) = 0;
  fit_signed : validateActiveQuorumSignatures set (majorityPercentage p) (bundle_signatories b)
                 (checkpoint_hash (bundle_checkpoint b)) (bundle_signatures b) = Done tt;
  fit_gateway w : gateway_ready w → ∃ w', gw_commitCheckpoint (bundle_checkpoint b) w = Done (tt, w') ∧ gateway_ready w'
}.

(** A parent that can go on. *)
Record open_parent (s : EvmChain) : Prop := {
  op_block : block_number s < 9223372036854775807;
  op_last : last_height s < 9223372036854775807;
  op_paused : paused (actor_of s) = false;
  op_params : params (actor_of s) = p;
  op_set : validatorSet (actor_of s) = set;
  op_next : 0 < nextConfigurationNumber (changeSet (actor_of s));
  op_start : 0 < startConfigurationNumber (changeSet (actor_of s));
  op_gateway : gateway_ready (sm_world (subnet_actor s))
}.

(** Submitting a checkpoint that fits comes down to the check of its height. *)
Lemma submit_fit b s :
  open_parent s → fit b → cp_blockHeight (bundle_checkpoint b) < 9223372036854775807 →
  let c := bundle_checkpoint b in
  match ensureValidCheckpoint p (last_height s) c with
  | Done _ => ∃ x s', evm_submit_checkpoint b s = Done (x, s') ∧ open_parent s' ∧ last_height s' = cp_blockHeight c
  | _ => ∃ e, evm_submit_checkpoint b s = Fail e
  end.
Proof.
  intros [Hb Hl Hp Hpar Hset Hn Hst Hg] [Fa _ Fc Fs Fg] Hh c. unfold evm_submit_checkpoint, contract_address_from_subnet.
  rewrite Fa. fold c. fold c in Fs, Fc, Fg. cbn [mbind outcome_bind]. rewrite bool_decide_eq_true_2 by done. cbn [negb].
  destruct (subnet_actor s) as [w l cs] eqn:Hs. cbn [sm_world lastBottomUpCheckpointHeight] in *.
  assert (submitCheckpoint c (bundle_signatories b) (bundle_signatures b) (MkSubmissions w l cs) =
    match ensureValidCheckpoint p l c with
    | Done _ => ('(_, s) ← (on_world (gw_commitCheckpoint c) ;; on_world (confirmChange (cp_nextConfigurationNumber c)))
                   (MkSubmissions w (cp_blockHeight c) (<[cp_blockHeight c := c]> cs)); Done (tt, s))
    | Fail e => Fail e | Retry => Retry | Panic => Panic | OutOfFuel => OutOfFuel
    end) as ->.
  { unfold submitCheckpoint. erewrite bind_run; [|unfold on_world, zoom, whenNotPaused, mbind, stm_bind, reads; cbn [sm_world]; by rewrite Hp].
    do 2 erewrite bind_run by done. cbn [sm_world lastBottomUpCheckpointHeight committedCheckpoints]. rewrite Hpar.
    destruct (ensureValidCheckpoint p l c) as [[]| | | |]; [|done..].
    do 2 erewrite bind_run by done. cbn [sm_world]. rewrite Hset.
    erewrite bind_run by (unfold lift; by rewrite Fs). erewrite bind_run by done. cbn [sm_world committedCheckpoints].
    destruct ((on_world (gw_commitCheckpoint c) ;; _) _) as [[[] ?]| | | |]; done. }
  destruct (Fg w Hg) as (w' & Hcommit & Hg'). pose proof (gw_keeps_actor c w tt w' Hcommit) as Hactor. unfold same_actor in Hactor.
  destruct (ensureValidCheckpoint p l c) as [[]|e| | |]; [|by eexists..].
  erewrite bind_run by (unfold on_world, zoom; cbn [sm_world]; by rewrite Hcommit).
  unfold on_world, zoom. cbn [sm_world lastBottomUpCheckpointHeight committedCheckpoints].
  assert (confirmChange (cp_nextConfigurationNumber c) w' = Done (tt, w')) as ->.
  { rewrite Fc. unfold confirmChange, mbind, stm_bind, reads. rewrite Hactor. rewrite bool_decide_eq_false_2 by lia. by rewrite bool_decide_eq_true_2. }
  cbn [mbind outcome_bind]. destruct (as_epoch_small _ Hb) as [-> _]. cbn [mbind outcome_bind].
  eexists _, _. split; [done|]. split; [|done]. split; cbn; rewrite ?Hactor; done.
Qed.

Lemma next_epoch_ok l : l < 9223372036854775807 → (l / per + 1) * per < u256_size → getNextEpoch l per = Done ((l / per + 1) * per).
Proof.
  intros Hl Hfit. unfold getNextEpoch, u256_div. rewrite bool_decide_eq_false_2 by lia. cbn [mbind outcome_bind].
  rewrite N.mod_small by lia. assert (l / per ≤ l) by (apply N.Div0.div_le_upper_bound; nia).
  rewrite u256_add_ok by lia. cbn [mbind outcome_bind]. unfold u256_mul. rewrite <-N2Z.inj_mul. by rewrite checked_ok.
Qed.

Lemma ensure_next l c :
  l < 9223372036854775807 → cp_blockHeight c = (l / per + 1) * per → cp_blockHeight c < 9223372036854775807 →
  N.of_nat (length (cp_msgs c)) ≤ maxMsgsPerBottomUpBatch p → ensureValidCheckpoint p l c = Done tt.
Proof.
  intros Hl Hc Hfit Hmsgs. unfold ensureValidCheckpoint. rewrite bool_decide_eq_false_2 by lia.
  pose proof (N.div_mod l per ltac:(lia)). pose proof (N.mod_lt l per ltac:(lia)).
  rewrite bool_decide_eq_false_2 by nia. rewrite next_epoch_ok by (done || (rewrite <-Hc; by eapply N.lt_trans)). cbn [mbind outcome_bind].
  rewrite bool_decide_eq_false_2 by lia. by rewrite bool_decide_eq_true_2.
Qed.

Lemma ensure_grows l c x : ensureValidCheckpoint p l c = Done x → l < cp_blockHeight c.
Proof. intros (e & _ & ? & _)%ensure_inv. lia. Qed.

(** *** The child *)

(** A child that answers, and has signatures that the parent takes. *)
Record ready_child (cc : EvmChain) : Prop := {
  rc_answers : answering cc;
  rc_fit block g : g ∈ live_logs cc block → fit (bundle_of cc (lg_height g))
}.

Lemma offered_fit cc h e :
  ready_child cc → e ∈ events_at cc h →
  fit (offers cc (ev_height e)) ∧ Z.of_N (cp_blockHeight (bundle_checkpoint (offers cc (ev_height e)))) = ev_height e ∧
  cp_blockHeight (bundle_checkpoint (offers cc (ev_height e))) < 9223372036854775807.
Proof.
  intros [[_ Hl] Hfit] (g & -> & Hg)%list_elem_of_fmap. destruct (Hl _ g Hg) as [Hh Hc]. specialize (Hfit _ g Hg). unfold offers. cbn [ev_height log_event].
  rewrite N2Z.id, Hc. split_and!; [done|done|lia].
Qed.

Lemma parent_last s :
  open_parent s → evm_last_bottom_up_checkpoint_height s = Done (parent_height s) ∧ (0 ≤ parent_height s < 9223372036854775807)%Z.
Proof.
  intros Ho. pose proof (op_last _ Ho). unfold evm_last_bottom_up_checkpoint_height, parent_height.
  destruct (as_epoch_small (last_height s)) as [-> Heq]; [done|]. cbn. rewrite Heq. split; [done|lia].
Qed.

Lemma parent_submit cc s h e :
  ready_child cc → open_parent s → e ∈ events_at cc h →
  match evm_submit_checkpoint (offers cc (ev_height e)) s with
  | Done (_, s') => open_parent s' ∧ (parent_height s ≤ parent_height s')%Z
  | Fail _ => True
  | _ => False
  end.
Proof.
  intros Hcc Ho He. destruct (offered_fit cc h e Hcc He) as (Hf & _ & Hlt). pose proof (submit_fit _ s Ho Hf Hlt) as Hs. cbv zeta in Hs.
  unfold parent_height. destruct (ensureValidCheckpoint p _ _) as [u| | | |] eqn:Hv; [|by destruct Hs as [? ->]..].
  destruct Hs as (x & s' & -> & Ho' & ->). split; [done|]. apply ensure_grows in Hv. lia.
Qed.

Lemma due_eq s : next_due (Z.of_N per) (parent_height s) = Z.of_N ((last_height s / per + 1) * per).
Proof. unfold next_due, parent_height. rewrite N2Z.inj_mul, N2Z.inj_add, N2Z.inj_div. done. Qed.

Definition child_finalized (m : Manager) (cc : EvmChain) : Z := finalized m (Z.of_N (block_number cc)).

(** Up to a height, every checkpoint has reached its quorum in a later block that is final. *)
Definition all_reached (m : Manager) (cc : EvmChain) (top : N) : Prop :=
  ∀ k, 0 < k * per ≤ top → ∃ block g, (Z.of_N (k * per) < Z.of_N block ≤ child_finalized m cc)%Z ∧ g ∈ live_logs cc block ∧ lg_height g = k * per.

Lemma reached_event m cc top k :
  ready_child cc → (0 ≤ finalization_blocks m)%Z → all_reached m cc top → (0 < k * Z.of_N per ≤ Z.of_N top)%Z →
  ∃ h e, (k * Z.of_N per < h ≤ child_finalized m cc)%Z ∧ e ∈ events_at cc h ∧ ev_height e = (k * Z.of_N per)%Z.
Proof.
  intros Hcc Hfin Hall Hk. assert (0 < k)%Z by nia. destruct (Hall (Z.to_N k)) as (block & g & Hb & Hg & Hh); [nia|].
  exists (Z.of_N block), (log_event g). replace (k * Z.of_N per)%Z with (Z.of_N (Z.to_N k * per)) by lia.
  split_and!; [lia|lia| |cbn; by rewrite Hh]. unfold events_at. apply list_elem_of_fmap_2.
  pose proof (an_block _ (rc_answers _ Hcc)). unfold child_finalized, finalized in Hb. rewrite Z.mod_small by lia. by rewrite N2Z.id.
Qed.

Lemma parent_next m cc top s :
  ready_child cc → (0 ≤ finalization_blocks m)%Z → all_reached m cc top → open_parent s →
  (next_due (Z.of_N per) (parent_height s) ≤ Z.of_N top)%Z →
  ∃ x s', evm_submit_checkpoint (offers cc (next_due (Z.of_N per) (parent_height s))) s = Done (x, s') ∧
    (next_due (Z.of_N per) (parent_height s) ≤ parent_height s')%Z.
Proof.
  intros Hcc Hfin Hall Ho Hdue. pose proof (due_eq s) as Hd.
  destruct (reached_event m cc top (parent_height s / Z.of_N per + 1) Hcc Hfin Hall) as (h & e & _ & He & Heq).
  { change (0 < next_due (Z.of_N per) (parent_height s) ≤ Z.of_N top)%Z. split; [|done]. rewrite Hd. lia. }
  change (ev_height e = next_due (Z.of_N per) (parent_height s)) in Heq. rewrite <-Heq.
  destruct (offered_fit cc h e Hcc He) as (Hf & Hh & Hlt). rewrite <-Hh. pose proof (submit_fit _ s Ho Hf Hlt) as Hs. cbv zeta in Hs.
  rewrite ensure_next in Hs; [|apply Ho|lia|done|apply Hf].
  destruct Hs as (x & s' & Hrun & _ & Hl). exists x, s'. rewrite Hh. split; [done|]. unfold parent_height. rewrite Hl. lia.
Qed.

(** C9: the relayer brings the checkpoints of the child to the parent.  With a child that has a quorum for every
    checkpoint up to a height, all of which fit the parent ([fit]: addressed to its actor, with few enough messages, without
    changes of the validators, with enough signatures, and taken by the gateway), and as long as the parent is not paused and
    keeps its parameters and validators: no round gets stuck, and
    every step of the relayer leaves less to do, so that rounds end, however its tasks are interleaved and
    whatever others submit; and after any number of rounds the parent has as many further checkpoints,
    unless it has them all. *)
Theorem relayer_catches_up m cc top r :
  ready_child cc → all_reached m cc top → top `mod` per = 0 → (0 < max_parallelism m)%nat →
  (0 ≤ finalization_blocks m ≤ Z.of_N (block_number cc))%Z →
  open_parent (parent_chain r) → child_chain r = cc →
  main r = Finished (inr tt) → mine r = [] → detached r = [] → panicked r = false →
  let go := relay_step m open_parent parent_height in
  let left := work m (Z.of_N (block_number cc)) (events_at cc) in
  (∀ r1, rtc go (next_round r) r1 →
    ((∃ x, main r1 = Finished x) ∨ ∃ ch r2, own ch ∧ step m ch r1 = Some r2) ∧
    ∀ ch r2, own ch → step m ch r1 = Some r2 → (left r2 < left r1)%nat) ∧
  ∀ n r', rounds m open_parent parent_height n r r' →
    N.min top ((last_height (parent_chain r) / per + N.of_nat n) * per) ≤ last_height (parent_chain r').
Proof.
  intros Hcc Hall Htop Hpar Hfin Ho Hchild Hmain Hmine Hdet Hpan go left.
  set (snd := sound m cc (Z.of_N (block_number cc)) (events_at cc) (offers cc) open_parent parent_height).
  assert (snd r) as Hsound. { split; rewrite ?Hmine, ?Hdet, ?Hmain; done. }
  pose proof (rc_answers _ Hcc) as Hans. pose proof (an_block _ Hans) as Hblock.
  assert (∀ r1, rtc go (next_round r) r1 → snd r1) as Hsteps.
  { intros r1 Hr1. eapply sound_steps; [by apply child_current|lia|lia|by intros; apply child_events|by intros; eapply child_bundle|apply parent_last|
      by intros; eapply parent_submit|exact Hr1|]. by eapply next_round_sound. }
  split.
  - intros r1 Hr1%Hsteps. split; [by eapply never_stuck|]. intros ch r2 Hown Hstep.
    eapply work_decreases; [by apply child_current|lia|lia|by intros; apply child_events|by intros; eapply child_bundle|apply parent_last|
      by intros; eapply parent_submit|exact Hr1|done|done].
  - intros n r' Hrounds.
    pose proof (rounds_achieve m cc (Z.of_N (block_number cc)) (events_at cc) (offers cc)) as Hach.
    specialize (Hach (child_current cc Hans) ltac:(lia) ltac:(lia) (λ h, child_events cc h Hans) (λ h e, child_bundle cc h e Hans)).
    specialize (Hach open_parent parent_height parent_last (λ s h e Hs, parent_submit cc s h e Hcc Hs)).
    specialize (Hach (Z.of_N per) (Z.of_N top) ltac:(lia) (λ s, parent_next m cc top s Hcc ltac:(lia) Hall)).
    specialize (Hach (λ k, reached_event m cc top k Hcc ltac:(lia) Hall) n r r' (inr tt)).
    specialize (Hach ltac:(rewrite <-N2Z.inj_mod; lia) Hsound Hmain Hrounds).
    unfold parent_height in Hach. rewrite <-N2Z.inj_div, <-nat_N_Z, <-N2Z.inj_add, <-N2Z.inj_mul, <-N2Z.inj_min in Hach. lia.
Qed.

End contracts.

(** ** A sample *)

Module SampleRelayer.
Import SampleSubmission SampleQuorum.

Definition sample_profile : Profile := {| overflow_checks := true; debug_assertions := true |}.
#[local] Existing Instance sample_profile.

Definition sample_params : ActorParams := MkParams 0 10 10 67 1.

(** The child has checkpoints for the heights 10 and 20, and in between a full batch, which was cut at the height 15. *)
Definition some_message : IpcEnvelope :=
  MkEnvelope Transfer (MkAddress (MkID 314 []) (fvm_from 8)) (MkAddress (MkID 314 [50]) (fvm_from 8)) 0 1 [].
Definition full_at (h : N) : BottomUpCheckpoint := MkCheckpoint (MkID 314 [50]) h [] 0 (replicate 10 some_message).
Definition sign_all (h : N) : stm CheckpointStore string unit :=
  addCheckpointSignature h [] 1 [x01] ;; addCheckpointSignature h [] 1 [x02] ;; addCheckpointSignature h [] 1 [x03].
Definition child_store : CheckpointStore :=
  match (createBottomUpCheckpoint 0 (checkpoint_at 10) 7 4 ;; sign_all 10 ;;
         createBottomUpCheckpoint 0 (full_at 15) 7 4 ;; sign_all 15 ;;
         createBottomUpCheckpoint 0 (checkpoint_at 20) 7 4 ;; sign_all 20) (empty_store 67) with
  | Done (_, s) => s
  | _ => empty_store 67
  end.
Definition log_of (h : N) : QuorumLog := MkQuorumLog 1 h h 3 (Some false).
Definition sample_child : EvmChain :=
  MkChain 30 before_submission child_store {[ 12 := [log_of 10]; 17 := [log_of 15]; 22 := [log_of 20] ]}.
Definition sample_parent : EvmChain := MkChain 500 before_submission (empty_store 67) ∅.
Definition with_parallelism (n : nat) : Manager := MkManager 5%Z n 10%Z.

Lemma sample_logs block g :
  g ∈ live_logs sample_child block → (block = 12 ∧ g = log_of 10) ∨ (block = 17 ∧ g = log_of 15) ∨ (block = 22 ∧ g = log_of 20).
Proof.
  unfold live_logs. intros [_ Hg]%list_elem_of_filter.
  destruct (decide (block = 12)) as [->|H12]; [left; set_solver|]. destruct (decide (block = 17)) as [->|H17]; [right; left; set_solver|].
  destruct (decide (block = 22)) as [->|H22]; [right; right; set_solver|].
  unfold sample_child in Hg. cbn [quorum_logs] in Hg. rewrite !lookup_insert_ne, lookup_singleton_ne in Hg by done. set_solver.
Qed.

Lemma sample_answering : answering sample_child.
Proof.
  split; [by vm_compute|]. intros block g [[-> ->]|[[-> ->]|[-> ->]]]%sample_logs; split; vm_compute; done.
Qed.

Definition any_world (w : World) : Prop := True.
Lemma sample_fit h : h ∈ [10; 15; 20] → fit sample_params federation any_world (bundle_of sample_child h).
Proof.
  intros Hh. rewrite !elem_of_cons in Hh. destruct Hh as [->|[->|[->|[]%not_elem_of_nil]]];
    (split; [by vm_compute|by vm_compute|by vm_compute|by vm_compute|intros w _; by exists w]).
Qed.

Lemma sample_ready : ready_child sample_params federation any_world sample_child.
Proof.
  split; [exact sample_answering|]. intros block g [[-> ->]|[[-> ->]|[-> ->]]]%sample_logs; apply sample_fit; set_solver.
Qed.

Lemma sample_open : open_parent sample_params federation any_world sample_parent.
Proof. split; vm_compute; done. Qed.

Lemma sample_reached m : finalization_blocks m = 5%Z → all_reached sample_params m sample_child 20.
Proof.
  intros Hm k Hk. cbn [bottomUpCheckPeriod sample_params] in Hk.
  assert (k = 1 ∨ k = 2) as [->| ->] by lia; [exists 12, (log_of 10)|exists 22, (log_of 20)];
    (split; [unfold child_finalized, finalized; rewrite Hm; by vm_compute|]; split; [|done]); by apply list_elem_of_filter; split; [|left].
Qed.

Definition idle (p : EvmChain) : Relay EvmChain EvmChain := MkRelay (Finished (inr tt)) [] [] false p sample_child.

Definition round_with (n : nat) (cs : list (Choice EvmChain)) : option (Relay EvmChain EvmChain) :=
  run_schedule (with_parallelism n) cs (next_round (idle sample_parent)).
(** Where the main loop is, how many tasks are left, the last height of the parent, and the checkpoints that it has. *)
Definition summary (r : option (Relay EvmChain EvmChain)) : option (Main * nat * N * list bool) :=
  r ← r; Some (main r, length (mine r), lastBottomUpCheckpointHeight (subnet_actor (parent_chain r)),
    (λ h, bool_decide (is_Some (committedCheckpoints (subnet_actor (parent_chain r)) !! h))) <$> [10; 15; 20]).

(** With one permit the tasks run one after the other, and a round submits everything. *)
Definition in_order : list (Choice EvmChain) :=
  replicate 21 MainLoop ++ [RunTask 0] ++ replicate 7 MainLoop ++ [RunTask 0] ++ replicate 5 MainLoop ++ [RunTask 0; MainLoop].
Example round_in_order : summary (round_with 1 in_order) = Some (Finished (inr tt), 0%nat, 20, [true; true; true]).
Proof. by vm_compute. Qed.

(** With three permits the checkpoint of the height 20 can overtake the batch of the height 15, which the
    parent then refuses: its messages are lost, and the round returns no error. *)
Definition overtaking : list (Choice EvmChain) :=
  replicate 33 MainLoop ++ [RunTask 0; RunTask 1; RunTask 0; MainLoop].
Example round_overtaking : summary (round_with 3 overtaking) = Some (Finished (inr tt), 0%nat, 20, [true; false; true]).
Proof. by vm_compute. Qed.

(** *** Two rounds *)

Lemma schedule_steps m inv height cs r r' :
  Forall own cs → run_schedule m cs r = Some r' → rtc (relay_step m inv height) r r'.
Proof.
  intros Hown. revert r. induction Hown as [|ch cs Hch _ IH]; intros r Hr; cbn [run_schedule] in Hr; [by injection Hr as ->|].
  apply bind_Some in Hr as (r1 & Hstep & Hr). eapply rtc_l; [|by apply IH]. exists ch. split; [done|]. intros p' ->. done.
Qed.

Lemma one_round : ∃ r',
  rounds (with_parallelism 1) (open_parent sample_params federation any_world) parent_height 1 (idle sample_parent) r' ∧
  lastBottomUpCheckpointHeight (subnet_actor (parent_chain r')) = 20.
Proof.
  destruct (round_with 1 in_order) as [r'|] eqn:Hr; [|by vm_compute in Hr].
  pose proof round_in_order as Hs. rewrite Hr in Hs. cbn [summary mbind option_bind] in Hs. injection Hs as Hm _ Hl _.
  exists r'. split; [|done]. eapply rounds_more; [|exact Hm|apply rounds_none].
  apply (schedule_steps _ _ _ in_order); [|exact Hr]. by repeat constructor.
Qed.

Lemma relayer_catches_up_witness : ∃ r',
  rounds (with_parallelism 1) (open_parent sample_params federation any_world) parent_height 1 (idle sample_parent) r' ∧
  10 ≤ lastBottomUpCheckpointHeight (subnet_actor (parent_chain r')).
Proof.
  destruct one_round as (r' & Hr & _). exists r'. split; [exact Hr|].
  refine (proj2 (relayer_catches_up sample_params federation any_world _ (with_parallelism 1) sample_child 20 (idle sample_parent)
    sample_ready (sample_reached (with_parallelism 1) eq_refl) _ _ _ sample_open eq_refl eq_refl eq_refl eq_refl eq_refl) 1%nat r' Hr);
    [by vm_compute|by vm_compute|cbn; lia|by vm_compute].
Defined.

(** *** A paused parent *)

Definition paused_chain : EvmChain :=
  match pause 52 federated_world with
  | Done (_, w) => MkChain 500 (MkSubmissions w 0 ∅) (empty_store 67) ∅
  | _ => sample_parent
  end.
(** The same round as [in_order]; every submission is refused. *)
Definition refused_round : option (Relay EvmChain EvmChain) :=
  run_schedule (with_parallelism 1) in_order (MkRelay Start [] [] false paused_chain sample_child).

Lemma refused_steps inv height : ∃ r',
  refused_round = Some r' ∧ main r' = Finished (inr tt) ∧
  rtc (relay_step (with_parallelism 1) inv height) (MkRelay Start [] [] false paused_chain sample_child) r'.
Proof.
  assert (summary refused_round = Some (Finished (inr tt), 0%nat, 0, [false; false; false])) as Hs by by vm_compute.
  destruct refused_round as [r'|] eqn:Hr; [|done]. cbn [summary mbind option_bind] in Hs. injection Hs as Hm _ _ _.
  exists r'. split; [reflexivity|]. split; [exact Hm|].
  apply (schedule_steps _ _ _ in_order); [repeat constructor|exact Hr].
Qed.
Lemma paused_sample : paused_parent (lastBottomUpCheckpointHeight (subnet_actor paused_chain)) paused_chain.
Proof. split_and!; vm_compute; reflexivity. Qed.

Lemma failures_unreported_witness : ∃ r',
  refused_round = Some r' ∧ main r' = Finished (inr tt) ∧ lastBottomUpCheckpointHeight (subnet_actor (parent_chain r')) = 0.
Proof.
  destruct (refused_steps (paused_parent (lastBottomUpCheckpointHeight (subnet_actor paused_chain))) parent_height) as (r' & Hr & Hm & Hsteps).
  exists r'. split; [exact Hr|]. split; [exact Hm|]. clear Hr.
  transitivity (lastBottomUpCheckpointHeight (subnet_actor paused_chain)); [|vm_compute; reflexivity].
  refine (proj1 (failures_unreported (with_parallelism 1) sample_child (MkRelay Start [] [] false paused_chain sample_child)
    sample_answering paused_sample _ _ _ r' Hsteps)); [vm_compute; lia|cbn; lia|reflexivity].
Defined.
End SampleRelayer.
