(* ===== verification/KVStore.v ===== *)
(** * Key-value storage

    [fendermint/storage/src/lib.rs]: the interface of the stores that the node keeps its own data in.  A store has
    namespaces, each a map between representations of keys and values; reads and writes go through
    transactions, which are committed, rolled back or dropped.  A back end is an instance of [KVWritable], and
    [KVBackendLaws] states what a client can rely on while it is the only writer. *)

From stdpp Require Import functions.
From S2P Require Import Prelude.

Inductive KVError := Conflict | Abort (e : string) | Codec (e : string) | Unexpected (e : string).

(** The types of a store, with the order of representations that iteration goes by. *)
Class KVStore := {
  Namespace : Type;
  Repr : Type;
  ns_eq_dec :: EqDecision Namespace;
  ns_countable :: Countable Namespace;
  repr_eq_dec :: EqDecision Repr;
  repr_countable :: Countable Repr;
  repr_le : relation Repr;
  repr_le_dec :: RelDecision repr_le;
  repr_le_total :: TotalOrder repr_le
}.

Class Encode `{KVStore} (T : Type) := to_repr : T → outcome KVError Repr.
Class Decode `{KVStore} (T : Type) := from_repr : Repr → outcome KVError T.

(** What is read back is what was written. *)
Class CodecLaws `{KVStore} (T : Type) `{!Encode T, !Decode T} :=
  read_back (x : T) r : to_repr x = Done r → from_repr r = Done x.

(** ** Interfaces *)

Class KVRead `{KVStore} (Tx : Type) := {
  kv_get {K V} `{!Encode K, !Decode V} : Namespace → K → io Tx KVError (option V);
  kv_iterate {K V} `{!Decode K, !Decode V} : Namespace → io Tx KVError (list (outcome KVError (K * V)))
}.
Class KVWrite `{KVStore} (Tx : Type) := {
  write_reads :: KVRead Tx;
  kv_put {K V} `{!Encode K, !Encode V} : Namespace → K → V → io Tx KVError unit;
  kv_delete {K} `{!Encode K} : Namespace → K → io Tx KVError unit
}.
Class KVReadable `{KVStore} (B Tx : Type) := {
  readable_tx :: KVRead Tx;
  read : io B KVError Tx
}.
(** Dropping a transaction can panic; in a thread that panics already, it does not. *)
Class KVWritable `{KVStore} (B Tx : Type) := {
  writable_tx :: KVWrite Tx;
  write : io B KVError Tx;
  commit : Tx → io B KVError unit;
  rollback : Tx → io B KVError unit;
  drop_tx : bool → Tx → B → bool * B
}.

Section with_write.
Context `{KVWritable B Tx}.

Definition with_write {T} (f : io Tx KVError T) : io B KVError T :=
  tx ← write;
  match f tx with
  | (Done res, tx) => commit tx ;; mret res
  | (Fail e, tx) => λ b, let '(panics, b) := drop_tx false tx b in (if panics then Panic else Fail e, b)
  | (Panic, tx) => λ b, (Panic, (drop_tx true tx b).2)
  | (Retry, _) => λ b, (Retry, b)
  | (OutOfFuel, _) => λ b, (OutOfFuel, b)
  end.
End with_write.

(** A collection is the namespace that it is kept in. *)
Record KVCollection `{KVStore} (K V : Type) := MkCollection { coll_ns : Namespace }.
Arguments MkCollection {_ K V} _.
Arguments coll_ns {_ K V} _.

Section collection.
Context `{KVStore} {K V : Type} `{!Encode K, !Decode K, !Encode V, !Decode V}.

Definition coll_get `{!KVRead Tx} (c : KVCollection K V) (k : K) : io Tx KVError (option V) := kv_get (coll_ns c) k.
Definition coll_put `{!KVWrite Tx} (c : KVCollection K V) (k : K) (v : V) : io Tx KVError unit := kv_put (coll_ns c) k v.
Definition coll_delete `{!KVWrite Tx} (c : KVCollection K V) (k : K) : io Tx KVError unit := kv_delete (coll_ns c) k.
Definition coll_iterate `{!KVRead Tx} (c : KVCollection K V) : io Tx KVError (list (outcome KVError (K * V))) :=
  kv_iterate (coll_ns c).
End collection.

(** ** Reference

    What a transaction does, on the representations: every namespace has a map. *)
Abbreviation Spaces := (Namespace → gmap Repr Repr).

Section reference.
Context `{KVStore}.

Definition ref_get {K V} `{!Encode K, !Decode V} (ns : Namespace) (k : K) (d : Spaces) : outcome KVError (option V) :=
  kr ← to_repr k;
  match d ns !! kr with
  | Some v => Some <$> from_repr v
  | None => Done None
  end.
Definition ref_put {K V} `{!Encode K, !Encode V} (ns : Namespace) (k : K) (v : V) (d : Spaces) : outcome KVError Spaces :=
  kr ← to_repr k; vr ← to_repr v;
  Done (<[ns := <[kr := vr]> (d ns)]> d).
(** The items in the order of the representations of their keys. *)
Definition decode_item {K V} `{!Decode K, !Decode V} (i : Repr * Repr) : outcome KVError (K * V) :=
  k ← from_repr i.1; v ← from_repr i.2; Done (k, v).
Definition item_le (a b : Repr * Repr) : Prop := repr_le a.1 b.1.
#[export] Instance item_le_dec : RelDecision item_le := λ a b, repr_le_dec a.1 b.1.
Definition ref_iterate {K V} `{!Decode K, !Decode V} (ns : Namespace) (d : Spaces) : list (outcome KVError (K * V)) :=
  decode_item <$> merge_sort item_le (map_to_list (d ns)).

Lemma to_repr_inj {K} `{!Encode K, !Decode K, !CodecLaws K} (k1 k2 : K) r : to_repr k1 = Done r → to_repr k2 = Done r → k1 = k2.
Proof. intros H1%read_back H2%read_back. congruence. Qed.

(** No read tells them apart. *)
Definition same_data : relation Spaces := pointwise_relation _ eq.
#[export] Instance same_data_equiv : Equivalence same_data.
Proof. unfold same_data. apply _. Qed.

Lemma ref_get_put {K V} `{!Encode K, !Decode K, !CodecLaws K, !EqDecision K, !Encode V, !Decode V, !CodecLaws V} ns (k k' : K) (v : V) d d' :
  ref_put ns k v d = Done d' → ref_get ns k' d' = if decide (k' = k) then Done (Some v) else ref_get ns k' d.
Proof.
  unfold ref_put, ref_get. intros Hr. inv_done. rewrite fn_lookup_insert.
  match goal with G : to_repr k = Done ?kr, W : to_repr v = Done ?vr |- _ => rename kr into rk, vr into rv, G into Hk, W into Hv end.
  case_decide as Heq.
  - subst. rewrite Hk. cbn. rewrite lookup_insert_eq. by rewrite (read_back v rv Hv).
  - destruct (to_repr k') as [r'| | | |] eqn:Hk'; try done. cbn. rewrite lookup_insert_ne; [done|]. intros <-. by eapply Heq, to_repr_inj.
Qed.
Lemma ref_get_delete {K V} `{!Encode K, !Decode K, !CodecLaws K, !EqDecision K, !Decode V} ns (k k' : K) kr (d : Spaces) :
  to_repr k = Done kr →
  ref_get (V:=V) ns k' (<[ns := delete kr (d ns)]> d) = if decide (k' = k) then Done None else ref_get ns k' d.
Proof.
  intros Hk. unfold ref_get. rewrite fn_lookup_insert. case_decide as Heq.
  - subst. rewrite Hk. cbn. by rewrite lookup_delete_eq.
  - destruct (to_repr k') as [r'| | | |] eqn:Hk'; try done. cbn. rewrite lookup_delete_ne; [done|]. intros <-. by eapply Heq, to_repr_inj.
Qed.
Lemma ref_get_other {K V} `{!Encode K, !Decode V} ns ns' (k : K) m (d : Spaces) : ns ≠ ns' → ref_get (V:=V) ns k (<[ns' := m]> d) = ref_get ns k d.
Proof. intros Hne. unfold ref_get. by rewrite fn_lookup_insert_ne. Qed.

#[export] Instance ref_get_proper {K V} `{!Encode K, !Decode V} ns (k : K) : Proper (same_data ==> eq) (ref_get (V:=V) ns k).
Proof. intros d1 d2 Hd. unfold ref_get. by rewrite (Hd ns). Qed.
#[export] Instance ref_iterate_proper {K V} `{!Decode K, !Decode V} ns : Proper (same_data ==> eq) (ref_iterate (K:=K) (V:=V) ns).
Proof. intros d1 d2 Hd. unfold ref_iterate. by rewrite (Hd ns). Qed.
End reference.

(** ** What a client relies on

    The data of the store and of a transaction, and when the store has no other writer.  A key that cannot be encoded
    is noticed at different places by different back ends, so that nothing is said about it, except that it cannot be written. *)
Class KVBackendLaws `{KVReadable B R, !KVWritable B Tx} := {
  contents : B → Spaces;
  tx_contents : Tx → Spaces;
  usable : B → Prop;
  (** The transaction is the one that writes to the store, and a namespace can be used in it. *)
  owns : Tx → B → Prop;
  available : Namespace → Tx → Prop;
  serves : Namespace → B → Prop;

  write_law b : usable b → ∃ tx b', write b = (Done tx, b') ∧ owns tx b' ∧ same_data (tx_contents tx) (contents b) ∧
    same_data (contents b') (contents b) ∧ ∀ ns, serves ns b → available ns tx ∧ serves ns b';
  get_law {K V} `{!Encode K, !Decode V} ns (k : K) kr tx b : owns tx b → available ns tx → to_repr k = Done kr →
    ∃ tx', kv_get (V:=V) ns k tx = (ref_get ns k (tx_contents tx), tx') ∧ owns tx' b ∧
      same_data (tx_contents tx') (tx_contents tx) ∧ ∀ ns', available ns' tx → available ns' tx';
  put_law {K V} `{!Encode K, !Encode V} ns (k : K) (v : V) tx b : owns tx b → available ns tx →
    match ref_put ns k v (tx_contents tx) with
    | Done d => ∃ tx', kv_put ns k v tx = (Done tt, tx') ∧ owns tx' b ∧ same_data (tx_contents tx') d ∧
        ∀ ns', available ns' tx → available ns' tx'
    | Fail e => ∃ tx', kv_put ns k v tx = (Fail e, tx') ∧ owns tx' b
    | _ => True
    end;
  delete_law {K} `{!Encode K} ns (k : K) kr tx b : owns tx b → available ns tx → to_repr k = Done kr →
    ∃ tx', kv_delete ns k tx = (Done tt, tx') ∧ owns tx' b ∧
      same_data (tx_contents tx') (<[ns := delete kr (tx_contents tx ns)]> (tx_contents tx)) ∧
      ∀ ns', available ns' tx → available ns' tx';
  commit_tx_law tx b : owns tx b → ∃ b', commit tx b = (Done tt, b') ∧ usable b' ∧ same_data (contents b') (tx_contents tx) ∧
    ∀ ns, serves ns b → serves ns b';
  drop_law p tx b : owns tx b → same_data (contents (drop_tx p tx b).2) (contents b) ∧
    ∀ ns, serves ns b → serves ns (drop_tx p tx b).2;
  read_law {K V} `{!Encode K, !Decode V} ns (k : K) kr b : serves ns b → to_repr k = Done kr →
    ∃ tx tx', read b = (Done tx, b) ∧ kv_get (V:=V) ns k tx = (ref_get ns k (contents b), tx')
}.

(** ** A sample *)

Module SampleKV.
(** Anything countable is represented by a number. *)
#[export] Instance number_total : TotalOrder N.le.
Proof.
  split; [split; [split; [intros x; apply N.le_refl|intros x y z; apply N.le_trans]|intros x y; apply N.le_antisymm]|].
  intros x y. unfold strict. destruct (N.lt_trichotomy x y) as [|[|]]; [left|right; left|right; right]; [lia|done|lia].
Qed.
#[export] Instance numbers : KVStore := {| Namespace := string; Repr := N; repr_le := N.le |}.
#[export] Instance count_encode `{Countable T} : Encode T := λ x, Done (Npos (encode x)).
#[export] Instance count_decode `{Countable T} : Decode T := λ r,
  match r with
  | N0 => Fail (Codec "no value")
  | Npos p => match decode p with Some x => Done x | None => Fail (Codec "no value") end
  end.
#[export] Instance count_laws `{Countable T} : CodecLaws T.
Proof. intros x r [= <-]. cbn. by rewrite decode_encode. Qed.
#[export] Instance count_order : HashOrder (Repr (KVStore:=numbers)).
Proof. refine {| hash_iter A m := map_to_list m |}. intros A m. reflexivity. Defined.
End SampleKV.
