(* ===== verification/MemoryStore.v ===== *)
(** * The store in memory

    [fendermint/storage/src/im.rs]: a back end that keeps an immutable map.  A transaction works on a copy of it, which
    a commit puts in its place; a mutex, the write token, lets one writer in at a time.
    Transactions of several threads are interleaved step by step. *)

From stdpp Require Import functions.
From S2P Require Import Prelude KVStore.

(** ** Transactions *)

Inductive Mode := Read | Write.
(** A mutex is poisoned when a thread panics while it holds the guard. *)
Inductive Token := Free | Held | Poisoned.

Section memory.
Context `{KVStore, !HashOrder Repr}.
Abbreviation DataMap := (gmap Namespace (gmap Repr Repr)).
(** A namespace that is not there is as good as an empty one. *)
Definition spaces_of (d : DataMap) : Spaces := λ ns, default ∅ (d !! ns).

Record InMemoryBackend := MkBackend { data : DataMap; write_token : Token; lock_writes : bool }.
Definition backend_new (lock : bool) : InMemoryBackend := MkBackend ∅ Free lock.
Definition backend_default : InMemoryBackend := backend_new true.

Record Transaction (M : Mode) := MkTx { tx_data : DataMap; tx_token : bool }.
#[global] Arguments MkTx {M} _ _.
#[global] Arguments tx_data {M} _.
#[global] Arguments tx_token {M} _.

Definition mem_get {M K V} `{!Encode K, !Decode V} (ns : Namespace) (k : K) : io (Transaction M) KVError (option V) := λ tx,
  (match tx_data tx !! ns with
   | Some m =>
       kr ← to_repr k;
       match m !! kr with
       | Some v => Some <$> from_repr v
       | None => Done None
       end
   | None => Done None
   end, tx).

(** *** Iteration *)

Record KVIter := MkIter { items : list (Repr * Repr); next : nat }.
Definition iter_new (l : list (Repr * Repr)) : KVIter := MkIter l 0.
Definition iter_empty : KVIter := iter_new [].
Definition iter_next {K V} `{!Decode K, !Decode V} (it : KVIter) : option (outcome KVError (K * V)) * KVIter :=
  match items it !! next it with
  | Some (k, v) => (Some (k ← from_repr k; (λ v, (k, v)) <$> from_repr v), MkIter (items it) (S (next it)))
  | None => (None, it)
  end.
(** Going through to the end. *)
Fixpoint drain {K V} `{!Decode K, !Decode V} (fuel : nat) (it : KVIter) : list (outcome KVError (K * V)) :=
  match fuel with
  | O => []
  | S fuel =>
      match iter_next it with
      | (Some x, it) => x :: drain fuel it
      | (None, _) => []
      end
  end.

Definition mem_iterate {M} (ns : Namespace) (tx : Transaction M) : KVIter :=
  match tx_data tx !! ns with
  | Some m => iter_new (merge_sort item_le (hash_iter m))
  | None => iter_empty
  end.

#[export] Instance mem_reads M : KVRead (Transaction M) := {|
  kv_get K V _ _ ns k := mem_get ns k;
  kv_iterate K V _ _ ns := λ tx, let it := mem_iterate ns tx in (Done (drain (S (length (items it))) it), tx)
|}.

(** *** Changes *)

Definition mem_put {K V} `{!Encode K, !Encode V} (ns : Namespace) (k : K) (v : V) : io (Transaction Write) KVError unit := λ tx,
  let m := default ∅ (tx_data tx !! ns) in
  match (kr ← to_repr k; vr ← to_repr v; Done (kr, vr)) with
  | Done (kr, vr) => (Done tt, MkTx (<[ns := <[kr := vr]> m]> (tx_data tx)) (tx_token tx))
  | Fail e => (Fail e, tx)
  | Retry => (Retry, tx)
  | Panic => (Panic, tx)
  | OutOfFuel => (OutOfFuel, tx)
  end.

Definition mem_delete {K} `{!Encode K} (ns : Namespace) (k : K) : io (Transaction Write) KVError unit := λ tx,
  match tx_data tx !! ns with
  | Some m =>
      match to_repr k with
      | Done kr => (Done tt, MkTx (<[ns := delete kr m]> (tx_data tx)) (tx_token tx))
      | Fail e => (Fail e, tx)
      | Retry => (Retry, tx)
      | Panic => (Panic, tx)
      | OutOfFuel => (OutOfFuel, tx)
      end
  | None => (Done tt, tx)
  end.

#[export] Instance mem_writes : KVWrite (Transaction Write) := {|
  kv_put K V _ _ := mem_put;
  kv_delete K _ := mem_delete
|}.

(** *** Beginning and end *)

Definition mem_read : io InMemoryBackend KVError (Transaction Read) := λ b, (Done (MkTx (data b) false), b).

Definition set_token (t : Token) (b : InMemoryBackend) : InMemoryBackend := MkBackend (data b) t (lock_writes b).

(** The token is waited for, and a poisoned mutex panics. *)
Definition take_token : io InMemoryBackend KVError bool := λ b,
  if lock_writes b then
    match write_token b with
    | Free => (Done true, set_token Held b)
    | Held => (Retry, b)
    | Poisoned => (Panic, b)
    end
  else (Done false, b).
Definition mem_write : io InMemoryBackend KVError (Transaction Write) :=
  token ← take_token;
  d ← io_reads data;
  mret (MkTx d token).

Definition mem_commit (tx : Transaction Write) : io InMemoryBackend KVError unit := λ b,
  (Done tt, MkBackend (tx_data tx) (if tx_token tx then Free else write_token b) (lock_writes b)).
Definition mem_rollback (tx : Transaction Write) : io InMemoryBackend KVError unit := λ b,
  (Done tt, if tx_token tx then set_token Free b else b).
(** The guard goes in a thread that panics, one way or the other. *)
Definition mem_drop (panicking : bool) (tx : Transaction Write) (b : InMemoryBackend) : bool * InMemoryBackend :=
  if tx_token tx then (negb panicking, set_token Poisoned b) else (false, b).

#[export] Instance mem_readable : KVReadable InMemoryBackend (Transaction Read) := {| read := mem_read |}.
#[export] Instance mem_writable : KVWritable InMemoryBackend (Transaction Write) := {|
  write := mem_write;
  commit := mem_commit;
  rollback := mem_rollback;
  drop_tx := mem_drop
|}.

(** ** One writer *)

Lemma drain_all {K V} `{!Decode K, !Decode V} l n :
  drain (K:=K) (V:=V) (S (length (drop n l))) (MkIter l n) = decode_item <$> drop n l.
Proof.
  remember (drop n l) as r eqn:Hr. revert n Hr. induction r as [|[k v] r IH]; intros n Hr.
  - cbn. unfold iter_next. cbn [items next]. assert (l !! n = None) as ->; [|done].
    apply lookup_ge_None. apply (f_equal length) in Hr. rewrite length_drop in Hr. cbn in Hr. lia.
  - assert (l !! n = Some (k, v)) as Hn by (rewrite <-(Nat.add_0_r n), <-lookup_drop, <-Hr; done).
    cbn [length]. remember (S (length r)) as f. cbn [drain]. unfold iter_next. cbn [items next]. rewrite Hn. subst f.
    rewrite IH; [done|]. rewrite <-Nat.add_1_r, <-drop_drop, <-Hr. done.
Qed.

(** Sorting gives the same list whatever the order in which the map is visited. *)
Lemma items_by_key (m : gmap Repr Repr) l : l ≡ₚ map_to_list m → l = omap (λ k, (λ v, (k, v)) <$> m !! k) l.*1.
Proof.
  intros Hl. assert (Forall (λ i, m !! i.1 = Some i.2) l) as Hall.
  { apply Forall_forall. intros [k v] Hi. rewrite Hl in Hi. by apply elem_of_map_to_list in Hi. }
  clear Hl. induction Hall as [|[k v] l Hkv _ IH]; [done|]. cbn in Hkv |- *. rewrite Hkv. cbn. by f_equal.
Qed.

#[local] Instance item_le_trans : Transitive item_le.
Proof. intros a b c. unfold item_le. apply transitivity. Qed.
#[local] Instance item_le_total : Total item_le.
Proof. intros a b. unfold item_le. apply total, _. Qed.

Lemma sorted_keys (l : list (Repr * Repr)) : Sorted repr_le (merge_sort item_le l).*1.
Proof.
  pose proof (Sorted_merge_sort item_le l) as Hs. revert Hs. generalize (merge_sort item_le l). clear l. intros l.
  induction 1 as [|i l _ IH Hi]; [constructor|]. cbn. constructor; [done|]. destruct Hi; by constructor.
Qed.

Lemma sort_order_irrelevant (m : gmap Repr Repr) : merge_sort item_le (hash_iter m) = merge_sort item_le (map_to_list m).
Proof.
  pose proof (merge_sort_Permutation item_le (hash_iter m)) as H1. pose proof (merge_sort_Permutation item_le (map_to_list m)) as H2.
  apply (λ h, transitivity h (hash_iter_perm m)) in H1. rewrite (items_by_key m _ H1), (items_by_key m _ H2). f_equal.
  apply (Sorted_unique repr_le); [apply sorted_keys..|]. by rewrite H1, H2.
Qed.

Lemma mem_get_ref {M K V} `{!Encode K, !Decode V} ns (k : K) kr (tx : Transaction M) :
  to_repr k = Done kr → mem_get (V:=V) ns k tx = (ref_get ns k (spaces_of (tx_data tx)), tx).
Proof. intros Hk. unfold mem_get, ref_get, spaces_of. rewrite Hk. destruct (tx_data tx !! ns); [done|]. cbn. by rewrite lookup_empty. Qed.

Lemma mem_iterate_ref {M K V} `{!Decode K, !Decode V} ns (tx : Transaction M) :
  kv_iterate (K:=K) (V:=V) ns tx = (Done (ref_iterate ns (spaces_of (tx_data tx))), tx).
Proof.
  cbn [kv_iterate mem_reads]. cbv zeta. unfold mem_iterate, ref_iterate, spaces_of. destruct (tx_data tx !! ns) as [m|]; [|done]. cbn [default].
  unfold iter_new. cbn [items]. pose proof (drain_all (K:=K) (V:=V) (merge_sort item_le (hash_iter m)) 0) as Hd. rewrite drop_0 in Hd.
  by rewrite Hd, sort_order_irrelevant.
Qed.

Lemma spaces_insert ns m (d : DataMap) : same_data (spaces_of (<[ns := m]> d)) (<[ns := m]> (spaces_of d)).
Proof.
  intros ns'. unfold spaces_of. destruct (decide (ns' = ns)) as [->|Hne].
  - by rewrite lookup_insert_eq, fn_lookup_insert.
  - rewrite lookup_insert_ne by done. by rewrite fn_lookup_insert_ne.
Qed.

Definition sole_writer (tx : Transaction Write) (b : InMemoryBackend) : Prop :=
  tx_token tx = lock_writes b ∧ (lock_writes b = true → write_token b = Held).

#[export] Program Instance mem_laws : KVBackendLaws (B:=InMemoryBackend) (R:=Transaction Read) (Tx:=Transaction Write) := {|
  contents b := spaces_of (data b);
  tx_contents tx := spaces_of (tx_data tx);
  usable b := lock_writes b = true → write_token b = Free;
  owns := sole_writer;
  available _ _ := True;
  serves _ _ := True
|}.
Next Obligation.
  intros b Hb. cbn. unfold mem_write, take_token, mbind, io_bind, io_reads, sole_writer. destruct b as [d t l]. cbn in *.
  destruct l; [rewrite Hb by done|]; eexists _, _; (split; [done|]); cbn; split_and!; try done; split; done.
Qed.
Next Obligation. intros K V ? ? ns k kr tx b Ho _ Hk. exists tx. cbn. by rewrite (mem_get_ref ns k kr). Qed.
Next Obligation.
  intros K V ? ? ns k v tx b [Ht Hh] _. unfold ref_put. cbn. unfold mem_put, spaces_of.
  destruct (to_repr k) as [kr|e| | |]; cbn [mbind outcome_bind]; [|by exists tx|done..].
  destruct (to_repr v) as [vr|e| | |]; cbn [mbind outcome_bind]; [|by exists tx|done..].
  eexists. split; [done|]. split_and!; try done. apply spaces_insert.
Qed.
Next Obligation.
  intros K ? ns k kr tx b [Ht Hh] _ Hk. cbn. unfold mem_delete. destruct (tx_data tx !! ns) as [m|] eqn:Hm.
  - rewrite Hk. eexists. split; [done|]. split_and!; try done. cbn. unfold spaces_of at 2. rewrite Hm. apply spaces_insert.
  - exists tx. split_and!; try done. intros ns'. destruct (decide (ns' = ns)) as [->|Hne]; [|by rewrite fn_lookup_insert_ne].
    rewrite fn_lookup_insert. unfold spaces_of. rewrite Hm. cbn. by rewrite delete_empty.
Qed.
Next Obligation.
  intros tx b [Ht Hh]. eexists. split; [done|]. cbn. split_and!; try done. intros Hl. by rewrite Ht, Hl.
Qed.
Next Obligation. intros p tx b _. cbn. unfold mem_drop. split; [|done]. by destruct (tx_token tx). Qed.
Next Obligation. intros K V ? ? ns k kr b _ Hk. eexists _, _. split; [done|]. cbn. by rewrite (mem_get_ref ns k kr). Qed.

(** ** Transactions that fail *)

Lemma io_bind_panic {S E A B} (m : io S E A) (f : A → io S E B) s s' : m s = (Panic, s') → (m ≫= f) s = (Panic, s').
Proof. intros Hm. unfold mbind, io_bind. by rewrite Hm. Qed.

(** C40: a write whose body fails is not an error but a panic.  [with_write] drops the transaction, neither committed nor rolled
    back, which panics; the data stay as they were, and the mutex of the writers is poisoned, so that
    every later write panics as well, whatever it does, and nothing can be written any more.  Reads go on. *)
Theorem failed_write_poisons {T} (f : io (Transaction Write) KVError T) e tx b :
  lock_writes b = true → write_token b = Free → f (MkTx (data b) true) = (Fail e, tx) → tx_token tx = true →
  ∃ b', with_write f b = (Panic, b') ∧ data b' = data b ∧
    (∀ U (g : io (Transaction Write) KVError U), with_write g b' = (Panic, b')) ∧
    mem_read b' = (Done (MkTx (data b) false), b').
Proof.
  intros Hl Ht Hf Htok. exists (set_token Poisoned b). unfold with_write. split_and!; [|done| |done].
  - rewrite (io_run_bind write _ b (MkTx (data b) true) (set_token Held b)).
    2: { cbn. unfold mem_write, take_token, mbind, io_bind, io_reads. by rewrite Hl, Ht. }
    rewrite Hf. cbn. unfold mem_drop. by rewrite Htok.
  - intros U g. apply io_bind_panic. cbn. apply io_bind_panic. unfold take_token. cbn. by rewrite Hl.
Qed.

(** ** Many threads *)

(** What is done in a transaction. *)
Inductive KVOp : Type → Type :=
| Get {K V} `{!Encode K, !Decode V} (ns : Namespace) (k : K) : KVOp (option V)
| Iterate {K V} `{!Decode K, !Decode V} (ns : Namespace) : KVOp (list (outcome KVError (K * V)))
| Put {K V} `{!Encode K, !Encode V} (ns : Namespace) (k : K) (v : V) : KVOp unit
| Delete {K} `{!Encode K} (ns : Namespace) (k : K) : KVOp unit.

Definition run_op {A} (o : KVOp A) : io (Transaction Write) KVError A :=
  match o in KVOp A return io (Transaction Write) KVError A with
  | Get ns k => kv_get ns k
  | Iterate ns => kv_iterate ns
  | Put ns k v => kv_put ns k v
  | Delete ns k => kv_delete ns k
  end.
(** A transaction that reads has no other operations. *)
Definition run_read {A} (o : KVOp A) : option (io (Transaction Read) KVError A) :=
  match o in KVOp A return option (io (Transaction Read) KVError A) with
  | Get ns k => Some (kv_get ns k)
  | Iterate ns => Some (kv_iterate ns)
  | Put _ _ _ | Delete _ _ => None
  end.

(** An operation with what came of it. *)
Record Entry := MkEntry { en_type : Type; en_op : KVOp en_type; en_result : outcome KVError en_type }.

Record Reader := MkReader { rd_tx : Transaction Read; rd_log : list Entry; rd_from : nat }.
Record Writer := MkWriter { wr_tx : Transaction Write; wr_log : list Entry }.

(** The back end, the threads that have the token but not yet the data, the transactions, and, for the record, the
    operations of the committed ones. *)
Record Store := MkStore {
  backend : InMemoryBackend;
  pending : gmap nat bool;
  readers : gmap nat Reader;
  writers : gmap nat Writer;
  history : list (list Entry)
}.

Inductive kv_step (s : Store) : Store → Prop :=
| k_read i tx b' :
    readers s !! i = None → mem_read (backend s) = (Done tx, b') →
    kv_step s (MkStore b' (pending s) (<[i := MkReader tx [] (length (history s))]> (readers s)) (writers s) (history s))
| k_read_op i r {A} (o : KVOp A) op x tx :
    readers s !! i = Some r → run_read o = Some op → op (rd_tx r) = (x, tx) →
    kv_step s (MkStore (backend s) (pending s) (<[i := MkReader tx (rd_log r ++ [MkEntry A o x]) (rd_from r)]> (readers s)) (writers s) (history s))
| k_read_end i :
    kv_step s (MkStore (backend s) (pending s) (delete i (readers s)) (writers s) (history s))
| k_take_token i token b' :
    pending s !! i = None → writers s !! i = None → take_token (backend s) = (Done token, b') →
    kv_step s (MkStore b' (<[i := token]> (pending s)) (readers s) (writers s) (history s))
| k_write i token :
    pending s !! i = Some token →
    kv_step s (MkStore (backend s) (delete i (pending s)) (readers s) (<[i := MkWriter (MkTx (data (backend s)) token) []]> (writers s)) (history s))
| k_write_op i w {A} (o : KVOp A) x tx :
    writers s !! i = Some w → run_op o (wr_tx w) = (x, tx) →
    kv_step s (MkStore (backend s) (pending s) (readers s) (<[i := MkWriter tx (wr_log w ++ [MkEntry A o x])]> (writers s)) (history s))
| k_commit i w b' :
    writers s !! i = Some w → mem_commit (wr_tx w) (backend s) = (Done tt, b') →
    kv_step s (MkStore b' (pending s) (readers s) (delete i (writers s)) (history s ++ [wr_log w]))
| k_rollback i w b' :
    writers s !! i = Some w → mem_rollback (wr_tx w) (backend s) = (Done tt, b') →
    kv_step s (MkStore b' (pending s) (readers s) (delete i (writers s)) (history s))
| k_drop i w panicking p b' :
    writers s !! i = Some w → mem_drop panicking (wr_tx w) (backend s) = (p, b') →
    kv_step s (MkStore b' (pending s) (readers s) (delete i (writers s)) (history s)).

(** A step that is chosen, if it can be taken. *)
Inductive Action :=
| ARead (i : nat)
| AReadOp (i : nat) {A} (o : KVOp A)
| AReadEnd (i : nat)
| ATakeToken (i : nat)
| AWrite (i : nat)
| AWriteOp (i : nat) {A} (o : KVOp A)
| ACommit (i : nat)
| ARollback (i : nat)
| ADrop (i : nat).

Definition act (a : Action) (s : Store) : option Store :=
  match a with
  | ARead i =>
      match readers s !! i, mem_read (backend s) with
      | None, (Done tx, b') => Some (MkStore b' (pending s) (<[i := MkReader tx [] (length (history s))]> (readers s)) (writers s) (history s))
      | _, _ => None
      end
  | AReadOp i o =>
      r ← readers s !! i; op ← run_read o;
      let '(x, tx) := op (rd_tx r) in
      Some (MkStore (backend s) (pending s) (<[i := MkReader tx (rd_log r ++ [MkEntry _ o x]) (rd_from r)]> (readers s)) (writers s) (history s))
  | AReadEnd i => Some (MkStore (backend s) (pending s) (delete i (readers s)) (writers s) (history s))
  | ATakeToken i =>
      match pending s !! i, writers s !! i, take_token (backend s) with
      | None, None, (Done token, b') => Some (MkStore b' (<[i := token]> (pending s)) (readers s) (writers s) (history s))
      | _, _, _ => None
      end
  | AWrite i =>
      token ← pending s !! i;
      Some (MkStore (backend s) (delete i (pending s)) (readers s) (<[i := MkWriter (MkTx (data (backend s)) token) []]> (writers s)) (history s))
  | AWriteOp i o =>
      w ← writers s !! i;
      let '(x, tx) := run_op o (wr_tx w) in
      Some (MkStore (backend s) (pending s) (readers s) (<[i := MkWriter tx (wr_log w ++ [MkEntry _ o x])]> (writers s)) (history s))
  | ACommit i =>
      w ← writers s !! i;
      Some (MkStore (mem_commit (wr_tx w) (backend s)).2 (pending s) (readers s) (delete i (writers s)) (history s ++ [wr_log w]))
  | ARollback i =>
      w ← writers s !! i;
      Some (MkStore (mem_rollback (wr_tx w) (backend s)).2 (pending s) (readers s) (delete i (writers s)) (history s))
  | ADrop i =>
      w ← writers s !! i;
      Some (MkStore (mem_drop false (wr_tx w) (backend s)).2 (pending s) (readers s) (delete i (writers s)) (history s))
  end.
Fixpoint act_all (l : list Action) (s : Store) : option Store :=
  match l with
  | [] => Some s
  | a :: l => s ← act a s; act_all l s
  end.

Lemma act_step a s s' : act a s = Some s' → kv_step s s'.
Proof.
  destruct a as [i|i A o|i|i|i|i A o|i|i|i]; cbn [act]; intros Ha.
  - destruct (readers s !! i) eqn:Hr; [done|]. injection Ha as <-. by eapply k_read.
  - apply bind_Some in Ha as (r & Hr & Ha). apply bind_Some in Ha as (op & Hop & Ha). destruct (op (rd_tx r)) as [x tx] eqn:Hx.
    injection Ha as <-. by eapply k_read_op.
  - injection Ha as <-. apply k_read_end.
  - destruct (pending s !! i) eqn:Hp; [done|]. destruct (writers s !! i) eqn:Hw; [done|].
    destruct (take_token (backend s)) as [[t| | | |] b'] eqn:Ht; try done. injection Ha as <-. by eapply k_take_token.
  - apply bind_Some in Ha as (t & Ht & [= <-]). by eapply k_write.
  - apply bind_Some in Ha as (w & Hw & Ha). destruct (run_op o (wr_tx w)) as [x tx] eqn:Hx. injection Ha as <-. by eapply k_write_op.
  - apply bind_Some in Ha as (w & Hw & [= <-]). by eapply k_commit.
  - apply bind_Some in Ha as (w & Hw & [= <-]). by eapply k_rollback.
  - apply bind_Some in Ha as (w & Hw & [= <-]). eapply (k_drop _ i w false); [done|]. apply surjective_pairing.
Qed.
Lemma act_all_steps l s s' : act_all l s = Some s' → rtc kv_step s s'.
Proof.
  revert s. induction l as [|a l IH]; intros s Ha; cbn [act_all] in Ha; [by injection Ha as ->|].
  apply bind_Some in Ha as (s1 & Hs1 & Ha). eapply rtc_l; [by eapply act_step|by apply IH].
Qed.

(** Operations one after the other, with the results that they have then. *)
Inductive serial : DataMap → list Entry → DataMap → Prop :=
| serial_nil d : serial d [] d
| serial_cons d e d1 l d2 :
    run_op (en_op e) (MkTx d true) = (en_result e, MkTx d1 true) → serial d1 l d2 → serial d (e :: l) d2.

Lemma serial_app d l1 d1 l2 d2 : serial d l1 d1 → serial d1 l2 d2 → serial d (l1 ++ l2) d2.
Proof. induction 1; intros Hl2; [done|]. cbn. econstructor; eauto. Qed.
Lemma serial_snoc d l d1 {A} (o : KVOp A) x d2 :
  serial d l d1 → run_op o (MkTx d1 true) = (x, MkTx d2 true) → serial d (l ++ [MkEntry A o x]) d2.
Proof. intros Hl Ho. eapply serial_app; [exact Hl|]. econstructor; [exact Ho|constructor]. Qed.

Lemma run_op_token {A} (o : KVOp A) d t x tx :
  run_op o (MkTx d t) = (x, tx) → tx_token tx = t ∧ run_op o (MkTx d true) = (x, MkTx (tx_data tx) true).
Proof.
  destruct o; cbn.
  - unfold mem_get. intros [= <- <-]. done.
  - intros [= <- <-]. done.
  - unfold mem_put. cbn. destruct (to_repr k) as [kr| | | |]; cbn; [destruct (to_repr v) as [vr| | | |]; cbn|..]; by intros [= <- <-].
  - unfold mem_delete. cbn. destruct (d !! ns); [destruct (to_repr k)|]; by intros [= <- <-].
Qed.

Lemma run_read_data {A} (o : KVOp A) op d t x tx :
  run_read o = Some op → op (MkTx d t) = (x, tx) → tx = MkTx d t ∧ run_op o (MkTx d true) = (x, MkTx d true).
Proof.
  destruct o; cbn; intros [= <-].
  - unfold mem_get. intros [= <- <-]. done.
  - intros [= <- <-]. done.
Qed.

(** What holds in every state. *)
Record consistent (d0 : DataMap) (s : Store) : Prop := {
  co_locks : lock_writes (backend s) = true;
  co_pending i t : pending s !! i = Some t → t = true ∧ write_token (backend s) = Held ∧ writers s = ∅ ∧ ∀ j t', pending s !! j = Some t' → j = i;
  co_writers i w : writers s !! i = Some w → tx_token (wr_tx w) = true ∧ write_token (backend s) = Held ∧ pending s = ∅ ∧
    serial (data (backend s)) (wr_log w) (tx_data (wr_tx w)) ∧ ∀ j w', writers s !! j = Some w' → j = i;
  co_data : serial d0 (concat (history s)) (data (backend s));
  co_readers i r : readers s !! i = Some r → tx_token (rd_tx r) = false ∧ (rd_from r ≤ length (history s))%nat ∧
    serial d0 (concat (take (rd_from r) (history s))) (tx_data (rd_tx r)) ∧ serial (tx_data (rd_tx r)) (rd_log r) (tx_data (rd_tx r))
}.

Lemma readers_later d0 (s : Store) l :
  consistent d0 s → ∀ i r, readers s !! i = Some r → tx_token (rd_tx r) = false ∧ (rd_from r ≤ length (history s ++ [l]))%nat ∧
    serial d0 (concat (take (rd_from r) (history s ++ [l]))) (tx_data (rd_tx r)) ∧ serial (tx_data (rd_tx r)) (rd_log r) (tx_data (rd_tx r)).
Proof.
  intros Hs i r Hr. destruct (co_readers _ _ Hs i r Hr) as (Ht & Hle & Hd & Hl). rewrite length_app, take_app_le by done. split_and!; [done|lia|done|done].
Qed.

Lemma no_pending d0 (s : Store) i w : consistent d0 s → writers s !! i = Some w → pending s = ∅ ∧ delete i (writers s) = ∅.
Proof.
  intros Hs Hw. destruct (co_writers _ _ Hs i w Hw) as (_ & _ & Hp & _ & Hj). split; [done|].
  apply map_empty. intros j. destruct (decide (j = i)) as [->|Hne]; [by rewrite lookup_delete_eq|rewrite lookup_delete_ne by done].
  destruct (writers s !! j) as [w'|] eqn:Hw'; [|done]. by apply Hj in Hw'.
Qed.

(** A writer ends, without having changed the data. *)
Lemma consistent_end d0 (s : Store) i w t :
  consistent d0 s → writers s !! i = Some w →
  consistent d0 (MkStore (set_token t (backend s)) (pending s) (readers s) (delete i (writers s)) (history s)).
Proof.
  intros Hs Hw. destruct (no_pending d0 s i w Hs Hw) as [Hp Hd]. destruct Hs as [Hl _ _ Hdata Hr].
  split; cbn; rewrite ?Hp, ?Hd; try done.
Qed.

Lemma consistent_step d0 (s s' : Store) : kv_step s s' → consistent d0 s → consistent d0 s'.
Proof.
  intros Hstep Hs. destruct Hstep as [i tx b' Hi Hread|i r A o op x tx Hi Hop Hx|i|i token b' Hp Hw Htake|i token Hp|i w A o x tx Hw Hx|
    i w b' Hw Hc|i w b' Hw Hc|i w pk p b' Hw Hd].
  - injection Hread as <- <-. destruct Hs as [Hl Hpe Hwr Hd Hr]. split; cbn; try done. intros j r.
    rewrite lookup_insert_Some. intros [[<- <-]|[_ Hj]]; [|by apply Hr in Hj]. cbn. rewrite firstn_all. split_and!; [done|done|done|constructor].
  - destruct Hs as [Hl Hpe Hwr Hd Hr]. split; cbn; try done. intros j r'. rewrite lookup_insert_Some. intros [[<- <-]|[_ Hj]]; [|by apply Hr in Hj].
    destruct (Hr i r Hi) as (Ht & Hle & Hfrom & Hlog). destruct r as [[d t] log from]. cbn in *.
    destruct (run_read_data o op d t x tx Hop Hx) as [-> Hrun]. cbn. split_and!; try done. by eapply serial_snoc.
  - destruct Hs as [Hl Hpe Hwr Hd Hr]. split; cbn; try done. intros j r Hj%lookup_delete_Some. destruct Hj as [_ Hj]. by apply Hr in Hj.
  - destruct Hs as [Hl Hpe Hwr Hd Hr]. unfold take_token in Htake. rewrite Hl in Htake. destruct (write_token (backend s)) eqn:Ht; try done.
    injection Htake as <- <-.
    assert (pending s = ∅) as Hp0. { apply map_empty. intros j. destruct (pending s !! j) as [t|] eqn:Hj; [|done]. destruct (Hpe j t Hj) as (_ & ? & _). congruence. }
    assert (writers s = ∅) as Hw0. { apply map_empty. intros j. destruct (writers s !! j) as [w|] eqn:Hj; [|done]. destruct (Hwr j w Hj) as (_ & ? & _). congruence. }
    split; cbn; rewrite ?Hp0, ?Hw0; try done. intros j t. rewrite lookup_insert_Some, lookup_empty. intros [[<- <-]|[_ [=]]].
    split_and!; try done. intros j' t'. rewrite lookup_insert_Some, lookup_empty. naive_solver.
  - destruct Hs as [Hl Hpe Hwr Hd Hr]. destruct (Hpe i token Hp) as (-> & Ht & Hw0 & Hj).
    assert (delete i (pending s) = ∅) as Hp0. { apply map_empty. intros j. destruct (decide (j = i)) as [->|Hne]; [by rewrite lookup_delete_eq|].
      rewrite lookup_delete_ne by done. destruct (pending s !! j) as [t|] eqn:Hpj; [|done]. by apply Hj in Hpj. }
    split; cbn; rewrite ?Hp0, ?Hw0; try done. intros j w. rewrite lookup_insert_Some, lookup_empty. intros [[<- <-]|[_ [=]]]. cbn.
    split_and!; try done; [constructor|]. intros j' w'. rewrite lookup_insert_Some, lookup_empty. naive_solver.
  - destruct Hs as [Hl Hpe Hwr Hd Hr]. destruct (Hwr i w Hw) as (Ht & Hh & Hp0 & Hlog & Hj). destruct w as [[d t] log]. cbn in *.
    destruct (run_op_token o d t x tx Hx) as [Ht' Hrun]. split; cbn; rewrite ?Hp0; try done. intros j w'. rewrite lookup_insert_Some.
    intros [[<- <-]|[Hne Hj']]; [|by apply Hj in Hj']. cbn. split_and!; [congruence|done|done|by eapply serial_snoc|].
    intros j' w''. rewrite lookup_insert_Some. intros [[<- _]|[_ Hj'']]; [done|by eapply Hj].
  - destruct (no_pending d0 s i w Hs Hw) as [Hp0 Hw0]. injection Hc as <-. pose proof (readers_later d0 s (wr_log w) Hs) as Hr'.
    destruct Hs as [Hl Hpe Hwr Hd Hr]. destruct (Hwr i w Hw) as (Ht & Hh & _ & Hlog & _).
    split; cbn; rewrite ?Hp0, ?Hw0; try done. rewrite concat_app. cbn. rewrite app_nil_r. by eapply serial_app.
  - destruct (co_writers _ _ Hs i w Hw) as (Ht & _). injection Hc as <-. rewrite Ht. by eapply consistent_end.
  - destruct (co_writers _ _ Hs i w Hw) as (Ht & _). unfold mem_drop in Hd. rewrite Ht in Hd. injection Hd as _ <-. by eapply consistent_end.
Qed.

(** C12: with locked writes, whatever threads do, however their transactions are interleaved and whether they are committed, rolled back
    or dropped, the data are those of the committed transactions executed one after the other, every operation with the
    result that it had; there is at most one writer, which sees the data and its own changes; and a
    reader sees the data from when it began, which are those of the transactions that were committed before. *)
Theorem writes_serializable d0 (s : Store) :
  rtc kv_step (MkStore (MkBackend d0 Free true) ∅ ∅ ∅ []) s →
  serial d0 (concat (history s)) (data (backend s)) ∧
  (∀ i w, writers s !! i = Some w →
    serial (data (backend s)) (wr_log w) (tx_data (wr_tx w)) ∧ ∀ j w', writers s !! j = Some w' → j = i) ∧
  (∀ i r, readers s !! i = Some r →
    serial d0 (concat (take (rd_from r) (history s))) (tx_data (rd_tx r)) ∧ serial (tx_data (rd_tx r)) (rd_log r) (tx_data (rd_tx r))).
Proof.
  intros Hsteps. assert (consistent d0 s) as [_ _ Hw Hd Hr].
  { assert (consistent d0 (MkStore (MkBackend d0 Free true) ∅ ∅ ∅ [])) as Hs0 by (split; cbn; try done; constructor).
    induction Hsteps as [|s1 s2 s3 Hstep _ IH]; [done|]. by eapply IH, consistent_step. }
  split_and!; [done| |].
  - intros i w Hi. by destruct (Hw i w Hi) as (_ & _ & _ & ? & ?).
  - intros i r Hi. by destruct (Hr i r Hi) as (_ & _ & ? & ?).
Qed.
End memory.

(** ** A sample *)

Module SampleMemory.
Import SampleKV.

Definition app_ns : Namespace (KVStore:=numbers) := "app"%string.

Definition incr (k : string) : io (Transaction Write) KVError unit :=
  v ← kv_get app_ns k;
  kv_put app_ns k (default 0 v + 1).
Definition value (k : string) (b : InMemoryBackend) : outcome KVError (option N) := (kv_get app_ns k (MkTx (M:=Read) (data b) false)).1.

(** *** A body that fails *)

Definition broken : io (Transaction Write) KVError unit := incr "x" ;; io_of (Fail (Abort "no")).

Lemma failed_write_poisons_witness : ∃ b, with_write broken backend_default = (Panic, b) ∧ with_write (incr "x") b = (Panic, b) ∧ value "x" b = Done None.
Proof.
  destruct (failed_write_poisons broken (Abort "no") (incr "x" (MkTx ∅ true)).2 backend_default) as (b & Hrun & Hd & Hlater & _);
    [reflexivity|reflexivity|vm_compute; reflexivity|vm_compute; reflexivity|].
  exists b. split; [exact Hrun|]. split; [apply Hlater|]. unfold value. rewrite Hd. vm_compute. reflexivity.
Defined.
(** Without the lock it is an error, and the store goes on. *)
Example failed_write_unlocked : ∃ b, with_write broken (backend_new false) = (Fail (Abort "no"), b) ∧ (with_write (incr "x") b).1 = Done tt.
Proof. exists (backend_new false). split; vm_compute; reflexivity. Qed.

(** *** Two writers and a reader *)

Definition put_op (n : N) : KVOp unit := Put app_ns "x"%string n.
Definition get_op : KVOp (option N) := Get app_ns "x"%string.

(** The first writer commits 1 while the reader looks on; then the second one reads it and writes 2. *)
Definition actions : list Action :=
  [ATakeToken 1; AWrite 1; ARead 7; AWriteOp 1 get_op; AWriteOp 1 (put_op 1); ACommit 1;
   ATakeToken 2; AWrite 2; AReadOp 7 get_op; AWriteOp 2 get_op; AWriteOp 2 (put_op 2); ACommit 2].
Definition start (lock : bool) : Store := MkStore (MkBackend ∅ Free lock) ∅ ∅ ∅ [].
Definition final : Store := default (start true) (act_all actions (start true)).

Lemma final_reached : rtc kv_step (start true) final.
Proof.
  unfold final. destruct (act_all actions (start true)) as [s|] eqn:Hs; [by apply act_all_steps in Hs|apply rtc_refl].
Qed.

Lemma writes_serializable_witness :
  serial ∅ (concat (history final)) (data (backend final)) ∧ length (concat (history final)) = 4%nat ∧
  value "x" (backend final) = Done (Some 2).
Proof.
  split; [|split; vm_compute; reflexivity]. exact (proj1 (writes_serializable ∅ final final_reached)).
Defined.

(** Without the lock, of two threads that count at the same time one is lost. *)
Definition count_twice : list Action :=
  [ATakeToken 1; ATakeToken 2; AWrite 1; AWrite 2; AWriteOp 1 get_op; AWriteOp 2 get_op; AWriteOp 1 (put_op 1); AWriteOp 2 (put_op 1); ACommit 1; ACommit 2].
Example unlocked_update_lost :
  (λ s, value "x" (backend s)) <$> act_all count_twice (start false) = Some (Done (Some 1)) ∧ act_all count_twice (start true) = None.
Proof. split; vm_compute; reflexivity. Qed.
End SampleMemory.
