(* ===== verification/RocksStore.v ===== *)
(** * The store on RocksDB

    [fendermint/rocksdb/src/kvstore.rs]: the back end of the node.  Namespaces are column families; reads go through a snapshot,
    and writes through an optimistic transaction.  The database is third-party code: the class [Rocks] has what is used of it, and
    [RocksLaws] what is documented of it for a transaction that no other one conflicts with. *)

From stdpp Require Import functions.
From S2P Require Import Prelude KVStore.

(** ** The database *)

Inductive ErrorKind := Busy | OtherKind.
Record RocksError := MkRocksError { error_kind : ErrorKind; error_text : string }.

Class Rocks `{KVStore} := {
  as_ref : Namespace → string;
  Db : Type;
  RTx : Type;
  Snapshot : Type;
  ColumnFamily : Type;
  cf_handle : Db → string → option ColumnFamily;
  db_snapshot : Db → Snapshot;
  snapshot_get_cf : ColumnFamily → Repr → Snapshot → RocksError + option Repr;
  snapshot_iterator_cf : ColumnFamily → Snapshot → list (RocksError + (Repr * Repr));
  db_transaction : Db → RTx;
  tx_get_cf : ColumnFamily → Repr → RTx → RocksError + option Repr;
  tx_iterator_cf : ColumnFamily → RTx → list (RocksError + (Repr * Repr));
  tx_put_cf : ColumnFamily → Repr → Repr → RTx → (RocksError + unit) * RTx;
  tx_delete_cf : ColumnFamily → Repr → RTx → (RocksError + unit) * RTx;
  tx_commit : RTx → Db → (RocksError + unit) * Db;
  tx_rollback : RTx → Db → (RocksError + unit) * Db
}.

Definition to_kv_error (e : RocksError) : KVError :=
  match error_kind e with
  | Busy => Conflict
  | OtherKind => Unexpected (error_text e)
  end.
Definition rocks {A} (r : RocksError + A) : outcome KVError A :=
  match r with
  | inl e => Fail (to_kv_error e)
  | inr a => Done a
  end.

Section rocks.
Context `{Rocks}.

(** The handles that were looked up, and how those of the database are. *)
Record ColumnFamilyCache := MkCache { cache_db : string → option ColumnFamily; cfs : gmap string ColumnFamily }.
Definition cache_new (db : Db) : ColumnFamilyCache := MkCache (cf_handle db) ∅.

Definition with_cf_handle {S T} (get : S → ColumnFamilyCache) (set : ColumnFamilyCache → S → S) (name : string)
    (f : ColumnFamily → io S KVError T) : io S KVError T := λ s,
  let c := get s in
  match cfs c !! name with
  | Some cf => f cf s
  | None =>
      match cache_db c name with
      | None => (Fail (Unexpected ("column family " +:+ name +:+ " doesn't exist")%string), s)
      | Some cf => f cf (set (MkCache (cache_db c) (<[name := cf]> (cfs c))) s)
      end
  end.

Record RocksDbReadTx := MkReadTx { read_cache : ColumnFamilyCache; snapshot : Snapshot }.
Record RocksDbWriteTx := MkWriteTx { write_cache : ColumnFamilyCache; rtx : RTx }.

Definition read_cf {T} (ns : Namespace) (f : ColumnFamily → io RocksDbReadTx KVError T) : io RocksDbReadTx KVError T :=
  with_cf_handle read_cache (λ c tx, MkReadTx c (snapshot tx)) (as_ref ns) f.
Definition write_cf {T} (ns : Namespace) (f : ColumnFamily → io RocksDbWriteTx KVError T) : io RocksDbWriteTx KVError T :=
  with_cf_handle write_cache (λ c tx, MkWriteTx c (rtx tx)) (as_ref ns) f.

Definition decode_opt {V} `{!Decode V} (r : option Repr) : outcome KVError (option V) :=
  match r with
  | Some bz => Some <$> from_repr bz
  | None => Done None
  end.
Definition decode_row {K V} `{!Decode K, !Decode V} (r : RocksError + (Repr * Repr)) : outcome KVError (K * V) :=
  i ← rocks r; k ← from_repr i.1; v ← from_repr i.2; Done (k, v).

(** A missing column family is an error of [get], and makes [iterate] panic. *)
Definition expect {S T} (m : io S KVError T) : io S KVError T := λ s,
  match m s with
  | (Fail _, s) => (Panic, s)
  | r => r
  end.

Definition in_snapshot {A} (f : Snapshot → outcome KVError A) : io RocksDbReadTx KVError A := λ tx, (f (snapshot tx), tx).
Definition in_rtx {A} (f : RTx → outcome KVError A) : io RocksDbWriteTx KVError A := λ tx, (f (rtx tx), tx).

Definition rocks_read_get {K V} `{!Encode K, !Decode V} (ns : Namespace) (k : K) : io RocksDbReadTx KVError (option V) :=
  read_cf ns (λ cf, key ← io_of (to_repr k); in_snapshot (λ t, r ← rocks (snapshot_get_cf cf key t); decode_opt r)).
Definition rocks_read_iterate {K V} `{!Decode K, !Decode V} (ns : Namespace) : io RocksDbReadTx KVError (list (outcome KVError (K * V))) :=
  expect (read_cf ns (λ cf tx, (Done (decode_row <$> snapshot_iterator_cf cf (snapshot tx)), tx))).
#[export] Instance rocks_reads : KVRead RocksDbReadTx := {| kv_get K V _ _ := rocks_read_get; kv_iterate K V _ _ := rocks_read_iterate |}.

Definition rocks_get {K V} `{!Encode K, !Decode V} (ns : Namespace) (k : K) : io RocksDbWriteTx KVError (option V) :=
  write_cf ns (λ cf, key ← io_of (to_repr k); in_rtx (λ t, r ← rocks (tx_get_cf cf key t); decode_opt r)).
Definition rocks_iterate {K V} `{!Decode K, !Decode V} (ns : Namespace) : io RocksDbWriteTx KVError (list (outcome KVError (K * V))) :=
  expect (write_cf ns (λ cf tx, (Done (decode_row <$> tx_iterator_cf cf (rtx tx)), tx))).
#[export] Instance rocks_write_reads : KVRead RocksDbWriteTx := {| kv_get K V _ _ := rocks_get; kv_iterate K V _ _ := rocks_iterate |}.

Definition on_rtx (f : RTx → (RocksError + unit) * RTx) : io RocksDbWriteTx KVError unit := λ tx,
  let '(r, t) := f (rtx tx) in (rocks r, MkWriteTx (write_cache tx) t).
Definition rocks_put {K V} `{!Encode K, !Encode V} (ns : Namespace) (k : K) (v : V) : io RocksDbWriteTx KVError unit :=
  write_cf ns (λ cf, kr ← io_of (to_repr k); vr ← io_of (to_repr v); on_rtx (tx_put_cf cf kr vr)).
Definition rocks_delete {K} `{!Encode K} (ns : Namespace) (k : K) : io RocksDbWriteTx KVError unit :=
  write_cf ns (λ cf, kr ← io_of (to_repr k); on_rtx (tx_delete_cf cf kr)).
#[export] Instance rocks_writes : KVWrite RocksDbWriteTx := {| kv_put K V _ _ := rocks_put; kv_delete K _ := rocks_delete |}.

Definition rocks_read : io Db KVError RocksDbReadTx := λ db, (Done (MkReadTx (cache_new db) (db_snapshot db)), db).
Definition rocks_write : io Db KVError RocksDbWriteTx := λ db, (Done (MkWriteTx (cache_new db) (db_transaction db)), db).
Definition rocks_commit (tx : RocksDbWriteTx) : io Db KVError unit := λ db, let '(r, db) := tx_commit (rtx tx) db in (rocks r, db).
Definition rocks_rollback (tx : RocksDbWriteTx) : io Db KVError unit := λ db, let '(r, db) := tx_rollback (rtx tx) db in (rocks r, db).
(** The transaction itself is never dropped. *)
Definition rocks_drop (panicking : bool) (tx : RocksDbWriteTx) (db : Db) : bool * Db := (negb panicking, db).

#[export] Instance rocks_readable : KVReadable Db RocksDbReadTx := {| read := rocks_read |}.
#[export] Instance rocks_writable : KVWritable Db RocksDbWriteTx := {|
  write := rocks_write;
  commit := rocks_commit;
  rollback := rocks_rollback;
  drop_tx := rocks_drop
|}.
End rocks.

(** ** What is documented of the database

    The data of a column family in the database, a snapshot and a transaction.  [open_on] is that a transaction was begun on
    the database, that none was committed since, and that the disk answers. *)
Class RocksLaws `{Rocks} := {
  as_ref_inj :: Inj (=) (=) as_ref;
  cf_name : ColumnFamily → string;
  db_data : Db → string → gmap Repr Repr;
  tx_view : RTx → string → gmap Repr Repr;
  open_on : RTx → Db → Prop;
  db_ok : Db → Prop;
  cf_handle_name db name cf : cf_handle db name = Some cf → cf_name cf = name;
  snapshot_get_law db cf k : db_ok db → snapshot_get_cf cf k (db_snapshot db) = inr (db_data db (cf_name cf) !! k);
  transaction_law db : db_ok db → open_on (db_transaction db) db ∧ tx_view (db_transaction db) = db_data db;
  tx_get_law t db cf k : open_on t db → tx_get_cf cf k t = inr (tx_view t (cf_name cf) !! k);
  tx_put_law t db cf k v : open_on t db → ∃ t', tx_put_cf cf k v t = (inr tt, t') ∧ open_on t' db ∧
    ∀ n, tx_view t' n = if decide (n = cf_name cf) then <[k := v]> (tx_view t n) else tx_view t n;
  tx_delete_law t db cf k : open_on t db → ∃ t', tx_delete_cf cf k t = (inr tt, t') ∧ open_on t' db ∧
    ∀ n, tx_view t' n = if decide (n = cf_name cf) then delete k (tx_view t n) else tx_view t n;
  tx_commit_law t db : open_on t db → ∃ db', tx_commit t db = (inr tt, db') ∧ db_ok db' ∧ db_data db' = tx_view t ∧
    ∀ name, cf_handle db' name = cf_handle db name;
  open_ok t db : open_on t db → db_ok db
}.

Section laws.
Context `{RocksLaws}.

(** The cache has handles of the database. *)
Definition cache_ok (c : ColumnFamilyCache) : Prop :=
  (∀ name cf, cache_db c name = Some cf → cf_name cf = name) ∧ ∀ name cf, cfs c !! name = Some cf → cf_name cf = name.
Definition cached (ns : Namespace) (c : ColumnFamilyCache) : Prop :=
  is_Some (cfs c !! as_ref ns) ∨ is_Some (cache_db c (as_ref ns)).

Lemma cache_new_ok db : cache_ok (cache_new db).
Proof. split; cbn; [apply cf_handle_name|done]. Qed.

(** Looking up a column family only adds it to the cache. *)
Lemma with_cf_run {S T} (get : S → ColumnFamilyCache) (set : ColumnFamilyCache → S → S) ns (f : ColumnFamily → io S KVError T) s :
  cache_ok (get s) → cached ns (get s) →
  ∃ cf c, with_cf_handle get set (as_ref ns) f s = f cf (if decide (cfs (get s) !! as_ref ns = None) then set c s else s) ∧
    cf_name cf = as_ref ns ∧ cache_ok c ∧ ∀ ns', cached ns' (get s) → cached ns' c.
Proof.
  intros [Hdb Hcfs] Hc. unfold with_cf_handle. destruct (cfs (get s) !! as_ref ns) as [cf|] eqn:Hcf.
  - exists cf, (get s). rewrite decide_False by done. split_and!; [done|by apply Hcfs|done|done].
  - destruct Hc as [[cf Hx]|[cf Hcf']]; [congruence|]. rewrite Hcf'. eexists cf, _. rewrite decide_True by done. split; [done|].
    split_and!; [by apply Hdb| |].
    + split; [done|]. cbn. intros name cf'. rewrite lookup_insert_Some. intros [[<- <-]|[_ Hl]]; [by apply Hdb|by apply Hcfs].
    + intros ns' [Hl|Hl]; [left|by right]. cbn. rewrite lookup_insert_is_Some'. by right.
Qed.

Definition writing (tx : RocksDbWriteTx) (db : Db) : Prop :=
  open_on (rtx tx) db ∧ cache_ok (write_cache tx).

(** A write goes on with the same transaction, and a column family of the right name. *)
Lemma write_cf_run {T} ns (f : ColumnFamily → io RocksDbWriteTx KVError T) tx db :
  writing tx db → cached ns (write_cache tx) →
  ∃ cf tx', write_cf ns f tx = f cf tx' ∧ cf_name cf = as_ref ns ∧ rtx tx' = rtx tx ∧ writing tx' db ∧
    ∀ ns', cached ns' (write_cache tx) → cached ns' (write_cache tx').
Proof.
  intros [Ho Hc] Hns. destruct (with_cf_run write_cache (λ c tx, MkWriteTx c (rtx tx)) ns f tx Hc Hns) as (cf & c & Hrun & Hn & Hok & Hm).
  exists cf. eexists. split; [exact Hrun|]. split; [done|]. case_decide; (split; [done|]); (split; [by split|]); auto.
Qed.

Lemma view_update t t' (m : gmap Repr Repr) ns cf :
  cf_name cf = as_ref ns → (∀ n, tx_view t' n = if decide (n = cf_name cf) then m else tx_view t n) →
  same_data (λ ns', tx_view t' (as_ref ns')) (<[ns := m]> (λ ns', tx_view t (as_ref ns'))).
Proof.
  intros Hcf Hv ns'. rewrite Hv, Hcf. destruct (decide (ns' = ns)) as [->|Hne].
  - by rewrite decide_True, fn_lookup_insert.
  - rewrite fn_lookup_insert_ne by done. rewrite decide_False; [done|]. by intros ?%(inj as_ref).
Qed.

#[export] Program Instance rocks_laws : KVBackendLaws (B:=Db) (R:=RocksDbReadTx) (Tx:=RocksDbWriteTx) := {|
  contents db ns := db_data db (as_ref ns);
  tx_contents tx ns := tx_view (rtx tx) (as_ref ns);
  usable := db_ok;
  owns := writing;
  available ns tx := cached ns (write_cache tx);
  serves ns db := db_ok db ∧ is_Some (cf_handle db (as_ref ns))
|}.
Next Obligation.
  intros db Hok. destruct (transaction_law db Hok) as [Ho Hv]. eexists _, db. split; [done|]. cbn.
  split_and!; [split; [done|apply cache_new_ok]|by rewrite Hv|done|]. intros ns [_ Hs]. split; [by right|by split].
Qed.
Next Obligation.
  intros K V ? ? ns k kr tx db Hw Hns Hk. cbn. unfold rocks_get.
  edestruct (write_cf_run ns (λ cf, key ← io_of (to_repr k); in_rtx (λ t, r ← rocks (tx_get_cf cf key t); decode_opt (V:=V) r)) tx db Hw Hns)
    as (cf & tx' & Hrun & Hn & Ht & Hw' & Hm). exists tx'. split_and!; [|done|by rewrite Ht|done].
  rewrite Hrun. cbv beta. rewrite (io_run_bind _ _ _ kr tx') by (unfold io_of; by rewrite Hk).
  unfold in_rtx. rewrite (tx_get_law _ db) by apply Hw'. cbn [rocks mbind outcome_bind]. rewrite Hn, Ht. unfold ref_get. by rewrite Hk.
Qed.
Next Obligation.
  intros K V ? ? ns k v tx db Hw Hns. cbn. unfold rocks_put, ref_put.
  destruct (write_cf_run ns (λ cf, kr ← io_of (to_repr k); vr ← io_of (to_repr v); on_rtx (tx_put_cf cf kr vr)) tx db Hw Hns)
    as (cf & tx' & Hrun & Hn & Ht & Hw' & Hm). rewrite Hrun. cbv beta.
  destruct (to_repr k) as [kr|e| | |]; cbn [mbind outcome_bind]; [|by exists tx'|done..]. rewrite (io_run_bind _ _ _ kr tx') by done.
  destruct (to_repr v) as [vr|e| | |]; cbn [mbind outcome_bind]; [|by exists tx'|done..]. rewrite (io_run_bind _ _ _ vr tx') by done.
  destruct (tx_put_law (rtx tx') db cf kr vr (proj1 Hw')) as (t' & Hput & Ho' & Hv). unfold on_rtx. rewrite Hput.
  eexists. split; [done|]. cbn. split_and!; [split; [done|apply Hw']| |done].
  rewrite Ht in Hv. apply (view_update _ _ _ _ cf Hn). intros n. rewrite Hv. case_decide; [subst; by rewrite Hn|done].
Qed.
Next Obligation.
  intros K ? ns k kr tx db Hw Hns Hk. cbn. unfold rocks_delete.
  destruct (write_cf_run ns (λ cf, kr ← io_of (to_repr k); on_rtx (tx_delete_cf cf kr)) tx db Hw Hns)
    as (cf & tx' & Hrun & Hn & Ht & Hw' & Hm). rewrite Hrun. cbv beta.
  rewrite (io_run_bind _ _ _ kr tx') by (unfold io_of; by rewrite Hk).
  destruct (tx_delete_law (rtx tx') db cf kr (proj1 Hw')) as (t' & Hdel & Ho' & Hv). unfold on_rtx. rewrite Hdel.
  eexists. split; [done|]. cbn. split_and!; [split; [done|apply Hw']| |done].
  rewrite Ht in Hv. apply (view_update _ _ _ _ cf Hn). intros n. rewrite Hv. case_decide; [subst; by rewrite Hn|done].
Qed.
Next Obligation.
  intros tx db [Ho _]. destruct (tx_commit_law _ _ Ho) as (db' & Hc & Hok & Hd & Hh). exists db'. cbn. unfold rocks_commit. rewrite Hc.
  split_and!; [done|done|by rewrite Hd|]. intros ns [_ Hs]. split; [done|by rewrite Hh].
Qed.
Next Obligation. done. Qed.
Next Obligation.
  intros K V ? ? ns k kr db [Hok Hs] Hk. cbn. unfold rocks_read.
  destruct (with_cf_run read_cache (λ c tx, MkReadTx c (snapshot tx)) ns
    (λ cf, key ← io_of (to_repr k); in_snapshot (λ t, r ← rocks (snapshot_get_cf cf key t); decode_opt (V:=V) r))
    (MkReadTx (cache_new db) (db_snapshot db)) (cache_new_ok db)) as (cf & c & Hrun & Hn & _); [by right|].
  eexists _, _. split; [done|]. unfold rocks_read_get, read_cf. rewrite Hrun. cbv beta. cbn [read_cache cache_new cfs]. rewrite decide_True by done. cbn [snapshot].
  erewrite io_run_bind by (unfold io_of; by rewrite Hk). unfold in_snapshot. cbn [snapshot]. rewrite snapshot_get_law by done. cbn [rocks mbind outcome_bind].
  unfold ref_get. rewrite Hk. cbn [mbind outcome_bind]. by rewrite Hn.
Qed.
End laws.

(** ** A sample *)

Module SampleRocks.
Import SampleKV.

(** A database that is a map: the names of the column families, and their data; a transaction and a snapshot are copies. *)
Abbreviation Families := (gmap string (gmap N N)).
Definition family (d : Families) (name : string) : gmap N N := default ∅ (d !! name).
#[export] Instance map_db : Rocks (H:=numbers) := {|
  as_ref := λ ns : Namespace (KVStore:=numbers), ns;
  Db := gset string * Families;
  RTx := Families;
  Snapshot := Families;
  ColumnFamily := string;
  cf_handle d name := if decide (name ∈ d.1) then Some name else None;
  db_snapshot d := d.2;
  snapshot_get_cf cf k d := inr (family d cf !! k);
  snapshot_iterator_cf cf d := inr <$> merge_sort item_le (map_to_list (family d cf));
  db_transaction d := d.2;
  tx_get_cf cf k d := inr (family d cf !! k);
  tx_iterator_cf cf d := inr <$> merge_sort item_le (map_to_list (family d cf));
  tx_put_cf cf k v d := (inr tt, <[cf := <[k := v]> (family d cf)]> d);
  tx_delete_cf cf k d := (inr tt, <[cf := delete k (family d cf)]> d);
  tx_commit t d := (inr tt, (d.1, t));
  tx_rollback t d := (inr tt, d)
|}.

Lemma family_insert cf m (d : Families) n : family (<[cf := m]> d) n = if decide (n = cf) then m else family d n.
Proof. unfold family. case_decide; [subst; by rewrite lookup_insert_eq|by rewrite lookup_insert_ne]. Qed.

#[export] Instance map_db_laws : RocksLaws (H0:=map_db).
Proof.
  refine {| cf_name := λ cf : ColumnFamily (Rocks:=map_db), cf; db_data d := family d.2; tx_view := family; open_on _ _ := True; db_ok _ := True |}; try done.
  - intros d name cf. cbn. case_decide; [by intros [= <-]|done].
  - intros t d cf k v _. eexists. split; [done|]. split; [done|]. intros n. rewrite family_insert. case_decide; [by subst|done].
  - intros t d cf k _. eexists. split; [done|]. split; [done|]. intros n. rewrite family_insert. case_decide; [by subst|done].
  - intros t d _. eexists. split; [done|]. by split_and!.
Defined.

(** A column family that does not exist is an error for [get], and a panic for [iterate]. *)
Definition no_families : Db (Rocks:=map_db) := (∅, ∅).
Definition spam : Namespace (KVStore:=numbers) := "spam"%string.
Definition some_tx : RocksDbWriteTx := MkWriteTx (cache_new no_families) (db_transaction no_families).
Example missing_family :
  (rocks_get (K:=N) (V:=N) spam 1 some_tx).1 = Fail (Unexpected "column family spam doesn't exist") ∧
  (rocks_iterate (K:=N) (V:=N) spam some_tx).1 = Panic.
Proof. split; vm_compute; reflexivity. Qed.
End SampleRocks.
