(* ===== verification/AppStore.v ===== *)
(** * The state of the application in a store

    [fendermint/app/src/app.rs] keeps its last state and the history of states in a key-value store.  The application is modelled
    with that data as typed maps; here its accesses are those of the code, on any back end with the laws of [KVStore], and
    do the same. *)

From stdpp Require Import functions.
From S2P Require Import Prelude KVStore MemoryStore RocksStore Weights Voting Finality Node Fetch Syncer Cross Pool Validators Ledger Chain Signing Checkpoint Broadcast Interp BytesInterp Query App.

(** [AppStoreKey] *)
Inductive AppStoreKey := State.
#[export] Instance AppStoreKey_eq_dec : EqDecision AppStoreKey.
Proof. solve_decision. Defined.

Section app_store.
Context `{Profile, Scheduler, !ChainIds, !Machine, !Inner, !Resolvers, !BytesInterp.Codec, !Launch, !Backend}.
Context `{KVReadable B R, !KVWritable B Tx, !KVBackendLaws}.
Context `{!Encode AppStoreKey, !Decode AppStoreKey, !KVStore.CodecLaws AppStoreKey}.
Context `{!Encode N, !Decode N, !KVStore.CodecLaws N}.
Context `{!Encode AppState, !Decode AppState, !KVStore.CodecLaws AppState}.
Context `{!Encode FvmStateParams, !Decode FvmStateParams, !KVStore.CodecLaws FvmStateParams}.
Context (config : AppConfig) (app_namespace state_hist_namespace : Namespace).

Definition state_hist_coll : KVCollection N FvmStateParams := MkCollection state_hist_namespace.

Fixpoint kv_prune (fuel : nat) (oldest prune_height : N) : io Tx KVError N :=
  match fuel with
  | O => io_of OutOfFuel
  | S fuel =>
      if bool_decide (oldest ≤ prune_height) then
        coll_delete state_hist_coll oldest ;;
        next ← io_of (u64_add oldest 1);
        kv_prune fuel next prune_height
      else mret oldest
  end.

(** What [set_committed_state] does in its transaction. *)
Definition kv_set_committed_state (s : AppState) : io Tx KVError unit :=
  top ← io_of (u64_add (as_block_height s) 1);
  coll_put state_hist_coll top (as_params s) ;;
  oldest ← (if bool_decide (0 < state_hist_size config ∧ state_hist_size config ≤ top) then
              let prune_height := top - state_hist_size config in
              kv_prune (S (N.to_nat (prune_height + 1 - oldest_state_height s))) (oldest_state_height s) prune_height
            else mret (oldest_state_height s));
  kv_put app_namespace State (MkAppState (as_block_height s) oldest (as_params s)).

Definition kv_error (e : KVError) : string :=
  match e with
  | Conflict => "operation failed because there was a write conflict"
  | Abort e => "transaction was aborted due to some business rule violation: " +:+ e
  | KVStore.Codec e => "data serialization error: " +:+ e
  | Unexpected e => "unexpected error: " +:+ e
  end%string.
Definition db_set_committed_state (s : AppState) : io B string unit :=
  io_map_err (λ e, "commit failed: " +:+ kv_error e)%string (with_write (kv_set_committed_state s)).

Definition db_get_committed_state : io B string (option AppState) := λ b,
  match read b with
  | (Done tx, b) => (map_err (λ e, "get failed: " +:+ kv_error e)%string (kv_get app_namespace State tx).1, b)
  | (r, b) => ((λ _, None) <$> map_err kv_error r, b)
  end.
Definition db_state_at (h : N) : io B string (option FvmStateParams) := λ b,
  match read b with
  | (Done tx, b) => (map_err (λ e, "error looking up history: " +:+ kv_error e)%string (coll_get state_hist_coll h tx).1, b)
  | (r, b) => ((λ _, None) <$> map_err kv_error r, b)
  end.

(** ** The data that stand for a state *)

Hypothesis (spaces : app_namespace ≠ state_hist_namespace).
Hypothesis (key_ok : is_done (to_repr State) = true).
Hypothesis (height_ok : ∀ h : N, is_done (to_repr h) = true).
Hypothesis (state_ok : ∀ s : AppState, is_done (to_repr s) = true).
Hypothesis (params_ok : ∀ p : FvmStateParams, is_done (to_repr p) = true).

Lemma is_done_inv {E A} (m : outcome E A) : is_done m = true → ∃ a, m = Done a.
Proof. destruct m; try done. eauto. Qed.

Record stands_for (d : Spaces) (s : option AppState) (hist : gmap N FvmStateParams) : Prop := {
  sf_state : ref_get app_namespace State d = Done s;
  sf_hist h : ref_get state_hist_namespace h d = Done (hist !! h)
}.
#[local] Instance stands_for_proper : Proper (same_data ==> eq ==> eq ==> iff) stands_for.
Proof.
  intros d1 d2 Hd ? s -> ? hist ->. split; intros [Hs Hh]; split; intros; rewrite ?Hd in *; try done; rewrite <-?Hd in *; try done; by rewrite Hd.
Qed.

(** A transaction that has the data. *)
Record at_work (tx : Tx) (b : B) (s : option AppState) (hist : gmap N FvmStateParams) : Prop := {
  aw_owns : owns tx b;
  aw_state : available app_namespace tx;
  aw_hist : available state_hist_namespace tx;
  aw_data : stands_for (tx_contents tx) s hist
}.

Lemma delete_hist tx b s hist h :
  at_work tx b s hist → ∃ tx', coll_delete state_hist_coll h tx = (Done tt, tx') ∧ at_work tx' b s (delete h hist).
Proof.
  intros [Ho Ha Hh [Hs Hhist]]. destruct (is_done_inv _ (height_ok h)) as [hr Hr].
  destruct (delete_law state_hist_namespace h hr tx b Ho Hh Hr) as (tx' & Hrun & Ho' & Hd & Hav). exists tx'. split; [exact Hrun|].
  split; [done|by apply Hav|by apply Hav|]. rewrite Hd. split.
  - by rewrite ref_get_other.
  - intros h'. rewrite (ref_get_delete _ h) by done. case_decide; [subst; by rewrite lookup_delete_eq|by rewrite lookup_delete_ne].
Qed.

Lemma put_hist tx b s hist h p :
  at_work tx b s hist → ∃ tx', coll_put state_hist_coll h p tx = (Done tt, tx') ∧ at_work tx' b s (<[h := p]> hist).
Proof.
  intros [Ho Ha Hh [Hs Hhist]]. pose proof (put_law state_hist_namespace h p tx b Ho Hh) as Hput.
  destruct (is_done_inv _ (height_ok h)) as [hr Hr], (is_done_inv _ (params_ok p)) as [pr Hp].
  destruct (ref_put state_hist_namespace h p (tx_contents tx)) as [d| | | |] eqn:Hd; [|unfold ref_put in Hd; by rewrite Hr, Hp in Hd..].
  destruct Hput as (tx' & Hrun & Ho' & Hsame & Hav). exists tx'. split; [exact Hrun|].
  split; [done|by apply Hav|by apply Hav|]. rewrite Hsame. split.
  - unfold ref_put in Hd. inv_done. by rewrite ref_get_other.
  - intros h'. rewrite (ref_get_put _ h h' p _ _ Hd). case_decide; [subst; by rewrite lookup_insert_eq|by rewrite lookup_insert_ne].
Qed.

Lemma put_state tx b s hist s' :
  at_work tx b s hist → ∃ tx', kv_put app_namespace State s' tx = (Done tt, tx') ∧ at_work tx' b (Some s') hist.
Proof.
  intros [Ho Ha Hh [Hs Hhist]]. pose proof (put_law app_namespace State s' tx b Ho Ha) as Hput.
  destruct (is_done_inv _ key_ok) as [kr Hk], (is_done_inv _ (state_ok s')) as [sr Hsr].
  destruct (ref_put app_namespace State s' (tx_contents tx)) as [d| | | |] eqn:Hd; [|unfold ref_put in Hd; by rewrite Hk, Hsr in Hd..].
  destruct Hput as (tx' & Hrun & Ho' & Hsame & Hav). exists tx'. split; [exact Hrun|].
  split; [done|by apply Hav|by apply Hav|]. rewrite Hsame. split.
  - rewrite (ref_get_put _ State State s' _ _ Hd). by rewrite decide_True.
  - intros h'. unfold ref_put in Hd. inv_done. by rewrite ref_get_other.
Qed.

Lemma u64_add_cases {E} a b : (∃ n, u64_add (E:=E) a b = Done n) ∨ u64_add (E:=E) a b = Panic.
Proof. unfold u64_add, u64_wrap. case_bool_decide; [eauto|]. destruct overflow_checks; eauto. Qed.
Lemma u64_add_errors {E F} a b : match u64_add (E:=E) a b, u64_add (E:=F) a b with Done n, Done m => n = m | Panic, Panic => True | _, _ => False end.
Proof. unfold u64_add, u64_wrap. case_bool_decide; [done|]. by destruct overflow_checks. Qed.

Lemma prune_sim fuel oldest prune_height tx b s hist :
  at_work tx b s hist →
  match prune fuel hist oldest prune_height with
  | Done (hist', o) => ∃ tx', kv_prune fuel oldest prune_height tx = (Done o, tx') ∧ at_work tx' b s hist'
  | Panic => ∃ tx', kv_prune fuel oldest prune_height tx = (Panic, tx') ∧ owns tx' b
  | OutOfFuel => ∃ tx', kv_prune fuel oldest prune_height tx = (OutOfFuel, tx')
  | _ => False
  end.
Proof.
  revert oldest tx hist. induction fuel as [|fuel IH]; intros oldest tx hist Hw; cbn [prune kv_prune]; [by exists tx|].
  case_bool_decide; [|by exists tx]. destruct (delete_hist tx b s hist oldest Hw) as (tx1 & Hdel & Hw1).
  rewrite (io_run_bind _ _ _ _ _ Hdel). pose proof (u64_add_errors (E:=string) (F:=KVError) oldest 1) as Hadd.
  destruct (u64_add (E:=string) oldest 1) as [n| | | |], (u64_add (E:=KVError) oldest 1) as [n'| | | |]; try done; cbn [mbind outcome_bind].
  - subst n'. rewrite (io_run_bind _ _ _ n tx1) by done. by apply IH.
  - exists tx1. split; [done|apply Hw1].
Qed.

(** The transaction does what the application does to its maps. *)
Lemma committed_sim s tx b (app : App) :
  at_work tx b (app_state app) (state_hist app) →
  match set_committed_state config s app with
  | (Done _, app') => ∃ tx', kv_set_committed_state s tx = (Done tt, tx') ∧ at_work tx' b (app_state app') (state_hist app')
  | (Panic, app') => app' = app ∧ ∃ tx', kv_set_committed_state s tx = (Panic, tx') ∧ owns tx' b
  | (OutOfFuel, app') => app' = app ∧ ∃ tx', kv_set_committed_state s tx = (OutOfFuel, tx')
  | _ => False
  end.
Proof.
  intros Hw. unfold set_committed_state, kv_set_committed_state, state_height.
  pose proof (u64_add_errors (E:=string) (F:=KVError) (as_block_height s) 1) as Hadd.
  destruct (u64_add (E:=string) _ 1) as [top| | | |], (u64_add (E:=KVError) _ 1) as [top'| | | |]; try done; cbn [mbind outcome_bind].
  2: { split; [done|]. exists tx. split; [done|apply Hw]. }
  subst top'. rewrite (io_run_bind _ _ _ top tx) by done.
  destruct (put_hist tx b _ _ top (as_params s) Hw) as (tx1 & Hput & Hw1). rewrite (io_run_bind _ _ _ _ _ Hput).
  set (pr := bool_decide _). destruct pr.
  - cbv zeta. pose proof (prune_sim (S (N.to_nat (top - state_hist_size config + 1 - oldest_state_height s))) (oldest_state_height s) (top - state_hist_size config) tx1 b _ _ Hw1) as Hp.
    destruct (prune _ _ _ _) as [[hist' o]| | | |]; try done; cbn [mbind outcome_bind].
    + destruct Hp as (tx2 & Hrun & Hw2). rewrite (io_run_bind _ _ _ _ _ Hrun). by apply (put_state tx2 b (app_state app)).
    + destruct Hp as (tx2 & Hrun & Ho). split; [done|]. exists tx2. split; [|done]. unfold mbind, io_bind. by rewrite Hrun.
    + destruct Hp as (tx2 & Hrun). split; [done|]. exists tx2. unfold mbind, io_bind. by rewrite Hrun.
  - cbn [mbind outcome_bind]. rewrite (io_run_bind _ _ _ (oldest_state_height s) tx1) by done. by apply (put_state tx1 b (app_state app)).
Qed.

Lemma reads_back b s hist :
  serves app_namespace b → serves state_hist_namespace b → stands_for (contents b) s hist →
  db_get_committed_state b = (Done s, b) ∧ ∀ h, db_state_at h b = (Done (hist !! h), b).
Proof.
  intros Ha Hh [Hs Hhist]. destruct (is_done_inv _ key_ok) as [kr Hk]. split.
  - destruct (read_law (V:=AppState) app_namespace State kr b Ha Hk) as (tx & tx' & Hread & Hget).
    unfold db_get_committed_state. by rewrite Hread, Hget, Hs.
  - intros h. destruct (is_done_inv _ (height_ok h)) as [hr Hr].
    destruct (read_law (V:=FvmStateParams) state_hist_namespace h hr b Hh Hr) as (tx & tx' & Hread & Hget).
    unfold db_state_at, coll_get. cbn [coll_ns state_hist_coll]. by rewrite Hread, Hget, Hhist.
Qed.

(** C13: the application keeps its state in a store as if it had the two maps itself.  On any back end with the laws of the interface
    and codecs that read back what they write, committing a state has the same outcome on the store as on the
    maps, and leaves data that stand for the maps afterwards: what is then read from the store, the last state and every state of the
    history, is what is in the maps, also when the commit panics; and the store is ready for the next commit if it does not. *)
Theorem store_refines_app s (app : App) b :
  usable b → serves app_namespace b → serves state_hist_namespace b → stands_for (contents b) (app_state app) (state_hist app) →
  let '(r, app') := set_committed_state config s app in
  ∃ b', db_set_committed_state s b = (r, b') ∧ stands_for (contents b') (app_state app') (state_hist app') ∧
    (r = Done tt → usable b') ∧ serves app_namespace b' ∧ serves state_hist_namespace b' ∧
    db_get_committed_state b' = (Done (app_state app'), b') ∧ ∀ h, db_state_at h b' = (Done (state_hist app' !! h), b').
Proof.
  intros Hu Ha Hh Hst. destruct (write_law b Hu) as (tx & b1 & Hw & Ho & Hd & Hd1 & Hs). destruct (Hs _ Ha) as [Hata Ha1], (Hs _ Hh) as [Hath Hh1].
  assert (at_work tx b1 (app_state app) (state_hist app)) as Hwork by (split; [done..|by rewrite Hd]).
  pose proof (committed_sim s tx b1 app Hwork) as Hsim. unfold db_set_committed_state, io_map_err, with_write.
  rewrite (io_run_bind _ _ _ _ _ Hw).
  assert (∀ b' s' hist', serves app_namespace b' → serves state_hist_namespace b' → stands_for (contents b') s' hist' →
    stands_for (contents b') s' hist' ∧ serves app_namespace b' ∧ serves state_hist_namespace b' ∧
    db_get_committed_state b' = (Done s', b') ∧ ∀ h, db_state_at h b' = (Done (hist' !! h), b')) as Hback.
  { intros b' s' hist' Hsa Hsh Hsf. pose proof (reads_back b' s' hist' Hsa Hsh Hsf). naive_solver. }
  destruct (set_committed_state config s app) as [[[]| | | |] app']; try done.
  - destruct Hsim as (tx' & -> & [Ho' _ _ Hdata]). destruct (commit_tx_law tx' b1 Ho') as (b2 & Hc & Hu2 & Hd2 & Hs2).
    rewrite (io_run_bind _ _ _ _ _ Hc). exists b2. split; [done|].
    destruct (Hback b2 (app_state app') (state_hist app')) as (? & ? & ? & ? & ?); [by apply Hs2|by apply Hs2|by rewrite Hd2|]. by split_and!.
  - destruct Hsim as (-> & tx' & -> & Ho'). destruct (drop_law true tx' b1 Ho') as [Hd2 Hs2]. eexists. split; [done|].
    destruct (Hback (drop_tx true tx' b1).2 (app_state app) (state_hist app)) as (? & ? & ? & ? & ?); [by apply Hs2|by apply Hs2|by rewrite Hd2, Hd1|]. by split_and!.
  - destruct Hsim as (-> & tx' & ->). exists b1. split; [done|].
    destruct (Hback b1 (app_state app) (state_hist app)) as (? & ? & ? & ? & ?); [done|done|by rewrite Hd1|]. by split_and!.
Qed.
End app_store.

(** ** A sample *)

Module SampleAppStore.
Import SampleKV SampleRocks SampleApp SampleMachine SampleParent.
#[local] Existing Instance dev_profile.
#[local] Existing Instance sample_data.
#[local] Existing Instance SampleParent.proxy.
#[local] Existing Instance SampleParent.idle.
#[local] Existing Instance SampleMachine.ids.
#[local] Existing Instance SampleMachine.machine.
#[local] Existing Instance SampleMachine.inner_interpreter.
#[local] Existing Instance SampleMachine.resolvers.
#[local] Existing Instance codec.
#[local] Existing Instance launch.
#[local] Existing Instance SampleApp.backend.

#[local] Instance key_countable : Countable AppStoreKey.
Proof. refine (inj_countable' (λ _, ()) (λ _, State) _). by intros []. Defined.
#[local] Instance params_eq_dec : EqDecision FvmStateParams.
Proof. solve_decision. Defined.
#[local] Instance params_countable : Countable FvmStateParams.
Proof.
  refine (inj_countable'
    (λ p, (sp_state_root p, sp_timestamp p, sp_network_version p, sp_base_fee p, sp_circ_supply p, sp_chain_id p, sp_power_scale p, sp_app_version p))
    (λ '(a, b, c, d, e, f, g, h), MkStateParams a b c d e f g h) _). by intros [].
Defined.
#[local] Instance state_eq_dec : EqDecision AppState.
Proof. solve_decision. Defined.
#[local] Instance state_countable : Countable AppState.
Proof.
  refine (inj_countable' (λ s, (as_block_height s, oldest_state_height s, as_params s)) (λ '(a, b, c), MkAppState a b c) _). by intros [].
Defined.

Definition app_ns : Namespace (KVStore:=numbers) := "app"%string.
Definition hist_ns : Namespace (KVStore:=numbers) := "state_hist"%string.
(** A database with the two column families, and nothing in them. *)
Definition new_db : Db (Rocks:=map_db) := ({[ app_ns; hist_ns ]}, ∅).

#[local] Instance sample_backend : KVBackendLaws (B:=Db) (R:=RocksDbReadTx) (Tx:=RocksDbWriteTx) := rocks_laws.

Lemma new_db_stands : stands_for app_ns hist_ns (contents (KVBackendLaws:=sample_backend) new_db) None ∅.
Proof. split; [vm_compute; reflexivity|]. intros h. reflexivity. Qed.

(** The state of the block 20 is committed to the new database, and read from it. *)
Definition kept_20 : AppState := MkAppState 20 19 (params_at 40).
Lemma store_refines_app_witness : ∃ db,
  db_set_committed_state (B:=Db) (Tx:=RocksDbWriteTx) three_states app_ns hist_ns at_20 new_db = (Done tt, db) ∧
  db_get_committed_state app_ns db = (Done (Some kept_20), db) ∧ db_state_at hist_ns 21 db = (Done (Some (params_at 40)), db).
Proof.
  pose proof (store_refines_app (B:=Db) (R:=RocksDbReadTx) (Tx:=RocksDbWriteTx) three_states app_ns hist_ns) as Hr.
  specialize (Hr ltac:(done) eq_refl (λ _, eq_refl) (λ _, eq_refl) (λ _, eq_refl) at_20 fresh new_db I).
  specialize (Hr ltac:(split; [done|by eexists]) ltac:(split; [done|by eexists]) new_db_stands).
  destruct (set_committed_state three_states at_20 fresh) as [r app'] eqn:Hset.
  assert (r = Done tt ∧ app_state app' = Some kept_20 ∧ state_hist app' !! 21 = Some (params_at 40)) as (-> & Hs & Hh).
  { pose proof (f_equal fst Hset) as H1. pose proof (f_equal snd Hset) as H2. cbn [fst snd] in H1, H2. subst. split_and!; vm_compute; reflexivity. }
  destruct Hr as (db & Hrun & _ & _ & _ & _ & Hget & Hat). exists db. split; [exact Hrun|]. split; [by rewrite Hget, Hs|]. by rewrite Hat, Hh.
Defined.
End SampleAppStore.
