(* ===== verification/Gossip.v ===== *)
(** * Membership and votes by gossip

    [ipld/resolver/src/behaviour/membership.rs] with the signed records of [signed_record.rs], [provider_record.rs] and
    [vote_record.rs]: nodes tell each other which subnets they provide, and validators publish
    their votes, over the topics of a gossip network.  Votes that arrive go through [service.rs] and [dispatch_vote] of
    [fendermint/app/src/cmd/run.rs] into the vote tally.  Gossipsub, the signed envelopes and the timer are library code, and parameters. *)

From Stdlib Require Import Ascii.
From S2P Require Import Prelude SubnetId ProviderCache Weights Voting.
#[local] Open Scope string_scope.
#[local] Open Scope N_scope.

(** ** Time *)

(** A [Duration] in nanoseconds, and a [Timestamp] in seconds. *)
Definition as_secs (d : N) : N := d / 1000000000.
Definition ts_sub (t d : N) : N := t - as_secs d.
Definition ts_add (t d : N) : N := N.min (t + as_secs d) u64_max.

(** What the two clocks show. *)
Record Clock := MkClock { now : N; instant : N }.

(** [tokio::time::Interval]: the period, and when it ticks next. *)
Record Interval := MkInterval { period : N; deadline : N }.
Definition interval_at (start period : N) : Interval := MkInterval period start.
Definition interval_reset (c : Clock) (i : Interval) : Interval := MkInterval (period i) (instant c + period i).
Definition poll_tick (c : Clock) (i : Interval) : bool * Interval :=
  if bool_decide (deadline i ≤ instant c) then (true, MkInterval (period i) (deadline i + period i)) else (false, i).

(** ** Libraries *)

(** [libp2p::identity] and [SignedEnvelope]. *)
Class Envelopes := {
  Keypair : Type;
  PublicKey : Type;
  PublicKey_eq_dec :: EqDecision PublicKey;
  PublicKey_countable :: Countable PublicKey;
  PeerId : Type;
  PeerId_eq_dec :: EqDecision PeerId;
  PeerId_countable :: Countable PeerId;
  Data : Type;
  Envelope : Type;
  public : Keypair → PublicKey;
  to_peer_id : PublicKey → PeerId;
  envelope_new : Keypair → string → string → Data → string + Envelope;
  into_protobuf_encoding : Envelope → Data;
  from_protobuf_encoding : Data → string + Envelope;
  (** The payload and the key that has signed it, if the signature is right and for the domain and the type. *)
  payload_and_signing_key : Envelope → string → string → string + (Data * PublicKey)
}.

Class EnvelopeLaws `{Envelopes} := envelope_law k domain ty payload e :
  envelope_new k domain ty payload = inr e →
  from_protobuf_encoding (into_protobuf_encoding e) = inr e ∧ payload_and_signing_key e domain ty = inr (payload, public k).

(** [gossipsub], with the hashes of its two types of topics. *)
Class Gossipsub `{Envelopes} := {
  TopicHash : Type;
  TopicHash_eq_dec :: EqDecision TopicHash;
  TopicHash_countable :: Countable TopicHash;
  ident_topic : string → TopicHash;
  sha256_topic : string → TopicHash;
  Gossip : Type;
  Action : Type;
  gossip_subscribe : TopicHash → Gossip → (string + bool) * Gossip;
  gossip_unsubscribe : TopicHash → Gossip → (string + bool) * Gossip;
  gossip_publish : TopicHash → Data → Gossip → (string + unit) * Gossip
}.

(** What polling it yields: an event of its own, or something for the swarm. *)
Inductive GossipEvent `{Gossipsub} :=
| Subscribed (peer : PeerId) (topic : TopicHash)
| Unsubscribed
| GossipsubNotSupported (peer : PeerId)
| Message (topic : TopicHash) (data : Data)
| ForSwarm (a : Action).

(** ** Signed records *)

Section records.
Context `{Envelopes}.

Definition DOMAIN_SEP : string := "/ipc/ipld/resolver".

(** The encoding of a type of records, which is that of a library, and the trait [Record]. *)
Class RecordCodec (R : Type) := {
  encode_record : R → string + Data;
  decode_record : Data → string + R
}.
Class Record (R : Type) := {
  payload_type : string;
  check_signing_key : R → PublicKey → bool
}.
Class RecordLaws (R : Type) `{!RecordCodec R} := decode_encode_record (r : R) d : encode_record r = inr d → decode_record d = inr r.

Record SignedRecord (R : Type) := MkSigned { record : R; envelope : Envelope }.
#[global] Arguments MkSigned {R} _ _.
#[global] Arguments record {R} _.
#[global] Arguments envelope {R} _.

Definition signed_new {R} `{!Record R, !RecordCodec R} (key : Keypair) (r : R) : string + SignedRecord R :=
  match encode_record r with
  | inl e => inl e
  | inr payload =>
      match envelope_new key DOMAIN_SEP (payload_type (R:=R)) payload with
      | inl e => inl e
      | inr e => inr (MkSigned r e)
      end
  end.

Definition from_signed_envelope {R} `{!Record R, !RecordCodec R} (e : Envelope) : string + SignedRecord R :=
  match payload_and_signing_key e DOMAIN_SEP (payload_type (R:=R)) with
  | inl _ => inl "Failed to extract payload from envelope"
  | inr (payload, signing_key) =>
      match decode_record payload with
      | inl _ => inl "Failed to decode bytes as record"
      | inr r =>
          if negb (check_signing_key r signing_key)
          then inl "The signer of the envelope is different than the peer id in the record"
          else inr (MkSigned r e)
      end
  end.

Definition from_bytes {R} `{!Record R, !RecordCodec R} (bytes : Data) : string + SignedRecord R :=
  match from_protobuf_encoding bytes with
  | inl e => inl e
  | inr e => from_signed_envelope e
  end.

(** A record is read back by whoever gets it, if its key is the one that it names. *)
Lemma signed_roundtrip {R} `{!Record R, !RecordCodec R, !RecordLaws R, !EnvelopeLaws} key (r : R) s :
  signed_new key r = inr s → check_signing_key r (public key) = true →
  record s = r ∧ from_bytes (into_protobuf_encoding (envelope s)) = inr s.
Proof.
  unfold signed_new. destruct (encode_record r) as [|payload] eqn:He; [done|].
  destruct (envelope_new _ _ _ _) as [|e] eqn:Hn; [done|]. intros [= <-] Hk. split; [done|]. cbn [envelope].
  destruct (envelope_law _ _ _ _ _ Hn) as [Hfrom Hpay]. unfold from_bytes, from_signed_envelope.
  by rewrite Hfrom, Hpay, (decode_encode_record r payload He), Hk.
Qed.
End records.

(** ** The behaviour *)

(** [AppVote] of [fendermint/app/src/ipc.rs]. *)
Inductive AppVote (V Obj : Type) :=
| ParentFinality (height : N) (block_hash : V)
| ObjectFinality (object : Obj).
Arguments ParentFinality {V Obj} _ _.
Arguments ObjectFinality {V Obj} _.

Record VoteRecord (C : Type) `{Envelopes, AddressType} := MkVote {
  public_key : PublicKey;
  vote_subnet : SubnetID;
  content : C;
  vote_timestamp : N
}.
Arguments MkVote {C _ _} _ _ _ _.
Arguments public_key {C _ _} _.
Arguments vote_subnet {C _ _} _.
Arguments content {C _ _} _.
Arguments vote_timestamp {C _ _} _.

#[export] Instance subnet_countable `{AddressType, !Countable Address} : Countable SubnetID.
Proof. refine (inj_countable' (λ s, (root s, children s)) (λ '(r, c), MkSubnet r c) _). by intros []. Defined.

(** [str::replace] of a character. *)
Fixpoint replace_char (c d : Ascii.ascii) (s : string) : string :=
  match s with
  | EmptyString => EmptyString
  | String a s => String (if bool_decide (a = c) then d else a) (replace_char c d s)
  end.

Section membership.
Context `{Gossipsub, AddressType, !Countable Address, !HashOrder PeerId, !HashOrder SubnetID}.
Context {C : Type} `{!RecordCodec (VoteRecord C), !RecordCodec (ProviderRecord PeerId SubnetID)}.

Definition vote_record : Record (VoteRecord C) := {|
  payload_type := "/ipc/vote-record";
  check_signing_key r key := bool_decide (public_key r = key)
|}.
Definition provider_record : Record (ProviderRecord PeerId SubnetID) := {|
  payload_type := "/ipc/provider-record";
  check_signing_key r key := bool_decide (peer_id r = to_peer_id key)
|}.
#[export] Existing Instances vote_record provider_record.

Definition vote_signed (c : Clock) (key : Keypair) (subnet : SubnetID) (x : C) : string + SignedRecord (VoteRecord C) :=
  signed_new key (MkVote (public key) subnet x (now c)).
Definition provider_signed (c : Clock) (key : Keypair) (subnets : list SubnetID) : string + SignedRecord (ProviderRecord PeerId SubnetID) :=
  signed_new key (MkRecord (to_peer_id (public key)) subnets (now c)).

Inductive Event :=
| Updated (peer : PeerId) (delta : ProviderDelta SubnetID)
| Removed (peer : PeerId)
| Skipped (peer : PeerId)
| ReceivedVote (r : VoteRecord C)
| ReceivedPreemptive (subnet : SubnetID) (data : Data).

Record Config := MkConfig {
  static_subnets : list SubnetID;
  config_max_subnets : N;
  config_publish_interval : N;
  config_min_time_between_publish : N;
  config_max_provider_age : N
}.

Record Behaviour := MkBehaviour {
  inner : Gossip;
  outbox : list Event;
  local_key : Keypair;
  network_name : string;
  provided : list SubnetID;
  voting_topics : gset TopicHash;
  preemptive_topics : gmap TopicHash SubnetID;
  provider_cache : SubnetProviderCache PeerId SubnetID;
  publish_interval : Interval;
  min_time_between_publish : N;
  last_publish_timestamp : N;
  next_publish_timestamp : N;
  max_provider_age : N
}.

Definition set_inner x (b : Behaviour) : Behaviour :=
  MkBehaviour x (outbox b) (local_key b) (network_name b) (provided b) (voting_topics b) (preemptive_topics b) (provider_cache b)
    (publish_interval b) (min_time_between_publish b) (last_publish_timestamp b) (next_publish_timestamp b) (max_provider_age b).
Definition set_outbox x (b : Behaviour) : Behaviour :=
  MkBehaviour (inner b) x (local_key b) (network_name b) (provided b) (voting_topics b) (preemptive_topics b) (provider_cache b)
    (publish_interval b) (min_time_between_publish b) (last_publish_timestamp b) (next_publish_timestamp b) (max_provider_age b).
Definition set_provided x (b : Behaviour) : Behaviour :=
  MkBehaviour (inner b) (outbox b) (local_key b) (network_name b) x (voting_topics b) (preemptive_topics b) (provider_cache b)
    (publish_interval b) (min_time_between_publish b) (last_publish_timestamp b) (next_publish_timestamp b) (max_provider_age b).
Definition set_topics x y (b : Behaviour) : Behaviour :=
  MkBehaviour (inner b) (outbox b) (local_key b) (network_name b) (provided b) x y (provider_cache b)
    (publish_interval b) (min_time_between_publish b) (last_publish_timestamp b) (next_publish_timestamp b) (max_provider_age b).
Definition set_provider_cache x (b : Behaviour) : Behaviour :=
  MkBehaviour (inner b) (outbox b) (local_key b) (network_name b) (provided b) (voting_topics b) (preemptive_topics b) x
    (publish_interval b) (min_time_between_publish b) (last_publish_timestamp b) (next_publish_timestamp b) (max_provider_age b).
Definition set_schedule i last next (b : Behaviour) : Behaviour :=
  MkBehaviour (inner b) (outbox b) (local_key b) (network_name b) (provided b) (voting_topics b) (preemptive_topics b) (provider_cache b)
    i (min_time_between_publish b) last next (max_provider_age b).

(** *** Topics *)

Definition membership_topic (b : Behaviour) : TopicHash := ident_topic ("/ipc/membership" +:+ "/" +:+ network_name b).
Definition underscored (s : string) : string := replace_char slash "_"%char s.
Definition voting_topic (network : string) (s : SubnetID) : TopicHash :=
  sha256_topic ("/ipc/ipld/votes" +:+ "/" +:+ underscored network +:+ "/" +:+ underscored (to_string s)).
Definition preemptive_topic (network : string) (s : SubnetID) : TopicHash :=
  sha256_topic ("/ipc/ipld/pre-emptive" +:+ "/" +:+ underscored network +:+ "/" +:+ underscored (to_string s)).

(** A call of the inner behaviour. *)
Definition on_inner {A} (f : Gossip → (string + A) * Gossip) : io Behaviour string A := λ b,
  let '(r, g) := f (inner b) in (match r with inl e => Fail e | inr a => Done a end, set_inner g b).
Definition update (f : Behaviour → Behaviour) : io Behaviour string unit := λ b, (Done tt, f b).

Definition preemptive_subscribe (s : SubnetID) : io Behaviour string unit :=
  network ← io_reads network_name;
  let topic := preemptive_topic network s in
  on_inner (gossip_subscribe topic) ;;
  update (λ b, set_topics (voting_topics b) (<[topic := s]> (preemptive_topics b)) b).
Definition preemptive_unsubscribe (s : SubnetID) : io Behaviour string unit :=
  network ← io_reads network_name;
  let topic := preemptive_topic network s in
  on_inner (gossip_unsubscribe topic) ;;
  update (λ b, set_topics (voting_topics b) (delete topic (preemptive_topics b)) b).
Definition voting_subscribe (s : SubnetID) : io Behaviour string unit :=
  network ← io_reads network_name;
  let topic := voting_topic network s in
  on_inner (gossip_subscribe topic) ;;
  update (λ b, set_topics (voting_topics b ∪ {[topic]}) (preemptive_topics b) b).
Definition voting_unsubscribe (s : SubnetID) : io Behaviour string unit :=
  network ← io_reads network_name;
  let topic := voting_topic network s in
  on_inner (gossip_unsubscribe topic) ;;
  update (λ b, set_topics (voting_topics b ∖ {[topic]}) (preemptive_topics b) b).

(** *** Publishing *)

Definition publish_membership (c : Clock) : io Behaviour string unit :=
  b ← io_reads (λ b, b);
  match provider_signed c (local_key b) (provided b) with
  | inl e => io_of (Fail e)
  | inr r =>
      on_inner (gossip_publish (membership_topic b) (into_protobuf_encoding (envelope r))) ;;
      update (λ b, set_schedule (interval_reset c (publish_interval b)) (now c) (ts_add (now c) (period (publish_interval b))) b)
  end.
Definition publish_vote (r : SignedRecord (VoteRecord C)) : io Behaviour string unit :=
  network ← io_reads network_name;
  on_inner (gossip_publish (voting_topic network (vote_subnet (record r))) (into_protobuf_encoding (envelope r))).
Definition publish_preemptive (s : SubnetID) (data : Data) : io Behaviour string unit :=
  network ← io_reads network_name;
  on_inner (gossip_publish (preemptive_topic network s) data).

Definition publish_for_new_peer (c : Clock) (b : Behaviour) : Behaviour :=
  match provided b with
  | [] => b
  | _ =>
      if bool_decide (ts_sub (now c) (min_time_between_publish b) < last_publish_timestamp b) then b
      else if bool_decide (next_publish_timestamp b ≤ ts_add (now c) (min_time_between_publish b)) then b
      else
        set_schedule (interval_at (instant c + min_time_between_publish b) (period (publish_interval b)))
          (last_publish_timestamp b) (ts_add (now c) (min_time_between_publish b)) b
  end.

(** *** Subnets that are provided, and those whose data are watched *)

Fixpoint for_each {A} (f : A → io Behaviour string unit) (l : list A) : io Behaviour string unit :=
  match l with
  | [] => mret tt
  | a :: l => f a ;; for_each f l
  end.

Definition set_provided_subnets (c : Clock) (l : list SubnetID) : io Behaviour string unit :=
  old ← io_reads provided;
  update (set_provided []) ;;
  for_each (λ s, if bool_decide (s ∈ l) then mret tt else voting_unsubscribe s) old ;;
  for_each (λ s, if bool_decide (s ∈ old) then mret tt else voting_subscribe s) l ;;
  update (set_provided l) ;;
  publish_membership c.
Definition add_provided_subnet (c : Clock) (s : SubnetID) : io Behaviour string unit :=
  l ← io_reads provided;
  if bool_decide (s ∈ l) then mret tt
  else
    voting_subscribe s ;;
    update (λ b, set_provided (provided b ++ [s])%list b) ;;
    publish_membership c.
Definition remove_provided_subnet (c : Clock) (s : SubnetID) : io Behaviour string unit :=
  l ← io_reads provided;
  if negb (bool_decide (s ∈ l)) then mret tt
  else
    voting_unsubscribe s ;;
    update (λ b, set_provided (filter (λ x, x ≠ s) (provided b)) b) ;;
    publish_membership c.
Definition behaviour_pin_subnet (s : SubnetID) : io Behaviour string unit :=
  preemptive_subscribe s ;;
  update (λ b, set_provider_cache (pin_subnet s (provider_cache b)) b).
Definition behaviour_unpin_subnet (s : SubnetID) : io Behaviour string unit :=
  preemptive_unsubscribe s ;;
  update (λ b, set_provider_cache (unpin_subnet s (provider_cache b)) b).

Definition behaviour_new (g : Gossip) (key : Keypair) (network : string) (mc : Config) (c : Clock) : outcome string Behaviour :=
  if bool_decide (network = "") then Fail ("invalid network: " +:+ network)
  else
    match gossip_subscribe (ident_topic ("/ipc/membership" +:+ "/" +:+ network)) g with
    | (inl _, _) => Fail "error subscribing to topic"
    | (inr _, g) =>
        let b := MkBehaviour g [] key network [] ∅ ∅ (ProviderCache.new (config_max_subnets mc) [])
          (interval_reset c (MkInterval (config_publish_interval mc) (instant c))) (config_min_time_between_publish mc)
          0 (ts_add (now c) (config_publish_interval mc)) (config_max_provider_age mc) in
        match for_each behaviour_pin_subnet (static_subnets mc) b with
        | (Done _, b) => Done b
        | (Fail _, _) => Fail "error subscribing to topic"
        | (Retry, _) => Retry
        | (Panic, _) => Panic
        | (OutOfFuel, _) => OutOfFuel
        end
    end.

(** *** What happens *)

Definition behaviour_set_routable (c : Clock) (p : PeerId) (b : Behaviour) : Behaviour :=
  publish_for_new_peer c (set_provider_cache (set_routable p (provider_cache b)) b).
Definition raise_event (e : Event) (b : Behaviour) : Behaviour := set_outbox (outbox b ++ [e])%list b.
Definition behaviour_set_unroutable (p : PeerId) (b : Behaviour) : Behaviour :=
  raise_event (Removed p) (set_provider_cache (set_unroutable p (provider_cache b)) b).

Definition handle_provider_record (c : Clock) (r : ProviderRecord PeerId SubnetID) (b : Behaviour) : Behaviour :=
  let '(d, cache) := add_provider r (provider_cache b) in
  let b := set_provider_cache cache b in
  match d with
  | None => raise_event (Skipped (peer_id r)) b
  | Some d =>
      if delta_is_empty d && negb (is_new d) then b
      else
        let b := raise_event (Updated (peer_id r) d) b in
        if is_new d then publish_for_new_peer c b else b
  end.
Definition handle_vote_record (r : VoteRecord C) (b : Behaviour) : Behaviour := raise_event (ReceivedVote r) b.
Definition handle_preemptive_data (s : SubnetID) (d : Data) (b : Behaviour) : Behaviour := raise_event (ReceivedPreemptive s d) b.

Definition handle_message (c : Clock) (topic : TopicHash) (data : Data) (b : Behaviour) : Behaviour :=
  if bool_decide (topic = membership_topic b) then
    match from_bytes (R:=ProviderRecord PeerId SubnetID) data with
    | inr r => handle_provider_record c (record r) b
    | inl _ => b
    end
  else if bool_decide (topic ∈ voting_topics b) then
    match from_bytes (R:=VoteRecord C) data with
    | inr r => handle_vote_record (record r) b
    | inl _ => b
    end
  else
    match preemptive_topics b !! topic with
    | Some s => handle_preemptive_data s data b
    | None => b
    end.
Definition handle_subscriber (c : Clock) (p : PeerId) (topic : TopicHash) (b : Behaviour) : Behaviour :=
  if bool_decide (topic = membership_topic b) then publish_for_new_peer c b else b.

Definition prune_membership (c : Clock) (b : Behaviour) : Behaviour :=
  let '(pruned, cache) := prune_providers (ts_sub (now c) (max_provider_age b)) (provider_cache b) in
  foldl (λ b p, raise_event (Removed p) b) (set_provider_cache cache b) pruned.

(** *** Polling *)

(** The events that the inner behaviour yields until it is pending. *)
Fixpoint poll_inner (c : Clock) (evs : list GossipEvent) (b : Behaviour) : option Action * list GossipEvent * Behaviour :=
  match evs with
  | [] => (None, [], b)
  | Subscribed p topic :: evs => poll_inner c evs (handle_subscriber c p topic b)
  | Unsubscribed :: evs | GossipsubNotSupported _ :: evs => poll_inner c evs b
  | Message topic data :: evs => poll_inner c evs (handle_message c topic data b)
  | ForSwarm a :: evs => (Some a, evs, b)
  end.

Inductive Polled := Emit (e : Event) | Forward (a : Action) | Pending.

(** The events that the inner behaviour has ready are an argument, and those that are left a result. *)
Definition poll (c : Clock) (evs : list GossipEvent) (b : Behaviour) : Polled * list GossipEvent * Behaviour :=
  match outbox b with
  | e :: rest => (Emit e, evs, set_outbox rest b)
  | [] =>
      let '(ticked, i) := poll_tick c (publish_interval b) in
      let b := set_schedule i (last_publish_timestamp b) (next_publish_timestamp b) b in
      let b := if ticked then prune_membership c (publish_membership c b).2 else b in
      match poll_inner c evs b with
      | (Some a, evs, b) => (Forward a, evs, b)
      | (None, evs, b) => (Pending, evs, b)
      end
  end.

(** ** What raises events *)

(** A vote record that was signed by the key that it names. *)
Definition vote_in (data : Data) (r : VoteRecord C) : Prop := ∃ sr, from_bytes (R:=VoteRecord C) data = inr sr ∧ record sr = r.

Lemma vote_in_signed data r :
  vote_in data r → ∃ e payload,
    from_protobuf_encoding data = inr e ∧ payload_and_signing_key e DOMAIN_SEP "/ipc/vote-record" = inr (payload, public_key r) ∧
    decode_record payload = inr r.
Proof.
  intros (sr & Hb & <-). unfold from_bytes in Hb. destruct (from_protobuf_encoding data) as [|e] eqn:He; [done|]. exists e.
  unfold from_signed_envelope in Hb. cbn [payload_type vote_record] in Hb.
  destruct (payload_and_signing_key e _ _) as [|[payload key]] eqn:Hp; [done|]. exists payload.
  destruct (decode_record payload) as [|r] eqn:Hd; [done|]. cbn [check_signing_key vote_record] in Hb.
  destruct (bool_decide (public_key r = key)) eqn:Hk; [|done]. cbn in Hb. injection Hb as <-. apply bool_decide_eq_true in Hk as <-. done.
Qed.

(** The part of the behaviour that decides on votes. *)
Definition listens (b b' : Behaviour) : Prop :=
  voting_topics b' = voting_topics b ∧ network_name b' = network_name b ∧ preemptive_topics b' = preemptive_topics b ∧ provided b' = provided b.
#[local] Instance listens_po : PreOrder listens.
Proof. split; [by intros b|]. intros b1 b2 b3 (Hv & Hn & Hp & Hs) (Hv' & Hn' & Hp' & Hs'). split_and!; congruence. Qed.

Definition votes_of (l : list Event) : list (VoteRecord C) := omap (λ e, match e with ReceivedVote r => Some r | _ => None end) l.

Lemma votes_of_app l1 l2 : votes_of (l1 ++ l2)%list = (votes_of l1 ++ votes_of l2)%list.
Proof. apply omap_app. Qed.

Lemma new_peer_frame c b : listens b (publish_for_new_peer c b) ∧ outbox (publish_for_new_peer c b) = outbox b.
Proof. unfold publish_for_new_peer. destruct (provided b); [done|]. case_bool_decide; [done|]. by case_bool_decide. Qed.

Lemma raise_frame e b : listens b (raise_event e b) ∧ outbox (raise_event e b) = (outbox b ++ [e])%list.
Proof. done. Qed.

Lemma provider_frame c r b : listens b (handle_provider_record c r b) ∧ votes_of (outbox (handle_provider_record c r b)) = votes_of (outbox b).
Proof.
  unfold handle_provider_record. destruct (add_provider r (provider_cache b)) as [[d|] cache]; [|split; [done|]; cbn; rewrite votes_of_app; apply app_nil_r].
  destruct (_ && _); [done|]. destruct (is_new d).
  - match goal with |- context [publish_for_new_peer c ?x] => destruct (new_peer_frame c x) as [Hl ->] end.
    split; [|cbn; rewrite votes_of_app; apply app_nil_r]. etrans; [|exact Hl]. done.
  - split; [done|]. cbn. rewrite votes_of_app. apply app_nil_r.
Qed.

(** A message raises a vote only if it is one, and it comes on a topic of votes. *)
Lemma message_votes c topic data b :
  listens b (handle_message c topic data b) ∧
  ∃ l, votes_of (outbox (handle_message c topic data b)) = (votes_of (outbox b) ++ l)%list ∧
    Forall (λ r, topic ∈ voting_topics b ∧ vote_in data r) l.
Proof.
  unfold handle_message. case_bool_decide.
  { destruct (from_bytes data) as [|r]; [split; [done|]; exists []; by rewrite app_nil_r|].
    destruct (provider_frame c (record r) b) as [Hl Hv]. split; [done|]. exists []. by rewrite app_nil_r. }
  case_bool_decide as Hv.
  { destruct (from_bytes data) as [|r] eqn:Hb; [split; [done|]; exists []; by rewrite app_nil_r|]. split; [done|].
    exists [record r]. cbn. rewrite votes_of_app. split; [done|]. apply Forall_singleton. split; [done|]. by exists r. }
  destruct (preemptive_topics b !! topic); (split; [done|]); exists []; [|by rewrite app_nil_r].
  cbn. by rewrite votes_of_app.
Qed.

Lemma prune_frame c b : listens b (prune_membership c b) ∧ votes_of (outbox (prune_membership c b)) = votes_of (outbox b).
Proof.
  unfold prune_membership. destruct (prune_providers _ _) as [l cache].
  assert (∀ l b0, listens b0 (foldl (λ b p, raise_event (Removed p) b) b0 l) ∧
    votes_of (outbox (foldl (λ b p, raise_event (Removed p) b) b0 l)) = votes_of (outbox b0)) as Hf; [|apply (Hf l (set_provider_cache cache b))].
  clear. induction l as [|p l IH]; intros b0; [done|]. cbn [foldl]. destruct (IH (raise_event (Removed p) b0)) as [Hl ->]. split; [by etrans|].
  cbn. rewrite votes_of_app. apply app_nil_r.
Qed.

Lemma publish_frame c b r b' : publish_membership c b = (r, b') → listens b b' ∧ outbox b' = outbox b.
Proof.
  unfold publish_membership, mbind, io_bind, io_reads. destruct (provider_signed _ _ _) as [e|sr]; [by intros [= _ <-]|].
  unfold on_inner. destruct (gossip_publish _ _ _) as [[e|u] g]; by intros [= _ <-].
Qed.

Definition messages (evs : list GossipEvent) : list (TopicHash * Data) :=
  omap (λ e, match e with Message topic data => Some (topic, data) | _ => None end) evs.
(** The vote comes from one of the messages. *)
Definition from_messages (b : Behaviour) (evs : list GossipEvent) (r : VoteRecord C) : Prop :=
  ∃ topic data, (topic, data) ∈ messages evs ∧ topic ∈ voting_topics b ∧ vote_in data r.

Lemma poll_inner_votes c evs b a left b' :
  poll_inner c evs b = (a, left, b') →
  listens b b' ∧ (∃ used, evs = used ++ left)%list ∧
  ∃ l, votes_of (outbox b') = (votes_of (outbox b) ++ l)%list ∧ Forall (from_messages b evs) l.
Proof.
  assert (∀ b e evs r, from_messages b evs r → from_messages b (e :: evs) r) as Hmore.
  { intros b0 e evs0 r (topic & data & Hin & Hr). exists topic, data. split; [|done]. unfold messages. cbn. destruct e; try done; by right. }
  revert b. induction evs as [|e evs IH]; intros b Hp; cbn [poll_inner] in Hp.
  { injection Hp as _ <- <-. split; [done|]. split; [by exists []|]. exists []. by rewrite app_nil_r. }
  assert (∀ b1, listens b b1 → (∃ l, votes_of (outbox b1) = (votes_of (outbox b) ++ l)%list ∧ Forall (from_messages b (e :: evs)) l) →
    poll_inner c evs b1 = (a, left, b') → listens b b' ∧ (∃ used, e :: evs = used ++ left)%list ∧
      ∃ l, votes_of (outbox b') = (votes_of (outbox b) ++ l)%list ∧ Forall (from_messages b (e :: evs)) l) as Hgo.
  { intros b1 Hl1 (l1 & Hv1 & Hf1) Hp1. destruct (IH b1 Hp1) as (Hl & [used Hu] & l2 & Hv2 & Hf2). split; [by etrans|]. split; [exists (e :: used); by rewrite Hu|].
    exists (l1 ++ l2)%list. rewrite Hv2, Hv1, app_assoc. split; [done|]. apply Forall_app. split; [done|]. eapply Forall_impl; [exact Hf2|].
    intros r (topic & data & Hin & Ht & Hr). apply Hmore. exists topic, data. destruct Hl1 as (Heq & _). by rewrite <-Heq. }
  destruct e as [p topic| |p|topic data|x].
  - apply (Hgo (handle_subscriber c p topic b)); [..|done]; unfold handle_subscriber; case_bool_decide; try (by destruct (new_peer_frame c b)); try done.
    + destruct (new_peer_frame c b) as [_ ->]. exists []. by rewrite app_nil_r.
    + exists []. by rewrite app_nil_r.
  - apply (Hgo b); [done| |done]. exists []. by rewrite app_nil_r.
  - apply (Hgo b); [done| |done]. exists []. by rewrite app_nil_r.
  - destruct (message_votes c topic data b) as (Hl & l & Hv & Hf). apply (Hgo (handle_message c topic data b)); [done| |done].
    exists l. split; [done|]. eapply Forall_impl; [exact Hf|]. intros r [Ht Hr]. exists topic, data. split; [by left|done].
  - injection Hp as _ <- <-. split; [done|]. split; [by exists [ForSwarm x]|]. exists []. by rewrite app_nil_r.
Qed.

(** Polling again and again; what the inner behaviour has left over is there the next time. *)
Fixpoint polls (l : list (Clock * list GossipEvent)) (pend : list GossipEvent) (b : Behaviour) : list Event * list GossipEvent * Behaviour :=
  match l with
  | [] => ([], pend, b)
  | (c, new) :: l =>
      let '(r, rest, b) := poll c (pend ++ new)%list b in
      let '(es, pend, b) := polls l rest b in
      (match r with Emit e => e :: es | _ => es end, pend, b)
  end.

Lemma poll_votes c evs b r left b' :
  poll c evs b = (r, left, b') →
  listens b b' ∧ (∃ used, evs = used ++ left)%list ∧
  ∃ l, (votes_of (match r with Emit e => [e] | _ => [] end) ++ votes_of (outbox b') = votes_of (outbox b) ++ l)%list ∧ Forall (from_messages b evs) l.
Proof.
  unfold poll. destruct (outbox b) as [|e rest] eqn:Hout.
  - destruct (poll_tick c (publish_interval b)) as [ticked i]. set (b0 := set_schedule i _ _ b).
    set (b1 := if ticked then _ else b0). assert (listens b b1 ∧ votes_of (outbox b1) = []) as [Hl1 Hv1].
    { unfold b1. destruct ticked; [|split; [done|]; cbn; by rewrite Hout].
      destruct (publish_membership c b0) as [x b2] eqn:Hp. apply publish_frame in Hp as [Hl2 Ho2]. cbn [snd].
      destruct (prune_frame c b2) as [Hl3 Hv3]. split; [etrans; [exact Hl2|exact Hl3]|]. rewrite Hv3, Ho2. cbn. by rewrite Hout. }
    destruct (poll_inner c evs b1) as [[a left1] b2] eqn:Hp. apply poll_inner_votes in Hp as (Hl2 & Hu & l & Hv & Hf).
    intros Hr. assert (r = (if a is Some x then Forward x else Pending) ∧ left1 = left ∧ b2 = b') as (-> & -> & ->) by (destruct a; by injection Hr as <- <- <-).
    split; [by etrans|]. split; [done|]. exists l. rewrite Hv, Hv1. split; [by destruct a|]. eapply Forall_impl; [exact Hf|].
    intros v (topic & data & Hin & Ht & Hd). exists topic, data. destruct Hl1 as (<- & _). done.
  - intros [= <- <- <-]. split; [done|]. split; [by exists []|]. exists []. rewrite app_nil_r. split; [|done]. cbn [outbox set_outbox].
    change (e :: rest) with ([e] ++ rest)%list. by rewrite votes_of_app.
Qed.

Definition all_events (l : list (Clock * list GossipEvent)) : list GossipEvent := concat l.*2.

(** Every vote that is emitted comes from a message, and none is emitted twice. *)
Lemma polls_votes l pend b es pend' b' :
  polls l pend b = (es, pend', b') →
  listens b b' ∧ ∃ v, (votes_of es ++ votes_of (outbox b') = votes_of (outbox b) ++ v)%list ∧ Forall (from_messages b (pend ++ all_events l)) v.
Proof.
  revert pend b es pend' b'. induction l as [|[c new] l IH]; intros pend b es pend' b' Hp; cbn [polls] in Hp.
  { injection Hp as <- <- <-. split; [done|]. exists []. by rewrite app_nil_r. }
  destruct (poll c (pend ++ new)%list b) as [[r evs1] b1] eqn:Hpoll. apply poll_votes in Hpoll as (Hl1 & [used Hu] & v1 & Hv1 & Hf1).
  destruct (polls l evs1 b1) as [[es1 pend1] b2] eqn:Hpolls. apply IH in Hpolls as (Hl2 & v2 & Hv2 & Hf2).
  injection Hp as <- <- <-. split; [by etrans|]. exists (v1 ++ v2)%list. split.
  - rewrite app_assoc, <-Hv1, <-app_assoc, <-Hv2, app_assoc. by destruct r; rewrite ?app_nil_l; [destruct e|..].
  - assert (∀ r, from_messages b (pend ++ new) r → from_messages b (pend ++ all_events ((c, new) :: l)) r) as Hmore.
    { intros v (topic & data & Hin & Hr). exists topic, data. split; [|done]. unfold messages, all_events in *. cbn [fmap list_fmap concat].
      change (concat (((c, new) :: l).*2)) with (new ++ concat l.*2)%list. rewrite app_assoc, omap_app. apply elem_of_app. by left. }
    apply Forall_app. split; [by eapply Forall_impl; [exact Hf1|]|]. eapply Forall_impl; [exact Hf2|].
    intros v (topic & data & Hin & Ht & Hd). exists topic, data. destruct Hl1 as (<- & _). split; [|done].
    unfold messages, all_events in *. change (concat (((c, new) :: l).*2)) with (new ++ concat l.*2)%list. rewrite app_assoc, Hu.
    rewrite <-(app_assoc used), omap_app. apply elem_of_app. by right.
Qed.

(** *** Topics follow the subnets *)

(** A peer that is new can only bring the next publication forward. *)
Lemma new_peer_sooner c b : next_publish_timestamp (publish_for_new_peer c b) ≤ next_publish_timestamp b.
Proof.
  unfold publish_for_new_peer. destruct (provided b); [done|]. case_bool_decide; [done|]. case_bool_decide; [done|]. cbn. lia.
Qed.

Definition topics (network : string) (l : list SubnetID) : gset TopicHash := list_to_set (voting_topic network <$> l).
(** The node listens to the votes of the subnets that it provides, and to no others. *)
Definition topics_match (b : Behaviour) : Prop := voting_topics b = topics (network_name b) (provided b).

Lemma subscribe_spec s b :
  ∃ g, match voting_subscribe s b with
       | (Done _, b') => b' = set_topics (voting_topics b ∪ {[voting_topic (network_name b) s]}) (preemptive_topics b) (set_inner g b)
       | (Fail _, b') => b' = set_inner g b
       | _ => False
       end.
Proof.
  unfold voting_subscribe, mbind, io_bind, io_reads, on_inner, update. destruct (gossip_subscribe _ _) as [[e|x] g]; by exists g.
Qed.
Lemma unsubscribe_spec s b :
  ∃ g, match voting_unsubscribe s b with
       | (Done _, b') => b' = set_topics (voting_topics b ∖ {[voting_topic (network_name b) s]}) (preemptive_topics b) (set_inner g b)
       | (Fail _, b') => b' = set_inner g b
       | _ => False
       end.
Proof.
  unfold voting_unsubscribe, mbind, io_bind, io_reads, on_inner, update. destruct (gossip_unsubscribe _ _) as [[e|x] g]; by exists g.
Qed.

Lemma for_each_unsubscribes (l old : list SubnetID) b u b' :
  for_each (λ s, if bool_decide (s ∈ l) then mret tt else voting_unsubscribe s) old b = (Done u, b') →
  network_name b' = network_name b ∧ voting_topics b' = voting_topics b ∖ topics (network_name b) (filter (λ s, s ∉ l) old).
Proof.
  revert b. induction old as [|s old IH]; intros b; cbn [for_each].
  { intros [= _ <-]. split; [done|]. unfold topics. set_solver. }
  unfold mbind, io_bind. rewrite filter_cons. case_bool_decide as Hs.
  - rewrite decide_False by tauto. apply IH.
  - rewrite decide_True by done. destruct (unsubscribe_spec s b) as [g Hu]. destruct (voting_unsubscribe s b) as [[|e| | |] b1]; try done. subst b1.
    intros Hf. apply IH in Hf as [Hn Hv]. split; [done|]. rewrite Hv. cbn. unfold topics. set_solver.
Qed.
Lemma for_each_subscribes (l old : list SubnetID) b u b' :
  for_each (λ s, if bool_decide (s ∈ old) then mret tt else voting_subscribe s) l b = (Done u, b') →
  network_name b' = network_name b ∧ voting_topics b' = voting_topics b ∪ topics (network_name b) (filter (λ s, s ∉ old) l).
Proof.
  revert b. induction l as [|s l IH]; intros b; cbn [for_each].
  { intros [= _ <-]. split; [done|]. unfold topics. set_solver. }
  unfold mbind, io_bind. rewrite filter_cons. case_bool_decide as Hs.
  - rewrite decide_False by tauto. apply IH.
  - rewrite decide_True by done. destruct (subscribe_spec s b) as [g Hu]. destruct (voting_subscribe s b) as [[|e| | |] b1]; try done. subst b1.
    intros Hf. apply IH in Hf as [Hn Hv]. split; [done|]. rewrite Hv. cbn. unfold topics. set_solver.
Qed.

Lemma publish_matches c b r b' : publish_membership c b = (r, b') → topics_match b → topics_match b'.
Proof. intros Hp. apply publish_frame in Hp as [(Hv & Hn & _ & Hp) _]. unfold topics_match. congruence. Qed.

Section matching.
Context {network : string} `{!Inj (=) (=) (voting_topic network)}.

Lemma topics_elem t l : t ∈ topics network l ↔ ∃ s, t = voting_topic network s ∧ s ∈ l.
Proof. unfold topics. rewrite elem_of_list_to_set, list_elem_of_fmap. done. Qed.

Lemma topics_filter t (P : SubnetID → Prop) `{!∀ s, Decision (P s)} l :
  t ∈ topics network (filter P l) ↔ ∃ s, t = voting_topic network s ∧ P s ∧ s ∈ l.
Proof. rewrite topics_elem. f_equiv. intros s. by rewrite list_elem_of_filter. Qed.

(** Whatever the call ends in, also if the subscription or the publication fails. *)
Lemma add_matches c s b r b' : network_name b = network → add_provided_subnet c s b = (r, b') → topics_match b → topics_match b'.
Proof.
  intros Hn Ha Hm. unfold add_provided_subnet, mbind, io_bind, io_reads in Ha. case_bool_decide; [by injection Ha as _ <-|].
  destruct (subscribe_spec s b) as [g Hu]. destruct (voting_subscribe s b) as [[|e| | |] b1]; try done; subst b1; [|by injection Ha as _ <-].
  apply publish_matches in Ha; [done|]. unfold topics_match in *. cbn. rewrite Hm. unfold topics. rewrite fmap_app, list_to_set_app_L. set_solver.
Qed.
Lemma remove_matches c s b r b' : network_name b = network → remove_provided_subnet c s b = (r, b') → topics_match b → topics_match b'.
Proof.
  intros Hn Ha Hm. unfold remove_provided_subnet, mbind, io_bind, io_reads in Ha. case_bool_decide; cbn [negb] in Ha; [|by injection Ha as _ <-].
  destruct (unsubscribe_spec s b) as [g Hu]. destruct (voting_unsubscribe s b) as [[|e| | |] b1]; try done; subst b1; [|by injection Ha as _ <-].
  apply publish_matches in Ha; [done|]. unfold topics_match in *. cbn -[filter topics]. rewrite Hm, Hn. apply set_eq. intros t.
  rewrite elem_of_difference, elem_of_singleton, topics_filter, topics_elem. naive_solver.
Qed.
(** The whole list changes: unless a subscription fails, when the list is lost. *)
Lemma set_matches c l b u b' : network_name b = network → set_provided_subnets c l b = (Done u, b') → topics_match b → topics_match b'.
Proof.
  intros Hn Ha Hm. unfold set_provided_subnets, mbind, io_bind, io_reads, update in Ha.
  match type of Ha with context [for_each ?f (provided b) ?x] => destruct (for_each f (provided b) x) as [[u1| | | |] b1] eqn:Hun; try done end.
  match type of Ha with context [for_each ?f l ?x] => destruct (for_each f l x) as [[u2| | | |] b2] eqn:Hsub; try done end.
  apply for_each_unsubscribes in Hun as [Hn1 Hv1]. apply for_each_subscribes in Hsub as [Hn2 Hv2].
  apply publish_matches in Ha; [done|]. unfold topics_match in *. cbn -[filter topics] in *. rewrite Hv2, Hv1, Hm, Hn2, Hn1, Hn. apply set_eq. intros t.
  rewrite elem_of_union, elem_of_difference, !topics_filter, !topics_elem. split.
  - intros [[(s & -> & Hs) Hno]|(s & -> & _ & Hs)]; [|by exists s]. exists s. split; [done|]. apply dec_stable. intros Hl. apply Hno. by exists s.
  - intros (s & -> & Hs). destruct (decide (s ∈ provided b)) as [Hb|Hb]; [left|right; by exists s]. split; [by exists s|].
    intros (s' & Heq & Hs' & _). apply (inj _) in Heq as <-. done.
Qed.
End matching.
End membership.


(** ** Into the tally *)

(** [bloom]: whether a peer was looked up before. *)
Class LookupFilter `{Envelopes} := {
  Filter : Type;
  filter_insert : PeerId → Filter → bool * Filter
}.

Section dispatch.
Context `{Profile, Gossipsub, AddressType, !Countable Address, !HashOrder PeerId, !HashOrder SubnetID, !LookupFilter}.
Context `{Countable V, Countable Obj}.
Context `{!RecordCodec (VoteRecord (AppVote V Obj)), !RecordCodec (ProviderRecord PeerId SubnetID)}.
Abbreviation Vote := (VoteRecord (AppVote V Obj)).
Abbreviation Event := (Event (C:=AppVote V Obj)).
Abbreviation tally := (VoteTally PublicKey V Obj).

Inductive ResolverEvent := RPreemptive (subnet : SubnetID) (data : Data) | RVote (r : Vote).

(** The service: the peers that are looked up in the background, and the events that are broadcast. *)
Record Service := MkService { lookup_filter : Filter; lookups : list PeerId; broadcast : list ResolverEvent }.
Definition send (e : ResolverEvent) (s : Service) : Service := MkService (lookup_filter s) (lookups s) (broadcast s ++ [e])%list.

Definition handle_membership_event (s : Service) (e : Event) : Service :=
  match e with
  | Skipped p =>
      let '(fresh, f) := filter_insert p (lookup_filter s) in
      MkService f (if fresh then lookups s ++ [p] else lookups s)%list (broadcast s)
  | Updated _ _ | Removed _ => s
  | ReceivedVote r => send (RVote r) s
  | ReceivedPreemptive subnet data => send (RPreemptive subnet data) s
  end.

(** A vote that the tally refuses is logged. *)
Definition ignore_result {E A} (r : outcome E A * tally) : outcome string unit * tally :=
  match r with
  | (Done _, t) | (Fail _, t) => (Done tt, t)
  | (Retry, t) => (Retry, t)
  | (Panic, t) => (Panic, t)
  | (OutOfFuel, t) => (OutOfFuel, t)
  end.
Definition dispatch_vote (topdown_enabled : bool) (r : Vote) : io tally string unit := λ t,
  match content r with
  | ParentFinality height block_hash =>
      if negb topdown_enabled then (Done tt, t)
      else ignore_result (atomically_or_err (add_vote (public_key r) height block_hash) t)
  | ObjectFinality object => ignore_result (atomically_or_err (add_object_vote (public_key r) object) t)
  end.

(** What the channel yields until it is closed: it skips events that nobody has received in time. *)
Inductive Recv := Received (e : ResolverEvent) | Lagged (n : N).
Fixpoint dispatch_resolver_events (topdown_enabled : bool) (l : list Recv) : io tally string unit :=
  match l with
  | [] => mret tt
  | Received (RPreemptive _ _) :: l => dispatch_resolver_events topdown_enabled l
  | Received (RVote r) :: l => dispatch_vote topdown_enabled r ;; dispatch_resolver_events topdown_enabled l
  | Lagged _ :: l => dispatch_resolver_events topdown_enabled l
  end.

Definition votes_sent (l : list ResolverEvent) : list Vote := omap (λ e, match e with RVote r => Some r | _ => None end) l.
Definition received (l : list Recv) : list ResolverEvent := omap (λ e, match e with Received e => Some e | Lagged _ => None end) l.

Lemma service_votes es s : votes_sent (broadcast (foldl handle_membership_event s es)) = (votes_sent (broadcast s) ++ votes_of es)%list.
Proof.
  revert s. induction es as [|e es IH]; intros s; cbn [foldl]; [by rewrite app_nil_r|]. rewrite IH. unfold votes_sent, votes_of.
  destruct e as [| |p|r|sub data]; cbn; try done.
  - by destruct (filter_insert p (lookup_filter s)).
  - rewrite omap_app. cbn. by rewrite <-app_assoc.
  - rewrite omap_app. cbn. by rewrite app_nil_r.
Qed.

Definition object_voters (t : tally) (o : Obj) : gset PublicKey := default ∅ (object_votes t !! o).

(** What [add_object_vote] promises of each way it can end. *)
Definition object_vote_post (vk : PublicKey) (o : Obj) (t : tally) (r : outcome (Voting.Error PublicKey Obj) (bool * tally)) : Prop :=
  match r with
  | Done (true, t') => (powered t vk ∧ vk ∉ object_voters t o) ∧ t' = set_object_votes (<[o := object_voters t o ∪ {[vk]}]> (object_votes t)) t
  | Done (false, t') => t' = t
  | Fail _ => ¬ powered t vk
  | Retry => pause_object_votes t = true
  | Panic | OutOfFuel => False
  end.
Lemma object_vote_cases vk o t : object_vote_post vk o t (add_object_vote vk o t).
Proof.
  unfold add_object_vote, object_vote_post, object_voters. stm_unfold. destruct (pause_object_votes t) eqn:Hp; [done|].
  rewrite has_power_eq. cbv beta iota. case_bool_decide as Hpow; simpl; [|done]. by case_bool_decide.
Qed.

(** What a vote can add. *)
Lemma dispatch_adds enabled r t x t' :
  dispatch_vote enabled r t = (x, t') →
  (∀ vk h bh, vk ∈ block_votes t' h bh → vk ∈ block_votes t h bh ∨ public_key r = vk ∧ content r = ParentFinality h bh) ∧
  ∀ vk o, vk ∈ object_voters t' o → vk ∈ object_voters t o ∨ public_key r = vk ∧ content r = ObjectFinality o.
Proof.
  unfold dispatch_vote. destruct (content r) as [h bh|o] eqn:Hc.
  - destruct enabled; cbn [negb]; [|intros [= _ <-]; by split; auto]. unfold atomically_or_err.
    pose proof (add_vote_cases (public_key r) h bh t) as Hcases.
    destruct (add_vote (public_key r) h bh t) as [[[|] t1]| | | |]; intros [= _ <-]; try (by split; auto).
    + destruct Hcases as (_ & _ & _ & _ & Hv & Heq). split.
      * intros vk h' bh'. rewrite Hv. case_bool_decide as Hh; [destruct Hh as [-> ->]|auto].
        rewrite elem_of_union, elem_of_singleton. intros [?| ->]; auto.
      * intros vk o. unfold object_voters. rewrite Heq. auto.
    + destruct Hcases as (_ & -> & _). by split; auto.
  - unfold atomically_or_err. destruct (add_object_vote (public_key r) o t) as [[ok t1]| | | |] eqn:Ha; intros [= _ <-]; try (by split; auto).
    pose proof (object_vote_cases (public_key r) o t) as Hcases. rewrite Ha in Hcases. destruct ok; cbn in Hcases; [|subst t1; by split; auto].
    destruct Hcases as [_ ->]. split; [auto|]. intros vk o'. unfold object_voters. cbn.
    destruct (decide (o' = o)) as [->|Hne]; [|rewrite lookup_insert_ne by done; auto].
    rewrite lookup_insert_eq. cbn. rewrite elem_of_union, elem_of_singleton. intros [?| ->]; auto.
Qed.

Lemma dispatch_all_adds enabled l t x t' :
  dispatch_resolver_events enabled l t = (x, t') →
  (∀ vk h bh, vk ∈ block_votes t' h bh → vk ∈ block_votes t h bh ∨ ∃ r, r ∈ votes_sent (received l) ∧ public_key r = vk ∧ content r = ParentFinality h bh) ∧
  ∀ vk o, vk ∈ object_voters t' o → vk ∈ object_voters t o ∨ ∃ r, r ∈ votes_sent (received l) ∧ public_key r = vk ∧ content r = ObjectFinality o.
Proof.
  revert t. induction l as [|[[sub data|r]|n] l IH]; intros t Hd; cbn [dispatch_resolver_events] in Hd.
  - injection Hd as _ <-. by split; auto.
  - apply IH in Hd as [Hb Ho]. split; auto.
  - unfold mbind, io_bind in Hd. destruct (dispatch_vote enabled r t) as [y t1] eqn:Hv. pose proof (dispatch_adds _ _ _ _ _ Hv) as [Hb1 Ho1].
    assert (r ∈ votes_sent (received (Received (RVote r) :: l))) as Hr by (by left).
    assert (∀ v, v ∈ votes_sent (received l) → v ∈ votes_sent (received (Received (RVote r) :: l))) as Hl by (intros v; by right).
    destruct y; [apply IH in Hd as [Hb Ho]|injection Hd as _ <-..]; (split; [intros vk h bh Hin|intros vk o Hin]).
    1: destruct (Hb _ _ _ Hin) as [Hin1|(v & ? & ? & ?)]; [clear Hin; rename Hin1 into Hin|right; exists v; by auto].
    2: destruct (Ho _ _ Hin) as [Hin1|(v & ? & ? & ?)]; [clear Hin; rename Hin1 into Hin|right; exists v; by auto].
    all: first [apply Hb1 in Hin|apply Ho1 in Hin]; destruct Hin as [?|[? ?]]; [by left|right; exists r; auto].
  - apply IH in Hd as [Hb Ho]. split; auto.
Qed.

(** A node: what gossip yields, and what the service makes of it. *)
Definition gossip_run (l : list (Clock * list GossipEvent)) (b : Behaviour (C:=AppVote V Obj)) (s : Service) : list GossipEvent * Behaviour (C:=AppVote V Obj) * Service :=
  let '(es, pend, b) := polls l [] b in (pend, b, foldl handle_membership_event s es).

(** The envelope in the data has a valid signature of the key, of a vote with the content. *)
Definition signed_vote (data : Data) (vk : PublicKey) (x : AppVote V Obj) : Prop :=
  ∃ e payload r, from_protobuf_encoding data = inr e ∧ payload_and_signing_key e DOMAIN_SEP "/ipc/vote-record" = inr (payload, vk) ∧
    decode_record payload = inr r ∧ content (C:=AppVote V Obj) r = x.
Definition heard (b : Behaviour (C:=AppVote V Obj)) (l : list (Clock * list GossipEvent)) (vk : PublicKey) (x : AppVote V Obj) : Prop :=
  ∃ topic data, (topic, data) ∈ messages (all_events l) ∧ topic ∈ voting_topics b ∧ signed_vote data vk x.

Lemma run_heard l b s pend b' s' :
  outbox b = [] → broadcast s = [] → gossip_run l b s = (pend, b', s') →
  ∀ r, r ∈ votes_sent (broadcast s') → heard b l (public_key r) (content r).
Proof.
  intros Hout Hs. unfold gossip_run. destruct (polls l [] b) as [[es p] b1] eqn:Hp. intros [= _ _ <-] r. rewrite service_votes, Hs. cbn [app votes_sent omap list_omap].
  intros Hr. apply polls_votes in Hp as (_ & v & Hv & Hf). rewrite Hout in Hv. cbn in Hv.
  assert (r ∈ v) as Hin by (rewrite <-Hv; apply elem_of_app; by left).
  destruct (proj1 (Forall_forall _ _) Hf _ Hin) as (topic & data & Hm & Ht & Hd). exists topic, data. split; [done|]. split; [done|].
  apply vote_in_signed in Hd as (e & payload & He & Hpay & Hdec). exists e, payload, r. done.
Qed.

(** C15: whatever the network sends, a vote that the tally counts after a node has handled it was counted before,
    or has come in a message on a topic of votes that the node listens to, in an envelope with a valid signature of the validator.
    The channel between the service and the tally may lose events. *)
Theorem gossiped_votes_signed l b s pend b' s' lossy enabled t x t' :
  outbox b = [] → broadcast s = [] → gossip_run l b s = (pend, b', s') →
  received lossy ⊆ broadcast s' → dispatch_resolver_events enabled lossy t = (x, t') →
  (∀ vk h bh, vk ∈ block_votes t' h bh → vk ∈ block_votes t h bh ∨ heard b l vk (ParentFinality h bh)) ∧
  ∀ vk o, vk ∈ object_voters t' o → vk ∈ object_voters t o ∨ heard b l vk (ObjectFinality o).
Proof.
  intros Hout Hs Hrun Hsub Hd. pose proof (run_heard _ _ _ _ _ _ Hout Hs Hrun) as Hh.
  assert (∀ r, r ∈ votes_sent (received lossy) → heard b l (public_key r) (content r)) as Hr.
  { intros r Hr. apply Hh. unfold votes_sent in *. apply list_elem_of_omap in Hr as (e & He & Hv). apply list_elem_of_omap. exists e. split; [by apply Hsub|done]. }
  apply dispatch_all_adds in Hd as [Hb Ho]. split.
  - intros vk h bh Hin. destruct (Hb _ _ _ Hin) as [?|(r & Hin' & <- & <-)]; [by left|right; by apply Hr].
  - intros vk o Hin. destruct (Ho _ _ Hin) as [?|(r & Hin' & <- & <-)]; [by left|right; by apply Hr].
Qed.

(** *** Votes reach the tally *)

Abbreviation B := (Behaviour (C:=AppVote V Obj)).
Definition vote_message (topic : TopicHash) (sr : SignedRecord Vote) : GossipEvent := Message topic (into_protobuf_encoding (envelope sr)).
Definition readable (sr : SignedRecord Vote) : Prop := from_bytes (into_protobuf_encoding (envelope sr)) = inr sr.

Lemma poll_inner_raises c topic l (b : B) :
  topic ≠ membership_topic b → topic ∈ voting_topics b → Forall readable l →
  poll_inner c (vote_message topic <$> l) b = (None, [], set_outbox (outbox b ++ (ReceivedVote ∘ record <$> l)) b).
Proof.
  intros Hm Ht Hl. revert b Hm Ht. induction Hl as [|sr l Hsr Hl IH]; intros b Hm Ht; cbn [fmap list_fmap poll_inner vote_message].
  { rewrite app_nil_r. by destruct b. }
  unfold handle_message. rewrite bool_decide_eq_false_2, bool_decide_eq_true_2, Hsr by done.
  etrans; [by apply (IH (handle_vote_record (record sr) b))|]. cbn. by rewrite <-app_assoc.
Qed.

Lemma polls_drain c l (b : B) : polls (replicate (length l) (c, [])) [] (set_outbox l b) = (l, [], set_outbox [] b).
Proof. revert b. induction l as [|e l IH]; intros b; [done|]. cbn [length replicate polls poll outbox set_outbox app]. change (set_outbox l (set_outbox (e :: l) b)) with (set_outbox l b). by rewrite IH. Qed.

(** Enough polls deliver every vote, in order. *)
Lemma polls_deliver c topic l (b : B) :
  outbox b = [] → instant c < deadline (publish_interval b) →
  topic ≠ membership_topic b → topic ∈ voting_topics b → Forall readable l →
  polls ((c, vote_message topic <$> l) :: replicate (length l) (c, [])) [] b = (ReceivedVote ∘ record <$> l, [], b).
Proof.
  intros Ho Hi Hm Ht Hl. cbn [polls app]. unfold poll at 1. rewrite Ho. unfold poll_tick. rewrite bool_decide_eq_false_2 by lia.
  replace (set_schedule _ _ _ b) with b by (by destruct b). rewrite (poll_inner_raises c topic l b) by done. rewrite Ho. cbn [app].
  pose proof (polls_drain c (ReceivedVote ∘ record <$> l) b) as Hd. rewrite length_fmap in Hd. rewrite Hd. f_equal. destruct b; cbn in *. by subst.
Qed.

Lemma service_broadcasts l s :
  broadcast (foldl handle_membership_event s (ReceivedVote <$> l)) = (broadcast s ++ (RVote <$> l))%list.
Proof. revert s. induction l as [|r l IH]; intros s; cbn; [by rewrite app_nil_r|]. rewrite IH. cbn. by rewrite <-app_assoc. Qed.

Lemma dispatch_object enabled (r : Vote) o t :
  content r = ObjectFinality o → pause_object_votes t = false → powered t (public_key r) →
  ∃ t', dispatch_vote enabled r t = (Done tt, t') ∧ power_table t' = power_table t ∧ pause_object_votes t' = false ∧
    object_voters t' o = object_voters t o ∪ {[public_key r]}.
Proof.
  intros Hc Hp Hpow. unfold dispatch_vote, atomically_or_err. rewrite Hc. unfold add_object_vote. stm_unfold. rewrite Hp, has_power_eq. cbv beta iota.
  rewrite bool_decide_eq_true_2 by done. cbn [negb]. fold (object_voters t o). case_bool_decide as Hin; (eexists; split; [reflexivity|]); cbn.
  - split_and!; [done..|]. set_solver.
  - split_and!; [done..|]. unfold object_voters at 1. cbn. by rewrite lookup_insert_eq.
Qed.

Lemma dispatch_objects enabled o l t :
  Forall (λ r : Vote, content r = ObjectFinality o ∧ powered t (public_key r)) l → pause_object_votes t = false →
  ∃ t', dispatch_resolver_events enabled (Received ∘ RVote <$> l) t = (Done tt, t') ∧ power_table t' = power_table t ∧
    pause_object_votes t' = false ∧ object_voters t' o = object_voters t o ∪ list_to_set (public_key <$> l).
Proof.
  intros Hl. revert t Hl. induction l as [|r l IH]; intros t Hl Hp.
  { exists t. split_and!; [done..|]. set_solver. }
  apply Forall_cons in Hl as [[Hc Hpow] Hl]. destruct (dispatch_object enabled r o t Hc Hp Hpow) as (t1 & Hd & Hpt & Hp1 & Hv1).
  destruct (IH t1) as (t2 & Hd2 & Hpt2 & Hp2 & Hv2); [|done|].
  { eapply Forall_impl; [exact Hl|]. intros v [? ?]. split; [done|]. unfold powered in *. by rewrite Hpt. }
  exists t2. cbn [fmap list_fmap compose dispatch_resolver_events]. unfold mbind, io_bind. rewrite Hd, Hd2. split_and!; [done|congruence|done|].
  rewrite Hv2, Hv1. cbn [fmap list_fmap list_to_set]. set_solver.
Qed.

(** What the validators have signed for the object, each for a subnet and at a time of its own. *)
Definition signs (o : Obj) (v : Keypair * Clock * SubnetID) (sr : SignedRecord Vote) : Prop :=
  vote_signed v.1.2 v.1.1 v.2 (ObjectFinality o) = inr sr.

Lemma signs_readable `{!EnvelopeLaws, !RecordLaws Vote} o v sr :
  signs o v sr → readable sr ∧ public_key (record sr) = public v.1.1 ∧ content (record sr) = ObjectFinality o.
Proof.
  intros Hs. destruct (signed_roundtrip _ _ _ Hs) as [Hr Hb]; [by apply bool_decide_eq_true_2|]. split; [done|]. by rewrite Hr.
Qed.

(** C16: votes for an object that powered validators have signed, and that arrive on a topic of votes that the node
    listens to, go through the behaviour, the service and the dispatcher into the tally; if their weight is the threshold then the
    object has a quorum.  The subnets that the votes were signed for and the times of their records are arbitrary: votes that were cast in another
    subnet, at any time, make a quorum here if someone sends them on a topic of this one. *)
Theorem votes_reach_quorum `{!EnvelopeLaws, !RecordLaws Vote} c topic (b : B) s enabled t (o : Obj) (vs : list (Keypair * Clock * SubnetID)) srs :
  outbox b = [] → instant c < deadline (publish_interval b) → topic ≠ membership_topic b → topic ∈ voting_topics b →
  Forall2 (signs o) vs srs → Forall (λ v, powered t (public v.1.1)) vs →
  broadcast s = [] → pause_object_votes t = false → total_weight (power_table t) * 2 < u64_size →
  threshold t ≤ set_weight (power_table t) (list_to_set ((λ v, public v.1.1) <$> vs)) →
  ∃ s' t', gossip_run ((c, vote_message topic <$> srs) :: replicate (length srs) (c, [])) b s = ([], b, s') ∧
    dispatch_resolver_events enabled (Received <$> broadcast s') t = (Done tt, t') ∧
    ∃ t'', find_object_quorum (E:=string) o t' = Done (true, t'').
Proof.
  intros Ho Hi Hm Ht Hs Hpow Hbc Hp Htot Hq.
  assert (Forall readable srs ∧ public_key ∘ record <$> srs = (λ v, public v.1.1) <$> vs ∧
    Forall (λ r : Vote, content r = ObjectFinality o ∧ powered t (public_key r)) (record <$> srs)) as (Hread & Hkeys & Hrec).
  { clear Hq. induction Hs as [|v sr vs srs Hv Hs IH]; [done|]. apply Forall_cons in Hpow as [Hv' Hpow].
    destruct (IH Hpow) as (? & Hk & ?). apply signs_readable in Hv as (? & Hk' & ?). split_and!; [by constructor|cbn; by rewrite Hk, Hk'|].
    cbn. constructor; [|done]. by rewrite Hk'. }
  unfold gossip_run. rewrite (polls_deliver c topic srs b) by done.
  destruct (dispatch_objects enabled o (record <$> srs) t Hrec Hp) as (t' & Hd & Hpt & _ & Hv).
  eexists _, t'. split; [reflexivity|].
  replace (ReceivedVote ∘ record <$> srs) with (ReceivedVote (C:=AppVote V Obj) <$> (record <$> srs)) by (by rewrite <-list_fmap_compose).
  rewrite service_broadcasts, Hbc. cbn [app]. rewrite <-list_fmap_compose. split; [exact Hd|].
  eexists. rewrite find_object_quorum_eq by (by rewrite Hpt). fold (object_voters t' o). rewrite bool_decide_eq_true_2; [done|]. left.
  rewrite Hpt, Hv, <-list_fmap_compose, Hkeys. unfold threshold in *. rewrite Hpt. etrans; [exact Hq|]. apply set_weight_mono. set_solver.
Qed.
End dispatch.

(** ** A node on a network *)

Module SampleGossip.
#[local] Existing Instances dev_profile sample_addresses.
#[export] Instance address_countable : Countable Address.
Proof. unfold Address, sample_addresses. apply _. Defined.
Abbreviation App := (AppVote N N).

Inductive data :=
| VoteBytes (key : N) (subnet : SubnetID) (x : App) (at_time : N)
| ProviderBytes (peer : N) (subnets : list SubnetID) (at_time : N)
| EnvelopeBytes (key : N) (domain type : string) (payload : data)
| OtherBytes.
Record sealed := Seal { sealed_by : N; sealed_for : string; sealed_type : string; sealed_data : data }.

#[export] Instance seals : Envelopes := {|
  Keypair := N; PublicKey := N; PeerId := N; Data := data; Envelope := sealed;
  public k := k;
  to_peer_id k := k;
  envelope_new k domain ty payload := inr (Seal k domain ty payload);
  into_protobuf_encoding e := EnvelopeBytes (sealed_by e) (sealed_for e) (sealed_type e) (sealed_data e);
  from_protobuf_encoding d := match d with EnvelopeBytes k domain ty payload => inr (Seal k domain ty payload) | _ => inl "no envelope" end;
  payload_and_signing_key e domain ty :=
    if bool_decide (sealed_for e = domain ∧ sealed_type e = ty) then inr (sealed_data e, sealed_by e) else inl "of another type"
|}.
#[export] Instance seals_laws : EnvelopeLaws.
Proof.
  intros k domain ty payload e He. injection He as <-. cbn. split; [reflexivity|]. case_bool_decide as Hb; [reflexivity|]. destruct Hb. by split.
Qed.

(** A network that refuses one of the topics. *)
#[export] Instance net : Gossipsub := {|
  TopicHash := string;
  ident_topic s := s;
  sha256_topic s := String.append "sha256" s;
  Gossip := list string;
  Action := unit;
  gossip_subscribe t g := if bool_decide (t ∈ g) then (inl "refused", g) else (inr true, g);
  gossip_unsubscribe t g := (inr true, g);
  gossip_publish t d g := (inr tt, g)
|}.
#[export] Instance vote_codec : RecordCodec (VoteRecord App) := {|
  encode_record r := inr (VoteBytes (public_key r) (vote_subnet r) (content r) (vote_timestamp r));
  decode_record d := match d with VoteBytes k s x t => inr (MkVote (H:=seals) k s x t) | _ => inl "no vote" end
|}.
#[export] Instance provider_codec : RecordCodec (ProviderRecord PeerId SubnetID) := {|
  encode_record r := inr (ProviderBytes (peer_id r) (subnet_ids r) (timestamp r));
  decode_record d := match d with ProviderBytes p l t => inr (MkRecord p l t) | _ => inl "no record" end
|}.
#[export] Instance vote_laws : RecordLaws (VoteRecord App).
Proof. intros r d Hd. injection Hd as <-. by destruct r. Qed.
#[export] Instance peers_order : HashOrder PeerId :=
  {| hash_iter A m := map_to_list m; hash_iter_perm A m := reflexivity (map_to_list m) |}.
#[export] Instance subnets_order : HashOrder SubnetID :=
  {| hash_iter A m := map_to_list m; hash_iter_perm A m := reflexivity (map_to_list m) |}.
#[export] Instance no_bloom : LookupFilter := {| Filter := gset N; filter_insert p f := (bool_decide (p ∉ f), {[p]} ∪ f) |}.

Definition here : SubnetID := MkSubnet 1 [true].
Definition elsewhere : SubnetID := MkSubnet 1 [false].
Definition start : Clock := MkClock 1000 0.
Definition later : Clock := MkClock 1001 10.
Definition config : Config := MkConfig [here] 100 60000000000 5000000000 300000000000.
Abbreviation NodeState := (Behaviour (C:=App)).
Definition blank : NodeState := MkBehaviour [] [] 9 "net" [] ∅ ∅ (ProviderCache.new 100 []) (MkInterval 0 0) 0 0 0 0.
(** A node that provides the subnet, on a network that refuses the topics of the list. *)
Definition node_on (refused : Gossip) : NodeState :=
  match behaviour_new refused 9 "net" config start with
  | Done b => (add_provided_subnet start here b).2
  | _ => blank
  end.
Definition node : NodeState := node_on [].
Definition topic : TopicHash := voting_topic "net" here.
Definition idle : Service := MkService (V:=N) (Obj:=N) ∅ [] [].
Definition board : VoteTally PublicKey N N := Voting.new [(1, 1); (2, 1); (3, 1)] (5, 50).

(** Three validators vote for an object, in another subnet. *)
Definition voters : list (N * Clock * SubnetID) := [(1, start, elsewhere); (2, start, elsewhere); (3, start, elsewhere)].
Definition foreign_vote (k : N) : SignedRecord (VoteRecord App) :=
  let r := MkVote (H:=seals) k elsewhere (ObjectFinality 7) 1000 in
  MkSigned r (Seal k DOMAIN_SEP "/ipc/vote-record" (VoteBytes k elsewhere (ObjectFinality 7) 1000)).
Definition foreign : list (SignedRecord (VoteRecord App)) := foreign_vote <$> [1; 2; 3].

Lemma votes_reach_quorum_witness :
  ∃ s' t', gossip_run ((later, vote_message topic <$> foreign) :: replicate 3 (later, [])) node idle = ([], node, s') ∧
    dispatch_resolver_events true (Received <$> broadcast s') board = (Done tt, t') ∧
    ∃ t'', find_object_quorum (E:=string) 7 t' = Done (true, t'').
Proof.
  apply (votes_reach_quorum later topic node idle true board 7 voters foreign).
  - vm_compute. reflexivity.
  - vm_compute. reflexivity.
  - vm_compute. discriminate.
  - apply (bool_decide_unpack _). vm_compute. exact I.
  - repeat constructor.
  - repeat constructor; right; vm_compute; reflexivity.
  - reflexivity.
  - reflexivity.
  - vm_compute. reflexivity.
  - vm_compute. discriminate.
Defined.

(** A vote that is not signed by the validator that it names does not count. *)
Definition forged : GossipEvent := Message topic (EnvelopeBytes 2 DOMAIN_SEP "/ipc/vote-record" (VoteBytes 1 here (ObjectFinality 7) 1000)).
Definition two_messages : list (Clock * list GossipEvent) := [(later, [forged; vote_message topic (foreign_vote 2)]); (later, [])].
Definition served : Service := (gossip_run two_messages node idle).2.
Definition counted : VoteTally PublicKey N N := (dispatch_resolver_events true (Received <$> broadcast served) board).2.

Lemma gossiped_votes_signed_witness :
  object_voters counted 7 = {[2]} ∧ (2 ∈ object_voters board 7 ∨ heard node two_messages 2 (ObjectFinality 7)).
Proof.
  split; [vm_compute; reflexivity|].
  pose proof (gossiped_votes_signed two_messages node idle (gossip_run two_messages node idle).1.1 (gossip_run two_messages node idle).1.2 served
    (Received <$> broadcast served) true board (dispatch_resolver_events true (Received <$> broadcast served) board).1 counted) as Hg.
  refine (proj2 (Hg _ _ _ _ _) 2 7 _).
  - vm_compute. reflexivity.
  - reflexivity.
  - unfold served. by destruct (gossip_run two_messages node idle) as [[x y] z].
  - unfold received. intros e. rewrite list_elem_of_omap. intros (r & Hr & He). apply list_elem_of_fmap in Hr as (e' & -> & Hr). by injection He as <-.
  - unfold counted. apply surjective_pairing.
  - apply (bool_decide_unpack _). vm_compute. exact I.
Defined.

(** A subscription that fails while the list is replaced: the node provides nothing, and still listens to the votes. *)
Example failed_update_forgets :
  let b := node_on [voting_topic "net" elsewhere] in
  let r := set_provided_subnets start [here; elsewhere] b in
  provided b = [here] ∧ r.1 = Fail "refused" ∧ provided r.2 = [] ∧ topic ∈ voting_topics r.2.
Proof. cbv zeta. split_and!; [vm_compute; reflexivity..|]. apply (bool_decide_unpack _). vm_compute. exact I. Qed.

(** An event may wait in the outbox although the poll has said that there is nothing to do. *)
Example event_waits :
  let '(r, rest, b) := poll later [vote_message topic (foreign_vote 2)] node in r = Pending ∧ rest = [] ∧ votes_of (outbox b) = [record (foreign_vote 2)].
Proof. vm_compute. split_and!; reflexivity. Qed.
End SampleGossip.
